(* ===== verification/_CoqProject ===== *)
-Q . S2P
Prelude.v
GoBytes.v
Hashes.v
Chunker.v
Bloom.v
HashTable.v
GoRuntime.v
HashBuild.v
HashIndex.v
Delta.v
Fold.v
Crypto.v
Dedup.v
Retention.v
GoTime.v
Forget.v
DiskLayout.v
Gpt.v
Mbr.v
Fit.v
Fitted.v
FitApplied.v
Dnm.v
DnmFile.v
DnmAccess.v
GoFiles.v
Machine.v
ManifestRepo.v
PackStore.v
PackCache.v
Packs.v
Preprocess.v
RepoConfig.v
Rebuild.v
Rebuilt.v
PruneSwap.v
PruneRefs.v
Prune.v
Segment.v
Resume.v
Sequencer.v
Pipeline.v
Backups.v
Suspended.v
GoPath.v
FileMode.v
Restore.v
FileRestore.v
FileStream.v
FileWalk.v
FileExclude.v
BareMetal.v
Cloned.v
Restored.v
ClonedFit.v
DiskRestored.v
DiskOrder.v
FilesRestored.v
TreeRestored.v
Verified.v
Roundtrip.v
FileRoundtrip.v
