(* ===== verification/Prelude.v ===== *)
(** * disknexus-engine: a verification library

    disknexus-engine is a Go backup engine.  A volume is read as a byte stream and
    cut into content-defined chunks (src/core/chunker); each chunk is looked up by
    its SHA-256 in a deduplication index (src/core/index) and stored once; a
    manifest records which chunks make up the backup; retention and forget
    (src/core/retention, src/core/forget) decide which backups stay; keys and
    index files are sealed by src/core/crypto.  Chunks live in pack files
    (src/core/store); files are walked and restored by src/filemode and
    src/core/restore; prune rewrites them without orphans (src/core/prune);
    checkpoints let an interrupted backup resume (src/core/checkpoint,
    src/core/resume).  This library models these parts from their file formats up to
    whole runs, and proves what makes each correct.

    ** Conventions

    Integers are [Z], kept at their Go width where the code can overflow; bytes are
    [Z] in 0..255 and files are [bytes].  Fallible functions return
    [result error value]; a Go panic is an explicit error constructor or [None].
    Go maps are [gmap]s.  Iteration order over a map and the order [sort] gives to
    equal elements are class parameters (GoRuntime.v), so every theorem holds for
    all of them.  Loops that are not structural take fuel; each file says why the
    fuel it passes is enough and a theorem or lemma shows that it is.  Locks are
    left out: each method holds its lock for its whole body, so one method is
    one step.

    ** Files

    - Prelude.v: scopes, the result type, tactics, list lemmas (this file).
    - GoBytes.v: encoding/binary, slices, reads and writes at offsets.
    - Hashes.v: CRC-32 and SHA-256 as the standard library computes them.
    - Chunker.v: core/chunker.  [buzhashTable], [updateHash], [readByte] over a
      script of reads, [Next], [Reset].  The chunks tile the stream and respect
      the size bounds, do not depend on how reads are split, the rolling hash is
      the hash of the last 48 bytes, and boundaries resynchronise.
    - Bloom.v: core/index/bloom.go.  No false negatives, save and load, and the
      mixer is a bijection.
    - HashTable.v: the entry codec of hashindex.go and hashtable.go.  The file of
      48-byte slots with linear probing refines a finite map; when an insert
      can fail; reopening.
    - GoRuntime.v: the unspecified orders, and lemmas on sorted lists.
    - HashBuild.v: [buildHashTable] of hashindex.go, the K-segment build with
      carries: the table it writes answers as the sorted file.
    - HashIndex.v: the rest of hashindex.go.  A buffer over a table over a sorted
      file refines a finite map through inserts, delta flushes with growth and
      full flushes; durability; count and listing.
    - Delta.v: core/index/delta.go.  Marshalling and the four decoders, which data
      are accepted, the count overflow, pack numbers.
    - Fold.v: core/index/foldstream.go.  The streamed merge equals one-by-one
      inserts for every slab budget, equals open-and-flush, and the filter pass.
    - Crypto.v: core/crypto over a class of primitives with their laws, and a toy
      instance that satisfies them.
    - Dedup.v: dedup.go, deltacapture.go, deltaapply.go.  Its two tiers are used
      through the classes [ChunkFilter] and [ChunkIndex], discharged by Bloom.v and
      HashIndex.v.  A session's answers, the journal it captures, closing and
      reopening, discarding, and refusing an encrypted index without its key.
    - Retention.v: core/retention/retention.go.  [Select] keeps exactly the closure
      of its seeds; the prime directive; independence of map order; the ladder;
      termination, and the parent cycles on which it does not terminate.
    - GoTime.v: the calendar of package time.
    - Forget.v: core/forget.  [selectByPolicy], [Protect] and [Run]: a run never
      breaks a surviving backup.
    - DiskLayout.v: core/disklayout (guid, gpt, mbr, relocate, machine): GUID text,
      GPT and MBR parsing, relocation, the machine manifest check.
    - Machine.v: machine.go, machine manifests saved, loaded and listed.
    - Gpt.v, Mbr.v: their theorems.  A relocated GPT parses again to the same
      partitions, partitions lie inside the disk, the EBR walk is bounded, and the
      inputs on which the checks are too weak.
    - Fit.v: core/disklayout/fit.go, planning a layout onto another drive and rewriting its
      table.  Fitted.v: what an applicable plan promises, both ends of the usable range included.  FitApplied.v: the target it is
      applied to parses to the plan.
    - Dnm.v: the record codecs of core/manifest/dnm.go, old versions included.
    - DnmFile.v: dnm_writer.go, dnm_reader.go, dnm_stream.go, catalog_sidecar.go.
      The record [dnm_holds] is what a file promises to its readers; both writers
      establish it and every read is proved from it.
    - DnmAccess.v: entry_accessor.go, entry_chain.go, contenthash.go, dnm_ranged.go.
      The class [Accesses] is the contract of an entry accessor; searches and content
      hashes are proved against it, slices, files and chains are instances.
    - GoFiles.v: directories as maps of files, ReadDir, number text.
    - ManifestRepo.v: manifest.go, migrate.go, repair.go over a directory of files.
    - PackStore.v: core/store (store.go, sparse.go, compression.go), the pack files.
      PackCache.v holds the lemmas, Packs.v the theorems: chunks read back through
      rotations and through every download hook, pack sizes, the frame cache
      invariant, sparse extraction, listing.
    - Preprocess.v: core/preprocess and core/hasher.  Normalisers only clear bytes,
      their names round-trip, and what identity by normalised bytes merges.
    - RepoConfig.v: repository settings, profiles, the index key rule and the resume
      identity of checkpoint.go.
    - Rebuild.v, Rebuilt.v: core/index/rebuild.go; the rebuilt index finds every
      stored chunk (store, rebuild, open, check and retrieve composed).
    - PruneSwap.v: the directory swap and recovery of core/prune as programs of
      file-system calls; crash safety by induction on runs of steps that may be cut
      anywhere.  PruneRefs.v: reference collection.  Prune.v: the whole run.
    - Segment.v, Resume.v: core/checkpoint and core/resume.  The segment codec and the
      append-only file under cuts, checkpoints, and reconciliation by replay or
      rebuild.
    - Sequencer.v: the goroutines of core/pipeline as a step relation.  Order of
      delivery by an invariant, termination by a measure, progress.
    - Pipeline.v: binding.go and the run of pipeline.go; Backups.v: its theorems.  An
      uncancelled backup restores under every schedule, and what interrupts can do to a
      manifest and to a checkpoint.  Suspended.v: a backup suspended any number of times
      and resumed from its checkpoints is a whole one; the record [recorder] is what the
      caller's checkpoint writer promises.
    - Restore.v: core/restore for volumes: the two-pass restore, verification whole,
      sampled and in spans, digests.  Restored.v: a restore writes the backup, and never
      reports success over wrong bytes; the class [Supplies] is what it needs of index
      and store.  Verified.v: any run of spans and checkpoints is one verification, slices and
      streams agree, and a clean verification foretells the restore.
    - Roundtrip.v: backup, load, open and restore composed: the target is the source.
    - GoPath.v: paths, filepath.Match, and a tree of files with the calls on it.
    - FileRestore.v: core/restore for files (filerestore.go, prefetch.go,
      excluded_message.go).  FilesRestored.v: one file from stream ranges, extents or
      inline bytes, with or without prefetching; integrity; what a failure leaves.
      TreeRestored.v: a whole selection, every path of it and no other.
    - FileMode.v: filemode (exclude.go, walker.go, reader.go, cataloghash.go).
      FileStream.v: reading and seeking are those of one stream.  FileWalk.v: the walk
      lists exactly what is not excluded and its ranges hold the files.  FileExclude.v:
      double stars, the repository below a source.
    - BareMetal.v: bmr (bmr.go, fit.go), whole disks restored member by member or cloned,
      in place or into a plan.  Cloned.v: a clone onto a target of the same size is its
      source, and the gaps and tails it loses.  ClonedFit.v: a clone into a plan.
      DiskRestored.v: a restore lays the captured disk over the target, on both paths.
      DiskOrder.v: the fit path writes nothing in front of the partitions before every
      member is restored.
    - FileRoundtrip.v: walk, read, backup, load and restore composed: the restored tree is
      the walked one.

    ** Fuel

    Chunker.v passes the number of bytes still to come; HashTable.v and HashIndex.v
    the number of slots or records; Fold.v the number of records left; Forget.v the
    number of kept and existing ids; Rebuild.v and Segment.v the length of the file plus
    one, since every frame and segment has a header; Pipeline.v the bytes the reader
    still holds; Restore.v the number of entries plus one, since every batch and
    window has an entry; FileMode.v the depth of the tree for a walk and, for a read, the
    size of the buffer plus the number of files, since every turn fills some of it or
    leaves a file; GoPath.v the length of the pattern; BareMetal.v the length to copy over
    the size of the buffer plus one.  Retention.v leaves the fuel to the
    caller: with n backups, fuel above 2n and above the longest parent chain suffices.

    ** Not modelled

    Operating-system failures other than the ones named in each file; progress
    callbacks and logging.  Concurrency is modelled where goroutines share work
    (Sequencer.v).  JSON text (legacy manifests, configuration, checkpoints), zstd,
    xxhash and the cryptographic primitives are parameters; so is the JSON of machine
    manifests.  The floating-point size estimate of the bloom filter is an argument.  Disk
    images, the capture of live disks and the boot report of bmr, disk and restore plans,
    export and import, and volume access are not modelled: they orchestrate
    operating-system devices or foreign formats. *)

From Stdlib Require Export ZArith Lia.
From stdpp Require Export base tactics decidable numbers list sorting gmap strings.

(** ** Scopes *)

Declare Scope engine_scope.
Delimit Scope engine_scope with engine.
#[global] Open Scope engine_scope.
#[global] Open Scope Z_scope.

(** Go's [len(x)], an [int]. *)
Abbreviation len l := (Z.of_nat (length l)) (only parsing).

(** ** Fallible code: Go's [(T, error)] pairs

    Go returns a value and an error; a caller looks at the value only when the
    error is nil.  [Err e] keeps which error was returned. *)

Inductive result (E A : Type) : Type :=
| Ok (a : A)
| Err (e : E).
Arguments Ok {E A} a.
Arguments Err {E A} e.

Definition rbind {E A B} (m : result E A) (k : A → result E B) : result E B :=
  match m with Ok a => k a | Err e => Err e end.

Notation "'let!' x ':=' m 'in' k" := (rbind m (λ x, k))
  (at level 10, x name, m at level 100, k at level 200)
  : engine_scope.
Notation "'let!' ' p ':=' m 'in' k" := (rbind m (λ x, match x with p => k end))
  (at level 10, p pattern, m at level 100, k at level 200)
  : engine_scope.

Definition of_option {E A} (e : E) (o : option A) : result E A :=
  match o with Some a => Ok a | None => Err e end.

Lemma rbind_Ok_inv {E A B} (m : result E A) (k : A → result E B) b :
  rbind m k = Ok b → ∃ a, m = Ok a ∧ k a = Ok b.
Proof. destruct m; simpl; intros; simplify_eq; eauto. Qed.

Lemma Ok_inj {E A} (a b : A) : Ok (E:=E) a = Ok b → a = b.
Proof. by intros [=]. Qed.

(** ** Tactics *)

(** Case analysis on the boolean integer tests of the code, turned into the
    propositions they decide. *)
Ltac zbool :=
  repeat match goal with
  | H : (_ =? _) = true |- _ => apply Z.eqb_eq in H
  | H : (_ =? _) = false |- _ => apply Z.eqb_neq in H
  | H : (_ <? _) = true |- _ => apply Z.ltb_lt in H
  | H : (_ <? _) = false |- _ => apply Z.ltb_ge in H
  | H : (_ <=? _) = true |- _ => apply Z.leb_le in H
  | H : (_ <=? _) = false |- _ => apply Z.leb_gt in H
  | H : (_ >? _) = true |- _ => rewrite Z.gtb_ltb in H
  | H : (_ >? _) = false |- _ => rewrite Z.gtb_ltb in H
  | H : (_ >=? _) = true |- _ => rewrite Z.geb_leb in H
  | H : (_ >=? _) = false |- _ => rewrite Z.geb_leb in H
  | H : (_ && _) = true |- _ => apply andb_prop in H; destruct H
  | H : (_ || _) = false |- _ => apply orb_false_elim in H; destruct H
  | H : negb _ = true |- _ => apply negb_true_iff in H
  | H : negb _ = false |- _ => apply negb_false_iff in H
  end.

(** Split every [if] and [match] of the goal, keeping the equations. *)
Ltac split_matches :=
  repeat (case_match; simplify_eq/=; zbool; try done).

(** Decide a closed proposition by computation. *)
Ltac by_eval := apply (bool_decide_unpack _); vm_compute; exact I.

(** ** Lists *)

Lemma drop_app_add {A} (l k : list A) n :
  drop (length l + n) (l ++ k) = drop n k.
Proof. by rewrite drop_app_ge by lia; replace (length l + n - length l)%nat with n by lia. Qed.

Lemma take_app_exact {A} (l k : list A) n :
  n = length l → take n (l ++ k) = l.
Proof. intros ->. by rewrite take_app_length. Qed.

Lemma drop_app_exact {A} (l k : list A) n :
  n = length l → drop n (l ++ k) = k.
Proof. intros ->. by rewrite drop_app_length. Qed.

Lemma take_add_drop {A} (l : list A) a b : take (a + b) l = take a l ++ take b (drop a l).
Proof.
  rewrite <- (take_drop a (take (a + b) l)) at 1. rewrite take_take, Nat.min_l by lia.
  f_equal. by rewrite take_drop_commute.
Qed.

Lemma StronglySorted_lookup_lt {A} (R : A → A → Prop) l i j x y :
  StronglySorted R l → (i < j)%nat → l !! i = Some x → l !! j = Some y → R x y.
Proof.
  intros Hs. revert i j. induction Hs as [|a l Hs IH Ha]; intros i j Hlt Hi Hj; [done|].
  destruct i as [|i], j as [|j]; simplify_eq/=; try lia.
  - rewrite Forall_forall in Ha. apply Ha. by eapply list_elem_of_lookup_2.
  - eapply (IH i j); [lia|done..].
Qed.

Lemma filter_all {A} (P : A → Prop) `{∀ x, Decision (P x)} l : Forall P l → filter P l = l.
Proof. induction 1 as [|x l Hx Hl IH]; [done|]. rewrite filter_cons_True by done. by f_equal. Qed.
Lemma filter_none {A} (P : A → Prop) `{∀ x, Decision (P x)} l : Forall (λ x, ¬ P x) l → filter P l = [].
Proof. induction 1 as [|x l Hx Hl IH]; [done|]. by rewrite filter_cons_False. Qed.

Lemma StronglySorted_reverse {A} (R : A → A → Prop) l :
  StronglySorted R l → StronglySorted (flip R) (reverse l).
Proof.
  induction 1 as [|x l Hs IH Hx]; [constructor|]. rewrite reverse_cons.
  apply StronglySorted_app. split_and!; [|done|repeat constructor].
  intros a b Ha Hb. apply list_elem_of_singleton in Hb as ->. rewrite elem_of_reverse in Ha.
  rewrite Forall_forall in Hx. by apply Hx.
Qed.
