(* ===== verification/GoBytes.v ===== *)
(** * Bytes, machine integers and random-access files

    What the engine uses of Go's integers, of [encoding/binary] and of
    [os.File]/[io.ReaderAt]: fixed-width integers as [Z] with their
    wrap-around, byte slices as lists of [Z], the little- and big-endian codecs
    and positioned reads and writes on a file held as its bytes. *)

From S2P Require Import Prelude.

Abbreviation bytes := (list Z).

Create HintDb bytes.
Create Rewrite HintDb len.

(** ** Machine integers *)

Definition u8 (z : Z) : Z := z mod 2 ^ 8.
Definition u16 (z : Z) : Z := z mod 2 ^ 16.
Definition u32 (z : Z) : Z := z mod 2 ^ 32.
Definition u64 (z : Z) : Z := z mod 2 ^ 64.
(** [int32(x)] and [int64(x)] reinterpret the low bits as two's complement. *)
Definition i32 (z : Z) : Z := (z + 2 ^ 31) mod 2 ^ 32 - 2 ^ 31.
Definition i64 (z : Z) : Z := (z + 2 ^ 63) mod 2 ^ 64 - 2 ^ 63.

Definition is_u16 (z : Z) : Prop := 0 ≤ z < 2 ^ 16.
Definition is_u32 (z : Z) : Prop := 0 ≤ z < 2 ^ 32.
Definition is_u64 (z : Z) : Prop := 0 ≤ z < 2 ^ 64.
Definition is_i32 (z : Z) : Prop := - 2 ^ 31 ≤ z < 2 ^ 31.
Definition is_i64 (z : Z) : Prop := - 2 ^ 63 ≤ z < 2 ^ 63.

#[export] Instance is_u16_dec z : Decision (is_u16 z).
Proof. unfold is_u16. apply _. Defined.
#[export] Instance is_u32_dec z : Decision (is_u32 z).
Proof. unfold is_u32. apply _. Defined.
#[export] Instance is_u64_dec z : Decision (is_u64 z).
Proof. unfold is_u64. apply _. Defined.
#[export] Instance is_i32_dec z : Decision (is_i32 z).
Proof. unfold is_i32. apply _. Defined.
#[export] Instance is_i64_dec z : Decision (is_i64 z).
Proof. unfold is_i64. apply _. Defined.

Lemma u64_range z : is_u64 (u64 z).
Proof. apply Z.mod_pos_bound. lia. Qed.
Lemma u32_range z : is_u32 (u32 z).
Proof. apply Z.mod_pos_bound. lia. Qed.
Lemma u64_id z : is_u64 z → u64 z = z.
Proof. apply Z.mod_small. Qed.
Lemma u32_id z : is_u32 z → u32 z = z.
Proof. apply Z.mod_small. Qed.
Lemma u16_id z : is_u16 z → u16 z = z.
Proof. apply Z.mod_small. Qed.
Lemma i64_id z : is_i64 z → i64 z = z.
Proof. unfold is_i64, i64. intros. rewrite Z.mod_small; lia. Qed.
Lemma i64_range z : is_i64 (i64 z).
Proof. unfold is_i64, i64. pose proof (Z.mod_pos_bound (z + 2 ^ 63) (2 ^ 64)). lia. Qed.
Lemma i32_id z : is_i32 z → i32 z = z.
Proof. unfold is_i32, i32. intros. rewrite Z.mod_small; lia. Qed.

(** [int64(uint64(v)) = v]: the cast pair every signed field goes through. *)
Lemma i64_u64 z : i64 (u64 z) = i64 z.
Proof. unfold i64, u64. by rewrite Zplus_mod_idemp_l. Qed.
Lemma i32_u32 z : i32 (u32 z) = i32 z.
Proof. unfold i32, u32. by rewrite Zplus_mod_idemp_l. Qed.
Lemma i64_u64_id z : is_i64 z → i64 (u64 z) = z.
Proof. intros. by rewrite i64_u64, i64_id. Qed.
Lemma u64_i64 z : u64 (i64 z) = u64 z.
Proof. unfold i64, u64. rewrite Zminus_mod_idemp_l. f_equal. lia. Qed.
Lemma u64_i64_id z : is_u64 z → u64 (i64 z) = z.
Proof. intros. by rewrite u64_i64, u64_id. Qed.
Lemma i32_u32_id z : is_i32 z → i32 (u32 z) = z.
Proof. intros. by rewrite i32_u32, i32_id. Qed.

#[export] Hint Resolve u64_range i64_range : bytes.

(** Bitwise xor stays within the width. *)
Lemma lxor_range n a b :
  0 ≤ n → 0 ≤ a < 2 ^ n → 0 ≤ b < 2 ^ n → 0 ≤ Z.lxor a b < 2 ^ n.
Proof.
  intros Hn Ha Hb. assert (0 ≤ Z.lxor a b) by (apply Z.lxor_nonneg; lia). split; [done|].
  destruct (Z.eq_dec (Z.lxor a b) 0) as [->|]; [lia|]. apply Z.log2_lt_pow2; [lia|].
  eapply Z.le_lt_trans; [apply Z.log2_lxor; lia|].
  assert (∀ x, 0 ≤ x < 2 ^ n → Z.log2 x < n ∨ n = 0) as Hlog.
  { intros x Hx. destruct (Z.eq_dec x 0) as [->|]; [|left; apply Z.log2_lt_pow2; lia].
    cbn. lia. }
  destruct (Hlog a Ha), (Hlog b Hb); try lia; subst; exfalso.
  all: assert (a = 0) by lia; assert (b = 0) by lia; subst; by destruct n0.
Qed.

(** ** Byte slices *)

Definition is_byte (b : Z) : Prop := 0 ≤ b < 256.
Definition bytes_ok (l : bytes) : Prop := Forall is_byte l.

#[export] Instance is_byte_dec b : Decision (is_byte b).
Proof. unfold is_byte. apply _. Defined.
#[export] Instance bytes_ok_dec l : Decision (bytes_ok l).
Proof. unfold bytes_ok. apply _. Defined.

(** [make([]byte, n)] *)
Definition zeros (n : nat) : bytes := replicate n 0.

(** [b[off : off+n]] for the constant field offsets of a record. *)
Definition sub (l : bytes) (off n : nat) : bytes := take n (drop off l).

Lemma length_sub l off n :
  (off + n ≤ length l)%nat → length (sub l off n) = n.
Proof. intros. unfold sub. rewrite length_take, length_drop. lia. Qed.

Lemma bytes_ok_app l k : bytes_ok (l ++ k) ↔ bytes_ok l ∧ bytes_ok k.
Proof. apply Forall_app. Qed.
Lemma bytes_ok_zeros n : bytes_ok (zeros n).
Proof. apply Forall_replicate. unfold is_byte. lia. Qed.
Lemma bytes_ok_take n l : bytes_ok l → bytes_ok (take n l).
Proof. apply Forall_take. Qed.
Lemma bytes_ok_drop n l : bytes_ok l → bytes_ok (drop n l).
Proof. apply Forall_drop. Qed.
Lemma bytes_ok_sub l off n : bytes_ok l → bytes_ok (sub l off n).
Proof. intros. by apply bytes_ok_take, bytes_ok_drop. Qed.
Lemma length_zeros n : length (zeros n) = n.
Proof. apply length_replicate. Qed.

(** Reading a field of a concatenation: skip the fields before it, or stop
    inside the first one. *)
Lemma sub_app_skip l k off n :
  (length l ≤ off)%nat → sub (l ++ k) off n = sub k (off - length l) n.
Proof. intros. unfold sub. by rewrite drop_app_ge. Qed.
Lemma sub_app_here l k n : length l = n → sub (l ++ k) 0 n = l.
Proof. intros. unfold sub. rewrite drop_0. by apply take_app_exact. Qed.
Lemma sub_all l n : length l = n → sub l 0 n = l.
Proof. intros. unfold sub. rewrite drop_0. by rewrite take_ge by lia. Qed.
Lemma sub_app_inside l k off n :
  (off + n ≤ length l)%nat → sub (l ++ k) off n = sub l off n.
Proof.
  intros. unfold sub. rewrite drop_app_le by lia.
  apply take_app_le. rewrite length_drop. lia.
Qed.

#[export] Hint Resolve bytes_ok_zeros bytes_ok_take bytes_ok_drop bytes_ok_sub : bytes.
#[export] Hint Rewrite @length_app @length_take @length_drop @length_cons @length_rev
  length_zeros @length_replicate @length_fmap @length_insert : len.

(** Lengths of concatenations, normalised for [lia]. *)
Ltac len := autorewrite with len in *; simpl length in *; try lia.

(** Known lengths replaced by their values. *)
Ltac len_norm :=
  autorewrite with len;
  repeat match goal with H : length ?l = _ |- context [length ?l] => rewrite H end;
  cbn [Nat.sub Nat.add].

(** Read a field of a concatenation of fields of known length. *)
Ltac field :=
  repeat first
    [ rewrite sub_app_here by len
    | rewrite sub_all by len
    | rewrite sub_app_skip by len; len_norm ].

(** ** encoding/binary *)

Fixpoint le_put (n : nat) (v : Z) : bytes :=
  match n with
  | O => []
  | S n => v mod 256 :: le_put n (v / 256)
  end.

Fixpoint le_get (l : bytes) : Z :=
  match l with
  | [] => 0
  | b :: l => b + 256 * le_get l
  end.

Definition be_put (n : nat) (v : Z) : bytes := reverse (le_put n v).
Definition be_get (l : bytes) : Z := le_get (reverse l).

(** [binary.LittleEndian.PutUintN] takes a [uintN]; the model's callers convert
    with [u16]/[u32]/[u64] where the source does. *)
Definition PutUint16 (v : Z) : bytes := le_put 2 v.
Definition PutUint32 (v : Z) : bytes := le_put 4 v.
Definition PutUint64 (v : Z) : bytes := le_put 8 v.

Lemma length_le_put n v : length (le_put n v) = n.
Proof. revert v. induction n; simpl; auto. Qed.
Lemma length_be_put n v : length (be_put n v) = n.
Proof. unfold be_put. by rewrite length_reverse, length_le_put. Qed.
Lemma length_PutUint16 v : length (PutUint16 v) = 2%nat.
Proof. done. Qed.
Lemma length_PutUint32 v : length (PutUint32 v) = 4%nat.
Proof. done. Qed.
Lemma length_PutUint64 v : length (PutUint64 v) = 8%nat.
Proof. done. Qed.

#[export] Hint Rewrite length_le_put length_be_put length_PutUint16 length_PutUint32
  length_PutUint64 : len.

Lemma bytes_ok_le_put n v : bytes_ok (le_put n v).
Proof.
  revert v. induction n; simpl; constructor; [|apply IHn].
  unfold is_byte. pose proof (Z.mod_pos_bound v 256). lia.
Qed.
Lemma bytes_ok_be_put n v : bytes_ok (be_put n v).
Proof. unfold be_put. apply Forall_reverse, bytes_ok_le_put. Qed.
#[export] Hint Resolve bytes_ok_be_put : bytes.
Lemma bytes_ok_PutUint16 v : bytes_ok (PutUint16 v).
Proof. apply bytes_ok_le_put. Qed.
Lemma bytes_ok_PutUint32 v : bytes_ok (PutUint32 v).
Proof. apply bytes_ok_le_put. Qed.
Lemma bytes_ok_PutUint64 v : bytes_ok (PutUint64 v).
Proof. apply bytes_ok_le_put. Qed.

#[export] Hint Resolve bytes_ok_le_put bytes_ok_PutUint16 bytes_ok_PutUint32
  bytes_ok_PutUint64 : bytes.

Lemma le_get_put n v : le_get (le_put n v) = v mod 256 ^ Z.of_nat n.
Proof.
  revert v. induction n as [|n IH]; intros v.
  - simpl. by rewrite Z.mod_1_r.
  - cbn [le_put le_get]. rewrite IH, Nat2Z.inj_succ, Z.pow_succ_r by lia.
    rewrite Z.rem_mul_r by lia. lia.
Qed.

Lemma le_get_bound l : bytes_ok l → 0 ≤ le_get l < 256 ^ len l.
Proof.
  induction 1 as [|b l Hb Hl IH]; cbn [le_get length].
  - lia.
  - rewrite Nat2Z.inj_succ, Z.pow_succ_r by lia. unfold is_byte in Hb. lia.
Qed.

Lemma le_put_get l : bytes_ok l → le_put (length l) (le_get l) = l.
Proof.
  induction 1 as [|b l Hb Hl IH]; cbn [le_get length le_put]; [done|].
  unfold is_byte in Hb. f_equal.
  - rewrite Z.mul_comm, Z_mod_plus_full. by apply Z.mod_small.
  - replace (b + 256 * le_get l) with (le_get l * 256 + b) by lia.
    rewrite Z.div_add_l, Z.div_small, Z.add_0_r by lia. done.
Qed.

Lemma le_get_PutUint16 v : is_u16 v → le_get (PutUint16 v) = v.
Proof. intros. unfold PutUint16. rewrite le_get_put. by apply Z.mod_small. Qed.
Lemma le_get_PutUint32 v : is_u32 v → le_get (PutUint32 v) = v.
Proof. intros. unfold PutUint32. rewrite le_get_put. by apply Z.mod_small. Qed.
Lemma le_get_PutUint64 v : is_u64 v → le_get (PutUint64 v) = v.
Proof. intros. unfold PutUint64. rewrite le_get_put. by apply Z.mod_small. Qed.

Lemma le_get_PutUint32_mod v : le_get (PutUint32 v) = u32 v.
Proof. apply le_get_put. Qed.

Lemma PutUint16_le_get l : bytes_ok l → length l = 2%nat → PutUint16 (le_get l) = l.
Proof. intros ? Hl. unfold PutUint16. rewrite <- Hl. by apply le_put_get. Qed.
Lemma PutUint32_le_get l : bytes_ok l → length l = 4%nat → PutUint32 (le_get l) = l.
Proof. intros ? Hl. unfold PutUint32. rewrite <- Hl. by apply le_put_get. Qed.
Lemma PutUint64_le_get l : bytes_ok l → length l = 8%nat → PutUint64 (le_get l) = l.
Proof. intros ? Hl. unfold PutUint64. rewrite <- Hl. by apply le_put_get. Qed.

Lemma le_get_u16 l : bytes_ok l → length l = 2%nat → is_u16 (le_get l).
Proof. intros H Hl. apply le_get_bound in H. by rewrite Hl in H. Qed.
Lemma le_get_u32 l : bytes_ok l → length l = 4%nat → is_u32 (le_get l).
Proof. intros H Hl. apply le_get_bound in H. by rewrite Hl in H. Qed.
Lemma le_get_u64 l : bytes_ok l → length l = 8%nat → is_u64 (le_get l).
Proof. intros H Hl. apply le_get_bound in H. by rewrite Hl in H. Qed.

Lemma le_get_zeros n : le_get (zeros n) = 0.
Proof. induction n; simpl; [done|]. unfold zeros in IHn. lia. Qed.

Lemma le_get_inj l k :
  bytes_ok l → bytes_ok k → length l = length k → le_get l = le_get k → l = k.
Proof.
  intros Hl Hk Hlen Heq. rewrite <- (le_put_get l), <- (le_put_get k) by done. congruence.
Qed.

(** ** Files

    A file is its bytes.  [ReadAt] of [n] bytes at [off] fails when fewer are
    there (io.EOF or io.ErrUnexpectedEOF) or the offset is negative; [WriteAt]
    overwrites in place, extending the file with zeros when it has to. *)

Definition ReadAt (f : bytes) (off n : Z) : option bytes :=
  if (0 <=? off) && (0 <=? n) && (off + n <=? len f)
  then Some (take (Z.to_nat n) (drop (Z.to_nat off) f))
  else None.

Definition WriteAt (f : bytes) (off : Z) (data : bytes) : bytes :=
  take (Z.to_nat off) f ++ zeros (Z.to_nat off - length f) ++ data
    ++ drop (Z.to_nat off + length data) f.

(** [f.Truncate(size)] *)
Definition Truncate (f : bytes) (size : Z) : bytes :=
  take (Z.to_nat size) f ++ zeros (Z.to_nat size - length f).

Lemma ReadAt_Some f off n :
  0 ≤ off → 0 ≤ n → off + n ≤ len f →
  ReadAt f off n = Some (take (Z.to_nat n) (drop (Z.to_nat off) f)).
Proof. intros. unfold ReadAt. by rewrite !(proj2 (Z.leb_le _ _)) by lia. Qed.

Lemma ReadAt_inv f off n d :
  ReadAt f off n = Some d → 0 ≤ off ∧ 0 ≤ n ∧ off + n ≤ len f ∧ len d = n.
Proof.
  unfold ReadAt. intros. case_match; simplify_eq. zbool. len.
Qed.

Lemma length_WriteAt f off d :
  0 ≤ off → off + len d ≤ len f → length (WriteAt f off d) = length f.
Proof. intros. unfold WriteAt. len. Qed.
Lemma length_WriteAt_max f off d : 0 ≤ off → len (WriteAt f off d) = Z.max (len f) (off + len d).
Proof. intros H. unfold WriteAt. rewrite !length_app, length_take, length_zeros, length_drop. lia. Qed.

Lemma WriteAt_in f off d :
  0 ≤ off → off + len d ≤ len f →
  WriteAt f off d = take (Z.to_nat off) f ++ d ++ drop (Z.to_nat off + length d) f.
Proof.
  intros. unfold WriteAt. replace (Z.to_nat off - length f)%nat with 0%nat by lia. done.
Qed.

(** A read after a write sees the write, or, away from it, the old bytes. *)
Lemma ReadAt_WriteAt_eq f off d :
  0 ≤ off → off + len d ≤ len f →
  ReadAt (WriteAt f off d) off (len d) = Some d.
Proof.
  intros. rewrite ReadAt_Some by (rewrite ?length_WriteAt; lia).
  rewrite WriteAt_in by done. f_equal.
  rewrite drop_app_exact by len. apply take_app_exact. lia.
Qed.

Lemma ReadAt_WriteAt_ne f off d off' n :
  0 ≤ off → off + len d ≤ len f →
  off' + n ≤ off ∨ off + len d ≤ off' →
  ReadAt (WriteAt f off d) off' n = ReadAt f off' n.
Proof.
  intros Ho Hd Hdis. unfold ReadAt. rewrite length_WriteAt by done.
  case_match eqn:E; [|done]. zbool. f_equal. rewrite WriteAt_in by done.
  destruct Hdis as [Hlt|Hgt].
  - rewrite drop_app_le by len. rewrite take_app_le by len.
    rewrite !take_drop_commute, take_take. do 2 f_equal. lia.
  - rewrite drop_app_ge by len. rewrite drop_app_ge by len.
    rewrite drop_drop. f_equal. f_equal. len.
Qed.

Lemma bytes_ok_WriteAt f off d :
  bytes_ok f → bytes_ok d → bytes_ok (WriteAt f off d).
Proof. intros. unfold WriteAt. rewrite !bytes_ok_app. auto with bytes. Qed.

Lemma bytes_ok_ReadAt f off n d : bytes_ok f → ReadAt f off n = Some d → bytes_ok d.
Proof. unfold ReadAt. intros. case_match; simplify_eq. auto with bytes. Qed.

(** Fields of an overwritten buffer: away from the write, at it, and the buffer cut
    short after it. *)
Lemma sub_WriteAt_ne f off d o n :
  0 ≤ off → off + len d ≤ len f → (o + n ≤ Z.to_nat off)%nat ∨ (Z.to_nat off + length d ≤ o)%nat →
  sub (WriteAt f off d) o n = sub f o n.
Proof.
  intros Ho Hd Hdis. rewrite WriteAt_in by done. unfold sub. destruct Hdis as [Hlt|Hgt].
  - rewrite drop_app_le by len. rewrite take_app_le by len. rewrite !take_drop_commute, take_take. do 2 f_equal. lia.
  - rewrite drop_app_ge by len. rewrite drop_app_ge by len. rewrite drop_drop. do 2 f_equal. len.
Qed.

Lemma sub_WriteAt_eq f off d n o :
  0 ≤ off → off + len d ≤ len f → o = Z.to_nat off → n = length d → sub (WriteAt f off d) o n = d.
Proof.
  intros Ho Hd -> ->. rewrite WriteAt_in by done. unfold sub. rewrite drop_app_exact by len. by apply take_app_exact.
Qed.

Lemma WriteAt_WriteAt f off a b :
  0 ≤ off → off + len a ≤ len f → length a = length b → WriteAt (WriteAt f off a) off b = WriteAt f off b.
Proof.
  intros Ho Ha Hlen. rewrite (WriteAt_in (WriteAt f off a)) by (rewrite ?length_WriteAt by done; lia).
  rewrite !WriteAt_in by lia. rewrite (take_app_le (take _ f)), take_take, Nat.min_id by len.
  f_equal. f_equal. rewrite Hlen. rewrite drop_app_ge by len. rewrite drop_app_ge by len. rewrite drop_drop. f_equal. len.
Qed.

Lemma ReadAt_sub f off n : 0 ≤ off → 0 ≤ n → off + n ≤ len f → ReadAt f off n = Some (sub f (Z.to_nat off) (Z.to_nat n)).
Proof. apply ReadAt_Some. Qed.

Lemma ReadAt_prefix f n c o m :
  ReadAt f 0 n = Some c → 0 ≤ o → 0 ≤ m → o + m ≤ n → ReadAt c o m = ReadAt f o m.
Proof.
  intros Hc Ho Hm Hle. pose proof (ReadAt_inv _ _ _ _ Hc) as (_ & Hn & Hf & Hl).
  rewrite !ReadAt_sub by lia. f_equal. rewrite ReadAt_sub in Hc by lia. injection Hc as <-.
  unfold sub. rewrite drop_0, !take_drop_commute, take_take. do 2 f_equal. lia.
Qed.

Lemma ReadAt_WriteAt_inside f off d o n :
  0 ≤ off → off + len d ≤ len f → off ≤ o → 0 ≤ n → o + n ≤ off + len d →
  ReadAt (WriteAt f off d) o n = ReadAt d (o - off) n.
Proof.
  intros Ho Hd Hle Hn Hin. rewrite !ReadAt_sub by (rewrite ?length_WriteAt by done; lia). f_equal.
  rewrite WriteAt_in by done. unfold sub. rewrite drop_app_ge by len.
  rewrite drop_app_le by len. rewrite take_app_le by len. do 2 f_equal. len.
Qed.

(** A read that starts where a shorter write did. *)
Lemma ReadAt_WriteAt_cover f off d n old :
  0 ≤ off → len d ≤ n → ReadAt f off n = Some old → ReadAt (WriteAt f off d) off n = Some (d ++ drop (length d) old).
Proof.
  intros Ho Hd Hr. pose proof (ReadAt_inv _ _ _ _ Hr) as (_ & Hn & Hf & Hl).
  rewrite ReadAt_sub by (rewrite ?length_WriteAt; lia). rewrite ReadAt_sub in Hr by lia. injection Hr as <-. f_equal.
  rewrite WriteAt_in by lia. unfold sub. rewrite drop_app_exact by len.
  rewrite take_app_ge by lia. f_equal. rewrite skipn_firstn_comm, drop_drop. f_equal; lia.
Qed.

(** Fields of a slice of a buffer. *)
Lemma sub_sub l a m o n : (o + n ≤ m)%nat → sub (sub l a m) o n = sub l (a + o) n.
Proof. intros H. unfold sub. rewrite skipn_firstn_comm, drop_drop, take_take. f_equal. lia. Qed.
Lemma sub_drop l a o n : sub (drop a l) o n = sub l (a + o) n.
Proof. unfold sub. by rewrite drop_drop. Qed.
Lemma take_sub l n : take n l = sub l 0 n.
Proof. unfold sub. by rewrite drop_0. Qed.
Lemma sub_take l m o n : (o + n ≤ m)%nat → sub (take m l) o n = sub l o n.
Proof. intros. by rewrite take_sub, sub_sub. Qed.

(** Differences of wrapped 64-bit values. *)
Lemma i64_sub x y : i64 (i64 x - i64 y) = i64 (x - y).
Proof.
  unfold i64. f_equal.
  replace ((x + 2 ^ 63) mod 2 ^ 64 - 2 ^ 63 - ((y + 2 ^ 63) mod 2 ^ 64 - 2 ^ 63) + 2 ^ 63)
    with ((x + 2 ^ 63) mod 2 ^ 64 - (y + 2 ^ 63) mod 2 ^ 64 + 2 ^ 63) by lia.
  rewrite <- Zplus_mod_idemp_l, <- Zminus_mod, Zplus_mod_idemp_l. f_equal. lia.
Qed.

#[export] Hint Resolve bytes_ok_WriteAt : bytes.

Arguments sub : simpl never.
Arguments zeros : simpl never.
#[global] Opaque PutUint16 PutUint32 PutUint64 le_put be_put.

(** A write inside a slice of the buffer. *)
Lemma WriteAt_slice f off x o d :
  0 ≤ off → 0 ≤ o → o + len d ≤ len x → off + len x ≤ len f →
  WriteAt (WriteAt f off x) (off + o) d = WriteAt f off (WriteAt x o d).
Proof.
  intros H1 H2 H3 H4. assert (Hl : length (WriteAt f off x) = length f) by (apply length_WriteAt; lia).
  assert (Hx : length (WriteAt x o d) = length x) by (apply length_WriteAt; lia).
  rewrite (WriteAt_in (WriteAt f off x)) by lia. rewrite (WriteAt_in f off (WriteAt x o d)) by lia. rewrite Hx.
  rewrite (WriteAt_in f off x) by lia. rewrite (WriteAt_in x o d) by lia.
  assert (Hp : length (take (Z.to_nat off) f) = Z.to_nat off) by (rewrite length_take; lia).
  replace (Z.to_nat (off + o)) with (length (take (Z.to_nat off) f) + Z.to_nat o)%nat by lia.
  rewrite take_app_add, <- !app_assoc. f_equal. rewrite <- Nat.add_assoc, drop_app_add.
  rewrite take_app_le by lia. rewrite drop_app_le by lia. done.
Qed.
Lemma WriteAt_own f off n : 0 ≤ off → off + Z.of_nat n ≤ len f → WriteAt f off (sub f (Z.to_nat off) n) = f.
Proof.
  intros. assert (Hl : length (sub f (Z.to_nat off) n) = n) by (apply length_sub; lia).
  rewrite WriteAt_in by lia. rewrite Hl. unfold sub. rewrite <- drop_drop. rewrite take_drop. apply take_drop.
Qed.
Lemma WriteAt_head x y d : length d = length x → WriteAt (x ++ y) 0 d = d ++ y.
Proof.
  intros H. rewrite WriteAt_in by (rewrite ?length_app; lia). change (Z.to_nat 0) with 0%nat. rewrite take_0. cbn [app Nat.add].
  by rewrite drop_app_exact.
Qed.
