(* ===== verification/Hashes.v ===== *)
(** * hash/crc32 and crypto/sha256

    The two standard-library checksums the on-disk formats rest on: CRC-32
    (IEEE, reflected, as [crc32.ChecksumIEEE]) and SHA-256 ([sha256.Sum256]).
    Both are executable and checked against published test vectors. *)

From S2P Require Import Prelude GoBytes.

(** ** CRC-32 *)

Definition crcPoly : Z := 0xEDB88320.

Definition crc_bit (c : Z) : Z :=
  if Z.odd c then Z.lxor (Z.shiftr c 1) crcPoly else Z.shiftr c 1.

Definition crc_byte (c b : Z) : Z := Nat.iter 8 crc_bit (Z.lxor c b).

Definition ChecksumIEEE (l : bytes) : Z :=
  Z.lxor (foldl crc_byte 0xFFFFFFFF l) 0xFFFFFFFF.

(** ** SHA-256 *)

(** The constants are the first 32 fractional bits of the square and cube roots
    of the first primes. *)
Definition is_prime (n : nat) : bool :=
  forallb (λ d, negb (n mod d =? 0)%nat) (seq 2 (n - 2)).
Definition sha_primes : list Z := Z.of_nat <$> List.filter is_prime (seq 2 310).

(** The largest [r < 2 ^ bits] whose [e]-th power does not exceed [n]. *)
Fixpoint root (e n acc : Z) (bits : nat) : Z :=
  match bits with
  | O => acc
  | S k => let r := acc + 2 ^ Z.of_nat k in root e n (if r ^ e <=? n then r else acc) k
  end.

Definition sha256K : list Z :=
  Eval vm_compute in (λ p, root 3 (p * 2 ^ 96) 0 36 mod 2 ^ 32) <$> sha_primes.
Definition sha256H : list Z :=
  Eval vm_compute in (λ p, root 2 (p * 2 ^ 64) 0 37 mod 2 ^ 32) <$> take 8 sha_primes.

Definition rotr32 (x n : Z) : Z := Z.lor (Z.shiftr x n) (u32 (Z.shiftl x (32 - n))).
Definition sigma0 (x : Z) := Z.lxor (Z.lxor (rotr32 x 7) (rotr32 x 18)) (Z.shiftr x 3).
Definition sigma1 (x : Z) := Z.lxor (Z.lxor (rotr32 x 17) (rotr32 x 19)) (Z.shiftr x 10).
Definition Sigma0 (x : Z) := Z.lxor (Z.lxor (rotr32 x 2) (rotr32 x 13)) (rotr32 x 22).
Definition Sigma1 (x : Z) := Z.lxor (Z.lxor (rotr32 x 6) (rotr32 x 11)) (rotr32 x 25).
Definition Ch (x y z : Z) := Z.lxor (Z.land x y) (Z.land (Z.lxor x 0xFFFFFFFF) z).
Definition Maj (x y z : Z) := Z.lxor (Z.lxor (Z.land x y) (Z.land x z)) (Z.land y z).

Definition sha_pad (l : bytes) : bytes :=
  l ++ [0x80] ++ zeros (Z.to_nat ((55 - len l) mod 64)) ++ be_put 8 (8 * len l).

(** The message schedule, newest word first. *)
Definition schedule_step (w : list Z) : list Z :=
  u32 (sigma1 (nth 1 w 0) + nth 6 w 0 + sigma0 (nth 14 w 0) + nth 15 w 0) :: w.

Fixpoint words_be (n : nat) (l : bytes) : list Z :=
  match n with
  | O => []
  | S n => be_get (take 4 l) :: words_be n (drop 4 l)
  end.

Definition schedule (block : bytes) : list Z :=
  reverse (Nat.iter 48 schedule_step (reverse (words_be 16 block))).

Record ShaState := mkSha { sa : Z; sb : Z; sc : Z; sd : Z; se : Z; sf : Z; sg : Z; sh : Z }.

Definition sha_round (s : ShaState) (kw : Z * Z) : ShaState :=
  let t1 := sh s + Sigma1 (se s) + Ch (se s) (sf s) (sg s) + kw.1 + kw.2 in
  let t2 := Sigma0 (sa s) + Maj (sa s) (sb s) (sc s) in
  mkSha (u32 (t1 + t2)) (sa s) (sb s) (sc s) (u32 (sd s + t1)) (se s) (sf s) (sg s).

Definition sha_block (s : ShaState) (block : bytes) : ShaState :=
  let r := foldl sha_round s (zip sha256K (schedule block)) in
  mkSha (u32 (sa s + sa r)) (u32 (sb s + sb r)) (u32 (sc s + sc r)) (u32 (sd s + sd r))
        (u32 (se s + se r)) (u32 (sf s + sf r)) (u32 (sg s + sg r)) (u32 (sh s + sh r)).

Fixpoint sha_blocks (n : nat) (s : ShaState) (l : bytes) : ShaState :=
  match n with
  | O => s
  | S n => sha_blocks n (sha_block s (take 64 l)) (drop 64 l)
  end.

Definition sha_init : ShaState :=
  mkSha (nth 0 sha256H 0) (nth 1 sha256H 0) (nth 2 sha256H 0) (nth 3 sha256H 0)
        (nth 4 sha256H 0) (nth 5 sha256H 0) (nth 6 sha256H 0) (nth 7 sha256H 0).

Definition Sum256 (l : bytes) : bytes :=
  let p := sha_pad l in
  let s := sha_blocks (length p / 64)%nat sha_init p in
  be_put 4 (sa s) ++ be_put 4 (sb s) ++ be_put 4 (sc s) ++ be_put 4 (sd s) ++
  be_put 4 (se s) ++ be_put 4 (sf s) ++ be_put 4 (sg s) ++ be_put 4 (sh s).

(** ** Facts the formats use *)

Lemma length_Sum256 l : length (Sum256 l) = 32%nat.
Proof. unfold Sum256. len. Qed.

Lemma bytes_ok_Sum256 l : bytes_ok (Sum256 l).
Proof. unfold Sum256. rewrite !bytes_ok_app. auto 10 with bytes. Qed.

#[export] Hint Rewrite length_Sum256 : len.
#[export] Hint Resolve bytes_ok_Sum256 : bytes.

Lemma crc_bit_u32 c : is_u32 c → is_u32 (crc_bit c).
Proof.
  intros [H0 H1]. unfold crc_bit.
  assert (is_u32 (Z.shiftr c 1)).
  { rewrite Z.shiftr_div_pow2 by lia. change (2 ^ 1) with 2. unfold is_u32. split.
    - by apply Z.div_pos. - apply Z.div_lt_upper_bound; lia. }
  case_match; [|done]. apply lxor_range; [lia|done|]. by unfold crcPoly.
Qed.

Lemma ChecksumIEEE_u32 l : bytes_ok l → is_u32 (ChecksumIEEE l).
Proof.
  intros Hl. unfold ChecksumIEEE. apply lxor_range; [lia| |by split].
  assert (is_u32 0xFFFFFFFF) as Hc by (by split). revert Hc. generalize 0xFFFFFFFF.
  induction Hl as [|b l Hb Hl IH]; intros c Hc; [done|]. apply IH. unfold crc_byte.
  assert (is_u32 (Z.lxor c b)) as Hx.
  { apply lxor_range; [lia|done|]. unfold is_byte in Hb. lia. }
  apply Nat.iter_invariant; auto using crc_bit_u32.
Qed.

(** Published test vectors. *)
Example crc32_check : ChecksumIEEE [49;50;51;52;53;54;55;56;57] = 0xCBF43926.
Proof. vm_compute. reflexivity. Qed.

Example sha256_abc :
  be_get (Sum256 [97;98;99]) =
  0xba7816bf8f01cfea414140de5dae2223b00361a396177a9cb410ff61f20015ad.
Proof. vm_compute. reflexivity. Qed.

Example sha256_two_blocks :
  be_get (Sum256 (replicate 64 97)) =
  0xffe054fe7ae0cb6dc65c3af9b61d5209f439851db43d0ba5997337df154668eb.
Proof. vm_compute. reflexivity. Qed.

(** ** Saved hash states *)

(** What the run's state machine of SHA-256 saves and restores: documented of
    [encoding.BinaryMarshaler] on [sha256.New()]. *)
Class DigestCodec := {
  marshalDigest : bytes → bytes;                   (* of what was written so far *)
  unmarshalDigest : bytes → option bytes;
  digest_codec : ∀ d, ∃ d', unmarshalDigest (marshalDigest d) = Some d' ∧ ∀ x, Sum256 (d' ++ x) = Sum256 (d ++ x);
  digest_nonempty : ∀ d, marshalDigest d ≠ [] }.

(** A state that keeps what was written. *)
#[export] Program Instance plainDigest : DigestCodec := {| marshalDigest := λ d, 1 :: d; unmarshalDigest := λ b, match b with _ :: d => Some d | [] => None end |}.
Next Obligation. intros d. by exists d. Qed.
Next Obligation. done. Qed.
