(* ===== verification/Chunker.v ===== *)
(** * core/chunker: content-defined chunking

    Models [core/chunker/buzhash.go] and [core/chunker/chunker.go]: the Buzhash
    rolling hash, the two-mask boundary rule, the buffered byte reader over an
    [io.Reader] and [Next]/[Reset].

    An [io.Reader] is the sequence of results its [Read] calls return; past the
    end of the sequence [Read] returns [(0, io.EOF)].  The theorems show that
    the rolling hash equals the hash of the last 48 bytes computed from
    scratch, that [Next] cuts exactly the chunks of a function of the bytes
    alone (however the reader delivers them), that the chunks tile the stream
    within the size bounds, and that two streams that agree on 48 bytes before
    a common cut agree on every later cut. *)

From S2P Require Import Prelude GoBytes.

Definition FallbackMinSize : Z := 4 * 1024.
Definition FallbackMaxSize : Z := 64 * 1024.
Definition FallbackMask : Z := 0x1FFF.
Definition WindowSize : nat := 48.
Definition maxConsecutiveEmptyReads : Z := 100.

Definition buzhashTable : list Z :=
  [0x3baa3b06e53006d5; 0x26a2cff39a35dacf; 0xad634c50a322baa0; 0x14d4f1852ea88ee2;
   0xe98fef8ffe3a7731; 0x8bffc5b6a529dee3; 0xd8bf0e62ffaa7680; 0x7f59a97ce6a938ed;
   0xf398be12401d09bd; 0x111567b5799af9d0; 0x220678257cce18ad; 0x56c06bb7628fe94f;
   0xe6887c37f0487d1a; 0x95578a2755144caa; 0x42b3736ee6666688; 0x0138c89c1275c1b3;
   0xbebe1d7c5f498f46; 0x5e971bbc40d59ede; 0x7584315f4761c786; 0x363f451a97976c88;
   0xdec3d8d5c061694c; 0x7abcac0d68d1b4e1; 0x4efc30461aa5f255; 0x0bc1d498a2ac9199;
   0xa9018fa09eb24ce7; 0xba7b037b10d0d0d4; 0x9f52044c476ecebc; 0x8ec70fd439175642;
   0x86c254c538bd2d3a; 0x5fdc4bfe9d4ca720; 0x9dc50039342e989c; 0xb50991189133701f;
   0x08fe79eb0bfca1a0; 0xe8a405f758379852; 0x50b9e20e8ccdb2b9; 0x656ef30459d31589;
   0x812cbc1fe7b3a289; 0x7ccf558c9cdd966e; 0x831f903692a915dd; 0x7ba94244bf15cfde;
   0x876ce924caec688b; 0x64bb925a15052997; 0xe8e98978a9dbf0f3; 0x3c234bc3ff7f049d;
   0x65b6c056c0a17748; 0xc91071fb19a7fd0a; 0xab891af63b3eb680; 0x79539bdf6cfb955b;
   0x0983284fa53cc963; 0xfeda7162b74762e8; 0x36b9d53c3c718556; 0x3798b034e38faac3;
   0x11e4795e4a7e5fbe; 0xcf3bf04f31e1f0ba; 0x59fdc1ac06bc396f; 0xebaad587cad64edd;
   0xd351d42da4a400a4; 0x7d8eadb5ce71763a; 0xe0f714a278189b43; 0x156c4a974ce12df9;
   0x41824b39e5c72b3e; 0xf57aa9f4c789b164; 0x3448448d4bfce4ba; 0x1705e2f9e84cb888;
   0x67362829f6db729d; 0x9e68c15800876ab6; 0x60260fb15c39a8de; 0xd9845b9e002fdb7d;
   0xc36a590e415edb05; 0x3dffa480a9a795d3; 0x12dd71ad8c04b8d7; 0x4747ff26e8254978;
   0x39b70e17bcfec518; 0x829b36df0d6eb9dd; 0x3dd2a0c0df4dcfed; 0xc83d0399d21541a1;
   0x9e78c35a06f11870; 0x4dac508e48982745; 0x863dcd644765cb77; 0x8858e54e86508b84;
   0x7866a11713a75078; 0x91be666de56c6ca2; 0x0af6fcd55b46f8e8; 0x09b9a93bf8a0deb7;
   0x0ffc2c265c6580c2; 0x9bb290c59f9af4b0; 0xadf3e3a40911fbc9; 0x954505d63ec8d9dd;
   0xbc0d99977f753017; 0x5a820a9e5de62c4f; 0x8d6b63f042837871; 0xbc49592448773e82;
   0xdd9b184e16459f44; 0x9576abae5b53ac90; 0x49f86a561e0d5482; 0x77dfbb12dd29ab53;
   0x95a4cb375f0b9905; 0xcb78bb2324fa9a95; 0x7798a3f689feb3ec; 0x410afd4f975f0bcb;
   0xe745ad6fb90b0520; 0xdcf52b8fa59d6914; 0x80eb54862053cdc3; 0xcd640d5aada1656f;
   0x9a3f005014d9fff9; 0xbf4b8a4a28d8f54e; 0xfa621fe195dceaf3; 0x986740462fd0b47a;
   0xb5f6026aa5c6c80f; 0x9d0d1df4bec57b15; 0xafaa7f4f05953549; 0xe3416c39eaaf6387;
   0xf8f2ea52b343ea6e; 0x5f71e6e0b1ef9ff9; 0x99b6a6491d8cbb29; 0xbe2d0e8bbcdc995a;
   0x977e45bd0b878142; 0x77a38465dbcf5b24; 0xf3c3303c57fd4443; 0xead8f7cf37140dd6;
   0x068d2c32494fae96; 0xeb8247ebdd6bd48c; 0xc68667a6d384e1d6; 0x01e870a06ae76238;
   0x92320db97a7dacd3; 0x8dbc63155c761e0f; 0xcad42c9db3ae8634; 0x9fb0d5a99cb7c805;
   0xf616598a0da20a1c; 0xff9ed17c7a80ee82; 0xe42887eab9e16c62; 0x5b0ab5214b194250;
   0x460b5818c2aafd1c; 0xbaa3b642b5526ad1; 0x3b33b6532eea4f02; 0xc7853507c864d712;
   0x59be639f17db35dc; 0xb7bc7efc3fbd038c; 0x0868afeb19311354; 0x62e4654e9f6ed6ea;
   0x625a08e3d7145480; 0xa7042f7d68970b63; 0x8eebe6d6b417ce53; 0x1fd7f9a8d184a01a;
   0x291a21d8827077dd; 0x97e51d7eaba73e23; 0x1b074fc28ab5fb2b; 0x0cffce83da5f971c;
   0x137386528de80fbf; 0x8b0fe0f1714f0222; 0xe0dd0613ed01890c; 0x2636793352ff02ca;
   0xe9347c9fe5fe97f1; 0x86bfb8a76ed3b38d; 0x002ba8e54cd1d5f4; 0x757f4d0e19e4e2bb;
   0xd803f2c3cbd0d715; 0x75303caf43552368; 0x5ea30e04b02efa68; 0xf566330f3d986ef0;
   0xbc2e84eb29c2dcf3; 0xe301d9f97009bff1; 0x232dc6160f7daa6d; 0x215189c44118d698;
   0x455f9d5889bbd7d1; 0x66c7920e08bc5af0; 0x3da6f713ec639dea; 0x16c381e259ced4f9;
   0x313a501aa6a22b41; 0xf75ad9d2e0e9e95d; 0x6228044889be9c74; 0xaf5f7ce94acb7000;
   0x7dae331730a6f826; 0xc1d1673dc55ccf5a; 0xb047cdd51ce60505; 0x2b7b32bd86964a3a;
   0xbd91860084990f0d; 0xde4684af27bbffc8; 0xe9d13502591a7861; 0xbe4c234abdd1b91e;
   0xdae0396b596c15e2; 0xbe1534ea67e6953c; 0xa52deeebe239fc64; 0xb22a8d5fd5025775;
   0x4d7f772c2a81112b; 0xf3662c2e5f4ecc94; 0xd49e6f21b3d51468; 0xb3d2b7bfd0778b73;
   0xa8dfa72eb385e7cf; 0xca2993cdd4cd9e1b; 0x11d1f8893d1ae232; 0xb796856ff760c7f3;
   0x7436c06d19609493; 0x889b5c36e5fbe463; 0xa5549f24267e0b5d; 0x0f025d1b7df54570;
   0x2a9aeb8235d1937a; 0x9e532e9975b3dadd; 0x16c43e2c7c6d4fca; 0xf0205c72205b048a;
   0x0a70179af06187fd; 0x64d1c25a7275ccd8; 0x582ad2deea92fef7; 0x947e20ab8f3b3539;
   0x12c14dc698352d76; 0xc1883099576dac83; 0x632c622ca3657300; 0xf15f918dbc2b44bf;
   0x196d667b878f060c; 0xff125ab093c7eb1f; 0x8113f44fbbd71444; 0xbefe10b7cd72074f;
   0xd9f1cf67fbfbcc87; 0xc28a6c3862fef64f; 0xbfa2502b129f1f8c; 0xc367e0832675da0d;
   0xb13db00ec13661ca; 0x8394b74aa78490f5; 0x0b54515b86a54f16; 0xd570deee316304aa;
   0xef891aa5ed4b1798; 0x015767cd17e31512; 0xf7796e2ca2a42264; 0x170db4ee45c37011;
   0xbb6c78a0005609a5; 0xb2dcd901179f3fdd; 0x4dc12fead69c4dc8; 0x58027bf32c2c558d;
   0xa31777288865c137; 0x8a6440e8ca167031; 0x25174b3bc4fced67; 0xaaecdd6ee35a4a3e;
   0xd17dbd31a42bf0de; 0xa73d95333c77b68f; 0x87e205655fa3db4d; 0x36ad4a91d10c573e;
   0xab269f2d05e7f57d; 0xa8d187d641362fb6; 0x6a0888ee6fb9d9c6; 0x66b17d668588fcac;
   0xb38de093279ecdc7; 0x76372fb952d412d8; 0x61252ccac560ab99; 0xecc11b28c56d5fa6;
   0x250bed225a2186f9; 0xba44cbdf96e584c5; 0xdb0bd46a114429d5; 0x08b70448e34649ef;
   0x5c2adda84cc637ce; 0xb6709386e078d8e9; 0x4bb6f2af4257352c; 0xe2e07cdfb87796a8;
   0x4042012e3e860666; 0xf97865d6b9886b72; 0x4ea5aa73962aff1f; 0x9a4226129919d41b].

(** [buzhashTable[b]] for a byte index. *)
Definition table (b : Z) : Z := nth (Z.to_nat b) buzhashTable 0.

(** ** Buzhash *)

Definition rotateLeft (val n : Z) : Z :=
  let s := Z.land n 63 in
  Z.lor (u64 (Z.shiftl val s)) (Z.shiftr val (64 - s)).

(** The hash of a window, oldest byte first, computed from scratch. *)
Definition buz_step (h b : Z) : Z := Z.lxor (rotateLeft h 1) (table b).
Definition buz (w : bytes) : Z := foldl buz_step 0 w.

(** The initialiser of the package variable: a loop over [i < WindowSize]. *)
Definition zeroWindowHash : Z :=
  foldl (λ h i, Z.lxor h (rotateLeft (table 0) (Z.of_nat WindowSize - 1 - Z.of_nat i)))
    0 (seq 0 WindowSize).

(** "Buzhash state (continuous across chunk boundaries)". *)
Record Roll := mkRoll { window : bytes; windowPos : nat; hash : Z }.

Definition roll0 : Roll := mkRoll (zeros WindowSize) 0 zeroWindowHash.

Definition updateHash (r : Roll) (b : Z) : Roll :=
  let outByte := nth (windowPos r) (window r) 0 in
  mkRoll
    (<[windowPos r := b]> (window r))
    ((windowPos r + 1) mod WindowSize)
    (Z.lxor (Z.lxor (rotateLeft (hash r) 1) (rotateLeft (table outByte) (Z.of_nat WindowSize)))
       (table b)).

(** ** Geometry: "Parameters" *)

Record Geometry := mkGeometry {
  minSize : Z; maxSize : Z; mask : Z; maskHard : Z; maskEasy : Z }.

(** [New] applies the options to the fallback geometry and derives the masks. *)
Inductive Option' := WithMinSize (n : Z) | WithMaxSize (n : Z) | WithMask (m : Z).

Definition apply_option (g : Z * Z * Z) (o : Option') : Z * Z * Z :=
  let '(mn, mx, mk) := g in
  match o with
  | WithMinSize n => (n, mx, mk)
  | WithMaxSize n => (mn, n, mk)
  | WithMask m => (mn, mx, m)
  end.

Definition geometry (opts : list Option') : Geometry :=
  let '(mn, mx, mk) := foldl apply_option (FallbackMinSize, FallbackMaxSize, FallbackMask) opts in
  mkGeometry mn mx mk (Z.lor (u64 (Z.shiftl mk 2)) mk) (Z.shiftr mk 2).

(** The decision after appending a byte: [n] is [len(c.buf)]. *)
Definition boundary (g : Geometry) (h n : Z) : bool :=
  if n <? minSize g then Z.land h (maskHard g) =? 0
  else if n <? maxSize g then Z.land h (maskEasy g) =? 0
  else true.

(** ** The buffered reader: "Internal buffered read state" *)

Inductive rerr := EOF | ErrNoProgress | ReadErr (code : Z).

#[export] Instance rerr_eq_dec : EqDecision rerr.
Proof. solve_decision. Defined.

Abbreviation Reader := (list (bytes * option rerr)).

Record ReadState := mkRead {
  reader : Reader;
  readBuf : bytes;
  readPos : nat;
  readEnd : nat;
  eof : bool;
  readErr : option rerr }.

Definition with_reader (s : ReadState) (r : Reader) : ReadState :=
  mkRead r (readBuf s) (readPos s) (readEnd s) (eof s) (readErr s).
Definition with_eof (s : ReadState) : ReadState :=
  mkRead (reader s) (readBuf s) (readPos s) (readEnd s) true (readErr s).

(** [n, err := c.reader.Read(c.readBuf)] followed by the updates of the buffer
    bounds and of the latched error. *)
Definition fill (s : ReadState) (rest : Reader) (d : bytes) (err : option rerr) : ReadState :=
  let s1 :=
    if (0 <? length d)%nat then mkRead rest d 0 (length d) (eof s) (readErr s)
    else with_reader s rest in
  match err with
  | None => s1
  | Some EOF => with_eof s1
  | Some e => mkRead (reader s1) (readBuf s1) (readPos s1) (readEnd s1) (eof s1) (Some e)
  end.

(** The [for] loop of [readByte]; [script] is [reader s].  At the end of the
    script the read returns [(0, io.EOF)], which sets [eof], and the next
    iteration returns io.EOF. *)
Fixpoint readLoop (script : Reader) (s : ReadState) (empty : Z) : ReadState * option rerr :=
  if (readPos s <? readEnd s)%nat then (s, None)
  else if eof s then (s, Some EOF)
  else match readErr s with
  | Some e => (mkRead (reader s) (readBuf s) (readPos s) (readEnd s) true None, Some e)
  | None =>
      match script with
      | [] => (with_eof s, Some EOF)
      | (d, err) :: rest =>
          let s1 := fill s rest d err in
          match err with
          | Some _ => readLoop rest s1 empty
          | None =>
              if (length d =? 0)%nat then
                if maxConsecutiveEmptyReads <=? empty + 1 then (s1, Some ErrNoProgress)
                else readLoop rest s1 (empty + 1)
              else readLoop rest s1 empty
          end
      end
  end.

Definition readByte (s : ReadState) : ReadState * (rerr + Z) :=
  match readLoop (reader s) s 0 with
  | (s', Some e) => (s', inl e)
  | (s', None) =>
      (mkRead (reader s') (readBuf s') (readPos s' + 1) (readEnd s') (eof s') (readErr s'),
       inr (nth (readPos s') (readBuf s') 0))
  end.

(** ** The chunker *)

Record Chunk := mkChunk { Data : bytes; Offset : Z; Length : Z }.

Record Chunker := mkChunker {
  rd : ReadState;
  buf : bytes;
  offset : Z;
  roll : Roll;
  geo : Geometry }.

Definition New (r : Reader) (opts : list Option') : Chunker :=
  mkChunker (mkRead r (zeros (64 * 1024)) 0 0 false None) [] 0 roll0 (geometry opts).

Definition emitChunk (c : Chunker) (startOffset : Z) : Chunk :=
  mkChunk (buf c) startOffset (len (buf c)).

Definition Reset (c : Chunker) (r : Reader) (off : Z) : Chunker :=
  mkChunker (mkRead r (readBuf (rd c)) 0 0 false None) [] off roll0 (geo c).

(** What [Next] returns: a chunk, the reader's error, or (never, by
    [Next_total]) exhaustion of the loop bound. *)
Inductive next_result := NChunk (ch : Chunk) | NErr (e : rerr) | NFuel.

Fixpoint nextLoop (fuel : nat) (c : Chunker) (chunkStart : Z) : Chunker * next_result :=
  match fuel with
  | O => (c, NFuel)
  | S fuel =>
      match readByte (rd c) with
      | (s, inl e) =>
          let c1 := mkChunker s (buf c) (offset c) (roll c) (geo c) in
          if bool_decide (e = EOF) && (0 <? length (buf c))%nat
          then (c1, NChunk (emitChunk c1 chunkStart))
          else (c1, NErr e)
      | (s, inr b) =>
          let c1 := mkChunker s (buf c ++ [b]) (offset c + 1) (updateHash (roll c) b) (geo c) in
          if boundary (geo c1) (hash (roll c1)) (len (buf c1))
          then (c1, NChunk (emitChunk c1 chunkStart))
          else nextLoop fuel c1 chunkStart
      end
  end.

(** Bytes the reader may still deliver: the loop bound of [Next]. *)
Definition remaining (s : ReadState) : nat :=
  (readEnd s - readPos s) + length (concat (map fst (reader s))).

Definition Next (c : Chunker) : Chunker * next_result :=
  nextLoop (S (remaining (rd c)))
    (mkChunker (rd c) [] (offset c) (roll c) (geo c)) (offset c).

(** A caller's loop: [Next] until it returns an error. *)
Fixpoint chunkAll (fuel : nat) (c : Chunker) : list Chunk * next_result :=
  match fuel with
  | O => ([], NFuel)
  | S fuel =>
      match Next c with
      | (c', NChunk ch) => let '(chs, e) := chunkAll fuel c' in (ch :: chs, e)
      | (_, r) => ([], r)
      end
  end.

(** ** Reference: chunking as a function of the bytes

    The complete chunks of a byte sequence and the bytes left after the last
    boundary, from a rolling state [r] and a partial chunk [cur]. *)

Fixpoint cuts (g : Geometry) (r : Roll) (cur l : bytes) : list bytes * bytes :=
  match l with
  | [] => ([], cur)
  | b :: l =>
      let r' := updateHash r b in
      let cur' := cur ++ [b] in
      if boundary g (hash r') (len cur')
      then let '(cs, tl) := cuts g r' [] l in (cur' :: cs, tl)
      else cuts g r' cur' l
  end.

(** The bytes a reader delivers before its first error, and that error: a
    [Read] may return data together with an error, and the data comes first;
    the 100th consecutive empty read is io.ErrNoProgress. *)
Fixpoint delivered (script : Reader) (empty : Z) : bytes * rerr :=
  match script with
  | [] => ([], EOF)
  | (d, Some e) :: _ => (d, e)
  | (d, None) :: rest =>
      if (length d =? 0)%nat then
        if maxConsecutiveEmptyReads <=? empty + 1 then ([], ErrNoProgress)
        else delivered rest (empty + 1)
      else let '(l, e) := delivered rest 0 in (d ++ l, e)
  end.

Definition pending (s : ReadState) : bytes := drop (readPos s) (take (readEnd s) (readBuf s)).

Definition stream_from (s : ReadState) (empty : Z) : bytes * rerr :=
  if eof s then (pending s, EOF)
  else match readErr s with
  | Some e => (pending s, e)
  | None => let '(l, e) := delivered (reader s) empty in (pending s ++ l, e)
  end.

Definition stream (s : ReadState) : bytes * rerr := stream_from s 0.

(** The buffer bounds of the reader state. *)
Definition read_ok (s : ReadState) : Prop := (readEnd s ≤ length (readBuf s))%nat.

(** Chunks laid end to end from [off]. *)
Fixpoint tiled (off : Z) (chs : list Chunk) : Prop :=
  match chs with
  | [] => True
  | ch :: chs => Offset ch = off ∧ Length ch = len (Data ch) ∧ tiled (off + Length ch) chs
  end.

(** ** Rotations *)

Lemma u64_of_bits z :
  0 ≤ z → (∀ i, 64 ≤ i → Z.testbit z i = false) → is_u64 z.
Proof.
  intros Hz Hb. split; [done|]. destruct (Z.eq_dec z 0) as [->|]; [lia|].
  apply Z.log2_lt_pow2; [lia|]. destruct (Z_lt_le_dec (Z.log2 z) 64) as [|Hge]; [done|].
  pose proof (Z.bit_log2 z). rewrite Hb in *; [|done]. intuition lia.
Qed.

Lemma u64_high_bits z i : is_u64 z → 64 ≤ i → Z.testbit z i = false.
Proof.
  intros [H0 H1] Hi. destruct (Z.eq_dec z 0) as [->|]; [by rewrite Z.bits_0|].
  apply Z.bits_above_log2; [done|]. apply Z.log2_lt_pow2; [lia|].
  eapply Z.lt_le_trans; [exact H1|]. by apply Z.pow_le_mono_r.
Qed.

Lemma lxor_u64 a b : is_u64 a → is_u64 b → is_u64 (Z.lxor a b).
Proof.
  intros Ha Hb. apply u64_of_bits; [apply Z.lxor_nonneg; split; destruct Ha, Hb; lia|].
  intros i Hi. by rewrite Z.lxor_spec, !u64_high_bits.
Qed.

Lemma land_63 n : Z.land n 63 = n mod 64.
Proof. change 63 with (Z.ones 6). by rewrite Z.land_ones by lia. Qed.

Lemma rotateLeft_bit v n i :
  is_u64 v → 0 ≤ i →
  Z.testbit (rotateLeft v n) i = (i <? 64) && Z.testbit v ((i - n) mod 64).
Proof.
  intros Hv Hi. unfold rotateLeft. rewrite land_63.
  pose proof (Z.mod_pos_bound n 64) as Hs.
  assert (Hn : (i - n) mod 64 = (i - n mod 64) mod 64) by (by rewrite Zminus_mod_idemp_r).
  rewrite Hn. clear Hn. set (s := n mod 64) in *. clearbody s.
  rewrite Z.lor_spec, Z.shiftr_spec by done. unfold u64.
  destruct (Z.ltb_spec i 64) as [Hlt|Hge]; cbn [andb].
  - rewrite Z.mod_pow2_bits_low, Z.shiftl_spec by lia.
    destruct (Z_lt_le_dec i s).
    + rewrite Z.testbit_neg_r by lia. cbn [orb]. f_equal.
      apply Z.mod_unique with (-1); lia.
    + rewrite (u64_high_bits v (i + (64 - s))), orb_false_r by (done || lia).
      f_equal. by rewrite Z.mod_small by lia.
  - rewrite Z.mod_pow2_bits_high by lia. cbn [orb]. apply u64_high_bits; [done|lia].
Qed.

Lemma rotateLeft_nonneg v n : 0 ≤ v → 0 ≤ rotateLeft v n.
Proof.
  intros. unfold rotateLeft. apply Z.lor_nonneg. split; [apply u64_range|].
  by apply Z.shiftr_nonneg.
Qed.

Lemma rotateLeft_u64 v n : is_u64 v → is_u64 (rotateLeft v n).
Proof.
  intros Hv. apply u64_of_bits; [apply rotateLeft_nonneg, Hv|].
  intros i Hi. rewrite rotateLeft_bit by (done || lia).
  by rewrite (proj2 (Z.ltb_ge i 64)) by done.
Qed.

#[export] Hint Resolve lxor_u64 rotateLeft_u64 : bytes.

Lemma u64_bits_inj a b :
  is_u64 a → is_u64 b → (∀ i, 0 ≤ i < 64 → Z.testbit a i = Z.testbit b i) → a = b.
Proof.
  intros Ha Hb Hi. apply Z.bits_inj'. intros i H0.
  destruct (Z_lt_le_dec i 64); [auto|]. by rewrite !u64_high_bits by auto.
Qed.

Lemma rotateLeft_lxor a b n :
  is_u64 a → is_u64 b →
  rotateLeft (Z.lxor a b) n = Z.lxor (rotateLeft a n) (rotateLeft b n).
Proof.
  intros Ha Hb. apply u64_bits_inj; auto with bytes. intros i Hi.
  rewrite Z.lxor_spec, !rotateLeft_bit by (auto with bytes || lia).
  rewrite Z.lxor_spec. by destruct (i <? 64).
Qed.

Lemma rotateLeft_rotateLeft a m n :
  is_u64 a → rotateLeft (rotateLeft a m) n = rotateLeft a (m + n).
Proof.
  intros Ha. apply u64_bits_inj; auto with bytes. intros i Hi.
  pose proof (Z.mod_pos_bound (i - n) 64).
  rewrite (rotateLeft_bit (rotateLeft a m)), (rotateLeft_bit a (m + n)) by (auto with bytes || lia).
  f_equal. rewrite rotateLeft_bit by (done || lia).
  rewrite (proj2 (Z.ltb_lt _ 64)) by lia. cbn [andb].
  rewrite Zminus_mod_idemp_l. do 2 f_equal. lia.
Qed.

Lemma rotateLeft_0 a : is_u64 a → rotateLeft a 0 = a.
Proof.
  intros Ha. apply u64_bits_inj; auto with bytes. intros i Hi.
  rewrite rotateLeft_bit by (done || lia).
  by rewrite (proj2 (Z.ltb_lt i 64)), Z.sub_0_r, Z.mod_small by lia.
Qed.

Lemma table_u64 b : is_u64 (table b).
Proof.
  assert (Hall : Forall is_u64 buzhashTable)
    by (by_eval).
  unfold table. destruct (nth_in_or_default (Z.to_nat b) buzhashTable 0) as [Hin| ->].
  - rewrite Forall_forall in Hall. apply Hall. by apply list_elem_of_In.
  - by split.
Qed.

#[export] Hint Resolve table_u64 : bytes.

(** ** The rolling hash is the hash of the window *)

Lemma buz_step_u64 h b : is_u64 h → is_u64 (buz_step h b).
Proof. unfold buz_step. auto with bytes. Qed.

Lemma buz_fold_u64 w h : is_u64 h → is_u64 (foldl buz_step h w).
Proof. revert h. induction w; simpl; auto using buz_step_u64. Qed.

(** A byte's contribution is rotated once per later byte. *)
Lemma buz_fold w h :
  is_u64 h → foldl buz_step h w = Z.lxor (rotateLeft h (len w)) (buz w).
Proof.
  assert (H00 : is_u64 0) by (by split).
  revert h. induction w as [|b w IH]; intros h Hh.
  - cbn. by rewrite rotateLeft_0, Z.lxor_0_r.
  - change (buz (b :: w)) with (foldl buz_step (buz_step 0 b) w). cbn [foldl].
    rewrite (IH (buz_step h b)) by auto using buz_step_u64.
    rewrite (IH (buz_step 0 b)) by auto using buz_step_u64.
    unfold buz_step. rewrite !rotateLeft_lxor, !rotateLeft_rotateLeft by auto with bytes.
    replace (rotateLeft 0 (1 + len w)) with 0
      by (symmetry; apply u64_bits_inj; auto with bytes; intros i Hi;
          rewrite rotateLeft_bit by (done || lia); by rewrite !Z.bits_0, andb_false_r).
    rewrite Z.lxor_0_l, Z.lxor_assoc. do 2 f_equal. cbn [length]. lia.
Qed.

Lemma buz_cons b w : buz (b :: w) = Z.lxor (rotateLeft (table b) (len w)) (buz w).
Proof.
  change (buz (b :: w)) with (foldl buz_step (buz_step 0 b) w).
  rewrite buz_fold by (apply buz_step_u64; by split).
  unfold buz_step. change (rotateLeft 0 1) with 0. by rewrite Z.lxor_0_l.
Qed.

Lemma buz_snoc w b : buz (w ++ [b]) = Z.lxor (rotateLeft (buz w) 1) (table b).
Proof. unfold buz. by rewrite foldl_app. Qed.

Lemma buz_u64 w : is_u64 (buz w).
Proof. apply buz_fold_u64. by split. Qed.

#[export] Hint Resolve buz_u64 : bytes.

(** Slide the window: drop the oldest byte, append the newest. *)
Lemma buz_slide o w b :
  Z.lxor (Z.lxor (rotateLeft (buz (o :: w)) 1) (rotateLeft (table o) (len w + 1))) (table b)
  = buz (w ++ [b]).
Proof.
  rewrite buz_cons, buz_snoc, rotateLeft_lxor, rotateLeft_rotateLeft by auto with bytes.
  f_equal. rewrite Z.lxor_comm, <- Z.lxor_assoc, Z.lxor_nilpotent, Z.lxor_0_l. done.
Qed.

(** The window, oldest byte first. *)
Definition ordered (r : Roll) : bytes := drop (windowPos r) (window r) ++ take (windowPos r) (window r).

Definition roll_ok (r : Roll) : Prop :=
  length (window r) = WindowSize ∧ (windowPos r < WindowSize)%nat ∧ hash r = buz (ordered r).

Lemma roll0_ok : roll_ok roll0.
Proof. split_and!; [done|unfold WindowSize; simpl; lia|]. vm_compute. reflexivity. Qed.

Lemma length_ordered r : roll_ok r → length (ordered r) = WindowSize.
Proof. intros (Hl & Hp & _). unfold ordered. len. Qed.

Lemma ordered_split r :
  roll_ok r → ordered r = nth (windowPos r) (window r) 0 :: tail (ordered r).
Proof.
  intros (Hl & Hp & _). unfold ordered.
  destruct (lookup_lt_is_Some_2 (window r) (windowPos r)) as [x Hx]; [lia|].
  by rewrite (drop_S _ _ _ Hx), (nth_lookup_Some _ _ 0 _ Hx).
Qed.

Lemma ordered_update r b :
  roll_ok r → ordered (updateHash r b) = tail (ordered r) ++ [b].
Proof.
  intros (Hl & Hp & _). unfold ordered, updateHash; cbn [window windowPos].
  destruct (lookup_lt_is_Some_2 (window r) (windowPos r)) as [x Hx]; [lia|].
  rewrite (drop_S _ _ _ Hx). cbn [tail app].
  destruct (Nat.eq_dec (S (windowPos r)) WindowSize) as [He|Hne].
  - replace ((windowPos r + 1) mod WindowSize)%nat with 0%nat
      by (rewrite Nat.add_1_r, He; symmetry; apply Nat.Div0.mod_same).
    rewrite drop_0, take_0, app_nil_r, insert_take_drop by lia.
    by rewrite drop_ge by lia.
  - rewrite Nat.mod_small by (unfold WindowSize in *; lia). rewrite Nat.add_1_r.
    rewrite insert_take_drop by lia.
    rewrite drop_app_ge by len. rewrite take_app_ge by len.
    rewrite length_take, Nat.min_l by lia.
    replace (S (windowPos r) - windowPos r)%nat with 1%nat by lia. cbn.
    by rewrite drop_0, take_0, app_assoc.
Qed.

Lemma roll_ok_update r b : roll_ok r → roll_ok (updateHash r b).
Proof.
  intros Hr. pose proof Hr as (Hl & Hp & Hh). split_and!.
  - cbn. by rewrite length_insert.
  - by apply Nat.mod_upper_bound.
  - rewrite ordered_update by done. cbn [updateHash hash].
    rewrite <- buz_slide with (o := nth (windowPos r) (window r) 0), <- ordered_split by done.
    do 2 f_equal; [by rewrite Hh|]. f_equal.
    pose proof (length_ordered r Hr). rewrite ordered_split in H by done. simpl in H. lia.
Qed.

(** Rolling states with the same window: they hash alike from then on. *)
Definition same_window (r1 r2 : Roll) : Prop :=
  roll_ok r1 ∧ roll_ok r2 ∧ ordered r1 = ordered r2.

#[export] Instance same_window_sym : Symmetric same_window.
Proof. intros ?? (?&?&?). by split_and!. Qed.
#[export] Instance same_window_trans : Transitive same_window.
Proof. intros ??? (?&?&?) (?&?&?). split_and!; try done. congruence. Qed.

#[export] Instance hash_proper : Proper (same_window ==> eq) hash.
Proof. intros r1 r2 ((_&_&->)&(_&_&->)&->). done. Qed.

#[export] Instance updateHash_proper : Proper (same_window ==> eq ==> same_window) updateHash.
Proof.
  intros r1 r2 (H1&H2&He) b _ <-. split_and!; try by apply roll_ok_update.
  by rewrite !ordered_update, He.
Qed.

#[export] Instance cuts_proper g : Proper (same_window ==> eq ==> eq ==> eq) (cuts g).
Proof.
  intros r1 r2 Hr cur _ <- l _ <-. revert r1 r2 cur Hr.
  induction l as [|b l IH]; intros r1 r2 cur Hr; [done|]. cbn [cuts].
  assert (Hu : same_window (updateHash r1 b) (updateHash r2 b))
    by (by apply updateHash_proper).
  rewrite (hash_proper _ _ Hu), (IH _ _ [] Hu), (IH _ _ (cur ++ [b]) Hu). done.
Qed.

Lemma ordered_fold r l :
  roll_ok r →
  roll_ok (foldl updateHash r l) ∧
  ordered (foldl updateHash r l) = drop (length l) (ordered r ++ l).
Proof.
  revert r. induction l as [|b l IH]; intros r Hr; cbn [foldl length].
  - split; [done|]. by rewrite app_nil_r.
  - destruct (IH (updateHash r b)) as [Hok Hord]; [by apply roll_ok_update|].
    split; [done|]. rewrite Hord, ordered_update by done.
    rewrite (ordered_split r) at 2 by done.
    by rewrite <- app_assoc.
Qed.

(** ** The buffered reader delivers the stream *)

Lemma pending_nil s : read_ok s → (readEnd s ≤ readPos s)%nat → pending s = [].
Proof. intros. unfold pending. apply drop_ge. len. Qed.

Lemma pending_cons s :
  read_ok s → (readPos s < readEnd s)%nat →
  pending s = nth (readPos s) (readBuf s) 0 ::
    pending (mkRead (reader s) (readBuf s) (readPos s + 1) (readEnd s) (eof s) (readErr s)).
Proof.
  unfold read_ok, pending. cbn. intros Hok Hlt.
  destruct (lookup_lt_is_Some_2 (readBuf s) (readPos s)) as [x Hx]; [lia|].
  assert (take (readEnd s) (readBuf s) !! readPos s = Some x) as Hx'
    by (by rewrite lookup_take_lt).
  by rewrite (drop_S _ _ _ Hx'), (nth_lookup_Some _ _ 0 _ Hx), Nat.add_1_r.
Qed.

Lemma length_pending s : read_ok s → length (pending s) = (readEnd s - readPos s)%nat.
Proof. unfold read_ok, pending. len. Qed.

(** Reading one script item: the bytes and the terminal error are kept. *)
Lemma fill_spec s d err rest :
  read_ok s → pending s = [] → eof s = false → readErr s = None →
  let s1 := fill s rest d err in
  read_ok s1 ∧ pending s1 = d ∧ reader s1 = rest ∧
  eof s1 = bool_decide (err = Some EOF) ∧
  readErr s1 = (if bool_decide (err = Some EOF) then None else err).
Proof.
  intros Hok Hp He Hr. unfold fill, read_ok, pending in *.
  destruct d as [|x d]; cbn [length Nat.ltb Nat.leb].
  - destruct err as [[]|]; cbn; rewrite ?He, ?Hr; split_and!; done.
  - destruct err as [[]|]; cbn; rewrite ?He, ?Hr, ?firstn_all; split_and!; done.
Qed.

(** The loop of [readByte] stops on a buffered byte or on the terminal error. *)
Lemma readLoop_spec script s empty l e :
  script = reader s → read_ok s → pending s = [] → stream_from s empty = (l, e) →
  ∃ s', readLoop script s empty = (s', if decide (l = []) then Some e else None) ∧
    read_ok s' ∧ (remaining s' ≤ remaining s)%nat ∧
    (l ≠ [] → (readPos s' < readEnd s')%nat ∧ stream s' = (l, e)) ∧
    (l = [] → e = EOF → stream s' = ([], EOF)).
Proof.
  revert s empty l e. induction script as [|[d err] rest IH]; intros s empty l e Hs Hok Hp Hst.
  all: assert (Hge : (readPos s <? readEnd s)%nat = false)
    by (apply Nat.ltb_ge; pose proof (length_pending s Hok); rewrite Hp in *; simpl in *; lia).
  all: unfold readLoop; fold readLoop; rewrite Hge.
  all: unfold stream_from in Hst; destruct (eof s) eqn:He;
    [rewrite Hp in Hst; simplify_eq; exists s; rewrite decide_True by done;
     split_and!; try done; unfold stream, stream_from; by rewrite He, Hp|].
  all: destruct (readErr s) as [e'|] eqn:Hre;
    [rewrite Hp in Hst; simplify_eq; eexists; rewrite decide_True by done;
     split_and!; [done|exact Hok|done|done|];
     intros _ ->; unfold stream, stream_from, pending; cbn; f_equal; exact Hp|].
  - rewrite <- Hs, Hp in Hst. cbn in Hst. simplify_eq. exists (with_eof s).
    rewrite decide_True by done. split_and!; [done|exact Hok|done|done|].
    intros _ _. unfold stream, stream_from, pending. cbn. f_equal. exact Hp.
  - destruct (fill_spec s d err rest Hok Hp He Hre) as (Hok1 & Hp1 & Hr1 & He1 & Hre1).
    cbv zeta in *. set (s1 := fill s rest d err) in *. clearbody s1.
    assert (Hrem : remaining s1 = remaining s).
    { unfold remaining. rewrite <- !length_pending by done.
      rewrite Hp1, Hp, Hr1, <- Hs. cbn. by rewrite length_app. }
    assert (Hnow : ∀ em, d ≠ [] → stream_from s1 0 = (l, e) →
      ∃ s', readLoop rest s1 em = (s', if decide (l = []) then Some e else None) ∧
      read_ok s' ∧ (remaining s' ≤ remaining s)%nat ∧
      (l ≠ [] → (readPos s' < readEnd s')%nat ∧ stream s' = (l, e)) ∧
      (l = [] → e = EOF → stream s' = ([], EOF))).
    { intros em Hd Hst1. exists s1.
      assert (Hlt : (readPos s1 < readEnd s1)%nat).
      { pose proof (length_pending s1 Hok1). rewrite Hp1 in *. destruct d; [done|]. simpl in *. lia. }
      assert (Hl : l ≠ []).
      { unfold stream_from in Hst1. rewrite Hp1 in Hst1. destruct d; [done|].
        destruct (eof s1), (readErr s1), (delivered (reader s1) 0); simplify_eq/=; done. }
      rewrite decide_False by done.
      assert (readLoop rest s1 em = (s1, None)) as ->.
      { apply Nat.ltb_lt in Hlt. destruct rest as [|[]]; cbn [readLoop]; by rewrite Hlt. }
      split_and!; try done. lia. }
    rewrite <- Hs, Hp in Hst. cbn [delivered] in Hst.
    destruct err as [er|].
    + injection Hst as Hl He'. cbn [app] in Hl. subst l e.
      destruct (decide (d = [])) as [->|Hl].
      * destruct (IH s1 empty [] er) as (s' & -> & H1 & H2 & H3 & H4); try done.
        { unfold stream_from. rewrite He1, Hre1, Hp1. destruct er; done. }
        exists s'. rewrite decide_True by done. split_and!; try done. lia.
      * apply Hnow; [done|]. unfold stream_from. rewrite He1, Hre1, Hp1. destruct er; done.
    + change (bool_decide (None = Some EOF)) with false in *.
      destruct d as [|x d]; cbn [length Nat.eqb] in *.
      * destruct (maxConsecutiveEmptyReads <=? empty + 1) eqn:Hmax.
        -- simplify_eq/=. exists s1. split_and!; try done. lia.
        -- destruct (delivered rest (empty + 1)) as [l' e'] eqn:Hd.
           injection Hst as Hl He'. cbn [app] in Hl. subst l' e'.
           destruct (IH s1 (empty + 1) l e) as (s' & -> & H1 & H2 & H3 & H4); try done.
           { unfold stream_from. by rewrite He1, Hre1, Hp1, Hr1, Hd. }
           exists s'. split_and!; try done. lia.
      * destruct (delivered rest 0) as [l' e'] eqn:Hd.
        injection Hst as Hl He'. subst l e'. apply Hnow; [done|].
        unfold stream_from. by rewrite He1, Hre1, Hp1, Hr1, Hd.
Qed.

(** [readByte] takes the stream's first byte, or returns its terminal error. *)
Lemma readByte_cons s b l e :
  read_ok s → stream s = (b :: l, e) →
  ∃ s', readByte s = (s', inr b) ∧ stream s' = (l, e) ∧ read_ok s' ∧
        (remaining s' < remaining s)%nat.
Proof.
  intros Hok Hst. unfold readByte.
  assert (∃ s', readLoop (reader s) s 0 = (s', None) ∧ read_ok s' ∧
            (remaining s' ≤ remaining s)%nat ∧ (readPos s' < readEnd s')%nat ∧
            stream s' = (b :: l, e)) as (s' & -> & Hok' & Hrem & Hlt & Hst').
  { destruct (Nat.ltb_spec (readPos s) (readEnd s)) as [Hlt|Hge].
    - exists s. split_and!; try done. apply Nat.ltb_lt in Hlt.
      destruct (reader s) as [|[]]; cbn [readLoop]; by rewrite Hlt.
    - destruct (readLoop_spec (reader s) s 0 (b :: l) e) as (s' & -> & H1 & H2 & H3 & _);
        auto using pending_nil.
      rewrite decide_False by done. destruct H3; [done|]. exists s'. by split_and!. }
  unfold stream, stream_from in Hst'. rewrite (pending_cons s' Hok' Hlt) in Hst'.
  set (s2 := mkRead _ _ _ _ _ _) in *. exists s2.
  assert (nth (readPos s') (readBuf s') 0 = b ∧ stream s2 = (l, e)) as [-> Hs2].
  { unfold stream, stream_from. cbn [s2 eof readErr reader].
    destruct (eof s'), (readErr s'), (delivered (reader s') 0); simplify_eq/=; done. }
  split_and!; try done. unfold remaining in *. cbn. lia.
Qed.

Lemma readByte_nil s e :
  read_ok s → stream s = ([], e) →
  ∃ s', readByte s = (s', inl e) ∧ read_ok s' ∧ (remaining s' ≤ remaining s)%nat ∧
        (e = EOF → stream s' = ([], EOF)).
Proof.
  intros Hok Hst. unfold readByte.
  assert (pending s = []) as Hp.
  { unfold stream, stream_from in Hst. destruct (eof s), (readErr s), (delivered (reader s) 0);
      simplify_eq/=; try done. by apply app_eq_nil in H as []. }
  destruct (readLoop_spec (reader s) s 0 [] e) as (s' & -> & H1 & H2 & _ & H4); try done.
  rewrite decide_True by done. exists s'. split_and!; auto.
Qed.

(** ** [Next] cuts the reference chunks *)

(** [cuts] up to its first boundary. *)
Fixpoint first_cut (g : Geometry) (r : Roll) (cur l : bytes) : option (bytes * bytes * Roll) :=
  match l with
  | [] => None
  | b :: l =>
      let r' := updateHash r b in
      let cur' := cur ++ [b] in
      if boundary g (hash r') (len cur') then Some (cur', l, r')
      else first_cut g r' cur' l
  end.

Lemma cuts_first g r cur l :
  cuts g r cur l =
  match first_cut g r cur l with
  | Some (c, rest, r') => let '(cs, tl) := cuts g r' [] rest in (c :: cs, tl)
  | None => ([], cur ++ l)
  end.
Proof.
  revert r cur. induction l as [|b l IH]; intros r cur; cbn [cuts first_cut].
  - by rewrite app_nil_r.
  - case_match; [done|]. rewrite IH. case_match; [done|]. by rewrite <- app_assoc.
Qed.

Lemma first_cut_app g r cur l c rest r' :
  first_cut g r cur l = Some (c, rest, r') →
  ∃ d, c = cur ++ d ∧ l = d ++ rest ∧ d ≠ [] ∧ r' = foldl updateHash r d.
Proof.
  revert r cur. induction l as [|b l IH]; intros r cur; cbn [first_cut]; [done|].
  case_match; intros; simplify_eq.
  - exists [b]. by split_and!.
  - destruct (IH _ _ H0) as (d & -> & -> & _ & ->).
    exists (b :: d). rewrite <- app_assoc. by split_and!.
Qed.

Lemma nextLoop_spec l : ∀ fuel c start e,
  read_ok (rd c) → stream (rd c) = (l, e) → (remaining (rd c) < fuel)%nat →
  match first_cut (geo c) (roll c) (buf c) l with
  | Some (d, rest, r') => ∃ c',
      nextLoop fuel c start = (c', NChunk (mkChunk d start (len d))) ∧
      read_ok (rd c') ∧ stream (rd c') = (rest, e) ∧ roll c' = r' ∧ geo c' = geo c ∧
      offset c' = offset c + (len d - len (buf c))
  | None => ∃ c',
      nextLoop fuel c start =
        (c', if decide (e = EOF ∧ buf c ++ l ≠ [])
             then NChunk (mkChunk (buf c ++ l) start (len (buf c ++ l))) else NErr e) ∧
      (e = EOF → read_ok (rd c') ∧ stream (rd c') = ([], EOF) ∧ geo c' = geo c)
  end.
Proof.
  induction l as [|b l IH]; intros fuel c start e Hok Hst Hf; (destruct fuel as [|fuel]; [lia|]).
  - cbn [first_cut]. cbn [nextLoop]. rewrite app_nil_r.
    destruct (readByte_nil (rd c) e Hok Hst) as (s & -> & Hok' & _ & Heof).
    destruct (decide (e = EOF ∧ buf c ≠ [])) as [[-> Hb]|Hn].
    + rewrite bool_decide_true by done. destruct (buf c) eqn:Hbuf; [done|]. cbn [length Nat.ltb Nat.leb andb].
      eexists. split; [unfold emitChunk; cbn; reflexivity|]. intros _. by split_and!; auto.
    + assert (bool_decide (e = EOF) && (0 <? length (buf c))%nat = false) as ->.
      { destruct (decide (e = EOF)) as [->|]; [|by rewrite bool_decide_false].
        rewrite bool_decide_true by done. destruct (buf c) eqn:Hb; [done|]. destruct Hn. done. }
      eexists. split; [reflexivity|]. intros ->. by split_and!; auto.
  - cbn [nextLoop first_cut].
    destruct (readByte_cons (rd c) b l e Hok Hst) as (s & -> & Hst' & Hok' & Hrem).
    cbn [geo roll buf]. destruct (boundary _ _ _) eqn:Hb.
    + eexists. split; [unfold emitChunk; cbn [buf]; reflexivity|]. cbn. split_and!; try done. len.
    + specialize (IH fuel (mkChunker s (buf c ++ [b]) (offset c + 1) (updateHash (roll c) b) (geo c)) start e).
      cbn [rd geo roll buf offset] in IH. specialize (IH Hok' Hst' ltac:(lia)).
      destruct (first_cut _ _ _ _) as [[[d rest] r']|] eqn:Hfc.
      * destruct IH as (c' & -> & ? & ? & ? & ? & Hoff). exists c'. split_and!; try done. len.
      * destruct IH as (c' & -> & Hc'). exists c'. split; [|done].
        rewrite <- !app_assoc. done.
Qed.

(** [Next], whole: total, one chunk of the reference per call. *)
Lemma Next_spec c l e :
  read_ok (rd c) → stream (rd c) = (l, e) →
  match first_cut (geo c) (roll c) [] l with
  | Some (d, rest, r') => ∃ c',
      Next c = (c', NChunk (mkChunk d (offset c) (len d))) ∧
      read_ok (rd c') ∧ stream (rd c') = (rest, e) ∧ roll c' = r' ∧ geo c' = geo c ∧
      offset c' = offset c + len d
  | None => ∃ c',
      Next c = (c', if decide (e = EOF ∧ l ≠ [])
                    then NChunk (mkChunk l (offset c) (len l)) else NErr e) ∧
      (e = EOF → read_ok (rd c') ∧ stream (rd c') = ([], EOF) ∧ geo c' = geo c)
  end.
Proof.
  intros Hok Hst.
  pose proof (nextLoop_spec l (S (remaining (rd c)))
    (mkChunker (rd c) [] (offset c) (roll c) (geo c)) (offset c) e Hok Hst ltac:(cbn; lia)) as H.
  cbn [geo roll buf offset rd length] in H. unfold Next.
  destruct (first_cut _ _ _ _) as [[[d rest] r']|]; [|exact H]. destruct H as (c' & ? & ? & ? & ? & ? & Hoff).
  exists c'. split_and!; try done. lia.
Qed.

(** The complete caller's loop against the reference. *)
Lemma chunkAll_cuts fuel : ∀ c l e cs tl,
  read_ok (rd c) → stream (rd c) = (l, e) → (length l + 2 ≤ fuel)%nat →
  cuts (geo c) (roll c) [] l = (cs, tl) →
  ∃ chs, chunkAll fuel c = (chs, NErr e) ∧ tiled (offset c) chs ∧
    map Data chs = cs ++ (if decide (e = EOF ∧ tl ≠ []) then [tl] else []).
Proof.
  induction fuel as [|fuel IH]; intros c l e cs tl Hok Hst Hf Hcuts; [lia|].
  cbn [chunkAll]. rewrite cuts_first in Hcuts. pose proof (Next_spec c l e Hok Hst) as HN.
  destruct (first_cut _ _ _ _) as [[[d rest] r']|] eqn:Hfc.
  - destruct HN as (c' & -> & Hok' & Hst' & Hr & Hg & Hoff).
    destruct (cuts (geo c) r' [] rest) as [cs' tl'] eqn:Hc. simplify_eq.
    apply first_cut_app in Hfc as (d' & Hd & -> & Hne & _). cbn [app] in Hd. subst d'.
    destruct (IH c' rest e cs' tl) as (chs & -> & Ht & Hm); try done.
    { destruct d; [done|]. len. }
    { by rewrite Hg. }
    eexists. split; [reflexivity|]. cbn. rewrite <- Hoff, Hm. by split_and!.
  - simplify_eq. cbn [app] in *. destruct HN as (c' & -> & Hc').
    destruct (decide (e = EOF ∧ l ≠ [])) as [[-> Hl]|Hn].
    + destruct Hc' as (Hok' & Hst' & Hg); [done|].
      destruct fuel as [|fuel]; [lia|]. cbn [chunkAll].
      pose proof (Next_spec c' [] EOF Hok' Hst') as (c2 & -> & _).
      rewrite decide_False by (intros [_ Hx]; by apply Hx). by eexists.
    + by eexists.
Qed.

Lemma concat_cuts g l : ∀ r cur cs tl,
  cuts g r cur l = (cs, tl) → concat cs ++ tl = cur ++ l.
Proof.
  induction l as [|b l IH]; intros r cur cs tl; cbn [cuts].
  - intros; simplify_eq/=. by rewrite app_nil_r.
  - destruct (boundary _ _ _); [destruct (cuts _ _ _ _) as [cs' tl'] eqn:Hc|]; intros; simplify_eq/=.
    + rewrite <- !app_assoc. cbn. by rewrite (IH _ _ _ _ Hc).
    + rewrite (IH _ _ _ _ H). by rewrite <- app_assoc.
Qed.

(** The forced boundary bounds every chunk, the trailing one included. *)
Definition sized (g : Geometry) (d : bytes) : Prop :=
  1 ≤ len d ≤ Z.max 1 (Z.max (minSize g) (maxSize g)).

Lemma cuts_sized g l : ∀ r cur cs tl,
  cur = [] ∨ len cur < Z.max (minSize g) (maxSize g) →
  cuts g r cur l = (cs, tl) → Forall (sized g) cs ∧ (tl = [] ∨ sized g tl).
Proof.
  assert (Hstep : ∀ cur b, cur = [] ∨ len cur < Z.max (minSize g) (maxSize g) →
    sized g (cur ++ [b])).
  { intros cur b [->|?]; unfold sized; len. }
  induction l as [|b l IH]; intros r cur cs tl Hcur; cbn [cuts].
  - intros [= <- <-]. split; [done|]. destruct cur as [|x cur]; [by left|right].
    destruct Hcur as [Hc|]; [done|]. unfold sized; len.
  - destruct (boundary _ _ _) eqn:Hb.
    + destruct (cuts _ _ _ _) as [cs' tl'] eqn:Hc. intros; simplify_eq.
      destruct (IH _ _ _ _ (or_introl eq_refl) Hc). split; [constructor|]; auto.
    + apply IH. right. unfold boundary in Hb. len. case_match; zbool; [lia|].
      case_match; zbool; [lia|done].
Qed.

Lemma tiled_inj chs1 : ∀ chs2 o,
  tiled o chs1 → tiled o chs2 → map Data chs1 = map Data chs2 → chs1 = chs2.
Proof.
  induction chs1 as [|[d1 o1 n1] chs1 IH]; intros [|[d2 o2 n2] chs2] o; cbn; try done.
  intros (-> & -> & H1) (-> & -> & H2) [= -> Hm]. f_equal. by eapply IH.
Qed.

Lemma New_stream rdr opts l e :
  delivered rdr 0 = (l, e) → read_ok (rd (New rdr opts)) ∧ stream (rd (New rdr opts)) = (l, e).
Proof.
  intros Hd. split; [unfold read_ok, New; cbn [rd readEnd readBuf]; lia|].
  unfold stream, stream_from, New; cbn [rd eof readErr reader].
  rewrite Hd. unfold pending. cbn [readEnd readPos readBuf]. by rewrite take_0, drop_0.
Qed.

(** ** Properties *)

(** C10. The caller's loop over a chunker on any reader returns the reader's
    terminal error after chunks that tile the delivered bytes: they lie end to
    end from offset 0, each within the size bounds, and (at a clean EOF) their
    data concatenated is exactly what the reader delivered. *)
Theorem chunks_tile_stream (rdr : Reader) (opts : list Option') (l : bytes) :
  delivered rdr 0 = (l, EOF) →
  ∃ chs, chunkAll (length l + 2) (New rdr opts) = (chs, NErr EOF) ∧
    concat (map Data chs) = l ∧ tiled 0 chs ∧
    Forall (λ ch, sized (geometry opts) (Data ch)) chs.
Proof.
  intros Hd. destruct (New_stream rdr opts l EOF Hd) as [Hok Hst].
  destruct (cuts (geometry opts) roll0 [] l) as [cs tl] eqn:Hc.
  destruct (chunkAll_cuts (length l + 2) (New rdr opts) l EOF cs tl) as (chs & Hrun & Ht & Hm);
    try done.
  exists chs. split_and!; try done.
  - rewrite Hm, concat_app. apply concat_cuts in Hc. cbn [app] in Hc. rewrite <- Hc.
    f_equal. case_decide as Hdec; cbn; [by rewrite app_nil_r|].
    destruct tl; [done|]. by destruct Hdec.
  - apply Forall_map. rewrite Hm. destruct (cuts_sized _ _ _ _ _ _ (or_introl eq_refl) Hc) as [Hs [->|Htl]].
    + rewrite decide_False by (intros [_ Hx]; by apply Hx). by rewrite app_nil_r.
    + apply Forall_app. split; [done|]. case_match; auto.
Qed.

Lemma chunks_tile_stream_witness :
  ∃ chs, chunkAll 12 (New [([1;2;3], None); ([], None); ([4;5;6;7;8;9;10], Some EOF)]
                        [WithMinSize 2; WithMaxSize 4]) = (chs, NErr EOF) ∧
    concat (map Data chs) = [1;2;3;4;5;6;7;8;9;10] ∧ tiled 0 chs ∧
    Forall (λ ch, sized (geometry [WithMinSize 2; WithMaxSize 4]) (Data ch)) chs.
Proof.
  apply (chunks_tile_stream [([1;2;3], None); ([], None); ([4;5;6;7;8;9;10], Some EOF)]
           [WithMinSize 2; WithMaxSize 4] [1;2;3;4;5;6;7;8;9;10]).
  reflexivity.
Defined.

(** The chunks depend on the delivered bytes and the terminal error only:
    readers that split the same bytes differently produce the same chunks and
    the same final error. *)
Theorem chunks_independent_of_reads (r1 r2 : Reader) (opts : list Option') (l : bytes) (e : rerr) :
  delivered r1 0 = (l, e) → delivered r2 0 = (l, e) →
  chunkAll (length l + 2) (New r1 opts) = chunkAll (length l + 2) (New r2 opts).
Proof.
  intros H1 H2.
  destruct (New_stream r1 opts l e H1) as [Hok1 Hst1].
  destruct (New_stream r2 opts l e H2) as [Hok2 Hst2].
  destruct (cuts (geometry opts) roll0 [] l) as [cs tl] eqn:Hc.
  destruct (chunkAll_cuts (length l + 2) (New r1 opts) l e cs tl) as (chs1 & -> & Ht1 & Hm1); try done.
  destruct (chunkAll_cuts (length l + 2) (New r2 opts) l e cs tl) as (chs2 & -> & Ht2 & Hm2); try done.
  f_equal. eapply tiled_inj; [exact Ht1|exact Ht2|congruence].
Qed.

Lemma chunks_independent_of_reads_witness :
  chunkAll 7 (New [([1;2], None); ([3;4;5], Some EOF)] [WithMaxSize 2; WithMinSize 1]) =
  chunkAll 7 (New [([1;2;3], None); ([], None); ([4;5], None)] [WithMaxSize 2; WithMinSize 1]).
Proof.
  apply (chunks_independent_of_reads [([1;2], None); ([3;4;5], Some EOF)]
           [([1;2;3], None); ([], None); ([4;5], None)]
           [WithMaxSize 2; WithMinSize 1] [1;2;3;4;5] EOF); reflexivity.
Defined.

(** Rolling is recomputation: after any bytes, the incremental hash is the
    Buzhash of the last 48 bytes (zeros before the stream), so a boundary is a
    function of the window's content. *)
Theorem rolling_hash_is_window_hash (l : bytes) :
  hash (foldl updateHash roll0 l) = buz (drop (length l) (zeros WindowSize ++ l)).
Proof.
  destruct (ordered_fold roll0 l roll0_ok) as [(_ & _ & ->) ->]. done.
Qed.

(** Shift resistance: when two streams have each just cut a chunk and agree
    on their last 48 bytes, they cut every later byte identically, whatever
    came before. *)
Theorem cuts_resync (g : Geometry) (p1 p2 w rest : bytes) :
  length w = WindowSize →
  cuts g (foldl updateHash roll0 (p1 ++ w)) [] rest =
  cuts g (foldl updateHash roll0 (p2 ++ w)) [] rest.
Proof.
  intros Hw. apply cuts_proper; [|done|done].
  destruct (ordered_fold roll0 (p1 ++ w) roll0_ok) as [Hok1 Ho1].
  destruct (ordered_fold roll0 (p2 ++ w) roll0_ok) as [Hok2 Ho2].
  split_and!; try done. rewrite Ho1, Ho2, !app_assoc.
  assert (length (ordered roll0) = WindowSize) as Hlen by done.
  rewrite !(drop_app_exact _ w) by len. done.
Qed.

Lemma cuts_resync_witness :
  cuts (geometry []) (foldl updateHash roll0 ([7] ++ replicate 48 1)) [] [1;2;3] =
  cuts (geometry []) (foldl updateHash roll0 ([9;9] ++ replicate 48 1)) [] [1;2;3].
Proof. apply (cuts_resync (geometry []) [7] [9;9] (replicate 48 1) [1;2;3]). reflexivity. Defined.

(** [Reset] makes a used chunker equal to a fresh one on the new reader, up
    to the starting offset: it returns the chunks [New] would return with every
    offset shifted. *)
Theorem reset_like_new (c : Chunker) (rdr : Reader) (off : Z) (l : bytes) :
  delivered rdr 0 = (l, EOF) →
  ∃ chs, chunkAll (length l + 2) (Reset c rdr off) = (chs, NErr EOF) ∧
    tiled off chs ∧ concat (map Data chs) = l ∧
    map Data chs = let '(cs, tl) := cuts (geo c) roll0 [] l in
                   cs ++ (if decide (tl = []) then [] else [tl]).
Proof.
  intros Hd. destruct (cuts (geo c) roll0 [] l) as [cs tl] eqn:Hc.
  destruct (chunkAll_cuts (length l + 2) (Reset c rdr off) l EOF cs tl) as (chs & Hrun & Ht & Hm);
    try done.
  { unfold read_ok, Reset; cbn [rd readEnd readBuf]. lia. }
  { unfold stream, stream_from, Reset; cbn [rd eof readErr reader]. by rewrite Hd. }
  assert (map Data chs = cs ++ (if decide (tl = []) then [] else [tl])) as Hm'
    by (rewrite Hm; f_equal; destruct (decide (tl = [])) as [->|];
        [by rewrite decide_False by (intros [_ Hx]; by apply Hx) | by rewrite decide_True]).
  exists chs. split_and!; try done. rewrite Hm', concat_app.
  apply concat_cuts in Hc. cbn [app] in Hc. rewrite <- Hc. f_equal.
  case_decide; [by subst|]. cbn. by rewrite app_nil_r.
Qed.

Lemma reset_like_new_witness :
  ∃ chs, chunkAll 5 (Reset (New [([1], None)] []) [([5;6;7], None)] 100) = (chs, NErr EOF) ∧
    tiled 100 chs ∧ concat (map Data chs) = [5;6;7] ∧
    map Data chs = let '(cs, tl) := cuts (geometry []) roll0 [] [5;6;7] in
                   cs ++ (if decide (tl = []) then [] else [tl]).
Proof. apply (reset_like_new (New [([1], None)] []) [([5;6;7], None)] 100 [5;6;7]). reflexivity. Defined.
