(* ===== verification/Bloom.v ===== *)
(** * core/index/bloom.go: the dedup index's tier-1 filter

    The filter's words, [Add], [MayContain], the double-hashing positions with
    the splitmix64 finalizer, and the file format of [Save]/[LoadBloomFilter].
    Each method holds the filter's mutex, so a concurrent history is a sequence
    of these operations.  The sizing formula of [NewBloomFilter] is floating
    point; its result, [uint64(math.Ceil(...))], is the argument [raw]. *)

From S2P Require Import Prelude GoBytes.

Definition bloomNumHash : nat := 7.

Record BloomFilter := mkBloom { bits : list Z; numBits : Z; count : Z }.

(** [((raw + 63) / 64) * 64], and 64 when that is 0. *)
Definition roundBits (raw : Z) : Z :=
  let n := u64 (u64 (raw + 63) / 64 * 64) in
  if n =? 0 then 64 else n.

Definition BloomSizeBytes (raw : Z) : Z := roundBits raw / 8.

Definition NewBloomFilter (raw : Z) : BloomFilter :=
  let n := roundBits raw in
  mkBloom (replicate (Z.to_nat (n / 64)) 0) n 0.

Definition SizeBytes (bf : BloomFilter) : Z := len (bits bf) * 8.

Definition mix64 (x : Z) : Z :=
  let x := Z.lxor x (Z.shiftr x 30) in
  let x := u64 (x * 0xbf58476d1ce4e5b9) in
  let x := Z.lxor x (Z.shiftr x 27) in
  let x := u64 (x * 0x94d049bb133111eb) in
  Z.lxor x (Z.shiftr x 31).

Definition hashPosition (bf : BloomFilter) (weakHash : Z) (i : nat) : Z :=
  let h1 := weakHash in
  let h2 := mix64 weakHash in
  u64 (h1 + Z.of_nat i * h2 + Z.of_nat i * Z.of_nat i) mod numBits bf.

(** [bf.bits[pos/64] |= 1 << (pos % 64)]: an index out of range is a panic,
    [None]. *)
Definition setBit (ws : list Z) (pos : Z) : option (list Z) :=
  let i := Z.to_nat (pos / 64) in
  w ← ws !! i; Some (<[i := Z.lor w (Z.shiftl 1 (pos mod 64))]> ws).

Definition getBit (ws : list Z) (pos : Z) : option bool :=
  w ← ws !! Z.to_nat (pos / 64); Some (Z.testbit w (pos mod 64)).

Fixpoint addLoop (bf : BloomFilter) (weakHash : Z) (js : list nat) (ws : list Z) : option (list Z) :=
  match js with
  | [] => Some ws
  | i :: js => ws' ← setBit ws (hashPosition bf weakHash i); addLoop bf weakHash js ws'
  end.

Definition Add (bf : BloomFilter) (weakHash : Z) : option BloomFilter :=
  ws ← addLoop bf weakHash (seq 0 bloomNumHash) (bits bf);
  Some (mkBloom ws (numBits bf) (u64 (count bf + 1))).

Fixpoint containLoop (bf : BloomFilter) (weakHash : Z) (js : list nat) : option bool :=
  match js with
  | [] => Some true
  | i :: js =>
      b ← getBit (bits bf) (hashPosition bf weakHash i);
      if (b : bool) then containLoop bf weakHash js else Some false
  end.

Definition MayContain (bf : BloomFilter) (weakHash : Z) : option bool :=
  containLoop bf weakHash (seq 0 bloomNumHash).

Arguments MayContain : simpl never.
Arguments hashPosition : simpl never.

(** A history of [Add]s. *)
Fixpoint AddAll (bf : BloomFilter) (ws : list Z) : option BloomFilter :=
  match ws with
  | [] => Some bf
  | w :: ws => bf' ← Add bf w; AddAll bf' ws
  end.

(** ** The file format *)

Inductive bloom_err := BloomTooSmall | BloomBadNumBits (n : Z) | BloomSizeMismatch (got want : Z).

Definition Save (bf : BloomFilter) : bytes :=
  PutUint64 (numBits bf) ++ PutUint64 (count bf) ++ concat (map PutUint64 (bits bf)).

Definition LoadBloomFilter (data : bytes) : result bloom_err BloomFilter :=
  if len data <? 16 then Err BloomTooSmall
  else
    let nb := le_get (sub data 0 8) in
    let cnt := le_get (sub data 8 8) in
    if (nb =? 0) || negb (nb mod 64 =? 0) then Err (BloomBadNumBits nb)
    else
      let expectedSize := 16 + nb / 64 * 8 in
      if negb (len data =? expectedSize) then Err (BloomSizeMismatch (len data) expectedSize)
      else Ok (mkBloom
        (map (λ i, le_get (sub data (16 + i * 8) 8)) (seq 0 (Z.to_nat (nb / 64)))) nb cnt).

(** ** Invariant *)

Record bloom_ok (bf : BloomFilter) : Prop := {
  bloom_bits_pos : 0 < numBits bf < 2 ^ 64;
  bloom_words : numBits bf = len (bits bf) * 64;
  bloom_words_u64 : Forall is_u64 (bits bf);
  bloom_count : is_u64 (count bf) }.

#[export] Instance bloom_ok_dec bf : Decision (bloom_ok bf).
Proof.
  refine (cast_if (decide ((0 < numBits bf < 2 ^ 64) ∧ numBits bf = len (bits bf) * 64 ∧
    Forall is_u64 (bits bf) ∧ is_u64 (count bf)))); [abstract by destruct_and!; constructor|].
  abstract (intros []; tauto).
Defined.

Lemma roundBits_ok raw :
  is_u64 raw → raw < 2 ^ 64 - 63 →
  0 < roundBits raw < 2 ^ 64 ∧ roundBits raw mod 64 = 0 ∧ raw ≤ roundBits raw.
Proof.
  intros [H0 _] H1. unfold roundBits. rewrite (u64_id (raw + 63)) by (split; lia).
  pose proof (Z.div_mod (raw + 63) 64 ltac:(lia)) as Hd.
  pose proof (Z.mod_pos_bound (raw + 63) 64 ltac:(lia)) as Hm.
  rewrite u64_id by (split; lia).
  case_match; zbool; [split_and!; (done || lia)|].
  split_and!; [lia|lia|by rewrite Z_mod_mult|lia].
Qed.

Lemma NewBloomFilter_ok raw : is_u64 raw → raw < 2 ^ 64 - 63 → bloom_ok (NewBloomFilter raw).
Proof.
  intros Hr Hlt. destruct (roundBits_ok raw Hr Hlt) as (Hp & Hm & _).
  unfold NewBloomFilter. constructor; cbn; [done| | |by split].
  - rewrite length_replicate. pose proof (Z.div_mod (roundBits raw) 64 ltac:(lia)) as Hd.
    rewrite Hm in Hd. rewrite Z2Nat.id; [lia|]. apply Z.div_pos; lia.
  - apply Forall_replicate. by split.
Qed.

Lemma hashPosition_range bf w i : bloom_ok bf → 0 ≤ hashPosition bf w i < numBits bf.
Proof. intros [H _ _ _]. apply Z.mod_pos_bound. lia. Qed.

Lemma word_in_range bf pos :
  bloom_ok bf → 0 ≤ pos < numBits bf → is_Some (bits bf !! Z.to_nat (pos / 64)).
Proof.
  intros [_ Hw _ _] Hp. apply lookup_lt_is_Some.
  assert (pos / 64 < len (bits bf)) by (apply Z.div_lt_upper_bound; lia).
  assert (0 ≤ pos / 64) by (apply Z.div_pos; lia). lia.
Qed.

(** ** Bits *)

(** Setting a bit sets it and leaves every other bit as it was. *)
Lemma getBit_setBit ws ws' p q :
  0 ≤ p → 0 ≤ q → setBit ws p = Some ws' →
  getBit ws' q = (b ← getBit ws q; Some (bool_decide (p = q) || b)).
Proof.
  intros Hp Hq. unfold setBit, getBit. intros Hs.
  destruct (ws !! Z.to_nat (p / 64)) as [w|] eqn:Hw; simplify_eq/=.
  pose proof (Z.mod_pos_bound q 64 ltac:(lia)). pose proof (Z.mod_pos_bound p 64 ltac:(lia)).
  pose proof (Z.div_mod q 64 ltac:(lia)). pose proof (Z.div_mod p 64 ltac:(lia)).
  destruct (decide (p / 64 = q / 64)) as [He|Hne].
  - rewrite <- He, list_lookup_insert_eq by (by eapply lookup_lt_Some). rewrite Hw. cbn.
    f_equal. rewrite Z.lor_spec, Z.shiftl_spec by lia.
    destruct (decide (p = q)) as [->|Hpq].
    + by rewrite bool_decide_true, Z.sub_diag, orb_true_r by done.
    + rewrite bool_decide_false by done. cbn.
      assert (Z.testbit 1 (q mod 64 - p mod 64) = false) as ->; [|by rewrite orb_false_r].
      destruct (Z_lt_le_dec (q mod 64) (p mod 64)); [apply Z.testbit_neg_r; lia|].
      apply Z.bits_above_log2; cbn; lia.
  - assert (0 ≤ p / 64) by (apply Z.div_pos; lia). assert (0 ≤ q / 64) by (apply Z.div_pos; lia).
    rewrite list_lookup_insert_ne by lia.
    rewrite bool_decide_false by (intros ->; done). by destruct (ws !! Z.to_nat (q / 64)).
Qed.

Lemma setBit_ok ws p ws' :
  0 ≤ p → Forall is_u64 ws → setBit ws p = Some ws' →
  Forall is_u64 ws' ∧ length ws' = length ws.
Proof.
  unfold setBit. intros Hp Hws Hs. destruct (ws !! _) as [w|] eqn:Hw; simplify_eq/=.
  split; [|by rewrite length_insert]. apply Forall_insert; [done|].
  pose proof (Z.mod_pos_bound p 64 ltac:(lia)).
  assert (is_u64 w) as [Hw0 Hw1] by (by eapply Forall_lookup_1).
  assert (0 ≤ Z.lor w (Z.shiftl 1 (p mod 64))) by (apply Z.lor_nonneg; split; [lia|by apply Z.shiftl_nonneg]).
  split; [done|]. destruct (Z.eq_dec (Z.lor w (Z.shiftl 1 (p mod 64))) 0) as [->|]; [lia|].
  apply Z.log2_lt_pow2; [lia|]. rewrite Z.log2_lor by (lia || by apply Z.shiftl_nonneg).
  apply Z.max_lub_lt.
  - destruct (Z.eq_dec w 0) as [->|]; [cbn; lia|]. apply Z.log2_lt_pow2; lia.
  - rewrite Z.log2_shiftl by lia. cbn. lia.
Qed.

(** The add loop: total, monotone, and every position of its list is set. *)
Lemma addLoop_spec bf w js : ∀ ws,
  bloom_ok bf → length ws = length (bits bf) → Forall is_u64 ws →
  ∃ ws', addLoop bf w js ws = Some ws' ∧ length ws' = length ws ∧ Forall is_u64 ws' ∧
    (∀ q, 0 ≤ q → getBit ws q = Some true → getBit ws' q = Some true) ∧
    (∀ i, i ∈ js → getBit ws' (hashPosition bf w i) = Some true).
Proof.
  induction js as [|i js IH]; intros ws Hok Hlen Hws; cbn [addLoop].
  - exists ws. split_and!; try done. by intros ? ?%elem_of_nil.
  - pose proof (hashPosition_range bf w i Hok) as Hpos.
    assert (is_Some (ws !! Z.to_nat (hashPosition bf w i / 64))) as [x Hx].
    { apply lookup_lt_is_Some. rewrite Hlen. apply lookup_lt_is_Some. by apply word_in_range. }
    assert (∃ ws1, setBit ws (hashPosition bf w i) = Some ws1) as [ws1 Hs]
      by (unfold setBit; rewrite Hx; cbn; eauto).
    rewrite Hs. cbn. destruct (setBit_ok ws (hashPosition bf w i) ws1) as [Hu Hl]; [lia|done..|].
    destruct (IH ws1 Hok ltac:(congruence) Hu) as (ws' & -> & H1 & H2 & H3 & H4).
    exists ws'. split_and!; try done; [congruence| |].
    + intros q Hq Hb. apply H3; [done|]. rewrite (getBit_setBit ws ws1 (hashPosition bf w i)), Hb by (done || lia).
      cbn. by rewrite orb_true_r.
    + intros j [->|Hj]%elem_of_cons; [|auto]. apply H3; [lia|].
      rewrite (getBit_setBit ws ws1 (hashPosition bf w i)), bool_decide_true by (done || lia).
      unfold getBit. by rewrite Hx.
Qed.

Lemma containLoop_true bf w js :
  (∀ i, i ∈ js → getBit (bits bf) (hashPosition bf w i) = Some true) →
  containLoop bf w js = Some true.
Proof.
  induction js as [|i js IH]; intros H; [done|]. cbn [containLoop].
  rewrite H by (by left). cbn. apply IH. intros j Hj. apply H. by right.
Qed.

Lemma containLoop_true_inv bf w js :
  containLoop bf w js = Some true →
  ∀ i, i ∈ js → getBit (bits bf) (hashPosition bf w i) = Some true.
Proof.
  induction js as [|i js IH]; cbn [containLoop]; intros H j Hj; [by apply elem_of_nil in Hj|].
  destruct (getBit _ _) as [[]|] eqn:Hb; simplify_eq/=.
  apply elem_of_cons in Hj as [->|Hj]; auto.
Qed.

(** [Add] on a well-formed filter: total, keeps the invariant, keeps every
    answer [true], and makes its own element answer [true]. *)
Lemma Add_spec bf w :
  bloom_ok bf →
  ∃ bf', Add bf w = Some bf' ∧ bloom_ok bf' ∧ numBits bf' = numBits bf ∧
    count bf' = u64 (count bf + 1) ∧
    MayContain bf' w = Some true ∧
    (∀ v, MayContain bf v = Some true → MayContain bf' v = Some true).
Proof.
  intros Hok. unfold Add.
  destruct (addLoop_spec bf w (seq 0 bloomNumHash) (bits bf) Hok eq_refl (bloom_words_u64 _ Hok))
    as (ws & -> & Hl & Hu & Hmono & Hset). cbn.
  eexists. split; [reflexivity|]. split_and!; try done.
  - destruct Hok. constructor; cbn; try done; [by rewrite Hl|apply u64_range].
  - unfold MayContain. apply containLoop_true. intros i Hi. by apply Hset.
  - intros v Hv. unfold MayContain in *. apply containLoop_true. intros i Hi.
    apply Hmono; [apply (hashPosition_range bf v i Hok)|].
    exact (containLoop_true_inv bf v _ Hv i Hi).
Qed.

(** Setting bits that are set changes nothing. *)
Lemma setBit_set ws pos : 0 ≤ pos → getBit ws pos = Some true → setBit ws pos = Some ws.
Proof.
  intros Hp. unfold getBit, setBit. destruct (ws !! _) as [w|] eqn:Hw; [|done]. cbn. intros [= Hb].
  f_equal. apply list_insert_id. rewrite Hw. f_equal. apply Z.bits_inj'. intros n Hn.
  pose proof (Z.mod_pos_bound pos 64). rewrite Z.lor_spec, Z.shiftl_1_l, Z.pow2_bits_eqb by lia. destruct (Z.eqb_spec (pos mod 64) n) as [<-|]; [by rewrite Hb|apply eq_sym, orb_false_r].
Qed.

(** Adding what the filter answers [true] for changes no answer. *)
Lemma Add_known bf w bf' : bloom_ok bf → MayContain bf w = Some true → Add bf w = Some bf' → ∀ v, MayContain bf' v = MayContain bf v.
Proof.
  intros Hok Hw Ha. assert (Hl : ∀ js, (∀ i, i ∈ js → getBit (bits bf) (hashPosition bf w i) = Some true) → addLoop bf w js (bits bf) = Some (bits bf)).
  { induction js as [|i js IH]; intros H; [done|]. cbn [addLoop]. rewrite setBit_set; [|apply (hashPosition_range bf w i Hok)|apply H; by left]. apply IH. intros j Hj. apply H. by right. }
  unfold Add in Ha. rewrite (Hl _ (containLoop_true_inv bf w _ Hw)) in Ha. injection Ha as <-. intros v. unfold MayContain. by induction (seq 0 bloomNumHash) as [|i js IH]; [|cbn [containLoop]; rewrite IH].
Qed.

Lemma MayContain_total bf w : bloom_ok bf → ∃ b, MayContain bf w = Some b.
Proof.
  intros Hok. unfold MayContain. induction (seq 0 bloomNumHash) as [|i js IH]; cbn [containLoop]; [by exists true|].
  destruct (word_in_range bf (hashPosition bf w i) Hok (hashPosition_range bf w i Hok)) as [x Hx].
  unfold getBit. rewrite Hx. cbn. destruct (Z.testbit x _); [exact IH|by exists false].
Qed.

Lemma AddAll_spec ws : ∀ bf, bloom_ok bf →
  ∃ bf', AddAll bf ws = Some bf' ∧ bloom_ok bf' ∧ numBits bf' = numBits bf ∧
    (∀ v, v ∈ ws ∨ MayContain bf v = Some true → MayContain bf' v = Some true).
Proof.
  induction ws as [|w ws IH]; intros bf Hok; cbn [AddAll].
  - exists bf. split_and!; try done. by intros v [?%elem_of_nil|].
  - destruct (Add_spec bf w Hok) as (bf1 & -> & Hok1 & Hn1 & _ & Hw & Hmono). cbn.
    destruct (IH bf1 Hok1) as (bf' & -> & Hok' & Hn' & Hall).
    exists bf'. split_and!; try done; [congruence|].
    intros v [[->|Hv]%elem_of_cons|Hv]; apply Hall; auto.
Qed.

(** ** Save and load *)

Lemma length_concat_words ws : length (concat (map PutUint64 ws)) = (length ws * 8)%nat.
Proof. induction ws; cbn [map concat]; [done|]. len. Qed.

Lemma sub_word ws i w l :
  ws !! i = Some w → sub (concat (map PutUint64 ws) ++ l) (i * 8) 8 = PutUint64 w.
Proof.
  revert i. induction ws as [|v ws IH]; intros [|i] Hw; simplify_eq/=.
  - rewrite <- app_assoc. by apply sub_app_here.
  - rewrite <- app_assoc, sub_app_skip by len. rewrite <- (IH i Hw). f_equal. len.
Qed.

Lemma words_of_bytes data n :
  bytes_ok data → length data = (n * 8)%nat →
  concat (map PutUint64 (map (λ i, le_get (sub data (i * 8) 8)) (seq 0 n))) = data.
Proof.
  revert data. induction n as [|n IH]; intros data Hok Hlen.
  - by destruct data.
  - cbn [seq map concat]. rewrite <- (take_drop 8 data) at 2. f_equal.
    + unfold sub. rewrite drop_0. apply PutUint64_le_get; [auto with bytes|len].
    + rewrite <- seq_shift, (map_map S). rewrite <- (IH (drop 8 data)) by (auto with bytes || len).
      do 2 f_equal. apply map_ext. intros i. unfold sub. by rewrite drop_drop.
Qed.

Lemma Save_wf_load bf :
  bloom_ok bf → LoadBloomFilter (Save bf) = Ok bf.
Proof.
  intros [Hnb Hw Hu Hc]. unfold LoadBloomFilter.
  assert (Hlen : length (Save bf) = (16 + length (bits bf) * 8)%nat).
  { unfold Save. len. rewrite length_concat_words. lia. }
  assert (Hf1 : sub (Save bf) 0 8 = PutUint64 (numBits bf)) by (unfold Save; by field).
  assert (Hf2 : sub (Save bf) 8 8 = PutUint64 (count bf)) by (unfold Save; by field).
  rewrite Hf1, Hf2, !le_get_PutUint64 by (done || unfold is_u64; lia).
  assert (numBits bf / 64 = len (bits bf)) as Hdiv by (rewrite Hw; by apply Z.div_mul).
  rewrite Hdiv, Hlen.
  rewrite (proj2 (Z.ltb_ge _ 16)) by lia. rewrite (proj2 (Z.eqb_neq _ 0)) by lia.
  assert (numBits bf mod 64 = 0) as -> by (rewrite Hw; by apply Z.mod_mul). cbn [orb negb Z.eqb].
  rewrite (proj2 (Z.eqb_eq _ _)) by lia. cbn [negb]. f_equal.
  destruct bf as [ws nb cnt]. cbn [bits numBits count] in *. f_equal. rewrite Nat2Z.id.
  apply list_eq. intros i. rewrite list_lookup_fmap.
  destruct (ws !! i) as [w|] eqn:Hi.
  - rewrite lookup_seq_lt by (by eapply lookup_lt_Some). cbn [fmap option_fmap option_map]. rewrite Nat.add_0_l.
    assert (sub (Save (mkBloom ws nb cnt)) (16 + i * 8) 8 = PutUint64 w) as ->.
    { unfold Save. rewrite !sub_app_skip by len. rewrite <- (app_nil_r (concat _)).
      rewrite <- (sub_word ws i w [] Hi). f_equal. len. }
    rewrite le_get_PutUint64; [done|]. by eapply Forall_lookup_1.
  - rewrite lookup_seq_ge by (by apply lookup_ge_None). done.
Qed.

Lemma Load_ok_inv data bf :
  bytes_ok data → LoadBloomFilter data = Ok bf → bloom_ok bf ∧ Save bf = data.
Proof.
  intros Hok. unfold LoadBloomFilter.
  destruct (Z.ltb_spec (len data) 16) as [|H16]; [done|].
  set (nb := le_get (sub data 0 8)). set (cnt := le_get (sub data 8 8)).
  assert (is_u64 nb) as Hnb by (apply le_get_u64; [auto with bytes|apply length_sub; lia]).
  assert (is_u64 cnt) as Hcnt by (apply le_get_u64; [auto with bytes|apply length_sub; lia]).
  destruct (Z.eqb_spec nb 0) as [|H0]; [done|].
  destruct (Z.eqb_spec (nb mod 64) 0) as [Hm|]; [|done]. cbn [orb negb].
  destruct (Z.eqb_spec (len data) (16 + nb / 64 * 8)) as [Hs|]; [|done]. cbn [negb]. intros [= <-].
  pose proof (Z.div_mod nb 64 ltac:(lia)) as Hd. rewrite Hm in Hd.
  assert (0 ≤ nb / 64) by (apply Z.div_pos; [apply Hnb|lia]). destruct Hnb. split.
  - constructor; cbn; [lia| | |done].
    + rewrite length_map, length_seq, Z2Nat.id by done. lia.
    + apply Forall_map, Forall_seq. intros i Hi.
      apply le_get_u64; [auto with bytes|apply length_sub; lia].
  - transitivity (take 8 (take 16 data) ++ drop 8 (take 16 data) ++ drop 16 data);
      [|by rewrite app_assoc, !take_drop].
    unfold Save; cbn [bits numBits count]. f_equal; [|f_equal].
    + unfold nb, sub. rewrite drop_0, take_take. apply PutUint64_le_get; [auto with bytes|len].
    + unfold cnt, sub. rewrite take_drop_commute. apply PutUint64_le_get; [auto with bytes|len].
    + rewrite <- (words_of_bytes (drop 16 data) (Z.to_nat (nb / 64))) by (auto with bytes || len).
      do 2 f_equal. apply map_ext. intros i. unfold sub. by rewrite drop_drop.
Qed.

(** ** mix64 is a bijection

    Each step is invertible on 64-bit words: an xor with a right shift of at
    least 22 by the folded shifts, a multiplication by an odd constant by its
    inverse modulo 2^64. *)

Definition unxorshift (k x : Z) : Z :=
  Z.lxor x (Z.lxor (Z.shiftr x k) (Z.shiftr x (2 * k))).

Definition unmix64 (x : Z) : Z :=
  let x := unxorshift 31 x in
  let x := u64 (x * 0x319642b2d24d8ec3) in
  let x := unxorshift 27 x in
  let x := u64 (x * 0x96de1b173f119089) in
  unxorshift 30 x.

Lemma shiftr_u64 x k : is_u64 x → 0 ≤ k → is_u64 (Z.shiftr x k).
Proof.
  intros [H0 H1] Hk. rewrite Z.shiftr_div_pow2 by done. split; [apply Z.div_pos; lia|].
  apply Z.div_lt_upper_bound; [lia|]. assert (1 ≤ 2 ^ k) by lia. nia.
Qed.

Lemma shiftr_u64_zero x k : is_u64 x → 64 ≤ k → Z.shiftr x k = 0.
Proof.
  intros [H0 H1] Hk. rewrite Z.shiftr_div_pow2 by lia. apply Z.div_small. split; [done|].
  eapply Z.lt_le_trans; [exact H1|]. apply Z.pow_le_mono_r; lia.
Qed.

Lemma xorshift_u64 x k : is_u64 x → 0 ≤ k → is_u64 (Z.lxor x (Z.shiftr x k)).
Proof. intros. apply lxor_range; [lia|done|by apply shiftr_u64]. Qed.

Lemma unxorshift_xorshift x k :
  is_u64 x → 22 ≤ k → unxorshift k (Z.lxor x (Z.shiftr x k)) = x.
Proof.
  intros Hx Hk. unfold unxorshift. rewrite !Z.shiftr_lxor, !Z.shiftr_shiftr by lia.
  rewrite (shiftr_u64_zero x (k + 2 * k)) by (done || lia).
  replace (k + k) with (2 * k) by lia. rewrite Z.lxor_0_r.
  set (a := Z.shiftr x k). set (b := Z.shiftr x (2 * k)).
  rewrite (Z.lxor_assoc a b b), Z.lxor_nilpotent, Z.lxor_0_r.
  by rewrite Z.lxor_assoc, Z.lxor_nilpotent, Z.lxor_0_r.
Qed.

Lemma xorshift_unxorshift x k :
  is_u64 x → 22 ≤ k → Z.lxor (unxorshift k x) (Z.shiftr (unxorshift k x) k) = x.
Proof.
  intros Hx Hk. unfold unxorshift. rewrite !Z.shiftr_lxor, !Z.shiftr_shiftr by lia.
  rewrite (shiftr_u64_zero x (2 * k + k)) by (done || lia).
  replace (k + k) with (2 * k) by lia. rewrite Z.lxor_0_r.
  set (a := Z.shiftr x k). set (b := Z.shiftr x (2 * k)).
  by rewrite Z.lxor_assoc, Z.lxor_nilpotent, Z.lxor_0_r.
Qed.

Lemma u64_mul_inv x a b : is_u64 x → u64 (a * b) = 1 → u64 (u64 (x * a) * b) = x.
Proof.
  unfold u64. intros Hx Hab. rewrite Zmult_mod_idemp_l, <- Z.mul_assoc, <- Zmult_mod_idemp_r, Hab.
  rewrite Z.mul_1_r. by apply Z.mod_small.
Qed.

Lemma unmix64_mix64 x : is_u64 x → unmix64 (mix64 x) = x.
Proof.
  intros Hx. unfold unmix64, mix64.
  rewrite unxorshift_xorshift by (lia || apply u64_range).
  rewrite u64_mul_inv by (done || (apply xorshift_u64; [apply u64_range|lia])).
  rewrite unxorshift_xorshift by (lia || apply u64_range).
  rewrite u64_mul_inv by (done || (apply xorshift_u64; [done|lia])).
  by apply unxorshift_xorshift.
Qed.

Lemma unxorshift_u64 x k : is_u64 x → 0 ≤ k → is_u64 (unxorshift k x).
Proof.
  intros. unfold unxorshift. apply lxor_range; [lia|done|].
  apply lxor_range; [lia|by apply shiftr_u64|apply shiftr_u64; [done|lia]].
Qed.

Lemma mix64_unmix64 x : is_u64 x → mix64 (unmix64 x) = x.
Proof.
  intros Hx. unfold unmix64, mix64.
  rewrite xorshift_unxorshift by (lia || apply u64_range).
  rewrite u64_mul_inv by (done || (apply unxorshift_u64; [apply u64_range|lia])).
  rewrite xorshift_unxorshift by (lia || apply u64_range).
  rewrite u64_mul_inv by (done || (apply unxorshift_u64; [done|lia])).
  by apply xorshift_unxorshift.
Qed.

(** ** Properties *)

(** No false negatives, ever: from a filter in its invariant, any history
    of [Add]s runs without an out-of-range word access, and afterwards every
    hash added (and every hash that already answered true) answers true. *)
Theorem bloom_no_false_negative (bf : BloomFilter) (ws : list Z) :
  bloom_ok bf →
  ∃ bf', AddAll bf ws = Some bf' ∧ bloom_ok bf' ∧
    (∀ w, w ∈ ws → MayContain bf' w = Some true) ∧
    (∀ w, MayContain bf w = Some true → MayContain bf' w = Some true).
Proof.
  intros Hok. destruct (AddAll_spec ws bf Hok) as (bf' & H & Hok' & _ & Hall).
  exists bf'. split_and!; auto.
Qed.

Lemma bloom_no_false_negative_witness :
  ∃ bf', AddAll (NewBloomFilter 100) [5; 0xFFFFFFFFFFFFFFFF] = Some bf' ∧ bloom_ok bf' ∧
    (∀ w, w ∈ [5; 0xFFFFFFFFFFFFFFFF] → MayContain bf' w = Some true) ∧
    (∀ w, MayContain (NewBloomFilter 100) w = Some true → MayContain bf' w = Some true).
Proof. apply bloom_no_false_negative. by_eval. Defined.

(** The bloom file round-trips and its loader is exact: a saved filter
    loads back equal, and bytes the loader accepts are exactly the saved form
    of the filter it returns, which satisfies the invariant (so neither [Add]
    nor [MayContain] can panic on it). *)
Theorem bloom_save_load (bf : BloomFilter) (data : bytes) :
  bytes_ok data →
  (bloom_ok bf → LoadBloomFilter (Save bf) = Ok bf) ∧
  (LoadBloomFilter data = Ok bf → bloom_ok bf ∧ Save bf = data).
Proof. intros Hd. split; [apply Save_wf_load|by apply Load_ok_inv]. Qed.

Lemma bloom_save_load_witness :
  (bloom_ok (mkBloom [3; 0] 128 1) →
     LoadBloomFilter (Save (mkBloom [3; 0] 128 1)) = Ok (mkBloom [3; 0] 128 1)) ∧
  (LoadBloomFilter (Save (mkBloom [3; 0] 128 1)) = Ok (mkBloom [3; 0] 128 1) →
     bloom_ok (mkBloom [3; 0] 128 1) ∧ Save (mkBloom [3; 0] 128 1) = Save (mkBloom [3; 0] 128 1)).
Proof. apply bloom_save_load. by_eval. Defined.

(** The mixer that derives the second hash is a bijection of the 64-bit
    words, as its comment claims: it has a two-sided inverse. *)
Theorem mix64_bijective (x : Z) :
  is_u64 x → unmix64 (mix64 x) = x ∧ mix64 (unmix64 x) = x.
Proof. intros. split; [by apply unmix64_mix64|by apply mix64_unmix64]. Qed.

Lemma mix64_bijective_witness : unmix64 (mix64 42) = 42 ∧ mix64 (unmix64 42) = 42.
Proof. apply (mix64_bijective 42). split; [discriminate|reflexivity]. Defined.
