(* ===== verification/HashTable.v ===== *)
(** * core/index: index entries and the on-disk hash table

    The 48-byte [IndexEntry] codec of [core/index/hashindex.go] and the
    open-addressed, linear-probing table of [core/index/hashtable.go], byte for
    byte: a table is its file.  I/O fails only where a read runs past the end
    of the file; the operating system's other failures are outside the model.

    The theorems relate a table to the finite map it stores ([ht_rep]): a
    lookup returns the map's entry, an insert is the map's insert (or the
    load-factor refusal), the probe chains stay unbroken, and a full cycle of
    probes is never needed because the load factor keeps an empty slot. *)

From S2P Require Import Prelude GoBytes.

(** ** Index entries *)

Definition EntrySize : Z := 48.

Record IndexEntry := mkEntry {
  StrongHash : bytes;
  PackNumber : Z;
  StoreOffset : Z;
  ChunkLength : Z }.

#[export] Instance IndexEntry_eq_dec : EqDecision IndexEntry.
Proof. solve_decision. Defined.

Definition zeroHash : bytes := zeros 32.

Definition encodeEntry (e : IndexEntry) : bytes :=
  StrongHash e ++ PutUint32 (PackNumber e) ++ PutUint64 (StoreOffset e) ++ PutUint32 (ChunkLength e).

Definition decodeEntry (buf : bytes) : IndexEntry :=
  mkEntry (sub buf 0 32) (le_get (sub buf 32 4)) (le_get (sub buf 36 8)) (le_get (sub buf 44 4)).

Definition hashPrefix8 (h : bytes) : Z := be_get (sub h 0 8).

Record hash_ok (h : bytes) : Prop := {
  hash_len : length h = 32%nat;
  hash_bytes : bytes_ok h }.

Record entry_ok (e : IndexEntry) : Prop := {
  entry_hash : hash_ok (StrongHash e);
  entry_pack : is_u32 (PackNumber e);
  entry_off : is_u64 (StoreOffset e);
  entry_len : is_u32 (ChunkLength e) }.

#[export] Instance hash_ok_dec h : Decision (hash_ok h).
Proof.
  refine (cast_if (decide (length h = 32%nat ∧ bytes_ok h)));
    [abstract (destruct_and!; by constructor)|abstract (intros []; tauto)].
Defined.
#[export] Instance entry_ok_dec e : Decision (entry_ok e).
Proof.
  refine (cast_if (decide (hash_ok (StrongHash e) ∧ is_u32 (PackNumber e) ∧
    is_u64 (StoreOffset e) ∧ is_u32 (ChunkLength e))));
    [abstract (destruct_and!; by constructor)|abstract (intros []; tauto)].
Defined.

Lemma length_encodeEntry e : entry_ok e → length (encodeEntry e) = 48%nat.
Proof. intros [[Hl _] _ _ _]. unfold encodeEntry. len. Qed.

Lemma bytes_ok_encodeEntry e : entry_ok e → bytes_ok (encodeEntry e).
Proof. intros [[_ Hb] _ _ _]. unfold encodeEntry. rewrite !bytes_ok_app. auto with bytes. Qed.

Lemma decode_encode_entry e : entry_ok e → decodeEntry (encodeEntry e) = e.
Proof.
  intros [[Hl Hb] Hp Ho Hc]. unfold decodeEntry, encodeEntry. destruct e as [h p o c]. cbn in *.
  field. by rewrite !le_get_PutUint32, le_get_PutUint64.
Qed.

Lemma decodeEntry_ok buf : bytes_ok buf → length buf = 48%nat → entry_ok (decodeEntry buf).
Proof.
  intros Hb Hl. unfold decodeEntry. constructor; cbn.
  - constructor; [apply length_sub; lia|auto with bytes].
  - apply le_get_u32; [auto with bytes|apply length_sub; lia].
  - apply le_get_u64; [auto with bytes|apply length_sub; lia].
  - apply le_get_u32; [auto with bytes|apply length_sub; lia].
Qed.

Lemma encode_decode_entry buf :
  bytes_ok buf → length buf = 48%nat → encodeEntry (decodeEntry buf) = buf.
Proof.
  intros Hb Hl. unfold encodeEntry, decodeEntry; cbn.
  rewrite PutUint32_le_get, PutUint64_le_get, PutUint32_le_get
    by (auto with bytes || (apply length_sub; lia)).
  unfold sub. rewrite drop_0. rewrite (take_ge (drop 44 buf)) by len.
  rewrite <- (take_drop 32 buf) at 5. f_equal.
  rewrite <- (take_drop 4 (drop 32 buf)) at 2. f_equal. rewrite drop_drop. cbn [Nat.add].
  rewrite <- (take_drop 8 (drop 36 buf)) at 2. by rewrite drop_drop.
Qed.

Lemma hashPrefix8_nonneg h : bytes_ok h → 0 ≤ hashPrefix8 h.
Proof.
  intros Hb. unfold hashPrefix8, be_get.
  apply le_get_bound. apply Forall_reverse. by apply bytes_ok_sub.
Qed.

#[export] Hint Resolve bytes_ok_encodeEntry : bytes.

(** ** The table *)

Definition htabHeaderSize : Z := 24.
(** "DNHTAB\x01\x00" *)
Definition htabMagic : bytes := [68; 78; 72; 84; 65; 66; 1; 0].

Record diskHashTable := mkHtab { ht_file : bytes; ht_numSlots : Z; ht_count : Z }.

Inductive htab_err := HtShortRead | HtBadMagic | HtCorrupt (n : Z) | errTableFull.

#[export] Instance htab_err_eq_dec : EqDecision htab_err.
Proof. solve_decision. Defined.

Definition htabHeader (numSlots count : Z) : bytes :=
  htabMagic ++ PutUint64 (u64 numSlots) ++ PutUint64 (u64 count).

Definition createDiskHashTable (numSlots : Z) : diskHashTable :=
  let hdr := htabHeader numSlots 0 in
  let totalSize := htabHeaderSize + numSlots * EntrySize in
  mkHtab (Truncate hdr totalSize) numSlots 0.

Definition openDiskHashTable (f : bytes) : result htab_err diskHashTable :=
  let! hdr := of_option HtShortRead (ReadAt f 0 htabHeaderSize) in
  if negb (bool_decide (sub hdr 0 8 = htabMagic)) then Err HtBadMagic
  else
    let numSlots := i64 (le_get (sub hdr 8 8)) in
    let count := i64 (le_get (sub hdr 16 8)) in
    if numSlots <=? 0 then Err (HtCorrupt numSlots)
    else Ok (mkHtab f numSlots count).

Definition slotOffset (slotIdx : Z) : Z := htabHeaderSize + slotIdx * EntrySize.

Definition readSlot (ht : diskHashTable) (slotIdx : Z) : result htab_err IndexEntry :=
  let! buf := of_option HtShortRead (ReadAt (ht_file ht) (slotOffset slotIdx) EntrySize) in
  Ok (decodeEntry buf).

Definition writeSlot (ht : diskHashTable) (slotIdx : Z) (e : IndexEntry) (count : Z) : diskHashTable :=
  mkHtab (WriteAt (ht_file ht) (slotOffset slotIdx) (encodeEntry e)) (ht_numSlots ht) count.

Definition startSlot (ht : diskHashTable) (h : bytes) : Z :=
  i64 (hashPrefix8 h mod u64 (ht_numSlots ht)).

(** [for probe := 0; probe < numSlots; probe++]: [fuel] is [numSlots - probe]. *)
Fixpoint lookupLoop (ht : diskHashTable) (h : bytes) (start probe : Z) (fuel : nat)
    : result htab_err (option IndexEntry) :=
  match fuel with
  | O => Ok None
  | S fuel =>
      let slotIdx := Z.rem (start + probe) (ht_numSlots ht) in
      let! e := readSlot ht slotIdx in
      if bool_decide (StrongHash e = zeroHash) then Ok None
      else if bool_decide (StrongHash e = h) then Ok (Some e)
      else lookupLoop ht h start (probe + 1) fuel
  end.

Definition htLookup (ht : diskHashTable) (h : bytes) : result htab_err (option IndexEntry) :=
  if ht_numSlots ht =? 0 then Ok None
  else lookupLoop ht h (startSlot ht h) 0 (Z.to_nat (ht_numSlots ht)).

Fixpoint insertLoop (ht : diskHashTable) (entry : IndexEntry) (start probe : Z) (fuel : nat)
    : result htab_err diskHashTable :=
  match fuel with
  | O => Err errTableFull
  | S fuel =>
      let slotIdx := Z.rem (start + probe) (ht_numSlots ht) in
      let! e := readSlot ht slotIdx in
      if bool_decide (StrongHash e = zeroHash) then
        Ok (writeSlot ht slotIdx entry (ht_count ht + 1))
      else if bool_decide (StrongHash e = StrongHash entry) then
        if negb (PackNumber e =? PackNumber entry) || negb (StoreOffset e =? StoreOffset entry)
           || negb (ChunkLength e =? ChunkLength entry)
        then Ok (writeSlot ht slotIdx entry (ht_count ht))
        else Ok ht
      else insertLoop ht entry start (probe + 1) fuel
  end.

Definition htInsert (ht : diskHashTable) (entry : IndexEntry) : result htab_err diskHashTable :=
  if ht_numSlots ht <=? 0 then Err (HtCorrupt (ht_numSlots ht))
  else if Z.quot (i64 (ht_numSlots ht * 85)) 100 <? ht_count ht then Err errTableFull
  else insertLoop ht entry (startSlot ht (StrongHash entry)) 0 (Z.to_nat (ht_numSlots ht)).

Fixpoint readAllLoop (ht : diskHashTable) (i : Z) (fuel : nat) : result htab_err (list IndexEntry) :=
  match fuel with
  | O => Ok []
  | S fuel =>
      let! e := readSlot ht i in
      let! rest := readAllLoop ht (i + 1) fuel in
      Ok (if bool_decide (StrongHash e = zeroHash) then rest else e :: rest)
  end.

Definition htReadAll (ht : diskHashTable) : result htab_err (list IndexEntry) :=
  readAllLoop ht 0 (Z.to_nat (ht_numSlots ht)).

(** [Close] leaves the file with the in-memory count in its header. *)
Definition htClose (ht : diskHashTable) : bytes :=
  WriteAt (ht_file ht) 16 (PutUint64 (u64 (ht_count ht))).

(** ** The slot view of a table file *)

Record ht_shape (ht : diskHashTable) : Prop := {
  shape_slots : 0 < ht_numSlots ht < 2 ^ 56;
  shape_len : len (ht_file ht) = htabHeaderSize + ht_numSlots ht * EntrySize;
  shape_hdr : ReadAt (ht_file ht) 0 16 = Some (htabMagic ++ PutUint64 (ht_numSlots ht));
  shape_bytes : bytes_ok (ht_file ht) }.

Definition slot (ht : diskHashTable) (i : Z) : IndexEntry :=
  decodeEntry (take 48 (drop (Z.to_nat (slotOffset i)) (ht_file ht))).

Definition in_slots (ht : diskHashTable) (i : Z) : Prop := 0 ≤ i < ht_numSlots ht.

Lemma readSlot_slot ht i : ht_shape ht → in_slots ht i → readSlot ht i = Ok (slot ht i).
Proof.
  intros [Hn Hl _ _] [H0 H1]. unfold readSlot, slotOffset, htabHeaderSize, EntrySize in *.
  rewrite ReadAt_Some by lia. done.
Qed.

Lemma slot_ok ht i : ht_shape ht → in_slots ht i → entry_ok (slot ht i).
Proof.
  intros [Hn Hl _ Hb] [H0 H1]. apply decodeEntry_ok; [auto with bytes|].
  unfold slotOffset, htabHeaderSize, EntrySize in *. len.
Qed.

Lemma writeSlot_shape ht i e c :
  ht_shape ht → in_slots ht i → entry_ok e → ht_shape (writeSlot ht i e c).
Proof.
  intros [Hn Hl Hh Hb] [H0 H1] He. pose proof (length_encodeEntry e He) as Hle.
  unfold writeSlot, slotOffset, htabHeaderSize, EntrySize in *. constructor; cbn; [done| | |].
  - rewrite length_WriteAt by lia. done.
  - rewrite ReadAt_WriteAt_ne by lia. done.
  - auto with bytes.
Qed.

Lemma slot_writeSlot ht i e c j :
  ht_shape ht → in_slots ht i → in_slots ht j → entry_ok e →
  slot (writeSlot ht i e c) j = if decide (i = j) then e else slot ht j.
Proof.
  intros Hs Hi Hj He. pose proof (writeSlot_shape ht i e c Hs Hi He) as Hs'.
  pose proof (length_encodeEntry e He) as Hle.
  apply (Ok_inj (E:=htab_err)).
  rewrite <- (readSlot_slot (writeSlot ht i e c)) by done.
  unfold readSlot, writeSlot; cbn [ht_file]. pose proof Hs as [Hn Hl _ Hb]. destruct Hi as [Hi0 Hi1], Hj as [Hj0 Hj1].
  unfold slotOffset, htabHeaderSize, EntrySize in *. case_decide as Hij; [subst j|].
  - replace 48 with (len (encodeEntry e)) by lia.
    rewrite ReadAt_WriteAt_eq by lia. cbn. by rewrite decode_encode_entry.
  - rewrite ReadAt_WriteAt_ne by lia.
    change (readSlot ht j = Ok (slot ht j)). by apply readSlot_slot.
Qed.

Lemma rem_slot ht k : ht_shape ht → 0 ≤ k → Z.rem k (ht_numSlots ht) = k mod ht_numSlots ht.
Proof. intros [Hn _ _ _] Hk. apply Z.rem_mod_nonneg; lia. Qed.

Lemma startSlot_mod ht h :
  ht_shape ht → bytes_ok h → startSlot ht h = hashPrefix8 h mod ht_numSlots ht.
Proof.
  intros [Hn _ _ _] Hb. unfold startSlot. rewrite u64_id by (split; lia).
  apply i64_id. pose proof (Z.mod_pos_bound (hashPrefix8 h) (ht_numSlots ht)). unfold is_i64. lia.
Qed.

(** ** Probing *)

Definition probe_at (ht : diskHashTable) (h : bytes) (k : Z) : Z :=
  (hashPrefix8 h mod ht_numSlots ht + k) mod ht_numSlots ht.

Definition empty_slot (ht : diskHashTable) (i : Z) : Prop := StrongHash (slot ht i) = zeroHash.

#[export] Instance empty_slot_dec ht i : Decision (empty_slot ht i).
Proof. unfold empty_slot. apply _. Defined.

(** The first probe at or after [p] whose slot is empty or holds [h]. *)
Fixpoint seek (ht : diskHashTable) (h : bytes) (p : Z) (fuel : nat) : option (Z * bool) :=
  match fuel with
  | O => None
  | S fuel =>
      if decide (empty_slot ht (probe_at ht h p)) then Some (p, false)
      else if decide (StrongHash (slot ht (probe_at ht h p)) = h) then Some (p, true)
      else seek ht h (p + 1) fuel
  end.

Definition passed (ht : diskHashTable) (h : bytes) (j : Z) : Prop :=
  ¬ empty_slot ht (probe_at ht h j) ∧ StrongHash (slot ht (probe_at ht h j)) ≠ h.

Lemma seek_spec ht h fuel : ∀ p,
  match seek ht h p fuel with
  | Some (k, b) =>
      p ≤ k < p + Z.of_nat fuel ∧ (∀ j, p ≤ j < k → passed ht h j) ∧
      if b : bool then ¬ empty_slot ht (probe_at ht h k) ∧ StrongHash (slot ht (probe_at ht h k)) = h
      else empty_slot ht (probe_at ht h k)
  | None => ∀ j, p ≤ j < p + Z.of_nat fuel → passed ht h j
  end.
Proof.
  induction fuel as [|fuel IH]; intros p; cbn [seek]; [intros; lia|].
  case_decide as He; [split_and!; try done; intros; lia|].
  case_decide as Hh; [split_and!; try done; intros; lia|].
  assert (Hp : passed ht h p) by done. specialize (IH (p + 1)).
  destruct (seek ht h (p + 1) fuel) as [[k b]|].
  - destruct IH as (Hk & Hpass & Hb). split_and!; try lia; [|done].
    intros j Hj. destruct (Z.eq_dec j p) as [->|]; [done|]. apply Hpass. lia.
  - intros j Hj. destruct (Z.eq_dec j p) as [->|]; [done|]. apply IH. lia.
Qed.

Lemma probe_in_slots ht h k : ht_shape ht → in_slots ht (probe_at ht h k).
Proof. intros [Hn _ _ _]. apply Z.mod_pos_bound. lia. Qed.

Lemma slotIdx_probe ht h p :
  ht_shape ht → bytes_ok h → 0 ≤ p →
  Z.rem (startSlot ht h + p) (ht_numSlots ht) = probe_at ht h p.
Proof.
  intros Hs Hb Hp. rewrite startSlot_mod by done. unfold probe_at. apply rem_slot; [done|].
  pose proof (Z.mod_pos_bound (hashPrefix8 h) (ht_numSlots ht)). destruct Hs. lia.
Qed.

(** Both loops are the seek followed by what they do at its end. *)
Lemma lookupLoop_seek ht h fuel : ∀ p,
  ht_shape ht → bytes_ok h → 0 ≤ p →
  lookupLoop ht h (startSlot ht h) p fuel =
  Ok (match seek ht h p fuel with
      | Some (k, true) => Some (slot ht (probe_at ht h k))
      | _ => None
      end).
Proof.
  induction fuel as [|fuel IH]; intros p Hs Hb Hp; [done|]. cbn [lookupLoop seek].
  rewrite slotIdx_probe, readSlot_slot by auto using probe_in_slots. cbn [rbind].
  case_decide as He; [by rewrite bool_decide_true|]. rewrite bool_decide_false by exact He.
  case_decide as Hh; [by rewrite bool_decide_true|]. rewrite bool_decide_false by exact Hh.
  apply IH; auto; lia.
Qed.

Lemma insertLoop_seek ht e fuel : ∀ p,
  ht_shape ht → bytes_ok (StrongHash e) → 0 ≤ p →
  insertLoop ht e (startSlot ht (StrongHash e)) p fuel =
  match seek ht (StrongHash e) p fuel with
  | Some (k, false) => Ok (writeSlot ht (probe_at ht (StrongHash e) k) e (ht_count ht + 1))
  | Some (k, true) =>
      if decide (slot ht (probe_at ht (StrongHash e) k) = e) then Ok ht
      else Ok (writeSlot ht (probe_at ht (StrongHash e) k) e (ht_count ht))
  | None => Err errTableFull
  end.
Proof.
  induction fuel as [|fuel IH]; intros p Hs Hb Hp; [done|]. cbn [insertLoop seek].
  rewrite slotIdx_probe, readSlot_slot by auto using probe_in_slots. cbn [rbind].
  case_decide as He; [by rewrite bool_decide_true|]. rewrite bool_decide_false by exact He.
  case_decide as Hh; [|rewrite bool_decide_false by exact Hh; apply IH; auto; lia].
  rewrite bool_decide_true by exact Hh. clear He.
  set (s := slot ht _) in *. clearbody s.
  destruct s as [h1 p1 o1 c1], e as [h2 p2 o2 c2]. cbn in *. subst.
  destruct (Z.eqb_spec p1 p2), (Z.eqb_spec o1 o2), (Z.eqb_spec c1 c2); cbn [negb orb]; subst.
  all: case_decide; (done || congruence).
Qed.

(** ** The map a table stores *)

Record ht_rep (ht : diskHashTable) (m : gmap bytes IndexEntry) : Prop := {
  rep_shape : ht_shape ht;
  rep_map : ∀ h e, m !! h = Some e ↔
    h ≠ zeroHash ∧ StrongHash e = h ∧ ∃ i, in_slots ht i ∧ slot ht i = e;
  rep_uniq : ∀ i j, in_slots ht i → in_slots ht j → ¬ empty_slot ht i →
    StrongHash (slot ht i) = StrongHash (slot ht j) → i = j;
  rep_chain : ∀ i, in_slots ht i → ¬ empty_slot ht i →
    ∃ k, 0 ≤ k < ht_numSlots ht ∧ probe_at ht (StrongHash (slot ht i)) k = i ∧
      ∀ j, 0 ≤ j < k → ¬ empty_slot ht (probe_at ht (StrongHash (slot ht i)) j);
  rep_count : ht_count ht = Z.of_nat (size m) }.

(** Every slot is some probe of every hash. *)
Lemma probe_surj ht h i :
  ht_shape ht → in_slots ht i → ∃ k, 0 ≤ k < ht_numSlots ht ∧ probe_at ht h k = i.
Proof.
  intros [Hn _ _ _] Hi. set (n := ht_numSlots ht) in *. unfold in_slots in Hi. fold n in Hi.
  exists ((i - hashPrefix8 h mod n) mod n). split; [apply Z.mod_pos_bound; lia|].
  unfold probe_at. fold n. rewrite Zplus_mod_idemp_r.
  replace (hashPrefix8 h mod n + (i - hashPrefix8 h mod n)) with i by lia.
  by apply Z.mod_small.
Qed.

Lemma seek_lookup ht m h :
  ht_rep ht m → h ≠ zeroHash →
  m !! h = match seek ht h 0 (Z.to_nat (ht_numSlots ht)) with
           | Some (k, true) => Some (slot ht (probe_at ht h k))
           | _ => None
           end.
Proof.
  intros [Hs Hmap Huniq Hchain _] Hz. pose proof (seek_spec ht h (Z.to_nat (ht_numSlots ht)) 0) as Hsk.
  assert (Hnone : (∀ k, 0 ≤ k < ht_numSlots ht → StrongHash (slot ht (probe_at ht h k)) = h →
      ∃ j, 0 ≤ j ≤ k ∧ empty_slot ht (probe_at ht h j)) → m !! h = None).
  { intros Hno. destruct (m !! h) as [e|] eqn:Hm; [|done]. exfalso.
    apply Hmap in Hm as (_ & <- & i & Hi & <-).
    destruct (Hchain i Hi Hz) as (k & Hk & Hki & Hocc).
    destruct (Hno k Hk) as (j & Hj & He); [by rewrite Hki|].
    destruct (Z.eq_dec j k) as [->|]; [|apply (Hocc j); [lia|done]].
    unfold empty_slot in He. by rewrite Hki in He. }
  destruct (seek _ _ _ _) as [[k [|]]|].
  - destruct Hsk as (Hk & _ & Hne & Hh). apply Hmap. split_and!; [done..|].
    eexists. split; [|done]. by apply probe_in_slots.
  - destruct Hsk as (Hk & Hpass & Hemp). apply Hnone. intros k' Hk' Hh.
    destruct (Z_lt_le_dec k' k); [|exists k; split; [lia|done]].
    exfalso. apply (Hpass k'); [lia|done].
  - apply Hnone. intros k Hk Hh. exfalso. apply (Hsk k); [lia|done].
Qed.

(** A full cycle of occupied probes would make the map as large as the table. *)
Lemma seek_full ht m h :
  ht_rep ht m → seek ht h 0 (Z.to_nat (ht_numSlots ht)) = None →
  ht_numSlots ht ≤ Z.of_nat (size m).
Proof.
  intros [Hs Hmap Huniq _ _] Hsk. pose proof (seek_spec ht h (Z.to_nat (ht_numSlots ht)) 0) as Hall.
  rewrite Hsk in Hall. pose proof (shape_slots _ Hs) as Hn.
  set (hs := (λ i, StrongHash (slot ht (Z.of_nat i))) <$> seq 0 (Z.to_nat (ht_numSlots ht))).
  assert (Hocc : ∀ i, (i < Z.to_nat (ht_numSlots ht))%nat → ¬ empty_slot ht (Z.of_nat i)).
  { intros i Hi. assert (in_slots ht (Z.of_nat i)) as Hin by (split; lia).
    destruct (probe_surj ht h _ Hs Hin) as (k & Hk & <-). apply Hall. lia. }
  assert (Hnd : NoDup hs).
  { apply NoDup_fmap_2_strong; [|apply NoDup_seq].
    intros i j Hi Hj Heq. apply elem_of_seq in Hi, Hj.
    apply Nat2Z.inj. apply Huniq; try (split; lia); [apply Hocc; lia|done]. }
  assert (Hsub : list_to_set hs ⊆ dom m).
  { intros x Hx. apply elem_of_list_to_set, list_elem_of_fmap in Hx as (i & -> & Hi).
    apply elem_of_seq in Hi. apply elem_of_dom. eexists. apply Hmap.
    split_and!; [apply Hocc; lia|reflexivity|]. eexists. split; [|done]. split; lia. }
  apply subseteq_size in Hsub. rewrite size_list_to_set, size_dom in Hsub by done.
  unfold hs in Hsub. rewrite length_fmap, length_seq in Hsub. lia.
Qed.

(** ** What the operations promise *)

Lemma htLookup_rep ht m h :
  ht_rep ht m → bytes_ok h → h ≠ zeroHash → htLookup ht h = Ok (m !! h).
Proof.
  intros Hrep Hb Hz. pose proof (rep_shape _ _ Hrep) as Hs. unfold htLookup.
  rewrite (proj2 (Z.eqb_neq _ _)) by (destruct Hs; lia).
  rewrite lookupLoop_seek by (done || lia). f_equal. by rewrite (seek_lookup ht m).
Qed.

(** Writing entry [e] at the end [p] of its probe chain. *)
Lemma write_rep ht m e p c :
  ht_rep ht m → entry_ok e → StrongHash e ≠ zeroHash →
  0 ≤ p < ht_numSlots ht →
  (∀ j, 0 ≤ j < p → ¬ empty_slot ht (probe_at ht (StrongHash e) j)) →
  (empty_slot ht (probe_at ht (StrongHash e) p) ∧ m !! StrongHash e = None) ∨
    StrongHash (slot ht (probe_at ht (StrongHash e) p)) = StrongHash e →
  c = Z.of_nat (size (<[StrongHash e := e]> m)) →
  ht_rep (writeSlot ht (probe_at ht (StrongHash e) p) e c) (<[StrongHash e := e]> m).
Proof.
  intros Hrep He Hz Hp Hbefore Hcase Hc. destruct Hrep as [Hs Hmap Huniq Hchain Hcnt].
  set (q := probe_at ht (StrongHash e) p) in *.
  assert (Hq : in_slots ht q) by (by apply probe_in_slots).
  assert (Hw : ∀ j, in_slots ht j →
    slot (writeSlot ht q e c) j = if decide (q = j) then e else slot ht j)
    by (intros; by apply slot_writeSlot).
  (* No other slot holds the written hash. *)
  assert (Hother : ∀ j, in_slots ht j → j ≠ q → StrongHash (slot ht j) ≠ StrongHash e).
  { intros j Hj Hjq Heq. destruct Hcase as [[Hemp Hnone]|Hsame].
    - assert (m !! StrongHash e = Some (slot ht j)) by (apply Hmap; eauto). congruence.
    - apply Hjq. apply Huniq; try done; [|congruence]. unfold empty_slot. by rewrite Heq. }
  assert (Hocc : ∀ j, in_slots ht j → ¬ empty_slot ht j → ¬ empty_slot (writeSlot ht q e c) j).
  { intros j Hj Hne. unfold empty_slot. rewrite Hw by done. case_decide; done. }
  constructor.
  - by apply writeSlot_shape.
  - intros h x. destruct (decide (h = StrongHash e)) as [->|Hh].
    + rewrite lookup_insert_eq. split.
      * intros [= <-]. split_and!; [done..|]. exists q. split; [done|].
        rewrite Hw by done. by rewrite decide_True.
      * intros (_ & Hx & i & Hi & <-). rewrite Hw in Hx |- * by done.
        case_decide as Hiq; [done|]. by destruct (Hother i Hi (not_eq_sym Hiq)).
    + rewrite lookup_insert_ne by done. rewrite Hmap. split.
      * intros (? & Hx & i & Hi & Hsl). split_and!; [done..|]. exists i. split; [done|].
        rewrite Hw by done. case_decide as Hiq; [|done]. subst i. exfalso.
        destruct Hcase as [[Hemp _]|Hsame]; [unfold empty_slot in Hemp|]; congruence.
      * intros (? & Hx & i & Hi & Hsl). split_and!; [done..|]. exists i. split; [done|].
        rewrite Hw in Hsl by done. case_decide; [congruence|done].
  - intros i j Hi Hj Hne. unfold empty_slot in Hne. rewrite Hw in Hne by done.
    rewrite !Hw by done. intros Heq.
    destruct (decide (q = i)) as [<-|], (decide (q = j)) as [<-|]; try done.
    + destruct (Hother j); auto.
    + destruct (Hother i); auto.
    + by apply Huniq.
  - intros i Hi Hne. unfold empty_slot in Hne. rewrite Hw in Hne |- * by done.
    change (probe_at (writeSlot ht q e c)) with (probe_at ht).
    destruct (decide (q = i)) as [<-|Hqi].
    + exists p. split; [done|]. split; [done|]. intros j Hj. apply Hocc; [by apply probe_in_slots|auto].
    + destruct (Hchain i Hi Hne) as (k & Hk & Hki & Hb). exists k.
      split; [done|]. split; [done|]. intros j Hj. apply Hocc; [by apply probe_in_slots|auto].
  - done.
Qed.

Lemma insert_size_present {V} (m : gmap bytes V) k x y :
  m !! k = Some y → size (<[k := x]> m) = size m.
Proof. intros H. by rewrite map_size_insert, H. Qed.

(** [Insert] below the load factor is the map's insert; above it, a refusal. *)
Lemma htInsert_rep ht m e :
  ht_rep ht m → entry_ok e → StrongHash e ≠ zeroHash →
  if decide (ht_numSlots ht * 85 / 100 < ht_count ht)
  then htInsert ht e = Err errTableFull
  else ∃ ht', htInsert ht e = Ok ht' ∧ ht_numSlots ht' = ht_numSlots ht ∧
              ht_rep ht' (<[StrongHash e := e]> m).
Proof.
  intros Hrep He Hz. pose proof (rep_shape _ _ Hrep) as Hs. pose proof (shape_slots _ Hs) as Hn.
  assert (bytes_ok (StrongHash e)) as Hb by apply He.
  unfold htInsert. rewrite (proj2 (Z.leb_gt _ 0)) by lia.
  rewrite i64_id by (unfold is_i64; lia). rewrite Z.quot_div_nonneg by lia.
  case_decide as Hload; [by rewrite (proj2 (Z.ltb_lt _ _))|].
  rewrite (proj2 (Z.ltb_ge _ _)) by lia. rewrite insertLoop_seek by (done || lia).
  pose proof (seek_spec ht (StrongHash e) (Z.to_nat (ht_numSlots ht)) 0) as Hsk.
  pose proof (seek_lookup ht m (StrongHash e) Hrep Hz) as Hlk.
  pose proof (rep_count _ _ Hrep) as Hcnt.
  destruct (seek _ _ _ _) as [[k [|]]|] eqn:Hseek.
  - destruct Hsk as (Hk & Hpass & Hne & Hh).
    case_decide as Hsame.
    + exists ht. split_and!; [done..|]. rewrite insert_id; [done|]. by rewrite Hlk, Hsame.
    + eexists. split_and!; [reflexivity|done|]. apply write_rep; try done; [lia| |by right|].
      * intros j Hj. apply Hpass. lia.
      * by rewrite (insert_size_present _ _ _ _ Hlk).
  - destruct Hsk as (Hk & Hpass & Hemp).
    eexists. split_and!; [reflexivity|done|]. apply write_rep; try done; [lia| |by left|].
    + intros j Hj. apply Hpass. lia.
    + rewrite map_size_insert, Hlk. lia.
  - exfalso. pose proof (seek_full ht m _ Hrep Hseek).
    assert (ht_numSlots ht * 85 / 100 < ht_numSlots ht) by (apply Z.div_lt_upper_bound; lia). lia.
Qed.

(** ** Creating, reading back and reopening a table *)

Lemma createDiskHashTable_file n :
  0 < n → ht_file (createDiskHashTable n) = htabHeader n 0 ++ zeros (Z.to_nat (n * EntrySize)).
Proof.
  intros Hn. unfold createDiskHashTable, Truncate, EntrySize, htabHeaderSize; cbn [ht_file].
  assert (length (htabHeader n 0) = 24%nat) as Hl by done. rewrite take_ge by lia.
  do 2 f_equal. lia.
Qed.

Lemma take_drop_zeros a b n : (a + b ≤ n)%nat → take a (drop b (zeros n)) = zeros a.
Proof. intros. unfold zeros. rewrite drop_replicate, take_replicate. f_equal. lia. Qed.

Lemma createDiskHashTable_rep n :
  0 < n < 2 ^ 56 → ht_rep (createDiskHashTable n) ∅.
Proof.
  intros Hn. pose proof (createDiskHashTable_file n ltac:(lia)) as Hf.
  assert (Hlen : length (htabHeader n 0) = 24%nat) by done.
  assert (Hslot : ∀ i, in_slots (createDiskHashTable n) i → empty_slot (createDiskHashTable n) i).
  { intros i [H0 H1]. cbn in H1. unfold empty_slot, slot. rewrite Hf.
    unfold slotOffset, htabHeaderSize, EntrySize. rewrite drop_app_ge by lia.
    rewrite take_drop_zeros by lia. done. }
  constructor.
  - constructor; [done| | |]; rewrite Hf.
    + rewrite length_app, Hlen, length_zeros. unfold htabHeaderSize, EntrySize. cbn. lia.
    + rewrite ReadAt_Some by (len; lia). f_equal. rewrite drop_0, take_app_le by lia.
      unfold htabHeader. cbn [ht_numSlots createDiskHashTable]. rewrite u64_id by (split; lia).
      rewrite app_assoc. by rewrite take_app_exact by done.
    + apply bytes_ok_app. split; [|auto with bytes]. unfold htabHeader. rewrite !bytes_ok_app.
      split_and!; auto with bytes. by_eval.
  - intros h e. rewrite lookup_empty. split; [done|]. intros (Hz & <- & i & Hi & <-).
    destruct Hz. by apply Hslot.
  - intros i j Hi _ Hne. destruct Hne. by apply Hslot.
  - intros i Hi Hne. destruct Hne. by apply Hslot.
  - done.
Qed.

Definition occupied_entry (e : IndexEntry) : Prop := StrongHash e ≠ zeroHash.
#[export] Instance occupied_entry_dec e : Decision (occupied_entry e).
Proof. unfold occupied_entry. apply _. Defined.

Lemma readAllLoop_slots ht fuel : ∀ i,
  ht_shape ht → 0 ≤ i → i + Z.of_nat fuel ≤ ht_numSlots ht →
  readAllLoop ht i fuel = Ok (filter occupied_entry (slot ht <$> seqZ i (Z.of_nat fuel))).
Proof.
  induction fuel as [|fuel IH]; intros i Hs Hi Hle; [done|]. cbn [readAllLoop].
  rewrite readSlot_slot by (done || (split; lia)). cbn [rbind].
  rewrite IH by (done || lia). cbn [rbind]. f_equal.
  rewrite (seqZ_cons i) by lia. rewrite fmap_cons, filter_cons.
  replace (Z.succ i) with (i + 1) by lia. replace (Z.pred (Z.of_nat (S fuel))) with (Z.of_nat fuel) by lia.
  unfold occupied_entry at 2. case_bool_decide; [by rewrite decide_False by auto|by rewrite decide_True].
Qed.

(** [ReadAll] lists the stored map, each entry once. *)
Lemma htReadAll_rep ht m :
  ht_rep ht m →
  ∃ l, htReadAll ht = Ok l ∧ NoDup (StrongHash <$> l) ∧
       (∀ e, e ∈ l ↔ m !! StrongHash e = Some e) ∧ Forall entry_ok l.
Proof.
  intros [Hs Hmap Huniq _ _]. pose proof (shape_slots _ Hs) as Hn. unfold htReadAll.
  rewrite readAllLoop_slots by (done || lia). rewrite Z2Nat.id by lia.
  eexists. split; [reflexivity|].
  assert (Hin : ∀ e, e ∈ filter occupied_entry (slot ht <$> seqZ 0 (ht_numSlots ht)) ↔
    occupied_entry e ∧ ∃ i, in_slots ht i ∧ slot ht i = e).
  { intros e. rewrite list_elem_of_filter, list_elem_of_fmap. f_equiv.
    split; intros (i & H1 & H2).
    - apply elem_of_seqZ in H2. exists i. split; [split; lia|done].
    - destruct H1. exists i. split; [done|]. apply elem_of_seqZ. lia. }
  split_and!.
  - assert (∀ k, 0 ≤ k → k ≤ ht_numSlots ht →
      NoDup (StrongHash <$> filter occupied_entry (slot ht <$> seqZ (ht_numSlots ht - k) k))) as Hnd.
    { apply (natlike_ind (λ k, k ≤ ht_numSlots ht → _)); [intros; constructor|].
      intros k Hk IH Hle. rewrite seqZ_cons by lia. rewrite fmap_cons, filter_cons.
      replace (Z.succ (ht_numSlots ht - Z.succ k)) with (ht_numSlots ht - k) by lia.
      replace (Z.pred (Z.succ k)) with k by lia.
      case_decide as Hocc; [|apply IH; lia]. rewrite fmap_cons. constructor; [|apply IH; lia].
      intros (e & Heq & He)%list_elem_of_fmap.
      apply list_elem_of_filter in He as [_ (i & -> & Hi)%list_elem_of_fmap].
      apply elem_of_seqZ in Hi.
      assert (ht_numSlots ht - Z.succ k = i); [|lia].
      apply Huniq; try done; split; lia. }
    specialize (Hnd (ht_numSlots ht) ltac:(lia) ltac:(lia)). by rewrite Z.sub_diag in Hnd.
  - intros e. rewrite Hin, Hmap. unfold occupied_entry. tauto.
  - apply Forall_forall. intros e [_ (i & Hi & <-)]%Hin. by apply slot_ok.
Qed.

Lemma htReadAll_count f n c c' : htReadAll (mkHtab f n c) = htReadAll (mkHtab f n c').
Proof.
  unfold htReadAll. cbn. generalize 0. induction (Z.to_nat n); intros i; [done|].
  cbn [readAllLoop]. unfold readSlot; cbn [ht_file]. by rewrite IHn0.
Qed.

(** A table depends on its file's slots only: the count in the header may change. *)
Lemma ht_rep_count_write ht m c c' :
  ht_rep ht m → c' = Z.of_nat (size m) →
  ht_rep (mkHtab (WriteAt (ht_file ht) 16 (PutUint64 c)) (ht_numSlots ht) c') m.
Proof.
  intros [Hs Hmap Huniq Hchain Hcnt] Hc. pose proof Hs as [Hn Hl Hh Hb].
  unfold htabHeaderSize, EntrySize in Hl.
  set (ht' := mkHtab _ _ _).
  assert (Hslot : ∀ i, in_slots ht i → slot ht' i = slot ht i).
  { intros i [Hi0 Hi1]. apply (Ok_inj (E:=htab_err)).
    rewrite <- (readSlot_slot ht) by done. unfold readSlot, ht'. cbn [ht_file].
    rewrite <- (ReadAt_WriteAt_ne (ht_file ht) 16 (PutUint64 c))
      by (unfold slotOffset, htabHeaderSize, EntrySize; len).
    rewrite ReadAt_Some; [done|..]; unfold slotOffset, htabHeaderSize, EntrySize;
      rewrite ?length_WriteAt; len. }
  assert (Hemp : ∀ i, in_slots ht i → empty_slot ht' i ↔ empty_slot ht i)
    by (intros; unfold empty_slot; by rewrite Hslot).
  constructor.
  - constructor; cbn; [done| | |auto with bytes].
    + rewrite length_WriteAt; unfold htabHeaderSize, EntrySize; len.
    + rewrite ReadAt_WriteAt_ne; len. done.
  - intros h e. rewrite Hmap. do 3 f_equiv. intros i. split; intros [Hi He]; (split; [done|]);
      [by rewrite Hslot|by rewrite <- Hslot].
  - intros i j Hi Hj Hne. rewrite !Hslot by done. apply Huniq; try done. by rewrite <- Hemp.
  - intros i Hi Hne. rewrite Hslot by done.
    destruct (Hchain i Hi) as (k & Hk & Hki & Hbef); [by rewrite <- Hemp|].
    exists k. split; [done|]. split; [done|]. intros j Hj. change (probe_at ht') with (probe_at ht).
    rewrite Hemp; [by apply Hbef|]. by apply probe_in_slots.
  - done.
Qed.

(** The header a reopen reads: the magic, the slot count and the stored count. *)
Lemma open_header ht c :
  ht_shape ht → ReadAt (ht_file ht) 16 8 = Some (PutUint64 (u64 c)) → is_i64 c →
  openDiskHashTable (ht_file ht) = Ok (mkHtab (ht_file ht) (ht_numSlots ht) c).
Proof.
  intros [Hn Hl Hh Hb] Hc Hc64. unfold openDiskHashTable, htabHeaderSize, EntrySize in *.
  rewrite ReadAt_Some in Hh, Hc |- * by lia. apply (inj Some) in Hh, Hc.
  rewrite drop_0 in Hh. cbn [of_option rbind]. rewrite drop_0.
  assert (Hhdr : take (Z.to_nat 24) (ht_file ht) =
    htabMagic ++ PutUint64 (ht_numSlots ht) ++ PutUint64 (u64 c)).
  { rewrite <- (take_drop (Z.to_nat 16) (take (Z.to_nat 24) (ht_file ht))).
    rewrite take_take, Nat.min_l by lia. rewrite app_assoc, <- Hh, <- Hc. f_equal.
    by rewrite take_drop_commute. }
  rewrite Hhdr. assert (length htabMagic = 8%nat) as Hm by done. field.
  rewrite bool_decide_true by done. cbn [negb].
  rewrite !le_get_PutUint64 by (apply u64_range || (split; lia)).
  rewrite (i64_id (ht_numSlots ht)) by (unfold is_i64; lia).
  rewrite i64_u64_id by done. by rewrite (proj2 (Z.leb_gt _ _)) by lia.
Qed.

(** Closing a table and opening its file gives the same table back. *)
Lemma open_close_rep ht m :
  ht_rep ht m → Z.of_nat (size m) < 2 ^ 63 →
  ∃ ht', openDiskHashTable (htClose ht) = Ok ht' ∧ ht_rep ht' m ∧
         ht_numSlots ht' = ht_numSlots ht.
Proof.
  intros Hrep Hsz. pose proof (rep_count _ _ Hrep) as Hcnt.
  pose proof (rep_shape _ _ Hrep) as [_ Hl _ _]. unfold htabHeaderSize, EntrySize in Hl.
  pose proof (shape_slots _ (rep_shape _ _ Hrep)) as Hn.
  pose proof (ht_rep_count_write ht m (u64 (ht_count ht)) (ht_count ht) Hrep Hcnt) as Hrep'.
  exists (mkHtab (htClose ht) (ht_numSlots ht) (ht_count ht)). split_and!; [|done..].
  apply (open_header (mkHtab (htClose ht) (ht_numSlots ht) (ht_count ht))).
  - apply Hrep'.
  - cbn [ht_file]. unfold htClose. change 8 with (len (PutUint64 (u64 (ht_count ht)))).
    apply ReadAt_WriteAt_eq; [lia|]. len.
  - unfold is_i64. lia.
Qed.

(** ** Histories of inserts *)

Fixpoint htInsertAll (ht : diskHashTable) (es : list IndexEntry) : result htab_err diskHashTable :=
  match es with
  | [] => Ok ht
  | e :: es => let! ht' := htInsert ht e in htInsertAll ht' es
  end.

(** Entries as the map they insert, later entries winning. *)
Definition insert_all (es : list IndexEntry) (m : gmap bytes IndexEntry) : gmap bytes IndexEntry :=
  foldl (λ m e, <[StrongHash e := e]> m) m es.

Definition storable (e : IndexEntry) : Prop := entry_ok e ∧ StrongHash e ≠ zeroHash.
#[export] Instance storable_dec e : Decision (storable e).
Proof. unfold storable. apply _. Defined.

Lemma size_insert_le {V} (m : gmap bytes V) k x : (size (<[k := x]> m) ≤ S (size m))%nat.
Proof. rewrite map_size_insert. destruct (m !! k); simpl; lia. Qed.

Lemma htInsertAll_rep es : ∀ ht m,
  ht_rep ht m → Forall storable es →
  Z.of_nat (size m) + len es ≤ ht_numSlots ht * 85 / 100 + 1 →
  ∃ ht', htInsertAll ht es = Ok ht' ∧ ht_rep ht' (insert_all es m) ∧
         ht_numSlots ht' = ht_numSlots ht.
Proof.
  induction es as [|e es IH]; intros ht m Hrep Hes Hroom; cbn [htInsertAll].
  - exists ht. by split_and!.
  - apply Forall_cons in Hes as [[He Hz] Hes]. cbn [length] in Hroom.
    pose proof (htInsert_rep ht m e Hrep He Hz) as Hins.
    rewrite decide_False in Hins by (rewrite (rep_count _ _ Hrep); lia).
    destruct Hins as (ht1 & -> & Hn1 & Hrep1). cbn [rbind].
    destruct (IH ht1 (<[StrongHash e := e]> m)) as (ht' & Hall & Hrep' & Hn'); try done.
    { rewrite Hn1. pose proof (size_insert_le m (StrongHash e) e). lia. }
    exists ht'. split_and!; [done..|congruence].
Qed.

(** ** Properties *)

(** The table refines a finite map: inserting any storable entries into a
    fresh table that stays within the 85% load succeeds, and afterwards a
    lookup of any non-zero hash returns exactly what the map holds, the last
    entry inserted for that hash or nothing. *)
Theorem htab_refines_map (n : Z) (es : list IndexEntry) (h : bytes) :
  0 < n < 2 ^ 56 → Forall storable es → len es ≤ n * 85 / 100 + 1 →
  bytes_ok h → h ≠ zeroHash →
  ∃ ht, htInsertAll (createDiskHashTable n) es = Ok ht ∧
    htLookup ht h = Ok (insert_all es ∅ !! h) ∧
    ht_count ht = Z.of_nat (size (insert_all es ∅)).
Proof.
  intros Hn Hes Hroom Hb Hz.
  destruct (htInsertAll_rep es (createDiskHashTable n) ∅) as (ht & Hall & Hrep & _); try done.
  { by apply createDiskHashTable_rep. }
  exists ht. split_and!; [done|by apply htLookup_rep|by apply rep_count].
Qed.

Definition example_hash (b : Z) : bytes := b :: zeros 31.
Definition example_entry (b p : Z) : IndexEntry := mkEntry (example_hash b) p (10 * p) 100.

Lemma htab_refines_map_witness :
  ∃ ht, htInsertAll (createDiskHashTable 8)
          [example_entry 1 1; example_entry 2 2; example_entry 1 3] = Ok ht ∧
    htLookup ht (example_hash 1) =
      Ok (insert_all [example_entry 1 1; example_entry 2 2; example_entry 1 3] ∅ !! example_hash 1) ∧
    ht_count ht =
      Z.of_nat (size (insert_all [example_entry 1 1; example_entry 2 2; example_entry 1 3] ∅)).
Proof.
  apply htab_refines_map; try lia; try discriminate;
    by_eval.
Defined.

(** [Insert] on a table that stores map [m]: above the load factor it
    refuses with errTableFull whatever the entry; otherwise it succeeds, never
    by running out of probes, and the new table stores [m] with the entry
    inserted (a present hash gets its location updated and the count kept). *)
Theorem htab_insert_total (ht : diskHashTable) (m : gmap bytes IndexEntry) (e : IndexEntry) :
  ht_rep ht m → storable e →
  if decide (ht_numSlots ht * 85 / 100 < Z.of_nat (size m))
  then htInsert ht e = Err errTableFull
  else ∃ ht', htInsert ht e = Ok ht' ∧ ht_rep ht' (<[StrongHash e := e]> m).
Proof.
  intros Hrep [He Hz]. pose proof (htInsert_rep ht m e Hrep He Hz) as H.
  rewrite (rep_count _ _ Hrep) in H. case_decide; [done|].
  destruct H as (ht' & ? & _ & ?). eauto.
Qed.

Lemma htab_insert_total_witness :
  if decide (8 * 85 / 100 < Z.of_nat (size (∅ : gmap bytes IndexEntry)))
  then htInsert (createDiskHashTable 8) (example_entry 5 1) = Err errTableFull
  else ∃ ht', htInsert (createDiskHashTable 8) (example_entry 5 1) = Ok ht' ∧
              ht_rep ht' (<[example_hash 5 := example_entry 5 1]> ∅).
Proof.
  apply (htab_insert_total (createDiskHashTable 8) ∅ (example_entry 5 1)).
  - apply createDiskHashTable_rep. lia.
  - by_eval.
Defined.

(** Closing a table and reopening its file loses nothing: the reopened table
    stores the same map, and [ReadAll] lists that map's entries, each exactly
    once. *)
Theorem htab_reopen (ht : diskHashTable) (m : gmap bytes IndexEntry) :
  ht_rep ht m → Z.of_nat (size m) < 2 ^ 63 →
  ∃ ht' l, openDiskHashTable (htClose ht) = Ok ht' ∧ ht_rep ht' m ∧
    htReadAll ht' = Ok l ∧ NoDup (StrongHash <$> l) ∧
    (∀ e, e ∈ l ↔ m !! StrongHash e = Some e).
Proof.
  intros Hrep Hsz. destruct (open_close_rep ht m Hrep Hsz) as (ht' & Ho & Hrep' & _).
  destruct (htReadAll_rep ht' m Hrep') as (l & Hl & Hnd & Hin & _). exists ht', l. by split_and!.
Qed.

Lemma htab_reopen_witness :
  ∃ ht' l, openDiskHashTable (htClose (createDiskHashTable 4)) = Ok ht' ∧ ht_rep ht' ∅ ∧
    htReadAll ht' = Ok l ∧ NoDup (StrongHash <$> l) ∧
    (∀ e, e ∈ l ↔ (∅ : gmap bytes IndexEntry) !! StrongHash e = Some e).
Proof. apply htab_reopen; [apply createDiskHashTable_rep; lia|reflexivity]. Defined.
