(* ===== verification/GoRuntime.v ===== *)
(** * Unspecified orders of the Go runtime

    Two things the engine's code uses have no specified order: iteration over a
    map, and the relative order [sort.Slice] gives to elements that compare
    equal.  Each is a class whose laws are what the language and the library
    promise; the theorems hold for every instance, and the canonical instances
    make the definitions run. *)

From S2P Require Import Prelude GoBytes.

(** [for k, v := range m]: every binding once, in any order. *)
Class MapRange := {
  range_map : ∀ {K : Type} {EK : EqDecision K} {CK : Countable K} {V : Type}, gmap K V → list (K * V);
  range_map_perm : ∀ {K} {EK : EqDecision K} {CK : Countable K} {V} (m : gmap K V),
    range_map m ≡ₚ map_to_list m }.

#[export] Instance map_to_list_range : MapRange :=
  {| range_map := λ K EK CK V m, map_to_list m; range_map_perm := λ K EK CK V m, reflexivity _ |}.

(** [sort.Slice(l, func(i, j int) bool { return key(l[i]) < key(l[j]) })]. *)
Definition key_le {A} (key : A → Z) (a b : A) : Prop := key a ≤ key b.

#[export] Instance key_le_dec {A} (key : A → Z) : RelDecision (key_le key).
Proof. intros a b. unfold key_le. apply _. Defined.
#[export] Instance key_le_total {A} (key : A → Z) : Total (key_le key).
Proof. intros a b. unfold key_le. lia. Qed.
#[export] Instance key_le_trans {A} (key : A → Z) : Transitive (key_le key).
Proof. intros a b c. unfold key_le. lia. Qed.

Class SortSlice := {
  sortSlice : ∀ {A : Type}, (A → Z) → list A → list A;
  sortSlice_perm : ∀ {A} (key : A → Z) (l : list A), sortSlice key l ≡ₚ l;
  sortSlice_sorted : ∀ {A} (key : A → Z) (l : list A), StronglySorted (key_le key) (sortSlice key l) }.

#[export] Instance merge_sort_slice : SortSlice :=
  {| sortSlice := λ A key, merge_sort (key_le key);
     sortSlice_perm := λ A key, merge_sort_Permutation (key_le key);
     sortSlice_sorted := λ A key, StronglySorted_merge_sort (key_le key) |}.

Lemma elem_of_sortSlice `{!SortSlice} {A} (key : A → Z) l x : x ∈ sortSlice key l ↔ x ∈ l.
Proof. by rewrite sortSlice_perm. Qed.

Lemma Forall_sortSlice `{!SortSlice} {A} (key : A → Z) (P : A → Prop) l :
  Forall P l → Forall P (sortSlice key l).
Proof. by rewrite sortSlice_perm. Qed.

(** [sort.Slice] by a string key; elements with equal keys come in any order. *)
Class SortByString := {
  sortByString : ∀ {A : Type}, (A → string) → list A → list A;
  sortByString_perm : ∀ {A} (key : A → string) (l : list A), sortByString key l ≡ₚ l;
  sortByString_sorted : ∀ {A} (key : A → string) (l : list A),
    StronglySorted (λ a b, String.le (key a) (key b)) (sortByString key l) }.

Definition string_key_le {A} (key : A → string) (a b : A) : Prop := String.le (key a) (key b).
#[export] Instance string_key_le_dec {A} (key : A → string) : RelDecision (string_key_le key).
Proof. intros a b. unfold string_key_le. apply _. Defined.
#[export] Instance string_key_le_total {A} (key : A → string) : Total (string_key_le key).
Proof. intros a b. apply (total String.le). Qed.
#[export] Instance string_key_le_trans {A} (key : A → string) : Transitive (string_key_le key).
Proof. intros a b c. unfold string_key_le. apply (transitivity (R:=String.le)). Qed.

#[export] Instance merge_sort_by_string : SortByString :=
  {| sortByString := λ A key, merge_sort (string_key_le key);
     sortByString_perm := λ A key, merge_sort_Permutation (string_key_le key);
     sortByString_sorted := λ A key, StronglySorted_merge_sort (string_key_le key) |}.

(** In a list sorted by a strict total comparator, before an element stand
    exactly the smaller ones. *)
Lemma sorted_split {A} (less : A → A → bool) l1 b l2 b' :
  (∀ a, less a a = false) →
  (∀ x y, x ∈ l1 ++ b :: l2 → y ∈ l1 ++ b :: l2 → x ≠ y → less x y = true ∨ less y x = true) →
  StronglySorted (λ x y, less y x = false) (l1 ++ b :: l2) → NoDup (l1 ++ b :: l2) →
  b' ∈ l1 ++ b :: l2 → less b' b = true ↔ b' ∈ l1.
Proof.
  intros Hirr Htot Hs Hnd Hin. assert (Hb : b ∈ l1 ++ b :: l2) by (apply elem_of_app; right; left).
  apply StronglySorted_app in Hs as (Hcross & _ & Hs). split.
  - intros Hn. pose proof Hin as [?|[->|Hin']%elem_of_cons]%elem_of_app; [done|congruence|].
    inversion Hs as [|? ? _ Hall]; subst. rewrite Forall_forall in Hall. specialize (Hall b' Hin'). cbn in Hall. congruence.
  - intros H1. specialize (Hcross b' b H1 ltac:(by left)). cbn in Hcross.
    destruct (Htot b' b) as [?|?]; [done..| |done|congruence]. intros ->.
    apply NoDup_app in Hnd as (_ & Hdis & _). apply (Hdis b H1). left.
Qed.

(** A split of [x :: l]: at its head or later. *)
Lemma split_cons_iff {A} (x : A) l (P : list A → A → Prop) :
  (∃ l1 c l2, x :: l = l1 ++ c :: l2 ∧ P l1 c) ↔ P [] x ∨ ∃ l1 c l2, l = l1 ++ c :: l2 ∧ P (x :: l1) c.
Proof.
  split.
  - intros ([|y l1] & c & l2 & Heq & HP); simplify_eq/=; [by left|]. right. by exists l1, c, l2.
  - intros [HP|(l1 & c & l2 & -> & HP)]; [by exists [], x, l|by exists (x :: l1), c, l2].
Qed.

Lemma NoDup_fmap_inj {A B} (f : A → B) l a b : NoDup (f <$> l) → a ∈ l → b ∈ l → f a = f b → a = b.
Proof.
  intros Hnd Ha Hb Heq. apply list_elem_of_lookup in Ha as [i Hi], Hb as [j Hj].
  assert (i = j) as <-; [|congruence]. eapply NoDup_lookup; [exact Hnd|..]; rewrite list_lookup_fmap;
    [by rewrite Hi|rewrite Hj; cbn; by rewrite Heq].
Qed.
