(* ===== verification/HashBuild.v ===== *)
(** * core/index/hashindex.go: building the hash table from the sorted file

    [buildHashTable], phase by phase: the records of the sorted file are
    distributed into K buckets by home slot; each segment of the slot array
    first takes the entries carried past the previous segment, then its own
    bucket by linear probing; what runs past the last segment wraps around to
    slot 0; the final count is patched into the header and the file is opened.

    The theorem is that the segmented build gives a table that stores exactly
    the file's entries: every lookup finds what a plain table filled by
    [Insert] would. *)

From S2P Require Import Prelude GoBytes GoRuntime HashTable.

Definition htabBuildK : Z := 8.
Definition htabBuildSegTarget : Z := Z.shiftl 24 20.

(** ** Geometry *)

Definition buildSlots (diskSize : Z) : Z :=
  let numSlots := diskSize / EntrySize * 2 in
  if numSlots <? 1024 then 1024 else numSlots.

Definition buildK (numSlots : Z) : Z :=
  let maxSegSlots := htabBuildSegTarget / EntrySize in
  if maxSegSlots * htabBuildK <? numSlots
  then (numSlots + maxSegSlots - 1) / maxSegSlots
  else htabBuildK.

Definition buildSegSize (numSlots : Z) : Z :=
  let K := buildK numSlots in (numSlots + K - 1) / K.

(** ** Records: raw 48-byte slices *)

Abbreviation record := bytes (only parsing).

Definition rec_hash (r : record) : bytes := take 32 r.
Definition rec_empty (r : record) : bool := bool_decide (rec_hash r = zeroHash).
Definition zero_rec : record := zeros 48.

(** [binary.BigEndian.Uint64(buf[:8]) % uint64(numSlots)] *)
Definition homeSlot (numSlots : Z) (r : record) : Z := be_get (sub r 0 8) mod numSlots.

(** The [io.ReadFull] loop over the sorted file: whole records, a short tail
    ends it. *)
Fixpoint readRecords (n : nat) (f : bytes) : list record :=
  match n with
  | O => []
  | S n => take 48 f :: readRecords n (drop 48 f)
  end.

Definition records (f : bytes) : list record := readRecords (length f / 48) f.

(** ** Phase 1: distribute *)

Definition bucketIdx (numSlots : Z) (r : record) : Z :=
  let bi := homeSlot numSlots r / buildSegSize numSlots in
  let K := buildK numSlots in
  if K <=? bi then K - 1 else bi.

Definition distribute (numSlots : Z) (rs : list record) : list (list record) :=
  foldl (λ bkts r, alter (λ b, b ++ [r]) (Z.to_nat (bucketIdx numSlots r)) bkts)
    (replicate (Z.to_nat (buildK numSlots)) []) rs.

(** ** Phase 2: one segment *)

(** Carried entries go to the first free positions, left to right; [nf] never
    moves back.  Returns the slots, the entries still carried, how many were
    placed. *)
Fixpoint placeCarry (part carry : list record) : list record * list record * Z :=
  match part with
  | [] => ([], carry, 0)
  | r :: part' =>
      match carry with
      | [] => (part, [], 0)
      | e :: es =>
          if rec_empty r then
            let '(p, c, n) := placeCarry part' es in (e :: p, c, n + 1)
          else
            let '(p, c, n) := placeCarry part' carry in (r :: p, c, n)
      end
  end.

(** Linear probing from a position to the end of the segment: [None] when every
    slot is taken, the flag tells a placement from a duplicate. *)
Fixpoint probeSeg (part : list record) (e : record) : option (list record * bool) :=
  match part with
  | [] => None
  | r :: part' =>
      if rec_empty r then Some (e :: part', true)
      else if bool_decide (rec_hash r = rec_hash e) then Some (part, false)
      else '(p, b) ← probeSeg part' e; Some (r :: p, b)
  end.

Record seg_state := mkSeg { seg_part : list record; seg_carry : list record; seg_count : Z }.

Definition placeEntry (numSlots segStart : Z) (st : seg_state) (e : record) : seg_state :=
  let relSlot := Z.to_nat (homeSlot numSlots e - segStart) in
  match probeSeg (drop relSlot (seg_part st)) e with
  | Some (p, b) =>
      mkSeg (take relSlot (seg_part st) ++ p) (seg_carry st) (if b then seg_count st + 1 else seg_count st)
  | None => mkSeg (seg_part st) (seg_carry st ++ [e]) (seg_count st)
  end.

Section build.
Context `{!SortSlice}.

Definition buildSegment (numSlots segStart thisSeg : Z) (carry bucket : list record) : seg_state :=
  let '(part, carry', n) := placeCarry (replicate (Z.to_nat thisSeg) zero_rec) carry in
  foldl (placeEntry numSlots segStart) (mkSeg part carry' n)
    (sortSlice (homeSlot numSlots) bucket).

(** The loop over segments [k], [k+1], ...; [out] is what was streamed so far. *)
Fixpoint buildSegments (numSlots k : Z) (bkts : list (list record))
    (out carry : list record) (total : Z) : list record * list record * Z :=
  match bkts with
  | [] => (out, carry, total)
  | bkt :: bkts =>
      let segStart := k * buildSegSize numSlots in
      let segEnd := Z.min (segStart + buildSegSize numSlots) numSlots in
      let st := buildSegment numSlots segStart (segEnd - segStart) carry bkt in
      buildSegments numSlots (k + 1) bkts (out ++ seg_part st) (seg_carry st) (total + seg_count st)
  end.
End build.

(** ** Wrap-around *)

Inductive build_err := BuildTableFull | BuildRead | BuildOpen (e : htab_err).

Fixpoint wrapProbe (f : bytes) (e : record) (probe : Z) (fuel : nat) : result build_err (bytes * bool) :=
  match fuel with
  | O => Err BuildTableFull
  | S fuel =>
      let! r := of_option BuildRead (ReadAt f (slotOffset probe) EntrySize) in
      if rec_empty r then Ok (WriteAt f (slotOffset probe) e, true)
      else if bool_decide (rec_hash r = rec_hash e) then Ok (f, false)
      else wrapProbe f e (probe + 1) fuel
  end.

Fixpoint wrapCarry (numSlots : Z) (f : bytes) (total : Z) (carry : list record)
    : result build_err (bytes * Z) :=
  match carry with
  | [] => Ok (f, total)
  | e :: carry =>
      let! ' (f', b) := wrapProbe f e 0 (Z.to_nat numSlots) in
      wrapCarry numSlots f' (if (b : bool) then total + 1 else total) carry
  end.

(** ** The whole build *)

Definition buildHashTable `{!SortSlice} (disk : bytes) (diskSize : Z)
    : result build_err diskHashTable :=
  let numSlots := buildSlots diskSize in
  let rs := if 0 <? diskSize then records disk else [] in
  let '(out, carry, total) := buildSegments numSlots 0 (distribute numSlots rs) [] [] 0 in
  let! ' (f, total) := wrapCarry numSlots (htabHeader numSlots 0 ++ concat out) total carry in
  let f := WriteAt f 16 (PutUint64 (u64 total)) in
  match openDiskHashTable f with Ok ht => Ok ht | Err e => Err (BuildOpen e) end.

(** ** Records and slots *)

Record rec_ok (r : record) : Prop := {
  rec_len : length r = 48%nat;
  rec_bytes : bytes_ok r;
  rec_nonzero : rec_hash r ≠ zeroHash }.

Lemma rec_ok_nonempty r : rec_ok r → rec_empty r = false.
Proof. intros [_ _ H]. by apply bool_decide_eq_false. Qed.

Lemma zero_rec_empty : rec_empty zero_rec = true.
Proof. reflexivity. Qed.

Definition taken (r : record) : Prop := rec_empty r = false.
#[export] Instance taken_dec r : Decision (taken r).
Proof. unfold taken. apply _. Defined.

Lemma not_taken r : ¬ taken r → rec_empty r = true.
Proof. unfold taken. by destruct (rec_empty r). Qed.

Definition home (n : Z) (r : record) : nat := Z.to_nat (homeSlot n r).

Lemma homeSlot_range n r : 0 < n → 0 ≤ homeSlot n r < n.
Proof. intros. apply Z.mod_pos_bound. lia. Qed.

(** Position [i] of the slot array is taken. *)
Definition occ (L : list record) (i : nat) : Prop := ∃ r, L !! i = Some r ∧ taken r.

Lemma occ_app_l L1 L2 i : occ L1 i → occ (L1 ++ L2) i.
Proof. intros (r & Hr & Ht). exists r. split; [|done]. by apply lookup_app_l_Some. Qed.

Lemma occ_insert L i j e : taken e → occ L j → occ (<[i := e]> L) j.
Proof.
  intros He (r & Hr & Ht). destruct (decide (i = j)) as [->|].
  - exists e. split; [|done]. apply list_lookup_insert_eq. by eapply lookup_lt_Some.
  - exists r. split; [|done]. by rewrite list_lookup_insert_ne.
Qed.

(** A probe chain within one pass: slots from the home to [hi] are taken. *)
Definition chain (n : Z) (L : list record) (r : record) (hi : nat) : Prop :=
  ∀ j, (home n r ≤ j < hi)%nat → occ L j.

(** The state of the build after processing the records [P]: [L] the slots so
    far, [c] the carried entries. *)
Record seg_inv (n : Z) (L c P : list record) : Prop := {
  si_chain : ∀ i r, L !! i = Some r → taken r → (home n r ≤ i)%nat ∧ chain n L r i;
  si_carry : ∀ r, r ∈ c → (home n r ≤ length L)%nat ∧ chain n L r (length L);
  si_zero : ∀ r, r ∈ L → ¬ taken r → r = zero_rec;
  si_perm : filter taken L ++ c ≡ₚ P }.

Lemma placeCarry_fresh t : ∀ c,
  placeCarry (replicate t zero_rec) c =
  (take t c ++ replicate (t - length c) zero_rec, drop t c, Z.of_nat (Nat.min t (length c))).
Proof.
  induction t as [|t IH]; intros c; [by destruct c|].
  destruct c as [|e c]; [done|]. cbn [replicate placeCarry].
  rewrite zero_rec_empty, IH. cbn [take drop length Nat.sub app Nat.min]. f_equal. lia.
Qed.

Lemma filter_taken_replicate t : filter taken (replicate t zero_rec) = [].
Proof. induction t; [done|]. cbn [replicate]. rewrite filter_cons_False; done. Qed.

Lemma filter_taken_all l : Forall rec_ok l → filter taken l = l.
Proof.
  induction 1 as [|r l Hr Hl IH]; [done|]. rewrite filter_cons_True by (by apply rec_ok_nonempty).
  by rewrite IH.
Qed.

(** Starting a segment: the carried entries fill its first slots. *)
Lemma seg_inv_start n L c P t :
  seg_inv n L c P → Forall rec_ok P →
  seg_inv n (L ++ take t c ++ replicate (t - length c) zero_rec) (drop t c) P.
Proof.
  intros [Hch Hca Hz Hp] HP.
  assert (Hc : Forall rec_ok c) by (rewrite <- Hp in HP; by apply Forall_app in HP as [_ ?]).
  assert (Hocc : ∀ a, (a < Nat.min t (length c))%nat →
    occ (L ++ take t c ++ replicate (t - length c) zero_rec) (length L + a)).
  { intros a Ha. destruct (lookup_lt_is_Some_2 c a) as [r Hr]; [lia|].
    exists r. split; [|by apply rec_ok_nonempty; eapply Forall_lookup_1].
    rewrite lookup_app_r by lia. replace (length L + a - length L)%nat with a by lia.
    apply lookup_app_l_Some. by rewrite lookup_take_lt by lia. }
  assert (Hcarry : ∀ r hi, r ∈ c → (hi ≤ length L + Nat.min t (length c))%nat →
    chain n (L ++ take t c ++ replicate (t - length c) zero_rec) r hi).
  { intros r hi Hr Hhi j Hj. destruct (Hca r Hr) as [Hle Hb].
    destruct (Nat.lt_ge_cases j (length L)); [apply occ_app_l, Hb; lia|].
    replace j with (length L + (j - length L))%nat by lia. apply Hocc. lia. }
  constructor.
  - intros i r Hi Ht. apply lookup_app_Some in Hi as [Hi|[Hlen Hi]].
    + destruct (Hch i r Hi Ht) as [Hle Hb]. split; [done|]. intros j Hj. apply occ_app_l. auto.
    + apply lookup_app_Some in Hi as [Hi|[_ Hi]].
      * apply lookup_take_Some in Hi as [Hi Hlt].
        assert (r ∈ c) as Hr by (by eapply list_elem_of_lookup_2).
        split; [destruct (Hca r Hr); lia|]. apply Hcarry; [done|]. apply lookup_lt_Some in Hi. lia.
      * apply lookup_replicate in Hi as [-> _]. discriminate Ht.
  - intros r Hr. assert (Htc : (t < length c)%nat).
    { destruct (Nat.le_gt_cases (length c) t); [|done]. rewrite drop_ge in Hr by done.
      by apply elem_of_nil in Hr. }
    assert (r ∈ c) as Hr' by (rewrite <- (take_drop t c); apply elem_of_app; by right).
    autorewrite with len. split; [destruct (Hca r Hr'); lia|]. apply Hcarry; [done|lia].
  - intros r. rewrite !elem_of_app. intros [Hr|[Hr|Hr]] Ht; [by apply Hz| |].
    + destruct Ht. apply rec_ok_nonempty. rewrite Forall_forall in Hc. apply Hc.
      rewrite <- (take_drop t c). apply elem_of_app. by left.
    + by apply elem_of_replicate in Hr as [-> _].
  - rewrite !filter_app, filter_taken_replicate, app_nil_r.
    rewrite (filter_taken_all (take t c)) by (by apply Forall_take).
    by rewrite <- app_assoc, take_drop.
Qed.

Lemma probeSeg_spec l e :
  match probeSeg l e with
  | Some (l', true) => ∃ i r, l !! i = Some r ∧ ¬ taken r ∧ (∀ j, (j < i)%nat → occ l j) ∧ l' = <[i := e]> l
  | Some (l', false) => ∃ i r, l !! i = Some r ∧ taken r ∧ rec_hash r = rec_hash e
  | None => ∀ j, (j < length l)%nat → occ l j
  end.
Proof.
  induction l as [|r l IH]; cbn [probeSeg]; [intros; simpl in *; lia|].
  assert (Hsh : ∀ j, occ l j → occ (r :: l) (S j)) by (intros j (x & ? & ?); by exists x).
  destruct (rec_empty r) eqn:Hr.
  - exists 0%nat, r. split_and!; [done|unfold taken; congruence|intros; lia|done].
  - assert (H0 : occ (r :: l) 0) by (by exists r).
    case_bool_decide as Hh; [by exists 0%nat, r|].
    destruct (probeSeg l e) as [[l' [|]]|]; cbn.
    + destruct IH as (i & x & Hi & Hx & Hb & ->). exists (S i), x. split_and!; try done.
      intros [|j] Hj; [done|]. apply Hsh, Hb. lia.
    + destruct IH as (i & x & Hi & Hx & Hh'). by exists (S i), x.
    + intros [|j] Hj; [done|]. apply Hsh, IH. simpl in Hj. lia.
Qed.

Lemma filter_taken_insert L i e x :
  L !! i = Some x → ¬ taken x → taken e → filter taken (<[i := e]> L) ≡ₚ e :: filter taken L.
Proof.
  intros Hi Hx He. rewrite <- (take_drop_middle L i x Hi) at 2.
  rewrite insert_take_drop by (by eapply lookup_lt_Some).
  rewrite !filter_app, filter_cons_True, filter_cons_False by done.
  by rewrite Permutation_middle.
Qed.

(** Placing an entry in the first free slot of its chain. *)
Lemma seg_inv_insert n L c P p e x :
  seg_inv n L c P → L !! p = Some x → ¬ taken x → taken e →
  (home n e ≤ p)%nat → chain n L e p → seg_inv n (<[p := e]> L) c (e :: P).
Proof.
  intros [Hch Hca Hz Hp] Hx Hxt He Hle Hc. pose proof (lookup_lt_Some _ _ _ Hx) as Hlt.
  assert (Hmono : ∀ r hi, chain n L r hi → chain n (<[p := e]> L) r hi)
    by (intros r hi H j Hj; apply occ_insert; auto).
  constructor.
  - intros i r Hi Hr. destruct (decide (p = i)) as [<-|Hne].
    + rewrite list_lookup_insert_eq in Hi by done. simplify_eq. split; auto.
    + rewrite list_lookup_insert_ne in Hi by done. destruct (Hch i r Hi Hr). split; auto.
  - intros r Hr. rewrite length_insert. destruct (Hca r Hr). split; auto.
  - intros r Hr Ht. apply Hz; [|done]. apply list_elem_of_lookup in Hr as [i Hi].
    destruct (decide (p = i)) as [<-|Hne].
    + rewrite list_lookup_insert_eq in Hi by done. by simplify_eq.
    + rewrite list_lookup_insert_ne in Hi by done. by eapply list_elem_of_lookup_2.
  - rewrite (filter_taken_insert _ _ _ _ Hx Hxt He). cbn. by rewrite Hp.
Qed.

(** Carrying an entry whose chain reaches the end of the slots. *)
Lemma seg_inv_carry n L c P e :
  seg_inv n L c P → (home n e ≤ length L)%nat → chain n L e (length L) →
  seg_inv n L (c ++ [e]) (e :: P).
Proof.
  intros [Hch Hca Hz Hp] Hle Hc. constructor; try done.
  - intros r [Hr|Hr]%elem_of_app; [auto|]. apply list_elem_of_singleton in Hr as ->. done.
  - rewrite app_assoc, Hp. by rewrite Permutation_app_comm.
Qed.

Lemma seg_inv_no_dup n L c P r e :
  seg_inv n L c P → r ∈ L → taken r → rec_hash r = rec_hash e → rec_hash e ∈ rec_hash <$> P.
Proof.
  intros [_ _ _ Hp] Hr Ht Heq. rewrite <- Heq. apply list_elem_of_fmap_2. rewrite <- Hp.
  apply elem_of_app. left. by apply list_elem_of_filter.
Qed.

Lemma occ_drop_shift L a j : occ (drop a L) j → occ L (a + j).
Proof. intros (r & Hr & Ht). exists r. split; [|done]. by rewrite lookup_drop in Hr. Qed.

Lemma insert_after_take {A} (l : list A) a i (x : A) :
  (a ≤ length l)%nat → take a l ++ <[i := x]> (drop a l) = <[(a + i)%nat := x]> l.
Proof.
  intros Ha. rewrite <- (take_drop a l) at 3.
  rewrite insert_app_r_alt by len. f_equal. f_equal. len.
Qed.

Definition n_taken (l : list record) : Z := len (filter taken l).

Lemma place_inv n out st e P :
  seg_inv n (out ++ seg_part st) (seg_carry st) P →
  rec_ok e → rec_hash e ∉ rec_hash <$> P → len out ≤ homeSlot n e →
  (home n e < length (out ++ seg_part st))%nat →
  let st' := placeEntry n (len out) st e in
  seg_inv n (out ++ seg_part st') (seg_carry st') (e :: P) ∧
  length (seg_part st') = length (seg_part st) ∧
  seg_count st' - seg_count st = n_taken (seg_part st') - n_taken (seg_part st).
Proof.
  intros Hinv He Hnew Hge Hlt. pose proof (rec_ok_nonempty e He) as Het.
  unfold placeEntry. cbv zeta.
  set (rel := Z.to_nat (homeSlot n e - len out)).
  assert (Hrel : home n e = (length out + rel)%nat) by (unfold home, rel; lia).
  assert (Hrl : (rel ≤ length (seg_part st))%nat) by len.
  pose proof (probeSeg_spec (drop rel (seg_part st)) e) as Hsp.
  assert (Hlift : ∀ j, occ (drop rel (seg_part st)) j → occ (out ++ seg_part st) (home n e + j)).
  { intros j (r & Hr & Ht)%occ_drop_shift. exists r. split; [|done].
    rewrite lookup_app_r by lia. rewrite <- Hr. f_equal. lia. }
  assert (Hchain : ∀ i, (∀ j, (j < i)%nat → occ (drop rel (seg_part st)) j) →
    chain n (out ++ seg_part st) e (home n e + i)).
  { intros i Hb j Hj. replace j with (home n e + (j - home n e))%nat by lia. apply Hlift, Hb. lia. }
  destruct (probeSeg _ e) as [[p' [|]]|].
  - destruct Hsp as (i & x & Hi & Hx & Hb & ->). rewrite lookup_drop in Hi. cbn [seg_part seg_carry seg_count].
    rewrite insert_after_take by done. split_and!.
    + rewrite <- (insert_app_r out). rewrite Nat.add_assoc, <- Hrel.
      eapply seg_inv_insert; try done; [|lia|by apply Hchain].
      rewrite lookup_app_r by lia. rewrite <- Hi. f_equal. lia.
    + by rewrite length_insert.
    + unfold n_taken. rewrite (filter_taken_insert _ _ _ _ Hi Hx Het). cbn. lia.
  - exfalso. destruct Hsp as (i & r & Hi & Hr & Hh). apply Hnew.
    eapply seg_inv_no_dup; [exact Hinv| |exact Hr|exact Hh].
    apply elem_of_app. right. rewrite lookup_drop in Hi. by eapply list_elem_of_lookup_2.
  - cbn [seg_part seg_carry seg_count]. split_and!; [|done|lia].
    apply seg_inv_carry; [done|lia|].
    intros j Hj. apply (Hchain (length (drop rel (seg_part st)))); [done|]. len.
Qed.

(** A whole bucket. *)
Lemma place_all_inv n out es : ∀ st P,
  seg_inv n (out ++ seg_part st) (seg_carry st) P →
  Forall rec_ok es → NoDup (rec_hash <$> (es ++ P)) →
  Forall (λ e, len out ≤ homeSlot n e ∧ (home n e < length (out ++ seg_part st))%nat) es →
  let st' := foldl (placeEntry n (len out)) st es in
  seg_inv n (out ++ seg_part st') (seg_carry st') (reverse es ++ P) ∧
  length (seg_part st') = length (seg_part st) ∧
  seg_count st' - seg_count st = n_taken (seg_part st') - n_taken (seg_part st).
Proof.
  induction es as [|e es IH]; intros st P Hinv Hok Hnd Hhome; cbn [foldl].
  - split_and!; [done..|lia].
  - apply Forall_cons in Hok as [He Hok]. apply Forall_cons in Hhome as [[Hge Hlt] Hhome].
    rewrite <- app_comm_cons, fmap_cons in Hnd. apply NoDup_cons in Hnd as [Hnew Hnd].
    assert (rec_hash e ∉ rec_hash <$> P) as HeP
      by (intros H; apply Hnew; rewrite fmap_app; apply elem_of_app; by right).
    destruct (place_inv n out st e P Hinv He HeP Hge Hlt) as (Hinv1 & Hl1 & Hc1).
    destruct (IH (placeEntry n (len out) st e) (e :: P)) as (Hinv2 & Hl2 & Hc2); try done.
    { rewrite !fmap_app in *. cbn. rewrite <- Permutation_middle. constructor; [|done].
      by rewrite fmap_app in Hnew || exact Hnew. }
    { eapply Forall_impl; [exact Hhome|]. intros x [? ?]. split; [done|]. len. }
    split_and!; [|congruence|lia].
    by rewrite reverse_cons, <- app_assoc.
Qed.

(** ** Geometry of the segments *)

Record geometry_ok (n : Z) : Prop := {
  geo_K : 0 < buildK n;
  geo_S : 0 < buildSegSize n;
  geo_cover : n ≤ buildK n * buildSegSize n;
  geo_starts : (buildK n - 1) * buildSegSize n ≤ n }.

(** Up to 2^38 slots every segment starts inside the table and the last one
    reaches its end. *)
Lemma buildSegSize_ok n : 1024 ≤ n ≤ 2 ^ 38 → geometry_ok n.
Proof.
  intros Hn. assert (HK : 8 ≤ buildK n ∧ (buildK n - 1) * (buildK n - 1) ≤ n).
  { unfold buildK, htabBuildSegTarget, htabBuildK, EntrySize.
    change (Z.shiftl 24 20 / 48) with 524288. destruct (Z.ltb_spec (524288 * 8) n) as [Hbig|].
    - assert (Hd := Z.div_mod (n + 524288 - 1) 524288 ltac:(lia)).
      assert (Hm := Z.mod_pos_bound (n + 524288 - 1) 524288 ltac:(lia)).
      set (K := (n + 524288 - 1) / 524288) in *. nia.
    - lia. }
  destruct HK as [HK Hsq].
  assert (Hd := Z.div_mod (n + buildK n - 1) (buildK n) ltac:(lia)).
  assert (Hm := Z.mod_pos_bound (n + buildK n - 1) (buildK n) ltac:(lia)).
  fold (buildSegSize n) in Hd. constructor; nia.
Qed.

Lemma bucketIdx_range n r :
  0 < n → geometry_ok n →
  0 ≤ bucketIdx n r < buildK n ∧
  bucketIdx n r * buildSegSize n ≤ homeSlot n r <
    Z.min (bucketIdx n r * buildSegSize n + buildSegSize n) n.
Proof.
  intros Hn [HK HS Hcov _]. pose proof (homeSlot_range n r Hn) as Hh. unfold bucketIdx.
  assert (Hd := Z.div_mod (homeSlot n r) (buildSegSize n) ltac:(lia)).
  assert (Hm := Z.mod_pos_bound (homeSlot n r) (buildSegSize n) ltac:(lia)).
  set (b := homeSlot n r / buildSegSize n) in *.
  destruct (Z.leb_spec (buildK n) b); nia.
Qed.

(** ** Distribution *)

Definition in_bucket (n : Z) (k : nat) (r : record) : Prop := Z.to_nat (bucketIdx n r) = k.
#[export] Instance in_bucket_dec n k r : Decision (in_bucket n k r).
Proof. unfold in_bucket. apply _. Defined.

Lemma distribute_lookup_gen n rs : ∀ (bkts : list (list record)) (k : nat),
  foldl (λ bkts r, alter (λ b, b ++ [r]) (Z.to_nat (bucketIdx n r)) bkts) bkts rs !! k =
  (λ b, b ++ filter (in_bucket n k) rs) <$> bkts !! k.
Proof.
  induction rs as [|r rs IH]; intros bkts k; cbn [foldl].
  - destruct (bkts !! k); cbn; [|done]. by rewrite app_nil_r.
  - rewrite IH, filter_cons. unfold in_bucket at 2. case_decide as Hk.
    + subst k. rewrite list_lookup_alter_eq. destruct (bkts !! _); cbn; [|done].
      by rewrite <- app_assoc.
    + by rewrite list_lookup_alter_ne.
Qed.

Lemma concat_alter_app {A} (bkts : list (list A)) i r :
  (i < length bkts)%nat → concat (alter (λ b, b ++ [r]) i bkts) ≡ₚ concat bkts ++ [r].
Proof.
  intros Hi. destruct (lookup_lt_is_Some_2 _ _ Hi) as [b Hb].
  revert i b Hi Hb. induction bkts as [|b0 bkts IH]; intros [|i] b Hi Hb; simpl in *; try lia.
  - rewrite <- !app_assoc. apply Permutation_app_head, Permutation_app_comm.
  - rewrite <- app_assoc. apply Permutation_app_head. eapply IH; [lia|done].
Qed.

Lemma distribute_perm_gen n rs : ∀ bkts : list (list record),
  Forall (λ r, (Z.to_nat (bucketIdx n r) < length bkts)%nat) rs →
  concat (foldl (λ bkts r, alter (λ b, b ++ [r]) (Z.to_nat (bucketIdx n r)) bkts) bkts rs)
  ≡ₚ concat bkts ++ rs.
Proof.
  induction rs as [|r rs IH]; intros bkts Hrs; cbn [foldl]; [by rewrite app_nil_r|].
  apply Forall_cons in Hrs as [Hr Hrs]. rewrite IH.
  - rewrite concat_alter_app by done. by rewrite <- app_assoc.
  - by rewrite length_alter.
Qed.

Lemma concat_replicate_nil {A} k : concat (replicate k ([] : list A)) = [].
Proof. by induction k. Qed.

Lemma distribute_perm n rs : 0 < n → geometry_ok n → concat (distribute n rs) ≡ₚ rs.
Proof.
  intros Hn Hg. unfold distribute. rewrite distribute_perm_gen.
  - by rewrite concat_replicate_nil.
  - apply Forall_forall. intros r _. rewrite length_replicate.
    destruct (bucketIdx_range n r Hn Hg). lia.
Qed.

Lemma distribute_length n rs : length (distribute n rs) = Z.to_nat (buildK n).
Proof.
  unfold distribute.
  rewrite <- (length_replicate (Z.to_nat (buildK n)) ([] : list record)) at 2.
  generalize (replicate (Z.to_nat (buildK n)) ([] : list record)).
  induction rs as [|r rs IH]; intros b; cbn [foldl]; [done|]. by rewrite IH, length_alter.
Qed.

Lemma distribute_bucket n rs k bkt r :
  0 < n → geometry_ok n → distribute n rs !! k = Some bkt → r ∈ bkt →
  Z.of_nat k * buildSegSize n ≤ homeSlot n r < Z.min (Z.of_nat k * buildSegSize n + buildSegSize n) n.
Proof.
  intros Hn Hg Hk Hr. unfold distribute in Hk. rewrite distribute_lookup_gen in Hk.
  destruct (replicate _ [] !! k) as [b|] eqn:Hb; [|done].
  apply lookup_replicate in Hb as [-> _]. cbn in Hk. simplify_eq.
  apply list_elem_of_filter in Hr as [Hr _]. destruct (bucketIdx_range n r Hn Hg) as [? ?].
  unfold in_bucket in Hr. by replace (Z.of_nat k) with (bucketIdx n r) by lia.
Qed.

(** ** The segments together *)

Lemma seg_inv_perm n L c P Q : P ≡ₚ Q → seg_inv n L c P → seg_inv n L c Q.
Proof. intros HPQ [? ? ? Hp]. constructor; try done. by rewrite Hp. Qed.

Lemma n_taken_app l k : n_taken (l ++ k) = n_taken l + n_taken k.
Proof. unfold n_taken. rewrite filter_app, length_app. lia. Qed.

Lemma n_taken_fresh t c :
  Forall rec_ok c →
  n_taken (take t c ++ replicate (t - length c) zero_rec) = Z.of_nat (Nat.min t (length c)).
Proof.
  intros Hc. rewrite n_taken_app. unfold n_taken. rewrite filter_taken_replicate.
  rewrite filter_taken_all by (by apply Forall_take). rewrite length_take. cbn. lia.
Qed.

Section segments.
Context `{!SortSlice}.

Lemma buildSegment_inv n out carry bkt P t :
  seg_inv n out carry P → Forall rec_ok (bkt ++ P) → NoDup (rec_hash <$> (bkt ++ P)) →
  (∀ r, r ∈ bkt → len out ≤ homeSlot n r < len out + t) → 0 ≤ t →
  let st := buildSegment n (len out) t carry bkt in
  seg_inv n (out ++ seg_part st) (seg_carry st) (bkt ++ P) ∧
  len (seg_part st) = t ∧ seg_count st = n_taken (seg_part st).
Proof.
  intros Hinv Hok Hnd Hhome Ht. apply Forall_app in Hok as [Hbok HPok].
  assert (Hc : Forall rec_ok carry).
  { destruct Hinv as [_ _ _ Hp]. rewrite <- Hp in HPok. by apply Forall_app in HPok as [_ ?]. }
  unfold buildSegment. rewrite placeCarry_fresh. cbv zeta.
  set (part := take _ carry ++ _).
  assert (Hlp : length part = Z.to_nat t) by (unfold part; len).
  destruct (place_all_inv n out (sortSlice (homeSlot n) bkt)
    (mkSeg part (drop (Z.to_nat t) carry) (Z.of_nat (Nat.min (Z.to_nat t) (length carry)))) P)
    as (Hi & Hl & Hcnt).
  - by apply seg_inv_start.
  - by apply Forall_sortSlice.
  - by rewrite sortSlice_perm.
  - apply Forall_sortSlice, Forall_forall. intros r Hr. specialize (Hhome r Hr). cbn [seg_part].
    unfold home. rewrite length_app. split; lia.
  - cbn [seg_part seg_count] in *. split_and!.
    + eapply seg_inv_perm; [|exact Hi]. by rewrite reverse_Permutation, sortSlice_perm.
    + lia.
    + assert (n_taken part = Z.of_nat (Nat.min (Z.to_nat t) (length carry)))
        by (by apply n_taken_fresh). lia.
Qed.

Lemma buildSegments_inv n bkts : ∀ k out carry total P,
  geometry_ok n → 0 < n → 0 ≤ k → k + len bkts = buildK n →
  seg_inv n out carry P → len out = Z.min (k * buildSegSize n) n → total = n_taken out →
  Forall rec_ok (concat bkts ++ P) → NoDup (rec_hash <$> (concat bkts ++ P)) →
  (∀ i bkt r, bkts !! i = Some bkt → r ∈ bkt →
    (k + Z.of_nat i) * buildSegSize n ≤ homeSlot n r <
      Z.min ((k + Z.of_nat i) * buildSegSize n + buildSegSize n) n) →
  ∃ out' carry', buildSegments n k bkts out carry total = (out', carry', n_taken out') ∧
    seg_inv n out' carry' (concat bkts ++ P) ∧ len out' = n.
Proof.
  induction bkts as [|bkt bkts IH]; intros k out carry total P Hg Hn Hk HK Hinv Hlen -> Hok Hnd Hhome;
    cbn [buildSegments].
  - exists out, carry. split_and!; [done..|]. destruct Hg. cbn in HK. nia.
  - assert (HkS : k * buildSegSize n ≤ n) by (destruct Hg; cbn [length] in HK; nia).
    rewrite Z.min_l in Hlen by done. rewrite <- Hlen.
    set (t := Z.min (len out + buildSegSize n) n - len out).
    assert (Hcat : concat (bkt :: bkts) ++ P ≡ₚ concat bkts ++ (bkt ++ P)).
    { cbn [concat]. rewrite (Permutation_app_comm bkt), <- app_assoc. done. }
    rewrite Hcat in Hok. rewrite Hcat in Hnd.
    destruct (buildSegment_inv n out carry bkt P t) as (Hi & Hl & Hc); try done.
    + by apply Forall_app in Hok as [_ ?].
    + rewrite fmap_app in Hnd. by apply NoDup_app in Hnd as (_ & _ & ?).
    + intros r Hr. specialize (Hhome 0%nat bkt r eq_refl Hr). unfold t. lia.
    + unfold t. destruct Hg. lia.
    + destruct (IH (k + 1) (out ++ seg_part (buildSegment n (len out) t carry bkt))
        (seg_carry (buildSegment n (len out) t carry bkt))
        (n_taken out + seg_count (buildSegment n (len out) t carry bkt)) (bkt ++ P))
        as (out' & carry' & Heq & Hinv' & Hlen'); try done.
      * lia.
      * cbn [length] in HK. lia.
      * rewrite length_app. unfold t in *. destruct Hg. lia.
      * rewrite n_taken_app. lia.
      * intros i b r Hb Hr. specialize (Hhome (S i) b r Hb Hr).
        replace (k + 1 + Z.of_nat i) with (k + Z.of_nat (S i)) by lia. done.
      * exists out', carry'. split_and!; [done| |done]. eapply seg_inv_perm; [|exact Hinv']. by rewrite Hcat.
Qed.

Lemma seg_inv_nil n : seg_inv n [] [] [].
Proof.
  constructor; try done.
  - intros r Hr. by apply elem_of_nil in Hr.
  - intros r Hr. by apply elem_of_nil in Hr.
Qed.

(** All segments: the slots hold every record but those carried past the end. *)
Lemma segments_spec n rs :
  geometry_ok n → 0 < n → Forall rec_ok rs → NoDup (rec_hash <$> rs) →
  ∃ out carry, buildSegments n 0 (distribute n rs) [] [] 0 = (out, carry, n_taken out) ∧
    seg_inv n out carry rs ∧ len out = n.
Proof.
  intros Hg Hn Hok Hnd. pose proof (distribute_perm n rs Hn Hg) as Hperm.
  destruct (buildSegments_inv n (distribute n rs) 0 [] [] 0 []) as (out & carry & Heq & Hinv & Hl); try done.
  - rewrite distribute_length. destruct Hg. lia.
  - apply seg_inv_nil.
  - cbn. lia.
  - by rewrite app_nil_r, Hperm.
  - by rewrite app_nil_r, Hperm.
  - intros i bkt r Hb Hr. rewrite Z.add_0_l. by eapply distribute_bucket.
  - exists out, carry. split_and!; [done| |done]. eapply seg_inv_perm; [|exact Hinv]. by rewrite app_nil_r.
Qed.
End segments.

(** ** Entries with distinct hashes as a map *)

Lemma insert_all_lookup_gen es : ∀ m h,
  NoDup (StrongHash <$> es) →
  insert_all es m !! h = match list_find (λ e, StrongHash e = h) es with
                         | Some (_, e) => Some e | None => m !! h end.
Proof.
  induction es as [|e es IH]; intros m h Hnd; [done|]. rewrite fmap_cons in Hnd.
  apply NoDup_cons in Hnd as [Hnew Hnd]. cbn [insert_all foldl list_find].
  fold (insert_all es (<[StrongHash e := e]> m)). rewrite IH by done.
  case_decide as Hh.
  - destruct (list_find _ es) as [[i x]|] eqn:Hf; [|by subst h; rewrite lookup_insert_eq].
    apply list_find_Some in Hf as (Hi & Hx & _). destruct Hnew. rewrite Hh, <- Hx.
    by apply list_elem_of_fmap_2, list_elem_of_lookup_2 with i.
  - destruct (list_find _ es) as [[i x]|]; cbn; [done|]. by rewrite lookup_insert_ne.
Qed.

Lemma insert_all_Some es h e :
  NoDup (StrongHash <$> es) →
  insert_all es ∅ !! h = Some e ↔ e ∈ es ∧ StrongHash e = h.
Proof.
  intros Hnd. rewrite insert_all_lookup_gen by done. split.
  - destruct (list_find _ es) as [[i x]|] eqn:Hf; [|by rewrite lookup_empty].
    intros [= <-]. apply list_find_Some in Hf as (Hi & Hx & _). split; [|done].
    by eapply list_elem_of_lookup_2.
  - intros [He <-]. destruct (list_find _ es) as [[i x]|] eqn:Hf.
    + apply list_find_Some in Hf as (Hi & Hx & _). f_equal.
      apply list_elem_of_lookup in He as [j Hj].
      assert (i = j) as <-; [|congruence].
      eapply NoDup_lookup; [exact Hnd|..]; rewrite list_lookup_fmap; [by rewrite Hi|].
      rewrite Hj. cbn. by rewrite Hx.
    + apply list_find_None in Hf. rewrite Forall_forall in Hf. by destruct (Hf e He).
Qed.

Lemma insert_all_None es h :
  NoDup (StrongHash <$> es) → insert_all es ∅ !! h = None ↔ h ∉ StrongHash <$> es.
Proof.
  intros Hnd. rewrite eq_None_not_Some. split; intros H Hin; apply H.
  - apply list_elem_of_fmap in Hin as (e & -> & He). exists e. by apply insert_all_Some.
  - destruct Hin as [e He]. apply insert_all_Some in He as [He <-]; [|done].
    by apply list_elem_of_fmap_2.
Qed.

Lemma insert_all_perm es es' :
  NoDup (StrongHash <$> es) → es ≡ₚ es' → insert_all es ∅ = insert_all es' ∅.
Proof.
  intros Hnd Hp. assert (NoDup (StrongHash <$> es')) by (by rewrite <- Hp).
  apply map_eq. intros h. apply option_eq. intros e. by rewrite !insert_all_Some, Hp.
Qed.

Lemma insert_all_snoc es e m : insert_all (es ++ [e]) m = <[StrongHash e := e]> (insert_all es m).
Proof. unfold insert_all. by rewrite foldl_app. Qed.

Lemma size_insert_all es :
  NoDup (StrongHash <$> es) → size (insert_all es ∅) = length es.
Proof.
  induction es as [|e es IH] using rev_ind; intros Hnd; [done|].
  rewrite fmap_app in Hnd. apply NoDup_app in Hnd as (Hnd & Hnew & _).
  assert (insert_all es ∅ !! StrongHash e = None) as Hn
    by (apply insert_all_None; [done|]; intros Hin; apply (Hnew _ Hin); by left).
  rewrite insert_all_snoc, map_size_insert_None, IH, length_app by done. cbn. lia.
Qed.

(** ** The slot array as a table *)

Lemma rec_hash_decode r : StrongHash (decodeEntry r) = rec_hash r.
Proof. reflexivity. Qed.

Lemma rec_ok_storable r : rec_ok r → storable (decodeEntry r).
Proof. intros [Hl Hb Hz]. split; [by apply decodeEntry_ok|done]. Qed.

Lemma homeSlot_prefix n r : homeSlot n r = hashPrefix8 (rec_hash r) mod n.
Proof. unfold homeSlot, hashPrefix8, rec_hash, sub. by rewrite !drop_0, take_take. Qed.

Definition slot_rec (r : record) : Prop := rec_ok r ∨ r = zero_rec.

Lemma slot_rec_len r : slot_rec r → length r = 48%nat.
Proof. intros [[]| ->]; done. Qed.

Lemma seg_inv_slots n L c P : seg_inv n L c P → Forall rec_ok P → Forall slot_rec L.
Proof.
  intros [_ _ Hz Hp] HP. apply Forall_forall. intros r Hr. destruct (decide (taken r)) as [Ht|Ht].
  - left. rewrite <- Hp, Forall_forall in HP. apply HP. apply elem_of_app. left.
    by apply list_elem_of_filter.
  - right. auto.
Qed.

Lemma concat_records_lookup L : ∀ i r,
  Forall slot_rec L → L !! i = Some r → take 48 (drop (48 * i) (concat L)) = r.
Proof.
  induction L as [|x L IH]; intros i r HL Hi; [done|].
  apply Forall_cons in HL as [Hx HL]. apply slot_rec_len in Hx. destruct i as [|i]; cbn [concat] in *.
  - simpl in Hi. injection Hi as ->. rewrite Nat.mul_0_r, drop_0. by apply take_app_exact.
  - replace (48 * S i)%nat with (length x + 48 * i)%nat by lia. rewrite drop_app_add. by apply IH.
Qed.

Lemma concat_records_length L : Forall slot_rec L → length (concat L) = (48 * length L)%nat.
Proof.
  induction 1 as [|x L Hx HL IH]; [done|]. apply slot_rec_len in Hx. cbn [concat length].
  rewrite length_app, IH. lia.
Qed.

Lemma concat_records_bytes L : Forall slot_rec L → bytes_ok (concat L).
Proof.
  induction 1 as [|x L Hx HL IH]; [constructor|]. cbn [concat]. apply bytes_ok_app. split; [|done].
  destruct Hx as [[_ ? _]| ->]; [done|]. unfold zero_rec. auto with bytes.
Qed.

Definition slots_table (n : Z) (L : list record) (c : Z) : diskHashTable :=
  mkHtab (htabHeader n 0 ++ concat L) n c.

Lemma slots_table_shape n L c :
  0 < n < 2 ^ 56 → Forall slot_rec L → len L = n → ht_shape (slots_table n L c).
Proof.
  intros Hn HL Hlen. assert (Hh : length (htabHeader n 0) = 24%nat) by done.
  pose proof (concat_records_length L HL) as Hc.
  constructor; cbn [ht_file ht_numSlots slots_table]; [done|..].
  - rewrite length_app. unfold htabHeaderSize, EntrySize. lia.
  - rewrite ReadAt_Some by (rewrite ?length_app; lia). f_equal. rewrite drop_0, take_app_le by lia.
    unfold htabHeader. rewrite u64_id by (split; lia). rewrite app_assoc. by rewrite take_app_exact by done.
  - apply bytes_ok_app. split; [|by apply concat_records_bytes]. unfold htabHeader.
    rewrite !bytes_ok_app. split_and!; auto with bytes. by_eval.
Qed.

Lemma slots_table_slot n L c i r :
  Forall slot_rec L → L !! i = Some r → slot (slots_table n L c) (Z.of_nat i) = decodeEntry r.
Proof.
  intros HL Hi. assert (Hh : length (htabHeader n 0) = 24%nat) by done.
  unfold slot, slots_table, slotOffset, htabHeaderSize, EntrySize. cbn [ht_file].
  rewrite drop_app_ge by lia. f_equal.
  replace (Z.to_nat _ - _)%nat with (48 * i)%nat by lia. by apply concat_records_lookup.
Qed.

Lemma NoDup_filter_lookup {A B} (f : A → B) (Q : A → Prop) `{!∀ x, Decision (Q x)} (l : list A) : ∀ i j x y,
  NoDup (f <$> filter Q l) → l !! i = Some x → l !! j = Some y → Q x → Q y → f x = f y → i = j.
Proof.
  assert (Hin : ∀ (l : list A) i x, l !! i = Some x → Q x → f x ∈ f <$> filter Q l).
  { intros k i x Hi Hx. apply list_elem_of_fmap_2, list_elem_of_filter. split; [done|].
    by eapply list_elem_of_lookup_2. }
  induction l as [|a l IH]; intros i j x y Hnd Hi Hj Hx Hy Heq; [done|].
  destruct i as [|i], j as [|j]; simpl in Hi, Hj; simplify_eq; try done.
  - exfalso. rewrite filter_cons_True, fmap_cons in Hnd by done. apply NoDup_cons in Hnd as [Hn _].
    apply Hn. rewrite Heq. eauto.
  - exfalso. rewrite filter_cons_True, fmap_cons in Hnd by done. apply NoDup_cons in Hnd as [Hn _].
    apply Hn. rewrite <- Heq. eauto.
  - f_equal. eapply IH; eauto. rewrite filter_cons in Hnd. case_decide; [|done].
    rewrite fmap_cons in Hnd. by apply NoDup_cons in Hnd as [_ ?].
Qed.

Lemma seg_inv_nodup n L c P :
  seg_inv n L c P → NoDup (rec_hash <$> P) → NoDup (rec_hash <$> filter taken L).
Proof.
  intros [_ _ _ Hp] Hnd. rewrite <- Hp, fmap_app in Hnd. by apply NoDup_app in Hnd as (? & _ & _).
Qed.

Lemma hashes_decode (rs : list record) : StrongHash <$> (decodeEntry <$> rs) = rec_hash <$> rs.
Proof. by rewrite <- list_fmap_compose. Qed.

Lemma probe_home n (L : list record) cnt (r : record) j :
  0 < n → 0 ≤ j → homeSlot n r + j < n →
  probe_at (slots_table n L cnt) (rec_hash r) j = homeSlot n r + j.
Proof.
  intros Hn Hj Hlt. unfold probe_at. cbn [ht_numSlots slots_table]. rewrite <- homeSlot_prefix.
  pose proof (homeSlot_range n r Hn). apply Z.mod_small. lia.
Qed.

Lemma slots_table_rep n L c P :
  0 < n < 2 ^ 56 → seg_inv n L c P → Forall rec_ok P → NoDup (rec_hash <$> P) → len L = n →
  ht_rep (slots_table n L (n_taken L)) (insert_all (decodeEntry <$> filter taken L) ∅).
Proof.
  intros Hn Hinv HP Hnd Hlen. pose proof (seg_inv_slots _ _ _ _ Hinv HP) as HL.
  pose proof (seg_inv_nodup _ _ _ _ Hinv Hnd) as Hnt.
  set (ht := slots_table n L (n_taken L)).
  assert (Hs : ht_shape ht) by (by apply slots_table_shape).
  assert (Hget : ∀ i, in_slots ht i → ∃ r, L !! Z.to_nat i = Some r ∧ slot ht i = decodeEntry r).
  { intros i [H0 H1]. cbn in H1. destruct (lookup_lt_is_Some_2 L (Z.to_nat i)) as [r Hr]; [lia|].
    exists r. split; [done|]. rewrite <- (Z2Nat.id i) by done. by apply slots_table_slot. }
  assert (Hdec : NoDup (StrongHash <$> (decodeEntry <$> filter taken L))) by (by rewrite hashes_decode).
  assert (Htk : ∀ i r, slot ht i = decodeEntry r → ¬ empty_slot ht i ↔ taken r).
  { intros i r Hr. unfold empty_slot, taken, rec_empty. rewrite Hr, rec_hash_decode.
    by rewrite bool_decide_eq_false. }
  constructor; [done|..].
  - intros h e. rewrite insert_all_Some by done. split.
    + intros [He <-]. apply list_elem_of_fmap in He as (r & -> & Hr).
      apply list_elem_of_filter in Hr as [Ht Hr]. apply list_elem_of_lookup in Hr as [i Hi].
      pose proof (lookup_lt_Some _ _ _ Hi).
      split_and!; [by apply bool_decide_eq_false in Ht|done|]. exists (Z.of_nat i).
      split; [split; cbn; lia|]. by apply slots_table_slot.
    + intros (Hz & <- & i & Hi & <-). destruct (Hget i Hi) as (r & Hr & Hsl). split; [|done].
      rewrite Hsl. apply list_elem_of_fmap_2, list_elem_of_filter. split; [|by eapply list_elem_of_lookup_2].
      by apply (Htk i).
  - intros i j Hi Hj Hne Heq. destruct (Hget i Hi) as (r & Hr & Hsr), (Hget j Hj) as (x & Hx & Hsx).
    assert (¬ empty_slot ht j) as Hnj by (unfold empty_slot in *; congruence).
    destruct Hi, Hj. apply Z2Nat.inj; [done..|].
    eapply (NoDup_filter_lookup rec_hash taken L); [done|exact Hr|exact Hx|..].
    + by apply (Htk i). + by apply (Htk j). + by rewrite <- !rec_hash_decode, <- Hsr, <- Hsx.
  - intros i Hi Hne. destruct (Hget i Hi) as (r & Hr & Hsr). rewrite Hsr, rec_hash_decode.
    assert (taken r) as Ht by (by apply (Htk i)). destruct Hi as [Hi0 Hi1]. cbn in Hi1.
    destruct (si_chain _ _ _ _ Hinv _ _ Hr Ht) as [Hle Hch]. unfold home in Hle.
    pose proof (homeSlot_range n r ltac:(lia)). exists (i - homeSlot n r).
    split; [cbn; lia|]. unfold ht. rewrite probe_home by lia. split; [lia|].
    intros j Hj. rewrite probe_home by lia.
    destruct (Hch (Z.to_nat (homeSlot n r + j))) as (x & Hx & Hxt); [unfold home; lia|].
    apply (Htk _ x); [|done]. rewrite <- (Z2Nat.id (homeSlot n r + j)) by lia. by apply slots_table_slot.
  - cbn. rewrite size_insert_all by done. by rewrite length_fmap.
Qed.

(** ** Wrapping the carried entries around *)

Lemma read_record ht p :
  ht_shape ht → in_slots ht p →
  ∃ r, ReadAt (ht_file ht) (slotOffset p) EntrySize = Some r ∧ slot ht p = decodeEntry r.
Proof.
  intros Hs Hp. pose proof (readSlot_slot ht p Hs Hp) as Hr. unfold readSlot in Hr.
  destruct (ReadAt _ _ _) as [r|]; [|done]. exists r. split; [done|]. by apply Ok_inj in Hr.
Qed.

(** The probe from slot [p] writes the first empty slot at or after it. *)
Lemma wrapProbe_first ht m e fuel : ∀ p q,
  ht_rep ht m → m !! rec_hash e = None → rec_hash e ≠ zeroHash → 0 ≤ p →
  p ≤ q < p + Z.of_nat fuel → in_slots ht q → empty_slot ht q →
  ∃ k, p ≤ k ≤ q ∧ empty_slot ht k ∧ (∀ j, p ≤ j < k → ¬ empty_slot ht j) ∧
    wrapProbe (ht_file ht) e p fuel = Ok (WriteAt (ht_file ht) (slotOffset k) e, true).
Proof.
  induction fuel as [|fuel IH]; intros p q Hrep Hm Hz Hp Hq Hqs Hemp; [lia|].
  pose proof (rep_shape _ _ Hrep) as Hs. assert (in_slots ht p) as Hps by (destruct Hqs; split; lia).
  destruct (read_record ht p Hs Hps) as (r & Hr & Hsl). cbn [wrapProbe]. rewrite Hr. cbn [of_option rbind].
  destruct (rec_empty r) eqn:Her.
  - exists p. split_and!; try lia; [|done]. apply bool_decide_eq_true in Her.
    unfold empty_slot. by rewrite Hsl.
  - assert (Hne : ¬ empty_slot ht p).
    { unfold empty_slot. rewrite Hsl. by apply bool_decide_eq_false in Her. }
    rewrite bool_decide_false.
    + assert (p ≠ q) by congruence.
      destruct (IH (p + 1) q) as (k & Hk & Hek & Hb & Heq); try done; try lia.
      exists k. split_and!; try lia; [done| |done].
      intros j Hj. destruct (Z.eq_dec j p) as [->|]; [done|]. apply Hb. lia.
    + intros Heq. assert (m !! rec_hash e = Some (slot ht p)) as Hin; [|congruence].
      apply (rep_map _ _ Hrep). split_and!; [done|by rewrite Hsl|eauto].
Qed.

Definition full_from (ht : diskHashTable) (i : Z) : Prop :=
  ∀ j, i ≤ j < ht_numSlots ht → ¬ empty_slot ht j.

Lemma wrapProbe_rep ht m e :
  ht_rep ht m → rec_ok e → m !! rec_hash e = None → Z.of_nat (size m) < ht_numSlots ht →
  full_from ht (homeSlot (ht_numSlots ht) e) →
  ∃ k, in_slots ht k ∧
    wrapProbe (ht_file ht) e 0 (Z.to_nat (ht_numSlots ht)) =
      Ok (ht_file (writeSlot ht k (decodeEntry e) (ht_count ht + 1)), true) ∧
    ht_rep (writeSlot ht k (decodeEntry e) (ht_count ht + 1)) (<[rec_hash e := decodeEntry e]> m).
Proof.
  intros Hrep He Hm Hsz Hfull. pose proof (rep_shape _ _ Hrep) as Hs.
  pose proof (shape_slots _ Hs) as Hn. set (n := ht_numSlots ht) in *.
  pose proof (homeSlot_range n e ltac:(lia)) as Hhome.
  assert (Hq : ∃ q, in_slots ht q ∧ empty_slot ht q).
  { pose proof (seek_spec ht (rec_hash e) (Z.to_nat n) 0) as Hsk.
    pose proof (seek_lookup ht m (rec_hash e) Hrep (rec_nonzero e He)) as Hlk. fold n in Hlk.
    destruct (seek ht (rec_hash e) 0 (Z.to_nat n)) as [[k [|]]|] eqn:Hseek; [congruence| |].
    - exists (probe_at ht (rec_hash e) k). split; [by apply probe_in_slots|apply Hsk].
    - pose proof (seek_full ht m _ Hrep Hseek). fold n in H. lia. }
  destruct Hq as (q & Hqs & Hqe).
  destruct (wrapProbe_first ht m e (Z.to_nat n) 0 q) as (k & Hk & Hek & Hb & Heq);
    try done; [apply He|destruct Hqs; lia|].
  assert (Hkh : k < homeSlot n e).
  { destruct (Z_lt_le_dec k (homeSlot n e)); [done|]. destruct (Hfull k); [|done].
    destruct Hqs. lia. }
  assert (Hpr : ∀ j, 0 ≤ j < n → probe_at ht (rec_hash e) j =
    if decide (homeSlot n e + j < n) then homeSlot n e + j else homeSlot n e + j - n).
  { intros j Hj. unfold probe_at. fold n. rewrite <- homeSlot_prefix. case_decide.
    - apply Z.mod_small. lia.
    - symmetry. apply (Z.mod_unique _ _ 1); lia. }
  assert (Hpk : probe_at ht (rec_hash e) (n - homeSlot n e + k) = k)
    by (rewrite Hpr by lia; case_decide; lia).
  exists k. split; [destruct Hqs; split; lia|]. split.
  - rewrite Heq. unfold writeSlot. cbn [ht_file].
    rewrite encode_decode_entry by apply He. done.
  - rewrite <- Hpk at 1. apply (write_rep ht m (decodeEntry e)); rewrite ?rec_hash_decode;
      [done|apply rec_ok_storable, He|apply He|fold n; lia| |left|].
    + intros j Hj. rewrite Hpr by lia. case_decide; [apply Hfull|apply Hb]; lia.
    + by rewrite Hpk.
    + rewrite map_size_insert_None by done. rewrite (rep_count _ _ Hrep). lia.
Qed.

Lemma full_from_write ht k e c i :
  ht_shape ht → in_slots ht k → storable e → 0 ≤ i → full_from ht i → full_from (writeSlot ht k e c) i.
Proof.
  intros Hs Hk [He Hz] Hi Hf j Hj. cbn in Hj. unfold empty_slot.
  rewrite slot_writeSlot by (done || (split; lia)). case_decide; [done|]. by apply Hf.
Qed.

Lemma wrapCarry_rep es : ∀ ht m,
  ht_rep ht m → Forall rec_ok es → NoDup (rec_hash <$> es) →
  (∀ e, e ∈ es → m !! rec_hash e = None ∧ full_from ht (homeSlot (ht_numSlots ht) e)) →
  Z.of_nat (size m) + len es ≤ ht_numSlots ht →
  ∃ ht', wrapCarry (ht_numSlots ht) (ht_file ht) (ht_count ht) es = Ok (ht_file ht', ht_count ht') ∧
    ht_rep ht' (insert_all (decodeEntry <$> es) m) ∧ ht_numSlots ht' = ht_numSlots ht.
Proof.
  induction es as [|e es IH]; intros ht m Hrep Hok Hnd Hes Hsz; cbn [wrapCarry].
  - exists ht. by split_and!.
  - apply Forall_cons in Hok as [He Hok]. rewrite fmap_cons in Hnd. apply NoDup_cons in Hnd as [Hnew Hnd].
    cbn [length] in Hsz. destruct (Hes e ltac:(left)) as [Hm Hf].
    destruct (wrapProbe_rep ht m e Hrep He Hm ltac:(lia) Hf) as (k & Hk & -> & Hrep'). cbn [rbind].
    destruct (IH _ _ Hrep' Hok Hnd) as (ht' & Heq & Hr' & Hn').
    + intros x Hx. destruct (Hes x ltac:(by right)) as [Hmx Hfx]. split.
      * rewrite lookup_insert_ne; [done|]. intros Heq. apply Hnew. rewrite Heq. by apply list_elem_of_fmap_2.
      * pose proof (rep_shape _ _ Hrep) as Hs. cbn [ht_numSlots writeSlot].
        apply full_from_write; try done; [by apply rec_ok_storable|].
        apply homeSlot_range. destruct Hs. lia.
    + rewrite map_size_insert_None by done. cbn [ht_numSlots writeSlot]. lia.
    + exists ht'. split_and!; [exact Heq|exact Hr'|exact Hn'].
Qed.

(** ** The whole build *)

Lemma readRecords_encode es : ∀ k,
  Forall entry_ok es → readRecords (length es) (concat (encodeEntry <$> es) ++ k) = encodeEntry <$> es.
Proof.
  induction es as [|e es IH]; intros k Hes; [done|]. apply Forall_cons in Hes as [He Hes].
  pose proof (length_encodeEntry e He). cbn [length fmap list_fmap concat readRecords].
  rewrite <- app_assoc. rewrite take_app_exact, drop_app_exact by done. f_equal. by apply IH.
Qed.

Definition sortedFile (es : list IndexEntry) : bytes := concat (encodeEntry <$> es).

Lemma length_sortedFile es : Forall entry_ok es → length (sortedFile es) = (48 * length es)%nat.
Proof.
  unfold sortedFile. induction 1 as [|e es He Hes IH]; [done|].
  pose proof (length_encodeEntry e He). cbn. rewrite length_app, IH. lia.
Qed.

Lemma records_sortedFile es : Forall entry_ok es → records (sortedFile es) = encodeEntry <$> es.
Proof.
  intros Hes. unfold records. rewrite length_sortedFile by done.
  rewrite Nat.mul_comm, Nat.div_mul by lia.
  rewrite <- (app_nil_r (sortedFile es)). by apply readRecords_encode.
Qed.

Lemma storable_rec e : storable e → rec_ok (encodeEntry e).
Proof.
  intros [He Hz]. constructor; [by apply length_encodeEntry|by apply bytes_ok_encodeEntry|].
  by rewrite <- rec_hash_decode, decode_encode_entry.
Qed.

Lemma decode_encode_all es : Forall entry_ok es → decodeEntry <$> (encodeEntry <$> es) = es.
Proof.
  induction 1 as [|e es He Hes IH]; [done|]. rewrite !fmap_cons, IH. by rewrite decode_encode_entry.
Qed.

Lemma buildSlots_range size :
  0 ≤ size → 1024 ≤ buildSlots size ∧ 2 * (size / 48) ≤ buildSlots size ≤ 1024 + 2 * (size / 48).
Proof.
  intros H. unfold buildSlots, EntrySize. pose proof (Z.div_pos size 48).
  destruct (Z.ltb_spec (size / 48 * 2) 1024); lia.
Qed.

Section build_correct.
Context `{!SortSlice}.

Lemma build_records n rs :
  geometry_ok n → 0 < n < 2 ^ 56 → Forall rec_ok rs → NoDup (rec_hash <$> rs) → len rs ≤ n →
  ∃ out carry ht, buildSegments n 0 (distribute n rs) [] [] 0 = (out, carry, n_taken out) ∧
    wrapCarry n (htabHeader n 0 ++ concat out) (n_taken out) carry = Ok (ht_file ht, ht_count ht) ∧
    ht_rep ht (insert_all (decodeEntry <$> rs) ∅) ∧ ht_numSlots ht = n.
Proof.
  intros Hg Hn Hok Hnd Hlen.
  destruct (segments_spec n rs) as (out & carry & Hseg & Hinv & Hl); [done|lia|done..|].
  pose proof (slots_table_rep n out carry rs Hn Hinv Hok Hnd Hl) as Hrep.
  pose proof (si_perm _ _ _ _ Hinv) as Hp.
  assert (Hnd' := Hnd). rewrite <- Hp, fmap_app in Hnd'. apply NoDup_app in Hnd' as (HndL & Hdisj & HndC).
  assert (Hok' := Hok). rewrite <- Hp in Hok'. apply Forall_app in Hok' as [HokL HokC].
  assert (HndD : NoDup (StrongHash <$> (decodeEntry <$> filter taken out))) by (by rewrite hashes_decode).
  destruct (wrapCarry_rep carry _ _ Hrep HokC HndC) as (ht & Hw & Hr & Hns).
  - intros e He. split.
    + apply insert_all_None; [done|]. rewrite hashes_decode. intros Hin.
      apply (Hdisj _ Hin). by apply list_elem_of_fmap_2.
    + intros j Hj. cbn in Hj. destruct (si_carry _ _ _ _ Hinv e He) as [_ Hch].
      pose proof (homeSlot_range n e ltac:(lia)).
      destruct (Hch (Z.to_nat j)) as (x & Hx & Hxt); [unfold home; lia|].
      unfold empty_slot. rewrite <- (Z2Nat.id j) by lia.
      rewrite (slots_table_slot _ _ _ _ x) by (done || by eapply seg_inv_slots).
      rewrite rec_hash_decode. by apply bool_decide_eq_false in Hxt.
  - cbn [ht_numSlots slots_table]. rewrite size_insert_all, length_fmap by done.
    apply Permutation_length in Hp. rewrite length_app in Hp. lia.
  - exists out, carry, ht. split_and!; [done|exact Hw| |done].
    rewrite (insert_all_perm _ (decodeEntry <$> (filter taken out ++ carry)));
      [|by rewrite hashes_decode|by rewrite Hp].
    rewrite fmap_app. unfold insert_all in *. by rewrite foldl_app.
Qed.

(** The built table stores the file's entries. *)
Lemma buildHashTable_rep es :
  Forall storable es → NoDup (StrongHash <$> es) → len es ≤ 2 ^ 36 →
  ∃ ht, buildHashTable (sortedFile es) (len (sortedFile es)) = Ok ht ∧
    ht_rep ht (insert_all es ∅) ∧ ht_numSlots ht = buildSlots (len (sortedFile es)).
Proof.
  intros Hes Hnd Hlen.
  assert (Heok : Forall entry_ok es) by (eapply Forall_impl; [done|by intros ? []]).
  pose proof (length_sortedFile es Heok) as Hl.
  pose proof (buildSlots_range (len (sortedFile es)) ltac:(lia)) as Hr.
  replace (len (sortedFile es) / 48) with (len es) in Hr
    by (rewrite Hl, Nat2Z.inj_mul, Z.mul_comm, Z.div_mul; lia).
  unfold buildHashTable. set (n := buildSlots _) in *.
  assert (Hrs : (if 0 <? len (sortedFile es) then records (sortedFile es) else []) = encodeEntry <$> es).
  { destruct (Z.ltb_spec 0 (len (sortedFile es))); [by apply records_sortedFile|].
    by destruct es; [|cbn [length] in *; lia]. }
  rewrite Hrs. clear Hrs.
  destruct (build_records n (encodeEntry <$> es)) as (out & carry & ht & -> & Hw & Hrep & Hn).
  - apply buildSegSize_ok. lia.
  - lia.
  - apply Forall_fmap. eapply Forall_impl; [exact Hes|]. intros. by apply storable_rec.
  - by rewrite <- hashes_decode, decode_encode_all.
  - rewrite length_fmap. lia.
  - rewrite Hw. cbn [rbind]. rewrite decode_encode_all in Hrep by done.
    pose proof (ht_rep_count_write ht _ (u64 (ht_count ht)) (ht_count ht) Hrep (rep_count _ _ Hrep)) as Hrep'.
    pose proof (rep_count _ _ Hrep) as Hc. rewrite size_insert_all in Hc by done.
    pose proof (rep_shape _ _ Hrep) as [_ Hfl _ _]. unfold htabHeaderSize, EntrySize in Hfl.
    pose proof (shape_slots _ (rep_shape _ _ Hrep)).
    pose proof (open_header _ (ht_count ht) (rep_shape _ _ Hrep')) as Ho. cbn [ht_file ht_numSlots] in Ho.
    rewrite Ho; [|change 8 with (len (PutUint64 (u64 (ht_count ht)))); apply ReadAt_WriteAt_eq; len
                 |unfold is_i64; lia].
    eexists. split_and!; [reflexivity|exact Hrep'|exact Hn].
Qed.
End build_correct.

(** ** Properties *)

(** C13. The segmented build of the hash table is correct: from a sorted file of
    distinct storable entries (at most 2^36 of them) [buildHashTable] succeeds,
    and the table it opens answers every lookup as the file's entries do, its
    count the number of entries, its slot count twice that (at least 1024). *)
Theorem build_table_correct `{!SortSlice} (es : list IndexEntry) (h : bytes) :
  Forall storable es → NoDup (StrongHash <$> es) → len es ≤ 2 ^ 36 →
  bytes_ok h → h ≠ zeroHash →
  ∃ ht, buildHashTable (sortedFile es) (len (sortedFile es)) = Ok ht ∧
    htLookup ht h = Ok (insert_all es ∅ !! h) ∧ ht_count ht = len es ∧
    ht_numSlots ht = Z.max 1024 (2 * len es).
Proof.
  intros Hes Hnd Hlen Hb Hz. destruct (buildHashTable_rep es Hes Hnd Hlen) as (ht & Hbuild & Hrep & Hn).
  exists ht. split_and!; [done|by apply htLookup_rep| |].
  - by rewrite (rep_count _ _ Hrep), size_insert_all.
  - rewrite Hn, length_sortedFile by (eapply Forall_impl; [done|by intros ? []]).
    unfold buildSlots, EntrySize. replace (Z.of_nat (48 * length es)) with (len es * 48) by lia.
    rewrite Z.div_mul by lia. destruct (Z.ltb_spec (len es * 2) 1024); lia.
Qed.

Lemma build_table_correct_witness :
  ∃ ht, buildHashTable (sortedFile [example_entry 1 1; example_entry 2 2])
          (len (sortedFile [example_entry 1 1; example_entry 2 2])) = Ok ht ∧
    htLookup ht (example_hash 2) =
      Ok (insert_all [example_entry 1 1; example_entry 2 2] ∅ !! example_hash 2) ∧
    ht_count ht = len [example_entry 1 1; example_entry 2 2] ∧
    ht_numSlots ht = Z.max 1024 (2 * len [example_entry 1 1; example_entry 2 2]).
Proof.
  apply build_table_correct; try lia; try discriminate;
    by_eval.
Defined.
