(* ===== verification/HashIndex.v ===== *)
(** * core/index/hashindex.go: the dedup index

    [HashIndex]: the sorted index file, its on-disk hash table and the
    in-memory write buffer, with every operation of the type.  The files are
    their contents; [os] calls succeed (reads past the end excepted), and the
    mutex makes each method one atomic step, so a history is a list of
    operations.

    The abstract index is two maps: what a lookup sees now and what the sorted
    file would give back after a crash.  [Insert] and [FlushDelta] change only
    the first, [Flush] copies the first to the second, and no history of them
    fails. *)

From S2P Require Import Prelude GoBytes GoRuntime HashTable HashBuild.

Record HashIndex := mkIndex {
  ix_disk : bytes;                      (* the file at [path] *)
  ix_open : bool;                       (* [file != nil] *)
  ix_diskSize : Z;
  ix_entries : gmap bytes IndexEntry;
  ix_dirty : bool;
  ix_noHtab : bool;
  ix_htab : option diskHashTable }.

Inductive index_err :=
| IxBuild (e : build_err)
| IxTable (e : htab_err)
| IxGrow (e : htab_err)
| IxAfterGrow (e : htab_err)
| IxNoTable
| IxDiskRead
| IxClosed.

Section index.
Context {MR : MapRange} {SS : SortSlice}.

Definition set_entries (idx : HashIndex) (m : gmap bytes IndexEntry) (dirty : bool) : HashIndex :=
  mkIndex (ix_disk idx) (ix_open idx) (ix_diskSize idx) m dirty (ix_noHtab idx) (ix_htab idx).

Definition set_htab (idx : HashIndex) (ht : option diskHashTable) : HashIndex :=
  mkIndex (ix_disk idx) (ix_open idx) (ix_diskSize idx) (ix_entries idx) (ix_dirty idx) (ix_noHtab idx) ht.

(** ** Opening *)

Definition NewHashIndex (file : bytes) (skipHtab : bool) : result index_err HashIndex :=
  let idx := mkIndex file true (len file) ∅ false skipHtab None in
  if skipHtab then Ok idx
  else match buildHashTable (ix_disk idx) (ix_diskSize idx) with
       | Ok ht => Ok (set_htab idx (Some ht))
       | Err e => Err (IxBuild e)
       end.

(** ** Lookup *)

Definition diskReadAt (idx : HashIndex) (i : Z) : result index_err IndexEntry :=
  let! buf := of_option IxDiskRead (ReadAt (ix_disk idx) (i64 (i * EntrySize)) EntrySize) in
  Ok (decodeEntry buf).

(** [for lo < hi]: [fuel] bounds [hi - lo], which every round shrinks. *)
Fixpoint bsearch (idx : HashIndex) (want lo hi : Z) (fuel : nat) : result index_err Z :=
  match fuel with
  | O => Ok lo
  | S fuel =>
      if lo <? hi then
        let mid := Z.quot (lo + hi) 2 in
        let! e := diskReadAt idx mid in
        if hashPrefix8 (StrongHash e) <? want
        then bsearch idx want (mid + 1) hi fuel
        else bsearch idx want lo mid fuel
      else Ok lo
  end.

(** [for i := lo; i < n; i++]: [fuel] is [n - i]. *)
Fixpoint scanRun (idx : HashIndex) (strong : bytes) (want i : Z) (fuel : nat)
    : result index_err (option IndexEntry) :=
  match fuel with
  | O => Ok None
  | S fuel =>
      let! e := diskReadAt idx i in
      if negb (hashPrefix8 (StrongHash e) =? want) then Ok None
      else if bool_decide (StrongHash e = strong) then Ok (Some e)
      else scanRun idx strong want (i + 1) fuel
  end.

Definition diskLookup (idx : HashIndex) (strong : bytes) : result index_err (option IndexEntry) :=
  let n := Z.quot (ix_diskSize idx) EntrySize in
  if (n =? 0) || negb (ix_open idx) then Ok None
  else
    let want := hashPrefix8 strong in
    let! lo := bsearch idx want 0 n (Z.to_nat n) in
    scanRun idx strong want lo (Z.to_nat (n - lo)).

Definition Lookup (idx : HashIndex) (strong : bytes) : result index_err (option IndexEntry) :=
  match ix_entries idx !! strong with
  | Some entry => Ok (Some entry)
  | None =>
      match ix_htab idx with
      | None => diskLookup idx strong
      | Some ht => match htLookup ht strong with Ok r => Ok r | Err e => Err (IxTable e) end
      end
  end.

(** ** Insert *)

Definition Insert (idx : HashIndex) (strong : bytes) (packNumber storeOffset chunkLength : Z) : HashIndex :=
  set_entries idx (<[strong := mkEntry strong packNumber storeOffset chunkLength]> (ix_entries idx)) true.

(** ** FlushDelta *)

Fixpoint growInsert (ht : diskHashTable) (es : list IndexEntry) : result index_err diskHashTable :=
  match es with
  | [] => Ok ht
  | e :: es =>
      match htInsert ht e with
      | Ok ht' => growInsert ht' es
      | Err e => Err (IxGrow e)
      end
  end.

(** Reads every entry, fills a table of twice the slots under a temporary
    name, closes it (its count reaches the header) and opens it in place of
    the old one. *)
Definition growHashTable (ht : diskHashTable) : result index_err diskHashTable :=
  match htReadAll ht with
  | Err e => Err (IxGrow e)
  | Ok entries =>
      let! newHT := growInsert (createDiskHashTable (i64 (ht_numSlots ht * 2))) entries in
      match openDiskHashTable (htClose newHT) with Ok ht' => Ok ht' | Err e => Err (IxGrow e) end
  end.

(** One round of the loop: the table afterwards and the error that stops it. *)
Definition flushEntry (ht : diskHashTable) (entry : IndexEntry) : diskHashTable * option index_err :=
  match htInsert ht entry with
  | Ok ht' => (ht', None)
  | Err errTableFull =>
      match growHashTable ht with
      | Err e => (ht, Some e)
      | Ok ht2 =>
          match htInsert ht2 entry with
          | Ok ht3 => (ht3, None)
          | Err e => (ht2, Some (IxAfterGrow e))
          end
      end
  | Err e => (ht, Some (IxTable e))
  end.

Fixpoint flushEntries (ht : diskHashTable) (es : list IndexEntry) : diskHashTable * option index_err :=
  match es with
  | [] => (ht, None)
  | e :: es =>
      match flushEntry ht e with
      | (ht', None) => flushEntries ht' es
      | (ht', Some err) => (ht', Some err)
      end
  end.

Definition FlushDelta (idx : HashIndex) : HashIndex * option index_err :=
  if decide (ix_entries idx = ∅) then (idx, None)
  else match ix_htab idx with
  | None => (idx, Some IxNoTable)
  | Some ht =>
      match flushEntries ht (snd <$> range_map (ix_entries idx)) with
      | (ht', Some err) => (set_htab idx (Some ht'), Some err)
      | (ht', None) => (set_entries (set_htab idx (Some ht')) ∅ (ix_dirty idx), None)
      end
  end.

(** ** Flush *)

Definition readSortedFile (idx : HashIndex) : result index_err (list IndexEntry) :=
  if ix_diskSize idx =? 0 then Ok []
  else if negb (ix_open idx) then Err IxClosed
  else Ok (decodeEntry <$> records (ix_disk idx)).

(** Collecting the flushed entries: the reopened table, or the sorted file.
    The reopened handle replaces the old one before the read. *)
Definition flushCollect (idx : HashIndex) : HashIndex * result index_err (list IndexEntry) :=
  match ix_htab idx with
  | Some ht =>
      match openDiskHashTable (ht_file ht) with
      | Err e => (idx, Err (IxTable e))
      | Ok ht' =>
          (set_htab idx (Some ht'),
           match htReadAll ht' with Ok l => Ok l | Err e => Err (IxTable e) end)
      end
  | None => (idx, readSortedFile idx)
  end.

(** The buffer wins over a collected entry of the same hash. *)
Definition flushMerge (entries : gmap bytes IndexEntry) (all : list IndexEntry) : list IndexEntry :=
  if decide (entries = ∅) then all
  else filter (λ e, entries !! StrongHash e = None) all ++ (snd <$> range_map entries).

Definition Flush (idx : HashIndex) : HashIndex * option index_err :=
  if negb (ix_dirty idx) && bool_decide (ix_entries idx = ∅) then (idx, None)
  else
    let '(idx, collected) := flushCollect idx in
    match collected with
    | Err e => (idx, Some e)
    | Ok all =>
        let all := sortSlice (λ e, hashPrefix8 (StrongHash e)) (flushMerge (ix_entries idx) all) in
        let file := sortedFile all in
        let idx := mkIndex file true (i64 (len all * EntrySize)) ∅ false (ix_noHtab idx) None in
        if ix_noHtab idx then (idx, None)
        else match buildHashTable (ix_disk idx) (ix_diskSize idx) with
             | Ok ht => (set_htab idx (Some ht), None)
             | Err e => (idx, Some (IxBuild e))
             end
    end.

(** ** Reading and closing *)

Definition ReadAll (idx : HashIndex) : result index_err (list IndexEntry) :=
  let! all := readSortedFile idx in
  Ok (all ++ (snd <$> range_map (ix_entries idx))).

(** The buffered hash is not in the table ([err != nil || !found]). *)
Definition notInTable (ht : diskHashTable) (h : bytes) : bool :=
  match htLookup ht h with Ok (Some _) => false | _ => true end.

Definition Count (idx : HashIndex) : Z :=
  match ix_htab idx with
  | None => u64 (Z.of_nat (size (ix_entries idx)))
  | Some ht =>
      let extra := filter (λ h, notInTable ht h = true) (fst <$> range_map (ix_entries idx)) in
      u64 (u64 (ht_count ht) + len extra)
  end.

Definition CloseDiscard (idx : HashIndex) : HashIndex :=
  mkIndex (ix_disk idx) false (ix_diskSize idx) ∅ false (ix_noHtab idx) None.

Definition Close (idx : HashIndex) : HashIndex * option index_err :=
  let '(idx, err) := Flush idx in
  (mkIndex (ix_disk idx) false (ix_diskSize idx) (ix_entries idx) (ix_dirty idx) (ix_noHtab idx) None, err).

(** ** The sorted file *)

Record file_ok (es : list IndexEntry) : Prop := {
  fo_storable : Forall storable es;
  fo_nodup : NoDup (StrongHash <$> es);
  fo_sorted : StronglySorted (key_le (λ e, hashPrefix8 (StrongHash e))) es;
  fo_small : len es ≤ 2 ^ 36 }.

Lemma file_ok_entries es : file_ok es → Forall entry_ok es.
Proof. intros H. eapply Forall_impl; [apply H|by intros ? []]. Qed.

Lemma length_file es : file_ok es → len (sortedFile es) = len es * 48.
Proof. intros H. rewrite length_sortedFile by (by apply file_ok_entries). lia. Qed.

Lemma sortedFile_read es i e :
  Forall entry_ok es → es !! i = Some e →
  take 48 (drop (48 * i) (sortedFile es)) = encodeEntry e.
Proof.
  unfold sortedFile. intros Hes. revert i. induction Hes as [|x es Hx Hes IH]; intros i Hi; [done|].
  pose proof (length_encodeEntry x Hx) as Hl. rewrite fmap_cons. cbn [concat]. destruct i as [|i].
  - injection Hi as ->. rewrite Nat.mul_0_r, drop_0. by apply take_app_exact.
  - replace (48 * S i)%nat with (length (encodeEntry x) + 48 * i)%nat by lia. rewrite drop_app_add. by apply IH.
Qed.

(** An open index whose file is [es]. *)
Definition on_disk (idx : HashIndex) (es : list IndexEntry) : Prop :=
  file_ok es ∧ ix_disk idx = sortedFile es ∧ ix_diskSize idx = len es * 48 ∧ ix_open idx = true.

Lemma diskReadAt_ok idx es i e :
  on_disk idx es → es !! i = Some e → diskReadAt idx (Z.of_nat i) = Ok e.
Proof.
  intros (Hf & Hd & _ & _) Hi. pose proof (lookup_lt_Some _ _ _ Hi). pose proof (length_file es Hf).
  pose proof (fo_small es Hf). unfold diskReadAt, EntrySize. rewrite Hd.
  rewrite i64_id by (unfold is_i64; lia). rewrite ReadAt_Some by lia. cbn [of_option rbind].
  replace (Z.to_nat (Z.of_nat i * 48)) with (48 * i)%nat by lia. change (Z.to_nat 48) with 48%nat.
  pose proof (file_ok_entries es Hf) as Hes. rewrite (sortedFile_read es i e) by done.
  rewrite decode_encode_entry; [done|]. rewrite Forall_forall in Hes. apply Hes.
  by eapply list_elem_of_lookup_2.
Qed.

Definition prefix_at (es : list IndexEntry) (i : nat) : option Z :=
  (λ e, hashPrefix8 (StrongHash e)) <$> es !! i.

Lemma sorted_lookup es i j a b :
  StronglySorted (key_le (λ e, hashPrefix8 (StrongHash e))) es → (i ≤ j)%nat →
  es !! i = Some a → es !! j = Some b → hashPrefix8 (StrongHash a) ≤ hashPrefix8 (StrongHash b).
Proof.
  intros Hs. revert i j. induction Hs as [|x es Hs IH Hx]; intros i j Hij Hi Hj; [done|].
  destruct i as [|i], j as [|j]; simpl in *; simplify_eq; try lia.
  - rewrite Forall_forall in Hx. apply (Hx b). by eapply list_elem_of_lookup_2.
  - eapply IH; [|done..]. lia.
Qed.

(** The search ends at the first entry whose prefix is not below the one wanted. *)
Lemma bsearch_ok idx es want fuel : ∀ lo hi : nat,
  on_disk idx es → (hi ≤ length es)%nat → (lo ≤ hi)%nat → (hi - lo ≤ fuel)%nat →
  (∀ i e, (i < lo)%nat → es !! i = Some e → hashPrefix8 (StrongHash e) < want) →
  (∀ i e, (hi ≤ i)%nat → es !! i = Some e → want ≤ hashPrefix8 (StrongHash e)) →
  ∃ k : nat, bsearch idx want (Z.of_nat lo) (Z.of_nat hi) fuel = Ok (Z.of_nat k) ∧ (k ≤ length es)%nat ∧
    (∀ i e, (i < k)%nat → es !! i = Some e → hashPrefix8 (StrongHash e) < want) ∧
    (∀ i e, (k ≤ i)%nat → es !! i = Some e → want ≤ hashPrefix8 (StrongHash e)).
Proof.
  induction fuel as [|fuel IH]; intros lo hi Hd Hhi Hle Hf Hlow Hhigh; cbn [bsearch].
  - assert (lo = hi) as <- by lia. exists lo. split_and!; [done|lia|done..].
  - destruct (Z.ltb_spec (Z.of_nat lo) (Z.of_nat hi)).
    2:{ assert (lo = hi) as <- by lia. exists lo. split_and!; [done|lia|done..]. }
    assert (Hsum : Z.of_nat lo + Z.of_nat hi = Z.of_nat (lo + hi)) by lia.
    rewrite Hsum. rewrite Z.quot_div_nonneg by lia.
    replace (Z.of_nat (lo + hi) / 2) with (Z.of_nat ((lo + hi) / 2)) by (by rewrite Nat2Z.inj_div).
    set (mid := ((lo + hi) / 2)%nat).
    assert (Hmid : (lo ≤ mid < hi)%nat).
    { pose proof (Nat.div_mod (lo + hi) 2 ltac:(lia)). pose proof (Nat.mod_upper_bound (lo + hi) 2 ltac:(lia)).
      fold mid in H0. lia. }
    destruct (lookup_lt_is_Some_2 es mid) as [e He]; [lia|].
    rewrite (diskReadAt_ok idx es mid e) by done. cbn [rbind].
    pose proof (fo_sorted es (proj1 Hd)) as Hs.
    destruct (Z.ltb_spec (hashPrefix8 (StrongHash e)) want).
    + replace (Z.of_nat mid + 1) with (Z.of_nat (S mid)) by lia. apply IH; try done; try lia.
      intros i x Hi Hx. assert (hashPrefix8 (StrongHash x) ≤ hashPrefix8 (StrongHash e)); [|lia].
      eapply sorted_lookup; [exact Hs|idtac|exact Hx|exact He]. lia.
    + apply IH; try done; try lia.
      intros i x Hi Hx. assert (hashPrefix8 (StrongHash e) ≤ hashPrefix8 (StrongHash x)); [|lia].
      eapply sorted_lookup; [exact Hs|idtac|exact He|exact Hx]. lia.
Qed.

(** The scan finds the hash in the equal-prefix run, if it is in the file. *)
Lemma scanRun_ok idx es h fuel : ∀ i : nat,
  on_disk idx es → (i + fuel = length es)%nat →
  (∀ j e, (j < i)%nat → es !! j = Some e → StrongHash e ≠ h) →
  (∀ j e, (i ≤ j)%nat → es !! j = Some e → hashPrefix8 h ≤ hashPrefix8 (StrongHash e)) →
  scanRun idx h (hashPrefix8 h) (Z.of_nat i) fuel = Ok (insert_all es ∅ !! h).
Proof.
  induction fuel as [|fuel IH]; intros i Hd Hlen Hno Hge; cbn [scanRun].
  - f_equal. symmetry. apply insert_all_None; [apply Hd|]. intros (e & -> & He)%list_elem_of_fmap.
    apply list_elem_of_lookup in He as [j Hj]. pose proof (lookup_lt_Some _ _ _ Hj).
    eapply Hno; [|done|done]. lia.
  - destruct (lookup_lt_is_Some_2 es i) as [e He]; [lia|]. rewrite (diskReadAt_ok idx es i e) by done.
    cbn [rbind]. pose proof (Hge i e ltac:(lia) He) as Hle.
    destruct (Z.eqb_spec (hashPrefix8 (StrongHash e)) (hashPrefix8 h)) as [Heq|Hne]; cbn [negb].
    + case_bool_decide as Hh.
      * f_equal. symmetry. apply insert_all_Some; [apply Hd|]. split; [|done].
        by eapply list_elem_of_lookup_2.
      * replace (Z.of_nat i + 1) with (Z.of_nat (S i)) by lia. apply IH; try done; try lia.
        -- intros j x Hj Hx. destruct (decide (j = i)) as [->|]; [congruence|]. eapply Hno; [|done]. lia.
        -- intros j x Hj. apply Hge. lia.
    + f_equal. symmetry. apply insert_all_None; [apply Hd|]. intros (x & -> & Hx)%list_elem_of_fmap.
      apply list_elem_of_lookup in Hx as [j Hj].
      destruct (Nat.lt_ge_cases j i); [by eapply Hno|].
      pose proof (sorted_lookup es i j e x (fo_sorted es (proj1 Hd)) ltac:(lia) He Hj). lia.
Qed.

Lemma diskLookup_ok idx es h :
  on_disk idx es → diskLookup idx h = Ok (insert_all es ∅ !! h).
Proof.
  intros Hd. pose proof Hd as (Hf & Hfile & Hsz & Ho). unfold diskLookup, EntrySize. rewrite Hsz, Ho.
  rewrite Z.quot_mul by lia. destruct (Z.eqb_spec (len es) 0) as [H0|H0]; cbn [orb negb].
  - by destruct es; [|cbn in H0; lia].
  - rewrite Nat2Z.id.
    destruct (bsearch_ok idx es (hashPrefix8 h) (length es) 0 (length es)) as (k & Heq & Hk & Hlow & Hhigh);
      try done; try lia.
    { intros i e Hi He. apply lookup_lt_Some in He. lia. }
    change (Z.of_nat 0) with 0 in Heq. rewrite Heq. cbn [rbind].
    replace (Z.to_nat (len es - Z.of_nat k)) with (length es - k)%nat by lia.
    apply scanRun_ok; try done; try lia.
    intros j e Hj He Hh. specialize (Hlow j e Hj He). rewrite Hh in Hlow. lia.
Qed.

(** ** The table under load *)

(** The slot count is at most four times the entries, and the load at most one
    entry above the 85% mark. *)
Record ht_fit (ht : diskHashTable) (m : gmap bytes IndexEntry) : Prop := {
  fit_rep : ht_rep ht m;
  fit_low : 1024 ≤ ht_numSlots ht;
  fit_high : ht_numSlots ht ≤ 1024 + 4 * Z.of_nat (size m);
  fit_load : Z.of_nat (size m) ≤ ht_numSlots ht * 85 / 100 + 1 }.

Lemma growInsert_all es : ∀ ht ht',
  htInsertAll ht es = Ok ht' → growInsert ht es = Ok ht'.
Proof.
  induction es as [|e es IH]; intros ht ht' Hall; cbn [htInsertAll growInsert] in *; [by simplify_eq|].
  apply rbind_Ok_inv in Hall as (ht1 & -> & Hall). by apply IH.
Qed.

(** The entries of a listed map rebuild it. *)
Lemma insert_all_listed (l : list IndexEntry) (m : gmap bytes IndexEntry) :
  NoDup (StrongHash <$> l) → (∀ e, e ∈ l ↔ m !! StrongHash e = Some e) →
  (∀ h e, m !! h = Some e → StrongHash e = h) → insert_all l ∅ = m.
Proof.
  intros Hnd Hin Hkey. apply map_eq. intros h. apply option_eq. intros e.
  rewrite insert_all_Some by done. rewrite Hin. split.
  - by intros [? <-].
  - intros He. by rewrite (Hkey h e He).
Qed.

Lemma rep_key ht m h e : ht_rep ht m → m !! h = Some e → StrongHash e = h.
Proof. intros Hrep He. by apply (rep_map _ _ Hrep) in He as (_ & ? & _). Qed.

(** The readable entries of a table are storable and list its map. *)
Lemma htReadAll_listed ht m :
  ht_rep ht m →
  ∃ l, htReadAll ht = Ok l ∧ NoDup (StrongHash <$> l) ∧ Forall storable l ∧ insert_all l ∅ = m.
Proof.
  intros Hrep. destruct (htReadAll_rep ht m Hrep) as (l & Hl & Hnd & Hin & Hok).
  exists l. split_and!; [done..| |].
  - apply Forall_forall. intros e He. split; [rewrite Forall_forall in Hok; auto|].
    apply Hin in He. by apply (rep_map _ _ Hrep) in He as (? & _).
  - apply insert_all_listed; [done..|]. intros h e. by apply rep_key with ht.
Qed.

Lemma growHashTable_fit ht m :
  ht_fit ht m → ht_numSlots ht * 85 / 100 < Z.of_nat (size m) → Z.of_nat (size m) ≤ 2 ^ 36 →
  ∃ ht', growHashTable ht = Ok ht' ∧ ht_fit ht' m ∧ ht_numSlots ht' = 2 * ht_numSlots ht.
Proof.
  intros [Hrep Hlow Hhigh Hload] Hfull Hsz.
  destruct (htReadAll_listed ht m Hrep) as (l & Hl & Hnd & Hst & Hm).
  unfold growHashTable. rewrite Hl. rewrite i64_id by (unfold is_i64; lia).
  assert (Hlen : len l = Z.of_nat (size m)) by (rewrite <- Hm, size_insert_all by done; done).
  assert (Hroom : Z.of_nat (size m) ≤ ht_numSlots ht * 2 * 85 / 100 + 1)
    by (transitivity (ht_numSlots ht * 85 / 100 + 1); [done|]; apply Z.add_le_mono_r, Z.div_le_mono; lia).
  destruct (htInsertAll_rep l (createDiskHashTable (ht_numSlots ht * 2)) ∅) as (ht1 & Hall & Hrep1 & Hn1);
    [apply createDiskHashTable_rep; lia|done|..].
  { cbn [ht_numSlots createDiskHashTable]. rewrite map_size_empty. lia. }
  rewrite (growInsert_all _ _ _ Hall). cbn [rbind]. rewrite Hm in Hrep1.
  destruct (open_close_rep ht1 m Hrep1) as (ht' & -> & Hrep' & Hn'); [lia|].
  cbn [ht_numSlots createDiskHashTable] in Hn1.
  exists ht'. split_and!; [done| |lia].
  assert (ht_numSlots ht * 85 / 100 * 100 > ht_numSlots ht * 85 - 100).
  { pose proof (Z.mod_pos_bound (ht_numSlots ht * 85) 100). pose proof (Z.div_mod (ht_numSlots ht * 85) 100). lia. }
  constructor; [done|lia|lia|]. rewrite Hn', Hn1. lia.
Qed.

Lemma size_insert_ge {V} (m : gmap bytes V) k x : (size m ≤ size (<[k := x]> m))%nat.
Proof. rewrite map_size_insert. destruct (m !! k); simpl; lia. Qed.

(** Below the mark an insert keeps the table fit. *)
Lemma htInsert_fit ht m e :
  ht_fit ht m → storable e → Z.of_nat (size m) ≤ ht_numSlots ht * 85 / 100 →
  ∃ ht', htInsert ht e = Ok ht' ∧ ht_fit ht' (<[StrongHash e := e]> m) ∧ ht_numSlots ht' = ht_numSlots ht.
Proof.
  intros [Hrep Hlow Hhigh Hload] [He Hz] Hroom. pose proof (htInsert_rep ht m e Hrep He Hz) as Hi.
  rewrite decide_False in Hi by (rewrite (rep_count _ _ Hrep); lia).
  destruct Hi as (ht' & Hi & Hn & Hrep'). exists ht'. split_and!; [done| |done].
  pose proof (size_insert_le m (StrongHash e) e). pose proof (size_insert_ge m (StrongHash e) e).
  constructor; rewrite ?Hn; [done|lia..].
Qed.

(** One round of FlushDelta's loop, growing when the table is full. *)
Lemma flushEntry_fit ht m e :
  ht_fit ht m → storable e → Z.of_nat (size m) ≤ 2 ^ 36 →
  ∃ ht', flushEntry ht e = (ht', None) ∧ ht_fit ht' (<[StrongHash e := e]> m).
Proof.
  intros Hfit He Hsz. unfold flushEntry.
  destruct (Z_lt_le_dec (ht_numSlots ht * 85 / 100) (Z.of_nat (size m))) as [Hfull|Hroom].
  - pose proof (htInsert_rep ht m e (fit_rep _ _ Hfit) (proj1 He) (proj2 He)) as Hi.
    rewrite decide_True in Hi by (rewrite (rep_count _ _ (fit_rep _ _ Hfit)); done). rewrite Hi.
    destruct (growHashTable_fit ht m Hfit Hfull Hsz) as (ht2 & -> & Hfit2 & Hn2).
    destruct (htInsert_fit ht2 m e Hfit2 He) as (ht3 & -> & Hfit3 & _); [|by exists ht3].
    rewrite Hn2. destruct Hfit as [_ Hlow Hhigh Hload].
    transitivity (ht_numSlots ht * 85 / 100 + 1); [done|].
    assert (ht_numSlots ht * 85 / 100 + 1 = (ht_numSlots ht * 85 + 1 * 100) / 100) as ->
      by (rewrite Z.div_add; lia).
    apply Z.div_le_mono; lia.
  - destruct (htInsert_fit ht m e Hfit He Hroom) as (ht' & -> & Hfit' & _). by exists ht'.
Qed.

Lemma flushEntries_fit es : ∀ ht m,
  ht_fit ht m → Forall storable es → Z.of_nat (size m) + len es ≤ 2 ^ 36 →
  ∃ ht', flushEntries ht es = (ht', None) ∧ ht_fit ht' (insert_all es m).
Proof.
  induction es as [|e es IH]; intros ht m Hfit Hes Hsz; cbn [flushEntries]; [by exists ht|].
  apply Forall_cons in Hes as [He Hes]. cbn [length] in Hsz.
  destruct (flushEntry_fit ht m e Hfit He) as (ht1 & -> & Hfit1); [lia|].
  pose proof (size_insert_le m (StrongHash e) e).
  destruct (IH ht1 _ Hfit1 Hes) as (ht' & Heq & Hfit'); [lia|]. by exists ht'.
Qed.

Lemma buildHashTable_fit es :
  file_ok es →
  ∃ ht, buildHashTable (sortedFile es) (len es * 48) = Ok ht ∧ ht_fit ht (insert_all es ∅).
Proof.
  intros Hf. pose proof (length_file es Hf) as Hlen. destruct Hf as [Hst Hnd _ Hsm].
  destruct (buildHashTable_rep es Hst Hnd Hsm) as (ht & Hb & Hrep & Hn). rewrite Hlen in Hb, Hn.
  exists ht. split; [done|]. pose proof (buildSlots_range (len es * 48) ltac:(lia)) as Hr.
  rewrite Z.div_mul in Hr by lia. rewrite <- Hn in Hr.
  constructor; rewrite ?size_insert_all by done; try done; try lia.
  assert (len es ≤ ht_numSlots ht * 85 / 100); [|lia]. apply Z.div_le_lower_bound; lia.
Qed.

(** ** The abstract index *)

Definition buffer_ok (m : gmap bytes IndexEntry) : Prop :=
  map_Forall (λ h e, StrongHash e = h ∧ storable e) m.

(** [M] is what lookups see, [D] what the sorted file holds. *)
Record idx_rep (idx : HashIndex) (D M : gmap bytes IndexEntry) : Prop := {
  ir_disk : ∃ es, on_disk idx es ∧ D = insert_all es ∅;
  ir_buffer : buffer_ok (ix_entries idx);
  ir_table : match ix_htab idx with
             | Some ht => ix_noHtab idx = false ∧ ∃ B, ht_fit ht B ∧ M = ix_entries idx ∪ B
             | None => ix_noHtab idx = true ∧ M = ix_entries idx ∪ D
             end;
  ir_clean : ix_dirty idx = false → ix_entries idx = ∅ ∧ M = D }.

Lemma Lookup_rep idx D M h :
  idx_rep idx D M → bytes_ok h → h ≠ zeroHash → Lookup idx h = Ok (M !! h).
Proof.
  intros [(es & Hd & ->) Hbuf Htab _] Hb Hz. unfold Lookup.
  destruct (ix_htab idx) as [ht|].
  - destruct Htab as (_ & B & Hfit & ->). rewrite lookup_union.
    destruct (ix_entries idx !! h) as [e|]; [by rewrite union_Some_l|].
    rewrite (htLookup_rep ht B) by (done || apply Hfit). by rewrite option_union_left_id.
  - destruct Htab as [_ ->]. rewrite lookup_union.
    destruct (ix_entries idx !! h) as [e|]; [by rewrite union_Some_l|].
    rewrite (diskLookup_ok idx es) by done. by rewrite option_union_left_id.
Qed.

(** ** The buffer as a list *)

Lemma buffer_values m :
  buffer_ok m →
  NoDup (StrongHash <$> (snd <$> range_map m)) ∧ Forall storable (snd <$> range_map m) ∧
  insert_all (snd <$> range_map m) ∅ = m ∧ length (snd <$> range_map m) = size m.
Proof.
  intros Hb.
  assert (Hin : ∀ h e, (h, e) ∈ range_map m ↔ m !! h = Some e)
    by (intros; rewrite range_map_perm; by rewrite elem_of_map_to_list).
  assert (Hkeys : StrongHash <$> (snd <$> range_map m) = fst <$> range_map m).
  { rewrite <- list_fmap_compose. apply list_fmap_ext. intros i [h e] Hi. cbn.
    apply (Hb h), Hin. by eapply list_elem_of_lookup_2. }
  assert (Hnd : NoDup (StrongHash <$> (snd <$> range_map m))).
  { rewrite Hkeys, range_map_perm. apply NoDup_fst_map_to_list. }
  assert (Hval : ∀ e, e ∈ snd <$> range_map m ↔ m !! StrongHash e = Some e).
  { intros e. rewrite list_elem_of_fmap. split.
    - intros ([h x] & -> & Hx). cbn. apply Hin in Hx. by rewrite (proj1 (Hb h x Hx)).
    - intros He. exists (StrongHash e, e). split; [done|]. by apply Hin. }
  split_and!; [done| | |].
  - apply Forall_forall. intros e He. apply Hval in He. by apply (Hb _ _ He).
  - apply insert_all_listed; [done..|]. intros h e He. by apply (Hb h e He).
  - rewrite length_fmap, range_map_perm. by rewrite length_map_to_list.
Qed.

Lemma insert_all_union l B :
  NoDup (StrongHash <$> l) → insert_all l B = insert_all l ∅ ∪ B.
Proof.
  intros Hnd. apply map_eq. intros h. rewrite lookup_union, !insert_all_lookup_gen by done.
  destruct (list_find _ l) as [[i e]|]; [by rewrite union_Some_l|].
  rewrite lookup_empty. by rewrite option_union_left_id.
Qed.

(** The merge of a flush lists the buffer over the collected entries. *)
Lemma flushMerge_ok m all :
  buffer_ok m → NoDup (StrongHash <$> all) → Forall storable all →
  NoDup (StrongHash <$> flushMerge m all) ∧ Forall storable (flushMerge m all) ∧
  insert_all (flushMerge m all) ∅ = m ∪ insert_all all ∅.
Proof.
  intros Hb Hnd Hst. unfold flushMerge. case_decide as Hm.
  - subst m. split_and!; [done..|]. by rewrite (left_id_L ∅ (∪)).
  - destruct (buffer_values m Hb) as (Hnv & Hsv & Hmv & _).
    assert (Hndf : NoDup (StrongHash <$> filter (λ e, m !! StrongHash e = None) all ++ (snd <$> range_map m))).
    { rewrite fmap_app. apply NoDup_app. split_and!; [|intros h Hl Hr|done].
      - eapply sublist_NoDup; [exact Hnd|]. apply fmap_sublist, sublist_filter.
      - apply list_elem_of_fmap in Hl as (e & -> & He). apply list_elem_of_filter in He as [He _].
        rewrite <- Hmv in He. by apply insert_all_None in He. }
    split_and!; [done| |].
    + apply Forall_app. split; [|done]. rewrite !Forall_forall in *.
      intros e [_ He]%list_elem_of_filter. auto.
    + apply map_eq. intros h. apply option_eq. intros e. rewrite insert_all_Some by done.
      rewrite elem_of_app, list_elem_of_filter, lookup_union_Some_raw.
      rewrite (insert_all_Some all) by done.
      assert (Hv : m !! h = Some e ↔ e ∈ snd <$> range_map m ∧ StrongHash e = h)
        by (rewrite <- Hmv at 1; by apply insert_all_Some).
      rewrite Hv. split.
      * intros [[[Hn He]|He] <-]; auto.
      * intros [[He <-]|[Hn [He <-]]]; auto.
Qed.

(** ** Each operation *)

(** Reopening a live table's file reads a stale count and the same entries. *)
Lemma open_stale ht m :
  ht_rep ht m → ∃ c, openDiskHashTable (ht_file ht) = Ok (mkHtab (ht_file ht) (ht_numSlots ht) c).
Proof.
  intros Hrep. pose proof (rep_shape _ _ Hrep) as Hs. pose proof Hs as [Hn Hl _ Hb].
  unfold htabHeaderSize, EntrySize in Hl.
  assert (Hr : ReadAt (ht_file ht) 16 8 = Some (take 8 (drop 16 (ht_file ht))))
    by (rewrite ReadAt_Some by lia; done).
  assert (Hlen : length (take 8 (drop 16 (ht_file ht))) = 8%nat) by len.
  assert (Hok : bytes_ok (take 8 (drop 16 (ht_file ht)))) by auto with bytes.
  exists (i64 (le_get (take 8 (drop 16 (ht_file ht))))). apply open_header; [done| |apply i64_range].
  rewrite u64_i64_id by (by apply le_get_u64). by rewrite PutUint64_le_get.
Qed.

Lemma file_ok_listed all M :
  NoDup (StrongHash <$> all) → Forall storable all → insert_all all ∅ = M →
  Z.of_nat (size M) ≤ 2 ^ 35 →
  file_ok (sortSlice (λ e, hashPrefix8 (StrongHash e)) all) ∧
  insert_all (sortSlice (λ e, hashPrefix8 (StrongHash e)) all) ∅ = M.
Proof.
  intros Hnd Hst <- Hsz. rewrite size_insert_all in Hsz by done. split.
  - constructor; [by apply Forall_sortSlice|by rewrite sortSlice_perm|apply sortSlice_sorted|].
    rewrite sortSlice_perm. lia.
  - apply insert_all_perm; [by rewrite sortSlice_perm|apply sortSlice_perm].
Qed.

(** An index freshly opened on a sorted file. *)
Lemma fresh_index_rep es skip :
  file_ok es →
  let idx := mkIndex (sortedFile es) true (len es * 48) ∅ false skip None in
  if skip then idx_rep idx (insert_all es ∅) (insert_all es ∅)
  else ∃ ht, buildHashTable (sortedFile es) (len es * 48) = Ok ht ∧
             idx_rep (set_htab idx (Some ht)) (insert_all es ∅) (insert_all es ∅).
Proof.
  intros Hf idx. assert (on_disk idx es) as Hd by (by split_and!).
  assert (buffer_ok ∅) by (apply map_Forall_empty).
  destruct skip.
  - constructor; [by exists es|done| |done]. cbn. by rewrite (left_id_L ∅ (∪)).
  - destruct (buildHashTable_fit es Hf) as (ht & Hb & Hfit). exists ht. split; [done|].
    constructor; [by exists es|done| |done]. cbn. split; [done|]. eexists. split; [done|].
    by rewrite (left_id_L ∅ (∪)).
Qed.

Lemma NewHashIndex_rep es skip :
  file_ok es →
  ∃ idx, NewHashIndex (sortedFile es) skip = Ok idx ∧ ix_noHtab idx = skip ∧
    idx_rep idx (insert_all es ∅) (insert_all es ∅).
Proof.
  intros Hf. pose proof (fresh_index_rep es skip Hf) as Hr. unfold NewHashIndex.
  rewrite length_file by done. destruct skip; cbn in *; [eauto|].
  destruct Hr as (ht & -> & Hr). eauto.
Qed.

Lemma Insert_rep idx D M h p o c :
  idx_rep idx D M → storable (mkEntry h p o c) →
  idx_rep (Insert idx h p o c) D (<[h := mkEntry h p o c]> M).
Proof.
  intros [Hd Hb Ht Hc] He. constructor; [exact Hd| | |done]; cbn.
  - by apply map_Forall_insert_2.
  - destruct (ix_htab idx) as [ht|].
    + destruct Ht as (? & B & ? & ->). split; [done|]. exists B. split; [done|]. by rewrite insert_union_l.
    + destruct Ht as (? & ->). split; [done|]. by rewrite insert_union_l.
Qed.

Lemma size_union_l (m B : gmap bytes IndexEntry) : (size m ≤ size (m ∪ B))%nat.
Proof. rewrite <- !size_dom. apply subseteq_size. rewrite dom_union_L. set_solver. Qed.
Lemma size_union_r (m B : gmap bytes IndexEntry) : (size B ≤ size (m ∪ B))%nat.
Proof. rewrite <- !size_dom. apply subseteq_size. rewrite dom_union_L. set_solver. Qed.

Lemma FlushDelta_rep idx D M :
  idx_rep idx D M → ix_noHtab idx = false → Z.of_nat (size M) ≤ 2 ^ 35 →
  ∃ idx', FlushDelta idx = (idx', None) ∧ idx_rep idx' D M ∧ ix_noHtab idx' = false.
Proof.
  intros [Hd Hb Ht Hc] Hno Hsz. unfold FlushDelta.
  case_decide as Hm; [exists idx; by split_and!|].
  destruct (ix_htab idx) as [ht|] eqn:Hht; [|destruct Ht; congruence].
  destruct Ht as (_ & B & Hfit & ->). destruct (buffer_values _ Hb) as (Hnv & Hsv & Hmv & Hlen).
  pose proof (size_union_l (ix_entries idx) B). pose proof (size_union_r (ix_entries idx) B).
  destruct (flushEntries_fit _ ht B Hfit Hsv) as (ht' & -> & Hfit'); [lia|].
  eexists. split_and!; [reflexivity| |done].
  rewrite insert_all_union, Hmv in Hfit' by done.
  constructor; cbn; [exact Hd|apply map_Forall_empty| |].
  - split; [done|]. eexists. split; [exact Hfit'|]. by rewrite (left_id_L ∅ (∪)).
  - intros Hdirty. split; [done|]. by apply Hc.
Qed.

Lemma flushCollect_rep idx D M :
  idx_rep idx D M →
  ∃ idx' all, flushCollect idx = (idx', Ok all) ∧ ix_entries idx' = ix_entries idx ∧
    ix_noHtab idx' = ix_noHtab idx ∧ NoDup (StrongHash <$> all) ∧ Forall storable all ∧
    M = ix_entries idx ∪ insert_all all ∅.
Proof.
  intros [(es & Hd & ->) Hb Ht Hc]. unfold flushCollect. destruct (ix_htab idx) as [ht|].
  - destruct Ht as (_ & B & Hfit & ->). destruct (open_stale ht B (fit_rep _ _ Hfit)) as (c & ->).
    destruct (htReadAll_listed ht B (fit_rep _ _ Hfit)) as (l & Hl & Hnd & Hst & Hm).
    rewrite (htReadAll_count _ _ c (ht_count ht)).
    destruct ht as [f n cnt]. cbn [ht_file ht_numSlots ht_count]. rewrite Hl.
    eexists _, l. split_and!; [reflexivity|done..|]. by rewrite Hm.
  - destruct Ht as (_ & ->). pose proof Hd as (Hf & Hfile & Hsz & Ho).
    exists idx, es. unfold readSortedFile. rewrite Hsz, Ho, Hfile. pose proof (file_ok_entries es Hf) as Hes.
    split_and!; try done; [|apply Hf|apply Hf].
    destruct (Z.eqb_spec (len es * 48) 0); cbn [negb].
    + by destruct es; [|cbn in *; lia].
    + by rewrite records_sortedFile, decode_encode_all.
Qed.

Lemma Flush_rep idx D M :
  idx_rep idx D M → Z.of_nat (size M) ≤ 2 ^ 35 →
  ∃ idx', Flush idx = (idx', None) ∧ idx_rep idx' M M ∧ ix_noHtab idx' = ix_noHtab idx ∧
    ix_dirty idx' = false.
Proof.
  intros Hr Hsz. unfold Flush. destruct (ix_dirty idx) eqn:Hdirty; cbn [negb andb].
  2:{ destruct (ir_clean _ _ _ Hr Hdirty) as [He ->]. rewrite bool_decide_true by done.
      exists idx. by split_and!. }
  destruct (flushCollect_rep idx D M Hr) as (idx1 & all & -> & He & Hno & Hnd & Hst & ->).
  rewrite He, Hno.
  destruct (flushMerge_ok (ix_entries idx) all (ir_buffer _ _ _ Hr) Hnd Hst) as (Hnd' & Hst' & Hm).
  destruct (file_ok_listed _ _ Hnd' Hst' Hm Hsz) as [Hf Hd].
  set (srt := sortSlice _ _) in *. pose proof (fo_small _ Hf).
  unfold EntrySize. rewrite i64_id by (unfold is_i64; lia).
  pose proof (fresh_index_rep srt (ix_noHtab idx) Hf) as Hfr. rewrite Hd in Hfr. cbn [ix_noHtab ix_disk ix_diskSize].
  destruct (ix_noHtab idx) eqn:Hn; [eexists; split_and!; [reflexivity|exact Hfr|done..]|].
  destruct Hfr as (ht & -> & Hfr). eexists. split_and!; [reflexivity|exact Hfr|done..].
Qed.

Lemma Count_rep idx D M :
  idx_rep idx D M → ix_noHtab idx = false → Z.of_nat (size M) ≤ 2 ^ 35 → Count idx = Z.of_nat (size M).
Proof.
  intros [_ Hb Ht _] Hno Hsz. unfold Count. destruct (ix_htab idx) as [ht|]; [|destruct Ht; congruence].
  destruct Ht as (_ & B & Hfit & ->). set (m := ix_entries idx) in *.
  assert (Hkeys : ∀ h, h ∈ fst <$> range_map m ↔ h ∈ dom m).
  { intros h. rewrite range_map_perm, list_elem_of_fmap, elem_of_dom. split.
    - intros ([k e] & -> & He). apply elem_of_map_to_list in He. by exists e.
    - intros [e He]. exists (h, e). split; [done|]. by apply elem_of_map_to_list. }
  assert (Hset : list_to_set (filter (λ h, notInTable ht h = true) (fst <$> range_map m)) =
                 (dom m ∖ dom B : gset bytes)).
  { apply set_eq. intros h. rewrite elem_of_list_to_set, list_elem_of_filter, Hkeys, elem_of_difference.
    unfold notInTable. split; intros [H1 H2].
    - apply elem_of_dom in H2 as [e He]. pose proof (Hb h e He) as [<- [Hok Hz]].
      rewrite (htLookup_rep ht B) in H1 by (done || apply Hfit || apply Hok).
      split; [by apply elem_of_dom|]. rewrite elem_of_dom. by destruct (B !! _).
    - apply elem_of_dom in H1 as [e He]. pose proof (Hb h e He) as [<- [Hok Hz]].
      rewrite (htLookup_rep ht B) by (done || apply Hfit || apply Hok).
      split; [|by apply elem_of_dom]. apply not_elem_of_dom in H2. by rewrite H2. }
  assert (Hlen : length (filter (λ h, notInTable ht h = true) (fst <$> range_map m)) =
                 size (dom m ∖ dom B : gset bytes)).
  { rewrite <- Hset. symmetry. apply size_list_to_set. apply NoDup_filter.
    rewrite range_map_perm. apply NoDup_fst_map_to_list. }
  rewrite Hlen, (rep_count _ _ (fit_rep _ _ Hfit)).
  assert (Hsum : size (m ∪ B) = (size B + size (dom m ∖ dom B : gset bytes))%nat).
  { rewrite <- (size_dom (m ∪ B)), <- (size_dom B), dom_union_L.
    rewrite <- size_union by (apply disjoint_difference_r1; done). f_equal.
    apply set_eq. intros x. rewrite !elem_of_union, elem_of_difference.
    destruct (decide (x ∈ dom B)); tauto. }
  rewrite (u64_id (Z.of_nat (size B))) by (unfold is_u64; lia).
  rewrite u64_id by (unfold is_u64; lia). lia.
Qed.

Lemma ReadAll_clean idx D M :
  idx_rep idx D M → ix_dirty idx = false →
  ∃ l, ReadAll idx = Ok l ∧ file_ok l ∧ insert_all l ∅ = M ∧ ix_disk idx = sortedFile l.
Proof.
  intros [(es & Hd & ->) _ _ Hc] Hdirty. destruct (Hc Hdirty) as [He ->].
  pose proof Hd as (Hf & Hfile & Hsz & Ho). exists es. unfold ReadAll, readSortedFile.
  rewrite He, Hsz, Ho, Hfile. pose proof (file_ok_entries es Hf) as Hes.
  assert (Hnil : range_map (∅ : gmap bytes IndexEntry) = []).
  { apply Permutation_nil. rewrite range_map_perm. by rewrite map_to_list_empty. }
  rewrite Hnil. split_and!; [|done..].
  destruct (Z.eqb_spec (len es * 48) 0); cbn [negb rbind].
  - by destruct es; [|cbn in *; lia].
  - by rewrite records_sortedFile, decode_encode_all, app_nil_r.
Qed.

(** ** Histories *)

Inductive index_op := OpInsert (e : IndexEntry) | OpFlushDelta | OpFlush.

Definition index_step (idx : HashIndex) (op : index_op) : HashIndex * option index_err :=
  match op with
  | OpInsert e => (Insert idx (StrongHash e) (PackNumber e) (StoreOffset e) (ChunkLength e), None)
  | OpFlushDelta => FlushDelta idx
  | OpFlush => Flush idx
  end.

(** A caller stops at the first error. *)
Fixpoint index_run (idx : HashIndex) (ops : list index_op) : HashIndex * option index_err :=
  match ops with
  | [] => (idx, None)
  | op :: ops =>
      match index_step idx op with
      | (idx, None) => index_run idx ops
      | (idx, Some e) => (idx, Some e)
      end
  end.

(** The abstract index: the durable map and the visible one. *)
Definition abs_step (DM : gmap bytes IndexEntry * gmap bytes IndexEntry) (op : index_op) :=
  match op with
  | OpInsert e => (DM.1, <[StrongHash e := e]> DM.2)
  | OpFlushDelta => DM
  | OpFlush => (DM.2, DM.2)
  end.

Definition abs_run (m : gmap bytes IndexEntry) (ops : list index_op) :=
  foldl abs_step (m, m) ops.

Definition op_ok (skip : bool) (op : index_op) : Prop :=
  match op with OpInsert e => storable e | OpFlushDelta => skip = false | OpFlush => True end.
#[export] Instance op_ok_dec skip op : Decision (op_ok skip op).
Proof. destruct op; unfold op_ok; apply _. Defined.

Lemma index_run_rep ops : ∀ idx D M,
  idx_rep idx D M → Forall (op_ok (ix_noHtab idx)) ops →
  Z.of_nat (size M) + len ops ≤ 2 ^ 35 →
  let DM := foldl abs_step (D, M) ops in
  ∃ idx', index_run idx ops = (idx', None) ∧ idx_rep idx' DM.1 DM.2 ∧ ix_noHtab idx' = ix_noHtab idx ∧
    Z.of_nat (size DM.2) ≤ 2 ^ 35.
Proof.
  induction ops as [|op ops IH]; intros idx D M Hr Hops Hsz; cbn [index_run foldl].
  - exists idx. split_and!; try done. cbn in *. lia.
  - apply Forall_cons in Hops as [Hop Hops]. cbn [length] in Hsz. destruct op as [e| |]; cbn [index_step abs_step fst snd].
    + destruct e as [h p o c]. pose proof (Insert_rep idx D M h p o c Hr Hop) as Hr'.
      pose proof (size_insert_le M h (mkEntry h p o c)). apply (IH _ _ _ Hr'); [exact Hops|lia].
    + destruct (FlushDelta_rep idx D M Hr Hop) as (idx1 & -> & Hr1 & Hn1); [lia|].
      cbn in Hop. rewrite Hop in *. rewrite <- Hn1 in Hops |- *. apply IH; [done..|lia].
    + destruct (Flush_rep idx D M Hr) as (idx1 & -> & Hr1 & Hn1 & _); [lia|].
      rewrite <- Hn1 in Hops |- *. apply IH; [done..|lia].
Qed.
End index.

(** ** Properties *)

(** C11. The index refines a map: opened on any sorted file of distinct storable
    entries, with or without the hash table, no history of inserts, delta
    flushes (with the table) and flushes of fewer than 2^35 entries ever fails,
    and afterwards every lookup returns the last entry inserted for that hash,
    the file's entry if none was, or not-found. *)
Theorem index_refines_map `{!MapRange, !SortSlice} (es : list IndexEntry) (skip : bool)
    (ops : list index_op) (h : bytes) :
  file_ok es → Forall (op_ok skip) ops → len es + len ops ≤ 2 ^ 35 → bytes_ok h → h ≠ zeroHash →
  ∃ idx0 idx, NewHashIndex (sortedFile es) skip = Ok idx0 ∧ index_run idx0 ops = (idx, None) ∧
    Lookup idx h = Ok ((abs_run (insert_all es ∅) ops).2 !! h).
Proof.
  intros Hf Hops Hsz Hb Hz. destruct (NewHashIndex_rep es skip Hf) as (idx0 & Hnew & <- & Hr).
  destruct (index_run_rep ops idx0 _ _ Hr Hops) as (idx & Hrun & Hr' & _).
  { rewrite size_insert_all by apply Hf. done. }
  exists idx0, idx. split_and!; [done..|]. by eapply Lookup_rep.
Qed.

Definition example_ops : list index_op :=
  [OpInsert (example_entry 3 7); OpFlushDelta; OpInsert (example_entry 1 9); OpFlush;
   OpInsert (example_entry 2 4); OpFlushDelta].

Lemma example_file_ok : file_ok [example_entry 1 1].
Proof. constructor; by_eval. Qed.

Lemma index_refines_map_witness :
  ∃ idx0 idx, NewHashIndex (sortedFile [example_entry 1 1]) false = Ok idx0 ∧
    index_run idx0 example_ops = (idx, None) ∧
    Lookup idx (example_hash 1) =
      Ok ((abs_run (insert_all [example_entry 1 1] ∅) example_ops).2 !! example_hash 1).
Proof.
  apply index_refines_map; try discriminate; try (vm_compute; discriminate).
  - apply example_file_ok.
  - by_eval.
  - by_eval.
Defined.

(** Durability: after any such history, discarding the session (or losing
    it: only the sorted file survives) and reopening gives the map as of the
    last [Flush], while [Close] succeeds and reopening gives the map with
    every insert. *)
Theorem index_durable `{!MapRange, !SortSlice} (es : list IndexEntry) (skip skip' : bool)
    (ops : list index_op) (h : bytes) :
  file_ok es → Forall (op_ok skip) ops → len es + len ops ≤ 2 ^ 35 → bytes_ok h → h ≠ zeroHash →
  ∃ idx0 idx cl r1 r2, NewHashIndex (sortedFile es) skip = Ok idx0 ∧ index_run idx0 ops = (idx, None) ∧
    NewHashIndex (ix_disk (CloseDiscard idx)) skip' = Ok r1 ∧
    Lookup r1 h = Ok ((abs_run (insert_all es ∅) ops).1 !! h) ∧
    Close idx = (cl, None) ∧ NewHashIndex (ix_disk cl) skip' = Ok r2 ∧
    Lookup r2 h = Ok ((abs_run (insert_all es ∅) ops).2 !! h).
Proof.
  intros Hf Hops Hsz Hb Hz. destruct (NewHashIndex_rep es skip Hf) as (idx0 & Hnew & <- & Hr).
  destruct (index_run_rep ops idx0 _ _ Hr Hops) as (idx & Hrun & Hr' & _ & Hs).
  { rewrite size_insert_all by apply Hf. done. }
  destruct (ir_disk _ _ _ Hr') as (es1 & (Hf1 & Hd1 & _) & HD).
  destruct (Flush_rep idx _ _ Hr' Hs) as (fl & Hfl & Hrf & _).
  destruct (ir_disk _ _ _ Hrf) as (es2 & (Hf2 & Hd2 & _) & HM).
  destruct (NewHashIndex_rep es1 skip' Hf1) as (r1 & Hn1 & _ & Hr1).
  destruct (NewHashIndex_rep es2 skip' Hf2) as (r2 & Hn2 & _ & Hr2).
  exists idx0, idx, (Close idx).1, r1, r2. unfold Close. rewrite Hfl. cbn [fst ix_disk CloseDiscard].
  rewrite Hd1, Hd2. split_and!; try done.
  - rewrite (Lookup_rep r1 _ _ h Hr1) by done. by rewrite <- HD.
  - rewrite (Lookup_rep r2 _ _ h Hr2) by done. by rewrite <- HM.
Qed.

Lemma index_durable_witness :
  ∃ idx0 idx cl r1 r2, NewHashIndex (sortedFile [example_entry 1 1]) false = Ok idx0 ∧
    index_run idx0 example_ops = (idx, None) ∧
    NewHashIndex (ix_disk (CloseDiscard idx)) true = Ok r1 ∧
    Lookup r1 (example_hash 2) =
      Ok ((abs_run (insert_all [example_entry 1 1] ∅) example_ops).1 !! example_hash 2) ∧
    Close idx = (cl, None) ∧ NewHashIndex (ix_disk cl) true = Ok r2 ∧
    Lookup r2 (example_hash 2) =
      Ok ((abs_run (insert_all [example_entry 1 1] ∅) example_ops).2 !! example_hash 2).
Proof.
  apply index_durable; try discriminate; try (vm_compute; discriminate).
  - apply example_file_ok.
  - by_eval.
  - by_eval.
Defined.

(** [Count] is exact although the buffer may repeat hashes of the table, and
    after [Flush] [ReadAll] lists the visible map with every entry once. *)
Theorem index_count_and_listing `{!MapRange, !SortSlice} (es : list IndexEntry) (ops : list index_op) :
  file_ok es → Forall (op_ok false) ops → len es + len ops ≤ 2 ^ 35 →
  ∃ idx0 idx fl l, NewHashIndex (sortedFile es) false = Ok idx0 ∧ index_run idx0 ops = (idx, None) ∧
    Count idx = Z.of_nat (size (abs_run (insert_all es ∅) ops).2) ∧
    Flush idx = (fl, None) ∧ ReadAll fl = Ok l ∧ NoDup (StrongHash <$> l) ∧
    insert_all l ∅ = (abs_run (insert_all es ∅) ops).2.
Proof.
  intros Hf Hops Hsz. destruct (NewHashIndex_rep es false Hf) as (idx0 & Hnew & Hno & Hr).
  rewrite <- Hno in Hops.
  destruct (index_run_rep ops idx0 _ _ Hr Hops) as (idx & Hrun & Hr' & Hno' & Hs).
  { rewrite size_insert_all by apply Hf. done. }
  destruct (Flush_rep idx _ _ Hr' Hs) as (fl & Hfl & Hrf & _ & Hcl).
  destruct (ReadAll_clean fl _ _ Hrf Hcl) as (l & Hl & [_ Hnd _ _] & Hm & _).
  exists idx0, idx, fl, l. split_and!; try done. eapply Count_rep; [exact Hr'|congruence|exact Hs].
Qed.

Lemma index_count_and_listing_witness :
  ∃ idx0 idx fl l, NewHashIndex (sortedFile [example_entry 1 1]) false = Ok idx0 ∧
    index_run idx0 example_ops = (idx, None) ∧
    Count idx = Z.of_nat (size (abs_run (insert_all [example_entry 1 1] ∅) example_ops).2) ∧
    Flush idx = (fl, None) ∧ ReadAll fl = Ok l ∧ NoDup (StrongHash <$> l) ∧
    insert_all l ∅ = (abs_run (insert_all [example_entry 1 1] ∅) example_ops).2.
Proof.
  apply index_count_and_listing; try (vm_compute; discriminate).
  - apply example_file_ok.
  - by_eval.
Defined.
