(* ===== verification/Delta.v ===== *)
(** * core/index/delta.go: index deltas

    The object a run publishes instead of the whole index: a 64-byte header
    (magic, version, entry count, SHA-256 of the payload, 16 reserved bytes)
    and the entry array.  The encoder, the five readers ([ParseDelta],
    [ForEachDeltaEntry], [ValidateDeltaFile], [DeltaEntryCount],
    [streamDeltaRecords]) and [PackNumbers].

    A run-time panic of the code is an error value here ([DeltaPanic]). *)

From S2P Require Import Prelude GoBytes Hashes HashTable.

(** "DNIDLT" *)
Definition deltaMagic : bytes := [68; 78; 73; 68; 76; 84].
Definition DeltaVersion : Z := 1.
Definition DeltaHeaderSize : Z := 64.
Definition DeltaEntrySize : Z := 56.

Record DeltaEntry := mkDelta {
  de_StrongHash : bytes;
  de_WeakHash : Z;
  de_PackNumber : Z;
  de_StoreOffset : Z;
  de_ChunkLength : Z }.

#[export] Instance DeltaEntry_eq_dec : EqDecision DeltaEntry.
Proof. solve_decision. Defined.

(** ** Encoding *)

Definition EncodeDeltaEntry (e : DeltaEntry) : bytes :=
  de_StrongHash e ++ PutUint64 (de_WeakHash e) ++ PutUint32 (de_PackNumber e) ++
  PutUint64 (de_StoreOffset e) ++ PutUint32 (de_ChunkLength e).

Definition decodeDeltaEntry (src : bytes) : DeltaEntry :=
  mkDelta (sub src 0 32) (le_get (sub src 32 8)) (le_get (sub src 40 4))
    (le_get (sub src 44 8)) (le_get (sub src 52 4)).

Definition DeltaHeader (entryCount : Z) (sum : bytes) : bytes :=
  deltaMagic ++ PutUint16 DeltaVersion ++ PutUint64 entryCount ++ sum ++ zeros 16.

Definition deltaPayload (es : list DeltaEntry) : bytes := concat (EncodeDeltaEntry <$> es).

Definition Marshal (es : list DeltaEntry) : bytes :=
  DeltaHeader (u64 (len es)) (Sum256 (deltaPayload es)) ++ deltaPayload es.

(** ** Decoding *)

Inductive delta_err :=
| DeltaShortHeader | DeltaBadMagic | DeltaBadVersion (v : Z) | DeltaTruncated | DeltaChecksum | DeltaPanic.

#[export] Instance delta_err_eq_dec : EqDecision delta_err.
Proof. solve_decision. Defined.

Definition deltaCount (hdr : bytes) : Z := le_get (sub hdr 8 8).
Definition deltaSum (hdr : bytes) : bytes := sub hdr 16 32.

(** The checks [ParseDelta] and [ForEachDeltaEntry] both open with: the entry
    count and the payload. *)
Definition deltaCheck (data : bytes) : result delta_err (Z * bytes) :=
  if (len data <? DeltaHeaderSize) || negb (bool_decide (sub data 0 6 = deltaMagic))
  then Err DeltaBadMagic
  else
    let v := le_get (sub data 6 2) in
    if negb (v =? DeltaVersion) then Err (DeltaBadVersion v)
    else
      let count := deltaCount data in
      let payload := drop 64 data in
      if negb (u64 (len payload) =? u64 (count * DeltaEntrySize)) then Err DeltaTruncated
      else if negb (bool_decide (Sum256 payload = deltaSum data)) then Err DeltaChecksum
      else Ok (count, payload).

Fixpoint decodeDeltas (n : nat) (payload : bytes) : list DeltaEntry :=
  match n with
  | O => []
  | S n => decodeDeltaEntry payload :: decodeDeltas n (drop 56 payload)
  end.

(** [make([]DeltaEntry, count)] panics when the 64-byte structs would not fit
    the address space. *)
Definition ParseDelta (data : bytes) : result delta_err (list DeltaEntry) :=
  let! ' (count, payload) := deltaCheck data in
  if 2 ^ 63 <=? count * 64 then Err DeltaPanic
  else Ok (decodeDeltas (Z.to_nat count) payload).

(** The entries handed to [fn]; [payload[i*DeltaEntrySize:]] panics past the end. *)
Definition ForEachDeltaEntry (data : bytes) : result delta_err (list DeltaEntry) :=
  let! ' (count, payload) := deltaCheck data in
  if len payload / DeltaEntrySize <? count then Err DeltaPanic
  else Ok (decodeDeltas (Z.to_nat count) payload).

(** The header checks of the two file readers. *)
Definition deltaFileCheck (f : bytes) : result delta_err Z :=
  let! hdr := of_option DeltaShortHeader (ReadAt f 0 DeltaHeaderSize) in
  if negb (bool_decide (sub hdr 0 6 = deltaMagic)) then Err DeltaBadMagic
  else
    let v := le_get (sub hdr 6 2) in
    if negb (v =? DeltaVersion) then Err (DeltaBadVersion v)
    else
      let count := deltaCount hdr in
      if negb (u64 (len f) =? u64 (DeltaHeaderSize + u64 (count * DeltaEntrySize)))
      then Err DeltaTruncated
      else Ok count.

Definition DeltaEntryCount (f : bytes) : result delta_err Z :=
  let! count := deltaFileCheck f in Ok (i64 count).

Definition ValidateDeltaFile (f : bytes) : result delta_err unit :=
  let! _ := deltaFileCheck f in
  if negb (bool_decide (Sum256 (drop 64 f) = deltaSum f)) then Err DeltaChecksum else Ok tt.

(** The records streamed to [fn] before the loop ends or fails; [fuel] bounds
    the whole records the file can hold. *)
Fixpoint streamLoop (i count : Z) (r : bytes) (fuel : nat) : list DeltaEntry * option delta_err :=
  if i <? count then
    if len r <? DeltaEntrySize then ([], Some DeltaTruncated)
    else match fuel with
         | O => ([], Some DeltaTruncated)
         | S fuel =>
             let '(es, err) := streamLoop (i + 1) count (drop 56 r) fuel in
             (decodeDeltaEntry r :: es, err)
         end
  else ([], None).

Definition streamDeltaRecords (f : bytes) : list DeltaEntry * option delta_err :=
  match ReadAt f 0 DeltaHeaderSize with
  | None => ([], Some DeltaShortHeader)
  | Some hdr => streamLoop 0 (deltaCount hdr) (drop 64 f) (length f)
  end.

(** ** Pack numbers *)

(** [seen]/[out]: the first occurrence of each pack number. *)
Fixpoint firstSeen (seen : gset Z) (ns : list Z) : list Z :=
  match ns with
  | [] => []
  | n :: ns => if decide (n ∈ seen) then firstSeen seen ns else n :: firstSeen ({[n]} ∪ seen) ns
  end.

(** The inner loop of [sortU32Asc]: [s[j]] moves left while it is smaller than
    its neighbour; the sorted prefix is kept reversed. *)
Fixpoint sink (x : Z) (rev : list Z) : list Z :=
  match rev with
  | [] => [x]
  | y :: rev' => if x <? y then y :: sink x rev' else x :: rev
  end.

Definition sortU32Asc (s : list Z) : list Z := reverse (foldl (λ rev x, sink x rev) [] s).

Definition PackNumbers (es : list DeltaEntry) : list Z :=
  sortU32Asc (firstSeen ∅ (de_PackNumber <$> es)).

(** ** Entries *)

Record delta_ok (e : DeltaEntry) : Prop := {
  dok_hash : hash_ok (de_StrongHash e);
  dok_weak : is_u64 (de_WeakHash e);
  dok_pack : is_u32 (de_PackNumber e);
  dok_off : is_u64 (de_StoreOffset e);
  dok_len : is_u32 (de_ChunkLength e) }.

#[export] Instance delta_ok_dec e : Decision (delta_ok e).
Proof.
  refine (cast_if (decide (hash_ok (de_StrongHash e) ∧ is_u64 (de_WeakHash e) ∧ is_u32 (de_PackNumber e) ∧
    is_u64 (de_StoreOffset e) ∧ is_u32 (de_ChunkLength e))));
    [abstract (destruct_and!; by constructor)|abstract (intros []; tauto)].
Defined.

Lemma length_EncodeDeltaEntry e : delta_ok e → length (EncodeDeltaEntry e) = 56%nat.
Proof. intros [[Hl _] _ _ _ _]. unfold EncodeDeltaEntry. len. Qed.

Lemma bytes_ok_EncodeDeltaEntry e : delta_ok e → bytes_ok (EncodeDeltaEntry e).
Proof. intros [[_ Hb] _ _ _ _]. unfold EncodeDeltaEntry. rewrite !bytes_ok_app. auto with bytes. Qed.

Lemma decode_encode_delta e k : delta_ok e → decodeDeltaEntry (EncodeDeltaEntry e ++ k) = e.
Proof.
  intros [[Hl Hb] Hw Hp Ho Hc]. unfold decodeDeltaEntry, EncodeDeltaEntry. destruct e as [h w p o c]. cbn in *.
  rewrite <- !app_assoc. field. by rewrite !le_get_PutUint32, !le_get_PutUint64.
Qed.

Lemma decodeDeltaEntry_ok src : bytes_ok src → (56 ≤ length src)%nat → delta_ok (decodeDeltaEntry src).
Proof.
  intros Hb Hl. unfold decodeDeltaEntry. constructor; cbn.
  - constructor; [apply length_sub; lia|auto with bytes].
  - apply le_get_u64; [auto with bytes|apply length_sub; lia].
  - apply le_get_u32; [auto with bytes|apply length_sub; lia].
  - apply le_get_u64; [auto with bytes|apply length_sub; lia].
  - apply le_get_u32; [auto with bytes|apply length_sub; lia].
Qed.

Lemma encode_decode_delta src :
  bytes_ok src → (56 ≤ length src)%nat → EncodeDeltaEntry (decodeDeltaEntry src) = take 56 src.
Proof.
  intros Hb Hl. unfold EncodeDeltaEntry, decodeDeltaEntry; cbn [de_StrongHash de_WeakHash de_PackNumber de_StoreOffset de_ChunkLength].
  rewrite !PutUint32_le_get, !PutUint64_le_get by (auto with bytes || (apply length_sub; lia)).
  unfold sub. rewrite drop_0.
  change 56%nat with (32 + 8 + 4 + 8 + 4)%nat. by rewrite !take_add_drop, <- !app_assoc.
Qed.

(** ** The payload *)

Lemma length_deltaPayload es : Forall delta_ok es → length (deltaPayload es) = (56 * length es)%nat.
Proof.
  unfold deltaPayload. induction 1 as [|e es He Hes IH]; [done|].
  pose proof (length_EncodeDeltaEntry e He). cbn. rewrite length_app, IH. lia.
Qed.

Lemma bytes_ok_deltaPayload es : Forall delta_ok es → bytes_ok (deltaPayload es).
Proof.
  unfold deltaPayload. induction 1 as [|e es He Hes IH]; [constructor|]. cbn.
  apply bytes_ok_app. split; [by apply bytes_ok_EncodeDeltaEntry|done].
Qed.

Lemma decodeDeltas_payload es :
  Forall delta_ok es → decodeDeltas (length es) (deltaPayload es) = es.
Proof.
  unfold deltaPayload. induction 1 as [|e es He Hes IH]; [done|]. cbn [length decodeDeltas fmap list_fmap concat].
  rewrite decode_encode_delta by done. rewrite drop_app_exact by (by rewrite length_EncodeDeltaEntry).
  by rewrite IH.
Qed.

Lemma decodeDeltas_inv n : ∀ payload,
  bytes_ok payload → length payload = (56 * n)%nat →
  Forall delta_ok (decodeDeltas n payload) ∧ deltaPayload (decodeDeltas n payload) = payload ∧
  length (decodeDeltas n payload) = n.
Proof.
  induction n as [|n IH]; intros payload Hb Hl; cbn [decodeDeltas].
  - split_and!; [done| |done]. by destruct payload.
  - destruct (IH (drop 56 payload)) as (Hok & Hp & Hn); [auto with bytes|len|].
    split_and!; [constructor; [apply decodeDeltaEntry_ok; [done|lia]|done]| |cbn; lia].
    unfold deltaPayload in *. cbn [fmap list_fmap concat].
    rewrite encode_decode_delta by (done || lia). rewrite Hp. apply take_drop.
Qed.

(** ** The header *)

Lemma length_DeltaHeader c s : length s = 32%nat → length (DeltaHeader c s) = 64%nat.
Proof. intros Hs. unfold DeltaHeader. len. Qed.

Lemma header_fields c s payload :
  is_u64 c → length s = 32%nat →
  let data := DeltaHeader c s ++ payload in
  sub data 0 6 = deltaMagic ∧ le_get (sub data 6 2) = 1 ∧ deltaCount data = c ∧ deltaSum data = s ∧
  drop 64 data = payload.
Proof.
  intros Hc Hs data. unfold data, deltaCount, deltaSum. split_and!;
    [..|by rewrite drop_app_exact by (by rewrite length_DeltaHeader)];
    unfold DeltaHeader; rewrite <- !app_assoc; assert (length deltaMagic = 6%nat) as Hm by done; field.
  - done.
  - by rewrite le_get_PutUint16 by done.
  - by rewrite le_get_PutUint64.
  - done.
Qed.

(** [deltaCheck] accepts exactly this. *)
Lemma deltaCheck_inv data count payload :
  deltaCheck data = Ok (count, payload) →
  64 ≤ len data ∧ sub data 0 6 = deltaMagic ∧ le_get (sub data 6 2) = 1 ∧ count = deltaCount data ∧
  payload = drop 64 data ∧ u64 (len payload) = u64 (count * 56) ∧ Sum256 payload = deltaSum data.
Proof.
  unfold deltaCheck, DeltaHeaderSize, DeltaVersion, DeltaEntrySize.
  destruct (Z.ltb_spec (len data) 64); cbn [orb]; [done|].
  case_bool_decide; cbn [negb]; [|done].
  destruct (Z.eqb_spec (le_get (sub data 6 2)) 1); cbn [negb]; [|done].
  destruct (Z.eqb_spec (u64 (len (drop 64 data))) (u64 (deltaCount data * 56))); cbn [negb]; [|done].
  case_bool_decide; cbn [negb]; [|done]. intros [= <- <-]. by split_and!.
Qed.

Lemma deltaCheck_ok data :
  64 ≤ len data → sub data 0 6 = deltaMagic → le_get (sub data 6 2) = 1 →
  u64 (len (drop 64 data)) = u64 (deltaCount data * 56) → Sum256 (drop 64 data) = deltaSum data →
  deltaCheck data = Ok (deltaCount data, drop 64 data).
Proof.
  intros H1 H2 H3 H4 H5. unfold deltaCheck, DeltaHeaderSize, DeltaVersion, DeltaEntrySize.
  rewrite (proj2 (Z.ltb_ge _ _)) by done. rewrite bool_decide_true by done. cbn [orb negb].
  rewrite H3. cbn [Z.eqb Pos.eqb negb]. rewrite H4, Z.eqb_refl. cbn [negb]. by rewrite bool_decide_true.
Qed.

(** Without the panic, the declared count is the number of records. *)
Lemma count_exact (count : Z) (payload : bytes) :
  0 ≤ count → count * 64 < 2 ^ 63 → len payload < 2 ^ 63 →
  u64 (len payload) = u64 (count * 56) → len payload = count * 56.
Proof. intros Hc Hm Hl. rewrite !u64_id by (split; lia). done. Qed.

Lemma deltaCount_nonneg hdr : bytes_ok hdr → 0 ≤ deltaCount hdr.
Proof. intros Hb. unfold deltaCount. apply le_get_bound. auto with bytes. Qed.

Lemma ParseDelta_inv data es :
  bytes_ok data → len data < 2 ^ 63 → ParseDelta data = Ok es →
  deltaCheck data = Ok (len es, deltaPayload es) ∧ Forall delta_ok es ∧ len es * 64 < 2 ^ 63 ∧
  drop 64 data = deltaPayload es.
Proof.
  intros Hb Hl Hp. unfold ParseDelta in Hp. apply rbind_Ok_inv in Hp as ([count payload] & Hc & Hp).
  destruct (Z.leb_spec (2 ^ 63) (count * 64)); [done|]. simplify_eq.
  pose proof (deltaCheck_inv _ _ _ Hc) as (H64 & _ & _ & -> & -> & Hu & _).
  pose proof (deltaCount_nonneg data Hb) as H0.
  assert (Hlen : len (drop 64 data) = deltaCount data * 56)
    by (apply count_exact; [done..|rewrite length_drop; lia|done]).
  destruct (decodeDeltas_inv (Z.to_nat (deltaCount data)) (drop 64 data)) as (Hok & Hpl & Hn);
    [auto with bytes|lia|].
  rewrite Hpl, Hn, Z2Nat.id by done. by split_and!.
Qed.

Lemma ReadAt_header data : 64 ≤ len data → ReadAt data 0 64 = Some (take 64 data).
Proof. intros. by rewrite ReadAt_Some by lia. Qed.

Lemma sub_take64 data off n : (off + n ≤ 64)%nat → sub (take 64 data) off n = sub data off n.
Proof. intros. unfold sub. rewrite skipn_firstn_comm, firstn_firstn. f_equal. lia. Qed.

Lemma deltaFileCheck_ok data count payload :
  deltaCheck data = Ok (count, payload) → len payload = count * 56 → len data < 2 ^ 63 →
  deltaFileCheck data = Ok count.
Proof.
  intros (H64 & Hm & Hv & -> & -> & Hu & _)%deltaCheck_inv Hlen Hl.
  unfold deltaFileCheck, DeltaHeaderSize, DeltaVersion, DeltaEntrySize, deltaCount in *.
  rewrite ReadAt_header by done. cbn [of_option rbind]. rewrite !sub_take64 by lia.
  rewrite bool_decide_true by done. cbn [negb]. rewrite Hv. cbn [Z.eqb Pos.eqb negb].
  rewrite length_drop in *. rewrite (u64_id (le_get _ * 56)) by (split; lia).
  rewrite (proj2 (Z.eqb_eq _ _)); [done|]. f_equal. lia.
Qed.

Lemma streamLoop_payload es : ∀ i fuel,
  Forall delta_ok es → (length es ≤ fuel)%nat →
  streamLoop i (i + len es) (deltaPayload es) fuel = (es, None).
Proof.
  induction es as [|e es IH]; intros i fuel Hok Hf.
  - destruct fuel; cbn [streamLoop length]; by rewrite (proj2 (Z.ltb_ge _ _)) by lia.
  - apply Forall_cons in Hok as [He Hok]. pose proof (length_EncodeDeltaEntry e He) as Hle.
    destruct fuel as [|fuel]; [cbn in Hf; lia|]. cbn [streamLoop].
    rewrite (proj2 (Z.ltb_lt _ _)) by (cbn; lia).
    unfold deltaPayload. cbn [fmap list_fmap concat]. rewrite (proj2 (Z.ltb_ge _ _)).
    2:{ unfold DeltaEntrySize. rewrite length_app. lia. }
    rewrite drop_app_exact by done. rewrite decode_encode_delta by done.
    replace (i + len (e :: es)) with (i + 1 + len es) by (cbn [length]; lia).
    change (concat (EncodeDeltaEntry <$> es)) with (deltaPayload es).
    rewrite IH by (done || (cbn in Hf; lia)). done.
Qed.

(** The 48 header bytes before the reserved ones are determined by the fields. *)
Lemma header_bytes data c s :
  bytes_ok data → 64 ≤ len data → sub data 0 6 = deltaMagic → le_get (sub data 6 2) = 1 →
  c = deltaCount data → s = deltaSum data → take 48 data = take 48 (DeltaHeader c s).
Proof.
  intros Hb Hl Hm Hv -> ->. unfold DeltaHeader. rewrite <- Hm.
  replace DeltaVersion with (le_get (sub data 6 2)) by done. unfold deltaCount, deltaSum.
  rewrite PutUint16_le_get, PutUint64_le_get by (auto with bytes || (apply length_sub; lia)).
  rewrite !app_assoc, take_app_exact by (rewrite !length_app, !length_sub by lia; done).
  unfold sub. rewrite drop_0.
  change 48%nat with (6 + 2 + 8 + 32)%nat. by rewrite !take_add_drop.
Qed.

(** ** Pack numbers *)

Lemma firstSeen_spec ns : ∀ seen,
  NoDup (firstSeen seen ns) ∧ ∀ n, n ∈ firstSeen seen ns ↔ n ∈ ns ∧ n ∉ seen.
Proof.
  induction ns as [|n ns IH]; intros seen; cbn [firstSeen].
  - split; [constructor|]. intros n. rewrite elem_of_nil. tauto.
  - case_decide as Hn.
    + destruct (IH seen) as [Hnd Hin]. split; [done|]. intros k. rewrite Hin, elem_of_cons.
      split; [tauto|]. intros [[->|?] ?]; tauto.
    + destruct (IH ({[n]} ∪ seen)) as [Hnd Hin]. split.
      * constructor; [|done]. rewrite Hin. set_solver.
      * intros k. rewrite !elem_of_cons, Hin. destruct (decide (k = n)) as [->|]; set_solver.
Qed.

Lemma sink_perm x rev : sink x rev ≡ₚ x :: rev.
Proof.
  induction rev as [|y rev IH]; [done|]. cbn [sink]. destruct (x <? y); [|done].
  rewrite IH. apply Permutation_swap.
Qed.

Lemma sink_sorted x rev : StronglySorted Z.ge rev → StronglySorted Z.ge (sink x rev).
Proof.
  induction 1 as [|y rev Hs IH Hy]; cbn [sink]; [repeat constructor|].
  destruct (Z.ltb_spec x y).
  - constructor; [done|]. rewrite sink_perm. constructor; [lia|done].
  - constructor; [by constructor|]. constructor; [lia|]. eapply Forall_impl; [done|]. intros. lia.
Qed.

Lemma sortU32Asc_fold s : ∀ rev,
  StronglySorted Z.ge rev →
  foldl (λ rev x, sink x rev) rev s ≡ₚ s ++ rev ∧ StronglySorted Z.ge (foldl (λ rev x, sink x rev) rev s).
Proof.
  induction s as [|x s IH]; intros rev Hs; [done|]. cbn [foldl].
  destruct (IH (sink x rev) (sink_sorted x rev Hs)) as [Hp Hs']. split; [|done].
  rewrite Hp, sink_perm. cbn. by rewrite Permutation_middle.
Qed.

Lemma sortU32Asc_spec s : sortU32Asc s ≡ₚ s ∧ StronglySorted Z.le (sortU32Asc s).
Proof.
  destruct (sortU32Asc_fold s [] ltac:(constructor)) as [Hp Hs]. unfold sortU32Asc. split.
  - by rewrite reverse_Permutation, Hp, app_nil_r.
  - apply StronglySorted_reverse in Hs. clear Hp. induction Hs; constructor; [done|].
    eapply Forall_impl; [done|]. unfold flip. intros; lia.
Qed.

(** ** Marshalled objects *)

Lemma Marshal_readers (es : list DeltaEntry) :
  Forall delta_ok es → len es < 2 ^ 57 →
  ParseDelta (Marshal es) = Ok es ∧ ForEachDeltaEntry (Marshal es) = Ok es ∧
  ValidateDeltaFile (Marshal es) = Ok tt ∧ DeltaEntryCount (Marshal es) = Ok (len es) ∧
  streamDeltaRecords (Marshal es) = (es, None).
Proof.
  intros Hok Hn. pose proof (length_deltaPayload es Hok) as Hpl.
  assert (is_u64 (len es)) as Hu by (split; lia).
  destruct (header_fields (len es) (Sum256 (deltaPayload es)) (deltaPayload es) Hu (length_Sum256 _))
    as (Hm & Hv & Hc & Hs & Hd).
  assert (Hlen : len (Marshal es) = 64 + 56 * len es).
  { unfold Marshal. rewrite length_app, length_DeltaHeader by len. lia. }
  unfold Marshal in *. rewrite (u64_id _ Hu) in *. set (data := DeltaHeader _ _ ++ _) in *.
  assert (Hck : deltaCheck data = Ok (len es, deltaPayload es)).
  { rewrite <- Hc, <- Hd. apply deltaCheck_ok; rewrite ?Hd, ?Hc; try done; try lia.
    f_equal. lia. }
  assert (Hdec : decodeDeltas (Z.to_nat (len es)) (deltaPayload es) = es)
    by (rewrite Nat2Z.id; by apply decodeDeltas_payload).
  assert (Hfc : deltaFileCheck data = Ok (len es)) by (eapply deltaFileCheck_ok; [exact Hck|lia|lia]).
  split_and!.
  - unfold ParseDelta. rewrite Hck. cbn [rbind]. rewrite (proj2 (Z.leb_gt _ _)) by lia. by rewrite Hdec.
  - unfold ForEachDeltaEntry, DeltaEntrySize. rewrite Hck. cbn [rbind].
    replace (len (deltaPayload es)) with (len es * 56) by lia. rewrite Z.div_mul, Z.ltb_irrefl by lia.
    by rewrite Hdec.
  - unfold ValidateDeltaFile. rewrite Hfc. cbn [rbind]. rewrite Hd, Hs. by rewrite bool_decide_true.
  - unfold DeltaEntryCount. rewrite Hfc. cbn [rbind]. by rewrite i64_id by (split; lia).
  - unfold streamDeltaRecords. rewrite ReadAt_header by lia. rewrite Hd.
    replace (deltaCount (take 64 data)) with (0 + len es)
      by (unfold deltaCount in *; rewrite sub_take64 by lia; lia).
    apply streamLoop_payload; [done|]. lia.
Qed.

(** ** Properties *)

(** Encoding and every reader agree: a marshalled delta of valid entries is
    accepted by [ParseDelta], [ForEachDeltaEntry], [ValidateDeltaFile],
    [DeltaEntryCount] and the record stream, and each gives back exactly the
    entries (or their number). *)
Theorem delta_roundtrip (es : list DeltaEntry) :
  Forall delta_ok es → len es < 2 ^ 57 →
  ParseDelta (Marshal es) = Ok es ∧ ForEachDeltaEntry (Marshal es) = Ok es ∧
  ValidateDeltaFile (Marshal es) = Ok tt ∧ DeltaEntryCount (Marshal es) = Ok (len es) ∧
  streamDeltaRecords (Marshal es) = (es, None).
Proof. apply Marshal_readers. Qed.

Definition example_delta (b p : Z) : DeltaEntry := mkDelta (example_hash b) (7 * b) p 4096 512.

Lemma delta_roundtrip_witness :
  ParseDelta (Marshal [example_delta 1 3; example_delta 2 3]) = Ok [example_delta 1 3; example_delta 2 3] ∧
  ForEachDeltaEntry (Marshal [example_delta 1 3; example_delta 2 3]) =
    Ok [example_delta 1 3; example_delta 2 3] ∧
  ValidateDeltaFile (Marshal [example_delta 1 3; example_delta 2 3]) = Ok tt ∧
  DeltaEntryCount (Marshal [example_delta 1 3; example_delta 2 3]) =
    Ok (len [example_delta 1 3; example_delta 2 3]) ∧
  streamDeltaRecords (Marshal [example_delta 1 3; example_delta 2 3]) =
    ([example_delta 1 3; example_delta 2 3], None).
Proof.
  apply delta_roundtrip; [|reflexivity]. by_eval.
Defined.

(** Self-checking: an object [ParseDelta] accepts decodes to valid entries
    and is, byte for byte outside the 16 reserved header bytes, the marshalling
    of those entries; every other reader accepts it too and sees the same
    entries. *)
Theorem delta_accepted_is_marshalled (data : bytes) (es : list DeltaEntry) :
  bytes_ok data → len data < 2 ^ 63 → ParseDelta data = Ok es →
  Forall delta_ok es ∧ take 48 data = take 48 (Marshal es) ∧ drop 64 data = drop 64 (Marshal es) ∧
  ForEachDeltaEntry data = Ok es ∧ ValidateDeltaFile data = Ok tt ∧
  DeltaEntryCount data = Ok (len es) ∧ streamDeltaRecords data = (es, None).
Proof.
  intros Hb Hl Hp. destruct (ParseDelta_inv data es Hb Hl Hp) as (Hck & Hok & Hsmall & Hd).
  pose proof (deltaCheck_inv _ _ _ Hck) as (H64 & Hm & Hv & Hc & _ & _ & Hs).
  pose proof (length_deltaPayload es Hok) as Hpl.
  assert (is_u64 (len es)) as Hu by (split; lia).
  assert (Hfc : deltaFileCheck data = Ok (len es)) by (eapply deltaFileCheck_ok; [exact Hck|lia|lia]).
  assert (Hdec : decodeDeltas (Z.to_nat (len es)) (deltaPayload es) = es)
    by (rewrite Nat2Z.id; by apply decodeDeltas_payload).
  split_and!; [done| | |..].
  - unfold Marshal. rewrite u64_id by done. rewrite take_app_le by (rewrite length_DeltaHeader by len; lia).
    apply header_bytes; try done.
  - unfold Marshal. rewrite Hd. by rewrite drop_app_exact by (by rewrite length_DeltaHeader by len).
  - unfold ForEachDeltaEntry, DeltaEntrySize. rewrite Hck. cbn [rbind].
    replace (len (deltaPayload es)) with (len es * 56) by lia. rewrite Z.div_mul, Z.ltb_irrefl by lia.
    by rewrite Hdec.
  - unfold ValidateDeltaFile. rewrite Hfc. cbn [rbind]. rewrite Hd, Hs. by rewrite bool_decide_true.
  - unfold DeltaEntryCount. rewrite Hfc. cbn [rbind]. by rewrite i64_id by (split; lia).
  - unfold streamDeltaRecords. rewrite ReadAt_header by lia. rewrite Hd.
    replace (deltaCount (take 64 data)) with (0 + len es)
      by (unfold deltaCount in *; rewrite sub_take64 by lia; lia).
    apply streamLoop_payload; [done|]. rewrite <- Hd, length_drop in Hpl. lia.
Qed.

Lemma delta_accepted_is_marshalled_witness :
  Forall delta_ok [example_delta 5 2] ∧
  take 48 (Marshal [example_delta 5 2]) = take 48 (Marshal [example_delta 5 2]) ∧
  drop 64 (Marshal [example_delta 5 2]) = drop 64 (Marshal [example_delta 5 2]) ∧
  ForEachDeltaEntry (Marshal [example_delta 5 2]) = Ok [example_delta 5 2] ∧
  ValidateDeltaFile (Marshal [example_delta 5 2]) = Ok tt ∧
  DeltaEntryCount (Marshal [example_delta 5 2]) = Ok (len [example_delta 5 2]) ∧
  streamDeltaRecords (Marshal [example_delta 5 2]) = ([example_delta 5 2], None).
Proof.
  apply delta_accepted_is_marshalled.
  - by_eval.
  - vm_compute. reflexivity.
  - vm_compute. reflexivity.
Defined.

(** The size check multiplies the declared count by 56 modulo 2^64: a bare
    header that declares 2^61 entries passes magic, version, size and checksum
    ([ValidateDeltaFile] accepts it), and [ParseDelta] and [ForEachDeltaEntry]
    then panic instead of refusing it, while the record stream reports it
    truncated. *)
Theorem delta_count_overflow :
  let data := DeltaHeader (2 ^ 61) (Sum256 []) in
  ValidateDeltaFile data = Ok tt ∧ ParseDelta data = Err DeltaPanic ∧
  ForEachDeltaEntry data = Err DeltaPanic ∧ streamDeltaRecords data = ([], Some DeltaTruncated).
Proof. split_and!; vm_compute; reflexivity. Qed.

(** [PackNumbers] is the ascending list of the distinct pack numbers of the
    entries. *)
Theorem pack_numbers_exact (es : list DeltaEntry) :
  StronglySorted Z.le (PackNumbers es) ∧ NoDup (PackNumbers es) ∧
  ∀ n, n ∈ PackNumbers es ↔ ∃ e, e ∈ es ∧ de_PackNumber e = n.
Proof.
  unfold PackNumbers. destruct (sortU32Asc_spec (firstSeen ∅ (de_PackNumber <$> es))) as [Hp Hs].
  destruct (firstSeen_spec (de_PackNumber <$> es) ∅) as [Hnd Hin].
  split_and!; [done|by rewrite Hp|]. intros n. rewrite Hp, Hin, list_elem_of_fmap. set_solver.
Qed.
