(* ===== verification/Fold.v ===== *)
(** * core/index/foldstream.go: folding deltas into the sorted index

    The streaming fold: delta records fill a slab of bounded size; each full
    slab is sorted by (hash, sequence) and merged with the sorted base, run by
    equal-prefix run, in one pass.  The base reader with its one-record
    look-ahead, the pass, the budgeted driver, and the pack filter of the
    garbage collector.

    The fold refines the plain meaning of deltas, inserts in order, whatever
    the budget: a pass boundary may fall anywhere. *)

From S2P Require Import Prelude GoBytes GoRuntime HashTable HashBuild HashIndex Delta Bloom.

Definition foldRecSize : Z := EntrySize + 8.

Inductive fold_err := FoldTruncated | FoldDelta (e : delta_err) | FoldBloom (e : bloom_err) | FoldPanic.

(** ** The slab's order *)

(** [bytes.Compare] *)
Fixpoint bytesCompare (a b : bytes) : comparison :=
  match a, b with
  | [], [] => Eq
  | [], _ :: _ => Lt
  | _ :: _, [] => Gt
  | x :: a, y :: b => match Z.compare x y with Eq => bytesCompare a b | c => c end
  end.

Definition foldLess (a b : record) : bool :=
  match bytesCompare (take 32 a) (take 32 b) with
  | Lt => true
  | Gt => false
  | Eq => le_get (sub a 48 8) <? le_get (sub b 48 8)
  end.

(** The same order as one key: the hash as a number, then the sequence. *)
Definition foldKey (r : record) : Z := be_get (take 32 r) * 2 ^ 64 + le_get (sub r 48 8).

(** ** The base reader *)

Record baseReader := mkReader { br_rest : bytes; br_peeked : option record }.

Definition readOne (r : baseReader) : result fold_err (option record * baseReader) :=
  match br_peeked r with
  | Some e => Ok (Some e, mkReader (br_rest r) None)
  | None =>
      if decide (br_rest r = []) then Ok (None, r)
      else if len (br_rest r) <? EntrySize then Err FoldTruncated
      else Ok (Some (take 48 (br_rest r)), mkReader (drop 48 (br_rest r)) None)
  end.

Definition recPrefix (r : record) : Z := be_get (sub r 0 8).

Record baseRun := mkRun { run_prefix : Z; run_entries : list record }.

(** The inner loop of [nextRun]; [fuel] bounds the records left. *)
Fixpoint runLoop (prefix : Z) (acc : list record) (r : baseReader) (fuel : nat)
    : result fold_err (list record * baseReader) :=
  match fuel with
  | O => Ok (acc, r)
  | S fuel =>
      let! ' (o, r') := readOne r in
      match o with
      | None => Ok (acc, r')
      | Some e =>
          if negb (recPrefix e =? prefix) then Ok (acc, mkReader (br_rest r') (Some e))
          else runLoop prefix (acc ++ [e]) r' fuel
      end
  end.

Definition nextRun (r : baseReader) : result fold_err (option baseRun * baseReader) :=
  let! ' (o, r') := readOne r in
  match o with
  | None => Ok (None, r')
  | Some first =>
      let! ' (es, r'') := runLoop (recPrefix first) [first] r' (S (length (br_rest r'))) in
      Ok (Some (mkRun (recPrefix first) es), r'')
  end.

(** ** One pass *)

(** The last record of the group of [start]'s hash, and what follows it. *)
Fixpoint lastOfGroup (start cur : record) (recs : list record) : record * list record :=
  match recs with
  | r :: recs' => if bool_decide (take 32 r = take 32 start) then lastOfGroup start r recs' else (cur, recs)
  | [] => (cur, [])
  end.

(** The winners among the slab records of prefix [p]; [fuel] bounds the
    records left. *)
Fixpoint deltaWins (p : Z) (recs : list record) (fuel : nat) : list record * list record :=
  match fuel, recs with
  | S fuel, r :: recs' =>
      if recPrefix r =? p then
        let '(w, recs'') := lastOfGroup r r recs' in
        let '(ws, rest) := deltaWins p recs'' fuel in
        (take 48 w :: ws, rest)
      else ([], recs)
  | _, _ => ([], recs)
  end.

Definition overridden (wins : list record) (be : record) : bool :=
  existsb (λ dw, bool_decide (take 32 be = take 32 dw)) wins.

(** The [switch] that picks the prefix of the round. *)
Definition leastPrefix (run : option baseRun) (recs : list record) : Z :=
  match run, recs with
  | None, d :: _ => recPrefix d
  | Some b, [] => run_prefix b
  | Some b, d :: _ => if recPrefix d <? run_prefix b then recPrefix d else run_prefix b
  | None, [] => 0
  end.

(** [for baseRun != nil || di < nRecs]: every round consumes a run or a slab
    record. *)
Fixpoint mergeLoop (run : option baseRun) (r : baseReader) (recs : list record) (out : list record)
    (fuel : nat) : result fold_err (list record) :=
  match fuel with
  | O => Ok out
  | S fuel =>
      match run, recs with
      | None, [] => Ok out
      | _, _ =>
          let p := leastPrefix run recs in
          let '(wins, recs') := deltaWins p recs (length recs) in
          match run with
          | Some b =>
              if run_prefix b =? p then
                let! ' (run', r') := nextRun r in
                mergeLoop run' r' recs'
                  (out ++ filter (λ be, overridden wins be = false) (run_entries b) ++ wins) fuel
              else mergeLoop run r recs' (out ++ wins) fuel
          | None => mergeLoop None r recs' (out ++ wins) fuel
          end
      end
  end.

Section fold.
Context {SS : SortSlice}.

Definition mergePass (base : bytes) (slab : list record) : result fold_err bytes :=
  let slab := sortSlice foldKey slab in
  let! ' (run, r) := nextRun (mkReader base None) in
  let! out := mergeLoop run r slab [] (S (length base + length slab)) in
  Ok (concat out).

(** ** The driver

    A pass that completed stays on disk when a later step fails, so the steps
    return their state beside the error. *)

Record fold_state := mkFold {
  fs_base : option bytes;            (* hash-index.db *)
  fs_bloom : BloomFilter;
  fs_slab : list record;
  fs_total : Z;
  fs_seq : Z }.

Definition flushPass (st : fold_state) : fold_state * option fold_err :=
  if decide (fs_slab st = []) then (st, None)
  else match mergePass (default [] (fs_base st)) (fs_slab st) with
       | Err e => (st, Some e)
       | Ok base => (mkFold (Some base) (fs_bloom st) [] (fs_total st) (fs_seq st), None)
       end.

Definition foldRec (e : DeltaEntry) (seq : Z) : record :=
  encodeEntry (mkEntry (de_StrongHash e) (de_PackNumber e) (de_StoreOffset e) (de_ChunkLength e))
  ++ PutUint64 seq.

Definition slabAppend (st : fold_state) (e : DeltaEntry) : fold_state :=
  mkFold (fs_base st) (fs_bloom st) (fs_slab st ++ [foldRec e (fs_seq st)])
    (fs_total st + 1) (u64 (fs_seq st + 1)).

(** The callback on each streamed record. *)
Definition foldEntry (budget : Z) (st : fold_state) (e : DeltaEntry) : fold_state * option fold_err :=
  match Add (fs_bloom st) (de_WeakHash e) with
  | None => (st, Some FoldPanic)
  | Some bloom =>
      let st := mkFold (fs_base st) bloom (fs_slab st) (fs_total st) (fs_seq st) in
      if budget <? len (fs_slab st) * foldRecSize + foldRecSize then
        match flushPass st with
        | (st, Some err) => (st, Some err)
        | (st, None) => (slabAppend st e, None)
        end
      else (slabAppend st e, None)
  end.

Fixpoint foldEntries (budget : Z) (st : fold_state) (es : list DeltaEntry) : fold_state * option fold_err :=
  match es with
  | [] => (st, None)
  | e :: es =>
      match foldEntry budget st e with
      | (st, Some err) => (st, Some err)
      | (st, None) => foldEntries budget st es
      end
  end.

Fixpoint foldFiles (budget : Z) (st : fold_state) (files : list bytes) : fold_state * option fold_err :=
  match files with
  | [] => (st, None)
  | f :: files =>
      let '(es, err) := streamDeltaRecords f in
      match foldEntries budget st es, err with
      | (st, Some e), _ => (st, Some e)
      | (st, None), Some e => (st, Some (FoldDelta e))
      | (st, None), None => foldFiles budget st files
      end
  end.

Fixpoint validateAll (files : list bytes) : option fold_err :=
  match files with
  | [] => None
  | f :: files =>
      match ValidateDeltaFile f with
      | Err e => Some (FoldDelta e)
      | Ok _ => validateAll files
      end
  end.

Definition DefaultFoldBatchBudget : Z := Z.shiftl 32 20.

(** The two index files of the directory, absent as [None], and the result. *)
Record fold_out := mkOut { fo_base : option bytes; fo_bloom : option bytes; fo_total : Z; fo_err : option fold_err }.

Definition openBloom (bloom : option bytes) (raw : Z) : result fold_err BloomFilter :=
  match bloom with
  | Some b => match LoadBloomFilter b with Ok bf => Ok bf | Err e => Err (FoldBloom e) end
  | None => Ok (NewBloomFilter raw)
  end.

(** [files] are the ".delta" objects in name order; [raw] sizes a fresh filter. *)
Definition FoldDeltasStreamedWithBudget (base bloom : option bytes) (files : list bytes)
    (raw batchBudget : Z) : fold_out :=
  match openBloom bloom raw with
  | Err e => mkOut base bloom 0 (Some e)
  | Ok bf =>
      match validateAll files with
      | Some e => mkOut base bloom 0 (Some e)
      | None =>
          let budget := if batchBudget <=? 0 then DefaultFoldBatchBudget else batchBudget in
          match foldFiles budget (mkFold base bf [] 0 0) files with
          | (st, Some e) => mkOut (fs_base st) bloom (fs_total st) (Some e)
          | (st, None) =>
              match flushPass st with
              | (st, Some e) => mkOut (fs_base st) bloom (fs_total st) (Some e)
              | (st, None) => mkOut (fs_base st) (Some (Save (fs_bloom st))) (fs_total st) None
              end
          end
      end
  end.
End fold.

(** ** The garbage collector's filter *)

Fixpoint filterLoop (keep : Z → bool) (f : bytes) (fuel : nat) : result fold_err bytes :=
  match fuel with
  | O => Ok []
  | S fuel =>
      if decide (f = []) then Ok []
      else if len f <? EntrySize then Err FoldTruncated
      else
        let buf := take 48 f in
        let! rest := filterLoop keep (drop 48 f) fuel in
        Ok (if keep (le_get (sub buf 32 4)) then buf ++ rest else rest)
  end.

(** The rewritten file; an error leaves the old one in place. *)
Definition FilterSortedIndex (f : bytes) (keep : Z → bool) : result fold_err bytes :=
  filterLoop keep f (S (length f)).

(** ** The order *)

Lemma le_get_app a b : le_get (a ++ b) = le_get a + 256 ^ len a * le_get b.
Proof.
  induction a as [|x a IH]; [cbn; lia|]. cbn [app le_get length]. rewrite IH, Nat2Z.inj_succ, Z.pow_succ_r by lia. lia.
Qed.

Lemma be_get_cons x l : be_get (x :: l) = x * 256 ^ len l + be_get l.
Proof. unfold be_get. rewrite reverse_cons, le_get_app, length_reverse. cbn. lia. Qed.

Lemma be_get_bound l : bytes_ok l → 0 ≤ be_get l < 256 ^ len l.
Proof.
  intros Hb. unfold be_get. rewrite <- length_reverse. apply le_get_bound. by apply Forall_reverse.
Qed.

Lemma be_get_inj a b : bytes_ok a → bytes_ok b → length a = length b → be_get a = be_get b → a = b.
Proof.
  intros Ha Hb Hl Heq. apply (inj reverse). apply le_get_inj; [by apply Forall_reverse..| |exact Heq].
  by rewrite !length_reverse.
Qed.

(** On strings of one length, [bytes.Compare] is the order of the big-endian numbers. *)
Lemma bytesCompare_be a : ∀ b,
  length a = length b → bytes_ok a → bytes_ok b → bytesCompare a b = Z.compare (be_get a) (be_get b).
Proof.
  induction a as [|x a IH]; intros [|y b] Hl Ha Hb; try done.
  apply Forall_cons in Ha as [Hx Ha]. apply Forall_cons in Hb as [Hy Hb]. injection Hl as Hl.
  cbn [bytesCompare]. rewrite !be_get_cons, <- Hl.
  pose proof (be_get_bound a Ha). pose proof (be_get_bound b Hb). rewrite <- Hl in *.
  destruct (Z.compare_spec x y) as [->|Hlt|Hgt].
  - rewrite IH by done. symmetry. apply Z.add_compare_mono_l.
  - symmetry. apply Z.compare_lt_iff. nia.
  - symmetry. apply Z.compare_gt_iff. nia.
Qed.

(** A slab record: an index record and its sequence number. *)
Record srec_ok (r : record) : Prop := {
  srec_len : length r = 56%nat;
  srec_bytes : bytes_ok r;
  srec_nonzero : rec_hash r ≠ zeroHash }.

(** The sort's key is the source's order. *)
Lemma foldLess_key a b : srec_ok a → srec_ok b → foldLess a b = (foldKey a <? foldKey b).
Proof.
  intros [La Ba _] [Lb Bb _]. unfold foldLess, foldKey.
  assert (Hs : ∀ r, length r = 56%nat → bytes_ok r → is_u64 (le_get (sub r 48 8)))
    by (intros; apply le_get_u64; [auto with bytes|apply length_sub; lia]).
  pose proof (Hs a La Ba). pose proof (Hs b Lb Bb). unfold is_u64 in *.
  rewrite bytesCompare_be by (auto with bytes || len).
  destruct (Z.compare_spec (be_get (take 32 a)) (be_get (take 32 b))) as [->|?|?].
  - destruct (Z.ltb_spec (le_get (sub a 48 8)) (le_get (sub b 48 8))); symmetry; [apply Z.ltb_lt|apply Z.ltb_ge]; lia.
  - symmetry. apply Z.ltb_lt. lia.
  - symmetry. apply Z.ltb_ge. lia.
Qed.

Definition hashNum (r : record) : Z := be_get (rec_hash r).

Lemma hashNum_inj a b :
  bytes_ok a → bytes_ok b → (32 ≤ length a)%nat → (32 ≤ length b)%nat → hashNum a = hashNum b → rec_hash a = rec_hash b.
Proof. intros. apply be_get_inj; [unfold rec_hash; auto with bytes..| |done]. unfold rec_hash. len. Qed.

Lemma sub_take_inside l n off k : (off + k ≤ n)%nat → sub (take n l) off k = sub l off k.
Proof. intros. unfold sub. rewrite skipn_firstn_comm, firstn_firstn. f_equal. lia. Qed.

Lemma recPrefix_hashNum r :
  bytes_ok r → (32 ≤ length r)%nat → recPrefix r = hashNum r / 256 ^ 24.
Proof.
  intros Hb Hl. unfold recPrefix, hashNum, rec_hash.
  rewrite <- (sub_take_inside r 32 0 8) by lia.
  set (h := take 32 r). assert (length h = 32%nat) as Hh by (unfold h; len).
  assert (bytes_ok h) as Hbh by (unfold h; auto with bytes).
  unfold sub. rewrite drop_0. rewrite <- (take_drop 8 h) at 2.
  assert (∀ a b, be_get (a ++ b) = be_get a * 256 ^ len b + be_get b) as Happ.
  { intros a b. unfold be_get. rewrite reverse_app, le_get_app, length_reverse. lia. }
  rewrite Happ. pose proof (be_get_bound (drop 8 h) ltac:(auto with bytes)) as Hd.
  rewrite length_drop, Hh in *. change (Z.of_nat (32 - 8)) with 24 in *.
  rewrite Z.div_add_l by done. rewrite Z.div_small by done. lia.
Qed.

(** ** The base reader over a list of records *)

Definition rec48 (r : record) : Prop := length r = 48%nat.

Definition reading (r : baseReader) (bs : list record) : Prop :=
  match br_peeked r with
  | None => br_rest r = concat bs
  | Some e => ∃ bs', bs = e :: bs' ∧ br_rest r = concat bs'
  end.

Lemma readOne_spec r bs :
  reading r bs → Forall rec48 bs →
  match bs with
  | [] => readOne r = Ok (None, r)
  | e :: bs' => ∃ r', readOne r = Ok (Some e, r') ∧ reading r' bs' ∧ br_rest r' = concat bs'
  end.
Proof.
  intros Hr Hok. unfold reading, readOne in *. destruct (br_peeked r) as [e|].
  - destruct Hr as (bs' & -> & Hrest). eexists. by split_and!.
  - destruct bs as [|e bs']; [by rewrite decide_True by (by rewrite Hr)|].
    apply Forall_cons in Hok as [He _]. unfold rec48 in He. cbn [concat] in Hr. rewrite Hr.
    rewrite decide_False by (intros H; apply (f_equal length) in H; rewrite length_app in H; cbn in H; lia).
    rewrite (proj2 (Z.ltb_ge _ _)) by (unfold EntrySize; rewrite length_app; lia).
    rewrite take_app_exact, drop_app_exact by done. eexists. by split_and!.
Qed.

Lemma length_concat_rec48 bs : Forall rec48 bs → length (concat bs) = (48 * length bs)%nat.
Proof.
  induction 1 as [|e bs He Hbs IH]; [done|]. unfold rec48 in He. cbn [concat length]. rewrite length_app, IH. lia.
Qed.

(** A run stops before the first record of another prefix. *)
Definition run_ends (p : Z) (bs : list record) : Prop :=
  match bs with [] => True | e :: _ => recPrefix e ≠ p end.

Lemma runLoop_spec p bs : ∀ acc r fuel,
  reading r bs → Forall rec48 bs → (length bs < fuel)%nat →
  ∃ es rest r', runLoop p acc r fuel = Ok (acc ++ es, r') ∧ bs = es ++ rest ∧ reading r' rest ∧
    Forall (λ e, recPrefix e = p) es ∧ run_ends p rest.
Proof.
  induction bs as [|e bs IH]; intros acc r fuel Hr Hok Hf; (destruct fuel as [|fuel]; [cbn in Hf; lia|]);
    cbn [runLoop]; pose proof (readOne_spec _ _ Hr Hok) as Hone.
  - rewrite Hone. cbn [rbind]. exists [], [], r. rewrite app_nil_r. by split_and!.
  - destruct Hone as (r' & -> & Hr' & Hrest). cbn [rbind].
    destruct (Z.eqb_spec (recPrefix e) p) as [Hp|Hp]; cbn [negb].
    + apply Forall_cons in Hok as [_ Hok]. destruct (IH (acc ++ [e]) r' fuel Hr' Hok) as (es & rest & r2 & -> & -> & H2 & H3 & H4);
        [cbn in Hf; lia|].
      exists (e :: es), rest, r2. rewrite <- app_assoc. split_and!; try done. by constructor.
    + exists [], (e :: bs), (mkReader (br_rest r') (Some e)). rewrite app_nil_r. split_and!; try done.
      unfold reading. cbn. eauto.
Qed.

(** The current run and what the reader still holds. *)
Definition run_state (run : option baseRun) (r : baseReader) (bs : list record) : Prop :=
  match run with
  | None => bs = []
  | Some b => ∃ rest, bs = run_entries b ++ rest ∧ reading r rest ∧ run_entries b ≠ [] ∧
      Forall (λ e, recPrefix e = run_prefix b) (run_entries b) ∧ run_ends (run_prefix b) rest
  end.

Lemma nextRun_spec r bs :
  reading r bs → Forall rec48 bs → ∃ run r', nextRun r = Ok (run, r') ∧ run_state run r' bs.
Proof.
  intros Hr Hok. unfold nextRun. pose proof (readOne_spec _ _ Hr Hok) as Hone.
  destruct bs as [|e bs]; [rewrite Hone; cbn [rbind]; eexists _, _; by split|].
  destruct Hone as (r' & -> & Hr' & Hrest). cbn [rbind]. apply Forall_cons in Hok as [_ Hok].
  pose proof (length_concat_rec48 _ Hok) as Hlen.
  destruct (runLoop_spec (recPrefix e) bs [e] r' (S (length (br_rest r'))) Hr' Hok) as (es & rest & r2 & -> & -> & H2 & H3 & H4);
    [rewrite Hrest; lia|].
  cbn [rbind]. eexists _, _. split; [reflexivity|]. cbn. exists rest. split_and!; try done. by constructor.
Qed.

(** ** The winners of a sorted slab *)

(** A record wins when the next one has another hash. *)
Fixpoint winners (recs : list record) : list record :=
  match recs with
  | [] => []
  | r :: recs' =>
      match recs' with
      | r' :: _ => if bool_decide (rec_hash r' = rec_hash r) then winners recs' else take 48 r :: winners recs'
      | [] => [take 48 r]
      end
  end.

Lemma winners_cons2 r r' recs :
  winners (r :: r' :: recs) =
  if bool_decide (rec_hash r' = rec_hash r) then winners (r' :: recs) else take 48 r :: winners (r' :: recs).
Proof. reflexivity. Qed.

Lemma lastOfGroup_spec start recs : ∀ cur,
  rec_hash cur = rec_hash start →
  let '(w, rest) := lastOfGroup start cur recs in
  winners (cur :: recs) = take 48 w :: winners rest ∧ rec_hash w = rec_hash start ∧
  ∃ grp, recs = grp ++ rest ∧ Forall (λ r, rec_hash r = rec_hash start) grp.
Proof.
  induction recs as [|r recs IH]; intros cur Hc; cbn [lastOfGroup].
  - split_and!; [done..|]. by exists [].
  - change (take 32 r = take 32 start) with (rec_hash r = rec_hash start). cbn [winners]. case_bool_decide as Hr.
    + rewrite bool_decide_true by congruence. specialize (IH r Hr).
      destruct (lastOfGroup start r recs) as [w rest]. destruct IH as (IH & Hwh & grp & -> & Hg).
      split_and!; [exact IH|done|]. exists (r :: grp). split; [done|]. by constructor.
    + rewrite bool_decide_false by congruence. split_and!; [done..|]. by exists [].
Qed.

Lemma rec_hash_prefix a b : rec_hash a = rec_hash b → recPrefix a = recPrefix b.
Proof.
  intros H. unfold recPrefix. rewrite <- (sub_take_inside a 32), <- (sub_take_inside b 32) by lia.
  fold (rec_hash a). fold (rec_hash b). by rewrite H.
Qed.

Lemma deltaWins_spec p fuel : ∀ recs ws rest,
  (length recs ≤ fuel)%nat → deltaWins p recs fuel = (ws, rest) →
  winners recs = ws ++ winners rest ∧ run_ends p rest ∧ Forall (λ r, recPrefix r = p) ws ∧
  ∃ grp, recs = grp ++ rest ∧ Forall (λ r, recPrefix r = p) grp.
Proof.
  induction fuel as [|fuel IH]; intros recs ws rest Hf Heq.
  - destruct recs; [|cbn in Hf; lia]. cbn in Heq. simplify_eq. split_and!; try done. by exists [].
  - destruct recs as [|r recs]; cbn [deltaWins] in Heq.
    + simplify_eq. split_and!; try done. by exists [].
    + destruct (Z.eqb_spec (recPrefix r) p) as [Hp|Hp].
      2:{ simplify_eq. split_and!; try done. by exists []. }
      pose proof (lastOfGroup_spec r recs r eq_refl) as Hlast.
      destruct (lastOfGroup r r recs) as [w recs'']. destruct Hlast as (Hw & Hwh & grp & -> & Hg).
      destruct (deltaWins p recs'' fuel) as [ws' rest'] eqn:Hd. simplify_eq.
      apply IH in Hd as (Hw' & He & Hws & grp' & -> & Hg'); [|rewrite !length_cons, length_app in Hf; lia].
      split_and!; [by rewrite Hw, Hw'|done| |].
      { constructor; [|done]. rewrite <- (rec_hash_prefix _ _ Hwh).
        apply rec_hash_prefix. unfold rec_hash. by rewrite take_take. }
      exists (r :: grp ++ grp').
      split; [cbn; by rewrite <- app_assoc|]. constructor; [done|]. apply Forall_app. split; [|done].
      eapply Forall_impl; [exact Hg|]. intros x Hx. by rewrite <- (rec_hash_prefix _ _ Hx).
Qed.

Lemma winners_incl w recs : w ∈ winners recs → ∃ r, r ∈ recs ∧ w = take 48 r.
Proof.
  induction recs as [|r recs IH]; [by intros ?%elem_of_nil|]. cbn [winners].
  destruct recs as [|r' recs]; [intros ->%list_elem_of_singleton; exists r; split; [by left|done]|].
  case_bool_decide.
  - intros (x & Hx & ->)%IH. exists x. split; [by right|done].
  - intros [->|(x & Hx & ->)%IH]%elem_of_cons; [exists r|exists x]; (split; [|done]); [by left|by right].
Qed.

Lemma rec_hash_take48 r : rec_hash (take 48 r) = rec_hash r.
Proof. unfold rec_hash. by rewrite take_take. Qed.

Lemma recPrefix_take48 r : recPrefix (take 48 r) = recPrefix r.
Proof. apply rec_hash_prefix, rec_hash_take48. Qed.

(** ** The merge *)

Definition fresh (W : list record) (be : record) : Prop := rec_hash be ∉ rec_hash <$> W.
#[export] Instance fresh_dec W be : Decision (fresh W be).
Proof. unfold fresh. apply _. Defined.

Lemma overridden_fresh W be : overridden W be = false ↔ fresh W be.
Proof.
  unfold overridden, fresh. rewrite list_elem_of_fmap. induction W as [|w W IH]; cbn [existsb].
  - split; [|done]. intros _ (x & _ & Hx). by apply elem_of_nil in Hx.
  - rewrite orb_false_iff, IH, bool_decide_eq_false. clear IH. split.
    + intros [Hne Hno] (x & Hx & Hin). apply elem_of_cons in Hin as [->|Hin]; [by apply Hne|]. apply Hno. eauto.
    + intros Hno. split; [|intros (x & Hx & Hin)]; [intros Heq|]; apply Hno; [exists w|exists x]; split; try done;
        [left|by right].
Qed.

Definition prefix_sorted (l : list record) : Prop := StronglySorted (key_le recPrefix) l.

Lemma above_ends p l :
  prefix_sorted l → Forall (λ r, p ≤ recPrefix r) l → run_ends p l → Forall (λ r, p < recPrefix r) l.
Proof.
  intros Hs Hge He. destruct Hs as [|x l Hs Hx]; [constructor|]. apply Forall_cons in Hge as [Hp _].
  cbn in He. constructor; [lia|]. eapply Forall_impl; [exact Hx|]. unfold key_le. intros; lia.
Qed.

Lemma filter_ext_in {A} (P Q : A → Prop) `{!∀ x, Decision (P x), !∀ x, Decision (Q x)} (l : list A) :
  (∀ x, x ∈ l → P x ↔ Q x) → filter P l = filter Q l.
Proof.
  induction l as [|x l IH]; intros Hpq; [done|]. rewrite !filter_cons.
  rewrite IH by (intros y Hy; apply Hpq; by right). specialize (Hpq x ltac:(left)).
  destruct (decide (P x)), (decide (Q x)); tauto.
Qed.

Lemma filter_fmap_compose {A B} (f : A → B) (P : B → Prop) `{!∀ x, Decision (P x)} (l : list A) :
  filter P (f <$> l) = f <$> filter (λ x, P (f x)) l.
Proof.
  induction l as [|x l IH]; [done|]. rewrite fmap_cons, !filter_cons, IH. by case_decide.
Qed.

Lemma filter_fresh_app W1 W2 (l : list record) :
  (∀ r w, r ∈ l → w ∈ W2 → rec_hash r ≠ rec_hash w) → filter (fresh (W1 ++ W2)) l = filter (fresh W1) l.
Proof.
  intros Hne. apply filter_ext_in. intros r Hr. unfold fresh.
  rewrite fmap_app, elem_of_app. split; [tauto|]. intros H1 [?|(w & Hw & Hin)%list_elem_of_fmap]; [done|].
  by destruct (Hne r w Hr Hin).
Qed.

Lemma filter_fresh_skip W1 W2 (l : list record) :
  (∀ r w, r ∈ l → w ∈ W1 → rec_hash r ≠ rec_hash w) → filter (fresh (W1 ++ W2)) l = filter (fresh W2) l.
Proof.
  intros Hne. apply filter_ext_in. intros r Hr. unfold fresh.
  rewrite fmap_app, elem_of_app. split; [tauto|]. intros H1 [(w & Hw & Hin)%list_elem_of_fmap|?]; [|done].
  by destruct (Hne r w Hr Hin).
Qed.

Lemma prefix_ne a b : recPrefix a ≠ recPrefix b → rec_hash a ≠ rec_hash b.
Proof. intros H Heq. by apply H, rec_hash_prefix. Qed.

(** One round emits the records of the least prefix; the rest follow. *)
Lemma merge_step p grpB restB ws W X :
  Forall (λ r, recPrefix r = p) grpB → Forall (λ r, p < recPrefix r) restB →
  Forall (λ r, recPrefix r = p) ws → Forall (λ r, p < recPrefix r) W →
  X ≡ₚ filter (fresh W) restB ++ W → prefix_sorted X →
  (filter (fresh ws) grpB ++ ws) ++ X ≡ₚ filter (fresh (ws ++ W)) (grpB ++ restB) ++ (ws ++ W) ∧
  prefix_sorted ((filter (fresh ws) grpB ++ ws) ++ X).
Proof.
  rewrite !Forall_forall. intros HgB HrB Hws HW HX Hs. split.
  - rewrite filter_app, (filter_fresh_app ws W grpB), (filter_fresh_skip ws W restB), HX.
    + rewrite <- !app_assoc. apply Permutation_app_head.
      rewrite !app_assoc. apply Permutation_app_tail. apply Permutation_app_comm.
    + intros r w Hr Hw. apply prefix_ne. rewrite (Hws w Hw). specialize (HrB r Hr). lia.
    + intros r w Hr Hw. apply prefix_ne. rewrite (HgB r Hr). specialize (HW w Hw). lia.
  - assert (Hp : ∀ r, r ∈ filter (fresh ws) grpB ++ ws → recPrefix r = p).
    { intros r [[_ Hr]%list_elem_of_filter|Hr]%elem_of_app; auto. }
    apply StronglySorted_app. split_and!; [| |done].
    + intros a b Ha Hb. unfold key_le. rewrite (Hp a Ha). rewrite HX in Hb.
      apply elem_of_app in Hb as [[_ Hb]%list_elem_of_filter|Hb]; [specialize (HrB b Hb)|specialize (HW b Hb)]; lia.
    + clear HX Hs HgB Hws. revert Hp. generalize (filter (fresh ws) grpB ++ ws). intros l. induction l as [|a l IH]; intros Hp; constructor.
      * apply IH. intros r Hr. apply Hp. by right.
      * apply Forall_forall. intros b Hb. unfold key_le. rewrite (Hp a), (Hp b); [lia|by right|by left].
Qed.

Lemma leastPrefix_recs run recs :
  prefix_sorted recs → Forall (λ e, leastPrefix run recs ≤ recPrefix e) recs.
Proof.
  intros Hsr. destruct recs as [|d recs]; [constructor|]. inversion Hsr as [|? ? _ Hle]; subst.
  assert (leastPrefix run (d :: recs) ≤ recPrefix d).
  { unfold leastPrefix. destruct run as [b|]; [destruct (Z.ltb_spec (recPrefix d) (run_prefix b))|]; lia. }
  constructor; [done|]. eapply Forall_impl; [exact Hle|]. unfold key_le. intros; lia.
Qed.

Lemma leastPrefix_run b recs : leastPrefix (Some b) recs ≤ run_prefix b.
Proof. destruct recs as [|d recs]; unfold leastPrefix; [lia|]. destruct (Z.ltb_spec (recPrefix d) (run_prefix b)); lia. Qed.

(** The least prefix is met by the run or by the slab. *)
Lemma leastPrefix_met run recs :
  ¬ (run = None ∧ recs = []) →
  (∃ b, run = Some b ∧ run_prefix b = leastPrefix run recs) ∨
  (∃ d recs', recs = d :: recs' ∧ recPrefix d = leastPrefix run recs).
Proof.
  intros Hne. destruct run as [b|], recs as [|d recs]; unfold leastPrefix; [| |tauto|]; eauto.
  destruct (Z.ltb_spec (recPrefix d) (run_prefix b)); eauto.
Qed.

Lemma run_above p b bs rest :
  prefix_sorted bs → bs = run_entries b ++ rest → run_entries b ≠ [] →
  Forall (λ e, recPrefix e = run_prefix b) (run_entries b) → p ≤ run_prefix b →
  Forall (λ e, p ≤ recPrefix e) bs.
Proof.
  intros Hsb -> Hne Hall Hp. destruct (run_entries b) as [|e es]; [done|].
  apply Forall_cons in Hall as [He _]. inversion Hsb as [|? ? _ Hle]; subst. constructor; [lia|].
  eapply Forall_impl; [exact Hle|]. unfold key_le. intros; lia.
Qed.

(** One round of the loop. *)
Lemma mergeLoop_round fuel run r bs recs out :
  run_state run r bs → Forall rec48 bs → prefix_sorted bs → prefix_sorted recs → ¬ (run = None ∧ recs = []) →
  let p := leastPrefix run recs in
  ∃ grpB restB run' r' ws rest,
    mergeLoop run r recs out (S fuel) =
      mergeLoop run' r' rest (out ++ filter (fresh ws) grpB ++ ws) fuel ∧
    bs = grpB ++ restB ∧ run_state run' r' restB ∧ winners recs = ws ++ winners rest ∧
    Forall (λ e, recPrefix e = p) grpB ∧ Forall (λ e, p < recPrefix e) restB ∧
    Forall (λ e, recPrefix e = p) ws ∧ Forall (λ e, p < recPrefix e) (winners rest) ∧
    prefix_sorted rest ∧ (length restB + length rest < length bs + length recs)%nat.
Proof.
  intros Hrun H48 Hsb Hsr Hmore p. pose proof (leastPrefix_recs run recs Hsr) as Hpr. fold p in Hpr.
  destruct (deltaWins p recs (length recs)) as [ws rest] eqn:Hdw.
  pose proof (deltaWins_spec _ _ _ _ _ (le_n _) Hdw) as (Hw & He & Hws & grp & Hgrp & Hg).
  assert (Hsrest : prefix_sorted rest) by (rewrite Hgrp in Hsr; by apply StronglySorted_app in Hsr as (_ & _ & ?)).
  assert (Hrest : Forall (λ e, p < recPrefix e) rest).
  { rewrite Hgrp in Hpr. apply Forall_app in Hpr as [_ Hpr]. by apply above_ends. }
  assert (HW : Forall (λ e, p < recPrefix e) (winners rest)).
  { apply Forall_forall. intros w (x & Hx & ->)%winners_incl. rewrite recPrefix_take48.
    rewrite Forall_forall in Hrest. auto. }
  assert (Hlen : length recs = (length grp + length rest)%nat) by (by rewrite Hgrp, length_app).
  assert (Hgne : (∃ d recs', recs = d :: recs' ∧ recPrefix d = p) → (length rest < length recs)%nat).
  { intros (d & recs' & Hd & Hdp). destruct grp; [|cbn in Hlen; lia]. cbn in Hgrp. rewrite <- Hgrp, Hd in He.
    by destruct He. }
  assert (Hdrop : ∀ l : list record, filter (λ be, overridden ws be = false) l = filter (fresh ws) l)
    by (intros l; apply filter_ext_in; intros x _; apply overridden_fresh).
  pose proof (leastPrefix_met run recs Hmore) as Hmet. fold p in Hmet.
  destruct run as [b|].
  - pose proof Hrun as (restB & Hbs & Hrd & Hne & Hall & Hends).
    pose proof (leastPrefix_run b recs) as Hpb. fold p in Hpb. destruct (Z.eq_dec (run_prefix b) p) as [Hp|Hp].
    + rewrite Hbs in H48. apply Forall_app in H48 as [_ H48].
      destruct (nextRun_spec r restB Hrd H48) as (run' & r' & Hnext & Hrun').
      exists (run_entries b), restB, run', r', ws, rest. split_and!; try done.
      * cbn [mergeLoop]. fold p. rewrite Hdw, Hdrop. rewrite (proj2 (Z.eqb_eq _ _)) by done. by rewrite Hnext.
      * rewrite Hp in Hall. done.
      * rewrite Hbs in Hsb. apply StronglySorted_app in Hsb as (Hcross & _ & Hsb).
        apply above_ends; [done| |by rewrite <- Hp]. destruct (run_entries b) as [|e es]; [done|].
        apply Forall_cons in Hall as [Hep _]. apply Forall_forall. intros x Hx.
        specialize (Hcross e x ltac:(by left) Hx). unfold key_le in Hcross. lia.
      * rewrite Hbs, length_app. destruct (run_entries b); [done|]. cbn. lia.
    + destruct Hmet as [(b' & [= <-] & Hb)|Hd]; [done|].
      exists [], bs, (Some b), r, ws, rest. split_and!; try done.
      * cbn [mergeLoop]. fold p. rewrite Hdw. by rewrite (proj2 (Z.eqb_neq _ _)).
      * pose proof (run_above (run_prefix b) b bs restB Hsb Hbs Hne Hall ltac:(lia)) as Hge.
        eapply Forall_impl; [exact Hge|]. intros x Hx. cbn beta in Hx |- *. lia.
      * specialize (Hgne Hd). lia.
  - destruct Hmet as [(b' & ? & _)|Hd]; [done|]. cbn in Hrun. subst bs.
    exists [], [], None, r, ws, rest. split_and!; try done.
    + cbn [mergeLoop]. destruct Hd as (d & recs' & -> & _). fold p. by rewrite Hdw.
    + specialize (Hgne Hd). cbn. lia.
Qed.

Lemma mergeLoop_spec fuel : ∀ run r bs recs out,
  run_state run r bs → Forall rec48 bs → prefix_sorted bs → prefix_sorted recs →
  (length bs + length recs < fuel)%nat →
  ∃ X, mergeLoop run r recs out fuel = Ok (out ++ X) ∧
    X ≡ₚ filter (fresh (winners recs)) bs ++ winners recs ∧ prefix_sorted X.
Proof.
  induction fuel as [|fuel IH]; intros run r bs recs out Hrun H48 Hsb Hsr Hf; [lia|].
  assert (Hcase : (run = None ∧ recs = []) ∨ ¬ (run = None ∧ recs = []))
    by (destruct run, recs; [right; naive_solver..|left; done|right; naive_solver]).
  destruct Hcase as [[-> ->]|Hmore].
  { cbn in Hrun. subst bs. exists []. rewrite app_nil_r. split_and!; [done..|constructor]. }
  destruct (mergeLoop_round fuel run r bs recs out Hrun H48 Hsb Hsr Hmore) as
    (grpB & restB & run' & r' & ws & rest & Heq & Hbs & Hrun' & Hw & HgB & HrB & Hws & HW & Hsrest & Hlen).
  rewrite Hbs in H48, Hsb. apply Forall_app in H48 as [_ H48]. apply StronglySorted_app in Hsb as (_ & _ & Hsb).
  destruct (IH run' r' restB rest (out ++ filter (fresh ws) grpB ++ ws)) as (X & HX & HXp & HXs); try done; [lia|].
  destruct (merge_step _ grpB restB ws (winners rest) X HgB HrB Hws HW HXp HXs) as [Hperm Hsort].
  exists ((filter (fresh ws) grpB ++ ws) ++ X). rewrite Hbs, Hw. split_and!; [|exact Hperm|exact Hsort].
  rewrite Heq, HX. by rewrite <- !app_assoc.
Qed.

(** ** What a pass means *)

Definition hash_sorted (recs : list record) : Prop := StronglySorted (key_le hashNum) recs.

Lemma srec_hash_inj a b : srec_ok a → srec_ok b → hashNum a = hashNum b → rec_hash a = rec_hash b.
Proof. intros [La Ba _] [Lb Bb _]. apply hashNum_inj; (done || lia). Qed.

Lemma foldKey_hash_le a b : srec_ok a → srec_ok b → foldKey a ≤ foldKey b → hashNum a ≤ hashNum b.
Proof.
  intros [La Ba _] [Lb Bb _] Hle. unfold foldKey in Hle. unfold hashNum, rec_hash.
  assert (Hs : ∀ r, length r = 56%nat → bytes_ok r → is_u64 (le_get (sub r 48 8)))
    by (intros; apply le_get_u64; [auto with bytes|apply length_sub; lia]).
  pose proof (Hs a La Ba). pose proof (Hs b Lb Bb). unfold is_u64 in *. lia.
Qed.

Lemma StronglySorted_weaken {A} (R S : A → A → Prop) l (P : A → Prop) :
  Forall P l → (∀ a b, P a → P b → R a b → S a b) → StronglySorted R l → StronglySorted S l.
Proof.
  intros HP Himp. induction 1 as [|x l Hs IH Hx]; [constructor|]. apply Forall_cons in HP as [Hpx HP].
  constructor; [auto|]. rewrite Forall_forall in HP, Hx |- *. auto.
Qed.

Lemma key_hash_sorted recs :
  Forall srec_ok recs → StronglySorted (key_le foldKey) recs → hash_sorted recs.
Proof. intros Hok. apply (StronglySorted_weaken _ _ _ srec_ok Hok). intros a b. apply foldKey_hash_le. Qed.

Lemma hash_prefix_sorted recs : Forall srec_ok recs → hash_sorted recs → prefix_sorted recs.
Proof.
  intros Hok. apply (StronglySorted_weaken _ _ _ srec_ok Hok). intros a b [La Ba _] [Lb Bb _] Hle.
  unfold key_le in *. rewrite !recPrefix_hashNum by (done || lia). by apply Z.div_le_mono.
Qed.

(** After a change of hash every later record has another, larger hash. *)
Lemma hash_sorted_next r r' recs :
  Forall srec_ok (r :: r' :: recs) → hash_sorted (r :: r' :: recs) → rec_hash r' ≠ rec_hash r →
  ∀ x, x ∈ r' :: recs → hashNum r < hashNum x.
Proof.
  intros Hok Hs Hne x Hx. inversion Hs as [|? ? Hs' Hle]; subst. apply Forall_cons in Hok as [Hr Hok].
  apply Forall_cons in Hle as [Hle _]. unfold key_le in Hle.
  assert (hashNum r ≠ hashNum r').
  { intros Heq. apply Hne. symmetry. apply srec_hash_inj; [done|by apply Forall_cons in Hok as [? _]|done]. }
  apply elem_of_cons in Hx as [->|Hx]; [lia|].
  inversion Hs' as [|? ? _ Hle']; subst. rewrite Forall_forall in Hle'. specialize (Hle' x Hx). unfold key_le in Hle'. lia.
Qed.

Lemma hashNum_of_hash a b : rec_hash a = rec_hash b → hashNum a = hashNum b.
Proof. unfold hashNum. by intros ->. Qed.

(** The winners hold, for each hash, the last record of that hash. *)
Lemma winners_filter h recs :
  Forall srec_ok recs → hash_sorted recs →
  filter (λ r, rec_hash r = h) (winners recs) =
  match last (filter (λ r, rec_hash r = h) recs) with Some r => [take 48 r] | None => [] end.
Proof.
  induction recs as [|r recs IH]; intros Hok Hs; [done|].
  destruct recs as [|r' recs].
  - cbn [winners]. rewrite !filter_cons, !filter_nil, rec_hash_take48. by case_decide.
  - inversion Hs as [|? ? Hs' Hle]; subst. pose proof Hok as Hok0. apply Forall_cons in Hok as [Hr Hok].
    specialize (IH Hok Hs'). rewrite (filter_cons _ r), winners_cons2. case_bool_decide as Hh.
    + rewrite IH. case_decide as Hrh; [|done].
      rewrite (filter_cons_True _ r') by congruence. by rewrite last_cons_cons.
    + rewrite filter_cons, rec_hash_take48, IH. case_decide as Hrh; [|done].
      assert (filter (λ x, rec_hash x = h) (r' :: recs) = []) as ->; [|done].
      apply elem_of_nil_inv. intros x [Hxh Hx]%list_elem_of_filter.
      pose proof (hash_sorted_next r r' recs Hok0 Hs Hh x Hx). rewrite <- Hrh in Hxh.
      apply hashNum_of_hash in Hxh. lia.
Qed.

Lemma winners_nodup recs :
  Forall srec_ok recs → hash_sorted recs → NoDup (rec_hash <$> winners recs).
Proof.
  induction recs as [|r recs IH]; intros Hok Hs; [constructor|].
  destruct recs as [|r' recs]; [apply NoDup_singleton|].
  inversion Hs as [|? ? Hs' Hle]; subst. pose proof Hok as Hok0. apply Forall_cons in Hok as [Hr Hok].
  rewrite winners_cons2. case_bool_decide as Hh; [by apply IH|].
  rewrite fmap_cons. constructor; [|by apply IH]. rewrite rec_hash_take48.
  intros (w & Hw & (x & Hx & ->)%winners_incl)%list_elem_of_fmap. rewrite rec_hash_take48 in Hw.
  pose proof (hash_sorted_next r r' recs Hok0 Hs Hh x Hx). apply hashNum_of_hash in Hw. lia.
Qed.

Lemma insert_all_lookup_last es m h :
  insert_all es m !! h =
  match last (filter (λ e, StrongHash e = h) es) with Some e => Some e | None => m !! h end.
Proof.
  induction es as [|e es IH] using rev_ind; [done|].
  rewrite insert_all_snoc, filter_app, filter_cons, filter_nil. case_decide as Hh.
  - subst h. by rewrite lookup_insert_eq, last_snoc.
  - by rewrite lookup_insert_ne, app_nil_r.
Qed.

Definition seqOf (r : record) : Z := le_get (sub r 48 8).
Definition seq_sorted (recs : list record) : Prop := StronglySorted (λ a b, seqOf a < seqOf b) recs.

Lemma StronglySorted_filter {A} (R : A → A → Prop) (P : A → Prop) `{!∀ x, Decision (P x)} l :
  StronglySorted R l → StronglySorted R (filter P l).
Proof.
  induction 1 as [|x l Hs IH Hx]; [constructor|]. rewrite filter_cons. case_decide; [|done].
  constructor; [done|]. rewrite Forall_forall in Hx |- *. intros y [_ Hy]%list_elem_of_filter. auto.
Qed.

Lemma seq_sorted_inj recs a b : seq_sorted recs → a ∈ recs → b ∈ recs → seqOf a = seqOf b → a = b.
Proof.
  induction 1 as [|x l Hs IH Hx]; [by intros ?%elem_of_nil|]. rewrite Forall_forall in Hx.
  intros [->|Ha]%elem_of_cons [->|Hb]%elem_of_cons Heq; [done| | |auto].
  - specialize (Hx b Hb). lia.
  - specialize (Hx a Ha). lia.
Qed.

Section pass.
Context {SS : SortSlice}.

(** Sorting the slab keeps the records of one hash in their order. *)
Lemma sort_filter_hash recs h :
  Forall srec_ok recs → seq_sorted recs →
  filter (λ r, rec_hash r = h) (sortSlice foldKey recs) = filter (λ r, rec_hash r = h) recs.
Proof.
  intros Hok Hs. apply (StronglySorted_unique_strong (key_le foldKey)).
  - intros a b [Ha Hia]%list_elem_of_filter [Hb Hib]%list_elem_of_filter Hab Hba.
    rewrite (elem_of_sortSlice foldKey) in Hia. apply (seq_sorted_inj recs a b Hs Hia Hib).
    unfold key_le, foldKey, seqOf in *. unfold rec_hash in *. rewrite Ha, Hb in *. lia.
  - by apply StronglySorted_filter, sortSlice_sorted.
  - apply (StronglySorted_weaken (λ a b, seqOf a < seqOf b) _ _ (λ r, rec_hash r = h)).
    + apply Forall_forall. by intros x [? _]%list_elem_of_filter.
    + intros a b Ha Hb Hlt. unfold key_le, foldKey, seqOf, rec_hash in *. rewrite Ha, Hb. lia.
    + by apply StronglySorted_filter.
  - by rewrite sortSlice_perm.
Qed.

Definition slab_entry (r : record) : IndexEntry := decodeEntry (take 48 r).

Lemma srec_rec r : srec_ok r → rec_ok (take 48 r).
Proof.
  intros [Hl Hb Hz]. constructor; [len|auto with bytes|]. by rewrite rec_hash_take48.
Qed.

Lemma filter_hash_decode (W : list record) h :
  filter (λ e, StrongHash e = h) (decodeEntry <$> W) = decodeEntry <$> filter (λ r, rec_hash r = h) W.
Proof. by rewrite filter_fmap_compose. Qed.

Lemma filter_hash_slab (recs : list record) h :
  filter (λ e, StrongHash e = h) (slab_entry <$> recs) = slab_entry <$> filter (λ r, rec_hash r = h) recs.
Proof.
  rewrite filter_fmap_compose. f_equal. apply filter_ext_in. intros x _. unfold slab_entry.
  by rewrite rec_hash_decode, rec_hash_take48.
Qed.

(** The map of the merged list. *)
Lemma merged_map bs recs h :
  Forall entry_ok bs → Forall srec_ok recs → seq_sorted recs →
  let W := winners (sortSlice foldKey recs) in
  insert_all (decodeEntry <$> (filter (fresh W) (encodeEntry <$> bs) ++ W)) ∅ !! h =
  insert_all (slab_entry <$> recs) (insert_all bs ∅) !! h.
Proof.
  intros Hbs Hok Hs W. rewrite fmap_app. unfold insert_all at 1. rewrite foldl_app.
  fold (insert_all (decodeEntry <$> filter (fresh W) (encodeEntry <$> bs)) ∅).
  fold (insert_all (decodeEntry <$> W) (insert_all (decodeEntry <$> filter (fresh W) (encodeEntry <$> bs)) ∅)).
  assert (Hso : Forall srec_ok (sortSlice foldKey recs)) by (by apply Forall_sortSlice).
  assert (Hsh : hash_sorted (sortSlice foldKey recs)) by (apply key_hash_sorted; [done|apply sortSlice_sorted]).
  rewrite insert_all_lookup_last, filter_hash_decode. unfold W at 1. rewrite winners_filter, sort_filter_hash by done.
  rewrite (insert_all_lookup_last (slab_entry <$> recs)), filter_hash_slab, !fmap_last.
  destruct (last (filter _ recs)) as [r|] eqn:Hlast; [done|]. cbn.
  apply last_None in Hlast.
  assert (HhW : h ∉ rec_hash <$> W).
  { intros (w & -> & (x & Hx & ->)%winners_incl)%list_elem_of_fmap. rewrite rec_hash_take48 in Hlast.
    rewrite (elem_of_sortSlice foldKey) in Hx. apply (not_elem_of_nil x). rewrite <- Hlast.
    by apply list_elem_of_filter. }
  rewrite !insert_all_lookup_last, filter_hash_decode.
  rewrite list_filter_filter.
  assert (Heq : filter (λ r, rec_hash r = h ∧ fresh W r) (encodeEntry <$> bs) =
                encodeEntry <$> filter (λ e, StrongHash e = h) bs).
  { rewrite filter_fmap_compose. f_equal. apply filter_ext_in. intros e He. unfold fresh.
    rewrite Forall_forall in Hbs. rewrite <- rec_hash_decode, decode_encode_entry by auto.
    split; [tauto|]. intros ->. tauto. }
  rewrite Heq, decode_encode_all; [done|]. rewrite Forall_forall in Hbs |- *.
  intros e [_ He]%list_elem_of_filter. auto.
Qed.

Lemma recPrefix_decode r : recPrefix r = hashPrefix8 (StrongHash (decodeEntry r)).
Proof.
  rewrite rec_hash_decode. unfold recPrefix, hashPrefix8, rec_hash. by rewrite sub_take_inside by lia.
Qed.

Lemma encode_decode_all X : Forall rec_ok X → encodeEntry <$> (decodeEntry <$> X) = X.
Proof.
  induction 1 as [|r X [Hl Hb _] HX IH]; [done|]. rewrite !fmap_cons, IH. by rewrite encode_decode_entry.
Qed.

(** The records of the base file. *)
Lemma base_records bs :
  file_ok bs → Forall rec_ok (encodeEntry <$> bs) ∧ Forall rec48 (encodeEntry <$> bs) ∧
  prefix_sorted (encodeEntry <$> bs) ∧ NoDup (rec_hash <$> (encodeEntry <$> bs)).
Proof.
  intros Hf. assert (Hok : Forall rec_ok (encodeEntry <$> bs)).
  { apply Forall_fmap. eapply Forall_impl; [apply Hf|]. intros. by apply storable_rec. }
  pose proof (file_ok_entries bs Hf) as Hes. split_and!; [done| | |].
  - eapply Forall_impl; [exact Hok|]. by intros r [].
  - destruct Hf as [_ _ Hs _]. clear Hok. induction Hs as [|e bs Hs IH He]; [constructor|].
    apply Forall_cons in Hes as [Hoe Hes]. rewrite fmap_cons. constructor; [by apply IH|].
    apply Forall_fmap. rewrite Forall_forall in He, Hes |- *. intros x Hx. unfold key_le, compose.
    rewrite (recPrefix_decode (encodeEntry e)), (recPrefix_decode (encodeEntry x)).
    rewrite !decode_encode_entry by auto. by apply (He x).
  - rewrite <- hashes_decode, decode_encode_all by done. apply Hf.
Qed.

(** A pass over a sorted base inserts the slab's entries, in order. *)
Lemma mergePass_rep bs recs :
  file_ok bs → Forall srec_ok recs → seq_sorted recs →
  Z.of_nat (size (insert_all (slab_entry <$> recs) (insert_all bs ∅))) ≤ 2 ^ 36 →
  ∃ bs', mergePass (sortedFile bs) recs = Ok (sortedFile bs') ∧ file_ok bs' ∧
    insert_all bs' ∅ = insert_all (slab_entry <$> recs) (insert_all bs ∅).
Proof.
  intros Hf Hok Hs Hsz. destruct (base_records bs Hf) as (HBok & HB48 & HBs & HBnd).
  set (srt := sortSlice foldKey recs). set (W := winners srt).
  assert (Hso : Forall srec_ok srt) by (by apply Forall_sortSlice).
  assert (Hsh : hash_sorted srt) by (apply key_hash_sorted; [done|apply sortSlice_sorted]).
  destruct (nextRun_spec (mkReader (sortedFile bs) None) (encodeEntry <$> bs)) as (run & r & Hnext & Hrun); [done..|].
  destruct (mergeLoop_spec (S (length (sortedFile bs) + length srt)) run r (encodeEntry <$> bs) srt [])
    as (X & HX & HXp & HXs); try done; [by apply hash_prefix_sorted| |].
  { rewrite length_fmap, length_sortedFile by (by apply file_ok_entries). lia. }
  assert (HWok : Forall rec_ok W).
  { apply Forall_forall. intros w (x & Hx & ->)%winners_incl. apply srec_rec. rewrite Forall_forall in Hso. auto. }
  assert (HXok : Forall rec_ok X).
  { rewrite HXp. apply Forall_app. split; [|done]. rewrite Forall_forall in HBok |- *.
    intros x [_ Hx]%list_elem_of_filter. auto. }
  assert (HXnd : NoDup (rec_hash <$> X)).
  { rewrite HXp, fmap_app. apply NoDup_app. split_and!; [|intros h Hl Hr|by apply winners_nodup].
    - eapply sublist_NoDup; [exact HBnd|]. apply fmap_sublist, sublist_filter.
    - apply list_elem_of_fmap in Hl as (x & -> & [Hfr _]%list_elem_of_filter). by apply Hfr. }
  assert (HXd : NoDup (StrongHash <$> (decodeEntry <$> X))) by (by rewrite hashes_decode).
  assert (Hmap : insert_all (decodeEntry <$> X) ∅ = insert_all (slab_entry <$> recs) (insert_all bs ∅)).
  { rewrite (insert_all_perm _ (decodeEntry <$> (filter (fresh W) (encodeEntry <$> bs) ++ W)) HXd) by (by rewrite HXp).
    apply map_eq. intros h. apply merged_map; [by apply file_ok_entries|done..]. }
  exists (decodeEntry <$> X). split_and!; [| |done].
  - unfold mergePass. fold srt. rewrite Hnext. cbn [rbind]. rewrite HX. cbn [rbind app].
    unfold sortedFile. by rewrite encode_decode_all.
  - constructor; [|done| |].
    + apply Forall_fmap. eapply Forall_impl; [exact HXok|]. intros. by apply rec_ok_storable.
    + clear -HXs. induction HXs as [|x X Hs IH Hx]; [constructor|]. rewrite fmap_cons. constructor; [done|].
      apply Forall_fmap. eapply Forall_impl; [exact Hx|]. intros y Hy. unfold key_le, compose in *.
      by rewrite (recPrefix_decode x), (recPrefix_decode y) in Hy.
    + rewrite <- size_insert_all by done. by rewrite Hmap.
Qed.
End pass.

(** ** The driver's invariant *)

Definition idx_of (e : DeltaEntry) : IndexEntry :=
  mkEntry (de_StrongHash e) (de_PackNumber e) (de_StoreOffset e) (de_ChunkLength e).

Definition foldable (e : DeltaEntry) : Prop := delta_ok e ∧ de_StrongHash e ≠ zeroHash.
#[export] Instance foldable_dec e : Decision (foldable e).
Proof. unfold foldable. apply _. Defined.

Lemma foldable_storable e : foldable e → storable (idx_of e).
Proof. intros [[] Hz]. split; [by constructor|done]. Qed.

Fixpoint slab_of (es : list DeltaEntry) (s : Z) : list record :=
  match es with [] => [] | e :: es => foldRec e s :: slab_of es (s + 1) end.

Lemma slab_of_snoc es e : ∀ s, slab_of (es ++ [e]) s = slab_of es s ++ [foldRec e (s + len es)].
Proof.
  induction es as [|x es IH]; intros s; cbn [slab_of app length]; [by rewrite Z.add_0_r|].
  rewrite IH. replace (s + Z.of_nat (S (length es))) with (s + 1 + len es) by lia. done.
Qed.

Lemma length_foldRec_entry e : foldable e → length (encodeEntry (idx_of e)) = 48%nat.
Proof. intros He. apply length_encodeEntry. by apply foldable_storable. Qed.

Lemma foldRec_ok e s : foldable e → is_u64 s → srec_ok (foldRec e s) ∧ seqOf (foldRec e s) = s ∧ slab_entry (foldRec e s) = idx_of e.
Proof.
  intros He Hs. pose proof (length_foldRec_entry e He) as Hl. pose proof (foldable_storable e He) as [Hok Hz].
  unfold foldRec. fold (idx_of e). split_and!.
  - constructor; [rewrite length_app, Hl; by autorewrite with len|apply bytes_ok_app; auto with bytes|].
    unfold rec_hash. rewrite take_app_le by lia. unfold encodeEntry. rewrite take_app_exact; [exact Hz|].
    symmetry. apply Hok.
  - unfold seqOf. rewrite sub_app_skip by lia. rewrite Hl, sub_all by (by autorewrite with len). by apply le_get_PutUint64.
  - unfold slab_entry. rewrite take_app_exact by done. by apply decode_encode_entry.
Qed.

Lemma slab_of_ok es : ∀ s,
  Forall foldable es → 0 ≤ s → s + len es < 2 ^ 64 →
  Forall srec_ok (slab_of es s) ∧ seq_sorted (slab_of es s) ∧ Forall (λ r, s ≤ seqOf r) (slab_of es s) ∧
  slab_entry <$> slab_of es s = idx_of <$> es.
Proof.
  induction es as [|e es IH]; intros s Hes H0 Hs; cbn [slab_of].
  - split_and!; [constructor..|done].
  - apply Forall_cons in Hes as [He Hes]. cbn [length] in Hs.
    destruct (IH (s + 1) Hes ltac:(lia) ltac:(lia)) as (H1 & H2 & H3 & H4).
    destruct (foldRec_ok e s He ltac:(split; lia)) as (Hr1 & Hr2 & Hr3). split_and!.
    + by constructor.
    + constructor; [done|]. eapply Forall_impl; [exact H3|]. intros x Hx. cbn beta in *. lia.
    + constructor; [lia|]. eapply Forall_impl; [exact H3|]. intros x Hx. cbn beta in *. lia.
    + rewrite !fmap_cons, Hr3, H4. done.
Qed.

Lemma size_insert_all_le es : ∀ m, (size (insert_all es m) ≤ size m + length es)%nat.
Proof.
  induction es as [|e es IH] using rev_ind; intros m; [cbn; lia|].
  rewrite insert_all_snoc, length_app. pose proof (size_insert_le (insert_all es m) (StrongHash e) e).
  specialize (IH m). cbn. lia.
Qed.

Lemma AddAll_snoc ws : ∀ bf w, AddAll bf (ws ++ [w]) = (bf' ← AddAll bf ws; Add bf' w).
Proof.
  induction ws as [|x ws IH]; intros bf w; cbn [AddAll app].
  - cbn -[Add]. by destruct (Add bf w).
  - destruct (Add bf x); cbn; [apply IH|done].
Qed.

Section driver.
Context {SS : SortSlice} (m0 : gmap bytes IndexEntry) (bf0 : BloomFilter).

(** After the entries [E]: the base plus the pending slab is the map with all
    of [E] inserted. *)
Record fold_inv (E : list DeltaEntry) (st : fold_state) : Prop := {
  fi_map : ∃ bs pend, default [] (fs_base st) = sortedFile bs ∧ file_ok bs ∧ Forall foldable pend ∧
    fs_slab st = slab_of pend (len E - len pend) ∧ (length pend ≤ length E)%nat ∧
    insert_all (idx_of <$> pend) (insert_all bs ∅) = insert_all (idx_of <$> E) m0;
  fi_total : fs_total st = len E;
  fi_seq : fs_seq st = len E;
  fi_bloom : AddAll bf0 (de_WeakHash <$> E) = Some (fs_bloom st) }.

Lemma flushPass_inv E st :
  fold_inv E st → Z.of_nat (size m0) + len E ≤ 2 ^ 36 →
  ∃ st', flushPass st = (st', None) ∧ fold_inv E st' ∧ fs_slab st' = [].
Proof.
  intros [(bs & pend & Hb & Hf & Hp & Hsl & Hle & Hm) Ht Hsq Hbl] Hsz. unfold flushPass.
  case_decide as Hnil.
  - exists st. split_and!; [done| |done]. constructor; [|done..]. exists bs, pend. by split_and!.
  - destruct (slab_of_ok pend (len E - len pend) Hp) as (H1 & H2 & _ & H4); [lia..|]. rewrite <- Hsl in *.
    pose proof (size_insert_all_le (idx_of <$> E) m0) as Hle'. rewrite length_fmap in Hle'.
    destruct (mergePass_rep bs (fs_slab st) Hf H1 H2) as (bs' & Heq & Hf' & Hm'); [rewrite H4, Hm; lia|].
    rewrite Hb, Heq. eexists. split_and!; [reflexivity| |done]. constructor; cbn; [|done..].
    exists bs', []. split_and!; try done; [cbn; lia|]. by rewrite Hm', H4.
Qed.

Lemma slabAppend_inv E st e bloom :
  fold_inv E st → foldable e → len E < 2 ^ 36 → Add (fs_bloom st) (de_WeakHash e) = Some bloom →
  fold_inv (E ++ [e]) (slabAppend (mkFold (fs_base st) bloom (fs_slab st) (fs_total st) (fs_seq st)) e).
Proof.
  intros [(bs & pend & Hb & Hf & Hp & Hsl & Hle & Hm) Ht Hsq Hbl] He Hlt Hadd.
  constructor; cbn [fs_base fs_slab fs_total fs_seq fs_bloom slabAppend].
  - exists bs, (pend ++ [e]). rewrite !length_app, !Nat2Z.inj_add. cbn [length].
    split_and!; [done|done| | |lia|].
    + apply Forall_app. split; [done|]. by constructor.
    + rewrite slab_of_snoc, Hsl, Hsq. f_equal; [f_equal; lia|]. do 2 f_equal. lia.
    + rewrite !fmap_app. cbn [fmap list_fmap]. rewrite !insert_all_snoc. by rewrite Hm.
  - rewrite length_app. cbn. lia.
  - rewrite length_app, Hsq. cbn [length]. rewrite u64_id by (split; lia). lia.
  - rewrite fmap_app. cbn [fmap list_fmap]. rewrite AddAll_snoc, Hbl. exact Hadd.
Qed.

Lemma foldEntry_inv budget E st e :
  fold_inv E st → foldable e → Z.of_nat (size m0) + len E < 2 ^ 36 → bloom_ok bf0 →
  ∃ st', foldEntry budget st e = (st', None) ∧ fold_inv (E ++ [e]) st'.
Proof.
  intros Hinv He Hsz Hbf. unfold foldEntry.
  destruct (AddAll_spec (de_WeakHash <$> E) bf0 Hbf) as (bf1 & Hall & Hok1 & _).
  rewrite (fi_bloom _ _ Hinv) in Hall. simplify_eq.
  destruct (Add_spec (fs_bloom st) (de_WeakHash e) Hok1) as (bloom & Hadd & _). rewrite Hadd.
  cbn [fs_slab]. destruct (budget <? _).
  - destruct (flushPass_inv E st Hinv ltac:(lia)) as (st1 & Hfl & Hinv1 & Hnil).
    assert (Hfl' : flushPass (mkFold (fs_base st) bloom (fs_slab st) (fs_total st) (fs_seq st)) =
      (mkFold (fs_base st1) bloom (fs_slab st1) (fs_total st1) (fs_seq st1), None)).
    { unfold flushPass in *. cbn [fs_slab fs_base fs_total fs_seq fs_bloom]. case_decide; [by simplify_eq|].
      destruct (mergePass _ _); by simplify_eq. }
    rewrite Hfl'. eexists. split; [reflexivity|].
    assert (Hbl : fs_bloom st1 = fs_bloom st)
      by (unfold flushPass in Hfl; case_decide; [by simplify_eq|]; destruct (mergePass _ _); by simplify_eq).
    apply slabAppend_inv; [done..|lia|by rewrite Hbl].
  - eexists. split; [reflexivity|]. apply slabAppend_inv; [done..|lia|done].
Qed.

Lemma foldEntries_inv budget es : ∀ E st,
  fold_inv E st → Forall foldable es → Z.of_nat (size m0) + len E + len es ≤ 2 ^ 36 → bloom_ok bf0 →
  ∃ st', foldEntries budget st es = (st', None) ∧ fold_inv (E ++ es) st'.
Proof.
  induction es as [|e es IH]; intros E st Hinv Hes Hsz Hbf; cbn [foldEntries].
  - exists st. by rewrite app_nil_r.
  - apply Forall_cons in Hes as [He Hes]. cbn [length] in Hsz.
    destruct (foldEntry_inv budget E st e Hinv He ltac:(lia) Hbf) as (st1 & -> & Hinv1).
    destruct (IH (E ++ [e]) st1 Hinv1 Hes) as (st2 & -> & Hinv2); [rewrite length_app; cbn; lia|done|].
    exists st2. by rewrite <- app_assoc in Hinv2.
Qed.

Lemma foldFiles_inv budget ess : ∀ E st,
  fold_inv E st → Forall (Forall foldable) ess → bloom_ok bf0 →
  Z.of_nat (size m0) + len E + len (concat ess) ≤ 2 ^ 36 →
  ∃ st', foldFiles budget st (Marshal <$> ess) = (st', None) ∧ fold_inv (E ++ concat ess) st'.
Proof.
  induction ess as [|es ess IH]; intros E st Hinv Hes Hbf Hsz; cbn [foldFiles fmap list_fmap concat].
  - exists st. by rewrite app_nil_r.
  - apply Forall_cons in Hes as [He Hes]. cbn [concat] in Hsz. rewrite length_app in Hsz.
    assert (Forall delta_ok es) as Hd by (eapply Forall_impl; [exact He|by intros ? []]).
    destruct (Marshal_readers es Hd ltac:(lia)) as (_ & _ & _ & _ & ->).
    destruct (foldEntries_inv budget es E st Hinv He ltac:(lia) Hbf) as (st1 & -> & Hinv1).
    destruct (IH (E ++ es) st1 Hinv1 Hes Hbf) as (st2 & Heq & Hinv2); [rewrite length_app; lia|].
    exists st2. rewrite <- app_assoc in Hinv2. done.
Qed.
End driver.

Lemma validateAll_marshal ess :
  Forall (Forall foldable) ess → len (concat ess) ≤ 2 ^ 36 → validateAll (Marshal <$> ess) = None.
Proof.
  induction ess as [|es ess IH]; intros Hes Hl; [done|]. apply Forall_cons in Hes as [He Hes].
  cbn [concat] in Hl. rewrite length_app in Hl. cbn [validateAll fmap list_fmap].
  assert (Forall delta_ok es) as Hd by (eapply Forall_impl; [exact He|by intros ? []]).
  destruct (Marshal_readers es Hd ltac:(lia)) as (_ & _ & -> & _). apply IH; [done|lia].
Qed.

(** The base file is absent or a sorted index. *)
Definition base_is (base : option bytes) (bs : list IndexEntry) : Prop :=
  file_ok bs ∧ default [] base = sortedFile bs.

Lemma fold_spec `{!SortSlice} base bloom bs bf0 ess raw budget :
  base_is base bs → openBloom bloom raw = Ok bf0 → bloom_ok bf0 → Forall (Forall foldable) ess →
  len bs + len (concat ess) ≤ 2 ^ 36 →
  let out := FoldDeltasStreamedWithBudget base bloom (Marshal <$> ess) raw budget in
  fo_err out = None ∧ fo_total out = len (concat ess) ∧
  (∃ bs', base_is (fo_base out) bs' ∧
     insert_all bs' ∅ = insert_all (idx_of <$> concat ess) (insert_all bs ∅)) ∧
  (∃ bf, fo_bloom out = Some (Save bf) ∧ AddAll bf0 (de_WeakHash <$> concat ess) = Some bf).
Proof.
  intros [Hf Hb] Ho Hbf Hes Hsz out. unfold out, FoldDeltasStreamedWithBudget. rewrite Ho.
  rewrite validateAll_marshal by (done || lia).
  set (bud := if budget <=? 0 then _ else _).
  assert (Hsize : Z.of_nat (size (insert_all bs ∅)) = len bs) by (rewrite size_insert_all by apply Hf; done).
  destruct (foldFiles_inv (insert_all bs ∅) bf0 bud ess [] (mkFold base bf0 [] 0 0)) as (st & -> & Hinv); try done.
  { constructor; [|done..]. exists bs, []. by split_and!. }
  { cbn. lia. }
  destruct (flushPass_inv (insert_all bs ∅) bf0 _ st Hinv) as (st' & -> & Hinv' & Hnil); [cbn; lia|].
  cbn [app fo_err fo_total fo_base fo_bloom] in *. destruct Hinv' as [(bs' & pend & Hb' & Hf' & _ & Hsl & _ & Hm) Ht _ Hbl].
  split_and!; [done|done| |by eexists]. exists bs'. split; [by split|].
  rewrite Hnil in Hsl. by destruct pend.
Qed.

(** ** The filter *)

Lemma filterLoop_records keep n : ∀ f fuel,
  length f = (48 * n)%nat → (n < fuel)%nat →
  filterLoop keep f fuel = Ok (concat (filter (λ r, keep (le_get (sub r 32 4)) = true) (readRecords n f))).
Proof.
  induction n as [|n IH]; intros f fuel Hl Hf; (destruct fuel as [|fuel]; [lia|]); cbn [filterLoop readRecords].
  - by rewrite decide_True by (by destruct f).
  - rewrite decide_False by (by destruct f). rewrite (proj2 (Z.ltb_ge _ _)) by (unfold EntrySize; lia).
    rewrite IH by len. cbn [rbind]. rewrite filter_cons. destruct (keep _); [by rewrite decide_True|by rewrite decide_False].
Qed.

Lemma filterLoop_torn keep n : ∀ f fuel,
  48 * Z.of_nat n < len f < 48 * Z.of_nat n + 48 → (n < fuel)%nat → filterLoop keep f fuel = Err FoldTruncated.
Proof.
  induction n as [|n IH]; intros f fuel Hl Hf; (destruct fuel as [|fuel]; [lia|]); cbn [filterLoop].
  - rewrite decide_False by (by destruct f; [cbn in Hl; lia|]). by rewrite (proj2 (Z.ltb_lt _ _)) by (unfold EntrySize; lia).
  - rewrite decide_False by (by destruct f; [cbn in Hl; lia|]). rewrite (proj2 (Z.ltb_ge _ _)) by (unfold EntrySize; lia).
    rewrite IH; [done|rewrite length_drop; lia|lia].
Qed.

Definition kept (keep : Z → bool) (e : IndexEntry) : Prop := keep (PackNumber e) = true.
#[export] Instance kept_dec keep e : Decision (kept keep e).
Proof. unfold kept. apply _. Defined.

Lemma FilterSortedIndex_file keep es :
  Forall entry_ok es → FilterSortedIndex (sortedFile es) keep = Ok (sortedFile (filter (kept keep) es)).
Proof.
  intros Hes. unfold FilterSortedIndex. pose proof (length_sortedFile es Hes) as Hl.
  rewrite (filterLoop_records keep (length es)) by lia. f_equal. unfold sortedFile.
  rewrite <- (app_nil_r (concat (encodeEntry <$> es))), readRecords_encode by done.
  rewrite filter_fmap_compose. do 2 f_equal. apply filter_ext_in. intros e He. unfold kept.
  rewrite Forall_forall in Hes. by rewrite <- (decode_encode_entry e) at 2 by auto.
Qed.

(** Inserting the deltas into an open index and flushing it. *)
Lemma abs_run_inserts E D M :
  (foldl abs_step (D, M) ((OpInsert ∘ idx_of <$> E) ++ [OpFlush])).2 = insert_all (idx_of <$> E) M.
Proof.
  rewrite foldl_app. cbn [foldl abs_step snd]. revert D M.
  induction E as [|e E IH]; intros D M; [done|]. rewrite !fmap_cons. cbn [foldl abs_step]. apply IH.
Qed.

(** ** Properties *)

(** C12. The streaming fold means "insert the deltas' entries in order": whatever
    the batch budget, folding well-formed deltas into a sorted base (or none)
    succeeds; the new base is again a sorted file of distinct entries and holds
    exactly the old entries overridden by the deltas' (a later one winning);
    the count reported is the number of delta entries; and the saved filter
    answers true for every folded chunk and for everything it answered before. *)
Theorem fold_refines_inserts `{!SortSlice} (base bloom : option bytes) (bs : list IndexEntry)
    (bf0 : BloomFilter) (ess : list (list DeltaEntry)) (raw budget : Z) :
  base_is base bs → openBloom bloom raw = Ok bf0 → bloom_ok bf0 → Forall (Forall foldable) ess →
  len bs + len (concat ess) ≤ 2 ^ 36 →
  let out := FoldDeltasStreamedWithBudget base bloom (Marshal <$> ess) raw budget in
  fo_err out = None ∧ fo_total out = len (concat ess) ∧
  (∃ bs', base_is (fo_base out) bs' ∧
     insert_all bs' ∅ = insert_all (idx_of <$> concat ess) (insert_all bs ∅)) ∧
  (∃ bf, fo_bloom out = Some (Save bf) ∧ bloom_ok bf ∧
     ∀ w, w ∈ de_WeakHash <$> concat ess ∨ MayContain bf0 w = Some true → MayContain bf w = Some true).
Proof.
  intros Hb Ho Hbf Hes Hsz out. destruct (fold_spec base bloom bs bf0 ess raw budget Hb Ho Hbf Hes Hsz)
    as (He & Ht & Hbase & bf & Hsave & Hadd). split_and!; [done..|].
  destruct (AddAll_spec (de_WeakHash <$> concat ess) bf0 Hbf) as (bf' & Hadd' & Hok & _ & Hall).
  rewrite Hadd in Hadd'. injection Hadd' as <-. by exists bf.
Qed.

Definition example_deltas : list (list DeltaEntry) :=
  [[example_delta 1 3; example_delta 2 3]; [example_delta 1 9]].

Lemma fold_refines_inserts_witness :
  let out := FoldDeltasStreamedWithBudget (Some (sortedFile [example_entry 1 1])) None
               (Marshal <$> example_deltas) 100 60 in
  fo_err out = None ∧ fo_total out = len (concat example_deltas) ∧
  (∃ bs', base_is (fo_base out) bs' ∧
     insert_all bs' ∅ = insert_all (idx_of <$> concat example_deltas) (insert_all [example_entry 1 1] ∅)) ∧
  (∃ bf, fo_bloom out = Some (Save bf) ∧ bloom_ok bf ∧
     ∀ w, w ∈ de_WeakHash <$> concat example_deltas ∨ MayContain (NewBloomFilter 100) w = Some true →
          MayContain bf w = Some true).
Proof.
  apply fold_refines_inserts.
  - split; [apply example_file_ok|reflexivity].
  - reflexivity.
  - by_eval.
  - by_eval.
  - vm_compute. discriminate.
Defined.

(** The fold has the semantics of the open-and-flush it replaced: an index
    opened on the folded base answers every lookup exactly as the index that
    inserted every delta entry and flushed. *)
Theorem fold_equals_open_and_flush `{!MapRange, !SortSlice} (base bloom : option bytes)
    (bs : list IndexEntry) (bf0 : BloomFilter) (ess : list (list DeltaEntry)) (raw budget : Z)
    (skip : bool) (h : bytes) :
  base_is base bs → openBloom bloom raw = Ok bf0 → bloom_ok bf0 → Forall (Forall foldable) ess →
  len bs + len (concat ess) < 2 ^ 35 → bytes_ok h → h ≠ zeroHash →
  let out := FoldDeltasStreamedWithBudget base bloom (Marshal <$> ess) raw budget in
  ∃ idx0 idx fidx res, NewHashIndex (default [] base) skip = Ok idx0 ∧
    index_run idx0 ((OpInsert ∘ idx_of <$> concat ess) ++ [OpFlush]) = (idx, None) ∧
    NewHashIndex (default [] (fo_base out)) skip = Ok fidx ∧
    Lookup fidx h = Ok res ∧ Lookup idx h = Ok res.
Proof.
  intros [Hf Hb] Ho Hbf Hes Hsz Hh Hz out.
  destruct (fold_spec base bloom bs bf0 ess raw budget (conj Hf Hb) Ho Hbf Hes ltac:(lia))
    as (_ & _ & (bs' & [Hf' Hb'] & Hm) & _).
  destruct (NewHashIndex_rep bs skip Hf) as (idx0 & Hn0 & Hno & Hr0).
  destruct (NewHashIndex_rep bs' skip Hf') as (fidx & Hn1 & _ & Hr1).
  destruct (index_run_rep ((OpInsert ∘ idx_of <$> concat ess) ++ [OpFlush]) idx0 _ _ Hr0) as (idx & Hrun & Hr & _).
  { apply Forall_app. split; [|by repeat constructor]. apply Forall_fmap, Forall_forall.
    intros e He. apply foldable_storable. apply List.Forall_concat in Hes.
    rewrite Forall_forall in Hes. auto. }
  { rewrite size_insert_all by apply Hf. rewrite length_app, length_fmap. cbn. lia. }
  exists idx0, idx, fidx, (insert_all bs' ∅ !! h). unfold out. rewrite Hb, Hb'.
  split_and!; [done..|by eapply Lookup_rep|].
  rewrite (Lookup_rep idx _ _ h Hr) by done. f_equal. rewrite Hm. f_equal.
  by rewrite abs_run_inserts.
Qed.

Lemma fold_equals_open_and_flush_witness :
  let out := FoldDeltasStreamedWithBudget (Some (sortedFile [example_entry 1 1])) None
               (Marshal <$> example_deltas) 100 60 in
  ∃ idx0 idx fidx res, NewHashIndex (sortedFile [example_entry 1 1]) true = Ok idx0 ∧
    index_run idx0 ((OpInsert ∘ idx_of <$> concat example_deltas) ++ [OpFlush]) = (idx, None) ∧
    NewHashIndex (default [] (fo_base out)) true = Ok fidx ∧
    Lookup fidx (example_hash 1) = Ok res ∧ Lookup idx (example_hash 1) = Ok res.
Proof.
  apply (fold_equals_open_and_flush (Some (sortedFile [example_entry 1 1])) None [example_entry 1 1]
           (NewBloomFilter 100) example_deltas 100 60 true (example_hash 1)).
  - split; [apply example_file_ok|reflexivity].
  - reflexivity.
  - by_eval.
  - by_eval.
  - vm_compute. reflexivity.
  - by_eval.
  - discriminate.
Defined.

(** [FilterSortedIndex] keeps exactly the entries of the accepted packs, in
    order, so the result is again a well-formed sorted file; a file that ends
    inside a record is refused. *)
Theorem filter_sorted_exact (es : list IndexEntry) (torn : bytes) (keep : Z → bool) :
  file_ok es → len torn mod 48 ≠ 0 →
  FilterSortedIndex (sortedFile es) keep = Ok (sortedFile (filter (kept keep) es)) ∧
  file_ok (filter (kept keep) es) ∧
  FilterSortedIndex torn keep = Err FoldTruncated.
Proof.
  intros Hf Htorn. pose proof (file_ok_entries es Hf) as Hes. split_and!.
  - by apply FilterSortedIndex_file.
  - destruct Hf as [Hst Hnd Hs Hsm]. constructor.
    + rewrite Forall_forall in Hst |- *. intros e [_ He]%list_elem_of_filter. auto.
    + eapply sublist_NoDup; [exact Hnd|]. apply fmap_sublist, sublist_filter.
    + by apply StronglySorted_filter.
    + pose proof (sublist_length _ _ (sublist_filter (kept keep) es)). lia.
  - unfold FilterSortedIndex. pose proof (Z.div_mod (len torn) 48). pose proof (Z.mod_pos_bound (len torn) 48).
    apply (filterLoop_torn keep (Z.to_nat (len torn / 48))); lia.
Qed.

Lemma filter_sorted_exact_witness :
  FilterSortedIndex (sortedFile [example_entry 1 1]) (Z.eqb 2) =
    Ok (sortedFile (filter (kept (Z.eqb 2)) [example_entry 1 1])) ∧
  file_ok (filter (kept (Z.eqb 2)) [example_entry 1 1]) ∧
  FilterSortedIndex (zeros 50) (Z.eqb 2) = Err FoldTruncated.
Proof. apply filter_sorted_exact; [apply example_file_ok|discriminate]. Defined.
