(* ===== verification/Crypto.v ===== *)
(** * core/crypto: the encryption envelopes

    [EncryptWithAAD]/[DecryptWithAAD] and the file forms over them, the key
    file ([WrapKey], [GenerateKeyFile], [OpenMasterKey], [RewrapKeyFile],
    [SameKey]) and the two X25519 envelopes ([WrapKeyAsymmetric],
    [WrapSecretAsymmetric]).

    AES-GCM, X25519, HKDF and Argon2 are library code: a class states what the
    engine relies on.  Randomness (nonces, salts, ephemeral keys) is an
    argument.  A panic of the library is the error [CryptoPanic]. *)

From S2P Require Import Prelude GoBytes Hashes.

(** What the cryptographic libraries promise.  GCM is deterministic in key,
    nonce, data and plaintext, and opens exactly what it sealed. *)
Class Primitives := {
  Seal : bytes → bytes → bytes → bytes → bytes;               (* key nonce plaintext aad *)
  Open : bytes → bytes → bytes → bytes → option bytes;        (* key nonce ciphertext aad *)
  open_seal : ∀ k n p a, Open k n (Seal k n p a) a = Some p;
  open_inv : ∀ k n c a p, Open k n c a = Some p → c = Seal k n p a;
  length_Seal : ∀ k n p a, length (Seal k n p a) = (length p + 16)%nat;
  X25519 : bytes → bytes → option bytes;                      (* private key, public key *)
  PublicKeyOf : bytes → bytes;
  length_PublicKeyOf : ∀ a, length (PublicKeyOf a) = 32%nat;
  x25519_comm : ∀ a b, X25519 a (PublicKeyOf b) = X25519 b (PublicKeyOf a);
  hkdf32 : bytes → bytes → bytes;                             (* shared secret, info *)
  length_hkdf32 : ∀ s i, length (hkdf32 s i) = 32%nat;
  IDKey : string → bytes → Z → Z → Z → bytes;                 (* passphrase, salt, time, memory, threads *)
  length_IDKey : ∀ p s t m th, length (IDKey p s t m th) = 32%nat }.

Definition KeySize : Z := 32.
Definition NonceSize : Z := 12.
Definition TagSize : Z := 16.
Definition Overhead : Z := NonceSize + TagSize.
Definition SaltSize : Z := 16.

Inductive crypto_err :=
| CipherKeySize (n : Z) | CiphertextTooShort (n : Z) | AuthFailed | CryptoPanic
| ArgonTime | ArgonThreads | ArgonMemory | EcdhFailed | WrappedLength (n : Z)
| EmptyPassphrase | EmptySecret.

#[export] Instance crypto_err_eq_dec : EqDecision crypto_err.
Proof. solve_decision. Defined.

(** "disknexus/index/v1" *)
Definition AADIndex : bytes := [100;105;115;107;110;101;120;117;115;47;105;110;100;101;120;47;118;49].

Section crypto.
Context {PR : Primitives}.

(** [aes.NewCipher] accepts 16, 24 and 32-byte keys. *)
Definition newGCM (key : bytes) : result crypto_err unit :=
  if (len key =? 16) || (len key =? 24) || (len key =? 32) then Ok tt else Err (CipherKeySize (len key)).

(** [gcm.Open] panics when the nonce is not 12 bytes. *)
Definition gcmOpen (key nonce ciphertext aad : bytes) : result crypto_err bytes :=
  if negb (len nonce =? NonceSize) then Err CryptoPanic
  else of_option AuthFailed (Open key nonce ciphertext aad).

(** ** Authenticated encryption under the master key *)

Definition EncryptWithAAD (key nonce plaintext aad : bytes) : result crypto_err bytes :=
  let! _ := newGCM key in Ok (nonce ++ Seal key nonce plaintext aad).

Definition DecryptWithAAD (key data aad : bytes) : result crypto_err bytes :=
  if len data <? Overhead then Err (CiphertextTooShort (len data))
  else
    let! _ := newGCM key in
    gcmOpen key (take 12 data) (drop 12 data) aad.

Definition EncryptFile (key nonce src : bytes) : result crypto_err bytes := EncryptWithAAD key nonce src AADIndex.
Definition DecryptFile (key src : bytes) : result crypto_err bytes := DecryptWithAAD key src AADIndex.

(** ** Key files *)

Record Argon2Params := mkArgon { ap_Time : Z; ap_Memory : Z; ap_Threads : Z }.

Definition Validate (p : Argon2Params) : result crypto_err unit :=
  if ap_Time p <? 1 then Err ArgonTime
  else if ap_Threads p <? 1 then Err ArgonThreads
  else if ap_Memory p <? u32 (8 * ap_Threads p) then Err ArgonMemory
  else Ok tt.

Definition DefaultParams : Argon2Params := mkArgon 3 (64 * 1024) 4.

Definition DeriveKEK (passphrase : string) (salt : bytes) (p : Argon2Params) : bytes :=
  IDKey passphrase salt (ap_Time p) (ap_Memory p) (ap_Threads p).

Record KeyFile := mkKeyFile {
  kf_Params : Argon2Params; kf_Salt : bytes; kf_Nonce : bytes; kf_WrappedKey : bytes; kf_KeyID : bytes }.

(** [copy(mk.key[:], keyBytes)] into a zeroed 32-byte array. *)
Definition copyKey (b : bytes) : bytes := take 32 b ++ zeros (32 - length b).

Definition WrapKey (kek masterKey nonce : bytes) : result crypto_err (bytes * bytes) :=
  let! _ := newGCM kek in Ok (nonce, Seal kek nonce masterKey []).

Definition UnwrapKey (kek nonce wrapped : bytes) : result crypto_err bytes :=
  let! _ := newGCM kek in
  let! keyBytes := gcmOpen kek nonce wrapped [] in
  Ok (copyKey keyBytes).

(** "disknexus-key-id-v1" *)
Definition keyIDDomain : bytes :=
  [100;105;115;107;110;101;120;117;115;45;107;101;121;45;105;100;45;118;49].

Definition ID (masterKey : bytes) : bytes := Sum256 (keyIDDomain ++ masterKey).

(** [mk], [salt] and [nonce] are the random draws. *)
Definition GenerateKeyFile (passphrase : string) (mk salt nonce : bytes) : result crypto_err (KeyFile * bytes) :=
  let kek := DeriveKEK passphrase salt DefaultParams in
  let! ' (n, wrapped) := WrapKey kek mk nonce in
  Ok (mkKeyFile DefaultParams salt n wrapped (ID mk), mk).

Definition OpenMasterKey (passphrase : string) (kf : KeyFile) : result crypto_err bytes :=
  let! _ := Validate (kf_Params kf) in
  UnwrapKey (DeriveKEK passphrase (kf_Salt kf) (kf_Params kf)) (kf_Nonce kf) (kf_WrappedKey kf).

Definition RewrapKeyFile (mk : bytes) (passphrase : string) (salt nonce : bytes) : result crypto_err KeyFile :=
  if bool_decide (passphrase = ""%string) then Err EmptyPassphrase
  else
    let kek := DeriveKEK passphrase salt DefaultParams in
    let! ' (n, wrapped) := WrapKey kek mk nonce in
    Ok (mkKeyFile DefaultParams salt n wrapped (ID mk)).

Definition SameKey (kf other : KeyFile) : bool :=
  (len (kf_KeyID kf) =? 32) && (len (kf_KeyID other) =? 32) && bool_decide (kf_KeyID kf = kf_KeyID other).

(** ** X25519 envelopes *)

(** "disknexus-dek-wrap" and "disknexus-secret-wrap-v1" *)
Definition hkdfInfo : bytes :=
  [100;105;115;107;110;101;120;117;115;45;100;101;107;45;119;114;97;112].
Definition secretWrapInfo : bytes :=
  [100;105;115;107;110;101;120;117;115;45;115;101;99;114;101;116;45;119;114;97;112;45;118;49].

Definition WrapKeyAsymmetric (pub mk ephPriv nonce : bytes) : result crypto_err bytes :=
  let! shared := of_option EcdhFailed (X25519 ephPriv pub) in
  let wrappingKey := hkdf32 shared hkdfInfo in
  let! _ := newGCM wrappingKey in
  Ok (PublicKeyOf ephPriv ++ nonce ++ Seal wrappingKey nonce mk []).

Definition UnwrapKeyAsymmetric (priv wrapped : bytes) : result crypto_err bytes :=
  if negb (len wrapped =? 32 + NonceSize + KeySize + TagSize) then Err (WrappedLength (len wrapped))
  else
    let! shared := of_option EcdhFailed (X25519 priv (take 32 wrapped)) in
    let wrappingKey := hkdf32 shared hkdfInfo in
    let! _ := newGCM wrappingKey in
    let! keyBytes := gcmOpen wrappingKey (sub wrapped 32 12) (drop 44 wrapped) [] in
    Ok (copyKey keyBytes).

Definition SecretWrapOverhead : Z := 32 + NonceSize + TagSize.

Definition WrapSecretAsymmetric (pub secret ephPriv nonce : bytes) : result crypto_err bytes :=
  if bool_decide (secret = []) then Err EmptySecret
  else
    let! shared := of_option EcdhFailed (X25519 ephPriv pub) in
    let wrappingKey := hkdf32 shared secretWrapInfo in
    let! _ := newGCM wrappingKey in
    Ok (PublicKeyOf ephPriv ++ nonce ++ Seal wrappingKey nonce secret []).

Definition UnwrapSecretAsymmetric (priv wrapped : bytes) : result crypto_err bytes :=
  if len wrapped <=? SecretWrapOverhead then Err (WrappedLength (len wrapped))
  else
    let! shared := of_option EcdhFailed (X25519 priv (take 32 wrapped)) in
    let wrappingKey := hkdf32 shared secretWrapInfo in
    let! _ := newGCM wrappingKey in
    gcmOpen wrappingKey (sub wrapped 32 12) (drop 44 wrapped) [].

(** ** The envelopes open what they sealed, and nothing else *)

(** A master key is 32 bytes. *)
Definition key_ok (key : option bytes) : Prop := match key with Some k => length k = 32%nat | None => True end.

Lemma newGCM_32 k : length k = 32%nat → newGCM k = Ok tt.
Proof. intros Hl. unfold newGCM. by rewrite Hl. Qed.

Lemma gcmOpen_Ok k n c a p : gcmOpen k n c a = Ok p ↔ length n = 12%nat ∧ c = Seal k n p a.
Proof.
  unfold gcmOpen, NonceSize. destruct (Z.eqb_spec (len n) 12) as [Hn|Hn]; cbn [negb].
  - split.
    + destruct (Open k n c a) as [q|] eqn:Ho; [|done]. intros [= <-]. split; [lia|]. by apply open_inv.
    + intros [_ ->]. by rewrite open_seal.
  - split; [done|]. intros [H _]. lia.
Qed.

Lemma decrypt_encrypt k n p a :
  length k = 32%nat → length n = 12%nat →
  ∃ c, EncryptWithAAD k n p a = Ok c ∧ DecryptWithAAD k c a = Ok p ∧ len c = len p + Overhead.
Proof.
  intros Hk Hn. unfold EncryptWithAAD. rewrite newGCM_32 by done. eexists. split; [reflexivity|].
  pose proof (length_Seal k n p a) as Hs. assert (Hl : len (n ++ Seal k n p a) = len p + Overhead).
  { rewrite length_app. unfold Overhead, NonceSize, TagSize. lia. }
  split; [|done]. unfold DecryptWithAAD. rewrite (proj2 (Z.ltb_ge _ _)) by lia.
  rewrite newGCM_32 by done. cbn [rbind]. rewrite take_app_exact, drop_app_exact by done.
  by apply gcmOpen_Ok.
Qed.

Lemma decrypt_inv k c a p :
  DecryptWithAAD k c a = Ok p → EncryptWithAAD k (take 12 c) p a = Ok c.
Proof.
  unfold DecryptWithAAD, EncryptWithAAD. destruct (len c <? Overhead); [done|].
  destruct (newGCM k); cbn [rbind]; [|done]. intros [_ Hc]%gcmOpen_Ok. rewrite <- Hc. by rewrite take_drop.
Qed.

Lemma copyKey_32 k : length k = 32%nat → copyKey k = k.
Proof. intros Hl. unfold copyKey. rewrite take_ge, Hl by lia. by rewrite app_nil_r. Qed.

Lemma open_rewrapped pass mk salt nonce kf :
  length mk = 32%nat → length nonce = 12%nat →
  kf = mkKeyFile DefaultParams salt nonce (Seal (DeriveKEK pass salt DefaultParams) nonce mk []) (ID mk) →
  OpenMasterKey pass kf = Ok mk.
Proof.
  intros Hm Hn ->. unfold OpenMasterKey, UnwrapKey. cbn [kf_Params kf_Salt kf_Nonce kf_WrappedKey].
  change (Validate DefaultParams) with (Ok (E:=crypto_err) tt). cbn [rbind].
  rewrite newGCM_32 by apply length_IDKey. cbn [rbind].
  rewrite (proj2 (gcmOpen_Ok _ _ _ _ mk)) by done. cbn [rbind]. by rewrite copyKey_32.
Qed.

Lemma wrapped_fields (eph nonce c : bytes) :
  length eph = 32%nat → length nonce = 12%nat →
  take 32 (eph ++ nonce ++ c) = eph ∧ sub (eph ++ nonce ++ c) 32 12 = nonce ∧ drop 44 (eph ++ nonce ++ c) = c.
Proof.
  intros He Hn. split_and!; [by apply take_app_exact|field; done|].
  rewrite app_assoc. apply drop_app_exact. rewrite length_app. lia.
Qed.
End crypto.

(** ** A concrete instance

    Not secure: a checksum as the tag and exclusive-or as the group operation.
    It shows that the class can be implemented. *)

Definition toyTag (k n p a : bytes) : bytes := take 16 (Sum256 (k ++ n ++ a ++ p)).
Definition toySeal (k n p a : bytes) : bytes := p ++ toyTag k n p a.
Definition toyOpen (k n c a : bytes) : option bytes :=
  let p := take (length c - 16) c in
  if bool_decide (c = toySeal k n p a) then Some p else None.

Lemma length_toyTag k n p a : length (toyTag k n p a) = 16%nat.
Proof. unfold toyTag. rewrite length_take, length_Sum256. done. Qed.

Definition pad32 (l : bytes) : bytes := take 32 (l ++ zeros 32).
Definition toyDH (a b : bytes) : bytes := zip_with Z.lxor (pad32 a) (pad32 b).

Lemma length_pad32 l : length (pad32 l) = 32%nat.
Proof. unfold pad32. len. Qed.

Lemma pad32_idemp l : pad32 (pad32 l) = pad32 l.
Proof. unfold pad32 at 1. apply take_app_exact. by rewrite length_pad32. Qed.

#[export] Program Instance toyPrimitives : Primitives := {|
  Seal := toySeal;
  Open := toyOpen;
  X25519 := λ a b, Some (toyDH a b);
  PublicKeyOf := pad32;
  hkdf32 := λ s i, Sum256 (s ++ i);
  IDKey := λ p s t m th, Sum256 s |}.
Next Obligation.
  intros k n p a. unfold toyOpen, toySeal. cbv zeta.
  assert (Hp : take (length (p ++ toyTag k n p a) - 16) (p ++ toyTag k n p a) = p)
    by (apply take_app_exact; rewrite length_app, length_toyTag; lia).
  rewrite Hp. by rewrite bool_decide_true.
Qed.
Next Obligation.
  intros k n c a p. unfold toyOpen. case_bool_decide as Hc; [|done]. intros [= <-]. exact Hc.
Qed.
Next Obligation. intros k n p a. unfold toySeal. rewrite length_app, length_toyTag. done. Qed.
Next Obligation. intros a. apply length_pad32. Qed.
Next Obligation.
  intros a b. cbn beta. f_equal. unfold toyDH. rewrite !pad32_idemp.
  generalize (pad32 a) (pad32 b). intros l. induction l as [|x l IH]; intros [|y k]; try done.
  cbn [zip_with]. rewrite Z.lxor_comm. f_equal. apply IH.
Qed.
Next Obligation. intros s i. apply length_Sum256. Qed.
Next Obligation. intros p s t m th. apply length_Sum256. Qed.

(** ** Properties *)

(** Envelopes under the master key: decrypting what was encrypted under the
    same key and domain tag gives the plaintext back, 28 bytes shorter, and
    nothing decrypts but the encryption of the plaintext it yields. *)
Theorem aead_envelope_exact `{!Primitives} (key nonce plaintext aad c p : bytes) :
  length key = 32%nat → length nonce = 12%nat →
  (∃ out, EncryptWithAAD key nonce plaintext aad = Ok out ∧ DecryptWithAAD key out aad = Ok plaintext ∧
     len out = len plaintext + Overhead) ∧
  (DecryptWithAAD key c aad = Ok p → EncryptWithAAD key (take 12 c) p aad = Ok c).
Proof. intros Hk Hn. split; [by apply decrypt_encrypt|apply decrypt_inv]. Qed.

Lemma aead_envelope_exact_witness :
  (∃ out, EncryptWithAAD (zeros 32) (zeros 12) [1; 2; 3] AADIndex = Ok out ∧
     DecryptWithAAD (zeros 32) out AADIndex = Ok [1; 2; 3] ∧ len out = len [1; 2; 3] + Overhead) ∧
  (DecryptWithAAD (zeros 32) [] AADIndex = Ok [] →
     EncryptWithAAD (zeros 32) (take 12 []) [] AADIndex = Ok []).
Proof. apply aead_envelope_exact; reflexivity. Defined.

(** A key file opens with its passphrase to the master key it wraps, and
    rotation is a new file for the same key: the rewrapped file opens with the
    new passphrase to the same key, and the two files recognise each other. *)
Theorem key_file_rotation `{!Primitives} (pass pass' : string) (mk salt salt' nonce nonce' : bytes) :
  length mk = 32%nat → length nonce = 12%nat → length nonce' = 12%nat → pass' ≠ ""%string →
  ∃ kf kf', GenerateKeyFile pass mk salt nonce = Ok (kf, mk) ∧ OpenMasterKey pass kf = Ok mk ∧
    RewrapKeyFile mk pass' salt' nonce' = Ok kf' ∧ OpenMasterKey pass' kf' = Ok mk ∧
    SameKey kf kf' = true.
Proof.
  intros Hm Hn Hn' Hp. unfold GenerateKeyFile, RewrapKeyFile, WrapKey.
  rewrite bool_decide_false by done. rewrite !newGCM_32 by apply length_IDKey. cbn [rbind].
  eexists _, _. split_and!; [reflexivity|by apply (open_rewrapped pass mk salt nonce)|reflexivity
    |by apply (open_rewrapped pass' mk salt' nonce')|].
  unfold SameKey, ID. cbn [kf_KeyID]. rewrite length_Sum256.
  apply andb_true_intro. split; [reflexivity|by apply bool_decide_eq_true].
Qed.

Lemma key_file_rotation_witness :
  ∃ kf kf', GenerateKeyFile "old" (zeros 32) (zeros 16) (zeros 12) = Ok (kf, zeros 32) ∧
    OpenMasterKey "old" kf = Ok (zeros 32) ∧
    RewrapKeyFile (zeros 32) "new" (zeros 16) (zeros 12) = Ok kf' ∧ OpenMasterKey "new" kf' = Ok (zeros 32) ∧
    SameKey kf kf' = true.
Proof. apply key_file_rotation; (reflexivity || discriminate). Defined.

(** The X25519 envelopes: a master key or a non-empty secret wrapped to a
    public key unwraps with the matching private key, whenever the exchange
    itself succeeds. *)
Theorem asymmetric_unwrap_wrap `{!Primitives} (priv ephPriv mk secret nonce shared : bytes) :
  length mk = 32%nat → length nonce = 12%nat → secret ≠ [] →
  X25519 ephPriv (PublicKeyOf priv) = Some shared →
  ∃ w1 w2, WrapKeyAsymmetric (PublicKeyOf priv) mk ephPriv nonce = Ok w1 ∧
    UnwrapKeyAsymmetric priv w1 = Ok mk ∧
    WrapSecretAsymmetric (PublicKeyOf priv) secret ephPriv nonce = Ok w2 ∧
    UnwrapSecretAsymmetric priv w2 = Ok secret.
Proof.
  intros Hm Hn Hs Hsh. unfold WrapKeyAsymmetric, WrapSecretAsymmetric. rewrite Hsh. cbn [of_option rbind].
  rewrite bool_decide_false by done. rewrite !newGCM_32 by apply length_hkdf32. cbn [rbind].
  eexists _, _. split_and!; [reflexivity| |reflexivity|].
  - unfold UnwrapKeyAsymmetric.
    destruct (wrapped_fields (PublicKeyOf ephPriv) nonce (Seal (hkdf32 shared hkdfInfo) nonce mk [])
      (length_PublicKeyOf _) Hn) as (-> & -> & ->).
    rewrite !length_app, length_PublicKeyOf, length_Seal, Hn, Hm. cbn [negb Z.eqb].
    change (negb _) with false. cbn match. rewrite x25519_comm, Hsh. cbn [of_option rbind].
    rewrite newGCM_32 by apply length_hkdf32. cbn [rbind].
    rewrite (proj2 (gcmOpen_Ok _ _ _ _ mk)) by done. cbn [rbind]. by rewrite copyKey_32.
  - unfold UnwrapSecretAsymmetric.
    destruct (wrapped_fields (PublicKeyOf ephPriv) nonce (Seal (hkdf32 shared secretWrapInfo) nonce secret [])
      (length_PublicKeyOf _) Hn) as (-> & -> & ->).
    rewrite (proj2 (Z.leb_gt _ _)).
    2:{ rewrite !length_app, length_PublicKeyOf, length_Seal, Hn. unfold SecretWrapOverhead, NonceSize, TagSize.
        destruct secret; [done|]. cbn [length]. lia. }
    rewrite x25519_comm, Hsh. cbn [of_option rbind]. rewrite newGCM_32 by apply length_hkdf32. cbn [rbind].
    by apply gcmOpen_Ok.
Qed.

Lemma asymmetric_unwrap_wrap_witness :
  ∃ w1 w2, WrapKeyAsymmetric (PublicKeyOf [7]) (zeros 32) [9] (zeros 12) = Ok w1 ∧
    UnwrapKeyAsymmetric [7] w1 = Ok (zeros 32) ∧
    WrapSecretAsymmetric (PublicKeyOf [7]) [1; 2] [9] (zeros 12) = Ok w2 ∧
    UnwrapSecretAsymmetric [7] w2 = Ok [1; 2].
Proof. eapply asymmetric_unwrap_wrap; (reflexivity || discriminate). Defined.

(** Opening a key file whose stored nonce is not 12 bytes panics: the Argon2
    parameters are validated, the nonce is not. *)
Theorem key_file_nonce_panics `{!Primitives} (pass : string) (kf : KeyFile) :
  Validate (kf_Params kf) = Ok tt → length (kf_Nonce kf) ≠ 12%nat → OpenMasterKey pass kf = Err CryptoPanic.
Proof.
  intros Hv Hn. unfold OpenMasterKey, UnwrapKey. rewrite Hv. cbn [rbind].
  rewrite newGCM_32 by apply length_IDKey. cbn [rbind]. unfold gcmOpen, NonceSize.
  by rewrite (proj2 (Z.eqb_neq _ _)) by lia.
Qed.

Lemma key_file_nonce_panics_witness :
  OpenMasterKey "p" (mkKeyFile DefaultParams [] [] [] []) = Err CryptoPanic.
Proof. apply key_file_nonce_panics; (reflexivity || discriminate). Defined.
