(* ===== verification/Dedup.v ===== *)
(** * core/index/dedup.go, deltacapture.go, deltaapply.go: the dedup index

    The two-tier lookup is stated against two interfaces: a filter that never
    forgets what was added ([ChunkFilter]) and an index that refines a map
    ([ChunkIndex]).  [BloomFilter] and [HashIndex] implement them.  Over the
    two tiers: opening a directory (decrypting its files, merging the pending
    delta objects), the journal that captures a session's inserts as a delta
    object, flushing, closing and discarding, for plain and encrypted
    repositories.

    A directory is the contents of its files; nonces are arguments. *)

From S2P Require Import Prelude GoBytes GoRuntime Hashes HashTable HashBuild HashIndex Delta Bloom Fold Crypto.

(** ** Interfaces of the two tiers *)

Class ChunkFilter (F : Type) := {
  cf_add : F → Z → option F;
  cf_may : F → Z → option bool;
  cf_ok : F → Prop;
  cf_may_total : ∀ f w, cf_ok f → is_Some (cf_may f w);
  cf_add_spec : ∀ f w, cf_ok f → ∃ f', cf_add f w = Some f' ∧ cf_ok f' ∧ cf_may f' w = Some true ∧
    ∀ v, cf_may f v = Some true → cf_may f' v = Some true }.

Class ChunkIndex (I : Type) := {
  ci_lookup : I → bytes → result index_err (option IndexEntry);
  ci_insert : I → bytes → Z → Z → Z → I;
  ci_rep : I → gmap bytes IndexEntry → Prop;
  ci_lookup_spec : ∀ i m h, ci_rep i m → bytes_ok h → h ≠ zeroHash → ci_lookup i h = Ok (m !! h);
  ci_insert_spec : ∀ i m h p o c, ci_rep i m → storable (mkEntry h p o c) →
    ci_rep (ci_insert i h p o c) (<[h := mkEntry h p o c]> m) }.

Inductive dedup_err :=
| DdNoKey | DdDecrypt (e : crypto_err) | DdEncrypt (e : crypto_err) | DdBloom (e : bloom_err)
| DdIndex (e : index_err) | DdDelta (e : delta_err) | DdDeltaNoKey | DdPanic | DdArmed.

Record DedupResult := mkResult { dr_IsNew : bool; dr_Entry : option IndexEntry; dr_BloomHit : bool; dr_BloomMiss : bool }.

Section tiers.
Context {F I : Type} {CF : ChunkFilter F} {CI : ChunkIndex I}.

Definition Check' (f : F) (i : I) (weak : Z) (strong : bytes) : result dedup_err DedupResult :=
  match cf_may f weak with
  | None => Err DdPanic
  | Some false => Ok (mkResult true None false true)
  | Some true =>
      match ci_lookup i strong with
      | Err e => Err (DdIndex e)
      | Ok (Some entry) => Ok (mkResult false (Some entry) true false)
      | Ok None => Ok (mkResult true None true false)
      end
  end.

(** [insertNoCapture] on the two tiers. *)
Definition insertTiers (f : F) (i : I) (weak : Z) (strong : bytes) (p o c : Z) : option (F * I) :=
  f' ← cf_add f weak; Some (f', ci_insert i strong p o c).

(** The filter knows the weak hash of every chunk in [ids]. *)
Record tiers_rep (f : F) (i : I) (m : gmap bytes IndexEntry) (ids : list (Z * bytes)) : Prop := {
  tr_filter : cf_ok f;
  tr_index : ci_rep i m;
  tr_known : ∀ w h, (w, h) ∈ ids → cf_may f w = Some true }.

Lemma insertTiers_rep f i m ids w h p o c :
  tiers_rep f i m ids → storable (mkEntry h p o c) →
  ∃ f', insertTiers f i w h p o c = Some (f', ci_insert i h p o c) ∧
    tiers_rep f' (ci_insert i h p o c) (<[h := mkEntry h p o c]> m) (ids ++ [(w, h)]).
Proof.
  intros [Hf Hi Hk] He. destruct (cf_add_spec f w Hf) as (f' & Ha & Hok & Hw & Hmono).
  exists f'. unfold insertTiers. rewrite Ha. split; [done|]. constructor; [done|by apply ci_insert_spec|].
  intros v g [Hin|Hin]%elem_of_app; [by eapply Hmono, Hk|]. by apply list_elem_of_singleton in Hin as [= -> ->].
Qed.

(** Known chunks get the index's answer; any positive answer is the index's. *)
Lemma Check_rep f i m ids w h :
  tiers_rep f i m ids → bytes_ok h → h ≠ zeroHash →
  ∃ r, Check' f i w h = Ok r ∧ (dr_IsNew r = false ↔ is_Some (dr_Entry r)) ∧
    (∀ e, dr_Entry r = Some e → m !! h = Some e) ∧
    ((w, h) ∈ ids → dr_Entry r = m !! h ∧ dr_BloomHit r = true).
Proof.
  intros [Hf Hi Hk] Hb Hz. unfold Check'. destruct (cf_may_total f w Hf) as [[|] Hm]; rewrite Hm.
  - rewrite (ci_lookup_spec i m) by done. destruct (m !! h) as [e|]; eexists; (split; [reflexivity|]); cbn;
      (split; [naive_solver|]); split; try done; naive_solver.
  - eexists. split; [reflexivity|]. cbn. split; [naive_solver|]. split; [done|].
    intros Hin. rewrite (Hk _ _ Hin) in Hm. done.
Qed.
End tiers.

#[export] Program Instance bloom_filter : ChunkFilter BloomFilter :=
  {| cf_add := Add; cf_may := MayContain; cf_ok := bloom_ok |}.
Next Obligation.
  intros f w Hf. destruct (MayContain_total f w Hf) as [b Hb]. by exists b.
Qed.
Next Obligation.
  intros f w Hf. destruct (Add_spec f w Hf) as (f' & Ha & Hok & _ & _ & Hw & Hmono). by exists f'.
Qed.

(** The index's map, whatever its file holds. *)
Definition idx_visible (idx : HashIndex) (m : gmap bytes IndexEntry) : Prop := ∃ D, idx_rep idx D m.

#[export] Program Instance hash_index : ChunkIndex HashIndex :=
  {| ci_lookup := Lookup; ci_insert := Insert; ci_rep := idx_visible |}.
Next Obligation. intros i m h [D Hr]. by apply Lookup_rep with D. Qed.
Next Obligation. intros i m h p o c [D Hr] He. exists D. by apply Insert_rep. Qed.

(** ** State *)

(** The index directory at rest. *)
Record index_dir := mkDir {
  id_bloom : option bytes; id_bloom_enc : option bytes;
  id_index : option bytes; id_index_enc : option bytes;
  id_deltas : list (string * bytes) }.    (* deltas/, in name order *)

Record deltaCapture := mkCapture {
  dc_payload : bytes;      (* entries appended to the journal *)
  dc_sum : bytes;          (* what the running SHA-256 has absorbed *)
  dc_count : Z }.

Record DedupIndex := mkDedup {
  di_bloom : BloomFilter;
  di_index : HashIndex;           (* [hash-index.db] is its [ix_disk] *)
  di_dir : index_dir;             (* the directory's other files *)
  di_key : option bytes;
  di_bloomMissing : bool;
  di_delta : option deltaCapture;
  di_journal : option bytes;      (* the journal file *)
  di_journal_enc : option bytes }.

Section dedup.
Context {MR : MapRange} {SS : SortSlice} {PR : Primitives}.

Definition set_tiers (d : DedupIndex) (bf : BloomFilter) (idx : HashIndex) : DedupIndex :=
  mkDedup bf idx (di_dir d) (di_key d) (di_bloomMissing d) (di_delta d) (di_journal d) (di_journal_enc d).

Definition set_dir (d : DedupIndex) (dir : index_dir) : DedupIndex :=
  mkDedup (di_bloom d) (di_index d) dir (di_key d) (di_bloomMissing d) (di_delta d) (di_journal d) (di_journal_enc d).

Definition set_capture (d : DedupIndex) (c : option deltaCapture) (j je : option bytes) : DedupIndex :=
  mkDedup (di_bloom d) (di_index d) (di_dir d) (di_key d) (di_bloomMissing d) c j je.

(** ** Insert and lookup *)

Definition Check (d : DedupIndex) (weak : Z) (strong : bytes) : result dedup_err DedupResult :=
  Check' (di_bloom d) (di_index d) weak strong.

Definition LookupDirect (d : DedupIndex) (strong : bytes) : result index_err (option IndexEntry) :=
  Lookup (di_index d) strong.

Definition insertNoCapture (d : DedupIndex) (weak : Z) (strong : bytes) (p o c : Z) : option DedupIndex :=
  '(bf, idx) ← insertTiers (di_bloom d) (di_index d) weak strong p o c; Some (set_tiers d bf idx).

Definition captureInsert (d : DedupIndex) (weak : Z) (strong : bytes) (p o c : Z) : DedupIndex :=
  match di_delta d with
  | None => d
  | Some dc =>
      let buf := EncodeDeltaEntry (mkDelta strong weak p o c) in
      set_capture d (Some (mkCapture (dc_payload dc ++ buf) (dc_sum dc ++ buf) (u64 (dc_count dc + 1))))
        (di_journal d) (di_journal_enc d)
  end.

(** A panic of the filter is [None]. *)
Definition DInsert (d : DedupIndex) (weak : Z) (strong : bytes) (p o c : Z) : option DedupIndex :=
  d ← insertNoCapture d weak strong p o c; Some (captureInsert d weak strong p o c).

Definition FlushHashIndex (d : DedupIndex) : DedupIndex * option dedup_err :=
  let '(idx, err) := FlushDelta (di_index d) in
  (set_tiers d (di_bloom d) idx, DdIndex <$> err).

Definition BloomSuspect (d : DedupIndex) : bool := di_bloomMissing d && (0 <? Count (di_index d)).

(** ** Delta objects *)

Fixpoint ApplyTo (es : list DeltaEntry) (d : DedupIndex) : option DedupIndex :=
  match es with
  | [] => Some d
  | e :: es =>
      d ← insertNoCapture d (de_WeakHash e) (de_StrongHash e) (de_PackNumber e) (de_StoreOffset e) (de_ChunkLength e);
      ApplyTo es d
  end.

Definition hasSuffix (s suf : string) : bool :=
  let n := String.length s in
  let k := String.length suf in
  (k <=? n)%nat && String.eqb (String.substring (n - k) k s) suf.

Definition deltaSuffix : string := ".delta".
Definition deltaEncSuffix : string := ".delta.enc".

Definition deltaObjects (dir : index_dir) : list (string * bytes) :=
  filter (λ nf, hasSuffix nf.1 deltaSuffix || hasSuffix nf.1 deltaEncSuffix = true) (id_deltas dir).

Definition readDeltaObject (d : DedupIndex) (nf : string * bytes) : result dedup_err bytes :=
  if negb (hasSuffix nf.1 deltaEncSuffix) then Ok nf.2
  else match di_key d with
       | None => Err DdDeltaNoKey
       | Some key => match DecryptFile key nf.2 with Ok b => Ok b | Err e => Err (DdDecrypt e) end
       end.

Fixpoint applyDeltas (nfs : list (string * bytes)) (d : DedupIndex) (merged : Z) : result dedup_err (DedupIndex * Z) :=
  match nfs with
  | [] => Ok (d, merged)
  | nf :: nfs =>
      let! blob := readDeltaObject d nf in
      match ParseDelta blob with
      | Err e => Err (DdDelta e)
      | Ok es =>
          let! d := of_option DdPanic (ApplyTo es d) in
          applyDeltas nfs d (merged + len es)
      end
  end.

Definition applyPendingDeltas (d : DedupIndex) (baseWasEmpty : bool) : result dedup_err (DedupIndex * Z) :=
  let! ' (d, merged) := applyDeltas (deltaObjects (di_dir d)) d 0 in
  let missing := if (0 <? merged) && baseWasEmpty then false else di_bloomMissing d in
  Ok (mkDedup (di_bloom d) (di_index d) (di_dir d) (di_key d) missing (di_delta d) (di_journal d) (di_journal_enc d), merged).

(** ** Opening *)

Definition refuseEncryptedWithoutKey (dir : index_dir) : result dedup_err unit :=
  match id_index_enc dir, id_bloom_enc dir with
  | None, None => Ok tt
  | _, _ => Err DdNoKey
  end.

(** An [.enc] object replaces the plaintext working copy. *)
Definition decryptOver (key : bytes) (enc plain : option bytes) : result dedup_err (option bytes) :=
  match enc with
  | None => Ok plain
  | Some c => match DecryptFile key c with Ok p => Ok (Some p) | Err e => Err (DdDecrypt e) end
  end.

Definition decryptDir (dir : index_dir) (key : option bytes) : result dedup_err index_dir :=
  match key with
  | Some mk =>
      let! b := decryptOver mk (id_bloom_enc dir) (id_bloom dir) in
      let! i := decryptOver mk (id_index_enc dir) (id_index dir) in
      Ok (mkDir b (id_bloom_enc dir) i (id_index_enc dir) (id_deltas dir))
  | None => let! _ := refuseEncryptedWithoutKey dir in Ok dir
  end.

(** Both opens: [skip] is the read-only one, which does not track a missing
    filter.  [raw] sizes a filter that has to be built. *)
Definition openDedup (skip : bool) (dir : index_dir) (raw : Z) (key : option bytes) : result dedup_err DedupIndex :=
  let! dir := decryptDir dir key in
  let! ' (bf, dir', missing) :=
    match id_bloom dir with
    | Some b =>
        match LoadBloomFilter b with
        | Err e => Err (DdBloom e)
        | Ok bf => Ok (bf, mkDir (match key with Some _ => None | None => Some b end)
                             (id_bloom_enc dir) (id_index dir) (id_index_enc dir) (id_deltas dir), false)
        end
    | None => Ok (NewBloomFilter raw, dir, negb skip)
    end in
  match NewHashIndex (default [] (id_index dir')) skip with
  | Err e => Err (DdIndex e)
  | Ok idx =>
      let! ' (d, _) := applyPendingDeltas (mkDedup bf idx dir' key missing None None None) (ix_diskSize idx =? 0) in
      Ok d
  end.

Definition NewDedupIndex := openDedup false.
Definition NewDedupIndexReadOnly := openDedup true.

(** ** The session's delta journal *)

Definition CaptureDelta (d : DedupIndex) : result dedup_err DedupIndex :=
  match di_delta d with
  | Some _ => Err DdArmed
  | None => Ok (set_capture d (Some (mkCapture [] [] 0)) (Some (zeros 64)) (di_journal_enc d))
  end.

(** The header is patched over the placeholder; an encrypted repository gets
    the object's encrypted form beside it. *)
Definition WriteDeltaObject (d : DedupIndex) (nonce : bytes) : DedupIndex * option dedup_err :=
  match di_delta d with
  | None => (d, None)
  | Some c =>
      let file := DeltaHeader (dc_count c) (Sum256 (dc_sum c)) ++ dc_payload c in
      let d := set_capture d (Some c) (Some file) (di_journal_enc d) in
      if dc_count c =? 0 then (d, None)
      else match di_key d with
           | None => (d, None)
           | Some key =>
               match EncryptFile key nonce file with
               | Ok e => (set_capture d (Some c) (Some file) (Some e), None)
               | Err e => (d, Some (DdEncrypt e))
               end
           end
  end.

Definition closeDelta (d : DedupIndex) (discard : bool) (nonce : bytes) : DedupIndex * option dedup_err :=
  match di_delta d with
  | None => (d, None)
  | Some c =>
      if discard then (set_capture d None None None, None)
      else
        let '(d, err) := WriteDeltaObject d nonce in
        match err with
        | Some e => (set_capture d None (di_journal d) (di_journal_enc d), Some e)
        | None =>
            if dc_count c =? 0 then (set_capture d None None (di_journal_enc d), None)
            else (set_capture d None (match di_key d with Some _ => None | None => di_journal d end)
                    (di_journal_enc d), None)
        end
  end.

(** ** Flushing and closing *)

(** [n1], [n2], [n3] are the nonces of the filter, the index and the journal. *)
Definition DFlush (d : DedupIndex) (n1 n2 n3 : bytes) : DedupIndex * option dedup_err :=
  let saved := Save (di_bloom d) in
  let dir := di_dir d in
  let dir1 := mkDir (Some saved) (id_bloom_enc dir) (id_index dir) (id_index_enc dir) (id_deltas dir) in
  match Flush (di_index d) with
  | (idx, Some e) => (set_dir (set_tiers d (di_bloom d) idx) dir1, Some (DdIndex e))
  | (idx, None) =>
      let d := set_tiers d (di_bloom d) idx in
      match di_key d with
      | None => WriteDeltaObject (set_dir d dir1) n3
      | Some key =>
          match EncryptFile key n1 saved with
          | Err e => (set_dir d dir1, Some (DdEncrypt e))
          | Ok be =>
              match EncryptFile key n2 (ix_disk idx) with
              | Err e => (set_dir d (mkDir None (Some be) (id_index dir) (id_index_enc dir) (id_deltas dir)),
                          Some (DdEncrypt e))
              | Ok ie => WriteDeltaObject (set_dir d (mkDir None (Some be) (id_index dir) (Some ie) (id_deltas dir))) n3
              end
          end
      end
  end.

(** The directory a closed index leaves: its [hash-index.db] is the index's
    file, removed for an encrypted repository. *)
Definition leaveDir (d : DedupIndex) (bloom : option bytes) (idx : HashIndex) : index_dir :=
  mkDir bloom (id_bloom_enc (di_dir d)) (match di_key d with Some _ => None | None => Some (ix_disk idx) end)
    (id_index_enc (di_dir d)) (id_deltas (di_dir d)).

Definition DCloseDiscard (d : DedupIndex) : DedupIndex * index_dir :=
  let '(d, _) := closeDelta d true [] in
  let idx := CloseDiscard (di_index d) in
  (set_tiers d (di_bloom d) idx,
   leaveDir d (match di_key d with Some _ => None | None => id_bloom (di_dir d) end) idx).

(** On a failed flush the index is closed anyway and its file stays. *)
Definition DClose (d : DedupIndex) (n1 n2 n3 n4 : bytes) : DedupIndex * index_dir * option dedup_err :=
  let failed d err :=
    let '(idx, _) := Close (di_index d) in
    let dir := di_dir d in
    (set_tiers d (di_bloom d) idx,
     mkDir (id_bloom dir) (id_bloom_enc dir) (Some (ix_disk idx)) (id_index_enc dir) (id_deltas dir), Some err) in
  match DFlush d n1 n2 n3 with
  | (d, Some err) => let '(d, _) := closeDelta d true n4 in failed d err
  | (d, None) =>
      match closeDelta d false n4 with
      | (d, Some err) => failed d err
      | (d, None) =>
          let '(idx, err) := Close (di_index d) in
          (set_tiers d (di_bloom d) idx, leaveDir d (id_bloom (di_dir d)) idx, DdIndex <$> err)
      end
  end.

Definition ReadAllEntries (d : DedupIndex) : DedupIndex * result index_err (list IndexEntry) :=
  match Flush (di_index d) with
  | (idx, Some e) => (set_tiers d (di_bloom d) idx, Err e)
  | (idx, None) => (set_tiers d (di_bloom d) idx, ReadAll idx)
  end.

(** ** The representation *)

Definition id_of (e : DeltaEntry) : Z * bytes := (de_WeakHash e, de_StrongHash e).

(** The index holds [M] over the file's [D]; the filter knows [ids]; the journal,
    when armed, holds exactly [cap]. *)
Record dedup_rep (d : DedupIndex) (D M : gmap bytes IndexEntry) (ids : list (Z * bytes))
    (cap : list DeltaEntry) : Prop := {
  dr_bloom : bloom_ok (di_bloom d);
  dr_index : idx_rep (di_index d) D M;
  dr_known : ∀ w h, (w, h) ∈ ids → MayContain (di_bloom d) w = Some true;
  dr_capture : match di_delta d with
               | None => True
               | Some c => dc_payload c = deltaPayload cap ∧ dc_sum c = deltaPayload cap ∧ dc_count c = len cap
               end }.

(** A filter after the additions of [ws]: it keeps its positive answers, and all its answers
    when it knew [ws] already. *)
Record filter_grows (f f' : BloomFilter) (ws : list Z) : Prop := {
  fg_keeps : ∀ v, MayContain f v = Some true → MayContain f' v = Some true;
  fg_same : (∀ w, w ∈ ws → MayContain f w = Some true) → ∀ v, MayContain f' v = MayContain f v }.

Lemma filter_grows_app f1 f2 f3 ws1 ws2 : filter_grows f1 f2 ws1 → filter_grows f2 f3 ws2 → filter_grows f1 f3 (ws1 ++ ws2).
Proof.
  intros [K1 S1] [K2 S2]. split; [auto|]. intros H v. assert (H1 : ∀ u, MayContain f2 u = MayContain f1 u) by (apply S1; intros w Hw; apply H, elem_of_app; by left).
  rewrite S2, H1; [done|]. intros w Hw. rewrite H1. apply H, elem_of_app. by right.
Qed.

Lemma dedup_tiers d D M ids cap :
  dedup_rep d D M ids cap → tiers_rep (di_bloom d) (di_index d) M ids.
Proof. intros [Hb Hi Hk _]. constructor; [done|by exists D|done]. Qed.

Lemma insertNoCapture_rep d D M ids cap e :
  dedup_rep d D M ids cap → foldable e →
  ∃ d', insertNoCapture d (de_WeakHash e) (de_StrongHash e) (de_PackNumber e) (de_StoreOffset e) (de_ChunkLength e) = Some d' ∧
    dedup_rep d' D (<[de_StrongHash e := idx_of e]> M) (ids ++ [id_of e]) cap ∧
    di_delta d' = di_delta d ∧ di_key d' = di_key d ∧ di_dir d' = di_dir d ∧
    di_bloomMissing d' = di_bloomMissing d ∧
    ix_noHtab (di_index d') = ix_noHtab (di_index d) ∧
    filter_grows (di_bloom d) (di_bloom d') [de_WeakHash e].
Proof.
  intros Hr He. pose proof Hr as [Hb Hi Hk Hc]. unfold insertNoCapture, insertTiers.
  destruct (Add_spec (di_bloom d) (de_WeakHash e) Hb) as (bf & Ha & Hok & _ & _ & Hw & Hmono).
  cbn [cf_add bloom_filter]. rewrite Ha. cbn. eexists. split; [reflexivity|]. split_and!; try done;
    [|split; [done|]; intros Hws; apply (Add_known _ _ _ Hb (Hws _ (list_elem_of_here _ _)) Ha)].
  constructor; cbn; [done|apply (Insert_rep _ D M); [done|by apply foldable_storable]| |done].
  intros w h [Hin|Hin]%elem_of_app; [by eapply Hmono, Hk|]. by apply list_elem_of_singleton in Hin as [= -> ->].
Qed.

Lemma ApplyTo_rep es : ∀ d D M ids cap,
  dedup_rep d D M ids cap → Forall foldable es →
  ∃ d', ApplyTo es d = Some d' ∧ dedup_rep d' D (insert_all (idx_of <$> es) M) (ids ++ (id_of <$> es)) cap ∧
    di_delta d' = di_delta d ∧ di_key d' = di_key d ∧ di_dir d' = di_dir d ∧
    di_bloomMissing d' = di_bloomMissing d ∧ ix_noHtab (di_index d') = ix_noHtab (di_index d) ∧
    filter_grows (di_bloom d) (di_bloom d') (de_WeakHash <$> es).
Proof.
  induction es as [|e es IH]; intros d D M ids cap Hr Hes; cbn [ApplyTo].
  - exists d. rewrite app_nil_r. by split_and!.
  - apply Forall_cons in Hes as [He Hes]. rewrite fmap_cons, (fmap_cons de_WeakHash).
    destruct (insertNoCapture_rep d D M ids cap e Hr He) as (d1 & -> & Hr1 & H1 & H2 & H3 & H4 & H5 & H6). cbn.
    destruct (IH d1 _ _ _ _ Hr1 Hes) as (d2 & -> & Hr2 & J1 & J2 & J3 & J4 & J5 & J6).
    exists d2. rewrite <- app_assoc in Hr2. split_and!; try congruence; auto. exact (filter_grows_app _ _ _ [_] _ H6 J6).
Qed.

(** The objects of the directory, read with the key, are the marshalled [ess]. *)
Definition objects_hold (key : option bytes) (nfs : list (string * bytes)) (ess : list (list DeltaEntry)) : Prop :=
  Forall2 (λ nf es, (if hasSuffix nf.1 deltaEncSuffix
                     then ∃ k, key = Some k ∧ DecryptFile k nf.2 = Ok (Marshal es)
                     else nf.2 = Marshal es) ∧ Forall foldable es ∧ len es < 2 ^ 36) nfs ess.

Lemma applyDeltas_rep nfs ess : ∀ d D M ids cap merged,
  objects_hold (di_key d) nfs ess → dedup_rep d D M ids cap →
  ∃ d', applyDeltas nfs d merged = Ok (d', merged + len (concat ess)) ∧
    dedup_rep d' D (insert_all (idx_of <$> concat ess) M) (ids ++ (id_of <$> concat ess)) cap ∧
    di_delta d' = di_delta d ∧ di_key d' = di_key d ∧ di_dir d' = di_dir d ∧
    di_bloomMissing d' = di_bloomMissing d ∧ ix_noHtab (di_index d') = ix_noHtab (di_index d) ∧
    filter_grows (di_bloom d) (di_bloom d') (de_WeakHash <$> concat ess).
Proof.
  induction nfs as [|nf nfs IH] in ess |- *; intros d D M ids cap merged Ho Hr; inversion Ho as [|? es ? ess' Hh Ht]; subst; cbn [applyDeltas].
  - exists d. cbn [concat fmap list_fmap length]. rewrite Z.add_0_r, app_nil_r. by split_and!.
  - destruct Hh as (Hrd & Hes & Hl). assert (Hread : readDeltaObject d nf = Ok (Marshal es)).
    { unfold readDeltaObject. destruct (hasSuffix nf.1 deltaEncSuffix); cbn [negb]; [|by f_equal].
      destruct Hrd as (k & -> & ->). done. }
    rewrite Hread. cbn [rbind].
    assert (Hok : Forall delta_ok es) by (eapply Forall_impl; [exact Hes|by intros ? []]).
    destruct (Marshal_readers es Hok ltac:(lia)) as (-> & _).
    destruct (ApplyTo_rep es d D M ids cap Hr Hes) as (d1 & -> & Hr1 & H1 & H2 & H3 & H4 & H5 & H6). cbn [of_option rbind].
    rewrite <- H2 in Ht. destruct (IH ess' d1 _ _ _ _ (merged + len es) Ht Hr1) as (d2 & -> & Hr2 & J1 & J2 & J3 & J4 & J5 & J6).
    exists d2. cbn [concat]. rewrite !fmap_app. unfold insert_all in *. rewrite foldl_app, app_assoc.
    split_and!; try congruence; auto; [do 2 f_equal; rewrite length_app; lia|by eapply filter_grows_app].
Qed.

(** A directory at rest: opened with [key] it holds the filter [bf0], the sorted
    entries [bs] and the pending deltas [ess]. *)
Record dir_holds (key : option bytes) (dir : index_dir) (bf0 : BloomFilter) (bs : list IndexEntry)
    (ess : list (list DeltaEntry)) : Prop := {
  dh_bloom_ok : bloom_ok bf0;
  dh_file_ok : file_ok bs;
  dh_files : ∃ dir', decryptDir dir key = Ok dir' ∧ id_bloom dir' = Some (Save bf0) ∧
    default [] (id_index dir') = sortedFile bs ∧ id_deltas dir' = id_deltas dir;
  dh_deltas : objects_hold key (deltaObjects dir) ess }.

Lemma openDedup_rep skip dir raw key bf0 bs ess :
  dir_holds key dir bf0 bs ess →
  ∃ d, openDedup skip dir raw key = Ok d ∧
    dedup_rep d (insert_all bs ∅) (insert_all (idx_of <$> concat ess) (insert_all bs ∅)) (id_of <$> concat ess) [] ∧
    di_delta d = None ∧ di_key d = key ∧ id_deltas (di_dir d) = id_deltas dir ∧
    di_bloomMissing d = false ∧ ix_noHtab (di_index d) = skip ∧
    (key = None → id_bloom_enc (di_dir d) = None ∧ id_index_enc (di_dir d) = None) ∧
    filter_grows bf0 (di_bloom d) (de_WeakHash <$> concat ess).
Proof.
  intros [Hbf Hf (dir' & Hdec & Hbl & Hix & Hdl) Hobj]. unfold openDedup. rewrite Hdec. cbn [rbind].
  rewrite Hbl, Save_wf_load by done. cbn [rbind id_index]. rewrite Hix.
  destruct (NewHashIndex_rep bs skip Hf) as (idx & -> & Hskip & Hr).
  set (d0 := mkDedup _ _ _ _ _ _ _ _).
  assert (Hr0 : dedup_rep d0 (insert_all bs ∅) (insert_all bs ∅) [] []).
  { constructor; [done|done| |done]. intros w h Hin. by apply elem_of_nil in Hin. }
  unfold applyPendingDeltas.
  assert (Hdo : deltaObjects (di_dir d0) = deltaObjects dir) by (unfold deltaObjects; cbn; by rewrite Hdl).
  rewrite Hdo. destruct (applyDeltas_rep _ _ d0 _ _ _ _ 0 Hobj Hr0) as (d1 & -> & [A1 A2 A3 A4] & H1 & H2 & H3 & H4 & H5 & H6).
  cbn [rbind]. eexists. split; [reflexivity|].
  cbn [di_delta di_key di_dir di_bloomMissing di_index di_bloom]. rewrite H1, H2, H3, H4, H5.
  split_and!; [|done|done|exact Hdl|by destruct (_ && _)|done| |exact H6].
  2:{ intros ->. unfold decryptDir, refuseEncryptedWithoutKey in Hdec. cbn.
      destruct (id_index_enc dir) eqn:?, (id_bloom_enc dir) eqn:?; try done. by simplify_eq/=. }
  constructor; [exact A1|exact A2|exact A3|]. done.
Qed.

(** ** Sessions *)

Inductive dedup_op := DedupInsert (e : DeltaEntry) | DedupFlushHash | DedupArm.

Definition dedup_step (d : DedupIndex) (op : dedup_op) : DedupIndex * option dedup_err :=
  match op with
  | DedupInsert e =>
      match DInsert d (de_WeakHash e) (de_StrongHash e) (de_PackNumber e) (de_StoreOffset e) (de_ChunkLength e) with
      | Some d => (d, None)
      | None => (d, Some DdPanic)
      end
  | DedupFlushHash => FlushHashIndex d
  | DedupArm => match CaptureDelta d with Ok d => (d, None) | Err e => (d, Some e) end
  end.

Fixpoint dedup_run (d : DedupIndex) (ops : list dedup_op) : DedupIndex * option dedup_err :=
  match ops with
  | [] => (d, None)
  | op :: ops =>
      match dedup_step d op with
      | (d, None) => dedup_run d ops
      | (d, Some e) => (d, Some e)
      end
  end.

(** The entries a history inserts, and those a journal armed at the start of
    the history captures. *)
Fixpoint inserted (ops : list dedup_op) : list DeltaEntry :=
  match ops with
  | [] => []
  | DedupInsert e :: ops => e :: inserted ops
  | _ :: ops => inserted ops
  end.

Lemma length_inserted ops : (length (inserted ops) ≤ length ops)%nat.
Proof. induction ops as [|[] ops IH]; cbn; lia. Qed.

Definition session_op (op : dedup_op) : Prop :=
  match op with DedupInsert e => foldable e | DedupFlushHash => True | DedupArm => False end.
#[export] Instance session_op_dec op : Decision (session_op op).
Proof. destruct op; unfold session_op; apply _. Defined.

Lemma deltaPayload_snoc es e : deltaPayload (es ++ [e]) = deltaPayload es ++ EncodeDeltaEntry e.
Proof. unfold deltaPayload. rewrite fmap_app, concat_app. cbn. by rewrite app_nil_r. Qed.

Lemma DInsert_rep d D M ids cap e :
  dedup_rep d D M ids cap → foldable e → len cap < 2 ^ 63 →
  ∃ d', DInsert d (de_WeakHash e) (de_StrongHash e) (de_PackNumber e) (de_StoreOffset e) (de_ChunkLength e) = Some d' ∧
    dedup_rep d' D (<[de_StrongHash e := idx_of e]> M) (ids ++ [id_of e]) (cap ++ [e]) ∧
    (is_Some (di_delta d) → is_Some (di_delta d')) ∧ (di_delta d = None → di_delta d' = None) ∧
    di_key d' = di_key d ∧ di_dir d' = di_dir d ∧
    ix_noHtab (di_index d') = ix_noHtab (di_index d).
Proof.
  intros Hr He Hl. unfold DInsert.
  destruct (insertNoCapture_rep d D M ids cap e Hr He) as (d1 & -> & [A1 A2 A3 A4] & H1 & H2 & H3 & H4 & H5 & H6).
  cbn. eexists. split; [reflexivity|]. unfold captureInsert. rewrite H1 in *. destruct (di_delta d) as [c|] eqn:Hc.
  - split_and!; try done. constructor; [exact A1|exact A2|exact A3|]. cbn. destruct A4 as (-> & -> & ->).
    destruct e as [h w p o cl]. cbn [de_WeakHash de_StrongHash de_PackNumber de_StoreOffset de_ChunkLength].
    rewrite deltaPayload_snoc. split_and!; [done..|]. rewrite length_app. cbn [length]. rewrite u64_id by (split; lia). lia.
  - split_and!; try done. constructor; [exact A1|exact A2|exact A3|]. by rewrite H1.
Qed.

Lemma FlushHashIndex_rep d D M ids cap :
  dedup_rep d D M ids cap → ix_noHtab (di_index d) = false → Z.of_nat (size M) ≤ 2 ^ 35 →
  ∃ d', FlushHashIndex d = (d', None) ∧ dedup_rep d' D M ids cap ∧ di_delta d' = di_delta d ∧
    di_key d' = di_key d ∧ di_dir d' = di_dir d ∧ ix_noHtab (di_index d') = false.
Proof.
  intros [A1 A2 A3 A4] Hno Hsz. unfold FlushHashIndex.
  destruct (FlushDelta_rep _ _ _ A2 Hno Hsz) as (idx & -> & Hr & Hn). eexists. split; [reflexivity|].
  split_and!; try done.
Qed.

Lemma dedup_run_rep ops : ∀ d D M ids cap,
  dedup_rep d D M ids cap → ix_noHtab (di_index d) = false → Forall session_op ops →
  Z.of_nat (size M) + len ops ≤ 2 ^ 35 → len cap + len ops < 2 ^ 63 →
  ∃ d', dedup_run d ops = (d', None) ∧
    dedup_rep d' D (insert_all (idx_of <$> inserted ops) M) (ids ++ (id_of <$> inserted ops)) (cap ++ inserted ops) ∧
    (is_Some (di_delta d) → is_Some (di_delta d')) ∧ (di_delta d = None → di_delta d' = None) ∧
    di_key d' = di_key d ∧ di_dir d' = di_dir d ∧ ix_noHtab (di_index d') = false ∧
    Z.of_nat (size (insert_all (idx_of <$> inserted ops) M)) ≤ 2 ^ 35.
Proof.
  induction ops as [|op ops IH]; intros d D M ids cap Hr Hno Hops Hsz Hcap; cbn [dedup_run inserted].
  - exists d. rewrite !app_nil_r. cbn in *. split_and!; auto; lia.
  - apply Forall_cons in Hops as [Hop Hops]. cbn [length] in Hsz, Hcap. destruct op as [e| |]; cbn [dedup_step]; [| |done].
    + destruct (DInsert_rep d D M ids cap e Hr Hop ltac:(lia)) as (d1 & -> & Hr1 & H1 & H2 & H3 & H4 & H5).
      pose proof (size_insert_le M (de_StrongHash e) (idx_of e)).
      destruct (IH d1 _ _ _ _ Hr1 ltac:(congruence) Hops ltac:(lia)) as (d2 & -> & Hr2 & J1 & J2 & J3 & J4 & J5 & J6);
        [rewrite length_app; cbn; lia|].
      exists d2. rewrite <- !app_assoc in Hr2. split_and!; try congruence; auto.
    + destruct (FlushHashIndex_rep d D M ids cap Hr Hno ltac:(lia)) as (d1 & -> & Hr1 & H1 & H2 & H3 & H4).
      destruct (IH d1 _ _ _ _ Hr1 H4 Hops ltac:(lia) ltac:(lia)) as (d2 & -> & Hr2 & J1 & J2 & J3 & J4 & J5 & J6).
      exists d2. rewrite H1 in *. split_and!; try congruence; auto.
Qed.

(** ** Closing *)

(** What a finished journal leaves: the marshalled captured entries, in the form
    the key asks for; nothing when nothing was captured. *)
Definition journal_holds (key : option bytes) (plain enc : option bytes) (cap : list DeltaEntry) : Prop :=
  match cap with
  | [] => plain = None
  | _ =>
      match key with
      | None => plain = Some (Marshal cap)
      | Some k => plain = None ∧ ∃ c, enc = Some c ∧ DecryptFile k c = Ok (Marshal cap)
      end
  end.

Lemma EncryptFile_ok k n src :
  length k = 32%nat → length n = 12%nat → ∃ c, EncryptFile k n src = Ok c ∧ DecryptFile k c = Ok src.
Proof. intros Hk Hn. destruct (decrypt_encrypt k n src AADIndex Hk Hn) as (c & ? & ? & _). by exists c. Qed.

Lemma WriteDeltaObject_rep d c cap nonce :
  di_delta d = Some c → dc_payload c = deltaPayload cap ∧ dc_sum c = deltaPayload cap ∧ dc_count c = len cap →
  key_ok (di_key d) → length nonce = 12%nat → len cap < 2 ^ 64 →
  ∃ d', WriteDeltaObject d nonce = (d', None) ∧ di_delta d' = Some c ∧ di_journal d' = Some (Marshal cap) ∧
    (cap ≠ [] → match di_key d with None => True
                | Some k => ∃ e, di_journal_enc d' = Some e ∧ DecryptFile k e = Ok (Marshal cap) end) ∧
    di_key d' = di_key d ∧ di_dir d' = di_dir d ∧ di_index d' = di_index d ∧ di_bloom d' = di_bloom d.
Proof.
  intros Hd (Hp & Hs & Hc) Hk Hn Hl. unfold WriteDeltaObject. rewrite Hd, Hp, Hs, Hc.
  assert (Hm : DeltaHeader (len cap) (Sum256 (deltaPayload cap)) ++ deltaPayload cap = Marshal cap)
    by (unfold Marshal; by rewrite u64_id by (split; lia)).
  rewrite Hm. destruct (Z.eqb_spec (len cap) 0) as [H0|H0].
  - eexists. split; [reflexivity|]. split_and!; try reflexivity.
    intros Hne. exfalso. apply Hne. destruct cap; [reflexivity|cbn in H0; lia].
  - cbn [set_capture di_key]. destruct (di_key d) as [k|] eqn:Hkey.
    + destruct (EncryptFile_ok k nonce (Marshal cap) Hk Hn) as (e & -> & He). eexists. split; [reflexivity|].
      split_and!; try done. intros _. by exists e.
    + eexists. split; [reflexivity|]. by split_and!.
Qed.

Lemma closeDelta_rep d c cap nonce :
  di_delta d = Some c → dc_payload c = deltaPayload cap ∧ dc_sum c = deltaPayload cap ∧ dc_count c = len cap →
  key_ok (di_key d) → length nonce = 12%nat → len cap < 2 ^ 64 →
  ∃ d', closeDelta d false nonce = (d', None) ∧ journal_holds (di_key d) (di_journal d') (di_journal_enc d') cap ∧
    di_key d' = di_key d ∧ di_dir d' = di_dir d ∧ di_index d' = di_index d ∧ di_bloom d' = di_bloom d.
Proof.
  intros Hd Hc Hk Hn Hl.
  destruct (WriteDeltaObject_rep d c cap nonce Hd Hc Hk Hn Hl) as (d1 & Hw & Hd1 & Hj & He & H1 & H2 & H3 & H4).
  unfold closeDelta. rewrite Hd, Hw. destruct Hc as (_ & _ & ->).
  destruct cap as [|e cap]; cbn [length Z.of_nat Z.eqb].
  - eexists. split; [reflexivity|]. by split_and!.
  - eexists. split; [reflexivity|]. split_and!; try done. unfold journal_holds. cbn [di_journal di_journal_enc set_capture].
    rewrite H1. specialize (He ltac:(done)). destruct (di_key d) as [k|]; [|by rewrite Hj].
    by split.
Qed.

Definition capture_is (d : DedupIndex) (cap : list DeltaEntry) : Prop :=
  match di_delta d with
  | None => True
  | Some c => dc_payload c = deltaPayload cap ∧ dc_sum c = deltaPayload cap ∧ dc_count c = len cap
  end.

(** Writing the journal changes nothing but the journal. *)
Lemma WriteDeltaObject_keeps d cap nonce :
  capture_is d cap → key_ok (di_key d) → length nonce = 12%nat → len cap < 2 ^ 64 →
  ∃ d', WriteDeltaObject d nonce = (d', None) ∧ di_delta d' = di_delta d ∧ di_key d' = di_key d ∧
    di_dir d' = di_dir d ∧ di_index d' = di_index d ∧ di_bloom d' = di_bloom d.
Proof.
  intros Hc Hk Hn Hl. unfold capture_is in Hc. destruct (di_delta d) as [c|] eqn:Hd.
  - destruct (WriteDeltaObject_rep d c cap nonce Hd Hc Hk Hn Hl) as (d' & ? & ? & _ & _ & ? & ? & ? & ?).
    by exists d'.
  - exists d. unfold WriteDeltaObject. by rewrite Hd.
Qed.

(** The files a flush leaves: the filter and the index, in the form the key asks for. *)
Definition flushed_files (key : option bytes) (dir : index_dir) (bf : BloomFilter) (file : bytes) : Prop :=
  match key with
  | None => id_bloom dir = Some (Save bf)
  | Some k => id_bloom dir = None ∧
      (∃ be, id_bloom_enc dir = Some be ∧ DecryptFile k be = Ok (Save bf)) ∧
      (∃ ie, id_index_enc dir = Some ie ∧ DecryptFile k ie = Ok file)
  end.

Lemma DFlush_rep d D M ids cap n1 n2 n3 :
  dedup_rep d D M ids cap → key_ok (di_key d) → Z.of_nat (size M) ≤ 2 ^ 35 → len cap < 2 ^ 64 →
  length n1 = 12%nat → length n2 = 12%nat → length n3 = 12%nat →
  ∃ d', DFlush d n1 n2 n3 = (d', None) ∧ idx_rep (di_index d') M M ∧ ix_dirty (di_index d') = false ∧
    di_bloom d' = di_bloom d ∧ di_delta d' = di_delta d ∧ di_key d' = di_key d ∧
    id_deltas (di_dir d') = id_deltas (di_dir d) ∧
    flushed_files (di_key d) (di_dir d') (di_bloom d) (ix_disk (di_index d')) ∧
    (di_key d = None → id_bloom_enc (di_dir d') = id_bloom_enc (di_dir d) ∧
                       id_index_enc (di_dir d') = id_index_enc (di_dir d)).
Proof.
  intros [A1 A2 A3 A4] Hk Hsz Hcap Hn1 Hn2 Hn3. unfold DFlush.
  destruct (Flush_rep _ _ _ A2 Hsz) as (idx & -> & Hr & _ & Hcl).
  cbn [di_key set_tiers]. destruct (di_key d) as [k|] eqn:Hkey.
  - destruct (EncryptFile_ok k n1 (Save (di_bloom d)) Hk Hn1) as (be & -> & Hbe).
    destruct (EncryptFile_ok k n2 (ix_disk idx) Hk Hn2) as (ie & -> & Hie).
    match goal with |- context [WriteDeltaObject ?x n3] => set (d1 := x) end.
    destruct (WriteDeltaObject_keeps d1 cap n3 A4 ltac:(cbn; by rewrite Hkey) Hn3 Hcap) as (d' & -> & H1 & H2 & H3 & H4 & H5).
    exists d'. rewrite H1, H2, H3, H4, H5. split_and!; try done.
    unfold flushed_files. cbn. split_and!; [reflexivity|by exists be|by exists ie].
  - match goal with |- context [WriteDeltaObject ?x n3] => set (d1 := x) end.
    destruct (WriteDeltaObject_keeps d1 cap n3 A4 ltac:(cbn; by rewrite Hkey) Hn3 Hcap) as (d' & -> & H1 & H2 & H3 & H4 & H5).
    exists d'. rewrite H1, H2, H3, H4, H5. by split_and!.
Qed.

Lemma Flush_clean idx : ix_dirty idx = false → ix_entries idx = ∅ → Flush idx = (idx, None).
Proof. intros Hd He. unfold Flush. rewrite Hd, He. by rewrite bool_decide_true. Qed.

Lemma closeDelta_any d cap nonce :
  capture_is d cap → key_ok (di_key d) → length nonce = 12%nat → len cap < 2 ^ 64 →
  ∃ d', closeDelta d false nonce = (d', None) ∧ di_key d' = di_key d ∧ di_dir d' = di_dir d ∧
    di_index d' = di_index d ∧ di_bloom d' = di_bloom d ∧
    (is_Some (di_delta d) → journal_holds (di_key d) (di_journal d') (di_journal_enc d') cap).
Proof.
  intros Hc Hk Hn Hl. unfold capture_is in Hc. destruct (di_delta d) as [c|] eqn:Hd.
  - destruct (closeDelta_rep d c cap nonce Hd Hc Hk Hn Hl) as (d' & ? & ? & ? & ? & ? & ?). by exists d'.
  - exists d. unfold closeDelta. rewrite Hd. split_and!; try done.
Qed.

(** Closing: the directory at rest holds the session's filter and map. *)
Lemma DClose_rep d D M ids cap ess n1 n2 n3 n4 :
  dedup_rep d D M ids cap → key_ok (di_key d) → Z.of_nat (size M) ≤ 2 ^ 35 → len cap < 2 ^ 64 →
  length n1 = 12%nat → length n2 = 12%nat → length n3 = 12%nat → length n4 = 12%nat →
  objects_hold (di_key d) (deltaObjects (di_dir d)) ess →
  (di_key d = None → id_bloom_enc (di_dir d) = None ∧ id_index_enc (di_dir d) = None) →
  ∃ d' dir bs, DClose d n1 n2 n3 n4 = (d', dir, None) ∧ dir_holds (di_key d) dir (di_bloom d) bs ess ∧
    insert_all bs ∅ = M ∧
    (is_Some (di_delta d) → journal_holds (di_key d) (di_journal d') (di_journal_enc d') cap) ∧
    (is_Some (di_key d) → id_bloom dir = None ∧ id_index dir = None).
Proof.
  intros Hr Hk Hsz Hcap Hn1 Hn2 Hn3 Hn4 Hobj Henc. pose proof (dr_capture _ _ _ _ _ Hr) as Hc.
  unfold DClose.
  destruct (DFlush_rep d D M ids cap n1 n2 n3 Hr Hk Hsz Hcap Hn1 Hn2 Hn3)
    as (d1 & -> & Hi & Hcl & Hb & Hd & Hkey & Hdl & Hff & Hpl).
  assert (Hc1 : capture_is d1 cap) by (unfold capture_is; by rewrite Hd).
  destruct (closeDelta_any d1 cap n4 Hc1 ltac:(by rewrite Hkey) Hn4 Hcap) as (d2 & -> & K1 & K2 & K3 & K4 & K5).
  destruct (ir_clean _ _ _ Hi Hcl) as [He _]. unfold Close. rewrite K3, Flush_clean by done.
  destruct (ir_disk _ _ _ Hi) as (bs & (Hf & Hfile & _) & HM).
  eexists _, _, bs. split; [reflexivity|]. unfold leaveDir. cbn [ix_disk]. rewrite K1, K2, Hkey, Hfile.
  split_and!; [|done| |].
  - constructor; [by apply Hr|done| |].
    + unfold decryptDir, decryptOver, refuseEncryptedWithoutKey. cbn [id_bloom_enc id_bloom id_index id_index_enc id_deltas].
      destruct (di_key d) as [k|].
      * destruct Hff as (_ & (be & -> & ->) & (ie & -> & ->)). cbn [rbind]. eexists. split_and!; [reflexivity|done|cbn; by rewrite Hfile|done].
      * cbn in Hff. destruct (Hpl eq_refl) as [-> ->]. destruct (Henc eq_refl) as [-> ->]. cbn [rbind].
        eexists. split_and!; [reflexivity|exact Hff|done|done].
    + unfold deltaObjects in *. cbn. rewrite Hdl. exact Hobj.
  - intros Hs. cbn. rewrite <- Hkey. apply K5. by rewrite Hd.
  - destruct (di_key d) as [k|]; [|by intros [? ?]]. intros _. cbn in Hff |- *. destruct Hff as (-> & _). done.
Qed.

(** ** What a session does not touch *)

Lemma FlushDelta_disk idx : ix_disk (FlushDelta idx).1 = ix_disk idx.
Proof.
  unfold FlushDelta. case_decide; [done|]. destruct (ix_htab idx); [|done].
  by destruct (flushEntries _ _) as [? [?|]].
Qed.

Lemma insertNoCapture_disk d w h p o c d' :
  insertNoCapture d w h p o c = Some d' →
  ix_disk (di_index d') = ix_disk (di_index d) ∧ di_dir d' = di_dir d ∧ di_key d' = di_key d.
Proof.
  unfold insertNoCapture, insertTiers. cbn [cf_add bloom_filter]. destruct (Add _ w); [|done]. cbn. by intros [= <-].
Qed.

Lemma ApplyTo_disk es : ∀ d d',
  ApplyTo es d = Some d' → ix_disk (di_index d') = ix_disk (di_index d) ∧ di_dir d' = di_dir d ∧ di_key d' = di_key d.
Proof.
  induction es as [|e es IH]; intros d d' H; cbn [ApplyTo] in H; [by simplify_eq|].
  destruct (insertNoCapture d _ _ _ _ _) as [d1|] eqn:H1; [|done].
  apply insertNoCapture_disk in H1 as (? & ? & ?). apply IH in H as (? & ? & ?). split_and!; congruence.
Qed.

Lemma applyDeltas_disk nfs : ∀ d merged d' n,
  applyDeltas nfs d merged = Ok (d', n) →
  ix_disk (di_index d') = ix_disk (di_index d) ∧ di_dir d' = di_dir d ∧ di_key d' = di_key d.
Proof.
  induction nfs as [|nf nfs IH]; intros d merged d' n H; cbn [applyDeltas] in H; [by simplify_eq|].
  apply rbind_Ok_inv in H as (blob & _ & H). destruct (ParseDelta blob) as [es|]; [|done].
  apply rbind_Ok_inv in H as (d1 & H1 & H). destruct (ApplyTo es d) as [d2|] eqn:Ha; [|done]. cbn in H1. simplify_eq.
  apply ApplyTo_disk in Ha as (? & ? & ?). apply IH in H as (? & ? & ?). split_and!; congruence.
Qed.

Lemma dedup_step_disk d op d' err :
  dedup_step d op = (d', err) →
  ix_disk (di_index d') = ix_disk (di_index d) ∧ di_dir d' = di_dir d ∧ di_key d' = di_key d.
Proof.
  destruct op as [e| |]; cbn [dedup_step].
  - unfold DInsert. destruct (insertNoCapture d _ _ _ _ _) as [d1|] eqn:H1; cbn; [|by intros [= <- <-]].
    intros [= <- <-]. apply insertNoCapture_disk in H1 as (? & ? & ?). unfold captureInsert.
    destruct (di_delta d1); by split_and!.
  - unfold FlushHashIndex. pose proof (FlushDelta_disk (di_index d)) as Hf. destruct (FlushDelta (di_index d)) as [idx e].
    by intros [= <- <-].
  - unfold CaptureDelta. destruct (di_delta d); by intros [= <- <-].
Qed.

Lemma dedup_run_disk ops : ∀ d d' err,
  dedup_run d ops = (d', err) →
  ix_disk (di_index d') = ix_disk (di_index d) ∧ di_dir d' = di_dir d ∧ di_key d' = di_key d.
Proof.
  induction ops as [|op ops IH]; intros d d' err H; cbn [dedup_run] in H; [by simplify_eq|].
  destruct (dedup_step d op) as [d1 [e|]] eqn:Hs; apply dedup_step_disk in Hs as (? & ? & ?); [by simplify_eq|].
  apply IH in H as (? & ? & ?). split_and!; congruence.
Qed.

Lemma NewHashIndex_disk file skip idx : NewHashIndex file skip = Ok idx → ix_disk idx = file.
Proof.
  unfold NewHashIndex. destruct skip; [by intros [= <-]|]. cbn [ix_disk ix_diskSize].
  destruct (buildHashTable _ _); by intros [= <-].
Qed.

Lemma decryptDir_enc dir key dir' :
  decryptDir dir key = Ok dir' →
  id_bloom_enc dir' = id_bloom_enc dir ∧ id_index_enc dir' = id_index_enc dir ∧ id_deltas dir' = id_deltas dir ∧
  (key = None → dir' = dir).
Proof.
  unfold decryptDir. destruct key as [k|].
  - intros (b & _ & H)%rbind_Ok_inv. apply rbind_Ok_inv in H as (i & _ & H). by simplify_eq.
  - intros (u & _ & H)%rbind_Ok_inv. by simplify_eq.
Qed.

(** Opening writes nothing: the plaintext working copies apart, the directory
    is as it was. *)
Lemma openDedup_disk skip dir raw key d :
  openDedup skip dir raw key = Ok d →
  di_key d = key ∧ id_bloom_enc (di_dir d) = id_bloom_enc dir ∧ id_index_enc (di_dir d) = id_index_enc dir ∧
  id_deltas (di_dir d) = id_deltas dir ∧
  (key = None → id_bloom (di_dir d) = id_bloom dir ∧ ix_disk (di_index d) = default [] (id_index dir)).
Proof.
  unfold openDedup. intros (dir1 & Hdec & H)%rbind_Ok_inv. apply decryptDir_enc in Hdec as (E1 & E2 & E3 & E4).
  apply rbind_Ok_inv in H as ([[bf dir2] missing] & Hb & H).
  assert (Hd2 : id_bloom_enc dir2 = id_bloom_enc dir ∧ id_index_enc dir2 = id_index_enc dir ∧
    id_deltas dir2 = id_deltas dir ∧ id_index dir2 = id_index dir1 ∧ (key = None → id_bloom dir2 = id_bloom dir1)).
  { destruct (id_bloom dir1) as [b|] eqn:Hb1; [destruct (LoadBloomFilter b)|]; simplify_eq; split_and!; try done.
    by intros ->. }
  destruct Hd2 as (F1 & F2 & F3 & F4 & F5).
  destruct (NewHashIndex _ skip) as [idx|] eqn:Hn; [|done]. apply NewHashIndex_disk in Hn.
  apply rbind_Ok_inv in H as ([d1 n] & Ha & H). simplify_eq. unfold applyPendingDeltas in Ha.
  apply rbind_Ok_inv in Ha as ([d2 n2] & Ha & Hd). simplify_eq. apply applyDeltas_disk in Ha as (A1 & A2 & A3).
  cbn in A1, A2, A3 |- *. rewrite A1, A2, A3. split_and!; try congruence.
  intros Hk. rewrite F5 by done. rewrite Hn, F4, E4 by done. done.
Qed.
End dedup.

(** ** A session from open to close *)

Section session.
Context {MR : MapRange} {SS : SortSlice} {PR : Primitives}.

(** Opening for writing, arming the journal, then a history. *)
Definition session (dir : index_dir) (raw : Z) (key : option bytes) (ops : list dedup_op) : result dedup_err DedupIndex :=
  let! d := NewDedupIndex dir raw key in
  let! d := CaptureDelta d in
  match dedup_run d ops with (d, None) => Ok d | (_, Some e) => Err e end.

(** The map a session sees. *)
Definition session_map (bs : list IndexEntry) (ess : list (list DeltaEntry)) (ops : list dedup_op) :=
  insert_all (idx_of <$> inserted ops) (insert_all (idx_of <$> concat ess) (insert_all bs ∅)).

Definition session_ids (ess : list (list DeltaEntry)) (ops : list dedup_op) : list (Z * bytes) :=
  id_of <$> (concat ess ++ inserted ops).

Lemma session_rep dir raw key bf0 bs ess ops ids :
  (∀ w h, (w, h) ∈ ids → MayContain bf0 w = Some true) → dir_holds key dir bf0 bs ess → Forall session_op ops → len bs + len (concat ess) + len ops ≤ 2 ^ 35 →
  ∃ d, session dir raw key ops = Ok d ∧
    dedup_rep d (insert_all bs ∅) (session_map bs ess ops) (ids ++ session_ids ess ops) (inserted ops) ∧
    is_Some (di_delta d) ∧ di_key d = key ∧ id_deltas (di_dir d) = id_deltas dir ∧
    ix_noHtab (di_index d) = false ∧
    (key = None → id_bloom_enc (di_dir d) = None ∧ id_index_enc (di_dir d) = None) ∧
    Z.of_nat (size (session_map bs ess ops)) ≤ 2 ^ 35.
Proof.
  intros Hids Hdir Hops Hsz. unfold session, NewDedupIndex.
  destruct (openDedup_rep false dir raw key bf0 bs ess Hdir) as (d0 & -> & Hr0 & H1 & H2 & H3 & _ & H5 & H6 & [Hkeep _]).
  cbn [rbind]. unfold CaptureDelta. rewrite H1. cbn [rbind]. set (d1 := set_capture _ _ _ _).
  assert (Hr1 : dedup_rep d1 (insert_all bs ∅) (insert_all (idx_of <$> concat ess) (insert_all bs ∅)) (ids ++ (id_of <$> concat ess)) []).
  { destruct Hr0 as [A1 A2 A3 _]. constructor; [done|done| |done]. intros w h [Hin|Hin]%elem_of_app; [by eapply Hkeep, Hids|by eapply A3]. }
  pose proof (size_insert_all_le (idx_of <$> concat ess) (insert_all bs ∅)) as Hle.
  rewrite length_fmap, size_insert_all in Hle by apply Hdir.
  destruct (dedup_run_rep ops d1 _ _ _ _ Hr1 H5 Hops ltac:(lia)) as (d & -> & Hr & J1 & _ & J3 & J4 & J5 & J6);
    [cbn; lia|].
  exists d. rewrite J3, J4. unfold session_ids. rewrite fmap_app, app_assoc. split_and!; try done. apply J1. by eexists.
Qed.
End session.

Definition example_dir : index_dir :=
  mkDir (Some (Save (NewBloomFilter 100))) None (Some (sortedFile [example_entry 1 1])) None
    [("w1.delta"%string, Marshal [example_delta 1 3])].

Lemma example_dir_holds : dir_holds None example_dir (NewBloomFilter 100) [example_entry 1 1] [[example_delta 1 3]].
Proof.
  constructor.
  - by_eval.
  - apply example_file_ok.
  - eexists. split_and!; reflexivity.
  - repeat constructor; by_eval.
Qed.

(** The same repository, encrypted. *)
Definition example_enc_dir : index_dir :=
  mkDir None (Some (zeros 12 ++ Seal (zeros 32) (zeros 12) (Save (NewBloomFilter 100)) AADIndex)) None
    (Some (zeros 12 ++ Seal (zeros 32) (zeros 12) (sortedFile [example_entry 1 1]) AADIndex)) [].

Lemma example_enc_dir_holds :
  dir_holds (Some (zeros 32)) example_enc_dir (NewBloomFilter 100) [example_entry 1 1] [].
Proof.
  assert (Hdec : ∀ src, DecryptFile (zeros 32) (zeros 12 ++ Seal (zeros 32) (zeros 12) src AADIndex) = Ok src).
  { intros src. destruct (EncryptFile_ok (zeros 32) (zeros 12) src eq_refl eq_refl) as (c & Hc & Hd).
    unfold EncryptFile, EncryptWithAAD in Hc. rewrite newGCM_32 in Hc by done. cbn [rbind] in Hc.
    by simplify_eq. }
  constructor.
  - by_eval.
  - apply example_file_ok.
  - unfold decryptDir, decryptOver, example_enc_dir. cbn [id_bloom_enc id_index_enc id_bloom id_index id_deltas].
    rewrite !Hdec. cbn [rbind]. eexists. split_and!; reflexivity.
  - constructor.
Qed.

Definition example_session : list dedup_op :=
  [DedupInsert (example_delta 4 8); DedupFlushHash; DedupInsert (example_delta 5 8)].

(** ** Properties *)

(** What the filter must answer for: the weak hashes the stored filter knows (the base file
    records strong hashes only, so the filter file alone says which weak hashes belong to its
    chunks), and the chunks of the deltas and of the session. *)
Definition filter_knows (bf0 : BloomFilter) (ess : list (list DeltaEntry)) (ops : list dedup_op) (w : Z) (h : bytes) : Prop :=
  MayContain bf0 w = Some true ∨ (w, h) ∈ session_ids ess ops.

(** C5. Dedup is exact.  Open any well-formed index directory (plain or encrypted,
    with pending deltas), arm the journal and run any history of inserts and
    intermediate flushes: nothing fails, and for any chunk id [Check] answers
    "duplicate" only with the location the index holds for that strong hash; a chunk
    whose weak hash the filter file of the directory knows, where those of the base file's
    chunks are, and every chunk merged from a delta or inserted in the session, gets
    exactly what base file, deltas and inserts hold for it, never "new" when they hold it. *)
Theorem dedup_check_exact `{!MapRange, !SortSlice, !Primitives} (dir : index_dir) (raw : Z)
    (key : option bytes) (bf0 : BloomFilter) (bs : list IndexEntry) (ess : list (list DeltaEntry))
    (ops : list dedup_op) (w : Z) (h : bytes) :
  dir_holds key dir bf0 bs ess → Forall session_op ops → len bs + len (concat ess) + len ops ≤ 2 ^ 35 →
  bytes_ok h → h ≠ zeroHash →
  ∃ d r, session dir raw key ops = Ok d ∧ Check d w h = Ok r ∧
    (dr_IsNew r = false ↔ is_Some (dr_Entry r)) ∧
    (∀ e, dr_Entry r = Some e → session_map bs ess ops !! h = Some e) ∧
    (filter_knows bf0 ess ops w h → dr_Entry r = session_map bs ess ops !! h) ∧
    LookupDirect d h = Ok (session_map bs ess ops !! h).
Proof.
  intros Hdir Hops Hsz Hb Hz. set (ids := if decide (MayContain bf0 w = Some true) then [(w, h)] else []).
  assert (Hids : ∀ v g, (v, g) ∈ ids → MayContain bf0 v = Some true).
  { intros v g. unfold ids. case_decide; [|by intros ?%elem_of_nil]. by intros [= -> ->]%list_elem_of_singleton. }
  destruct (session_rep dir raw key bf0 bs ess ops ids Hids Hdir Hops Hsz) as (d & Hs & Hr & _).
  destruct (Check_rep _ _ _ _ w h (dedup_tiers _ _ _ _ _ Hr) Hb Hz) as (r & Hc & Hnew & Hent & Hknown).
  exists d, r. split_and!; try done; [|by apply (Lookup_rep _ _ _ h (dr_index _ _ _ _ _ Hr))]. intros Hk. apply Hknown, elem_of_app. destruct Hk as [Hk|Hk]; [left|by right].
  unfold ids. rewrite decide_True by done. by left.
Qed.

(** A directory whose filter knows the chunk of its base file. *)
Definition known_dir : index_dir :=
  mkDir (Save <$> Add (NewBloomFilter 100) 63) None (Some (sortedFile [example_entry 9 1])) None [("w1.delta"%string, Marshal [example_delta 1 3])].

Lemma known_dir_holds : ∃ bf0, Add (NewBloomFilter 100) 63 = Some bf0 ∧ MayContain bf0 63 = Some true ∧ dir_holds None known_dir bf0 [example_entry 9 1] [[example_delta 1 3]].
Proof.
  destruct (Add_spec (NewBloomFilter 100) 63) as (bf0 & Ha & Hok & _ & _ & Hm & _); [by_eval|]. exists bf0. split_and!; [done..|]. constructor; [done|constructor; by_eval| |].
  - unfold known_dir. rewrite Ha. eexists. split_and!; reflexivity.
  - repeat constructor; by_eval.
Qed.

Lemma dedup_check_exact_witness :
  ∃ d r, session known_dir 100 None example_session = Ok d ∧ Check d 63 (example_hash 9) = Ok r ∧ dr_Entry r = Some (example_entry 9 1) ∧ dr_IsNew r = false.
Proof.
  destruct known_dir_holds as (bf0 & _ & Hm & Hdir).
  destruct (dedup_check_exact known_dir 100 None bf0 [example_entry 9 1] [[example_delta 1 3]] example_session 63 (example_hash 9) Hdir) as (d & r & Hs & Hc & Hn & _ & Hk & _).
  - by_eval.
  - vm_compute. discriminate.
  - by_eval.
  - discriminate.
  - exists d, r. rewrite Hn, (Hk (or_introl Hm)). split_and!; [done|done|vm_compute; reflexivity|vm_compute; eauto].
Defined.

(** A hash the session inserted over a pending delta; opening merges the delta again. *)
Definition reinserted (ess : list (list DeltaEntry)) (ops : list dedup_op) (h : bytes) : Prop :=
  h ∈ de_StrongHash <$> concat ess ∧ h ∈ de_StrongHash <$> inserted ops.

Lemma last_of_hash es h : is_Some (last (filter (λ e, StrongHash e = h) (idx_of <$> es))) ↔ h ∈ de_StrongHash <$> es.
Proof.
  rewrite last_is_Some. split.
  - destruct (filter _ _) as [|e l] eqn:Hf; [done|]. intros _. assert (He : e ∈ filter (λ e, StrongHash e = h) (idx_of <$> es)) by (rewrite Hf; by left).
    apply list_elem_of_filter in He as [<- He]. apply list_elem_of_fmap in He as (x & -> & Hx). by apply (list_elem_of_fmap_2 de_StrongHash).
  - intros (x & -> & Hx)%list_elem_of_fmap Hf. assert (Hin : idx_of x ∈ filter (λ e, StrongHash e = de_StrongHash x) (idx_of <$> es)) by (apply list_elem_of_filter; split; [done|by apply list_elem_of_fmap_2]).
    rewrite Hf in Hin. by apply elem_of_nil in Hin.
Qed.

(** Merging the deltas again loses no hash, and moves only reinserted ones. *)
Lemma merged_again bs ess ops h :
  (is_Some (insert_all (idx_of <$> concat ess) (session_map bs ess ops) !! h) ↔ is_Some (session_map bs ess ops !! h)) ∧
  (¬ reinserted ess ops h → insert_all (idx_of <$> concat ess) (session_map bs ess ops) !! h = session_map bs ess ops !! h).
Proof.
  unfold session_map, reinserted. rewrite <- !last_of_hash, !insert_all_lookup_last.
  destruct (last (filter _ (idx_of <$> concat ess))), (last (filter _ (idx_of <$> inserted ops))); (split; [naive_solver|]); intros H; try done.
  destruct H. by split; eexists.
Qed.

(** C14. Closing is durable and leaves the repository in its at-rest form: the close
    succeeds, an encrypted repository is left with no plaintext index file, and
    reopening the directory answers as the session did: every chunk id is new to the
    reopened index exactly when it was new to the session, with the same result and the
    same direct lookup.  A hash the session had inserted over a pending delta is the one
    exception: it is known with the location of the delta, which is merged again. *)
Theorem dedup_close_reopen `{!MapRange, !SortSlice, !Primitives} (dir : index_dir) (raw : Z)
    (key : option bytes) (bf0 : BloomFilter) (bs : list IndexEntry) (ess : list (list DeltaEntry))
    (ops : list dedup_op) (n1 n2 n3 n4 h : bytes) (w : Z) :
  dir_holds key dir bf0 bs ess → key_ok key → Forall session_op ops →
  len bs + len (concat ess) + len ops ≤ 2 ^ 35 →
  length n1 = 12%nat → length n2 = 12%nat → length n3 = 12%nat → length n4 = 12%nat →
  bytes_ok h → h ≠ zeroHash →
  ∃ d cl dir' d2 r r2, session dir raw key ops = Ok d ∧ DClose d n1 n2 n3 n4 = (cl, dir', None) ∧
    (is_Some key → id_bloom dir' = None ∧ id_index dir' = None) ∧
    NewDedupIndex dir' raw key = Ok d2 ∧ Check d w h = Ok r ∧ Check d2 w h = Ok r2 ∧ dr_IsNew r2 = dr_IsNew r ∧
    (¬ reinserted ess ops h → r2 = r ∧ LookupDirect d2 h = LookupDirect d h) ∧
    LookupDirect d2 h = Ok (insert_all (idx_of <$> concat ess) (session_map bs ess ops) !! h).
Proof.
  intros Hdir Hk Hops Hsz Hn1 Hn2 Hn3 Hn4 Hb Hz.
  destruct (session_rep dir raw key bf0 bs ess ops [] ltac:(by intros ?? ?%elem_of_nil) Hdir Hops Hsz) as (d & Hs & Hr & _ & Hkey & Hdl & _ & Hpl & Hsm).
  subst key.
  assert (Hobj : objects_hold (di_key d) (deltaObjects (di_dir d)) ess).
  { unfold deltaObjects. rewrite Hdl. apply (dh_deltas _ _ _ _ _ Hdir). }
  pose proof (length_inserted ops) as Hle. assert (Hcap : len (inserted ops) < 2 ^ 64) by lia.
  destruct (DClose_rep d _ _ _ _ ess n1 n2 n3 n4 Hr Hk Hsm Hcap Hn1 Hn2 Hn3 Hn4 Hobj Hpl)
    as (cl & dir' & bs' & Hcl & Hdir' & HM & _ & Henc).
  destruct (openDedup_rep false dir' raw (di_key d) _ _ _ Hdir') as (d2 & Ho & Hr2 & _ & _ & _ & _ & _ & _ & [_ Hsame]).
  rewrite HM in Hr2. destruct (merged_again bs ess ops h) as [Hsome Hmoved].
  assert (Hmay : MayContain (di_bloom d2) w = MayContain (di_bloom d) w).
  { apply Hsame. intros v Hv. apply list_elem_of_fmap in Hv as (e & -> & He). apply (dr_known _ _ _ _ _ Hr _ (de_StrongHash e)). apply (list_elem_of_fmap_2 id_of), elem_of_app. by left. }
  pose proof (Lookup_rep _ _ _ h (dr_index _ _ _ _ _ Hr) Hb Hz) as HL. pose proof (Lookup_rep _ _ _ h (dr_index _ _ _ _ _ Hr2) Hb Hz) as HL2.
  exists d, cl, dir', d2. unfold Check, LookupDirect. unfold Check'. cbn [cf_may bloom_filter ci_lookup hash_index]. rewrite Hmay, HL, HL2.
  destruct (MayContain_total (di_bloom d) w (dr_bloom _ _ _ _ _ Hr)) as [[|] ->].
  - destruct (session_map bs ess ops !! h) as [e|] eqn:E1, (insert_all _ (session_map bs ess ops) !! h) as [e2|] eqn:E2; eexists _, _; split_and!; try done; try (intros Hm; specialize (Hmoved Hm); by simplify_eq).
    + by destruct Hsome as [_ [? ?]].
    + by destruct Hsome as [[? ?] _].
  - eexists _, _. split_and!; try done. intros Hm. by rewrite (Hmoved Hm).
Qed.

Lemma dedup_close_reopen_witness :
  ∃ d cl dir' d2 r, session example_enc_dir 100 (Some (zeros 32)) example_session = Ok d ∧
    DClose d (zeros 12) (zeros 12) (zeros 12) (zeros 12) = (cl, dir', None) ∧ id_index dir' = None ∧
    NewDedupIndex dir' 100 (Some (zeros 32)) = Ok d2 ∧ Check d 28 (example_hash 4) = Ok r ∧ Check d2 28 (example_hash 4) = Ok r.
Proof.
  destruct (dedup_close_reopen example_enc_dir 100 (Some (zeros 32)) _ _ [] example_session (zeros 12) (zeros 12) (zeros 12) (zeros 12) (example_hash 4) 28 example_enc_dir_holds)
    as (d & cl & dir' & d2 & r & r2 & H1 & H2 & H3 & H4 & H5 & H6 & _ & H7 & _); try reflexivity.
  - by_eval.
  - vm_compute. discriminate.
  - by_eval.
  - discriminate.
  - destruct H7 as [-> _]; [by intros [?%elem_of_nil _]|]. destruct H3 as [_ H3]; [by eexists|]. exists d, cl, dir', d2, r. split_and!; assumption.
Defined.

(** The journal describes the session and nothing else: after the close it
    is the marshalled delta of exactly the session's own inserts, in order
    (entries merged from other writers' deltas are not in it), encrypted when
    the repository is, and absent when nothing was inserted. *)
Theorem journal_is_session_delta `{!MapRange, !SortSlice, !Primitives} (dir : index_dir) (raw : Z)
    (key : option bytes) (bf0 : BloomFilter) (bs : list IndexEntry) (ess : list (list DeltaEntry))
    (ops : list dedup_op) (n1 n2 n3 n4 : bytes) :
  dir_holds key dir bf0 bs ess → key_ok key → Forall session_op ops →
  len bs + len (concat ess) + len ops ≤ 2 ^ 35 →
  length n1 = 12%nat → length n2 = 12%nat → length n3 = 12%nat → length n4 = 12%nat →
  ∃ d cl dir', session dir raw key ops = Ok d ∧ DClose d n1 n2 n3 n4 = (cl, dir', None) ∧
    journal_holds key (di_journal cl) (di_journal_enc cl) (inserted ops).
Proof.
  intros Hdir Hk Hops Hsz Hn1 Hn2 Hn3 Hn4.
  destruct (session_rep dir raw key bf0 bs ess ops [] ltac:(by intros ?? ?%elem_of_nil) Hdir Hops Hsz) as (d & Hs & Hr & Hdel & Hkey & Hdl & _ & Hpl & Hsm).
  subst key.
  assert (Hobj : objects_hold (di_key d) (deltaObjects (di_dir d)) ess).
  { unfold deltaObjects. rewrite Hdl. apply (dh_deltas _ _ _ _ _ Hdir). }
  pose proof (length_inserted ops) as Hle. assert (Hcap : len (inserted ops) < 2 ^ 64) by lia.
  destruct (DClose_rep d _ _ _ _ ess n1 n2 n3 n4 Hr Hk Hsm Hcap Hn1 Hn2 Hn3 Hn4 Hobj Hpl)
    as (cl & dir' & bs' & Hcl & _ & _ & Hj & _).
  exists d, cl, dir'. split_and!; [done..|]. by apply Hj.
Qed.

Lemma journal_is_session_delta_witness :
  ∃ d cl dir', session example_dir 100 None example_session = Ok d ∧
    DClose d (zeros 12) (zeros 12) (zeros 12) (zeros 12) = (cl, dir', None) ∧
    journal_holds None (di_journal cl) (di_journal_enc cl) (inserted example_session).
Proof.
  apply (journal_is_session_delta _ _ _ _ _ _ _ _ _ _ _ example_dir_holds); try reflexivity.
  - by_eval.
  - vm_compute. discriminate.
Defined.

(** An abandoned session leaves the repository as it found it: after any
    history, failed or not, [CloseDiscard] leaves every encrypted object and
    every delta unchanged, and without a key the filter file and the index
    file byte for byte as they were; with a key no plaintext stays. *)
Theorem discard_leaves_repository `{!MapRange, !SortSlice, !Primitives} (dir : index_dir) (raw : Z)
    (key : option bytes) (ops : list dedup_op) (d0 d : DedupIndex) (err : option dedup_err) :
  NewDedupIndex dir raw key = Ok d0 → dedup_run d0 ops = (d, err) →
  let dir' := (DCloseDiscard d).2 in
  id_bloom_enc dir' = id_bloom_enc dir ∧ id_index_enc dir' = id_index_enc dir ∧ id_deltas dir' = id_deltas dir ∧
  match key with
  | None => id_bloom dir' = id_bloom dir ∧ id_index dir' = Some (default [] (id_index dir))
  | Some _ => id_bloom dir' = None ∧ id_index dir' = None
  end.
Proof.
  intros Ho Hrun dir'. apply openDedup_disk in Ho as (K & E1 & E2 & E3 & E4).
  apply dedup_run_disk in Hrun as (R1 & R2 & R3). unfold dir', DCloseDiscard.
  assert (Hcd : ∃ d1, closeDelta d true [] = (d1, None) ∧ di_dir d1 = di_dir d ∧ di_key d1 = di_key d ∧ di_index d1 = di_index d).
  { unfold closeDelta. destruct (di_delta d); by eexists. }
  destruct Hcd as (d1 & -> & G1 & G2 & G3). cbn. rewrite G1, G2, G3, R2, R3, K, R1.
  split_and!; [done..|]. destruct key as [k|]; [done|]. destruct (E4 eq_refl) as [-> ->]. done.
Qed.

Lemma discard_leaves_repository_witness :
  ∃ d0 d err, NewDedupIndex example_dir 100 None = Ok d0 ∧ dedup_run d0 example_session = (d, err) ∧
  (let dir' := (DCloseDiscard d).2 in
   id_bloom_enc dir' = id_bloom_enc example_dir ∧ id_index_enc dir' = id_index_enc example_dir ∧
   id_deltas dir' = id_deltas example_dir ∧
   id_bloom dir' = id_bloom example_dir ∧ id_index dir' = Some (default [] (id_index example_dir))).
Proof.
  destruct (openDedup_rep false example_dir 100 None _ _ _ example_dir_holds) as (d0 & Ho & _).
  exists d0, (dedup_run d0 example_session).1, (dedup_run d0 example_session).2.
  split; [exact Ho|]. split; [apply surjective_pairing|].
  refine (discard_leaves_repository example_dir 100 None example_session d0 _ _ Ho _).
  apply surjective_pairing.
Defined.

(** A keyless open of an encrypted index is refused, even when plaintext
    working copies lie beside the encrypted objects. *)
Theorem keyless_open_refused `{!MapRange, !SortSlice, !Primitives} (skip : bool) (dir : index_dir) (raw : Z) :
  is_Some (id_bloom_enc dir) ∨ is_Some (id_index_enc dir) → openDedup skip dir raw None = Err DdNoKey.
Proof.
  intros Henc. assert (Hdec : decryptDir dir None = Err DdNoKey).
  { unfold decryptDir, refuseEncryptedWithoutKey.
    destruct (id_index_enc dir), (id_bloom_enc dir); try reflexivity. by destruct Henc as [[? ?]|[? ?]]. }
  unfold openDedup. by rewrite Hdec.
Qed.

Lemma keyless_open_refused_witness : openDedup false example_enc_dir 100 None = Err DdNoKey.
Proof. exact (keyless_open_refused false example_enc_dir 100 (or_introl (ex_intro _ _ eq_refl))). Defined.
