(* ===== verification/Retention.v ===== *)
(** * core/retention/retention.go: the keep/forget selection

    [Select] and what it is made of: the total order on backups, the age tiers,
    the newest-per-source rule, the bucket ladder, and the closure under
    incremental parents and snapshot siblings.

    Times and durations are nanoseconds.  The parent walk and the fixpoint loop
    have no bound in the code; here they take fuel, and [None] means still
    running.  Go's [sort.Slice] by [newer] is a sort by a total order once ids
    are distinct, so its result is unique. *)

From S2P Require Import Prelude GoBytes GoRuntime.

Record BackupMeta := mkMeta {
  ID : string; Source : string; Status : string;
  StartedAt : Z; CompletedAt : Z; ParentID : string; SnapshotID : string }.

#[export] Instance BackupMeta_eq_dec : EqDecision BackupMeta.
Proof. solve_decision. Defined.

Record Policy := mkPolicy { WithinWeek : Z; AfterWeek : Z; After90Days : Z; AfterYear : Z }.

Definition Hour : Z := 3600 * 10 ^ 9.

Definition newer (a b : BackupMeta) : bool :=
  if negb (CompletedAt a =? CompletedAt b) then CompletedAt b <? CompletedAt a
  else if negb (StartedAt a =? StartedAt b) then StartedAt b <? StartedAt a
  else String.ltb (ID a) (ID b).

Definition cadenceFor (p : Policy) (age : Z) : Z :=
  if age <? 7 * 24 * Hour then WithinWeek p
  else if age <? 90 * 24 * Hour then AfterWeek p
  else if age <? 365 * 24 * Hour then After90Days p
  else AfterYear p.

(** [now.Sub(t)] saturates at the ends of [time.Duration]. *)
Definition timeSub (now t : Z) : Z := Z.max (- 2 ^ 63) (Z.min (2 ^ 63 - 1) (now - t)).

Definition completed (b : BackupMeta) : bool := String.eqb (Status b) "completed".

(** [res.Kept] and [res.Reasons]: the kept ids with their reasons. *)
Abbreviation kept_set := (gmap string string).

Definition keep (id reason : string) (k : kept_set) : kept_set :=
  match k !! id with Some _ => k | None => <[id := reason]> k end.

(** ** Steps 1 and 2 *)

Definition keepActive (backups : list BackupMeta) (k : kept_set) : kept_set :=
  foldl (λ k b, if completed b then k else keep (ID b) "active" k) k backups.

Definition newestStep (m : gmap string BackupMeta) (b : BackupMeta) : gmap string BackupMeta :=
  if completed b then
    match m !! Source b with
    | Some cur => if newer b cur then <[Source b := b]> m else m
    | None => <[Source b := b]> m
    end
  else m.

Definition newestOf (backups : list BackupMeta) : gmap string BackupMeta := foldl newestStep ∅ backups.

(** ** Step 3: the ladder *)

Definition sourceStep (m : gmap string (list BackupMeta)) (b : BackupMeta) : gmap string (list BackupMeta) :=
  if completed b then <[Source b := default [] (m !! Source b) ++ [b]]> m else m.

Definition bySource (backups : list BackupMeta) : gmap string (list BackupMeta) := foldl sourceStep ∅ backups.

(** [a] may stand before [b] in the newest-first order. *)
Definition newest_first (a b : BackupMeta) : Prop := newer b a = false.
#[export] Instance newest_first_dec : RelDecision newest_first.
Proof. intros a b. unfold newest_first. apply _. Defined.

Definition bucket (p : Policy) (now : Z) (b : BackupMeta) : Z * Z :=
  let age := timeSub now (CompletedAt b) in
  (cadenceFor p age, Z.quot age (cadenceFor p age)).

Fixpoint ladder (p : Policy) (now : Z) (l : list BackupMeta) (seen : list (Z * Z)) (k : kept_set) : kept_set :=
  match l with
  | [] => k
  | b :: l =>
      let key := bucket p now b in
      if key.1 <=? 0 then ladder p now l seen (keep (ID b) "ladder" k)
      else if bool_decide (key ∈ seen) then ladder p now l seen k
      else ladder p now l (key :: seen) (keep (ID b) "ladder" k)
  end.

(** ** Steps 4 and 5: the closure *)

Definition byID (backups : list BackupMeta) : gmap string BackupMeta :=
  foldl (λ m b, <[ID b := b]> m) ∅ backups.

(** A missing id reads as the zero value. *)
Definition parentOf (ids : gmap string BackupMeta) (id : string) : string :=
  match ids !! id with Some b => ParentID b | None => "" end.
Definition snapshotOf (ids : gmap string BackupMeta) (id : string) : string :=
  match ids !! id with Some b => SnapshotID b | None => "" end.

Definition snapMembers (backups : list BackupMeta) (sid : string) : list string :=
  ID <$> filter (λ b, SnapshotID b ≠ "" ∧ SnapshotID b = sid) backups.

(** [keep] with the [changed] flag of the fixpoint loop. *)
Definition keepMore (id reason : string) (st : kept_set * bool) : kept_set * bool :=
  match st.1 !! id with Some _ => st | None => (<[id := reason]> st.1, true) end.

Fixpoint chainLoop (ids : gmap string BackupMeta) (pid : string) (st : kept_set * bool) (fuel : nat)
    : option (kept_set * bool) :=
  if String.eqb pid "" then Some st
  else match fuel with
       | O => None
       | S fuel => chainLoop ids (parentOf ids pid) (keepMore pid "chain-ancestor" st) fuel
       end.

Definition siblings (backups : list BackupMeta) (sid : string) (st : kept_set * bool) : kept_set * bool :=
  if String.eqb sid "" then st
  else foldl (λ st sib, keepMore sib "snapshot-sibling" st) st (snapMembers backups sid).

(** [for id := range res.Kept] while the body adds to the map: every id present
    at the start is produced, and ids added meanwhile may be. *)
Class GrowingRange := {
  visits : kept_set → list string;
  visits_all : ∀ k id, is_Some (k !! id) → id ∈ visits k }.

#[export] Program Instance keys_visits : GrowingRange := {| visits := λ k, (map_to_list k).*1 |}.
Next Obligation.
  intros k id [r Hr]. apply list_elem_of_fmap. exists (id, r). split; [done|]. by apply elem_of_map_to_list.
Qed.

Section select.
Context {MR : MapRange} {GR : GrowingRange}.

Fixpoint passLoop (backups : list BackupMeta) (ids : gmap string BackupMeta) (l : list string)
    (st : kept_set * bool) (fuel : nat) : option (kept_set * bool) :=
  match l with
  | [] => Some st
  | id :: l =>
      match st.1 !! id with
      | None => passLoop backups ids l st fuel
      | Some _ =>
          st1 ← chainLoop ids (parentOf ids id) st fuel;
          passLoop backups ids l (siblings backups (snapshotOf ids id) st1) fuel
      end
  end.

(** [for changed := true; changed; ] *)
Fixpoint fixLoop (backups : list BackupMeta) (ids : gmap string BackupMeta) (k : kept_set) (passes fuel : nat)
    : option kept_set :=
  match passes with
  | O => None
  | S passes =>
      '(k', changed) ← passLoop backups ids (visits k) (k, false) fuel;
      if (changed : bool) then fixLoop backups ids k' passes fuel else Some k'
  end.

Definition ladderSeeds (backups : list BackupMeta) (p : Policy) (now : Z) (k : kept_set) : kept_set :=
  foldl (λ k sl, ladder p now (merge_sort newest_first sl.2) [] k) k (range_map (bySource backups)).

Definition seedSet (backups : list BackupMeta) (p : Policy) (now : Z) : kept_set :=
  let k := keepActive backups ∅ in
  let k := foldl (λ k sb, keep (ID sb.2) "newest-of-source" k) k (range_map (newestOf backups)) in
  ladderSeeds backups p now k.

Record Result := mkResult { Kept : kept_set; Forget : list string }.

Definition Select (fuel : nat) (backups : list BackupMeta) (p : Policy) (now : Z) : option Result :=
  k ← fixLoop backups (byID backups) (seedSet backups p now) fuel fuel;
  Some (mkResult k (merge_sort String.le (ID <$> filter (λ b, k !! ID b = None) backups))).
End select.

(** ** The order *)

Lemma ltb_le a b : String.ltb a b = true ↔ String.le a b ∧ a ≠ b.
Proof.
  unfold String.le, String.leb, String.ltb. destruct (String.compare a b) eqn:Hc.
  - apply String.compare_eq_iff in Hc. naive_solver.
  - split; [|done]. intros _. split; [done|]. intros ->.
    assert (String.compare b b = Eq) as He; [|congruence].
    pose proof (String.compare_antisym b b) as Ha. by destruct (String.compare b b).
  - split; [done|]. intros [H _]. done.
Qed.

Lemma ltb_false a b : String.ltb a b = false ↔ String.le b a.
Proof.
  rewrite <- not_true_iff_false, ltb_le. destruct (decide (a = b)) as [->|Hne].
  - split; [intros; reflexivity|tauto].
  - split.
    + intros H. destruct (total String.le a b); [tauto|done].
    + intros Hba [Hab _]. apply Hne. by apply (anti_symm String.le).
Qed.

(** The order's three keys. *)
Lemma newer_true a b :
  newer a b = true ↔ CompletedAt b < CompletedAt a ∨
    CompletedAt a = CompletedAt b ∧ (StartedAt b < StartedAt a ∨
      StartedAt a = StartedAt b ∧ String.le (ID a) (ID b) ∧ ID a ≠ ID b).
Proof.
  unfold newer. destruct (Z.eqb_spec (CompletedAt a) (CompletedAt b)); cbn [negb].
  - destruct (Z.eqb_spec (StartedAt a) (StartedAt b)); cbn [negb].
    + rewrite ltb_le. split; [intros; right; split; [done|]; right; tauto|].
      intros [?|[_ [?|(_ & ? & ?)]]]; [lia..|done].
    + rewrite Z.ltb_lt. split; [intros; right; split; [done|]; by left|]. intros [?|[_ [?|[? _]]]]; lia.
  - rewrite Z.ltb_lt. split; [by left|]. intros [?|[? _]]; lia.
Qed.

Lemma newer_irrefl a : newer a a = false.
Proof. apply not_true_iff_false. rewrite newer_true. intros [?|[_ [?|(_ & _ & ?)]]]; [lia..|done]. Qed.

Lemma newer_trans a b c : newer a b = true → newer b c = true → newer a c = true.
Proof.
  rewrite !newer_true. intros [?|[? [?|(? & Hab & Hne)]]] [?|[? [?|(? & Hbc & Hne')]]];
    try (left; lia); try (right; split; [lia|]; left; lia).
  right. split; [lia|]. right. split_and!; [lia|by transitivity (ID b)|].
  intros Heq. rewrite Heq in Hab. apply Hne. rewrite Heq. apply (anti_symm String.le); [done|done].
Qed.

Lemma newer_asym a b : newer a b = true → newer b a = false.
Proof.
  intros Hab. apply not_true_iff_false. intros Hba. pose proof (newer_trans _ _ _ Hab Hba) as H.
  by rewrite newer_irrefl in H.
Qed.

Lemma newer_total a b : ID a ≠ ID b → newer a b = true ∨ newer b a = true.
Proof.
  intros Hne. rewrite !newer_true. destruct (Z.lt_trichotomy (CompletedAt a) (CompletedAt b)) as [?|[He|?]]; [tauto| |tauto].
  destruct (Z.lt_trichotomy (StartedAt a) (StartedAt b)) as [?|[He'|?]]; [right; right; split; [lia|tauto]| |left; right; tauto].
  destruct (total String.le (ID a) (ID b)); [left|right]; right; (split; [lia|]); right; split_and!; (done || lia || congruence).
Qed.

(** The order of the sort is a total preorder. *)
#[export] Instance newest_first_total : Total newest_first.
Proof. intros a b. unfold newest_first. destruct (newer b a) eqn:H; [right; by apply newer_asym|by left]. Qed.

Lemma newest_first_iff a b :
  newest_first a b ↔ CompletedAt b < CompletedAt a ∨
    CompletedAt a = CompletedAt b ∧ (StartedAt b < StartedAt a ∨
      StartedAt a = StartedAt b ∧ String.le (ID a) (ID b)).
Proof.
  unfold newest_first, newer. destruct (Z.eqb_spec (CompletedAt b) (CompletedAt a)); cbn [negb].
  - destruct (Z.eqb_spec (StartedAt b) (StartedAt a)); cbn [negb].
    + rewrite ltb_false. split; [intros; right; split; [done|]; right; done|].
      intros [?|[_ [?|[_ ?]]]]; [lia..|done].
    + rewrite Z.ltb_ge. split; [intros; right; split; [done|]; left; lia|]. intros [?|[_ [?|[? _]]]]; lia.
  - rewrite Z.ltb_ge. split; [left; lia|]. intros [?|[? _]]; lia.
Qed.

#[export] Instance newest_first_trans : Transitive newest_first.
Proof.
  intros a b c. rewrite !newest_first_iff. intros [?|[? [?|[? Hab]]]] [?|[? [?|[? Hbc]]]];
    try (left; lia); try (right; split; [lia|]; left; lia).
  right. split; [lia|]. right. split; [lia|]. by transitivity (ID b).
Qed.

(** ** Seeds *)

Definition is_kept (k : kept_set) (id : string) : Prop := is_Some (k !! id).
#[export] Instance is_kept_dec k id : Decision (is_kept k id).
Proof. unfold is_kept. apply _. Defined.

Lemma is_kept_insert k x r id : is_kept (<[x := r]> k) id ↔ is_kept k id ∨ id = x.
Proof.
  unfold is_kept. destruct (decide (x = id)) as [->|Hne].
  - rewrite lookup_insert_eq. naive_solver.
  - rewrite lookup_insert_ne by done. naive_solver.
Qed.

Lemma keep_iff x r k id : is_kept (keep x r k) id ↔ is_kept k id ∨ id = x.
Proof.
  unfold keep. destruct (k !! x) eqn:Hx; [|apply is_kept_insert].
  split; [by left|]. intros [?| ->]; [done|]. by eexists.
Qed.

Lemma fold_kept {A} (f : kept_set → A → kept_set) (Q : A → string → Prop) l id :
  (∀ k a, a ∈ l → is_kept (f k a) id ↔ is_kept k id ∨ Q a id) →
  ∀ k, is_kept (foldl f k l) id ↔ is_kept k id ∨ ∃ a, a ∈ l ∧ Q a id.
Proof.
  induction l as [|a l IH]; intros Hf k; cbn [foldl].
  - split; [by left|]. intros [?|(a & Ha & _)]; [done|]. by apply elem_of_nil in Ha.
  - rewrite IH by (intros k' a' Ha'; apply Hf; by right). rewrite Hf by left. split.
    + intros [[?|?]|(a' & ? & ?)]; [by left|right; exists a; split; [left|done]|right; exists a'; split; [by right|done]].
    + intros [?|(a' & [->|?]%elem_of_cons & ?)]; [tauto|tauto|right; by exists a'].
Qed.

Lemma keepActive_iff bs k id :
  is_kept (keepActive bs k) id ↔ is_kept k id ∨ ∃ b, b ∈ bs ∧ completed b = false ∧ ID b = id.
Proof.
  unfold keepActive. rewrite (fold_kept _ (λ b x, completed b = false ∧ ID b = x)); [naive_solver|].
  intros k' b _. destruct (completed b); [naive_solver|]. rewrite keep_iff. naive_solver.
Qed.

(** Ids name backups. *)
Definition distinct (bs : list BackupMeta) : Prop := NoDup (ID <$> bs).

Lemma meta_inj bs a b : distinct bs → a ∈ bs → b ∈ bs → ID a = ID b → a = b.
Proof. apply NoDup_fmap_inj. Qed.

Lemma distinct_app bs cs : distinct (bs ++ cs) → distinct bs.
Proof. unfold distinct. rewrite fmap_app. by intros (? & _ & _)%NoDup_app. Qed.

(** The newest completed backup of its source. *)
Definition newest_pick (bs : list BackupMeta) (b : BackupMeta) : Prop :=
  completed b = true ∧
  ∀ b', b' ∈ bs → completed b' = true → Source b' = Source b → b' ≠ b → newer b b' = true.

Lemma newestOf_snoc bs b : newestOf (bs ++ [b]) = newestStep (newestOf bs) b.
Proof. unfold newestOf. by rewrite foldl_app. Qed.

(** The map's entry for a source is its newest backup; none without one. *)
Lemma newestOf_spec bs s :
  distinct bs →
  match newestOf bs !! s with
  | Some b => b ∈ bs ∧ Source b = s ∧ newest_pick bs b
  | None => ∀ b, b ∈ bs → completed b = true → Source b ≠ s
  end.
Proof.
  induction bs as [|x bs IH] using rev_ind; intros Hd.
  { unfold newestOf. cbn [foldl]. rewrite lookup_empty. by intros b ?%elem_of_nil. }
  specialize (IH (distinct_app _ _ Hd)). rewrite newestOf_snoc. unfold newestStep.
  assert (Hx : x ∈ bs ++ [x]) by (apply elem_of_app; right; by left).
  assert (Hold : ∀ b, b ∈ bs → b ∈ bs ++ [x]) by (intros; apply elem_of_app; by left).
  assert (Hcases : ∀ b, b ∈ bs ++ [x] → b ∈ bs ∨ b = x)
    by (intros b [?|?%list_elem_of_singleton]%elem_of_app; auto).
  destruct (completed x) eqn:Hc.
  2:{ destruct (newestOf bs !! s) as [b|] eqn:Hb.
      - destruct IH as (Hin & Hs & Hcb & Hn). split_and!; auto. split; [done|].
        intros b' [Hb'| ->]%Hcases Hcb'; [auto|congruence].
      - intros b [Hb'| ->]%Hcases; [auto|congruence]. }
  assert (Hstay : ∀ b, b ∈ bs → newest_pick bs b → (Source x = Source b → newer b x = true) → newest_pick (bs ++ [x]) b).
  { intros b Hin [Hcb Hn] Hbx. split; [done|]. intros b' [Hb'| ->]%Hcases Hcb' Hsrc Hne; auto. }
  destruct (decide (Source x = s)) as [<-|Hs].
  - destruct (newestOf bs !! Source x) as [cur|] eqn:Hb.
    + destruct IH as (Hin & Hs & Hp). destruct (newer x cur) eqn:Hnew.
      * rewrite lookup_insert_eq. split_and!; [done..|]. split; [done|].
        intros b' [Hb'| ->]%Hcases Hcb' Hsrc Hne; [|done]. destruct (decide (b' = cur)) as [->|Hne']; [done|].
        apply newer_trans with cur; [done|]. apply Hp; congruence.
      * rewrite Hb. split_and!; auto. apply Hstay; [done..|]. intros _.
        destruct (newer_total cur x) as [H|H]; [|done|congruence]. intros Heq.
        assert (cur = x) as -> by (eapply meta_inj; eauto).
        apply elem_of_Permutation in Hin as [k Hk]. unfold distinct in Hd. rewrite fmap_app, Hk in Hd.
        apply NoDup_app in Hd as (_ & Hdis & _). apply (Hdis (ID x)); cbn; left.
    + rewrite lookup_insert_eq. split_and!; [done..|]. split; [done|].
      intros b' [Hb'| ->]%Hcases Hcb' Hsrc Hne; [|done]. by destruct (IH b' Hb' Hcb').
  - assert (Hl : match newestOf bs !! Source x with
                 | Some cur => if newer x cur then <[Source x := x]> (newestOf bs) else newestOf bs
                 | None => <[Source x := x]> (newestOf bs) end !! s = newestOf bs !! s).
    { destruct (newestOf bs !! Source x) as [cur|]; [destruct (newer x cur)|]; rewrite ?lookup_insert_ne by done; done. }
    rewrite Hl. destruct (newestOf bs !! s) as [b|].
    + destruct IH as (Hin & Hsb & Hp). split_and!; auto. apply Hstay; [done..|]. congruence.
    + intros b [Hb'| ->]%Hcases; auto.
Qed.

Definition of_source (s : string) (b : BackupMeta) : Prop := completed b = true ∧ Source b = s.
#[export] Instance of_source_dec s b : Decision (of_source s b).
Proof. unfold of_source. apply _. Defined.

Lemma bySource_spec bs s :
  bySource bs !! s = match filter (of_source s) bs with [] => None | l => Some l end.
Proof.
  induction bs as [|x bs IH] using rev_ind; [done|].
  unfold bySource in *. rewrite foldl_app. cbn [foldl]. rewrite filter_app, filter_cons, filter_nil.
  unfold sourceStep at 1. destruct (completed x) eqn:Hc.
  - destruct (decide (Source x = s)) as [<-|Hs].
    + rewrite lookup_insert_eq, IH, decide_True by done. destruct (filter _ bs); done.
    + rewrite lookup_insert_ne, IH, decide_False by (done || intros []; done). by rewrite app_nil_r.
  - rewrite IH, decide_False by (intros []; congruence). by rewrite app_nil_r.
Qed.

Lemma ladder_iff p now l id : ∀ seen k,
  is_kept (ladder p now l seen k) id ↔ is_kept k id ∨
    ∃ l1 b l2, l = l1 ++ b :: l2 ∧ ID b = id ∧
      ((bucket p now b).1 ≤ 0 ∨ ((bucket p now b ∉ seen) ∧ bucket p now b ∉ (bucket p now <$> l1))).
Proof.
  induction l as [|x l IH]; intros seen k; cbn [ladder].
  { split; [by left|]. intros [?|(l1 & b & l2 & Hl & _)]; [done|]. by destruct l1. }
  rewrite (split_cons_iff x l (λ l1 b, ID b = id ∧
    ((bucket p now b).1 ≤ 0 ∨ ((bucket p now b ∉ seen) ∧ bucket p now b ∉ (bucket p now <$> l1))))).
  destruct (Z.leb_spec (bucket p now x).1 0) as [Hle|Hgt]; [|case_bool_decide as Hseen].
  - rewrite IH, keep_iff. split.
    + intros [[?| ->]|(l1 & b & l2 & Hl & Hid & HP)]; [by left|right; left; split; [done|by left]|].
      right. right. exists l1, b, l2. split_and!; [done..|]. destruct HP as [?|[H1 H2]]; [by left|].
      destruct (decide ((bucket p now b).1 ≤ 0)); [by left|]. right. split; [done|]. rewrite fmap_cons.
      intros [Heq|?]%elem_of_cons; [rewrite Heq in *; lia|done].
    + intros [?|[[? _]|(l1 & b & l2 & Hl & Hid & HP)]]; [by left; left|left; right; done|].
      right. exists l1, b, l2. split_and!; [done..|]. destruct HP as [?|[H1 H2]]; [by left|right]. split; [done|].
      rewrite fmap_cons in H2. intros ?. apply H2. by right.
  - rewrite IH. split.
    + intros [?|(l1 & b & l2 & Hl & Hid & HP)]; [by left|]. right. right. exists l1, b, l2. split_and!; [done..|].
      destruct HP as [?|[H1 H2]]; [by left|right]. split; [done|]. rewrite fmap_cons.
      intros [Heq|?]%elem_of_cons; [congruence|done].
    + intros [?|[[? [?|[? _]]]|(l1 & b & l2 & Hl & Hid & HP)]]; [by left|lia|done|].
      right. exists l1, b, l2. split_and!; [done..|]. destruct HP as [?|[H1 H2]]; [by left|right]. split; [done|].
      rewrite fmap_cons in H2. intros ?. apply H2. by right.
  - rewrite IH, keep_iff. split.
    + intros [[?| ->]|(l1 & b & l2 & Hl & Hid & HP)]; [by left|right; left; split; [done|right; split; [done|apply not_elem_of_nil]]|].
      right. right. exists l1, b, l2. split_and!; [done..|]. destruct HP as [?|[H1 H2]]; [by left|right].
      apply not_elem_of_cons in H1 as [? ?]. split; [done|]. rewrite fmap_cons. by apply not_elem_of_cons.
    + intros [?|[[? _]|(l1 & b & l2 & Hl & Hid & HP)]]; [by left; left|left; right; done|].
      right. exists l1, b, l2. split_and!; [done..|]. destruct HP as [?|[H1 H2]]; [by left|right].
      rewrite fmap_cons in H2. apply not_elem_of_cons in H2 as [? ?]. split; [by apply not_elem_of_cons|done].
Qed.

(** The ladder keeps a backup when its tier keeps everything or no newer backup
    of its source falls in the same bucket. *)
Definition ladder_pick (p : Policy) (now : Z) (bs : list BackupMeta) (b : BackupMeta) : Prop :=
  completed b = true ∧
  ((bucket p now b).1 ≤ 0 ∨
   ∀ b', b' ∈ bs → completed b' = true → Source b' = Source b → newer b' b = true →
     bucket p now b' ≠ bucket p now b).

(** In the sorted list, before [b] stand exactly the newer ones. *)
Lemma sorted_before l1 b l2 b' :
  StronglySorted newest_first (l1 ++ b :: l2) → distinct (l1 ++ b :: l2) →
  b' ∈ l1 ++ b :: l2 → newer b' b = true ↔ b' ∈ l1.
Proof.
  intros Hs Hd Hin. apply (sorted_split newer l1 b l2); [apply newer_irrefl| |done|by eapply NoDup_fmap_1|done].
  intros x y Hx Hy Hne. apply newer_total. intros Heq. apply Hne. by eapply meta_inj.
Qed.

Lemma ladder_source_iff p now bs s k id :
  distinct bs →
  is_kept (ladder p now (merge_sort newest_first (filter (of_source s) bs)) [] k) id ↔
  is_kept k id ∨ ∃ b, b ∈ bs ∧ ID b = id ∧ Source b = s ∧ ladder_pick p now bs b.
Proof.
  intros Hd. set (l := merge_sort newest_first _).
  assert (Hl : l ≡ₚ filter (of_source s) bs) by apply merge_sort_Permutation.
  assert (Hin : ∀ b, b ∈ l ↔ b ∈ bs ∧ completed b = true ∧ Source b = s).
  { intros b. rewrite Hl, list_elem_of_filter. unfold of_source. tauto. }
  assert (Hs : StronglySorted newest_first l) by (apply StronglySorted_merge_sort; apply _).
  assert (Hdl : distinct l).
  { unfold distinct. rewrite Hl. eapply sublist_NoDup; [exact Hd|]. apply fmap_sublist, sublist_filter. }
  rewrite ladder_iff. f_equiv. split.
  - intros (l1 & b & l2 & Heq & Hid & HP). assert (b ∈ l) as Hb by (rewrite Heq; apply elem_of_app; right; by left).
    pose proof (proj1 (Hin b) Hb) as (Hbs & Hc & Hsrc). exists b. split_and!; [done..|]. split; [done|].
    destruct HP as [?|[_ HP]]; [by left|right]. intros b' Hb' Hc' Hsrc' Hn Hbk. apply HP. rewrite <- Hbk.
    apply list_elem_of_fmap_2. rewrite Heq in Hs, Hdl. apply (sorted_before l1 b l2); [done..| |done].
    rewrite <- Heq. apply Hin. split_and!; congruence.
  - intros (b & Hbs & Hid & Hsrc & Hc & HP). assert (b ∈ l) as Hb by (by apply Hin).
    apply list_elem_of_split in Hb as (l1 & l2 & Heq). exists l1, b, l2.
    split_and!; [done..|]. destruct HP as [?|HP]; [by left|right]. split; [apply not_elem_of_nil|].
    intros (b' & Hbk & Hb1)%list_elem_of_fmap. rewrite Heq in Hs, Hdl.
    assert (b' ∈ l) as Hbl by (rewrite Heq; apply elem_of_app; by left). pose proof (proj1 (Hin b') Hbl) as (? & ? & ?).
    apply (HP b'); [done|done|congruence| |done]. apply (sorted_before l1 b l2); [done..| |done]. by rewrite <- Heq.
Qed.

(** The ids selected before the closure. *)
Definition seed (p : Policy) (now : Z) (bs : list BackupMeta) (id : string) : Prop :=
  ∃ b, b ∈ bs ∧ ID b = id ∧ (completed b = false ∨ newest_pick bs b ∨ ladder_pick p now bs b).

Section selection.
Context {MR : MapRange}.

Lemma range_elem {V} (m : gmap string V) s v : (s, v) ∈ range_map m ↔ m !! s = Some v.
Proof. rewrite range_map_perm. by rewrite elem_of_map_to_list. Qed.

Lemma newest_fold_iff bs k id :
  distinct bs →
  is_kept (foldl (λ k sb, keep (ID sb.2) "newest-of-source" k) k (range_map (newestOf bs))) id ↔
  is_kept k id ∨ ∃ b, b ∈ bs ∧ ID b = id ∧ newest_pick bs b.
Proof.
  intros Hd. rewrite (fold_kept _ (λ sb x, ID sb.2 = x)).
  2:{ intros k' sb _. rewrite keep_iff. naive_solver. }
  f_equiv. split.
  - intros ([s b] & Hin & Hid). apply range_elem in Hin. pose proof (newestOf_spec bs s Hd) as Hs. rewrite Hin in Hs.
    destruct Hs as (? & _ & ?). by exists b.
  - intros (b & Hb & Hid & Hp). pose proof (newestOf_spec bs (Source b) Hd) as Hs.
    destruct (newestOf bs !! Source b) as [b'|] eqn:Hb'; [|destruct Hp as [Hc _]; by destruct (Hs b Hb Hc)].
    destruct Hs as (Hin' & Hsrc & Hp'). destruct (decide (b' = b)) as [->|Hne].
    + exists (Source b, b). split; [by apply range_elem|done].
    + destruct Hp as [Hc Hn], Hp' as [Hc' Hn'].
      pose proof (Hn b' Hin' Hc' Hsrc Hne) as H1. pose proof (Hn' b Hb Hc (eq_sym Hsrc) (not_eq_sym Hne)) as H2.
      apply newer_asym in H1. congruence.
Qed.

Lemma ladderSeeds_iff bs p now k id :
  distinct bs →
  is_kept (ladderSeeds bs p now k) id ↔ is_kept k id ∨ ∃ b, b ∈ bs ∧ ID b = id ∧ ladder_pick p now bs b.
Proof.
  intros Hd. unfold ladderSeeds.
  rewrite (fold_kept _ (λ sl x, ∃ b, b ∈ bs ∧ ID b = x ∧ Source b = sl.1 ∧ ladder_pick p now bs b)).
  - f_equiv. split.
    + intros ([s l] & _ & b & ? & ? & _ & ?). by exists b.
    + intros (b & Hb & Hid & Hp). pose proof (bySource_spec bs (Source b)) as Hs.
      assert (b ∈ filter (of_source (Source b)) bs) as Hf.
      { apply list_elem_of_filter. split; [|done]. split; [apply Hp|done]. }
      destruct (filter (of_source (Source b)) bs) as [|x l]; [by apply elem_of_nil in Hf|].
      exists (Source b, x :: l). split; [by apply range_elem|]. by exists b.
  - intros k' [s l] Hin. apply range_elem in Hin. rewrite bySource_spec in Hin.
    assert (l = filter (of_source s) bs) as -> by (destruct (filter _ bs); by simplify_eq).
    by apply ladder_source_iff.
Qed.

Lemma seedSet_iff bs p now id : distinct bs → is_kept (seedSet bs p now) id ↔ seed p now bs id.
Proof.
  intros Hd. unfold seedSet. rewrite ladderSeeds_iff, newest_fold_iff, keepActive_iff by done.
  unfold seed. split.
  - intros [[[[? ?]|(b & ? & ? & ?)]|(b & ? & ? & ?)]|(b & ? & ? & ?)]; [done|exists b; auto..].
  - intros (b & Hb & Hid & [?|[?|?]]); [left; left; right|left; right|right]; exists b; auto.
Qed.
End selection.

(** ** The closure *)

Inductive closure (bs : list BackupMeta) (S : string → Prop) : string → Prop :=
| closure_seed id : S id → closure bs S id
| closure_parent id b : closure bs S id → b ∈ bs → ID b = id → ParentID b ≠ "" → closure bs S (ParentID b)
| closure_sibling id b b' : closure bs S id → b ∈ bs → ID b = id → SnapshotID b ≠ "" →
    b' ∈ bs → SnapshotID b' = SnapshotID b → closure bs S (ID b').

Lemma byID_snoc bs b : byID (bs ++ [b]) = <[ID b := b]> (byID bs).
Proof. unfold byID. by rewrite foldl_app. Qed.

Lemma byID_spec bs id b : distinct bs → byID bs !! id = Some b ↔ b ∈ bs ∧ ID b = id.
Proof.
  induction bs as [|x bs IH] using rev_ind; intros Hd.
  - unfold byID. cbn [foldl]. rewrite lookup_empty, elem_of_nil. naive_solver.
  - rewrite byID_snoc, elem_of_app, list_elem_of_singleton. specialize (IH (distinct_app _ _ Hd)).
    destruct (decide (ID x = id)) as [<-|Hne].
    + rewrite lookup_insert_eq. split; [intros [= ->]; auto|]. intros [Hin Heq]. f_equal.
      eapply meta_inj; [exact Hd|..|done]; apply elem_of_app; rewrite list_elem_of_singleton; auto.
    + rewrite lookup_insert_ne, IH by done. naive_solver.
Qed.

(** What the loops read. *)
Lemma parentOf_spec bs id :
  distinct bs → parentOf (byID bs) id ≠ "" → ∃ b, b ∈ bs ∧ ID b = id ∧ ParentID b = parentOf (byID bs) id.
Proof.
  intros Hd. unfold parentOf. destruct (byID bs !! id) as [b|] eqn:Hb; [|done]. intros _.
  apply byID_spec in Hb as [? ?]; [|done]. by exists b.
Qed.

Lemma parentOf_of bs b : distinct bs → b ∈ bs → parentOf (byID bs) (ID b) = ParentID b.
Proof. intros Hd Hb. unfold parentOf. by rewrite (proj2 (byID_spec bs (ID b) b Hd)). Qed.

Lemma snapshotOf_of bs b : distinct bs → b ∈ bs → snapshotOf (byID bs) (ID b) = SnapshotID b.
Proof. intros Hd Hb. unfold snapshotOf. by rewrite (proj2 (byID_spec bs (ID b) b Hd)). Qed.

(** ** The loops *)

(** A step of the closing loops: the set grows inside [C], and an unset flag
    says that nothing moved. *)
Definition grows (C : string → Prop) (st st' : kept_set * bool) : Prop :=
  (∀ x, is_kept st.1 x → is_kept st'.1 x) ∧
  (∀ x, is_kept st'.1 x → is_kept st.1 x ∨ C x) ∧
  (st'.2 = false → st' = st) ∧
  (st'.2 = true → st.2 = false → ∃ x, is_kept st'.1 x ∧ ¬ is_kept st.1 x).

Lemma grows_refl C st : grows C st st.
Proof. split_and!; [done|by left|done|congruence]. Qed.

Lemma grows_trans C st1 st2 st3 : grows C st1 st2 → grows C st2 st3 → grows C st1 st3.
Proof.
  intros (M1 & I1 & F1 & T1) (M2 & I2 & F2 & T2). split_and!.
  - auto.
  - intros x Hx. destruct (I2 x Hx); [auto|by right].
  - intros Hf. pose proof (F2 Hf) as ->. auto.
  - intros Ht Hf. destruct (st2.2) eqn:H2.
    + destruct (T1 eq_refl Hf) as (x & ? & ?). exists x. auto.
    + rewrite <- (F1 eq_refl). auto.
Qed.

Lemma keepMore_grows (C : string → Prop) x r st : C x → grows C st (keepMore x r st).
Proof.
  intros Hx. unfold keepMore. destruct (st.1 !! x) eqn:Hl; [apply grows_refl|].
  split_and!; cbn; [intros; apply is_kept_insert; by left| |done|].
  - intros y [?| ->]%is_kept_insert; [by left|by right].
  - intros _ _. exists x. split; [apply is_kept_insert; by right|]. intros [? ?]. congruence.
Qed.

Lemma keepMore_kept x r st : is_kept (keepMore x r st).1 x.
Proof.
  unfold keepMore. destruct (st.1 !! x) eqn:Hl; [by eexists|]. apply is_kept_insert. by right.
Qed.

Section closing.
Context (bs : list BackupMeta) (Hd : distinct bs) (S : string → Prop).
Context {GR : GrowingRange}.
Local Notation C := (closure bs S).

Lemma chainLoop_grows fuel : ∀ pid st st',
  (pid ≠ "" → C pid) → chainLoop (byID bs) pid st fuel = Some st' →
  grows C st st' ∧ (pid ≠ "" → is_kept st'.1 pid).
Proof.
  induction fuel as [|fuel IH]; intros pid st st' Hpid; cbn [chainLoop]; destruct (String.eqb_spec pid "") as [->|Hne];
    try (intros [= <-]; split; [apply grows_refl|done]); [done|].
  intros H. apply IH in H as [Hg _].
  - split; [eapply grows_trans; [|exact Hg]; apply keepMore_grows; auto|]. intros _. apply Hg, keepMore_kept.
  - intros Hp. destruct (parentOf_spec bs pid Hd Hp) as (b & Hb & Hid & Heq). rewrite <- Heq in *.
    eapply closure_parent; eauto.
Qed.

Lemma snapMembers_elem sid id :
  id ∈ snapMembers bs sid ↔ ∃ b, b ∈ bs ∧ ID b = id ∧ SnapshotID b ≠ "" ∧ SnapshotID b = sid.
Proof.
  unfold snapMembers. rewrite list_elem_of_fmap. split.
  - intros (b & -> & Hb). apply list_elem_of_filter in Hb as [[? ?] ?]. by exists b.
  - intros (b & ? & <- & ? & ?). exists b. split; [done|]. by apply list_elem_of_filter.
Qed.

Lemma fold_keepMore (l : list string) : ∀ st,
  (∀ x, x ∈ l → C x) →
  let st' := foldl (λ st sib, keepMore sib "snapshot-sibling" st) st l in
  grows C st st' ∧ ∀ x, x ∈ l → is_kept st'.1 x.
Proof.
  induction l as [|y l IH]; intros st Hl; cbn [foldl].
  - split; [apply grows_refl|]. by intros x ?%elem_of_nil.
  - destruct (IH (keepMore y "snapshot-sibling" st)) as [Hg Hk]; [intros; apply Hl; by right|]. split.
    + eapply grows_trans; [|exact Hg]. apply keepMore_grows, Hl. left.
    + intros x [->|?]%elem_of_cons; [apply Hg, keepMore_kept|auto].
Qed.

Lemma siblings_grows id st :
  C id →
  let st' := siblings bs (snapshotOf (byID bs) id) st in
  grows C st st' ∧
  ∀ b b', b ∈ bs → ID b = id → SnapshotID b ≠ "" → b' ∈ bs → SnapshotID b' = SnapshotID b → is_kept st'.1 (ID b').
Proof.
  intros Hid. unfold siblings, snapshotOf. destruct (byID bs !! id) as [c|] eqn:Hc.
  - apply byID_spec in Hc as [Hc Hcid]; [|done]. destruct (String.eqb_spec (SnapshotID c) "") as [He|Hne].
    + split; [apply grows_refl|]. intros b b' Hb Hbid Hs. destruct Hs. rewrite <- He. f_equal.
      eapply meta_inj; eauto. congruence.
    + destruct (fold_keepMore (snapMembers bs (SnapshotID c)) st) as [Hg Hk].
      * intros x (b & Hb & <- & Hs & Heq)%snapMembers_elem. eapply (closure_sibling _ _ id c b); eauto.
      * split; [exact Hg|]. intros b b' Hb Hbid Hs Hb' Heq. apply Hk, snapMembers_elem. exists b'.
        assert (b = c) as -> by (eapply meta_inj; eauto; congruence). split_and!; congruence.
  - split; [apply grows_refl|]. intros b b' Hb Hbid. exfalso. rewrite (proj2 (byID_spec bs id b Hd)) in Hc; done.
Qed.

(** [id] needs nothing more. *)
Definition settled (k : kept_set) (id : string) : Prop :=
  (parentOf (byID bs) id ≠ "" → is_kept k (parentOf (byID bs) id)) ∧
  (∀ b b', b ∈ bs → ID b = id → SnapshotID b ≠ "" → b' ∈ bs → SnapshotID b' = SnapshotID b → is_kept k (ID b')).

Lemma parentOf_closure id : C id → parentOf (byID bs) id ≠ "" → C (parentOf (byID bs) id).
Proof.
  intros Hid Hp. destruct (parentOf_spec bs id Hd Hp) as (b & Hb & Hbid & Heq). rewrite <- Heq in *.
  eapply closure_parent; eauto.
Qed.

Lemma passLoop_grows fuel l : ∀ st st',
  (∀ x, is_kept st.1 x → C x) → passLoop bs (byID bs) l st fuel = Some st' →
  grows C st st' ∧ (st'.2 = false → ∀ id, id ∈ l → is_kept st.1 id → settled st.1 id).
Proof.
  induction l as [|id l IH]; intros st st' Hst; cbn [passLoop].
  { intros [= <-]. split; [apply grows_refl|]. by intros _ id ?%elem_of_nil. }
  destruct (st.1 !! id) eqn:Hl.
  - intros (st1 & Hc & Hp)%bind_Some. assert (Hid : C id) by (apply Hst; by eexists).
    apply chainLoop_grows in Hc as [Hg1 Hk1]; [|by apply parentOf_closure].
    destruct (siblings_grows id st1 Hid) as [Hg2 Hk2].
    set (st2 := siblings bs _ st1) in *. pose proof (grows_trans _ _ _ _ Hg1 Hg2) as Hg.
    apply IH in Hp as [Hg3 Hk3].
    + split; [by eapply grows_trans|]. intros Hf. pose proof Hg3 as (_ & _ & F3 & _). pose proof (F3 Hf) as Heq.
      rewrite Heq in Hf. pose proof Hg2 as (_ & _ & F2 & _). pose proof (F2 Hf) as Heq2.
      pose proof Hg as (_ & _ & F & _). pose proof (F Hf) as Heq1.
      intros x [->|Hx]%elem_of_cons.
      * intros _. rewrite <- Heq1. split; [|exact Hk2]. intros Hpar. apply Hg2. auto.
      * rewrite <- Heq1. apply Hk3; [by rewrite Heq|done].
    + intros x Hx. destruct Hg as (_ & I & _ & _). destruct (I x Hx); auto.
  - intros Hp. apply IH in Hp as [Hg Hk]; [|done]. split; [done|]. intros Hf x [->|Hx]%elem_of_cons; [|auto].
    intros [? ?]. congruence.
Qed.

Lemma fixLoop_closed fuel passes : ∀ k k',
  (∀ x, is_kept k x → C x) → fixLoop bs (byID bs) k passes fuel = Some k' →
  (∀ x, is_kept k x → is_kept k' x) ∧ (∀ x, is_kept k' x → C x) ∧ (∀ id, is_kept k' id → settled k' id).
Proof.
  induction passes as [|n IH]; intros k k' Hk; cbn [fixLoop]; [done|].
  intros ([k1 ch] & Hp & H)%bind_Some. apply passLoop_grows in Hp as [Hg Hs]; [|done].
  pose proof Hg as (M & I & F & _). cbn in *. assert (Hk1 : ∀ x, is_kept k1 x → C x) by (intros x [?|?]%I; auto).
  destruct ch.
  - apply IH in H as (M' & I' & S'); [|done]. split_and!; auto.
  - injection H as <-. pose proof (F eq_refl) as [= ->]. split_and!; [done..|].
    intros id Hid. apply (Hs eq_refl id); [by apply visits_all|done].
Qed.

(** What the loop leaves is exactly the closure of what it started from. *)
Lemma fixLoop_closure fuel passes k k' :
  (∀ x, is_kept k x ↔ S x) → fixLoop bs (byID bs) k passes fuel = Some k' → ∀ x, is_kept k' x ↔ C x.
Proof.
  intros Hk H. destruct (fixLoop_closed fuel passes k k') as (M & I & Hs); [|done|].
  { intros x Hx. by apply closure_seed, Hk. }
  intros x. split; [apply I|]. induction 1 as [x Hx|x b Hx IH Hb <- Hp|x b b' Hx IH Hb Hid Hn Hb' Heq].
  - by apply M, Hk.
  - destruct (Hs _ IH) as [Hpar _]. rewrite parentOf_of in Hpar by done. auto.
  - destruct (Hs _ IH) as [_ Hsib]. by apply (Hsib b b').
Qed.
End closing.

(** ** What [Select] returns *)

Section result.
Context {MR : MapRange} {GR : GrowingRange}.

(** The kept ids are the closure of the seeds. *)
Lemma Select_kept fuel bs p now res :
  distinct bs → Select fuel bs p now = Some res →
  ∀ id, is_kept (Kept res) id ↔ closure bs (seed p now bs) id.
Proof.
  intros Hd (k & Hk & [= <-])%bind_Some. cbn [Kept].
  eapply fixLoop_closure; [done|intros x; by apply seedSet_iff|exact Hk].
Qed.

Lemma Select_forget fuel bs p now res :
  Select fuel bs p now = Some res →
  Forget res = merge_sort String.le (ID <$> filter (λ b, Kept res !! ID b = None) bs).
Proof. by intros (k & _ & [= <-])%bind_Some. Qed.

Lemma Select_forget_elem fuel bs p now res id :
  Select fuel bs p now = Some res →
  id ∈ Forget res ↔ (∃ b, b ∈ bs ∧ ID b = id) ∧ ¬ is_kept (Kept res) id.
Proof.
  intros ->%Select_forget. rewrite merge_sort_Permutation, list_elem_of_fmap. unfold is_kept.
  setoid_rewrite list_elem_of_filter. split.
  - intros (b & -> & Hn & Hb). split; [by exists b|]. rewrite Hn. by intros [? ?].
  - intros [(b & Hb & <-) Hn]. exists b. split_and!; [done| |done]. by apply eq_None_not_Some.
Qed.
End result.

(** ** Termination *)

Section fuel.
Context {MR : MapRange} {GR : GrowingRange}.

(** [h] bounds the length of every parent chain. *)
Definition ranked (bs : list BackupMeta) (h : string → nat) : Prop :=
  ∀ b, b ∈ bs → ParentID b ≠ "" → (h (ParentID b) < h (ID b))%nat.

Lemma chainLoop_total bs h fuel : distinct bs → ranked bs h → ∀ pid st,
  (h pid < fuel)%nat → is_Some (chainLoop (byID bs) pid st fuel).
Proof.
  intros Hd Hh. induction fuel as [|fuel IH]; intros pid st Hlt; [lia|]. cbn [chainLoop].
  destruct (String.eqb_spec pid "") as [->|Hne]; [by eexists|].
  destruct (decide (parentOf (byID bs) pid = "")) as [He|Hp].
  - rewrite He. destruct fuel; by eexists.
  - apply IH. destruct (parentOf_spec bs pid Hd Hp) as (b & Hb & Hid & Heq). rewrite <- Heq in *.
    pose proof (Hh b Hb Hp). subst. lia.
Qed.

Lemma passLoop_total bs h fuel l : distinct bs → ranked bs h → (∀ id, (h id < fuel)%nat) → ∀ st,
  is_Some (passLoop bs (byID bs) l st fuel).
Proof.
  intros Hd Hh Hf. induction l as [|id l IH]; intros st; cbn [passLoop]; [by eexists|].
  destruct (st.1 !! id); [|auto].
  destruct (chainLoop_total bs h fuel Hd Hh (parentOf (byID bs) id) st (Hf _)) as [st1 ->]. apply IH.
Qed.

(** Every id the closure can reach. *)
Definition universe (bs : list BackupMeta) : gset string :=
  list_to_set (ID <$> bs) ∪ list_to_set (ParentID <$> bs).

Lemma size_universe bs : (size (universe bs) ≤ 2 * length bs)%nat.
Proof.
  assert (Hl : ∀ l : list string, (size (list_to_set l : gset string) ≤ length l)%nat).
  { induction l as [|x l IH]; cbn [list_to_set length]; [by rewrite size_empty|].
    pose proof (size_union_alt ({[x]} : gset string) (list_to_set l)) as Hu. rewrite Hu, size_singleton.
    pose proof (subseteq_size ((list_to_set l : gset string) ∖ {[x]}) (list_to_set l) ltac:(set_solver)). lia. }
  unfold universe. rewrite size_union_alt.
  pose proof (subseteq_size ((list_to_set (ParentID <$> bs) : gset string) ∖ list_to_set (ID <$> bs))
    (list_to_set (ParentID <$> bs)) ltac:(set_solver)).
  pose proof (Hl (ID <$> bs)). pose proof (Hl (ParentID <$> bs)). rewrite length_fmap in *. lia.
Qed.

Lemma closure_universe bs S id : (∀ x, S x → x ∈ universe bs) → closure bs S id → id ∈ universe bs.
Proof.
  intros HS. unfold universe in *. induction 1 as [id Hid|id b _ _ Hb _ _|id b b' _ _ _ _ _ Hb' _]; [auto| |];
    apply elem_of_union; [right|left]; apply elem_of_list_to_set; by apply list_elem_of_fmap_2.
Qed.

Lemma kept_size_grows (k k' : kept_set) :
  (∀ x, is_kept k x → is_kept k' x) → (∃ x, is_kept k' x ∧ ¬ is_kept k x) → (size (dom k) < size (dom k'))%nat.
Proof.
  intros M (x & Hx & Hn). apply subset_size. split.
  - intros y Hy. apply elem_of_dom. apply M. by apply elem_of_dom.
  - intros Hsub. apply Hn. apply elem_of_dom in Hx. apply Hsub in Hx. by apply elem_of_dom in Hx.
Qed.

Lemma fixLoop_total bs S h fuel : distinct bs → ranked bs h → (∀ id, (h id < fuel)%nat) →
  (∀ x, closure bs S x → x ∈ universe bs) → ∀ passes k,
  (∀ x, is_kept k x → closure bs S x) → (size (universe bs) < passes + size (dom k))%nat →
  is_Some (fixLoop bs (byID bs) k passes fuel).
Proof.
  intros Hd Hh Hf HU. induction passes as [|n IH]; intros k Hk Hlt.
  - assert (dom k ⊆ universe bs) as Hs%subseteq_size; [|lia]. intros x Hx. apply HU, Hk. by apply elem_of_dom.
  - cbn [fixLoop]. destruct (passLoop_total bs h fuel (visits k) Hd Hh Hf (k, false)) as [[k1 ch] Hp].
    rewrite Hp. cbn. destruct (passLoop_grows bs Hd S fuel (visits k) (k, false) (k1, ch)) as [(M & I & _ & T) _]; [done..|].
    destruct ch; [|by eexists]. cbn in *. apply IH.
    + intros x [?|?]%I; auto.
    + pose proof (kept_size_grows k k1 M (T eq_refl eq_refl)). lia.
Qed.
End fuel.

(** ** Theorems *)

(** A week of daily backups of two volumes, one chained, one snapshot. *)
Definition demo : list BackupMeta := [
  mkMeta "a0" "C:" "completed" 0 (1 * Hour) "" "";
  mkMeta "a1" "C:" "completed" (24 * Hour) (25 * Hour) "a0" "";
  mkMeta "a2" "C:" "completed" (26 * Hour) (27 * Hour) "a0" "";
  mkMeta "b0" "D:" "completed" (48 * Hour) (49 * Hour) "" "s1";
  mkMeta "c0" "E:" "completed" (48 * Hour) (49 * Hour) "" "s1";
  mkMeta "c1" "E:" "in_progress" (96 * Hour) (96 * Hour) "" "";
  mkMeta "d0" "D:" "completed" (30 * Hour) (31 * Hour) "" "" ].
Definition demo_policy : Policy := mkPolicy (48 * Hour) (168 * Hour) (720 * Hour) (720 * Hour).
Definition demo_rank (id : string) : nat := if String.eqb id "a1" || String.eqb id "a2" then 1 else 0.

Lemma demo_distinct : distinct demo.
Proof. by_eval. Defined.

Lemma demo_ranked : ranked demo demo_rank.
Proof.
  intros b Hb. unfold demo in Hb. rewrite !elem_of_cons, elem_of_nil in Hb.
  destruct_or?; subst; cbn; intros; (done || lia).
Defined.

Lemma demo_fuel id : (demo_rank id < 20)%nat.
Proof. unfold demo_rank. destruct (_ || _); lia. Defined.

(** C6. The selection is total and exact.  When ids are distinct and parent
    links do not cycle (they descend a rank), [Select] finishes within twice as
    many passes as there are backups (fuel 2n + 1, and chains as long as the
    rank), and then: an id is kept exactly when it is in the least set that
    contains the not-completed backups, the newest completed backup of every
    source and the ladder's picks, and is closed under incremental parents and
    snapshot siblings; every backup is either kept or forgotten, never both;
    the forget list is sorted and has no duplicates. *)
Theorem retention_selects_closure {MR : MapRange} {GR : GrowingRange} fuel bs p now (h : string → nat) :
  distinct bs → ranked bs h → (∀ id, (h id < fuel)%nat) → (2 * length bs < fuel)%nat →
  ∃ res, Select fuel bs p now = Some res ∧
    (∀ id, is_kept (Kept res) id ↔ closure bs (seed p now bs) id) ∧
    (∀ b, b ∈ bs → ID b ∈ Forget res ↔ ¬ is_kept (Kept res) (ID b)) ∧
    (∀ id, id ∈ Forget res → ∃ b, b ∈ bs ∧ ID b = id) ∧
    StronglySorted String.le (Forget res) ∧ NoDup (Forget res).
Proof.
  intros Hd Hh Hf Hn.
  assert (Hseed : ∀ x, seed p now bs x → x ∈ universe bs).
  { intros x (b & Hb & <- & _). apply elem_of_union_l, elem_of_list_to_set. by apply list_elem_of_fmap_2. }
  destruct (fixLoop_total bs (seed p now bs) h fuel Hd Hh Hf (λ x, closure_universe bs _ x Hseed) fuel (seedSet bs p now)) as [k Hk].
  { intros x Hx. apply closure_seed. by apply seedSet_iff. }
  { pose proof (size_universe bs). lia. }
  set (res := mkResult k (merge_sort String.le (ID <$> filter (λ b, k !! ID b = None) bs))).
  assert (Hsel : Select fuel bs p now = Some res) by (unfold Select; by rewrite Hk).
  exists res. split_and!; [done|by eapply Select_kept|..].
  - intros b Hb. rewrite Select_forget_elem by done. naive_solver.
  - intros id. rewrite Select_forget_elem by done. naive_solver.
  - apply StronglySorted_merge_sort; apply _.
  - unfold res. cbn [Forget]. rewrite merge_sort_Permutation. eapply sublist_NoDup; [exact Hd|]. apply fmap_sublist, sublist_filter.
Qed.

Lemma retention_selects_closure_witness :
  ∃ res, Select 20 demo demo_policy (100 * Hour) = Some res ∧
    (∀ id, is_kept (Kept res) id ↔ closure demo (seed demo_policy (100 * Hour) demo) id) ∧
    (∀ b, b ∈ demo → ID b ∈ Forget res ↔ ¬ is_kept (Kept res) (ID b)) ∧
    (∀ id, id ∈ Forget res → ∃ b, b ∈ demo ∧ ID b = id) ∧
    StronglySorted String.le (Forget res) ∧ NoDup (Forget res).
Proof.
  apply (retention_selects_closure 20 demo demo_policy (100 * Hour) demo_rank);
    [apply demo_distinct|apply demo_ranked|apply demo_fuel|cbn; lia].
Defined.

Definition demo_result : Result :=
  match Select 20 demo demo_policy (100 * Hour) with Some r => r | None => mkResult ∅ [] end.

Lemma demo_result_eq : Select 20 demo demo_policy (100 * Hour) = Some demo_result.
Proof. vm_compute. reflexivity. Defined.

Example demo_forget : Forget demo_result = ["a1"; "d0"].
Proof. vm_compute. reflexivity. Qed.

(** The prime directive, for whatever [Select] returns: the forget list
    never holds a backup that is not completed, never the newest completed backup
    of a source, never a parent of a backup that is kept, and never a member of a
    snapshot another member of which is kept. *)
Theorem retention_prime_directive {MR : MapRange} {GR : GrowingRange} fuel bs p now res b :
  distinct bs → Select fuel bs p now = Some res → b ∈ bs → ID b ∈ Forget res →
  completed b = true ∧
  (∃ b', b' ∈ bs ∧ completed b' = true ∧ Source b' = Source b ∧ newer b' b = true) ∧
  (∀ c, c ∈ bs → ID c ∉ Forget res → ParentID c ≠ "" → ParentID c ≠ ID b) ∧
  (∀ c, c ∈ bs → ID c ∉ Forget res → SnapshotID c ≠ "" → SnapshotID c ≠ SnapshotID b).
Proof.
  intros Hd Hsel Hb Hin. pose proof (Select_kept _ _ _ _ _ Hd Hsel) as Hk.
  pose proof (Select_forget_elem _ _ _ _ _ (ID b) Hsel) as Hf.
  assert (Hnk : ¬ closure bs (seed p now bs) (ID b)) by (rewrite <- Hk; tauto).
  assert (Hkept : ∀ c, c ∈ bs → ID c ∉ Forget res → closure bs (seed p now bs) (ID c)).
  { intros c Hc Hn. apply Hk, dec_stable. intros Hnot. apply Hn. rewrite Select_forget_elem by done. split; [by exists c|done]. }
  assert (Hcomp : completed b = true).
  { apply not_false_iff_true. intros Hc. apply Hnk, closure_seed. exists b. auto. }
  split_and!; [done|..].
  - pose proof (newestOf_spec bs (Source b) Hd) as Hs. destruct (newestOf bs !! Source b) as [b'|].
    + destruct Hs as (Hb' & Hsrc & Hp). exists b'. split_and!; [done|apply Hp|done|].
      apply Hp; [done..|]. intros <-. apply Hnk, closure_seed. exists b. auto.
    + by destruct (Hs b Hb Hcomp).
  - intros c Hc Hn Hp Heq. apply Hnk. rewrite <- Heq. by eapply (closure_parent _ _ (ID c) c); auto.
  - intros c Hc Hn Hp Heq. apply Hnk. by eapply (closure_sibling _ _ (ID c) c b); auto.
Qed.

Lemma retention_prime_directive_witness :
  completed (mkMeta "d0" "D:" "completed" (30 * Hour) (31 * Hour) "" "") = true.
Proof.
  apply (retention_prime_directive 20 demo demo_policy (100 * Hour) demo_result);
    [apply demo_distinct|apply demo_result_eq|unfold demo; rewrite !elem_of_cons; tauto|].
  by_eval.
Defined.

(** The answer does not depend on Go's map iteration order: two runs over
    the same backups, each with any order for every [range], that both return,
    forget the same list and keep the same ids. *)
Theorem retention_deterministic {MR MR' : MapRange} {GR GR' : GrowingRange} f1 f2 bs p now r1 r2 :
  distinct bs →
  @Select MR GR f1 bs p now = Some r1 → @Select MR' GR' f2 bs p now = Some r2 →
  Forget r1 = Forget r2 ∧ dom (Kept r1) = dom (Kept r2).
Proof.
  intros Hd H1 H2.
  assert (Hk : ∀ id, is_kept (Kept r1) id ↔ is_kept (Kept r2) id).
  { intros id. rewrite (Select_kept (MR:=MR) (GR:=GR) f1 bs p now r1 Hd H1).
    by rewrite (Select_kept (MR:=MR') (GR:=GR') f2 bs p now r2 Hd H2). }
  split; [|apply set_eq; intros id; rewrite !elem_of_dom; apply Hk].
  rewrite (Select_forget _ _ _ _ _ H1), (Select_forget _ _ _ _ _ H2). do 2 f_equal.
  apply list_filter_iff. intros b. rewrite !eq_None_not_Some. by rewrite (Hk (ID b)).
Qed.

(** The same maps, ranged backwards. *)
Definition backwards_range : MapRange.
Proof. refine {| range_map := λ K EK CK V m, reverse (map_to_list m) |}. intros. apply reverse_Permutation. Defined.
Definition backwards_visits : GrowingRange.
Proof.
  refine {| visits := λ k, reverse (map_to_list k).*1 |}. intros k id H.
  rewrite elem_of_reverse. by apply (@visits_all keys_visits k id).
Defined.

Lemma retention_deterministic_witness :
  ∃ r, @Select backwards_range backwards_visits 20 demo demo_policy (100 * Hour) = Some r ∧
       Forget demo_result = Forget r ∧ dom (Kept demo_result) = dom (Kept r).
Proof.
  destruct (@Select backwards_range backwards_visits 20 demo demo_policy (100 * Hour)) as [r|] eqn:Hr.
  - exists r. split; [done|].
    apply (@retention_deterministic _ backwards_range _ backwards_visits 20 20 demo demo_policy (100 * Hour));
      [apply demo_distinct|apply demo_result_eq|exact Hr].
  - vm_compute in Hr. discriminate Hr.
Defined.

(** The ladder's promise: of the completed backups of one source that fall in
    the same tier and cadence bucket, the newest is kept.  So every completed
    backup has a kept one of its source in its bucket that is itself or newer;
    with a zero cadence the backup itself is kept. *)
Theorem retention_bucket_survivor {MR : MapRange} {GR : GrowingRange} fuel bs p now res b :
  distinct bs → Select fuel bs p now = Some res → b ∈ bs → completed b = true →
  (∃ b', b' ∈ bs ∧ completed b' = true ∧ Source b' = Source b ∧ bucket p now b' = bucket p now b ∧
     (b' = b ∨ newer b' b = true) ∧ is_kept (Kept res) (ID b')) ∧
  ((bucket p now b).1 ≤ 0 → is_kept (Kept res) (ID b)).
Proof.
  intros Hd Hsel Hb Hc. pose proof (Select_kept _ _ _ _ _ Hd Hsel) as Hk. split.
  2:{ intros Hle. apply Hk, closure_seed. exists b. split_and!; [done..|]. right. right. split; [done|by left]. }
  set (same := filter (λ x, bucket p now x = bucket p now b) bs).
  assert (Hds : distinct same) by (eapply sublist_NoDup; [exact Hd|]; apply fmap_sublist, sublist_filter).
  assert (Hbs : b ∈ same) by (by apply list_elem_of_filter).
  pose proof (newestOf_spec same (Source b) Hds) as Hs. destruct (newestOf same !! Source b) as [b'|].
  2:{ by destruct (Hs b Hbs Hc). }
  destruct Hs as (Hb' & Hsrc & Hp). pose proof Hb' as [Hbk Hin]%list_elem_of_filter.
  exists b'. split_and!; [done|apply Hp|done|done|..].
  - destruct (decide (b' = b)); [by left|right]. apply Hp; auto.
  - apply Hk, closure_seed. exists b'. split_and!; [done..|]. right. right. split; [apply Hp|]. right.
    intros c Hcin Hcc Hcs Hn Heq. assert (c ∈ same) as Hcsame by (apply list_elem_of_filter; split; [congruence|done]).
    destruct (decide (c = b')) as [->|Hne]; [by rewrite newer_irrefl in Hn|].
    destruct Hp as [_ Hp]. specialize (Hp c Hcsame Hcc Hcs Hne). apply newer_asym in Hp. congruence.
Qed.

Lemma retention_bucket_survivor_witness :
  ∃ b', b' ∈ demo ∧ Source b' = "C:" ∧ is_kept (Kept demo_result) (ID b').
Proof.
  destruct (retention_bucket_survivor 20 demo demo_policy (100 * Hour) demo_result
    (mkMeta "a1" "C:" "completed" (24 * Hour) (25 * Hour) "a0" "")) as [(b' & H1 & H2 & H3 & H4 & H5 & H6) _];
    [apply demo_distinct|apply demo_result_eq|unfold demo; rewrite !elem_of_cons; tauto|reflexivity|].
  exists b'. auto.
Defined.

(** ** Parent cycles *)

Lemma chainLoop_cycle bs (P : string → Prop) fuel : distinct bs →
  (∀ id, P id → id ≠ "" ∧ ∃ b, b ∈ bs ∧ ID b = id ∧ P (ParentID b)) →
  ∀ pid st, P pid → chainLoop (byID bs) pid st fuel = None.
Proof.
  intros Hd HP. induction fuel as [|fuel IH]; intros pid st Hpid; destruct (HP pid Hpid) as (Hne & b & Hb & Hid & Hnext);
    cbn [chainLoop]; destruct (String.eqb_spec pid ""); [done..|].
  apply IH. rewrite <- Hid, parentOf_of by done. done.
Qed.

Lemma passLoop_cycle bs (P : string → Prop) fuel l : distinct bs →
  (∀ id, P id → id ≠ "" ∧ ∃ b, b ∈ bs ∧ ID b = id ∧ P (ParentID b)) →
  ∀ st id, P id → id ∈ l → is_kept st.1 id → passLoop bs (byID bs) l st fuel = None.
Proof.
  intros Hd HP. induction l as [|x l IH]; intros st id Hid Hin Hk; [by apply elem_of_nil in Hin|]. cbn [passLoop].
  apply elem_of_cons in Hin as [<-|Hin].
  - destruct Hk as [r Hr]. rewrite Hr. destruct (HP id Hid) as (_ & b & Hb & <- & Hnext).
    rewrite parentOf_of by done. by rewrite (chainLoop_cycle bs P fuel Hd HP _ st Hnext).
  - destruct (st.1 !! x); [|by apply (IH st id)].
    destruct (chainLoop (byID bs) (parentOf (byID bs) x) st fuel) as [st1|] eqn:Hc; [|done]. cbn.
    apply (IH _ id); [done..|].
    assert (Hall : ∀ y, closure bs (λ _, True) y) by (intros; by apply closure_seed).
    apply (chainLoop_grows bs Hd (λ _, True)) in Hc as [(M1 & _) _]; [|auto].
    destruct (siblings_grows bs Hd (λ _, True) x st1 (Hall x)) as [(M2 & _) _]. auto.
Qed.

(** A cycle of parents hangs the selection: if every id of a set has a
    backup whose parent is in the set again, and one of them is kept by the
    rules (not completed, newest of its source, or picked by the ladder), then
    the parent walk never ends, whatever the fuel.  [Select] does not
    check its input for cycles. *)
Theorem retention_parent_cycle_hangs {MR : MapRange} {GR : GrowingRange} fuel bs p now (P : string → Prop) id :
  distinct bs → (∀ id, P id → id ≠ "" ∧ ∃ b, b ∈ bs ∧ ID b = id ∧ P (ParentID b)) →
  P id → seed p now bs id → Select fuel bs p now = None.
Proof.
  intros Hd HP Hid Hs. unfold Select. destruct fuel as [|fuel]; [done|]. cbn [fixLoop].
  apply (seedSet_iff (MR:=MR)) in Hs; [|done].
  rewrite (passLoop_cycle bs P (S fuel) (visits (seedSet bs p now)) Hd HP (seedSet bs p now, false) id);
    [done|done|by apply visits_all|done].
Qed.

Definition cyclic : list BackupMeta := [
  mkMeta "x" "C:" "completed" 0 Hour "y" ""; mkMeta "y" "C:" "completed" Hour (2 * Hour) "x" "" ].

Lemma retention_parent_cycle_hangs_witness : Select 1000 cyclic demo_policy (3 * Hour) = None.
Proof.
  apply (retention_parent_cycle_hangs 1000 cyclic demo_policy (3 * Hour) (λ id, id = "x" ∨ id = "y") "y").
  - by_eval.
  - intros id [->| ->]; (split; [done|]);
      [exists (mkMeta "x" "C:" "completed" 0 Hour "y" "")|exists (mkMeta "y" "C:" "completed" Hour (2 * Hour) "x" "")];
      (split; [unfold cyclic; rewrite !elem_of_cons; tauto|]); cbn; auto.
  - by right.
  - apply seedSet_iff; [by_eval|].
    vm_compute. by eexists.
Defined.
