(* ===== verification/GoTime.v ===== *)
(** * The parts of Go's [time] package the sources use

    An instant is the number of nanoseconds since January 1, year 1, 00:00:00 UTC,
    the zero [time.Time].  A location is the offset from UTC, in seconds, in force
    at a given second of that count.  The calendar is the proleptic Gregorian one,
    computed the way the package does, by cycles of 400, 100, 4 and 1 years. *)

From S2P Require Import Prelude.

Definition time : Type := Z.
Definition Location : Type := Z → Z.
Definition UTC : Location := λ _, 0.

Definition IsZero (t : time) : bool := t =? 0.

(** [t.In(loc)]: seconds of the local clock. *)
Definition local_sec (loc : Location) (t : time) : Z :=
  let sec := t / 10 ^ 9 in sec + loc sec.

Definition day_of (loc : Location) (t : time) : Z := local_sec loc t / 86400.
Definition Hour_of (loc : Location) (t : time) : Z := (local_sec loc t mod 86400) / 3600.

(** Year and zero-based day of the year, from the day count. *)
Definition absDate (d : Z) : Z * Z :=
  let n400 := d / 146097 in
  let d := d - 146097 * n400 in
  let n100 := d / 36524 in
  let n100 := n100 - Z.shiftr n100 2 in
  let d := d - 36524 * n100 in
  let n4 := d / 1461 in
  let d := d - 1461 * n4 in
  let n1 := d / 365 in
  let n1 := n1 - Z.shiftr n1 2 in
  let d := d - 365 * n1 in
  (400 * n400 + 100 * n100 + 4 * n4 + n1 + 1, d).

Definition isLeap (y : Z) : bool :=
  (y mod 4 =? 0) && (negb (y mod 100 =? 0) || (y mod 400 =? 0)).

Definition daysBefore : list Z := [0; 31; 59; 90; 120; 151; 181; 212; 243; 273; 304; 334; 365].

(** Days before month [m] (January is 1) of year [y]. *)
Definition monthStart (y m : Z) : Z :=
  nth (Z.to_nat (m - 1)) daysBefore 365 + (if isLeap y && (3 <=? m) then 1 else 0).

(** The month is the last one that starts at or before the day. *)
Fixpoint monthLoop (y yday : Z) (m : nat) : Z :=
  match m with
  | O => 1
  | S m' => if monthStart y (Z.of_nat m) <=? yday then Z.of_nat m else monthLoop y yday m'
  end.
Definition Month_of (y yday : Z) : Z := monthLoop y yday 12.

Definition Year (loc : Location) (t : time) : Z := (absDate (day_of loc t)).1.
Definition YearDay (loc : Location) (t : time) : Z := (absDate (day_of loc t)).2 + 1.
Definition Month (loc : Location) (t : time) : Z :=
  let '(y, yd) := absDate (day_of loc t) in Month_of y yd.
Definition Day (loc : Location) (t : time) : Z :=
  let '(y, yd) := absDate (day_of loc t) in yd - monthStart y (Month_of y yd) + 1.

(** Sunday is 0; January 1 of year 1 was a Monday. *)
Definition Weekday (d : Z) : Z := (d + 1) mod 7.

(** [t.ISOWeek()]: the year and week of the week's Thursday. *)
Definition ISOWeek (loc : Location) (t : time) : Z * Z :=
  let d := day_of loc t in
  let shift := 4 - Weekday d in
  let shift := if shift =? 4 then -3 else shift in
  let '(y, yd) := absDate (d + shift) in
  (y, yd / 7 + 1).

(** First day of a year. *)
Definition yearStart (y : Z) : Z :=
  365 * (y - 1) + (y - 1) / 4 - (y - 1) / 100 + (y - 1) / 400.

(** [time.Date] at second precision, fields other than month and day in range. *)
Definition Date (loc : Location) (year month day secOfDay nsec : Z) : time :=
  let m := month - 1 in
  let year := year + m / 12 in
  let month := m mod 12 + 1 in
  let sec := (yearStart year + monthStart year month + (day - 1)) * 86400 + secOfDay in
  let off := loc sec in
  let sec := if off =? 0 then sec else sec - loc (sec - off) in
  sec * 10 ^ 9 + nsec.

(** [t.AddDate(years, months, days)], [t] shown in [loc]. *)
Definition AddDate (loc : Location) (t : time) (years months days : Z) : time :=
  Date loc (Year loc t + years) (Month loc t + months) (Day loc t + days)
    (local_sec loc t mod 86400) (t mod 10 ^ 9).

(** [time.Duration(n) * time.Hour]. *)
Definition hours (n : Z) : Z := (n * (3600 * 10 ^ 9) + 2 ^ 63) mod 2 ^ 64 - 2 ^ 63.

(** ** The calendar *)

Lemma yearStart_succ y : yearStart (y + 1) = yearStart y + (if isLeap y then 366 else 365).
Proof.
  unfold yearStart, isLeap. replace (y + 1 - 1) with y by lia.
  assert (∀ k, 0 < k → y / k = (y - 1) / k + (if y mod k =? 0 then 1 else 0)) as Hs.
  { intros k Hk. pose proof (Z.div_mod y k ltac:(lia)) as Hq. pose proof (Z.mod_pos_bound y k Hk) as Hb.
    destruct (Z.eqb_spec (y mod k) 0) as [H0|H0].
    - assert ((y - 1) / k = y / k - 1); [|lia]. symmetry. apply Z.div_unique with (k - 1); lia.
    - assert ((y - 1) / k = y / k); [|lia]. symmetry. apply Z.div_unique with (y mod k - 1); lia. }
  rewrite (Hs 4), (Hs 100), (Hs 400) by lia.
  assert (y mod 400 = 0 → y mod 100 = 0) as H1.
  { intros H. pose proof (Z.div_mod y 400 ltac:(lia)). replace y with (4 * (y / 400) * 100) by lia. apply Z_mod_mult. }
  assert (y mod 100 = 0 → y mod 4 = 0) as H2.
  { intros H. pose proof (Z.div_mod y 100 ltac:(lia)). replace y with (25 * (y / 100) * 4) by lia. apply Z_mod_mult. }
  destruct (Z.eqb_spec (y mod 4) 0), (Z.eqb_spec (y mod 100) 0), (Z.eqb_spec (y mod 400) 0); cbn; lia.
Qed.

Lemma yearStart_mono y y' : y ≤ y' → yearStart y ≤ yearStart y'.
Proof.
  intros H. unfold yearStart.
  pose proof (Z.div_le_mono (y - 1) (y' - 1) 4 ltac:(lia) ltac:(lia)).
  pose proof (Z.div_le_mono (y - 1) (y' - 1) 400 ltac:(lia) ltac:(lia)).
  pose proof (Z.div_mod (y - 1) 100 ltac:(lia)). pose proof (Z.mod_pos_bound (y - 1) 100 ltac:(lia)).
  pose proof (Z.div_mod (y' - 1) 100 ltac:(lia)). pose proof (Z.mod_pos_bound (y' - 1) 100 ltac:(lia)). lia.
Qed.

(** The computation finds the year the day falls in. *)
Lemma absDate_spec d : let '(y, yd) := absDate d in d = yearStart y + yd ∧ 0 ≤ yd < (if isLeap y then 366 else 365).
Proof.
  unfold absDate. cbv zeta. rewrite !Z.shiftr_div_pow2 by lia. change (2 ^ 2) with 4.
  set (a := d / 146097). set (d1 := d - 146097 * a).
  assert (0 ≤ d1 < 146097) as Hd1.
  { pose proof (Z.div_mod d 146097 ltac:(lia)). pose proof (Z.mod_pos_bound d 146097 ltac:(lia)). lia. }
  set (b0 := d1 / 36524). assert (0 ≤ b0 ≤ 4 ∧ 36524 * b0 ≤ d1 < 36524 * (b0 + 1)) as Hb0.
  { pose proof (Z.div_mod d1 36524 ltac:(lia)). pose proof (Z.mod_pos_bound d1 36524 ltac:(lia)). lia. }
  set (b := b0 - b0 / 4). assert (b = Z.min b0 3) as Hb.
  { unfold b. assert (b0 / 4 = if b0 =? 4 then 1 else 0) as ->; [|destruct (Z.eqb_spec b0 4); lia].
    destruct (Z.eqb_spec b0 4) as [->|]; [done|]. apply Z.div_small. lia. }
  set (d2 := d1 - 36524 * b). set (c := d2 / 1461).
  assert (0 ≤ d2 < 36525) as Hd2 by lia.
  assert (0 ≤ c ≤ 24 ∧ 1461 * c ≤ d2 < 1461 * (c + 1)) as Hc.
  { pose proof (Z.div_mod d2 1461 ltac:(lia)). pose proof (Z.mod_pos_bound d2 1461 ltac:(lia)). lia. }
  set (d3 := d2 - 1461 * c). set (e0 := d3 / 365).
  assert (0 ≤ e0 ≤ 4 ∧ 365 * e0 ≤ d3 < 365 * (e0 + 1)) as He0.
  { pose proof (Z.div_mod d3 365 ltac:(lia)). pose proof (Z.mod_pos_bound d3 365 ltac:(lia)). lia. }
  set (e := e0 - e0 / 4). assert (e = Z.min e0 3) as He.
  { unfold e. assert (e0 / 4 = if e0 =? 4 then 1 else 0) as ->; [|destruct (Z.eqb_spec e0 4); lia].
    destruct (Z.eqb_spec e0 4) as [->|]; [done|]. apply Z.div_small. lia. }
  set (q := 400 * a + 100 * b + 4 * c + e).
  assert (q / 400 = a) as Q400 by (symmetry; apply Z.div_unique with (100 * b + 4 * c + e); lia).
  assert (q / 100 = 4 * a + b) as Q100 by (symmetry; apply Z.div_unique with (4 * c + e); lia).
  assert (q / 4 = 100 * a + 25 * b + c) as Q4 by (symmetry; apply Z.div_unique with e; lia).
  assert (yearStart (q + 1) = 365 * q + (100 * a + 25 * b + c) - (4 * a + b) + a) as Hys.
  { unfold yearStart. replace (q + 1 - 1) with q by lia. by rewrite Q400, Q100, Q4. }
  split; [rewrite Hys; lia|]. split; [lia|].
  pose proof (yearStart_succ (q + 1)) as Hsucc.
  assert (d < yearStart (q + 1 + 1)); [|lia].
  unfold yearStart. replace (q + 1 + 1 - 1) with (q + 1) by lia.
  assert ((q + 1) / 4 = 100 * a + 25 * b + c + (if e =? 3 then 1 else 0)) as ->.
  { symmetry. apply Z.div_unique with (if e =? 3 then 0 else e + 1); destruct (Z.eqb_spec e 3); lia. }
  assert ((q + 1) / 100 = 4 * a + b + (if (e =? 3) && (c =? 24) then 1 else 0)) as ->.
  { symmetry. apply Z.div_unique with (if (e =? 3) && (c =? 24) then 0 else 4 * c + e + 1);
      destruct (Z.eqb_spec e 3), (Z.eqb_spec c 24); cbn; lia. }
  assert ((q + 1) / 400 = a + (if (e =? 3) && (c =? 24) && (b =? 3) then 1 else 0)) as ->.
  { symmetry. apply Z.div_unique with (if (e =? 3) && (c =? 24) && (b =? 3) then 0 else 100 * b + 4 * c + e + 1);
      destruct (Z.eqb_spec e 3), (Z.eqb_spec c 24), (Z.eqb_spec b 3); cbn; lia. }
  destruct (Z.eqb_spec e 3), (Z.eqb_spec c 24), (Z.eqb_spec b 3); cbn; lia.
Qed.

(** Year then day of the year is the order of days. *)
Lemma absDate_mono d d' : d ≤ d' →
  let '(y, yd) := absDate d in let '(y', yd') := absDate d' in y < y' ∨ y = y' ∧ yd ≤ yd'.
Proof.
  intros H. pose proof (absDate_spec d) as H1. pose proof (absDate_spec d') as H2.
  destruct (absDate d) as [y yd], (absDate d') as [y' yd'].
  destruct H1 as [H1 B1], H2 as [H2 B2].
  destruct (Z.lt_trichotomy y y') as [?|[->|Hlt]]; [by left|right; lia|].
  pose proof (yearStart_mono (y' + 1) y ltac:(lia)). pose proof (yearStart_succ y'). lia.
Qed.

Lemma yday_bound d : 0 ≤ (absDate d).2 < 366.
Proof. pose proof (absDate_spec d) as H. destruct (absDate d) as [y yd]. destruct (isLeap y); cbn; lia. Qed.

Lemma monthLoop_bound y yd m : (m ≤ 12)%nat → 1 ≤ monthLoop y yd m ≤ 12.
Proof.
  induction m as [|m IH]; intros Hm; cbn [monthLoop]; [lia|].
  destruct (_ <=? _); [lia|]. apply IH. lia.
Qed.

Lemma monthLoop_mono y yd yd' m : yd ≤ yd' → monthLoop y yd m ≤ monthLoop y yd' m.
Proof.
  intros H. induction m as [|m IH]; cbn [monthLoop]; [lia|].
  destruct (Z.leb_spec (monthStart y (Z.of_nat (S m))) yd), (Z.leb_spec (monthStart y (Z.of_nat (S m))) yd'); try lia.
  destruct m; cbn [monthLoop] in *; [lia|].
  assert (∀ n, monthLoop y yd n ≤ Z.max 1 (Z.of_nat n)) as Hle.
  { clear. induction n as [|n IH]; cbn [monthLoop]; [lia|]. destruct (_ <=? _); lia. }
  pose proof (Hle (S m)) as Hm. cbn [monthLoop] in Hm. lia.
Qed.

Lemma Month_of_bound y yd : 1 ≤ Month_of y yd ≤ 12.
Proof. by apply monthLoop_bound. Qed.

Lemma Month_of_mono y yd yd' : yd ≤ yd' → Month_of y yd ≤ Month_of y yd'.
Proof. apply monthLoop_mono. Qed.

(** ** Periods *)

(** The clock hour, counted from the start of the calendar. *)
Definition hourIdx (l : Location) (t : time) : Z := local_sec l t / 3600.

Lemma day_of_hour l t : day_of l t = hourIdx l t / 24.
Proof. unfold day_of, hourIdx. by rewrite Z.div_div by lia. Qed.

Lemma Hour_of_hour l t : Hour_of l t = hourIdx l t mod 24.
Proof.
  unfold Hour_of, hourIdx. set (x := local_sec l t).
  pose proof (Z.div_mod x 3600 ltac:(lia)). pose proof (Z.mod_pos_bound x 3600 ltac:(lia)).
  pose proof (Z.div_mod (x / 3600) 24 ltac:(lia)). pose proof (Z.mod_pos_bound (x / 3600) 24 ltac:(lia)).
  assert (x mod 86400 = 3600 * ((x / 3600) mod 24) + x mod 3600) as ->.
  { symmetry. apply Z.mod_unique with (x / 3600 / 24); lia. }
  rewrite Z.add_comm, Z.mul_comm, Z.div_add, Z.div_small by lia. lia.
Qed.

(** The Thursday of the day's Monday-to-Sunday week. *)
Definition thursday (d : Z) : Z := 7 * (d / 7) + 3.

Lemma week_thursday d : (let s := 4 - Weekday d in d + (if s =? 4 then -3 else s)) = thursday d.
Proof.
  unfold Weekday, thursday. cbv zeta. pose proof (Z.div_mod d 7 ltac:(lia)). pose proof (Z.mod_pos_bound d 7 ltac:(lia)).
  assert ((d + 1) mod 7 = if d mod 7 =? 6 then 0 else d mod 7 + 1) as ->.
  { symmetry. destruct (Z.eqb_spec (d mod 7) 6).
    - apply Z.mod_unique with (d / 7 + 1); lia.
    - apply Z.mod_unique with (d / 7); lia. }
  destruct (Z.eqb_spec (d mod 7) 6); [destruct (Z.eqb_spec (4 - 0) 4); lia|]. destruct (Z.eqb_spec (4 - (d mod 7 + 1)) 4); lia.
Qed.

Lemma ISOWeek_thursday l t :
  ISOWeek l t = ((absDate (thursday (day_of l t))).1, (absDate (thursday (day_of l t))).2 / 7 + 1).
Proof.
  unfold ISOWeek. rewrite <- week_thursday. cbv zeta. by destruct (absDate _).
Qed.

Lemma absDate_inj d d' : absDate d = absDate d' → d = d'.
Proof.
  intros Heq. pose proof (absDate_spec d) as H. pose proof (absDate_spec d') as H'. rewrite Heq in H.
  destruct (absDate d') as [y yd]. lia.
Qed.

(** Known dates: the Unix epoch, the week of New Year 2021, and a month
    subtraction that runs over the end of February. *)
Example epoch_date : absDate 719162 = (1970, 0).
Proof. reflexivity. Qed.
Example iso_2021 : ISOWeek UTC (Date UTC 2021 1 1 0 0) = (2020, 53).
Proof. vm_compute. reflexivity. Qed.
Example month_back : let t := AddDate UTC (Date UTC 2024 3 31 0 0) 0 (-1) 0 in (Year UTC t, Month UTC t, Day UTC t) = (2024, 3, 2).
Proof. vm_compute. reflexivity. Qed.
