(* ===== verification/Forget.v ===== *)
(** * core/forget: the keep policy, reference protection and the forget run

    [selectByPolicy], [referenceEdges] and [Protect] of forget.go, [Run] of run.go.
    A backup is the part of [manifest.Backup] they read.  [Run]'s three seams (the
    catalog loader, the delete and the prune functions) are arguments, as they are
    fields of [Options]; so are the results of [manifest.ListIDs] and
    [manifest.List].  The repository the delete and prune functions act on is a
    state of any type. *)

From S2P Require Import Prelude GoBytes GoRuntime GoTime.

Record Backup := mkBackup {
  BackupID : string; Timestamp : time; BackupType : string;
  ParentBackupID : string; DataBackupIDs : list string }.

#[export] Instance Backup_eq_dec : EqDecision Backup.
Proof. solve_decision. Defined.

Record CalDur := mkCalDur { Years : Z; Months : Z; Days : Z; Hours : Z }.

Definition CalDur_IsZero (d : CalDur) : bool :=
  (Years d =? 0) && (Months d =? 0) && (Days d =? 0) && (Hours d =? 0).

Record Policy := mkPolicy {
  Last : Z; Hourly : Z; Daily : Z; Weekly : Z; Monthly : Z; Yearly : Z;
  Within : CalDur; HasWithin : bool;
  Now : time; NowLoc : Location; Loc : option Location }.

Definition withinActive (p : Policy) : bool := HasWithin p && negb (CalDur_IsZero (Within p)).

Definition Any (p : Policy) : bool :=
  (0 <? Last p) || (0 <? Hourly p) || (0 <? Daily p) || (0 <? Weekly p) ||
  (0 <? Monthly p) || (0 <? Yearly p) || withinActive p.

Definition needsTime (p : Policy) : bool :=
  (0 <? Hourly p) || (0 <? Daily p) || (0 <? Weekly p) || (0 <? Monthly p) || (0 <? Yearly p) ||
  withinActive p.

Definition loc (p : Policy) : Location := match Loc p with Some l => l | None => UTC end.

(** ** Selection *)

(** The comparator of [byRecency]. *)
Definition recencyLess (a b : Backup) : bool :=
  if negb (Timestamp a =? Timestamp b) then Timestamp b <? Timestamp a
  else String.ltb (BackupID b) (BackupID a).

Definition recent_first (a b : Backup) : Prop := recencyLess b a = false.
#[export] Instance recent_first_dec : RelDecision recent_first.
Proof. intros a b. unfold recent_first. apply _. Defined.

Definition byRecency (bs : list Backup) : list Backup := merge_sort recent_first bs.

Abbreviation reasons_map := (gmap string (list string)).

Definition add (id reason : string) (m : reasons_map) : reasons_map :=
  <[id := default [] (m !! id) ++ [reason]]> m.

Definition hourlyKey (l : Location) (t : time) : Z := Year l t * 1000000 + YearDay l t * 100 + Hour_of l t.
Definition dailyKey (l : Location) (t : time) : Z := Year l t * 1000 + YearDay l t.
Definition weeklyKey (l : Location) (t : time) : Z := (ISOWeek l t).1 * 100 + (ISOWeek l t).2.
Definition monthlyKey (l : Location) (t : time) : Z := Year l t * 100 + Month l t.
Definition yearlyKey (l : Location) (t : time) : Z := Year l t.

Definition rules (p : Policy) : list (string * Z * (time → Z)) := [
  ("hourly", Hourly p, hourlyKey (loc p)); ("daily", Daily p, dailyKey (loc p));
  ("weekly", Weekly p, weeklyKey (loc p)); ("monthly", Monthly p, monthlyKey (loc p));
  ("yearly", Yearly p, yearlyKey (loc p)) ].

(** One rule's walk over the backups, newest first: [kept] so far, [lastKey]. *)
Fixpoint ruleLoop (name : string) (n : Z) (key : time → Z) (kept : Z) (lastKey : option Z)
    (desc : list Backup) (m : reasons_map) : reasons_map :=
  match desc with
  | [] => m
  | b :: desc =>
      if n <=? kept then m
      else let k := key (Timestamp b) in
           if bool_decide (lastKey = Some k) then ruleLoop name n key kept lastKey desc m
           else ruleLoop name n key (kept + 1) (Some k) desc (add (BackupID b) name m)
  end.

Definition applyRule (desc : list Backup) (m : reasons_map) (r : string * Z * (time → Z)) : reasons_map :=
  let '(name, n, key) := r in if n <=? 0 then m else ruleLoop name n key 0 None desc m.

Definition cutoff (p : Policy) : time :=
  AddDate (NowLoc p) (Now p) (- Years (Within p)) (- Months (Within p)) (- Days (Within p))
  + hours (- Hours (Within p)).

Definition applyWithin (p : Policy) (desc : list Backup) (m : reasons_map) : reasons_map :=
  if withinActive p then
    foldl (λ m b, if Timestamp b <? cutoff p then m else add (BackupID b) "within" m) m desc
  else m.

Definition applyLast (n : Z) (desc : list Backup) (m : reasons_map) : reasons_map :=
  foldl (λ m b, add (BackupID b) "last" m) m (take (Z.to_nat n) desc).

Inductive forget_err :=
| FgNoRule | FgList | FgEmpty | FgUnreadable (parsed present : Z) | FgNoTimestamp (id : string)
| FgClosureUnreadable (id : string) | FgKeepsNothing | FgStrict (ids : list string) | FgDeletesAll
| FgConfirm | FgDeleteFailed | FgPrune | FgFuel.

Definition selectByPolicy (bs : list Backup) (p : Policy) : result forget_err reasons_map :=
  let desc := byRecency bs in
  match (if needsTime p then list_find (λ b, IsZero (Timestamp b) = true) desc else None) with
  | Some (_, b) => Err (FgNoTimestamp (BackupID b))
  | None => Ok (applyWithin p desc (foldl (applyRule desc) (applyLast (Last p) desc ∅) (rules p)))
  end.

(** ** Reference protection *)

Record refEdge := mkEdge { edge_ID : string; edge_Via : string }.
Record Dangling := mkDangling { dg_From : string; dg_To : string; dg_Via : string }.

Fixpoint dataEdges (seen : gset string) (ids : list string) : list refEdge :=
  match ids with
  | [] => []
  | d :: ids =>
      if String.eqb d "" then dataEdges seen ids
      else if bool_decide (d ∈ seen) then dataEdges seen ids
      else mkEdge d "data" :: dataEdges ({[d]} ∪ seen) ids
  end.

Definition referenceEdges (b : Backup) : list refEdge :=
  (if String.eqb (ParentBackupID b) "" then [] else [mkEdge (ParentBackupID b) "parent"])
  ++ dataEdges ∅ (DataBackupIDs b).

Definition short (id : string) : string := if (8 <=? String.length id)%nat then String.substring 0 8 id else id.

Record protect_state := mkProt { pr_protected : reasons_map; pr_queue : list string; pr_dangling : list Dangling }.

Definition protectEdge (allIDs : gset string) (id : string) (st : protect_state) (e : refEdge) : protect_state :=
  if bool_decide (edge_ID e ∈ allIDs) then
    match pr_protected st !! edge_ID e with
    | Some _ => st
    | None => mkProt
        (<[edge_ID e := ["promoted: referenced by " ++ short id ++ " via " ++ edge_Via e]%string]> (pr_protected st))
        (pr_queue st ++ [edge_ID e]) (pr_dangling st)
    end
  else mkProt (pr_protected st) (pr_queue st) (pr_dangling st ++ [mkDangling id (edge_ID e) (edge_Via e)]).

Section protect.
Context {SS : SortByString} {MR : MapRange}.
Context (allIDs : gset string) (load : string → option Backup).

Fixpoint protectLoop (st : protect_state) (fuel : nat) : result forget_err (reasons_map * list Dangling) :=
  match pr_queue st with
  | [] => Ok (pr_protected st, pr_dangling st)
  | id :: queue =>
      match fuel with
      | O => Err FgFuel
      | S fuel =>
          match load id with
          | None => Err (FgClosureUnreadable id)
          | Some b =>
              protectLoop (foldl (protectEdge allIDs id) (mkProt (pr_protected st) queue (pr_dangling st))
                (sortByString edge_ID (referenceEdges b))) fuel
          end
      end
  end.

(** Every id enters the queue at most once, so the steps are bounded by the
    kept ids and the existing ones. *)
Definition Protect (keepReasons : reasons_map) : result forget_err (reasons_map * list Dangling) :=
  protectLoop (mkProt keepReasons (sortByString id (range_map keepReasons).*1) [])
    (size keepReasons + size allIDs).
End protect.

(** ** The run *)

Record Decision := mkDecision { d_ID : string; d_Timestamp : time; d_BackupType : string; d_Keep : bool; d_Reasons : list string }.

Section run.
Context {σ R : Type} {SS : SortByString} {MR : MapRange}.

Record Plan := mkPlan {
  Ordered : list Decision; Remove : list string; Promoted : list string; PlanDangling : list Dangling;
  Deleted : list string; Pruned : option R; DeleteErrs : gset string }.

Record Options := mkOptions {
  o_Policy : Policy; DryRun : bool; Prune : bool; Strict : bool;
  Confirm : option (Plan → option bool);
  Load : string → option Backup;
  DeleteFn : string → σ → σ * bool;
  PruneFn : σ → σ * option R }.

Definition isPromoted (r : list string) : bool :=
  match r with [x] => String.prefix "promoted:" x | _ => false end.

Definition promotedOf (protected : reasons_map) : list string :=
  sortByString id (filter (λ kr, isPromoted kr.2 = true) (range_map protected)).*1.

Definition decide_backup (protected : reasons_map) (b : Backup) : Decision :=
  mkDecision (BackupID b) (Timestamp b) (BackupType b)
    (match protected !! BackupID b with Some _ => true | None => false end)
    (default [] (protected !! BackupID b)).

Definition buildPlan (bs : list Backup) (protected : reasons_map) (dangling : list Dangling) (promoted : list string) : Plan :=
  let ordered := decide_backup protected <$> byRecency bs in
  mkPlan ordered (d_ID <$> filter (λ d, d_Keep d = false) ordered) promoted dangling [] None ∅.

(** The deletes, newest first; failures are recorded and skipped. *)
Fixpoint deleteAll (del : string → σ → σ * bool) (ids : list string) (s : σ) (deleted : list string) (errs : gset string)
    : σ * list string * gset string :=
  match ids with
  | [] => (s, deleted, errs)
  | id :: ids =>
      let '(s, ok) := del id s in
      if ok then deleteAll del ids s (deleted ++ [id]) errs
      else deleteAll del ids s deleted ({[id]} ∪ errs)
  end.

Definition execute (o : Options) (plan : Plan) (s : σ) : σ * Plan * option forget_err :=
  let '(s, deleted, errs) := deleteAll (DeleteFn o) (Remove plan) s [] ∅ in
  let plan := mkPlan (Ordered plan) (Remove plan) (Promoted plan) (PlanDangling plan) deleted None errs in
  if negb (bool_decide (errs = ∅)) then (s, plan, Some FgDeleteFailed)
  else if Prune o && negb (bool_decide (deleted = [])) then
    match PruneFn o s with
    | (s, None) => (s, plan, Some FgPrune)
    | (s, Some r) =>
        (s, mkPlan (Ordered plan) (Remove plan) (Promoted plan) (PlanDangling plan) deleted (Some r) errs, None)
    end
  else (s, plan, None).

(** Everything before the first delete. *)
Definition makePlan (o : Options) (rawIDs : option (list string)) (listed : option (list Backup)) : result forget_err Plan :=
  if negb (Any (o_Policy o)) then Err FgNoRule else
  match rawIDs with
  | None => Err FgList
  | Some [] => Err FgEmpty
  | Some rawIDs =>
    match listed with
    | None => Err FgList
    | Some bs =>
        if negb (length bs =? length rawIDs)%nat then Err (FgUnreadable (Z.of_nat (length bs)) (Z.of_nat (length rawIDs))) else
        let allIDs := list_to_set rawIDs in
        let! keepReasons := selectByPolicy bs (o_Policy o) in
        let! pd := Protect allIDs (Load o) keepReasons in
        let '(protected, dangling) := pd in
        if (size protected =? 0)%nat then Err FgKeepsNothing else
        let promoted := promotedOf protected in
        if Strict o && negb (bool_decide (promoted = [])) then Err (FgStrict promoted) else
        let plan := buildPlan bs protected dangling promoted in
        if (length (Remove plan) =? size allIDs)%nat then Err FgDeletesAll else Ok plan
    end
  end.

Definition Run (o : Options) (rawIDs : option (list string)) (listed : option (list Backup)) (s : σ)
    : σ * option Plan * option forget_err :=
  match makePlan o rawIDs listed with
  | Err e => (s, None, Some e)
  | Ok plan =>
      if DryRun o then (s, Some plan, None) else
      match Confirm o with
      | Some confirm =>
          match confirm plan with
          | None => (s, Some plan, Some FgConfirm)
          | Some false => (s, Some plan, None)
          | Some true => let '(s, plan, e) := execute o plan s in (s, Some plan, e)
          end
      | None => let '(s, plan, e) := execute o plan s in (s, Some plan, e)
      end
  end.
End run.

(** ** Protection *)

Section protection.
Context {SS : SortByString} {MR : MapRange}.
Context (allIDs : gset string) (load : string → option Backup) (keep : reasons_map).

(** What a kept backup depends on. *)
Inductive needed : string → Prop :=
| needed_keep id : is_Some (keep !! id) → needed id
| needed_ref id b e : needed id → load id = Some b → e ∈ referenceEdges b → edge_ID e ∈ allIDs → needed (edge_ID e).

Definition dangles (id : string) (l : list refEdge) : list Dangling :=
  (λ e, mkDangling id (edge_ID e) (edge_Via e)) <$> filter (λ e, edge_ID e ∉ allIDs) l.

Lemma protectEdges_spec id l : ∀ st,
  let st' := foldl (protectEdge allIDs id) st l in
  ∃ new, pr_queue st' = pr_queue st ++ new ∧ NoDup new ∧
    (∀ x, x ∈ new ↔ pr_protected st !! x = None ∧ x ∈ allIDs ∧ ∃ e, e ∈ l ∧ edge_ID e = x) ∧
    (∀ x, is_Some (pr_protected st' !! x) ↔ is_Some (pr_protected st !! x) ∨ x ∈ new) ∧
    (∀ x r, pr_protected st !! x = Some r → pr_protected st' !! x = Some r) ∧
    pr_dangling st' = pr_dangling st ++ dangles id l.
Proof.
  induction l as [|e l IH]; intros st; cbn [foldl].
  { exists []. rewrite !app_nil_r. split_and!; [done|constructor|..|done|done].
    - intros x. split; [by intros ?%elem_of_nil|]. by intros (_ & _ & e & ?%elem_of_nil & _).
    - intros x. rewrite elem_of_nil. tauto. }
  assert (Hdangles : dangles id (e :: l) =
    if decide (edge_ID e ∈ allIDs) then dangles id l else mkDangling id (edge_ID e) (edge_Via e) :: dangles id l).
  { unfold dangles. rewrite filter_cons. do 2 case_decide; done. }
  rewrite Hdangles. destruct (decide (edge_ID e ∈ allIDs)) as [Hall|Hall].
  - destruct (pr_protected st !! edge_ID e) as [r|] eqn:He.
    + assert (protectEdge allIDs id st e = st) as -> by (unfold protectEdge; by rewrite bool_decide_true, He).
      destruct (IH st) as (new & Hq & Hnd & Hnew & Hrest). exists new. split_and!; [done|done| |apply Hrest..].
      intros x. rewrite Hnew. split.
      * intros (? & ? & e' & ? & ?). split_and!; [done..|]. exists e'. split; [by right|done].
      * intros (? & ? & e' & [->|?]%elem_of_cons & <-); [congruence|]. split_and!; [done..|]. by exists e'.
    + assert (∃ r, protectEdge allIDs id st e =
        mkProt (<[edge_ID e := r]> (pr_protected st)) (pr_queue st ++ [edge_ID e]) (pr_dangling st)) as [r ->].
      { eexists. unfold protectEdge. by rewrite bool_decide_true, He. }
      destruct (IH (mkProt (<[edge_ID e := r]> (pr_protected st)) (pr_queue st ++ [edge_ID e]) (pr_dangling st)))
        as (new & Hq & Hnd & Hnew & Hdom & Hkeep & Hdang). cbn in *.
      exists (edge_ID e :: new). rewrite Hq, <- app_assoc. split_and!; [done|..|done].
      * constructor; [|done]. rewrite Hnew, lookup_insert_eq. by intros [? _].
      * intros x. rewrite elem_of_cons, Hnew. destruct (decide (edge_ID e = x)) as [<-|Hne].
        -- split; [|by left]. intros _. split_and!; [done..|]. exists e. split; [left|done].
        -- rewrite lookup_insert_ne by done. split.
           ++ intros [?|(? & ? & e' & ? & ?)]; [congruence|]. split_and!; [done..|]. exists e'. split; [by right|done].
           ++ intros (? & ? & e' & [->|?]%elem_of_cons & <-); [done|]. right. split_and!; [done..|]. by exists e'.
      * intros x. rewrite Hdom, elem_of_cons. destruct (decide (edge_ID e = x)) as [<-|Hne].
        -- rewrite lookup_insert_eq. naive_solver.
        -- rewrite lookup_insert_ne by done. naive_solver.
      * intros x r' Hx. apply Hkeep. rewrite lookup_insert_ne; [done|]. congruence.
  - assert (protectEdge allIDs id st e = mkProt (pr_protected st) (pr_queue st) (pr_dangling st ++ [mkDangling id (edge_ID e) (edge_Via e)])) as ->
      by (unfold protectEdge; by rewrite bool_decide_false).
    destruct (IH (mkProt (pr_protected st) (pr_queue st) (pr_dangling st ++ [mkDangling id (edge_ID e) (edge_Via e)])))
      as (new & Hq & Hnd & Hnew & Hdom & Hkeep & Hdang). cbn in *.
    exists new. split_and!; [done..| |done|done|].
    + intros x. rewrite Hnew. split.
      * intros (? & ? & e' & ? & ?). split_and!; [done..|]. exists e'. split; [by right|done].
      * intros (? & ? & e' & [->|?]%elem_of_cons & <-); [done|]. split_and!; [done..|]. by exists e'.
    + by rewrite Hdang, <- app_assoc.
Qed.

(** Ids already read ([done_ids]) and still queued. *)
Record prot_inv (done_ids : list string) (st : protect_state) : Prop := {
  pi_dom : ∀ x, is_Some (pr_protected st !! x) ↔ x ∈ done_ids ++ pr_queue st;
  pi_nodup : NoDup (done_ids ++ pr_queue st);
  pi_sound : ∀ x, is_Some (pr_protected st !! x) → needed x;
  pi_keep : ∀ x r, keep !! x = Some r → pr_protected st !! x = Some r;
  pi_closed : ∀ x, x ∈ done_ids → ∃ b, load x = Some b ∧
    ∀ e, e ∈ referenceEdges b → edge_ID e ∈ allIDs → is_Some (pr_protected st !! edge_ID e);
  pi_dangling : ∀ d, d ∈ pr_dangling st ↔ ∃ x b, x ∈ done_ids ∧ load x = Some b ∧ d ∈ dangles x (referenceEdges b) }.

Lemma prot_inv_step done_ids st id queue b :
  prot_inv done_ids st → pr_queue st = id :: queue → load id = Some b →
  prot_inv (done_ids ++ [id])
    (foldl (protectEdge allIDs id) (mkProt (pr_protected st) queue (pr_dangling st)) (sortByString edge_ID (referenceEdges b))).
Proof.
  intros [Hdom Hnd Hs Hk Hc Hd] Hq Hl. rewrite Hq in *.
  destruct (protectEdges_spec id (sortByString edge_ID (referenceEdges b)) (mkProt (pr_protected st) queue (pr_dangling st)))
    as (new & Hq' & Hnew_nd & Hnew & Hdom' & Hkeep' & Hdang').
  set (st' := foldl _ _ _) in *. cbn in Hq', Hnew, Hdom', Hkeep', Hdang'.
  assert (Hin : ∀ e, e ∈ sortByString edge_ID (referenceEdges b) ↔ e ∈ referenceEdges b)
    by (intros e; by rewrite sortByString_perm).
  assert (Hid : needed id) by (apply Hs, Hdom, elem_of_app; right; left).
  split.
  - intros x. rewrite Hdom', Hdom, Hq', !elem_of_app, elem_of_cons, list_elem_of_singleton. tauto.
  - rewrite Hq', <- !app_assoc. cbn. replace (done_ids ++ id :: queue ++ new) with ((done_ids ++ id :: queue) ++ new)
      by (by rewrite <- app_assoc). apply NoDup_app. split_and!; [done| |done].
    intros x Hx (Hnone & _)%Hnew. apply Hdom in Hx as [? ?]. congruence.
  - intros x [?|Hx]%Hdom'; [auto|]. apply Hnew in Hx as (_ & Hall & e & He & <-). eapply needed_ref; eauto. by apply Hin.
  - intros x r Hx. auto.
  - intros x [Hx| ->%list_elem_of_singleton]%elem_of_app.
    + destruct (Hc x Hx) as (b' & Hb' & He). exists b'. split; [done|]. intros e ? ?. apply Hdom'. left. auto.
    + exists b. split; [done|]. intros e He Hall. apply Hdom'.
      destruct (pr_protected st !! edge_ID e) eqn:Hp; [left; by eexists|right]. apply Hnew. split_and!; [done..|].
      exists e. split; [by apply Hin|done].
  - intros d. rewrite Hdang', elem_of_app, Hd. split.
    + intros [(x & b' & Hx & Hb' & Hdd)|Hdd].
      * exists x, b'. split_and!; [apply elem_of_app; by left|done..].
      * exists id, b. split_and!; [apply elem_of_app; right; by left|done|]. revert Hdd. unfold dangles.
        by rewrite sortByString_perm.
    + intros (x & b' & [Hx| ->%list_elem_of_singleton]%elem_of_app & Hb' & Hdd); [left; by exists x, b'|right].
      rewrite Hl in Hb'. injection Hb' as <-. unfold dangles. by rewrite sortByString_perm.
Qed.

(** The protection's answer: the reasons and dangling references. *)
Definition protects (prot : reasons_map) (dang : list Dangling) : Prop :=
  (∀ x, is_Some (prot !! x) ↔ needed x) ∧
  (∀ x r, keep !! x = Some r → prot !! x = Some r) ∧
  (∀ x, needed x → is_Some (load x)) ∧
  (∀ d, d ∈ dang ↔ ∃ x b, needed x ∧ load x = Some b ∧ d ∈ dangles x (referenceEdges b)).

Lemma needed_universe x : needed x → x ∈ dom keep ∪ allIDs.
Proof. destruct 1; [apply elem_of_union_l; by apply elem_of_dom|by apply elem_of_union_r]. Qed.

Lemma NoDup_length_size (l : list string) (S : gset string) : NoDup l → (∀ x, x ∈ l → x ∈ S) → (length l ≤ size S)%nat.
Proof.
  intros Hnd Hin. rewrite <- (size_list_to_set (C:=gset string) l Hnd). apply subseteq_size.
  intros x Hx. apply Hin. by apply elem_of_list_to_set in Hx.
Qed.

Lemma prot_inv_protects done_ids st :
  prot_inv done_ids st → pr_queue st = [] → protects (pr_protected st) (pr_dangling st).
Proof.
  intros [Hdom _ Hs Hk Hc Hd] Hq. rewrite Hq, app_nil_r in Hdom.
  assert (Hall : ∀ x, needed x → x ∈ done_ids).
  { intros x Hx. apply Hdom. induction Hx as [x [r Hr]|x b e Hx IH Hb He Hin]; [eexists; by apply Hk|].
    apply Hdom in IH. destruct (Hc x IH) as (b' & Hb' & Hcl). rewrite Hb in Hb'. injection Hb' as <-. auto. }
  assert (Hiff : ∀ x, x ∈ done_ids ↔ needed x) by (intros x; split; [intros ?%Hdom; auto|auto]).
  split_and!; [|done|..].
  - intros x. by rewrite Hdom.
  - intros x Hx. destruct (Hc x (Hall x Hx)) as (b & Hb & _). by exists b.
  - intros d. rewrite Hd. by setoid_rewrite Hiff.
Qed.

Lemma protectLoop_spec fuel : ∀ done_ids st,
  prot_inv done_ids st → (size (dom keep ∪ allIDs) ≤ length done_ids + fuel)%nat →
  match protectLoop allIDs load st fuel with
  | Ok (prot, dang) => protects prot dang
  | Err (FgClosureUnreadable id) => needed id ∧ load id = None
  | Err _ => False
  end.
Proof.
  induction fuel as [|fuel IH]; intros done_ids st Hinv Hle; cbn [protectLoop];
    destruct (pr_queue st) as [|id queue] eqn:Hq.
  - by eapply prot_inv_protects.
  - exfalso. pose proof (NoDup_length_size _ (dom keep ∪ allIDs) (pi_nodup _ _ Hinv)) as Hlen. rewrite Hq, length_app in Hlen.
    cbn in Hlen. assert (length done_ids + S (length queue) ≤ size (dom keep ∪ allIDs))%nat; [|lia]. apply Hlen.
    intros x Hx. apply needed_universe, (pi_sound _ _ Hinv), (pi_dom _ _ Hinv). by rewrite Hq.
  - by eapply prot_inv_protects.
  - destruct (load id) as [b|] eqn:Hl.
    + apply (IH (done_ids ++ [id])); [by apply (prot_inv_step done_ids)|]. rewrite length_app. cbn. lia.
    + split; [|done]. apply (pi_sound _ _ Hinv), (pi_dom _ _ Hinv), elem_of_app. rewrite Hq. right. left.
Qed.
End protection.

(** ** Selection: the order *)

Definition distinct (bs : list Backup) : Prop := NoDup (BackupID <$> bs).

Lemma backup_inj bs a b : distinct bs → a ∈ bs → b ∈ bs → BackupID a = BackupID b → a = b.
Proof. apply NoDup_fmap_inj. Qed.

Lemma ltb_gt a b : String.ltb a b = negb (String.leb b a).
Proof.
  unfold String.ltb, String.leb. rewrite (String.compare_antisym b a). by destruct (String.compare a b).
Qed.

Lemma leb_iff a b : String.leb a b = true ↔ String.le a b.
Proof. unfold String.le. by destruct (String.leb a b). Qed.

Lemma recent_first_iff a b :
  recent_first a b ↔ Timestamp b < Timestamp a ∨ Timestamp a = Timestamp b ∧ String.le (BackupID b) (BackupID a).
Proof.
  unfold recent_first, recencyLess. destruct (Z.eqb_spec (Timestamp b) (Timestamp a)); cbn [negb].
  - rewrite ltb_gt, negb_false_iff, leb_iff. split; [right; auto|]. intros [?|[_ ?]]; [lia|done].
  - rewrite Z.ltb_ge. split; [left; lia|]. intros [?|[? _]]; lia.
Qed.

#[export] Instance recent_first_total : Total recent_first.
Proof.
  intros a b. rewrite !recent_first_iff. destruct (Z.lt_trichotomy (Timestamp a) (Timestamp b)) as [?|[?|?]]; [tauto| |tauto].
  destruct (total String.le (BackupID a) (BackupID b)); [right|left]; right; auto.
Qed.

#[export] Instance recent_first_trans : Transitive recent_first.
Proof.
  intros a b c. rewrite !recent_first_iff. intros [?|[? Hab]] [?|[? Hbc]]; try (left; lia).
  right. split; [lia|]. by transitivity (BackupID b).
Qed.

Lemma recency_irrefl a : recencyLess a a = false.
Proof. apply (proj2 (recent_first_iff a a)). right. split; [done|reflexivity]. Qed.

Lemma recency_total bs a b : distinct bs → a ∈ bs → b ∈ bs → a ≠ b → recencyLess a b = true ∨ recencyLess b a = true.
Proof.
  intros Hd Ha Hb Hne. destruct (recencyLess a b) eqn:H1; [by left|]. destruct (recencyLess b a) eqn:H2; [by right|].
  exfalso. apply Hne. eapply backup_inj; [done..|]. apply (recent_first_iff b a) in H1. apply (recent_first_iff a b) in H2.
  destruct H1 as [?|[? H1]], H2 as [?|[? H2]]; try lia. by apply (anti_symm String.le).
Qed.

(** The backups more recent than [b]. *)
Definition newer_than (bs : list Backup) (b : Backup) : list Backup := filter (λ b', recencyLess b' b = true) bs.

(** Where [b] stands in the newest-first list. *)
Lemma byRecency_split bs b :
  distinct bs → b ∈ bs → ∃ l1 l2, byRecency bs = l1 ++ b :: l2 ∧ l1 ≡ₚ newer_than bs b.
Proof.
  intros Hd Hb. assert (Hp : byRecency bs ≡ₚ bs) by apply merge_sort_Permutation.
  assert (Hbin : b ∈ byRecency bs) by (by rewrite Hp). apply list_elem_of_split in Hbin as (l1 & l2 & Heq).
  exists l1, l2. split; [done|].
  assert (Hnd : NoDup (l1 ++ b :: l2)) by (rewrite <- Heq, Hp; by eapply NoDup_fmap_1).
  assert (Hin : ∀ x, x ∈ l1 ++ b :: l2 ↔ x ∈ bs) by (intros x; by rewrite <- Heq, Hp).
  assert (Hbs : NoDup bs) by (by eapply NoDup_fmap_1).
  apply NoDup_Permutation.
  - by apply NoDup_app in Hnd as (? & _ & _).
  - by apply NoDup_filter.
  - intros x. unfold newer_than. rewrite list_elem_of_filter.
    assert (Hs : StronglySorted recent_first (l1 ++ b :: l2)) by (rewrite <- Heq; apply StronglySorted_merge_sort; apply _).
    assert (Hsp : x ∈ bs → recencyLess x b = true ↔ x ∈ l1).
    { intros Hx. apply (sorted_split recencyLess l1 b l2); [apply recency_irrefl| |done|done|by apply Hin].
      intros y z Hy%Hin Hz%Hin. by apply (recency_total bs). }
    split; [|naive_solver]. intros Hx. assert (x ∈ bs) by (apply Hin, elem_of_app; by left). naive_solver.
Qed.

Lemma byRecency_split_inv bs l1 b l2 :
  distinct bs → byRecency bs = l1 ++ b :: l2 → b ∈ bs ∧ l1 ≡ₚ newer_than bs b.
Proof.
  intros Hd Heq. assert (Hp : byRecency bs ≡ₚ bs) by apply merge_sort_Permutation.
  assert (Hb : b ∈ bs) by (rewrite <- Hp, Heq; apply elem_of_app; right; left). split; [done|].
  destruct (byRecency_split bs b Hd Hb) as (k1 & k2 & Heq' & Hk). rewrite <- Hk.
  assert (Hnd : NoDup (l1 ++ b :: l2)) by (rewrite <- Heq, Hp; by eapply NoDup_fmap_1).
  rewrite Heq in Heq'. assert (l1 = k1) as ->; [|done]. clear Hk Heq Hp. revert k1 Heq' Hnd.
  induction l1 as [|x l1 IH]; intros [|y k1] Heq Hnd; simplify_eq/=; [done|..].
  - apply NoDup_cons in Hnd as [Hx _]. destruct Hx. apply elem_of_app. right. left.
  - apply NoDup_cons in Hnd as [Hx _]. destruct Hx. apply elem_of_app. right. left.
  - f_equal. apply IH; [done|]. by apply NoDup_cons in Hnd as [_ ?].
Qed.

(** ** Selection: the rules *)

Lemma add_iff id r m x : is_Some (add id r m !! x) ↔ is_Some (m !! x) ∨ x = id.
Proof.
  unfold add. destruct (decide (id = x)) as [->|Hne].
  - rewrite lookup_insert_eq. naive_solver.
  - rewrite lookup_insert_ne by done. naive_solver.
Qed.

Lemma fold_add {A} (f : reasons_map → A → reasons_map) (Q : A → string → Prop) l x :
  (∀ m a, is_Some (f m a !! x) ↔ is_Some (m !! x) ∨ Q a x) →
  ∀ m, is_Some (foldl f m l !! x) ↔ is_Some (m !! x) ∨ ∃ a, a ∈ l ∧ Q a x.
Proof.
  intros Hf. induction l as [|a l IH]; intros m; cbn [foldl].
  - split; [by left|]. intros [?|(a & ?%elem_of_nil & _)]; done.
  - rewrite IH, Hf. split.
    + intros [[?|?]|(a' & ? & ?)]; [by left|right; exists a; split; [left|done]|right; exists a'; split; [by right|done]].
    + intros [?|(a' & [->|?]%elem_of_cons & ?)]; [tauto|tauto|right; by exists a'].
Qed.

Abbreviation periods key l := (list_to_set (key <$> (Timestamp <$> l)) : gset Z).

(** The newest of one of the [n] most recent periods. *)
Definition period_pick (n : Z) (key : time → Z) (bs : list Backup) (b : Backup) : Prop :=
  (key (Timestamp b) ∉ periods key (newer_than bs b)) ∧ Z.of_nat (size (periods key (newer_than bs b))) < n.

Lemma periods_snoc key pre b :
  periods key (pre ++ [b]) = {[key (Timestamp b)]} ∪ periods key pre.
Proof. rewrite !fmap_app, list_to_set_app_L. cbn. set_solver. Qed.

(** Along the sorted list a period was seen before iff it was seen last. *)
Lemma last_period key pre b desc :
  StronglySorted (λ a b, key (Timestamp b) ≤ key (Timestamp a)) (pre ++ b :: desc) →
  last (key <$> (Timestamp <$> pre)) = Some (key (Timestamp b)) ↔ key (Timestamp b) ∈ periods key pre.
Proof.
  intros Hs. rewrite elem_of_list_to_set.
  destruct pre as [|y pre _] using rev_ind; [cbn; rewrite elem_of_nil; naive_solver|].
  rewrite !fmap_app, last_app. cbn. rewrite elem_of_app, list_elem_of_singleton. split; [intros [= ->]; by right|].
  intros [Hin|Hin]; [|by rewrite Hin]. f_equal. apply list_elem_of_fmap in Hin as (t & Hkey & Hin).
  apply list_elem_of_fmap in Hin as (z & -> & Hin). rewrite <- app_assoc in Hs.
  apply StronglySorted_app in Hs as (Hc & _ & Hs).
  pose proof (Hc z y Hin ltac:(left)) as H1. inversion Hs as [|? ? _ Hall]; subst. cbn in Hall.
  apply Forall_cons in Hall as [Hall _]. cbn in *. lia.
Qed.

Lemma ruleLoop_iff name n key desc x : ∀ pre kept lastKey m,
  StronglySorted (λ a b, key (Timestamp b) ≤ key (Timestamp a)) (pre ++ desc) →
  kept = Z.of_nat (size (periods key pre)) → lastKey = last (key <$> (Timestamp <$> pre)) →
  is_Some (ruleLoop name n key kept lastKey desc m !! x) ↔
  is_Some (m !! x) ∨ ∃ l1 b l2, desc = l1 ++ b :: l2 ∧ BackupID b = x ∧
    (key (Timestamp b) ∉ periods key (pre ++ l1)) ∧ Z.of_nat (size (periods key (pre ++ l1))) < n.
Proof.
  induction desc as [|b desc IH]; intros pre kept lastKey m Hs Hk Hl; cbn [ruleLoop].
  { split; [by left|]. intros [?|([] & ? & ? & ? & _)]; done. }
  pose proof (last_period key pre b desc Hs) as Hmem. rewrite <- Hl in Hmem.
  destruct (Z.leb_spec n kept) as [Hn|Hn].
  - split; [by left|]. intros [?|(l1 & b' & l2 & _ & _ & _ & Hlt)]; [done|]. exfalso.
    assert (size (periods key pre) ≤ size (periods key (pre ++ l1)))%nat; [|lia].
    apply subseteq_size. rewrite !fmap_app, list_to_set_app_L. set_solver.
  - rewrite (split_cons_iff b desc (λ l1 c, BackupID c = x ∧
      (key (Timestamp c) ∉ periods key (pre ++ l1)) ∧ Z.of_nat (size (periods key (pre ++ l1))) < n)).
    rewrite app_nil_r. assert (Happ : ∀ l1, pre ++ b :: l1 = (pre ++ [b]) ++ l1) by (intros; by rewrite <- app_assoc).
    setoid_rewrite Happ. rewrite Happ in Hs.
    case_bool_decide as Hb.
    + rewrite (IH (pre ++ [b])); [|done| |].
      * split; [tauto|]. intros [?|[(_ & Hnot & _)|?]]; [tauto|destruct Hnot; by apply Hmem|tauto].
      * rewrite periods_snoc. replace ({[key (Timestamp b)]} ∪ periods key pre) with (periods key pre) by set_solver. done.
      * rewrite !fmap_app, last_app. cbn. done.
    + rewrite (IH (pre ++ [b])); [|done| |].
      * rewrite add_iff. split; [|intros [?|[(<- & _)|?]]; tauto].
        intros [[?| ->]|?]; [tauto| |tauto]. right. left. split_and!; [done|by rewrite <- Hmem|lia].
      * rewrite periods_snoc, size_union by set_solver. rewrite size_singleton. lia.
      * rewrite !fmap_app, last_app. done.
Qed.

(** ** The period keys *)

Lemma key_mono p name n key t t' :
  (name, n, key) ∈ rules p → hourIdx (loc p) t ≤ hourIdx (loc p) t' → key t ≤ key t'.
Proof.
  intros Hr Hle. set (l := loc p) in *.
  pose proof (Z.div_mod (hourIdx l t) 24 ltac:(lia)). pose proof (Z.mod_pos_bound (hourIdx l t) 24 ltac:(lia)).
  pose proof (Z.div_mod (hourIdx l t') 24 ltac:(lia)). pose proof (Z.mod_pos_bound (hourIdx l t') 24 ltac:(lia)).
  assert (Hday : day_of l t ≤ day_of l t') by (rewrite !day_of_hour; apply Z.div_le_mono; lia).
  assert (Hth : thursday (day_of l t) ≤ thursday (day_of l t')).
  { unfold thursday. pose proof (Z.div_le_mono _ _ 7 ltac:(lia) Hday). lia. }
  pose proof (absDate_mono _ _ Hday) as Hd. pose proof (absDate_mono _ _ Hth) as Hw.
  pose proof (yday_bound (day_of l t)) as B1. pose proof (yday_bound (day_of l t')) as B2.
  pose proof (yday_bound (thursday (day_of l t))) as B3. pose proof (yday_bound (thursday (day_of l t'))) as B4.
  assert (Hsame : absDate (day_of l t) = absDate (day_of l t') → hourIdx l t mod 24 ≤ hourIdx l t' mod 24).
  { intros Heq%absDate_inj. rewrite !day_of_hour in Heq. lia. }
  unfold rules in Hr. rewrite !elem_of_cons, elem_of_nil in Hr. fold l in Hr.
  destruct Hr as [Hr|[Hr|[Hr|[Hr|[Hr|[]]]]]]; injection Hr as -> -> ->;
    unfold hourlyKey, dailyKey, weeklyKey, monthlyKey, yearlyKey, Year, YearDay, Month; rewrite ?Hour_of_hour, ?ISOWeek_thursday.
  all: destruct (absDate (day_of l t)) as [y yd], (absDate (day_of l t')) as [y' yd']; cbn [fst snd] in *.
  - destruct Hd as [?|[-> ?]]; [lia|]. destruct (decide (yd = yd')) as [->|]; [specialize (Hsame eq_refl)|]; lia.
  - lia.
  - destruct (absDate (thursday (day_of l t))) as [w wd], (absDate (thursday (day_of l t'))) as [w' wd']; cbn [fst snd] in *.
    pose proof (Z.div_lt_upper_bound wd 7 53 ltac:(lia) ltac:(lia)). pose proof (Z.div_pos wd' 7 ltac:(lia) ltac:(lia)).
    destruct Hw as [?|[-> Hle']]; [lia|]. pose proof (Z.div_le_mono _ _ 7 ltac:(lia) Hle'). lia.
  - pose proof (Month_of_bound y yd). pose proof (Month_of_bound y' yd').
    destruct Hd as [?|[-> Hle']]; [lia|]. pose proof (Month_of_mono y' _ _ Hle'). lia.
  - lia.
Qed.

(** Two instants share a key exactly when they fall in the same clock hour, day,
    Monday-to-Sunday week, month or year. *)
Lemma hourly_same l t t' : hourlyKey l t = hourlyKey l t' ↔ hourIdx l t = hourIdx l t'.
Proof.
  unfold hourlyKey, Year, YearDay. rewrite !Hour_of_hour.
  pose proof (Z.div_mod (hourIdx l t) 24 ltac:(lia)). pose proof (Z.mod_pos_bound (hourIdx l t) 24 ltac:(lia)).
  pose proof (Z.div_mod (hourIdx l t') 24 ltac:(lia)). pose proof (Z.mod_pos_bound (hourIdx l t') 24 ltac:(lia)).
  pose proof (yday_bound (day_of l t)) as B1. pose proof (yday_bound (day_of l t')) as B2.
  split; [|intros Heq; rewrite !day_of_hour, !Heq; done].
  intros Heq. assert (absDate (day_of l t) = absDate (day_of l t')) as Hd%absDate_inj.
  { apply injective_projections; lia. }
  rewrite !day_of_hour in Hd. rewrite !day_of_hour, Hd in Heq. lia.
Qed.

Lemma daily_same l t t' : dailyKey l t = dailyKey l t' ↔ day_of l t = day_of l t'.
Proof.
  unfold dailyKey, Year, YearDay. pose proof (yday_bound (day_of l t)) as B1. pose proof (yday_bound (day_of l t')) as B2.
  split; [|by intros ->]. intros Heq. apply absDate_inj, injective_projections; lia.
Qed.

Lemma weekly_same l t t' : weeklyKey l t = weeklyKey l t' ↔ day_of l t / 7 = day_of l t' / 7.
Proof.
  unfold weeklyKey. rewrite !ISOWeek_thursday. cbn [fst snd]. split; [|unfold thursday; by intros ->].
  pose proof (absDate_spec (thursday (day_of l t))) as H1. pose proof (absDate_spec (thursday (day_of l t'))) as H2.
  pose proof (yday_bound (thursday (day_of l t))) as B1. pose proof (yday_bound (thursday (day_of l t'))) as B2.
  unfold thursday in *. set (a := day_of l t / 7) in *. set (b := day_of l t' / 7) in *.
  destruct (absDate (7 * a + 3)) as [y yd], (absDate (7 * b + 3)) as [y' yd']. cbn [fst snd] in *. intros Heq.
  pose proof (Z.div_mod yd 7 ltac:(lia)). pose proof (Z.mod_pos_bound yd 7 ltac:(lia)).
  pose proof (Z.div_mod yd' 7 ltac:(lia)). pose proof (Z.mod_pos_bound yd' 7 ltac:(lia)).
  assert (y = y') as -> by lia. lia.
Qed.

Lemma monthly_same l t t' : monthlyKey l t = monthlyKey l t' ↔ Year l t = Year l t' ∧ Month l t = Month l t'.
Proof.
  unfold monthlyKey. assert (Hb : ∀ t, 1 ≤ Month l t ≤ 12).
  { intros u. unfold Month. destruct (absDate _). apply Month_of_bound. }
  pose proof (Hb t). pose proof (Hb t'). lia.
Qed.

(** ** What the policy selects *)

(** The location's clock never falls back past the start of an hour. *)
Definition hour_mono (l : Location) : Prop := ∀ t t', t ≤ t' → hourIdx l t ≤ hourIdx l t'.

Lemma UTC_hour_mono : hour_mono UTC.
Proof.
  intros t t' H. unfold hourIdx, local_sec, UTC. rewrite !Z.add_0_r. apply Z.div_le_mono; [lia|].
  apply Z.div_le_mono; lia.
Qed.

Definition policy_pick (p : Policy) (bs : list Backup) (b : Backup) : Prop :=
  len (newer_than bs b) < Last p ∨
  (∃ name n key, (name, n, key) ∈ rules p ∧ period_pick n key bs b) ∨
  (withinActive p = true ∧ cutoff p ≤ Timestamp b).

Lemma byRecency_key_sorted bs p name n key :
  hour_mono (loc p) → (name, n, key) ∈ rules p →
  StronglySorted (λ a b, key (Timestamp b) ≤ key (Timestamp a)) (byRecency bs).
Proof.
  intros Hm Hr. assert (Hs : StronglySorted recent_first (byRecency bs)) by (apply StronglySorted_merge_sort; apply _).
  revert Hs. generalize (byRecency bs). induction 1 as [|a l Hs IH Hall]; constructor; [done|].
  eapply Forall_impl; [exact Hall|]. cbn. intros b Hab%recent_first_iff. apply (key_mono p name n); [done|].
  apply Hm. lia.
Qed.

(** A property of the positions in the newest-first list, as one of backups. *)
Lemma positions_iff bs x (P : list Backup → Backup → Prop) :
  distinct bs → (∀ l1 l1' b, l1 ≡ₚ l1' → P l1 b → P l1' b) →
  (∃ l1 b l2, byRecency bs = l1 ++ b :: l2 ∧ BackupID b = x ∧ P l1 b) ↔
  ∃ b, b ∈ bs ∧ BackupID b = x ∧ P (newer_than bs b) b.
Proof.
  intros Hd HP. split.
  - intros (l1 & b & l2 & Heq & Hid & Hp). apply byRecency_split_inv in Heq as [Hb Hl]; [|done].
    exists b. eauto.
  - intros (b & Hb & Hid & Hp). destruct (byRecency_split bs b Hd Hb) as (l1 & l2 & Heq & Hl).
    exists l1, b, l2. split_and!; [done..|]. eapply HP; [symmetry; exact Hl|done].
Qed.

Lemma take_iff {A} n (l : list A) x : x ∈ take n l ↔ ∃ l1 l2, l = l1 ++ x :: l2 ∧ (length l1 < n)%nat.
Proof.
  split.
  - intros (l1 & l2 & Heq)%list_elem_of_split. exists l1, (l2 ++ drop n l). split.
    + rewrite <- (take_drop n l) at 1. rewrite Heq. by rewrite <- app_assoc.
    + assert (length (take n l) ≤ n)%nat as Hle by (rewrite length_take; lia). rewrite Heq, length_app in Hle. cbn in Hle. lia.
  - intros (l1 & l2 & -> & Hlt). replace n with (length l1 + (n - length l1))%nat by lia.
    rewrite take_app_add. apply elem_of_app. right. destruct (n - length l1)%nat eqn:?; [lia|]. left.
Qed.

Lemma applyLast_iff bs n m x :
  distinct bs →
  is_Some (applyLast n (byRecency bs) m !! x) ↔
  is_Some (m !! x) ∨ ∃ b, b ∈ bs ∧ BackupID b = x ∧ len (newer_than bs b) < n.
Proof.
  intros Hd. unfold applyLast. rewrite (fold_add _ (λ b x, x = BackupID b)) by (intros; apply add_iff). f_equiv.
  rewrite <- (positions_iff bs x (λ l1 _, len l1 < n)) by (done || intros ? ? ? Hp; by rewrite Hp).
  setoid_rewrite take_iff. split.
  - intros (b & (l1 & l2 & Heq & Hlt) & ->). exists l1, b, l2. split_and!; [done..|]. lia.
  - intros (l1 & b & l2 & Heq & Hid & Hlt). exists b. split; [|done]. exists l1, l2. split; [done|]. lia.
Qed.

Lemma applyRule_iff bs p name n key m x :
  distinct bs → hour_mono (loc p) → (name, n, key) ∈ rules p →
  is_Some (applyRule (byRecency bs) m (name, n, key) !! x) ↔
  is_Some (m !! x) ∨ ∃ b, b ∈ bs ∧ BackupID b = x ∧ period_pick n key bs b.
Proof.
  intros Hd Hm Hr. cbn [applyRule]. destruct (Z.leb_spec n 0) as [Hn|Hn].
  { split; [by left|]. intros [?|(b & _ & _ & _ & Hlt)]; [done|]. lia. }
  rewrite (ruleLoop_iff name n key (byRecency bs) x [] 0 None m); [|by eapply byRecency_key_sorted|done|done].
  f_equiv. cbn [app]. rewrite (positions_iff bs x (λ l1 b, (key (Timestamp b) ∉ periods key l1) ∧ Z.of_nat (size (periods key l1)) < n)); [done|done|].
  intros l1 l1' b Hp. assert (periods key l1 = periods key l1') as ->; [|done].
  apply set_eq. intros y. rewrite !elem_of_list_to_set. by rewrite Hp.
Qed.

Lemma applyRules_iff bs p rs m x :
  distinct bs → hour_mono (loc p) → (∀ r, r ∈ rs → r ∈ rules p) →
  is_Some (foldl (applyRule (byRecency bs)) m rs !! x) ↔
  is_Some (m !! x) ∨ ∃ b, b ∈ bs ∧ BackupID b = x ∧ ∃ name n key, (name, n, key) ∈ rs ∧ period_pick n key bs b.
Proof.
  intros Hd Hm. revert m. induction rs as [|[[name n] key] rs IH]; intros m Hrs; cbn [foldl].
  { split; [by left|]. intros [?|(b & _ & _ & ? & ? & ? & ?%elem_of_nil & _)]; done. }
  rewrite IH by (intros; apply Hrs; by right). rewrite (applyRule_iff bs p) by (done || apply Hrs; left).
  split.
  - intros [[?|(b & ? & ? & ?)]|(b & ? & ? & n1 & k & r & ? & ?)]; [by left|right; exists b..].
    + split_and!; [done..|]. exists name, n, key. split; [left|done].
    + split_and!; [done..|]. exists n1, k, r. split; [by right|done].
  - intros [?|(b & ? & ? & n1 & k & r & [Heq|?]%elem_of_cons & ?)]; [by left; left| |].
    + injection Heq as -> -> ->. left. right. by exists b.
    + right. exists b. split_and!; [done..|]. by exists n1, k, r.
Qed.

Lemma applyWithin_iff bs p m x :
  is_Some (applyWithin p (byRecency bs) m !! x) ↔
  is_Some (m !! x) ∨ ∃ b, b ∈ bs ∧ BackupID b = x ∧ withinActive p = true ∧ cutoff p ≤ Timestamp b.
Proof.
  unfold applyWithin. destruct (withinActive p); [|naive_solver].
  rewrite (fold_add _ (λ b x, BackupID b = x ∧ cutoff p ≤ Timestamp b)).
  - f_equiv. setoid_rewrite (merge_sort_Permutation recent_first bs : byRecency bs ≡ₚ bs). naive_solver.
  - intros m' b. destruct (Z.ltb_spec (Timestamp b) (cutoff p)); [|rewrite add_iff]; naive_solver lia.
Qed.

Lemma selectByPolicy_Ok bs p m :
  selectByPolicy bs p = Ok m →
  m = applyWithin p (byRecency bs) (foldl (applyRule (byRecency bs)) (applyLast (Last p) (byRecency bs) ∅) (rules p)).
Proof. unfold selectByPolicy. destruct (if needsTime p then _ else _) as [[? ?]|]; by intros [=]. Qed.

Lemma selectByPolicy_iff bs p m x :
  distinct bs → hour_mono (loc p) → selectByPolicy bs p = Ok m →
  is_Some (m !! x) ↔ ∃ b, b ∈ bs ∧ BackupID b = x ∧ policy_pick p bs b.
Proof.
  intros Hd Hm ->%selectByPolicy_Ok.
  rewrite applyWithin_iff, (applyRules_iff bs p), applyLast_iff, lookup_empty by done.
  unfold policy_pick. split.
  - intros [[[[? ?]|(b & ? & ? & ?)]|(b & ? & ? & ?)]|(b & ? & ? & ?)]; [done|exists b; auto..].
  - intros (b & ? & ? & [?|[?|?]]); [left; left; right|left; right|right]; by exists b.
Qed.

(** ** The plan and the run *)

Section planning.
Context {σ R : Type} {SS : SortByString} {MR : MapRange}.
Implicit Types (o : Options (σ:=σ) (R:=R)) (plan : Plan (R:=R)).

Lemma Protect_spec allIDs load keep :
  match Protect allIDs load keep with
  | Ok (prot, dang) => protects allIDs load keep prot dang
  | Err (FgClosureUnreadable id) => needed allIDs load keep id ∧ load id = None
  | Err _ => False
  end.
Proof.
  unfold Protect. apply (protectLoop_spec allIDs load keep _ []).
  - assert (Hin : ∀ x, x ∈ sortByString id (range_map keep).*1 ↔ is_Some (keep !! x)).
    { intros x. rewrite sortByString_perm, range_map_perm, list_elem_of_fmap. split.
      - intros ([y r] & -> & Hy%elem_of_map_to_list). by exists r.
      - intros [r Hr]. exists (x, r). split; [done|]. by apply elem_of_map_to_list. }
    split; cbn.
    + intros x. by rewrite Hin.
    + rewrite sortByString_perm, range_map_perm. apply NoDup_fst_map_to_list.
    + intros x. apply needed_keep.
    + done.
    + by intros x ?%elem_of_nil.
    + intros d. split; [by intros ?%elem_of_nil|]. by intros (x & b & ?%elem_of_nil & _).
  - cbn. rewrite size_union_alt, size_dom.
    pose proof (subseteq_size (allIDs ∖ dom keep) allIDs ltac:(set_solver)). lia.
Qed.

(** The steps a plan went through. *)
Lemma makePlan_inv o raw listed plan :
  makePlan o raw listed = Ok plan →
  ∃ rawIDs bs keep prot dang,
    raw = Some rawIDs ∧ listed = Some bs ∧ Any (o_Policy o) = true ∧
    selectByPolicy bs (o_Policy o) = Ok keep ∧
    protects (list_to_set rawIDs) (Load o) keep prot dang ∧ (size prot ≠ 0)%nat ∧
    (Strict o = true → promotedOf prot = []) ∧
    plan = buildPlan bs prot dang (promotedOf prot) ∧ length (Remove plan) ≠ size (list_to_set rawIDs : gset string).
Proof.
  unfold makePlan. destruct (Any (o_Policy o)); cbn [negb]; [|done].
  destruct raw as [[|r0 raw]|]; [done| |done]. destruct listed as [bs|]; [|done].
  destruct (length bs =? _)%nat; cbn [negb]; [|done]. cbv zeta. intros H.
  apply rbind_Ok_inv in H as (keep & Hkeep & H). apply rbind_Ok_inv in H as ([prot dang] & Hprot & H).
  destruct (Nat.eqb_spec (size prot) 0); [done|].
  destruct (Strict o && _) eqn:Hstrict; [done|].
  destruct (Nat.eqb_spec (length (Remove (buildPlan (R:=R) bs prot dang (promotedOf prot)))) (size (list_to_set (r0 :: raw) : gset string))) as [|Hne]; [done|].
  injection H as <-. exists (r0 :: raw), bs, keep, prot, dang. split_and!; try done.
  - pose proof (Protect_spec (list_to_set (r0 :: raw)) (Load o) keep) as Hs. by rewrite Hprot in Hs.
  - intros Hst. rewrite Hst in Hstrict. cbn in Hstrict. by apply negb_false_iff, bool_decide_eq_true in Hstrict.
Qed.

Lemma Remove_elem bs prot dang prom x :
  x ∈ Remove (buildPlan (R:=R) bs prot dang prom) ↔ (∃ b, b ∈ bs ∧ BackupID b = x) ∧ prot !! x = None.
Proof.
  cbn [Remove buildPlan]. rewrite list_elem_of_fmap. setoid_rewrite list_elem_of_filter. setoid_rewrite list_elem_of_fmap.
  assert (Hp : ∀ b, b ∈ byRecency bs ↔ b ∈ bs) by (intros b; unfold byRecency; by rewrite merge_sort_Permutation).
  split.
  - intros (d & -> & Hk & b & -> & Hb%Hp). cbn in *. split; [by exists b|]. by destruct (prot !! BackupID b).
  - intros [(b & Hb & <-) Hn]. exists (decide_backup prot b). split_and!; [done| |exists b; split; [done|by apply Hp]].
    cbn. by rewrite Hn.
Qed.

Lemma deleteAll_spec (del : string → σ → σ * bool) ids : ∀ s deleted errs s' deleted' errs',
  deleteAll del ids s deleted errs = (s', deleted', errs') →
  (∀ x, x ∈ deleted' → x ∈ deleted ∨ x ∈ ids) ∧ errs ⊆ errs' ∧ (∀ x, x ∈ errs' → x ∈ errs ∨ x ∈ ids) ∧
  (∀ x, x ∈ ids → x ∈ deleted' ∨ x ∈ errs').
Proof.
  induction ids as [|id ids IH]; intros s deleted errs s' deleted' errs'; cbn [deleteAll].
  { intros [= <- <- <-]. split_and!; [auto|done|auto|]. by intros x ?%elem_of_nil. }
  assert (Hmono : ∀ ids s d e, (∀ x, x ∈ d → x ∈ (deleteAll del ids s d e).1.2)).
  { clear. induction ids as [|id ids IH]; intros s d e x Hx; cbn [deleteAll]; [done|].
    destruct (del id s) as [s1 []]; apply IH; [apply elem_of_app; by left|done]. }
  destruct (del id s) as [s1 []]; intros H; pose proof (IH _ _ _ _ _ _ H) as (H1 & H2 & H3 & H4).
  - split_and!; [|done|..].
    + intros x [[?| ->%list_elem_of_singleton]%elem_of_app|?]%H1; [by left|right; left|right; by right].
    + intros x [?|?]%H3; [by left|right; by right].
    + intros x [->|?]%elem_of_cons; [|auto]. left. pose proof (Hmono ids s1 (deleted ++ [id]) errs id) as Hm.
      rewrite H in Hm. apply Hm, elem_of_app. right. by left.
  - split_and!; [|set_solver|..].
    + intros x [?|?]%H1; [by left|right; by right].
    + intros x [[->%elem_of_singleton|?]%elem_of_union|?]%H3; [right; left|by left|right; by right].
    + intros x [->|?]%elem_of_cons; [right; set_solver|auto].
Qed.

Lemma Remove_NoDup bs prot dang prom : distinct bs → NoDup (Remove (buildPlan (R:=R) bs prot dang prom)).
Proof.
  intros Hd. cbn [Remove buildPlan]. apply (sublist_NoDup _ (BackupID <$> byRecency bs)).
  - unfold byRecency. by rewrite merge_sort_Permutation.
  - replace (BackupID <$> byRecency bs) with (d_ID <$> (decide_backup prot <$> byRecency bs))
      by (by rewrite <- list_fmap_compose). apply fmap_sublist, sublist_filter.
Qed.

(** What [DeleteFn] and [PruneFn] may do to the stored manifests. *)
Context (view : σ → string → option Backup).
Definition delete_frame (del : string → σ → σ * bool) : Prop :=
  (∀ id s x, x ≠ id → view (del id s).1 x = view s x) ∧
  (∀ id s, (del id s).2 = true → view (del id s).1 id = None).
Definition prune_frame (prune : σ → σ * option R) : Prop := ∀ s x, view (prune s).1 x = view s x.

Lemma deleteAll_view del ids : delete_frame del → ∀ s deleted errs s' deleted' errs',
  NoDup ids → deleteAll del ids s deleted errs = (s', deleted', errs') →
  (∀ x, x ∉ ids → view s' x = view s x) ∧ (∀ x, x ∈ deleted' → x ∈ deleted ∨ view s' x = None).
Proof.
  intros [Hf Hok]. induction ids as [|id ids IH]; intros s deleted errs s' deleted' errs' Hnd; cbn [deleteAll].
  { intros [= <- <- <-]. auto. }
  apply NoDup_cons in Hnd as [Hid Hnd]. specialize (Hf id s). specialize (Hok id s).
  destruct (del id s) as [s1 ok] eqn:Hd. cbn in Hf, Hok.
  assert (Hframe : ∀ d e, deleteAll del ids s1 d e = (s', deleted', errs') → ∀ x, x ∉ id :: ids → view s' x = view s x).
  { intros d e H x [Hne Hx]%not_elem_of_cons. destruct (IH _ _ _ _ _ _ Hnd H) as [H1 _]. rewrite H1 by done. auto. }
  destruct ok; intros H; (split; [by eapply Hframe|]); intros x Hx; destruct (IH _ _ _ _ _ _ Hnd H) as [H1 H2];
    destruct (H2 x Hx) as [Hin|?]; [|auto..].
  apply elem_of_app in Hin as [?| ->%list_elem_of_singleton]; [auto|]. right. rewrite H1 by done. auto.
Qed.

Lemma execute_view o plan s s' plan' e :
  delete_frame (DeleteFn o) → prune_frame (PruneFn o) → NoDup (Remove plan) → execute o plan s = (s', plan', e) →
  Remove plan' = Remove plan ∧ (∀ x, x ∉ Remove plan → view s' x = view s x) ∧
  (∀ x, x ∈ Deleted plan' → x ∈ Remove plan ∧ view s' x = None).
Proof.
  intros Hdel Hprune Hnd. unfold execute.
  destruct (deleteAll (DeleteFn o) (Remove plan) s [] ∅) as [[s1 deleted] errs] eqn:Hd.
  destruct (deleteAll_view _ _ Hdel _ _ _ _ _ _ Hnd Hd) as [Hv Hg].
  destruct (deleteAll_spec _ _ _ _ _ _ _ _ Hd) as (Hs & _).
  assert (Hdd : ∀ x, x ∈ deleted → x ∈ Remove plan ∧ view s1 x = None).
  { intros x Hx. destruct (Hs x Hx) as [?%elem_of_nil|?]; [done|]. destruct (Hg x Hx) as [?%elem_of_nil|?]; done. }
  destruct (negb _); [intros [= <- <- <-]; done|].
  destruct (Prune o && _); [|intros [= <- <- <-]; done].
  specialize (Hprune s1). destruct (PruneFn o s1) as [s2 [r|]]; cbn in Hprune; intros [= <- <- <-]; cbn;
    (split_and!; [done|..]); intros x Hx; rewrite Hprune; auto.
Qed.

(** Either nothing happened, or the plan was carried out. *)
Lemma Run_cases o raw listed s s' (plan : option Plan) e :
  Run o raw listed s = (s', plan, e) →
  (s' = s ∧ (plan = None ∨ ∃ pl, plan = Some pl ∧ makePlan o raw listed = Ok pl)) ∨
  ∃ pl pl', makePlan o raw listed = Ok pl ∧ DryRun o = false ∧ plan = Some pl' ∧ execute o pl s = (s', pl', e).
Proof.
  unfold Run. destruct (makePlan o raw listed) as [pl|err]; [|intros [= <- <- <-]; auto].
  destruct (DryRun o); [intros [= <- <- <-]; left; split; [done|right; by exists pl]|].
  destruct (execute o pl s) as [[s1 pl1] e1] eqn:He.
  destruct (Confirm o) as [confirm|]; [destruct (confirm pl) as [[]|]|]; intros [= <- <- <-];
    try (left; split; [done|]; right; by exists pl); right; exists pl, pl1; done.
Qed.

(** A plan leaves at least one backup, and everything a survivor refers to. *)
Lemma makePlan_safe o rawIDs bs pl :
  NoDup rawIDs → BackupID <$> bs ≡ₚ rawIDs → makePlan o (Some rawIDs) (Some bs) = Ok pl →
  Deleted pl = [] ∧ NoDup (Remove pl) ∧ (∃ x, (x ∈ rawIDs) ∧ x ∉ Remove pl) ∧
  ∀ x, x ∈ rawIDs → x ∉ Remove pl → ∃ b, Load o x = Some b ∧
    ∀ e, e ∈ referenceEdges b → edge_ID e ∈ rawIDs → edge_ID e ∉ Remove pl.
Proof.
  intros Hnd Hids H. apply makePlan_inv in H as (r & bs' & keep & prot & dang & [= <-] & [= <-] & _ & _ & Hp & _ & _ & -> & Hlen).
  destruct Hp as (Hdom & _ & Hload & _).
  assert (Hd : distinct bs) by (unfold distinct; by rewrite Hids).
  assert (Hraw : ∀ x, x ∈ rawIDs ↔ ∃ b, b ∈ bs ∧ BackupID b = x).
  { intros x. rewrite <- Hids, list_elem_of_fmap. naive_solver. }
  pose proof (Remove_NoDup bs prot dang (promotedOf prot) Hd) as Hrnd.
  pose proof (Remove_elem bs prot dang (promotedOf prot)) as Hrem. set (pl := buildPlan _ _ _ _) in *.
  assert (Hkeep : ∀ x, x ∈ rawIDs → x ∉ Remove pl ↔ needed (list_to_set rawIDs) (Load o) keep x).
  { intros x Hx. rewrite <- Hdom, Hrem, <- Hraw. destruct (prot !! x) eqn:?; [naive_solver|].
    split; [intros Hn; exfalso; auto|]. by intros [? ?]. }
  split_and!; [done|done|..].
  - destruct (decide (Forall (λ x, x ∈ Remove pl) rawIDs)) as [Hall|Hnot].
    + exfalso. apply Hlen. rewrite size_list_to_set by done. apply Permutation_length, NoDup_Permutation; [done..|].
      intros x. rewrite Forall_forall in Hall. rewrite Hrem, <- Hraw. split; [tauto|]. intros Hx. split; [done|].
      by apply Hall, Hrem in Hx as [_ ?].
    + apply not_Forall_Exists in Hnot; [|apply _]. by apply Exists_exists in Hnot.
  - intros x Hx Hn. apply Hkeep in Hn; [|done]. destruct (Hload x Hn) as [b Hb]. exists b. split; [done|].
    intros e He Hin. apply Hkeep; [done|]. eapply needed_ref; eauto. by apply elem_of_list_to_set.
Qed.
End planning.

(** ** Theorems *)

Definition sample : list Backup := [
  mkBackup "full-1" (63900000000 * 10 ^ 9) "full" "" [];
  mkBackup "incr-2" (63900090000 * 10 ^ 9) "incremental" "full-1" [];
  mkBackup "incr-3" (63900180000 * 10 ^ 9) "incremental" "full-1" ["incr-2"];
  mkBackup "old-0" (63800000000 * 10 ^ 9) "full" "" ["gone-9"] ].
Definition sample_policy : Policy :=
  mkPolicy 1 0 0 0 0 0 (mkCalDur 0 0 0 0) false (63900180000 * 10 ^ 9) UTC None.
Definition sample_ids : list string := BackupID <$> sample.
Definition find_backup (bs : list Backup) (id : string) : option Backup :=
  snd <$> list_find (λ b, BackupID b = id) bs.

(** The manifests as a map, and a run that keeps the last backup. *)
Definition sample_store : gmap string Backup := list_to_map ((λ b, (BackupID b, b)) <$> sample).
Definition sample_options : Options (σ:=gmap string Backup) (R:=unit) :=
  mkOptions sample_policy false true false None (find_backup sample)
    (λ id s, (delete id s, bool_decide (is_Some (s !! id)))) (λ s, (s, Some tt)).

Example sample_run :
  (Remove <$> (Run sample_options (Some sample_ids) (Some sample) sample_store).1.2) = Some ["old-0"].
Proof. vm_compute. reflexivity. Qed.

(** C7. A forget run never breaks a surviving backup.  Let the listing name the
    ids on disk, let a delete touch only the manifest it names and prune none.
    Then a run that returns no plan changed nothing; and for a plan it returns,
    whether it deleted, was declined, ran dry or stopped at a failed delete: some
    backup is left; every backup outside the remove list is still stored as it
    was, can be read, and every backup it refers to (incremental parent or data
    pointer) that existed is also outside the remove list and still stored; what
    is reported deleted was planned and is gone; a dry run changes nothing. *)
Theorem forget_run_safe {σ R} {SS : SortByString} {MR : MapRange} (view : σ → string → option Backup)
    (o : Options (σ:=σ) (R:=R)) rawIDs bs s s' plan err :
  NoDup rawIDs → BackupID <$> bs ≡ₚ rawIDs →
  delete_frame view (DeleteFn o) → prune_frame view (PruneFn o) →
  Run o (Some rawIDs) (Some bs) s = (s', plan, err) →
  (plan = None → s' = s) ∧ (DryRun o = true → s' = s) ∧
  ∀ pl, plan = Some pl →
    (∃ x, (x ∈ rawIDs) ∧ x ∉ Remove pl) ∧
    (∀ x, x ∈ rawIDs → x ∉ Remove pl → view s' x = view s x ∧ ∃ b, Load o x = Some b ∧
       ∀ e, e ∈ referenceEdges b → edge_ID e ∈ rawIDs →
         (edge_ID e ∉ Remove pl) ∧ view s' (edge_ID e) = view s (edge_ID e)) ∧
    (∀ x, x ∈ Deleted pl → x ∈ Remove pl ∧ view s' x = None).
Proof.
  intros Hnd Hids Hdel Hprune H.
  destruct (Run_cases _ _ _ _ _ _ _ H) as [[-> Hpl]|(pl & pl' & Hmk & Hdry & -> & He)].
  - split_and!; [done..|]. intros pl ->. destruct Hpl as [?|(pl0 & [= <-] & Hmk)]; [done|].
    destruct (makePlan_safe o rawIDs bs pl Hnd Hids Hmk) as (Hdd & _ & Hex & Hs). split_and!; [done| |].
    + intros x Hx Hn. split; [done|]. destruct (Hs x Hx Hn) as (b & Hb & He). exists b. auto.
    + rewrite Hdd. by intros x ?%elem_of_nil.
  - destruct (makePlan_safe o rawIDs bs pl Hnd Hids Hmk) as (_ & Hrnd & Hex & Hs).
    destruct (execute_view view o pl s s' pl' err Hdel Hprune Hrnd He) as (Hrem & Hv & Hg).
    split_and!; [done|congruence|]. intros pl2 [= <-]. rewrite Hrem. split_and!; [done| |done].
    intros x Hx Hn. split; [auto|]. destruct (Hs x Hx Hn) as (b & Hb & Hedge). exists b. auto.
Qed.

Lemma forget_run_safe_witness :
  ∃ pl, (Run sample_options (Some sample_ids) (Some sample) sample_store).1.2 = Some pl ∧
    ∃ x, (x ∈ sample_ids) ∧ x ∉ Remove pl.
Proof.
  destruct (Run sample_options (Some sample_ids) (Some sample) sample_store) as [[s' plan] err] eqn:Hrun.
  destruct plan as [pl|]; [|vm_compute in Hrun; discriminate Hrun].
  exists pl. split; [reflexivity|].
  destruct (forget_run_safe (λ s x, s !! x) sample_options sample_ids sample sample_store s' (Some pl) err) as (_ & _ & Hall).
  - by_eval.
  - reflexivity.
  - split; cbn; [intros id s x Hne; by apply lookup_delete_ne|intros id s _; by apply lookup_delete_eq].
  - intros s x. reflexivity.
  - exact Hrun.
  - exact (proj1 (Hall pl eq_refl)).
Defined.

(** C8. Protection is total and exact.  [Protect] finishes (its work list never
    outgrows the kept and the existing ids) and either returns exactly the least
    set that holds the policy's picks and is closed under references to existing
    backups, each pick with its policy reasons, together with exactly the
    references of that set that point at nothing; or it stops at a backup of
    that set that cannot be read.  It fails in no other case, so a damaged
    manifest outside the set never blocks it. *)
Theorem forget_protect_exact {SS : SortByString} {MR : MapRange} allIDs load keep :
  (∃ prot dang, Protect allIDs load keep = Ok (prot, dang) ∧
     (∀ x, is_Some (prot !! x) ↔ needed allIDs load keep x) ∧
     (∀ x r, keep !! x = Some r → prot !! x = Some r) ∧
     (∀ x, needed allIDs load keep x → is_Some (load x)) ∧
     (∀ x y via, mkDangling x y via ∈ dang ↔
        needed allIDs load keep x ∧ (y ∉ allIDs) ∧ ∃ b, load x = Some b ∧ mkEdge y via ∈ referenceEdges b)) ∨
  (∃ id, Protect allIDs load keep = Err (FgClosureUnreadable id) ∧ needed allIDs load keep id ∧ load id = None).
Proof.
  pose proof (Protect_spec allIDs load keep) as Hs.
  destruct (Protect allIDs load keep) as [[prot dang]|e]; [left|right; destruct e; try done; eauto].
  destruct Hs as (H1 & H2 & H3 & H4). exists prot, dang. split_and!; [done..|]. intros x y via. rewrite H4. unfold dangles.
  setoid_rewrite list_elem_of_fmap. setoid_rewrite list_elem_of_filter. split.
  - intros (x' & b & Hn & Hb & e & [= -> -> ->] & He & Hin). split_and!; [done..|]. exists b. split; [done|]. by destruct e.
  - intros (Hn & Hy & b & Hb & Hin). exists x, b. split_and!; [done..|]. exists (mkEdge y via). done.
Qed.

(** C9. The policy keeps exactly what it says.  With distinct ids and a location
    whose clock never falls back past the start of an hour (UTC is one, and so is
    every zone that leaves summer time on the hour), [selectByPolicy] fails
    exactly when a rule needs times and a backup has none; otherwise a backup is
    kept exactly when fewer than [Last] backups are more recent, or it is the
    newest of one of the [n] most recent periods of a rule, or it is not older
    than the window. *)
Theorem forget_policy_exact bs p :
  distinct bs → hour_mono (loc p) →
  ((∃ e, selectByPolicy bs p = Err e) ↔ needsTime p = true ∧ ∃ b, b ∈ bs ∧ IsZero (Timestamp b) = true) ∧
  ∀ m, selectByPolicy bs p = Ok m → ∀ b, b ∈ bs → is_Some (m !! BackupID b) ↔
    len (newer_than bs b) < Last p ∨
    (∃ name n key, (name, n, key) ∈ rules p ∧ period_pick n key bs b) ∨
    (withinActive p = true ∧ cutoff p ≤ Timestamp b).
Proof.
  intros Hd Hm. split.
  - assert (Hp : ∀ b, b ∈ byRecency bs ↔ b ∈ bs) by (intros b; unfold byRecency; by rewrite merge_sort_Permutation).
    unfold selectByPolicy. destruct (needsTime p); [|split; [by intros [? ?]|naive_solver]].
    destruct (list_find _ (byRecency bs)) as [[i b]|] eqn:Hf; cbn.
    + apply list_find_Some in Hf as (Hb & Hz & _). apply list_elem_of_lookup_2, Hp in Hb. split; [|eauto]. intros _. split; [done|]. by exists b.
    + apply list_find_None in Hf. rewrite Forall_forall in Hf. split; [by intros [? ?]|]. intros [_ (b & Hb%Hp & Hz)]. by destruct (Hf b Hb).
  - intros m Hs b Hb. rewrite (selectByPolicy_iff bs p m) by done. unfold policy_pick. split; [|by exists b].
    intros (b' & Hb' & Hid & Hpk). by rewrite (backup_inj bs b' b Hd Hb' Hb Hid) in Hpk.
Qed.

Definition newest_sample : Backup :=
  mkBackup "incr-3" (63900180000 * 10 ^ 9) "incremental" "full-1" ["incr-2"].

Lemma forget_policy_exact_witness :
  ∃ m, selectByPolicy sample sample_policy = Ok m ∧
    (is_Some (m !! BackupID newest_sample) ↔
      len (newer_than sample newest_sample) < 1 ∨
      (∃ name n key, (name, n, key) ∈ rules sample_policy ∧ period_pick n key sample newest_sample) ∨
      (withinActive sample_policy = true ∧ cutoff sample_policy ≤ Timestamp newest_sample)).
Proof.
  destruct (selectByPolicy sample sample_policy) as [m|e] eqn:Hm; [|vm_compute in Hm; discriminate Hm].
  exists m. split; [reflexivity|].
  apply (proj2 (forget_policy_exact sample sample_policy ltac:(by_eval)
    UTC_hour_mono) m Hm newest_sample).
  unfold sample. rewrite !elem_of_cons. tauto.
Defined.

(** The period keys are the calendar's periods: two instants have the same
    hourly, daily, weekly, monthly or yearly key exactly when they fall in the
    same clock hour, the same day, the same Monday-to-Sunday week, the same month
    of the same year, or the same year. *)
Theorem forget_periods_calendar (l : Location) (t t' : time) :
  (hourlyKey l t = hourlyKey l t' ↔ local_sec l t / 3600 = local_sec l t' / 3600) ∧
  (dailyKey l t = dailyKey l t' ↔ local_sec l t / 86400 = local_sec l t' / 86400) ∧
  (weeklyKey l t = weeklyKey l t' ↔ local_sec l t / 86400 / 7 = local_sec l t' / 86400 / 7) ∧
  (monthlyKey l t = monthlyKey l t' ↔ Year l t = Year l t' ∧ Month l t = Month l t') ∧
  (yearlyKey l t = yearlyKey l t' ↔ Year l t = Year l t').
Proof.
  split_and!; [apply hourly_same|apply daily_same|apply weekly_same|apply monthly_same|done].
Qed.
