(* ===== verification/DiskLayout.v ===== *)
(** * core/disklayout: GUIDs, GPT and MBR parsing, GPT relocation, machine manifests

    guid.go, gpt.go, mbr.go, relocate.go and the validation of machine.go.  A disk
    is its bytes; [io.ReaderAt] reads fail past the end or at a negative offset.
    Products of block addresses and sector sizes are 64-bit, as in the code.  Go
    strings are ASCII; a partition name is kept as its decoded code points. *)

From S2P Require Import Prelude GoBytes Hashes.
From Stdlib Require Import Ascii.

(** ** guid.go *)

Definition hexDigits : list ascii := String.list_ascii_of_string "0123456789ABCDEF".
Definition hexDigit (n : Z) : ascii := nth (Z.to_nat n) hexDigits "0"%char.

(** [%0wX] of a value below [16 ^ w]. *)
Fixpoint hexN (w : nat) (v : Z) : list ascii :=
  match w with
  | O => []
  | S w => hexN w (v / 16) ++ [hexDigit (v mod 16)]
  end.

Definition guidChars (g : bytes) : list ascii :=
  hexN 8 (le_get (sub g 0 4)) ++ ["-"%char] ++ hexN 4 (le_get (sub g 4 2)) ++ ["-"%char] ++
  hexN 4 (le_get (sub g 6 2)) ++ ["-"%char] ++ hexN 4 (be_get (sub g 8 2)) ++ ["-"%char] ++
  concat (hexN 2 <$> sub g 10 6).

Definition GUID_String (g : bytes) : string := String.string_of_list_ascii (guidChars g).

Definition GUID_IsZero (g : bytes) : bool := bool_decide (g = zeros 16).

Definition hexVal (c : ascii) : option Z :=
  let n := Z.of_nat (nat_of_ascii c) in
  if (48 <=? n) && (n <=? 57) then Some (n - 48)
  else if (65 <=? n) && (n <=? 70) then Some (n - 55)
  else if (97 <=? n) && (n <=? 102) then Some (n - 87)
  else None.

Definition upper (c : ascii) : ascii :=
  let n := nat_of_ascii c in
  if (97 <=? n)%nat && (n <=? 122)%nat then ascii_of_nat (n - 32) else c.

Definition isSpace (c : ascii) : bool :=
  let n := nat_of_ascii c in ((9 <=? n)%nat && (n <=? 13)%nat) || (n =? 32)%nat.

Fixpoint dropSpace (l : list ascii) : list ascii :=
  match l with
  | [] => []
  | c :: l' => if isSpace c then dropSpace l' else l
  end.
Definition trimSpace (l : list ascii) : list ascii := reverse (dropSpace (reverse (dropSpace l))).

(** [fmt.Sscanf(pair, "%02X", &b)]: spaces other than a newline are skipped, then
    one or two hexadecimal digits are read; input left over is no error. *)
Definition scanHex2 (c1 c2 : ascii) : option Z :=
  if isSpace c1 && negb (Ascii.eqb c1 "010"%char) then hexVal c2
  else match hexVal c1, hexVal c2 with
       | Some a, Some b => Some (16 * a + b)
       | Some a, None => Some a
       | None, _ => None
       end.

Fixpoint scanPairs (l : list ascii) : option bytes :=
  match l with
  | c1 :: c2 :: l => b ← scanHex2 c1 c2; bs ← scanPairs l; Some (b :: bs)
  | _ => Some []
  end.

(** Display order to on-disk order. *)
Definition swapGUID (raw : bytes) : bytes :=
  reverse (sub raw 0 4) ++ reverse (sub raw 4 2) ++ reverse (sub raw 6 2) ++ sub raw 8 8.

Definition ParseGUID (s : string) : option bytes :=
  let clean := filter (λ c, c ≠ "-"%char) (upper <$> trimSpace (String.list_ascii_of_string s)) in
  if negb (length clean =? 32)%nat then None
  else swapGUID <$> scanPairs clean.

Definition typeNames : list (string * string) := [
  ("C12A7328-F81F-11D2-BA4B-00A0C93EC93B", "EFI System");
  ("E3C9E316-0B5C-4DB8-817D-F92DF00215AE", "Microsoft Reserved");
  ("EBD0A0A2-B9E5-4433-87C0-68B6B72699C7", "Basic Data");
  ("DE94BBA4-06D1-4D40-A16A-BFD50179D6AC", "Windows RE");
  ("0FC63DAF-8483-4772-8E79-3D69D8477DE4", "Linux Filesystem");
  ("0657FD6D-A4AB-43C4-84E5-0933C84B4F4F", "Linux Swap");
  ("21686148-6449-6E6F-744E-656564454649", "BIOS Boot");
  ("E6D6D379-F507-44C2-A23C-238F2A3DF928", "Linux LVM");
  ("933AC7E1-2EB4-4F13-B844-0E14E2AEF915", "Linux Home");
  ("5808C8AA-7E8F-42E0-85D2-E1E90434CFB3", "Windows LDM") ]%string.

Definition TypeName_of (g : bytes) : string :=
  let s := GUID_String g in
  match list_find (λ kn, kn.1 = s) typeNames with Some (_, (_, n)) => n | None => s end.

(** ** gpt.go: the layout *)

Record Partition := mkPart {
  Index : Z; TypeGUID : string; TypeName : string; PartGUID : string; Name : list Z;
  FirstLBA : Z; LastLBA : Z; Attributes : Z; MBRType : Z; Bootable : bool }.

Definition Offset (p : Partition) (sectorSize : Z) : Z := i64 (i64 (FirstLBA p) * sectorSize).
Definition Length (p : Partition) (sectorSize : Z) : Z :=
  i64 (i64 (u64 (LastLBA p - FirstLBA p + 1)) * sectorSize).

Record Range := mkRange { r_Offset : Z; r_Length : Z }.

Record DiskLayout := mkLayout {
  Scheme : string; SectorSize : Z; DiskSize : Z; DiskGUID : string;
  FirstUsableLBA : Z; LastUsableLBA : Z; AlternateLBA : Z;
  Partitions : list Partition; AuxRegions : list Range;
  PrimaryRegion : Range; BackupRegion : Range }.

Inductive layout_err :=
| LySectorSize | LyTooSmall | LyRead | LyNoMBR | LyNoGPT | LyHeaderSize | LyHeaderCRC | LyMyLBA
| LyEntrySize | LyEntryArray | LyEntriesCRC | LyPartOrder (i : Z) | LyPartPastEnd (i : Z) | LyBackupRegion
| LyCorruptGPT | LyManyExtended | LyNoPartitions | LyEBRPastEnd | LyEBRNoSignature | LyEBRLoop
| LyNotMultiple | LySmaller | LyRegionSizes | LyShort | LyPanic | LyBackupMissing | LyGUIDMismatch.

Definition gptSignature : bytes := [69; 70; 73; 32; 80; 65; 82; 84].
Definition gptHeaderSize : Z := 92.
Definition maxEntryBytes : Z := Z.shiftl 4 20.

Definition hasBootSig (sector : bytes) : bool :=
  (nth 510 sector 0 =? 0x55) && (nth 511 sector 0 =? 0xAA).

(** The header bytes with the CRC field cleared. *)
Definition crcInput (hdr : bytes) : bytes := WriteAt hdr 16 (zeros 4).

(** [utf16.Decode]: a surrogate pair is one code point, a lone surrogate U+FFFD. *)
Fixpoint utf16Decode (u : list Z) : list Z :=
  match u with
  | [] => []
  | c :: u' =>
      if (0xD800 <=? c) && (c <? 0xDC00) then
        match u' with
        | d :: u'' =>
            if (0xDC00 <=? d) && (d <? 0xE000)
            then (Z.lor (Z.shiftl (c - 0xD800) 10) (d - 0xDC00) + 0x10000) :: utf16Decode u''
            else 0xFFFD :: utf16Decode u'
        | [] => [0xFFFD]
        end
      else if (0xDC00 <=? c) && (c <? 0xE000) then 0xFFFD :: utf16Decode u'
      else c :: utf16Decode u'
  end.

Fixpoint utf16Units (b : bytes) : list Z :=
  match b with
  | lo :: hi :: b' => let c := le_get [lo; hi] in if c =? 0 then [] else c :: utf16Units b'
  | _ => []
  end.
Definition decodeUTF16Name (b : bytes) : list Z := utf16Decode (utf16Units b).

Definition readEntry (i : Z) (e : bytes) : Partition :=
  mkPart i (GUID_String (sub e 0 16)) (TypeName_of (sub e 0 16)) (GUID_String (sub e 16 16))
    (decodeUTF16Name (sub e 56 72)) (le_get (sub e 32 8)) (le_get (sub e 40 8)) (le_get (sub e 48 8)) 0 false.

(** The entries from slot [i] on; [n] are left. *)
Fixpoint partLoop (entries : bytes) (entrySize sectorSize diskSize i : Z) (n : nat)
    : result layout_err (list Partition) :=
  match n with
  | O => Ok []
  | S n =>
      let e := sub entries (Z.to_nat (i * entrySize)) (Z.to_nat entrySize) in
      if GUID_IsZero (sub e 0 16) then partLoop entries entrySize sectorSize diskSize (i + 1) n
      else
        let p := readEntry i e in
        if LastLBA p <? FirstLBA p then Err (LyPartOrder i)
        else if diskSize <? i64 (Offset p sectorSize + Length p sectorSize) then Err (LyPartPastEnd i)
        else let! ps := partLoop entries entrySize sectorSize diskSize (i + 1) n in Ok (p :: ps)
  end.

(** The header fields. *)
Definition h_headerSize (hdr : bytes) : Z := le_get (sub hdr 12 4).
Definition h_crc (hdr : bytes) : Z := le_get (sub hdr 16 4).
Definition h_myLBA (hdr : bytes) : Z := le_get (sub hdr 24 8).
Definition h_altLBA (hdr : bytes) : Z := le_get (sub hdr 32 8).
Definition h_entryLBA (hdr : bytes) : Z := le_get (sub hdr 72 8).
Definition h_entryCount (hdr : bytes) : Z := le_get (sub hdr 80 4).
Definition h_entrySize (hdr : bytes) : Z := le_get (sub hdr 84 4).
Definition h_entriesCRC (hdr : bytes) : Z := le_get (sub hdr 88 4).
Definition h_entryBytes (hdr : bytes) : Z := i64 (h_entryCount hdr * h_entrySize hdr).

(** Signature, size and checksum of a header sector. *)
Definition headerCheck (hdr : bytes) (sectorSize : Z) (missing : layout_err) : result layout_err unit :=
  if negb (bool_decide (sub hdr 0 8 = gptSignature)) then Err missing
  else if (h_headerSize hdr <? gptHeaderSize) || (sectorSize <? h_headerSize hdr) then Err LyHeaderSize
  else if negb (ChecksumIEEE (crcInput (take (Z.to_nat (h_headerSize hdr)) hdr)) =? h_crc hdr) then Err LyHeaderCRC
  else Ok tt.

(** Byte offsets of the entry array and of the backup structures, and the layout. *)
Definition entryOff (hdr : bytes) (ss : Z) : Z := i64 (i64 (h_entryLBA hdr) * ss).
Definition backupStart (hdr : bytes) (ss : Z) : Z := i64 (i64 (i64 (h_altLBA hdr) * ss) - h_entryBytes hdr).
Definition backupLen (hdr : bytes) (ss : Z) : Z :=
  i64 (i64 (i64 (i64 (h_altLBA hdr) * ss) + ss) - backupStart hdr ss).

Definition layout_of (hdr : bytes) (parts : list Partition) (diskSize ss : Z) : DiskLayout :=
  mkLayout "gpt" ss diskSize (GUID_String (sub hdr 56 16)) (le_get (sub hdr 40 8)) (le_get (sub hdr 48 8))
    (h_altLBA hdr) parts [] (mkRange 0 (i64 (entryOff hdr ss + h_entryBytes hdr)))
    (mkRange (backupStart hdr ss) (backupLen hdr ss)).

Definition ParseWithSector (r : bytes) (diskSize sectorSize : Z) : result layout_err DiskLayout :=
  if (sectorSize <? 512) || (4096 <? sectorSize) || negb (Z.rem sectorSize 512 =? 0) then Err LySectorSize else
  if diskSize <? sectorSize * 3 then Err LyTooSmall else
  let! mbr := of_option LyRead (ReadAt r 0 sectorSize) in
  if negb (hasBootSig mbr) then Err LyNoMBR else
  let! hdr := of_option LyRead (ReadAt r sectorSize sectorSize) in
  let! _ := headerCheck hdr sectorSize LyNoGPT in
  if negb (h_myLBA hdr =? 1) then Err LyMyLBA else
  if (h_entrySize hdr <? 128) || negb (Z.rem (h_entrySize hdr) 8 =? 0) then Err LyEntrySize else
  if (h_entryBytes hdr <=? 0) || (maxEntryBytes <? h_entryBytes hdr) then Err LyEntryArray else
  let! entries := of_option LyRead (ReadAt r (entryOff hdr sectorSize) (h_entryBytes hdr)) in
  if negb (ChecksumIEEE entries =? h_entriesCRC hdr) then Err LyEntriesCRC else
  let! parts := partLoop entries (h_entrySize hdr) sectorSize diskSize 0 (Z.to_nat (h_entryCount hdr)) in
  if (backupStart hdr sectorSize <? 0) ||
     (diskSize <? i64 (backupStart hdr sectorSize + backupLen hdr sectorSize)) then Err LyBackupRegion else
  Ok (layout_of hdr parts diskSize sectorSize).

Definition VerifyBackupHeader (l : DiskLayout) (r : bytes) : result layout_err unit :=
  let! hdr := of_option LyRead (ReadAt r (i64 (i64 (AlternateLBA l) * SectorSize l)) (SectorSize l)) in
  let! _ := headerCheck hdr (SectorSize l) LyBackupMissing in
  if negb (String.eqb (GUID_String (sub hdr 56 16)) (DiskGUID l)) then Err LyGUIDMismatch else Ok tt.

Definition FindPartitionAt (l : DiskLayout) (off : Z) : option Partition :=
  snd <$> list_find (λ p, Offset p (SectorSize l) ≤ off < i64 (Offset p (SectorSize l) + Length p (SectorSize l)))
    (Partitions l).

(** ** mbr.go *)

Record mbrEntry := mkMbr { m_bootable : bool; m_typ : Z; m_startLBA : Z; m_sectors : Z }.

Definition readMBREntry (sector : bytes) (i : nat) : mbrEntry :=
  let e := sub sector (446 + i * 16) 16 in
  mkMbr (nth 0 e 0 =? 0x80) (nth 4 e 0) (le_get (sub e 8 4)) (le_get (sub e 12 4)).

Definition readMBREntries (sector : bytes) : list mbrEntry := readMBREntry sector <$> seq 0 4.

Definition isExtended (t : Z) : bool := (t =? 0x05) || (t =? 0x0F).
Definition unusedEntry (e : mbrEntry) : bool := (m_typ e =? 0) || (m_sectors e =? 0).

Definition mbrTypeNames : list (Z * string) := [
  (0x01, "FAT12"); (0x04, "FAT16"); (0x06, "FAT16B"); (0x07, "NTFS/exFAT");
  (0x0B, "FAT32"); (0x0C, "FAT32"); (0x0E, "FAT16 LBA"); (0x05, "Extended"); (0x0F, "Extended LBA");
  (0x82, "Linux swap"); (0x83, "Linux"); (0x8E, "Linux LVM"); (0x27, "Windows RE"); (0xEE, "GPT protective") ]%string.
Definition mbrTypeName (t : Z) : string :=
  match list_find (λ tn, tn.1 = t) mbrTypeNames with Some (_, (_, n)) => n | None => "" end.

Definition mbrPartition (slot base : Z) (e : mbrEntry) : Partition :=
  let first := base + m_startLBA e in
  mkPart slot "" (mbrTypeName (m_typ e)) "" [] first (first + m_sectors e - 1) 0 (m_typ e) (m_bootable e).

(** The four primary slots: partitions, next slot, extended entry, lowest start. *)
Record mbr_scan := mkScan { ms_parts : list Partition; ms_slot : Z; ms_ext : option mbrEntry; ms_first : Z }.

Definition scanPrimary (st : mbr_scan) (e : mbrEntry) : result layout_err mbr_scan :=
  if unusedEntry e then Ok st
  else
    let first := if (ms_first st =? 0) || (m_startLBA e <? ms_first st) then m_startLBA e else ms_first st in
    if isExtended (m_typ e) then
      match ms_ext st with
      | Some _ => Err LyManyExtended
      | None => Ok (mkScan (ms_parts st) (ms_slot st) (Some e) first)
      end
    else Ok (mkScan (ms_parts st ++ [mbrPartition (ms_slot st) 0 e]) (ms_slot st + 1) (ms_ext st) first).

Fixpoint scanPrimaries (st : mbr_scan) (es : list mbrEntry) : result layout_err mbr_scan :=
  match es with
  | [] => Ok st
  | e :: es => let! st := scanPrimary st e in scanPrimaries st es
  end.

(** The chain from the EBR at [ebrLBA]; [n] is what [maxLogicals] leaves. *)
Fixpoint walkEBR (r : bytes) (sectorSize extStart diskSize ebrLBA slot : Z) (n : nat)
    : result layout_err (list Partition * list Range) :=
  match n with
  | O => Err LyEBRLoop
  | S n =>
      let off := i64 (ebrLBA * sectorSize) in
      if diskSize <=? off then Err LyEBRPastEnd else
      let! buf := of_option LyRead (ReadAt r off sectorSize) in
      if negb (hasBootSig buf) then Err LyEBRNoSignature else
      let e0 := readMBREntry buf 0 in
      let e1 := readMBREntry buf 1 in
      let here := if unusedEntry e0 then [] else [mbrPartition slot ebrLBA e0] in
      if unusedEntry e1 then Ok (here, [mkRange off sectorSize])
      else
        let! pr := walkEBR r sectorSize extStart diskSize (extStart + m_startLBA e1) (slot + len here) n in
        Ok (here ++ pr.1, mkRange off sectorSize :: pr.2)
  end.

Definition walkEBRChain (r : bytes) (sectorSize extStart diskSize slot : Z) : result layout_err (list Partition * list Range) :=
  walkEBR r sectorSize extStart diskSize extStart slot 128.

Definition parseMBR (r : bytes) (diskSize sectorSize : Z) (sector : bytes) : result layout_err DiskLayout :=
  let! st := scanPrimaries (mkScan [] 0 None 0) (readMBREntries sector) in
  match ms_parts st, ms_ext st with
  | [], None => Err LyNoPartitions
  | _, _ =>
      let! pr := match ms_ext st with
                 | Some ext => walkEBRChain r sectorSize (m_startLBA ext) diskSize (ms_slot st)
                 | None => Ok ([], [])
                 end in
      Ok (mkLayout "mbr" sectorSize diskSize "" 0 0 0 (ms_parts st ++ pr.1) pr.2
        (mkRange 0 (i64 (ms_first st * sectorSize))) (mkRange 0 0))
  end.

Definition isProtective (e : mbrEntry) : bool := m_typ e =? 0xEE.
Definition isReal (e : mbrEntry) : bool := negb (isProtective e) && negb (unusedEntry e).

Definition Parse (r : bytes) (diskSize : Z) : result layout_err DiskLayout :=
  match ParseWithSector r diskSize 512 with
  | Ok l => Ok l
  | Err firstErr =>
      match ParseWithSector r diskSize 4096 with
      | Ok l => Ok l
      | Err _ =>
          match ReadAt r 0 512 with
          | Some sector =>
              if hasBootSig sector then
                let entries := readMBREntries sector in
                let protective := existsb isProtective entries in
                let real := existsb isReal entries in
                if protective && negb real then Err LyCorruptGPT
                else if real then parseMBR r diskSize 512 sector
                else Err firstErr
              else Err firstErr
          | None => Err firstErr
          end
      end
  end.

(** ** relocate.go *)

Definition recomputeHeaderCRC (hdr : bytes) : bytes :=
  let hdr := WriteAt hdr 16 (zeros 4) in WriteAt hdr 16 (PutUint32 (ChecksumIEEE hdr)).

Definition RelocateGPT (l : DiskLayout) (capturedPrimary capturedBackup : bytes) (newDiskSize : Z)
    : result layout_err (bytes * Z * bytes) :=
  if String.eqb (Scheme l) "mbr" then Ok (capturedPrimary, 0, []) else
  let ss := SectorSize l in
  if negb (Z.rem newDiskSize ss =? 0) then Err LyNotMultiple else
  if newDiskSize <? DiskSize l then Err LySmaller else
  if negb (len capturedPrimary =? r_Length (PrimaryRegion l)) || negb (len capturedBackup =? r_Length (BackupRegion l))
  then Err LyRegionSizes else
  if newDiskSize =? DiskSize l then Ok (capturedPrimary, r_Offset (BackupRegion l), capturedBackup) else
  if len capturedPrimary <? ss + gptHeaderSize then Err LyShort else
  let hdr := drop (Z.to_nat ss) capturedPrimary in
  let headerSize := h_headerSize hdr in
  let entryBytes := h_entryBytes hdr in
  let entrySectors := Z.quot (entryBytes + ss - 1) ss in
  let newLastLBA := Z.quot newDiskSize ss - 1 in
  let newBackupEntryLBA := newLastLBA - entrySectors in
  (* slices out of range panic; a header of fewer than 20 bytes has no checksum field *)
  if (len capturedPrimary <? ss + headerSize) || (headerSize <? 20) || (entryBytes <? 0) ||
     (len capturedBackup <? entryBytes) || (ss <? headerSize)
  then Err LyPanic else
  let n := Z.to_nat headerSize in
  let patched := WriteAt capturedPrimary (ss + 32) (PutUint64 newLastLBA) in
  let pHdr := recomputeHeaderCRC (sub patched (Z.to_nat ss) n) in
  let primary := WriteAt patched ss pHdr in
  let copied := WriteAt (take (Z.to_nat entryBytes) capturedBackup ++ zeros (Z.to_nat ss)) entryBytes pHdr in
  let swapped := WriteAt (WriteAt (WriteAt copied (entryBytes + 24) (PutUint64 newLastLBA))
                   (entryBytes + 32) (PutUint64 1)) (entryBytes + 72) (PutUint64 newBackupEntryLBA) in
  let backup := WriteAt swapped entryBytes (recomputeHeaderCRC (sub swapped (Z.to_nat entryBytes) n)) in
  Ok (primary, newBackupEntryLBA * ss, backup).

(** ** machine.go: validation *)

Record PartitionMember := mkMember { pm_Index : Z; pm_Kind : string; pm_BackupID : bytes; pm_Reason : string }.

Record DiskCapture := mkCaptured {
  dc_Source : string; dc_Layout : DiskLayout; PrimaryGPT : bytes; BackupGPT : bytes; AuxBytes : list bytes; Members : list PartitionMember }.

Inductive machine_err :=
| MnNoDisks | MnUnknownPartition (d i : Z) | MnTwice (d i : Z) | MnNoBackup (d i : Z) | MnKind (d i : Z)
| MnUncovered (d i : Z) | MnPrimaryLen (d : Z) | MnBackupLen (d : Z) | MnAuxCount (d : Z) | MnAuxLen (d i : Z).

Fixpoint checkMembers (d : Z) (byIndex : gset Z) (ms : list PartitionMember) (seen : gset Z) : result machine_err (gset Z) :=
  match ms with
  | [] => Ok seen
  | m :: ms =>
      let i := pm_Index m in
      if negb (bool_decide (i ∈ byIndex)) then Err (MnUnknownPartition d i)
      else if bool_decide (i ∈ seen) then Err (MnTwice d i)
      else if String.eqb (pm_Kind m) "volume" || String.eqb (pm_Kind m) "raw" then
        if bool_decide (pm_BackupID m = []) then Err (MnNoBackup d i) else checkMembers d byIndex ms ({[i]} ∪ seen)
      else if String.eqb (pm_Kind m) "skipped" then checkMembers d byIndex ms ({[i]} ∪ seen)
      else Err (MnKind d i)
  end.

Fixpoint checkAux (d i : Z) (bs : list bytes) (rs : list Range) : result machine_err unit :=
  match bs, rs with
  | b :: bs, r :: rs => if negb (len b =? r_Length r) then Err (MnAuxLen d i) else checkAux d (i + 1) bs rs
  | _, _ => Ok tt
  end.

Definition validateDisk (d : Z) (c : DiskCapture) : result machine_err unit :=
  let parts := Partitions (dc_Layout c) in
  let! seen := checkMembers d (list_to_set (Index <$> parts)) (Members c) ∅ in
  match list_find (λ p, Index p ∉ seen) parts with
  | Some (_, p) => Err (MnUncovered d (Index p))
  | None =>
      if negb (len (PrimaryGPT c) =? r_Length (PrimaryRegion (dc_Layout c))) then Err (MnPrimaryLen d)
      else if negb (len (BackupGPT c) =? r_Length (BackupRegion (dc_Layout c))) then Err (MnBackupLen d)
      else if negb (length (AuxBytes c) =? length (AuxRegions (dc_Layout c)))%nat then Err (MnAuxCount d)
      else checkAux d 0 (AuxBytes c) (AuxRegions (dc_Layout c))
  end.

Fixpoint validateDisks (d : Z) (ds : list DiskCapture) : result machine_err unit :=
  match ds with
  | [] => Ok tt
  | c :: ds => let! _ := validateDisk d c in validateDisks (d + 1) ds
  end.

Definition validate (disks : list DiskCapture) : result machine_err unit :=
  match disks with [] => Err MnNoDisks | _ => validateDisks 0 disks end.

(** ** GUID text *)

Lemma hex_digit_cases (P : Z → Prop) n : 0 ≤ n < 16 →
  P 0 → P 1 → P 2 → P 3 → P 4 → P 5 → P 6 → P 7 → P 8 → P 9 → P 10 → P 11 → P 12 → P 13 → P 14 → P 15 → P n.
Proof.
  intros Hn. intros. assert (n = 0 ∨ n = 1 ∨ n = 2 ∨ n = 3 ∨ n = 4 ∨ n = 5 ∨ n = 6 ∨ n = 7 ∨ n = 8 ∨ n = 9 ∨
    n = 10 ∨ n = 11 ∨ n = 12 ∨ n = 13 ∨ n = 14 ∨ n = 15) as Hc by lia.
  destruct_or!; by subst.
Qed.

(** A hexadecimal digit is read back, is upper case, no space and no dash. *)
Definition plain_char (c : ascii) : Prop := upper c = c ∧ isSpace c = false ∧ c ≠ "-"%char.

Lemma hexVal_hexDigit n : 0 ≤ n < 16 → hexVal (hexDigit n) = Some n.
Proof. intros Hn. pattern n. apply hex_digit_cases; [done|reflexivity..]. Qed.

Lemma hexDigit_plain n : 0 ≤ n < 16 → plain_char (hexDigit n).
Proof. intros Hn. pattern n. apply hex_digit_cases; [done|split_and!; [reflexivity|reflexivity|discriminate]..]. Qed.

Lemma length_hexN w v : length (hexN w v) = w.
Proof. revert v. induction w as [|w IH]; intros v; [done|]. cbn [hexN]. rewrite length_app, IH. cbn. lia. Qed.

Lemma hexN_plain w v : Forall plain_char (hexN w v).
Proof.
  revert v. induction w as [|w IH]; intros v; [constructor|]. cbn [hexN]. apply Forall_app. split; [apply IH|].
  constructor; [|constructor]. apply hexDigit_plain. apply Z.mod_pos_bound. lia.
Qed.

(** The digits of [256 v + b] end with those of the byte [b]. *)
Lemma hexN_byte w v b : is_byte b → hexN (S (S w)) (256 * v + b) = hexN w v ++ hexN 2 b.
Proof.
  intros Hb. cbn [hexN]. rewrite <- app_assoc. cbn [app].
  assert ((256 * v + b) / 16 = 16 * v + b / 16) as -> by (replace (256 * v + b) with (16 * v * 16 + b) by lia; rewrite Z.div_add_l by lia; lia).
  assert ((256 * v + b) mod 16 = b mod 16) as -> by (replace (256 * v + b) with (b + (16 * v) * 16) by lia; apply Z_mod_plus_full).
  unfold is_byte in Hb. pose proof (Z.div_pos b 16 ltac:(lia) ltac:(lia)). pose proof (Z.div_lt_upper_bound b 16 16 ltac:(lia) ltac:(lia)).
  assert ((16 * v + b / 16) / 16 = v) as -> by (symmetry; apply Z.div_unique with (b / 16); lia).
  assert ((16 * v + b / 16) mod 16 = b / 16) as -> by (symmetry; apply Z.mod_unique with v; lia).
  by rewrite (Z.mod_small (b / 16)) by lia.
Qed.

Lemma scanHex2_hexN b c1 c2 : is_byte b → hexN 2 b = [c1; c2] → scanHex2 c1 c2 = Some b.
Proof.
  intros Hb [= <- <-]. unfold is_byte in Hb.
  pose proof (Z.div_pos b 16 ltac:(lia) ltac:(lia)). pose proof (Z.div_lt_upper_bound b 16 16 ltac:(lia) ltac:(lia)).
  pose proof (Z.mod_pos_bound b 16 ltac:(lia)). rewrite (Z.mod_small (b / 16)) by lia.
  unfold scanHex2. destruct (hexDigit_plain (b / 16) ltac:(lia)) as (_ & -> & _). cbn [andb].
  rewrite !hexVal_hexDigit by lia. f_equal. pose proof (Z.div_mod b 16 ltac:(lia)). lia.
Qed.

Lemma scanPairs_bytes l : bytes_ok l → scanPairs (concat (hexN 2 <$> l)) = Some l.
Proof.
  induction 1 as [|b l Hb Hl IH]; [done|]. rewrite fmap_cons. cbn [concat].
  destruct (hexN 2 b) as [|c1 [|c2 [|]]] eqn:Hh; try (apply (f_equal length) in Hh; by rewrite length_hexN in Hh).
  cbn [app scanPairs]. by rewrite IH, (scanHex2_hexN b).
Qed.

Definition safe_char (c : ascii) : Prop := upper c = c ∧ isSpace c = false.

Lemma plain_safe l : Forall plain_char l → Forall safe_char l.
Proof. intros H. eapply Forall_impl; [exact H|]. by intros c (? & ? & _). Qed.

Lemma trimSpace_safe l : Forall safe_char l → trimSpace l = l.
Proof.
  assert (Hd : ∀ k, Forall safe_char k → dropSpace k = k) by (destruct 1 as [|c k (_ & Hs)]; [done|]; cbn; by rewrite Hs).
  intros Hl. unfold trimSpace. rewrite (Hd l Hl), Hd by (by apply Forall_reverse). apply reverse_involutive.
Qed.

Lemma upper_safe l : Forall safe_char l → upper <$> l = l.
Proof. induction 1 as [|c l (Hu & _)]; [done|]. rewrite fmap_cons. by f_equal. Qed.

Lemma filter_plain l : Forall plain_char l → filter (λ c, c ≠ "-"%char) l = l.
Proof. induction 1 as [|c l (_ & _ & Hd)]; [done|]. rewrite filter_cons_True by done. by f_equal. Qed.

Lemma concat_hexN_plain l : Forall plain_char (concat (hexN 2 <$> l)).
Proof. induction l as [|b l IH]; [constructor|]. rewrite fmap_cons. cbn [concat]. apply Forall_app. split; [apply hexN_plain|done]. Qed.

Lemma hexN_le_get l : bytes_ok l → hexN (2 * length l) (le_get l) = concat (hexN 2 <$> reverse l).
Proof.
  induction 1 as [|b l Hb Hl IH]; [done|]. cbn [length le_get].
  replace (2 * S (length l))%nat with (S (S (2 * length l))) by lia. rewrite Z.add_comm, hexN_byte, IH by done.
  rewrite reverse_cons, fmap_app, concat_app. cbn [fmap list_fmap concat]. by rewrite app_nil_r.
Qed.

Definition hexText (l : bytes) : list ascii := concat (hexN 2 <$> l).

Lemma length_hexText l : length (hexText l) = (2 * length l)%nat.
Proof.
  unfold hexText. induction l as [|b l IH]; [done|]. rewrite fmap_cons. cbn [concat length].
  rewrite length_app, length_hexN, IH. lia.
Qed.

Lemma hexText_app l k : hexText (l ++ k) = hexText l ++ hexText k.
Proof. unfold hexText. by rewrite fmap_app, concat_app. Qed.

(** The text is the sixteen bytes in display order, with dashes. *)
Lemma guidChars_bytes g : bytes_ok g → length g = 16%nat →
  guidChars g = hexText (reverse (sub g 0 4)) ++ ["-"%char] ++ hexText (reverse (sub g 4 2)) ++ ["-"%char] ++
    hexText (reverse (sub g 6 2)) ++ ["-"%char] ++ hexText (sub g 8 2) ++ ["-"%char] ++ hexText (sub g 10 6).
Proof.
  intros Hok Hlen. unfold guidChars, hexText.
  assert (Hl : ∀ o n, (o + n ≤ 16)%nat → length (sub g o n) = n) by (intros; apply length_sub; lia).
  assert (Hw : ∀ o n, (o + n ≤ 16)%nat → hexN (2 * n) (le_get (sub g o n)) = concat (hexN 2 <$> reverse (sub g o n))).
  { intros o n Hon. rewrite <- (Hl o n Hon) at 1. apply hexN_le_get. auto with bytes. }
  pose proof (Hw 0%nat 4%nat ltac:(lia)) as H1. pose proof (Hw 4%nat 2%nat ltac:(lia)) as H2.
  pose proof (Hw 6%nat 2%nat ltac:(lia)) as H3. change (2 * 4)%nat with 8%nat in H1. change (2 * 2)%nat with 4%nat in H2, H3.
  rewrite H1, H2, H3. do 6 f_equal. unfold be_get.
  pose proof (hexN_le_get (reverse (sub g 8 2))) as Hb. rewrite length_reverse, Hl, reverse_involutive in Hb by lia.
  change (2 * 2)%nat with 4%nat in Hb. rewrite Hb; [done|]. apply Forall_reverse. by apply bytes_ok_sub.
Qed.

Lemma swap_display g : length g = 16%nat →
  swapGUID (reverse (sub g 0 4) ++ reverse (sub g 4 2) ++ reverse (sub g 6 2) ++ sub g 8 2 ++ sub g 10 6) = g.
Proof. intros Hlen. do 17 (destruct g as [|? g]; try discriminate Hlen). reflexivity. Qed.

Lemma filter_dash : filter (λ c, c ≠ "-"%char) ["-"%char] = [].
Proof. reflexivity. Qed.

Lemma hexText_safe l : Forall safe_char (hexText l).
Proof. apply plain_safe, concat_hexN_plain. Qed.

Lemma ParseGUID_String g : bytes_ok g → length g = 16%nat → ParseGUID (GUID_String g) = Some g.
Proof.
  intros Hok Hlen. unfold ParseGUID, GUID_String. rewrite String.list_ascii_of_string_of_list_ascii.
  assert (Hdash : Forall safe_char ["-"%char]) by (repeat constructor).
  assert (Hsafe : Forall safe_char (guidChars g)).
  { rewrite (guidChars_bytes g Hok Hlen), !Forall_app. auto 12 using hexText_safe. }
  rewrite trimSpace_safe, upper_safe by done. rewrite (guidChars_bytes g Hok Hlen).
  assert (Hf : ∀ l, filter (λ c, c ≠ "-"%char) (hexText l) = hexText l) by (intros; apply filter_plain, concat_hexN_plain).
  rewrite !filter_app, !Hf, !filter_dash. cbn [app]. rewrite <- !hexText_app.
  set (d := reverse (sub g 0 4) ++ _).
  assert (Hd : bytes_ok d).
  { unfold d. rewrite !bytes_ok_app. unfold bytes_ok. rewrite !Forall_reverse. fold (bytes_ok).
    split_and!; apply bytes_ok_sub; done. }
  assert (Hdl : length (hexText d) = 32%nat).
  { rewrite length_hexText. unfold d. rewrite !length_app, !length_reverse, !length_sub by lia. done. }
  rewrite Hdl. cbn [Nat.eqb negb]. unfold hexText. rewrite scanPairs_bytes by done. cbn [fmap option_fmap option_map].
  f_equal. by apply swap_display.
Qed.
