(* ===== verification/Gpt.v ===== *)
(** * Theorems on disk layouts

    What an accepted GPT satisfies; relocating it to a larger disk gives a disk
    that parses to the same partitions with its backup at the new end; the EBR
    walk stays inside the disk and ends; validated machine manifests cover every
    partition; GUID text is read back. *)

From S2P Require Import Prelude GoBytes Hashes DiskLayout.
From Stdlib Require Import Ascii.

#[local] Strategy 1000 [i64 u64 ChecksumIEEE entryOff h_entryBytes backupStart backupLen].

(** ** What a parsed GPT satisfies *)

Record gpt_ok (r : bytes) (diskSize ss : Z) (mbr hdr entries : bytes) (parts : list Partition) : Prop := {
  go_ss : 512 ≤ ss ≤ 4096 ∧ Z.rem ss 512 = 0;
  go_size : ss * 3 ≤ diskSize;
  go_mbr : ReadAt r 0 ss = Some mbr;
  go_sig : hasBootSig mbr = true;
  go_hdr : ReadAt r ss ss = Some hdr;
  go_check : headerCheck hdr ss LyNoGPT = Ok tt;
  go_my : h_myLBA hdr = 1;
  go_esize : 128 ≤ h_entrySize hdr ∧ Z.rem (h_entrySize hdr) 8 = 0;
  go_ebytes : 0 < h_entryBytes hdr ≤ maxEntryBytes;
  go_entries : ReadAt r (entryOff hdr ss) (h_entryBytes hdr) = Some entries;
  go_ecrc : ChecksumIEEE entries = h_entriesCRC hdr;
  go_parts : partLoop entries (h_entrySize hdr) ss diskSize 0 (Z.to_nat (h_entryCount hdr)) = Ok parts;
  go_backup : 0 ≤ backupStart hdr ss ∧ i64 (backupStart hdr ss + backupLen hdr ss) ≤ diskSize }.

Lemma of_option_Ok {E A} (e : E) (o : option A) a : of_option e o = Ok a → o = Some a.
Proof. destruct o; by intros [=->]. Qed.

Lemma ParseWithSector_inv r diskSize ss l :
  ParseWithSector r diskSize ss = Ok l →
  ∃ mbr hdr entries parts, gpt_ok r diskSize ss mbr hdr entries parts ∧ l = layout_of hdr parts diskSize ss.
Proof.
  unfold ParseWithSector. destruct (_ || _ || _) eqn:H1; [done|]. apply orb_false_iff in H1 as [[H1 H2]%orb_false_iff H3].
  destruct (diskSize <? ss * 3) eqn:H4; [done|]. intros H.
  apply rbind_Ok_inv in H as (mbr & Hmbr%of_option_Ok & H). destruct (hasBootSig mbr) eqn:Hsig; cbn [negb] in H; [|done].
  apply rbind_Ok_inv in H as (hdr & Hhdr%of_option_Ok & H). apply rbind_Ok_inv in H as ([] & Hck & H).
  destruct (h_myLBA hdr =? 1) eqn:Hmy; cbn [negb] in H; [|done].
  destruct (_ || _) eqn:He; [done|]. apply orb_false_iff in He as [He1 He2].
  destruct (_ || _) eqn:Hb; [done|]. apply orb_false_iff in Hb as [Hb1 Hb2].
  apply rbind_Ok_inv in H as (entries & Hent%of_option_Ok & H).
  destruct (ChecksumIEEE entries =? h_entriesCRC hdr) eqn:Hcrc; cbn [negb] in H; [|done].
  apply rbind_Ok_inv in H as (parts & Hparts & H). destruct (_ || _) eqn:Hbk; [done|].
  apply orb_false_iff in Hbk as [Hbk1 Hbk2]. injection H as <-.
  apply negb_false_iff in H3, He2. zbool. exists mbr, hdr, entries, parts.
  split; [|reflexivity]. split; try assumption; repeat split; assumption.
Qed.

Lemma ParseWithSector_ok r diskSize ss mbr hdr entries parts :
  gpt_ok r diskSize ss mbr hdr entries parts → ParseWithSector r diskSize ss = Ok (layout_of hdr parts diskSize ss).
Proof.
  intros [[[? ?] ?] ? Hmbr Hsig Hhdr Hck ? [? ?] [? ?] Hent ? Hparts [? ?]]. unfold ParseWithSector.
  rewrite !(proj2 (Z.ltb_ge _ _)) by lia. rewrite (proj2 (Z.eqb_eq (Z.rem ss 512) 0)) by done. cbn [orb negb].
  rewrite Hmbr. cbn [of_option rbind]. rewrite Hsig. cbn [negb]. rewrite Hhdr. cbn [of_option rbind]. rewrite Hck. cbn [rbind].
  rewrite (proj2 (Z.eqb_eq (h_myLBA hdr) 1)) by done. cbn [negb].
  rewrite (proj2 (Z.ltb_ge (h_entrySize hdr) 128)) by lia. rewrite (proj2 (Z.eqb_eq (Z.rem (h_entrySize hdr) 8) 0)) by done.
  cbn [orb negb]. rewrite (proj2 (Z.leb_gt (h_entryBytes hdr) 0)) by lia.
  rewrite (proj2 (Z.ltb_ge maxEntryBytes (h_entryBytes hdr))) by lia. cbn [orb].
  rewrite Hent. cbn [of_option rbind].
  rewrite (proj2 (Z.eqb_eq (ChecksumIEEE entries) _)) by done. cbn [negb]. rewrite Hparts. cbn [rbind].
  rewrite (proj2 (Z.ltb_ge (backupStart hdr ss) 0)) by lia. rewrite (proj2 (Z.ltb_ge diskSize _)) by lia. done.
Qed.

(** ** Headers with a fresh checksum *)

Lemma recompute_length X : 20 ≤ len X → length (recomputeHeaderCRC X) = length X.
Proof.
  intros H. unfold recomputeHeaderCRC.
  assert (Hz : length (WriteAt X 16 (zeros 4)) = length X) by (rewrite length_WriteAt; len).
  rewrite length_WriteAt; rewrite ?Hz; len.
Qed.

Lemma recompute_bytes X : bytes_ok X → bytes_ok (recomputeHeaderCRC X).
Proof. intros H. unfold recomputeHeaderCRC. auto with bytes. Qed.

Lemma recompute_sub X o n : 20 ≤ len X → (o + n ≤ 16)%nat ∨ (20 ≤ o)%nat → sub (recomputeHeaderCRC X) o n = sub X o n.
Proof.
  intros HX Hd. unfold recomputeHeaderCRC.
  assert (Hz : length (WriteAt X 16 (zeros 4)) = length X) by (rewrite length_WriteAt; len).
  rewrite sub_WriteAt_ne; rewrite ?Hz; [|len..]. rewrite sub_WriteAt_ne; [done|len..].
Qed.

Lemma recompute_crc X : 20 ≤ len X → bytes_ok X →
  h_crc (recomputeHeaderCRC X) = ChecksumIEEE (crcInput (recomputeHeaderCRC X)).
Proof.
  intros HX Hok. unfold h_crc, crcInput, recomputeHeaderCRC.
  assert (Hz : length (WriteAt X 16 (zeros 4)) = length X) by (rewrite length_WriteAt; len).
  rewrite sub_WriteAt_eq by len. rewrite le_get_PutUint32 by (apply ChecksumIEEE_u32; auto with bytes).
  rewrite WriteAt_WriteAt by len. by rewrite WriteAt_WriteAt by len.
Qed.

(** Fields that the header covers do not look at the rest of the sector. *)
Lemma headerCheck_recomputed X rest ss e :
  bytes_ok X → 92 ≤ len X ≤ ss → sub X 0 8 = gptSignature → h_headerSize X = len X →
  headerCheck (recomputeHeaderCRC X ++ rest) ss e = Ok tt.
Proof.
  intros Hok Hlen Hsig Hhs. pose proof (recompute_length X ltac:(lia)) as Hl.
  assert (Hin : ∀ o n, (o + n ≤ length X)%nat → sub (recomputeHeaderCRC X ++ rest) o n = sub (recomputeHeaderCRC X) o n)
    by (intros; apply sub_app_inside; lia).
  unfold headerCheck. rewrite Hin, recompute_sub, bool_decide_true by (lia || done). cbn [negb].
  assert (h_headerSize (recomputeHeaderCRC X ++ rest) = len X) as ->.
  { unfold h_headerSize. rewrite Hin, recompute_sub by lia. exact Hhs. }
  unfold gptHeaderSize. rewrite !(proj2 (Z.ltb_ge _ _)) by lia. cbn [orb].
  rewrite take_app_exact by lia. unfold h_crc. rewrite Hin by lia. fold (h_crc (recomputeHeaderCRC X)).
  rewrite recompute_crc by (lia || done). by rewrite Z.eqb_refl.
Qed.

Lemma headerCheck_inv hdr ss e :
  headerCheck hdr ss e = Ok tt → sub hdr 0 8 = gptSignature ∧ 92 ≤ h_headerSize hdr ≤ ss ∧
    ChecksumIEEE (crcInput (take (Z.to_nat (h_headerSize hdr)) hdr)) = h_crc hdr.
Proof.
  unfold headerCheck. case_bool_decide as Hs; cbn [negb]; [|done]. destruct (_ || _) eqn:Hh; [done|].
  destruct (_ =? _) eqn:Hc; cbn [negb]; [|done]. intros _. apply orb_false_iff in Hh as [? ?]. unfold gptHeaderSize in *. zbool. done.
Qed.

(** A larger disk refuses no partition a smaller one accepts. *)
Lemma partLoop_mono entries es ss D N n : D ≤ N → ∀ i ps,
  partLoop entries es ss D i n = Ok ps → partLoop entries es ss N i n = Ok ps.
Proof.
  intros Hle. induction n as [|n IH]; intros i ps; cbn [partLoop]; [done|].
  destruct (GUID_IsZero _); [apply IH|]. destruct (LastLBA _ <? FirstLBA _); [done|].
  destruct (D <? _) eqn:HD; [done|]. intros H. apply rbind_Ok_inv in H as (qs & Hqs & [= <-]).
  zbool. rewrite (proj2 (Z.ltb_ge N _)) by lia. by rewrite (IH _ _ Hqs).
Qed.

(** ** Relocation *)

Section relocate.
Context (r : bytes) (D ss N : Z) (mbr hdr entries cp cb : bytes) (parts : list Partition).
Hypothesis Hr : bytes_ok r.
Hypothesis Hlen : len r < 2 ^ 63.
Hypothesis Hgpt : gpt_ok r D ss mbr hdr entries parts.
Hypothesis Hcp : ReadAt r 0 (i64 (entryOff hdr ss + h_entryBytes hdr)) = Some cp.
Hypothesis Hcb : ReadAt r (backupStart hdr ss) (backupLen hdr ss) = Some cb.
Hypothesis HN : D < N < 2 ^ 63.
Hypothesis HNss : Z.rem N ss = 0.
Hypothesis Hafter : 2 * ss ≤ entryOff hdr ss.
Hypothesis Hwhole : Z.rem (h_entryBytes hdr) ss = 0.
Hypothesis Hroom : entryOff hdr ss + h_entryBytes hdr ≤ backupStart hdr ss.

Local Notation eo := (entryOff hdr ss).
Local Notation eb := (h_entryBytes hdr).
Local Notation hs := (h_headerSize hdr).

Lemma rl_ss : 512 ≤ ss ≤ 4096.
Proof. apply (go_ss _ _ _ _ _ _ _ Hgpt). Qed.

Lemma rl_eb : 0 < eb ≤ 2 ^ 22.
Proof. pose proof (go_ebytes _ _ _ _ _ _ _ Hgpt) as H. change maxEntryBytes with (2 ^ 22) in H. lia. Qed.

Lemma rl_entries : 0 ≤ eo ∧ eo + eb ≤ len r.
Proof. pose proof (ReadAt_inv _ _ _ _ (go_entries _ _ _ _ _ _ _ Hgpt)). lia. Qed.

Lemma rl_primary : i64 (eo + eb) = eo + eb.
Proof. pose proof rl_entries. apply i64_id. unfold is_i64. pose proof rl_eb. lia. Qed.

Lemma rl_cp : ReadAt r 0 (eo + eb) = Some cp ∧ len cp = eo + eb.
Proof.
  pose proof Hcp as H. rewrite rl_primary in H. split; [exact H|]. pose proof (ReadAt_inv _ _ _ _ H). lia.
Qed.

Lemma rl_backupLen h : eb = h_entryBytes h → backupLen h ss = ss + eb.
Proof.
  intros Heb. unfold backupLen, backupStart. rewrite i64_sub. rewrite <- Heb.
  replace (_ - (_ - eb)) with (ss + eb) by lia. apply i64_id. unfold is_i64. pose proof rl_ss. pose proof rl_eb. lia.
Qed.

Lemma rl_cb : len cb = ss + eb ∧ backupStart hdr ss + ss + eb ≤ D.
Proof.
  pose proof (ReadAt_inv _ _ _ _ Hcb) as (H1 & H2 & H3 & H4). rewrite (rl_backupLen hdr) in * by done.
  split; [done|]. pose proof (go_backup _ _ _ _ _ _ _ Hgpt) as [_ H]. rewrite (rl_backupLen hdr) in H by done.
  rewrite i64_id in H; [lia|]. unfold is_i64. pose proof rl_ss. pose proof rl_eb. lia.
Qed.

Lemma rl_hdr_len : len hdr = ss.
Proof. pose proof (ReadAt_inv _ _ _ _ (go_hdr _ _ _ _ _ _ _ Hgpt)). lia. Qed.

Lemma rl_hs : 92 ≤ hs ≤ ss.
Proof. pose proof (headerCheck_inv _ _ _ (go_check _ _ _ _ _ _ _ Hgpt)) as (_ & H & _). done. Qed.

Lemma rl_hdr_ok : bytes_ok hdr.
Proof. eapply bytes_ok_ReadAt; [exact Hr|]. apply (go_hdr _ _ _ _ _ _ _ Hgpt). Qed.

(** The captured primary region holds the header at LBA 1. *)
Lemma rl_cp_hdr : sub cp (Z.to_nat ss) (Z.to_nat ss) = hdr.
Proof.
  destruct rl_cp as [Hc Hl]. pose proof rl_ss. pose proof rl_entries. pose proof rl_eb.
  pose proof (ReadAt_prefix _ _ _ ss ss Hc ltac:(lia) ltac:(lia) ltac:(lia)) as Heq.
  rewrite (go_hdr _ _ _ _ _ _ _ Hgpt), ReadAt_sub in Heq by lia. by injection Heq.
Qed.

Lemma rl_field o n : (o + n ≤ Z.to_nat ss)%nat → sub (drop (Z.to_nat ss) cp) o n = sub hdr o n.
Proof. intros H. rewrite sub_drop, <- rl_cp_hdr at 1. by rewrite sub_sub. Qed.

(** The block count arithmetic of the new disk. *)
Definition newLast : Z := Z.quot N ss - 1.
Definition newEntryLBA : Z := newLast - Z.quot (eb + ss - 1) ss.

Lemma rl_newLast : newLast * ss = N - ss ∧ 0 ≤ newLast < 2 ^ 63.
Proof.
  pose proof rl_ss. pose proof (go_size _ _ _ _ _ _ _ Hgpt). unfold newLast.
  assert (N = ss * Z.quot N ss) by (pose proof (Z.quot_rem N ss ltac:(lia)); lia). nia.
Qed.

Lemma rl_newEntry : newEntryLBA * ss = N - ss - eb.
Proof.
  pose proof rl_ss. pose proof rl_eb. destruct rl_newLast as [H1 _]. unfold newEntryLBA.
  assert (Z.quot (eb + ss - 1) ss * ss = eb); [|lia].
  assert (eb = ss * Z.quot eb ss) as He by (pose proof (Z.quot_rem eb ss ltac:(lia)); lia).
  assert (Z.quot (eb + ss - 1) ss = Z.quot eb ss); [|lia].
  rewrite !Z.quot_div_nonneg in * by lia. symmetry. apply Z.div_unique with (ss - 1); lia.
Qed.

Lemma rl_space : eo + eb ≤ N - ss - eb.
Proof. destruct rl_cb. lia. Qed.

(** The patched primary header, before and after its checksum. *)
Definition patched : bytes := WriteAt (take (Z.to_nat hs) hdr) 32 (PutUint64 newLast).
Definition pHdr : bytes := recomputeHeaderCRC patched.
Definition newHdr : bytes := pHdr ++ drop (Z.to_nat hs) hdr.

Lemma len_cut : len (take (Z.to_nat hs) hdr) = hs.
Proof. pose proof rl_hs. pose proof rl_hdr_len. rewrite length_take. lia. Qed.

Lemma len_patched : len patched = hs.
Proof. pose proof rl_hs. pose proof len_cut. unfold patched. rewrite length_WriteAt by len. done. Qed.

Lemma len_pHdr : len pHdr = hs.
Proof. pose proof rl_hs. pose proof len_patched. unfold pHdr. rewrite recompute_length by lia. done. Qed.

Lemma patched_ok : bytes_ok patched.
Proof. unfold patched. pose proof rl_hdr_ok. auto with bytes. Qed.

(** The patch touches only the alternate address. *)
Lemma patched_field o n :
  (o + n ≤ Z.to_nat hs)%nat → (o + n ≤ 32)%nat ∨ (40 ≤ o)%nat → sub patched o n = sub hdr o n.
Proof.
  intros H Hd. pose proof rl_hs. pose proof len_cut. unfold patched. rewrite sub_WriteAt_ne by len. by rewrite sub_take.
Qed.

Lemma newHdr_field o n :
  (o + n ≤ 92)%nat → (o + n ≤ 16)%nat ∨ (20 ≤ o ∧ o + n ≤ 32)%nat ∨ (40 ≤ o)%nat → sub newHdr o n = sub hdr o n.
Proof.
  intros H Hd. pose proof rl_hs. pose proof len_pHdr. pose proof len_patched. unfold newHdr. rewrite sub_app_inside by lia.
  unfold pHdr. rewrite recompute_sub by lia. apply patched_field; lia.
Qed.

Lemma newHdr_alt : h_altLBA newHdr = newLast.
Proof.
  pose proof rl_hs. pose proof len_pHdr. pose proof len_patched. pose proof len_cut. destruct rl_newLast as [_ ?].
  unfold h_altLBA, newHdr. rewrite sub_app_inside by lia. unfold pHdr. rewrite recompute_sub by lia.
  unfold patched. rewrite sub_WriteAt_eq by len. apply le_get_PutUint64. unfold is_u64. lia.
Qed.

Lemma patched_sig : sub patched 0 8 = gptSignature.
Proof.
  pose proof rl_hs. rewrite patched_field by lia.
  by destruct (headerCheck_inv _ _ _ (go_check _ _ _ _ _ _ _ Hgpt)) as (? & _ & _).
Qed.

Lemma patched_hs : h_headerSize patched = len patched.
Proof. pose proof rl_hs. unfold h_headerSize at 1. rewrite patched_field, len_patched by lia. done. Qed.

Lemma newHdr_fields :
  h_myLBA newHdr = h_myLBA hdr ∧ h_entryLBA newHdr = h_entryLBA hdr ∧ h_entryCount newHdr = h_entryCount hdr ∧
  h_entrySize newHdr = h_entrySize hdr ∧ h_entriesCRC newHdr = h_entriesCRC hdr ∧ h_entryBytes newHdr = eb ∧
  entryOff newHdr ss = eo.
Proof.
  unfold h_entryBytes, entryOff, h_myLBA, h_entryLBA, h_entryCount, h_entrySize, h_entriesCRC.
  rewrite !newHdr_field by lia. done.
Qed.

(** The rebuilt backup header. *)
Definition swapped : bytes :=
  WriteAt (WriteAt (WriteAt pHdr 24 (PutUint64 newLast)) 32 (PutUint64 1)) 72 (PutUint64 newEntryLBA).

Lemma swapped_spec :
  len swapped = hs ∧ bytes_ok swapped ∧
  ∀ o n, (o + n ≤ Z.to_nat hs)%nat → (o + n ≤ 16)%nat ∨ (40 ≤ o ∧ o + n ≤ 72)%nat → sub swapped o n = sub hdr o n.
Proof.
  pose proof rl_hs. pose proof len_pHdr. pose proof len_patched.
  assert (Hw1 : length (WriteAt pHdr 24 (PutUint64 newLast)) = length pHdr) by (rewrite length_WriteAt; len).
  assert (Hw2 : length (WriteAt (WriteAt pHdr 24 (PutUint64 newLast)) 32 (PutUint64 1)) = length pHdr)
    by (rewrite length_WriteAt; rewrite ?Hw1; len).
  split_and!.
  - unfold swapped. rewrite length_WriteAt; rewrite ?Hw2; len.
  - unfold swapped, pHdr. pose proof patched_ok. auto 10 using recompute_bytes with bytes.
  - intros o n Hin Hd. unfold swapped.
    rewrite sub_WriteAt_ne; rewrite ?Hw2; [|len..]. rewrite sub_WriteAt_ne; rewrite ?Hw1; [|len..].
    rewrite sub_WriteAt_ne; [|len..]. unfold pHdr. rewrite recompute_sub by lia. apply patched_field; lia.
Qed.

Lemma swapped_check rest e : headerCheck (recomputeHeaderCRC swapped ++ rest) ss e = Ok tt.
Proof.
  pose proof rl_hs. destruct swapped_spec as (Hl & Hok & Hf). apply headerCheck_recomputed; [done|lia|..].
  - rewrite Hf by lia. by destruct (headerCheck_inv _ _ _ (go_check _ _ _ _ _ _ _ Hgpt)) as (? & _ & _).
  - unfold h_headerSize at 1. rewrite Hf by lia. done.
Qed.

Definition newPrimary : bytes := WriteAt cp ss pHdr.
Definition newBackup : bytes :=
  WriteAt (take (Z.to_nat eb) cb ++ zeros (Z.to_nat ss)) eb (recomputeHeaderCRC swapped).

Lemma len_newPrimary : len newPrimary = eo + eb.
Proof.
  destruct rl_cp as [_ Hl]. pose proof len_pHdr. pose proof rl_hs. pose proof rl_eb. unfold newPrimary.
  rewrite length_WriteAt; lia.
Qed.

Lemma len_newBackup : len newBackup = eb + ss.
Proof.
  destruct rl_cb as [Hl _]. destruct swapped_spec as (Hs & _). pose proof rl_hs. pose proof rl_ss. pose proof rl_eb. unfold newBackup.
  pose proof (recompute_length swapped ltac:(lia)).
  assert (length (take (Z.to_nat eb) cb ++ zeros (Z.to_nat ss)) = Z.to_nat (eb + ss)) as Ht by (rewrite length_app, length_take, length_zeros; lia).
  rewrite length_WriteAt; rewrite ?Ht; lia.
Qed.

(** The patches made in place are those of the header slice. *)
Lemma primary_slice : WriteAt cp (ss + 32) (PutUint64 newLast) = WriteAt cp ss patched.
Proof.
  destruct rl_cp as [_ Hl]. pose proof rl_ss. pose proof rl_hs. pose proof rl_eb. pose proof len_cut.
  assert (Hs : sub cp (Z.to_nat ss) (Z.to_nat hs) = take (Z.to_nat hs) hdr)
    by (rewrite take_sub, <- (rl_field 0), sub_drop by lia; f_equal; lia).
  rewrite <- (WriteAt_own cp ss (Z.to_nat hs)) at 1 by lia. rewrite Hs. apply WriteAt_slice; len.
Qed.

Lemma backup_slice b : eb + ss ≤ len b →
  WriteAt (WriteAt (WriteAt (WriteAt b eb pHdr) (eb + 24) (PutUint64 newLast)) (eb + 32) (PutUint64 1))
    (eb + 72) (PutUint64 newEntryLBA) = WriteAt b eb swapped.
Proof.
  intros Hb. pose proof rl_hs. pose proof rl_eb. pose proof len_pHdr. pose proof len_patched.
  assert (Hw1 : length (WriteAt pHdr 24 (PutUint64 newLast)) = length pHdr) by (rewrite length_WriteAt; len).
  assert (Hw2 : length (WriteAt (WriteAt pHdr 24 (PutUint64 newLast)) 32 (PutUint64 1)) = length pHdr)
    by (rewrite length_WriteAt; rewrite ?Hw1; len).
  rewrite !WriteAt_slice; rewrite ?Hw2, ?Hw1, ?length_PutUint64; [reflexivity|lia..].
Qed.

Lemma relocate_eq :
  RelocateGPT (layout_of hdr parts D ss) cp cb N = Ok (newPrimary, newEntryLBA * ss, newBackup).
Proof.
  destruct rl_cp as [_ Hl]. destruct rl_cb as [Hb _]. pose proof rl_ss. pose proof rl_hs. pose proof rl_eb. pose proof rl_entries.
  unfold RelocateGPT. cbn [layout_of Scheme SectorSize DiskSize PrimaryRegion BackupRegion r_Length r_Offset String.eqb Ascii.eqb Bool.eqb].
  rewrite (proj2 (Z.eqb_eq (Z.rem N ss) 0)) by done. cbn [negb]. rewrite (proj2 (Z.ltb_ge N D)) by lia.
  rewrite rl_primary, (rl_backupLen hdr) by done. rewrite !(proj2 (Z.eqb_eq _ _)) by lia. cbn [negb orb].
  rewrite (proj2 (Z.eqb_neq N D)) by lia. unfold gptHeaderSize. rewrite (proj2 (Z.ltb_ge (len cp) _)) by lia.
  assert (Hh : h_headerSize (drop (Z.to_nat ss) cp) = hs) by (unfold h_headerSize; by rewrite rl_field by lia).
  assert (He : h_entryBytes (drop (Z.to_nat ss) cp) = eb)
    by (unfold h_entryBytes, h_entryCount, h_entrySize; by rewrite !rl_field by lia).
  assert (Hps : sub (WriteAt cp ss patched) (Z.to_nat ss) (Z.to_nat hs) = patched)
    by (pose proof len_patched; apply sub_WriteAt_eq; lia).
  cbv zeta. rewrite Hh, He. rewrite !(proj2 (Z.ltb_ge _ _)) by lia. cbn [orb]. fold newLast newEntryLBA.
  rewrite primary_slice, Hps. fold pHdr. pose proof len_pHdr. pose proof len_patched. destruct swapped_spec as (Hsl & _).
  assert (length (take (Z.to_nat eb) cb ++ zeros (Z.to_nat ss)) = Z.to_nat (eb + ss)) as Ht
    by (rewrite length_app, length_take, length_zeros; lia).
  rewrite backup_slice by lia. rewrite sub_WriteAt_eq by lia. rewrite !WriteAt_WriteAt; [reflexivity|..]; try lia.
  by rewrite recompute_length by lia.
Qed.

(** ** The relocated disk *)

Context (d : bytes) (Hd : len d = N).
Definition relocated : bytes := WriteAt (WriteAt d 0 newPrimary) (newEntryLBA * ss) newBackup.

Lemma len_withPrimary : length (WriteAt d 0 newPrimary) = length d.
Proof. pose proof len_newPrimary. pose proof rl_space. pose proof rl_ss. pose proof rl_eb. apply length_WriteAt; lia. Qed.

Lemma read_primary o n : 0 ≤ o → 0 ≤ n → o + n ≤ eo + eb → ReadAt relocated o n = ReadAt newPrimary o n.
Proof.
  intros Ho Hn Hle. pose proof len_newPrimary. pose proof len_newBackup. pose proof rl_space. pose proof rl_ss. pose proof rl_eb.
  pose proof rl_entries. pose proof len_withPrimary. pose proof rl_newEntry. unfold relocated.
  rewrite ReadAt_WriteAt_ne by lia. rewrite ReadAt_WriteAt_inside by lia. by rewrite Z.sub_0_r.
Qed.

Lemma read_mbr : ReadAt relocated 0 ss = Some mbr.
Proof.
  pose proof rl_ss. pose proof rl_eb. destruct rl_cp as [Hc Hl]. pose proof len_pHdr. pose proof rl_hs.
  rewrite read_primary by lia. unfold newPrimary. rewrite ReadAt_WriteAt_ne by lia.
  rewrite (ReadAt_prefix _ _ _ 0 ss Hc) by lia. apply (go_mbr _ _ _ _ _ _ _ Hgpt).
Qed.

Lemma read_hdr : ReadAt relocated ss ss = Some newHdr.
Proof.
  pose proof rl_ss. pose proof rl_eb. destruct rl_cp as [Hc Hl]. pose proof len_pHdr. pose proof rl_hs.
  rewrite read_primary by lia. unfold newPrimary.
  rewrite (ReadAt_WriteAt_cover cp ss pHdr ss hdr); [|lia|lia|].
  - unfold newHdr. do 3 f_equal. lia.
  - rewrite (ReadAt_prefix _ _ _ ss ss Hc) by lia. apply (go_hdr _ _ _ _ _ _ _ Hgpt).
Qed.

Lemma read_entries : ReadAt relocated eo eb = Some entries.
Proof.
  pose proof rl_ss. pose proof rl_eb. destruct rl_cp as [Hc Hl]. pose proof len_pHdr. pose proof rl_hs.
  rewrite read_primary by lia. unfold newPrimary. rewrite ReadAt_WriteAt_ne by lia.
  rewrite (ReadAt_prefix _ _ _ eo eb Hc) by lia. apply (go_entries _ _ _ _ _ _ _ Hgpt).
Qed.

Lemma new_alt_off : i64 (i64 newLast * ss) = N - ss.
Proof.
  destruct rl_newLast as [H1 H2]. pose proof rl_ss. pose proof (go_size _ _ _ _ _ _ _ Hgpt).
  rewrite (i64_id newLast) by (unfold is_i64; lia). rewrite H1. apply i64_id. unfold is_i64. lia.
Qed.

Lemma new_backup : backupStart newHdr ss = newEntryLBA * ss ∧ backupLen newHdr ss = ss + eb.
Proof.
  pose proof rl_eb. pose proof rl_ss. pose proof rl_entries. pose proof rl_space.
  destruct newHdr_fields as (_ & _ & _ & _ & _ & Heb & _). split; [|by apply rl_backupLen].
  unfold backupStart. rewrite newHdr_alt, new_alt_off, Heb, rl_newEntry. apply i64_id. unfold is_i64. lia.
Qed.

Lemma relocated_gpt : gpt_ok relocated N ss mbr newHdr entries parts.
Proof.
  pose proof rl_eb. pose proof rl_ss. pose proof rl_entries. pose proof rl_space. pose proof rl_newEntry.
  destruct newHdr_fields as (F1 & F2 & F3 & F4 & F5 & F6 & F7). destruct new_backup as [B1 B2].
  pose proof Hgpt as [G1 G2 G3 G4 G5 G6 G7 G8 G9 G10 G11 G12 G13].
  split; rewrite ?F1, ?F3, ?F4, ?F5, ?F6, ?F7, ?B1, ?B2; try done.
  - lia.
  - apply read_mbr.
  - apply read_hdr.
  - apply headerCheck_recomputed; [apply patched_ok|rewrite len_patched; apply rl_hs|apply patched_sig|apply patched_hs].
  - apply read_entries.
  - eapply partLoop_mono; [|done]. lia.
  - split; [lia|]. rewrite i64_id; [lia|]. unfold is_i64. lia.
Qed.

Lemma relocated_backup : VerifyBackupHeader (layout_of newHdr parts N ss) relocated = Ok tt.
Proof.
  pose proof rl_eb. pose proof rl_ss. pose proof rl_entries. pose proof rl_space. pose proof rl_newEntry. pose proof rl_hs.
  pose proof len_newBackup as Hlb. destruct swapped_spec as (Hsl & Hsok & Hsf). destruct rl_cb as [Hcbl _].
  pose proof len_withPrimary. pose proof (recompute_length swapped ltac:(lia)) as Hrl.
  unfold VerifyBackupHeader. cbn [layout_of AlternateLBA SectorSize DiskGUID]. rewrite newHdr_alt, new_alt_off.
  assert (Hread : ReadAt relocated (N - ss) ss = Some (recomputeHeaderCRC swapped ++ drop (length (recomputeHeaderCRC swapped)) (zeros (Z.to_nat ss)))).
  { unfold relocated. rewrite ReadAt_WriteAt_inside by lia. unfold newBackup. replace (N - ss - newEntryLBA * ss) with eb by lia.
    apply ReadAt_WriteAt_cover; [lia|lia|]. rewrite ReadAt_sub by len. f_equal. unfold sub.
    rewrite drop_app_exact by len. apply take_ge. len. }
  rewrite Hread. cbn [of_option rbind]. rewrite swapped_check. cbn [rbind].
  assert (sub (recomputeHeaderCRC swapped ++ drop (length (recomputeHeaderCRC swapped)) (zeros (Z.to_nat ss))) 56 16 = sub newHdr 56 16) as ->.
  { rewrite sub_app_inside, recompute_sub by lia. rewrite Hsf by lia. rewrite newHdr_field by lia. done. }
  by rewrite String.eqb_refl.
Qed.

Lemma relocated_layout l' : l' = layout_of newHdr parts N ss →
  Partitions l' = parts ∧ DiskGUID l' = GUID_String (sub hdr 56 16) ∧ FirstUsableLBA l' = le_get (sub hdr 40 8) ∧
  LastUsableLBA l' = le_get (sub hdr 48 8) ∧ PrimaryRegion l' = mkRange 0 (i64 (eo + eb)) ∧
  AlternateLBA l' = newLast ∧ BackupRegion l' = mkRange (newEntryLBA * ss) (N - newEntryLBA * ss).
Proof.
  intros ->. destruct newHdr_fields as (_ & _ & _ & _ & _ & F6 & F7). destruct new_backup as [B1 B2].
  pose proof rl_newEntry. cbn [layout_of Partitions DiskGUID FirstUsableLBA LastUsableLBA PrimaryRegion AlternateLBA BackupRegion].
  rewrite F6, F7, newHdr_alt, B1, B2, !newHdr_field by lia. split_and!; [reflexivity..|]. f_equal. lia.
Qed.
End relocate.

(** ** Bounds of accepted partitions *)

Definition part_ok (ss D : Z) (p : Partition) : Prop :=
  FirstLBA p ≤ LastLBA p ∧ is_u64 (FirstLBA p) ∧ is_u64 (LastLBA p) ∧ i64 (Offset p ss + Length p ss) ≤ D.

Lemma sub_u64 e o : bytes_ok e → (o + 8 ≤ length e)%nat → is_u64 (le_get (sub e o 8)).
Proof. intros Hok Hl. apply le_get_u64; [auto with bytes|]. by apply length_sub. Qed.

Lemma partLoop_ok entries es ss D n : bytes_ok entries → 128 ≤ es → ∀ i ps, 0 ≤ i →
  (i + Z.of_nat n) * es ≤ len entries → partLoop entries es ss D i n = Ok ps →
  Forall (part_ok ss D) ps ∧ StronglySorted Z.lt (Index <$> ps) ∧ Forall (λ p, i ≤ Index p < i + Z.of_nat n) ps.
Proof.
  intros Hok Hes. induction n as [|n IH]; intros i ps Hi Hlen; cbn [partLoop].
  { intros [= <-]. repeat constructor. }
  set (e := sub entries (Z.to_nat (i * es)) (Z.to_nat es)).
  assert (Hle : length e = Z.to_nat es) by (apply length_sub; nia). assert (Heok : bytes_ok e) by (unfold e; auto with bytes).
  assert (Hweak : ∀ qs : list Partition, Forall (λ p, i + 1 ≤ Index p < i + 1 + Z.of_nat n) qs →
    Forall (λ p, i ≤ Index p < i + Z.of_nat (S n)) qs) by (intros qs Hq; eapply Forall_impl; [exact Hq|]; cbn; lia).
  destruct (GUID_IsZero (sub e 0 16)).
  { intros H. apply IH in H as (? & ? & ?); [|lia|nia]. auto. }
  destruct (_ <? _) eqn:Hord; [done|]. destruct (D <? _) eqn:Hend; [done|].
  intros H. apply rbind_Ok_inv in H as (qs & Hqs & [= <-]). apply IH in Hqs as (H1 & H2 & H3); [|lia|nia]. zbool.
  split_and!.
  - constructor; [|done]. split_and!; [done|apply (sub_u64 e 32)|apply (sub_u64 e 40)|done]; (done || lia).
  - rewrite fmap_cons. constructor; [done|]. apply Forall_fmap. eapply Forall_impl; [exact H3|]. cbn. lia.
  - constructor; [cbn; lia|auto].
Qed.

(** A positive wrapped value below 2^64 did not wrap. *)
Lemma i64_small x : 0 ≤ x < 2 ^ 64 → 0 < i64 x → i64 x = x.
Proof.
  intros Hx Hp. apply i64_id. unfold is_i64. destruct (Z_lt_dec x (2 ^ 63)); [lia|]. exfalso. unfold i64 in Hp.
  assert ((x + 2 ^ 63) mod 2 ^ 64 = x - 2 ^ 63) as Hm by (symmetry; apply Z.mod_unique with 1; lia). lia.
Qed.

Lemma gpt_parts_ok r D ss mbr hdr entries parts :
  bytes_ok r → gpt_ok r D ss mbr hdr entries parts →
  Forall (part_ok ss D) parts ∧ StronglySorted Z.lt (Index <$> parts).
Proof.
  intros Hr [[Hss _] _ _ _ Hhdr _ _ [He _] [Heb _] Hent _ Hparts _].
  pose proof (ReadAt_inv _ _ _ _ Hhdr) as (_ & _ & _ & Hhl). pose proof (ReadAt_inv _ _ _ _ Hent) as (_ & _ & _ & Hel).
  assert (Hhok : bytes_ok hdr) by (eapply bytes_ok_ReadAt; [exact Hr|exact Hhdr]).
  assert (Heok : bytes_ok entries) by (eapply bytes_ok_ReadAt; [exact Hr|exact Hent]).
  assert (Hc : is_u32 (h_entryCount hdr)) by (apply le_get_u32; [auto with bytes|apply length_sub; lia]).
  assert (Hs : is_u32 (h_entrySize hdr)) by (apply le_get_u32; [auto with bytes|apply length_sub; lia]).
  assert (Hb : h_entryBytes hdr = h_entryCount hdr * h_entrySize hdr).
  { apply i64_small; [|exact Heb]. unfold is_u32 in *. nia. }
  unfold is_u32 in *. rewrite Hb in Hel.
  apply (partLoop_ok entries (h_entrySize hdr) ss D _ Heok He) in Hparts as (? & ? & _); [done|lia|]. lia.
Qed.

(** An end that fits 63 bits is the real end. *)
Lemma part_end ss D p : 0 < ss → part_ok ss D p → (LastLBA p + 1) * ss < 2 ^ 63 →
  Offset p ss = FirstLBA p * ss ∧ Length p ss = (LastLBA p - FirstLBA p + 1) * ss ∧ (LastLBA p + 1) * ss ≤ D.
Proof.
  intros Hss (Hord & Hf & Hl & Hend) Hfit. unfold is_u64 in *.
  assert (H1 : FirstLBA p * ss ≤ (LastLBA p + 1) * ss) by nia. assert (H2 : LastLBA p + 1 ≤ (LastLBA p + 1) * ss) by nia.
  assert (Ho : Offset p ss = FirstLBA p * ss).
  { unfold Offset. rewrite (i64_id (FirstLBA p)) by (unfold is_i64; lia). apply i64_id. unfold is_i64. nia. }
  assert (Hln : Length p ss = (LastLBA p - FirstLBA p + 1) * ss).
  { unfold Length. rewrite u64_id by (unfold is_u64; lia). rewrite (i64_id (_ - _ + 1)) by (unfold is_i64; lia).
    apply i64_id. unfold is_i64. nia. }
  split_and!; [done..|]. rewrite Ho, Hln, i64_id in Hend; [lia|]. unfold is_i64. nia.
Qed.

(** ** Theorems *)

(** C40. Relocating a parsed GPT to a larger disk: the result exists, and written to
    the new disk (whatever else it holds) it parses to the same partitions, disk GUID,
    usable range and primary region, the backup structures end the disk, and the
    rebuilt backup header verifies.  The entry array is a whole number of sectors. *)
Theorem gpt_relocate_valid r D ss l cp cb N d :
  bytes_ok r → len r < 2 ^ 63 → ParseWithSector r D ss = Ok l →
  ReadAt r 0 (r_Length (PrimaryRegion l)) = Some cp →
  ReadAt r (r_Offset (BackupRegion l)) (r_Length (BackupRegion l)) = Some cb →
  D < N < 2 ^ 63 → Z.rem N ss = 0 → Z.rem (r_Length (BackupRegion l)) ss = 0 →
  ss + r_Length (BackupRegion l) ≤ r_Length (PrimaryRegion l) ≤ r_Offset (BackupRegion l) → len d = N →
  ∃ primary off backup l', RelocateGPT l cp cb N = Ok (primary, off, backup) ∧
    ParseWithSector (WriteAt (WriteAt d 0 primary) off backup) N ss = Ok l' ∧
    VerifyBackupHeader l' (WriteAt (WriteAt d 0 primary) off backup) = Ok tt ∧
    Partitions l' = Partitions l ∧ DiskGUID l' = DiskGUID l ∧ FirstUsableLBA l' = FirstUsableLBA l ∧
    LastUsableLBA l' = LastUsableLBA l ∧ PrimaryRegion l' = PrimaryRegion l ∧
    AlternateLBA l' = Z.quot N ss - 1 ∧ BackupRegion l' = mkRange off (N - off).
Proof.
  intros Hr Hlen Hp Hcp Hcb HN HNss Hwhole Hroom Hd.
  apply ParseWithSector_inv in Hp as (mbr & hdr & entries & parts & Hg & ->).
  cbn [layout_of PrimaryRegion BackupRegion r_Length r_Offset] in *.
  rewrite (rl_backupLen r D ss mbr hdr entries parts Hg hdr) in Hwhole, Hroom by reflexivity.
  rewrite (rl_primary r D ss mbr hdr entries parts Hlen Hg) in Hroom. pose proof (rl_ss _ _ _ _ _ _ _ Hg).
  assert (Hw : Z.rem (h_entryBytes hdr) ss = 0).
  { pose proof (rl_eb _ _ _ _ _ _ _ Hg). rewrite Z.rem_mod_nonneg in * by lia.
    replace (ss + h_entryBytes hdr) with (h_entryBytes hdr + 1 * ss) in Hwhole by lia. by rewrite Z.mod_add in Hwhole by lia. }
  assert (Ha : 2 * ss ≤ entryOff hdr ss) by lia. destruct Hroom as [_ Hroom'].
  exists (newPrimary ss N hdr cp), (newEntryLBA ss N hdr * ss), (newBackup ss N hdr cb), (layout_of (newHdr ss N hdr) parts N ss).
  split; [by apply (relocate_eq r D ss N mbr hdr entries cp cb parts)|].
  split; [apply (ParseWithSector_ok _ _ _ mbr _ entries); by apply (relocated_gpt r D ss N mbr hdr entries cp cb parts)|].
  split; [by apply (relocated_backup r D ss N mbr hdr entries cp cb parts)|].
  by eapply (relocated_layout r D ss N mbr hdr entries).
Qed.

(** A small disk: boot sector, header, one entry array, two data sectors, the backup
    structures.  [count] entries, of which the first is used. *)
Definition sampleEntry (first last : Z) : bytes :=
  replicate 16 1 ++ replicate 16 2 ++ PutUint64 first ++ PutUint64 last ++ zeros 80.
Definition sampleHeader (alt count : Z) (entries : bytes) : bytes :=
  recomputeHeaderCRC (gptSignature ++ [0; 0; 1; 0] ++ PutUint32 92 ++ zeros 8 ++ PutUint64 1 ++ PutUint64 alt ++
    PutUint64 3 ++ PutUint64 4 ++ replicate 16 7 ++ PutUint64 2 ++ PutUint32 count ++ PutUint32 128 ++
    PutUint32 (ChecksumIEEE entries)).
Definition sampleDisk (first last alt count : Z) : bytes :=
  let entries := sampleEntry first last ++ zeros (Z.to_nat (128 * (count - 1))) in
  let pad l := l ++ zeros (Z.to_nat (- (len l) mod 512)) in
  zeros 510 ++ [0x55; 0xAA] ++ pad (sampleHeader alt count entries) ++ pad entries ++ zeros 1024 ++ pad entries ++
  pad (sampleHeader alt count entries).
Definition sampleLayout (first last alt count : Z) : DiskLayout :=
  match ParseWithSector (sampleDisk first last alt count) ((alt + 1) * 512) 512 with
  | Ok l => l
  | Err _ => mkLayout "" 0 0 "" 0 0 0 [] [] (mkRange 0 0) (mkRange 0 0)
  end.

Lemma gpt_relocate_valid_witness :
  ∃ cp cb primary off backup l', RelocateGPT (sampleLayout 3 4 6 4) cp cb 4096 = Ok (primary, off, backup) ∧
    ParseWithSector (WriteAt (WriteAt (zeros (Z.to_nat 4096)) 0 primary) off backup) 4096 512 = Ok l' ∧
    VerifyBackupHeader l' (WriteAt (WriteAt (zeros (Z.to_nat 4096)) 0 primary) off backup) = Ok tt ∧
    Partitions l' = Partitions (sampleLayout 3 4 6 4) ∧ AlternateLBA l' = 7.
Proof.
  exists (sub (sampleDisk 3 4 6 4) 0 1536), (sub (sampleDisk 3 4 6 4) 2560 1024).
  destruct (gpt_relocate_valid (sampleDisk 3 4 6 4) 3584 512 (sampleLayout 3 4 6 4) (sub (sampleDisk 3 4 6 4) 0 1536)
    (sub (sampleDisk 3 4 6 4) 2560 1024) 4096 (zeros (Z.to_nat 4096))) as (p & o & b & l' & H1 & H2 & H3 & H4 & _ & _ & _ & _ & H5 & _).
  - by_eval.
  - vm_compute. reflexivity.
  - vm_compute. reflexivity.
  - vm_compute. reflexivity.
  - vm_compute. reflexivity.
  - split; reflexivity.
  - reflexivity.
  - vm_compute. reflexivity.
  - vm_compute. split; discriminate.
  - reflexivity.
  - exists p, o, b, l'. split_and!; [exact H1|exact H2|exact H3|exact H4|exact H5].
Defined.

(** Every accepted GPT partition: ordered block range, strictly increasing slots,
    and, where its end is below 2^63 bytes, offset and length are the true products
    and the partition lies inside the disk. *)
Theorem gpt_partitions_inside r D ss l :
  bytes_ok r → ParseWithSector r D ss = Ok l →
  StronglySorted Z.lt (Index <$> Partitions l) ∧
  ∀ p, p ∈ Partitions l → FirstLBA p ≤ LastLBA p ∧
    ((LastLBA p + 1) * ss < 2 ^ 63 → Offset p ss = FirstLBA p * ss ∧
      Length p ss = (LastLBA p - FirstLBA p + 1) * ss ∧ (LastLBA p + 1) * ss ≤ D).
Proof.
  intros Hr Hp. apply ParseWithSector_inv in Hp as (mbr & hdr & entries & parts & Hg & ->). cbn [layout_of Partitions].
  destruct (gpt_parts_ok r D ss mbr hdr entries parts Hr Hg) as [Hall Hs]. split; [exact Hs|].
  intros p Hin. rewrite Forall_forall in Hall. pose proof (Hall p Hin) as Hok. pose proof (rl_ss _ _ _ _ _ _ _ Hg).
  split; [apply Hok|]. intros Hfit. apply (part_end ss D p); [lia|done|done].
Qed.

Lemma gpt_partitions_inside_witness :
  ∃ p, Partitions (sampleLayout 3 4 6 4) = [p] ∧ FirstLBA p ≤ LastLBA p ∧ (LastLBA p + 1) * 512 ≤ 3584.
Proof.
  destruct (gpt_partitions_inside (sampleDisk 3 4 6 4) 3584 512 (sampleLayout 3 4 6 4)) as [_ H].
  - by_eval.
  - vm_compute. reflexivity.
  - destruct (Partitions (sampleLayout 3 4 6 4)) as [|p [|? ?]] eqn:Heq; [vm_compute in Heq; discriminate| |vm_compute in Heq; discriminate].
    exists p. split; [reflexivity|]. destruct (H p) as [H1 H2]; [left|]. split; [exact H1|]. apply H2.
    vm_compute in Heq. injection Heq as <-. vm_compute. reflexivity.
Defined.

(** The bound above needs its side condition: a partition whose first block is
    2^55 on a 7-sector disk is accepted, because its byte offset wraps to 0, so it
    aliases the boot sector. *)
Theorem gpt_partition_wraps :
  ∃ l p, ParseWithSector (sampleDisk (2 ^ 55) (2 ^ 55 + 1) 6 4) 3584 512 = Ok l ∧ Partitions l = [p] ∧
    FirstLBA p = 2 ^ 55 ∧ Offset p 512 = 0 ∧ FindPartitionAt l 0 = Some p.
Proof.
  exists (sampleLayout (2 ^ 55) (2 ^ 55 + 1) 6 4), (mkPart 0 (GUID_String (replicate 16 1)) (TypeName_of (replicate 16 1))
    (GUID_String (replicate 16 2)) [] (2 ^ 55) (2 ^ 55 + 1) 0 0 false).
  split_and!; vm_compute; reflexivity.
Qed.

Definition partialLayout : DiskLayout := sampleLayout 4 5 8 5.
Definition partialPrimary : bytes := sub (sampleDisk 4 5 8 5) 0 (Z.to_nat 1664).
Definition partialBackup : bytes := sub (sampleDisk 4 5 8 5) (Z.to_nat 3456) (Z.to_nat 1152).
Definition partialResult : bytes * Z * bytes :=
  match RelocateGPT partialLayout partialPrimary partialBackup 5120 with Ok x => x | Err _ => ([], 0, []) end.
Definition partialNew : DiskLayout :=
  match ParseWithSector (WriteAt (WriteAt (zeros (Z.to_nat 5120)) 0 partialResult.1.1) partialResult.1.2 partialResult.2) 5120 512 with
  | Ok l => l
  | Err _ => partialLayout
  end.

(** The whole-sectors condition of relocation is needed: with five 128-byte
    entries the rebuilt backup header is not at the last block of the new disk, and
    verifying it there fails. *)
Theorem gpt_relocate_partial_sector :
  ReadAt (sampleDisk 4 5 8 5) 0 (r_Length (PrimaryRegion partialLayout)) = Some partialPrimary ∧
  ReadAt (sampleDisk 4 5 8 5) (r_Offset (BackupRegion partialLayout)) (r_Length (BackupRegion partialLayout)) = Some partialBackup ∧
  ∃ primary off backup l', RelocateGPT partialLayout partialPrimary partialBackup 5120 = Ok (primary, off, backup) ∧
    ParseWithSector (WriteAt (WriteAt (zeros (Z.to_nat 5120)) 0 primary) off backup) 5120 512 = Ok l' ∧
    VerifyBackupHeader l' (WriteAt (WriteAt (zeros (Z.to_nat 5120)) 0 primary) off backup) = Err LyBackupMissing.
Proof.
  split; [vm_compute; reflexivity|]. split; [vm_compute; reflexivity|].
  exists partialResult.1.1, partialResult.1.2, partialResult.2, partialNew. split_and!; vm_compute; reflexivity.
Qed.
