(* ===== verification/Mbr.v ===== *)
(** * Theorems on MBR layouts, machine manifests and GUID text

    The EBR walk stays inside the disk, numbers the partitions consecutively and
    ends; a machine manifest is accepted exactly when its members cover every
    partition once and the captured regions have their sizes; GUID text is read
    back, and what text is accepted. *)

From S2P Require Import Prelude GoBytes Hashes DiskLayout.
From Stdlib Require Import Ascii.

(** ** The extended partition chain *)

Definition ebr_inside (r : bytes) (D ss : Z) (g : Range) : Prop :=
  0 ≤ r_Offset g ∧ r_Offset g + ss ≤ len r ∧ r_Offset g < D ∧ r_Length g = ss.

Lemma walkEBR_ok r ss ext D n : ∀ lba slot ps rs, walkEBR r ss ext D lba slot n = Ok (ps, rs) →
  (length ps ≤ length rs ≤ n)%nat ∧ Forall (ebr_inside r D ss) rs ∧ Index <$> ps = seqZ slot (len ps).
Proof.
  induction n as [|n IH]; intros lba slot ps rs; [done|]. cbn [walkEBR].
  destruct (D <=? _) eqn:Hend; [done|]. destruct (ReadAt r _ ss) as [buf|] eqn:Hrd; [|done]. cbn [of_option rbind].
  destruct (hasBootSig buf); [|done]. cbn [negb].
  set (e0 := readMBREntry buf 0). set (here := if unusedEntry e0 then [] else [mbrPartition slot lba e0]).
  apply ReadAt_inv in Hrd as (H1 & H2 & H3 & _). zbool.
  assert (Hg : ebr_inside r D ss (mkRange (i64 (lba * ss)) ss)) by (split_and!; cbn; lia || done).
  assert (Hh : (length here ≤ 1)%nat ∧ Index <$> here = seqZ slot (len here)) by (unfold here; destruct (unusedEntry e0); (split; [cbn; lia|reflexivity])).
  destruct Hh as [Hh1 Hh2]. clearbody here. destruct (unusedEntry _).
  - intros [= <- <-]. cbn [length]. split_and!; [lia|lia|by constructor|done].
  - intros H. apply rbind_Ok_inv in H as ([ps' rs'] & Hw & [= <- <-]). cbn [fst snd].
    apply IH in Hw as (Hl & Hall & Hidx). cbn [length]. rewrite length_app. split_and!; [lia|lia|by constructor|].
    rewrite fmap_app, Hh2, Hidx. rewrite Nat2Z.inj_add, seqZ_app by lia. done.
Qed.

(** The primary slots. *)
Definition scan_ok (st : mbr_scan) : Prop := Index <$> ms_parts st = seqZ 0 (ms_slot st) ∧ ms_slot st = len (ms_parts st).

Lemma scanPrimaries_ok es : ∀ st st', scan_ok st → scanPrimaries st es = Ok st' →
  scan_ok st' ∧ (length (ms_parts st') ≤ length (ms_parts st) + length es)%nat.
Proof.
  induction es as [|e es IH]; intros st st' Hst; cbn [scanPrimaries]; [intros [= <-]; split; [done|lia]|].
  intros H. apply rbind_Ok_inv in H as (st1 & H1 & H2).
  assert (Hs1 : scan_ok st1 ∧ (length (ms_parts st1) ≤ S (length (ms_parts st)))%nat).
  { destruct Hst as [Hi Hn]. unfold scanPrimary in H1. destruct (unusedEntry e); [injection H1 as <-; by split; [split|lia]|].
    destruct (isExtended _); [destruct (ms_ext st); [done|]; injection H1 as <-; by split; [split|cbn; lia]|].
    injection H1 as <-. unfold scan_ok. cbn [ms_parts ms_slot]. rewrite fmap_app, Hi, length_app. cbn [length]. split; [split|lia]; [|lia].
    rewrite seqZ_app by lia. cbn. rewrite Hn. done. }
  destruct Hs1 as [Hs1 Hl1]. destruct (IH _ _ Hs1 H2) as [? ?]. cbn [length]. split; [done|lia].
Qed.

Lemma chain_ok r ss D ext slot ps rs :
  match ext with Some e => walkEBRChain r ss (m_startLBA e) D slot | None => Ok ([], []) end = Ok (ps, rs) →
  (length ps ≤ length rs ≤ 128)%nat ∧ Forall (ebr_inside r D ss) rs ∧ Index <$> ps = seqZ slot (len ps).
Proof.
  destruct ext; [apply walkEBR_ok|]. intros H. apply Ok_inj in H. injection H as <- <-. cbn.
  split_and!; [lia|lia|constructor|done].
Qed.

(** A parsed MBR disk: at most 4 + 128 partitions with consecutive slots from 0,
    and at most 128 captured boot records, each one whole sector inside the disk.  The
    chain walk therefore ends on every disk; a longer or looping chain is refused. *)
Theorem mbr_layout_bounds r D ss sector l :
  parseMBR r D ss sector = Ok l →
  Index <$> Partitions l = seqZ 0 (len (Partitions l)) ∧ (length (Partitions l) ≤ 132)%nat ∧
  (length (AuxRegions l) ≤ 128)%nat ∧ Forall (ebr_inside r D ss) (AuxRegions l).
Proof.
  unfold parseMBR. intros H. apply rbind_Ok_inv in H as (st & Hst & H).
  destruct (scanPrimaries_ok _ _ _ (conj eq_refl eq_refl : scan_ok (mkScan [] 0 None 0)) Hst) as [[Hi Hn] Hl]. cbn in Hl.
  assert (Hx : ∃ pr, match ms_ext st with
                     | Some ext => walkEBRChain r ss (m_startLBA ext) D (ms_slot st)
                     | None => Ok ([], [])
                     end = Ok pr ∧ Partitions l = ms_parts st ++ pr.1 ∧ AuxRegions l = pr.2).
  { destruct (ms_parts st); [destruct (ms_ext st); [|done]|]; apply rbind_Ok_inv in H as (pr & Hw & [= <-]); eauto. }
  destruct Hx as ([ps rs] & (Hlen & Hin & Hidx)%chain_ok & -> & ->). cbn [fst snd].
  rewrite fmap_app, Hidx, Hi, length_app, Hn, Nat2Z.inj_add, seqZ_app, Z.add_0_l by lia. split_and!; [done|lia|lia|done].
Qed.

(** An extended partition at block 1 with two logical partitions. *)
Definition mbrSlot (typ start sectors : Z) : bytes := [0; 0; 0; 0; typ; 0; 0; 0] ++ PutUint32 start ++ PutUint32 sectors.
Definition mbrSector (a b : bytes) : bytes := zeros 446 ++ a ++ b ++ zeros 32 ++ [0x55; 0xAA].
Definition mbrDisk : bytes :=
  mbrSector (mbrSlot 0x83 5 1) (mbrSlot 0x05 1 4) ++ mbrSector (mbrSlot 0x83 1 1) (mbrSlot 0x05 2 2) ++ zeros 512 ++
  mbrSector (mbrSlot 0x83 1 1) (mbrSlot 0 0 0) ++ zeros 1024.
Definition mbrLayout : DiskLayout :=
  match parseMBR mbrDisk 3072 512 (sub mbrDisk 0 512) with
  | Ok l => l
  | Err _ => mkLayout "" 0 0 "" 0 0 0 [] [] (mkRange 0 0) (mkRange 0 0)
  end.

Lemma mbr_layout_bounds_witness :
  Index <$> Partitions mbrLayout = [0; 1; 2] ∧ AuxRegions mbrLayout = [mkRange 512 512; mkRange 1536 512] ∧
  Forall (ebr_inside mbrDisk 3072 512) (AuxRegions mbrLayout).
Proof.
  split; [vm_compute; reflexivity|]. split; [vm_compute; reflexivity|].
  apply (mbr_layout_bounds mbrDisk 3072 512 (sub mbrDisk 0 512) mbrLayout). vm_compute. reflexivity.
Defined.

(** ** Machine manifests *)

(** What a captured disk promises: the members are the partitions, each once, with a
    backup where data was captured, and the captured regions have their sizes. *)
Definition member_ok (m : PartitionMember) : Prop :=
  (pm_Kind m = "volume"%string ∨ pm_Kind m = "raw"%string) ∧ pm_BackupID m ≠ [] ∨ pm_Kind m = "skipped"%string.
Record capture_ok (c : DiskCapture) : Prop := {
  ck_members : Forall member_ok (Members c);
  ck_once : NoDup (pm_Index <$> Members c);
  ck_cover : ∀ i, i ∈ pm_Index <$> Members c ↔ i ∈ Index <$> Partitions (dc_Layout c);
  ck_primary : len (PrimaryGPT c) = r_Length (PrimaryRegion (dc_Layout c));
  ck_backup : len (BackupGPT c) = r_Length (BackupRegion (dc_Layout c));
  ck_aux : Forall2 (λ b g, len b = r_Length g) (AuxBytes c) (AuxRegions (dc_Layout c)) }.

Lemma checkMembers_iff d known ms : ∀ seen seen',
  checkMembers d known ms seen = Ok seen' ↔
  Forall member_ok ms ∧ NoDup (pm_Index <$> ms) ∧ (∀ i, i ∈ pm_Index <$> ms → i ∈ known ∧ i ∉ seen) ∧
  seen' = list_to_set (pm_Index <$> ms) ∪ seen.
Proof.
  induction ms as [|m ms IH]; intros seen seen'; cbn [checkMembers].
  { split; [intros [= <-]|intros (_ & _ & _ & ->); f_equal; set_solver]. split_and!; [constructor|constructor|set_solver|set_solver]. }
  rewrite fmap_cons, Forall_cons, NoDup_cons. cbn [list_to_set].
  case_bool_decide as Hk; cbn [negb]; [|split; [done|intros (_ & _ & H & _); exfalso; apply Hk, H; left]].
  case_bool_decide as Hs; [split; [done|intros (_ & _ & H & _); exfalso; eapply H; [left|done]]|].
  assert (Hgo : member_ok m → (checkMembers d known ms ({[pm_Index m]} ∪ seen) = Ok seen' ↔
    (member_ok m ∧ Forall member_ok ms) ∧ (pm_Index m ∉ pm_Index <$> ms ∧ NoDup (pm_Index <$> ms)) ∧
    (∀ i, i ∈ pm_Index m :: (pm_Index <$> ms) → i ∈ known ∧ i ∉ seen) ∧
    seen' = {[pm_Index m]} ∪ list_to_set (pm_Index <$> ms) ∪ seen)).
  { intros Hm. rewrite IH. split.
    - intros (H1 & H2 & H3 & ->). split_and!; [done|done| |done| |set_solver].
      + intros Hi. destruct (H3 _ Hi). set_solver.
      + intros i [->|Hi]%elem_of_cons; [done|]. destruct (H3 _ Hi). set_solver.
    - intros ((_ & H1) & (Hn & H2) & H3 & ->). split_and!; [done|done| |set_solver].
      intros i Hi. destruct (H3 i); [by right|]. split; [done|]. set_solver. }
  destruct (String.eqb_spec (pm_Kind m) "volume") as [Hv|Hv]; cbn [orb].
  1: case_bool_decide as Hb; [|by apply Hgo; left; auto].
  1: split; [done|]; intros (([[_ H]|H] & _) & _); [done|congruence].
  destruct (String.eqb_spec (pm_Kind m) "raw") as [Hr|Hr].
  1: case_bool_decide as Hb; [|by apply Hgo; left; auto].
  1: split; [done|]; intros (([[_ H]|H] & _) & _); [done|congruence].
  destruct (String.eqb_spec (pm_Kind m) "skipped") as [Hk'|Hk']; [apply Hgo; by right|].
  split; [done|]. intros (([[[H|H] _]|H] & _) & _); congruence.
Qed.

Lemma checkAux_iff d bs : ∀ i rs, length bs = length rs →
  checkAux d i bs rs = Ok tt ↔ Forall2 (λ b g, len b = r_Length g) bs rs.
Proof.
  induction bs as [|b bs IH]; intros i [|g rs] Hl; try discriminate Hl; cbn [checkAux]; [split; [constructor|done]|].
  rewrite Forall2_cons. destruct (_ =? _) eqn:He; cbn [negb]; zbool.
  - rewrite IH by (by injection Hl). naive_solver.
  - split; [done|naive_solver].
Qed.

Lemma validateDisk_iff d c : validateDisk d c = Ok tt ↔ capture_ok c.
Proof.
  unfold validateDisk. split.
  - intros H. apply rbind_Ok_inv in H as (seen & (Hm & Hnd & Hk & ->)%checkMembers_iff & H).
    destruct (list_find _ _) as [[? ?]|] eqn:Hf; [done|]. apply list_find_None in Hf.
    destruct (_ =? _) eqn:Hp; cbn [negb] in H; [|done]. destruct (_ =? _) eqn:Hb in H; cbn [negb] in H; [|done].
    destruct (_ =? _)%nat eqn:Ha; cbn [negb] in H; [|done]. apply Nat.eqb_eq in Ha. apply checkAux_iff in H; [|done]. zbool.
    split; try done. intros i. split.
    + intros Hi. destruct (Hk i Hi) as [Hi' _]. by apply elem_of_list_to_set in Hi'.
    + intros (p & -> & Hp')%list_elem_of_fmap. rewrite Forall_forall in Hf. specialize (Hf p Hp'). cbn in Hf.
      apply dec_stable in Hf. set_solver.
  - intros [Hm Hnd Hcov Hp Hb Ha].
    assert (Hc : checkMembers d (list_to_set (Index <$> Partitions (dc_Layout c))) (Members c) ∅ =
      Ok (list_to_set (pm_Index <$> Members c) ∪ ∅)).
    { apply checkMembers_iff. split_and!; [done|done| |done]. intros i Hi. split; [|set_solver].
      apply elem_of_list_to_set. by apply Hcov. }
    rewrite Hc. cbn [rbind].
    assert (list_find (λ p, Index p ∉ (list_to_set (pm_Index <$> Members c) ∪ ∅ : gset Z)) (Partitions (dc_Layout c)) = None) as ->.
    { apply list_find_None, Forall_forall. intros p Hp' Hn. apply Hn. apply elem_of_union_l, elem_of_list_to_set, Hcov.
      by apply list_elem_of_fmap_2. }
    rewrite Hp, Hb, !Z.eqb_refl, (proj2 (Nat.eqb_eq _ _)) by (by eapply Forall2_length). cbn [negb].
    apply checkAux_iff; [by eapply Forall2_length|done].
Qed.

(** A machine manifest validates exactly when it has a disk and, on every disk,
    the members are the partitions of its layout, each once, every captured one with a
    backup id, and the saved GPT and boot-record bytes have the layout's lengths. *)
Theorem machine_validate_iff disks : validate disks = Ok tt ↔ disks ≠ [] ∧ Forall capture_ok disks.
Proof.
  assert (Hd : ∀ d, validateDisks d disks = Ok tt ↔ Forall capture_ok disks).
  { induction disks as [|c cs IH]; intros d; cbn [validateDisks]; [split; [constructor|done]|]. rewrite Forall_cons, <- (validateDisk_iff d), <- (IH (d + 1)).
    destruct (validateDisk d c) as [[]|e]; cbn [rbind]; naive_solver. }
  unfold validate. destruct disks; [naive_solver|]. rewrite Hd. naive_solver.
Qed.

(** ** GUID text *)

(** A GUID's text parses back to the GUID. *)
Theorem guid_roundtrip g : bytes_ok g → length g = 16%nat → ParseGUID (GUID_String g) = Some g.
Proof. apply ParseGUID_String. Qed.

Lemma guid_roundtrip_witness :
  ParseGUID (GUID_String [0x28; 0x73; 0x2A; 0xC1; 0x1F; 0xF8; 0xD2; 0x11; 0xBA; 0x4B; 0; 0xA0; 0xC9; 0x3E; 0xC9; 0x3B]) =
  Some [0x28; 0x73; 0x2A; 0xC1; 0x1F; 0xF8; 0xD2; 0x11; 0xBA; 0x4B; 0; 0xA0; 0xC9; 0x3E; 0xC9; 0x3B].
Proof. apply guid_roundtrip; [by_eval|reflexivity]. Defined.

(** Text with a letter that is no hexadecimal digit is accepted when the letter is
    the second of its pair: the pair is read as one digit. *)
Theorem guid_lenient :
  ParseGUID "1G000000-0000-0000-0000-000000000000" = Some ([0; 0; 0; 1] ++ zeros 12) ∧
  ParseGUID "G1000000-0000-0000-0000-000000000000" = None.
Proof. split; vm_compute; reflexivity. Qed.
