(* ===== verification/Fit.v ===== *)
(** * core/disklayout/fit.go: fitting a layout onto another drive

    [PlanFit] decides where every partition of a captured layout lands on a target of
    another size, and [ApplyFit] rewrites the captured boot structures to match.  The
    arithmetic is that of 64-bit words; warnings and refusals are constructors, their texts
    are left out; the parallel slices [parts] and [planned], and the table of minimum sizes
    already asked for, are one list of slots. *)

From S2P Require Import Prelude GoBytes GoRuntime Hashes DiskLayout.

(** ** Types *)

Record TargetGeometry := mkGeometry { tg_Size : Z; tg_LogicalSector : Z; tg_PhysicalSector : Z }.

(** [fo_MinSize] is [None] when no answer is known for any partition. *)
Record FitOptions := mkFitOptions { fo_Grow : bool; fo_MoveRecoveryToEnd : bool; fo_Realign : bool; fo_MinSize : option (Partition → option Z) }.

Record PlannedPartition := mkPlanned {
  pp_Index : Z; pp_TypeName : string; pp_Name : list Z; OldFirst : Z; OldLast : Z; NewFirst : Z; NewLast : Z;
  Shrink : bool; Grow : bool; Moved : bool; MinBytes : Z }.

Inductive fit_refusal :=
| RfLogicalSector | RfTargetSize | RfNoRoomForGPT | RfLogicalMoves (i : Z) | RfTooSmall (mib : Z) | RfNoSectors (i : Z) | RfOverlap (i j : Z) | RfPastEnd (i : Z).
Inductive fit_warning :=
| WnLogicalGrowth (i : Z) | WnCannotGrow (i : Z) (trailing : list Z) | WnLogicalBlocks (i : Z) | WnMinUnknown (i : Z) | WnRealignDropped (more : Z) | WnMisaligned (i first : Z).

Record FitPlan := mkFitPlan {
  fp_Scheme : string; fp_SectorSize : Z; fp_TargetSize : Z; fp_NewLastUsableLBA : Z;
  fp_Partitions : list PlannedPartition; fp_Warnings : list fit_warning; fp_Refusals : list fit_refusal }.

Definition OldBytes (p : PlannedPartition) (ss : Z) : Z := i64 (i64 (u64 (OldLast p - OldFirst p + 1)) * ss).
Definition NewBytes (p : PlannedPartition) (ss : Z) : Z := i64 (i64 (u64 (NewLast p - NewFirst p + 1)) * ss).

Definition Applicable (p : FitPlan) : bool := bool_decide (length (fp_Refusals p) = 0%nat).
Definition Changed (p : FitPlan) : bool := existsb (λ pp, Shrink pp || Grow pp || Moved pp) (fp_Partitions p).
Definition PlanPartition (p : FitPlan) (index : Z) : option PlannedPartition := snd <$> list_find (λ pp, pp_Index pp = index) (fp_Partitions p).

(** ** Partitions *)

Definition dataTypes : list string :=
  ["EBD0A0A2-B9E5-4433-87C0-68B6B72699C7"; "0FC63DAF-8483-4772-8E79-3D69D8477DE4"; "933AC7E1-2EB4-4F13-B844-0E14E2AEF915"]%string.
Definition mbrDataTypes : list Z := [0x07; 0x83].
Definition ToUpper (s : string) : string := String.string_of_list_ascii (upper <$> String.list_ascii_of_string s).
Definition isData (p : Partition) (scheme : string) : bool :=
  if String.eqb scheme "mbr" then bool_decide (MBRType p ∈ mbrDataTypes) else bool_decide (ToUpper (TypeGUID p) ∈ dataTypes).

Definition alignUp (lba unit : Z) : Z := if (unit =? 0) || (lba mod unit =? 0) then lba else u64 (lba + unit - lba mod unit).
Definition alignDown (lba unit : Z) : Z := if unit =? 0 then lba else lba - lba mod unit.

(** The first byte of the lowest auxiliary region, in sectors. *)
Definition auxStart (l : DiskLayout) : Z :=
  let first := foldl (λ first r, if (first <? 0) || (r_Offset r <? first) then r_Offset r else first) (-1) (AuxRegions l) in
  if first <? 0 then 2 ^ 64 - 1 else u64 first / u64 (SectorSize l).
Definition mbrPrimarySlots (l : DiskLayout) : Z :=
  len (filter (λ p, AuxRegions l = [] ∨ FirstLBA p < auxStart l) (Partitions l)).

(** A partition, its place in the plan and the minimum already asked for. *)
Record slot := mkSlot { sl_part : Partition; sl_plan : PlannedPartition; sl_min : option Z }.
Definition startSlot (p : Partition) : slot :=
  mkSlot p (mkPlanned (Index p) (TypeName p) (Name p) (FirstLBA p) (LastLBA p) (FirstLBA p) (LastLBA p) false false false 0) None.
Definition sizeOf (s : slot) : Z := u64 (NewLast (sl_plan s) - NewFirst (sl_plan s) + 1).

Definition withPlan (s : slot) (f : PlannedPartition → PlannedPartition) : slot := mkSlot (sl_part s) (f (sl_plan s)) (sl_min s).
Definition placedAt (first last : Z) (moved : bool) (p : PlannedPartition) : PlannedPartition :=
  mkPlanned (pp_Index p) (pp_TypeName p) (pp_Name p) (OldFirst p) (OldLast p) first last (Shrink p) (Grow p) moved (MinBytes p).
Definition movedTo (first : Z) (s : slot) : slot := withPlan s (placedAt first (u64 (first + sizeOf s - 1)) true).
Definition putBack (s : slot) : slot := withPlan s (λ p, placedAt (OldFirst p) (OldLast p) false p).
Definition grownTo (last : Z) (s : slot) : slot :=
  withPlan s (λ p, mkPlanned (pp_Index p) (pp_TypeName p) (pp_Name p) (OldFirst p) (OldLast p) (NewFirst p) last (Shrink p) true (Moved p) (MinBytes p)).
Definition shrunkBy (n : Z) (s : slot) : slot :=
  withPlan s (λ p, mkPlanned (pp_Index p) (pp_TypeName p) (pp_Name p) (OldFirst p) (OldLast p) (NewFirst p) (u64 (NewLast p - n)) true (Grow p) (Moved p) (MinBytes p)).
Definition withMin (m : Z) (bytes : option Z) (s : slot) : slot :=
  mkSlot (sl_part s) (match bytes with
                      | Some b => let p := sl_plan s in mkPlanned (pp_Index p) (pp_TypeName p) (pp_Name p) (OldFirst p) (OldLast p) (NewFirst p) (NewLast p) (Shrink p) (Grow p) (Moved p) b
                      | None => sl_plan s
                      end) (Some m).

(** ** PlanFit *)

Section plan.
Context {SS : SortSlice}.
Context (l : DiskLayout) (scheme : string) (ss align : Z) (opts : FitOptions) (newLastUsable : Z).

Definition isLogical (s : slot) : bool := String.eqb scheme "mbr" && (mbrPrimarySlots l <=? Index (sl_part s)).
Definition slotData (s : slot) : bool := isData (sl_part s) scheme.

(** The slots before the last data partition, it, and the ones behind it. *)
Fixpoint splitLastData (slots : list slot) : option (list slot * slot * list slot) :=
  match slots with
  | [] => None
  | s :: slots => match splitLastData slots with
                  | Some (pre, d, post) => Some (s :: pre, d, post)
                  | None => if slotData s then Some ([], s, slots) else None
                  end
  end.

(** The trailing partitions, last one first, packed against [end_]; a logical one blocks. *)
Fixpoint packTrailing (rev : list slot) (end_ : Z) : list slot * Z + slot :=
  match rev with
  | [] => inl ([], end_)
  | s :: rev =>
      if isLogical s then inr s
      else
        let first := alignDown (u64 (end_ + 1 - sizeOf s)) align in
        match packTrailing rev (u64 (first - 1)) with
        | inl (rev, end_) => inl (movedTo first s :: rev, end_)
        | inr b => inr b
        end
  end.

Definition growFit (slots : list slot) (tailEnd : Z) : list slot * list fit_warning :=
  if negb (fo_Grow opts) || negb (tailEnd <? newLastUsable) then (slots, [])
  else match splitLastData slots with
       | None => (slots, [])
       | Some (pre, d, post) =>
           let grow to post := (pre ++ (if NewLast (sl_plan d) <? to then grownTo to d else d) :: post, []) in
           if isLogical d then (slots, [WnLogicalGrowth (Index (sl_part d))])
           else match post with
                | [] => grow newLastUsable []
                | _ => if negb (fo_MoveRecoveryToEnd opts) then (slots, [WnCannotGrow (Index (sl_part d)) ((λ s, Index (sl_part s)) <$> post)])
                       else match packTrailing (reverse post) newLastUsable with
                            | inr b => (slots, [WnLogicalBlocks (Index (sl_part b))])
                            | inl (rev, to) => grow to (reverse rev)
                            end
                end
       end.

(** The minimum of a partition in sectors, asked for once. *)
Definition minSectorsOf (s : slot) : slot * Z * list fit_warning :=
  match sl_min s with
  | Some m => (s, m, [])
  | None => match fo_MinSize opts with
            | Some f => match f (sl_part s) with
                        | Some b => let m := alignUp (u64 (u64 b + ss - 1) / ss) align in (withMin m (Some b) s, m, [])
                        | None => (withMin align None s, align, [WnMinUnknown (Index (sl_part s))])
                        end
            | None => (withMin align None s, align, [WnMinUnknown (Index (sl_part s))])
            end
  end.

(** Taking [need] sectors from the data partitions, last one first. *)
Fixpoint shrinkPass (rev : list slot) (need : Z) : list slot * Z * list fit_warning :=
  match rev with
  | [] => ([], need, [])
  | s :: rev' =>
      if need =? 0 then (rev, need, [])
      else if negb (slotData s) || isLogical s then let '(rev', need, ws) := shrinkPass rev' need in (s :: rev', need, ws)
      else
        let '(s, m, w) := minSectorsOf s in
        let allowance := if m <? sizeOf s then sizeOf s - m else 0 in
        let take := if allowance <? need then allowance else need in
        let s := if take =? 0 then s else shrunkBy take s in
        let '(rev', need, ws) := shrinkPass rev' (need - take) in (s :: rev', need, w ++ ws)
  end.

(** Partitions behind a shrunk one follow the one before them, aligned. *)
Fixpoint relayout (shifted : bool) (prev : Z) (slots : list slot) : list slot * list fit_refusal :=
  match slots with
  | [] => ([], [])
  | s :: slots =>
      if shifted && isLogical s then
        let '(slots, rs) := relayout true (NewLast (sl_plan s)) slots in (s :: slots, RfLogicalMoves (Index (sl_part s)) :: rs)
      else
        let first := alignUp (u64 (prev + 1)) align in
        let s := if shifted && negb (first =? NewFirst (sl_plan s)) then movedTo first s else s in
        let '(slots, rs) := relayout (shifted || Shrink (sl_plan s)) (NewLast (sl_plan s)) slots in (s :: slots, rs)
  end.

Definition tailOf (slots : list slot) : Z := match last slots with Some s => NewLast (sl_plan s) | None => 0 end.

Fixpoint shrinkLoop (passes : nat) (slots : list slot) (need : Z) : list slot * Z * list fit_warning * list fit_refusal :=
  match passes with
  | O => (slots, need, [], [])
  | S passes =>
      if need =? 0 then (slots, need, [], [])
      else
        let '(rev, rest, ws) := shrinkPass (reverse slots) need in
        let slots := reverse rev in
        if (0 <? rest) && (rest =? need) then (slots, rest, ws, [])
        else
          let '(slots, rs) := relayout false 0 slots in
          let need := if newLastUsable <? tailOf slots then alignUp (tailOf slots - newLastUsable) align else 0 in
          let '(slots, need, ws', rs') := shrinkLoop passes slots need in (slots, need, ws ++ ws', rs ++ rs')
  end.

Definition shrinkFit (slots : list slot) (tailEnd : Z) : list slot * list fit_warning * list fit_refusal :=
  let '(slots, need, ws, rs) := shrinkLoop 16 slots (tailEnd - newLastUsable) in
  (slots, ws, rs ++ if 0 <? need then [RfTooSmall (u64 (u64 (need * ss) + 2 ^ 20 - 1) / 2 ^ 20)] else []).

Fixpoint realignLoop (pos : Z) (slots : list slot) : list slot :=
  match slots with
  | [] => []
  | s :: slots =>
      if isLogical s then s :: realignLoop pos slots
      else
        let first := alignUp pos align in
        let s := if first =? NewFirst (sl_plan s) then s else movedTo first s in
        s :: realignLoop (u64 (NewLast (sl_plan s) + 1)) slots
  end.
Definition realignFit (slots : list slot) : list slot * list fit_warning :=
  let moved := realignLoop (alignUp (FirstUsableLBA l) align) slots in
  if newLastUsable <? tailOf moved then
    ((λ s, if Moved (sl_plan s) && negb (Shrink (sl_plan s)) then putBack s else s) <$> moved, [WnRealignDropped (tailOf moved - newLastUsable)])
  else (moved, []).

Definition misaligned (s : slot) : option fit_warning :=
  if NewFirst (sl_plan s) mod align =? 0 then None else Some (WnMisaligned (Index (sl_part s)) (NewFirst (sl_plan s))).

(** The last check: no partition empty, overlapping the one before it or past the end. *)
Fixpoint checkSlots (prev : option slot) (slots : list slot) : list fit_refusal :=
  match slots with
  | [] => []
  | s :: slots =>
      let p := sl_plan s in let i := Index (sl_part s) in
      (if NewLast p <? NewFirst p then [RfNoSectors i] else []) ++
      (match prev with Some q => if NewFirst p <=? NewLast (sl_plan q) then [RfOverlap i (Index (sl_part q))] else [] | None => [] end) ++
      (if newLastUsable <? NewLast p then [RfPastEnd i] else []) ++ checkSlots (Some s) slots
  end.

Definition fitSlots (slots : list slot) : list slot * list fit_warning * list fit_refusal :=
  let tailEnd := tailOf slots in
  let '(slots, ws, rs) := if tailEnd <=? newLastUsable then let '(slots, ws) := growFit slots tailEnd in (slots, ws, []) else shrinkFit slots tailEnd in
  let '(slots, ws') := if fo_Realign opts && bool_decide (length rs = 0%nat) then realignFit slots else (slots, []) in
  (slots, ws ++ ws' ++ omap misaligned slots, rs ++ checkSlots None slots).
End plan.

(** [FtPanic]: an alignment unit of no sectors divides by zero. *)
Inductive fit_err := FtNotLayout | FtPanic.

Section planfit.
Context {SS : SortSlice}.

Definition earlyRefusals (l : DiskLayout) (tg : TargetGeometry) : list fit_refusal :=
  (if negb (tg_LogicalSector tg =? 0) && negb (tg_LogicalSector tg =? SectorSize l) then [RfLogicalSector] else []) ++
  (if (tg_Size tg <=? 0) || negb (Z.rem (tg_Size tg) (SectorSize l) =? 0) then [RfTargetSize] else []).

(** The sectors of the entry array, and the last sector a partition may use; [None]: no room for a GPT. *)
Definition entrySectorsOf (l : DiskLayout) (ss : Z) : Z := u64 (u64 (u64 (r_Length (BackupRegion l)) - ss) + ss - 1) / ss.
Definition lastUsableFor (l : DiskLayout) (scheme : string) (ss sectors : Z) : option Z :=
  if String.eqb scheme "gpt" then
    let es := entrySectorsOf l ss in if sectors <? u64 (es + 3) then None else Some (u64 (sectors - 1 - es - 1))
  else Some (u64 (sectors - 1)).
Definition alignUnit (tg : TargetGeometry) (ss : Z) : Z :=
  let align := 2 ^ 20 / ss in let ps := u64 (tg_PhysicalSector tg) in if (0 <? ps) && (align <? ps / ss) then ps / ss else align.

Definition PlanFit (l : DiskLayout) (tg : TargetGeometry) (opts : FitOptions) : result fit_err FitPlan :=
  if (SectorSize l =? 0) || bool_decide (length (Partitions l) = 0%nat) then Err FtNotLayout
  else
    let ss := u64 (SectorSize l) in
    let scheme := if String.eqb (Scheme l) "" then "gpt"%string else Scheme l in
    let plan last parts ws rs := Ok (mkFitPlan scheme (SectorSize l) (tg_Size tg) last parts ws rs) in
    match earlyRefusals l tg with
    | r :: rs => plan 0 [] [] (r :: rs)
    | [] =>
        match lastUsableFor l scheme ss (u64 (tg_Size tg) / ss) with
        | None => plan 0 [] [] [RfNoRoomForGPT]
        | Some last =>
            let align := alignUnit tg ss in
            let slots := startSlot <$> sortSlice FirstLBA (Partitions l) in
            let '(slots, ws, rs) := fitSlots l scheme ss align opts last slots in
            if align =? 0 then Err FtPanic else plan last (sl_plan <$> slots) ws rs
        end
    end.
End planfit.

(** ** ApplyFit *)

(** [ApPanic]: a slice out of range. *)
Inductive apply_err := ApRefused | ApRegionSizes | ApShort | ApNoEntries | ApSlot (i : Z) | ApShortMBR | ApNotPrimary (i : Z) | ApLBA32 (i : Z) | ApPanic.

(** One entry's new extent, at its place in the region. *)
Definition writeExtent (pos : Z) (region : bytes) (pp : PlannedPartition) : bytes :=
  WriteAt (WriteAt region (pos + 32) (PutUint64 (NewFirst pp))) (pos + 40) (PutUint64 (NewLast pp)).
Fixpoint writePlan (entryOff entrySize entryCount : Z) (region : bytes) (pps : list PlannedPartition) : result apply_err bytes :=
  match pps with
  | [] => Ok region
  | pp :: pps =>
      if (pp_Index pp <? 0) || (entryCount <=? pp_Index pp) then Err (ApSlot (pp_Index pp))
      else if entrySize <? 48 then Err ApPanic
      else writePlan entryOff entrySize entryCount (writeExtent (entryOff + pp_Index pp * entrySize) region pp) pps
  end.

(** The captured MBR slot of every primary partition, in parse order. *)
Definition primarySlots (primary : bytes) : list nat :=
  filter (λ i, let e := sub primary (446 + i * 16) 16 in nth 4 e 0 ≠ 0 ∧ le_get (sub e 12 4) ≠ 0 ∧ isExtended (nth 4 e 0) = false) (seq 0 4).
Fixpoint writeMBRPlan (slots : list nat) (primary : bytes) (pps : list PlannedPartition) : result apply_err bytes :=
  match pps with
  | [] => Ok primary
  | pp :: pps =>
      match (if pp_Index pp <? 0 then None else slots !! Z.to_nat (pp_Index pp)) with
      | None => if Moved pp || Shrink pp || Grow pp then Err (ApNotPrimary (pp_Index pp)) else writeMBRPlan slots primary pps
      | Some i =>
          let n := u64 (NewLast pp - NewFirst pp + 1) in
          if (0xFFFFFFFF <? NewFirst pp) || (0xFFFFFFFF <? n) then Err (ApLBA32 (pp_Index pp))
          else
            let pos := Z.of_nat (446 + i * 16) in
            writeMBRPlan slots (WriteAt (WriteAt primary (pos + 8) (PutUint32 (NewFirst pp))) (pos + 12) (PutUint32 n)) pps
      end
  end.
Definition applyFitMBR (plan : FitPlan) (capturedPrimary : bytes) : result apply_err (bytes * Z * bytes) :=
  if len capturedPrimary <? 512 then Err ApShortMBR
  else let! primary := writeMBRPlan (primarySlots capturedPrimary) capturedPrimary (fp_Partitions plan) in Ok (primary, 0, []).

Definition ApplyFit (l : DiskLayout) (plan : FitPlan) (capturedPrimary capturedBackup : bytes) : result apply_err (bytes * Z * bytes) :=
  if negb (Applicable plan) then Err ApRefused
  else if String.eqb (fp_Scheme plan) "mbr" then applyFitMBR plan capturedPrimary
  else
    let ss := SectorSize l in
    if negb (len capturedPrimary =? r_Length (PrimaryRegion l)) || negb (len capturedBackup =? r_Length (BackupRegion l)) then Err ApRegionSizes
    else if len capturedPrimary <? ss + gptHeaderSize then Err ApShort
    else
      let pHdr := drop (Z.to_nat ss) capturedPrimary in
      let headerSize := h_headerSize pHdr in
      let eb := h_entryBytes pHdr in
      let eo := entryOff pHdr ss in
      if len capturedPrimary <? i64 (eo + eb) then Err ApNoEntries
      else if (eo <? 0) || (i64 (eo + eb) <? eo) then Err ApPanic
      else
        let! region := writePlan eo (h_entrySize pHdr) (h_entryCount pHdr) capturedPrimary (fp_Partitions plan) in
        let crc := ChecksumIEEE (sub region (Z.to_nat eo) (Z.to_nat eb)) in
        let entrySectors := Z.quot (i64 (eb + ss - 1)) ss in
        let newLastLBA := Z.quot (fp_TargetSize plan) ss - 1 in
        let newBackupEntryLBA := newLastLBA - entrySectors in
        if (len capturedPrimary <? ss + headerSize) || (headerSize <? gptHeaderSize) || (ss <? headerSize) then Err ApPanic
        else
          let n := Z.to_nat headerSize in
          let patched := WriteAt (WriteAt (WriteAt region (ss + 32) (PutUint64 (u64 newLastLBA))) (ss + 48) (PutUint64 (fp_NewLastUsableLBA plan))) (ss + 88) (PutUint32 crc) in
          let hdr := recomputeHeaderCRC (sub patched (Z.to_nat ss) n) in
          let primary := WriteAt patched ss hdr in
          let copied := WriteAt (sub primary (Z.to_nat eo) (Z.to_nat eb) ++ zeros (Z.to_nat ss)) eb hdr in
          let swapped := WriteAt (WriteAt (WriteAt copied (eb + 24) (PutUint64 (u64 newLastLBA))) (eb + 32) (PutUint64 1)) (eb + 72) (PutUint64 (u64 newBackupEntryLBA)) in
          let backup := WriteAt swapped eb (recomputeHeaderCRC (sub swapped (Z.to_nat eb) n)) in
          Ok (primary, i64 (newBackupEntryLBA * ss), backup).
