(* ===== verification/Fitted.v ===== *)
(** * core/disklayout: what a fit plan promises

    An applicable plan keeps partitions in order, apart and on the target; it moves or
    resizes nothing it must not: only data partitions change size, none falls below the
    minimum that is known for its file system, logical partitions stay as they are. *)

From S2P Require Import Prelude GoBytes GoRuntime Hashes DiskLayout Fit.

(** ** Words *)

Lemma u64_add_l x y : u64 (u64 x + y) = u64 (x + y).
Proof. unfold u64. apply Z.add_mod_idemp_l. lia. Qed.
Lemma u64_sub_l x y : u64 (u64 x - y) = u64 (x - y).
Proof. unfold u64. by rewrite Zminus_mod_idemp_l. Qed.

Lemma alignUp_range a unit : is_u64 a → is_u64 (alignUp a unit).
Proof. intros Ha. unfold alignUp. destruct (_ || _); [done|apply u64_range]. Qed.
Lemma alignUp_le a unit : 0 ≤ unit → 0 ≤ a → a + unit < 2 ^ 64 → a ≤ alignUp a unit.
Proof.
  intros Hu Ha Hs. unfold alignUp. destruct (_ || _) eqn:E; [lia|]. apply orb_false_iff in E as [E1 _]. zbool.
  pose proof (Z.mod_pos_bound a unit ltac:(lia)). rewrite u64_id by (unfold is_u64; lia). lia.
Qed.
Lemma alignDown_range a unit : is_u64 a → 0 ≤ unit → is_u64 (alignDown a unit).
Proof.
  intros Ha Hu. unfold alignDown. destruct (unit =? 0) eqn:E; [done|]. zbool. pose proof (Z.mod_pos_bound a unit ltac:(lia)). pose proof (Z.mod_le a unit). unfold is_u64 in *. lia.
Qed.

(** ** Slots *)

Section slots.
Context (l : DiskLayout) (scheme : string) (ss align : Z) (opts : FitOptions) (last : Z).
Context (Halign : 0 ≤ align) (Hlast : is_u64 last).

Definition logicalPart (p : Partition) : bool := String.eqb scheme "mbr" && (mbrPrimarySlots l <=? Index p).
Definition resizable (p : Partition) : bool := isData p scheme && negb (logicalPart p).
Definition oldSize (p : Partition) : Z := LastLBA p - FirstLBA p + 1.
(** The minimum of a partition, in sectors. *)
Definition minimum (p : Partition) : Z :=
  match fo_MinSize opts ≫= (λ f, f p) with Some b => alignUp (u64 (u64 b + ss - 1) / ss) align | None => align end.

Definition part_words (p : Partition) : Prop := is_u64 (FirstLBA p) ∧ is_u64 (LastLBA p) ∧ FirstLBA p ≤ LastLBA p.

(** What planning keeps of a slot. *)
Record kept (p : Partition) (s : slot) : Prop := {
  ke_part : sl_part s = p;
  ke_same : pp_Index (sl_plan s) = Index p ∧ pp_TypeName (sl_plan s) = TypeName p ∧ pp_Name (sl_plan s) = Name p ∧ OldFirst (sl_plan s) = FirstLBA p ∧ OldLast (sl_plan s) = LastLBA p;
  ke_words : is_u64 (NewFirst (sl_plan s)) ∧ is_u64 (NewLast (sl_plan s));
  ke_logical : logicalPart p = true → NewFirst (sl_plan s) = FirstLBA p ∧ NewLast (sl_plan s) = LastLBA p;
  ke_size : Shrink (sl_plan s) = false → Grow (sl_plan s) = false → sizeOf s = u64 (oldSize p);
  ke_grow : Grow (sl_plan s) = true → resizable p = true ∧ Shrink (sl_plan s) = false;
  ke_shrink : Shrink (sl_plan s) = true → resizable p = true ∧ minimum p ≤ sizeOf s;
  ke_min : ∀ m, sl_min s = Some m → m = minimum p;
  ke_grown : Grow (sl_plan s) = true → oldSize p ≤ sizeOf s ∨ sizeOf s = 0 }.

Lemma start_kept p : part_words p → kept p (startSlot p).
Proof. intros (? & ? & ?). split; try done. Qed.

Lemma sizeOf_moved first s : sizeOf (movedTo first s) = sizeOf s.
Proof.
  unfold sizeOf at 1. cbn [sl_plan movedTo withPlan placedAt NewFirst NewLast]. replace (u64 (first + sizeOf s - 1) - first + 1) with (u64 (first + sizeOf s - 1) + (1 - first)) by lia.
  rewrite u64_add_l. replace (first + sizeOf s - 1 + (1 - first)) with (sizeOf s) by lia. apply u64_id, u64_range.
Qed.

Lemma kept_moved p s first : kept p s → logicalPart p = false → is_u64 first → kept p (movedTo first s).
Proof.
  intros [H1 H2 H3 H4 H5 H6 H7 H8 H9] Hl Hf. split; try done.
  - split; [done|apply u64_range].
  - by rewrite Hl.
  - rewrite sizeOf_moved. exact H5.
  - rewrite sizeOf_moved. exact H7.
  - rewrite sizeOf_moved. exact H9.
Qed.

Lemma isLogical_kept p s : kept p s → isLogical l scheme s = logicalPart p.
Proof. intros [<- _ _ _ _ _ _ _ _]. done. Qed.

Lemma slotData_kept p s : kept p s → slotData scheme s = isData p scheme.
Proof. intros [<- _ _ _ _ _ _ _ _]. done. Qed.

(** ** Growing *)

Lemma packTrailing_kept parts : ∀ slots end_ slots' to, Forall2 kept parts slots → packTrailing l scheme align slots end_ = inl (slots', to) → is_u64 end_ → Forall2 kept parts slots' ∧ is_u64 to.
Proof.
  induction parts as [|p parts IH]; intros slots end_ slots' to Hk Hp He; inversion Hk as [|? s ? slots1 Hs Hk1]; subst; cbn [packTrailing] in Hp; [by simplify_eq|].
  rewrite (isLogical_kept p s Hs) in Hp. destruct (logicalPart p) eqn:El; [done|]. set (first := alignDown _ _) in *.
  destruct (packTrailing _ _ _ slots1 (u64 (first - 1))) as [[rev to']|] eqn:Er; [|done]. simplify_eq. destruct (IH _ _ _ _ Hk1 Er (u64_range _)) as [Hr Ht].
  split; [|done]. constructor; [|done]. apply kept_moved; [done|done|]. apply alignDown_range; [apply u64_range|done].
Qed.

Lemma splitLastData_app slots : ∀ pre d post, splitLastData scheme slots = Some (pre, d, post) → slots = pre ++ d :: post ∧ slotData scheme d = true.
Proof.
  induction slots as [|s slots IH]; intros pre d post; cbn [splitLastData]; [done|]. destruct (splitLastData scheme slots) as [[[pre' d'] post']|].
  - intros [= <- <- <-]. destruct (IH _ _ _ eq_refl) as [-> ?]. done.
  - destruct (slotData scheme s) eqn:Ed; [|done]. intros [= <- <- <-]. done.
Qed.

Lemma kept_grown p s to : part_words p → kept p s → resizable p = true → Shrink (sl_plan s) = false → NewFirst (sl_plan s) ≤ NewLast (sl_plan s) < to → is_u64 to → kept p (grownTo to s).
Proof.
  intros (P1 & P2 & P3) [H1 H2 H3 H4 H5 H6 H7 H8 H9] Hr Hs Hle Ht. unfold resizable in Hr. apply andb_true_iff in Hr as [Hd Hl%negb_true_iff].
  assert (Hrz : resizable p = true) by (unfold resizable; by rewrite Hd, Hl). split; try done.
  - split; [apply H3|done].
  - by rewrite Hl.
  - cbn. congruence.
  - intros _. destruct H3 as [W1 W2]. unfold is_u64 in *. assert (Hsz : sizeOf s = NewLast (sl_plan s) - NewFirst (sl_plan s) + 1) by (apply u64_id; unfold is_u64; lia).
    assert (Hold : oldSize p ≤ sizeOf s).
    { destruct (Grow (sl_plan s)) eqn:Eg; [destruct (H9 eq_refl); lia|]. pose proof (H5 Hs eq_refl) as H5'. unfold oldSize in *. destruct (decide (LastLBA p - FirstLBA p + 1 = 2 ^ 64)) as [E|]; [rewrite E in H5'; change (u64 (2 ^ 64)) with 0 in H5'; lia|].
      rewrite u64_id in H5' by (unfold is_u64; lia). lia. }
    unfold sizeOf at 1 2. cbn [sl_plan grownTo withPlan NewFirst NewLast]. destruct (decide (to - NewFirst (sl_plan s) + 1 = 2 ^ 64)) as [->|]; [by right|left].
    rewrite (u64_id (to - _ + 1)) by (unfold is_u64; lia). lia.
Qed.

Lemma growFit_kept parts slots slots' ws tailEnd : Forall part_words parts → Forall2 kept parts slots → Forall (λ s, Shrink (sl_plan s) = false ∧ NewFirst (sl_plan s) ≤ NewLast (sl_plan s)) slots → growFit l scheme align opts last slots tailEnd = (slots', ws) → Forall2 kept parts slots'.
Proof.
  intros Hpw Hk Hns. unfold growFit. destruct (_ || _); [by intros [= <- _]|]. destruct (splitLastData scheme slots) as [[[pre d] post]|] eqn:Es; [|by intros [= <- _]].
  destruct (splitLastData_app _ _ _ _ Es) as [-> Hd]. apply Forall2_app_inv_r in Hk as (pp & rest & Hpre & Hrest & ->). inversion Hrest as [|p ? parts1 ? Hkd Hpost]; subst.
  apply Forall_app in Hns as [_ [[Hsd Hord] _]%Forall_cons]. apply Forall_app in Hpw as [_ [Hpwp _]%Forall_cons].
  assert (Hgrow : ∀ to post', is_u64 to → logicalPart p = false → Forall2 kept parts1 post' → Forall2 kept (pp ++ p :: parts1) (pre ++ (if NewLast (sl_plan d) <? to then grownTo to d else d) :: post')).
  { intros to post' Ht Hl Hp'. apply Forall2_app; [done|]. constructor; [|done]. destruct (Z.ltb_spec (NewLast (sl_plan d)) to); [|done]. apply kept_grown; try done. unfold resizable. rewrite <- (slotData_kept p d Hkd), Hd, Hl. done. }
  rewrite (isLogical_kept p d Hkd). destruct (logicalPart p) eqn:El.
  { intros [= <- _]. apply Forall2_app; [done|by constructor]. }
  destruct post as [|q post]; [intros [= <- _]; inversion Hpost; subst; by apply Hgrow|].
  destruct (negb (fo_MoveRecoveryToEnd opts)); [intros [= <- _]; apply Forall2_app; [done|by constructor]|].
  destruct (packTrailing _ _ _ (reverse (q :: post)) last) as [[rev to]|b] eqn:Ep; intros [= <- _]; [|apply Forall2_app; [done|by constructor]].
  apply Forall2_reverse in Hpost. destruct (packTrailing_kept _ _ _ _ _ Hpost Ep Hlast) as [Hr Ht]. apply Forall2_reverse in Hr. rewrite reverse_involutive in Hr. by apply Hgrow.
Qed.

(** ** Shrinking *)

Lemma kept_withMin p s b : kept p s → kept p (withMin (minimum p) b s).
Proof. intros [H1 H2 H3 H4 H5 H6 H7 H8 H9]. split; destruct b; try done; by intros m [= <-]. Qed.

Lemma minSectorsOf_kept p s s' m ws : kept p s → minSectorsOf ss align opts s = (s', m, ws) → kept p s' ∧ m = minimum p ∧ sizeOf s' = sizeOf s ∧ Grow (sl_plan s') = Grow (sl_plan s).
Proof.
  intros Hk. unfold minSectorsOf. pose proof (ke_min _ _ Hk) as Hm. rewrite (ke_part _ _ Hk). destruct (sl_min s) as [m0|]; [intros [= <- <- _]; by rewrite (Hm m0)|].
  pose proof (eq_refl (minimum p)) as E. unfold minimum in E at 2. destruct (fo_MinSize opts) as [f|]; [destruct (f p) as [b|] eqn:Ef|]; cbn [mbind option_bind] in E; rewrite ?Ef in E; cbn in E; intros [= <- <- _]; rewrite <- E; (split; [by apply kept_withMin|]); done.
Qed.

Lemma sizeOf_shrunk n s : 0 ≤ n ≤ sizeOf s → sizeOf (shrunkBy n s) = sizeOf s - n.
Proof.
  intros Hn. unfold sizeOf at 1. cbn [sl_plan shrunkBy withPlan NewFirst NewLast]. replace (u64 (NewLast (sl_plan s) - n) - NewFirst (sl_plan s) + 1) with (u64 (NewLast (sl_plan s) - n) + (1 - NewFirst (sl_plan s))) by lia.
  rewrite u64_add_l. replace (NewLast (sl_plan s) - n + (1 - NewFirst (sl_plan s))) with (NewLast (sl_plan s) - NewFirst (sl_plan s) + 1 + - n) by lia.
  rewrite <- u64_add_l. fold (sizeOf s). apply u64_id. pose proof (u64_range (NewLast (sl_plan s) - NewFirst (sl_plan s) + 1)). unfold is_u64, sizeOf in *. lia.
Qed.

Lemma kept_shrunk p s n : kept p s → resizable p = true → Grow (sl_plan s) = false → 0 ≤ n → minimum p ≤ sizeOf s - n → 0 ≤ minimum p → kept p (shrunkBy n s).
Proof.
  intros [H1 H2 H3 H4 H5 H6 H7 H8 H9] Hr Hg Hn Hm H0. unfold resizable in Hr. pose proof Hr as Hr'. apply andb_true_iff in Hr' as [_ Hl%negb_true_iff]. split; try done.
  - split; [apply H3|apply u64_range].
  - by rewrite Hl.
  - cbn. congruence.
  - intros _. split; [done|]. rewrite sizeOf_shrunk by lia. done.
  - cbn. congruence.
Qed.

Definition notGrown (s : slot) : Prop := Grow (sl_plan s) = false.

Lemma minimum_nonneg p : 0 < ss → 0 ≤ minimum p.
Proof.
  intros Hss. unfold minimum. destruct (_ ≫= _) as [b|]; [|done]. assert (0 ≤ u64 (u64 b + ss - 1) / ss) by (apply Z.div_pos; [apply u64_range|done]).
  unfold alignUp. destruct (_ || _); [done|apply u64_range].
Qed.

Lemma shrinkPass_kept parts : 0 < ss → ∀ slots need slots' need' ws, 0 ≤ need → Forall2 kept parts slots → Forall notGrown slots → shrinkPass l scheme ss align opts slots need = (slots', need', ws) →
  Forall2 kept parts slots' ∧ Forall notGrown slots' ∧ 0 ≤ need'.
Proof.
  intros Hss. induction parts as [|p parts IH]; intros slots need slots' need' ws Hn Hk Hg Hp; inversion Hk as [|? s ? slots1 Hs Hk1]; subst; cbn [shrinkPass] in Hp; [by simplify_eq|].
  apply Forall_cons in Hg as [Hg Hg1]. destruct (need =? 0); [by simplify_eq; split; [constructor|split; [constructor|]]|].
  rewrite (isLogical_kept p s Hs), (slotData_kept p s Hs) in Hp. destruct (negb (isData p scheme) || logicalPart p) eqn:Er.
  - destruct (shrinkPass _ _ _ _ _ slots1 need) as [[rev1 need1] ws1] eqn:E1. simplify_eq. destruct (IH _ _ _ _ _ Hn Hk1 Hg1 E1) as (? & ? & ?). split; [by constructor|]. split; [by constructor|done].
  - apply orb_false_iff in Er as [Hd%negb_false_iff Hl]. assert (Hr : resizable p = true) by (unfold resizable; by rewrite Hd, Hl).
    destruct (minSectorsOf ss align opts s) as [[s1 m] w] eqn:Em. destruct (minSectorsOf_kept _ _ _ _ _ Hs Em) as (Hs1 & -> & Hsz & Hgr).
    set (allowance := if minimum p <? sizeOf s1 then sizeOf s1 - minimum p else 0) in *. set (take := if allowance <? need then allowance else need) in *.
    assert (Ha : 0 ≤ allowance) by (subst allowance; destruct (Z.ltb_spec (minimum p) (sizeOf s1)); lia).
    assert (Ht : 0 ≤ take ≤ allowance ∧ take ≤ need) by (subst take; destruct (Z.ltb_spec allowance need); lia).
    assert (Hn1 : 0 ≤ need - take) by lia. destruct (shrinkPass _ _ _ _ _ slots1 (need - take)) as [[rev1 need1] ws1] eqn:E1. simplify_eq. destruct (IH _ _ _ _ _ Hn1 Hk1 Hg1 E1) as (? & ? & ?).
    assert (Hk' : kept p (if take =? 0 then s1 else shrunkBy take s1)).
    { destruct (Z.eqb_spec take 0) as [|Hnz]; [done|]. pose proof (minimum_nonneg p Hss). apply kept_shrunk; try done; [unfold notGrown in Hg; congruence|lia|].
      subst allowance. destruct (Z.ltb_spec (minimum p) (sizeOf s1)); lia. }
    split; [by constructor|]. split; [constructor; [|done]; unfold notGrown in *; destruct (take =? 0); cbn; congruence|done].
Qed.

Lemma relayout_kept parts : ∀ shifted prev slots slots' rs, Forall2 kept parts slots → Forall notGrown slots → relayout l scheme align shifted prev slots = (slots', rs) → Forall2 kept parts slots' ∧ Forall notGrown slots'.
Proof.
  induction parts as [|p parts IH]; intros shifted prev slots slots' rs Hk Hg Hp; inversion Hk as [|? s ? slots1 Hs Hk1]; subst; cbn [relayout] in Hp; [by simplify_eq|].
  apply Forall_cons in Hg as [Hg Hg1]. rewrite (isLogical_kept p s Hs) in Hp. destruct (shifted && logicalPart p) eqn:El.
  - destruct (relayout _ _ _ true _ slots1) as [sl1 rs1] eqn:E1. simplify_eq. destruct (IH _ _ _ _ _ Hk1 Hg1 E1). split; by constructor.
  - set (s1 := if (_ : bool) then movedTo _ s else s) in *. destruct (relayout _ _ _ _ _ slots1) as [sl1 rs1] eqn:E1. simplify_eq. destruct (IH _ _ _ _ _ Hk1 Hg1 E1).
    assert (Hk' : kept p s1 ∧ notGrown s1).
    { subst s1. clear E1. destruct shifted; cbn [andb] in El |- *; [|done]. destruct (_ =? NewFirst (sl_plan s)); cbn [negb]; [done|]. split; [|done]. apply kept_moved; [done|done|]. apply alignUp_range, u64_range. }
    destruct Hk'. split; by constructor.
Qed.

Lemma shrinkLoop_kept parts passes : 0 < ss → ∀ slots need slots' need' ws rs, 0 ≤ need → Forall2 kept parts slots → Forall notGrown slots →
  shrinkLoop l scheme ss align opts last passes slots need = (slots', need', ws, rs) → Forall2 kept parts slots'.
Proof.
  intros Hss. induction passes as [|passes IH]; intros slots need slots' need' ws rs Hn Hk Hg; cbn [shrinkLoop]; [by intros [= <- _ _ _]|]. destruct (need =? 0); [by intros [= <- _ _ _]|].
  destruct (shrinkPass _ _ _ _ _ (reverse slots) need) as [[rev rest] w1] eqn:E1. apply Forall2_reverse in Hk. apply Forall_reverse in Hg.
  destruct (shrinkPass_kept _ Hss _ _ _ _ _ Hn Hk Hg E1) as (Hk1 & Hg1 & Hr). apply Forall2_reverse in Hk1. rewrite reverse_involutive in Hk1. apply Forall_reverse in Hg1.
  destruct (_ && _); [by intros [= <- _ _ _]|]. destruct (relayout _ _ _ false 0 (reverse rev)) as [sl rs1] eqn:E2. destruct (relayout_kept _ _ _ _ _ _ Hk1 Hg1 E2) as [Hk2 Hg2].
  destruct (shrinkLoop _ _ _ _ _ _ passes sl _) as [[[sl2 n2] w2] r2] eqn:E3. intros [= <- _ _ _]. eapply IH; [|exact Hk2|exact Hg2|exact E3].
  destruct (Z.ltb_spec last (tailOf sl)); [|done]. unfold alignUp. destruct (_ || _); [lia|apply u64_range].
Qed.

(** ** Realigning and the last check *)

Lemma realignLoop_kept parts : ∀ pos slots, is_u64 pos → Forall2 kept parts slots → Forall2 kept parts (realignLoop l scheme align pos slots).
Proof.
  induction parts as [|p parts IH]; intros pos slots Hp Hk; inversion Hk as [|? s ? slots1 Hs Hk1]; subst; cbn [realignLoop]; [constructor|].
  rewrite (isLogical_kept p s Hs). destruct (logicalPart p) eqn:El; [constructor; [done|by apply IH]|]. constructor; [|apply IH; [apply u64_range|done]].
  destruct (_ =? _); [done|]. apply kept_moved; [done|done|]. by apply alignUp_range.
Qed.

Lemma kept_putBack p s : part_words p → kept p s → Shrink (sl_plan s) = false → kept p (putBack s).
Proof.
  intros (W1 & W2 & W3) [H1 (I1 & I2 & I3 & I4 & I5) H3 H4 H5 H6 H7 H8 H9] Hs. split.
  - done.
  - done.
  - cbn. by rewrite I4, I5.
  - intros _. cbn. by rewrite I4, I5.
  - intros _ _. unfold sizeOf. cbn. by rewrite I4, I5.
  - exact H6.
  - cbn. congruence.
  - exact H8.
  - intros _. unfold sizeOf, oldSize. cbn. rewrite I4, I5. unfold is_u64 in *. destruct (decide (LastLBA p - FirstLBA p + 1 = 2 ^ 64)) as [->|]; [by right|left]. rewrite u64_id by (unfold is_u64; lia). lia.
Qed.

Lemma realignFit_kept parts slots slots' ws : Forall part_words parts → is_u64 (FirstUsableLBA l) → Forall2 kept parts slots → realignFit l scheme align last slots = (slots', ws) → Forall2 kept parts slots'.
Proof.
  intros Hw Hf Hk. unfold realignFit. pose proof (realignLoop_kept parts (alignUp (FirstUsableLBA l) align) slots (alignUp_range _ _ Hf) Hk) as Hm. destruct (_ <? _); intros [= <- _]; [|done].
  clear Hk. induction Hm as [|p s parts' slots1 Hs Hk1 IH] in Hw |- *; [constructor|]. apply Forall_cons in Hw as [Hp Hw]. cbn. constructor; [|by apply IH].
  destruct (Moved (sl_plan s) && _) eqn:E; [|done]. apply andb_true_iff in E as [_ E%negb_true_iff]. by apply kept_putBack.
Qed.
(** ** Where the first partition starts *)

(** Neither growing nor shrinking moves the first slot; realigning puts it at or behind the first usable sector. *)
Definition starts (slots : list slot) : list Z := (λ s, NewFirst (sl_plan s)) <$> slots.

Lemma growFit_head slots slots' ws tailEnd : growFit l scheme align opts last slots tailEnd = (slots', ws) → head (starts slots') = head (starts slots).
Proof.
  unfold growFit. destruct (_ || _); [by intros [= <- _]|]. destruct (splitLastData scheme slots) as [[[pre d] post]|] eqn:Es; [|by intros [= <- _]].
  destruct (splitLastData_app _ _ _ _ Es) as [-> _].
  assert (Hgrow : ∀ to post', head (starts (pre ++ (if NewLast (sl_plan d) <? to then grownTo to d else d) :: post')) = head (starts (pre ++ d :: post))) by (intros to post'; destruct pre, (_ <? to); done).
  destruct (isLogical l scheme d); [by intros [= <- _]|]. destruct post as [|q post]; [intros [= <- _]; apply Hgrow|].
  destruct (negb _); [by intros [= <- _]|]. destruct (packTrailing _ _ _ _ _) as [[rev to]|b]; intros [= <- _]; [apply Hgrow|done].
Qed.

Lemma shrinkPass_starts slots : ∀ need slots' need' ws, shrinkPass l scheme ss align opts slots need = (slots', need', ws) → starts slots' = starts slots.
Proof.
  induction slots as [|s slots IH]; intros need slots' need' ws; cbn [shrinkPass]; [by intros [= <- _ _]|]. destruct (need =? 0); [by intros [= <- _ _]|]. destruct (_ || _).
  - destruct (shrinkPass _ _ _ _ _ slots need) as [[rev n1] w1] eqn:E1. intros [= <- _ _]. cbn. f_equal. by eapply IH.
  - destruct (minSectorsOf ss align opts s) as [[s1 m] w] eqn:Em. destruct (shrinkPass _ _ _ _ _ slots _) as [[rev n1] w1] eqn:E1. intros [= <- _ _]. cbn. f_equal; [|by eapply IH].
    assert (Hm : NewFirst (sl_plan s1) = NewFirst (sl_plan s)) by (unfold minSectorsOf in Em; repeat case_match; simplify_eq; done). by destruct (_ =? 0).
Qed.

Lemma relayout_head prev slots slots' rs : relayout l scheme align false prev slots = (slots', rs) → head (starts slots') = head (starts slots).
Proof. destruct slots as [|s slots]; cbn [relayout andb]; [by intros [= <- _]|]. destruct (relayout _ _ _ _ _ slots). by intros [= <- _]. Qed.

Lemma shrinkLoop_head passes : ∀ slots need slots' need' ws rs, shrinkLoop l scheme ss align opts last passes slots need = (slots', need', ws, rs) → head (starts slots') = head (starts slots).
Proof.
  induction passes as [|passes IH]; intros slots need slots' need' ws rs; cbn [shrinkLoop]; [by intros [= <- _ _ _]|]. destruct (need =? 0); [by intros [= <- _ _ _]|].
  destruct (shrinkPass _ _ _ _ _ (reverse slots) need) as [[rev rest] w1] eqn:E1. apply shrinkPass_starts in E1.
  assert (Hrev : starts (reverse rev) = starts slots) by (unfold starts in *; rewrite fmap_reverse, E1, fmap_reverse, reverse_involutive; done).
  destruct (_ && _); [intros [= <- _ _ _]; by rewrite Hrev|]. destruct (relayout _ _ _ false 0 (reverse rev)) as [sl rs1] eqn:E2. apply relayout_head in E2.
  destruct (shrinkLoop _ _ _ _ _ _ passes sl _) as [[[sl2 n2] w2] r2] eqn:E3. intros [= <- _ _ _]. by rewrite (IH _ _ _ _ _ _ E3), E2, Hrev.
Qed.

Definition startsFrom (lo : Z) (slots : list slot) : Prop := ∀ x, head (starts slots) = Some x → lo ≤ x.

Lemma kept_starts parts slots : Forall2 kept parts slots → startsFrom 0 slots.
Proof. intros Hk x. destruct Hk as [|p s ? ? Hs _]; [done|]. intros [= <-]. destruct (ke_words _ _ Hs) as [[? _] _]. done. Qed.

Lemma alignUp_twice a : 0 ≤ a < 2 ^ 63 → align < 2 ^ 62 → a ≤ alignUp (alignUp a align) align.
Proof.
  intros Ha Hal. pose proof (alignUp_le a align Halign ltac:(lia) ltac:(lia)) as H1. assert (H2 : alignUp a align ≤ a + align).
  { unfold alignUp. destruct (_ || _) eqn:E; [lia|]. apply orb_false_iff in E as [E _]. zbool. pose proof (Z.mod_pos_bound a align ltac:(lia)). rewrite u64_id by (unfold is_u64; lia). lia. }
  etrans; [exact H1|]. apply alignUp_le; lia.
Qed.

Lemma realignFit_from lo parts slots slots' ws : align < 2 ^ 62 → 0 ≤ FirstUsableLBA l < 2 ^ 63 → lo ≤ FirstUsableLBA l → Forall (λ p, lo ≤ FirstLBA p) parts → Forall2 kept parts slots →
  startsFrom lo slots → realignFit l scheme align last slots = (slots', ws) → startsFrom lo slots'.
Proof.
  intros Hal Hf Hlo Hp Hk Hs. unfold realignFit. destruct slots as [|s slots]; [destruct (_ <? _); intros [= <- _]; by intros x|]. inversion Hk as [|p ? parts1 ? Hks _]; subst. apply Forall_cons in Hp as [Hp _].
  pose proof (alignUp_twice (FirstUsableLBA l) Hf Hal) as Ha. pose proof (Hs _ eq_refl) as Hlow. destruct (ke_same _ _ Hks) as (_ & _ & _ & Hold & _). cbn [realignLoop].
  assert (Hmoved : ∀ s1 sl1, OldFirst (sl_plan s1) = OldFirst (sl_plan s) → lo ≤ NewFirst (sl_plan s1) →
    startsFrom lo (s1 :: sl1) ∧ startsFrom lo ((λ s, if Moved (sl_plan s) && negb (Shrink (sl_plan s)) then putBack s else s) <$> s1 :: sl1)).
  { intros s1 sl1 Ho Hn. split; intros x [= <-]; [done|]. destruct (_ && _); cbn; [lia|done]. }
  destruct (isLogical l scheme s); [|set (s1 := if _ =? _ then s else movedTo _ s)].
  - destruct (Hmoved s (realignLoop l scheme align (alignUp (FirstUsableLBA l) align) slots) eq_refl Hlow). destruct (_ <? _); by intros [= <- _].
  - destruct (Hmoved s1 (realignLoop l scheme align (u64 (NewLast (sl_plan s1) + 1)) slots)) as [? ?]; [by subst s1; destruct (_ =? _)|subst s1; destruct (_ =? _); cbn; lia|]. destruct (_ <? _); by intros [= <- _].
Qed.
End slots.

Lemma checkSlots_ok last slots : ∀ prev, checkSlots last prev slots = [] →
  Forall (λ s, NewFirst (sl_plan s) ≤ NewLast (sl_plan s) ≤ last) slots ∧ StronglySorted (λ s s', NewLast (sl_plan s) < NewFirst (sl_plan s')) slots ∧
  ∀ q, prev = Some q → Forall (λ s, NewLast (sl_plan q) < NewFirst (sl_plan s)) slots.
Proof.
  induction slots as [|s slots IH]; intros prev; cbn [checkSlots]; [intros _; split; [constructor|]; split; [constructor|intros; constructor]|].
  intros [H1 [H2 [H3 H4]%app_nil]%app_nil]%app_nil. destruct (Z.ltb_spec (NewLast (sl_plan s)) (NewFirst (sl_plan s))); [done|]. destruct (Z.ltb_spec last (NewLast (sl_plan s))); [done|].
  destruct (IH _ H4) as (Ha & Hb & Hc). specialize (Hc s eq_refl). split; [constructor; [lia|done]|]. split; [by constructor|].
  intros q ->. destruct (Z.leb_spec (NewFirst (sl_plan s)) (NewLast (sl_plan q))); [done|]. constructor; [done|]. eapply Forall_impl; [exact Hc|]. cbn. lia.
Qed.

Lemma sorted_from lo last slots : startsFrom lo slots → Forall (λ s, NewFirst (sl_plan s) ≤ NewLast (sl_plan s) ≤ last) slots → StronglySorted (λ s s', NewLast (sl_plan s) < NewFirst (sl_plan s')) slots →
  Forall (λ s, lo ≤ NewFirst (sl_plan s)) slots.
Proof.
  intros Hf Hp Hs. destruct Hs as [|s slots _ Hall]; [constructor|]. pose proof (Hf _ eq_refl) as H0. apply Forall_cons in Hp as [Hp _]. constructor; [done|]. eapply Forall_impl; [exact Hall|]. cbn in *. lia.
Qed.

(** ** The plan *)

(** A partition and its place on the target, from sector [lo] to sector [last]. *)
Record fits (l : DiskLayout) (scheme : string) (opts : FitOptions) (lo last : Z) (p : Partition) (pp : PlannedPartition) : Prop := {
  fi_same : pp_Index pp = Index p ∧ OldFirst pp = FirstLBA p ∧ OldLast pp = LastLBA p;
  fi_place : lo ≤ NewFirst pp ∧ NewFirst pp ≤ NewLast pp ≤ last;
  fi_logical : logicalPart l scheme p = true → NewFirst pp = FirstLBA p ∧ NewLast pp = LastLBA p;
  fi_size : resizable l scheme p = false ∨ Shrink pp = false ∧ Grow pp = false → NewLast pp - NewFirst pp = LastLBA p - FirstLBA p;
  fi_min : ∀ b, Shrink pp = true → fo_MinSize opts ≫= (λ f, f p) = Some b → 0 ≤ b < 2 ^ 63 → b ≤ (NewLast pp - NewFirst pp + 1) * SectorSize l;
  fi_grow : Grow pp = true → Shrink pp = false ∧ LastLBA p - FirstLBA p ≤ NewLast pp - NewFirst pp }.

Lemma kept_fits l scheme align opts lo last p s : 0 < SectorSize l ≤ 4096 → 0 ≤ align < 2 ^ 62 → last < 2 ^ 63 → part_words p → kept l scheme (SectorSize l) align opts p s →
  lo ≤ NewFirst (sl_plan s) → NewFirst (sl_plan s) ≤ NewLast (sl_plan s) ≤ last → fits l scheme opts lo last p (sl_plan s).
Proof.
  intros Hss Hal Hl (W1 & W2 & W3) [H1 (I1 & _ & _ & I4 & I5) [H3 H3'] H4 H5 H6 H7 H8 H9] Hlow Hp. unfold is_u64 in *.
  assert (Hsz : sizeOf s = NewLast (sl_plan s) - NewFirst (sl_plan s) + 1) by (apply u64_id; unfold is_u64; lia). split.
  - done.
  - lia.
  - exact H4.
  - intros Hr. assert (Hflags : Shrink (sl_plan s) = false ∧ Grow (sl_plan s) = false).
    { destruct Hr as [Hr|Hr]; [|done]. split; [destruct (Shrink (sl_plan s)); [|done]; destruct (H7 eq_refl); congruence|destruct (Grow (sl_plan s)); [|done]; destruct (H6 eq_refl); congruence]. }
    destruct Hflags as [Hf1 Hf2]. specialize (H5 Hf1 Hf2). rewrite Hsz in H5. unfold oldSize in H5. destruct (decide (LastLBA p - FirstLBA p + 1 < 2 ^ 64)).
    + rewrite u64_id in H5 by (unfold is_u64; lia). lia.
    + assert (LastLBA p - FirstLBA p + 1 = 2 ^ 64) as E by lia. rewrite E in H5. change (u64 (2 ^ 64)) with 0 in H5. lia.
  - intros b Hsh Hb Hrange. destruct (H7 Hsh) as [_ Hmin]. rewrite Hsz in Hmin. unfold minimum in Hmin. rewrite Hb in Hmin. rewrite (u64_id b), u64_id in Hmin by (unfold is_u64; lia).
    set (ss := SectorSize l) in *. set (m := (b + ss - 1) / ss) in *.
    assert (Hm : b ≤ m * ss) by (subst m; pose proof (Z.mod_pos_bound (b + ss - 1) ss ltac:(lia)); pose proof (Z.div_mod (b + ss - 1) ss ltac:(lia)); lia).
    assert (Hm' : 0 ≤ m ≤ 2 ^ 63). { split; [apply Z.div_pos; lia|]. etrans; [apply Z.div_le_upper_bound with (q := 2 ^ 63); nia|lia]. }
    pose proof (alignUp_le m align ltac:(lia) ltac:(lia) ltac:(lia)). nia.
  - intros Hg. split; [apply (H6 Hg)|]. destruct (H9 Hg) as [Ho|Ho]; [|lia]. rewrite Hsz in Ho. unfold oldSize in Ho. lia.
Qed.

Section planned.
Context {SS : SortSlice}.

Lemma alignUnit_bounds tg ss : 0 < ss → 0 ≤ tg_PhysicalSector tg < 2 ^ 32 → 0 ≤ alignUnit tg ss < 2 ^ 62.
Proof.
  intros Hss Hps. unfold alignUnit. rewrite u64_id by (unfold is_u64; lia).
  assert (H1 : 0 ≤ 2 ^ 20 / ss ≤ 2 ^ 20) by (split; [apply Z.div_pos; lia|apply Z.div_le_upper_bound; nia]).
  assert (H2 : 0 ≤ tg_PhysicalSector tg / ss ≤ 2 ^ 32) by (split; [apply Z.div_pos; lia|apply Z.div_le_upper_bound; nia]). destruct (_ && _); lia.
Qed.

(** Sectors no planned partition starts before: none at all, or those before [lo] when the captured partitions
    and the usable range, which is not at the end of the numbers, start at [lo] or behind it. *)
Definition lowest (l : DiskLayout) (lo : Z) : Prop := lo = 0 ∨ lo ≤ FirstUsableLBA l < 2 ^ 63 ∧ Forall (λ p, lo ≤ FirstLBA p) (Partitions l).

Lemma fitSlots_kept l scheme ss align opts lo last parts slots' ws rs : 0 < ss → 0 ≤ align < 2 ^ 62 → is_u64 last → is_u64 (FirstUsableLBA l) → Forall part_words parts → parts ≠ [] →
  parts ≡ₚ Partitions l → lowest l lo → fitSlots l scheme ss align opts last (startSlot <$> parts) = (slots', ws, rs) → rs = [] →
  Forall2 (kept l scheme ss align opts) parts slots' ∧ checkSlots last None slots' = [] ∧ startsFrom lo slots'.
Proof.
  intros Hss [Hal Hal2] Hlast Hf Hw Hne Hperm Hlo. unfold fitSlots.
  assert (Hk : Forall2 (kept l scheme ss align opts) parts (startSlot <$> parts)). { clear -Hw. induction Hw; [constructor|]. cbn. constructor; [by apply start_kept|done]. }
  assert (Hs : ∀ f : slot → bool, f = (λ s, Shrink (sl_plan s)) ∨ f = (λ s, Grow (sl_plan s)) → Forall (λ s, f s = false) (startSlot <$> parts)) by (intros f [->| ->]; apply Forall_fmap, Forall_forall; done).
  destruct (if tailOf _ <=? last then _ else _) as [[sl1 w1] r1] eqn:E1.
  assert (Hk1 : Forall2 (kept l scheme ss align opts) parts sl1).
  { destruct (Z.leb_spec (tailOf (startSlot <$> parts)) last).
    - destruct (growFit _ _ _ _ _ _ _) as [sl wg] eqn:Eg. simplify_eq. eapply (growFit_kept l scheme ss align opts last); [..|exact Eg]; try done. apply Forall_fmap. eapply Forall_impl; [exact Hw|]. intros p (_ & _ & Hle). done.
    - unfold shrinkFit in E1. destruct (shrinkLoop _ _ _ _ _ _ _ _ _) as [[[sl nd] wg] rg] eqn:Eg. simplify_eq. eapply (shrinkLoop_kept l scheme ss align opts last); [done|..|exact Eg]; [done|lia|exact Hk|apply (Hs (λ s, Grow (sl_plan s))); auto]. }
  assert (Hh1 : head (starts sl1) = head (starts (startSlot <$> parts))).
  { destruct (_ <=? _); [destruct (growFit _ _ _ _ _ _ _) eqn:Eg; simplify_eq; by eapply growFit_head|]. unfold shrinkFit in E1. destruct (shrinkLoop _ _ _ _ _ _ _ _ _) as [[[sl nd] wg] rg] eqn:Eg. simplify_eq. by eapply shrinkLoop_head. }
  destruct (if fo_Realign opts && _ then _ else _) as [sl2 w2] eqn:E2. intros [= <- _ <-] [_ Hc]%app_nil.
  assert (Hk2 : Forall2 (kept l scheme ss align opts) parts sl2) by (destruct (fo_Realign opts && _); [by eapply realignFit_kept|by simplify_eq]).
  split; [done|]. split; [done|]. destruct Hlo as [->|[Hlo Hlow]]; [by apply (kept_starts l scheme ss align opts parts)|]. rewrite <- Hperm in Hlow.
  assert (Hf1 : startsFrom lo sl1). { intros x. rewrite Hh1. destruct parts; [done|]. intros [= <-]. by apply Forall_cons in Hlow as [? _]. }
  destruct (fo_Realign opts && _); [|by simplify_eq]. eapply realignFit_from; [done|done|..|exact E2]; unfold is_u64 in *; (done || lia).
Qed.

Definition schemeOf (l : DiskLayout) : string := if String.eqb (Scheme l) "" then "gpt"%string else Scheme l.

Lemma lastUsable_bounds l tg last : 0 < SectorSize l ≤ 4096 → 0 < tg_Size tg < 2 ^ 63 → lastUsableFor l (schemeOf l) (SectorSize l) (tg_Size tg / SectorSize l) = Some last →
  SectorSize l ≤ r_Length (BackupRegion l) < 2 ^ 62 ∨ schemeOf l = "mbr"%string → 0 < tg_Size tg / SectorSize l →
  -1 ≤ last < 2 ^ 63 ∧ (last + 1) * SectorSize l ≤ tg_Size tg ∧ (schemeOf l = "gpt"%string → 0 ≤ last ∧ (last + 1) * SectorSize l + r_Length (BackupRegion l) ≤ tg_Size tg).
Proof.
  intros Hss Hsz Hlu Hb Hpos. set (ss := SectorSize l) in *. set (sectors := tg_Size tg / ss) in *.
  assert (Hs : 0 < sectors ∧ sectors * ss ≤ tg_Size tg) by (subst sectors; split; [done|]; pose proof (Z.mod_pos_bound (tg_Size tg) ss ltac:(lia)); pose proof (Z.div_mod (tg_Size tg) ss ltac:(lia)); lia).
  assert (Hs63 : sectors < 2 ^ 63) by nia. unfold lastUsableFor in Hlu. destruct (String.eqb_spec (schemeOf l) "gpt") as [Eg|Eg].
  - destruct Hb as [Hb|Hb]; [|rewrite Hb in Eg; discriminate]. set (bl := r_Length (BackupRegion l)) in *.
    assert (He : entrySectorsOf l ss = (bl - 1) / ss).
    { unfold entrySectorsOf. fold bl. rewrite (u64_id bl), (u64_id (bl - ss)), u64_id by (unfold is_u64; lia). f_equal. lia. }
    rewrite He in Hlu. set (es := (bl - 1) / ss) in *. assert (Hes : 0 ≤ es ∧ bl - ss ≤ es * ss ∧ es ≤ 2 ^ 62).
    { subst es. pose proof (Z.mod_pos_bound (bl - 1) ss ltac:(lia)). pose proof (Z.div_mod (bl - 1) ss ltac:(lia)). split_and!; [apply Z.div_pos; lia|lia|apply Z.div_le_upper_bound; nia]. }
    rewrite u64_id in Hlu by (unfold is_u64; lia). destruct (Z.ltb_spec sectors (es + 3)); [done|]. injection Hlu as <-. rewrite u64_id by (unfold is_u64; lia). split_and!; try lia; nia.
  - injection Hlu as <-. rewrite u64_id by (unfold is_u64; lia). split_and!; [lia|lia|nia|by intros].
Qed.

(** The parts a layout must have to be planned: words, and a table that ends the disk. *)
Record plannable (l : DiskLayout) (tg : TargetGeometry) : Prop := {
  pb_parts : Forall part_words (Partitions l);
  pb_first : is_u64 (FirstUsableLBA l);
  pb_sector : 0 < SectorSize l ≤ 4096;
  pb_scheme : schemeOf l = "gpt"%string ∧ SectorSize l ≤ r_Length (BackupRegion l) < 2 ^ 62 ∨ schemeOf l = "mbr"%string;
  pb_target : tg_Size tg < 2 ^ 63 ∧ 0 ≤ tg_PhysicalSector tg < 2 ^ 32 }.

Lemma Applicable_nil plan : Applicable plan = true → fp_Refusals plan = [].
Proof. by intros ?%bool_decide_eq_true%length_zero_iff_nil. Qed.

Lemma plan_fits l tg opts plan lo : plannable l tg → lowest l lo → PlanFit l tg opts = Ok plan → Applicable plan = true →
  (∃ parts, parts ≡ₚ Partitions l ∧ Forall2 (fits l (schemeOf l) opts lo (fp_NewLastUsableLBA plan)) parts (fp_Partitions plan)) ∧
  StronglySorted (λ p q, NewLast p < NewFirst q) (fp_Partitions plan) ∧ (fp_NewLastUsableLBA plan + 1) * SectorSize l ≤ tg_Size tg ∧
  (schemeOf l = "gpt"%string → (fp_NewLastUsableLBA plan + 1) * SectorSize l + r_Length (BackupRegion l) ≤ tg_Size tg) ∧
  fp_Scheme plan = schemeOf l ∧ fp_TargetSize plan = tg_Size tg ∧ 0 ≤ fp_NewLastUsableLBA plan < 2 ^ 63 ∧ Z.rem (tg_Size tg) (SectorSize l) = 0 ∧ 0 < tg_Size tg.
Proof.
  intros [Hw Hf Hss Hsc [Hsz Hps]] Hlo. unfold PlanFit. fold (schemeOf l). rewrite (u64_id (SectorSize l)) by (unfold is_u64; lia). destruct (_ || bool_decide _) eqn:E0; [done|]. apply orb_false_iff in E0 as [_ Hne%bool_decide_eq_false].
  destruct (earlyRefusals l tg) as [|rf rfs] eqn:Ee; [|intros [= <-] Hap%Applicable_nil; discriminate Hap]. unfold earlyRefusals in Ee. apply app_nil in Ee as [_ Ee]. destruct (_ || _) eqn:E1 in Ee; [done|]. clear Ee.
  apply orb_false_iff in E1 as [E1 E2%negb_false_iff]. zbool.
  rewrite (u64_id (tg_Size tg)) by (unfold is_u64; lia). destruct (lastUsableFor _ _ _ _) as [last|] eqn:El; [|intros [= <-] Hap%Applicable_nil; discriminate Hap].
  assert (Hpos : 0 < tg_Size tg / SectorSize l). { apply Z.div_str_pos. split; [lia|]. rewrite Z.rem_mod_nonneg in E2 by lia. apply Z.mod_divide in E2; [|lia]. apply Z.divide_pos_le; [lia|done]. }
  destruct (lastUsable_bounds l tg last Hss ltac:(lia) El ltac:(tauto) Hpos) as (Hl & Hl1 & Hl2). pose proof (alignUnit_bounds tg (SectorSize l) ltac:(lia) Hps) as Hal.
  destruct (fitSlots _ _ _ _ _ _ _) as [[slots ws] rs] eqn:Es. destruct (alignUnit tg (SectorSize l) =? 0); [done|]. intros [= <-] Hap%Applicable_nil. cbn [fp_Refusals fp_Partitions fp_NewLastUsableLBA fp_Scheme fp_TargetSize] in *.
  set (parts := sortSlice FirstLBA (Partitions l)) in *.
  assert (Hperm : parts ≡ₚ Partitions l) by apply sortSlice_perm. assert (Hpw : Forall part_words parts) by by rewrite Hperm.
  assert (Hne' : parts ≠ []). { intros E. apply Hne. by rewrite <- Hperm, E. }
  assert (Hlast : 0 ≤ last).
  { destruct Hsc as [[Hg _]|Hm]; [by apply Hl2|]. unfold lastUsableFor in El. rewrite Hm in El. cbn in El. injection El as <-. apply u64_range. }
  destruct (fitSlots_kept l (schemeOf l) (SectorSize l) (alignUnit tg (SectorSize l)) opts lo last parts slots ws rs ltac:(lia) ltac:(lia) ltac:(unfold is_u64; lia) Hf Hpw Hne' Hperm Hlo Es Hap) as (Hk & Hc & Hst).
  destruct (checkSlots_ok last slots None Hc) as (Hp & Hsort & _). pose proof (sorted_from lo last slots Hst Hp Hsort) as Hfrom. split; [exists parts; split; [done|]|split; [|split_and!; first [done|lia|intros Hg; apply (Hl2 Hg)]]].
  - clear -Hk Hp Hpw Hss Hal Hl Hfrom. induction Hk as [|p s parts slots Hs Hk IH]; [constructor|]. apply Forall_cons in Hp as [Hp1 Hp2], Hpw as [Hw1 Hw2], Hfrom as [Hf1 Hf2]. cbn. constructor; [|by apply IH].
    eapply kept_fits; try done; lia.
  - clear -Hsort. induction Hsort as [|s slots _ IH Hall]; [constructor|]. cbn. constructor; [done|]. apply Forall_fmap. exact Hall.
Qed.

(** C39. A plan that may be applied is a layout of the target: every partition keeps its slot and
    lies between the first and the last sector planned for it, in order and apart from the
    others, within what the target leaves to partitions: it starts at the first usable sector or
    behind it, when the captured partitions do (in general at or behind any [lo] that both respect),
    and ends at or before the new last usable one, behind which a GPT's backup table has room; logical partitions stay where they were, partitions that hold no file
    system of ours keep their size, grown ones are never smaller, and no shrunk one falls below the minimum known for it,
    whatever the options and the order in which equal starts are sorted. *)
Theorem fit_plan_sound l tg opts plan lo : plannable l tg → lowest l lo → PlanFit l tg opts = Ok plan → Applicable plan = true →
  (∃ parts, parts ≡ₚ Partitions l ∧ Forall2 (fits l (schemeOf l) opts lo (fp_NewLastUsableLBA plan)) parts (fp_Partitions plan)) ∧
  StronglySorted (λ p q, NewLast p < NewFirst q) (fp_Partitions plan) ∧ (fp_NewLastUsableLBA plan + 1) * SectorSize l ≤ tg_Size tg ∧
  (schemeOf l = "gpt"%string → (fp_NewLastUsableLBA plan + 1) * SectorSize l + r_Length (BackupRegion l) ≤ tg_Size tg).
Proof. intros H1 H2 H3 H4. destruct (plan_fits l tg opts plan lo H1 H2 H3 H4) as (? & ? & ? & ? & _). done. Qed.
End planned.

(** ** Small layouts *)

Definition dataPart (i first last_ : Z) : Partition := mkPart i "EBD0A0A2-B9E5-4433-87C0-68B6B72699C7" "Basic Data" "" [] first last_ 0 0 false.
Definition recoveryPart (i first last_ : Z) : Partition := mkPart i "DE94BBA4-06D1-4D40-A16A-BFD50179D6AC" "Windows RE" "" [] first last_ 0 0 false.
Definition layoutWith (ps : list Partition) : DiskLayout := mkLayout "gpt" 512 10240000 "" 34 19966 19999 ps [] (mkRange 0 17408) (mkRange 10223104 16896).
Definition placesOf (r : result fit_err FitPlan) : option (list (Z * Z * Z) * list fit_refusal) :=
  match r with Ok p => Some ((λ q, (pp_Index q, NewFirst q, NewLast q)) <$> fp_Partitions p, fp_Refusals p) | Err _ => None end.

(** A data partition shrinks and the recovery partition behind it moves. *)
Definition shrinkLayout : DiskLayout := layoutWith [dataPart 0 2048 6143; recoveryPart 1 6144 8191].
Definition shrinkOptions : FitOptions := mkFitOptions false false false (Some (λ p, if Index p =? 0 then Some 1048576 else None)).

Lemma fit_plan_sound_witness : ∃ plan, PlanFit shrinkLayout (mkGeometry 4096000 512 4096) shrinkOptions = Ok plan ∧
  (NewFirst <$> fp_Partitions plan) = [2048; 4096] ∧ (NewLast <$> fp_Partitions plan) = [4095; 6143] ∧ Forall (λ pp, 34 ≤ NewFirst pp) (fp_Partitions plan) ∧ (fp_NewLastUsableLBA plan + 1) * 512 + 16896 ≤ 4096000.
Proof.
  destruct (PlanFit shrinkLayout (mkGeometry 4096000 512 4096) shrinkOptions) as [plan|] eqn:E; [|vm_compute in E; discriminate].
  destruct (fit_plan_sound shrinkLayout (mkGeometry 4096000 512 4096) shrinkOptions plan 34) as ((parts & _ & Hf) & _ & _ & H).
  - split.
    + repeat constructor; cbn; lia.
    + by_eval.
    + cbn. lia.
    + left. split; [reflexivity|cbn; lia].
    + cbn. lia.
  - right. split; [cbn; lia|]. repeat constructor; cbn; lia.
  - exact E.
  - vm_compute in E. injection E as <-. reflexivity.
  - exists plan. split; [reflexivity|]. split; [vm_compute in E; injection E as <-; reflexivity|]. split; [vm_compute in E; injection E as <-; reflexivity|]. split; [|exact (H eq_refl)].
    clear -Hf. induction Hf as [|p pp parts pps [_ [Hp _] _ _ _ _] _ IH]; constructor; assumption.
Defined.

(** On a drive larger by less than an alignment unit, asking to grow makes a fit that holds
    refused: the trailing partition is aligned down into the one before it. *)
Definition tightLayout : DiskLayout := layoutWith [dataPart 0 2048 6146; recoveryPart 1 6147 8191].
Theorem grow_refuses_small_gain :
  placesOf (PlanFit tightLayout (mkGeometry 4249600 512 512) (mkFitOptions false true false None)) = Some ([(0, 2048, 6146); (1, 6147, 8191)], []) ∧
  placesOf (PlanFit tightLayout (mkGeometry 4249600 512 512) (mkFitOptions true true false None)) = Some ([(0, 2048, 6146); (1, 6144, 8188)], [RfOverlap 1 0]).
Proof. split; vm_compute; reflexivity. Qed.

(** Realigning after a shrink: when there is no room the partitions the shrink moved are put
    back to where they were captured, past the end of the target, and the plan is refused. *)
Definition wideLayout : DiskLayout := layoutWith [recoveryPart 0 63 4000; dataPart 1 4001 12000; recoveryPart 2 12001 16096].
Theorem realign_refuses_shrunk :
  placesOf (PlanFit wideLayout (mkGeometry 7680000 512 512) (mkFitOptions false false false None)) = Some ([(0, 63, 4000); (1, 4001, 8822); (2, 10240, 14335)], []) ∧
  placesOf (PlanFit wideLayout (mkGeometry 7680000 512 512) (mkFitOptions false false true None)) = Some ([(0, 63, 4000); (1, 6144, 10965); (2, 12001, 16096)], [RfPastEnd 2]).
Proof. split; vm_compute; reflexivity. Qed.
