(* ===== verification/FitApplied.v ===== *)
(** * core/disklayout: a plan applied

    The boot structures [ApplyFit] writes are those of the planned layout: the target parses
    to the captured partitions, GUIDs, names and attributes included, at their planned
    places, and its backup header verifies. *)

From S2P Require Import Prelude GoBytes GoRuntime Hashes DiskLayout Gpt Fit Fitted.

#[local] Strategy 1000 [i64 u64 ChecksumIEEE entryOff h_entryBytes backupStart backupLen].

(** ** Writes into parts *)

Lemma WriteAt_app_r (A B d : bytes) o : 0 ≤ o → WriteAt (A ++ B) (len A + o) d = A ++ WriteAt B o d.
Proof.
  intros Ho. unfold WriteAt. rewrite take_app_ge by lia. rewrite drop_app_ge by lia. rewrite <- !app_assoc. f_equal. f_equal; [f_equal; lia|]. f_equal; [f_equal; len|]. f_equal. f_equal. lia.
Qed.
Lemma WriteAt_app_l (A B d : bytes) o : 0 ≤ o → o + len d ≤ len A → WriteAt (A ++ B) o d = WriteAt A o d ++ B.
Proof.
  intros Ho Hl. unfold WriteAt. rewrite take_app_le by lia. rewrite drop_app_le by lia. rewrite <- !app_assoc. f_equal.
  rewrite length_app. replace (Z.to_nat o - (length A + length B))%nat with 0%nat by lia. replace (Z.to_nat o - length A)%nat with 0%nat by lia. done.
Qed.
Lemma sub_WriteAt_inside f o d (a n : nat) : Z.of_nat a ≤ o → o + len d ≤ Z.of_nat (a + n) → (a + n ≤ length f)%nat → sub (WriteAt f o d) a n = WriteAt (sub f a n) (o - Z.of_nat a) d.
Proof.
  intros H1 H2 H3. rewrite <- (take_drop a f) at 1. rewrite <- (take_drop n (drop a f)) at 1. fold (sub f a n).
  replace o with (len (take a f) + (o - Z.of_nat a)) at 1 by len. assert (Hs : length (sub f a n) = n) by (apply length_sub; lia).
  rewrite WriteAt_app_r by lia. rewrite WriteAt_app_l by lia. rewrite (sub_app_skip (take a f) _ a) by len. replace (a - length (take a f))%nat with 0%nat by len. apply sub_app_here. rewrite length_WriteAt; lia.
Qed.

Lemma sub_join l a n m : sub l a n ++ sub l (a + n) m = sub l a (n + m).
Proof. unfold sub. rewrite <- drop_drop. apply take_take_drop. Qed.

(** ** The entry array *)

Section entries.
Context (es count : Z) (Hes : 128 ≤ es).

Definition patchSlot (E : bytes) (pp : PlannedPartition) : bytes := writeExtent (pp_Index pp * es) E pp.
Definition patchEntry (pp : PlannedPartition) (e : bytes) : bytes := writeExtent 0 e pp.
Definition planned (pps : list PlannedPartition) (i : Z) : option PlannedPartition := snd <$> list_find (λ pp, pp_Index pp = i) pps.
Definition inArray (pp : PlannedPartition) : Prop := 0 ≤ pp_Index pp < count.

Lemma writeExtent_length E pos pp : 0 ≤ pos → pos + 48 ≤ len E → length (writeExtent pos E pp) = length E.
Proof.
  intros Hp Hl. unfold writeExtent. assert (Hw : length (WriteAt E (pos + 32) (PutUint64 (NewFirst pp))) = length E) by (rewrite length_WriteAt; len). rewrite length_WriteAt; rewrite ?Hw; len.
Qed.

Lemma patch_length E pps : len E = count * es → Forall inArray pps → length (foldl patchSlot E pps) = length E.
Proof.
  intros HE Hi. revert E HE. induction Hi as [|pp pps Hp Hi IH]; intros E HE; [done|]. cbn. unfold inArray in Hp. assert (Hl : length (patchSlot E pp) = length E) by (apply writeExtent_length; nia). rewrite IH by lia. done.
Qed.

Lemma writeExtent_ne E pos pp (a n : nat) : 0 ≤ pos → pos + 48 ≤ len E → Z.of_nat (a + n) ≤ pos + 32 ∨ pos + 48 ≤ Z.of_nat a → (a + n ≤ length E)%nat → sub (writeExtent pos E pp) a n = sub E a n.
Proof.
  intros Hp Hl Hd Hn. unfold writeExtent. assert (Hw : length (WriteAt E (pos + 32) (PutUint64 (NewFirst pp))) = length E) by (rewrite length_WriteAt; len).
  rewrite sub_WriteAt_ne; rewrite ?Hw; [|len..]. rewrite sub_WriteAt_ne; [done|len..].
Qed.

Lemma writeExtent_own E (pos n : nat) pp : (48 ≤ n)%nat → (pos + n ≤ length E)%nat → sub (writeExtent (Z.of_nat pos) E pp) pos n = patchEntry pp (sub E pos n).
Proof.
  intros Hn Hl. unfold patchEntry, writeExtent. assert (Hw : length (WriteAt E (Z.of_nat pos + 32) (PutUint64 (NewFirst pp))) = length E) by (rewrite length_WriteAt; len).
  rewrite sub_WriteAt_inside; rewrite ?Hw; [|len..]. rewrite sub_WriteAt_inside; [|len..]. f_equal; [f_equal; lia|lia].
Qed.

(** A slot of the patched array. *)
Lemma patched_slot pps E i : len E = count * es → 0 ≤ i < count → Forall inArray pps → NoDup (pp_Index <$> pps) →
  sub (foldl patchSlot E pps) (Z.to_nat (i * es)) (Z.to_nat es) = match planned pps i with Some pp => patchEntry pp (sub E (Z.to_nat (i * es)) (Z.to_nat es)) | None => sub E (Z.to_nat (i * es)) (Z.to_nat es) end.
Proof.
  intros HE Hi Hall. revert E HE. induction Hall as [|pp pps Hp Hall IH]; intros E HE Hnd; [done|]. cbn [foldl]. rewrite fmap_cons in Hnd. apply NoDup_cons in Hnd as [Hni Hnd]. unfold inArray in Hp.
  assert (Hl : length (patchSlot E pp) = length E) by (apply writeExtent_length; nia). rewrite IH by (done || lia). unfold planned. cbn [list_find]. destruct (decide (pp_Index pp = i)) as [<-|Hne].
  - cbn. assert (Hnone : list_find (λ q, pp_Index q = pp_Index pp) pps = None).
    { apply list_find_None, Forall_forall. intros q Hq E'. apply Hni. rewrite <- E'. by apply list_elem_of_fmap_2. }
    rewrite Hnone. cbn. unfold patchSlot. replace (pp_Index pp * es) with (Z.of_nat (Z.to_nat (pp_Index pp * es))) at 1 by nia. apply writeExtent_own; nia.
  - assert (Hsame : sub (patchSlot E pp) (Z.to_nat (i * es)) (Z.to_nat es) = sub E (Z.to_nat (i * es)) (Z.to_nat es)) by (apply writeExtent_ne; nia).
    rewrite Hsame. by destruct (list_find (λ q, pp_Index q = i) pps) as [[k q]|].
Qed.

Definition moveTo (pps : list PlannedPartition) (p : Partition) : Partition :=
  match planned pps (Index p) with
  | Some pp => mkPart (Index p) (TypeGUID p) (TypeName p) (PartGUID p) (Name p) (NewFirst pp) (NewLast pp) (Attributes p) (MBRType p) (Bootable p)
  | None => p
  end.

Lemma readEntry_patched i e pp : length e = Z.to_nat es → is_u64 (NewFirst pp) → is_u64 (NewLast pp) →
  readEntry i (patchEntry pp e) = let p := readEntry i e in mkPart i (TypeGUID p) (TypeName p) (PartGUID p) (Name p) (NewFirst pp) (NewLast pp) (Attributes p) (MBRType p) (Bootable p).
Proof.
  intros He Hf Hl. assert (Hw : length (WriteAt e (0 + 32) (PutUint64 (NewFirst pp))) = length e) by (rewrite length_WriteAt; len).
  assert (Hne : ∀ a n, (a + n ≤ 32 ∨ 48 ≤ a)%nat → (a + n ≤ 128)%nat → sub (patchEntry pp e) a n = sub e a n) by (intros; apply writeExtent_ne; len).
  unfold readEntry. cbn [TypeGUID TypeName PartGUID Name Attributes MBRType Bootable]. rewrite (Hne 0%nat 16%nat), (Hne 16%nat 16%nat), (Hne 56%nat 72%nat), (Hne 48%nat 8%nat) by lia. f_equal.
  - unfold patchEntry, writeExtent. rewrite sub_WriteAt_ne; rewrite ?Hw; [|len..]. rewrite sub_WriteAt_eq by len. by apply le_get_PutUint64.
  - unfold patchEntry, writeExtent. rewrite sub_WriteAt_eq; rewrite ?Hw; [|len..]. by apply le_get_PutUint64.
Qed.

Lemma partLoop_moved pps E ss D N : len E = count * es → Forall inArray pps → NoDup (pp_Index <$> pps) → ∀ n i ps, 0 ≤ i → i + Z.of_nat n ≤ count →
  partLoop E es ss D i n = Ok ps → (∀ p, p ∈ ps → ∃ pp, planned pps (Index p) = Some pp ∧ is_u64 (NewFirst pp) ∧ is_u64 (NewLast pp) ∧ NewFirst pp ≤ NewLast pp ∧ i64 (Offset (moveTo pps p) ss + Length (moveTo pps p) ss) ≤ N) →
  partLoop (foldl patchSlot E pps) es ss N i n = Ok (moveTo pps <$> ps).
Proof.
  intros HE Hall Hnd. induction n as [|n IH]; intros i ps Hi Hn; cbn [partLoop]; [by intros [= <-]|].
  rewrite (patched_slot pps E i) by (done || lia). set (e := sub E (Z.to_nat (i * es)) (Z.to_nat es)).
  assert (Hle : length e = Z.to_nat es) by (apply length_sub; nia). pose proof (eq_refl (planned pps i)) as Hpi. set (o := planned pps i) in Hpi at 2 |- *.
  assert (Hg : sub (match o with Some pp => patchEntry pp e | None => e end) 0 16 = sub e 0 16) by (destruct o as [pp|]; [apply writeExtent_ne; len|done]). rewrite Hg.
  destruct (GUID_IsZero (sub e 0 16)); [apply IH; lia|]. destruct (LastLBA (readEntry i e) <? FirstLBA (readEntry i e)); [done|]. destruct (D <? _); [done|].
  intros H Hps. apply rbind_Ok_inv in H as (qs & Hqs & [= <-]). destruct (Hps (readEntry i e) ltac:(left)) as (pp & Hpp & Hf & Hl & Hord & Hend). cbn [readEntry Index] in Hpp.
  subst o. rewrite Hpp in Hpi |- *. assert (Hm : readEntry i (patchEntry pp e) = moveTo pps (readEntry i e)) by (rewrite (readEntry_patched i e pp Hle Hf Hl); unfold moveTo; cbn [readEntry Index]; by rewrite Hpp).
  rewrite Hm. assert (Hx : FirstLBA (moveTo pps (readEntry i e)) = NewFirst pp ∧ LastLBA (moveTo pps (readEntry i e)) = NewLast pp) by (unfold moveTo; cbn [readEntry Index]; by rewrite Hpp).
  destruct Hx as [Hx1 Hx2]. rewrite Hx1, Hx2, (proj2 (Z.ltb_ge _ _)), (proj2 (Z.ltb_ge N _)) by done. rewrite (IH (i + 1) qs); [done|lia|lia|done|]. intros p Hp. apply Hps. by right.
Qed.
End entries.

Lemma writePlan_app es count A pps : 128 ≤ es → Forall (inArray count) pps → ∀ E, len E = count * es →
  writePlan (len A) es count (A ++ E) pps = Ok (A ++ foldl (patchSlot es) E pps).
Proof.
  intros Hes Hall. induction Hall as [|pp pps Hp Hall IH]; intros E HE; [done|]. cbn [writePlan foldl]. unfold inArray in Hp. rewrite (proj2 (Z.ltb_ge (pp_Index pp) 0)), (proj2 (Z.leb_gt count _)), (proj2 (Z.ltb_ge es 48)) by lia. cbn [orb].
  assert (Hw : writeExtent (len A + pp_Index pp * es) (A ++ E) pp = A ++ patchSlot es E pp).
  { unfold patchSlot, writeExtent. rewrite <- !Z.add_assoc. rewrite WriteAt_app_r by nia. by rewrite WriteAt_app_r by nia. }
  rewrite Hw. apply IH. assert (length (patchSlot es E pp) = length E); [apply writeExtent_length; nia|lia].
Qed.

Lemma bytes_ok_patched es E pps : bytes_ok E → bytes_ok (foldl (patchSlot es) E pps).
Proof. revert E. induction pps as [|pp pps IH]; intros E HE; [done|]. cbn. apply IH. unfold patchSlot, writeExtent. auto 10 with bytes. Qed.

(** ** The boot structures *)

Section apply.
Context (r : bytes) (D ss N : Z) (mbr hdr entries cp cb : bytes) (parts : list Partition) (plan : FitPlan).
Hypothesis Hr : bytes_ok r.
Hypothesis Hlen : len r < 2 ^ 63.
Hypothesis Hgpt : gpt_ok r D ss mbr hdr entries parts.
Hypothesis Hcp : ReadAt r 0 (i64 (entryOff hdr ss + h_entryBytes hdr)) = Some cp.
Hypothesis Hcb : ReadAt r (backupStart hdr ss) (backupLen hdr ss) = Some cb.
Hypothesis Hafter : 2 * ss ≤ entryOff hdr ss.
Hypothesis Hwhole : Z.rem (h_entryBytes hdr) ss = 0.

Local Notation eo := (entryOff hdr ss).
Local Notation eb := (h_entryBytes hdr).
Local Notation hs := (h_headerSize hdr).
Local Notation es := (h_entrySize hdr).
Local Notation count := (h_entryCount hdr).
Local Notation pps := (fp_Partitions plan).
Local Notation lastU := (fp_NewLastUsableLBA plan).

Hypothesis Happ : Applicable plan = true.
Hypothesis Hscheme : fp_Scheme plan = "gpt"%string.
Hypothesis Htarget : fp_TargetSize plan = N.
Hypothesis HN : 0 < N < 2 ^ 63 ∧ Z.rem N ss = 0.
Hypothesis Hroom : eo + eb + ss + eb ≤ N.
Hypothesis HlastU : 0 ≤ lastU < 2 ^ 63.
Hypothesis Hslots : Forall (inArray count) pps ∧ NoDup (pp_Index <$> pps).

Definition gap : bytes := sub cp (Z.to_nat (2 * ss)) (Z.to_nat (eo - 2 * ss)).

Lemma ap_ss : 512 ≤ ss ≤ 4096.
Proof. by eapply rl_ss. Qed.
Lemma ap_eb : 0 < eb ≤ 2 ^ 22.
Proof. by eapply rl_eb. Qed.
Lemma ap_hs : 92 ≤ hs ≤ ss.
Proof. by eapply rl_hs. Qed.
Lemma ap_hdr : len hdr = ss ∧ bytes_ok hdr.
Proof. split; [by eapply rl_hdr_len|by eapply rl_hdr_ok]. Qed.

Lemma ap_words : is_u32 count ∧ 128 ≤ es ∧ is_u32 es ∧ eb = count * es ∧ len entries = count * es.
Proof.
  destruct ap_hdr as [Hl Hok]. pose proof ap_ss. pose proof ap_eb. pose proof (ReadAt_inv _ _ _ _ (go_entries _ _ _ _ _ _ _ Hgpt)) as (_ & _ & _ & Hel).
  assert (Hc : is_u32 count) by (apply le_get_u32; [auto with bytes|apply length_sub; lia]). assert (Hs : is_u32 es) by (apply le_get_u32; [auto with bytes|apply length_sub; lia]).
  assert (Hb : eb = count * es) by (apply i64_small; [unfold is_u32 in *; nia|change (0 < eb); lia]).
  pose proof (go_esize _ _ _ _ _ _ _ Hgpt) as [? _]. split_and!; try done. lia.
Qed.

(** The captured region in its parts. *)
Lemma ap_cp : cp = (mbr ++ hdr ++ gap) ++ entries ∧ len (mbr ++ hdr ++ gap) = eo ∧ len mbr = ss.
Proof.
  pose proof ap_ss. pose proof ap_eb. destruct (rl_cp r D ss mbr hdr entries cp parts Hlen Hgpt Hcp) as [Hc Hl]. destruct (rl_entries r D ss mbr hdr entries parts Hgpt) as [He1 He2].
  assert (Hm : mbr = sub cp 0 (Z.to_nat ss)).
  { pose proof (ReadAt_prefix _ _ _ 0 ss Hc ltac:(lia) ltac:(lia) ltac:(lia)) as Heq. rewrite (go_mbr _ _ _ _ _ _ _ Hgpt), ReadAt_sub in Heq by lia. by injection Heq. }
  assert (Hh : hdr = sub cp (Z.to_nat ss) (Z.to_nat ss)) by (symmetry; by eapply rl_cp_hdr).
  assert (Hent : entries = sub cp (Z.to_nat eo) (Z.to_nat eb)).
  { pose proof (ReadAt_prefix _ _ _ eo eb Hc ltac:(lia) ltac:(lia) ltac:(lia)) as Heq. rewrite (go_entries _ _ _ _ _ _ _ Hgpt), ReadAt_sub in Heq by lia. by injection Heq. }
  assert (Hlm : len mbr = ss) by (rewrite Hm, length_sub; lia). destruct ap_hdr as [Hlh _]. assert (Hlg : len gap = eo - 2 * ss) by (unfold gap; rewrite length_sub; lia).
  split; [|split; [len|done]]. rewrite Hm, Hh, Hent. unfold gap. rewrite <- !app_assoc.
  replace (Z.to_nat eo) with (Z.to_nat (2 * ss) + Z.to_nat (eo - 2 * ss))%nat by lia. rewrite sub_join. replace (Z.to_nat (2 * ss)) with (Z.to_nat ss + Z.to_nat ss)%nat by lia. rewrite sub_join.
  rewrite (sub_join cp 0 (Z.to_nat ss)). symmetry. apply sub_all. lia.
Qed.

Definition newEntries : bytes := foldl (patchSlot es) entries pps.
Definition fitLast : Z := Z.quot N ss - 1.
Definition fitEntryLBA : Z := fitLast - Z.quot (eb + ss - 1) ss.

Lemma ap_newEntries : len newEntries = eb ∧ bytes_ok newEntries.
Proof.
  destruct ap_words as (_ & He & _ & Hb & Hl). split; [unfold newEntries; rewrite (patch_length es count) by (try apply Hslots; lia); lia|]. apply bytes_ok_patched. eapply bytes_ok_ReadAt; [exact Hr|]. apply (go_entries _ _ _ _ _ _ _ Hgpt).
Qed.

Lemma ap_last : fitLast * ss = N - ss ∧ 0 ≤ fitLast < 2 ^ 63.
Proof. pose proof ap_ss. pose proof ap_eb. unfold fitLast. assert (N = ss * Z.quot N ss) by (pose proof (Z.quot_rem N ss ltac:(lia)); lia). nia. Qed.

Lemma ap_entryLBA : fitEntryLBA * ss = N - ss - eb ∧ 0 ≤ fitEntryLBA < 2 ^ 63.
Proof.
  pose proof ap_ss. pose proof ap_eb. destruct ap_last as [H1 H2]. assert (He : fitEntryLBA * ss = N - ss - eb); [|split; [done|nia]]. unfold fitEntryLBA.
  assert (Z.quot (eb + ss - 1) ss * ss = eb); [|lia]. assert (eb = ss * Z.quot eb ss) as He by (pose proof (Z.quot_rem eb ss ltac:(lia)); lia).
  assert (Z.quot (eb + ss - 1) ss = Z.quot eb ss); [|lia]. rewrite !Z.quot_div_nonneg in * by lia. symmetry. apply Z.div_unique with (ss - 1); lia.
Qed.

(** The patched header, its checksum, and the sector it is in. *)
Definition fitPatched : bytes :=
  WriteAt (WriteAt (WriteAt (take (Z.to_nat hs) hdr) 32 (PutUint64 fitLast)) 48 (PutUint64 lastU)) 88 (PutUint32 (ChecksumIEEE newEntries)).
Definition fitHdr : bytes := recomputeHeaderCRC fitPatched.
Definition fitSector : bytes := fitHdr ++ drop (Z.to_nat hs) hdr.

Lemma fitPatched_spec : len fitPatched = hs ∧ bytes_ok fitPatched ∧
  (∀ o n, (o + n ≤ Z.to_nat hs)%nat → (o + n ≤ 32)%nat ∨ (40 ≤ o ∧ o + n ≤ 48)%nat ∨ (56 ≤ o ∧ o + n ≤ 88)%nat → sub fitPatched o n = sub hdr o n) ∧
  sub fitPatched 32 8 = PutUint64 fitLast ∧ sub fitPatched 48 8 = PutUint64 lastU ∧ sub fitPatched 88 4 = PutUint32 (ChecksumIEEE newEntries).
Proof.
  destruct ap_hdr as [Hl Hok]. pose proof ap_hs. assert (Hc : length (take (Z.to_nat hs) hdr) = Z.to_nat hs) by len.
  set (w1 := WriteAt (take (Z.to_nat hs) hdr) 32 (PutUint64 fitLast)). assert (Hw1 : length w1 = Z.to_nat hs) by (subst w1; rewrite length_WriteAt; rewrite ?Hc; len).
  set (w2 := WriteAt w1 48 (PutUint64 lastU)). assert (Hw2 : length w2 = Z.to_nat hs) by (subst w2; rewrite length_WriteAt; rewrite ?Hw1; len).
  change fitPatched with (WriteAt w2 88 (PutUint32 (ChecksumIEEE newEntries))). split_and!.
  - rewrite length_WriteAt; rewrite ?Hw2; len.
  - subst w2 w1. auto 10 with bytes.
  - intros o n Hn Hd. rewrite sub_WriteAt_ne; rewrite ?Hw2; [|len..]. subst w2. rewrite sub_WriteAt_ne; rewrite ?Hw1; [|len..]. subst w1. rewrite sub_WriteAt_ne; rewrite ?Hc; [|len..]. by rewrite sub_take.
  - rewrite sub_WriteAt_ne; rewrite ?Hw2; [|len..]. subst w2. rewrite sub_WriteAt_ne; rewrite ?Hw1; [|len..]. subst w1. rewrite sub_WriteAt_eq; rewrite ?Hc; [done|len..].
  - rewrite sub_WriteAt_ne; rewrite ?Hw2; [|len..]. subst w2. rewrite sub_WriteAt_eq; rewrite ?Hw1; [done|len..].
  - rewrite sub_WriteAt_eq; rewrite ?Hw2; [done|len..].
Qed.

Lemma fitHdr_len : length fitHdr = length fitPatched ∧ len fitHdr = hs ∧ len fitSector = ss.
Proof.
  destruct fitPatched_spec as (Hl & _). pose proof ap_hs. destruct ap_hdr as [Hh _]. assert (He : length fitHdr = length fitPatched) by (apply recompute_length; lia). unfold fitSector. split_and!; [done|lia|len].
Qed.

(** Fields of the new sector. *)
Lemma fitSector_field o n : (o + n ≤ 92)%nat → (o + n ≤ 16)%nat ∨ (20 ≤ o)%nat → sub fitSector o n = sub fitPatched o n.
Proof.
  intros H Hd. pose proof ap_hs. destruct fitHdr_len as (H1 & H2 & _). unfold fitSector. rewrite sub_app_inside by lia. apply recompute_sub; lia.
Qed.

Lemma fitSector_same o n : (o + n ≤ 92)%nat → (o + n ≤ 16)%nat ∨ (20 ≤ o ∧ o + n ≤ 32)%nat ∨ (40 ≤ o ∧ o + n ≤ 48)%nat ∨ (56 ≤ o ∧ o + n ≤ 88)%nat → sub fitSector o n = sub hdr o n.
Proof. intros H Hd. pose proof ap_hs. rewrite fitSector_field by lia. destruct fitPatched_spec as (_ & _ & Hf & _). apply Hf; lia. Qed.

Lemma fitSector_fields : h_myLBA fitSector = 1 ∧ entryOff fitSector ss = eo ∧ h_entryCount fitSector = count ∧ h_entrySize fitSector = es ∧ h_entryBytes fitSector = eb ∧
  h_altLBA fitSector = fitLast ∧ le_get (sub fitSector 48 8) = lastU ∧ h_entriesCRC fitSector = ChecksumIEEE newEntries.
Proof.
  destruct ap_last as [_ Hn]. pose proof (go_my _ _ _ _ _ _ _ Hgpt) as Hmy. destruct fitPatched_spec as (_ & _ & _ & H32 & H48 & H88). destruct ap_newEntries as [_ Hok].
  unfold h_entryBytes, entryOff, h_myLBA, h_entryLBA, h_entryCount, h_entrySize, h_entriesCRC, h_altLBA in *.
  rewrite (fitSector_same 24 8), (fitSector_same 72 8), (fitSector_same 80 4), (fitSector_same 84 4) by lia. rewrite !fitSector_field by lia. rewrite H32, H48, H88.
  rewrite !le_get_PutUint64 by (unfold is_u64; lia). rewrite le_get_PutUint32 by (by apply ChecksumIEEE_u32). done.
Qed.

Lemma fitSector_check e : headerCheck fitSector ss e = Ok tt.
Proof.
  destruct fitPatched_spec as (Hl & Hok & Hf & _). pose proof ap_hs. apply headerCheck_recomputed; [done|lia|..].
  - rewrite Hf by lia. by destruct (headerCheck_inv _ _ _ (go_check _ _ _ _ _ _ _ Hgpt)) as (? & _ & _).
  - rewrite Hl. unfold h_headerSize at 1. rewrite Hf by lia. done.
Qed.

Definition fitSwapped : bytes := WriteAt (WriteAt (WriteAt fitHdr 24 (PutUint64 fitLast)) 32 (PutUint64 1)) 72 (PutUint64 fitEntryLBA).

Lemma fitSwapped_spec : len fitSwapped = hs ∧ bytes_ok fitSwapped ∧
  ∀ o n, (o + n ≤ Z.to_nat hs)%nat → (o + n ≤ 16)%nat ∨ (56 ≤ o ∧ o + n ≤ 72)%nat → sub fitSwapped o n = sub hdr o n.
Proof.
  pose proof ap_hs. destruct fitHdr_len as (He & Hl & _). destruct fitPatched_spec as (Hp & Hok & Hf & _).
  set (w1 := WriteAt fitHdr 24 (PutUint64 fitLast)). assert (Hw1 : length w1 = length fitHdr) by (subst w1; rewrite length_WriteAt; len).
  set (w2 := WriteAt w1 32 (PutUint64 1)). assert (Hw2 : length w2 = length fitHdr) by (subst w2; rewrite length_WriteAt; rewrite ?Hw1; len).
  change fitSwapped with (WriteAt w2 72 (PutUint64 fitEntryLBA)). split_and!.
  - rewrite length_WriteAt; rewrite ?Hw2; len.
  - subst w2 w1. unfold fitHdr. auto 10 using recompute_bytes with bytes.
  - intros o n Hn Hd. rewrite sub_WriteAt_ne; rewrite ?Hw2; [|len..]. subst w2. rewrite sub_WriteAt_ne; rewrite ?Hw1; [|len..]. subst w1. rewrite sub_WriteAt_ne; [|len..].
    unfold fitHdr. rewrite recompute_sub by lia. apply Hf; lia.
Qed.

Lemma fitSwapped_check rest e : headerCheck (recomputeHeaderCRC fitSwapped ++ rest) ss e = Ok tt.
Proof.
  pose proof ap_hs. destruct fitSwapped_spec as (Hl & Hok & Hf). apply headerCheck_recomputed; [done|lia|..].
  - rewrite Hf by lia. by destruct (headerCheck_inv _ _ _ (go_check _ _ _ _ _ _ _ Hgpt)) as (? & _ & _).
  - rewrite Hl. unfold h_headerSize at 1. rewrite Hf by lia. done.
Qed.

Definition fitPrimary : bytes := (mbr ++ fitSector ++ gap) ++ newEntries.
Definition fitBackup : bytes := newEntries ++ recomputeHeaderCRC fitSwapped ++ zeros (Z.to_nat (ss - hs)).

Lemma primary_writes : let X := drop (Z.to_nat hs) hdr ++ gap ++ newEntries in
  WriteAt (WriteAt (WriteAt ((mbr ++ hdr ++ gap) ++ newEntries) (ss + 32) (PutUint64 fitLast)) (ss + 48) (PutUint64 lastU)) (ss + 88) (PutUint32 (ChecksumIEEE newEntries)) = mbr ++ fitPatched ++ X ∧
  WriteAt (mbr ++ fitPatched ++ X) ss fitHdr = fitPrimary ∧ sub (mbr ++ fitPatched ++ X) (Z.to_nat ss) (Z.to_nat hs) = fitPatched.
Proof.
  intros X. destruct ap_cp as (_ & _ & Hm). destruct ap_hdr as [Hl _]. pose proof ap_hs. destruct fitPatched_spec as (Hp & _). destruct fitHdr_len as (He & _).
  assert (Hc : length (take (Z.to_nat hs) hdr) = Z.to_nat hs) by len. assert (H0 : (mbr ++ hdr ++ gap) ++ newEntries = mbr ++ take (Z.to_nat hs) hdr ++ X).
  { unfold X. rewrite <- !app_assoc. f_equal. rewrite (app_assoc (take _ _)). by rewrite take_drop. }
  rewrite H0. rewrite <- Hm at 1 2 3. rewrite !WriteAt_app_r by lia.
  set (w1 := WriteAt (take (Z.to_nat hs) hdr) 32 (PutUint64 fitLast)). assert (Hw1 : length w1 = Z.to_nat hs) by (subst w1; rewrite length_WriteAt; rewrite ?Hc; len).
  set (w2 := WriteAt w1 48 (PutUint64 lastU)). assert (Hw2 : length w2 = Z.to_nat hs) by (subst w2; rewrite length_WriteAt; rewrite ?Hw1; len).
  rewrite WriteAt_app_l by (rewrite ?Hc; len). fold w1. rewrite WriteAt_app_l by (rewrite ?Hw1; len). fold w2. rewrite WriteAt_app_l by (rewrite ?Hw2; len).
  change (WriteAt w2 88 (PutUint32 (ChecksumIEEE newEntries))) with fitPatched. split; [done|]. split.
  - rewrite <- (Z.add_0_r ss) at 1. rewrite <- Hm at 1. rewrite WriteAt_app_r by lia. rewrite WriteAt_head by done. unfold fitPrimary, fitSector, X. by rewrite <- !app_assoc.
  - rewrite sub_app_skip by lia. replace (Z.to_nat ss - length mbr)%nat with 0%nat by lia. apply sub_app_here. lia.
Qed.

Lemma backup_writes : let B0 := WriteAt (newEntries ++ zeros (Z.to_nat ss)) eb fitHdr in
  let B1 := WriteAt (WriteAt (WriteAt B0 (eb + 24) (PutUint64 fitLast)) (eb + 32) (PutUint64 1)) (eb + 72) (PutUint64 fitEntryLBA) in
  sub B1 (Z.to_nat eb) (Z.to_nat hs) = fitSwapped ∧ WriteAt B1 eb (recomputeHeaderCRC fitSwapped) = fitBackup.
Proof.
  intros B0 B1. destruct ap_newEntries as [Hn _]. pose proof ap_hs. pose proof ap_eb. destruct fitPatched_spec as (Hp & _). destruct fitHdr_len as (He & Hl & _). destruct fitSwapped_spec as (Hs & _).
  set (Zs := zeros (Z.to_nat (ss - hs))). assert (HB0 : B0 = newEntries ++ fitHdr ++ Zs).
  { unfold B0. rewrite <- (Z.add_0_r eb), <- Hn. rewrite WriteAt_app_r by lia. f_equal. replace (zeros (Z.to_nat ss)) with (zeros (Z.to_nat hs) ++ Zs) by (unfold Zs, zeros; rewrite <- replicate_add; f_equal; lia).
    apply WriteAt_head. len. }
  assert (HB1 : B1 = newEntries ++ fitSwapped ++ Zs).
  { unfold B1. rewrite HB0. rewrite <- Hn. rewrite !WriteAt_app_r by lia. f_equal.
    set (w1 := WriteAt fitHdr 24 (PutUint64 fitLast)). assert (Hw1 : length w1 = length fitHdr) by (subst w1; rewrite length_WriteAt; len).
    set (w2 := WriteAt w1 32 (PutUint64 1)). assert (Hw2 : length w2 = length fitHdr) by (subst w2; rewrite length_WriteAt; rewrite ?Hw1; len).
    rewrite WriteAt_app_l by len. fold w1. rewrite WriteAt_app_l by (rewrite ?Hw1; len). fold w2. rewrite WriteAt_app_l by (rewrite ?Hw2; len). done. }
  rewrite HB1. split.
  - rewrite sub_app_skip by lia. replace (Z.to_nat eb - length newEntries)%nat with 0%nat by lia. apply sub_app_here. lia.
  - rewrite <- (Z.add_0_r eb), <- Hn. rewrite WriteAt_app_r by lia. rewrite WriteAt_head by (rewrite recompute_length by lia; done). done.
Qed.

Lemma apply_eq : ApplyFit (layout_of hdr parts D ss) plan cp cb = Ok (fitPrimary, fitEntryLBA * ss, fitBackup).
Proof.
  pose proof ap_ss. pose proof ap_eb. pose proof ap_hs. destruct ap_hdr as [Hlh _]. destruct ap_cp as (Hcpe & Ha & Hm). destruct ap_words as (_ & Hes & _ & Hebe & Hle). destruct ap_newEntries as [Hne _].
  destruct (rl_entries r D ss mbr hdr entries parts Hgpt) as [He1 He2]. pose proof (rl_primary r D ss mbr hdr entries parts Hlen Hgpt) as Hpr. destruct (rl_cp r D ss mbr hdr entries cp parts Hlen Hgpt Hcp) as [_ Hlc].
  pose proof (ReadAt_inv _ _ _ _ Hcb) as (_ & _ & _ & Hlb). destruct ap_last as [HL1 HL2]. destruct ap_entryLBA as [HE1 HE2].
  assert (Hd : drop (Z.to_nat ss) cp = hdr ++ gap ++ entries) by (rewrite Hcpe, <- !app_assoc; apply drop_app_exact; lia).
  assert (Hf : ∀ o n, (o + n ≤ Z.to_nat ss)%nat → sub (hdr ++ gap ++ entries) o n = sub hdr o n) by (intros; apply sub_app_inside; lia).
  assert (F1 : h_headerSize (hdr ++ gap ++ entries) = hs) by (unfold h_headerSize; by rewrite Hf by lia). assert (F2 : h_entryCount (hdr ++ gap ++ entries) = count) by (unfold h_entryCount; by rewrite Hf by lia).
  assert (F3 : h_entrySize (hdr ++ gap ++ entries) = es) by (unfold h_entrySize; by rewrite Hf by lia). assert (F4 : h_entryBytes (hdr ++ gap ++ entries) = eb) by (unfold h_entryBytes; by rewrite F2, F3).
  assert (F5 : entryOff (hdr ++ gap ++ entries) ss = eo) by (unfold entryOff, h_entryLBA; by rewrite Hf by lia).
  unfold ApplyFit. rewrite Happ, Hscheme. cbn [negb String.eqb layout_of SectorSize PrimaryRegion BackupRegion r_Length]. change (String.eqb "gpt" "mbr") with false. cbn iota.
  rewrite Hpr, (proj2 (Z.eqb_eq _ _) Hlc), (proj2 (Z.eqb_eq (len cb) (backupLen hdr ss))) by lia. cbn [negb orb]. unfold gptHeaderSize. rewrite (proj2 (Z.ltb_ge (len cp) (ss + 92))) by lia.
  rewrite Hd, F1, F2, F3, F4, F5. rewrite Hpr, (proj2 (Z.ltb_ge (len cp) _)), (proj2 (Z.ltb_ge eo 0)), (proj2 (Z.ltb_ge (eo + eb) eo)) by lia. cbn [orb].
  assert (Hw : writePlan eo es count cp pps = Ok ((mbr ++ hdr ++ gap) ++ newEntries)) by (rewrite Hcpe; rewrite <- Ha at 1; apply writePlan_app; [done|apply Hslots|done]).
  rewrite Hw. cbn [rbind]. rewrite Htarget. fold fitLast. rewrite (i64_id (eb + ss - 1)) by (unfold is_i64; lia). fold fitEntryLBA.
  rewrite (proj2 (Z.ltb_ge (len cp) (ss + hs))), (proj2 (Z.ltb_ge hs 92)), (proj2 (Z.ltb_ge ss hs)) by lia. cbn [orb].
  assert (Hsub : ∀ A, len A = eo → sub (A ++ newEntries) (Z.to_nat eo) (Z.to_nat eb) = newEntries) by (intros A HA; rewrite sub_app_skip by lia; replace (Z.to_nat eo - length A)%nat with 0%nat by lia; apply sub_all; lia).
  rewrite Hsub by done. rewrite (u64_id fitLast), (u64_id fitEntryLBA) by (unfold is_u64; lia). destruct primary_writes as (P1 & P2 & P3). rewrite P1, P3. fold fitHdr. rewrite P2.
  assert (Hps : len (mbr ++ fitSector ++ gap) = eo) by (destruct fitHdr_len as (_ & _ & Hfs); rewrite !length_app in *; lia).
  unfold fitPrimary at 2 3 4. rewrite (Hsub _ Hps). destruct backup_writes as [B1 B2]. rewrite B1, B2. rewrite i64_id by (unfold is_i64; lia). done.
Qed.

(** ** The target *)

Context (d : bytes) (Hd : len d = N).
Definition fitDisk : bytes := WriteAt (WriteAt d 0 fitPrimary) (fitEntryLBA * ss) fitBackup.

Lemma fit_lengths : len fitPrimary = eo + eb ∧ len fitBackup = eb + ss.
Proof.
  destruct ap_cp as (_ & Ha & Hm). destruct fitHdr_len as (_ & _ & Hs). destruct ap_hdr as [Hl _]. destruct ap_newEntries as [Hn _]. destruct fitSwapped_spec as (Hw & _). pose proof ap_hs.
  unfold fitPrimary, fitBackup. rewrite !length_app in *. rewrite recompute_length by lia. rewrite length_zeros. lia.
Qed.

Lemma fitDisk_parts : ∃ mid, fitDisk = fitPrimary ++ mid ++ fitBackup ∧ len (fitPrimary ++ mid) = fitEntryLBA * ss.
Proof.
  destruct fit_lengths as [Hp Hb]. destruct ap_entryLBA as [He _]. pose proof ap_eb. pose proof ap_ss. set (rest := drop (length fitPrimary) d). set (k := fitEntryLBA * ss - (eo + eb)).
  assert (Hrest : len rest = k + (eb + ss)) by (subst rest k; rewrite length_drop; lia).
  assert (H1 : WriteAt d 0 fitPrimary = fitPrimary ++ rest) by (rewrite <- (take_drop (length fitPrimary) d) at 1; apply WriteAt_head; rewrite length_take; lia).
  exists (take (Z.to_nat k) rest). split; [|rewrite length_app, length_take; lia]. unfold fitDisk. rewrite H1. replace (fitEntryLBA * ss) with (len fitPrimary + k) by lia. rewrite WriteAt_app_r by lia. f_equal.
  unfold WriteAt. replace (Z.to_nat k - length rest)%nat with 0%nat by lia. rewrite (drop_ge rest) by lia. change (zeros 0) with (@nil Z). cbn [app]. by rewrite app_nil_r.
Qed.

Lemma fitDisk_reads : ReadAt fitDisk 0 ss = Some mbr ∧ ReadAt fitDisk ss ss = Some fitSector ∧ ReadAt fitDisk eo eb = Some newEntries ∧
  ReadAt fitDisk (N - ss) ss = Some (recomputeHeaderCRC fitSwapped ++ zeros (Z.to_nat (ss - hs))) ∧ len fitDisk = N.
Proof.
  destruct fitDisk_parts as (mid & Hdk & Hmid). destruct fit_lengths as [Hp Hb]. destruct ap_cp as (_ & Ha & Hm). destruct fitHdr_len as (_ & _ & Hs). destruct ap_hdr as [Hl _]. destruct ap_newEntries as [Hn _].
  destruct fitSwapped_spec as (Hw & _). pose proof ap_hs. pose proof ap_ss. pose proof ap_eb. destruct ap_entryLBA as [HE _].
  assert (Hlen' : len fitDisk = N) by (rewrite Hdk, app_assoc, length_app; lia). rewrite !ReadAt_sub by lia. rewrite !length_app in Ha.
  assert (Hdk1 : fitDisk = mbr ++ (fitSector ++ gap ++ newEntries ++ mid ++ fitBackup)) by (rewrite Hdk; unfold fitPrimary; by rewrite <- !app_assoc).
  assert (Hdk2 : fitDisk = (mbr ++ fitSector ++ gap) ++ (newEntries ++ mid ++ fitBackup)) by (rewrite Hdk; unfold fitPrimary; by rewrite <- !app_assoc).
  assert (Hdk3 : fitDisk = ((fitPrimary ++ mid) ++ newEntries) ++ (recomputeHeaderCRC fitSwapped ++ zeros (Z.to_nat (ss - hs)))) by (rewrite Hdk; unfold fitBackup; by rewrite <- !app_assoc).
  split_and!; [| | | |done].
  - rewrite Hdk1. f_equal. apply sub_app_here. lia.
  - rewrite Hdk1, sub_app_skip by lia. replace (Z.to_nat ss - length mbr)%nat with 0%nat by lia. f_equal. apply sub_app_here. lia.
  - rewrite Hdk2, sub_app_skip by (rewrite !length_app; lia). rewrite !length_app. replace (Z.to_nat eo - (length mbr + (length fitSector + length gap)))%nat with 0%nat by lia. f_equal. apply sub_app_here. lia.
  - rewrite Hdk3, sub_app_skip by (rewrite (length_app (fitPrimary ++ mid)); lia). replace (Z.to_nat (N - ss) - length ((fitPrimary ++ mid) ++ newEntries))%nat with 0%nat by (rewrite (length_app (fitPrimary ++ mid)); lia).
    f_equal. apply sub_all. rewrite length_app, length_zeros, recompute_length by lia. lia.
Qed.

Hypothesis Hplace : ∀ p, p ∈ parts → ∃ pp, planned pps (Index p) = Some pp ∧ 0 ≤ NewFirst pp ∧ NewFirst pp ≤ NewLast pp ≤ lastU.
Hypothesis HlastN : (lastU + 1) * ss ≤ N.

Lemma ap_parts : partLoop newEntries es ss N 0 (Z.to_nat count) = Ok (moveTo pps <$> parts).
Proof.
  destruct ap_words as (Hc & Hes & _ & Heb & Hle). pose proof ap_ss. unfold is_u32 in Hc. destruct Hslots as [Hin Hnd].
  apply (partLoop_moved es count Hes pps entries ss D N Hle Hin Hnd); [lia|lia|exact (go_parts _ _ _ _ _ _ _ Hgpt)|].
  intros p Hp. destruct (Hplace p Hp) as (pp & Hpp & H0 & Hpl). exists pp. unfold is_u64. split_and!; try done; try lia.
  assert (Hx : FirstLBA (moveTo pps p) = NewFirst pp ∧ LastLBA (moveTo pps p) = NewLast pp) by (unfold moveTo; by rewrite Hpp). destruct Hx as [Hx1 Hx2].
  unfold Offset, Length. rewrite Hx1, Hx2. assert (Hb : (NewLast pp + 1) * ss ≤ N) by nia.
  assert (lastU < 2 ^ 62) by nia. assert (Hs1 : 0 ≤ NewFirst pp * ss) by nia. assert (Hs2 : 0 ≤ (NewLast pp - NewFirst pp + 1) * ss) by nia. assert (Hs3 : NewFirst pp * ss + (NewLast pp - NewFirst pp + 1) * ss = (NewLast pp + 1) * ss) by lia.
  rewrite (i64_id (NewFirst pp)), (u64_id (NewLast pp - NewFirst pp + 1)), (i64_id (NewLast pp - NewFirst pp + 1)) by (unfold is_i64, is_u64; lia).
  rewrite (i64_id (NewFirst pp * ss)), (i64_id ((NewLast pp - NewFirst pp + 1) * ss)), i64_id by (unfold is_i64; lia). lia.
Qed.

Lemma fit_gpt : gpt_ok fitDisk N ss mbr fitSector newEntries (moveTo pps <$> parts) ∧ backupStart fitSector ss = fitEntryLBA * ss ∧ backupLen fitSector ss = N - fitEntryLBA * ss.
Proof.
  pose proof ap_ss. pose proof ap_eb. destruct fitSector_fields as (F1 & F2 & F3 & F4 & F5 & F6 & F7 & F8). destruct fitDisk_reads as (R1 & R2 & R3 & _). destruct ap_last as [HL1 HL2]. destruct ap_entryLBA as [HE1 HE2].
  assert (HB1 : backupStart fitSector ss = fitEntryLBA * ss). { unfold backupStart. rewrite F5, F6, (i64_id fitLast), (i64_id (fitLast * ss)), i64_id by (unfold is_i64; lia). lia. }
  assert (HB2 : backupLen fitSector ss = N - fitEntryLBA * ss). { unfold backupLen. rewrite HB1, F6, (i64_id fitLast), (i64_id (fitLast * ss)), (i64_id (fitLast * ss + ss)), i64_id by (unfold is_i64; lia). lia. }
  split; [|done]. destruct (go_ss _ _ _ _ _ _ _ Hgpt) as [? ?]. split; try done.
  - destruct (rl_entries r D ss mbr hdr entries parts Hgpt). lia.
  - apply (go_sig _ _ _ _ _ _ _ Hgpt).
  - apply fitSector_check.
  - rewrite F4. apply (go_esize _ _ _ _ _ _ _ Hgpt).
  - rewrite F5. apply (go_ebytes _ _ _ _ _ _ _ Hgpt).
  - by rewrite F2, F5.
  - rewrite F3, F4. apply ap_parts.
  - rewrite HB1, HB2. split; [lia|]. rewrite i64_id; [lia|]. unfold is_i64. lia.
Qed.

Lemma fit_backup_verifies : VerifyBackupHeader (layout_of fitSector (moveTo pps <$> parts) N ss) fitDisk = Ok tt.
Proof.
  pose proof ap_hs. pose proof ap_ss. destruct fitSector_fields as (_ & _ & _ & _ & _ & F6 & _). destruct fitDisk_reads as (_ & _ & _ & R & _). destruct ap_last as [HL1 HL2]. destruct fitSwapped_spec as (Hw & _ & Hf).
  unfold VerifyBackupHeader. cbn [layout_of AlternateLBA SectorSize DiskGUID]. rewrite F6, (i64_id fitLast), i64_id, HL1, R by (unfold is_i64; lia). cbn [of_option rbind]. rewrite fitSwapped_check. cbn [rbind].
  rewrite sub_app_inside, recompute_sub, Hf by (rewrite ?recompute_length by lia; lia). rewrite (fitSector_same 56 16) by lia. by rewrite String.eqb_refl.
Qed.
End apply.

(** ** A parsed layout, planned and applied *)

Section fitted.
Context {SS : SortSlice}.

Lemma parsed_plannable r D ss mbr hdr entries parts tg : bytes_ok r → gpt_ok r D ss mbr hdr entries parts → tg_Size tg < 2 ^ 63 → 0 ≤ tg_PhysicalSector tg < 2 ^ 32 →
  plannable (layout_of hdr parts D ss) tg.
Proof.
  intros Hr Hg Hs Hp. pose proof (rl_ss _ _ _ _ _ _ _ Hg). pose proof (rl_eb _ _ _ _ _ _ _ Hg). destruct (gpt_parts_ok _ _ _ _ _ _ _ Hr Hg) as [Hall _].
  pose proof (rl_hdr_ok _ _ _ _ _ _ _ Hr Hg) as Hok. pose proof (rl_hdr_len _ _ _ _ _ _ _ Hg). split; cbn [layout_of Partitions FirstUsableLBA SectorSize BackupRegion r_Length].
  - eapply Forall_impl; [exact Hall|]. intros p (? & ? & ? & _). done.
  - apply sub_u64; [done|lia].
  - lia.
  - left. split; [done|]. rewrite (rl_backupLen r D ss mbr hdr entries parts Hg hdr) by done. lia.
  - done.
Qed.

Lemma fits_planned l scheme opts lo last parts pps p : Forall2 (fits l scheme opts lo last) parts pps → NoDup (Index <$> parts) → p ∈ parts → ∃ pp, planned pps (Index p) = Some pp ∧ fits l scheme opts lo last p pp.
Proof.
  intros Hf. induction Hf as [|q pp qs pps Hq Hf IH]; [by intros _ ?%elem_of_nil|]. rewrite fmap_cons. intros [Hni Hnd]%NoDup_cons Hp. unfold planned. cbn [list_find]. pose proof (fi_same _ _ _ _ _ _ _ Hq) as (Hi & _).
  apply elem_of_cons in Hp as [->|Hp]; [rewrite decide_True by done; by exists pp|]. rewrite decide_False by (rewrite Hi; intros E; apply Hni; rewrite E; by apply list_elem_of_fmap_2).
  destruct (IH Hnd Hp) as (pp' & Hpp & Hfp). exists pp'. split; [|done]. unfold planned in Hpp. by destruct (list_find _ pps) as [[k x]|].
Qed.

Lemma fit_applied r D ss l cp cb tg opts plan d :
  bytes_ok r → len r < 2 ^ 63 → ParseWithSector r D ss = Ok l →
  ReadAt r 0 (r_Length (PrimaryRegion l)) = Some cp → ReadAt r (r_Offset (BackupRegion l)) (r_Length (BackupRegion l)) = Some cb →
  Z.rem (r_Length (BackupRegion l)) ss = 0 → ss + r_Length (BackupRegion l) ≤ r_Length (PrimaryRegion l) →
  PlanFit l tg opts = Ok plan → Applicable plan = true → tg_Size tg < 2 ^ 63 → 0 ≤ tg_PhysicalSector tg < 2 ^ 32 →
  r_Length (PrimaryRegion l) + r_Length (BackupRegion l) ≤ tg_Size tg → len d = tg_Size tg →
  ∃ primary off backup l', ApplyFit l plan cp cb = Ok (primary, off, backup) ∧
    let t := WriteAt (WriteAt d 0 primary) off backup in
    ParseWithSector t (tg_Size tg) ss = Ok l' ∧ VerifyBackupHeader l' t = Ok tt ∧
    Partitions l' = moveTo (fp_Partitions plan) <$> Partitions l ∧ DiskGUID l' = DiskGUID l ∧ FirstUsableLBA l' = FirstUsableLBA l ∧ LastUsableLBA l' = fp_NewLastUsableLBA plan ∧
    Forall (λ p, FirstLBA p ≤ LastLBA p ≤ LastUsableLBA l') (Partitions l') ∧ (LastUsableLBA l' + 1) * ss ≤ off ∧
    len primary = r_Length (PrimaryRegion l) ∧ len backup = r_Length (BackupRegion l) ∧ off + len backup = tg_Size tg.
Proof.
  intros Hr Hlen Hp Hcp Hcb Hwhole Hafter Hplan Happ Hsz Hps Hroom Hd. apply ParseWithSector_inv in Hp as (mbr & hdr & entries & parts & Hg & ->).
  pose proof (parsed_plannable r D ss mbr hdr entries parts tg Hr Hg Hsz Hps) as Hpb. destruct (plan_fits _ _ _ _ 0 Hpb (or_introl eq_refl) Hplan Happ) as ((parts' & Hperm & Hfits) & _ & Hl1 & Hl2 & Hsch & Htg & Hl3 & Hrem & Hpos).
  cbn [layout_of PrimaryRegion BackupRegion r_Length r_Offset Partitions SectorSize schemeOf Scheme] in *. change (schemeOf (layout_of hdr parts D ss)) with "gpt"%string in *. specialize (Hl2 eq_refl).
  pose proof (rl_ss _ _ _ _ _ _ _ Hg). pose proof (rl_eb _ _ _ _ _ _ _ Hg). rewrite (rl_backupLen r D ss mbr hdr entries parts Hg hdr) in Hwhole, Hafter, Hroom, Hl2 by done. rewrite (rl_primary r D ss mbr hdr entries parts Hlen Hg) in Hafter, Hroom.
  assert (Hw : Z.rem (h_entryBytes hdr) ss = 0).
  { rewrite Z.rem_mod_nonneg in * by lia. replace (ss + h_entryBytes hdr) with (h_entryBytes hdr + 1 * ss) in Hwhole by lia. by rewrite Z.mod_add in Hwhole by lia. }
  destruct (gpt_parts_ok _ _ _ _ _ _ _ Hr Hg) as [_ Hsorted].
  assert (Hnd : NoDup (Index <$> parts')) by (rewrite Hperm; clear -Hsorted; induction Hsorted as [|x xs _ IH Hall]; [constructor|]; constructor; [|done]; intros Hx; rewrite Forall_forall in Hall; specialize (Hall x Hx); lia).
  assert (Hidx : pp_Index <$> fp_Partitions plan = Index <$> parts') by (clear -Hfits; induction Hfits as [|p pp ps pps [Hs _ _ _ _] _ IH]; [done|]; cbn; rewrite IH; destruct Hs as [-> _]; done).
  assert (Hslots : Forall (inArray (h_entryCount hdr)) (fp_Partitions plan) ∧ NoDup (pp_Index <$> fp_Partitions plan)).
  { split; [|by rewrite Hidx]. destruct (ap_words r D ss mbr hdr entries parts Hr Hg) as (Hc & Hes & _ & _ & Hle). unfold is_u32 in Hc. assert (Hok : bytes_ok entries) by (eapply bytes_ok_ReadAt; [exact Hr|apply (go_entries _ _ _ _ _ _ _ Hg)]).
    destruct (partLoop_ok entries (h_entrySize hdr) ss D (Z.to_nat (h_entryCount hdr)) Hok Hes 0 parts ltac:(lia) ltac:(lia) (go_parts _ _ _ _ _ _ _ Hg)) as (_ & _ & Hin).
    rewrite <- Hperm in Hin. apply (Forall_fmap pp_Index (λ i, 0 ≤ i < h_entryCount hdr)). rewrite Hidx. apply Forall_fmap. eapply Forall_impl; [exact Hin|]. cbn. lia. }
  assert (Hplace : ∀ p, p ∈ parts → ∃ pp, planned (fp_Partitions plan) (Index p) = Some pp ∧ 0 ≤ NewFirst pp ∧ NewFirst pp ≤ NewLast pp ≤ fp_NewLastUsableLBA plan).
  { intros p Hp. rewrite <- Hperm in Hp. destruct (fits_planned _ _ _ _ _ _ _ p Hfits Hnd Hp) as (pp & Hpp & [_ Hpl _ _ _]). by exists pp. }
  set (N := tg_Size tg) in *. assert (HN : 0 < N < 2 ^ 63 ∧ Z.rem N ss = 0) by lia. assert (Haft : 2 * ss ≤ entryOff hdr ss) by lia. assert (Hrm : entryOff hdr ss + h_entryBytes hdr + ss + h_entryBytes hdr ≤ N) by lia.
  opose proof* (apply_eq r D ss N mbr hdr entries cp cb parts plan) as Heq; try done.
  opose proof* (fit_gpt r D ss N mbr hdr entries cp parts plan) as (Hgpt' & _); try done.
  opose proof* (fit_backup_verifies r D ss N mbr hdr entries cp parts plan) as Hv; try done.
  opose proof* (fitSector_fields r D ss N mbr hdr entries parts plan) as (_ & _ & _ & _ & _ & _ & F7 & _); try done.
  opose proof* (ap_entryLBA r D ss N mbr hdr entries parts) as [HE _]; try done.
  opose proof* (fit_lengths r D ss N mbr hdr entries cp parts plan) as [Hlp Hlb]; try done.
  eexists _, _, _, _. split; [exact Heq|]. cbv zeta. split; [exact (ParseWithSector_ok _ _ _ _ _ _ _ Hgpt')|]. split; [exact Hv|]. cbn [layout_of Partitions DiskGUID FirstUsableLBA LastUsableLBA].
  split; [done|]. rewrite F7. split_and!.
  - f_equal. eapply fitSector_same; (done || lia).
  - f_equal. eapply fitSector_same; (done || lia).
  - done.
  - apply Forall_fmap, Forall_forall. intros p Hp. destruct (Hplace p Hp) as (pp & Hpp & ?). cbn. unfold moveTo. rewrite Hpp. cbn. lia.
  - lia.
  - by rewrite (rl_primary r D ss mbr hdr entries parts Hlen Hg).
  - rewrite Hlb, (rl_backupLen r D ss mbr hdr entries parts Hg hdr) by done. lia.
  - lia.
Qed.

(** A plan applied is the plan on disk: for a parsed GPT and an applicable plan for a target
    that holds both copies of the table, [ApplyFit] succeeds, and the target it is written
    to, whatever else it holds, parses to the captured partitions, with their slots, type
    and partition GUIDs, names and attributes, at the planned places and inside the new
    usable range, and its backup header verifies.  The entry array is a whole number of
    sectors. *)
Theorem fit_applied_parses r D ss l cp cb tg opts plan d :
  bytes_ok r → len r < 2 ^ 63 → ParseWithSector r D ss = Ok l →
  ReadAt r 0 (r_Length (PrimaryRegion l)) = Some cp → ReadAt r (r_Offset (BackupRegion l)) (r_Length (BackupRegion l)) = Some cb →
  Z.rem (r_Length (BackupRegion l)) ss = 0 → ss + r_Length (BackupRegion l) ≤ r_Length (PrimaryRegion l) →
  PlanFit l tg opts = Ok plan → Applicable plan = true → tg_Size tg < 2 ^ 63 → 0 ≤ tg_PhysicalSector tg < 2 ^ 32 →
  r_Length (PrimaryRegion l) + r_Length (BackupRegion l) ≤ tg_Size tg → len d = tg_Size tg →
  ∃ primary off backup l', ApplyFit l plan cp cb = Ok (primary, off, backup) ∧
    let t := WriteAt (WriteAt d 0 primary) off backup in
    ParseWithSector t (tg_Size tg) ss = Ok l' ∧ VerifyBackupHeader l' t = Ok tt ∧
    Partitions l' = moveTo (fp_Partitions plan) <$> Partitions l ∧ DiskGUID l' = DiskGUID l ∧ FirstUsableLBA l' = FirstUsableLBA l ∧ LastUsableLBA l' = fp_NewLastUsableLBA plan ∧
    Forall (λ p, FirstLBA p ≤ LastLBA p ≤ LastUsableLBA l') (Partitions l') ∧ (LastUsableLBA l' + 1) * ss ≤ off.
Proof.
  intros H1 H2 H3 H4 H5 H6 H7 H8 H9 H10 H11 H12 H13. destruct (fit_applied r D ss l cp cb tg opts plan d H1 H2 H3 H4 H5 H6 H7 H8 H9 H10 H11 H12 H13) as (primary & off & backup & l' & A1 & A2 & A3 & A4 & A5 & A6 & A7 & A8 & A9 & _).
  by exists primary, off, backup, l'.
Qed.
End fitted.

(** ** A small drive *)

(** A disk of seven sectors with one data partition, and what is captured of it. *)
Definition dataEntry : bytes := [162; 160; 208; 235; 229; 185; 51; 68; 135; 192; 104; 182; 183; 38; 153; 199] ++ replicate 16 2 ++ PutUint64 3 ++ PutUint64 4 ++ zeros 80.
Definition dataDisk : bytes :=
  let entries := dataEntry ++ zeros 384 in
  let pad l := l ++ zeros (Z.to_nat (- (len l) mod 512)) in
  zeros 510 ++ [0x55; 0xAA] ++ pad (sampleHeader 6 4 entries) ++ entries ++ zeros 1024 ++ entries ++ pad (sampleHeader 6 4 entries).
Definition dataLayout : DiskLayout := match ParseWithSector dataDisk 3584 512 with Ok l => l | Err _ => sampleLayout 3 4 6 4 end.
Definition growOptions : FitOptions := mkFitOptions true true false None.
Definition dataPlan : FitPlan := match PlanFit dataLayout (mkGeometry 5120 512 512) growOptions with Ok p => p | Err _ => mkFitPlan "" 0 0 0 [] [] [] end.

Lemma fit_applied_parses_witness : ∃ primary off backup l' p, ApplyFit dataLayout dataPlan (sub dataDisk 0 1536) (sub dataDisk 2560 1024) = Ok (primary, off, backup) ∧
  ParseWithSector (WriteAt (WriteAt (zeros (Z.to_nat 5120)) 0 primary) off backup) 5120 512 = Ok l' ∧ Partitions l' = [p] ∧ FirstLBA p = 3 ∧ LastLBA p = 7 ∧ LastUsableLBA l' = 7.
Proof.
  destruct (fit_applied_parses dataDisk 3584 512 dataLayout (sub dataDisk 0 1536) (sub dataDisk 2560 1024) (mkGeometry 5120 512 512) growOptions dataPlan (zeros (Z.to_nat 5120)))
    as (primary & off & backup & l' & H1 & H2 & _ & H3 & _ & _ & H4 & _).
  - by_eval.
  - vm_compute. reflexivity.
  - vm_compute. reflexivity.
  - vm_compute. reflexivity.
  - vm_compute. reflexivity.
  - vm_compute. reflexivity.
  - vm_compute. discriminate.
  - vm_compute. reflexivity.
  - vm_compute. reflexivity.
  - reflexivity.
  - split; [discriminate|reflexivity].
  - vm_compute. discriminate.
  - reflexivity.
  - eexists primary, off, backup, l', _. split; [exact H1|]. split; [exact H2|]. split; [rewrite H3; vm_compute; reflexivity|]. split; [reflexivity|]. split; [reflexivity|]. rewrite H4. vm_compute. reflexivity.
Defined.
