(* ===== verification/Dnm.v ===== *)
(** * core/manifest: the .dnm record codecs (dnm.go)

    Metadata and file-catalog records, with the byte-level helpers.  Go strings and
    byte slices are lists of bytes, a [float64] its 64 bits, a [time.Time] its Unix
    nanoseconds or [None] for the zero time.  [bytes.Reader] is the unread rest;
    [io.ReadFull] tells an empty rest ([EOF]) from a short one.  The errors the
    decoders wrap carry the field they were reading. *)

From S2P Require Import Prelude GoBytes.

(** ** Data (manifest.go) *)

(** "source-stream/v1" *)
Definition DigestCoversSourceStreamV1 : bytes := [115;111;117;114;99;101;45;115;116;114;101;97;109;47;118;49].

Record VolumeExtent := mkExtent { x_FileOffset : Z; x_VolumeOffset : Z; x_Length : Z }.

Record FileEntry := mkFile {
  Path : bytes; SourceIndex : Z; Size : Z; Mode : Z; ModTime : option Z; IsDir : bool; IsSymlink : bool;
  LinkTarget : bytes; StreamOffset : Z; StreamLength : Z; ContentHash : bytes; Unchanged : bool;
  DataBackupID : bytes; VolumeExtents : list VolumeExtent; InlineData : bytes; f_IsExcluded : bool }.

Record Entry := mkEntry { VolumeOffset : Z; ChunkHash : bytes; ChunkLength : Z; IsExcluded : bool }.

Record Backup := mkBackup {
  BackupID : bytes; Timestamp : option Z; SourceVolume : bytes; SectorSize : Z; ClusterSize : Z; TotalBytes : Z;
  Entries : list Entry; ParentBackupID : bytes; BackupType : bytes;
  TotalChunks : Z; UniqueChunks : Z; DedupChunks : Z; RawBytes : Z; StoredBytes : Z; DedupRatio : Z; CompRatio : Z;
  Duration : bytes; ContentDigest : bytes; ContentDigestCovers : bytes;
  ExcludePaths : list bytes; ExcludeWarnings : list bytes; ChangedChunks : Z; UnchangedChunks : Z;
  BackupMode : bytes; SourcePaths : list bytes; FileCatalog : list FileEntry;
  CatalogSidecarPath : bytes; CatalogCount : Z; WrappedDEK : bytes }.

(** ** Readers *)

Inductive rd_err := EOF | UnexpectedEOF.
Definition reader (A : Type) : Type := bytes → result rd_err (A * bytes).

Definition ReadFull (n : Z) : reader bytes := λ r,
  if n <=? 0 then Ok ([], r)
  else match r with
       | [] => Err EOF
       | _ => if len r <? n then Err UnexpectedEOF else Ok (take (Z.to_nat n) r, drop (Z.to_nat n) r)
       end.

(** ** Constants *)

Definition dnmMagic : bytes := [68; 78; 77; 65; 78; 73; 70; 0].
Definition dnmVersion : Z := 1.
Definition fileHeaderSize : Z := 32.
Definition sectionIndexSize : Z := 36.
Definition numSections : Z := 3.
Definition sectionMetadata : Z := 1.
Definition sectionCatalog : Z := 2.
Definition sectionEntries : Z := 3.
Definition flagIsDir : Z := Z.shiftl 1 0.
Definition flagIsSymlink : Z := Z.shiftl 1 1.
Definition flagUnchanged : Z := Z.shiftl 1 2.
Definition flagExcluded : Z := Z.shiftl 1 3.
Definition count16Sentinel : Z := 0xFFFF.
Definition zeroTimeNano : Z := - 2 ^ 63.

(** ** Headers *)

Definition encodeHeader (sectionIndexOffset : Z) : bytes :=
  dnmMagic ++ PutUint16 dnmVersion ++ zeros 2 ++ PutUint64 sectionIndexOffset ++ PutUint32 numSections ++ zeros 8.

Record sectionInfo := mkSection { s_typ : Z; s_offset : Z; s_length : Z; s_count : Z }.

Definition encodeSectionIndex (typ offset length count : Z) : bytes :=
  [typ] ++ zeros 7 ++ PutUint64 offset ++ PutUint64 length ++ PutUint64 count ++ zeros 4.

Definition decodeSectionIndex (buf : bytes) : sectionInfo :=
  mkSection (nth 0 buf 0) (le_get (sub buf 8 8)) (le_get (sub buf 16 8)) (le_get (sub buf 24 8)).

(** ** Write helpers *)

Definition writeStr8 (s : bytes) : bytes := let s := take 255 s in u8 (len s) :: s.
Definition writeStr16 (s : bytes) : bytes := let s := take (Z.to_nat 65535) s in PutUint16 (u16 (len s)) ++ s.
Definition writeUint16 (v : Z) : bytes := PutUint16 v.
Definition writeUint32 (v : Z) : bytes := PutUint32 v.
Definition writeInt32 (v : Z) : bytes := writeUint32 (u32 v).
Definition writeInt64 (v : Z) : bytes := PutUint64 (u64 v).
Definition writeFloat64 (bits : Z) : bytes := writeInt64 (i64 bits).
Definition writeCount16 (n : Z) : bytes :=
  if n <? count16Sentinel then writeUint16 (u16 n) else writeUint16 count16Sentinel ++ writeUint32 (u32 n).
Definition writeTimeNano (t : option Z) : bytes :=
  match t with None => writeInt64 zeroTimeNano | Some ns => writeInt64 ns end.

(** ** Read helpers *)

Definition readStr8 : reader bytes := λ r,
  let! '(lenBuf, r) := ReadFull 1 r in
  let n := nth 0 lenBuf 0 in
  if n =? 0 then Ok ([], r) else ReadFull n r.

Definition readStr16 : reader bytes := λ r,
  let! '(lenBuf, r) := ReadFull 2 r in
  let n := le_get lenBuf in
  if n =? 0 then Ok ([], r) else ReadFull n r.

Definition readUint16 : reader Z := λ r, let! '(buf, r) := ReadFull 2 r in Ok (le_get buf, r).
Definition readUint32 : reader Z := λ r, let! '(buf, r) := ReadFull 4 r in Ok (le_get buf, r).
Definition readInt32 : reader Z := λ r, let! '(v, r) := readUint32 r in Ok (i32 v, r).
Definition readInt64 : reader Z := λ r, let! '(buf, r) := ReadFull 8 r in Ok (i64 (le_get buf), r).
Definition readFloat64 : reader Z := λ r, let! '(v, r) := readInt64 r in Ok (u64 v, r).
Definition readCount16 : reader Z := λ r,
  let! '(v, r) := readUint16 r in
  if negb (v =? count16Sentinel) then Ok (v, r) else readUint32 r.
Definition readTimeNano : reader (option Z) := λ r,
  let! '(v, r) := readInt64 r in
  Ok ((if v =? zeroTimeNano then None else Some v), r).

(** A fixed number of items. *)
Fixpoint readN {A} (item : reader A) (n : nat) : reader (list A) := λ r,
  match n with
  | O => Ok ([], r)
  | S n => let! '(x, r) := item r in let! '(xs, r) := readN item n r in Ok (x :: xs, r)
  end.

(** ** Metadata *)

Definition encodeMetaBase (b : Backup) : bytes :=
  writeStr8 (BackupID b) ++ writeStr16 (SourceVolume b) ++ writeStr8 (BackupType b) ++ writeStr8 (BackupMode b) ++
  writeStr8 (ParentBackupID b) ++ writeTimeNano (Timestamp b) ++
  writeUint32 (u32 (SectorSize b)) ++ writeUint32 (u32 (ClusterSize b)) ++
  writeInt64 (TotalBytes b) ++ writeInt64 (TotalChunks b) ++ writeInt64 (UniqueChunks b) ++ writeInt64 (DedupChunks b) ++
  writeInt64 (RawBytes b) ++ writeInt64 (StoredBytes b) ++ writeFloat64 (DedupRatio b) ++ writeFloat64 (CompRatio b) ++
  writeStr8 (Duration b) ++ writeInt64 (ChangedChunks b) ++ writeInt64 (UnchangedChunks b) ++
  writeCount16 (len (SourcePaths b)) ++ concat (writeStr16 <$> SourcePaths b) ++
  writeCount16 (len (WrappedDEK b)) ++ WrappedDEK b.

(** The fields appended later, in the order they were added. *)
Definition encodeMetaTail (b : Backup) : bytes :=
  writeStr8 (ContentDigest b) ++ writeStr8 (ContentDigestCovers b) ++
  writeCount16 (len (ExcludePaths b)) ++ concat (writeStr16 <$> ExcludePaths b) ++
  writeCount16 (len (ExcludeWarnings b)) ++ concat (writeStr16 <$> ExcludeWarnings b).

Definition encodeMetadata (b : Backup) : bytes := encodeMetaBase b ++ encodeMetaTail b.

(** A read whose error is wrapped with the field's name. *)
Definition at_field {A} (name : string) (m : result rd_err A) : result (string * rd_err) A :=
  match m with Ok a => Ok a | Err e => Err (name, e) end.

(** The appended fields: an old manifest ends before them. *)
Definition decodeMetaTail (result : bytes → bytes → list bytes → list bytes → Backup) (r : bytes)
    : Prelude.result (string * rd_err) Backup :=
  match readStr8 r with
  | Err EOF => Ok (result [] [] [] [])
  | Err e => Err ("ContentDigest"%string, e)
  | Ok (digest, r) =>
      match readStr8 r with
      | Err EOF => Ok (result [] [] [] [])
      | Err e => Err ("ContentDigestCovers"%string, e)
      | Ok (covers, r) =>
          match readCount16 r with
          | Err EOF => Ok (result digest covers [] [])
          | Err e => Err ("ExcludePaths count"%string, e)
          | Ok (n, r) =>
              let! '(paths, r) := at_field "ExcludePaths" (readN readStr16 (Z.to_nat n) r) in
              let! '(n, r) := at_field "ExcludeWarnings count" (readCount16 r) in
              let! '(warnings, r) := at_field "ExcludeWarnings" (readN readStr16 (Z.to_nat n) r) in
              Ok (result digest covers paths warnings)
          end
      end
  end.

Definition decodeMetadata (data : bytes) : result (string * rd_err) Backup :=
  let r := data in
  let! '(backupID, r) := at_field "BackupID" (readStr8 r) in
  let! '(sourceVolume, r) := at_field "SourceVolume" (readStr16 r) in
  let! '(backupType, r) := at_field "BackupType" (readStr8 r) in
  let! '(backupMode, r) := at_field "BackupMode" (readStr8 r) in
  let! '(parent, r) := at_field "ParentBackupID" (readStr8 r) in
  let! '(timestamp, r) := at_field "Timestamp" (readTimeNano r) in
  let! '(sectorSize, r) := at_field "SectorSize" (readUint32 r) in
  let! '(clusterSize, r) := at_field "ClusterSize" (readUint32 r) in
  let! '(totalBytes, r) := at_field "TotalBytes" (readInt64 r) in
  let! '(totalChunks, r) := at_field "TotalChunks" (readInt64 r) in
  let! '(uniqueChunks, r) := at_field "UniqueChunks" (readInt64 r) in
  let! '(dedupChunks, r) := at_field "DedupChunks" (readInt64 r) in
  let! '(rawBytes, r) := at_field "RawBytes" (readInt64 r) in
  let! '(storedBytes, r) := at_field "StoredBytes" (readInt64 r) in
  let! '(dedupRatio, r) := at_field "DedupRatio" (readFloat64 r) in
  let! '(compRatio, r) := at_field "CompRatio" (readFloat64 r) in
  let! '(duration, r) := at_field "Duration" (readStr8 r) in
  let! '(changed, r) := at_field "ChangedChunks" (readInt64 r) in
  let! '(unchanged, r) := at_field "UnchangedChunks" (readInt64 r) in
  let! '(pathCount, r) := at_field "SourcePathCount" (readCount16 r) in
  let! '(sourcePaths, r) := at_field "SourcePaths" (readN readStr16 (Z.to_nat pathCount) r) in
  let! '(dekLen, r) := at_field "WrappedDEKLen" (readCount16 r) in
  let! '(dek, r) := at_field "WrappedDEK" (ReadFull dekLen r) in
  let result digest covers paths warnings :=
    mkBackup backupID timestamp sourceVolume sectorSize clusterSize totalBytes [] parent backupType
      totalChunks uniqueChunks dedupChunks rawBytes storedBytes dedupRatio compRatio duration digest covers
      paths warnings changed unchanged backupMode sourcePaths [] [] 0 dek in
  decodeMetaTail result r.

(** ** File entries *)

Definition bit (b : bool) (flag : Z) : Z := if b then flag else 0.
Definition fileFlags (fe : FileEntry) : Z :=
  Z.lor (Z.lor (Z.lor (bit (IsDir fe) flagIsDir) (bit (IsSymlink fe) flagIsSymlink))
    (bit (Unchanged fe) flagUnchanged)) (bit (f_IsExcluded fe) flagExcluded).
Definition hasFlag (flags flag : Z) : bool := negb (Z.land flags flag =? 0).

Definition writeExtent (x : VolumeExtent) : bytes :=
  writeInt64 (x_FileOffset x) ++ writeInt64 (x_VolumeOffset x) ++ writeInt64 (x_Length x).

Definition encodeFileEntry (fe : FileEntry) : bytes :=
  writeStr16 (Path fe) ++ writeInt32 (i32 (SourceIndex fe)) ++ writeInt64 (Size fe) ++ writeUint32 (Mode fe) ++
  writeTimeNano (ModTime fe) ++ [fileFlags fe] ++ writeStr16 (LinkTarget fe) ++
  writeInt64 (StreamOffset fe) ++ writeInt64 (StreamLength fe) ++ ContentHash fe ++ writeStr8 (DataBackupID fe) ++
  writeCount16 (len (VolumeExtents fe)) ++ concat (writeExtent <$> VolumeExtents fe) ++
  writeCount16 (len (InlineData fe)) ++ InlineData fe.

Definition readExtent : reader VolumeExtent := λ r,
  let! '(f, r) := readInt64 r in let! '(v, r) := readInt64 r in let! '(l, r) := readInt64 r in Ok (mkExtent f v l, r).

Definition decodeFileEntry (data : bytes) : result (string * rd_err) FileEntry :=
  let r := data in
  let! '(path, r) := at_field "Path" (readStr16 r) in
  let! '(si, r) := at_field "SourceIndex" (readInt32 r) in
  let! '(size, r) := at_field "Size" (readInt64 r) in
  let! '(mode, r) := at_field "Mode" (readUint32 r) in
  let! '(modTime, r) := at_field "ModTime" (readTimeNano r) in
  let! '(fl, r) := at_field "Flags" (ReadFull 1 r) in
  let flags := nth 0 fl 0 in
  let! '(link, r) := at_field "LinkTarget" (readStr16 r) in
  let! '(streamOffset, r) := at_field "StreamOffset" (readInt64 r) in
  let! '(streamLength, r) := at_field "StreamLength" (readInt64 r) in
  let! '(contentHash, r) := at_field "ContentHash" (ReadFull 32 r) in
  let! '(dataID, r) := at_field "DataBackupID" (readStr8 r) in
  let! '(extCount, r) := at_field "ExtentCount" (readCount16 r) in
  let! '(extents, r) := at_field "Extent" (readN readExtent (Z.to_nat extCount) r) in
  let! '(inline, r) :=
    (if 2 <=? len r then
       let! '(inlineLen, r) := at_field "InlineDataLen" (readCount16 r) in
       at_field "InlineData" (ReadFull inlineLen r)
     else Ok ([], r)) in
  Ok (mkFile path si size mode modTime (hasFlag flags flagIsDir) (hasFlag flags flagIsSymlink) link streamOffset
    streamLength contentHash (hasFlag flags flagUnchanged) dataID extents inline (hasFlag flags flagExcluded)).

(** ** Reading back what was written *)

Lemma ReadFull_app n d rest : len d = n → ReadFull n (d ++ rest) = Ok (d, rest).
Proof.
  intros <-. unfold ReadFull. destruct d as [|x d]; [done|]. rewrite (proj2 (Z.leb_gt _ _)) by (cbn; lia).
  cbn [app]. rewrite (proj2 (Z.ltb_ge _ _)) by (cbn [length]; rewrite length_app; lia).
  rewrite app_comm_cons, Nat2Z.id. by rewrite take_app_length, drop_app_length.
Qed.

Lemma i32_i32 z : i32 (i32 z) = i32 z.
Proof. unfold i32. replace (_ - _ + 2 ^ 31) with ((z + 2 ^ 31) mod 2 ^ 32) by lia. by rewrite Z.mod_mod. Qed.

Lemma readStr8_write s rest : readStr8 (writeStr8 s ++ rest) = Ok (take 255 s, rest).
Proof.
  unfold readStr8, writeStr8. assert (len (take 255 s) ≤ 255) by (rewrite length_take; lia).
  rewrite <- app_comm_cons. change (?x :: ?l) with ([x] ++ l). rewrite ReadFull_app by done. cbn [rbind nth].
  unfold u8. rewrite Z.mod_small by lia. destruct (take 255 s) as [|c t]; [done|].
  rewrite (proj2 (Z.eqb_neq _ _)) by (cbn; lia). by apply ReadFull_app.
Qed.

Lemma readStr16_write s rest : readStr16 (writeStr16 s ++ rest) = Ok (take (Z.to_nat 65535) s, rest).
Proof.
  unfold readStr16, writeStr16. assert (len (take (Z.to_nat 65535) s) ≤ 65535) by (rewrite length_take; lia).
  rewrite <- app_assoc, ReadFull_app by done. cbn [rbind]. rewrite u16_id, le_get_PutUint16 by (unfold is_u16; lia).
  destruct (take (Z.to_nat 65535) s) as [|c t]; [done|].
  rewrite (proj2 (Z.eqb_neq _ _)) by (cbn; lia). by apply ReadFull_app.
Qed.

Lemma readUint16_write v rest : is_u16 v → readUint16 (writeUint16 v ++ rest) = Ok (v, rest).
Proof. intros Hv. unfold readUint16, writeUint16. rewrite ReadFull_app by done. cbn [rbind]. by rewrite le_get_PutUint16. Qed.

Lemma readUint32_write v rest : readUint32 (writeUint32 v ++ rest) = Ok (u32 v, rest).
Proof.
  unfold readUint32, writeUint32. rewrite ReadFull_app by done. cbn [rbind]. by rewrite le_get_PutUint32_mod.
Qed.

Lemma readInt32_write v rest : readInt32 (writeInt32 v ++ rest) = Ok (i32 v, rest).
Proof.
  unfold readInt32, writeInt32. rewrite readUint32_write. cbn [rbind]. do 2 f_equal.
  rewrite i32_u32. apply i32_u32.
Qed.

Lemma readInt64_write v rest : readInt64 (writeInt64 v ++ rest) = Ok (i64 v, rest).
Proof.
  unfold readInt64, writeInt64. rewrite ReadFull_app by done. cbn [rbind].
  rewrite le_get_PutUint64 by (auto with bytes). by rewrite i64_u64.
Qed.

Lemma readFloat64_write v rest : readFloat64 (writeFloat64 v ++ rest) = Ok (u64 v, rest).
Proof. unfold readFloat64, writeFloat64. rewrite readInt64_write. cbn [rbind]. by rewrite !u64_i64. Qed.

Lemma readCount16_write n rest : is_u32 n → readCount16 (writeCount16 n ++ rest) = Ok (n, rest).
Proof.
  intros Hn. unfold readCount16, writeCount16, is_u32, count16Sentinel in *. destruct (n <? 0xFFFF) eqn:Hs; zbool.
  - rewrite u16_id, readUint16_write by (unfold is_u16; lia). cbn [rbind]. by rewrite (proj2 (Z.eqb_neq _ _)) by lia.
  - rewrite <- app_assoc, readUint16_write by (unfold is_u16; lia). cbn [rbind].
    rewrite Z.eqb_refl. cbn [negb]. rewrite readUint32_write, !u32_id; (done || by rewrite u32_id).
Qed.

(** A time as it is read back: a real time at the sentinel becomes the zero time. *)
Definition storedTime (t : option Z) : option Z :=
  match t with
  | None => None
  | Some ns => if i64 ns =? zeroTimeNano then None else Some (i64 ns)
  end.

Lemma readTimeNano_write t rest : readTimeNano (writeTimeNano t ++ rest) = Ok (storedTime t, rest).
Proof. unfold readTimeNano, writeTimeNano. destruct t; rewrite readInt64_write; done. Qed.

Lemma readN_write {A} (write : A → bytes) (read : reader A) (stored : A → A) l rest :
  (∀ x rest, read (write x ++ rest) = Ok (stored x, rest)) →
  readN read (length l) (concat (write <$> l) ++ rest) = Ok (stored <$> l, rest).
Proof.
  intros Hrw. induction l as [|x l IH]; [done|]. rewrite fmap_cons. cbn [length readN concat].
  rewrite <- app_assoc, Hrw. cbn [rbind]. rewrite IH. done.
Qed.

(** The tactic that runs a decoder over an encoding, field by field. *)
Ltac dnm_step :=
  first
    [ rewrite readStr8_write | rewrite readStr16_write | rewrite readUint32_write | rewrite readInt32_write
    | rewrite readInt64_write | rewrite readFloat64_write | rewrite readTimeNano_write
    | rewrite readCount16_write by (unfold is_u32; lia)
    | rewrite ReadFull_app by done ];
  cbn [at_field rbind].

Definition storedStr16 (s : bytes) : bytes := take (Z.to_nat 65535) s.
Lemma readStrs_write l rest :
  readN readStr16 (Z.to_nat (len l)) (concat (writeStr16 <$> l) ++ rest) = Ok (storedStr16 <$> l, rest).
Proof. rewrite Nat2Z.id. apply readN_write. intros. apply readStr16_write. Qed.

(** ** What a metadata section holds *)

(** The lengths that go through a 32-bit count. *)
Definition counts_fit (b : Backup) : Prop :=
  len (SourcePaths b) < 2 ^ 32 ∧ len (WrappedDEK b) < 2 ^ 32 ∧ len (ExcludePaths b) < 2 ^ 32 ∧ len (ExcludeWarnings b) < 2 ^ 32.

(** The backup a reader gets: long strings cut, sizes at their width, no entries, no
    catalog and none of the transient fields; the appended fields are still open. *)
Definition storedBase (b : Backup) (digest covers : bytes) (paths warnings : list bytes) : Backup :=
  mkBackup (take 255 (BackupID b)) (storedTime (Timestamp b)) (storedStr16 (SourceVolume b)) (u32 (SectorSize b))
    (u32 (ClusterSize b)) (i64 (TotalBytes b)) [] (take 255 (ParentBackupID b)) (take 255 (BackupType b))
    (i64 (TotalChunks b)) (i64 (UniqueChunks b)) (i64 (DedupChunks b)) (i64 (RawBytes b)) (i64 (StoredBytes b))
    (u64 (DedupRatio b)) (u64 (CompRatio b)) (take 255 (Duration b)) digest covers paths warnings
    (i64 (ChangedChunks b)) (i64 (UnchangedChunks b)) (take 255 (BackupMode b)) (storedStr16 <$> SourcePaths b)
    [] [] 0 (WrappedDEK b).
Definition storedMeta (b : Backup) : Backup :=
  storedBase b (take 255 (ContentDigest b)) (take 255 (ContentDigestCovers b)) (storedStr16 <$> ExcludePaths b)
    (storedStr16 <$> ExcludeWarnings b).

Lemma decode_base b tail : len (SourcePaths b) < 2 ^ 32 → len (WrappedDEK b) < 2 ^ 32 →
  decodeMetadata (encodeMetaBase b ++ tail) = decodeMetaTail (storedBase b) tail.
Proof.
  intros H1 H2. unfold decodeMetadata, encodeMetaBase. cbv zeta. rewrite <- !app_assoc.
  repeat dnm_step. rewrite readStrs_write. cbn [at_field rbind]. repeat dnm_step.
  unfold storedBase. rewrite !(u32_id (u32 _)) by apply u32_range. done.
Qed.

Lemma dnm_metadata_rt b : counts_fit b → decodeMetadata (encodeMetadata b) = Ok (storedMeta b).
Proof.
  intros (H1 & H2 & H3 & H4). unfold encodeMetadata. rewrite decode_base by done. unfold decodeMetaTail, encodeMetaTail.
  rewrite <- (app_nil_r (concat (writeStr16 <$> ExcludeWarnings b))).
  repeat dnm_step. rewrite readStrs_write. cbn [at_field rbind]. repeat dnm_step. rewrite readStrs_write. done.
Qed.


(** The conditions under which nothing is cut. *)
Definition str8 (s : bytes) : Prop := len s ≤ 255.
Definition str16 (s : bytes) : Prop := len s ≤ 65535.
Definition time_ok (t : option Z) : Prop := match t with None => True | Some ns => is_i64 ns ∧ ns ≠ zeroTimeNano end.
Record meta_ok (b : Backup) : Prop := {
  mo_str8 : Forall str8 [BackupID b; ParentBackupID b; BackupType b; Duration b; ContentDigest b; ContentDigestCovers b; BackupMode b];
  mo_str16 : str16 (SourceVolume b) ∧ Forall str16 (SourcePaths b) ∧ Forall str16 (ExcludePaths b) ∧ Forall str16 (ExcludeWarnings b);
  mo_time : time_ok (Timestamp b);
  mo_u32 : is_u32 (SectorSize b) ∧ is_u32 (ClusterSize b);
  mo_i64 : Forall is_i64 [TotalBytes b; TotalChunks b; UniqueChunks b; DedupChunks b; RawBytes b; StoredBytes b; ChangedChunks b; UnchangedChunks b];
  mo_float : is_u64 (DedupRatio b) ∧ is_u64 (CompRatio b) }.

Lemma storedStr16_id s : str16 s → storedStr16 s = s.
Proof. intros H. apply take_ge. unfold str16 in H. lia. Qed.
Lemma storedStr16_ids l : Forall str16 l → storedStr16 <$> l = l.
Proof. induction 1 as [|s l Hs Hl IH]; [done|]. rewrite fmap_cons, IH. by rewrite storedStr16_id. Qed.
Lemma storedTime_id t : time_ok t → storedTime t = t.
Proof. destruct t as [ns|]; [|done]. intros [Hi Hn]. cbn. rewrite i64_id by done. by rewrite (proj2 (Z.eqb_neq _ _)). Qed.

Definition metaOnly (b : Backup) : Backup :=
  mkBackup (BackupID b) (Timestamp b) (SourceVolume b) (SectorSize b) (ClusterSize b) (TotalBytes b) []
    (ParentBackupID b) (BackupType b) (TotalChunks b) (UniqueChunks b) (DedupChunks b) (RawBytes b) (StoredBytes b)
    (DedupRatio b) (CompRatio b) (Duration b) (ContentDigest b) (ContentDigestCovers b) (ExcludePaths b)
    (ExcludeWarnings b) (ChangedChunks b) (UnchangedChunks b) (BackupMode b) (SourcePaths b) [] [] 0 (WrappedDEK b).

Lemma storedMeta_id b : meta_ok b → storedMeta b = metaOnly b.
Proof.
  intros [H8 (Hv & Hs & He & Hw) Ht [Hss Hcs] Hi [Hd Hc]]. unfold storedMeta, storedBase, metaOnly.
  rewrite !storedStr16_ids, storedStr16_id, storedTime_id, !u32_id, !u64_id by done.
  rewrite !Forall_cons in H8. rewrite !Forall_cons in Hi. destruct_and!. unfold str8 in *.
  rewrite !i64_id by done. by rewrite !take_ge by lia.
Qed.

Definition sampleMeta : Backup :=
  mkBackup [98; 49] (Some 1700000000000000000) [67; 58] 512 4096 1000000 [] [] [102; 117; 108; 108]
    10 9 1 900 800 (Z.shiftl 1023 52) (Z.shiftl 1024 52) [49; 115] [97; 98] [118; 49] [[67; 58; 92; 120]] [[119]] 3 7
    [118] [[47; 104]; [47; 101]] [] [] 0 [1; 2; 3].

(** Metadata: for every backup, decoding the encoding gives the stored backup,
    which is the backup itself (less entries, catalog and transient fields) when its
    strings fit their length prefixes and its numbers their width. *)
Theorem dnm_metadata_roundtrip b : counts_fit b →
  decodeMetadata (encodeMetadata b) = Ok (storedMeta b) ∧ (meta_ok b → storedMeta b = metaOnly b).
Proof. intros H. split; [by apply dnm_metadata_rt|apply storedMeta_id]. Qed.

Lemma dnm_metadata_roundtrip_witness :
  decodeMetadata (encodeMetadata sampleMeta) = Ok sampleMeta.
Proof.
  rewrite <- (storedMeta_id sampleMeta : meta_ok sampleMeta → storedMeta sampleMeta = sampleMeta) at 2 by
    (split; by_eval || (cbn; split_and!; by_eval)).
  apply (dnm_metadata_roundtrip sampleMeta). unfold counts_fit. cbn. lia.
Defined.

(** Manifests written before a field existed: a section that ends before the digest
    has no digest and no exclusions; one that ends after a digest but before what it
    covers loses the digest; one that ends before the exclusions has none. *)
Theorem dnm_metadata_old_versions b : len (SourcePaths b) < 2 ^ 32 → len (WrappedDEK b) < 2 ^ 32 →
  decodeMetadata (encodeMetaBase b) = Ok (storedBase b [] [] [] []) ∧
  decodeMetadata (encodeMetaBase b ++ writeStr8 (ContentDigest b)) = Ok (storedBase b [] [] [] []) ∧
  decodeMetadata (encodeMetaBase b ++ writeStr8 (ContentDigest b) ++ writeStr8 (ContentDigestCovers b)) =
    Ok (storedBase b (take 255 (ContentDigest b)) (take 255 (ContentDigestCovers b)) [] []).
Proof.
  intros H1 H2. split_and!.
  - rewrite <- (app_nil_r (encodeMetaBase b)), decode_base by done. done.
  - rewrite decode_base, <- (app_nil_r (writeStr8 _)) by done. unfold decodeMetaTail. by dnm_step.
  - rewrite decode_base, <- (app_nil_r (writeStr8 (ContentDigestCovers b))) by done. unfold decodeMetaTail. do 2 dnm_step. done.
Qed.

Lemma dnm_metadata_old_versions_witness :
  decodeMetadata (encodeMetaBase sampleMeta) = Ok (storedBase sampleMeta [] [] [] []).
Proof. apply (dnm_metadata_old_versions sampleMeta); reflexivity. Defined.

(** A section cut right after the length byte of the digest is not refused: it is
    read as a manifest from before the digest existed. *)
Theorem dnm_metadata_cut_digest b k : len (SourcePaths b) < 2 ^ 32 → len (WrappedDEK b) < 2 ^ 32 → 0 < k ≤ 255 →
  decodeMetadata (encodeMetaBase b ++ [k]) = Ok (storedBase b [] [] [] []).
Proof.
  intros H1 H2 Hk. rewrite decode_base by done. unfold decodeMetaTail, readStr8. rewrite <- (app_nil_r [k]).
  rewrite ReadFull_app by done. cbn [rbind nth]. rewrite (proj2 (Z.eqb_neq _ _)) by lia.
  unfold ReadFull. by rewrite (proj2 (Z.leb_gt _ _)) by lia.
Qed.

Lemma dnm_metadata_cut_digest_witness :
  decodeMetadata (encodeMetaBase sampleMeta ++ [64]) = Ok (storedBase sampleMeta [] [] [] []).
Proof. apply dnm_metadata_cut_digest; [reflexivity|reflexivity|lia]. Defined.

(** ** File entries *)

Definition storedExtent (x : VolumeExtent) : VolumeExtent :=
  mkExtent (i64 (x_FileOffset x)) (i64 (x_VolumeOffset x)) (i64 (x_Length x)).
Definition storedFile (fe : FileEntry) : FileEntry :=
  mkFile (storedStr16 (Path fe)) (i32 (SourceIndex fe)) (i64 (Size fe)) (u32 (Mode fe)) (storedTime (ModTime fe))
    (IsDir fe) (IsSymlink fe) (storedStr16 (LinkTarget fe)) (i64 (StreamOffset fe)) (i64 (StreamLength fe))
    (ContentHash fe) (Unchanged fe) (take 255 (DataBackupID fe)) (storedExtent <$> VolumeExtents fe) (InlineData fe)
    (f_IsExcluded fe).

Lemma readExtent_write x rest : readExtent (writeExtent x ++ rest) = Ok (storedExtent x, rest).
Proof. unfold readExtent, writeExtent. rewrite <- !app_assoc. do 3 dnm_step. done. Qed.

Lemma flags_read fe : let f := fileFlags fe in
  hasFlag f flagIsDir = IsDir fe ∧ hasFlag f flagIsSymlink = IsSymlink fe ∧ hasFlag f flagUnchanged = Unchanged fe ∧
  hasFlag f flagExcluded = f_IsExcluded fe.
Proof. unfold fileFlags. by destruct (IsDir fe), (IsSymlink fe), (Unchanged fe), (f_IsExcluded fe). Qed.

Definition file_fits (fe : FileEntry) : Prop :=
  length (ContentHash fe) = 32%nat ∧ len (VolumeExtents fe) < 2 ^ 32 ∧ len (InlineData fe) < 2 ^ 32.

Lemma len_writeCount16 n : 2 ≤ len (writeCount16 n).
Proof. unfold writeCount16, writeUint16, writeUint32. destruct (_ <? _); [by rewrite length_PutUint16|]. rewrite length_app, length_PutUint16. lia. Qed.

Lemma dnm_file_rt fe junk : file_fits fe → decodeFileEntry (encodeFileEntry fe ++ junk) = Ok (storedFile fe).
Proof.
  intros (Hh & Hx & Hi). unfold decodeFileEntry, encodeFileEntry. cbv zeta. rewrite <- !app_assoc.
  do 5 dnm_step. rewrite (ReadFull_app 1 [fileFlags fe]) by done. cbn [at_field rbind nth].
  do 3 dnm_step. rewrite (ReadFull_app 32 (ContentHash fe)) by lia. cbn [at_field rbind]. do 2 dnm_step.
  rewrite Nat2Z.id, (readN_write _ _ storedExtent) by (intros; apply readExtent_write). cbn [at_field rbind].
  rewrite (proj2 (Z.leb_le _ _)) by (pose proof (len_writeCount16 (len (InlineData fe))); rewrite length_app; lia).
  do 2 dnm_step. destruct (flags_read fe) as (-> & -> & -> & ->). unfold storedFile. by rewrite i32_i32.
Qed.

(** The conditions under which nothing is cut. *)
Record file_ok (fe : FileEntry) : Prop := {
  fo_str : str16 (Path fe) ∧ str16 (LinkTarget fe) ∧ str8 (DataBackupID fe);
  fo_num : is_i32 (SourceIndex fe) ∧ is_u32 (Mode fe) ∧ Forall is_i64 [Size fe; StreamOffset fe; StreamLength fe];
  fo_time : time_ok (ModTime fe);
  fo_ext : Forall (λ x, is_i64 (x_FileOffset x) ∧ is_i64 (x_VolumeOffset x) ∧ is_i64 (x_Length x)) (VolumeExtents fe) }.

Lemma storedFile_id fe : file_ok fe → storedFile fe = fe.
Proof.
  destruct fe. intros [(H1 & H2 & H3) (H4 & H5 & H6) H7 H8]. unfold storedFile. cbn in *. unfold str8 in H3.
  rewrite !Forall_cons in H6. destruct_and!. rewrite !storedStr16_id, storedTime_id, u32_id, i32_id, !i64_id, take_ge by (done || lia).
  f_equal. induction H8 as [|x xs (? & ? & ?) Hxs IH]; [done|]. rewrite fmap_cons, IH. f_equal. destruct x. cbn in *.
  unfold storedExtent. cbn. by rewrite !i64_id.
Qed.

(** File entries: decoding an encoded entry, whatever bytes follow it, gives the
    entry back, with paths cut at their length prefix; an entry whose strings and
    numbers fit comes back whole. *)
Theorem dnm_file_roundtrip fe junk : file_fits fe →
  decodeFileEntry (encodeFileEntry fe ++ junk) = Ok (storedFile fe) ∧ (file_ok fe → storedFile fe = fe).
Proof. intros H. split; [by apply dnm_file_rt|apply storedFile_id]. Qed.

Definition sampleFile : FileEntry :=
  mkFile [97; 47; 98] 1 5000 420 (Some 0) false true [120] 4096 5000 (replicate 32 9) true [98; 49]
    [mkExtent 0 8192 4096; mkExtent 4096 65536 904] [1; 2] true.

Lemma dnm_file_roundtrip_witness : decodeFileEntry (encodeFileEntry sampleFile ++ [7]) = Ok sampleFile.
Proof. apply (dnm_file_roundtrip sampleFile [7]). repeat split; reflexivity. Defined.
