(* ===== verification/DnmFile.v ===== *)
(** * core/manifest: the .dnm file (dnm_writer.go, dnm_reader.go, dnm_stream.go,
      dnm_ranged.go, catalog_sidecar.go)

    A file is its bytes.  [writeDNM] builds the classic layout, [DNMStreamer] the
    streamed one as a sequence of parts handed to a sink, [OpenDNMReader] reads both;
    [StreamCatalogRanged] reads the catalog through a range-read function.  The sink,
    the range-read function and the visitor are arguments, as in the code; a
    [bufio.Reader] only changes the sizes of the reads under it.  An allocation of
    2^63 bytes or records or more panics ([DnPanic]); smaller ones succeed. *)

From S2P Require Import Prelude GoBytes Dnm.

(** ** Entry records *)

Definition EntryRecordSize : Z := 45.
Definition encodeEntryRecord (e : Entry) : bytes :=
  PutUint64 (u64 (VolumeOffset e)) ++ ChunkHash e ++ PutUint32 (u32 (ChunkLength e)) ++ [if IsExcluded e then 1 else 0].
Definition decodeEntryRecord (buf : bytes) : Entry :=
  mkEntry (i64 (le_get (sub buf 0 8))) (sub buf 8 32) (le_get (sub buf 40 4)) (negb (nth 44 buf 0 =? 0)).

Definition catalogRecord (fe : FileEntry) : bytes :=
  let rec := encodeFileEntry fe in PutUint32 (u32 (len rec)) ++ rec.

(** ** catalog_sidecar.go *)

(** Placeholder, records, then the count patched in. *)
Definition WriteCatalogSidecar (files : list FileEntry) : bytes * Z :=
  let count := len files in
  (WriteAt (zeros 8 ++ concat (catalogRecord <$> files)) 0 (PutUint64 (u64 count)), count).

Definition streamCatalogSidecar (f : bytes) : result rd_err (bytes * Z) :=
  let! '(countBuf, rest) := ReadFull 8 f in Ok (rest, le_get countBuf).

(** ** dnm_writer.go *)

Inductive dnm_err :=
| DnNoSidecar | DnSidecar (e : rd_err) | DnHeader (e : rd_err) | DnMagic | DnVersion | DnTrailer | DnTrailerOffset
| DnSeek | DnIndex (e : rd_err) | DnRange | DnRead (e : rd_err) | DnPanic | DnMeta (f : string) (e : rd_err)
| DnCatLen (e : rd_err) | DnCatData (e : rd_err) | DnCatRecord (f : string) (e : rd_err).

(** Count and bytes of the ENTRIES section; the sidecar is read when there are no
    entries in memory. *)
Definition writeEntriesSection (b : Backup) (sidecar : option bytes) : Z * bytes :=
  match Entries b with
  | _ :: _ => (len (Entries b), concat (encodeEntryRecord <$> Entries b))
  | [] => match sidecar with
          | None => (0, [])
          | Some sf => (Z.quot (len sf) EntryRecordSize, sf)
          end
  end.

Definition catalogSection (b : Backup) (catSidecar : bytes → option bytes) : result dnm_err (bytes * Z) :=
  if negb (bool_decide (CatalogSidecarPath b = [])) then
    match catSidecar (CatalogSidecarPath b) with
    | None => Err DnNoSidecar
    | Some f => match streamCatalogSidecar f with Ok x => Ok x | Err e => Err (DnSidecar e) end
    end
  else Ok (concat (catalogRecord <$> FileCatalog b), len (FileCatalog b)).

(** The file that [writeDNM] leaves, given the entries sidecar and the other files. *)
Definition writeDNM (b : Backup) (sidecar : option bytes) (catSidecar : bytes → option bytes) : result dnm_err bytes :=
  let metaOffset := fileHeaderSize in
  let metaBytes := encodeMetadata b in
  let catalogOffset := metaOffset + len metaBytes in
  let! '(catBytes, catalogCount) := catalogSection b catSidecar in
  let entriesOffset := catalogOffset + len catBytes in
  let '(entriesCount, entryBytes) := writeEntriesSection b sidecar in
  let sectionIndexOffset := entriesOffset + len entryBytes in
  let f := zeros (Z.to_nat fileHeaderSize) ++ metaBytes ++ catBytes ++ entryBytes ++
           encodeSectionIndex sectionMetadata metaOffset (len metaBytes) 1 ++
           encodeSectionIndex sectionCatalog catalogOffset (len catBytes) catalogCount ++
           encodeSectionIndex sectionEntries entriesOffset (len entryBytes) entriesCount in
  Ok (WriteAt f 0 (encodeHeader sectionIndexOffset)).

(** ** dnm_stream.go *)

Record DNMStreamer := mkStreamer { st_window : Z; st_buf : bytes; st_entriesLen : Z; st_count : Z; st_finished : bool }.

Definition NewDNMStreamer (window : Z) : DNMStreamer := mkStreamer window (encodeHeader 0) 0 0 false.
Definition Buffered (d : DNMStreamer) : Z := len (st_buf d).

Inductive stream_err (E : Type) := SeFinished | SeSidecar | SeSink (e : E).
Arguments SeFinished {E}.
Arguments SeSidecar {E}.
Arguments SeSink {E} e.

Section streamer.
Context {S E : Type} (sink : S → bytes → S * option E).

Definition WriteEntry (d : DNMStreamer) (s : S) (e : Entry) : DNMStreamer * S * option (stream_err E) :=
  if st_finished d then (d, s, Some SeFinished)
  else
    let buf := st_buf d ++ encodeEntryRecord e in
    let d' := mkStreamer (st_window d) buf (u64 (st_entriesLen d + EntryRecordSize)) (u64 (st_count d + 1)) false in
    if st_window d <=? len buf then
      match sink s buf with
      | (s, Some err) => (d', s, Some (SeSink err))
      | (s, None) => (mkStreamer (st_window d') [] (st_entriesLen d') (st_count d') false, s, None)
      end
    else (d', s, None).

Definition Finish (d : DNMStreamer) (s : S) (b : Backup) : DNMStreamer * S * option (stream_err E) :=
  if st_finished d then (d, s, Some SeFinished)
  else if negb (bool_decide (CatalogSidecarPath b = [])) then (d, s, Some SeSidecar)
  else
    let entriesOffset := fileHeaderSize in
    let metaOffset := entriesOffset + st_entriesLen d in
    let metaBytes := encodeMetadata b in
    let catalogOffset := metaOffset + len metaBytes in
    let catBytes := concat (catalogRecord <$> FileCatalog b) in
    let sectionIndexOffset := catalogOffset + len catBytes in
    let part := st_buf d ++ metaBytes ++ catBytes ++
      encodeSectionIndex sectionMetadata metaOffset (len metaBytes) 1 ++
      encodeSectionIndex sectionCatalog catalogOffset (len catBytes) (len (FileCatalog b)) ++
      encodeSectionIndex sectionEntries entriesOffset (st_entriesLen d) (st_count d) ++
      PutUint64 sectionIndexOffset in
    let d' := mkStreamer (st_window d) [] (st_entriesLen d) (st_count d) true in
    match sink s part with
    | (s, Some err) => (d', s, Some (SeSink err))
    | (s, None) => (d', s, None)
    end.
End streamer.

(** ** dnm_reader.go *)

Record DNMReader := mkReader { rd_f : bytes; rd_meta : sectionInfo; rd_catalog : sectionInfo; rd_entries : sectionInfo }.
Definition noSection : sectionInfo := mkSection 0 0 0 0.

(** [f.Seek(off, io.SeekStart)]: the rest of the file from there. *)
Definition SeekTo (f : bytes) (off : Z) : result dnm_err bytes :=
  if off <? 0 then Err DnSeek else Ok (drop (Z.to_nat off) f).

Definition addSection (r : DNMReader) (s : sectionInfo) : DNMReader :=
  if s_typ s =? sectionMetadata then mkReader (rd_f r) s (rd_catalog r) (rd_entries r)
  else if s_typ s =? sectionCatalog then mkReader (rd_f r) (rd_meta r) s (rd_entries r)
  else if s_typ s =? sectionEntries then mkReader (rd_f r) (rd_meta r) (rd_catalog r) s
  else r.

Fixpoint readSections (n : nat) (rest : bytes) (r : DNMReader) : result dnm_err DNMReader :=
  match n with
  | O => Ok r
  | S n => match ReadFull sectionIndexSize rest with
           | Err e => Err (DnIndex e)
           | Ok (idxBuf, rest) => readSections n rest (addSection r (decodeSectionIndex idxBuf))
           end
  end.

Definition OpenDNMReader (f : bytes) : result dnm_err DNMReader :=
  match ReadFull fileHeaderSize f with
  | Err e => Err (DnHeader e)
  | Ok (hdr, _) =>
      if negb (bool_decide (sub hdr 0 8 = dnmMagic)) then Err DnMagic
      else if negb (le_get (sub hdr 8 2) =? dnmVersion) then Err DnVersion
      else
        let off := le_get (sub hdr 12 8) in
        let count := le_get (sub hdr 20 4) in
        let! off := (if off =? 0 then
          match ReadAt f (len f - 8) 8 with
          | None => Err DnTrailer
          | Some trailer =>
              let off := le_get trailer in
              if negb (off =? u64 (len f - 8 - count * sectionIndexSize)) then Err DnTrailerOffset else Ok off
          end
        else Ok off) in
        let! rest := SeekTo f (i64 off) in
        readSections (Z.to_nat count) rest (mkReader f noSection noSection noSection)
  end.

Definition EntriesCount (r : DNMReader) : Z := i64 (s_count (rd_entries r)).
Definition r_CatalogCount (r : DNMReader) : Z := i64 (s_count (rd_catalog r)).

Definition rd_wrap {A} (wrap : rd_err → dnm_err) (m : result rd_err A) : result dnm_err A :=
  match m with Ok a => Ok a | Err e => Err (wrap e) end.

Definition EntryAt (r : DNMReader) (i : Z) : result dnm_err Entry :=
  if s_count (rd_entries r) <=? i then Err DnRange
  else
    let! rest := SeekTo (rd_f r) (i64 (i64 (s_offset (rd_entries r)) + i64 i * EntryRecordSize)) in
    let! '(buf, _) := rd_wrap DnRead (ReadFull EntryRecordSize rest) in
    Ok (decodeEntryRecord buf).

(** The first [n] records of a buffer. *)
Fixpoint splitRecords (n : nat) (buf : bytes) : list Entry :=
  match n with
  | O => []
  | S n => decodeEntryRecord (take (Z.to_nat EntryRecordSize) buf) :: splitRecords n (drop (Z.to_nat EntryRecordSize) buf)
  end.

Definition EntriesRange (r : DNMReader) (start end_ : Z) : result dnm_err (list Entry) :=
  if end_ <=? start then Ok []
  else if s_count (rd_entries r) <? end_ then Err DnRange
  else
    let count := end_ - start in
    let! rest := SeekTo (rd_f r) (i64 (i64 (s_offset (rd_entries r)) + i64 start * EntryRecordSize)) in
    if 2 ^ 63 <=? count * EntryRecordSize then Err DnPanic else
    let! '(buf, _) := rd_wrap DnRead (ReadFull (count * EntryRecordSize) rest) in
    Ok (splitRecords (Z.to_nat count) buf).

Definition readMetadata (r : DNMReader) : result dnm_err Backup :=
  let! rest := SeekTo (rd_f r) (i64 (s_offset (rd_meta r))) in
  if 2 ^ 63 <=? s_length (rd_meta r) then Err DnPanic else
  let! '(data, _) := rd_wrap DnRead (ReadFull (s_length (rd_meta r)) rest) in
  match decodeMetadata data with Ok b => Ok b | Err (f, e) => Err (DnMeta f e) end.

(** [catalogReader.next], over any reader that has a [ReadFull]. *)
Inductive cat_err (E : Type) := CatLen (e : E) | CatData (e : E) | CatDecode (f : string) (e : rd_err).
Arguments CatLen {E} e.
Arguments CatData {E} e.
Arguments CatDecode {E} f e.

Section catalog.
Context {R E : Type} (readFull : Z → R → result E (bytes * R)).

Definition nextRecord (r : R) : result (cat_err E) (FileEntry * R) :=
  match readFull 4 r with
  | Err e => Err (CatLen e)
  | Ok (lenBuf, r) =>
      match readFull (le_get lenBuf) r with
      | Err e => Err (CatData e)
      | Ok (data, r) => match decodeFileEntry data with Ok fe => Ok (fe, r) | Err (f, e) => Err (CatDecode f e) end
      end
  end.

Fixpoint readRecords (n : nat) (r : R) : result (cat_err E) (list FileEntry) :=
  match n with
  | O => Ok []
  | S n => let! '(fe, r) := nextRecord r in let! fes := readRecords n r in Ok (fe :: fes)
  end.

(** The visitor's state is kept on every path; [i] numbers the records. *)
Context {V : Type} (visit : V → FileEntry → V * bool).
Fixpoint visitRecords (n : nat) (i : Z) (r : R) (v : V) : V * option (Z * cat_err E) :=
  match n with
  | O => (v, None)
  | S n => match nextRecord r with
           | Err e => (v, Some (i, e))
           | Ok (fe, r) => match visit v fe with
                           | (v, false) => (v, None)
                           | (v, true) => visitRecords n (i + 1) r v
                           end
           end
  end.
End catalog.

Definition dnm_of_cat (e : cat_err rd_err) : dnm_err :=
  match e with CatLen e => DnCatLen e | CatData e => DnCatData e | CatDecode f e => DnCatRecord f e end.

Definition readAllCatalog (r : DNMReader) : result dnm_err (list FileEntry) :=
  if s_count (rd_catalog r) =? 0 then Ok []
  else
    let! rest := SeekTo (rd_f r) (i64 (s_offset (rd_catalog r))) in
    if 2 ^ 63 <=? s_count (rd_catalog r) then Err DnPanic else
    match readRecords ReadFull (Z.to_nat (s_count (rd_catalog r))) rest with
    | Ok fes => Ok fes
    | Err e => Err (dnm_of_cat e)
    end.

Definition StreamCatalog {V} (r : DNMReader) (visit : V → FileEntry → V * bool) (v : V) : V * option dnm_err :=
  if s_count (rd_catalog r) =? 0 then (v, None)
  else match SeekTo (rd_f r) (i64 (s_offset (rd_catalog r))) with
       | Err e => (v, Some e)
       | Ok rest =>
           match visitRecords ReadFull visit (Z.to_nat (s_count (rd_catalog r))) 0 rest v with
           | (v, None) => (v, None)
           | (v, Some (_, e)) => (v, Some (dnm_of_cat e))
           end
       end.

Fixpoint readRecs (n : nat) (rest : bytes) : result dnm_err (list bytes) :=
  match n with
  | O => Ok []
  | S n => let! '(buf, rest) := rd_wrap DnRead (ReadFull EntryRecordSize rest) in
           let! bufs := readRecs n rest in Ok (buf :: bufs)
  end.

Definition readAllEntries (r : DNMReader) : result dnm_err (list Entry) :=
  if s_count (rd_entries r) =? 0 then Ok []
  else
    let! rest := SeekTo (rd_f r) (i64 (s_offset (rd_entries r))) in
    if 2 ^ 63 <=? s_count (rd_entries r) then Err DnPanic else
    let! bufs := readRecs (Z.to_nat (s_count (rd_entries r))) rest in
    Ok (decodeEntryRecord <$> bufs).

(** The consumer sees the hashes before a read fails. *)
Section hashes.
Context {V X : Type} (fn : V → bytes → V * option X).
Fixpoint streamHashes (n : nat) (rest : bytes) (v : V) : V * option (dnm_err + X) :=
  match n with
  | O => (v, None)
  | S n => match ReadFull EntryRecordSize rest with
           | Err e => (v, Some (inl (DnRead e)))
           | Ok (buf, rest) => match fn v (sub buf 8 32) with
                               | (v, Some x) => (v, Some (inr x))
                               | (v, None) => streamHashes n rest v
                               end
           end
  end.
Definition StreamChunkHashes (r : DNMReader) (v : V) : V * option (dnm_err + X) :=
  if s_count (rd_entries r) =? 0 then (v, None)
  else match SeekTo (rd_f r) (i64 (s_offset (rd_entries r))) with
       | Err e => (v, Some (inl e))
       | Ok rest => streamHashes (Z.to_nat (s_count (rd_entries r))) rest v
       end.
End hashes.

(** ** Loading a whole file (manifest.go) *)

Definition withCatalog (b : Backup) (fes : list FileEntry) : Backup :=
  mkBackup (BackupID b) (Timestamp b) (SourceVolume b) (SectorSize b) (ClusterSize b) (TotalBytes b) (Entries b)
    (ParentBackupID b) (BackupType b) (TotalChunks b) (UniqueChunks b) (DedupChunks b) (RawBytes b) (StoredBytes b)
    (DedupRatio b) (CompRatio b) (Duration b) (ContentDigest b) (ContentDigestCovers b) (ExcludePaths b)
    (ExcludeWarnings b) (ChangedChunks b) (UnchangedChunks b) (BackupMode b) (SourcePaths b) fes
    (CatalogSidecarPath b) (CatalogCount b) (WrappedDEK b).
Definition withEntries (b : Backup) (es : list Entry) : Backup :=
  mkBackup (BackupID b) (Timestamp b) (SourceVolume b) (SectorSize b) (ClusterSize b) (TotalBytes b) es
    (ParentBackupID b) (BackupType b) (TotalChunks b) (UniqueChunks b) (DedupChunks b) (RawBytes b) (StoredBytes b)
    (DedupRatio b) (CompRatio b) (Duration b) (ContentDigest b) (ContentDigestCovers b) (ExcludePaths b)
    (ExcludeWarnings b) (ChangedChunks b) (UnchangedChunks b) (BackupMode b) (SourcePaths b) (FileCatalog b)
    (CatalogSidecarPath b) (CatalogCount b) (WrappedDEK b).

Definition loadCatalogDNM (f : bytes) : result dnm_err Backup :=
  let! r := OpenDNMReader f in
  let! b := readMetadata r in
  if 0 <? s_count (rd_catalog r) then let! fes := readAllCatalog r in Ok (withCatalog b fes) else Ok b.

Definition loadBlockDNM (f : bytes) : result dnm_err Backup :=
  let! r := OpenDNMReader f in
  let! b := readMetadata r in
  let! es := readAllEntries r in Ok (withEntries b es).

Definition loadDNM (f : bytes) : result dnm_err Backup :=
  let! r := OpenDNMReader f in
  let! b := readMetadata r in
  let! b := (if 0 <? s_count (rd_catalog r) then let! fes := readAllCatalog r in Ok (withCatalog b fes) else Ok b) in
  let! es := readAllEntries r in Ok (withEntries b es).

(** ** Sections of a file *)

(** [s] describes the bytes [data] of [f]. *)
Definition section_at (f : bytes) (s : sectionInfo) (data : bytes) : Prop :=
  ∃ pre post, f = pre ++ data ++ post ∧ s_offset s = len pre ∧ s_length s = len data.

(** The contract between the writers and the readers. *)
Record dnm_holds (r : DNMReader) (b : Backup) (fes : list FileEntry) (ents : list Entry) : Prop := {
  dh_small : len (rd_f r) < 2 ^ 63;
  dh_counts : counts_fit b;
  dh_files : Forall (λ fe, file_fits fe ∧ len (encodeFileEntry fe) < 2 ^ 32) fes;
  dh_hashes : Forall (λ e, length (ChunkHash e) = 32%nat) ents;
  dh_meta : section_at (rd_f r) (rd_meta r) (encodeMetadata b);
  dh_cat : section_at (rd_f r) (rd_catalog r) (concat (catalogRecord <$> fes));
  dh_catCount : s_count (rd_catalog r) = len fes;
  dh_ent : section_at (rd_f r) (rd_entries r) (concat (encodeEntryRecord <$> ents));
  dh_entCount : s_count (rd_entries r) = len ents }.

Definition storedEntry (e : Entry) : Entry :=
  mkEntry (i64 (VolumeOffset e)) (ChunkHash e) (u32 (ChunkLength e)) (IsExcluded e).

Lemma section_seek f s data : len f < 2 ^ 63 → section_at f s data →
  ∃ post, SeekTo f (i64 (s_offset s)) = Ok (data ++ post).
Proof.
  intros Hf (pre & post & -> & -> & _). exists post. rewrite !length_app in Hf. rewrite i64_id by (unfold is_i64; lia).
  unfold SeekTo. rewrite (proj2 (Z.ltb_ge _ _)) by lia. by rewrite Nat2Z.id, drop_app_length.
Qed.

Lemma length_encodeEntryRecord e : length (ChunkHash e) = 32%nat → length (encodeEntryRecord e) = 45%nat.
Proof. intros H. unfold encodeEntryRecord. rewrite !length_app, H. done. Qed.

Lemma decodeEntryRecord_encode e : length (ChunkHash e) = 32%nat → decodeEntryRecord (encodeEntryRecord e) = storedEntry e.
Proof.
  intros H. unfold decodeEntryRecord, encodeEntryRecord, storedEntry.
  rewrite sub_app_here by done. rewrite (sub_app_skip _ _ 8) by (rewrite length_PutUint64; lia). rewrite length_PutUint64.
  rewrite sub_app_here by done. rewrite (sub_app_skip _ _ 40) by (rewrite length_PutUint64; lia). rewrite length_PutUint64.
  rewrite (sub_app_skip _ _ (40 - 8)) by lia. rewrite H. rewrite (sub_app_here (PutUint32 _)) by done.
  rewrite le_get_PutUint64 by auto with bytes. rewrite le_get_PutUint32 by apply u32_range. rewrite i64_u64. f_equal.
  rewrite !app_nth2; rewrite ?length_PutUint64, ?H, ?length_PutUint32; [|lia..]. by destruct (IsExcluded e).
Qed.

Lemma section_len f s data : section_at f s data → len data ≤ len f.
Proof. intros (pre & post & -> & _). rewrite !length_app. lia. Qed.

(** Reading inside a section. *)
Lemma section_seek_in f s data o : len f < 2 ^ 63 → section_at f s data → 0 ≤ o ≤ len data →
  ∃ post, SeekTo f (i64 (i64 (s_offset s) + o)) = Ok (drop (Z.to_nat o) data ++ post).
Proof.
  intros Hf (pre & post & -> & -> & _) Ho. exists post. rewrite !length_app in Hf.
  rewrite (i64_id (len pre)) by (unfold is_i64; lia). rewrite i64_id by (unfold is_i64; lia).
  unfold SeekTo. rewrite (proj2 (Z.ltb_ge _ _)) by lia. f_equal.
  replace (Z.to_nat (len pre + o)) with (length pre + Z.to_nat o)%nat by lia. rewrite drop_app_add. apply drop_app_le. lia.
Qed.

Abbreviation hashed es := (Forall (λ e, length (ChunkHash e) = 32%nat) es).

Lemma length_entryRecords es : hashed es → len (concat (encodeEntryRecord <$> es)) = 45 * len es.
Proof.
  induction 1 as [|e es He Hes IH]; [done|]. rewrite fmap_cons. cbn [concat length]. rewrite length_app, length_encodeEntryRecord by done. lia.
Qed.

Lemma drop_entryRecords n es : hashed es →
  drop (45 * n) (concat (encodeEntryRecord <$> es)) = concat (encodeEntryRecord <$> drop n es).
Proof.
  intros H. revert n. induction H as [|e es He Hes IH]; intros n; [cbn [fmap list_fmap concat]; by rewrite !drop_nil|].
  destruct n as [|n]; [by rewrite Nat.mul_0_r, !drop_0|]. rewrite fmap_cons. cbn [concat drop].
  replace (45 * S n)%nat with (length (encodeEntryRecord e) + 45 * n)%nat by (rewrite length_encodeEntryRecord; [lia|done]).
  rewrite drop_app_add. apply IH.
Qed.

Lemma splitRecords_write es post : hashed es →
  splitRecords (length es) (concat (encodeEntryRecord <$> es) ++ post) = storedEntry <$> es.
Proof.
  induction 1 as [|e es He Hes IH]; [done|]. rewrite !fmap_cons. cbn [length splitRecords concat]. rewrite <- app_assoc.
  rewrite take_app_exact, drop_app_exact, IH by (rewrite length_encodeEntryRecord; done).
  by rewrite decodeEntryRecord_encode.
Qed.

Lemma readRecs_write es post : Forall (λ e, length (ChunkHash e) = 32%nat) es →
  readRecs (length es) (concat (encodeEntryRecord <$> es) ++ post) = Ok (encodeEntryRecord <$> es).
Proof.
  induction 1 as [|e es He Hes IH]; [done|]. rewrite fmap_cons. cbn [length readRecs concat]. rewrite <- app_assoc.
  rewrite ReadFull_app by (rewrite length_encodeEntryRecord; done). cbn [rd_wrap rbind]. by rewrite IH.
Qed.

Lemma nextRecord_write fe post : file_fits fe → len (encodeFileEntry fe) < 2 ^ 32 →
  nextRecord ReadFull (catalogRecord fe ++ post) = Ok (storedFile fe, post).
Proof.
  intros Hf Hl. unfold nextRecord, catalogRecord. rewrite <- app_assoc, ReadFull_app by done.
  rewrite u32_id, le_get_PutUint32 by (unfold is_u32; lia). rewrite ReadFull_app by done.
  by rewrite <- (app_nil_r (encodeFileEntry fe)), dnm_file_rt.
Qed.

Abbreviation writable fes := (Forall (λ fe, file_fits fe ∧ len (encodeFileEntry fe) < 2 ^ 32) fes).

Lemma readRecords_write fes post : writable fes →
  readRecords ReadFull (length fes) (concat (catalogRecord <$> fes) ++ post) = Ok (storedFile <$> fes).
Proof.
  induction 1 as [|fe fes [Hf Hl] Hfes IH]; [done|]. rewrite !fmap_cons. cbn [length readRecords concat].
  rewrite <- app_assoc, nextRecord_write by done. cbn [rbind]. by rewrite IH.
Qed.

Lemma length_catalog fes : len fes ≤ len (concat (catalogRecord <$> fes)).
Proof.
  induction fes as [|fe fes IH]; [done|]. rewrite fmap_cons. cbn [concat length]. unfold catalogRecord at 1.
  rewrite !length_app, length_PutUint32. lia.
Qed.

Section holds.
Context (r : DNMReader) (b : Backup) (fes : list FileEntry) (ents : list Entry).
Hypothesis Hh : dnm_holds r b fes ents.

Lemma holds_meta : readMetadata r = Ok (storedMeta b).
Proof.
  destruct Hh as [Hf Hc _ _ Hm _ _ _ _]. unfold readMetadata. destruct (section_seek _ _ _ Hf Hm) as [post ->]. cbn [rbind].
  destruct Hm as (pre & post' & Heq & _ & Hl). rewrite Hl. rewrite Heq, !length_app in Hf.
  rewrite (proj2 (Z.leb_gt _ _)) by lia. rewrite ReadFull_app by done. cbn [rd_wrap rbind].
  by rewrite dnm_metadata_rt.
Qed.

Lemma holds_entries : readAllEntries r = Ok (storedEntry <$> ents).
Proof.
  destruct Hh as [Hf _ _ Hh32 _ _ _ He Hc]. unfold readAllEntries. rewrite Hc.
  destruct (_ =? 0) eqn:H0; zbool; [by destruct ents|].
  destruct (section_seek _ _ _ Hf He) as [post ->]. cbn [rbind]. 
  pose proof (section_len _ _ _ He). pose proof (length_entryRecords ents Hh32). rewrite (proj2 (Z.leb_gt _ _)) by lia.
  rewrite Nat2Z.id, readRecs_write by done. cbn [rbind].
  f_equal. rewrite <- list_fmap_compose. apply list_fmap_ext. intros i e Hi. cbn. apply decodeEntryRecord_encode.
  rewrite Forall_forall in Hh32. apply Hh32. by eapply list_elem_of_lookup_2.
Qed.

Lemma holds_catalog : readAllCatalog r = Ok (storedFile <$> fes).
Proof.
  destruct Hh as [Hf _ Hfi _ _ Hs Hc _ _]. unfold readAllCatalog. rewrite Hc.
  destruct (_ =? 0) eqn:H0; zbool; [by destruct fes|].
  destruct (section_seek _ _ _ Hf Hs) as [post ->]. cbn [rbind].
  pose proof (section_len _ _ _ Hs). pose proof (length_catalog fes). rewrite (proj2 (Z.leb_gt _ _)) by lia.
  by rewrite Nat2Z.id, readRecords_write.
Qed.

(** Random access: an index outside the section is refused, one inside is the record. *)
Lemma holds_range lo hi : 0 ≤ lo ≤ hi → hi ≤ len ents →
  EntriesRange r lo hi = Ok (storedEntry <$> take (Z.to_nat (hi - lo)) (drop (Z.to_nat lo) ents)).
Proof.
  intros Hlo Hhi. destruct Hh as [Hf _ _ H32 _ _ _ He Hc]. unfold EntriesRange. rewrite Hc.
  destruct (hi <=? lo) eqn:Hle; zbool; [by replace (Z.to_nat (hi - lo)) with 0%nat by lia|].
  rewrite (proj2 (Z.ltb_ge _ _)) by lia. pose proof (section_len _ _ _ He). pose proof (length_entryRecords ents H32).
  rewrite (i64_id lo) by (unfold is_i64; lia).
  destruct (section_seek_in _ _ _ (lo * EntryRecordSize) Hf He) as [post ->]; [unfold EntryRecordSize; lia|]. cbn [rbind].
  unfold EntryRecordSize. rewrite (proj2 (Z.leb_gt _ _)) by lia.
  replace (Z.to_nat (lo * 45)) with (45 * Z.to_nat lo)%nat by lia. rewrite drop_entryRecords by done.
  set (ds := drop (Z.to_nat lo) ents). assert (Hd : hashed ds) by (by apply Forall_drop).
  assert (Hld : len ds = len ents - lo) by (unfold ds; rewrite length_drop; lia).
  rewrite <- (take_drop (Z.to_nat (hi - lo)) ds) at 1. rewrite fmap_app, concat_app, <- app_assoc.
  assert (Ht : hashed (take (Z.to_nat (hi - lo)) ds)) by (by apply Forall_take).
  assert (Hlt : length (take (Z.to_nat (hi - lo)) ds) = Z.to_nat (hi - lo)) by (rewrite length_take; lia).
  rewrite ReadFull_app by (rewrite length_entryRecords by done; lia). cbn [rd_wrap rbind]. f_equal.
  rewrite <- Hlt at 1. rewrite <- (app_nil_r (concat _)). by apply splitRecords_write.
Qed.

Lemma holds_at i : 0 ≤ i → EntryAt r i = match ents !! Z.to_nat i with Some e => Ok (storedEntry e) | None => Err DnRange end.
Proof.
  intros Hi. destruct Hh as [Hf _ _ H32 _ _ _ He Hc]. unfold EntryAt. rewrite Hc. destruct (_ <=? i) eqn:Hle; zbool.
  { by rewrite lookup_ge_None_2 by lia. }
  destruct (lookup_lt_is_Some_2 ents (Z.to_nat i) ltac:(lia)) as [e Hl]. rewrite Hl.
  pose proof (section_len _ _ _ He). pose proof (length_entryRecords ents H32). rewrite (i64_id i) by (unfold is_i64; lia).
  destruct (section_seek_in _ _ _ (i * EntryRecordSize) Hf He) as [post ->]; [unfold EntryRecordSize; lia|]. cbn [rbind].
  unfold EntryRecordSize. replace (Z.to_nat (i * 45)) with (45 * Z.to_nat i)%nat by lia.
  rewrite drop_entryRecords, (drop_S _ _ _ Hl) by done. rewrite fmap_cons. cbn [concat]. rewrite <- app_assoc.
  assert (He32 : length (ChunkHash e) = 32%nat) by (rewrite Forall_forall in H32; apply H32; by eapply list_elem_of_lookup_2).
  rewrite ReadFull_app by (by rewrite length_encodeEntryRecord). cbn [rd_wrap rbind]. by rewrite decodeEntryRecord_encode.
Qed.
End holds.

(** ** Opening what was written *)

Definition indexOf (s : sectionInfo) : bytes := encodeSectionIndex (s_typ s) (s_offset s) (s_length s) (s_count s).
Definition section_u64 (s : sectionInfo) : Prop := is_u64 (s_offset s) ∧ is_u64 (s_length s) ∧ is_u64 (s_count s).

Lemma length_indexOf s : length (indexOf s) = 36%nat.
Proof. done. Qed.

Lemma decode_indexOf s : section_u64 s → decodeSectionIndex (indexOf s) = s.
Proof.
  destruct s as [t o l c]. intros (Ho & Hl & Hc). unfold decodeSectionIndex, indexOf, encodeSectionIndex. cbn in *. f_equal.
  - by apply (le_get_PutUint64 o).
  - by apply (le_get_PutUint64 l).
  - by apply (le_get_PutUint64 c).
Qed.

Lemma readSections_index f m c e post :
  section_u64 m → section_u64 c → section_u64 e → s_typ m = 1 → s_typ c = 2 → s_typ e = 3 →
  readSections 3 (indexOf m ++ indexOf c ++ indexOf e ++ post) (mkReader f noSection noSection noSection) = Ok (mkReader f m c e).
Proof.
  intros Hm Hc He Htm Htc Hte. cbn [readSections].
  do 3 (rewrite ReadFull_app by done; rewrite decode_indexOf by done). unfold addSection.
  rewrite Htm, Htc, Hte. done.
Qed.

Lemma dnm_header_fields off : is_u64 off → let h := encodeHeader off in
  length h = 32%nat ∧ sub h 0 8 = dnmMagic ∧ le_get (sub h 8 2) = 1 ∧ le_get (sub h 12 8) = off ∧ le_get (sub h 20 4) = 3.
Proof.
  intros Ho. cbv zeta. unfold encodeHeader. split_and!; [reflexivity|reflexivity|reflexivity| |reflexivity].
  by apply (le_get_PutUint64 off).
Qed.

Section opening.
Context (body : bytes) (m c e : sectionInfo).
Hypothesis Hm : section_u64 m ∧ s_typ m = 1.
Hypothesis Hc : section_u64 c ∧ s_typ c = 2.
Hypothesis He : section_u64 e ∧ s_typ e = 3.
Hypothesis Hsmall : 32 + len body + 116 < 2 ^ 63.
Local Notation off := (32 + len body).

Lemma open_at h f post : is_u64 h → f = encodeHeader h ++ body ++ indexOf m ++ indexOf c ++ indexOf e ++ post →
  (if h =? 0 then
     match ReadAt f (len f - 8) 8 with
     | None => Err DnTrailer
     | Some t => if negb (le_get t =? u64 (len f - 8 - 3 * sectionIndexSize)) then Err DnTrailerOffset else Ok (le_get t)
     end
   else Ok h) = Ok off →
  OpenDNMReader f = Ok (mkReader f m c e).
Proof.
  intros Hh Hf Hoff. destruct (dnm_header_fields h Hh) as (L & F1 & F2 & F3 & F4). unfold OpenDNMReader. rewrite Hf at 1.
  rewrite ReadFull_app by (rewrite L; done). rewrite F1, F2, F3, F4, bool_decide_true by done. cbn [negb Z.eqb Pos.eqb dnmVersion].
  rewrite Hoff. cbn [rbind]. rewrite i64_id by (unfold is_i64; lia). unfold SeekTo. rewrite (proj2 (Z.ltb_ge _ _)) by lia. cbn [rbind].
  rewrite Hf at 1. rewrite app_assoc, drop_app_exact by (rewrite length_app, L; lia).
  destruct Hm, Hc, He. by apply readSections_index.
Qed.

Lemma open_classic f : f = encodeHeader off ++ body ++ indexOf m ++ indexOf c ++ indexOf e → OpenDNMReader f = Ok (mkReader f m c e).
Proof.
  intros Hf. apply (open_at off f []); [unfold is_u64; lia|by rewrite app_nil_r|]. by rewrite (proj2 (Z.eqb_neq _ _)) by lia.
Qed.

Lemma open_streamed f : f = encodeHeader 0 ++ body ++ indexOf m ++ indexOf c ++ indexOf e ++ PutUint64 off →
  OpenDNMReader f = Ok (mkReader f m c e).
Proof.
  intros Hf. apply (open_at 0 f (PutUint64 off)); [unfold is_u64; lia|done|]. cbn [Z.eqb].
  destruct (dnm_header_fields 0 ltac:(unfold is_u64; lia)) as (L & _).
  assert (Hl : len f = off + 116) by (rewrite Hf, !length_app, L, !length_indexOf, length_PutUint64; lia).
  assert (Hr : ReadAt f (len f - 8) 8 = Some (PutUint64 off)).
  { rewrite ReadAt_sub by lia. f_equal. rewrite Hl.
    assert (f = (encodeHeader 0 ++ body ++ indexOf m ++ indexOf c ++ indexOf e) ++ PutUint64 off) as -> by (rewrite Hf, <- !app_assoc; done).
    rewrite sub_app_skip by (rewrite !length_app, L, !length_indexOf; lia).
    rewrite !length_app, L, !length_indexOf. replace (_ - _)%nat with 0%nat by lia. by apply sub_all. }
  rewrite Hr, le_get_PutUint64 by (unfold is_u64; lia). unfold sectionIndexSize. rewrite u64_id by (unfold is_u64; lia).
  replace (len f - 8 - 3 * 36) with off by lia. by rewrite Z.eqb_refl.
Qed.
End opening.

(** ** The classic writer *)

(** What the writer draws the sections from: entries in memory or the sidecar, the
    catalog in memory or its sidecar. *)
Definition entries_from (b : Backup) (sidecar : option bytes) (ents : list Entry) : Prop :=
  (Entries b = ents ∧ ents ≠ []) ∨ (Entries b = [] ∧ sidecar = Some (concat (encodeEntryRecord <$> ents))) ∨
  (Entries b = [] ∧ sidecar = None ∧ ents = []).
Definition catalog_from (b : Backup) (catSidecar : bytes → option bytes) (fes : list FileEntry) : Prop :=
  (CatalogSidecarPath b = [] ∧ FileCatalog b = fes) ∨
  (CatalogSidecarPath b ≠ [] ∧ catSidecar (CatalogSidecarPath b) = Some (WriteCatalogSidecar fes).1).
Abbreviation catalogBytes fes := (concat (catalogRecord <$> fes)).
Abbreviation entryBytes es := (concat (encodeEntryRecord <$> es)).

Lemma entriesSection_from b sidecar ents : hashed ents → entries_from b sidecar ents →
  writeEntriesSection b sidecar = (len ents, entryBytes ents).
Proof.
  intros Hh [[He Hn]|[[He ->]|(He & -> & ->)]]; unfold writeEntriesSection; rewrite He; [by destruct ents| |done].
  f_equal. rewrite length_entryRecords by done. unfold EntryRecordSize. rewrite Z.mul_comm. by apply Z.quot_mul.
Qed.

Lemma sidecar_stream fes : len fes < 2 ^ 64 → streamCatalogSidecar (WriteCatalogSidecar fes).1 = Ok (catalogBytes fes, len fes).
Proof.
  intros H. unfold WriteCatalogSidecar, streamCatalogSidecar. cbn [fst]. rewrite WriteAt_head, ReadFull_app by done. cbn [rbind].
  rewrite u64_id, le_get_PutUint64 by (unfold is_u64; lia). done.
Qed.

Lemma catalogSection_from b cs fes : len fes < 2 ^ 64 → catalog_from b cs fes → catalogSection b cs = Ok (catalogBytes fes, len fes).
Proof.
  intros Hl [[Hp Hf]|[Hp Hf]]; unfold catalogSection.
  - rewrite bool_decide_true by done. cbn [negb]. by rewrite Hf.
  - rewrite bool_decide_false by done. cbn [negb]. by rewrite Hf, sidecar_stream.
Qed.

Definition metaSection (off : Z) (b : Backup) : sectionInfo := mkSection 1 off (len (encodeMetadata b)) 1.
Definition catSection (off : Z) (fes : list FileEntry) : sectionInfo := mkSection 2 off (len (catalogBytes fes)) (len fes).
Definition entSection (off : Z) (es : list Entry) : sectionInfo := mkSection 3 off (len (entryBytes es)) (len es).

Lemma sections_u64 mo co eo b fes es : hashed es → 0 ≤ mo < 2 ^ 63 → 0 ≤ co < 2 ^ 63 → 0 ≤ eo < 2 ^ 63 →
  len (encodeMetadata b) + len (catalogBytes fes) + len (entryBytes es) < 2 ^ 63 →
  section_u64 (metaSection mo b) ∧ section_u64 (catSection co fes) ∧ section_u64 (entSection eo es).
Proof.
  intros Hh H1 H2 H3 H. pose proof (length_entryRecords es Hh). pose proof (length_catalog fes).
  unfold section_u64, is_u64. cbn [metaSection catSection entSection s_offset s_length s_count]. lia.
Qed.

Lemma writeDNM_holds b sidecar cs fes ents :
  counts_fit b → writable fes → hashed ents → entries_from b sidecar ents → catalog_from b cs fes →
  len (encodeMetadata b) + len (catalogBytes fes) + len (entryBytes ents) + 148 < 2 ^ 63 →
  ∃ f r, writeDNM b sidecar cs = Ok f ∧ OpenDNMReader f = Ok r ∧ rd_f r = f ∧ dnm_holds r b fes ents.
Proof.
  intros Hcf Hw Hh He Hc Hlen. pose proof (length_entryRecords ents Hh). pose proof (length_catalog fes).
  set (mo := 32). set (co := mo + len (encodeMetadata b)). set (eo := co + len (catalogBytes fes)).
  set (body := encodeMetadata b ++ catalogBytes fes ++ entryBytes ents).
  assert (Hb : len body = len (encodeMetadata b) + len (catalogBytes fes) + len (entryBytes ents)) by (unfold body; rewrite !length_app; lia).
  set (f := encodeHeader (32 + len body) ++ body ++ indexOf (metaSection mo b) ++ indexOf (catSection co fes) ++ indexOf (entSection eo ents)).
  assert (Hwr : writeDNM b sidecar cs = Ok f).
  { unfold writeDNM. rewrite (catalogSection_from b cs fes), (entriesSection_from b sidecar ents) by (done || lia). cbn [rbind].
    f_equal. unfold fileHeaderSize. rewrite WriteAt_head by done. unfold f. unfold body at 2. rewrite <- !app_assoc.
    replace (32 + len body) with (32 + len (encodeMetadata b) + len (catalogBytes fes) + len (entryBytes ents)) by lia. reflexivity. }
  destruct (sections_u64 mo co eo b fes ents) as (Um & Uc & Ue); [done|unfold mo, co, eo; lia..|].
  assert (Hop : OpenDNMReader f = Ok (mkReader f (metaSection mo b) (catSection co fes) (entSection eo ents)))
    by (apply (open_classic body); (done || lia)).
  eexists f, _. split; [done|]. split; [done|]. split; [done|].
  destruct (dnm_header_fields (32 + len body) ltac:(unfold is_u64; lia)) as (L & _).
  split; cbn [rd_f rd_meta rd_catalog rd_entries catSection entSection s_count]; try done.
  - unfold f. rewrite !length_app, L, !length_indexOf. lia.
  - exists (encodeHeader (32 + len body)), (catalogBytes fes ++ entryBytes ents ++ indexOf (metaSection mo b) ++ indexOf (catSection co fes) ++ indexOf (entSection eo ents)).
    unfold f. unfold body at 2. rewrite <- !app_assoc. cbn [metaSection s_offset s_length]. rewrite L. done.
  - exists (encodeHeader (32 + len body) ++ encodeMetadata b), (entryBytes ents ++ indexOf (metaSection mo b) ++ indexOf (catSection co fes) ++ indexOf (entSection eo ents)).
    unfold f. unfold body at 2. rewrite <- !app_assoc. cbn [catSection s_offset s_length]. rewrite length_app, L. split_and!; [done|unfold co, mo; lia|done].
  - exists (encodeHeader (32 + len body) ++ encodeMetadata b ++ catalogBytes fes), (indexOf (metaSection mo b) ++ indexOf (catSection co fes) ++ indexOf (entSection eo ents)).
    unfold f. unfold body at 2. rewrite <- !app_assoc. cbn [entSection s_offset s_length]. rewrite !length_app, L. split_and!; [done|unfold eo, co, mo; lia|done].
Qed.

(** ** Loading *)

Definition loadedCatalog (b : Backup) (fes : list FileEntry) : Backup := withCatalog (storedMeta b) (storedFile <$> fes).
Definition loaded (b : Backup) (fes : list FileEntry) (ents : list Entry) : Backup :=
  withEntries (loadedCatalog b fes) (storedEntry <$> ents).

Lemma holds_load f r b fes ents : OpenDNMReader f = Ok r → dnm_holds r b fes ents →
  loadDNM f = Ok (loaded b fes ents) ∧ loadCatalogDNM f = Ok (loadedCatalog b fes) ∧
  loadBlockDNM f = Ok (withEntries (storedMeta b) (storedEntry <$> ents)).
Proof.
  intros Ho Hh. unfold loadDNM, loadCatalogDNM, loadBlockDNM. rewrite Ho. cbn [rbind].
  rewrite (holds_meta _ _ _ _ Hh), (holds_entries _ _ _ _ Hh), (holds_catalog _ _ _ _ Hh). cbn [rbind].
  rewrite (dh_catCount _ _ _ _ Hh). destruct (0 <? _) eqn:Hc; cbn [rbind]; [done|]. destruct fes; [done|]. zbool. cbn in Hc. lia.
Qed.

(** ** The streamed writer *)

Definition collect (s : list bytes) (part : bytes) : list bytes * option Empty_set := (s ++ [part], None).

(** The caller's loop over the entries. *)
Fixpoint writeAll {S E} (sink : S → bytes → S * option E) (d : DNMStreamer) (s : S) (es : list Entry)
    : DNMStreamer * S * option (stream_err E) :=
  match es with
  | [] => (d, s, None)
  | e :: es => match WriteEntry sink d s e with
               | (d, s, None) => writeAll sink d s es
               | r => r
               end
  end.

(** What the streamer has sent and holds after the entries [es]. *)
Record stream_inv (window : Z) (es : list Entry) (d : DNMStreamer) (parts : list bytes) : Prop := {
  si_window : st_window d = window;
  si_open : st_finished d = false;
  si_bytes : concat parts ++ st_buf d = encodeHeader 0 ++ entryBytes es;
  si_len : st_entriesLen d = 45 * len es;
  si_count : st_count d = len es;
  si_held : Buffered d ≤ Z.max 32 (window - 1);
  si_parts : Forall (λ p, window ≤ len p ≤ Z.max 32 (window - 1) + 45) parts }.

Lemma WriteEntry_inv window es d parts e : stream_inv window es d parts → length (ChunkHash e) = 32%nat →
  45 * (len es + 1) < 2 ^ 64 →
  ∃ d' parts', WriteEntry collect d parts e = (d', parts', None) ∧ stream_inv window (es ++ [e]) d' parts'.
Proof.
  intros [Hw Ho Hb Hl Hc Hh Hp] He Hlen. unfold WriteEntry. rewrite Ho, Hw, Hl, Hc. unfold EntryRecordSize.
  rewrite !u64_id by (unfold is_u64; lia). pose proof (length_encodeEntryRecord e He) as H45.
  assert (Hnew : concat parts ++ st_buf d ++ encodeEntryRecord e = encodeHeader 0 ++ entryBytes (es ++ [e])).
  { rewrite app_assoc, Hb, fmap_app, concat_app, <- app_assoc. cbn [fmap list_fmap concat]. by rewrite app_nil_r. }
  unfold Buffered in *. destruct (window <=? _) eqn:Hf; zbool; rewrite length_app in Hf.
  - eexists _, _. split; [reflexivity|]. split; cbn [st_window st_buf st_entriesLen st_count st_finished]; try done.
    + rewrite concat_app. cbn [concat]. by rewrite !app_nil_r.
    + rewrite length_app. cbn. lia.
    + rewrite length_app. cbn. lia.
    + unfold Buffered. cbn. lia.
    + apply Forall_app. split; [done|]. constructor; [|constructor]. rewrite length_app. lia.
  - eexists _, _. split; [reflexivity|]. split; cbn [st_window st_buf st_entriesLen st_count st_finished]; try done.
    + rewrite length_app. cbn. lia.
    + rewrite length_app. cbn. lia.
    + unfold Buffered. cbn [st_buf]. rewrite length_app. lia.
Qed.

Lemma writeAll_inv window es : ∀ pre d parts, stream_inv window pre d parts → hashed es → 45 * (len pre + len es) < 2 ^ 64 →
  ∃ d' parts', writeAll collect d parts es = (d', parts', None) ∧ stream_inv window (pre ++ es) d' parts'.
Proof.
  induction es as [|e es IH]; intros pre d parts Hi Hh Hlen; [exists d, parts; by rewrite app_nil_r|].
  apply Forall_cons in Hh as [He Hes]. cbn [length] in Hlen.
  destruct (WriteEntry_inv _ _ _ _ e Hi He ltac:(lia)) as (d1 & p1 & Hw & Hi1). cbn [writeAll]. rewrite Hw.
  destruct (IH _ _ _ Hi1 Hes) as (d2 & p2 & H2 & Hi2); [rewrite length_app; cbn; lia|]. exists d2, p2. split; [done|].
  by rewrite <- app_assoc in Hi2.
Qed.

Lemma stream_init window : stream_inv window [] (NewDNMStreamer window) [].
Proof. split; [done|done|done|done|done| |constructor].
  unfold Buffered. assert (len (st_buf (NewDNMStreamer window)) = 32) as -> by reflexivity. lia.
Qed.

Lemma Finish_holds window b es d parts : stream_inv window es d parts → hashed es → CatalogSidecarPath b = [] →
  counts_fit b → writable (FileCatalog b) →
  len (encodeMetadata b) + len (catalogBytes (FileCatalog b)) + len (entryBytes es) + 148 < 2 ^ 63 →
  ∃ d' part r, Finish collect d parts b = (d', parts ++ [part], None) ∧ st_finished d' = true ∧
    OpenDNMReader (concat parts ++ part) = Ok r ∧ dnm_holds r b (FileCatalog b) es.
Proof.
  intros [Hw Ho Hb Hl Hc Hh Hp] H32 Hs Hcf Hwr Hlen. pose proof (length_entryRecords es H32) as He. pose proof (length_catalog (FileCatalog b)).
  unfold Finish. rewrite Ho, bool_decide_true by done. cbn [negb]. rewrite Hl, Hc. unfold collect.
  set (fes := FileCatalog b) in *. set (mo := fileHeaderSize + 45 * len es). set (co := mo + len (encodeMetadata b)).
  set (body := entryBytes es ++ encodeMetadata b ++ catalogBytes fes).
  assert (Hbl : len body = 45 * len es + len (encodeMetadata b) + len (catalogBytes fes)) by (unfold body; rewrite !length_app; lia).
  destruct (sections_u64 mo co 32 b fes es) as (Um & Uc & Ue); [done|unfold co, mo, fileHeaderSize; lia..|].
  eexists _, _, _. split; [reflexivity|]. split; [done|]. rewrite app_assoc, Hb.
  assert (Hidx : encodeSectionIndex sectionEntries fileHeaderSize (45 * len es) (len es) = indexOf (entSection 32 es))
    by (unfold indexOf; cbn [entSection s_typ s_offset s_length s_count]; by rewrite He).
  split.
  - rewrite Hidx. apply (open_streamed body (metaSection mo b) (catSection co fes) (entSection 32 es)); [done|done|done|lia|].
    assert (co + len (catalogBytes fes) = 32 + len body) as -> by (unfold co, mo, fileHeaderSize; lia).
    unfold body at 2. rewrite <- !app_assoc. reflexivity.
  - destruct (dnm_header_fields 0 ltac:(unfold is_u64; lia)) as (L & _).
    split; cbn [rd_f rd_meta rd_catalog rd_entries catSection entSection s_count]; try done.
    + assert (Hix : ∀ t o l c, length (encodeSectionIndex t o l c) = 36%nat) by done.
      rewrite !length_app, L, !Hix, length_indexOf, length_PutUint64. lia.
    + eexists (encodeHeader 0 ++ entryBytes es), _. rewrite <- !app_assoc. split; [reflexivity|].
      cbn [metaSection s_offset s_length]. rewrite length_app, L. unfold mo, fileHeaderSize. lia.
    + eexists (encodeHeader 0 ++ entryBytes es ++ encodeMetadata b), _. rewrite <- !app_assoc. split; [reflexivity|].
      cbn [catSection s_offset s_length]. rewrite !length_app, L. unfold co, mo, fileHeaderSize. lia.
    + eexists (encodeHeader 0), _. rewrite <- !app_assoc. split; [reflexivity|].
      cbn [entSection s_offset s_length]. by rewrite L.
Qed.

(** ** Theorems *)

(** Saving and loading: the classic file exists for every backup, and loading it
    gives the stored metadata, catalog and entries, wherever the writer took them from
    (memory or sidecars); loading for the catalog or for a block restore gives that part. *)
Theorem dnm_write_load b sidecar cs fes ents :
  counts_fit b → writable fes → hashed ents → entries_from b sidecar ents → catalog_from b cs fes →
  len (encodeMetadata b) + len (catalogBytes fes) + len (entryBytes ents) + 148 < 2 ^ 63 →
  ∃ f, writeDNM b sidecar cs = Ok f ∧ loadDNM f = Ok (loaded b fes ents) ∧
    loadCatalogDNM f = Ok (loadedCatalog b fes) ∧ loadBlockDNM f = Ok (withEntries (storedMeta b) (storedEntry <$> ents)).
Proof.
  intros H1 H2 H3 H4 H5 H6. destruct (writeDNM_holds _ _ _ _ _ H1 H2 H3 H4 H5 H6) as (f & r & Hw & Ho & _ & Hh).
  exists f. split; [done|]. by eapply holds_load.
Qed.

Definition sampleEntries : list Entry := [mkEntry 0 (replicate 32 1) 4096 false; mkEntry 4096 (replicate 32 2) 100 true].
Definition sampleBackup : Backup := withCatalog sampleMeta [sampleFile].

Lemma dnm_write_load_witness :
  ∃ f, writeDNM sampleBackup (Some (entryBytes sampleEntries)) (λ _, None) = Ok f ∧
    loadDNM f = Ok (withEntries sampleBackup sampleEntries).
Proof.
  destruct (dnm_write_load sampleBackup (Some (entryBytes sampleEntries)) (λ _, None) [sampleFile] sampleEntries)
    as (f & H1 & H2 & _).
  - unfold counts_fit. cbn. lia.
  - repeat constructor.
  - repeat constructor.
  - right. left. done.
  - left. done.
  - vm_compute. reflexivity.
  - exists f. split; [exact H1|]. exact H2.
Defined.

(** Streaming: for every window, writing the entries one by one and finishing sends
    parts whose concatenation loads to the same backup as the classic file. *)
Theorem dnm_stream_load window b ents :
  counts_fit b → writable (FileCatalog b) → hashed ents → CatalogSidecarPath b = [] →
  len (encodeMetadata b) + len (catalogBytes (FileCatalog b)) + len (entryBytes ents) + 148 < 2 ^ 63 →
  ∃ d parts d' parts', writeAll collect (NewDNMStreamer window) [] ents = (d, parts, None) ∧
    Finish collect d parts b = (d', parts', None) ∧ loadDNM (concat parts') = Ok (loaded b (FileCatalog b) ents).
Proof.
  intros H1 H2 H3 H4 H5. pose proof (length_entryRecords ents H3).
  destruct (writeAll_inv window ents [] _ _ (stream_init window) H3 ltac:(cbn; lia)) as (d & parts & Hw & Hi).
  destruct (Finish_holds _ b _ _ _ Hi H3 H4 H1 H2 H5) as (d' & part & r & Hf & _ & Ho & Hh).
  exists d, parts, d', (parts ++ [part]). split; [done|]. split; [done|].
  rewrite concat_app. cbn [concat]. rewrite app_nil_r. by eapply holds_load.
Qed.

Lemma dnm_stream_load_witness :
  ∃ d parts d' parts', writeAll collect (NewDNMStreamer 40) [] sampleEntries = (d, parts, None) ∧ length parts = 2%nat ∧
    Finish collect d parts sampleBackup = (d', parts', None) ∧
    loadDNM (concat parts') = Ok (withEntries sampleBackup sampleEntries).
Proof.
  destruct (dnm_stream_load 40 sampleBackup sampleEntries) as (d & parts & d' & parts' & H1 & H2 & H3).
  - unfold counts_fit. cbn. lia.
  - repeat constructor.
  - repeat constructor.
  - reflexivity.
  - vm_compute. reflexivity.
  - exists d, parts, d', parts'. split; [exact H1|]. split; [|split; [exact H2|exact H3]].
    vm_compute in H1. injection H1 as _ <-. reflexivity.
Defined.

(** Streaming in bounded memory: after any number of entries the streamer holds less
    than the window (or the 32-byte header), and every part it sent reached the window
    and overshoots it by less than one record and the header. *)
Theorem dnm_stream_bounded window ents : hashed ents → 45 * len ents < 2 ^ 64 →
  ∃ d parts, writeAll collect (NewDNMStreamer window) [] ents = (d, parts, None) ∧
    Buffered d ≤ Z.max 32 (window - 1) ∧ Forall (λ p, window ≤ len p ≤ Z.max 32 (window - 1) + 45) parts ∧
    concat parts ++ st_buf d = encodeHeader 0 ++ entryBytes ents.
Proof.
  intros H1 H2. destruct (writeAll_inv window ents [] _ _ (stream_init window) H1 H2) as (d & parts & Hw & [? ? ? ? ? ? ?]).
  by exists d, parts.
Qed.

Lemma dnm_stream_bounded_witness :
  ∃ d parts, writeAll collect (NewDNMStreamer 50) [] sampleEntries = (d, parts, None) ∧ Buffered d ≤ 49.
Proof.
  destruct (dnm_stream_bounded 50 sampleEntries) as (d & parts & H1 & H2 & _); [repeat constructor|reflexivity|].
  exists d, parts. split; [exact H1|exact H2].
Defined.
