(* ===== verification/DnmAccess.v ===== *)
(** * core/manifest: entry accessors, searches and content hashes
      (entry_accessor.go, entry_chain.go, contenthash.go, the ranged reads of dnm_ranged.go)

    [EntryAccessor] is the interface the restore code uses; the class [Accesses] states
    what an implementation promises, the three implementations discharge it, and the
    binary searches and the content hashes are proved against it.  The range-read
    function of dnm_ranged.go is an argument. *)

From S2P Require Import Prelude GoBytes Hashes Dnm DnmFile.

(** ** entry_accessor.go *)

Inductive acc_err := AcRange | AcFile (e : dnm_err) | AcNoProgress | AcPanic.

Record EntryAccessor := mkAccessor {
  Count : Z; At : Z → result acc_err Entry; RangeOf : Z → Z → result acc_err (list Entry) }.

Definition NewSliceEntryAccessor (entries : list Entry) : EntryAccessor :=
  let n := len entries in
  mkAccessor n
    (λ i, if (i <? 0) || (n <=? i) then Err AcRange else of_option AcRange (entries !! Z.to_nat i))
    (λ start end_, if (start <? 0) || (n <? end_) || (end_ <? start) then Err AcRange
                   else Ok (take (Z.to_nat (end_ - start)) (drop (Z.to_nat start) entries))).

Definition acc_of {A} (m : result dnm_err A) : result acc_err A := match m with Ok a => Ok a | Err e => Err (AcFile e) end.

Definition NewDNMEntryAccessor (r : DNMReader) : EntryAccessor :=
  mkAccessor (EntriesCount r) (λ i, acc_of (EntryAt r (u64 i))) (λ start end_, acc_of (EntriesRange r (u64 start) (u64 end_))).

(** The search loop; [go_right] is the branch that moves [lo].  The interval shrinks, so
    fuel above its length is enough. *)
Fixpoint searchLoop (ea : EntryAccessor) (go_right : Entry → bool) (fuel : nat) (lo hi : Z) : result acc_err Z :=
  if hi <=? lo then Ok lo
  else match fuel with
       | O => Err AcPanic
       | S fuel =>
           let mid := Z.quot (lo + hi) 2 in
           let! e := At ea mid in
           if go_right e then searchLoop ea go_right fuel (mid + 1) hi else searchLoop ea go_right fuel lo mid
       end.

Definition endsBy (target : Z) (e : Entry) : bool := i64 (VolumeOffset e + ChunkLength e) <=? target.
Definition startsBefore (target : Z) (e : Entry) : bool := VolumeOffset e <? target.

Definition SearchEntries (ea : EntryAccessor) (target : Z) : result acc_err Z :=
  searchLoop ea (endsBy target) (Z.to_nat (Count ea)) 0 (Count ea).
Definition SearchEntriesEnd (ea : EntryAccessor) (target : Z) : result acc_err Z :=
  searchLoop ea (startsBefore target) (Z.to_nat (Count ea)) 0 (Count ea).

(** ** entry_chain.go *)

Record chainEntryAccessor := mkChain { ch_parts : list EntryAccessor; ch_starts : list Z; ch_total : Z }.

Fixpoint addParts (c : chainEntryAccessor) (parts : list (option EntryAccessor)) : chainEntryAccessor :=
  match parts with
  | [] => c
  | None :: parts => addParts c parts
  | Some p :: parts =>
      addParts (mkChain (ch_parts c ++ [p]) (ch_starts c ++ [ch_total c]) (i64 (ch_total c + Count p))) parts
  end.

Fixpoint partSearch (starts : list Z) (i : Z) (fuel : nat) (lo hi : Z) : Z :=
  if hi <=? lo then lo
  else match fuel with
       | O => lo
       | S fuel =>
           let mid := Z.quot (lo + hi + 1) 2 in
           if nth (Z.to_nat mid) starts 0 <=? i then partSearch starts i fuel mid hi else partSearch starts i fuel lo (mid - 1)
       end.

Definition part (c : chainEntryAccessor) (i : Z) : Z * Z :=
  let lo := partSearch (ch_starts c) i (length (ch_parts c)) 0 (len (ch_parts c) - 1) in
  (lo, i - nth (Z.to_nat lo) (ch_starts c) 0).

Definition chainAt (c : chainEntryAccessor) (i : Z) : result acc_err Entry :=
  if (i <? 0) || (ch_total c <=? i) then Err AcRange
  else
    let '(p, local) := part c i in
    let! a := of_option AcPanic (ch_parts c !! Z.to_nat p) in
    At a local.

(** Each turn takes at least one entry, so fuel of the range's length is enough. *)
Fixpoint rangeLoop (c : chainEntryAccessor) (fuel : nat) (start end_ : Z) : result acc_err (list Entry) :=
  if end_ <=? start then Ok []
  else match fuel with
       | O => Err AcPanic
       | S fuel =>
           let '(p, local) := part c start in
           let! a := of_option AcPanic (ch_parts c !! Z.to_nat p) in
           let take := Z.min (end_ - start) (Count a - local) in
           if take <=? 0 then Err AcNoProgress
           else
             let! es := RangeOf a local (local + take) in
             let! rest := rangeLoop c fuel (start + take) end_ in
             Ok (es ++ rest)
       end.

Definition chainRange (c : chainEntryAccessor) (start end_ : Z) : result acc_err (list Entry) :=
  if (start <? 0) || (ch_total c <? end_) || (end_ <? start) then Err AcRange
  else rangeLoop c (Z.to_nat (end_ - start)) start end_.

Definition ChainEntryAccessor (parts : list (option EntryAccessor)) : EntryAccessor :=
  let c := addParts (mkChain [] [] 0) parts in mkAccessor (ch_total c) (chainAt c) (chainRange c).

(** ** contenthash.go *)

Definition coveringEntries (ea : EntryAccessor) (from to_ : Z) : result acc_err (list Entry) :=
  let! startIdx := SearchEntries ea from in
  let! endIdx := SearchEntriesEnd ea to_ in
  RangeOf ea startIdx endIdx.

Definition withHash (f : FileEntry) (h : bytes) : FileEntry :=
  mkFile (Path f) (SourceIndex f) (Size f) (Mode f) (ModTime f) (IsDir f) (IsSymlink f) (LinkTarget f) (StreamOffset f)
    (StreamLength f) h (Unchanged f) (DataBackupID f) (VolumeExtents f) (InlineData f) (f_IsExcluded f).

Definition ComputeContentHashesForFile (f : FileEntry) (ea : EntryAccessor) : FileEntry :=
  if StreamLength f =? 0 then f
  else match coveringEntries ea (StreamOffset f) (i64 (StreamOffset f + StreamLength f)) with
       | Err _ => f
       | Ok chunk => withHash f (Sum256 (concat (ChunkHash <$> chunk)))
       end.

(** The hash input gathered over the extents; an error abandons the file. *)
Fixpoint extentHashes (ea : EntryAccessor) (exts : list VolumeExtent) : result acc_err bytes :=
  match exts with
  | [] => Ok []
  | x :: exts =>
      let! chunk := coveringEntries ea (x_VolumeOffset x) (i64 (x_VolumeOffset x + x_Length x)) in
      let! rest := extentHashes ea exts in Ok (concat (ChunkHash <$> chunk) ++ rest)
  end.

Definition ComputeContentHashesForVolumeFile (f : FileEntry) (ea : EntryAccessor) : FileEntry :=
  match VolumeExtents f with
  | [] => f
  | exts => match extentHashes ea exts with Err _ => f | Ok h => withHash f (Sum256 h) end
  end.

Definition contentHashFile (ea : EntryAccessor) (f : FileEntry) : FileEntry :=
  if Unchanged f then f
  else if negb (bool_decide (VolumeExtents f = [])) then ComputeContentHashesForVolumeFile f ea
  else if 0 <? StreamLength f then ComputeContentHashesForFile f ea
  else f.

Definition ComputeContentHashes (backup : Backup) : Backup :=
  match FileCatalog backup, Entries backup with
  | [], _ | _, [] => backup
  | fes, es => withCatalog backup (contentHashFile (NewSliceEntryAccessor es) <$> fes)
  end.

(** ** The interface *)

Class Accesses (a : EntryAccessor) (es : list Entry) : Prop := {
  ac_count : Count a = len es;
  ac_at : ∀ i e, es !! i = Some e → At a (Z.of_nat i) = Ok e;
  ac_range : ∀ lo n, (lo + n ≤ length es)%nat → RangeOf a (Z.of_nat lo) (Z.of_nat (lo + n)) = Ok (take n (drop lo es)) }.

(** A slice serves itself. *)
#[export] Instance slice_accesses es : Accesses (NewSliceEntryAccessor es) es.
Proof.
  split; cbn [NewSliceEntryAccessor Count At RangeOf].
  - done.
  - intros i e Hi. pose proof (lookup_lt_Some _ _ _ Hi). rewrite (proj2 (Z.ltb_ge _ _)), (proj2 (Z.leb_gt _ _)) by lia. cbn [orb].
    by rewrite Nat2Z.id, Hi.
  - intros lo n Hle. rewrite !(proj2 (Z.ltb_ge _ _)) by lia. cbn [orb]. rewrite Nat2Z.id. do 3 f_equal. lia.
Qed.

(** A .dnm file serves its entries section. *)
#[export] Instance dnm_accesses r b fes ents : dnm_holds r b fes ents → Accesses (NewDNMEntryAccessor r) (storedEntry <$> ents).
Proof.
  intros Hh. assert (Hl : 45 * len ents < 2 ^ 63).
  { pose proof (section_len _ _ _ (dh_ent _ _ _ _ Hh)). pose proof (dh_small _ _ _ _ Hh).
    pose proof (length_entryRecords ents (dh_hashes _ _ _ _ Hh)). lia. }
  split; cbn [NewDNMEntryAccessor Count At RangeOf]; rewrite ?length_fmap.
  - unfold EntriesCount. rewrite (dh_entCount _ _ _ _ Hh). apply i64_id. unfold is_i64. lia.
  - intros i e Hi. rewrite list_lookup_fmap in Hi. destruct (ents !! i) as [e'|] eqn:He; [|done]. injection Hi as <-.
    pose proof (lookup_lt_Some _ _ _ He). rewrite u64_id by (unfold is_u64; lia).
    rewrite (holds_at _ _ _ _ Hh) by lia. by rewrite Nat2Z.id, He.
  - intros lo n Hle. rewrite !u64_id by (unfold is_u64; lia). rewrite (holds_range _ _ _ _ Hh) by lia. cbn [acc_of].
    rewrite Nat2Z.id, fmap_take, fmap_drop. do 3 f_equal. lia.
Qed.

(** ** Binary search *)

(** [k] splits the entries at the predicate. *)
Definition splits (P : Entry → bool) (es : list Entry) (k : nat) : Prop :=
  (k ≤ length es)%nat ∧ ∀ j e, es !! j = Some e → P e = true ↔ (j < k)%nat.

Lemma searchLoop_splits a es P : Accesses a es →
  (∀ i j e e', (i < j)%nat → es !! i = Some e → es !! j = Some e' → P e' = true → P e = true) →
  ∀ fuel lo hi, (lo ≤ hi ≤ length es)%nat → (hi - lo ≤ fuel)%nat →
  (∀ j e, es !! j = Some e → (j < lo)%nat → P e = true) → (∀ j e, es !! j = Some e → (hi ≤ j)%nat → P e = false) →
  ∃ k, searchLoop a P fuel (Z.of_nat lo) (Z.of_nat hi) = Ok (Z.of_nat k) ∧ splits P es k.
Proof.
  intros Ha Hmono. induction fuel as [|fuel IH]; intros lo hi Hle Hfuel Hlo Hhi; cbn [searchLoop].
  all: destruct (Z.of_nat hi <=? Z.of_nat lo) eqn:Hd; zbool; [|try lia].
  1,2: exists lo; split; [done|]; split; [lia|]; intros j e He; split; [|by eauto];
    intros HP; destruct (decide (j < lo)%nat); [done|]; rewrite (Hhi j e He) in HP by lia; done.
  set (mid := ((lo + hi) / 2)%nat).
  assert (Hmid : (lo ≤ mid < hi)%nat) by (unfold mid; split; [apply Nat.div_le_lower_bound; lia|apply Nat.Div0.div_lt_upper_bound; lia]).
  assert (Z.quot (Z.of_nat lo + Z.of_nat hi) 2 = Z.of_nat mid) as ->.
  { unfold mid. rewrite Nat2Z.inj_div, Nat2Z.inj_add. apply Z.quot_div_nonneg; lia. }
  destruct (lookup_lt_is_Some_2 es mid ltac:(lia)) as [e He]. rewrite (ac_at mid e He). cbn [rbind].
  destruct (P e) eqn:HP.
  - replace (Z.of_nat mid + 1) with (Z.of_nat (S mid)) by lia. apply IH; [lia|lia| |done].
    intros j e' Hj Hlt. destruct (decide (j = mid)) as [->|]; [by simplify_eq|]. eapply (Hmono j mid); [lia|done..].
  - apply IH; [lia|lia|done|]. intros j e' Hj Hge. destruct (P e') eqn:HP'; [|done].
    destruct (decide (j = mid)) as [->|]; [congruence|]. rewrite (Hmono mid j e e') in HP; [done|lia|done..].
Qed.

(** Entries as a backup writes them: in offset order, without overlap or wrap-around. *)
Definition entry_end (e : Entry) : Z := VolumeOffset e + ChunkLength e.
Definition entry_ok (e : Entry) : Prop := 0 ≤ VolumeOffset e ∧ 0 ≤ ChunkLength e ∧ entry_end e < 2 ^ 63.
#[export] Instance entry_ok_dec e : Decision (entry_ok e).
Proof. unfold entry_ok. apply _. Defined.
Definition entries_sorted (es : list Entry) : Prop :=
  Forall entry_ok es ∧ StronglySorted (λ a b, entry_end a ≤ VolumeOffset b) es.

Lemma entries_sorted_lookup es i j e e' : entries_sorted es → (i < j)%nat → es !! i = Some e → es !! j = Some e' →
  entry_end e ≤ VolumeOffset e' ∧ entry_ok e ∧ entry_ok e'.
Proof.
  intros [Hok Hs] Hlt Hi Hj. split; [|split; rewrite Forall_lookup in Hok; eauto].
  exact (StronglySorted_lookup_lt _ es i j e e' Hs Hlt Hi Hj).
Qed.

(** Two splits cut out exactly the entries between them. *)
Lemma splits_slice P Q es k1 k2 : splits P es k1 → splits Q es k2 → (k1 ≤ k2)%nat →
  take (k2 - k1) (drop k1 es) = filter (λ e, P e = false ∧ Q e = true) es.
Proof.
  intros [Hk1 HP] [Hk2 HQ] Hle.
  assert (Hes : es = take k1 es ++ take (k2 - k1) (drop k1 es) ++ drop k2 es).
  { rewrite <- (take_drop k1 es) at 1. f_equal. rewrite <- (take_drop (k2 - k1) (drop k1 es)) at 1. f_equal.
    rewrite drop_drop. f_equal. lia. }
  rewrite Hes at 2. rewrite !filter_app. rewrite (filter_none _ (take k1 es)), (filter_none _ (drop k2 es)), app_nil_r.
  - symmetry. apply filter_all, Forall_lookup. intros i e (Hi & Hlt)%lookup_take_Some. rewrite lookup_drop in Hi. split.
    + destruct (P e) eqn:He; [|done]. apply (HP _ _ Hi) in He. lia.
    + apply (HQ _ _ Hi). lia.
  - apply Forall_lookup. intros i e Hi [_ He]. rewrite lookup_drop in Hi. apply (HQ _ _ Hi) in He. lia.
  - apply Forall_lookup. intros i e (Hi & Hlt)%lookup_take_Some [He _]. apply (HP _ _ Hi) in Hlt. congruence.
Qed.

Section search.
Context (a : EntryAccessor) (es : list Entry).
Context `{Ha : !Accesses a es}.
Hypothesis Hs : entries_sorted es.

Lemma endsBy_exact e t : entry_ok e → endsBy t e = true ↔ entry_end e ≤ t.
Proof. unfold entry_ok, entry_end, endsBy. intros H. rewrite i64_id by (unfold is_i64; lia). apply Z.leb_le. Qed.

Lemma search_splits t : ∃ k, SearchEntries a t = Ok (Z.of_nat k) ∧ splits (endsBy t) es k.
Proof.
  unfold SearchEntries. rewrite ac_count, Nat2Z.id.
  eapply (searchLoop_splits a es (endsBy t) Ha) with (lo := 0%nat); [|lia|lia|lia|].
  - intros i j e e' Hlt Hi Hj. destruct (entries_sorted_lookup es i j e e' Hs Hlt Hi Hj) as (Hle & Ho & Ho').
    rewrite !endsBy_exact by done. unfold entry_ok, entry_end in *. lia.
  - intros j e Hj Hge. apply lookup_lt_Some in Hj. lia.
Qed.

Lemma searchEnd_splits t : ∃ k, SearchEntriesEnd a t = Ok (Z.of_nat k) ∧ splits (startsBefore t) es k.
Proof.
  unfold SearchEntriesEnd. rewrite ac_count, Nat2Z.id.
  eapply (searchLoop_splits a es (startsBefore t) Ha) with (lo := 0%nat); [|lia|lia|lia|].
  - intros i j e e' Hlt Hi Hj. destruct (entries_sorted_lookup es i j e e' Hs Hlt Hi Hj) as (Hle & Ho & Ho').
    unfold startsBefore. rewrite !Z.ltb_lt. unfold entry_ok, entry_end in *. lia.
  - intros j e Hj Hge. apply lookup_lt_Some in Hj. lia.
Qed.

(** The entries that overlap a byte range. *)
Definition overlaps (from to_ : Z) (e : Entry) : Prop := from < entry_end e ∧ VolumeOffset e < to_.
#[export] Instance overlaps_dec from to_ e : Decision (overlaps from to_ e).
Proof. unfold overlaps. apply _. Defined.

Lemma covering_exact from to_ : from < to_ → coveringEntries a from to_ = Ok (filter (overlaps from to_) es).
Proof.
  intros Hlt. unfold coveringEntries. destruct (search_splits from) as (k1 & -> & H1). cbn [rbind].
  destruct (searchEnd_splits to_) as (k2 & -> & H2). cbn [rbind].
  assert (Hle : (k1 ≤ k2)%nat).
  { destruct (decide (k1 ≤ k2)%nat); [done|]. destruct H1 as [Hk1 HP], H2 as [Hk2 HQ].
    destruct (lookup_lt_is_Some_2 es k2 ltac:(lia)) as [e He]. destruct Hs as [Hok _].
    assert (entry_ok e) by (rewrite Forall_lookup in Hok; eauto).
    assert (Hend : entry_end e ≤ from) by (apply endsBy_exact; [done|]; apply (HP _ _ He); lia).
    assert (Hst : startsBefore to_ e = true) by (unfold startsBefore; apply Z.ltb_lt; unfold entry_ok, entry_end in *; lia).
    apply (HQ _ _ He) in Hst. lia. }
  replace k2 with (k1 + (k2 - k1))%nat at 1 by lia. rewrite ac_range by (destruct H2; lia).
  rewrite (splits_slice _ _ _ _ _ H1 H2 Hle). f_equal. destruct Hs as [Hok _]. clear -Hok.
  induction Hok as [|e es He Hok IH]; [done|]. rewrite !filter_cons, IH.
  assert (Hiff : (endsBy from e = false ∧ startsBefore to_ e = true) ↔ overlaps from to_ e).
  { rewrite <- not_true_iff_false, endsBy_exact by done. unfold startsBefore, overlaps. rewrite Z.ltb_lt. lia. }
  by rewrite (decide_ext _ _ _ _ Hiff).
Qed.
End search.

(** The covering entries of a byte range: over any accessor, the two binary searches
    end and the range between them is exactly the entries that overlap the bytes, in order. *)
Theorem search_covers_overlap a es from to_ : Accesses a es → entries_sorted es → from < to_ →
  coveringEntries a from to_ = Ok (filter (overlaps from to_) es).
Proof. intros Ha Hs. by apply covering_exact. Qed.

Lemma sampleEntries_sorted : entries_sorted sampleEntries.
Proof.
  split; [by_eval|]. constructor; [constructor; constructor|]. constructor; [unfold entry_end; cbn; lia|constructor].
Qed.

Lemma search_covers_overlap_witness :
  coveringEntries (NewSliceEntryAccessor sampleEntries) 100 4000 = Ok [mkEntry 0 (replicate 32 1) 4096 false].
Proof.
  rewrite (search_covers_overlap (NewSliceEntryAccessor sampleEntries) sampleEntries 100 4000); [reflexivity|apply _| |lia].
  apply sampleEntries_sorted.
Defined.

(** ** The chain *)

(** The global index at which part [k] starts. *)
Definition startOf (ess : list (list Entry)) (k : nat) : Z := len (concat (take k ess)).

Record chain_of (c : chainEntryAccessor) (ess : list (list Entry)) : Prop := {
  co_parts : Forall2 Accesses (ch_parts c) ess;
  co_starts : length (ch_starts c) = length ess ∧ ∀ k, (k < length ess)%nat → nth k (ch_starts c) 0 = startOf ess k;
  co_total : ch_total c = len (concat ess) }.

Lemma startOf_S ess k es : ess !! k = Some es → startOf ess (S k) = startOf ess k + len es.
Proof. intros H. unfold startOf. rewrite (take_S_r _ _ _ H), concat_app, length_app. cbn [concat]. rewrite app_nil_r. lia. Qed.

Lemma startOf_mono ess j k : (j ≤ k)%nat → startOf ess j ≤ startOf ess k.
Proof.
  intros H. unfold startOf. replace k with (j + (k - j))%nat by lia. rewrite take_add_drop, concat_app, length_app. lia.
Qed.

Lemma startOf_nonneg ess k : 0 ≤ startOf ess k.
Proof. unfold startOf. lia. Qed.

Lemma startOf_all ess k : (length ess ≤ k)%nat → startOf ess k = len (concat ess).
Proof. intros H. unfold startOf. by rewrite take_ge. Qed.

Lemma addParts_chain parts : ∀ c ess,
  chain_of c ess → ∀ ess', Forall2 Accesses (omap id parts) ess' → len (concat (ess ++ ess')) < 2 ^ 63 →
  chain_of (addParts c parts) (ess ++ ess').
Proof.
  induction parts as [|[p|] parts IH]; intros c ess Hc ess' Hp Hlen; cbn [addParts].
  - inversion Hp; subst. by rewrite app_nil_r.
  - inversion Hp as [|? es ? ess2 Ha Hrest]; subst. change (es :: ess2) with ([es] ++ ess2) in *. rewrite app_assoc in *. apply IH; [|done|done].
    destruct Hc as [H1 [H2 H3] H4]. rewrite concat_app, length_app in Hlen.
    split; cbn [ch_parts ch_starts ch_total].
    + apply Forall2_app; [done|]. by constructor.
    + rewrite !length_app. split; [cbn; lia|]. intros k Hk. cbn [length] in Hk. destruct (decide (k < length ess)%nat).
      * rewrite app_nth1, H3 by lia. unfold startOf. by rewrite take_app_le by lia.
      * assert (k = length ess) as -> by lia. rewrite app_nth2, H2, Nat.sub_diag by lia. cbn [nth]. rewrite H4. unfold startOf.
        by rewrite take_app_length.
    + rewrite concat_app, length_app in *. cbn [concat] in *. rewrite app_nil_r in *.
      rewrite H4, (ac_count (es := es)). rewrite i64_id by (unfold is_i64; lia). lia.
  - apply IH; done.
Qed.

Lemma partSearch_spec ess starts i : length starts = length ess → (∀ k, (k < length ess)%nat → nth k starts 0 = startOf ess k) →
  ∀ fuel lo hi, (lo ≤ hi < length ess)%nat → (hi - lo ≤ fuel)%nat → startOf ess lo ≤ i →
  (∀ k, (hi < k < length ess)%nat → i < startOf ess k) →
  ∃ k, partSearch starts i fuel (Z.of_nat lo) (Z.of_nat hi) = Z.of_nat k ∧ (k < length ess)%nat ∧ startOf ess k ≤ i ∧
    ((S k < length ess)%nat → i < startOf ess (S k)).
Proof.
  intros Hn Hst. induction fuel as [|fuel IH]; intros lo hi Hle Hf Hlo Hhi; cbn [partSearch].
  all: destruct (Z.of_nat hi <=? Z.of_nat lo) eqn:Hd; zbool; [|try lia].
  1,2: exists lo; split_and!; [done|lia|done|]; intros; apply Hhi; lia.
  set (mid := ((lo + hi + 1) / 2)%nat).
  assert (Hmid : (lo < mid ≤ hi)%nat).
  { unfold mid. pose proof (Nat.div_mod (lo + hi + 1) 2 ltac:(lia)). pose proof (Nat.mod_upper_bound (lo + hi + 1) 2 ltac:(lia)). lia. }
  assert (Z.quot (Z.of_nat lo + Z.of_nat hi + 1) 2 = Z.of_nat mid) as ->.
  { unfold mid. rewrite Nat2Z.inj_div. rewrite Z.quot_div_nonneg by lia. f_equal. lia. }
  rewrite Nat2Z.id, Hst by lia. destruct (_ <=? i) eqn:Hc; zbool.
  - apply IH; [lia|lia|done|done].
  - replace (Z.of_nat mid - 1) with (Z.of_nat (mid - 1)) by lia. apply IH; [lia|lia|done|].
    intros k Hk. destruct (decide (hi < k)%nat); [apply Hhi; lia|]. pose proof (startOf_mono ess mid k ltac:(lia)). lia.
Qed.

Section chain.
Context (c : chainEntryAccessor) (ess : list (list Entry)).
Hypothesis Hc : chain_of c ess.

(** The part of an index, its accessor and its place in the concatenation. *)
Lemma part_spec i : (i < length (concat ess))%nat →
  ∃ k p es, part c (Z.of_nat i) = (Z.of_nat k, Z.of_nat i - startOf ess k) ∧ ch_parts c !! k = Some p ∧ ess !! k = Some es ∧
    Accesses p es ∧ startOf ess k ≤ Z.of_nat i < startOf ess k + len es.
Proof.
  intros Hi. destruct Hc as [Hp [Hn Hst] Ht]. pose proof (Forall2_length _ _ _ Hp) as Hlen.
  assert (Hne : (0 < length ess)%nat) by (destruct ess; [cbn in Hi; lia|cbn; lia]).
  unfold part. cbv zeta. destruct (partSearch_spec ess (ch_starts c) (Z.of_nat i) Hn Hst (length (ch_parts c)) 0 (length ess - 1))
    as (k & Hk & Hlt & Hlo & Hhi); [lia|lia|change (startOf ess 0) with 0; lia|intros; lia|].
  replace (len (ch_parts c) - 1) with (Z.of_nat (length ess - 1)) by lia. change (Z.of_nat 0) with 0 in Hk. rewrite Hk.
  rewrite Nat2Z.id, Hst by done. destruct (lookup_lt_is_Some_2 ess k Hlt) as [es Hes].
  destruct (Forall2_lookup_r _ _ _ _ _ Hp Hes) as (p & Hpk & Ha). exists k, p, es. split_and!; [done|done|done|done|done|].
  rewrite <- (startOf_S _ _ _ Hes). destruct (decide (S k < length ess)%nat); [by apply Hhi|]. rewrite startOf_all by lia. lia.
Qed.

Lemma concat_at k es : ess !! k = Some es →
  concat ess = concat (take k ess) ++ es ++ concat (drop (S k) ess).
Proof. intros H. rewrite <- (take_drop_middle _ _ _ H) at 1. by rewrite concat_app. Qed.

Lemma chainAt_spec i e : concat ess !! i = Some e → chainAt c (Z.of_nat i) = Ok e.
Proof.
  intros Hi. pose proof (lookup_lt_Some _ _ _ Hi). unfold chainAt. rewrite (co_total _ _ Hc).
  rewrite (proj2 (Z.ltb_ge _ _)), (proj2 (Z.leb_gt _ _)) by lia. cbn [orb].
  destruct (part_spec i ltac:(done)) as (k & p & es & -> & Hp & Hes & Ha & Hin). rewrite Nat2Z.id, Hp. cbn [of_option rbind].
  pose proof (startOf_nonneg ess k).
  replace (Z.of_nat i - startOf ess k) with (Z.of_nat (i - Z.to_nat (startOf ess k))) by lia. apply (ac_at (es := es)).
  rewrite (concat_at _ _ Hes) in Hi. unfold startOf in *. rewrite lookup_app_r in Hi by lia. rewrite lookup_app_l in Hi by lia.
  rewrite Nat2Z.id. done.
Qed.

Lemma rangeLoop_spec : ∀ fuel i n, (i + n ≤ length (concat ess))%nat → (n ≤ fuel)%nat →
  rangeLoop c fuel (Z.of_nat i) (Z.of_nat (i + n)) = Ok (take n (drop i (concat ess))).
Proof.
  induction fuel as [|fuel IH]; intros i n Hle Hf; cbn [rangeLoop].
  all: destruct (Z.of_nat (i + n) <=? Z.of_nat i) eqn:Hd; zbool; [by replace n with 0%nat by lia|try lia].
  destruct (part_spec i ltac:(lia)) as (k & p & es & -> & Hp & Hes & Ha & Hin). rewrite Nat2Z.id, Hp. cbn [of_option rbind].
  pose proof (startOf_nonneg ess k).
  rewrite (ac_count (es := es)). set (l := (i - Z.to_nat (startOf ess k))%nat).
  assert (Hl : Z.of_nat i - startOf ess k = Z.of_nat l) by lia. rewrite Hl.
  set (t := Nat.min n (length es - l)). assert (Ht : (0 < t)%nat) by (unfold t; lia).
  replace (Z.min _ _) with (Z.of_nat t) by (unfold t; lia). rewrite (proj2 (Z.leb_gt _ _)) by lia.
  rewrite <- !Nat2Z.inj_add, (ac_range (es := es)) by (unfold t; lia). cbn [rbind].
  replace (i + n)%nat with (i + t + (n - t))%nat by (unfold t; lia). rewrite IH by (unfold t in *; lia). cbn [rbind]. f_equal.
  replace n with (t + (n - t))%nat at 2 by (unfold t; lia). rewrite take_add_drop, drop_drop. f_equal.
  rewrite (concat_at _ _ Hes). assert (Hi : i = (length (concat (take k ess)) + l)%nat) by (unfold l, startOf in *; lia).
  rewrite Hi, drop_app_add, drop_app_le by lia. rewrite take_app_le; [done|]. rewrite length_drop. unfold t. lia.
Qed.
End chain.

(** A chain of accessors serves the concatenation of its parts: the right count,
    every entry, and every range in one pass over the parts it touches. *)
Theorem chain_accesses parts ess : Forall2 Accesses (omap id parts) ess → len (concat ess) < 2 ^ 63 →
  Accesses (ChainEntryAccessor parts) (concat ess).
Proof.
  intros Hp Hl. assert (Hc : chain_of (addParts (mkChain [] [] 0) parts) ess).
  { change ess with ([] ++ ess). apply addParts_chain; [|done|done]. split; [constructor|split; [done|cbn; lia]|done]. }
  split; unfold ChainEntryAccessor; cbn [Count At RangeOf].
  - apply (co_total _ _ Hc).
  - intros i e Hi. by eapply chainAt_spec.
  - intros lo n Hle. unfold chainRange. rewrite (co_total _ _ Hc), !(proj2 (Z.ltb_ge _ _)) by lia. cbn [orb].
    apply (rangeLoop_spec _ _ Hc); lia.
Qed.

Lemma chain_accesses_witness :
  RangeOf (ChainEntryAccessor [Some (NewSliceEntryAccessor (take 1 sampleEntries)); None; Some (NewSliceEntryAccessor []);
    Some (NewSliceEntryAccessor sampleEntries)]) 0 2 = Ok [mkEntry 0 (replicate 32 1) 4096 false; mkEntry 0 (replicate 32 1) 4096 false].
Proof.
  destruct (chain_accesses [Some (NewSliceEntryAccessor (take 1 sampleEntries)); None; Some (NewSliceEntryAccessor []);
    Some (NewSliceEntryAccessor sampleEntries)] [take 1 sampleEntries; []; sampleEntries]) as [_ _ H].
  - repeat constructor; apply slice_accesses.
  - reflexivity.
  - exact (H 0%nat 2%nat ltac:(cbn; lia)).
Defined.

(** ** Content hashes *)

(** The chunk hashes under a byte range, in order. *)
Definition rangeHashes (es : list Entry) (from to_ : Z) : bytes := concat (ChunkHash <$> filter (overlaps from to_) es).

Lemma extentHashes_exact a es exts : Accesses a es → entries_sorted es →
  Forall (λ x, 0 ≤ x_VolumeOffset x ∧ 0 < x_Length x ∧ x_VolumeOffset x + x_Length x < 2 ^ 63) exts →
  extentHashes a exts = Ok (concat ((λ x, rangeHashes es (x_VolumeOffset x) (x_VolumeOffset x + x_Length x)) <$> exts)).
Proof.
  intros Ha Hs. induction 1 as [|x exts (H1 & H2 & H3) Hx IH]; [done|]. cbn [extentHashes].
  rewrite i64_id by (unfold is_i64; lia). rewrite (covering_exact a es) by (done || lia). cbn [rbind]. rewrite IH. done.
Qed.

(** Content hashes: over any accessor, a stream file's hash is the SHA-256 of the
    hashes of the chunks that overlap its range, a volume file's that of the chunks
    under each extent in turn; an unchanged or empty file keeps the hash it had. *)
Theorem content_hash_exact a es f : Accesses a es → entries_sorted es → 0 ≤ StreamOffset f →
  0 ≤ StreamLength f → StreamOffset f + StreamLength f < 2 ^ 63 →
  Forall (λ x, 0 ≤ x_VolumeOffset x ∧ 0 < x_Length x ∧ x_VolumeOffset x + x_Length x < 2 ^ 63) (VolumeExtents f) →
  ContentHash (contentHashFile a f) =
    if Unchanged f then ContentHash f
    else match VolumeExtents f with
         | [] => if StreamLength f =? 0 then ContentHash f
                 else Sum256 (rangeHashes es (StreamOffset f) (StreamOffset f + StreamLength f))
         | exts => Sum256 (concat ((λ x, rangeHashes es (x_VolumeOffset x) (x_VolumeOffset x + x_Length x)) <$> exts))
         end.
Proof.
  intros Ha Hs Ho Hl Hend Hx. unfold contentHashFile. destruct (Unchanged f); [done|].
  unfold ComputeContentHashesForVolumeFile, ComputeContentHashesForFile.
  destruct (VolumeExtents f) as [|x exts]; [rewrite bool_decide_true by done|rewrite bool_decide_false by done]; cbn [negb].
  - destruct (StreamLength f =? 0) eqn:H0; zbool; [by rewrite (proj2 (Z.ltb_ge _ _)) by lia|].
    rewrite (proj2 (Z.ltb_lt _ _)), i64_id by (unfold is_i64; lia). by rewrite (covering_exact a es) by (done || lia).
  - by rewrite (extentHashes_exact a es).
Qed.

Lemma content_hash_exact_witness :
  ContentHash (contentHashFile (NewSliceEntryAccessor sampleEntries)
    (mkFile [97] 0 10 0 None false false [] 4000 200 [] false [] [] [] false)) = Sum256 (replicate 32 1 ++ replicate 32 2).
Proof.
  rewrite (content_hash_exact _ sampleEntries); cbn [StreamOffset StreamLength VolumeExtents]; [reflexivity|apply _| |lia|lia|lia|constructor].
  apply sampleEntries_sorted.
Defined.

(** ** dnm_ranged.go *)

Inductive rr_err (E : Type) := RrEOF | RrUnexpected | RrBackend (e : E).
Arguments RrEOF {E}.
Arguments RrUnexpected {E}.
Arguments RrBackend {E} e.
Inductive ranged_err (E : Type) :=
| RgSmall | RgRead (e : E) | RgMagic | RgVersion | RgTrailer | RgIndex | RgCatalog | RgPanic | RgRecord (i : Z) (e : cat_err (rr_err E)).
Arguments RgSmall {E}.
Arguments RgRead {E} e.
Arguments RgMagic {E}.
Arguments RgVersion {E}.
Arguments RgTrailer {E}.
Arguments RgIndex {E}.
Arguments RgCatalog {E}.
Arguments RgPanic {E}.
Arguments RgRecord {E} i e.

Record rangeSectionReader := mkRange { rr_off : Z; rr_end : Z; rr_window : Z; rr_buf : bytes }.
Definition catalogRangeWindow : Z := Z.shiftl 1 20.

Section ranged.
Context {E : Type} (readRange : Z → Z → result E bytes).

(** One [Read] of up to [n] bytes. *)
Definition rrFill (r : rangeSectionReader) : result (rr_err E) rangeSectionReader :=
  match rr_buf r with
  | _ :: _ => Ok r
  | [] =>
      if rr_end r <=? rr_off r then Err RrEOF
      else
        let n := Z.min (rr_window r) (rr_end r - rr_off r) in
        match readRange (rr_off r) n with
        | Err e => Err (RrBackend e)
        | Ok [] => Err RrUnexpected
        | Ok b => let b := take (Z.to_nat n) b in Ok (mkRange (rr_off r + len b) (rr_end r) (rr_window r) b)
        end
  end.
Definition rrRead (r : rangeSectionReader) (n : Z) : result (rr_err E) (bytes * rangeSectionReader) :=
  let! r := rrFill r in
  Ok (take (Z.to_nat n) (rr_buf r), mkRange (rr_off r) (rr_end r) (rr_window r) (drop (Z.to_nat n) (rr_buf r))).

(** [io.ReadFull]: reads until [n] bytes are there; every read gives at least one. *)
Fixpoint rrLoop (fuel : nat) (n : Z) (acc : bytes) (r : rangeSectionReader) : result (rr_err E) (bytes * rangeSectionReader) :=
  if n <=? 0 then Ok (acc, r)
  else match fuel with
       | O => Err RrUnexpected
       | S fuel =>
           match rrRead r n with
           | Err RrEOF => Err (match acc with [] => RrEOF | _ => RrUnexpected end)
           | Err e => Err e
           | Ok (p, r) => rrLoop fuel (n - len p) (acc ++ p) r
           end
       end.
Definition rrReadFull (n : Z) (r : rangeSectionReader) : result (rr_err E) (bytes * rangeSectionReader) :=
  rrLoop (Z.to_nat n) n [] r.

(** The last catalog section of the index; a slice past the index data panics. *)
Fixpoint indexCatalog (idx : bytes) (n : nat) (cat : sectionInfo) : result (ranged_err E) sectionInfo :=
  match n with
  | O => Ok cat
  | S n =>
      let buf := take 36 idx ++ zeros (36 - length (take 36 idx)) in
      let s := decodeSectionIndex buf in
      let cat := if s_typ s =? sectionCatalog then s else cat in
      if (len idx <? sectionIndexSize) && (0 <? n)%nat then Err RgPanic else indexCatalog (drop 36 idx) n cat
  end.

Definition rg_read {A} (m : result E A) : result (ranged_err E) A := match m with Ok a => Ok a | Err e => Err (RgRead e) end.

Definition locateCatalogRanged (size : Z) : result (ranged_err E) sectionInfo :=
  if size <? fileHeaderSize then Err RgSmall
  else
    let! hdr := rg_read (readRange 0 fileHeaderSize) in
    if (len hdr <? fileHeaderSize) || negb (bool_decide (sub hdr 0 8 = dnmMagic)) then Err RgMagic
    else if negb (le_get (sub hdr 8 2) =? dnmVersion) then Err RgVersion
    else
      let off := le_get (sub hdr 12 8) in
      let count := le_get (sub hdr 20 4) in
      let! off := (if off =? 0 then
        let! tr := rg_read (readRange (size - 8) 8) in
        if len tr <? 8 then Err RgPanic else
        let off := le_get (take 8 tr) in
        if negb (off =? u64 (size - 8 - count * sectionIndexSize)) then Err RgTrailer else Ok off
      else Ok off) in
      let idxLen := count * sectionIndexSize in
      if size <? i64 (i64 off + idxLen) then Err RgIndex
      else
        let! idx := rg_read (readRange (i64 off) idxLen) in
        let! cat := indexCatalog idx (Z.to_nat count) noSection in
        if (0 <? s_count cat) && (size <? i64 (i64 (s_offset cat) + i64 (s_length cat))) then Err RgCatalog else Ok cat.

Definition StreamCatalogRanged {V} (size : Z) (visit : V → FileEntry → V * bool) (v : V) : V * option (ranged_err E) :=
  match locateCatalogRanged size with
  | Err e => (v, Some e)
  | Ok cat =>
      if s_count cat =? 0 then (v, None)
      else
        let r := mkRange (i64 (s_offset cat)) (i64 (i64 (s_offset cat) + i64 (s_length cat))) catalogRangeWindow [] in
        match visitRecords rrReadFull visit (Z.to_nat (s_count cat)) 0 r v with
        | (v, None) => (v, None)
        | (v, Some (i, e)) => (v, Some (RgRecord i e))
        end
  end.
End ranged.

(** ** Any faithful reader visits the same records *)

Fixpoint foldVisit {V} (visit : V → FileEntry → V * bool) (v : V) (fes : list FileEntry) : V :=
  match fes with
  | [] => v
  | fe :: fes => match visit v fe with (v, false) => v | (v, true) => foldVisit visit v fes end
  end.

(** A reader whose unread bytes are [rest r] serves them. *)
Definition serves {R E} (readFull : Z → R → result E (bytes * R)) (rest : R → bytes) (ok : R → Prop) : Prop :=
  ∀ n r, ok r → 0 ≤ n ≤ len (rest r) →
    ∃ r', readFull n r = Ok (take (Z.to_nat n) (rest r), r') ∧ rest r' = drop (Z.to_nat n) (rest r) ∧ ok r'.

Lemma ReadFull_serves : serves ReadFull id (λ _, True).
Proof.
  intros n r _ Hn. exists (drop (Z.to_nat n) r). split; [|done]. cbn [id].
  rewrite <- (take_drop (Z.to_nat n) r) at 1. apply ReadFull_app. rewrite length_take. cbn in Hn. lia.
Qed.

Lemma visit_served {R E V} (readFull : Z → R → result E (bytes * R)) rest ok (visit : V → FileEntry → V * bool) fes post :
  serves readFull rest ok → writable fes → ∀ r i v, ok r → rest r = catalogBytes fes ++ post →
  visitRecords readFull visit (length fes) i r v = (foldVisit visit v (storedFile <$> fes), None).
Proof.
  intros Hs Hw. induction Hw as [|fe fes [Hf Hl] Hw IH]; intros r i v Hok Hr; [done|]. rewrite fmap_cons in Hr. rewrite fmap_cons.
  cbn [length visitRecords foldVisit concat] in *. unfold catalogRecord at 1 in Hr. rewrite <- !app_assoc in Hr.
  destruct (Hs 4 r Hok) as (r1 & H1 & Hr1 & Hok1); [rewrite Hr, length_app, length_PutUint32; lia|].
  rewrite Hr in H1, Hr1. rewrite take_app_exact in H1 by done. rewrite drop_app_exact in Hr1 by done.
  unfold nextRecord. rewrite H1. rewrite u32_id, le_get_PutUint32 by (unfold is_u32; lia).
  destruct (Hs (len (encodeFileEntry fe)) r1 Hok1) as (r2 & H2 & Hr2 & Hok2); [rewrite Hr1, length_app; lia|].
  rewrite Hr1 in H2, Hr2. rewrite Nat2Z.id in *. rewrite take_app_exact in H2 by done. rewrite drop_app_exact in Hr2 by done.
  rewrite H2. rewrite <- (app_nil_r (encodeFileEntry fe)), dnm_file_rt by done.
  destruct (visit v (storedFile fe)) as [v' []]; [|done]. by apply IH.
Qed.

Section ranged_proof.
Context {E : Type} (readRange : Z → Z → result E bytes) (f : bytes).

(** The object store: bytes of the object from the offset on, whole for the small reads of
    the header and the index, possibly cut short (not empty) or too long otherwise. *)
Definition backend_serves : Prop := ∀ off n, 0 ≤ off → 0 < n → off + n ≤ len f →
  ∃ k, (1 ≤ k)%nat ∧ (n ≤ 148 → n ≤ Z.of_nat k) ∧ readRange off n = Ok (take k (drop (Z.to_nat off) f)).
Hypothesis Hb : backend_serves.

Definition rr_rest (r : rangeSectionReader) : bytes := rr_buf r ++ sub f (Z.to_nat (rr_off r)) (Z.to_nat (rr_end r - rr_off r)).
Definition rr_ok (r : rangeSectionReader) : Prop := 0 ≤ rr_off r ≤ rr_end r ∧ rr_end r ≤ len f ∧ 0 < rr_window r.

Lemma rrFill_ok r : rr_ok r → rr_rest r ≠ [] →
  ∃ r', rrFill readRange r = Ok r' ∧ rr_ok r' ∧ rr_rest r' = rr_rest r ∧ rr_buf r' ≠ [].
Proof.
  destruct r as [o e w [|x buf]]; unfold rr_ok, rr_rest, rrFill; cbn [rr_off rr_end rr_window rr_buf app]; intros (Ho & He & Hw) Hne;
    [|eexists; split; [reflexivity|]; cbn [rr_off rr_end rr_window rr_buf]; split_and!; (done || lia || discriminate)].
  destruct (e <=? o) eqn:Hend; zbool; [exfalso; apply Hne; by replace (Z.to_nat (e - o)) with 0%nat by lia|].
  set (n := Z.min w (e - o)). destruct (Hb o n) as (k & Hk & _ & ->); [lia|lia|lia|].
  set (l := drop (Z.to_nat o) f). assert (Hl : (0 < length l)%nat) by (unfold l; rewrite length_drop; lia).
  destruct (take k l) as [|y t] eqn:Ht; [apply (f_equal length) in Ht; rewrite length_take in Ht; cbn in Ht; lia|]. rewrite <- Ht.
  rewrite take_take. set (m := Nat.min (Z.to_nat n) k).
  assert (Hm : length (take m l) = Nat.min m (length l)) by (rewrite length_take; lia).
  assert (Hll : (Z.to_nat n ≤ length l)%nat) by (unfold l; rewrite length_drop; lia).
  eexists. split; [reflexivity|]. cbn [rr_off rr_end rr_window rr_buf]. rewrite Hm.
  assert (Hmn : (m ≤ Z.to_nat n)%nat) by (unfold m; lia). assert (Hn : 0 < n ≤ e - o) by (unfold n; lia).
  rewrite (Nat.min_l m (length l)) in * by lia.
  split_and!; [lia|lia|done|done| |].
  - unfold sub. replace (Z.to_nat (e - o)) with (m + Z.to_nat (e - (o + Z.of_nat m)))%nat by lia.
    fold l. rewrite take_add_drop. f_equal. unfold l. rewrite drop_drop. do 2 f_equal.
    lia.
  - intros H0. apply (f_equal length) in H0. rewrite Hm in H0. cbn in H0. unfold m in H0. lia.
Qed.

Lemma rrLoop_ok : ∀ fuel n acc r, rr_ok r → 0 ≤ n ≤ len (rr_rest r) → (Z.to_nat n ≤ fuel)%nat →
  ∃ r', rrLoop readRange fuel n acc r = Ok (acc ++ take (Z.to_nat n) (rr_rest r), r') ∧
    rr_rest r' = drop (Z.to_nat n) (rr_rest r) ∧ rr_ok r'.
Proof.
  induction fuel as [|fuel IH]; intros n acc r Hok Hn Hf; cbn [rrLoop].
  all: destruct (n <=? 0) eqn:H0; zbool; [replace (Z.to_nat n) with 0%nat by lia; exists r; by rewrite app_nil_r|try lia].
  destruct (rrFill_ok r Hok) as (r1 & Hr1 & Hok1 & Hrest & Hne); [intros Hnil; rewrite Hnil in Hn; cbn in Hn; lia|].
  unfold rrRead. rewrite Hr1. cbn [rbind]. rewrite <- Hrest in *. clear Hrest Hr1 Hok r.
  destruct r1 as [o e w buf]. cbn [rr_off rr_end rr_window rr_buf] in *. unfold rr_rest in *. cbn [rr_off rr_end rr_window rr_buf] in *.
  set (tl := sub f _ _) in *. assert (Hbl : (0 < length buf)%nat) by (destruct buf; [done|cbn; lia]).
  set (p := take (Z.to_nat n) buf). assert (Hp : length p = Nat.min (Z.to_nat n) (length buf)) by (unfold p; rewrite length_take; lia).
  destruct (IH (n - len p) (acc ++ p) (mkRange o e w (drop (Z.to_nat n) buf))) as (r' & Hr' & Hrest' & Hok').
  - exact Hok1.
  - unfold rr_rest. cbn [rr_off rr_end rr_buf]. fold tl. rewrite length_app, length_drop in *. lia.
  - lia.
  - unfold rr_rest in Hr', Hrest'. cbn [rr_off rr_end rr_buf] in Hr', Hrest'. fold tl in Hr', Hrest'.
    assert (Hcat : buf ++ tl = p ++ drop (Z.to_nat n) buf ++ tl) by (unfold p; by rewrite app_assoc, take_drop).
    exists r'. rewrite Hr'. split_and!; [|rewrite Hrest'|done].
    + rewrite <- app_assoc. do 3 f_equal. rewrite Hcat.
      replace (Z.to_nat n) with (length p + Z.to_nat (n - len p))%nat at 2 by lia. by rewrite take_app_add.
    + rewrite Hcat. replace (Z.to_nat n) with (length p + Z.to_nat (n - len p))%nat at 2 by lia. by rewrite drop_app_add.
Qed.

Lemma rr_serves : serves (rrReadFull readRange) rr_rest rr_ok.
Proof. intros n r Hok Hn. unfold rrReadFull. destruct (rrLoop_ok (Z.to_nat n) n [] r Hok Hn (le_n _)) as (r' & -> & ? & ?). by exists r'. Qed.

(** ** Locating the catalog *)

Lemma small_read off n : 0 ≤ off → 0 < n ≤ 148 → off + n ≤ len f →
  ∃ d, readRange off n = Ok d ∧ n ≤ len d ∧ ∀ o k, (o + k ≤ Z.to_nat n)%nat → sub d o k = sub f (Z.to_nat off + o) k.
Proof.
  intros Ho Hn Hle. destruct (Hb off n Ho ltac:(lia) Hle) as (k & _ & Hk & ->). specialize (Hk ltac:(lia)).
  eexists. split; [reflexivity|]. split; [rewrite length_take, length_drop; lia|].
  intros o m Hm. rewrite sub_take by lia. apply sub_drop.
Qed.

Definition sectionNo (rest : bytes) (i : nat) : sectionInfo := decodeSectionIndex (sub rest (36 * i) 36).
Definition pickCatalog (s : sectionInfo) (cat : sectionInfo) : sectionInfo := if s_typ s =? sectionCatalog then s else cat.

Lemma rd_catalog_add r s : rd_catalog (addSection r s) = pickCatalog s (rd_catalog r).
Proof.
  unfold addSection, pickCatalog, sectionMetadata, sectionCatalog, sectionEntries.
  destruct (s_typ s =? 1) eqn:H1; zbool; [rewrite H1; done|]. destruct (s_typ s =? 2) eqn:H2; [done|]. by destruct (s_typ s =? 3).
Qed.

Lemma ReadFull_inv n r d r' : 0 < n → ReadFull n r = Ok (d, r') → n ≤ len r ∧ d = take (Z.to_nat n) r ∧ r' = drop (Z.to_nat n) r.
Proof.
  intros Hn. unfold ReadFull. rewrite (proj2 (Z.leb_gt _ _)) by lia. destruct r as [|x r]; [done|].
  destruct (_ <? n) eqn:Hl; [done|]. zbool. by intros [= <- <-].
Qed.

Lemma readSections_inv rest r0 r : readSections 3 rest r0 = Ok r →
  108 ≤ len rest ∧ r = addSection (addSection (addSection r0 (sectionNo rest 0)) (sectionNo rest 1)) (sectionNo rest 2).
Proof.
  cbn [readSections]. unfold sectionIndexSize.
  destruct (ReadFull 36 rest) as [[d1 r1]|] eqn:H1; [|done]. apply ReadFull_inv in H1 as (L1 & -> & ->); [|lia].
  destruct (ReadFull 36 _) as [[d2 r2]|] eqn:H2 in |- *; [|done]. apply ReadFull_inv in H2 as (L2 & -> & ->); [|lia].
  destruct (ReadFull 36 _) as [[d3 r3]|] eqn:H3 in |- *; [|done]. apply ReadFull_inv in H3 as (L3 & -> & ->); [|lia].
  rewrite !length_drop in *. intros [= <-]. split; [lia|]. unfold sectionNo, sub. rewrite !drop_drop. reflexivity.
Qed.

Lemma indexCatalog_three idx cat : 108 ≤ len idx →
  indexCatalog (E := E) idx 3 cat = Ok (pickCatalog (sectionNo idx 2) (pickCatalog (sectionNo idx 1) (pickCatalog (sectionNo idx 0) cat))).
Proof.
  intros Hl. assert (Hb36 : ∀ l : bytes, 36 ≤ len l → take 36 l ++ zeros (36 - length (take 36 l)) = sub l 0 36).
  { intros l H. rewrite length_take. replace (36 - _)%nat with 0%nat by lia. by rewrite app_nil_r, take_sub. }
  cbn [indexCatalog]. unfold sectionIndexSize. rewrite !(proj2 (Z.ltb_ge _ _)) by (rewrite ?length_drop; lia). cbn [andb].
  rewrite !Hb36 by (rewrite ?length_drop; lia). unfold sectionNo, pickCatalog. rewrite !sub_drop. reflexivity.
Qed.
End ranged_proof.

Lemma sectionNo_eq d f off i : (∀ o k, (o + k ≤ 108)%nat → sub d o k = sub f (off + o) k) → (i < 3)%nat →
  sectionNo d i = sectionNo (drop off f) i.
Proof. intros H Hi. unfold sectionNo. rewrite H by lia. by rewrite sub_drop. Qed.

Lemma locate_opened {E} (readRange : Z → Z → result E bytes) f r : backend_serves readRange f → len f < 2 ^ 63 →
  OpenDNMReader f = Ok r → le_get (sub f 20 4) = 3 →
  (s_count (rd_catalog r) = 0 ∨ i64 (i64 (s_offset (rd_catalog r)) + i64 (s_length (rd_catalog r))) ≤ len f) → 0 ≤ s_count (rd_catalog r) →
  locateCatalogRanged readRange (len f) = Ok (rd_catalog r).
Proof.
  intros Hb Hsm Ho H3 Hcat Hcnt. unfold OpenDNMReader in Ho. destruct (ReadFull fileHeaderSize f) as [[hdr rest0]|] eqn:Hh; [|done].
  apply ReadFull_inv in Hh as (Hl & -> & _); [|unfold fileHeaderSize; lia]. unfold fileHeaderSize in *. rewrite !sub_take in Ho by lia.
  unfold locateCatalogRanged, fileHeaderSize. rewrite (proj2 (Z.ltb_ge _ _)) by lia.
  destruct (small_read readRange f Hb 0 32) as (hdr & -> & Hhl & Hhs); [lia|lia|lia|]. cbn [rg_read rbind].
  rewrite (proj2 (Z.ltb_ge (len hdr) 32)) by lia. rewrite !Hhs by lia. change (Z.to_nat 0) with 0%nat. cbn [Nat.add orb]. cbv zeta in *.
  destruct (bool_decide (sub f 0 8 = dnmMagic)) eqn:Hm; cbn [negb] in *; [|done].
  destruct (le_get (sub f 8 2) =? dnmVersion) eqn:Hv; cbn [negb] in *; [|done]. rewrite H3 in *.
  apply rbind_Ok_inv in Ho as (off & Hoff & Ho).
  assert (Heq : (if le_get (sub f 12 8) =? 0 then
        let! tr := rg_read (readRange (len f - 8) 8) in
        if len tr <? 8 then Err RgPanic else
        if negb (le_get (take 8 tr) =? u64 (len f - 8 - 3 * sectionIndexSize)) then Err RgTrailer else Ok (le_get (take 8 tr))
      else Ok (le_get (sub f 12 8))) = Ok (E := ranged_err E) off).
  { destruct (_ =? 0); [|injection Hoff as <-; done].
    destruct (small_read readRange f Hb (len f - 8) 8) as (tr & -> & Htl & Hts); [lia|lia|lia|]. cbn [rg_read rbind].
    rewrite (proj2 (Z.ltb_ge (len tr) 8)) by lia. rewrite (take_sub tr 8), Hts by lia.
    rewrite ReadAt_sub in Hoff by lia. rewrite Nat.add_0_r. change (Z.to_nat 8) with 8%nat in Hoff.
    destruct (negb _); [done|]. injection Hoff as ->. done. }
  rewrite Heq. cbn [rbind]. apply rbind_Ok_inv in Ho as (rest & Hseek & Ho). unfold SeekTo in Hseek.
  destruct (i64 off <? 0) eqn:Hneg; [done|]. injection Hseek as <-. zbool.
  apply readSections_inv in Ho as (Hlr & Hr). rewrite length_drop in Hlr. unfold sectionIndexSize.
  assert (Hi : i64 (i64 off + 3 * 36) = i64 off + 108) by (apply i64_id; unfold is_i64; lia).
  rewrite Hi, (proj2 (Z.ltb_ge _ _)) by lia.
  destruct (small_read readRange f Hb (i64 off) (3 * 36)) as (idx & -> & Hil & His); [lia|lia|lia|]. cbn [rg_read rbind].
  change (Z.to_nat 3) with 3%nat. rewrite indexCatalog_three by lia. cbn [rbind].
  assert (Hpick : pickCatalog (sectionNo idx 2) (pickCatalog (sectionNo idx 1) (pickCatalog (sectionNo idx 0) noSection)) = rd_catalog r).
  { rewrite Hr, !rd_catalog_add. rewrite !(sectionNo_eq idx f (Z.to_nat (i64 off))) by (done || lia). done. }
  rewrite Hpick. destruct (0 <? _) eqn:Hc; cbn [andb]; [|done]. zbool. rewrite (proj2 (Z.ltb_ge _ _)) by lia. done.
Qed.

(** Reading the catalog of a .dnm object through ranged reads: over any backend that
    serves the object's bytes, short or over-long, the visitor sees exactly the records
    and the stop it would see on a local file. *)
Theorem ranged_catalog_same {E V} (readRange : Z → Z → result E bytes) (visit : V → FileEntry → V * bool) v f r b fes ents :
  backend_serves readRange f → OpenDNMReader f = Ok r → rd_f r = f → le_get (sub f 20 4) = 3 → dnm_holds r b fes ents →
  StreamCatalogRanged readRange (len f) visit v = (foldVisit visit v (storedFile <$> fes), None) ∧
  StreamCatalog r visit v = (foldVisit visit v (storedFile <$> fes), None).
Proof.
  intros Hb Ho Hf H3 Hh. pose proof (dh_small _ _ _ _ Hh) as Hsm. rewrite Hf in Hsm.
  pose proof (dh_catCount _ _ _ _ Hh) as Hc. pose proof (dh_cat _ _ _ _ Hh) as Hcat. rewrite Hf in Hcat.
  destruct Hcat as (pre & post & Heq & Hso & Hsl). pose proof (f_equal length Heq) as Hlen. rewrite !length_app in Hlen.
  assert (Hend : i64 (i64 (s_offset (rd_catalog r)) + i64 (s_length (rd_catalog r))) = len pre + len (catalogBytes fes)).
  { rewrite Hso, Hsl, !(i64_id (Z.of_nat _)) by (unfold is_i64; lia). apply i64_id. unfold is_i64. lia. }
  split.
  - unfold StreamCatalogRanged. rewrite (locate_opened readRange f r) by (done || lia). rewrite Hc.
    destruct (_ =? 0) eqn:H0; zbool; [by destruct fes|]. rewrite Nat2Z.id, Hend.
    rewrite (visit_served _ (rr_rest f) (rr_ok f) visit fes []); [done|by apply rr_serves|apply (dh_files _ _ _ _ Hh)| |].
    + unfold rr_ok. cbn [rr_off rr_end rr_window]. rewrite Hso, i64_id by (unfold is_i64; lia).
      split_and!; [lia|lia|lia|]. reflexivity.
    + unfold rr_rest. cbn [rr_off rr_end rr_buf app]. rewrite Hso, i64_id by (unfold is_i64; lia). rewrite app_nil_r.
      rewrite Heq. rewrite sub_app_skip by lia. rewrite Nat2Z.id, Nat.sub_diag. apply sub_app_here. lia.
  - unfold StreamCatalog. rewrite Hc. destruct (_ =? 0) eqn:H0; zbool; [by destruct fes|]. rewrite Hf.
    destruct (section_seek f (rd_catalog r) (catalogBytes fes) Hsm) as [post' ->]; [by exists pre, post|].
    rewrite Nat2Z.id. by rewrite (visit_served _ id (λ _, True) visit fes post') by (done || apply ReadFull_serves || apply (dh_files _ _ _ _ Hh)).
Qed.

(** A backend that cuts large reads to 50 bytes and serves small ones with 7 bytes to spare. *)
Definition sampleObject : bytes :=
  match writeDNM sampleBackup (Some (entryBytes sampleEntries)) (λ _, None) with Ok f => f | Err _ => [] end.
Definition sampleBackend (off n : Z) : result unit bytes :=
  Ok (take (Z.to_nat (if n <=? 148 then n + 7 else 50)) (drop (Z.to_nat off) sampleObject)).

Lemma ranged_catalog_same_witness :
  StreamCatalogRanged sampleBackend (len sampleObject) (λ seen fe, (seen ++ [fe], true)) [] = ([sampleFile], None).
Proof.
  destruct (writeDNM_holds sampleBackup (Some (entryBytes sampleEntries)) (λ _, None) [sampleFile] sampleEntries)
    as (f & r & Hw & Ho & Hf & Hh).
  - unfold counts_fit. cbn. lia.
  - repeat constructor.
  - repeat constructor.
  - right. left. done.
  - left. done.
  - vm_compute. reflexivity.
  - assert (Hs : f = sampleObject) by (unfold sampleObject; by rewrite Hw). rewrite Hs in Ho, Hf.
    refine (proj1 (ranged_catalog_same sampleBackend _ [] sampleObject r sampleBackup [sampleFile] sampleEntries _ Ho Hf _ Hh)).
    + intros off n H1 H2 H3. eexists. split; [|split; [|reflexivity]]; destruct (n <=? 148) eqn:Hn; zbool; lia.
    + vm_compute. reflexivity.
Defined.
