(* ===== verification/GoFiles.v ===== *)
(** * Directories, file names and decimal text

    What the engine uses of [os], [path/filepath], [strings] and [strconv] on file
    names: a flat directory maps names to contents, a name is a byte string without a
    path separator, and a missing file is the only failure. *)

From S2P Require Import Prelude GoBytes.

Abbreviation name := bytes.
Abbreviation files := (gmap name bytes).

(** ** Names *)

Definition HasSuffix (s suf : bytes) : bool := bool_decide (suf `suffix_of` s).
Definition HasPrefix (s pre : bytes) : bool := bool_decide (pre `prefix_of` s).
Definition TrimSuffix (s suf : bytes) : bytes := if HasSuffix s suf then take (length s - length suf) s else s.

(** ** Directories *)

(** A directory; [None] before it is made. *)
Definition dir : Type := option files.
Definition stat (d : dir) (n : name) : option bytes := d ≫= (.!! n).
Definition remove (d : dir) (n : name) : dir := delete n <$> d.
Definition create (d : dir) (n : name) (data : bytes) : dir := Some (<[n := data]> (default ∅ d)).
Definition rename (d : dir) (a b : name) : dir :=
  match stat d a with Some data => create (remove d a) b data | None => d end.

(** [os.ReadDir] lists the names in byte order. *)
Fixpoint bytes_leb (a b : bytes) : bool :=
  match a, b with
  | [], _ => true
  | _ :: _, [] => false
  | x :: a, y :: b => if x =? y then bytes_leb a b else x <? y
  end.
Definition name_le (a b : name) : Prop := bytes_leb a b = true.
#[export] Instance name_le_dec : RelDecision name_le.
Proof. intros a b. unfold name_le. apply _. Defined.
Definition ReadDir (d : files) : list name := merge_sort name_le (elements (dom d)).

(** ** Decimal numbers *)

(** [strconv.ParseUint(s, 10, 32)] *)
Fixpoint parseDigits (acc : Z) (s : bytes) : option Z :=
  match s with
  | [] => Some acc
  | c :: s =>
      if (48 <=? c) && (c <=? 57) then
        let acc := acc * 10 + (c - 48) in
        if acc <? 2 ^ 32 then parseDigits acc s else None
      else None
  end.
Definition ParseUint32 (s : bytes) : option Z := match s with [] => None | _ => parseDigits 0 s end.

(** Decimal digits of a number below [10 ^ fuel]. *)
Fixpoint decimal (fuel : nat) (n : Z) : bytes :=
  match fuel with
  | O => []
  | S fuel => if n <? 10 then [48 + n] else decimal fuel (n / 10) ++ [48 + n mod 10]
  end.
(** [%04d] of a 32-bit number *)
Definition pad4 (n : Z) : bytes := let d := decimal 10 n in replicate (4 - length d) 48 ++ d.

(** ** Lemmas *)

Lemma HasSuffix_iff s suf : HasSuffix s suf = true ↔ ∃ p, s = p ++ suf.
Proof. unfold HasSuffix. rewrite bool_decide_eq_true. done. Qed.

Lemma HasSuffix_app p suf : HasSuffix (p ++ suf) suf = true.
Proof. apply HasSuffix_iff. by exists p. Qed.

Lemma TrimSuffix_app p suf : TrimSuffix (p ++ suf) suf = p.
Proof. unfold TrimSuffix. rewrite HasSuffix_app, length_app. apply take_app_exact. lia. Qed.

Lemma last_tail (p s : bytes) (x : Z) : last s = Some x → last (p ++ s) = Some x.
Proof.
  intros H. destruct s as [|y s _] using rev_ind; [done|]. rewrite last_snoc in H. by rewrite app_assoc, last_snoc.
Qed.
Lemma suffix_inj (p q suf : bytes) : p ++ suf = q ++ suf → p = q.
Proof. apply app_inv_tail. Qed.

Lemma elem_of_ReadDir fs n : n ∈ ReadDir fs ↔ is_Some (fs !! n).
Proof. unfold ReadDir. rewrite merge_sort_Permutation, elem_of_elements. apply elem_of_dom. Qed.

Lemma NoDup_ReadDir fs : NoDup (ReadDir fs).
Proof. unfold ReadDir. rewrite merge_sort_Permutation. apply NoDup_elements. Qed.

Lemma stat_create d n data m : stat (create d n data) m = if decide (n = m) then Some data else stat d m.
Proof.
  unfold stat, create. cbn [mbind option_bind]. rewrite lookup_insert. case_decide; [done|]. by destruct d.
Qed.
Lemma stat_remove d n m : stat (remove d n) m = if decide (n = m) then None else stat d m.
Proof.
  unfold stat, remove. destruct d as [fs|]; cbn; [|by case_decide]. rewrite lookup_delete. done.
Qed.
Lemma stat_rename d a b m : stat (rename d a b) m =
  match stat d a with
  | None => stat d m
  | Some data => if decide (b = m) then Some data else if decide (a = m) then None else stat d m
  end.
Proof. unfold rename. destruct (stat d a) as [data|]; [|done]. by rewrite stat_create, stat_remove. Qed.
Lemma stat_default d m : stat (Some (default ∅ d)) m = stat d m.
Proof. destruct d; [done|]. unfold stat. cbn. apply lookup_empty. Qed.

Lemma parseDigits_app a s t : parseDigits a (s ++ t) = parseDigits a s ≫= λ v, parseDigits v t.
Proof.
  revert a. induction s as [|c s IH]; intros a; [done|]. cbn [app parseDigits].
  destruct (_ && _); [|done]. destruct (_ <? _); [apply IH|done].
Qed.

Lemma parseDigits_digit a d : 0 ≤ d < 10 → a * 10 + d < 2 ^ 32 → parseDigits a [48 + d] = Some (a * 10 + d).
Proof.
  intros. cbn [parseDigits]. replace (48 + d - 48) with d by lia.
  rewrite (proj2 (Z.leb_le 48 _)), (proj2 (Z.leb_le _ 57)), (proj2 (Z.ltb_lt _ _)) by lia. done.
Qed.

Lemma parse_decimal fuel n : 0 ≤ n < 10 ^ Z.of_nat fuel → n < 2 ^ 32 → parseDigits 0 (decimal fuel n) = Some n.
Proof.
  revert n. induction fuel as [|fuel IH]; intros n Hn Hs; [cbn in Hn; cbn; f_equal; lia|]. cbn [decimal].
  destruct (n <? 10) eqn:H1; zbool; [rewrite parseDigits_digit by lia; f_equal; lia|].
  rewrite Nat2Z.inj_succ, Z.pow_succ_r in Hn by lia. pose proof (Z_div_mod_eq_full n 10). pose proof (Z.mod_pos_bound n 10).
  rewrite parseDigits_app, IH by (try apply Z.div_lt_upper_bound; try split; try apply Z.div_pos; lia). cbn [mbind option_bind].
  rewrite parseDigits_digit by lia. f_equal. lia.
Qed.

Lemma parse_zeros k s : parseDigits 0 (replicate k 48 ++ s) = parseDigits 0 s.
Proof. induction k as [|k IH]; [done|]. exact IH. Qed.

Lemma decimal_nonempty n : decimal 10 n ≠ [].
Proof. change 10%nat with (S 9). cbn [decimal]. destruct (n <? 10); [done|]. by intros [_ ?]%app_nil. Qed.

Lemma ParseUint32_pad4 n : is_u32 n → ParseUint32 (pad4 n) = Some n.
Proof.
  intros Hn. unfold is_u32 in Hn. unfold ParseUint32. destruct (pad4 n) eqn:He.
  - unfold pad4 in He. apply app_nil in He as [_ He]. by destruct (decimal_nonempty n).
  - rewrite <- He. unfold pad4. rewrite parse_zeros. apply parse_decimal; [|lia]. change (10 ^ Z.of_nat 10) with 10000000000. lia.
Qed.

Lemma parseDigits_range s a n : 0 ≤ a → parseDigits a s = Some n → s = [] ∧ n = a ∨ is_u32 n.
Proof.
  revert a. induction s as [|c s IH]; intros a Ha; cbn [parseDigits]; [intros [= ->]; by left|].
  destruct (_ && _) eqn:Hc; [|done]. zbool. destruct (_ <? _) eqn:Hl; [|done]. zbool. intros Hs.
  right. apply IH in Hs as [[_ ->]|Hs]; [unfold is_u32; lia|done|lia].
Qed.
Lemma ParseUint32_range s n : ParseUint32 s = Some n → is_u32 n.
Proof. unfold ParseUint32. destruct s; [done|]. intros [[? _]|?]%parseDigits_range; [done|done|lia]. Qed.
