(* ===== verification/Machine.v ===== *)
(** * core/disklayout/machine.go: machine manifests on disk

    A machine manifest is saved under a temporary name and renamed, in an envelope that
    carries the checksum of its body; loading checks the envelope, the checksum and the
    manifest.  [encoding/json] is a parameter: what it makes of a manifest and of an
    envelope, and what it reads from bytes. *)

From S2P Require Import Prelude GoBytes Hashes DiskLayout Mbr GoFiles.

(** The time is in nanoseconds. *)
Record MachineManifest := mkMachine {
  mm_Version : Z; mm_MachineID : string; mm_Hostname : string; mm_OS : string; mm_CreatedAt : Z; mm_Disks : list DiskCapture }.
Definition machineManifestVersion : Z := 1.
Definition versioned (m : MachineManifest) : MachineManifest :=
  mkMachine machineManifestVersion (mm_MachineID m) (mm_Hostname m) (mm_OS m) (mm_CreatedAt m) (mm_Disks m).

Class MachineJSON := {
  marshalMachine : MachineManifest → bytes; unmarshalMachine : bytes → option MachineManifest;
  marshalEnvelope : bytes → Z → bytes; unmarshalEnvelope : bytes → option (bytes * Z) }.

Inductive machine_load_err := MlNoFile | MlEnvelope | MlCRC | MlBody | MlInvalid (e : machine_err).

(** [.machine.json] and [.tmp-] *)
Definition sMachine : bytes := [46; 109; 97; 99; 104; 105; 110; 101; 46; 106; 115; 111; 110].
Definition sTmp : bytes := [46; 116; 109; 112; 45].
Definition MachineManifestPath (snapshotID : bytes) : name := snapshotID ++ sMachine.

Section machine.
Context {MJ : MachineJSON}.

Definition machineValid (m : MachineManifest) : result machine_load_err unit :=
  match validate (mm_Disks m) with Ok u => Ok u | Err e => Err (MlInvalid e) end.

Definition MarshalMachineManifest (m : MachineManifest) : result machine_load_err bytes :=
  let m := versioned m in
  let! _ := machineValid m in
  let body := marshalMachine m in Ok (marshalEnvelope body (ChecksumIEEE body)).

Definition UnmarshalMachineManifest (data : bytes) : result machine_load_err MachineManifest :=
  let! env := of_option MlEnvelope (unmarshalEnvelope data) in
  if negb (ChecksumIEEE env.1 =? env.2) then Err MlCRC
  else
    let! m := of_option MlBody (unmarshalMachine env.1) in
    let! _ := machineValid m in Ok m.

(** [random] is what [os.CreateTemp] puts in place of the star. *)
Definition SaveMachineManifest (d : dir) (random snapshotID : bytes) (m : MachineManifest) : result machine_load_err dir :=
  let! data := MarshalMachineManifest m in
  let path := MachineManifestPath snapshotID in
  let tmp := path ++ sTmp ++ random in
  Ok (rename (create d tmp data) tmp path).

Definition LoadMachineManifest (d : dir) (snapshotID : bytes) : result machine_load_err MachineManifest :=
  let! data := of_option MlNoFile (stat d (MachineManifestPath snapshotID)) in UnmarshalMachineManifest data.

Definition ListMachineManifests (d : dir) : list bytes :=
  (λ n, take (length n - length sMachine) n) <$> filter (λ n, HasSuffix n sMachine = true) (ReadDir (default ∅ d)).

(** ** Properties *)

Lemma elem_of_ListMachineManifests d id : id ∈ ListMachineManifests d ↔ is_Some (stat d (MachineManifestPath id)).
Proof.
  unfold ListMachineManifests, MachineManifestPath. rewrite list_elem_of_fmap. split.
  - intros (n & -> & [Hs Hn]%list_elem_of_filter). apply elem_of_ReadDir in Hn. apply bool_decide_eq_true_1 in Hs as [k ->].
    rewrite length_app, Nat.add_sub, take_app_length. by destruct d.
  - intros Hs. exists (id ++ sMachine). rewrite length_app, Nat.add_sub, take_app_length. split; [done|]. apply list_elem_of_filter.
    split; [apply bool_decide_eq_true_2; by exists id|]. apply elem_of_ReadDir. destruct d; [done|by destruct Hs].
Qed.

(** What a save leaves under every name: the manifest's file, and nothing under the temporary name. *)
Lemma SaveMachineManifest_stat d random id m d' : SaveMachineManifest d random id m = Ok d' → ∃ data, MarshalMachineManifest m = Ok data ∧
  ∀ n, stat d' n = if decide (n = MachineManifestPath id) then Some data
                   else if decide (n = MachineManifestPath id ++ sTmp ++ random) then None else stat d n.
Proof.
  unfold SaveMachineManifest. intros (data & Hm & [= <-])%rbind_Ok_inv. exists data. split; [done|]. intros n.
  set (path := MachineManifestPath id). set (tmp := path ++ sTmp ++ random).
  change (rename _ _ _) with (rename (create d tmp data) tmp path). unfold rename.
  assert (Hs : stat (create d tmp data) tmp = Some data) by (cbn; by rewrite lookup_insert_eq). rewrite Hs. cbn.
  case_decide as H1; [subst n; by rewrite lookup_insert_eq|]. rewrite lookup_insert_ne by done. case_decide as H2; [subst n; by rewrite lookup_delete_eq|].
  rewrite lookup_delete_ne, lookup_insert_ne by done. by destruct d.
Qed.

(** A machine manifest that was saved loads back as saved, with the format's version, and is
    listed; one that does not validate is never written, and whatever loads validates.  Other
    snapshots load as before. *)
Theorem machine_save_load d random id m d' : SaveMachineManifest d random id m = Ok d' →
  unmarshalMachine (marshalMachine (versioned m)) = Some (versioned m) →
  unmarshalEnvelope (marshalEnvelope (marshalMachine (versioned m)) (ChecksumIEEE (marshalMachine (versioned m)))) =
    Some (marshalMachine (versioned m), ChecksumIEEE (marshalMachine (versioned m))) →
  LoadMachineManifest d' id = Ok (versioned m) ∧ id ∈ ListMachineManifests d' ∧ Forall capture_ok (mm_Disks m) ∧
  ∀ other, MachineManifestPath other ≠ MachineManifestPath id ++ sTmp ++ random → other ≠ id →
    LoadMachineManifest d' other = LoadMachineManifest d other ∧ (other ∈ ListMachineManifests d' ↔ other ∈ ListMachineManifests d).
Proof.
  intros (data & Hm & Hstat)%SaveMachineManifest_stat Hj He. unfold MarshalMachineManifest in Hm. apply rbind_Ok_inv in Hm as ([] & Hv & [= <-]).
  assert (Hval : validate (mm_Disks m) = Ok tt). { unfold machineValid in Hv. cbn in Hv. by destruct (validate (mm_Disks m)) as [[]|]. }
  split_and!.
  - unfold LoadMachineManifest. rewrite Hstat, decide_True by done. cbn [of_option rbind]. unfold UnmarshalMachineManifest. rewrite He. cbn [of_option rbind fst snd].
    rewrite Z.eqb_refl. cbn [negb]. rewrite Hj. cbn [of_option rbind]. by rewrite Hv.
  - apply elem_of_ListMachineManifests. rewrite Hstat, decide_True by done. done.
  - by apply machine_validate_iff in Hval as [_ Hc].
  - intros other Hne1 Hne2. assert (Hs : stat d' (MachineManifestPath other) = stat d (MachineManifestPath other)).
    { rewrite Hstat, !decide_False; [done|done|]. unfold MachineManifestPath. intros Heq%app_inj_2; [|done]. by destruct Heq. }
    split; [unfold LoadMachineManifest; by rewrite Hs|]. by rewrite !elem_of_ListMachineManifests, Hs.
Qed.
End machine.
