(* ===== verification/ManifestRepo.v ===== *)
(** * core/manifest: the manifests directory (manifest.go, manifest_meta.go, migrate.go, repair.go)

    The directory maps file names to contents.  Names and ids are byte strings without a
    path separator.  A legacy JSON manifest is read by [parseJSON], an argument; so is
    the content of a catalog sidecar elsewhere on disk.  The only file-system failure is
    a missing file. *)

From S2P Require Import Prelude GoBytes GoRuntime GoFiles Dnm DnmFile DnmAccess.

Definition sDnm : bytes := [46; 100; 110; 109].
Definition sManifest : bytes := [46; 109; 97; 110; 105; 102; 101; 115; 116].
Definition sEntries : bytes := [46; 101; 110; 116; 114; 105; 101; 115].
Definition sBak : bytes := [46; 98; 97; 107].

Definition DNMPath (id : bytes) : name := id ++ sDnm.
Definition ManifestPath (id : bytes) : name := id ++ sManifest.
Definition EntriesPath (id : bytes) : name := id ++ sEntries.

Inductive repo_err :=
| ReNoDir | ReNoManifest | ReParse | ReEntries (e : rd_err) | ReDnm (e : dnm_err) | ReNotFound | ReNoMatch
| ReAmbiguous (n : Z) | ReLength | ReShort.

(** ** Entry sidecars *)

(** [EntryWriter]: the file it appends to. *)
Definition OpenEntryWriter (d : dir) (id : bytes) : dir := create d (EntriesPath id) [].
Definition EntryWriter_WriteEntry (d : dir) (id : bytes) (e : Entry) : dir :=
  create d (EntriesPath id) (default [] (stat d (EntriesPath id)) ++ encodeEntryRecord e).
Definition EntryWriter_Len (d : dir) (id : bytes) : Z := len (default [] (stat d (EntriesPath id))).

Definition OpenEntryWriterResume (d : dir) (id : bytes) (wantLen : Z) : result repo_err dir :=
  if (wantLen <? 0) || negb (Z.rem wantLen EntryRecordSize =? 0) then Err ReLength
  else match stat d (EntriesPath id) with
       | None => Err ReNotFound
       | Some f => if len f <? wantLen then Err ReShort else Ok (create d (EntriesPath id) (Truncate f wantLen))
       end.

Definition WriteEntries (d : dir) (id : bytes) (es : list Entry) : dir :=
  foldl (λ d e, EntryWriter_WriteEntry d id e) (OpenEntryWriter d id) es.

(** Records until a clean end; fuel above the length is enough. *)
Fixpoint readEntriesLoop (fuel : nat) (f : bytes) : result repo_err (list Entry) :=
  match fuel with
  | O => Ok []
  | S fuel => match ReadFull EntryRecordSize f with
              | Err EOF => Ok []
              | Err e => Err (ReEntries e)
              | Ok (buf, f) => let! es := readEntriesLoop fuel f in Ok (decodeEntryRecord buf :: es)
              end
  end.
Definition ReadEntries (d : dir) (id : bytes) : result repo_err (list Entry) :=
  match stat d (EntriesPath id) with
  | None => Ok []
  | Some f => readEntriesLoop (S (length f)) f
  end.

(** ** Ids *)

Definition idOf (n : name) : option bytes :=
  if HasSuffix n sDnm then Some (TrimSuffix n sDnm)
  else if HasSuffix n sManifest && negb (HasSuffix n (sManifest ++ sBak)) then Some (TrimSuffix n sManifest)
  else None.

(** First occurrences, in listing order. *)
Fixpoint uniqueIDs (names : list name) (seen : gset bytes) : list bytes :=
  match names with
  | [] => []
  | n :: names =>
      match idOf n with
      | None => uniqueIDs names seen
      | Some id => if bool_decide (id ∈ seen) then uniqueIDs names seen else id :: uniqueIDs names ({[id]} ∪ seen)
      end
  end.

Definition ListIDs (d : dir) : list bytes :=
  match d with None => [] | Some fs => uniqueIDs (ReadDir fs) ∅ end.

Definition ResolveID (d : dir) (partialID : bytes) : result repo_err bytes :=
  match d with
  | None => Err ReNoDir
  | Some fs =>
      match filter (λ id, HasPrefix id partialID = true) (uniqueIDs (ReadDir fs) ∅) with
      | [] => Err ReNoMatch
      | [id] => Ok id
      | ids => Err (ReAmbiguous (len ids))
      end
  end.

(** ** Saving, loading, deleting *)

Section repo.
Context `{!SortSlice}.
Context (parseJSON : bytes → option Backup) (sidecarFile : bytes → option bytes).

(** [saveDNM]: written to a temporary name, then renamed over the final one. *)
Definition saveDNM (d : dir) (b : Backup) : result dnm_err dir :=
  let! f := writeDNM b (stat d (EntriesPath (BackupID b))) sidecarFile in
  let tmp := DNMPath (BackupID b) ++ [46; 116; 109; 112] in
  Ok (rename (create d tmp f) tmp (DNMPath (BackupID b))).

Definition Save (d : dir) (b : Backup) : result repo_err dir :=
  let d := Some (default ∅ d) in
  match saveDNM d b with
  | Err e => Err (ReDnm e)
  | Ok d => Ok (remove d (EntriesPath (BackupID b)))
  end.

Definition re_dnm {A} (m : result dnm_err A) : result repo_err A := match m with Ok a => Ok a | Err e => Err (ReDnm e) end.

Definition readJSON (d : dir) (id : bytes) : result repo_err Backup :=
  let! data := of_option ReNoManifest (stat d (ManifestPath id)) in of_option ReParse (parseJSON data).

Definition Load (d : dir) (id : bytes) : result repo_err Backup :=
  match stat d (DNMPath id) with
  | Some f => re_dnm (loadDNM f)
  | None =>
      let! b := readJSON d id in
      match Entries b with
      | [] => let! es := ReadEntries d id in Ok (withEntries b es)
      | _ => Ok b
      end
  end.

Definition LoadCatalog (d : dir) (id : bytes) : result repo_err Backup :=
  match stat d (DNMPath id) with
  | Some f => re_dnm (loadCatalogDNM f)
  | None => let! b := readJSON d id in Ok (withEntries b [])
  end.

Definition LoadForBlockRestore (d : dir) (id : bytes) : result repo_err Backup :=
  match stat d (DNMPath id) with
  | None => Load d id
  | Some f => re_dnm (loadBlockDNM f)
  end.

Definition LoadMetadata (d : dir) (id : bytes) : result repo_err Backup :=
  match stat d (DNMPath id) with
  | Some f => match OpenDNMReader f with
              | Ok r => re_dnm (readMetadata r)
              | Err _ => let! b := Load d id in Ok (withEntries b [])
              end
  | None => let! b := Load d id in Ok (withEntries b [])
  end.

Definition NewEntryAccessor (d : dir) (id : bytes) : result repo_err EntryAccessor :=
  match stat d (DNMPath id) with
  | Some f => let! r := re_dnm (OpenDNMReader f) in Ok (NewDNMEntryAccessor r)
  | None => let! es := ReadEntries d id in Ok (NewSliceEntryAccessor es)
  end.

Definition withCount (b : Backup) (n : Z) : Backup :=
  mkBackup (BackupID b) (Timestamp b) (SourceVolume b) (SectorSize b) (ClusterSize b) (TotalBytes b) (Entries b)
    (ParentBackupID b) (BackupType b) (TotalChunks b) (UniqueChunks b) (DedupChunks b) (RawBytes b) (StoredBytes b)
    (DedupRatio b) (CompRatio b) (Duration b) (ContentDigest b) (ContentDigestCovers b) (ExcludePaths b)
    (ExcludeWarnings b) (ChangedChunks b) (UnchangedChunks b) (BackupMode b) (SourcePaths b) (FileCatalog b)
    (CatalogSidecarPath b) n (WrappedDEK b).

(** One listed backup; unreadable ones are skipped. *)
Definition listOne (d : dir) (id : bytes) : option Backup :=
  match stat d (DNMPath id) with
  | Some f => match OpenDNMReader f with
              | Ok r => match readMetadata r with Ok b => Some (withCount b (r_CatalogCount r)) | Err _ => None end
              | Err _ => None
              end
  | None => match readJSON d id with Ok b => Some (withCount b (len (FileCatalog b))) | Err _ => None end
  end.

(** The zero time is year 1. *)
Definition timeKey (b : Backup) : Z := default (- 62135596800 * 10 ^ 9) (Timestamp b).
Definition ListBackups (d : dir) : list Backup :=
  match d with None => [] | Some fs => sortSlice timeKey (omap (listOne d) (uniqueIDs (ReadDir fs) ∅)) end.

Definition Delete (d : dir) (id : bytes) : result repo_err dir :=
  match stat d (DNMPath id), stat d (ManifestPath id) with
  | None, None => Err ReNotFound
  | _, _ => Ok (remove (remove (remove d (DNMPath id)) (ManifestPath id)) (EntriesPath id))
  end.

Definition Get (d : dir) (partialID : bytes) : result repo_err Backup :=
  let! id := ResolveID d partialID in Load d id.

(** ** migrate.go *)

Inductive migrated := Converted | Skipped | Failed.

Definition migrateOne (dryRun : bool) (d : dir) (id : bytes) : dir * migrated :=
  match stat d (DNMPath id) with
  | Some _ => (d, Skipped)
  | None =>
      match Load d id with
      | Err _ => (d, Failed)
      | Ok b =>
          if dryRun then (d, Converted)
          else match saveDNM d b with
               | Err _ => (d, Failed)
               | Ok d1 =>
                   match stat d1 (DNMPath id) with
                   | None => (d1, Failed)
                   | Some f =>
                       match (let! r := OpenDNMReader f in readMetadata r) with
                       | Err _ => (remove d1 (DNMPath id), Failed)
                       | Ok meta =>
                           if negb (bool_decide (BackupID meta = id)) then (remove d1 (DNMPath id), Failed)
                           else (rename (rename d1 (ManifestPath id) (ManifestPath id ++ sBak)) (EntriesPath id) (EntriesPath id ++ sBak),
                                 Converted)
                       end
                   end
               end
      end
  end.

Fixpoint migrateLoop (dryRun : bool) (names : list name) (d : dir) (converted skipped failed : Z) : dir * Z * Z * Z :=
  match names with
  | [] => (d, converted, skipped, failed)
  | n :: names =>
      if negb (HasSuffix n sManifest) || HasSuffix n (sManifest ++ sBak) then migrateLoop dryRun names d converted skipped failed
      else match migrateOne dryRun d (TrimSuffix n sManifest) with
           | (d, Converted) => migrateLoop dryRun names d (converted + 1) skipped failed
           | (d, Skipped) => migrateLoop dryRun names d converted (skipped + 1) failed
           | (d, Failed) => migrateLoop dryRun names d converted skipped (failed + 1)
           end
  end.

Definition Migrate (d : dir) (dryRun : bool) : dir * Z * Z * Z :=
  match d with None => (d, 0, 0, 0) | Some fs => migrateLoop dryRun (ReadDir fs) d 0 0 0 end.

(** ** repair.go *)

Fixpoint isSorted (es : list Entry) : bool :=
  match es with
  | a :: (b :: _) as es' => if VolumeOffset b <? VolumeOffset a then false else isSorted es'
  | _ => true
  end.

Definition repairOne (dryRun : bool) (d : dir) (id : bytes) : dir * migrated :=
  match Load d id with
  | Err _ => (d, Failed)
  | Ok b =>
      if isSorted (Entries b) then
        match stat d (EntriesPath id), stat d (DNMPath id) with
        | Some _, Some _ => (if dryRun then d else remove d (EntriesPath id), Skipped)
        | _, _ => (d, Skipped)
        end
      else if dryRun then (d, Converted)
      else match Save d (withEntries b (sortSlice VolumeOffset (Entries b))) with
           | Err _ => (d, Failed)
           | Ok d => (d, Converted)
           end
  end.

Fixpoint repairLoop (dryRun : bool) (ids : list bytes) (d : dir) (repaired skipped failed : Z) : dir * Z * Z * Z :=
  match ids with
  | [] => (d, repaired, skipped, failed)
  | id :: ids =>
      match repairOne dryRun d id with
      | (d, Converted) => repairLoop dryRun ids d (repaired + 1) skipped failed
      | (d, Skipped) => repairLoop dryRun ids d repaired (skipped + 1) failed
      | (d, Failed) => repairLoop dryRun ids d repaired skipped (failed + 1)
      end
  end.

Definition RepairEntries (d : dir) (backupIDs : list bytes) (dryRun : bool) : dir * Z * Z * Z :=
  let ids := match backupIDs with [] => BackupID <$> ListBackups d | _ => backupIDs end in
  repairLoop dryRun ids d 0 0 0.
End repo.

(** ** Names *)

(** Two names with different last bytes are different. *)
Definition tmpPath (id : bytes) : name := DNMPath id ++ [46; 116; 109; 112].
Lemma last_paths id : last (DNMPath id) = Some 109 ∧ last (ManifestPath id) = Some 116 ∧ last (EntriesPath id) = Some 115 ∧
  last (tmpPath id) = Some 112 ∧ ∀ n : name, last (n ++ sBak) = Some 107.
Proof. split_and!; [by apply last_tail..|]. intros n. by apply last_tail. Qed.

Ltac by_last :=
  let H := fresh in intros H; apply (f_equal last) in H;
  repeat match type of H with
         | context [last (DNMPath ?p)] => rewrite (proj1 (last_paths p)) in H
         | context [last (ManifestPath ?p)] => rewrite (proj1 (proj2 (last_paths p))) in H
         | context [last (EntriesPath ?p)] => rewrite (proj1 (proj2 (proj2 (last_paths p)))) in H
         | context [last (tmpPath ?p)] => rewrite (proj1 (proj2 (proj2 (proj2 (last_paths p))))) in H
         | context [last (?n ++ sBak)] => rewrite (proj2 (proj2 (proj2 (proj2 (last_paths []))))) in H
         end; discriminate H.

Lemma dnm_ne_manifest p q : DNMPath p ≠ ManifestPath q.
Proof. by_last. Qed.
Lemma dnm_ne_entries p q : DNMPath p ≠ EntriesPath q.
Proof. by_last. Qed.
Lemma manifest_ne_entries p q : ManifestPath p ≠ EntriesPath q.
Proof. by_last. Qed.
Lemma tmp_ne_dnm p q : tmpPath p ≠ DNMPath q.
Proof. by_last. Qed.
Lemma tmp_ne_manifest p q : tmpPath p ≠ ManifestPath q.
Proof. by_last. Qed.
Lemma tmp_ne_entries p q : tmpPath p ≠ EntriesPath q.
Proof. by_last. Qed.
Lemma bak_ne (n : name) m : n ++ sBak ≠ DNMPath m ∧ n ++ sBak ≠ ManifestPath m ∧ n ++ sBak ≠ EntriesPath m.
Proof. split_and!; by_last. Qed.
Create HintDb names.
#[export] Hint Resolve dnm_ne_manifest dnm_ne_entries manifest_ne_entries tmp_ne_dnm tmp_ne_manifest tmp_ne_entries : names.
#[export] Hint Extern 1 (_ ≠ _) => apply not_eq_sym; auto with names; fail : names.

Lemma idOf_iff n id : idOf n = Some id ↔ n = DNMPath id ∨ n = ManifestPath id.
Proof.
  unfold idOf. split.
  - destruct (HasSuffix n sDnm) eqn:Hd.
    + apply HasSuffix_iff in Hd as [p ->]. rewrite TrimSuffix_app. intros [= <-]. by left.
    + destruct (HasSuffix n sManifest && _) eqn:Hm; [|done]. apply andb_true_iff in Hm as [Hm _].
      apply HasSuffix_iff in Hm as [p ->]. rewrite TrimSuffix_app. intros [= <-]. by right.
  - intros [->| ->]; [unfold DNMPath; by rewrite HasSuffix_app, TrimSuffix_app|].
    unfold ManifestPath. rewrite HasSuffix_app, TrimSuffix_app.
    destruct (HasSuffix _ sDnm) eqn:Hd; [apply HasSuffix_iff in Hd as [p Hp]; by destruct (dnm_ne_manifest p id)|].
    destruct (HasSuffix _ (sManifest ++ sBak)) eqn:Hb; [|done]. apply HasSuffix_iff in Hb as [p Hp]. exfalso.
apply (proj1 (proj2 (bak_ne (p ++ sManifest) id))). rewrite <- app_assoc. symmetry. exact Hp.
Qed.

Lemma elem_of_uniqueIDs names seen id : id ∈ uniqueIDs names seen ↔ id ∉ seen ∧ (∃ n, n ∈ names ∧ idOf n = Some id).
Proof.
  revert seen. induction names as [|n names IH]; intros seen; cbn [uniqueIDs].
  { split; [by intros ?%elem_of_nil|]. by intros (_ & n & ?%elem_of_nil & _). }
  assert (Hex : (∃ m, m ∈ n :: names ∧ idOf m = Some id) ↔ idOf n = Some id ∨ ∃ m, m ∈ names ∧ idOf m = Some id).
  { setoid_rewrite elem_of_cons. naive_solver. }
  rewrite Hex. destruct (idOf n) as [i|] eqn:Hi; [|rewrite IH; naive_solver].
  case_bool_decide as Hs; [rewrite IH; naive_solver|]. rewrite elem_of_cons, IH, not_elem_of_union, not_elem_of_singleton.
  destruct (decide (id = i)); naive_solver.
Qed.

Lemma NoDup_uniqueIDs names seen : NoDup (uniqueIDs names seen).
Proof.
  revert seen. induction names as [|n names IH]; intros seen; cbn [uniqueIDs]; [constructor|].
  destruct (idOf n) as [i|]; [|apply IH]. case_bool_decide; [apply IH|]. constructor; [|apply IH].
  rewrite elem_of_uniqueIDs, not_elem_of_union, not_elem_of_singleton. naive_solver.
Qed.

(** An id is listed when one of its two manifest files is there. *)
Definition has_manifest (d : dir) (id : bytes) : Prop := is_Some (stat d (DNMPath id)) ∨ is_Some (stat d (ManifestPath id)).

Lemma elem_of_listing fs id : id ∈ uniqueIDs (ReadDir fs) ∅ ↔ has_manifest (Some fs) id.
Proof.
  rewrite elem_of_uniqueIDs. unfold has_manifest, stat. cbn [mbind option_bind]. split.
  - intros (_ & n & Hn%elem_of_ReadDir & [->| ->]%idOf_iff); auto.
  - intros H. split; [set_solver|].
    destruct H as [H|H]; eexists; (split; [by apply elem_of_ReadDir|]); apply idOf_iff; auto.
Qed.

Lemma elem_of_ListIDs d id : id ∈ ListIDs d ↔ has_manifest d id.
Proof.
  destruct d as [fs|]; [apply elem_of_listing|]. cbn [ListIDs]. unfold has_manifest, stat. cbn.
  split; [set_solver|]. intros [[? ?]|[? ?]]; done.
Qed.

(** ** Directory updates *)

Lemma has_manifest_ext d d' id : (∀ n, n ∈ [DNMPath id; ManifestPath id] → stat d' n = stat d n) → has_manifest d' id ↔ has_manifest d id.
Proof. intros H. unfold has_manifest. by rewrite !H by set_solver. Qed.

(** Loading a backup looks at its own three files only. *)
Lemma Load_ext parseJSON d d' id : (∀ n, n ∈ [DNMPath id; ManifestPath id; EntriesPath id] → stat d' n = stat d n) →
  Load parseJSON d' id = Load parseJSON d id.
Proof.
  intros H. unfold Load, readJSON, ReadEntries. rewrite !H by set_solver. done.
Qed.

Section repo_proofs.
Context (sidecarFile : bytes → option bytes).

Lemma saveDNM_stat d b f : writeDNM b (stat d (EntriesPath (BackupID b))) sidecarFile = Ok f →
  ∃ d', saveDNM sidecarFile d b = Ok d' ∧ ∀ m, stat d' m =
    if decide (DNMPath (BackupID b) = m) then Some f else if decide (tmpPath (BackupID b) = m) then None else stat d m.
Proof.
  intros Hw. unfold saveDNM. rewrite Hw. cbn [rbind]. eexists. split; [reflexivity|]. intros m. fold (tmpPath (BackupID b)).
  rewrite stat_rename, !stat_create, decide_True by done. by repeat case_decide.
Qed.

Lemma Save_stat d b f : writeDNM b (stat d (EntriesPath (BackupID b))) sidecarFile = Ok f →
  ∃ d', Save sidecarFile d b = Ok d' ∧ ∀ m, stat d' m =
    if decide (EntriesPath (BackupID b) = m) then None
    else if decide (DNMPath (BackupID b) = m) then Some f else if decide (tmpPath (BackupID b) = m) then None else stat d m.
Proof.
  intros Hw. unfold Save. destruct (saveDNM_stat (Some (default ∅ d)) b f) as (d' & -> & Hst).
  { by rewrite stat_default. }
  eexists. split; [reflexivity|]. intros m. rewrite stat_remove. case_decide; [done|]. rewrite Hst. repeat case_decide; try done. apply stat_default.
Qed.
End repo_proofs.

(** The files of two different backups do not meet. *)
Lemma paths_apart id other n : id ≠ other → n ∈ [DNMPath other; ManifestPath other; EntriesPath other] →
  DNMPath id ≠ n ∧ ManifestPath id ≠ n ∧ EntriesPath id ≠ n ∧ tmpPath id ≠ n.
Proof.
  intros Hne Hn. assert (DNMPath id ≠ DNMPath other) by (intros ?%suffix_inj; done).
  assert (ManifestPath id ≠ ManifestPath other) by (intros ?%suffix_inj; done).
  assert (EntriesPath id ≠ EntriesPath other) by (intros ?%suffix_inj; done).
  rewrite !elem_of_cons in Hn. destruct Hn as [->|[->|[->|?%elem_of_nil]]]; [..|done]; split_and!; auto with names.
Qed.

(** ** Theorems *)

(** Listing: the ids are exactly those with a .dnm or a .manifest file, each once. *)
Theorem manifest_ids_exact d : NoDup (ListIDs d) ∧ ∀ id, id ∈ ListIDs d ↔ has_manifest d id.
Proof. split; [destruct d; [apply NoDup_uniqueIDs|constructor]|intros id; apply elem_of_ListIDs]. Qed.

(** Saving: what loads, and what else changes. *)
Lemma Save_loads parseJSON sidecarFile d b fes ents :
  counts_fit b → writable fes → hashed ents → entries_from b (stat d (EntriesPath (BackupID b))) ents →
  catalog_from b sidecarFile fes →
  len (encodeMetadata b) + len (catalogBytes fes) + len (entryBytes ents) + 148 < 2 ^ 63 →
  ∃ d' f, Save sidecarFile d b = Ok d' ∧ Load parseJSON d' (BackupID b) = Ok (loaded b fes ents) ∧ ∀ m, stat d' m =
    if decide (EntriesPath (BackupID b) = m) then None
    else if decide (DNMPath (BackupID b) = m) then Some f else if decide (tmpPath (BackupID b) = m) then None else stat d m.
Proof.
  intros H1 H2 H3 H4 H5 H6. destruct (writeDNM_holds _ _ _ _ _ H1 H2 H3 H4 H5 H6) as (f & r & Hw & Ho & _ & Hh).
  destruct (Save_stat sidecarFile d b f Hw) as (d' & Hs & Hst). exists d', f. split; [done|]. split; [|done].
  assert (Hd : stat d' (DNMPath (BackupID b)) = Some f) by (rewrite Hst, decide_False, decide_True by auto with names; done).
  unfold Load. rewrite Hd. cbn [re_dnm]. destruct (holds_load f r b fes ents Ho Hh) as (-> & _). done.
Qed.

(** What a saved backup is to its readers: it loads, and its entries can be accessed. *)
Definition saved (parseJSON : bytes → option Backup) (d : dir) (id : bytes) (b : Backup) (fes : list FileEntry) (ents : list Entry) : Prop :=
  Load parseJSON d id = Ok (loaded b fes ents) ∧ ∃ ea, NewEntryAccessor d id = Ok ea ∧ Accesses ea (storedEntry <$> ents).

Lemma Save_saved parseJSON sidecarFile d b fes ents :
  counts_fit b → writable fes → hashed ents → entries_from b (stat d (EntriesPath (BackupID b))) ents →
  catalog_from b sidecarFile fes →
  len (encodeMetadata b) + len (catalogBytes fes) + len (entryBytes ents) + 148 < 2 ^ 63 →
  ∃ d', Save sidecarFile d b = Ok d' ∧ saved parseJSON d' (BackupID b) b fes ents.
Proof.
  intros H1 H2 H3 H4 H5 H6. destruct (Save_loads parseJSON sidecarFile d b fes ents H1 H2 H3 H4 H5 H6) as (d1 & f1 & Hs1 & Hl & _). exists d1. split; [done|]. split; [done|].
  destruct (writeDNM_holds _ _ _ _ _ H1 H2 H3 H4 H5 H6) as (f & r & Hw & Ho & _ & Hh). destruct (Save_stat sidecarFile d b f Hw) as (d' & Hs & Hst). rewrite Hs in Hs1. simplify_eq.
  assert (Hd : stat d1 (DNMPath (BackupID b)) = Some f) by (rewrite Hst, decide_False, decide_True by auto with names; done).
  exists (NewDNMEntryAccessor r). unfold NewEntryAccessor. rewrite Hd, Ho. split; [done|]. by eapply dnm_accesses.
Qed.

(** Saving: the backup is stored, and then loads to what the .dnm codec stores of it
    and of the entries and catalog it was given; its sidecar is gone; every other backup
    is listed and loads as before. *)
Theorem manifest_save_load parseJSON sidecarFile d b fes ents :
  counts_fit b → writable fes → hashed ents → entries_from b (stat d (EntriesPath (BackupID b))) ents →
  catalog_from b sidecarFile fes →
  len (encodeMetadata b) + len (catalogBytes fes) + len (entryBytes ents) + 148 < 2 ^ 63 →
  ∃ d', Save sidecarFile d b = Ok d' ∧ Load parseJSON d' (BackupID b) = Ok (loaded b fes ents) ∧
    BackupID b ∈ ListIDs d' ∧ stat d' (EntriesPath (BackupID b)) = None ∧
    ∀ id, id ≠ BackupID b → Load parseJSON d' id = Load parseJSON d id ∧ (id ∈ ListIDs d' ↔ id ∈ ListIDs d).
Proof.
  intros H1 H2 H3 H4 H5 H6. destruct (Save_loads parseJSON sidecarFile d b fes ents H1 H2 H3 H4 H5 H6) as (d' & f & Hs & Hl & Hst). exists d'.
  split; [done|]. split; [done|]. split_and!.
  - apply elem_of_ListIDs. left. exists f. by rewrite Hst, decide_False, decide_True by auto with names.
  - by rewrite Hst, decide_True.
  - intros id Hne. assert (Hsame : ∀ n, n ∈ [DNMPath id; ManifestPath id; EntriesPath id] → stat d' n = stat d n).
    { intros n Hn. destruct (paths_apart (BackupID b) id n (not_eq_sym Hne) Hn) as (? & ? & ? & ?). by rewrite Hst, !decide_False. }
    split; [by apply Load_ext|]. rewrite !elem_of_ListIDs. refine (has_manifest_ext _ _ _ (λ n Hn, Hsame n _)). set_solver.
Qed.

(** Deleting: fails exactly when the id is not listed; otherwise the id is gone, and
    every other backup is listed and loads as before. *)
Theorem manifest_delete_exact parseJSON d id :
  (id ∉ ListIDs d → Delete d id = Err ReNotFound) ∧
  (id ∈ ListIDs d → ∃ d', Delete d id = Ok d' ∧ id ∉ ListIDs d' ∧
    ∀ other, other ≠ id → Load parseJSON d' other = Load parseJSON d other ∧ (other ∈ ListIDs d' ↔ other ∈ ListIDs d)).
Proof.
  rewrite elem_of_ListIDs. unfold has_manifest, Delete. split.
  - intros H. destruct (stat d (DNMPath id)) eqn:H1; [exfalso; apply H; left; by eexists|].
    destruct (stat d (ManifestPath id)) eqn:H2; [exfalso; apply H; right; by eexists|done].
  - intros H. set (d' := remove (remove (remove d (DNMPath id)) (ManifestPath id)) (EntriesPath id)). exists d'.
    assert (Hst : ∀ n, stat d' n = if decide (EntriesPath id = n) then None else if decide (ManifestPath id = n) then None
      else if decide (DNMPath id = n) then None else stat d n) by (intros n; unfold d'; by rewrite !stat_remove).
    split_and!.
    + destruct (stat d (DNMPath id)) eqn:E1, (stat d (ManifestPath id)) eqn:E2; try reflexivity. by destruct H as [[? ?]|[? ?]].
    + rewrite elem_of_ListIDs. unfold has_manifest. rewrite !Hst.
      intros [[? Hx]|[? Hx]]; repeat case_decide; done.
    + intros other Hne. assert (Hsame : ∀ n, n ∈ [DNMPath other; ManifestPath other; EntriesPath other] → stat d' n = stat d n).
      { intros n Hn. destruct (paths_apart id other n (not_eq_sym Hne) Hn) as (? & ? & ? & _). by rewrite Hst, !decide_False. }
      split; [by apply Load_ext|]. rewrite !elem_of_ListIDs. refine (has_manifest_ext _ _ _ (λ n Hn, Hsame n _)). set_solver.
Qed.

(** Prefix resolution: an id is found exactly when it is the only listed id with the
    prefix; so an id that is a proper prefix of another cannot be addressed. *)
Theorem manifest_resolve_exact fs p id :
  ResolveID (Some fs) p = Ok id ↔
  (∀ other, other ∈ ListIDs (Some fs) ∧ p `prefix_of` other ↔ other = id).
Proof.
  unfold ResolveID, ListIDs. set (ids := uniqueIDs (ReadDir fs) ∅). pose proof (NoDup_uniqueIDs (ReadDir fs) ∅) as Hnd. fold ids in Hnd.
  set (l := filter (λ id, HasPrefix id p = true) ids).
  assert (Hl : ∀ other, other ∈ ids ∧ p `prefix_of` other ↔ other ∈ l).
  { intros other. unfold l. rewrite list_elem_of_filter. unfold HasPrefix. rewrite bool_decide_eq_true. naive_solver. }
  assert (Hnl : NoDup l) by (by apply NoDup_filter). setoid_rewrite Hl. destruct l as [|a [|b l']].
  - split; [done|]. intros H. destruct (not_elem_of_nil id). by apply H.
  - setoid_rewrite list_elem_of_singleton. split; [intros [= ->]; done|]. intros H. f_equal. by apply H.
  - split; [done|]. intros H. exfalso. assert (a = id) by (apply H; left). assert (b = id) by (apply H; right; left).
    apply NoDup_cons in Hnl as [Hn _]. apply Hn. subst. left.
Qed.

Definition sampleId : bytes := BackupID sampleMeta.
Definition sampleDir : dir := WriteEntries (create None (ManifestPath [122]) [1; 2]) sampleId sampleEntries.

Lemma manifest_save_load_witness :
  ∃ d', Save (λ _, None) sampleDir sampleBackup = Ok d' ∧
    Load (λ _, None) d' sampleId = Ok (withEntries sampleBackup sampleEntries) ∧ [122] ∈ ListIDs d'.
Proof.
  destruct (manifest_save_load (λ _, None) (λ _, None) sampleDir sampleBackup [sampleFile] sampleEntries)
    as (d' & H1 & H2 & _ & _ & H3).
  - unfold counts_fit. cbn. lia.
  - repeat constructor.
  - repeat constructor.
  - right. left. split; [done|]. vm_compute. reflexivity.
  - left. done.
  - vm_compute. reflexivity.
  - exists d'. split; [exact H1|]. split; [exact H2|]. apply (H3 [122]); [discriminate|].
    apply (bool_decide_unpack _). vm_compute. exact I.
Defined.

(** ** Sidecars *)

Lemma stat_WriteEntries d id es : stat (WriteEntries d id es) (EntriesPath id) = Some (entryBytes es).
Proof.
  unfold WriteEntries. assert (H : ∀ pre d0, stat d0 (EntriesPath id) = Some pre →
    stat (foldl (λ d e, EntryWriter_WriteEntry d id e) d0 es) (EntriesPath id) = Some (pre ++ entryBytes es)).
  { induction es as [|e es IH]; intros pre d0 H0; cbn [foldl]; [by rewrite app_nil_r|]. rewrite fmap_cons. cbn [concat]. rewrite app_assoc.
    apply IH. unfold EntryWriter_WriteEntry. by rewrite stat_create, decide_True, H0. }
  apply (H []). unfold OpenEntryWriter. by rewrite stat_create, decide_True.
Qed.

Lemma readEntriesLoop_write es fuel : hashed es → (length es < fuel)%nat →
  readEntriesLoop fuel (entryBytes es) = Ok (storedEntry <$> es).
Proof.
  intros Hh. revert fuel. induction Hh as [|e es He Hes IH]; intros [|fuel] Hf; cbn [length] in Hf; [lia|done|lia|].
  rewrite !fmap_cons. cbn [readEntriesLoop concat]. rewrite ReadFull_app by (rewrite length_encodeEntryRecord; done).
  rewrite IH by lia. cbn [rbind]. by rewrite decodeEntryRecord_encode.
Qed.

Lemma ReadEntries_stat d id es : hashed es → stat d (EntriesPath id) = Some (entryBytes es) → ReadEntries d id = Ok (storedEntry <$> es).
Proof.
  intros Hh Hst. unfold ReadEntries. rewrite Hst. apply readEntriesLoop_write; [done|].
  pose proof (length_entryRecords es Hh). lia.
Qed.

Lemma take_entryRecords n es : hashed es → take (45 * n) (entryBytes es) = entryBytes (take n es).
Proof.
  intros Hh. rewrite <- (take_drop n es) at 1. rewrite fmap_app, concat_app.
  pose proof (length_entryRecords (take n es) (Forall_take _ _ _ Hh)) as Hl. rewrite length_take in Hl.
  destruct (decide (n ≤ length es)%nat); [apply take_app_exact; lia|].
  rewrite (drop_ge es) by lia. cbn [fmap list_fmap concat]. rewrite app_nil_r. apply take_ge. lia.
Qed.

(** Sidecars: what was written is read back, and resuming at a checkpoint of [k]
    records keeps exactly the first [k], whatever torn tail follows them. *)
Theorem sidecar_resume d id es k tail :
  hashed es → (k ≤ length es)%nat →
  ReadEntries (WriteEntries d id es) id = Ok (storedEntry <$> es) ∧
  ∃ d', OpenEntryWriterResume (create d (EntriesPath id) (entryBytes es ++ tail)) id (45 * Z.of_nat k) = Ok d' ∧
    ReadEntries d' id = Ok (storedEntry <$> take k es) ∧ EntryWriter_Len d' id = 45 * Z.of_nat k.
Proof.
  intros Hh Hk. split; [apply ReadEntries_stat; [done|apply stat_WriteEntries]|].
  unfold OpenEntryWriterResume, EntryRecordSize. rewrite (proj2 (Z.ltb_ge _ _)) by lia.
  rewrite (Z.mul_comm 45), Z.rem_mul by lia. cbn [Z.eqb negb orb]. rewrite stat_create, decide_True by done.
  pose proof (length_entryRecords es Hh). rewrite (proj2 (Z.ltb_ge _ _)) by (rewrite length_app; lia).
  assert (Htr : Truncate (entryBytes es ++ tail) (Z.of_nat k * 45) = entryBytes (take k es)).
  { unfold Truncate. rewrite length_app. replace (Z.to_nat _ - _)%nat with 0%nat by lia. rewrite app_nil_r.
    replace (Z.to_nat (Z.of_nat k * 45)) with (45 * k)%nat by lia. rewrite take_app_le by lia. by apply take_entryRecords. }
  rewrite Htr. assert (Hhk : hashed (take k es)) by (by apply Forall_take).
  eexists. split; [reflexivity|]. split.
  - apply ReadEntries_stat; [done|]. by rewrite stat_create, decide_True.
  - unfold EntryWriter_Len. rewrite stat_create, decide_True by done. cbn [from_option Datatypes.id]. rewrite length_entryRecords by done.
    rewrite length_take. lia.
Qed.

Lemma sidecar_resume_witness :
  ∃ d', OpenEntryWriterResume (create None (EntriesPath [97]) (entryBytes sampleEntries ++ [1; 2; 3])) [97] 45 = Ok d' ∧
    ReadEntries d' [97] = Ok (take 1 sampleEntries).
Proof.
  destruct (sidecar_resume None [97] sampleEntries 1 [1; 2; 3]) as (_ & d' & H1 & H2 & _); [repeat constructor|cbn; lia|].
  exists d'. split; [exact H1|exact H2].
Defined.

(** ** Repair and migration *)

Lemma isSorted_iff es : isSorted es = true ↔ StronglySorted (key_le VolumeOffset) es.
Proof.
  induction es as [|a es IH]; [split; [constructor|done]|]. destruct es as [|b es]; cbn [isSorted].
  { split; [repeat constructor|done]. }
  destruct (_ <? _) eqn:Hlt; zbool.
  - split; [done|]. intros H. inversion H as [|? ? _ Hall]; subst. inversion Hall as [|? ? Hle _]; subst. unfold key_le in Hle. lia.
  - rewrite IH. split; intros H.
    + constructor; [done|]. inversion H as [|? ? _ Hall]; subst. constructor; [unfold key_le; lia|].
      eapply Forall_impl; [exact Hall|]. unfold key_le. lia.
    + by inversion H.
Qed.

(** A loaded backup that fits the format. *)
Record fits (b : Backup) (fes : list FileEntry) (ents : list Entry) : Prop := {
  ft_counts : counts_fit b; ft_files : writable fes; ft_hashes : hashed ents;
  ft_side : CatalogSidecarPath b = []; ft_cat : FileCatalog b = fes;
  ft_size : len (encodeMetadata b) + len (catalogBytes fes) + len (entryBytes ents) + 148 < 2 ^ 63 }.

Lemma encodeMetadata_withEntries b es : encodeMetadata (withEntries b es) = encodeMetadata b.
Proof. done. Qed.

(** The length of the entries section only depends on their number. *)
Lemma entryBytes_perm es es' : hashed es → es ≡ₚ es' → len (entryBytes es) = len (entryBytes es').
Proof. intros Hh Hp. assert (hashed es') by (by rewrite <- Hp).
  rewrite (length_entryRecords es), (length_entryRecords es') by done. by rewrite (Permutation_length Hp). Qed.

(** Repair: a backup whose entries are out of order is rewritten with the same
    entries in offset order (a permutation); one in order is left as it loads, and its
    sidecar is removed only when a .dnm file holds the entries. *)
Theorem repair_sorts {HS : SortSlice} parseJSON sidecarFile d id b : Load parseJSON d id = Ok b → BackupID b = id →
  fits b (FileCatalog b) (Entries b) →
  if isSorted (Entries b)
  then ∃ d', repairOne parseJSON sidecarFile false d id = (d', Skipped) ∧ Load parseJSON d' id = Ok b
  else ∃ d' es, repairOne parseJSON sidecarFile false d id = (d', Converted) ∧
    Load parseJSON d' id = Ok (loaded (withEntries b es) (FileCatalog b) es) ∧ es ≡ₚ Entries b ∧ isSorted es = true.
Proof.
  intros Hl Hid [Hc Hf Hh Hsp _ Hsz]. unfold repairOne. rewrite Hl. destruct (isSorted (Entries b)) eqn:Hsorted.
  - destruct (stat d (EntriesPath id)) as [ef|] eqn:He; [|by exists d]. destruct (stat d (DNMPath id)) as [df|] eqn:Hd; [|by exists d].
    eexists. split; [reflexivity|]. unfold Load in *. rewrite stat_remove, decide_False by auto with names.
    rewrite Hd in *. done.
  - set (es := sortSlice VolumeOffset (Entries b)). assert (Hp : es ≡ₚ Entries b) by apply sortSlice_perm.
    assert (Hhe : hashed es) by (by rewrite Hp). assert (Hne : es ≠ []).
    { intros H0. rewrite H0 in Hp. apply Permutation_nil_l in Hp. by rewrite <- Hp in Hsorted. }
    assert (Hsz' : len (encodeMetadata (withEntries b es)) + len (catalogBytes (FileCatalog b)) + len (entryBytes es) + 148 < 2 ^ 63)
      by (rewrite encodeMetadata_withEntries, (entryBytes_perm es (Entries b)) by done; done).
    assert (Hef : entries_from (withEntries b es) (stat d (EntriesPath (BackupID (withEntries b es)))) es) by (by left).
    assert (Hcf : catalog_from (withEntries b es) sidecarFile (FileCatalog b)) by (by left).
    destruct (writeDNM_holds (withEntries b es) _ _ (FileCatalog b) es Hc Hf Hhe Hef Hcf Hsz') as (f & r & Hw & Ho & _ & Hhold).
    destruct (Save_stat sidecarFile d (withEntries b es) f Hw) as (d' & Hs & Hst). exists d', es. rewrite Hs.
    change (BackupID (withEntries b es)) with (BackupID b) in Hst. rewrite Hid in Hst.
    split; [done|]. split; [|split; [done|apply isSorted_iff, sortSlice_sorted]].
    unfold Load. rewrite Hst, decide_False, decide_True by auto with names.
    destruct (holds_load f r _ _ _ Ho Hhold) as (-> & _). done.
Qed.

Definition outOfOrder : Backup := withEntries sampleBackup (reverse sampleEntries).
Definition unsortedDir : dir :=
  match Save (λ _, None) None outOfOrder with Ok d => d | Err _ => None end.

Lemma repair_sorts_witness :
  ∃ d' es, repairOne (λ _, None) (λ _, None) false unsortedDir sampleId = (d', Converted) ∧ es ≡ₚ Entries outOfOrder ∧ isSorted es = true.
Proof.
  destruct (repair_sorts (λ _, None) (λ _, None) unsortedDir sampleId outOfOrder) as (d' & es & H1 & _ & H2 & H3).
  - vm_compute. reflexivity.
  - reflexivity.
  - split; [unfold counts_fit; cbn; lia|repeat constructor|repeat constructor|done|done|vm_compute; reflexivity].
  - exists d', es. split; [exact H1|]. split; [exact H2|exact H3].
Defined.

(** Migration of one legacy backup whose manifest carries its own id: it is converted,
    and then loads to what the .dnm codec stores of what it loaded to before; every other
    backup is listed and loads as before. *)
Theorem migrate_converts parseJSON sidecarFile d id b :
  stat d (DNMPath id) = None → Load parseJSON d id = Ok b → BackupID b = id → len id ≤ 255 → Entries b ≠ [] →
  fits b (FileCatalog b) (Entries b) →
  ∃ d', migrateOne parseJSON sidecarFile false d id = (d', Converted) ∧
    Load parseJSON d' id = Ok (loaded b (FileCatalog b) (Entries b)) ∧
    ∀ other, other ≠ id → Load parseJSON d' other = Load parseJSON d other ∧ (other ∈ ListIDs d' ↔ other ∈ ListIDs d).
Proof.
  intros Hd Hl Hid Hlen Hne [Hc Hf Hh Hsp _ Hsz]. unfold migrateOne. rewrite Hd, Hl.
  assert (Hef : entries_from b (stat d (EntriesPath (BackupID b))) (Entries b)) by (by left).
  assert (Hcf : catalog_from b sidecarFile (FileCatalog b)) by (by left).
  destruct (writeDNM_holds b _ _ (FileCatalog b) (Entries b) Hc Hf Hh Hef Hcf Hsz) as (f & r & Hw & Ho & _ & Hhold).
  destruct (saveDNM_stat sidecarFile d b f Hw) as (d1 & Hs & Hst). rewrite Hs. rewrite Hid in Hst.
  assert (Hf1 : stat d1 (DNMPath id) = Some f) by (by rewrite Hst, decide_True). rewrite Hf1, Ho. cbn [rbind].
  rewrite (holds_meta _ _ _ _ Hhold). rewrite bool_decide_true by (cbn; rewrite Hid; apply take_ge; lia). cbn [negb].
  set (d' := rename _ _ _). exists d'. split; [done|].
  assert (Hbak : ∀ n m, n ∈ [DNMPath m; ManifestPath m; EntriesPath m] → ManifestPath id ++ sBak ≠ n ∧ EntriesPath id ++ sBak ≠ n).
  { intros n m Hn. destruct (bak_ne (ManifestPath id) m) as (? & ? & ?), (bak_ne (EntriesPath id) m) as (? & ? & ?).
    rewrite !elem_of_cons in Hn. destruct Hn as [->|[->|[->|?%elem_of_nil]]]; done. }
  assert (Hst' : ∀ n m, n ∈ [DNMPath m; ManifestPath m; EntriesPath m] → ManifestPath id ≠ n → EntriesPath id ≠ n → stat d' n = stat d1 n).
  { intros n m Hn H1 H2. destruct (Hbak n m Hn) as [B1 B2]. unfold d'. rewrite !stat_rename. by repeat (case_match || case_decide). }
  split.
  - unfold Load. rewrite (Hst' _ id), Hf1; [|set_solver|auto with names..]. by destruct (holds_load f r _ _ _ Ho Hhold) as (-> & _).
  - intros other Hoth. assert (Hsame : ∀ n, n ∈ [DNMPath other; ManifestPath other; EntriesPath other] → stat d' n = stat d n).
    { intros n Hn. destruct (paths_apart id other n (not_eq_sym Hoth) Hn) as (? & ? & ? & ?). by rewrite (Hst' n other), Hst, !decide_False. }
    split; [by apply Load_ext|]. rewrite !elem_of_ListIDs. refine (has_manifest_ext _ _ _ (λ n Hn, Hsame n _)). set_solver.
Qed.

Definition legacyDir : dir := create None (ManifestPath sampleId) [123].
Lemma migrate_converts_witness :
  ∃ d', migrateOne (λ _, Some outOfOrder) (λ _, None) false legacyDir sampleId = (d', Converted) ∧
    Load (λ _, Some outOfOrder) d' sampleId = Ok outOfOrder.
Proof.
  destruct (migrate_converts (λ _, Some outOfOrder) (λ _, None) legacyDir sampleId outOfOrder) as (d' & H1 & H2 & _).
  - vm_compute. reflexivity.
  - vm_compute. reflexivity.
  - reflexivity.
  - cbn. lia.
  - discriminate.
  - split; [unfold counts_fit; cbn; lia|repeat constructor|repeat constructor|done|done|vm_compute; reflexivity].
  - exists d'. split; [exact H1|exact H2].
Defined.

(** Migration trusts the id inside a legacy manifest: one whose inner id names another
    backup counts as failed, but only after that backup's .dnm file was overwritten. *)
Theorem migrate_overwrites_other :
  let d := create unsortedDir (ManifestPath [97]) [123] in
  let parse := λ _ : bytes, Some (withEntries sampleBackup (take 1 sampleEntries)) in
  let '(d', converted, skipped, failed) := Migrate parse (λ _, None) d false in
  (converted, skipped, failed) = (0, 0, 1) ∧
  (∃ b, Load parse d sampleId = Ok b ∧ length (Entries b) = 2%nat) ∧
  (∃ b, Load parse d' sampleId = Ok b ∧ length (Entries b) = 1%nat).
Proof.
  vm_compute. split; [reflexivity|]. split; eexists; (split; [reflexivity|reflexivity]).
Qed.
