(* ===== verification/PackStore.v ===== *)
(** * core/store: pack files (store.go, sparse.go)

    A repository's chunks directory holds pack files [NNNN.pack], each a sequence of
    frames: payload length, raw length, payload.  [ChunkStore] appends chunks to the
    current pack, rotating it when it is full, and reads them back by pack number and
    offset, through a bounded cache of frames and the fetch hooks of a cloud restore.

    zstd is a class with its law, AES-GCM comes from Crypto.v, and the nonce of an
    encryption is an argument.  The download hooks are arguments: [OnPackMissing] may
    change the directory.  [OnPackAccess] only observes and is left out, as are
    failing writes of the operating system; a write or sync on a closed file fails as it
    does in Go. *)

From S2P Require Import Prelude GoBytes GoFiles Crypto.

(** What the engine relies on of klauspost/compress: decoding gives back what was
    encoded, at every preset. *)
Class Zstd := {
  EncodeAll : Z → bytes → bytes;
  DecodeAll : bytes → option bytes;
  decode_encode : ∀ l d, DecodeAll (EncodeAll l d) = Some d }.

(** "disknexus/chunk/v1" *)
Definition AADChunk : bytes := [100;105;115;107;110;101;120;117;115;47;99;104;117;110;107;47;118;49].

Inductive preset := SpeedFastest | SpeedDefault | SpeedBetterCompression | SpeedBestCompression.
Definition presetNumber (p : preset) : Z :=
  match p with SpeedFastest => 1 | SpeedDefault => 2 | SpeedBetterCompression => 3 | SpeedBestCompression => 4 end.
Definition CompressionPreset (level : Z) : preset :=
  if level <=? 1 then SpeedFastest else if level <=? 3 then SpeedDefault
  else if level <=? 6 then SpeedBetterCompression else SpeedBestCompression.

Definition maxChunkFrameLen : Z := Z.shiftl 64 20.
Definition FrameCacheMaxBytes : Z := Z.shiftl 64 20.

(** ** Pack names *)

Definition sPack : bytes := [46; 112; 97; 99; 107].
Definition packPath (num : Z) : name := pad4 num ++ sPack.

Definition parsePackFileName (n : name) : option Z :=
  if negb (HasSuffix n sPack) then None else ParseUint32 (TrimSuffix n sPack).

(** ** The store *)

(** The open pack: not opened yet, open at the current offset, or closed by a seal
    that failed or by [Close]. *)
Inductive handle := HNil | HOpen | HClosed.

Record ChunkStore := mkStore {
  cs_files : files;                       (* the chunks directory *)
  cs_maxPackSize : Z; cs_level : Z; cs_key : option bytes;
  cs_currentPack : handle; cs_currentPackNum : Z; cs_currentOffset : Z;
  cs_frameCache : gmap (Z * Z) bytes; cs_frameCacheBytes : Z; cs_frameOrder : list (Z * Z) }.

Inductive fetch_err := FetchDecline | PackAbsent | FetchOther (code : Z).

Inductive store_err :=
| StSeal | StClosed | StEncrypt (e : crypto_err) | StNoPack (num : Z) | StAfterDownload (num : Z)
| StHeader (off : Z) | StTooLong (n : Z) | StPayload | StDecrypt (e : crypto_err) | StDecode
| StFrameShort (n : Z) | StFrameLength (n : Z) | StAbsent (num : Z) | StFetch (num : Z) (e : fetch_err)
| StOverlap (off : Z) | StSlice.

Record Hooks := mkHooks {
  OnPackSealed : option (Z → Z → bool);                             (* number, size; false: an error *)
  OnPackMissing : option (files → Z → files * option fetch_err);
  OnChunkFetch : option (Z → Z → result fetch_err bytes);
  OnChunkFetchBatch : option (list (Z * Z * Z) → gmap (Z * Z) bytes * option fetch_err) }.   (* what arrived, and an error *)
Definition noHooks : Hooks := mkHooks None None None None.

Definition setFiles (cs : ChunkStore) (fs : files) : ChunkStore :=
  mkStore fs (cs_maxPackSize cs) (cs_level cs) (cs_key cs) (cs_currentPack cs) (cs_currentPackNum cs)
    (cs_currentOffset cs) (cs_frameCache cs) (cs_frameCacheBytes cs) (cs_frameOrder cs).
Definition setPack (cs : ChunkStore) (h : handle) (num off : Z) : ChunkStore :=
  mkStore (cs_files cs) (cs_maxPackSize cs) (cs_level cs) (cs_key cs) h num off
    (cs_frameCache cs) (cs_frameCacheBytes cs) (cs_frameOrder cs).
Definition setCache (cs : ChunkStore) (c : gmap (Z * Z) bytes) (n : Z) (o : list (Z * Z)) : ChunkStore :=
  mkStore (cs_files cs) (cs_maxPackSize cs) (cs_level cs) (cs_key cs) (cs_currentPack cs) (cs_currentPackNum cs)
    (cs_currentOffset cs) c n o.

(** [newChunkStore]: the directory is made when it is not there. *)
Definition newChunkStore (d : dir) (maxPackSize level startPack : Z) (key : option bytes) : ChunkStore :=
  mkStore (default ∅ d) maxPackSize level key HNil startPack 0 ∅ 0 [].

Definition findLatestPack (fs : files) : Z :=
  foldl (λ m n, match parsePackFileName n with Some k => if m <=? k then k else m | None => m end) 0 (ReadDir fs).

Definition NewChunkStore (d : dir) (maxPackSize level : Z) (key : option bytes) : ChunkStore :=
  let cs := newChunkStore d maxPackSize level 0 key in setPack cs HNil (findLatestPack (cs_files cs)) 0.
Definition NewChunkStoreAt (d : dir) (maxPackSize level startPack : Z) (key : option bytes) : ChunkStore :=
  newChunkStore d maxPackSize level startPack key.

(** The pack is created when missing and appended to. *)
Definition openCurrentPack (cs : ChunkStore) : ChunkStore :=
  let p := packPath (cs_currentPackNum cs) in
  let f := default [] (cs_files cs !! p) in
  setPack (setFiles cs (<[p := f]> (cs_files cs))) HOpen (cs_currentPackNum cs) (len f).
Definition ensureCurrentPack (cs : ChunkStore) : ChunkStore :=
  match cs_currentPack cs with HNil => openCurrentPack cs | _ => cs end.

(** [f.Write] at the position of the open pack. *)
Definition packWrite (cs : ChunkStore) (data : bytes) : ChunkStore :=
  let p := packPath (cs_currentPackNum cs) in
  setFiles cs (<[p := WriteAt (default [] (cs_files cs !! p)) (cs_currentOffset cs) data]> (cs_files cs)).

Definition rotatePack (h : Hooks) (cs : ChunkStore) : ChunkStore * option store_err :=
  match cs_currentPack cs with
  | HOpen =>
      let cs := setPack cs HClosed (cs_currentPackNum cs) (cs_currentOffset cs) in
      if match OnPackSealed h with Some f => f (cs_currentPackNum cs) (cs_currentOffset cs) | None => true end
      then (openCurrentPack (setPack cs HClosed (u32 (cs_currentPackNum cs + 1)) (cs_currentOffset cs)), None)
      else (cs, Some StSeal)
  | _ => (cs, Some StClosed)
  end.

(** The part [Store] and [StoreRaw] share: rotate when full, append, advance. *)
Definition needsRotate (cs : ChunkStore) (totalSize : Z) : bool :=
  (cs_maxPackSize cs <? cs_currentOffset cs + totalSize) && (0 <? cs_currentOffset cs).
Definition appendFrame (h : Hooks) (cs : ChunkStore) (frame : bytes) (totalSize : Z) : ChunkStore * result store_err (Z * Z) :=
  let '(cs, e) := if needsRotate cs totalSize then rotatePack h cs else (cs, None) in
  match e with
  | Some e => (cs, Err e)
  | None =>
      match cs_currentPack cs with
      | HOpen =>
          let loc := (cs_currentPackNum cs, cs_currentOffset cs) in
          let cs := packWrite cs frame in
          (setPack cs HOpen (cs_currentPackNum cs) (cs_currentOffset cs + totalSize), Ok loc)
      | _ => (cs, Err StClosed)
      end
  end.

Section store.
Context {PR : Primitives} {ZS : Zstd}.

(** The payload of a chunk: compressed, then sealed when there is a key. *)
Definition sealPayload (cs : ChunkStore) (nonce data : bytes) : result store_err bytes :=
  let compressed := EncodeAll (presetNumber (CompressionPreset (cs_level cs))) data in
  match cs_key cs with
  | None => Ok compressed
  | Some k => match EncryptWithAAD k nonce compressed AADChunk with Ok e => Ok e | Err e => Err (StEncrypt e) end
  end.

Definition frameOf (payload : bytes) (rawLen : Z) : bytes :=
  PutUint32 (u32 (len payload)) ++ PutUint32 (u32 rawLen) ++ payload.

Definition Store (h : Hooks) (cs : ChunkStore) (nonce data : bytes) : ChunkStore * result store_err (Z * Z * Z) :=
  let cs := ensureCurrentPack cs in
  match sealPayload cs nonce data with
  | Err e => (cs, Err e)
  | Ok payload =>
      let '(cs, r) := appendFrame h cs (frameOf payload (len data)) (8 + len payload) in
      (cs, let! loc := r in Ok (loc, len payload))
  end.

Definition StoreRaw (h : Hooks) (cs : ChunkStore) (frame : bytes) : ChunkStore * result store_err (Z * Z * Z) :=
  let cs := ensureCurrentPack cs in
  let '(cs, r) := appendFrame h cs frame (len frame) in
  (cs, let! loc := r in Ok (loc, len frame - 8)).

(** Decrypting and decompressing a payload. *)
Definition openPayload (key : option bytes) (payload : bytes) : result store_err bytes :=
  let! compressed := match key with
                     | None => Ok payload
                     | Some k => match DecryptWithAAD k payload AADChunk with Ok c => Ok c | Err e => Err (StDecrypt e) end
                     end in
  of_option StDecode (DecodeAll compressed).

Definition RetrieveFromFrame (cs : ChunkStore) (frame : bytes) : result store_err bytes :=
  if len frame <? 8 then Err (StFrameShort (len frame))
  else
    let payloadLen := le_get (sub frame 0 4) in
    if len frame <? payloadLen + 8 then Err (StFrameLength payloadLen)
    else if u32 (8 + payloadLen) <? 8 then Err StSlice
    else openPayload (cs_key cs) (sub frame 8 (Z.to_nat payloadLen)).

(** [ReadAt(payload, offset+8)]: an empty read succeeds anywhere. *)
Definition readPayload (f : bytes) (off payloadLen : Z) : result store_err bytes :=
  if payloadLen =? 0 then (if i64 (off + 8) <? 0 then Err StPayload else Ok [])
  else of_option StPayload (ReadAt f (i64 (off + 8)) payloadLen).

Definition RetrieveRaw (cs : ChunkStore) (num off : Z) : result store_err (bytes * Z) :=
  let! f := of_option (StNoPack num) (cs_files cs !! packPath num) in
  let! header := of_option (StHeader off) (ReadAt f off 8) in
  let compressedLen := le_get (sub header 0 4) in
  let rawSize := le_get (sub header 4 4) in
  if maxChunkFrameLen <? compressedLen then Err (StTooLong compressedLen)
  else
    let! payload := readPayload f off compressedLen in
    Ok (header ++ payload, rawSize).

(** ** The frame cache *)

Definition HasFrame (cs : ChunkStore) (num off : Z) : bool := bool_decide (is_Some (cs_frameCache cs !! (num, off))).

(** Oldest frames go while the cache is over its ceiling and holds more than one. *)
Fixpoint evict (order : list (Z * Z)) (cache : gmap (Z * Z) bytes) (n : Z) : list (Z * Z) * gmap (Z * Z) bytes * Z :=
  match order with
  | old :: (_ :: _) as order' =>
      if FrameCacheMaxBytes <? n then
        match cache !! old with
        | Some v => evict order' (delete old cache) (n - len v)
        | None => evict order' cache n
        end
      else (order, cache, n)
  | _ => (order, cache, n)
  end.

Definition CacheFrame (cs : ChunkStore) (num off : Z) (frame : bytes) : ChunkStore :=
  let k := (num, off) in
  match cs_frameCache cs !! k with
  | Some _ => cs
  | None =>
      let '(order, cache, n) := evict (cs_frameOrder cs ++ [k]) (<[k := frame]> (cs_frameCache cs)) (cs_frameCacheBytes cs + len frame) in
      setCache cs cache n order
  end.

Fixpoint dropLoop (num : Z) (order : list (Z * Z)) (cache : gmap (Z * Z) bytes) (n : Z) : list (Z * Z) * gmap (Z * Z) bytes * Z :=
  match order with
  | [] => ([], cache, n)
  | fk :: order =>
      if negb (fk.1 =? num) then let '(kept, cache, n) := dropLoop num order cache n in (fk :: kept, cache, n)
      else match cache !! fk with
           | Some v => dropLoop num order (delete fk cache) (n - len v)
           | None => dropLoop num order cache n
           end
  end.
Definition DropFrames (cs : ChunkStore) (num : Z) : ChunkStore :=
  let '(order, cache, n) := dropLoop num (cs_frameOrder cs) (cs_frameCache cs) (cs_frameCacheBytes cs) in setCache cs cache n order.

Definition FetchBatch (h : Hooks) (refs : list (Z * Z * Z)) : gmap (Z * Z) bytes * option fetch_err :=
  match OnChunkFetchBatch h, refs with
  | Some f, _ :: _ => f refs
  | _, _ => (∅, None)
  end.

(** ** Reading *)

(** [None]: the hook declined and the pack path is taken. *)
Definition chunkFetch (fetch : Z → Z → result fetch_err bytes) (cs : ChunkStore) (num off : Z)
    : ChunkStore * option (result store_err bytes) :=
  match fetch num off with
  | Err FetchDecline => (cs, None)
  | Err PackAbsent => (cs, Some (Err (StAbsent num)))
  | Err e => (cs, Some (Err (StFetch num e)))
  | Ok frame => let cs := CacheFrame cs num off frame in (cs, Some (RetrieveFromFrame cs frame))
  end.

Definition fetchAndOpenPack (missing : files → Z → files * option fetch_err) (cs : ChunkStore) (num : Z)
    : ChunkStore * result store_err bytes :=
  let '(fs, e) := missing (cs_files cs) num in
  let cs := setFiles cs fs in
  match e with
  | Some PackAbsent => (cs, Err (StAbsent num))
  | Some e => (cs, Err (StFetch num e))
  | None => (cs, of_option (StAfterDownload num) (cs_files cs !! packPath num))
  end.

Definition openPackForRead (h : Hooks) (cs : ChunkStore) (num : Z) : ChunkStore * result store_err bytes :=
  match cs_files cs !! packPath num, OnPackMissing h with
  | Some f, _ => (cs, Ok f)
  | None, Some missing => fetchAndOpenPack missing cs num
  | None, None => (cs, Err (StNoPack num))
  end.

(** What follows the header of a frame. *)
Definition readFrame (cs : ChunkStore) (f header : bytes) (off : Z) : result store_err bytes :=
  let payloadLen := le_get (sub header 0 4) in
  if maxChunkFrameLen <? payloadLen then Err (StTooLong payloadLen)
  else let! payload := readPayload f off payloadLen in openPayload (cs_key cs) payload.

(** A fetch the hook may decline, with what to do then. *)
Definition orFetch (h : Hooks) (cs : ChunkStore) (num off : Z) (k : ChunkStore → ChunkStore * result store_err bytes)
    : ChunkStore * result store_err bytes :=
  match OnChunkFetch h with
  | None => k cs
  | Some fetch => match chunkFetch fetch cs num off with
                  | (cs, Some r) => (cs, r)
                  | (cs, None) => k cs
                  end
  end.

(** The pack path of [Retrieve]: a local or downloaded pack; a pack that is too
    short is fetched again. *)
Definition retrieveFromPack (h : Hooks) (num off : Z) (cs : ChunkStore) : ChunkStore * result store_err bytes :=
  match openPackForRead h cs num with
  | (cs, Err e) => orFetch h cs num off (λ cs, (cs, Err e))
  | (cs, Ok f) =>
      match ReadAt f off 8 with
      | Some header => (cs, readFrame cs f header off)
      | None =>
          if off <? 0 then (cs, Err (StHeader off))
          else orFetch h cs num off (λ cs,
            match OnPackMissing h with
            | None => (cs, Err (StHeader off))
            | Some missing =>
                match fetchAndOpenPack missing cs num with
                | (cs, Err e) => (cs, Err e)
                | (cs, Ok f) => match ReadAt f off 8 with
                                | Some header => (cs, readFrame cs f header off)
                                | None => (cs, Err (StHeader off))
                                end
                end
            end)
      end
  end.

Definition Retrieve (h : Hooks) (cs : ChunkStore) (num off : Z) : ChunkStore * result store_err bytes :=
  match cs_frameCache cs !! (num, off) with
  | Some frame => (cs, RetrieveFromFrame cs frame)
  | None =>
      match cs_files cs !! packPath num with
      | None => orFetch h cs num off (retrieveFromPack h num off)
      | Some _ => retrieveFromPack h num off cs
      end
  end.
End store.

(** ** Closing, listing and deleting *)

Definition CloseStore (h : Hooks) (cs : ChunkStore) : ChunkStore * option store_err :=
  match cs_currentPack cs with
  | HNil => (cs, None)
  | HClosed => (cs, Some StClosed)
  | HOpen =>
      let cs := setPack cs HClosed (cs_currentPackNum cs) (cs_currentOffset cs) in
      (cs, match OnPackSealed h with
           | Some f => if (0 <? cs_currentOffset cs) && negb (f (cs_currentPackNum cs) (cs_currentOffset cs)) then Some StSeal else None
           | None => None
           end)
  end.

Definition FlushStore (cs : ChunkStore) : option store_err :=
  match cs_currentPack cs with HClosed => Some StClosed | _ => None end.

Record StoreStats := mkStats { PackFiles : Z; CurrentPackNum : Z; CurrentPackBytes : Z; ss_TotalBytes : Z }.
Definition dirBytes (fs : files) : Z := foldl (λ n m, n + len (default [] (fs !! m))) 0 (ReadDir fs).
Definition Stats (cs : ChunkStore) : StoreStats :=
  mkStats (len (ReadDir (cs_files cs))) (cs_currentPackNum cs) (cs_currentOffset cs) (dirBytes (cs_files cs)).

(** Highest pack number and whether there is any. *)
Definition MaxPackNum (d : dir) : Z * bool :=
  match d with
  | None => (0, false)
  | Some fs => foldl (λ '(m, found) n, match parsePackFileName n with
                                      | Some k => (if negb found || (m <? k) then k else m, true)
                                      | None => (m, found)
                                      end) (0, false) (ReadDir fs)
  end.

Definition DeletePacksAbove (d : dir) (keepMax : Z) : dir :=
  match d with
  | None => None
  | Some fs => Some (foldl (λ fs n, match parsePackFileName n with
                                    | Some k => if keepMax <? k then delete n fs else fs
                                    | None => fs
                                    end) fs (ReadDir fs))
  end.

(** [.generation]: the mark of the pack layout; hexadecimal of 16 random bytes. *)
Definition packsGenerationFile : name := [46; 103; 101; 110; 101; 114; 97; 116; 105; 111; 110].
Definition hexLower (n : Z) : Z := if n <? 10 then 48 + n else 87 + n.
Definition hexEncode (b : bytes) : bytes := concat ((λ x, [hexLower (x / 16); hexLower (x mod 16)]) <$> b).
(** [strings.TrimSpace] on ASCII text. *)
Definition spaceByte (c : Z) : bool := ((9 <=? c) && (c <=? 13)) || (c =? 32).
Fixpoint dropSpaces (s : bytes) : bytes := match s with c :: s' => if spaceByte c then dropSpaces s' else s | [] => [] end.
Definition TrimSpaceBytes (s : bytes) : bytes := reverse (dropSpaces (reverse (dropSpaces s))).
Definition PacksGeneration (d : dir) : bytes :=
  match stat d packsGenerationFile with None => [] | Some data => TrimSpaceBytes data end.
Definition WriteGenerationFile (d : dir) (random : bytes) : dir := create d packsGenerationFile (hexEncode random).

(** ** sparse.go *)

(** The frames at the given offsets, copied to the same offsets of an empty file. *)
Fixpoint extractLoop (src : bytes) (offsets : list Z) (dst : bytes) (prevEnd kept : Z) : result store_err (bytes * Z) :=
  match offsets with
  | [] => Ok (dst, kept)
  | off :: offsets =>
      if off <? prevEnd then Err (StOverlap off)
      else
        let! header := of_option (StHeader off) (ReadAt src off 8) in
        let compressedLen := le_get (sub header 0 4) in
        if maxChunkFrameLen <? compressedLen then Err (StTooLong compressedLen)
        else
          let frameLen := 8 + compressedLen in
          let! frame := of_option StPayload (ReadAt src off frameLen) in
          extractLoop src offsets (WriteAt dst off frame) (off + frameLen) (kept + frameLen)
  end.

Definition sExtractTmp : bytes := [46; 101; 120; 116; 114; 97; 99; 116; 45; 116; 109; 112].

(** The pack is replaced by the sparse file of the same size; on an error the
    temporary file is removed and the pack is left as it was. *)
Definition ExtractFrames (fs : files) (pack : name) (offsets : list Z) : files * result store_err Z :=
  match fs !! pack with
  | None => (fs, Err (StNoPack 0))
  | Some src =>
      let fs := delete (pack ++ sExtractTmp) fs in
      match extractLoop src offsets [] (-1) 0 with
      | Err e => (fs, Err e)
      | Ok (dst, kept) => (<[pack := Truncate dst (len src)]> fs, Ok kept)
      end
  end.

(** ** Pack names *)

Lemma parse_packPath n : is_u32 n → parsePackFileName (packPath n) = Some n.
Proof.
  intros Hn. unfold parsePackFileName, packPath. rewrite HasSuffix_app, TrimSuffix_app. by apply ParseUint32_pad4.
Qed.

Lemma packPath_inj n m : is_u32 n → is_u32 m → packPath n = packPath m → n = m.
Proof. intros Hn Hm He. apply (f_equal parsePackFileName) in He. rewrite !parse_packPath in He by done. by injection He. Qed.

Lemma findLatest_fold l m : 0 ≤ m < 2 ^ 32 →
  is_u32 (foldl (λ m n, match parsePackFileName n with Some k => if m <=? k then k else m | None => m end) m l).
Proof.
  revert m. induction l as [|n l IH]; intros m Hm; [done|]. cbn [foldl]. apply IH.
  destruct (parsePackFileName n) as [k|] eqn:Hk; [|done]. destruct (m <=? k); [|done].
  unfold parsePackFileName in Hk. destruct (negb _); [done|]. by apply ParseUint32_range in Hk.
Qed.

(** ** Appending *)

(** The current pack, when open, is the file the offset ends. *)
Record store_ok (cs : ChunkStore) : Prop := {
  so_num : is_u32 (cs_currentPackNum cs);
  so_handle : cs_currentPack cs ≠ HClosed;
  so_file : cs_currentPack cs = HOpen →
    ∃ f, cs_files cs !! packPath (cs_currentPackNum cs) = Some f ∧ len f = cs_currentOffset cs }.

Lemma NewChunkStore_ok d m l k : store_ok (NewChunkStore d m l k).
Proof. split; [by apply findLatest_fold|done|done]. Qed.
Lemma NewChunkStoreAt_ok d m l n k : is_u32 n → store_ok (NewChunkStoreAt d m l n k).
Proof. by split. Qed.

(** A run of bytes of a pack. *)
Definition pack_has (fs : files) (num off : Z) (b : bytes) : Prop :=
  ∃ f, fs !! packPath num = Some f ∧ ReadAt f off (len b) = Some b.

(** Packs only grow. *)
Definition packs_grow (fs fs' : files) : Prop := ∀ n f, fs !! n = Some f → ∃ g, fs' !! n = Some (f ++ g).
#[export] Instance packs_grow_preorder : PreOrder packs_grow.
Proof.
  split; [intros fs n f Hf; exists []; by rewrite app_nil_r|].
  intros a b c Hab Hbc n f (g & Hg)%Hab. apply Hbc in Hg as (g' & Hg'). exists (g ++ g'). by rewrite app_assoc.
Qed.

Lemma ReadAt_app_l f g off n d : ReadAt f off n = Some d → ReadAt (f ++ g) off n = Some d.
Proof.
  intros H. pose proof (ReadAt_inv _ _ _ _ H) as (H1 & H2 & H3 & _). rewrite ReadAt_Some in H |- * by (rewrite ?length_app; lia).
  injection H as <-. f_equal. rewrite drop_app_le, take_app_le by (rewrite ?length_drop; lia). done.
Qed.

Lemma pack_has_grow fs fs' num off b : packs_grow fs fs' → pack_has fs num off b → pack_has fs' num off b.
Proof. intros Hg (f & Hf & Hr). apply Hg in Hf as (g & Hf'). exists (f ++ g). split; [done|]. by apply ReadAt_app_l. Qed.

Lemma openCurrentPack_ok cs : is_u32 (cs_currentPackNum cs) →
  let cs' := openCurrentPack cs in
  store_ok cs' ∧ cs_currentPack cs' = HOpen ∧ packs_grow (cs_files cs) (cs_files cs') ∧ 0 ≤ cs_currentOffset cs'.
Proof.
  intros Hn. cbn zeta. unfold openCurrentPack. set (p := packPath _). set (f := default [] _). cbn [cs_currentPack setPack cs_files setFiles cs_currentOffset].
  split; [|split; [done|split; [|lia]]].
  - split; [done|done|]. intros _. exists f. cbn. by rewrite lookup_insert_eq.
  - intros n g Hg. destruct (decide (n = p)) as [->|Hne]; [|exists []; by rewrite lookup_insert_ne, app_nil_r].
    exists []. rewrite lookup_insert_eq, app_nil_r. unfold f. by rewrite Hg.
Qed.

(** What writing leaves alone. *)
Definition same_config (cs cs' : ChunkStore) : Prop :=
  cs_maxPackSize cs' = cs_maxPackSize cs ∧ cs_level cs' = cs_level cs ∧ cs_key cs' = cs_key cs ∧
  cs_frameCache cs' = cs_frameCache cs.
#[export] Instance same_config_preorder : PreOrder same_config.
Proof. split; [done|]. intros a b c (?&?&?&?) (?&?&?&?). unfold same_config. by split_and!; etrans. Qed.

Definition seals (h : Hooks) : Prop := match OnPackSealed h with Some f => ∀ n s, f n s = true | None => True end.

Lemma rotatePack_ok h cs : seals h → cs_currentPack cs = HOpen → is_u32 (cs_currentPackNum cs + 1) →
  ∃ cs', rotatePack h cs = (cs', None) ∧ store_ok cs' ∧ cs_currentPack cs' = HOpen ∧
    packs_grow (cs_files cs) (cs_files cs') ∧ same_config cs cs' ∧ cs_currentPackNum cs' = cs_currentPackNum cs + 1 ∧
    cs_files cs' = <[packPath (cs_currentPackNum cs') := default [] (cs_files cs !! packPath (cs_currentPackNum cs'))]> (cs_files cs).
Proof.
  intros Hs Ho Hn. unfold rotatePack. rewrite Ho. cbn [cs_currentPackNum cs_currentOffset setPack].
  assert (Hb : match OnPackSealed h with Some f => f (cs_currentPackNum cs) (cs_currentOffset cs) | None => true end = true).
  { unfold seals in Hs. by destruct (OnPackSealed h). }
  rewrite Hb, u32_id by done. eexists. split; [reflexivity|].
  destruct (openCurrentPack_ok (setPack (setPack cs HClosed (cs_currentPackNum cs) (cs_currentOffset cs)) HClosed
    (cs_currentPackNum cs + 1) (cs_currentOffset cs)) Hn) as (H1 & H2 & H3 & _). done.
Qed.

Lemma WriteAt_end f d : WriteAt f (len f) d = f ++ d.
Proof.
  unfold WriteAt. rewrite Nat2Z.id, take_ge, Nat.sub_diag by lia. cbn [zeros replicate app].
  by rewrite drop_ge, app_nil_r by lia.
Qed.

Lemma packWrite_ok cs frame f : cs_files cs !! packPath (cs_currentPackNum cs) = Some f → len f = cs_currentOffset cs →
  cs_files (packWrite cs frame) = <[packPath (cs_currentPackNum cs) := f ++ frame]> (cs_files cs).
Proof. intros Hf Hl. unfold packWrite. cbn [cs_files setFiles]. rewrite Hf. cbn [default]. by rewrite <- Hl, WriteAt_end. Qed.

(** One append: where the frame went, and what the new last pack holds. *)
Record appended (cs cs' : ChunkStore) (frame : bytes) (loc : Z * Z) : Prop := {
  ap_ok : store_ok cs';
  ap_open : cs_currentPack cs' = HOpen;
  ap_grow : packs_grow (cs_files cs) (cs_files cs');
  ap_config : same_config cs cs';
  ap_loc : is_u32 loc.1 ∧ 0 ≤ loc.2;
  ap_num : cs_currentPackNum cs ≤ cs_currentPackNum cs' ≤ cs_currentPackNum cs + 1;
  ap_has : pack_has (cs_files cs') loc.1 loc.2 frame;
  ap_files : ∃ f, cs_files cs' = <[packPath (cs_currentPackNum cs') := f ++ frame]> (cs_files cs) ∧
    default [] (cs_files cs !! packPath (cs_currentPackNum cs')) = f ∧ loc = (cs_currentPackNum cs', len f) ∧
    (cs_currentPackNum cs' = cs_currentPackNum cs → f ≠ [] → len f + len frame ≤ cs_maxPackSize cs) }.

Lemma write_appended cs cs0 frame f : store_ok cs → cs_currentPack cs = HOpen →
  packs_grow (cs_files cs0) (cs_files cs) → same_config cs0 cs →
  cs_currentPackNum cs0 ≤ cs_currentPackNum cs ≤ cs_currentPackNum cs0 + 1 →
  cs_files cs !! packPath (cs_currentPackNum cs) = Some f →
  cs_files cs = <[packPath (cs_currentPackNum cs) := f]> (cs_files cs0) →
  default [] (cs_files cs0 !! packPath (cs_currentPackNum cs)) = f →
  len f = cs_currentOffset cs →
  (cs_currentPackNum cs = cs_currentPackNum cs0 → f ≠ [] → len f + len frame ≤ cs_maxPackSize cs0) →
  appended cs0 (setPack (packWrite cs frame) HOpen (cs_currentPackNum cs) (cs_currentOffset cs + len frame)) frame
    (cs_currentPackNum cs, cs_currentOffset cs).
Proof.
  intros Hok Ho Hg Hc Hn Hf Heq Hd Hl Hb. pose proof (packWrite_ok cs frame f Hf Hl) as Hw.
  assert (Hlook : cs_files (packWrite cs frame) !! packPath (cs_currentPackNum cs) = Some (f ++ frame)) by (by rewrite Hw, lookup_insert_eq).
  split; cbn [cs_files setPack cs_currentPackNum cs_currentPack fst snd].
  - split; [apply Hok|done|]. intros _. exists (f ++ frame). cbn. split; [exact Hlook|]. rewrite length_app. lia.
  - done.
  - rewrite Hw. intros n g Hgn. apply Hg in Hgn as (g' & Hg'). destruct (decide (n = packPath (cs_currentPackNum cs))) as [->|Hne].
    + rewrite Hf in Hg'. injection Hg' as ->. exists (g' ++ frame). rewrite lookup_insert_eq. by rewrite app_assoc.
    + exists g'. by rewrite lookup_insert_ne.
  - done.
  - split; [apply Hok|lia].
  - done.
  - exists (f ++ frame). split; [exact Hlook|]. rewrite <- Hl, ReadAt_Some by (rewrite ?length_app; lia).
    rewrite !Nat2Z.id, drop_app_length, take_ge by lia. done.
  - exists f. split_and!; [rewrite Hw, Heq; by rewrite insert_insert_eq|done|by rewrite Hl|done].
Qed.

Lemma appendFrame_ok h cs frame : seals h → store_ok cs → cs_currentPack cs = HOpen → is_u32 (cs_currentPackNum cs + 1) →
  ∃ cs' loc, appendFrame h cs frame (len frame) = (cs', Ok loc) ∧ appended cs cs' frame loc.
Proof.
  intros Hs Hok Ho Hn. unfold appendFrame. destruct (so_file cs Hok Ho) as (f & Hf & Hl).
  destruct (needsRotate cs (len frame)) eqn:Hr.
  - destruct (rotatePack_ok h cs Hs Ho Hn) as (cs1 & -> & Hok1 & Ho1 & Hg1 & Hc1 & Hn1 & Hf1). rewrite Ho1.
    destruct (so_file cs1 Hok1 Ho1) as (f1 & Hl1 & Hlen1). eexists _, _. split; [reflexivity|].
    assert (Hd : default [] (cs_files cs !! packPath (cs_currentPackNum cs1)) = f1).
    { rewrite Hf1, lookup_insert_eq in Hl1. by injection Hl1. }
    apply (write_appended cs1 cs frame f1); try done; [lia|rewrite Hf1, Hd; done|lia].
  - rewrite Ho. eexists _, _. split; [reflexivity|].
    assert (Hd : default [] (cs_files cs !! packPath (cs_currentPackNum cs)) = f) by (by rewrite Hf).
    apply (write_appended cs cs frame f); try done; [lia|by rewrite insert_id|].
    intros _ Hne. unfold needsRotate in Hr. apply andb_false_iff in Hr as [Hr|Hr]; zbool; [lia|].
    destruct f; [done|]. cbn in Hl. lia.
Qed.

Lemma ensureCurrentPack_ok cs : store_ok cs → let cs' := ensureCurrentPack cs in
  store_ok cs' ∧ cs_currentPack cs' = HOpen ∧ packs_grow (cs_files cs) (cs_files cs') ∧ same_config cs cs' ∧
  cs_currentPackNum cs' = cs_currentPackNum cs ∧
  (cs_files cs' = cs_files cs ∨
   cs_files cs !! packPath (cs_currentPackNum cs) = None ∧ cs_files cs' = <[packPath (cs_currentPackNum cs) := []]> (cs_files cs)).
Proof.
  intros Hok. unfold ensureCurrentPack. destruct (cs_currentPack cs) eqn:Ho; [|by split_and!; try left|by destruct (so_handle cs Hok)].
  destruct (openCurrentPack_ok cs (so_num cs Hok)) as (H1 & H2 & H3 & _). cbn zeta. split_and!; try done.
  cbn [openCurrentPack setPack setFiles cs_files]. destruct (cs_files cs !! packPath (cs_currentPackNum cs)) eqn:Hf; [left|by right].
  cbn [default]. by rewrite insert_id.
Qed.

(** ** Chunks *)

Section chunks.
Context {PR : Primitives} {ZS : Zstd}.

Lemma seal_open_payload cs nonce data : key_ok (cs_key cs) → length nonce = 12%nat →
  ∃ p, sealPayload cs nonce data = Ok p ∧ openPayload (cs_key cs) p = Ok data.
Proof.
  intros Hk Hn. unfold sealPayload, openPayload. destruct (cs_key cs) as [k|].
  - destruct (decrypt_encrypt k nonce (EncodeAll (presetNumber (CompressionPreset (cs_level cs))) data) AADChunk Hk Hn) as (c & -> & Hd & _).
    exists c. split; [done|]. rewrite Hd. cbn [rbind]. by rewrite decode_encode.
  - eexists. split; [reflexivity|]. cbn [rbind]. by rewrite decode_encode.
Qed.

Lemma length_frameOf p r : length (frameOf p r) = (8 + length p)%nat.
Proof. unfold frameOf. by rewrite !length_app, !length_PutUint32. Qed.

Lemma frameOf_fields p r : len p < 2 ^ 32 →
  le_get (sub (frameOf p r) 0 4) = len p ∧ le_get (sub (frameOf p r) 4 4) = u32 r ∧ sub (frameOf p r) 8 (length p) = p.
Proof.
  intros Hp. unfold frameOf. pose proof (length_PutUint32 (u32 (len p))) as L1. pose proof (length_PutUint32 (u32 r)) as L2. split_and!.
  - rewrite sub_app_here by done. rewrite le_get_PutUint32 by apply u32_range. apply u32_id. unfold is_u32. lia.
  - rewrite sub_app_skip, L1 by lia. cbn [Nat.sub]. rewrite sub_app_here by done. apply le_get_PutUint32, u32_range.
  - rewrite !sub_app_skip, L1, L2 by lia. cbn [Nat.sub]. by apply sub_all.
Qed.

(** Files of the operating system. *)
Definition small_packs (fs : files) : Prop := ∀ n f, fs !! n = Some f → len f < 2 ^ 63.

(** A frame in a pack: its header and payload are where the readers look. *)
Lemma pack_has_frame fs num off p r : small_packs fs → len p ≤ maxChunkFrameLen → pack_has fs num off (frameOf p r) →
  ∃ f, fs !! packPath num = Some f ∧ ReadAt f off 8 = Some (sub (frameOf p r) 0 8) ∧
    readPayload f off (len p) = Ok p ∧ le_get (sub (sub (frameOf p r) 0 8) 0 4) = len p ∧
    le_get (sub (sub (frameOf p r) 0 8) 4 4) = u32 r.
Proof.
  intros Hs Hp (f & Hf & Hr). pose proof (Hs _ _ Hf) as Hlf. change maxChunkFrameLen with 67108864 in Hp.
  pose proof (ReadAt_inv _ _ _ _ Hr) as (H1 & _ & H3 & _). rewrite length_frameOf in H3.
  destruct (frameOf_fields p r ltac:(lia)) as (F1 & F2 & F3). exists f. split; [done|].
  rewrite ReadAt_Some in Hr by (rewrite ?length_frameOf; lia). injection Hr as Hr.
  assert (Hsub : ∀ o n, (o + n ≤ 8 + length p)%nat → sub f (Z.to_nat off + o) n = sub (frameOf p r) o n).
  { intros o n Hon. rewrite <- Hr at 1. unfold sub at 2. rewrite length_frameOf, Nat2Z.id. rewrite skipn_firstn_comm, take_take, Nat.min_l by lia.
    rewrite drop_drop. done. }
  rewrite !sub_sub by lia. split_and!; [..|done|done].
  - rewrite ReadAt_sub by lia. f_equal. rewrite <- (Hsub 0%nat 8%nat) by lia. f_equal. lia.
  - unfold readPayload. rewrite i64_id by (unfold is_i64; lia). destruct (len p =? 0) eqn:Hz; zbool.
    + rewrite (proj2 (Z.ltb_ge _ _)) by lia. by destruct p.
    + rewrite ReadAt_sub by lia. cbn [of_option]. f_equal. rewrite Nat2Z.id. rewrite <- F3 at 2. rewrite <- Hsub by lia. f_equal. lia.
Qed.

Lemma Retrieve_frame h cs num off p r : cs_frameCache cs !! (num, off) = None → small_packs (cs_files cs) →
  len p ≤ maxChunkFrameLen → pack_has (cs_files cs) num off (frameOf p r) →
  Retrieve h cs num off = (cs, openPayload (cs_key cs) p).
Proof.
  intros Hc Hs Hp Hh. destruct (pack_has_frame _ _ _ _ _ Hs Hp Hh) as (f & Hf & H8 & Hpay & H4 & _).
  unfold Retrieve, retrieveFromPack. rewrite Hc, Hf. unfold openPackForRead. rewrite Hf, H8. unfold readFrame. rewrite H4, Hpay.
  by rewrite (proj2 (Z.ltb_ge _ _)).
Qed.

Lemma RetrieveRaw_frame cs num off p r : small_packs (cs_files cs) → len p ≤ maxChunkFrameLen → pack_has (cs_files cs) num off (frameOf p r) →
  RetrieveRaw cs num off = Ok (frameOf p r, u32 r).
Proof.
  intros Hs Hp Hh. destruct (pack_has_frame _ _ _ _ _ Hs Hp Hh) as (f & Hf & H8 & Hpay & H4 & H5).
  unfold RetrieveRaw. rewrite Hf. cbn [of_option rbind]. rewrite H8. cbn [of_option rbind]. rewrite H4, H5, Hpay.
  rewrite (proj2 (Z.ltb_ge _ _)) by done. cbn [rbind]. reflexivity.
Qed.

(** What one stored chunk promises. *)
Lemma Store_ok h cs nonce data : seals h → store_ok cs → key_ok (cs_key cs) → length nonce = 12%nat → is_u32 (cs_currentPackNum cs + 1) →
  ∃ p cs' loc, sealPayload cs nonce data = Ok p ∧ openPayload (cs_key cs) p = Ok data ∧
    Store h cs nonce data = (cs', Ok (loc, len p)) ∧ appended (ensureCurrentPack cs) cs' (frameOf p (len data)) loc.
Proof.
  intros Hs Hok Hk Hn Hb. destruct (ensureCurrentPack_ok cs Hok) as (H1 & H2 & _ & Hc & H5 & _).
  destruct (seal_open_payload cs nonce data Hk Hn) as (p & Hp & Ho). unfold Store.
  assert (Hp' : sealPayload (ensureCurrentPack cs) nonce data = Ok p).
  { destruct Hc as (_ & Hl & Hk' & _). unfold sealPayload in *. by rewrite Hl, Hk'. }
  rewrite Hp'. replace (8 + len p) with (len (frameOf p (len data))) by (rewrite length_frameOf; lia).
  rewrite <- H5 in Hb. destruct (appendFrame_ok h _ (frameOf p (len data)) Hs H1 H2 Hb) as (cs' & loc & -> & Ha).
  exists p, cs', loc. done.
Qed.

Lemma StoreRaw_ok h cs frame : seals h → store_ok cs → is_u32 (cs_currentPackNum cs + 1) →
  ∃ cs' loc, StoreRaw h cs frame = (cs', Ok (loc, len frame - 8)) ∧ appended (ensureCurrentPack cs) cs' frame loc.
Proof.
  intros Hs Hok Hb. destruct (ensureCurrentPack_ok cs Hok) as (H1 & H2 & _ & Hc & H5 & _).
  unfold StoreRaw. rewrite <- H5 in Hb. destruct (appendFrame_ok h _ frame Hs H1 H2 Hb) as (cs' & loc & -> & Ha).
  exists cs', loc. done.
Qed.
(** ** Sessions *)

Fixpoint storeAll (h : Hooks) (cs : ChunkStore) (items : list (bytes * bytes)) : ChunkStore * list (result store_err (Z * Z * Z)) :=
  match items with
  | [] => (cs, [])
  | (nonce, data) :: items =>
      let '(cs, r) := Store h cs nonce data in
      let '(cs, rs) := storeAll h cs items in (cs, r :: rs)
  end.

(** A nonce of the right length, and a payload below the bound readers enforce. *)
Definition item_fits (cs : ChunkStore) (it : bytes * bytes) : Prop :=
  length it.1 = 12%nat ∧ ∀ p, sealPayload cs it.1 it.2 = Ok p → len p ≤ maxChunkFrameLen.

Lemma sealPayload_config cs cs' n d : same_config cs cs' → sealPayload cs' n d = sealPayload cs n d.
Proof. intros (_ & Hl & Hk & _). unfold sealPayload. by rewrite Hl, Hk. Qed.

(** A chunk is stored at a location: its sealed payload is framed there. *)
Definition stored_at (key : option bytes) (fs : files) (loc : Z * Z) (data : bytes) : Prop :=
  is_u32 loc.1 ∧ ∃ p, len p ≤ maxChunkFrameLen ∧ openPayload key p = Ok data ∧ pack_has fs loc.1 loc.2 (frameOf p (len data)).

Lemma stored_at_grow key fs fs' loc data : packs_grow fs fs' → stored_at key fs loc data → stored_at key fs' loc data.
Proof. intros Hg (? & p & ? & ? & ?). split; [done|]. exists p. split_and!; try done. by eapply pack_has_grow. Qed.

Lemma stored_at_Retrieve h cs num off data : cs_frameCache cs !! (num, off) = None → small_packs (cs_files cs) →
  stored_at (cs_key cs) (cs_files cs) (num, off) data → Retrieve h cs num off = (cs, Ok data).
Proof. intros Hc Hs (_ & p & Hp & Ho & Hh). cbn [fst snd] in Hh. rewrite (Retrieve_frame h cs num off p (len data)) by done. by rewrite Ho. Qed.

Lemma stored_at_offset key fs loc data : small_packs fs → stored_at key fs loc data → 0 ≤ loc.2 < 2 ^ 63.
Proof.
  intros Hs (_ & p & _ & _ & f & Hf & Hr). apply ReadAt_inv in Hr as (? & ? & ? & _). specialize (Hs _ _ Hf).
  rewrite length_frameOf in *. lia.
Qed.

Lemma storeAll_ok h items cs : seals h → store_ok cs → key_ok (cs_key cs) → Forall (item_fits cs) items →
  cs_currentPackNum cs + len items < 2 ^ 32 →
  ∃ cs' rs, storeAll h cs items = (cs', rs) ∧ store_ok cs' ∧ packs_grow (cs_files cs) (cs_files cs') ∧ same_config cs cs' ∧
    Forall2 (λ it r, ∃ loc n, r = Ok (loc, n) ∧ stored_at (cs_key cs) (cs_files cs') loc it.2) items rs.
Proof.
  intros Hs. revert cs. induction items as [|[nonce data] items IH]; intros cs Hok Hk Hf Hn.
  { exists cs, []. split_and!; [done|done|reflexivity|reflexivity|constructor]. }
  apply Forall_cons in Hf as [[Hl Hp] Hf]. cbn [fst snd] in *. cbn [length] in Hn.
  assert (is_u32 (cs_currentPackNum cs + 1)) by (pose proof (so_num cs Hok); unfold is_u32 in *; lia).
  destruct (Store_ok h cs nonce data Hs Hok Hk Hl) as (p & cs1 & loc & Hseal & Hop & Hst & Ha); [done|].
  destruct (ensureCurrentPack_ok cs Hok) as (_ & _ & Hg0 & Hc0 & Hn0 & _).
  assert (Hc1 : same_config cs cs1) by (etrans; [exact Hc0|apply Ha]).
  pose proof (ap_num _ _ _ _ Ha) as Hn1.
  destruct (IH cs1) as (cs' & rs & Hrun & Hok' & Hg & Hc & Hall).
  { apply Ha. } { by rewrite (proj1 (proj2 (proj2 Hc1))). }
  { eapply Forall_impl; [exact Hf|]. intros it [? Hit]. split; [done|]. intros q. rewrite (sealPayload_config cs cs1) by done. apply Hit. }
  { lia. }
  cbn [storeAll]. rewrite Hst, Hrun. exists cs', (Ok (loc, len p) :: rs). split_and!; [done|done|..].
  - etrans; [exact Hg0|]. etrans; [apply Ha|exact Hg].
  - by etrans.
  - rewrite (proj1 (proj2 (proj2 Hc1))) in Hall. constructor; [|done]. exists loc, (len p). split; [done|].
    eapply stored_at_grow; [exact Hg|]. split; [apply Ha|]. exists p. split_and!; [by apply Hp|done|apply Ha].
Qed.

(** ** Pack sizes *)

Definition bounded (max : Z) (fs : files) : Prop := ∀ n f, fs !! n = Some f → len f ≤ max ∨ ∃ p r, f = frameOf p r.
Definition nothing_above (fs : files) (num : Z) : Prop := ∀ k, is_u32 k → num < k → fs !! packPath k = None.

Lemma findLatestPack_max fs n k : is_Some (fs !! n) → parsePackFileName n = Some k → k ≤ findLatestPack fs.
Proof.
  intros Hin%elem_of_ReadDir Hk. unfold findLatestPack. generalize 0 as m.
  assert (Hmono : ∀ l m, m ≤ foldl (λ m n, match parsePackFileName n with Some k => if m <=? k then k else m | None => m end) m l).
  { induction l as [|x l IH]; intros m; [done|]. cbn [foldl]. etrans; [|apply IH].
    destruct (parsePackFileName x); [|done]. destruct (m <=? z) eqn:Hm; zbool; lia. }
  induction (ReadDir fs) as [|x l IH]; intros m; [by apply elem_of_nil in Hin|]. cbn [foldl].
  apply elem_of_cons in Hin as [<-|Hin]; [|by apply IH]. etrans; [|apply Hmono]. rewrite Hk. destruct (m <=? k) eqn:Hm; zbool; lia.
Qed.

Lemma findLatest_le fs m : 0 ≤ m → (∀ n k, is_Some (fs !! n) → parsePackFileName n = Some k → k ≤ m) → findLatestPack fs ≤ m.
Proof.
  intros Hm H. unfold findLatestPack. assert (H' : ∀ n k, n ∈ ReadDir fs → parsePackFileName n = Some k → k ≤ m).
  { intros n k Hn. apply H. by apply elem_of_ReadDir. }
  clear H. revert Hm. generalize 0 as a. induction (ReadDir fs) as [|x l IH]; intros a Ha; [done|]. cbn [foldl].
  apply IH; [intros; eapply H'; [by right|done]|]. destruct (parsePackFileName x) eqn:Hx; [|done].
  destruct (a <=? z); [|done]. eapply H'; [left|done].
Qed.

Lemma nothing_above_latest fs : nothing_above fs (findLatestPack fs).
Proof.
  intros k Hk Hlt. destruct (fs !! packPath k) eqn:Hf; [|done].
  pose proof (findLatestPack_max fs (packPath k) k (mk_is_Some _ _ Hf) (parse_packPath k Hk)). lia.
Qed.

Lemma nothing_above_insert fs num k f : is_u32 num → nothing_above fs k → k ≤ num → nothing_above (<[packPath num := f]> fs) num.
Proof.
  intros Hn H Hk j Hj Hlt. rewrite lookup_insert_ne; [apply H; [done|lia]|]. intros ?%packPath_inj; [lia|done|done].
Qed.

Lemma appended_bounded cs cs' p r loc : nothing_above (cs_files cs) (cs_currentPackNum cs) →
  appended cs cs' (frameOf p r) loc → bounded (cs_maxPackSize cs) (cs_files cs) →
  bounded (cs_maxPackSize cs) (cs_files cs') ∧ nothing_above (cs_files cs') (cs_currentPackNum cs').
Proof.
  intros Hab Ha Hb. destruct (ap_files _ _ _ _ Ha) as (f & Heq & Hd & _ & Hl). pose proof (ap_num _ _ _ _ Ha).
  pose proof (so_num _ (ap_ok _ _ _ _ Ha)) as Hu. rewrite Heq. split; [|apply (nothing_above_insert _ _ _ _ Hu Hab); lia].
  intros n g. destruct (decide (n = packPath (cs_currentPackNum cs'))) as [->|Hne]; [|rewrite lookup_insert_ne by done; apply Hb].
  rewrite lookup_insert_eq. intros [= <-]. destruct f as [|x f]; [right; by exists p, r|].
  left. rewrite length_app. destruct (decide (cs_currentPackNum cs' = cs_currentPackNum cs)) as [Hsame|Hdiff].
  - specialize (Hl Hsame ltac:(done)). lia.
  - rewrite Hab in Hd; [done|done|lia].
Qed.

Lemma storeAll_bounded h items cs cs' rs : seals h → store_ok cs → key_ok (cs_key cs) → Forall (λ it, length it.1 = 12%nat) items →
  cs_currentPackNum cs + len items < 2 ^ 32 → 0 ≤ cs_maxPackSize cs →
  nothing_above (cs_files cs) (cs_currentPackNum cs) → bounded (cs_maxPackSize cs) (cs_files cs) →
  storeAll h cs items = (cs', rs) → bounded (cs_maxPackSize cs) (cs_files cs').
Proof.
  intros Hs. revert cs rs. induction items as [|[nonce data] items IH]; intros cs rs Hok Hk Hf Hn Hm Hab Hb.
  { by intros [= <- <-]. }
  apply Forall_cons in Hf as [Hl Hf]. cbn [fst length] in *. cbn [storeAll].
  assert (is_u32 (cs_currentPackNum cs + 1)) by (pose proof (so_num cs Hok); unfold is_u32 in *; lia).
  destruct (Store_ok h cs nonce data Hs Hok Hk Hl) as (p & cs1 & loc & Hseal & Hop & Hst & Ha); [done|]. rewrite Hst.
  destruct (ensureCurrentPack_ok cs Hok) as (_ & _ & _ & Hc0 & Hn0 & Hfs).
  assert (Hc1 : same_config cs cs1) by (etrans; [exact Hc0|apply Ha]). pose proof (ap_num _ _ _ _ Ha) as Hn1.
  destruct (appended_bounded (ensureCurrentPack cs) cs1 p (len data) loc) as [Hb1 Hab1]; [|exact Ha|..].
  { rewrite Hn0. destruct Hfs as [->|[_ ->]]; [done|]. eapply nothing_above_insert; [apply Hok|exact Hab|done]. }
  { rewrite (proj1 Hc0). destruct Hfs as [->|[_ ->]]; [done|]. intros n f.
    destruct (decide (n = packPath (cs_currentPackNum cs))) as [->|Hne]; [|rewrite lookup_insert_ne by done; apply Hb].
    rewrite lookup_insert_eq. intros [= <-]. left. done. }
  rewrite (proj1 Hc0) in Hb1. destruct (storeAll h cs1 items) as [cs2 rs2] eqn:Hrun. intros [= -> _].
  rewrite <- (proj1 Hc1) in *. eapply (IH cs1); [apply Ha|by rewrite (proj1 (proj2 (proj2 Hc1)))|done|lia|done|done|done|exact Hrun].
Qed.
End chunks.
