(* ===== verification/PackCache.v ===== *)
(** * core/store: the frame cache, remote packs, sparse packs and the pack listing

    The invariant of the bounded frame cache over every history of a store; a store
    that fetches from a remote repository reads what is stored there, from whichever
    of cache, local pack, range fetch and download; sparse extraction keeps the frames
    asked for; the pack listing finds the highest number and deletes above one. *)

From S2P Require Import Prelude GoBytes GoFiles Crypto PackStore.

(** ** The frame cache *)

Definition orderBytes (cache : gmap (Z * Z) bytes) (order : list (Z * Z)) : Z :=
  foldr (λ k n, len (default [] (cache !! k)) + n) 0 order.

(** Order and cache hold the same frames, the byte count is theirs, and the ceiling
    is exceeded by a single frame only. *)
Record frames_ok (order : list (Z * Z)) (cache : gmap (Z * Z) bytes) (n : Z) : Prop := {
  fo_nodup : NoDup order;
  fo_dom : ∀ k, k ∈ order ↔ is_Some (cache !! k);
  fo_bytes : n = orderBytes cache order }.
Definition cache_ok (cs : ChunkStore) : Prop :=
  frames_ok (cs_frameOrder cs) (cs_frameCache cs) (cs_frameCacheBytes cs) ∧
  (cs_frameCacheBytes cs ≤ FrameCacheMaxBytes ∨ (length (cs_frameOrder cs) ≤ 1)%nat).

Lemma orderBytes_app c l k : orderBytes c (l ++ k) = orderBytes c l + orderBytes c k.
Proof. induction l as [|x l IH]; [done|]. unfold orderBytes in *. cbn [app foldr]. rewrite IH. lia. Qed.

Lemma orderBytes_cons c k l : orderBytes c (k :: l) = len (default [] (c !! k)) + orderBytes c l.
Proof. done. Qed.

Lemma orderBytes_ext c c' l : (∀ k, k ∈ l → c' !! k = c !! k) → orderBytes c' l = orderBytes c l.
Proof.
  induction l as [|x l IH]; intros H; [done|]. unfold orderBytes in *. cbn [foldr].
  rewrite IH by (intros; apply H; by right). by rewrite H by left.
Qed.

Lemma frames_ok_tail x l c n v : frames_ok (x :: l) c n → c !! x = Some v → frames_ok l (delete x c) (n - len v).
Proof.
  intros [Hnd Hdom Hn] Hv. apply NoDup_cons in Hnd as [Hx Hnd]. split; [done|..].
  - intros k. rewrite lookup_delete. case_decide as Hk; [subst; split; [done|by intros []]|].
    rewrite <- Hdom, elem_of_cons. naive_solver.
  - rewrite Hn, orderBytes_cons, Hv, (orderBytes_ext c (delete x c)); [cbn [from_option id]; lia|]. intros k Hk. rewrite lookup_delete_ne; [done|]. by intros ->.
Qed.

Lemma frames_ok_head x l c n : frames_ok (x :: l) c n → ∃ v, c !! x = Some v.
Proof. intros [_ Hdom _]. destruct (proj1 (Hdom x) ltac:(left)) as [v Hv]. by exists v. Qed.

Lemma evict_ok order : ∀ cache n o c m, frames_ok order cache n → evict order cache n = (o, c, m) →
  frames_ok o c m ∧ (m ≤ FrameCacheMaxBytes ∨ (length o ≤ 1)%nat) ∧ (∃ gone, order = gone ++ o) ∧ last o = last order ∧ c ⊆ cache.
Proof.
  induction order as [|x order IH]; intros cache n o c m Hok He.
  { injection He as <- <- <-. split_and!; try done; [right; cbn; lia|by exists []]. }
  destruct order as [|y order]; [injection He as <- <- <-; split_and!; try done; [right; cbn; lia|by exists []]|].
  cbn [evict] in He. destruct (FrameCacheMaxBytes <? n) eqn:Hm; zbool.
  - destruct (frames_ok_head _ _ _ _ Hok) as (v & Hv). rewrite Hv in He. pose proof (frames_ok_tail _ _ _ _ _ Hok Hv) as Hok'.
    destruct (IH _ _ _ _ _ Hok' He) as (H1 & H2 & (g & Hg) & H4 & H5). split_and!; try done.
    + exists (x :: g). by rewrite Hg.
    + etrans; [exact H5|apply delete_subseteq].
  - injection He as <- <- <-. split_and!; try done; [by left|by exists []].
Qed.

Lemma CacheFrame_ok cs num off frame : cache_ok cs → cache_ok (CacheFrame cs num off frame).
Proof.
  intros [[Hnd Hdom Hn] Hb]. unfold CacheFrame. destruct (cs_frameCache cs !! (num, off)) eqn:Hc; [by split|].
  assert (Hin : (num, off) ∉ cs_frameOrder cs) by (rewrite Hdom, Hc; by intros []).
  destruct (evict _ _ _) as [[o c] m] eqn:He.
  eapply evict_ok in He as (H1 & H2 & _); [by split|].
  split.
  - apply NoDup_app. split_and!; [done| |apply NoDup_singleton]. intros k Hk ->%list_elem_of_singleton. done.
  - intros k. rewrite elem_of_app, list_elem_of_singleton, lookup_insert. case_decide; [naive_solver|].
    rewrite Hdom. naive_solver.
  - rewrite orderBytes_app, orderBytes_cons, Hn, lookup_insert_eq. cbn [from_option id orderBytes foldr].
    rewrite (orderBytes_ext (cs_frameCache cs) (<[(num, off):=frame]> _)); [lia|]. intros k Hk. rewrite lookup_insert_ne; [done|]. by intros <-.
Qed.

Lemma orderBytes_nonneg c l : 0 ≤ orderBytes c l.
Proof. induction l as [|x l IH]; [done|]. rewrite orderBytes_cons. lia. Qed.

Lemma dropLoop_ok num order : ∀ cache n o c m, NoDup order → (∀ k, k ∈ order → is_Some (cache !! k)) →
  dropLoop num order cache n = (o, c, m) →
  o = filter (λ k, k.1 ≠ num) order ∧ m = n - orderBytes cache order + orderBytes cache o ∧
  ∀ k, c !! k = if decide (k ∈ order ∧ k.1 = num) then None else cache !! k.
Proof.
  induction order as [|x order IH]; intros cache n o c m Hnd Hin He.
  { injection He as <- <- <-. split_and!; [done|cbn; lia|]. intros k. rewrite decide_False; [done|]. by intros [?%elem_of_nil _]. }
  apply NoDup_cons in Hnd as [Hx Hnd]. cbn [dropLoop] in He. destruct (Hin x ltac:(left)) as (v & Hv).
  rewrite orderBytes_cons, Hv. cbn [from_option id]. destruct (negb (x.1 =? num)) eqn:Hd; zbool.
  - destruct (dropLoop num order cache n) as [[kept c1] m1] eqn:He1. injection He as <- <- <-.
    destruct (IH _ _ _ _ _ Hnd ltac:(intros; apply Hin; by right) He1) as (-> & -> & Hc). split_and!.
    + by rewrite filter_cons_True.
    + rewrite orderBytes_cons, Hv. cbn [from_option id]. lia.
    + intros k. rewrite Hc. apply decide_ext. rewrite elem_of_cons. naive_solver.
  - rewrite Hv in He. assert (Hne : ∀ k, k ∈ order → delete x cache !! k = cache !! k).
    { intros k Hk. rewrite lookup_delete_ne; [done|]. by intros ->. }
    apply IH in He as (-> & -> & Hc); [|done|intros k Hk; rewrite Hne by done; apply Hin; by right].
    split_and!.
    + rewrite filter_cons_False; [done|]. intros Hn. by apply Hn.
    + rewrite !(orderBytes_ext cache (delete x cache)); [lia| |exact Hne]. intros k [_ Hk]%list_elem_of_filter. by apply Hne.
    + intros k. rewrite Hc, lookup_delete. repeat case_decide; set_solver.
Qed.

Lemma DropFrames_ok cs num : cache_ok cs → let cs' := DropFrames cs num in
  cache_ok cs' ∧ cs_frameCacheBytes cs' ≤ cs_frameCacheBytes cs ∧
  ∀ k, cs_frameCache cs' !! k = if decide (k.1 = num) then None else cs_frameCache cs !! k.
Proof.
  intros [[Hnd Hdom Hn] Hb]. unfold DropFrames. destruct (dropLoop _ _ _ _) as [[o c] m] eqn:He.
  destruct (dropLoop_ok num _ _ _ _ _ _ Hnd (λ k, proj1 (Hdom k)) He) as (-> & Hm & Hc). cbn zeta.
  cbn [setCache cs_frameCache cs_frameOrder cs_frameCacheBytes cache_ok].
  assert (Hc' : ∀ k, c !! k = if decide (k.1 = num) then None else cs_frameCache cs !! k).
  { intros k. rewrite Hc. repeat case_decide; try naive_solver. destruct (cs_frameCache cs !! k) eqn:Hk; [|done].
    exfalso. naive_solver. }
  assert (Hle : orderBytes (cs_frameCache cs) (filter (λ k, k.1 ≠ num) (cs_frameOrder cs)) ≤ orderBytes (cs_frameCache cs) (cs_frameOrder cs)).
  { clear. induction (cs_frameOrder cs) as [|x l IH]; [done|]. rewrite filter_cons. case_decide; rewrite !orderBytes_cons; lia. }
  split; [split; [split|]|split; [lia|exact Hc']]; cbn [setCache cs_frameCache cs_frameOrder cs_frameCacheBytes].
  - by apply NoDup_filter.
  - intros k. rewrite list_elem_of_filter, Hc', Hdom. case_decide; [|naive_solver]. split; [naive_solver|by intros []].
  - rewrite Hm, Hn. rewrite (orderBytes_ext (cs_frameCache cs) c); [lia|].
    intros k [Hk _]%list_elem_of_filter. rewrite Hc', decide_False by done. done.
  - destruct Hb as [Hb|Hb]; [left; lia|right]. etrans; [apply length_filter|done].
Qed.

(** ** Histories of a store *)

Section histories.
Context {PR : Primitives} {ZS : Zstd}.

Inductive store_step (h : Hooks) : ChunkStore → ChunkStore → Prop :=
| step_store cs nonce data : store_step h cs (Store h cs nonce data).1
| step_raw cs frame : store_step h cs (StoreRaw h cs frame).1
| step_retrieve cs num off : store_step h cs (Retrieve h cs num off).1
| step_cache cs num off frame : store_step h cs (CacheFrame cs num off frame)
| step_drop cs num : store_step h cs (DropFrames cs num)
| step_close cs : store_step h cs (CloseStore h cs).1.

(** The part of a store the cache invariant reads. *)
Definition cache_of (cs : ChunkStore) := (cs_frameOrder cs, cs_frameCache cs, cs_frameCacheBytes cs).
Lemma cache_ok_of cs cs' : cache_of cs' = cache_of cs → cache_ok cs → cache_ok cs'.
Proof. unfold cache_of, cache_ok. by intros [= -> -> ->]. Qed.

Lemma appendFrame_cache h cs frame n : cache_of (appendFrame h cs frame n).1 = cache_of cs.
Proof.
  unfold appendFrame, rotatePack. destruct (needsRotate cs n), (cs_currentPack cs); try done; repeat case_match; simplify_eq; done.
Qed.
Lemma ensure_cache cs : cache_of (ensureCurrentPack cs) = cache_of cs.
Proof. unfold ensureCurrentPack. by destruct (cs_currentPack cs). Qed.

Lemma Store_cache h cs nonce data : cache_of (Store h cs nonce data).1 = cache_of cs.
Proof.
  rewrite <- (ensure_cache cs). unfold Store. destruct (sealPayload _ _ _); [|done]. rewrite <- (appendFrame_cache h (ensureCurrentPack cs) (frameOf a (len data)) (8 + len a)).
  by destruct (appendFrame _ _ _ _).
Qed.
Lemma StoreRaw_cache h cs frame : cache_of (StoreRaw h cs frame).1 = cache_of cs.
Proof.
  rewrite <- (ensure_cache cs). unfold StoreRaw. rewrite <- (appendFrame_cache h (ensureCurrentPack cs) frame (len frame)).
  by destruct (appendFrame _ _ _ _).
Qed.

Lemma chunkFetch_ok fetch cs num off : cache_ok cs → cache_ok (chunkFetch fetch cs num off).1.
Proof. intros H. unfold chunkFetch. destruct (fetch num off) as [frame|[]]; [by apply CacheFrame_ok|done..]. Qed.

Lemma orFetch_ok h cs num off k : cache_ok cs → (∀ cs', cache_ok cs' → cache_ok (k cs').1) → cache_ok (orFetch h cs num off k).1.
Proof.
  intros Hc Hk. unfold orFetch. destruct (OnChunkFetch h) as [fetch|]; [|by apply Hk].
  pose proof (chunkFetch_ok fetch cs num off Hc). destruct (chunkFetch fetch cs num off) as [cs1 [r|]]; [done|by apply Hk].
Qed.

Lemma fetchAndOpenPack_ok missing cs num : cache_ok cs → cache_ok (fetchAndOpenPack missing cs num).1.
Proof. intros H. unfold fetchAndOpenPack. destruct (missing (cs_files cs) num) as [fs [[]|]]; done. Qed.

Lemma openPackForRead_ok h cs num : cache_ok cs → cache_ok (openPackForRead h cs num).1.
Proof.
  intros H. unfold openPackForRead. destruct (cs_files cs !! packPath num), (OnPackMissing h); try done. by apply fetchAndOpenPack_ok.
Qed.

Lemma retrieveFromPack_ok h num off cs : cache_ok cs → cache_ok (retrieveFromPack h num off cs).1.
Proof.
  intros H. unfold retrieveFromPack. pose proof (openPackForRead_ok h cs num H).
  destruct (openPackForRead h cs num) as [cs1 [f|e]]; [|by apply orFetch_ok].
  destruct (ReadAt f off 8); [done|]. destruct (off <? 0); [done|]. apply orFetch_ok; [done|]. intros cs2 H2.
  destruct (OnPackMissing h) as [missing|]; [|done]. pose proof (fetchAndOpenPack_ok missing cs2 num H2).
  destruct (fetchAndOpenPack missing cs2 num) as [cs3 [f3|e3]]; [|done]. by destruct (ReadAt f3 off 8).
Qed.

Lemma Retrieve_cache_ok h cs num off : cache_ok cs → cache_ok (Retrieve h cs num off).1.
Proof.
  intros H. unfold Retrieve. destruct (cs_frameCache cs !! (num, off)); [done|].
  destruct (cs_files cs !! packPath num); [by apply retrieveFromPack_ok|].
  apply orFetch_ok; [done|]. apply retrieveFromPack_ok.
Qed.

Lemma store_step_cache h cs cs' : store_step h cs cs' → cache_ok cs → cache_ok cs'.
Proof.
  intros [? nonce data|? frame|? num off|? num off frame|? num|?] H.
  - apply (cache_ok_of cs0); [apply Store_cache|done].
  - apply (cache_ok_of cs0); [apply StoreRaw_cache|done].
  - by apply Retrieve_cache_ok.
  - by apply CacheFrame_ok.
  - by apply DropFrames_ok.
  - apply (cache_ok_of cs0); [|done]. unfold CloseStore. by destruct (cs_currentPack cs0).
Qed.

Lemma cache_ok_new d m l n k : cache_ok (newChunkStore d m l n k).
Proof. split; [split; [constructor| |done]|by left]. intros j. cbn [newChunkStore cs_frameCache cs_frameOrder]. rewrite lookup_empty. split; [by intros ?%elem_of_nil|by intros []]. Qed.
End histories.

(** ** Reading from a remote repository *)

Lemma evict_cons2 x y l c n : evict (x :: y :: l) c n =
  if FrameCacheMaxBytes <? n then match c !! x with Some v => evict (y :: l) (delete x c) (n - len v) | None => evict (y :: l) c n end
  else (x :: y :: l, c, n).
Proof. done. Qed.

Lemma evict_subseteq order : ∀ cache n, (evict order cache n).1.2 ⊆ cache.
Proof.
  induction order as [|x [|y order] IH]; intros cache n; [done|done|]. rewrite evict_cons2.
  destruct (_ <? _); [|done]. destruct (cache !! x); [|apply IH]. etrans; [apply IH|apply delete_subseteq].
Qed.

Section remote.
Context {PR : Primitives} {ZS : Zstd} (R : files) (h : Hooks).

(** Local packs are the remote ones, or empty: a pack opened for writing and not yet
    written. *)
Definition local_of (fs : files) : Prop := ∀ num f, fs !! packPath num = Some f → f = [] ∨ R !! packPath num = Some f.

Definition remote_frame (num off : Z) (p : bytes) (r : Z) : Prop := len p ≤ maxChunkFrameLen ∧ pack_has R num off (frameOf p r).

Definition cache_true (cache : gmap (Z * Z) bytes) : Prop :=
  ∀ num off frame p r, cache !! (num, off) = Some frame → remote_frame num off p r → frame = frameOf p r.

(** What the hooks promise: a range fetch declines or gives the frame, a download
    brings the pack, and a chunk can be had one way or the other. *)
Record serves : Prop := {
  sv_fetch : ∀ fetch, OnChunkFetch h = Some fetch → ∀ num off p r, remote_frame num off p r →
    fetch num off = Err FetchDecline ∨ fetch num off = Ok (frameOf p r);
  sv_missing : ∀ missing, OnPackMissing h = Some missing → ∀ fs num f, local_of fs → R !! packPath num = Some f →
    ∃ fs', missing fs num = (fs', None) ∧ fs' !! packPath num = Some f ∧ local_of fs';
  sv_some : OnPackMissing h = None → ∃ fetch, OnChunkFetch h = Some fetch ∧ ∀ num off, fetch num off ≠ Err FetchDecline }.

Lemma frame_unique num off p r p' r' : remote_frame num off p r → remote_frame num off p' r' → frameOf p r = frameOf p' r'.
Proof.
  intros (Hp & f & Hf & Hr) (Hp' & f' & Hf' & Hr'). rewrite Hf in Hf'. injection Hf' as <-. change maxChunkFrameLen with 67108864 in *.
  pose proof (ReadAt_inv _ _ _ _ Hr) as (H1 & _ & H3 & _). pose proof (ReadAt_inv _ _ _ _ Hr') as (_ & _ & H3' & _).
  destruct (frameOf_fields p r ltac:(lia)) as (E & _). destruct (frameOf_fields p' r' ltac:(lia)) as (E' & _).
  rewrite ReadAt_sub in Hr, Hr' by lia. injection Hr as Hr. injection Hr' as Hr'. rewrite !length_frameOf, !Nat2Z.id in *.
  rewrite <- Hr, sub_sub in E by lia. rewrite <- Hr', sub_sub in E' by lia.
  assert (length p = length p') as Hl by lia. rewrite <- Hr, <- Hr'. by rewrite Hl.
Qed.

Lemma RetrieveFromFrame_frame cs p r : len p ≤ maxChunkFrameLen → RetrieveFromFrame cs (frameOf p r) = openPayload (cs_key cs) p.
Proof.
  intros Hp. change maxChunkFrameLen with 67108864 in Hp. destruct (frameOf_fields p r ltac:(lia)) as (E & _ & E').
  unfold RetrieveFromFrame. rewrite E, length_frameOf. rewrite (proj2 (Z.ltb_ge _ 8)) by lia. rewrite (proj2 (Z.ltb_ge _ _)) by lia.
  rewrite u32_id, (proj2 (Z.ltb_ge _ 8)) by (unfold is_u32; lia). by rewrite Nat2Z.id, E'.
Qed.

(** A read that succeeded and left the store usable for the next one. *)
Definition reads (cs : ChunkStore) (data : bytes) (res : ChunkStore * result store_err bytes) : Prop :=
  res.2 = Ok data ∧ local_of (cs_files res.1) ∧ cache_true (cs_frameCache res.1) ∧ cs_key res.1 = cs_key cs.

Lemma CacheFrame_true cs num off p r : remote_frame num off p r → cache_true (cs_frameCache cs) →
  cache_true (cs_frameCache (CacheFrame cs num off (frameOf p r))).
Proof.
  intros Hr Ht. unfold CacheFrame. destruct (cs_frameCache cs !! (num, off)); [done|].
  pose proof (evict_subseteq (cs_frameOrder cs ++ [(num, off)]) (<[(num, off):=frameOf p r]> (cs_frameCache cs))
    (cs_frameCacheBytes cs + len (frameOf p r))) as Hs.
  destruct (evict _ _ _) as [[o c] m]. cbn [fst snd setCache cs_frameCache] in *. intros n' o' fr p' r' Hc Hr'.
  eapply lookup_weaken in Hc; [|exact Hs]. destruct (decide ((num, off) = (n', o'))) as [[= <- <-]|Hne].
  - rewrite lookup_insert_eq in Hc. injection Hc as <-. by eapply frame_unique.
  - rewrite lookup_insert_ne in Hc by done. by eapply Ht.
Qed.

(** A fetch reads the frame, or declines: then there is a download hook. *)
Lemma orFetch_reads cs0 cs num off k p r data : serves → remote_frame num off p r → openPayload (cs_key cs0) p = Ok data →
  local_of (cs_files cs) → cache_true (cs_frameCache cs) → cs_key cs = cs_key cs0 →
  (∀ missing, OnPackMissing h = Some missing → reads cs0 data (k cs)) → reads cs0 data (orFetch h cs num off k).
Proof.
  intros [Hf Hm Hs] Hr Ho Hl Ht Hk Hcont. unfold orFetch.
  assert (Hdef : OnChunkFetch h = None ∨ (∃ fetch, OnChunkFetch h = Some fetch ∧ fetch num off = Err FetchDecline) → reads cs0 data (k cs)).
  { intros Hd. destruct (OnPackMissing h) as [missing|] eqn:Hmiss; [by eapply Hcont|]. exfalso.
    destruct (Hs eq_refl) as (fetch & Hfe & Hne). destruct Hd as [?|(fetch' & ? & Hde)]; [congruence|]. simplify_eq. by eapply Hne. }
  destruct (OnChunkFetch h) as [fetch|] eqn:Hfe; [|apply Hdef; by left]. unfold chunkFetch.
  destruct (Hf fetch eq_refl num off p r Hr) as [Hde|Hok]; [rewrite Hde; apply Hdef; right; by eexists|]. rewrite Hok.
  split; [|split; [|split]]; cbn [fst snd].
  - rewrite RetrieveFromFrame_frame by apply Hr. rewrite <- Ho. f_equal. rewrite <- Hk. unfold CacheFrame.
    destruct (cs_frameCache cs !! (num, off)); [done|]. by destruct (evict _ _ _) as [[? ?] ?].
  - unfold CacheFrame. destruct (cs_frameCache cs !! (num, off)); [done|]. by destruct (evict _ _ _) as [[? ?] ?].
  - by apply CacheFrame_true.
  - rewrite <- Hk. unfold CacheFrame. destruct (cs_frameCache cs !! (num, off)); [done|]. by destruct (evict _ _ _) as [[? ?] ?].
Qed.

(** The frame in a copy of the remote pack. *)
Lemma remote_read cs num off p r f : small_packs R → remote_frame num off p r → R !! packPath num = Some f →
  ∃ header, ReadAt f off 8 = Some header ∧ readFrame cs f header off = openPayload (cs_key cs) p.
Proof.
  intros Hs [Hp Hh] Hf. destruct (pack_has_frame R num off p r Hs Hp Hh) as (g & Hg & H8 & Hpay & H4 & _).
  rewrite Hf in Hg. injection Hg as <-. eexists. split; [exact H8|]. unfold readFrame. rewrite H4, Hpay.
  by rewrite (proj2 (Z.ltb_ge _ _)).
Qed.

Lemma download_reads cs0 cs num off p r data missing : serves → small_packs R → remote_frame num off p r → openPayload (cs_key cs0) p = Ok data →
  local_of (cs_files cs) → cache_true (cs_frameCache cs) → cs_key cs = cs_key cs0 → OnPackMissing h = Some missing →
  ∃ cs' f, fetchAndOpenPack missing cs num = (cs', Ok f) ∧ R !! packPath num = Some f ∧
    local_of (cs_files cs') ∧ cache_true (cs_frameCache cs') ∧ cs_key cs' = cs_key cs0.
Proof.
  intros Hsv Hs Hr Ho Hl Ht Hk Hm. pose proof Hr as (_ & f & Hf & _).
  destruct (sv_missing Hsv missing Hm (cs_files cs) num f Hl Hf) as (fs' & Hmiss & Hf' & Hl'). unfold fetchAndOpenPack. rewrite Hmiss.
  cbn [cs_files setFiles]. rewrite Hf'. by exists (setFiles cs fs'), f.
Qed.

Lemma retrieveFromPack_reads cs0 cs num off p r data : serves → small_packs R → remote_frame num off p r → openPayload (cs_key cs0) p = Ok data →
  local_of (cs_files cs) → cache_true (cs_frameCache cs) → cs_key cs = cs_key cs0 → reads cs0 data (retrieveFromPack h num off cs).
Proof.
  intros Hsv Hs Hr Ho Hl Ht Hk. unfold retrieveFromPack, openPackForRead.
  assert (Hoff : 0 ≤ off) by (destruct Hr as (_ & g & _ & Hg); apply ReadAt_inv in Hg; lia).
  assert (Hcopy : ∀ cs f, R !! packPath num = Some f → local_of (cs_files cs) → cache_true (cs_frameCache cs) → cs_key cs = cs_key cs0 →
    ∃ hd, ReadAt f off 8 = Some hd ∧ reads cs0 data (cs, readFrame cs f hd off)).
  { intros cs' f Hf H1 H2 H3. destruct (remote_read cs' num off p r f Hs Hr Hf) as (hd & H8 & Hrd). exists hd. split; [done|].
    split_and!; try done. cbn [snd]. by rewrite Hrd, H3. }
  destruct (cs_files cs !! packPath num) as [f|] eqn:Hf; [destruct (Hl num f Hf) as [->|HR]|].
  - assert (ReadAt [] off 8 = None) as ->.
    { unfold ReadAt. rewrite (proj2 (Z.leb_gt (off + 8) _)) by (cbn; lia). by rewrite andb_false_r. }
    rewrite (proj2 (Z.ltb_ge _ _)) by done. eapply orFetch_reads; try done. intros missing Hm. rewrite Hm.
    destruct (download_reads cs0 cs num off p r data missing) as (cs' & f & -> & Hf' & Hl' & Ht' & Hk'); try done.
    destruct (Hcopy cs' f Hf' Hl' Ht' Hk') as (hd & -> & Hrd). done.
  - destruct (Hcopy cs f HR Hl Ht Hk) as (hd & -> & Hrd). done.
  - destruct (OnPackMissing h) as [missing|] eqn:Hm.
    + destruct (download_reads cs0 cs num off p r data missing) as (cs' & f & -> & Hf' & Hl' & Ht' & Hk'); try done.
      destruct (Hcopy cs' f Hf' Hl' Ht' Hk') as (hd & -> & Hrd). done.
    + eapply orFetch_reads; try done. by rewrite Hm.
Qed.

Lemma Retrieve_reads cs num off data : serves → small_packs R → stored_at (cs_key cs) R (num, off) data →
  local_of (cs_files cs) → cache_true (cs_frameCache cs) → reads cs data (Retrieve h cs num off).
Proof.
  intros Hsv Hs (_ & p & Hp & Ho & Hh) Hl Ht. cbn [fst snd] in Hh. assert (Hr : remote_frame num off p (len data)) by done.
  unfold Retrieve. destruct (cs_frameCache cs !! (num, off)) as [frame|] eqn:Hc.
  - rewrite (Ht num off frame p (len data) Hc Hr). split_and!; try done. cbn [snd]. by rewrite RetrieveFromFrame_frame.
  - destruct (cs_files cs !! packPath num); [by eapply retrieveFromPack_reads|].
    eapply orFetch_reads; try done. intros missing _. by eapply retrieveFromPack_reads.
Qed.
End remote.

(** ** Sparse packs *)

(** Frames of a pack at ascending offsets, none before [from]. *)
Fixpoint frames_in (src : bytes) (from : Z) (frames : list (Z * bytes * Z)) : Prop :=
  match frames with
  | [] => True
  | (off, p, r) :: frames =>
      from ≤ off ∧ len p ≤ maxChunkFrameLen ∧ ReadAt src off (len (frameOf p r)) = Some (frameOf p r) ∧
      frames_in src (off + len (frameOf p r)) frames
  end.

Lemma WriteAt_beyond f off d : len f ≤ off → WriteAt f off d = f ++ zeros (Z.to_nat off - length f) ++ d.
Proof. intros H. unfold WriteAt. rewrite take_ge, drop_ge by lia. by rewrite app_nil_r. Qed.

Lemma ReadAt_tail f k d : ReadAt (f ++ k ++ d) (len f + len k) (len d) = Some d.
Proof.
  rewrite ReadAt_Some by (rewrite ?length_app; lia). f_equal. rewrite Nat2Z.id, <- Nat2Z.inj_add, Nat2Z.id, app_assoc.
  rewrite drop_app_exact by (by rewrite length_app). by rewrite take_ge.
Qed.

Definition keptBytes (frames : list (Z * bytes * Z)) : Z := foldr (λ '(_, p, _) n, 8 + len p + n) 0 frames.

Lemma extractLoop_ok src frames : ∀ dst prevEnd kept, frames_in src prevEnd frames → len dst ≤ prevEnd ∨ dst = [] ∧ -1 ≤ prevEnd → len dst ≤ len src →
  ∃ dst', extractLoop src (fst ∘ fst <$> frames) dst prevEnd kept = Ok (dst', kept + keptBytes frames) ∧
    (∃ g, dst' = dst ++ g) ∧ len dst' ≤ len src ∧
    Forall (λ '(off, p, r), ReadAt dst' off (len (frameOf p r)) = Some (frameOf p r)) frames.
Proof.
  induction frames as [|[[off p] r] frames IH]; intros dst prevEnd kept Hf Hd Hs.
  { exists dst. cbn. split_and!; [f_equal; f_equal; lia|by exists []; rewrite app_nil_r|done|constructor]. }
  destruct Hf as (Ho & Hp & Hr & Hf). pose proof (ReadAt_inv _ _ _ _ Hr) as (H1 & _ & H3 & _).
  pose proof (length_frameOf p r) as Hlen. pose proof Hp as Hp'. change maxChunkFrameLen with 67108864 in Hp'.
  assert (Hdo : len dst ≤ off) by (destruct Hd as [?|[-> _]]; cbn; lia). cbn [fmap list_fmap compose fst extractLoop].
  rewrite (proj2 (Z.ltb_ge _ _)) by lia. destruct (frameOf_fields p r ltac:(lia)) as (F1 & _).
  assert (H8 : ReadAt src off 8 = Some (sub (frameOf p r) 0 8)).
  { rewrite ReadAt_sub in Hr |- * by lia. injection Hr as Hr. rewrite <- Hr, sub_sub by lia. f_equal. f_equal. lia. }
  rewrite H8. cbn [of_option rbind]. rewrite sub_sub by lia. cbn [Nat.add]. rewrite F1. rewrite (proj2 (Z.ltb_ge _ _)) by done.
  replace (8 + len p) with (len (frameOf p r)) by lia. rewrite Hr. cbn [of_option rbind]. rewrite WriteAt_beyond by done.
  set (dst1 := dst ++ _). assert (Hl1 : len dst1 = off + len (frameOf p r)) by (unfold dst1; rewrite !length_app, length_zeros; lia).
  destruct (IH dst1 (off + len (frameOf p r)) (kept + len (frameOf p r)) Hf) as (dst' & -> & (g & Hg) & Hle & Hall); [left; lia|lia|].
  exists dst'. split_and!.
  - f_equal. f_equal. cbn [keptBytes foldr]. fold (keptBytes frames). lia.
  - exists (zeros (Z.to_nat off - length dst) ++ frameOf p r ++ g). rewrite Hg. unfold dst1. by rewrite <- !app_assoc.
  - done.
  - constructor; [|done]. rewrite Hg. apply ReadAt_app_l. unfold dst1.
    replace off with (len dst + len (zeros (Z.to_nat off - length dst))) at 2 by (rewrite length_zeros; lia). apply ReadAt_tail.
Qed.

Lemma Truncate_grow f n : len f ≤ n → Truncate f n = f ++ zeros (Z.to_nat n - length f) ∧ len (Truncate f n) = n.
Proof. intros H. unfold Truncate. rewrite take_ge by lia. split; [done|]. rewrite length_app, length_zeros. lia. Qed.

Lemma ExtractFrames_err fs pack offsets fs' e : ExtractFrames fs pack offsets = (fs', Err e) →
  ∀ n, n ≠ pack ++ sExtractTmp → fs' !! n = fs !! n.
Proof.
  unfold ExtractFrames. intros H n Hn. destruct (fs !! pack) as [src|]; [|by injection H as <-].
  destruct (extractLoop _ _ _ _ _) as [[? ?]|]; [done|]. injection H as <- _. by rewrite lookup_delete_ne.
Qed.

Lemma ExtractFrames_ok fs pack src frames : fs !! pack = Some src → frames_in src (-1) frames →
  ∃ dst, ExtractFrames fs pack (fst ∘ fst <$> frames) = (<[pack := dst]> (delete (pack ++ sExtractTmp) fs), Ok (keptBytes frames)) ∧
    len dst = len src ∧ Forall (λ '(off, p, r), ReadAt dst off (len (frameOf p r)) = Some (frameOf p r)) frames.
Proof.
  intros Hs Hf. unfold ExtractFrames. rewrite Hs.
  destruct (extractLoop_ok src frames [] (-1) 0 Hf) as (dst & -> & _ & Hle & Hall); [by right|cbn; lia|].
  destruct (Truncate_grow dst (len src) Hle) as [Ht Hl]. exists (Truncate dst (len src)). split_and!; [done|done|].
  rewrite Ht. eapply Forall_impl; [exact Hall|]. intros [[off p] r] Hr. by apply ReadAt_app_l.
Qed.

(** ** Listing *)

Lemma MaxPackNum_fold l : ∀ m f, let '(m', f') := foldl (λ '(m, found) n, match parsePackFileName n with
    | Some k => (if negb found || (m <? k) then k else m, true) | None => (m, found) end) (m, f) l in
  (f' = true ↔ f = true ∨ ∃ n, n ∈ l ∧ is_Some (parsePackFileName n)) ∧
  (f' = true → (f = true ∧ m' = m ∨ ∃ n, n ∈ l ∧ parsePackFileName n = Some m') ∧ (f = true → m ≤ m') ∧
    ∀ n k, n ∈ l → parsePackFileName n = Some k → k ≤ m').
Proof.
  induction l as [|x l IH]; intros m f; cbn [foldl].
  { split; [naive_solver set_solver|]. intros Hf. split_and!; [naive_solver|lia|]. by intros ? ? ?%elem_of_nil. }
  destruct (parsePackFileName x) as [k|] eqn:Hx.
  - set (m1 := if negb f || (m <? k) then k else m). specialize (IH m1 true). destruct (foldl _ _ _) as [m' f'].
    destruct IH as [H1 H2]. split; [split; [intros; right; exists x; split; [left|by eexists]|intros; apply H1; by left]|].
    intros Hf'. destruct (H2 Hf') as (H3 & H4 & H5).
    assert (Hm1 : k ≤ m1 ∧ (f = true → m ≤ m1) ∧ (m1 = k ∨ f = true ∧ m1 = m)).
    { unfold m1. destruct f; cbn [negb orb]; [destruct (m <? k) eqn:Hk; zbool; lia|lia]. }
    destruct Hm1 as (Hm1 & Hm2 & Hm3). specialize (H4 eq_refl). split_and!; [|intros Hf; specialize (Hm2 Hf); lia|].
    + destruct H3 as [[_ ->]|(n & Hn & Hp)]; [|right; exists n; split; [by right|done]].
      destruct Hm3 as [->|Hm3]; [right; exists x; split; [left|done]|by left].
    + intros n j [->|Hn]%elem_of_cons Hj; [rewrite Hx in Hj; injection Hj as <-; lia|by eapply H5].
  - specialize (IH m f). destruct (foldl _ _ _) as [m' f']. destruct IH as [H1 H2].
    assert (Hex : ∀ P : name → Prop, ¬ P x → (∃ n, n ∈ x :: l ∧ P n) ↔ ∃ n, n ∈ l ∧ P n).
    { intros P HP. setoid_rewrite elem_of_cons. naive_solver. }
    rewrite (Hex (λ n, is_Some (parsePackFileName n))) by (rewrite Hx; by intros []). split; [done|]. intros Hf'.
    rewrite (Hex (λ n, parsePackFileName n = Some m')) by (by rewrite Hx). destruct (H2 Hf') as (H3 & H4 & H5). split_and!; try done.
    intros n j [->|Hn]%elem_of_cons Hj; [by rewrite Hx in Hj|by eapply H5].
Qed.

Lemma MaxPackNum_spec fs : let '(m, found) := MaxPackNum (Some fs) in
  (found = true ↔ ∃ n, is_Some (fs !! n) ∧ is_Some (parsePackFileName n)) ∧
  (found = true → (∃ n, is_Some (fs !! n) ∧ parsePackFileName n = Some m) ∧
    ∀ n k, is_Some (fs !! n) → parsePackFileName n = Some k → k ≤ m).
Proof.
  pose proof (MaxPackNum_fold (ReadDir fs) 0 false) as H. cbn [MaxPackNum]. destruct (foldl _ _ _) as [m found].
  setoid_rewrite elem_of_ReadDir in H. naive_solver.
Qed.

Lemma DeletePacksAbove_spec fs keepMax : ∃ fs', DeletePacksAbove (Some fs) keepMax = Some fs' ∧
  ∀ n, fs' !! n = match parsePackFileName n with Some k => if keepMax <? k then None else fs !! n | None => fs !! n end.
Proof.
  cbn [DeletePacksAbove]. eexists. split; [reflexivity|]. intros n.
  assert (H : ∀ l (g : files), foldl (λ fs n, match parsePackFileName n with Some k => if keepMax <? k then delete n fs else fs | None => fs end) g l !! n =
    match parsePackFileName n with Some k => if (keepMax <? k) && bool_decide (n ∈ l) then None else g !! n | None => g !! n end).
  { induction l as [|x l IH]; intros g; cbn [foldl].
    { destruct (parsePackFileName n); [|done]. by rewrite (bool_decide_eq_false_2 (n ∈ [])), andb_false_r by apply not_elem_of_nil. }
    rewrite IH. destruct (decide (n = x)) as [->|Hne].
    - destruct (parsePackFileName x) as [k|]; [|done]. rewrite (bool_decide_eq_true_2 (x ∈ x :: l)) by left.
      destruct (keepMax <? k); [|done]. rewrite lookup_delete_eq. by destruct (true && _).
    - assert (bool_decide (n ∈ x :: l) = bool_decide (n ∈ l)) as -> by (apply bool_decide_ext; set_solver).
      assert (match parsePackFileName x with Some k => if keepMax <? k then delete x g else g | None => g end !! n = g !! n) as ->; [|done].
      destruct (parsePackFileName x); [|done]. destruct (_ <? _); [|done]. by rewrite lookup_delete_ne. }
  rewrite H. destruct (parsePackFileName n) as [k|]; [|done]. destruct (keepMax <? k); [|done]. cbn [andb].
  case_bool_decide as Hn; [done|]. rewrite elem_of_ReadDir in Hn. destruct (fs !! n); [|done]. by destruct Hn.
Qed.
