(* ===== verification/Packs.v ===== *)
(** * Theorems on the pack store

    A session's chunks read back, packs stay within their size, the frame cache within
    its bound, a remote repository reads as a local one, sparse packs keep their
    frames, and the listing is exact. *)

From S2P Require Import Prelude GoBytes GoFiles Hashes Crypto PackStore PackCache.

(** Stored, not compressed: a codec that satisfies the law. *)
#[export] Program Instance plainZstd : Zstd := {| EncodeAll := λ _ d, d; DecodeAll := Some |}.
Next Obligation. done. Qed.

Definition sampleItems : list (bytes * bytes) := [(zeros 12, [1; 2; 3]); (zeros 12, []); (zeros 12, [4; 5])].
Definition sampleStore : ChunkStore := NewChunkStore None 24 3 (Some (zeros 32)).
Definition samplePacks : ChunkStore := (storeAll noHooks sampleStore sampleItems).1.

Lemma sample_fits cs its : Forall (λ it, length it.1 = 12%nat ∧ len it.2 ≤ 1000) its → cs_key cs = Some (zeros 32) → Forall (item_fits cs) its.
Proof.
  intros H Hk. eapply Forall_impl; [exact H|]. intros [n d] [Hn Hd]. split; [done|]. intros p. unfold sealPayload. rewrite Hk. cbn [fst snd EncodeAll plainZstd].
  destruct (decrypt_encrypt (zeros 32) n d AADChunk (length_zeros 32) Hn) as (c & Hc & _ & Hl). rewrite Hc. intros [= <-]. cbn [snd] in Hd.
  rewrite Hl. change maxChunkFrameLen with 67108864. change Overhead with 28. lia.
Qed.

Section theorems.
Context {PR : Primitives} {ZS : Zstd}.

(** C29. Chunks read back: every chunk a session stores has a location, and reading the
    location gives the chunk, whatever was stored after it, wherever the packs were
    rotated and whatever fetch hooks there are; packs that existed before only grow. *)
Theorem pack_store_reads_back h cs items :
  seals h → store_ok cs → key_ok (cs_key cs) → cs_frameCache cs = ∅ → Forall (item_fits cs) items →
  cs_currentPackNum cs + len items < 2 ^ 32 →
  let '(cs', rs) := storeAll h cs items in
  small_packs (cs_files cs') →
  packs_grow (cs_files cs) (cs_files cs') ∧ store_ok cs' ∧
  Forall2 (λ it r, ∃ num off n, r = Ok (num, off, n) ∧ ∀ h', Retrieve h' cs' num off = (cs', Ok it.2)) items rs.
Proof.
  intros Hs Hok Hk Hc Hf Hn. destruct (storeAll_ok h items cs Hs Hok Hk Hf Hn) as (cs' & rs & -> & Hok' & Hg & Hcf & Hall).
  intros Hsm. split_and!; [done|done|]. eapply Forall2_impl; [exact Hall|]. intros it r ([num off] & n & -> & Hst).
  exists num, off, n. split; [done|]. intros h'. apply stored_at_Retrieve; [by rewrite (proj2 (proj2 (proj2 Hcf))), Hc|done|].
  by rewrite (proj1 (proj2 (proj2 Hcf))).
Qed.
End theorems.

Lemma pack_store_reads_back_witness :
  let '(cs', rs) := storeAll noHooks sampleStore sampleItems in
  small_packs (cs_files cs') →
  packs_grow (cs_files sampleStore) (cs_files cs') ∧ store_ok cs' ∧
  Forall2 (λ it r, ∃ num off n, r = Ok (num, off, n) ∧ ∀ h', Retrieve h' cs' num off = (cs', Ok it.2)) sampleItems rs.
Proof.
  apply (pack_store_reads_back noHooks sampleStore sampleItems); [done|apply NewChunkStore_ok|reflexivity|reflexivity| |reflexivity].
  apply sample_fits; [|done]. by_eval.
Defined.

Section theorems2.
Context {PR : Primitives} {ZS : Zstd}.

(** Pack sizes: a session over packs that are within the maximum, or hold a single
    chunk, leaves packs that are within the maximum or hold a single chunk. *)
Theorem pack_sizes_bounded h d max level key items :
  seals h → key_ok key → 0 ≤ max → Forall (λ it, length it.1 = 12%nat) items →
  bounded max (default ∅ d) → findLatestPack (default ∅ d) + len items < 2 ^ 32 →
  bounded max (cs_files (storeAll h (NewChunkStore d max level key) items).1).
Proof.
  intros Hs Hk Hm Hi Hb Hn. destruct (storeAll h _ items) as [cs' rs] eqn:Hrun.
  eapply (storeAll_bounded h items (NewChunkStore d max level key)); [done|apply NewChunkStore_ok|done|done|done|done|..|exact Hrun].
  - apply nothing_above_latest.
  - done.
Qed.
End theorems2.

Lemma pack_sizes_bounded_witness : bounded 24 (cs_files samplePacks).
Proof.
  apply (pack_sizes_bounded noHooks None 24 3 (Some (zeros 32)) sampleItems); [done|reflexivity|lia|by_eval| |reflexivity].
  intros n f Hf. by destruct (lookup_empty_Some (M:=gmap name) n f).
Defined.

Section theorems3.
Context {PR : Primitives} {ZS : Zstd}.

(** C31. The frame cache over any history of stores, reads, fetches and drops: the
    eviction order lists the cached frames once each, the byte count is their size, and it
    is above the ceiling only when a single frame is. *)
Theorem frame_cache_invariant h d max level start key cs :
  rtc (store_step h) (newChunkStore d max level start key) cs → cache_ok cs.
Proof.
  pose proof (cache_ok_new d max level start key) as H. intros Hr. revert H. induction Hr; [done|]. eauto using store_step_cache.
Qed.
End theorems3.

Definition cachedStore : ChunkStore := DropFrames (CacheFrame (CacheFrame (newChunkStore None 24 3 0 None) 0 0 [1]) 1 0 [2; 3]) 0.
Lemma frame_cache_invariant_witness : cache_ok cachedStore ∧ cs_frameCacheBytes cachedStore = 2.
Proof.
  split; [|reflexivity]. apply (frame_cache_invariant noHooks None 24 3 0 None).
  eapply rtc_l; [apply step_cache|]. eapply rtc_l; [apply step_cache|]. eapply rtc_l; [apply step_drop|]. apply rtc_refl.
Defined.

Section theorems4.
Context {PR : Primitives} {ZS : Zstd}.

(** C30. Remote reads: a chunk stored in the remote packs is read back through any store
    whose local packs are copies (or still empty), whether the frame is cached, local,
    fetched by range or downloaded with its pack, and the store stays as good for the
    next read. *)
Theorem remote_reads_stored R h cs num off data :
  serves R h → small_packs R → stored_at (cs_key cs) R (num, off) data →
  local_of R (cs_files cs) → cache_true R (cs_frameCache cs) →
  ∃ cs', Retrieve h cs num off = (cs', Ok data) ∧
    local_of R (cs_files cs') ∧ cache_true R (cs_frameCache cs') ∧ cs_key cs' = cs_key cs.
Proof.
  intros H1 H2 H3 H4 H5. destruct (Retrieve_reads R h cs num off data H1 H2 H3 H4 H5) as (Hr & Hl & Ht & Hk).
  destruct (Retrieve h cs num off) as [cs' r]. cbn [fst snd] in *. exists cs'. by rewrite Hr.
Qed.
End theorems4.

(** A remote repository that only offers whole packs. *)
Definition remotePacks : files := cs_files samplePacks.
Definition downloadHook (fs : files) (num : Z) : files * option fetch_err :=
  match remotePacks !! packPath num with Some f => (<[packPath num := f]> fs, None) | None => (fs, Some PackAbsent) end.
Definition downloadHooks : Hooks := mkHooks None (Some downloadHook) None None.

Lemma remote_reads_stored_witness :
  ∃ cs', Retrieve downloadHooks (newChunkStore None 24 3 0 (Some (zeros 32))) 0 0 = (cs', Ok [1; 2; 3]) ∧
    local_of remotePacks (cs_files cs') ∧ cache_true remotePacks (cs_frameCache cs') ∧ cs_key cs' = Some (zeros 32).
Proof.
  apply (remote_reads_stored remotePacks downloadHooks (newChunkStore None 24 3 0 (Some (zeros 32))) 0 0 [1; 2; 3]).
  - split; [done| |done]. intros missing [= <-] fs num f Hl Hf. unfold downloadHook. rewrite Hf. exists (<[packPath num:=f]> fs).
    split; [done|]. rewrite lookup_insert_eq. split; [done|]. intros num' f'. rewrite lookup_insert. case_decide as Hd; [|apply Hl].
    intros [= <-]. right. by rewrite <- Hd.
  - assert (Hall : map_Forall (λ _ f, len f < 2 ^ 63) remotePacks) by by_eval. intros n f Hf. exact (Hall n f Hf).
  - split; [by_eval|]. exists (sub (default [] (remotePacks !! packPath 0)) 8 31). split; [vm_compute; discriminate|]. split; [vm_compute; reflexivity|].
    exists (default [] (remotePacks !! packPath 0)). split; vm_compute; reflexivity.
  - intros num f Hf. by destruct (lookup_empty_Some (M:=gmap name) (packPath num) f).
  - intros num off frame p r Hf. by destruct (lookup_empty_Some (M:=gmap (Z * Z)) (num, off) frame).
Defined.

(** Sparse packs: extracting frames at ascending offsets keeps the pack's size and
    every frame asked for at its offset, reports their bytes, and touches nothing else but
    the temporary file; a refused extraction leaves every pack as it was. *)
Theorem extract_keeps_frames fs pack src frames :
  fs !! pack = Some src → frames_in src (-1) frames →
  ∃ dst, ExtractFrames fs pack (fst ∘ fst <$> frames) = (<[pack := dst]> (delete (pack ++ sExtractTmp) fs), Ok (keptBytes frames)) ∧
    len dst = len src ∧ Forall (λ '(off, p, r), ReadAt dst off (len (frameOf p r)) = Some (frameOf p r)) frames ∧
    ∀ offsets fs' e, ExtractFrames fs pack offsets = (fs', Err e) → ∀ n, n ≠ pack ++ sExtractTmp → fs' !! n = fs !! n.
Proof.
  intros Hs Hf. destruct (ExtractFrames_ok fs pack src frames Hs Hf) as (dst & He & Hl & Hall).
  exists dst. split_and!; try done. intros offsets fs' e. apply ExtractFrames_err.
Qed.

Definition threeFrames : bytes := frameOf [1; 2] 2 ++ frameOf [3] 1 ++ frameOf [4; 5; 6] 3.
Definition onePack : files := {[ [65] := threeFrames ]}.
Lemma extract_keeps_frames_witness :
  (ExtractFrames onePack [65] [0; 19]).1 !! [65] = Some (frameOf [1; 2] 2 ++ zeros 9 ++ frameOf [4; 5; 6] 3) ∧
  ∃ dst, ExtractFrames onePack [65] [0; 19] = (<[ [65] := dst ]> (delete ([65] ++ sExtractTmp) onePack), Ok 21) ∧
    len dst = 30 ∧ Forall (λ '(off, p, r), ReadAt dst off (len (frameOf p r)) = Some (frameOf p r)) [(0, [1; 2], 2); (19, [4; 5; 6], 3)] ∧
    ∀ offsets fs' e, ExtractFrames onePack [65] offsets = (fs', Err e) →
      ∀ n, n ≠ [65] ++ sExtractTmp → fs' !! n = onePack !! n.
Proof.
  split; [vm_compute; reflexivity|].
  apply (extract_keeps_frames onePack [65] threeFrames [(0, [1; 2], 2); (19, [4; 5; 6], 3)]); [reflexivity|].
  repeat split; vm_compute; congruence.
Defined.

(** The pack listing: the highest number is that of a pack and none is above it,
    so the number after it is free; deleting above a number removes exactly the packs
    above it; a chunk store opened on the directory starts at the highest pack. *)
Theorem pack_listing_exact fs keepMax :
  (let '(m, found) := MaxPackNum (Some fs) in
   (found = true ↔ ∃ n, is_Some (fs !! n) ∧ is_Some (parsePackFileName n)) ∧
   (found = true → findLatestPack fs = m ∧ (is_u32 (m + 1) → fs !! packPath (m + 1) = None) ∧
     ∀ n k, is_Some (fs !! n) → parsePackFileName n = Some k → k ≤ m)) ∧
  ∃ fs', DeletePacksAbove (Some fs) keepMax = Some fs' ∧
    ∀ n, fs' !! n = match parsePackFileName n with Some k => if keepMax <? k then None else fs !! n | None => fs !! n end.
Proof.
  split; [|apply DeletePacksAbove_spec]. pose proof (MaxPackNum_spec fs) as H. destruct (MaxPackNum (Some fs)) as [m found].
  destruct H as [H1 H2]. split; [done|]. intros Hf. destruct (H2 Hf) as [(n & Hn & Hp) Hmax].
  assert (Hl : findLatestPack fs = m).
  { apply Z.le_antisymm; [|by eapply findLatestPack_max]. apply findLatest_le; [|done].
    unfold parsePackFileName in Hp. destruct (negb _); [done|]. apply ParseUint32_range in Hp. unfold is_u32 in Hp. lia. }
  split_and!; [done| |done]. intros Hu. rewrite <- Hl. rewrite <- Hl in Hu. apply nothing_above_latest; [done|lia].
Qed.
