(* ===== verification/Preprocess.v ===== *)
(** * core/preprocess and core/hasher: chunk identity

    The identity of a chunk is the hash of its normalised bytes while the original
    bytes are stored.  The normalisers ([PENormalizer], [NTFSTimestampNormalizer] and
    their composition), their persisted names, and the pair of hashes.  xxhash is third
    party and an argument.  A slice of [out] is written through: [WriteAt] on [out]. *)

From S2P Require Import Prelude GoBytes Hashes.

Inductive Normalizer := Noop | PE | NTFSTimestamp | Composite (ns : list Normalizer).

Definition u16At (d : bytes) (o : Z) : Z := le_get (sub d (Z.to_nat o) 2).
Definition u32At (d : bytes) (o : Z) : Z := le_get (sub d (Z.to_nat o) 4).

(** ** PE headers *)

Definition validCOFFMachine (m : Z) : bool :=
  bool_decide (m ∈ [0x014c; 0x0200; 0x01c0; 0x01c4; 0xaa64; 0x8664]).

Definition isPlausiblePEHeader (data : bytes) (peOffset : Z) : bool :=
  let coffOffset := peOffset + 4 in
  if len data <? coffOffset + 20 then false
  else if negb (validCOFFMachine (u16At data coffOffset)) then false
  else
    let numSections := u16At data (coffOffset + 2) in
    if (numSections =? 0) || (96 <? numSections) then false
    else if 2 <=? u16At data (coffOffset + 16) then
      let optOffset := coffOffset + 20 in
      if len data <? optOffset + 2 then false
      else bool_decide (u16At data optOffset ∈ [0x10b; 0x20b; 0x107])
    else true.

Definition normalizePEHeader (data : bytes) (peOffset : Z) : bytes :=
  if negb (isPlausiblePEHeader data peOffset) then data
  else
    let coffOffset := peOffset + 4 in
    let tsOffset := coffOffset + 4 in
    let data := if tsOffset + 4 <=? len data then WriteAt data tsOffset (zeros 4) else data in
    if len data <? coffOffset + 16 + 2 then data
    else
      let sizeOfOptHdr := u16At data (coffOffset + 16) in
      if sizeOfOptHdr =? 0 then data
      else
        let optOffset := coffOffset + 20 in
        let csOffset := optOffset + 64 in
        if (csOffset + 4 <=? len data) && (csOffset + 4 <=? optOffset + sizeOfOptHdr) then WriteAt data csOffset (zeros 4) else data.

Definition sigPE : bytes := [80; 69; 0; 0].
Definition hasSig (data : bytes) (off : Z) (sig : bytes) : bool := bool_decide (sub data (Z.to_nat off) 4 = sig).

Definition normalizePEFromMZ (data : bytes) : bytes :=
  if len data <? 64 then data
  else
    let peOffset := u32At data 0x3C in
    if len data <? peOffset + 4 then data
    else if negb (hasSig data peOffset sigPE) then data
    else normalizePEHeader data peOffset.

Definition normalizePE (data : bytes) : bytes :=
  if len data <? 64 then data
  else
    let out := if bool_decide (take 2 data = [77; 90]) then normalizePEFromMZ data else data in
    foldl (λ out i, if hasSig out i sigPE then normalizePEHeader out i else out) out (seqZ 0 (len data - 3)).

(** ** MFT records *)

Definition mftRecordSize : Z := 1024.
Definition sigFILE : bytes := [70; 73; 76; 69].

(** The attribute walk; an attribute is at least one byte long, so fuel above the
    record's length is enough. *)
Fixpoint mftLoop (fuel : nat) (rec : bytes) (pos : Z) : bytes :=
  match fuel with
  | O => rec
  | S fuel =>
      if len rec <? pos + 8 then rec
      else
        let attrType := u32At rec pos in
        if attrType =? 0xFFFFFFFF then rec
        else
          let attrLen := u32At rec (pos + 4) in
          if (attrLen <=? 0) || (len rec <? pos + attrLen) then rec
          else
            let rec' :=
              if attrType =? 0x10 then
                if (len rec <? pos + 9) || negb (bool_decide (sub rec (Z.to_nat (pos + 8)) 1 = [0])) then rec
                else if len rec <? pos + 22 then rec
                else
                  let tsStart := pos + u16At rec (pos + 20) in
                  let tsEnd := tsStart + 32 in
                  if (pos + attrLen <=? tsStart) || (pos + attrLen <? tsEnd) || (len rec <? tsEnd) then rec
                  else WriteAt rec tsStart (zeros 32)
              else rec in
            mftLoop fuel rec' (pos + attrLen)
  end.

Definition normalizeMFTRecord (rec : bytes) : bytes :=
  if len rec <? 22 then rec
  else
    let firstAttr := u16At rec 20 in
    if (firstAttr <? 22) || (len rec <=? firstAttr) then rec
    else mftLoop (S (length rec)) rec firstAttr.

(** Multiples of the record size. *)
Definition mftOffsets (n : nat) : list Z := (λ i, i * mftRecordSize) <$> seqZ 0 (Z.of_nat n).

Definition normalizeNTFS (data : bytes) : bytes :=
  let found := existsb (λ off, (off + 4 <=? len data) && hasSig data off sigFILE) (mftOffsets (S (length data / 1024))) in
  if negb found then data
  else foldl (λ out off, if hasSig out off sigFILE then WriteAt out off (normalizeMFTRecord (sub out (Z.to_nat off) 1024)) else out)
         data (mftOffsets (length data / 1024)).

Fixpoint Normalize (n : Normalizer) (data : bytes) : bytes :=
  match n with
  | Noop => data
  | PE => normalizePE data
  | NTFSTimestamp => normalizeNTFS data
  | Composite ns => (fix go ns data := match ns with [] => data | n :: ns => go ns (Normalize n data) end) ns data
  end.

(** ** Names *)

Fixpoint NamesOf (n : Normalizer) : list string :=
  match n with
  | Noop => []
  | PE => ["pe"]
  | NTFSTimestamp => ["ntfs"]
  | Composite ns => (fix go ns := match ns with [] => [] | n :: ns => NamesOf n ++ go ns end) ns
  end.
(** [None]: the nil normaliser. *)
Definition Names (n : option Normalizer) : list string := match n with None => [] | Some n => NamesOf n end.

Inductive pre_err := UnknownNormalizer (s : string).

Definition fromName (s : string) : result pre_err Normalizer :=
  if bool_decide (s = "pe") || bool_decide (s = "PE") then Ok PE
  else if bool_decide (s = "ntfs") then Ok NTFSTimestamp
  else Err (UnknownNormalizer s).

Fixpoint fromNamesLoop (names : list string) : result pre_err (list Normalizer) :=
  match names with
  | [] => Ok []
  | s :: names => let! n := fromName s in let! ns := fromNamesLoop names in Ok (n :: ns)
  end.

Definition FromNames (names : list string) : result pre_err (option Normalizer) :=
  let! ns := fromNamesLoop names in
  Ok (match ns with [] => None | [n] => Some n | _ => Some (Composite ns) end).

Definition IdentityHashInput (n : option Normalizer) (data : bytes) : bytes :=
  match n with None => data | Some n => Normalize n data end.

(** ** core/hasher *)

Record ChunkID := mkChunkID { id_WeakHash : Z; id_StrongHash : bytes }.
Definition Sum (xxhash : bytes → Z) (data : bytes) : ChunkID := mkChunkID (xxhash data) (Sum256 data).
Definition Prefix8 (id : ChunkID) : Z :=
  foldl (λ a i, Z.lor a (Z.shiftl (default 0 (id_StrongHash id !! i)) (Z.of_nat (56 - 8 * i)))) 0 (seq 0 8).

(** ** What normalisation changes *)

(** Bytes are kept or become zero. *)
Definition zeroed (a b : bytes) : Prop := Forall2 (λ x y, y = x ∨ y = 0) a b.
#[export] Instance zeroed_preorder : PreOrder zeroed.
Proof.
  split; [intros a; apply Forall2_same_length_lookup_2; [done|]; intros ? ? ? H1 H2; left; congruence|].
  intros a b c Hab. revert c. induction Hab as [|x y a b Hxy Hab IH]; intros c Hbc; [done|].
  apply Forall2_cons_inv_l in Hbc as (z & c' & Hyz & Hbc & ->). constructor; [|by apply IH]. destruct Hxy as [->| ->], Hyz as [->| ->]; auto.
Qed.

Lemma zeroed_refl a : zeroed a a.
Proof. reflexivity. Qed.
#[export] Hint Resolve zeroed_refl : core.
Lemma zeroed_app a b c d : zeroed a b → zeroed c d → zeroed (a ++ c) (b ++ d).
Proof. apply Forall2_app. Qed.
Lemma zeroed_zeros a : zeroed a (zeros (length a)).
Proof. induction a as [|x a IH]; [constructor|]. constructor; [by right|done]. Qed.
Lemma zeroed_length a b : zeroed a b → length b = length a.
Proof. intros H. symmetry. by eapply Forall2_length. Qed.

Lemma zeroed_WriteAt a off d : 0 ≤ off → off + len d ≤ len a → zeroed (sub a (Z.to_nat off) (length d)) d → zeroed a (WriteAt a off d).
Proof.
  intros H1 H2 Hz. unfold WriteAt. replace (Z.to_nat off - length a)%nat with 0%nat by lia. change (zeros 0) with (@nil Z). cbn [app].
  rewrite <- (take_drop (Z.to_nat off) a) at 1. apply zeroed_app; [apply zeroed_refl|].
  rewrite <- (take_drop (length d) (drop (Z.to_nat off) a)), drop_drop. apply zeroed_app; [exact Hz|apply zeroed_refl].
Qed.

Lemma zeroed_clear a off n : 0 ≤ off → off + Z.of_nat n ≤ len a → zeroed a (WriteAt a off (zeros n)).
Proof.
  intros H1 H2. apply zeroed_WriteAt; rewrite ?length_zeros; [done|lia|].
  assert (length (sub a (Z.to_nat off) n) = n) as Hl by (rewrite length_sub; lia). rewrite <- Hl at 2. apply zeroed_zeros.
Qed.

Lemma normalizePEHeader_zeroed d i : 0 ≤ i → zeroed d (normalizePEHeader d i).
Proof.
  intros Hi. unfold normalizePEHeader. destruct (negb _); [done|]. cbn zeta.
  set (d1 := if _ <=? _ then _ else _). assert (H1 : zeroed d d1).
  { unfold d1. destruct (_ <=? _) eqn:H; zbool; [|done]. apply zeroed_clear; lia. }
  destruct (_ <? _); [done|]. destruct (_ =? 0); [done|]. destruct (_ && _) eqn:H; zbool; [|done].
  etrans; [exact H1|]. apply zeroed_clear; lia.
Qed.

Lemma u32At_nonneg d o : bytes_ok d → 0 ≤ u32At d o.
Proof. intros H. apply le_get_bound. by apply bytes_ok_sub. Qed.
Lemma u16At_nonneg d o : bytes_ok d → 0 ≤ u16At d o.
Proof. intros H. apply le_get_bound. by apply bytes_ok_sub. Qed.

Lemma fold_zeroed {A} (f : bytes → A → bytes) (P : A → Prop) l : (∀ d x, P x → zeroed d (f d x)) → Forall P l →
  ∀ d, zeroed d (foldl f d l).
Proof. intros Hf. induction 1 as [|x l Hx Hl IH]; intros d; [done|]. cbn [foldl]. etrans; [by apply Hf|apply IH]. Qed.

Lemma normalizePE_zeroed d : bytes_ok d → zeroed d (normalizePE d).
Proof.
  intros Hd. unfold normalizePE. destruct (_ <? _); [done|]. etrans; [|apply (fold_zeroed _ (λ i, 0 ≤ i))].
  - case_bool_decide; [|done]. unfold normalizePEFromMZ. repeat (case_match; try done). apply normalizePEHeader_zeroed. by apply u32At_nonneg.
  - intros out i Hi. destruct (hasSig _ _ _); [by apply normalizePEHeader_zeroed|done].
  - apply Forall_forall. intros i [? _]%elem_of_seqZ. done.
Qed.

Lemma zeroed_bytes a b : zeroed a b → bytes_ok a → bytes_ok b.
Proof.
  induction 1 as [|x y a b Hxy Hab IH]; [done|]. intros [Hx Ha]%Forall_cons. constructor; [|by apply IH].
  destruct Hxy as [->| ->]; [done|]. unfold is_byte. lia.
Qed.

Lemma mftLoop_zeroed fuel : ∀ rec pos, 0 ≤ pos → bytes_ok rec → zeroed rec (mftLoop fuel rec pos).
Proof.
  induction fuel as [|fuel IH]; intros rec pos Hp Hr; [done|]. cbn [mftLoop].
  destruct (_ <? pos + 8); [done|]. destruct (_ =? 0xFFFFFFFF); [done|]. destruct (_ || _) eqn:Hl; [done|]. zbool.
  set (rec' := if _ =? 0x10 then _ else _). assert (H1 : zeroed rec rec').
  { unfold rec'. destruct (_ =? 0x10); [|done]. destruct (_ || _); [done|]. destruct (_ <? pos + 22); [done|].
    cbn zeta. destruct (_ || _ || _) eqn:He; [done|]. zbool. pose proof (u16At_nonneg rec (pos + 20) Hr). apply zeroed_clear; lia. }
  etrans; [exact H1|]. apply IH; [lia|]. by eapply zeroed_bytes.
Qed.

Lemma normalizeMFTRecord_zeroed rec : bytes_ok rec → zeroed rec (normalizeMFTRecord rec).
Proof.
  intros H. unfold normalizeMFTRecord. destruct (_ <? 22); [done|]. destruct (_ || _) eqn:He; [done|]. zbool.
  apply mftLoop_zeroed; [lia|done].
Qed.

Lemma normalizeNTFS_zeroed d : bytes_ok d → zeroed d (normalizeNTFS d).
Proof.
  intros Hd. unfold normalizeNTFS. destruct (negb _); [done|].
  assert (H : ∀ l out, Forall (λ off, 0 ≤ off ∧ off + 1024 ≤ len d) l → zeroed d out →
    zeroed d (foldl (λ out off, if hasSig out off sigFILE then WriteAt out off (normalizeMFTRecord (sub out (Z.to_nat off) 1024)) else out) out l)).
  { induction l as [|off l IH]; intros out Hl Ho; [done|]. apply Forall_cons in Hl as [[H1 H2] Hl]. cbn [foldl]. apply IH; [done|].
    destruct (hasSig _ _ _); [|done]. etrans; [exact Ho|]. pose proof (zeroed_length _ _ Ho).
    assert (Hn : zeroed (sub out (Z.to_nat off) 1024) (normalizeMFTRecord (sub out (Z.to_nat off) 1024))).
    { apply normalizeMFTRecord_zeroed, bytes_ok_sub. by eapply zeroed_bytes. }
    assert (Hl1 : length (sub out (Z.to_nat off) 1024) = 1024%nat) by (rewrite length_sub; lia).
    apply zeroed_WriteAt; rewrite ?(zeroed_length _ _ Hn), ?Hl1; [done|lia|done]. }
  apply H; [|done]. unfold mftOffsets, mftRecordSize. apply Forall_fmap, Forall_forall. intros i Hi%elem_of_seqZ. cbn.
  pose proof (Nat.Div0.mul_div_le (length d) 1024). lia.
Qed.

(** More fuel than the record has bytes changes nothing. *)
Lemma mftLoop_fuel fuel k : ∀ rec pos, 0 ≤ pos → bytes_ok rec → len rec - pos < Z.of_nat fuel → mftLoop (fuel + k) rec pos = mftLoop fuel rec pos.
Proof.
  induction fuel as [|fuel IH]; intros rec pos Hp Hr Hf.
  { destruct k; [done|]. cbn [Nat.add mftLoop]. by rewrite (proj2 (Z.ltb_lt _ _)) by lia. }
  cbn [Nat.add mftLoop]. destruct (_ <? pos + 8); [done|]. destruct (_ =? 0xFFFFFFFF); [done|]. destruct (_ || _) eqn:Hl; [done|]. zbool.
  set (rec' := if _ =? 0x10 then _ else _). assert (H1 : zeroed rec rec').
  { unfold rec'. destruct (_ =? 0x10); [|done]. destruct (_ || _); [done|]. destruct (_ <? pos + 22); [done|].
    cbn zeta. destruct (_ || _ || _) eqn:He; [done|]. zbool. pose proof (u16At_nonneg rec (pos + 20) Hr). apply zeroed_clear; lia. }
  apply IH; [lia|by eapply zeroed_bytes|]. rewrite (zeroed_length _ _ H1). lia.
Qed.

(** Induction over a normaliser and its parts. *)
Lemma Normalizer_ind' (P : Normalizer → Prop) : P Noop → P PE → P NTFSTimestamp → (∀ ns, Forall P ns → P (Composite ns)) → ∀ n, P n.
Proof.
  intros H1 H2 H3 H4. fix IH 1. intros [| | |ns]; [done..|]. apply H4. induction ns as [|n ns IHns]; constructor; [apply IH|exact IHns].
Qed.

Definition NormalizeAll (ns : list Normalizer) (data : bytes) : bytes := foldl (λ d n, Normalize n d) data ns.
Lemma Normalize_Composite ns data : Normalize (Composite ns) data = NormalizeAll ns data.
Proof. unfold NormalizeAll. cbn [Normalize]. revert data. induction ns as [|n ns IH]; intros data; [done|]. apply IH. Qed.
Lemma NamesOf_Composite ns : NamesOf (Composite ns) = concat (NamesOf <$> ns).
Proof. cbn [NamesOf]. induction ns as [|n ns IH]; [done|]. cbn [fmap list_fmap concat]. by rewrite <- IH. Qed.

Lemma Normalize_zeroed n : ∀ data, bytes_ok data → zeroed data (Normalize n data).
Proof.
  induction n as [| | |ns IH] using Normalizer_ind'; intros data Hd; [done|by apply normalizePE_zeroed|by apply normalizeNTFS_zeroed|].
  rewrite Normalize_Composite. unfold NormalizeAll. revert data Hd. induction IH as [|n ns Hn _ IHns]; intros data Hd; [done|].
  cbn [foldl]. pose proof (Hn data Hd) as Hz. etrans; [exact Hz|]. apply IHns. by eapply zeroed_bytes.
Qed.

(** The leaves of a normaliser, in order. *)
Fixpoint leaves (n : Normalizer) : list Normalizer :=
  match n with
  | Noop => []
  | Composite ns => (fix go ns := match ns with [] => [] | n :: ns => leaves n ++ go ns end) ns
  | n => [n]
  end.

Lemma leaves_spec n : fromNamesLoop (NamesOf n) = Ok (leaves n) ∧ ∀ data, NormalizeAll (leaves n) data = Normalize n data.
Proof.
  assert (Happ : ∀ a b x y, fromNamesLoop a = Ok x → fromNamesLoop b = Ok y → fromNamesLoop (a ++ b) = Ok (x ++ y)).
  { induction a as [|s a IH]; intros b x y Ha Hb; [by injection Ha as <-|]. cbn [app fromNamesLoop] in *.
    apply rbind_Ok_inv in Ha as (n1 & -> & Ha). apply rbind_Ok_inv in Ha as (ns & Ha & [= <-]). cbn [rbind]. by rewrite (IH b ns y). }
  induction n as [| | |ns IH] using Normalizer_ind'; [done..|]. rewrite NamesOf_Composite. cbn [leaves].
  split.
  - induction IH as [|n ns [Hn _] _ IHns]; [done|]. cbn [fmap list_fmap concat]. by apply Happ.
  - intros data. rewrite Normalize_Composite. revert data. induction IH as [|n ns [_ Hn] _ IHns]; intros data; [done|].
    unfold NormalizeAll in *. rewrite foldl_app, Hn. apply IHns.
Qed.

(** ** Theorems *)

(** Normalisation only clears bytes: the result has the chunk's length and every
    byte is the chunk's or zero, for every normaliser. *)
Theorem normalize_only_clears n data : bytes_ok data →
  length (Normalize n data) = length data ∧
  ∀ i x, data !! i = Some x → Normalize n data !! i = Some x ∨ Normalize n data !! i = Some 0.
Proof.
  intros Hd. pose proof (Normalize_zeroed n data Hd) as Hz. split; [by apply zeroed_length|].
  intros i x Hx. destruct (Forall2_lookup_l _ _ _ _ _ Hz Hx) as (y & Hy & [->| ->]); auto.
Qed.

(** A record whose only attribute is $STANDARD_INFORMATION, with the given time. *)
Definition mftRecord (time : Z) : bytes :=
  sigFILE ++ zeros 16 ++ PutUint16 56 ++ zeros 34 ++
  PutUint32 0x10 ++ PutUint32 72 ++ zeros 12 ++ PutUint16 24 ++ zeros 2 ++ PutUint64 time ++ zeros 40 ++ PutUint32 0xFFFFFFFF ++ zeros 892.

Lemma normalize_only_clears_witness :
  Normalize NTFSTimestamp (mftRecord 7) = mftRecord 0 ∧
  length (Normalize NTFSTimestamp (mftRecord 7)) = length (mftRecord 7) ∧
  ∀ i x, mftRecord 7 !! i = Some x →
    Normalize NTFSTimestamp (mftRecord 7) !! i = Some x ∨ Normalize NTFSTimestamp (mftRecord 7) !! i = Some 0.
Proof. split; [vm_compute; reflexivity|]. apply (normalize_only_clears NTFSTimestamp (mftRecord 7)). by_eval. Defined.

(** The persisted names of a normaliser give back a normaliser with the same identity
    input, however it was nested. *)
Theorem normalizer_names_roundtrip n : ∃ m, FromNames (Names n) = Ok m ∧ ∀ data, IdentityHashInput m data = IdentityHashInput n data.
Proof.
  destruct n as [n|]; [|by exists None]. destruct (leaves_spec n) as [Hl Hn]. unfold FromNames, Names. rewrite Hl. cbn [rbind].
  eexists. split; [reflexivity|]. intros data. cbn [IdentityHashInput]. rewrite <- Hn.
  destruct (leaves n) as [|a [|b l]]; [done|done|]. cbn [IdentityHashInput]. apply Normalize_Composite.
Qed.

(** Two different chunks have one identity under the NTFS normaliser: the index keeps
    the bytes of the first, and the second is restored with the first's timestamps. *)
Theorem normalizer_merges_chunks xxhash :
  mftRecord 7 ≠ mftRecord 8 ∧
  Sum xxhash (IdentityHashInput (Some NTFSTimestamp) (mftRecord 7)) = Sum xxhash (IdentityHashInput (Some NTFSTimestamp) (mftRecord 8)).
Proof.
  split; [vm_compute; congruence|].
  assert (IdentityHashInput (Some NTFSTimestamp) (mftRecord 7) = IdentityHashInput (Some NTFSTimestamp) (mftRecord 8)) as -> by (vm_compute; reflexivity).
  done.
Qed.
