(* ===== verification/RepoConfig.v ===== *)
(** * core/store and core/config: repository settings (repoconfig.go, profile.go, compression.go, config.go)

    The stored repository configuration, how its unset fields are resolved, the creation
    profiles, which key the index is under, and the identity hash a resume compares
    (core/checkpoint's [ConfigHash]).  JSON text is read and written by arguments.
    A floating-point setting is its IEEE bits. *)

From S2P Require Import Prelude GoBytes GoFiles Hashes Crypto PackStore.
From Stdlib Require Import Ascii.

Definition DefaultChunkMinSize : Z := 16 * 1024.
Definition DefaultChunkAvgSize : Z := 64 * 1024.
Definition DefaultChunkMaxSize : Z := 512 * 1024.
Definition DefaultBuzhashMask : Z := 0xFFFF.
Definition DefaultPackFileMaxSize : Z := 128 * 1024 * 1024.
Definition DefaultCompressionLevel : Z := 3.
Definition DefaultReadBufferSize : Z := 1024 * 1024.
Definition DefaultBloomFPRate : Z := 0x3F50624DD2F1A9FC.
Definition DefaultIndexCacheMB : Z := 256.
Definition DefaultMemoryBudgetMB : Z := 512.

Record Config := mkConfig {
  c_ChunkMinSize : Z; c_ChunkAvgSize : Z; c_ChunkMaxSize : Z; c_BuzhashMask : Z;
  c_PackFileMaxSize : Z; c_CompressionLevel : Z; c_RepoPath : string;
  c_HashWorkers : Z; c_MemoryBudgetMB : Z; c_ReadBufferSize : Z;
  c_BloomFPRate : Z; c_IndexCacheMB : Z; c_MemFlushedIndex : bool;
  c_ExcludeVolatileFiles : bool; c_NormalizeNTFS : bool }.

Definition defaultWorkers (numCPU : Z) : Z := if 1 <? numCPU then numCPU - 1 else 1.
Definition Default (numCPU : Z) : Config :=
  mkConfig DefaultChunkMinSize DefaultChunkAvgSize DefaultChunkMaxSize DefaultBuzhashMask
    DefaultPackFileMaxSize DefaultCompressionLevel "" (defaultWorkers numCPU) DefaultMemoryBudgetMB
    DefaultReadBufferSize DefaultBloomFPRate DefaultIndexCacheMB false true false.

Record RepoConfig := mkRepoConfig {
  rc_Version : Z; rc_ChunkMinSize : Z; rc_ChunkAvgSize : Z; rc_ChunkMaxSize : Z; rc_BuzhashMask : Z;
  rc_PackFileMaxSize : Z; rc_CompressionLevel : Z; rc_Encrypted : bool; rc_EncryptionMode : string;
  rc_Normalizers : list string }.
Definition zeroConfig : RepoConfig := mkRepoConfig 0 0 0 0 0 0 0 false "" [].

Definition EncryptNone : string := "".
Definition EncryptPassphrase : string := "passphrase".
Definition EncryptManaged : string := "managed".

Definition EffectiveEncryptionMode (rc : RepoConfig) : string :=
  if negb (String.eqb (rc_EncryptionMode rc) "") then rc_EncryptionMode rc
  else if rc_Encrypted rc then EncryptPassphrase else EncryptNone.

Definition Effective (rc : RepoConfig) : RepoConfig :=
  mkRepoConfig (rc_Version rc)
    (if rc_ChunkMinSize rc <=? 0 then DefaultChunkMinSize else rc_ChunkMinSize rc)
    (if rc_ChunkAvgSize rc <=? 0 then DefaultChunkAvgSize else rc_ChunkAvgSize rc)
    (if rc_ChunkMaxSize rc <=? 0 then DefaultChunkMaxSize else rc_ChunkMaxSize rc)
    (if rc_BuzhashMask rc =? 0 then DefaultBuzhashMask else rc_BuzhashMask rc)
    (if rc_PackFileMaxSize rc <=? 0 then DefaultPackFileMaxSize else rc_PackFileMaxSize rc)
    (if rc_CompressionLevel rc <=? 0 then DefaultCompressionLevel else rc_CompressionLevel rc)
    (rc_Encrypted rc) (rc_EncryptionMode rc) (rc_Normalizers rc).

Definition ApplyToConfig (rc : RepoConfig) (cfg : Config) : Config :=
  let eff := Effective rc in
  mkConfig (rc_ChunkMinSize eff) (rc_ChunkAvgSize eff) (rc_ChunkMaxSize eff) (rc_BuzhashMask eff)
    (rc_PackFileMaxSize eff) (rc_CompressionLevel eff) (c_RepoPath cfg)
    (c_HashWorkers cfg) (c_MemoryBudgetMB cfg) (c_ReadBufferSize cfg)
    (c_BloomFPRate cfg) (c_IndexCacheMB cfg) (c_MemFlushedIndex cfg) (c_ExcludeVolatileFiles cfg) (c_NormalizeNTFS cfg).

(** The index of a managed repository is in the clear. *)
Definition IndexKeyFor (rc : RepoConfig) (key : option bytes) : option bytes :=
  if String.eqb (EffectiveEncryptionMode rc) EncryptManaged then None else key.
Definition IndexEncryptedAtRest (rc : RepoConfig) : bool :=
  let mode := EffectiveEncryptionMode rc in negb (String.eqb mode EncryptNone) && negb (String.eqb mode EncryptManaged).

Inductive cfg_err := CfgRead | CfgParse | CfgProfile (name : string).

Definition RepoConfigFromRecord (unmarshal : bytes → option RepoConfig) (configJSON : bytes) (mode : string) : result cfg_err RepoConfig :=
  let! rc := match configJSON with [] => Ok zeroConfig | _ => of_option CfgParse (unmarshal configJSON) end in
  Ok (mkRepoConfig (rc_Version rc) (rc_ChunkMinSize rc) (rc_ChunkAvgSize rc) (rc_ChunkMaxSize rc) (rc_BuzhashMask rc)
        (rc_PackFileMaxSize rc) (rc_CompressionLevel rc)
        (if negb (String.eqb mode "") then true else rc_Encrypted rc) mode (rc_Normalizers rc)).

(** ** Files of the repository root *)

(** "config.json" *)
Definition configName : name := [99; 111; 110; 102; 105; 103; 46; 106; 115; 111; 110].
Definition sTmp : bytes := [46; 116; 109; 112].

Definition withVersion (cfg : RepoConfig) (v : Z) : RepoConfig :=
  mkRepoConfig v (rc_ChunkMinSize cfg) (rc_ChunkAvgSize cfg) (rc_ChunkMaxSize cfg) (rc_BuzhashMask cfg)
    (rc_PackFileMaxSize cfg) (rc_CompressionLevel cfg) (rc_Encrypted cfg) (rc_EncryptionMode cfg) (rc_Normalizers cfg).

Definition RepoExists (root : dir) : bool := bool_decide (is_Some (stat root configName)).
Definition InitRepo (marshal : RepoConfig → bytes) (root : dir) (cfg : RepoConfig) : dir :=
  create root configName (marshal (withVersion cfg 1)).
Definition LoadRepoConfig (unmarshal : bytes → option RepoConfig) (root : dir) : result cfg_err RepoConfig :=
  let! data := of_option CfgRead (stat root configName) in of_option CfgParse (unmarshal data).
Definition SaveRepoConfig (marshal : RepoConfig → bytes) (root : dir) (cfg : RepoConfig) : dir :=
  rename (create root (configName ++ sTmp) (marshal cfg)) (configName ++ sTmp) configName.

(** ** Profiles *)

Definition ProfileNames : list string := ["fine-grained"; "mixed"; "low-footprint"; "coarse"; "archive"].

Definition withGeometry (cfg : RepoConfig) (mn av mx mask pack : Z) : RepoConfig :=
  mkRepoConfig (rc_Version cfg) mn av mx mask pack (rc_CompressionLevel cfg) (rc_Encrypted cfg) (rc_EncryptionMode cfg) (rc_Normalizers cfg).

Definition ApplyProfile (cfg : RepoConfig) (name : string) : result cfg_err RepoConfig :=
  if String.eqb name "" then Ok cfg
  else if String.eqb name "low-footprint" then
    Ok (withGeometry cfg (Z.shiftl 16 10) (Z.shiftl 64 10) (Z.shiftl 512 10) (Z.shiftl 64 10 - 1) (Z.shiftl 128 20))
  else if String.eqb name "fine-grained" then
    Ok (withGeometry cfg (Z.shiftl 4 10) (Z.shiftl 8 10) (Z.shiftl 64 10) (Z.shiftl 8 10 - 1) (Z.shiftl 512 20))
  else if String.eqb name "mixed" then
    Ok (withGeometry cfg (Z.shiftl 8 10) (Z.shiftl 32 10) (Z.shiftl 256 10) (Z.shiftl 32 10 - 1) (Z.shiftl 128 20))
  else if String.eqb name "coarse" then
    Ok (withGeometry cfg (Z.shiftl 32 10) (Z.shiftl 128 10) (Z.shiftl 1 20) (Z.shiftl 128 10 - 1) (Z.shiftl 256 20))
  else if String.eqb name "archive" then
    Ok (withGeometry cfg (Z.shiftl 256 10) (Z.shiftl 1 20) (Z.shiftl 8 20) (Z.shiftl 1 20 - 1) (Z.shiftl 1 30))
  else Err (CfgProfile name).

Definition CompressionChoices : list (string * Z * preset) :=
  [("fastest", 1, SpeedFastest); ("balanced", 3, SpeedDefault); ("better", 6, SpeedBetterCompression); ("best", 9, SpeedBestCompression)].

(** ** The identity of a configuration *)

Definition str (s : string) : bytes := (λ c, Z.of_nat (nat_of_ascii c)) <$> String.list_ascii_of_string s.
Definition fmtD (z : Z) : bytes := if z <? 0 then 45 :: decimal 20 (- z) else decimal 20 z.
(** [strings.Join] *)
Fixpoint Join (l : list bytes) (sep : bytes) : bytes :=
  match l with [] => [] | [s] => s | s :: l => s ++ sep ++ Join l sep end.

(** The text [ConfigHash] hashes. *)
Definition configText (rc : RepoConfig) : bytes :=
  str "v1;min=" ++ fmtD (rc_ChunkMinSize rc) ++ str ";avg=" ++ fmtD (rc_ChunkAvgSize rc) ++ str ";max=" ++ fmtD (rc_ChunkMaxSize rc) ++
  str ";mask=" ++ fmtD (rc_BuzhashMask rc) ++ str ";pack=" ++ fmtD (rc_PackFileMaxSize rc) ++ str ";zstd=" ++ fmtD (rc_CompressionLevel rc) ++
  str ";enc=" ++ str (EffectiveEncryptionMode rc) ++ str ";norm=" ++ Join (str <$> rc_Normalizers rc) (str ",").
Definition ConfigHash (rc : RepoConfig) : bytes := Sum256 (configText (Effective rc)).

(** ** Text is read back *)

Definition digits_ok (l : bytes) : Prop := Forall (λ c, 48 ≤ c ≤ 57) l.
Definition digitsVal (l : bytes) : Z := foldl (λ a c, a * 10 + (c - 48)) 0 l.

Lemma decimal_val fuel n : 0 ≤ n < 10 ^ Z.of_nat fuel → digits_ok (decimal fuel n) ∧ digitsVal (decimal fuel n) = n.
Proof.
  revert n. induction fuel as [|fuel IH]; intros n Hn; [split; [constructor|cbn in *; lia]|]. cbn [decimal].
  rewrite Nat2Z.inj_succ, Z.pow_succ_r in Hn by lia. pose proof (Z_div_mod_eq_full n 10). pose proof (Z.mod_pos_bound n 10).
  destruct (n <? 10) eqn:H10; zbool; [split; [repeat constructor; lia|cbn; lia]|].
  destruct (IH (n / 10)) as [Hd Hv]; [split; [apply Z.div_pos; lia|apply Z.div_lt_upper_bound; lia]|]. split.
  - apply Forall_app. split; [done|]. repeat constructor; lia.
  - unfold digitsVal in *. rewrite foldl_app, Hv. cbn [foldl]. lia.
Qed.

Lemma fmtD_ok z : 0 ≤ z < 2 ^ 64 → digits_ok (fmtD z) ∧ digitsVal (fmtD z) = z.
Proof. intros H. unfold fmtD. rewrite (proj2 (Z.ltb_ge _ _)) by lia. apply decimal_val. change (10 ^ Z.of_nat 20) with 100000000000000000000. lia. Qed.

(** A field ends at the first separator. *)
Lemma field_inj (sep : Z) (a b x y : bytes) : sep ∉ a → sep ∉ b → a ++ sep :: x = b ++ sep :: y → a = b ∧ x = y.
Proof.
  revert b. induction a as [|c a IH]; intros [|d b] Ha Hb H; injection H; try done.
  - intros _ <-. destruct Hb. left.
  - intros _ ->. destruct Ha. left.
  - intros Ht ->. rewrite not_elem_of_cons in Ha, Hb. destruct (IH b) as [-> ->]; naive_solver.
Qed.

(** The separator of the text is the semicolon. *)
Lemma number_field x y r s : 0 ≤ x < 2 ^ 64 → 0 ≤ y < 2 ^ 64 → fmtD x ++ 59 :: r = fmtD y ++ 59 :: s → x = y ∧ r = s.
Proof.
  intros Hx Hy. destruct (fmtD_ok x Hx) as [Dx Vx], (fmtD_ok y Hy) as [Dy Vy].
  assert (Hd : ∀ l, digits_ok l → 59 ∉ l) by (intros l Hl Hin; eapply Forall_forall in Hl; [|exact Hin]; lia).
  intros (He & ->)%field_inj; [|by apply Hd..]. split; [congruence|done].
Qed.

Definition plain_text (s : string) : Prop := (59 ∉ str s) ∧ (44 ∉ str s) ∧ s ≠ "".

Lemma str_inj s t : str s = str t → s = t.
Proof.
  unfold str. intros H. rewrite <- (String.string_of_list_ascii_of_string s), <- (String.string_of_list_ascii_of_string t). f_equal.
  revert H. generalize (String.list_ascii_of_string t) as k. induction (String.list_ascii_of_string s) as [|a l IH]; intros [|b k] H; try done.
  injection H as Ha Hl. apply Nat2Z.inj in Ha. f_equal; [|by apply IH].
  by rewrite <- (ascii_nat_embedding a), <- (ascii_nat_embedding b), Ha.
Qed.

Lemma Join_cons2 s t l : Join (str <$> s :: t :: l) (str ",") = str s ++ 44 :: Join (str <$> t :: l) (str ",").
Proof. done. Qed.

Lemma str_empty s : str s = [] → s = "".
Proof. unfold str. destruct s; [done|]. done. Qed.

Lemma Join_inj l : ∀ k, Forall plain_text l → Forall plain_text k → Join (str <$> l) (str ",") = Join (str <$> k) (str ",") → l = k.
Proof.
  assert (Hne : ∀ s (x : bytes), plain_text s → str s = str s ++ 44 :: x → False).
  { intros s x _ H. apply (f_equal length) in H. rewrite length_app in H. cbn in H. lia. }
  assert (Hno : ∀ (a b x : bytes), 44 ∉ a → a = b ++ 44 :: x → False).
  { intros a b x Ha ->. apply Ha. rewrite elem_of_app, elem_of_cons. auto. }
  induction l as [|s l IH]; intros [|t k] Hl Hk H; [done|..].
  - exfalso. apply Forall_cons in Hk as [(_ & _ & Ht) _]. destruct k as [|u k]; [by apply Ht, str_empty|].
    rewrite Join_cons2 in H. by destruct (str t).
  - exfalso. apply Forall_cons in Hl as [(_ & _ & Hs) _]. destruct l as [|u l]; [by apply Hs, str_empty|].
    rewrite Join_cons2 in H. by destruct (str s).
  - apply Forall_cons in Hl as [Hs Hl]. apply Forall_cons in Hk as [Ht Hk]. destruct l as [|u l], k as [|v k].
    + cbn in H. by apply str_inj in H as ->.
    + rewrite Join_cons2 in H. exfalso. eapply Hno; [apply Hs|exact H].
    + rewrite Join_cons2 in H. exfalso. symmetry in H. eapply Hno; [apply Ht|exact H].
    + rewrite !Join_cons2 in H. apply field_inj in H as [->%str_inj H]; [|apply Hs|apply Ht]. f_equal. by apply IH.
Qed.

(** ** Theorems *)

(** The fields the identity covers. *)
Definition resume_fields (rc : RepoConfig) :=
  (rc_ChunkMinSize rc, rc_ChunkAvgSize rc, rc_ChunkMaxSize rc, rc_BuzhashMask rc, rc_PackFileMaxSize rc, rc_CompressionLevel rc,
   EffectiveEncryptionMode rc, rc_Normalizers rc).

Record config_ok (rc : RepoConfig) : Prop := {
  co_sizes : 0 ≤ rc_ChunkMinSize rc < 2 ^ 63 ∧ 0 ≤ rc_ChunkAvgSize rc < 2 ^ 63 ∧ 0 ≤ rc_ChunkMaxSize rc < 2 ^ 63 ∧
    0 ≤ rc_PackFileMaxSize rc < 2 ^ 63 ∧ 0 ≤ rc_CompressionLevel rc < 2 ^ 63;
  co_mask : is_u64 (rc_BuzhashMask rc);
  co_mode : 59 ∉ str (EffectiveEncryptionMode rc);
  co_norm : Forall plain_text (rc_Normalizers rc) }.

Lemma resolve_idemp (f : Z → bool) d x : f d = false → let r := if f x then d else x in (if f r then d else r) = r.
Proof. intros Hd. cbn zeta. destruct (f x) eqn:Hx; [by rewrite Hd|by rewrite Hx]. Qed.

Lemma Effective_idemp rc : Effective (Effective rc) = Effective rc.
Proof.
  destruct rc as [v mn av mx mask pack lvl enc mode norm]. unfold Effective. cbn.
  f_equal; first [by apply (resolve_idemp (λ x, x <=? 0))|by apply (resolve_idemp (λ x, x =? 0))].
Qed.

Lemma Effective_ok rc : config_ok rc → config_ok (Effective rc) ∧ EffectiveEncryptionMode (Effective rc) = EffectiveEncryptionMode rc.
Proof.
  intros [(H1 & H2 & H3 & H4 & H5) Hm He Hn]. split; [|done]. destruct rc as [v mn av mx mask pack lvl enc mode norm]. cbn in *.
  split; cbn; [|destruct (_ =? 0)|done|done].
  - split_and!; destruct (_ <=? 0) eqn:Hz; zbool; try lia; done.
  - done.
  - done.
Qed.

Lemma configText_inj a b : config_ok a → config_ok b → configText a = configText b → resume_fields a = resume_fields b.
Proof.
  intros [(A1 & A2 & A3 & A4 & A5) A6 A7 A8] [(B1 & B2 & B3 & B4 & B5) B6 B7 B8]. unfold is_u64 in *. unfold configText.
  cbn [str String.list_ascii_of_string fmap list_fmap app]. cbn. intros [= H]. unfold resume_fields.
  apply number_field in H as [-> H]; [|lia..]. injection H as H. apply number_field in H as [-> H]; [|lia..]. injection H as H.
  apply number_field in H as [-> H]; [|lia..]. injection H as H. apply number_field in H as [-> H]; [|lia..]. injection H as H.
  apply number_field in H as [-> H]; [|lia..]. injection H as H. apply number_field in H as [-> H]; [|lia..]. injection H as H.
  apply field_inj in H as [->%str_inj H]; [|done..]. injection H as H. apply Join_inj in H as ->; done.
Qed.

Lemma configText_fields a b : resume_fields a = resume_fields b → configText a = configText b.
Proof. unfold resume_fields, configText. by intros [= -> -> -> -> -> -> -> ->]. Qed.

(** The resume identity is exact: two configurations hash the same text exactly
    when, resolved, they agree on the chunk geometry, pack size, compression, encryption
    mode and normalisers; a stored configuration and its resolved form are the same
    identity. *)
Theorem config_identity_exact a b : config_ok a → config_ok b →
  (configText (Effective a) = configText (Effective b) ↔ resume_fields (Effective a) = resume_fields (Effective b)) ∧
  ConfigHash (Effective a) = ConfigHash a.
Proof.
  intros Ha Hb. destruct (Effective_ok a Ha) as [Ha' _], (Effective_ok b Hb) as [Hb' _]. split; [split; [by apply configText_inj|]|].
  - apply configText_fields.
  - unfold ConfigHash. by rewrite Effective_idemp.
Qed.

Definition managedConfig : RepoConfig := mkRepoConfig 1 0 0 0 0 0 0 true "managed" ["pe"; "ntfs"].
Lemma managedConfig_ok : config_ok managedConfig.
Proof. split; by_eval. Qed.

Lemma config_identity_exact_witness :
  (configText (Effective managedConfig) = configText (Effective zeroConfig) ↔
   resume_fields (Effective managedConfig) = resume_fields (Effective zeroConfig)) ∧
  ConfigHash (Effective managedConfig) = ConfigHash managedConfig.
Proof. apply (config_identity_exact managedConfig zeroConfig managedConfig_ok). split; by_eval. Defined.

(** A profile's geometry. *)
Definition geometry_ok (rc : RepoConfig) : Prop :=
  0 < rc_ChunkMinSize rc < rc_ChunkAvgSize rc ∧ rc_ChunkAvgSize rc < rc_ChunkMaxSize rc ∧
  rc_BuzhashMask rc = rc_ChunkAvgSize rc - 1 ∧ (∃ k, 0 ≤ k ∧ rc_ChunkAvgSize rc = 2 ^ k) ∧
  2 * rc_ChunkMaxSize rc ≤ maxChunkFrameLen ∧ rc_ChunkMaxSize rc < rc_PackFileMaxSize rc.

(** The profile catalogue: exactly the listed names (and the empty one) are
    accepted, and each gives a geometry with the average between the bounds, the mask of
    an average that is a power of two, chunks the store can read back and packs that hold
    a chunk; nothing else of the configuration changes. *)
Theorem profiles_exact cfg name :
  (∀ rc, ApplyProfile cfg name = Ok rc →
    (name = "" ∧ rc = cfg) ∨ (name ∈ ProfileNames ∧ geometry_ok rc ∧ Effective rc = withGeometry (Effective cfg) (rc_ChunkMinSize rc)
      (rc_ChunkAvgSize rc) (rc_ChunkMaxSize rc) (rc_BuzhashMask rc) (rc_PackFileMaxSize rc))) ∧
  (name = "" ∨ name ∈ ProfileNames → ∃ rc, ApplyProfile cfg name = Ok rc).
Proof.
  assert (Hg : ∀ rc mn k mx pack, rc = withGeometry cfg mn (2 ^ k) mx (2 ^ k - 1) pack → 0 < mn < 2 ^ k → 2 ^ k < mx → 0 < k →
    2 * mx ≤ 67108864 → mx < pack → geometry_ok rc ∧ Effective rc = withGeometry (Effective cfg) (rc_ChunkMinSize rc)
      (rc_ChunkAvgSize rc) (rc_ChunkMaxSize rc) (rc_BuzhashMask rc) (rc_PackFileMaxSize rc)).
  { intros rc mn k mx pack -> H1 H2 H3 H4 H5. split; [|].
    - unfold geometry_ok. cbn. change maxChunkFrameLen with 67108864. split_and!; try lia. exists k. lia.
    - unfold Effective, withGeometry. cbn. f_equal.
      all: rewrite ?(proj2 (Z.leb_gt _ _)) by lia; try reflexivity. rewrite (proj2 (Z.eqb_neq _ _)) by lia. done. }
  split.
  - intros rc. unfold ApplyProfile. repeat (match goal with |- context [String.eqb name ?s] => destruct (String.eqb_spec name s) as [->|?] end;
      [intros [= <-]; first [by left|right; split; [unfold ProfileNames; rewrite !elem_of_cons; tauto|]]|]); [..|done].
    + by apply (Hg _ (16 * 1024) 16 (512 * 1024) (128 * 1024 * 1024)).
    + by apply (Hg _ (4 * 1024) 13 (64 * 1024) (512 * 1024 * 1024)).
    + by apply (Hg _ (8 * 1024) 15 (256 * 1024) (128 * 1024 * 1024)).
    + by apply (Hg _ (32 * 1024) 17 (1024 * 1024) (256 * 1024 * 1024)).
    + by apply (Hg _ (256 * 1024) 20 (8 * 1024 * 1024) (1024 * 1024 * 1024)).
  - unfold ProfileNames. rewrite !elem_of_cons, elem_of_nil. intros [->|[->|[->|[->|[->|[->|[]]]]]]]; eexists; reflexivity.
Qed.

(** Which key the index is under: a managed repository's index is never encrypted, an
    unencrypted one has no key, and otherwise the index is encrypted under the chunk key;
    the two rules agree. *)
Theorem index_key_rule rc key :
  (IndexEncryptedAtRest rc = true → IndexKeyFor rc key = key) ∧
  (EffectiveEncryptionMode rc = EncryptManaged → IndexKeyFor rc key = None ∧ IndexEncryptedAtRest rc = false) ∧
  (IndexEncryptedAtRest rc = false → IndexKeyFor rc None = None ∧
    (EffectiveEncryptionMode rc = EncryptNone ∨ EffectiveEncryptionMode rc = EncryptManaged)).
Proof.
  unfold IndexEncryptedAtRest, IndexKeyFor. cbn zeta.
  destruct (String.eqb_spec (EffectiveEncryptionMode rc) EncryptManaged) as [Hm|Hm], (String.eqb_spec (EffectiveEncryptionMode rc) EncryptNone) as [Hn|Hn];
    cbn [negb andb]; split_and!; try done; intros; split_and!; auto.
Qed.
