(* ===== verification/Rebuild.v ===== *)
(** * core/index/rebuild.go: the index from the packs

    [Rebuild] scans every pack, opens every frame, hashes the normalised chunk and
    inserts its location into a fresh filter and a fresh hash index, flushing the index
    now and then; both are then written, encrypted when there is a key.  The bit count
    that sizes the filter is a function argument (floating point), xxhash and the nonces
    are arguments; cancellation is left out. *)

From S2P Require Import Prelude GoBytes GoRuntime GoFiles Hashes HashTable HashBuild HashIndex Bloom Delta Fold Crypto Dedup PackStore Preprocess RepoConfig.

Inductive rebuild_err :=
| RbNoRepo | RbConfig (e : cfg_err) | RbManaged | RbNormalizer (e : pre_err) | RbNoChunksDir | RbNoPacks
| RbBadName (n : name) | RbPayload (off : Z) | RbFrame (off : Z) (e : store_err) | RbPanic | RbIndex (e : index_err) | RbEncrypt (e : crypto_err).

Record RebuildOptions := mkRebuildOptions { RebuildBloom : bool; RebuildHashIndex : bool; DeltaFlushEvery : Z; ExpectedChunks : Z }.

(** ** Packs *)

Definition packNumberOr0 (n : name) : Z := default 0 (parsePackFileName n).

Section rebuild.
Context {MR : MapRange} {SS : SortSlice} {PR : Primitives} {ZS : Zstd}.

(** In ascending number; a name without a number is refused when its turn comes. *)
Definition listPackFiles (chunks : files) : list name :=
  sortSlice packNumberOr0 (filter (λ n, HasSuffix n sPack = true) (ReadDir chunks)).

(** A header-only scan that seeks past the payloads, also past the end of the file. *)
Fixpoint countFrames (fuel : nat) (f : bytes) : Z :=
  match fuel with
  | O => 0
  | S fuel => if len f <? 8 then 0 else 1 + countFrames fuel (drop (Z.to_nat (8 + le_get (sub f 0 4))) f)
  end.
Definition countFramesInPack (f : bytes) : Z := countFrames (S (length f)) f.
Definition countPackChunks (chunks : files) : Z :=
  foldl (λ n p, n + countFramesInPack (default [] (chunks !! p))) 0 (listPackFiles chunks).

(** Every frame of a pack, opened, given to [fn] with its offset and stated raw length;
    a header cut short ends the scan, a payload cut short is an error. *)
Fixpoint streamPack {A} (fuel : nat) (key : option bytes) (f : bytes) (offset : Z)
    (fn : A → Z → Z → bytes → A * option rebuild_err) (a : A) : A * option rebuild_err :=
  match fuel with
  | O => (a, None)
  | S fuel =>
      if len f <? 8 then (a, None)
      else
        let compLen := le_get (sub f 0 4) in
        let rawLen := le_get (sub f 4 4) in
        if len f <? 8 + compLen then (a, Some (RbPayload offset))
        else match openPayload key (sub f 8 (Z.to_nat compLen)) with
             | Err e => (a, Some (RbFrame offset e))
             | Ok raw =>
                 match fn a offset rawLen raw with
                 | (a, Some e) => (a, Some e)
                 | (a, None) => streamPack fuel key (drop (Z.to_nat (8 + compLen)) f) (offset + 8 + compLen) fn a
                 end
             end
  end.

(** ** The rebuild *)

(** What the scan carries: the filter, the index and the chunks so far. *)
Record scan := mkScan { sc_bloom : option BloomFilter; sc_index : option HashIndex; sc_count : Z }.

Definition rebuildChunk (xxhash : bytes → Z) (norm : option Normalizer) (flushEvery packNum : Z)
    (s : scan) (offset rawLen : Z) (raw : bytes) : scan * option rebuild_err :=
  let id := Sum xxhash (IdentityHashInput norm raw) in
  match (match sc_bloom s with None => Some None | Some bf => Some <$> Add bf (id_WeakHash id) end) with
  | None => (s, Some RbPanic)
  | Some bloom =>
      let idx := (λ i, Insert i (id_StrongHash id) packNum (u64 offset) rawLen) <$> sc_index s in
      let n := sc_count s + 1 in
      match idx with
      | Some i =>
          if Z.rem n flushEvery =? 0 then
            let '(i, err) := FlushDelta i in (mkScan bloom (Some i) n, RbIndex <$> err)
          else (mkScan bloom (Some i) n, None)
      | None => (mkScan bloom None n, None)
      end
  end.

Fixpoint scanPacks (xxhash : bytes → Z) (norm : option Normalizer) (flushEvery : Z) (key : option bytes) (chunks : files)
    (packs : list name) (s : scan) : scan * option rebuild_err :=
  match packs with
  | [] => (s, None)
  | p :: packs =>
      match parsePackFileName p with
      | None => (s, Some (RbBadName p))
      | Some num =>
          let f := default [] (chunks !! p) in
          match streamPack (S (length f)) key f 0 (rebuildChunk xxhash norm flushEvery num) s with
          | (s, Some e) => (s, Some e)
          | (s, None) => scanPacks xxhash norm flushEvery key chunks packs s
          end
      end
  end.

(** Writing the filter: [bloom.bin], or its encrypted form in its place. *)
Definition persistBloom (key : option bytes) (nonce : bytes) (dir : index_dir) (bloom : option BloomFilter) : index_dir * option rebuild_err :=
  match bloom with
  | None => (dir, None)
  | Some bf =>
      let dir := mkDir (Some (Save bf)) (id_bloom_enc dir) (id_index dir) (id_index_enc dir) (id_deltas dir) in
      match key with
      | None => (dir, None)
      | Some k => match EncryptFile k nonce (Save bf) with
                  | Ok e => (mkDir None (Some e) (id_index dir) (id_index_enc dir) (id_deltas dir), None)
                  | Err e => (dir, Some (RbEncrypt e))
                  end
      end
  end.

Definition withIndexFile (dir : index_dir) (f : option bytes) : index_dir :=
  mkDir (id_bloom dir) (id_bloom_enc dir) f (id_index_enc dir) (id_deltas dir).

Definition persistIndex (key : option bytes) (nonce : bytes) (dir : index_dir) (idx : option HashIndex) : index_dir * option rebuild_err :=
  match idx with
  | None => (dir, None)
  | Some i =>
      match Flush i with
      | (i, Some e) => (withIndexFile dir (Some (ix_disk (Close i).1)), Some (RbIndex e))
      | (i, None) =>
          let '(i, err) := Close i in
          let dir := withIndexFile dir (Some (ix_disk i)) in
          match err with
          | Some e => (dir, Some (RbIndex e))
          | None =>
              match key with
              | None => (dir, None)
              | Some k => match EncryptFile k nonce (ix_disk i) with
                          | Ok e => (mkDir (id_bloom dir) (id_bloom_enc dir) None (Some e) (id_deltas dir), None)
                          | Err e => (dir, Some (RbEncrypt e))
                          end
              end
          end
      end
  end.

(** Refusals before anything is touched, then the scan; a failed scan closes the index
    it has so far, which replaces the old one. *)
Definition rebuildPrepare (unmarshal : bytes → option RepoConfig) (root chunks : dir) : result rebuild_err (option Normalizer * files) :=
  if negb (RepoExists root) then Err RbNoRepo
  else match LoadRepoConfig unmarshal root with
       | Err e => Err (RbConfig e)
       | Ok cfg =>
           if String.eqb (EffectiveEncryptionMode cfg) EncryptManaged then Err RbManaged
           else match FromNames (rc_Normalizers cfg) with
                | Err e => Err (RbNormalizer e)
                | Ok norm =>
                    match chunks with
                    | None => Err RbNoChunksDir
                    | Some fs => if bool_decide (listPackFiles fs = []) then Err RbNoPacks else Ok (norm, fs)
                    end
                end
       end.

Definition Rebuild (xxhash : bytes → Z) (bloomBits : Z → Z) (unmarshal : bytes → option RepoConfig) (opts : RebuildOptions)
    (root chunks : dir) (dir : index_dir) (key : option bytes) (n1 n2 : bytes) : index_dir * result rebuild_err (Z * Z) :=
  match rebuildPrepare unmarshal root chunks with
  | Err e => (dir, Err e)
  | Ok (norm, fs) =>
      let flushEvery := if DeltaFlushEvery opts =? 0 then 500000 else DeltaFlushEvery opts in
      let total := if (ExpectedChunks opts =? 0) && RebuildBloom opts then countPackChunks fs else ExpectedChunks opts in
      let bloom := if RebuildBloom opts then Some (NewBloomFilter (bloomBits (if total =? 0 then 1000000 else total))) else None in
      let fresh := if RebuildHashIndex opts then (match NewHashIndex [] false with Ok i => Ok (Some i) | Err e => Err (RbIndex e) end) else Ok None in
      let dir := if RebuildHashIndex opts then withIndexFile dir (Some []) else dir in
      match fresh with
      | Err e => (dir, Err e)
      | Ok idx =>
          match scanPacks xxhash norm flushEvery key fs (listPackFiles fs) (mkScan bloom idx 0) with
          | (s, Some e) =>
              (match e, sc_index s with
               | RbBadName _, _ | _, None => dir
               | _, Some i => withIndexFile dir (Some (ix_disk (Close i).1))
               end, Err e)
          | (s, None) =>
              match persistBloom key n1 dir (sc_bloom s) with
              | (dir, Some e) => (dir, Err e)
              | (dir, None) =>
                  match persistIndex key n2 dir (sc_index s) with
                  | (dir, Some e) => (dir, Err e)
                  | (dir, None) => (dir, Ok (len (listPackFiles fs), sc_count s))
                  end
              end
          end
      end
  end.

(** ** What the packs hold *)

(** A frame: its payload and the chunk it opens to. *)
Definition frame_ok (key : option bytes) (pd : bytes * bytes) : Prop := len pd.1 < 2 ^ 32 ∧ openPayload key pd.1 = Ok pd.2.
Definition frameBytes (pd : bytes * bytes) : bytes := frameOf pd.1 (len pd.2).

(** The chunks of a pack, with their locations. *)
Fixpoint chunksAt (num off : Z) (frs : list (bytes * bytes)) : list (Z * Z * bytes) :=
  match frs with [] => [] | pd :: frs => (num, off, pd.2) :: chunksAt num (off + 8 + len pd.1) frs end.

Lemma length_frameBytes pd : len (frameBytes pd) = 8 + len pd.1.
Proof. unfold frameBytes. rewrite length_frameOf. lia. Qed.

Lemma chunksAt_app num frs frs' : ∀ off,
  chunksAt num off (frs ++ frs') = chunksAt num off frs ++ chunksAt num (off + len (concat (frameBytes <$> frs))) frs'.
Proof.
  induction frs as [|pd frs IH]; intros off; cbn [app chunksAt fmap list_fmap concat]; [by rewrite Z.add_0_r|].
  rewrite IH, length_app, Nat2Z.inj_add, length_frameBytes. cbn [app]. do 3 f_equal. lia.
Qed.

Lemma length_chunksAt num frs : ∀ off, length (chunksAt num off frs) = length frs.
Proof. induction frs as [|pd frs IH]; intros off; [done|]. cbn. by rewrite IH. Qed.

Section scan.
Context (xxhash : bytes → Z) (norm : option Normalizer).

Definition strongOf (d : bytes) : bytes := Sum256 (IdentityHashInput norm d).
Definition weakOf (d : bytes) : Z := xxhash (IdentityHashInput norm d).
(** What the rebuilt index says of a chunk. *)
Definition chunkEntry (c : Z * Z * bytes) : IndexEntry := mkEntry (strongOf c.2) c.1.1 (u64 c.1.2) (u32 (len c.2)).

Definition chunk_ok (c : Z * Z * bytes) : Prop := is_u32 c.1.1 ∧ strongOf c.2 ≠ zeroHash.

Lemma chunkEntry_storable c : chunk_ok c → storable (chunkEntry c).
Proof.
  intros [Hn Hz]. split; [|done]. constructor; cbn; [split; [apply length_Sum256|apply bytes_ok_Sum256]|done|apply u64_range|apply u32_range].
Qed.

(** The scan has seen exactly the chunks [cs]. *)
Record scan_rep (s : scan) (cs : list (Z * Z * bytes)) : Prop := {
  sr_bloom : ∃ bf, sc_bloom s = Some bf ∧ bloom_ok bf ∧ ∀ c, c ∈ cs → MayContain bf (weakOf c.2) = Some true;
  sr_index : ∃ i, sc_index s = Some i ∧ idx_rep i ∅ (insert_all (chunkEntry <$> cs) ∅) ∧ ix_noHtab i = false;
  sr_count : sc_count s = len cs }.

Lemma rebuildChunk_rep flushEvery num s cs off d r : scan_rep s cs → chunk_ok (num, off, d) → len cs + 1 ≤ 2 ^ 35 → r = u32 (len d) →
  ∃ s', rebuildChunk xxhash norm flushEvery num s off r d = (s', None) ∧ scan_rep s' (cs ++ [(num, off, d)]).
Proof.
  intros [(bf & Hb & Hbok & Hmay) (i & Hi & Hr & Hno) Hc] Hok Hsz ->. unfold rebuildChunk. rewrite Hb, Hi. cbn [id_WeakHash id_StrongHash Sum].
  destruct (Add_spec bf (weakOf d) Hbok) as (bf' & Ha & Hb' & _ & _ & Hw & Hmono). unfold weakOf in Ha. rewrite Ha. cbn [fmap option_fmap option_map].
  pose proof (Insert_rep i ∅ _ (strongOf d) num (u64 off) (u32 (len d)) Hr (chunkEntry_storable _ Hok)) as Hr'.
  set (i1 := Insert i _ _ _ _) in *. assert (HM : <[strongOf d := mkEntry (strongOf d) num (u64 off) (u32 (len d))]> (insert_all (chunkEntry <$> cs) ∅) =
    insert_all (chunkEntry <$> (cs ++ [(num, off, d)])) ∅) by (rewrite fmap_app; cbn [fmap list_fmap]; by rewrite insert_all_snoc).
  rewrite HM in Hr'. assert (Hm1 : ∀ c, c ∈ cs ++ [(num, off, d)] → MayContain bf' (weakOf c.2) = Some true).
  { intros c [Hin|Hin]%elem_of_app; [by apply Hmono, Hmay|]. apply list_elem_of_singleton in Hin as ->. done. }
  assert (Hl : sc_count s + 1 = len (cs ++ [(num, off, d)])) by (rewrite Hc, length_app; cbn; lia).
  destruct (_ =? 0).
  - destruct (FlushDelta_rep i1 ∅ _ Hr' Hno) as (i2 & Hfl & Hr2 & Hno2).
    { pose proof (size_insert_all_le (chunkEntry <$> (cs ++ [(num, off, d)])) ∅) as Hs. rewrite length_fmap, length_app, map_size_empty in Hs. cbn in Hs. lia. }
    cbn [strongOf] in *. rewrite Hfl. eexists. split; [reflexivity|]. split; cbn; [by exists bf'|by exists i2|done].
  - eexists. split; [reflexivity|]. split; cbn; [by exists bf'|by exists i1|done].
Qed.

Lemma frameBytes_head pd rest : len pd.1 < 2 ^ 32 →
  le_get (sub (frameBytes pd ++ rest) 0 4) = len pd.1 ∧ le_get (sub (frameBytes pd ++ rest) 4 4) = u32 (len pd.2) ∧
  sub (frameBytes pd ++ rest) 8 (length pd.1) = pd.1.
Proof.
  intros Hp. destruct (frameOf_fields pd.1 (len pd.2) Hp) as (H1 & H2 & H3). unfold frameBytes.
  rewrite !sub_app_inside by (rewrite length_frameOf; lia). done.
Qed.

Lemma streamPack_rep flushEvery key num frs : ∀ fuel off s cs tail, len tail < 8 → Forall (frame_ok key) frs →
  (length (concat (frameBytes <$> frs) ++ tail) < fuel)%nat →
  scan_rep s cs → Forall chunk_ok (chunksAt num off frs) → len cs + len frs ≤ 2 ^ 35 →
  ∃ s', streamPack fuel key (concat (frameBytes <$> frs) ++ tail) off (rebuildChunk xxhash norm flushEvery num) s = (s', None) ∧
    scan_rep s' (cs ++ chunksAt num off frs).
Proof.
  induction frs as [|pd frs IH]; intros fuel off s cs tail Ht Hf Hfu Hr Hc Hsz; (destruct fuel as [|fuel]; [lia|]); cbn [streamPack].
  { cbn [fmap list_fmap concat app]. rewrite (proj2 (Z.ltb_lt _ _)) by done. exists s. cbn [chunksAt]. by rewrite app_nil_r. }
  apply Forall_cons in Hf as [[Hp Ho] Hf]. cbn [chunksAt] in Hc. apply Forall_cons in Hc as [Hc1 Hc]. cbn [fmap list_fmap concat] in *.
  rewrite <- app_assoc in *. pose proof (length_frameBytes pd) as Hl. rewrite length_app in Hfu. cbn [length] in Hsz.
  destruct (frameBytes_head pd (concat (frameBytes <$> frs) ++ tail) Hp) as (H1 & H2 & H3).
  rewrite (proj2 (Z.ltb_ge _ 8)) by (rewrite length_app; lia). rewrite H1, H2, Nat2Z.id, H3, Ho.
  rewrite (proj2 (Z.ltb_ge _ _)) by (rewrite length_app; lia).
  destruct (rebuildChunk_rep flushEvery num s cs off pd.2 _ Hr Hc1 ltac:(lia) eq_refl) as (s1 & -> & Hr1).
  rewrite drop_app_exact by lia.
  destruct (IH fuel (off + 8 + len pd.1) s1 _ tail Ht Hf ltac:(lia) Hr1 Hc) as (s' & -> & Hr'); [rewrite length_app; cbn; lia|].
  exists s'. split; [done|]. by rewrite <- app_assoc in Hr'.
Qed.

(** A pack is its frames, and maybe the start of a header. *)
Definition pack_is (key : option bytes) (f : bytes) (frs : list (bytes * bytes)) : Prop :=
  Forall (frame_ok key) frs ∧ ∃ tail, f = concat (frameBytes <$> frs) ++ tail ∧ len tail < 8.

(** The chunks of the packs in scan order. *)
Definition scanned (frames : name → list (bytes * bytes)) (packs : list name) : list (Z * Z * bytes) :=
  concat ((λ n, chunksAt (packNumberOr0 n) 0 (frames n)) <$> packs).

Lemma scanPacks_rep flushEvery key chunks frames packs : ∀ s cs,
  Forall (λ n, is_Some (parsePackFileName n) ∧ pack_is key (default [] (chunks !! n)) (frames n)) packs →
  scan_rep s cs → Forall chunk_ok (scanned frames packs) → len cs + len (scanned frames packs) ≤ 2 ^ 35 →
  ∃ s', scanPacks xxhash norm flushEvery key chunks packs s = (s', None) ∧ scan_rep s' (cs ++ scanned frames packs).
Proof.
  induction packs as [|n packs IH]; intros s cs Hp Hr Hc Hsz; cbn [scanPacks].
  { exists s. unfold scanned. cbn. by rewrite app_nil_r. }
  apply Forall_cons in Hp as [[[num Hn] [Hf (tail & Hfile & Ht)]] Hp]. unfold scanned in *. cbn [fmap list_fmap concat] in *.
  assert (Hnum : packNumberOr0 n = num) by (unfold packNumberOr0; by rewrite Hn). rewrite Hnum in *.
  apply Forall_app in Hc as [Hc1 Hc2]. rewrite length_app, length_chunksAt in Hsz. rewrite Hn, Hfile.
  destruct (streamPack_rep flushEvery key num (frames n) (S (length (concat (frameBytes <$> frames n) ++ tail))) 0 s cs tail Ht Hf ltac:(lia) Hr Hc1 ltac:(lia))
    as (s1 & -> & Hr1).
  destruct (IH s1 _ Hp Hr1 Hc2) as (s' & -> & Hr'); [rewrite length_app, length_chunksAt; lia|].
  exists s'. split; [done|]. by rewrite <- app_assoc in Hr'.
Qed.
End scan.
End rebuild.

Section rebuilt.
Context {MR : MapRange} {SS : SortSlice} {PR : Primitives} {ZS : Zstd}.

Lemma persistBloom_ok key nonce dir bf : key_ok key → length nonce = 12%nat →
  ∃ dir', persistBloom key nonce dir (Some bf) = (dir', None) ∧ id_index dir' = id_index dir ∧ id_index_enc dir' = id_index_enc dir ∧
    id_deltas dir' = id_deltas dir ∧
    match key with
    | None => id_bloom dir' = Some (Save bf) ∧ id_bloom_enc dir' = id_bloom_enc dir
    | Some k => id_bloom dir' = None ∧ ∃ e, id_bloom_enc dir' = Some e ∧ DecryptFile k e = Ok (Save bf)
    end.
Proof.
  intros Hk Hn. unfold persistBloom. destruct key as [k|]; [|by eexists].
  destruct (EncryptFile_ok k nonce (Save bf) Hk Hn) as (e & -> & He). eexists. split; [reflexivity|]. split_and!; try done. by exists e.
Qed.

Lemma persistIndex_ok key nonce dir i D M : idx_rep i D M → Z.of_nat (size M) ≤ 2 ^ 35 → key_ok key → length nonce = 12%nat →
  ∃ dir' bs, persistIndex key nonce dir (Some i) = (dir', None) ∧ file_ok bs ∧ insert_all bs ∅ = M ∧
    id_bloom dir' = id_bloom dir ∧ id_bloom_enc dir' = id_bloom_enc dir ∧ id_deltas dir' = id_deltas dir ∧
    match key with
    | None => id_index dir' = Some (sortedFile bs) ∧ id_index_enc dir' = id_index_enc dir
    | Some k => id_index dir' = None ∧ ∃ e, id_index_enc dir' = Some e ∧ DecryptFile k e = Ok (sortedFile bs)
    end.
Proof.
  intros Hr Hsz Hk Hn. unfold persistIndex. destruct (Flush_rep i D M Hr Hsz) as (i1 & -> & Hr1 & _ & Hcl).
  destruct (ir_clean _ _ _ Hr1 Hcl) as [He _]. unfold Close. rewrite Flush_clean by done. cbn [ix_disk].
  destruct (ir_disk _ _ _ Hr1) as (bs & (Hf & Hfile & _) & HM). rewrite Hfile.
  destruct key as [k|]; [|eexists _, bs; split; [reflexivity|]; by split_and!].
  destruct (EncryptFile_ok k nonce (sortedFile bs) Hk Hn) as (e & -> & Hd). eexists _, bs. split; [reflexivity|]. split_and!; try done. by exists e.
Qed.

Lemma empty_file_ok : file_ok [].
Proof. split; [constructor..|cbn; lia]. Qed.

Record rebuild_pre (xxhash : bytes → Z) (bloomBits : Z → Z) (key : option bytes) (dir : index_dir) (norm : option Normalizer) (fs : files)
    (frames : name → list (bytes * bytes)) (n1 n2 : bytes) (ess : list (list DeltaEntry)) : Prop := {
  rp_packs : ∀ n, n ∈ listPackFiles fs → is_Some (parsePackFileName n) ∧ pack_is key (default [] (fs !! n)) (frames n);
  rp_chunks : Forall (chunk_ok norm) (scanned frames (listPackFiles fs));
  rp_size : len (scanned frames (listPackFiles fs)) ≤ 2 ^ 35;
  rp_bits : ∀ n, is_u64 (bloomBits n) ∧ bloomBits n < 2 ^ 64 - 63;
  rp_key : key_ok key;
  rp_nonces : length n1 = 12%nat ∧ length n2 = 12%nat;
  rp_dir : (key = None → id_bloom_enc dir = None ∧ id_index_enc dir = None) ∧ objects_hold key (deltaObjects dir) ess }.

Definition both (every expected : Z) : RebuildOptions := mkRebuildOptions true true every expected.

Lemma Rebuild_spec xxhash bloomBits unmarshal every expected root chunks dir key n1 n2 norm fs frames ess :
  rebuildPrepare unmarshal root chunks = Ok (norm, fs) → rebuild_pre xxhash bloomBits key dir norm fs frames n1 n2 ess →
  let cs := scanned frames (listPackFiles fs) in
  ∃ dir' bf bs, Rebuild xxhash bloomBits unmarshal (both every expected) root chunks dir key n1 n2 = (dir', Ok (len (listPackFiles fs), len cs)) ∧
    dir_holds key dir' bf bs ess ∧ insert_all bs ∅ = insert_all (chunkEntry norm <$> cs) ∅ ∧
    ∀ c, c ∈ cs → MayContain bf (weakOf xxhash norm c.2) = Some true.
Proof.
  intros Hprep [Hp Hc Hsz Hb Hk [Hn1 Hn2] [Henc Hobj]] cs. unfold Rebuild. rewrite Hprep. cbn [RebuildBloom RebuildHashIndex ExpectedChunks DeltaFlushEvery both].
  rewrite andb_true_r. set (total := if expected =? 0 then _ else _). set (bf0 := NewBloomFilter _). clearbody total.
  assert (Hbf0 : bloom_ok bf0) by (apply NewBloomFilter_ok; apply Hb).
  destruct (NewHashIndex_rep [] false empty_file_ok) as (i0 & Hi0 & Hno & Hr0). change (sortedFile []) with (@nil Z) in Hi0. rewrite Hi0.
  set (every' := if every =? 0 then _ else _).
  assert (Hs0 : scan_rep xxhash norm (mkScan (Some bf0) (Some i0) 0) []).
  { split; [exists bf0; split; [reflexivity|split; [exact Hbf0|]]; intros c Hin; by apply elem_of_nil in Hin|exists i0; split; [reflexivity|split; [exact Hr0|exact Hno]]|reflexivity]. }
  destruct (scanPacks_rep xxhash norm every' key fs frames (listPackFiles fs) _ [] ltac:(by apply Forall_forall) Hs0 Hc ltac:(cbn; lia)) as (s & -> & [(bf & Hsb & Hbok & Hmay) (i & Hsi & Hr & _) Hcnt]).
  cbn [app] in *. fold cs in Hr, Hmay, Hcnt, Hsz. rewrite Hsb, Hsi.
  destruct (persistBloom_ok key n1 (withIndexFile dir (Some [])) bf Hk Hn1) as (d1 & -> & B1 & B2 & B3 & B4).
  assert (Hsm : Z.of_nat (size (insert_all (chunkEntry norm <$> cs) ∅)) ≤ 2 ^ 35).
  { pose proof (size_insert_all_le (chunkEntry norm <$> cs) ∅) as Hle. rewrite length_fmap, map_size_empty in Hle. lia. }
  destruct (persistIndex_ok key n2 d1 i _ _ Hr Hsm Hk Hn2) as (d2 & bs & -> & Hf & HM & I1 & I2 & I3 & I4).
  exists d2, bf, bs. rewrite Hcnt. split; [done|]. split_and!; [|done|done].
  split; [done|done| |].
  - unfold decryptDir, decryptOver, refuseEncryptedWithoutKey. destruct key as [k|].
    + destruct B4 as (_ & be & B4 & B5). destruct I4 as (_ & ie & I4 & I5). rewrite I2, B4, B5. cbn [rbind]. rewrite I4, I5. cbn [rbind].
      eexists. split; [reflexivity|]. split; [reflexivity|]. split; [reflexivity|]. exact eq_refl.
    + destruct B4 as [B4 B5]. destruct I4 as [I4 I5]. cbn in B2, B5. destruct (Henc eq_refl) as [E1 E2].
      rewrite I2, B5, I5, B2, E1, E2. cbn [rbind]. eexists. split; [reflexivity|]. rewrite I1, B4, I4. split_and!; reflexivity.
  - unfold deltaObjects in *. rewrite I3, B3. exact Hobj.
Qed.
End rebuilt.

(** ** From stored chunks to the rebuilt index *)

Section stored.
Context {MR : MapRange} {SS : SortSlice} {PR : Primitives} {ZS : Zstd}.

(** A directory that holds packs of readable frames, and nothing else. *)
Record framed (key : option bytes) (fs : files) (frames : name → list (bytes * bytes)) : Prop := {
  fr_name : ∀ n, is_Some (fs !! n) → ∃ num, is_u32 num ∧ n = packPath num;
  fr_file : ∀ n f, fs !! n = Some f → f = concat (frameBytes <$> frames n);
  fr_none : ∀ n, fs !! n = None → frames n = [];
  fr_ok : ∀ n, Forall (λ pd, frame_ok key pd ∧ len pd.1 ≤ maxChunkFrameLen) (frames n) }.

Lemma framed_empty key : framed key ∅ (λ _, []).
Proof. split; intros n; [rewrite lookup_empty; by intros []|intros f; by rewrite lookup_empty|done|constructor]. Qed.

Lemma framed_ensure key fs frames num : is_u32 num → fs !! packPath num = None → framed key fs frames → framed key (<[packPath num := []]> fs) frames.
Proof.
  intros Hn Hnone [F1 F2 F3 F4]. split; [| | |done].
  - intros n. destruct (decide (n = packPath num)) as [->|Hne]; [intros _; by exists num|rewrite lookup_insert_ne by done; apply F1].
  - intros n f. destruct (decide (n = packPath num)) as [->|Hne]; [|rewrite lookup_insert_ne by done; apply F2].
    rewrite lookup_insert_eq. intros [= <-]. by rewrite F3.
  - intros n. destruct (decide (n = packPath num)) as [->|Hne]; [by rewrite lookup_insert_eq|rewrite lookup_insert_ne by done; apply F3].
Qed.

Definition addFrame (frames : name → list (bytes * bytes)) (n : name) (pd : bytes * bytes) (m : name) : list (bytes * bytes) :=
  if decide (m = n) then frames m ++ [pd] else frames m.

Lemma framed_append key cs cs' frames p d loc : framed key (cs_files cs) frames → frame_ok key (p, d) → len p ≤ maxChunkFrameLen →
  appended cs cs' (frameOf p (len d)) loc →
  framed key (cs_files cs') (addFrame frames (packPath loc.1) (p, d)) ∧
  (loc, d) ∈ chunksAt loc.1 0 (addFrame frames (packPath loc.1) (p, d) (packPath loc.1)).
Proof.
  intros [F1 F2 F3 F4] Hpd Hlen Ha. destruct (ap_files _ _ _ _ Ha) as (f & -> & Hd & -> & _). cbn [fst].
  pose proof (so_num _ (ap_ok _ _ _ _ Ha)) as Hu. set (pn := packPath (cs_currentPackNum cs')) in *.
  assert (Hf : f = concat (frameBytes <$> frames pn)).
  { rewrite <- Hd. destruct (cs_files cs !! pn) as [g|] eqn:Hg; cbn; [by apply F2|by rewrite F3]. }
  split.
  - split.
    + intros n. destruct (decide (n = pn)) as [->|Hne]; [intros _; by eexists|rewrite lookup_insert_ne by done; apply F1].
    + intros n g. unfold addFrame. destruct (decide (n = pn)) as [->|Hne]; [|rewrite lookup_insert_ne by done; apply F2].
      rewrite lookup_insert_eq. intros [= <-]. rewrite fmap_app, concat_app, <- Hf. cbn. by rewrite app_nil_r.
    + intros n. unfold addFrame. destruct (decide (n = pn)) as [->|Hne]; [by rewrite lookup_insert_eq|rewrite lookup_insert_ne by done; apply F3].
    + intros n. unfold addFrame. destruct (decide _); [|apply F4]. apply Forall_app. split; [apply F4|]. by apply Forall_singleton.
  - unfold addFrame. rewrite decide_True by done. rewrite chunksAt_app, <- Hf. apply elem_of_app. right. cbn. left.
Qed.

Lemma chunksAt_addFrame frames n pd m num c : c ∈ chunksAt num 0 (frames m) → c ∈ chunksAt num 0 (addFrame frames n pd m).
Proof. unfold addFrame. destruct (decide _); [|done]. rewrite chunksAt_app. intros. apply elem_of_app. by left. Qed.

Lemma elem_of_concat {A} (x : A) (ls : list (list A)) : x ∈ concat ls ↔ ∃ l, x ∈ l ∧ l ∈ ls.
Proof. rewrite list_elem_of_In, in_concat. setoid_rewrite list_elem_of_In. naive_solver. Qed.

Lemma addFrame_elem frames n pd num c : c ∈ chunksAt num 0 (addFrame frames n pd (packPath num)) →
  c ∈ chunksAt num 0 (frames (packPath num)) ∨ c.2 = pd.2.
Proof.
  unfold addFrame. destruct (decide _); [|by left]. rewrite chunksAt_app. intros [?|Hin]%elem_of_app; [by left|right].
  cbn in Hin. by apply list_elem_of_singleton in Hin as ->.
Qed.

(** The frames of a directory. *)
Definition frameTotal (fs : files) (frames : name → list (bytes * bytes)) : nat := sum_list_with (λ n, length (frames n)) (elements (dom fs)).

Lemma sum_addFrame frames n pd l : NoDup l →
  (sum_list_with (λ m, length (addFrame frames n pd m)) l = sum_list_with (λ m, length (frames m)) l + if decide (n ∈ l) then 1 else 0)%nat.
Proof.
  induction 1 as [|m l Hm Hl IH]; [done|]. cbn [sum_list_with]. rewrite IH. unfold addFrame at 1.
  repeat case_decide; subst; rewrite ?length_app; cbn; try lia; set_solver.
Qed.

Lemma frameTotal_insert fs frames n x : fs !! n = None → frameTotal (<[n := x]> fs) frames = (length (frames n) + frameTotal fs frames)%nat.
Proof. intros Hn. unfold frameTotal. rewrite dom_insert_L, elements_union_singleton by (by apply not_elem_of_dom). done. Qed.

Lemma frameTotal_append fs frames n pd x : (fs !! n = None → frames n = []) →
  frameTotal (<[n := x]> fs) (addFrame frames n pd) = S (frameTotal fs frames).
Proof.
  intros Hnone. destruct (fs !! n) as [y|] eqn:Hn.
  - unfold frameTotal. rewrite dom_insert_lookup_L by done. rewrite sum_addFrame by apply NoDup_elements.
    rewrite decide_True; [lia|]. apply elem_of_elements, elem_of_dom. by rewrite Hn.
  - rewrite frameTotal_insert by done. unfold addFrame at 1. rewrite decide_True, Hnone by done. cbn. f_equal.
    unfold frameTotal. rewrite sum_addFrame by apply NoDup_elements. rewrite decide_False; [lia|]. by rewrite elem_of_elements, not_elem_of_dom.
Qed.

Lemma storeAll_framed h items cs frames : seals h → store_ok cs → key_ok (cs_key cs) → Forall (item_fits cs) items →
  cs_currentPackNum cs + len items < 2 ^ 32 → framed (cs_key cs) (cs_files cs) frames →
  ∃ cs' rs frames', storeAll h cs items = (cs', rs) ∧ framed (cs_key cs) (cs_files cs') frames' ∧ same_config cs cs' ∧
    (∀ num c, c ∈ chunksAt num 0 (frames (packPath num)) → c ∈ chunksAt num 0 (frames' (packPath num))) ∧
    (∀ num c, c ∈ chunksAt num 0 (frames' (packPath num)) → c ∈ chunksAt num 0 (frames (packPath num)) ∨ c.2 ∈ items.*2) ∧
    frameTotal (cs_files cs') frames' = (frameTotal (cs_files cs) frames + length items)%nat ∧
    Forall (λ it, ∃ loc, is_u32 loc.1 ∧ (loc, it.2) ∈ chunksAt loc.1 0 (frames' (packPath loc.1))) items.
Proof.
  intros Hs. revert cs frames. induction items as [|[nonce data] items IH]; intros cs frames Hok Hk Hf Hn Hfr.
  { exists cs, [], frames. split_and!; [done|done|reflexivity|done|by left|cbn; lia|constructor]. }
  apply Forall_cons in Hf as [[Hl Hp] Hf]. cbn [fst snd] in *. cbn [length] in Hn.
  assert (is_u32 (cs_currentPackNum cs + 1)) by (pose proof (so_num cs Hok); unfold is_u32 in *; lia).
  destruct (Store_ok h cs nonce data Hs Hok Hk Hl) as (p & cs1 & loc & Hseal & Hop & Hst & Ha); [done|].
  destruct (ensureCurrentPack_ok cs Hok) as (_ & _ & _ & Hc0 & Hn0 & Hfs).
  assert (Hc1 : same_config cs cs1) by (etrans; [exact Hc0|apply Ha]). pose proof (ap_num _ _ _ _ Ha) as Hn1.
  assert (Hfr0 : framed (cs_key cs) (cs_files (ensureCurrentPack cs)) frames ∧ frameTotal (cs_files (ensureCurrentPack cs)) frames = frameTotal (cs_files cs) frames).
  { destruct Hfs as [->|[Hno ->]]; [done|]. split; [apply framed_ensure; [apply Hok|done|done]|].
    by rewrite frameTotal_insert, (fr_none _ _ _ Hfr) by done. }
  destruct Hfr0 as [Hfr0 Ht0].
  assert (Hpd : frame_ok (cs_key cs) (p, data)).
  { split; [|done]. cbn. pose proof (Hp p Hseal) as Hm. change maxChunkFrameLen with 67108864 in Hm. lia. }
  destruct (framed_append _ _ _ _ _ _ _ Hfr0 Hpd (Hp p Hseal) Ha) as [Hfr1 Hin].
  assert (Ht1 : frameTotal (cs_files cs1) (addFrame frames (packPath loc.1) (p, data)) = S (frameTotal (cs_files cs) frames)).
  { destruct (ap_files _ _ _ _ Ha) as (f & -> & _ & -> & _). cbn [fst]. rewrite frameTotal_append by apply Hfr0. by rewrite Ht0. }
  assert (Hkey : cs_key cs1 = cs_key cs) by apply Hc1. rewrite <- Hkey in Hfr1.
  destruct (IH cs1 (addFrame frames (packPath loc.1) (p, data)) (ap_ok _ _ _ _ Ha) ltac:(by rewrite Hkey)) as (cs' & rs & frames' & Hrun & Hfr' & Hc & Hmono & Honly & Htot & Hall); [|lia|exact Hfr1|].
  { eapply Forall_impl; [exact Hf|]. intros it [? Hit]. split; [done|]. intros q. rewrite (sealPayload_config cs cs1) by done. apply Hit. }
  cbn [storeAll]. rewrite Hst, Hrun. eexists _, _, frames'. split; [reflexivity|]. rewrite Hkey in Hfr'. split_and!; [done|by etrans|..].
  - intros num c Hc'. by apply Hmono, chunksAt_addFrame.
  - intros num c Hc'. destruct (Honly num c Hc') as [Hc1'|Hi]; [|right; by right]. apply addFrame_elem in Hc1' as [?|Heq]; [by left|].
    right. cbn. rewrite Heq. left.
  - rewrite Htot, Ht1. cbn [length]. lia.
  - constructor; [|done]. exists loc. split; [apply Ha|]. apply Hmono. exact Hin.
Qed.

(** A scanned chunk is where its location says. *)
Lemma chunksAt_has key num frs : ∀ pre c, Forall (λ pd, frame_ok key pd ∧ len pd.1 ≤ maxChunkFrameLen) frs → c ∈ chunksAt num (len pre) frs →
  c.1.1 = num ∧ ∃ p, len p ≤ maxChunkFrameLen ∧ openPayload key p = Ok c.2 ∧
    ReadAt (pre ++ concat (frameBytes <$> frs)) c.1.2 (len (frameOf p (len c.2))) = Some (frameOf p (len c.2)).
Proof.
  induction frs as [|pd frs IH]; intros pre c Hf; cbn [chunksAt]; [by intros ?%elem_of_nil|].
  apply Forall_cons in Hf as [[[_ Ho] Hl] Hf]. cbn [fmap list_fmap concat]. intros [->|Hin]%elem_of_cons.
  - split; [done|]. exists pd.1. split_and!; [done|done|]. cbn [fst snd]. fold (frameBytes pd).
    rewrite app_assoc. apply ReadAt_app_l. rewrite ReadAt_Some by (rewrite ?length_app; lia). f_equal.
    rewrite !Nat2Z.id, drop_app_length. by apply take_ge.
  - replace (len pre + 8 + len pd.1) with (len (pre ++ frameBytes pd)) in Hin.
    2:{ rewrite length_app, Nat2Z.inj_add, length_frameBytes. lia. }
    destruct (IH (pre ++ frameBytes pd) c Hf Hin) as (Hn & p & H1 & H2 & H3). split; [done|]. exists p. rewrite <- app_assoc in H3. done.
Qed.

Lemma listPackFiles_framed key fs frames n : framed key fs frames → n ∈ listPackFiles fs ↔ is_Some (fs !! n).
Proof.
  intros Hfr. unfold listPackFiles. rewrite elem_of_sortSlice, list_elem_of_filter, elem_of_ReadDir. split; [by intros [_ ?]|].
  intros Hs. split; [|done]. destruct (fr_name _ _ _ Hfr n Hs) as (num & _ & ->). apply HasSuffix_app.
Qed.

Lemma scanned_stored key fs frames c : framed key fs frames → c ∈ scanned frames (listPackFiles fs) ↔
  is_u32 c.1.1 ∧ c ∈ chunksAt c.1.1 0 (frames (packPath c.1.1)).
Proof.
  intros Hfr. unfold scanned. setoid_rewrite elem_of_concat. setoid_rewrite list_elem_of_fmap.
  assert (Hnum : ∀ num, is_u32 num → packNumberOr0 (packPath num) = num) by (intros num Hn; unfold packNumberOr0; by rewrite parse_packPath).
  assert (Hat : ∀ num frs off, c ∈ chunksAt num off frs → c.1.1 = num).
  { intros num frs. induction frs as [|pd frs IH]; intros off; cbn [chunksAt]; [by intros ?%elem_of_nil|]. intros [->|?]%elem_of_cons; [done|eauto]. }
  split.
  - intros (l & Hc & n & -> & Hn). apply (listPackFiles_framed _ _ _ _ Hfr) in Hn. destruct (fr_name _ _ _ Hfr n Hn) as (num & Hu & ->).
    rewrite Hnum in Hc by done. pose proof (Hat _ _ _ Hc) as He. rewrite He. done.
  - intros [Hu Hc]. eexists. split; [exact Hc|]. exists (packPath c.1.1). rewrite Hnum by done. split; [done|].
    apply (listPackFiles_framed _ _ _ _ Hfr). destruct (fs !! packPath c.1.1) eqn:Hf; [done|]. rewrite (fr_none _ _ _ Hfr _ Hf) in Hc.
    by apply elem_of_nil in Hc.
Qed.

Lemma scanned_stored_at key fs frames c : framed key fs frames → c ∈ scanned frames (listPackFiles fs) → stored_at key fs c.1 c.2.
Proof.
  intros Hfr [Hu Hc]%(scanned_stored _ _ _ _ Hfr). split; [done|]. change 0 with (len (@nil Z)) in Hc.
  destruct (chunksAt_has key _ _ [] c (fr_ok _ _ _ Hfr _) Hc) as (_ & p & H1 & H2 & H3). exists p. split_and!; [done|done|].
  cbn [app] in H3. destruct (fs !! packPath c.1.1) as [f|] eqn:Hf.
  - exists f. split; [done|]. by rewrite (fr_file _ _ _ Hfr _ _ Hf).
  - rewrite (fr_none _ _ _ Hfr _ Hf) in Hc. by apply elem_of_nil in Hc.
Qed.
End stored.
