(* ===== verification/Rebuilt.v ===== *)
(** * Theorems on rebuilding the index

    What [Rebuild] makes of the packs a session wrote: a directory whose index and
    filter know every chunk of every pack, whatever the directory held before. *)

From S2P Require Import Prelude GoBytes GoRuntime GoFiles Hashes HashTable HashBuild HashIndex Bloom Delta Fold Crypto Dedup PackStore PackCache Packs Preprocess RepoConfig Rebuild.

Section lookup.
Context {MR : MapRange} {SS : SortSlice} {PR : Primitives} {ZS : Zstd}.

(** The last scanned chunk with a hash is the one the index has. *)
Lemma insert_all_chunk norm cs c : c ∈ cs →
  ∃ c', c' ∈ cs ∧ strongOf norm c'.2 = strongOf norm c.2 ∧ insert_all (chunkEntry norm <$> cs) ∅ !! strongOf norm c.2 = Some (chunkEntry norm c').
Proof.
  intros Hc. rewrite insert_all_lookup_last. destruct (last _) as [e|] eqn:Hl.
  - apply last_Some_elem_of in Hl. apply list_elem_of_filter in Hl as [He Hin]. apply list_elem_of_fmap in Hin as (c' & -> & Hc'). by exists c'.
  - apply last_None in Hl. assert (Hx : chunkEntry norm c ∈ filter (λ e, StrongHash e = strongOf norm c.2) (chunkEntry norm <$> cs)).
    { apply list_elem_of_filter. split; [done|by apply list_elem_of_fmap_2]. }
    rewrite Hl in Hx. by apply elem_of_nil in Hx.
Qed.

Lemma length_scanned key fs frames : framed key fs frames → length (scanned frames (listPackFiles fs)) = frameTotal fs frames.
Proof.
  intros Hfr. unfold scanned, frameTotal.
  assert (Hl : ∀ l, length (concat ((λ n, chunksAt (packNumberOr0 n) 0 (frames n)) <$> l)) = sum_list_with (λ n, length (frames n)) l).
  { induction l as [|n l IH]; [done|]. cbn [fmap list_fmap concat sum_list_with]. by rewrite length_app, length_chunksAt, <- IH. }
  rewrite Hl. apply sum_list_with_Permutation_proper. apply NoDup_Permutation.
  - unfold listPackFiles. rewrite sortSlice_perm. apply NoDup_filter, NoDup_ReadDir.
  - apply NoDup_elements.
  - intros n. rewrite (listPackFiles_framed _ _ _ _ Hfr). by rewrite elem_of_elements, elem_of_dom.
Qed.

Lemma framed_pre key fs frames : framed key fs frames →
  ∀ n, n ∈ listPackFiles fs → is_Some (parsePackFileName n) ∧ pack_is key (default [] (fs !! n)) (frames n).
Proof.
  intros Hfr n Hn. apply (listPackFiles_framed _ _ _ _ Hfr) in Hn. destruct (fr_name _ _ _ Hfr n Hn) as (num & Hu & Hnm). destruct Hn as [f Hf]. split.
  - rewrite Hnm, parse_packPath by done. by eexists.
  - split; [eapply Forall_impl; [apply (fr_ok _ _ _ Hfr)|]; by intros pd []|]. exists []. rewrite Hf. cbn. by rewrite app_nil_r, <- (fr_file _ _ _ Hfr n f Hf).
Qed.
End lookup.

Section theorem.
Context {MR : MapRange} {SS : SortSlice} {PR : Primitives} {ZS : Zstd}.

(** A repository an index can be rebuilt for. *)
Record rebuildable (unmarshal : bytes → option RepoConfig) (root : GoFiles.dir) (norm : option Normalizer) (dir : index_dir) (key : option bytes) : Prop := {
  rb_config : ∃ cfg, LoadRepoConfig unmarshal root = Ok cfg ∧ EffectiveEncryptionMode cfg ≠ EncryptManaged ∧ FromNames (rc_Normalizers cfg) = Ok norm;
  rb_plain : key = None → id_bloom_enc dir = None ∧ id_index_enc dir = None;
  rb_deltas : deltaObjects dir = [] }.

Lemma rebuildPrepare_ok unmarshal root norm dir key fs : rebuildable unmarshal root norm dir key → listPackFiles fs ≠ [] →
  rebuildPrepare unmarshal root (Some fs) = Ok (norm, fs).
Proof.
  intros [(cfg & Hl & Hm & Hn) _ _] Hp. unfold rebuildPrepare. rewrite Hl.
  assert (He : RepoExists root = true).
  { unfold LoadRepoConfig in Hl. unfold RepoExists. destruct (stat root configName); [by rewrite bool_decide_true|done]. }
  rewrite He. cbn [negb]. apply String.eqb_neq in Hm. rewrite Hm, Hn, bool_decide_false by done. done.
Qed.

(** Known to the filter and in the index: a duplicate. *)
Lemma Check_known d D M ids cap w h e : dedup_rep d D M ids cap → bytes_ok h → h ≠ zeroHash → MayContain (di_bloom d) w = Some true → M !! h = Some e →
  Check d w h = Ok (mkResult false (Some e) true false).
Proof.
  intros Hr Hb Hz Hmay HM. destruct (dedup_tiers _ _ _ _ _ Hr) as [Hf Hi _]. unfold Check, Check'. cbn [cf_may bloom_filter] in *.
  change (cf_may (di_bloom d) w) with (MayContain (di_bloom d) w). rewrite Hmay, (ci_lookup_spec (di_index d) M) by done. by rewrite HM.
Qed.

(** C32. A rebuilt index finds every stored chunk: store chunks in a repository, rebuild the
    index from the packs alone (encrypted or not, whatever index the directory held), open
    it: every chunk is answered "duplicate", and the location given reads back, from the
    packs, a chunk of the same identity. *)
Theorem rebuild_finds_stored h xxhash bloomBits unmarshal every expected root norm dir key n1 n2 raw max level items :
  seals h → key_ok key → length n1 = 12%nat → length n2 = 12%nat → (∀ n, is_u64 (bloomBits n) ∧ bloomBits n < 2 ^ 64 - 63) →
  rebuildable unmarshal root norm dir key → items ≠ [] → Forall (item_fits (NewChunkStore None max level key)) items →
  len items < 2 ^ 32 - 1 → Forall (λ it, strongOf norm it.2 ≠ zeroHash) items →
  let cs := (storeAll h (NewChunkStore None max level key) items).1 in
  small_packs (cs_files cs) →
  ∃ dir' d packs, Rebuild xxhash bloomBits unmarshal (both every expected) root (Some (cs_files cs)) dir key n1 n2 = (dir', Ok (packs, len items)) ∧
    NewDedupIndex dir' raw key = Ok d ∧
    Forall (λ it, ∃ e data, Check d (weakOf xxhash norm it.2) (strongOf norm it.2) = Ok (mkResult false (Some e) true false) ∧
      strongOf norm data = strongOf norm it.2 ∧ ∀ h', Retrieve h' cs (PackNumber e) (i64 (StoreOffset e)) = (cs, Ok data)) items.
Proof.
  intros Hs Hk Hn1 Hn2 Hbits Hrb Hne Hfit Hlen Hz. set (cs0 := NewChunkStore None max level key). pose proof (NewChunkStore_ok None max level key) as Hok.
  destruct (storeAll_framed h items cs0 (λ _, []) Hs Hok Hk Hfit) as (cs & rs & frames & Hrun & Hfr & Hcf & _ & Honly & Htot & Hall);
    [change (cs_currentPackNum cs0) with 0; lia|apply framed_empty|]. rewrite Hrun. cbn [fst]. intros Hsm. change (cs_key cs0) with key in Hfr.
  set (fs := cs_files cs) in *. change (frameTotal (cs_files cs0) (λ _, [])) with O in Htot. cbn [Nat.add] in Htot.
  assert (Hcnt : length (scanned frames (listPackFiles fs)) = length items) by (rewrite (length_scanned _ _ _ Hfr); exact Htot).
  assert (Hpk : listPackFiles fs ≠ []) by (intros Hnil; rewrite Hnil in Hcnt; destruct items; done).
  assert (Hpre : rebuild_pre xxhash bloomBits key dir norm fs frames n1 n2 []).
  { split; [by apply framed_pre| |lia|done|done|done|split; [apply Hrb|rewrite (rb_deltas _ _ _ _ _ Hrb); constructor]].
    apply Forall_forall. intros c Hc. apply (scanned_stored _ _ _ _ Hfr) in Hc as [Hu Hc]. split; [done|].
    destruct (Honly _ _ Hc) as [Hx|Hx]; [by apply elem_of_nil in Hx|]. apply list_elem_of_fmap in Hx as (it & -> & Hit). rewrite Forall_forall in Hz. by apply Hz. }
  destruct (Rebuild_spec xxhash bloomBits unmarshal every expected root (Some fs) dir key n1 n2 norm fs frames [] (rebuildPrepare_ok _ _ _ _ _ _ Hrb Hpk) Hpre)
    as (dir' & bf & bs & Hreb & Hdir & HM & Hmay). rewrite Hcnt in Hreb.
  destruct (openDedup_rep false dir' raw key bf bs [] Hdir) as (d & Hopen & Hr & _ & _ & _ & _ & _ & _ & [Hbl _]).
  exists dir', d, (len (listPackFiles fs)). split_and!; [done|done|]. cbn in Hr. rewrite HM in Hr.
  rewrite Forall_forall in Hall, Hz. apply Forall_forall. intros it Hit. destruct (Hall it Hit) as (loc & Hu & Hin).
  assert (Hsc : (loc, it.2) ∈ scanned frames (listPackFiles fs)) by (apply (scanned_stored _ _ _ _ Hfr); done).
  destruct (insert_all_chunk norm _ _ Hsc) as (c & Hc & Hh & HMc). exists (chunkEntry norm c), c.2. split_and!; [|done|].
  - apply (Check_known _ _ _ _ _ _ _ _ Hr); [apply bytes_ok_Sum256|by apply Hz|apply Hbl; exact (Hmay _ Hsc)|exact HMc].
  - intros h'. pose proof (scanned_stored_at _ _ _ _ Hfr Hc) as Hat. pose proof (stored_at_offset _ _ _ _ Hsm Hat) as Hoff. destruct c as [[num off] data].
    cbn [chunkEntry PackNumber StoreOffset fst snd] in *. rewrite (u64_id off) by (unfold is_u64; lia). rewrite i64_id by (unfold is_i64; lia).
    apply stored_at_Retrieve; [|done|]; [|by rewrite (proj1 (proj2 (proj2 Hcf)))]. by rewrite (proj2 (proj2 (proj2 Hcf))).
Qed.
End theorem.

Definition sampleRoot : GoFiles.dir := Some {[configName := []]}.
Definition freshIndex : index_dir := mkDir None None None None [].

Lemma sample_rebuildable : rebuildable (λ _, Some zeroConfig) sampleRoot None freshIndex (Some (zeros 32)).
Proof. split; [exists zeroConfig; split_and!; [reflexivity|done|reflexivity]|done|reflexivity]. Qed.

Lemma sample_small : small_packs (cs_files samplePacks).
Proof. assert (H : map_Forall (λ _ f, len f < 2 ^ 63) (cs_files samplePacks)) by by_eval. exact H. Qed.

Lemma rebuild_finds_stored_witness :
  ∃ dir' d packs, Rebuild (λ _, 5) (λ _, 640) (λ _, Some zeroConfig) (both 0 0) sampleRoot (Some (cs_files samplePacks)) freshIndex (Some (zeros 32)) (zeros 12) (zeros 12)
      = (dir', Ok (packs, 3)) ∧
    NewDedupIndex dir' 100 (Some (zeros 32)) = Ok d ∧
    Forall (λ it, ∃ e data, Check d (weakOf (λ _, 5) None it.2) (strongOf None it.2) = Ok (mkResult false (Some e) true false) ∧
      strongOf None data = strongOf None it.2 ∧ ∀ h', Retrieve h' samplePacks (PackNumber e) (i64 (StoreOffset e)) = (samplePacks, Ok data)) sampleItems.
Proof.
  apply (rebuild_finds_stored noHooks (λ _, 5) (λ _, 640) _ 0 0 sampleRoot None freshIndex (Some (zeros 32)) (zeros 12) (zeros 12) 100 24 3 sampleItems);
    [done|reflexivity|reflexivity|reflexivity|intros n; unfold is_u64; lia|exact sample_rebuildable|done|..].
  - apply sample_fits; [by_eval|done].
  - reflexivity.
  - by_eval.
  - exact sample_small.
Defined.
