(* ===== verification/PruneSwap.v ===== *)
(** * core/prune/prune.go: swapping the rewritten directories in, and recovery

    [atomicSwap] and [recoverIfNeeded] are programs over the five directories a prune
    touches, written as a free monad of file-system calls so that the conditions are
    asked when the code asks them.  [wp] is what holds wherever such a program can stop:
    at its end, or at a crash between or inside its calls; with faults, also when calls
    report errors.  A rename is atomic, a removal is not: cut short it leaves the
    directory with any contents. *)

From S2P Require Import Prelude GoBytes GoFiles Hashes Crypto PackStore.

Section swap.
Context {I : Type} (emptyIndex : I → bool).

(** ** The repository's directories *)

Record layout := mkLayout {
  ly_chunks : option files; ly_index : option I;
  ly_staging : option (option files * option I);      (* [.prune-staging] with [chunks] and [index] *)
  ly_oldChunks : option files; ly_oldIndex : option I }.

Inductive cplace := Chunks | StagingChunks | OldChunks.
Inductive iplace := Index | StagingIndex | OldIndex.

Definition getC (l : layout) (p : cplace) : option files :=
  match p with Chunks => ly_chunks l | StagingChunks => ly_staging l ≫= fst | OldChunks => ly_oldChunks l end.
Definition getI (l : layout) (p : iplace) : option I :=
  match p with Index => ly_index l | StagingIndex => ly_staging l ≫= snd | OldIndex => ly_oldIndex l end.

Definition setC (l : layout) (p : cplace) (c : option files) : layout :=
  let 'mkLayout ch ix st oc oi := l in
  match p with
  | Chunks => mkLayout c ix st oc oi
  | StagingChunks => mkLayout ch ix ((λ s, (c, s.2)) <$> st) oc oi
  | OldChunks => mkLayout ch ix st c oi
  end.
Definition setI (l : layout) (p : iplace) (i : option I) : layout :=
  let 'mkLayout ch ix st oc oi := l in
  match p with
  | Index => mkLayout ch i st oc oi
  | StagingIndex => mkLayout ch ix ((λ s, (s.1, i)) <$> st) oc oi
  | OldIndex => mkLayout ch ix st oc i
  end.
Definition setStaging (l : layout) (s : option (option files * option I)) : layout :=
  mkLayout (ly_chunks l) (ly_index l) s (ly_oldChunks l) (ly_oldIndex l).

Definition parentC (l : layout) (p : cplace) : bool := match p with StagingChunks => bool_decide (is_Some (ly_staging l)) | _ => true end.
Definition parentI (l : layout) (p : iplace) : bool := match p with StagingIndex => bool_decide (is_Some (ly_staging l)) | _ => true end.

(** ** File-system calls *)

Inductive op :=
| RenameC (from to : cplace) | RenameI (from to : iplace)
| RemoveC (p : cplace) | RemoveI (p : iplace) | RemoveStaging
| WriteGeneration (random : bytes).           (* [store.WriteGenerationFile(stagingChunks)] *)

(** The call and whether it succeeded.  A directory is renamed onto a missing or an empty
    one whose parent exists; removing what is not there succeeds. *)
Definition doOp (o : op) (l : layout) : layout * bool :=
  match o with
  | RenameC a b =>
      match getC l a, getC l b with
      | Some c, None => if parentC l b then (setC (setC l a None) b (Some c), true) else (l, false)
      | Some c, Some t => if bool_decide (t = ∅) then (setC (setC l a None) b (Some c), true) else (l, false)
      | None, _ => (l, false)
      end
  | RenameI a b =>
      match getI l a, getI l b with
      | Some i, None => if parentI l b then (setI (setI l a None) b (Some i), true) else (l, false)
      | Some i, Some t => if emptyIndex t then (setI (setI l a None) b (Some i), true) else (l, false)
      | None, _ => (l, false)
      end
  | RemoveC p => (setC l p None, true)
  | RemoveI p => (setI l p None, true)
  | RemoveStaging => (setStaging l None, true)
  | WriteGeneration r =>
      match getC l StagingChunks with
      | Some c => (setC l StagingChunks (WriteGenerationFile (Some c) r), true)
      | None => (l, false)
      end
  end.

(** What a call cut short may leave. *)
Definition torn (o : op) (l l' : layout) : Prop :=
  l' = l ∨
  match o with
  | RenameC _ _ | RenameI _ _ => False
  | RemoveC p => is_Some (getC l p) ∧ ∃ c, l' = setC l p (Some c)
  | RemoveI p => is_Some (getI l p) ∧ ∃ i, l' = setI l p (Some i)
  | RemoveStaging => ∃ c i c' i', ly_staging l = Some (c, i) ∧ (c = None → c' = None) ∧ (i = None → i' = None) ∧ l' = setStaging l (Some (c', i'))
  | WriteGeneration _ => ∃ c data, getC l StagingChunks = Some c ∧ l' = setC l StagingChunks (Some (<[packsGenerationFile := data]> c))
  end.

(** ** Programs of calls *)

Inductive prog (A : Type) :=
| Ret (a : A)
| Ask (q : layout → bool) (k : bool → prog A)
| Do (o : op) (k : bool → prog A).
#[global] Arguments Ret {A}. #[global] Arguments Ask {A}. #[global] Arguments Do {A}.

Fixpoint pbind {A B} (p : prog A) (f : A → prog B) : prog B :=
  match p with Ret a => f a | Ask q k => Ask q (λ b, pbind (k b) f) | Do o k => Do o (λ b, pbind (k b) f) end.

Definition ask (q : layout → bool) : prog bool := Ask q Ret.
Definition call (o : op) : prog bool := Do o Ret.

(** Without faults and crashes. *)
Fixpoint run {A} (p : prog A) (l : layout) : layout * A :=
  match p with
  | Ret a => (l, a)
  | Ask q k => run (k (q l)) l
  | Do o k => let '(l, ok) := doOp o l in run (k ok) l
  end.

(** Stopping anywhere: at the end with its result, or before it with none. *)
Inductive exec {A} (faults : bool) : prog A → layout → layout → option A → Prop :=
| exec_ret a l : exec faults (Ret a) l l (Some a)
| exec_ask q k l l' r : exec faults (k (q l)) l l' r → exec faults (Ask q k) l l' r
| exec_do o k l l1 ok l' r : doOp o l = (l1, ok) → exec faults (k ok) l1 l' r → exec faults (Do o k) l l' r
| exec_fault o k l l1 l' r : faults = true → torn o l l1 → exec faults (k false) l1 l' r → exec faults (Do o k) l l' r
| exec_crash p l : exec faults p l l None
| exec_torn o k l l' : torn o l l' → exec faults (Do o k) l l' None.

(** What holds wherever the program stops. *)
Fixpoint wp {A} (faults : bool) (p : prog A) (l : layout) (Q : layout → option A → Prop) : Prop :=
  Q l None ∧
  match p with
  | Ret a => Q l (Some a)
  | Ask q k => wp faults (k (q l)) l Q
  | Do o k => (∀ l', torn o l l' → Q l' None ∧ (faults = true → wp faults (k false) l' Q)) ∧
              wp faults (k (doOp o l).2) (doOp o l).1 Q
  end.

Lemma wp_exec {A} faults (p : prog A) l l' r Q : exec faults p l l' r → wp faults p l Q → Q l' r.
Proof.
  induction 1 as [a l|q k l l' r _ IH|o k l l1 ok l' r Ho _ IH|o k l l1 l' r Hf Ht _ IH|p l|o k l l' Ht]; cbn.
  - by intros [].
  - intros [_ H]. by apply IH.
  - intros (_ & _ & H). rewrite Ho in H. by apply IH.
  - intros (_ & H & _). apply IH. by apply (H l1 Ht).
  - by destruct p as [?|? ?|? ?]; intros [].
  - intros (_ & H & _). by apply (H l' Ht).
Qed.

Lemma run_exec {A} faults (p : prog A) : ∀ l, exec faults p l (run p l).1 (Some (run p l).2).
Proof.
  induction p as [a|q k IH|o k IH]; intros l; cbn; [constructor|constructor; apply IH|].
  destruct (doOp o l) as [l1 ok] eqn:Ho. econstructor; [exact Ho|apply IH].
Qed.

Lemma exec_run {A} (p : prog A) l l' a : exec false p l l' (Some a) → run p l = (l', a).
Proof.
  remember (Some a) as r eqn:Hr. induction 1 as [b l|q k l l' r _ IH|o k l l1 ok l' r Ho _ IH|? ? ? ? ? ? Hf _ _ _|p l|o k l l' Ht]; try done; cbn.
  - by injection Hr as ->.
  - by apply IH.
  - rewrite Ho. by apply IH.
Qed.

(** ** [atomicSwap] *)

Notation "'get!' x := p 'in' q" := (pbind p (λ x, q)) (at level 10, x name, q at level 200).
Notation "'call!' o 'in' q" := (pbind (call o) (λ _, q)) (at level 10, q at level 200).

Inductive swap_err := SwGeneration | SwChunksAside | SwChunksIn | SwIndexAside | SwIndexIn.

(** The generation is written twice; a failed step takes back the steps before it. *)
Definition atomicSwap (r1 r2 : bytes) : prog (option swap_err) :=
  get! ok := call (WriteGeneration r1) in
  if negb ok then Ret (Some SwGeneration) else
  get! ok := call (WriteGeneration r2) in
  if negb ok then Ret (Some SwGeneration) else
  get! ok := call (RenameC Chunks OldChunks) in
  if negb ok then Ret (Some SwChunksAside) else
  get! ok := call (RenameC StagingChunks Chunks) in
  if negb ok then (call! (RenameC OldChunks Chunks) in Ret (Some SwChunksIn)) else
  get! ok := call (RenameI Index OldIndex) in
  if negb ok then (call! (RenameC Chunks StagingChunks) in call! (RenameC OldChunks Chunks) in Ret (Some SwIndexAside)) else
  get! ok := call (RenameI StagingIndex Index) in
  if negb ok then (call! (RenameI OldIndex Index) in call! (RenameC Chunks StagingChunks) in call! (RenameC OldChunks Chunks) in Ret (Some SwIndexIn)) else
  call! (RemoveC OldChunks) in call! (RemoveI OldIndex) in call! RemoveStaging in Ret None.

(** ** [recoverIfNeeded] *)

Definition hasC (p : cplace) (l : layout) : bool := bool_decide (is_Some (getC l p)).
Definition hasI (p : iplace) (l : layout) : bool := bool_decide (is_Some (getI l p)).
Definition hasStagingDir (l : layout) : bool := bool_decide (is_Some (ly_staging l)).

Definition pruneRecoveryPending (l : layout) : bool := hasStagingDir l || hasC OldChunks l || hasI OldIndex l.

Definition recoverSwitch (hasOldChunks hasOldIndex stagingIndexExists : bool) : prog unit :=
  get! chunksExist := ask (hasC Chunks) in
  if hasOldChunks && negb chunksExist then
    call! (RenameC OldChunks Chunks) in
    get! indexExists := ask (hasI Index) in
    if hasOldIndex && negb indexExists then (call! (RenameI OldIndex Index) in Ret tt) else Ret tt
  else if hasOldChunks then
    get! _u := if stagingIndexExists then (call! (RemoveI Index) in call! (RenameI StagingIndex Index) in Ret tt)
      else (get! indexExists := ask (hasI Index) in
            if negb indexExists && hasOldIndex then (call! (RenameI OldIndex Index) in Ret tt) else Ret tt) in
    call! (RemoveC OldChunks) in Ret tt
  else
    get! indexExists := ask (hasI Index) in
    if negb indexExists && hasOldIndex then (call! (RenameI OldIndex Index) in Ret tt) else Ret tt.

Definition recoverIfNeeded : prog unit :=
  get! hasStaging := ask hasStagingDir in
  get! hasOldChunks := ask (hasC OldChunks) in
  get! hasOldIndex := ask (hasI OldIndex) in
  if negb hasStaging && negb hasOldChunks && negb hasOldIndex then Ret tt else
  get! stagingIndexExists := ask (hasI StagingIndex) in
  get! _u := recoverSwitch hasOldChunks hasOldIndex stagingIndexExists in
  get! both := ask (λ l, hasI OldIndex l && hasI Index l) in
  get! _v := if both then (call! (RemoveI OldIndex) in Ret tt) else Ret tt in
  if hasStaging then (call! RemoveStaging in Ret tt) else Ret tt.

(** ** The states between *)

Section states.
Context (c0 c1 : files) (i0 i1 : I).

Definition clean (c : files) (i : I) : layout := mkLayout (Some c) (Some i) None None None.

(** Where an interrupted prune of [c0], [i0] whose staging holds [c1], [i1] can leave the
    repository: still the old one, or the new one to be completed, or the new one. *)
Inductive mid : layout → Prop :=
| MidOld st : mid (mkLayout (Some c0) (Some i0) st None None)
| MidAside : mid (mkLayout None (Some i0) (Some (Some c1, Some i1)) (Some c0) None)
| MidChunks oc ix oi : mid (mkLayout (Some c1) ix (Some (None, Some i1)) (Some oc) oi)
| MidNew oc oi st : (∀ s, st = Some s → s = (None, None)) → mid (mkLayout (Some c1) (Some i1) st oc oi)
| MidBack : mid (mkLayout None None (Some (Some c1, Some i1)) (Some c0) (Some i0))
| MidBackIndex st : mid (mkLayout (Some c0) None st None (Some i0)).
(** Recovery stopped anywhere leaves a state recovery can start from. *)
Definition recovered (l : layout) (r : option unit) : Prop := mid l ∧ (r = Some tt → l = clean c0 i0 ∨ l = clean c1 i1).

(** Cases of a stop: the ends of a program's calls, and what a call cut short leaves. *)
Ltac torn_cases :=
  let l := fresh in let H := fresh in
  intros l H; destruct H as [->|H];
  [|cbn in H; first
     [exfalso; exact H
     |let c := fresh in let i := fresh in let E := fresh in let Hc := fresh in let Hi := fresh in
      destruct H as (? & ? & c & i & E & Hc & Hi & ->);
      try (injection E as <- <-; try (rewrite (Hc eq_refl) in *; clear Hc c); try (rewrite (Hi eq_refl) in *; clear Hi i))
     |destruct H as ([? H] & ? & ->); try discriminate H
     |destruct H as (? & ? & H & ->); try injection H as <-]; cbn].
Ltac stops leaf :=
  cbn; repeat match goal with
  | |- _ ∧ _ => split
  | |- ∀ l, torn _ _ l → _ => torn_cases
  | |- false = true → _ => discriminate
  | |- true = true → _ => intros _; cbn
  | H : bool_decide (?c = ∅) = false |- context [bool_decide (?c = ∅)] => rewrite H; cbn
  end; try (leaf; fail).

Ltac mid_leaf := first [by apply MidOld|by apply MidAside|by apply MidChunks|by apply MidBack|by apply MidBackIndex|apply MidNew; intros ? ?; by simplify_eq].
Ltac recover_leaf := split; [mid_leaf|first [discriminate|intros _; first [by left|by right]]].

Lemma recover_mid l : mid l → wp false recoverIfNeeded l recovered.
Proof.
  intros [st| |oc ix oi|oc oi st Hst| |st].
  - destruct st as [[c i]|]; stops recover_leaf.
  - stops recover_leaf.
  - destruct ix, oi; stops recover_leaf.
  - destruct st as [s|]; [rewrite (Hst s eq_refl)|]; destruct oc, oi; stops recover_leaf.
  - stops recover_leaf.
  - destruct st as [[c i]|]; stops recover_leaf.
Qed.

(** The swap, stopped anywhere and with any calls failing. *)
Definition staged (c : files) : layout := mkLayout (Some c0) (Some i0) (Some (Some c, Some i1)) None None.
Definition swapped (l : layout) (r : option (option swap_err)) : Prop :=
  mid l ∧ (r = Some None → ly_chunks l = Some c1 ∧ ly_index l = Some i1).
Ltac swap_leaf := split; [mid_leaf|first [discriminate|intros _; by split]].

Lemma swap_mid c r1 r2 : <[packsGenerationFile := hexEncode r2]> (<[packsGenerationFile := hexEncode r1]> c) = c1 →
  wp true (atomicSwap r1 r2) (staged c) swapped.
Proof.
  intros Hc. assert (Hne : bool_decide (c1 = ∅) = false) by (apply bool_decide_false; rewrite <- Hc; apply insert_non_empty).
  cbn. split; [swap_leaf|]. split; [torn_cases; (split; [swap_leaf|intros _; by split; swap_leaf])|].
  split; [swap_leaf|]. split; [torn_cases; (split; [swap_leaf|intros _; by split; swap_leaf])|].
  change (WriteGenerationFile (Some ?x) r2) with (Some (<[packsGenerationFile := hexEncode r2]> x)).
  cbn [default]. rewrite Hc. clear Hc. stops swap_leaf.
Qed.

(** ** Histories *)

(** From the repository [c0], [i0]: rewriting into staging (any contents, stopped
    anywhere), the swap of a complete staging (stopped anywhere, calls failing), recovery
    (stopped anywhere). *)
Context (c : files) (r1 r2 : bytes).

Inductive prune_step : layout → layout → Prop :=
| StRewrite st st' : prune_step (mkLayout (Some c0) (Some i0) st None None) (mkLayout (Some c0) (Some i0) st' None None)
| StSwap l r : exec true (atomicSwap r1 r2) (staged c) l r → prune_step (staged c) l
| StRecover l l' r : exec false recoverIfNeeded l l' r → prune_step l l'.

Lemma prune_step_mid l l' : <[packsGenerationFile := hexEncode r2]> (<[packsGenerationFile := hexEncode r1]> c) = c1 →
  prune_step l l' → mid l → mid l'.
Proof.
  intros Hc [st st'|l1 r He|l1 l2 r He] Hm; [apply MidOld| |].
  - apply (wp_exec _ _ _ _ _ swapped He). by apply swap_mid.
  - apply (wp_exec _ _ _ _ _ recovered He). by apply recover_mid.
Qed.

Lemma prune_history_mid l l' : <[packsGenerationFile := hexEncode r2]> (<[packsGenerationFile := hexEncode r1]> c) = c1 →
  rtc prune_step l l' → mid l → mid l'.
Proof. intros Hc. induction 1 as [|l1 l2 l3 Hs _ IH]; [done|]. intros Hm. apply IH. by eapply prune_step_mid. Qed.
End states.
End swap.

(** The packs the swap installs: the rewritten ones with their generation. *)
Definition newChunks (c : files) (r1 r2 : bytes) : files := <[packsGenerationFile := hexEncode r2]> (<[packsGenerationFile := hexEncode r1]> c).

(** C33. Crash safety of the swap: whatever prefix of a prune ran (the rewrite into
    staging, the swap with any of its calls failing, recoveries), wherever it and the
    recoveries after it were cut, the next recovery that completes leaves exactly the old
    packs with the old index or exactly the new packs with the new index, and nothing
    else. *)
Theorem prune_crash_safe {I} (emptyIndex : I → bool) c0 c i0 i1 r1 r2 l :
  rtc (prune_step emptyIndex c0 i0 i1 c r1 r2) (clean c0 i0) l →
  let l' := (run emptyIndex recoverIfNeeded l).1 in
  (l' = clean c0 i0 ∨ l' = clean (newChunks c r1 r2) i1) ∧ pruneRecoveryPending l' = false.
Proof.
  intros Hh l'. pose proof (prune_history_mid emptyIndex c0 (newChunks c r1 r2) i0 i1 c r1 r2 _ _ eq_refl Hh (MidOld _ _ _ _ None)) as Hm.
  destruct (wp_exec _ _ _ _ _ _ _ (run_exec emptyIndex false recoverIfNeeded l) (recover_mid emptyIndex c0 (newChunks c r1 r2) i0 i1 l Hm)) as [_ Hr].
  destruct (run emptyIndex recoverIfNeeded l) as [l1 []]. cbn [fst snd] in *. destruct (Hr eq_refl) as [E|E]; (split; [|by subst]); [left|right]; by subst.
Qed.

(** A swap cut between its first two renames, then a recovery cut after its own. *)
Lemma prune_crash_safe_witness :
  let l' := (run (I:=nat) (λ _, false) recoverIfNeeded (mkLayout (Some ∅) (Some 1%nat) (Some (Some (newChunks ∅ [1] [2]), Some 2%nat)) None None)).1 in
  (l' = clean ∅ 1%nat ∨ l' = clean (newChunks ∅ [1] [2]) 2%nat) ∧ pruneRecoveryPending l' = false.
Proof.
  apply (prune_crash_safe (λ _, false) ∅ ∅ 1%nat 2%nat [1] [2]).
  eapply rtc_l; [apply (StRewrite _ _ _ _ _ _ _ None (Some (Some ∅, Some 2%nat)))|].
  eapply rtc_l; [eapply (StSwap _ _ _ _ _ _ _ (mkLayout None (Some 1%nat) (Some (Some (newChunks ∅ [1] [2]), Some 2%nat)) (Some ∅) None) None)|].
  { do 3 (eapply exec_do; [reflexivity|cbn]). apply exec_crash. }
  eapply rtc_l; [eapply StRecover|apply rtc_refl].
  do 4 (apply exec_ask; cbn). apply exec_ask. cbn. eapply exec_do; [reflexivity|]. apply exec_crash.
Defined.

(** An uninterrupted swap installs the rewritten packs and index and leaves nothing
    behind; a failed rename, with its rollback, leaves the old repository beside the
    staging directory. *)
Theorem prune_swap_exact {I} (emptyIndex : I → bool) c0 c i0 i1 r1 r2 :
  run emptyIndex (atomicSwap r1 r2) (staged c0 i0 i1 c) = (clean (newChunks c r1 r2) i1, None) ∧
  (∀ i, run emptyIndex (atomicSwap r1 r2) (mkLayout (Some c0) None (Some (Some c, Some i)) None None) =
    (mkLayout (Some c0) None (Some (Some (newChunks c r1 r2), Some i)) None None, Some SwIndexAside)) ∧
  run emptyIndex (atomicSwap r1 r2) (mkLayout (Some c0) (Some i0) (Some (Some c, None)) None None) =
    (mkLayout (Some c0) (Some i0) (Some (Some (newChunks c r1 r2), None)) None None, Some SwIndexIn).
Proof. done. Qed.

(** Opening the chunk store between a crash and its recovery loses the packs: a swap
    cut after the first rename leaves no [chunks] directory; creating it (as every open of
    the chunk store does) makes recovery take the half-done swap for a finished one, drop
    the old packs and then the staged ones. *)
Theorem recovery_after_open_loses_packs {I} `{!Primitives} (emptyIndex : I → bool) c0 c i0 i1 r1 r2 max level key :
  let cut := mkLayout None (Some i0) (Some (Some (newChunks c r1 r2), Some i1)) (Some c0) None in
  exec emptyIndex true (atomicSwap r1 r2) (staged c0 i0 i1 c) cut None ∧
  run emptyIndex recoverIfNeeded cut = (clean c0 i0, tt) ∧
  run emptyIndex recoverIfNeeded (setC cut Chunks (Some (cs_files (NewChunkStore (ly_chunks cut) max level key)))) = (clean ∅ i1, tt).
Proof.
  intros cut. split; [|by split]. do 3 (eapply exec_do; [reflexivity|cbn]). apply exec_crash.
Qed.

(** Recovery does not look at errors: when removing the old index fails part way, the
    staged index cannot take its place, and recovery deletes it all the same. *)
Theorem recovery_ignores_errors {I} (emptyIndex : I → bool) c0 c1 i0 i1 i : emptyIndex i = false →
  exec emptyIndex true recoverIfNeeded (mkLayout (Some c1) (Some i0) (Some (None, Some i1)) (Some c0) None) (clean c1 i) (Some tt).
Proof.
  intros Hi. do 4 (apply exec_ask; cbn). apply exec_ask. cbn. eapply exec_fault; [done|right; cbn; split; [done|by exists i]|].
  cbn. eapply exec_do; [cbn; by rewrite Hi|]. cbn. eapply exec_do; [reflexivity|]. cbn. apply exec_ask. cbn.
  eapply exec_do; [reflexivity|]. apply exec_ret.
Qed.

Lemma recovery_ignores_errors_witness :
  exec (I:=nat) (λ _, false) true recoverIfNeeded (mkLayout (Some ∅) (Some 1%nat) (Some (None, Some 2%nat)) (Some ∅) None) (clean ∅ 7%nat) (Some tt).
Proof. apply (recovery_ignores_errors (λ _, false) ∅ ∅ 1%nat 2%nat 7%nat). reflexivity. Defined.
