(* ===== verification/PruneRefs.v ===== *)
(** * core/prune/prune.go: the chunks the manifests refer to

    [collectReferencedHashes] reads every manifest of the directory and refuses when one
    cannot be read; backups that file catalogs point at and that are no longer listed are
    read when they can be.  A legacy JSON manifest is read by [parseJSON], an argument. *)

From S2P Require Import Prelude GoBytes GoRuntime GoFiles Dnm DnmFile DnmAccess ManifestRepo.

Definition addHash (dst : gset bytes) (h : bytes) : gset bytes * option Empty_set := ({[h]} ∪ dst, None).

Section refs.
Context {MR : MapRange} (parseJSON : bytes → option Backup).

(** What it added before an error stays added. *)
Definition streamBackupHashes (d : dir) (id : bytes) (dst : gset bytes) : gset bytes * option repo_err :=
  match stat d (DNMPath id) with
  | Some f =>
      match OpenDNMReader f with
      | Err e => (dst, Some (ReDnm e))
      | Ok r => match StreamChunkHashes addHash r dst with
                | (dst, Some (inl e)) => (dst, Some (ReDnm e))
                | (dst, Some (inr x)) => match x with end
                | (dst, None) => (dst, None)
                end
      end
  | None =>
      match ReadEntries d id with
      | Err e => (dst, Some e)
      | Ok es =>
          match (match stat d (EntriesPath id) with
                 | None => let! b := Load parseJSON d id in Ok (Entries b)
                 | Some _ => Ok es
                 end) with
          | Err e => (dst, Some e)
          | Ok es => (list_to_set (ChunkHash <$> es) ∪ dst, None)
          end
      end
  end.

Definition listManifestIDs (d : dir) : list bytes := ListIDs d.

(** Backups a catalog refers to that have not been loaded so far. *)
Definition dataRefs (loadedIDs : gset bytes) (fes : list FileEntry) (m : gmap bytes bool) : gmap bytes bool :=
  foldl (λ m fe, if bool_decide (DataBackupID fe = []) || bool_decide (DataBackupID fe ∈ loadedIDs) then m
                 else <[DataBackupID fe := true]> m) m fes.

Fixpoint collectListed (d : dir) (ids : list bytes) (loadedIDs : gset bytes) (refs : gset bytes) (dataIDs : gmap bytes bool)
    : result repo_err (gset bytes * gset bytes * gmap bytes bool) :=
  match ids with
  | [] => Ok (loadedIDs, refs, dataIDs)
  | id :: ids =>
      let loadedIDs := {[id]} ∪ loadedIDs in
      match streamBackupHashes d id refs with
      | (_, Some e) => Err e
      | (refs, None) =>
          let! b := LoadCatalog parseJSON d id in
          collectListed d ids loadedIDs refs (dataRefs loadedIDs (FileCatalog b) dataIDs)
      end
  end.

Definition collectReferencedHashes (d : dir) : result repo_err (gset bytes) :=
  let! '(loadedIDs, refs, dataIDs) := collectListed d (listManifestIDs d) ∅ ∅ ∅ in
  Ok (foldl (λ refs id, if bool_decide (id ∈ loadedIDs) then refs else (streamBackupHashes d id refs).1) refs (range_map dataIDs).*1).

(** ** What is collected *)

Lemma streamHashes_read n rest : ∀ dst bufs, readRecs n rest = Ok bufs →
  streamHashes addHash n rest dst = (list_to_set ((λ b, sub b 8 32) <$> bufs) ∪ dst, None).
Proof.
  revert rest. induction n as [|n IH]; intros rest dst bufs; cbn [readRecs streamHashes].
  { intros [= <-]. cbn. by rewrite left_id_L by apply _. }
  destruct (ReadFull EntryRecordSize rest) as [[buf rest']|e]; [|done]. cbn [rd_wrap rbind addHash].
  destruct (readRecs n rest') as [bs|] eqn:Hr; [|done]. cbn [rbind]. intros [= <-]. rewrite (IH rest' _ bs Hr). f_equal. cbn. set_solver.
Qed.

Lemma StreamChunkHashes_read r es dst : readAllEntries r = Ok es →
  StreamChunkHashes addHash r dst = (list_to_set (ChunkHash <$> es) ∪ dst, None).
Proof.
  unfold readAllEntries, StreamChunkHashes. destruct (_ =? 0).
  { intros [= <-]. cbn. by rewrite left_id_L by apply _. }
  destruct (SeekTo _ _) as [rest|]; [|done]. cbn [rbind]. destruct (2 ^ 63 <=? _); [done|].
  destruct (readRecs _ rest) as [bufs|] eqn:Hr; [|done]. cbn [rbind]. intros [= <-]. rewrite (streamHashes_read _ _ _ _ Hr).
  by rewrite <- list_fmap_compose.
Qed.

Lemma streamHashes_grows n rest dst : dst ⊆ (streamHashes addHash n rest dst).1.
Proof.
  revert rest dst. induction n as [|n IH]; intros rest dst; cbn [streamHashes]; [done|].
  destruct (ReadFull EntryRecordSize rest) as [[buf rest']|e]; [|done]. cbn [addHash]. etrans; [|apply IH]. set_solver.
Qed.

Lemma streamBackupHashes_grows d id dst : dst ⊆ (streamBackupHashes d id dst).1.
Proof.
  unfold streamBackupHashes. destruct (stat d (DNMPath id)) as [f|].
  - destruct (OpenDNMReader f) as [r|]; [|done]. assert (Hg : dst ⊆ (StreamChunkHashes addHash r dst).1).
    { unfold StreamChunkHashes. destruct (_ =? 0); [done|]. destruct (SeekTo _ _); [|done]. apply streamHashes_grows. }
    by destruct (StreamChunkHashes addHash r dst) as [dst' [[e|[]]|]].
  - destruct (ReadEntries d id) as [es|]; [|done]. destruct (stat d (EntriesPath id)); [cbn; set_solver|].
    destruct (rbind _ _) as [es'|]; cbn; [set_solver|done].
Qed.

(** The sidecar and the entries inside a JSON manifest do not both exist. *)
Definition one_source (d : dir) (id : bytes) : Prop :=
  stat d (DNMPath id) = None → is_Some (stat d (EntriesPath id)) → ∀ b, readJSON parseJSON d id = Ok b → Entries b = [].

Lemma streamBackupHashes_load d id dst b : Load parseJSON d id = Ok b → one_source d id →
  streamBackupHashes d id dst = (list_to_set (ChunkHash <$> Entries b) ∪ dst, None).
Proof.
  unfold Load, streamBackupHashes, one_source. destruct (stat d (DNMPath id)) as [f|] eqn:Hd.
  - intros Hl _. unfold loadDNM in Hl. destruct (OpenDNMReader f) as [r|]; [|done]. cbn [rbind] in Hl.
    destruct (readMetadata r) as [b0|]; [|done]. cbn [rbind] in Hl.
    destruct (if 0 <? _ then _ else _) as [b1|]; [|done]. cbn [rbind] in Hl. destruct (readAllEntries r) as [es|] eqn:He; [|done].
    injection Hl as <-. by rewrite (StreamChunkHashes_read r es dst He).
  - intros Hl Hone. destruct (readJSON parseJSON d id) as [j|] eqn:Hj; [|done]. cbn [rbind] in Hl.
    unfold ReadEntries in *. destruct (stat d (EntriesPath id)) as [s|] eqn:Hs.
    + specialize (Hone eq_refl ltac:(done) j eq_refl). rewrite Hone in Hl.
      destruct (readEntriesLoop _ s) as [es|] eqn:Hes; [|done]. cbn [rbind] in Hl. by injection Hl as <-.
    + unfold Load. rewrite Hd, Hj. cbn [rbind]. unfold ReadEntries. rewrite Hs.
      destruct (Entries j) eqn:Hej; cbn [rbind] in *; injection Hl as <-; [done|]. by rewrite Hej.
Qed.

Lemma dataRefs_dom L fes m id : is_Some (dataRefs L fes m !! id) ↔ is_Some (m !! id) ∨ (∃ fe, fe ∈ fes ∧ DataBackupID fe = id ∧ id ≠ [] ∧ id ∉ L).
Proof.
  unfold dataRefs. revert m. induction fes as [|fe fes IH]; intros m; cbn [foldl].
  { split; [by left|]. intros [?|(fe & Hin & _)]; [done|by apply elem_of_nil in Hin]. }
  rewrite IH. setoid_rewrite elem_of_cons. destruct (bool_decide (DataBackupID fe = [])) eqn:H1; [apply bool_decide_eq_true in H1|apply bool_decide_eq_false in H1]; cbn [orb].
  { naive_solver. }
  case_bool_decide as H2; [naive_solver|]. rewrite lookup_insert_is_Some'. naive_solver.
Qed.

(** What the listed backups contribute. *)
Record listed (d : dir) (ids : list bytes) (L refs : gset bytes) (data : gmap bytes bool) : Prop := {
  li_ids : ∀ id, id ∈ ids → id ∈ L;
  li_catalog : ∀ id, id ∈ ids → ∃ b, LoadCatalog parseJSON d id = Ok b ∧
    ∀ fe, fe ∈ FileCatalog b → DataBackupID fe ≠ [] → DataBackupID fe ∈ L ∨ is_Some (data !! DataBackupID fe);
  li_hashes : ∀ id b e, id ∈ ids → Load parseJSON d id = Ok b → one_source d id → e ∈ Entries b → ChunkHash e ∈ refs }.

Lemma collectListed_grows d ids : ∀ L refs data L' refs' data', collectListed d ids L refs data = Ok (L', refs', data') →
  L ⊆ L' ∧ refs ⊆ refs' ∧ (∀ id, is_Some (data !! id) → is_Some (data' !! id)) ∧ ∀ id, id ∈ L' → id ∈ L ∨ id ∈ ids.
Proof.
  induction ids as [|id ids IH]; intros L refs data L' refs' data'; cbn [collectListed]; [intros [= <- <- <-]; split_and!; auto|].
  pose proof (streamBackupHashes_grows d id refs) as Hg. destruct (streamBackupHashes d id refs) as [r1 [e|]]; [done|].
  destruct (LoadCatalog parseJSON d id) as [b|]; [|done]. cbn [rbind fst] in *. intros (H1 & H2 & H3 & H4)%IH.
  split_and!; [set_solver|set_solver| |].
  - intros i Hi. apply H3, dataRefs_dom. by left.
  - intros i [Hi|Hi]%H4; [apply elem_of_union in Hi as [->%elem_of_singleton|Hi]; [right; left|by left]|right; by right].
Qed.

Lemma collectListed_listed d ids : ∀ L refs data L' refs' data', collectListed d ids L refs data = Ok (L', refs', data') → listed d ids L' refs' data'.
Proof.
  induction ids as [|id ids IH]; intros L refs data L' refs' data'; cbn [collectListed].
  { intros [= <- <- <-]. split; intros i; [intros H|intros H|intros b e H]; by apply elem_of_nil in H. }
  destruct (streamBackupHashes d id refs) as [r1 [e|]] eqn:Hs; [done|].
  destruct (LoadCatalog parseJSON d id) as [b|] eqn:Hc; [|done]. cbn [rbind]. intros Hrun.
  destruct (collectListed_grows _ _ _ _ _ _ _ _ Hrun) as (G1 & G2 & G3 & _). destruct (IH _ _ _ _ _ _ Hrun) as [I1 I2 I3]. split.
  - intros i [->|Hi]%elem_of_cons; [set_solver|by apply I1].
  - intros i [->|Hi]%elem_of_cons; [|by apply I2]. exists b. split; [done|]. intros fe Hfe Hne.
    destruct (decide (DataBackupID fe ∈ L')) as [?|Hn]; [by left|right]. apply G3, dataRefs_dom. right. exists fe. split_and!; [done..|set_solver].
  - intros i b' e [->|Hi]%elem_of_cons Hl Hone He; [|by eapply I3]. rewrite (streamBackupHashes_load d id refs b' Hl Hone) in Hs.
    injection Hs as <-. apply G2, elem_of_union_l, elem_of_list_to_set, list_elem_of_fmap. by exists e.
Qed.

Lemma crossRefs_grow (d : dir) (L : gset bytes) ids : ∀ refs, refs ⊆ foldl (λ refs (id : bytes), if bool_decide (id ∈ L) then refs else (streamBackupHashes d id refs).1) refs ids.
Proof.
  induction ids as [|id ids IH]; intros refs; [done|]. cbn [foldl]. etrans; [|apply IH]. case_bool_decide; [done|apply streamBackupHashes_grows].
Qed.

Lemma crossRefs_load (d : dir) (L : gset bytes) ids id b e : ∀ refs, id ∈ ids → id ∉ L → Load parseJSON d id = Ok b → one_source d id → e ∈ Entries b →
  ChunkHash e ∈ foldl (λ refs (id : bytes), if bool_decide (id ∈ L) then refs else (streamBackupHashes d id refs).1) refs ids.
Proof.
  induction ids as [|i ids IH]; intros refs Hin HL Hl Hone He; [by apply elem_of_nil in Hin|]. cbn [foldl].
  apply elem_of_cons in Hin as [->|Hin]; [|by apply IH]. rewrite bool_decide_false by done. apply crossRefs_grow.
  rewrite (streamBackupHashes_load d i refs b Hl Hone). apply elem_of_union_l, elem_of_list_to_set, list_elem_of_fmap. by exists e.
Qed.
End refs.

(** A backup prune has to keep: a listed one, or one a listed catalog points at. *)
Definition kept_backup parseJSON (d : dir) (id : bytes) : Prop :=
  id ∈ ListIDs d ∨ ∃ id' b fe, id' ∈ ListIDs d ∧ LoadCatalog parseJSON d id' = Ok b ∧ fe ∈ FileCatalog b ∧ DataBackupID fe = id ∧ id ≠ [].

(** References are complete: when collecting succeeds, every listed manifest could be
    read, and every chunk of every backup that is listed, or that a listed file catalog
    points at, is in the set (when the backup has its entries in one place). *)
Theorem references_complete `{!MapRange} parseJSON d refs : collectReferencedHashes parseJSON d = Ok refs →
  (∀ id, id ∈ ListIDs d → ∃ b, LoadCatalog parseJSON d id = Ok b) ∧
  (∀ id b e, kept_backup parseJSON d id → Load parseJSON d id = Ok b → one_source parseJSON d id → e ∈ Entries b → ChunkHash e ∈ refs).
Proof.
  unfold collectReferencedHashes, listManifestIDs. destruct (collectListed _ _ _ _ _ _) as [[[L refs0] data]|] eqn:Hc; [|done]. cbn [rbind].
  intros [= <-]. destruct (collectListed_listed _ _ _ _ _ _ _ _ _ Hc) as [I1 I2 I3]. split.
  - intros id Hid. destruct (I2 id Hid) as (b & Hb & _). by exists b.
  - intros id b e Hk Hl Hone He. assert (Hlisted : id ∈ ListIDs d → ChunkHash e ∈ refs0) by (intros; by eapply I3).
    destruct (decide (id ∈ ListIDs d)) as [Hin|Hnin]; [by apply crossRefs_grow, Hlisted|]. destruct Hk as [?|(id' & b' & fe & Hin' & Hb' & Hfe & <- & Hne)]; [done|].
    destruct (I2 id' Hin') as (b2 & Hb2 & Hall). rewrite Hb' in Hb2. injection Hb2 as <-. destruct (decide (DataBackupID fe ∈ L)) as [HL|HL].
    + destruct (collectListed_grows _ _ _ _ _ _ _ _ _ Hc) as (_ & _ & _ & G4). destruct (G4 _ HL) as [H0|?]; [by apply elem_of_empty in H0|done].
    + destruct (Hall fe Hfe Hne) as [?|Hd]; [done|]. eapply crossRefs_load; [|exact HL|exact Hl|exact Hone|exact He].
      apply list_elem_of_fmap. destruct Hd as [x Hx]. exists (DataBackupID fe, x). split; [done|]. rewrite range_map_perm. by apply elem_of_map_to_list.
Qed.

Definition legacyJSON : bytes → option Backup := λ _, Some outOfOrder.

Lemma references_complete_witness :
  ∃ refs b, collectReferencedHashes legacyJSON legacyDir = Ok refs ∧ Load legacyJSON legacyDir sampleId = Ok b ∧ length (Entries b) = 2%nat ∧
    ∀ e, e ∈ Entries b → ChunkHash e ∈ refs.
Proof.
  set (refs := list_to_set (ChunkHash <$> Entries outOfOrder) : gset bytes).
  assert (Hc : collectReferencedHashes legacyJSON legacyDir = Ok refs) by (vm_compute; reflexivity).
  exists refs, outOfOrder.
  assert (Hl : Load legacyJSON legacyDir sampleId = Ok outOfOrder) by (vm_compute; reflexivity).
  split_and!; [exact Hc|exact Hl|reflexivity|]. intros e He.
  apply (proj2 (references_complete legacyJSON legacyDir refs Hc) sampleId outOfOrder e); [left; by_eval|exact Hl| |exact He].
  intros _ [s Hs]. vm_compute in Hs. done.
Defined.

(** A sidecar shadows the manifest's own entries: of a legacy backup that has its entries
    in the JSON and an empty sidecar beside it, loading takes the JSON's entries and prune
    the sidecar's, so the backup's chunks count as unreferenced. *)
Theorem sidecar_hides_references :
  let d := create legacyDir (EntriesPath sampleId) [] in
  Load legacyJSON d sampleId = Ok outOfOrder ∧ length (Entries outOfOrder) = 2%nat ∧ collectReferencedHashes legacyJSON d = Ok ∅.
Proof. vm_compute. split_and!; reflexivity. Qed.
