(* ===== verification/Prune.v ===== *)
(** * core/prune/prune.go: rewriting the repository without its orphans

    [Run] collects the referenced chunks, classifies the index entries, copies the frames
    of the referenced ones into fresh packs under a staging directory together with a
    fresh index, and swaps the two in.  xxhash, the filter's size, random marks and nonces
    are arguments; progress, durations and cancellation are left out. *)

From S2P Require Import Prelude GoBytes GoRuntime GoFiles Hashes HashTable HashBuild HashIndex Bloom Delta Fold Crypto Dedup PackStore Packs Preprocess RepoConfig Rebuild.
From S2P Require Import PruneSwap PruneRefs.

Inductive prune_err :=
| PrPending | PrConfig (e : cfg_err) | PrRefs | PrOpen (e : dedup_err) | PrRead (e : index_err)
| PrNormalizer (e : pre_err) | PrStagingIndex (e : dedup_err)
| PrReadChunk (i : Z) (e : store_err) | PrWriteChunk (i : Z) (e : store_err) | PrOpenChunk (i : Z) (e : store_err) | PrPanic
| PrFlush (e : dedup_err) | PrCloseStore (e : store_err) | PrSwap (e : swap_err).

Record prune_result := mkPruneResult {
  pr_TotalChunks : Z; pr_ReferencedChunks : Z; pr_OrphanedChunks : Z; pr_DuplicateChunks : Z;
  pr_BytesBefore : Z; pr_BytesAfter : Z; pr_BytesReclaimed : Z; pr_PackFilesBefore : Z; pr_PackFilesAfter : Z; pr_BakFilesRemoved : Z }.

(** ** Which entries stay *)

Definition classify (referenced : gset bytes) (es : list IndexEntry) : list IndexEntry * Z :=
  foldl (λ '(kept, orphans) e, if bool_decide (StrongHash e ∈ referenced) then (kept ++ [e], orphans) else (kept, orphans + 1)) ([], 0) es.

(** The first entry of a hash. *)
Fixpoint dedupEntries (seen : gset bytes) (es : list IndexEntry) : list IndexEntry * Z :=
  match es with
  | [] => ([], 0)
  | e :: es =>
      if bool_decide (StrongHash e ∈ seen) then let '(kept, dups) := dedupEntries seen es in (kept, dups + 1)
      else let '(kept, dups) := dedupEntries ({[StrongHash e]} ∪ seen) es in (e :: kept, dups)
  end.

(** ** Directories *)

Definition dirSize (d : dir) : Z := match d with None => 0 | Some fs => dirBytes fs end.
Definition countFiles (d : dir) : Z := match d with None => 0 | Some fs => len (ReadDir fs) end.

Definition sManifestBak : bytes := [46; 109; 97; 110; 105; 102; 101; 115; 116; 46; 98; 97; 107].
Definition sEntriesBak : bytes := [46; 101; 110; 116; 114; 105; 101; 115; 46; 98; 97; 107].
Definition isBak (n : name) : bool := HasSuffix n sManifestBak || HasSuffix n sEntriesBak.
Definition removeBakFiles (d : dir) : dir * Z :=
  match d with
  | None => (None, 0)
  | Some fs => foldl (λ '(d, removed) n, if isBak n then (remove d n, removed + 1) else (d, removed)) (Some fs, 0) (ReadDir fs)
  end.

Definition emptyIndexDir : index_dir := mkDir None None None None [].
Definition indexDirEmpty (d : index_dir) : bool :=
  match id_bloom d, id_bloom_enc d, id_index d, id_index_enc d, id_deltas d with None, None, None, None, [] => true | _, _, _, _, _ => false end.

Section prune.
Context {MR : MapRange} {SS : SortSlice} {PR : Primitives} {ZS : Zstd}.

(** ** Copying *)

(** By pack number, then offset: offsets are 64-bit. *)
Definition packOrder (e : IndexEntry) : Z := PackNumber e * 2 ^ 64 + StoreOffset e.

Fixpoint copyChunks (xxhash : bytes → Z) (norm : option Normalizer) (key : option bytes) (old : ChunkStore)
    (i : Z) (es : list IndexEntry) (staging : ChunkStore) (idx : DedupIndex) : ChunkStore * DedupIndex * option prune_err :=
  match es with
  | [] => (staging, idx, None)
  | e :: es =>
      match RetrieveRaw old (PackNumber e) (i64 (StoreOffset e)) with
      | Err err => (staging, idx, Some (PrReadChunk i err))
      | Ok (frame, _) =>
          match StoreRaw noHooks staging frame with
          | (staging, Err err) => (staging, idx, Some (PrWriteChunk i err))
          | (staging, Ok (newPack, newOffset, _)) =>
              let payloadLen := le_get (sub frame 0 4) in
              match openPayload key (sub frame 8 (Z.to_nat payloadLen)) with
              | Err err => (staging, idx, Some (PrOpenChunk i err))
              | Ok raw =>
                  match DInsert idx (xxhash (IdentityHashInput norm raw)) (StrongHash e) newPack (u64 newOffset) (ChunkLength e) with
                  | None => (staging, idx, Some PrPanic)
                  | Some idx => copyChunks xxhash norm key old (i + 1) es staging idx
                  end
              end
          end
      end
  end.

(** The staging directory and the error.  On an error the staging index is closed (its
    inserts are flushed) and stays with the packs. *)
Definition rewriteChunks (xxhash : bytes → Z) (bloomBits : Z → Z) (cfg : RepoConfig) (key : option bytes) (n1 n2 n3 n4 : bytes)
    (old : ChunkStore) (es : list IndexEntry) (staged : option (option files * option index_dir))
    : option (option files * option index_dir) * option prune_err :=
  let sChunks := default ∅ (staged ≫= fst) in
  let sIndex := default emptyIndexDir (staged ≫= snd) in
  match FromNames (rc_Normalizers cfg) with
  | Err e => (Some (Some sChunks, Some sIndex), Some (PrNormalizer e))
  | Ok norm =>
      let es := sortSlice packOrder es in
      let staging := NewChunkStore (Some sChunks) (rc_PackFileMaxSize cfg) (rc_CompressionLevel cfg) key in
      match NewDedupIndexReadOnly sIndex (bloomBits (len es + 100)) (IndexKeyFor cfg key) with
      | Err e => (Some (Some (cs_files staging), Some sIndex), Some (PrStagingIndex e))
      | Ok idx =>
          let '(staging, idx, err) := copyChunks xxhash norm key old 0 es staging idx in
          let '(_, sIndex, closeErr) := DClose idx n1 n2 n3 n4 in
          let '(staging, storeErr) := CloseStore noHooks staging in
          (Some (Some (cs_files staging), Some sIndex),
           match err, closeErr, storeErr with
           | Some e, _, _ => Some e
           | None, Some e, _ => Some (PrFlush e)
           | None, None, Some e => Some (PrCloseStore e)
           | None, None, None => None
           end)
      end
  end.

(** ** The whole run *)

Record repo := mkRepo { rp_root : dir; rp_manifests : dir; rp_layout : layout (I := index_dir) }.
Definition withLayout (r : repo) (l : layout) : repo := mkRepo (rp_root r) (rp_manifests r) l.

Record prune_options := mkPruneOptions { po_DryRun : bool; po_Key : option bytes; po_Extra : gset bytes }.

(** What analysis leaves: the index directory after a read-only open, a flush, and a
    close that discards. *)
Definition analyse (cfg : RepoConfig) (raw : Z) (key : option bytes) (l : layout) : layout * result prune_err (list IndexEntry) :=
  let idir := default emptyIndexDir (ly_index l) in
  match NewDedupIndexReadOnly idir raw (IndexKeyFor cfg key) with
  | Err e => (setI l Index (Some idir), Err (PrOpen e))
  | Ok d =>
      let '(d, r) := ReadAllEntries d in
      let '(_, idir) := DCloseDiscard d in
      (setI l Index (Some idir), match r with Ok es => Ok es | Err e => Err (PrRead e) end)
  end.

(** Rewriting and swapping, once there is something to remove. *)
Definition compact (xxhash : bytes → Z) (bloomBits : Z → Z) (cfg : RepoConfig) (key : option bytes) (n1 n2 n3 n4 r1 r2 : bytes)
    (es : list IndexEntry) (l : layout) : layout * option prune_err :=
  let old := NewChunkStore (ly_chunks l) (rc_PackFileMaxSize cfg) (rc_CompressionLevel cfg) key in
  let l := setC l Chunks (Some (cs_files old)) in
  let '(staged, err) := rewriteChunks xxhash bloomBits cfg key n1 n2 n3 n4 old es (ly_staging l) in
  let l := setStaging l staged in
  match err with
  | Some e => (l, Some e)
  | None => let '(l, err) := run indexDirEmpty (atomicSwap r1 r2) l in (l, PrSwap <$> err)
  end.

(** The configuration is read after recovery, which does not touch it. *)
Definition Run (xxhash : bytes → Z) (bloomBits : Z → Z) (raw : Z) (unmarshal : bytes → option RepoConfig) (parseJSON : bytes → option Dnm.Backup)
    (opts : prune_options) (n1 n2 n3 n4 r1 r2 : bytes) (r : repo) : repo * result prune_err prune_result :=
  if po_DryRun opts && pruneRecoveryPending (rp_layout r) then (r, Err PrPending)
  else
    let r := if po_DryRun opts then r else withLayout r (run indexDirEmpty recoverIfNeeded (rp_layout r)).1 in
    match LoadRepoConfig unmarshal (rp_root r) with
    | Err e => (r, Err (PrConfig e))
    | Ok cfg =>
        let cfg := Effective cfg in
        match collectReferencedHashes parseJSON (rp_manifests r) with
        | Err _ => (r, Err PrRefs)
        | Ok refs =>
            match analyse cfg raw (po_Key opts) (rp_layout r) with
            | (l, Err e) => (withLayout r l, Err e)
            | (l, Ok all) =>
                let r := withLayout r l in
                let '(referenced, orphans) := classify (refs ∪ po_Extra opts) all in
                let '(kept, dups) := dedupEntries ∅ referenced in
                let before := dirSize (ly_chunks l) in
                let packs := countFiles (ly_chunks l) in
                let result after reclaimed packsAfter baks :=
                  mkPruneResult (len all) (len kept) orphans dups before after reclaimed packs packsAfter baks in
                if po_DryRun opts then (r, Ok (result 0 0 0 0))
                else if (orphans =? 0) && (dups =? 0) then
                  let '(m, baks) := removeBakFiles (rp_manifests r) in
                  (mkRepo (rp_root r) m l, Ok (result before 0 packs baks))
                else
                  match compact xxhash bloomBits cfg (po_Key opts) n1 n2 n3 n4 r1 r2 kept l with
                  | (l, Some e) => (withLayout r l, Err e)
                  | (l, None) =>
                      let '(m, baks) := removeBakFiles (rp_manifests r) in
                      let after := dirSize (ly_chunks l) in
                      (mkRepo (rp_root r) m l, Ok (result after (before - after) (countFiles (ly_chunks l)) baks))
                  end
            end
        end
    end.
End prune.

(** ** Classification *)

Lemma classify_spec refs es :
  classify refs es = (filter (λ e, StrongHash e ∈ refs) es, len es - len (filter (λ e, StrongHash e ∈ refs) es)).
Proof.
  unfold classify. assert (H : ∀ l n, foldl (λ '(kept, orphans) e, if bool_decide (StrongHash e ∈ refs) then (kept ++ [e], orphans) else (kept, orphans + 1)) (l, n) es =
    (l ++ filter (λ e, StrongHash e ∈ refs) es, n + len es - len (filter (λ e, StrongHash e ∈ refs) es))).
  { induction es as [|e es IH]; intros l n; cbn [foldl]; [cbn; rewrite app_nil_r; f_equal; lia|]. rewrite filter_cons. case_bool_decide as He.
    - rewrite IH, decide_True by done. rewrite <- app_assoc. cbn. f_equal. lia.
    - rewrite IH, decide_False by done. f_equal. cbn [length]. lia. }
  rewrite H. done.
Qed.

Lemma dedupEntries_nodup es : ∀ seen, NoDup (StrongHash <$> es) → (∀ e, e ∈ es → StrongHash e ∉ seen) → dedupEntries seen es = (es, 0).
Proof.
  induction es as [|e es IH]; intros seen Hnd Hs; [done|]. cbn [dedupEntries fmap list_fmap] in *. apply NoDup_cons in Hnd as [Hn Hnd].
  rewrite bool_decide_false by (apply Hs; left). rewrite IH; [done|done|]. intros e' He'. apply not_elem_of_union. split; [|apply Hs; by right].
  apply not_elem_of_singleton. intros Heq. apply Hn. rewrite <- Heq. by apply list_elem_of_fmap_2.
Qed.

(** Distinct hashes: all kept ones are referenced, none twice. *)
Lemma dedupEntries_spec es : ∀ seen, let kept := (dedupEntries seen es).1 in
  NoDup (StrongHash <$> kept) ∧ (∀ e, e ∈ kept → e ∈ es ∧ StrongHash e ∉ seen) ∧ (∀ e, e ∈ es → StrongHash e ∈ seen ∨ StrongHash e ∈ StrongHash <$> kept).
Proof.
  induction es as [|e es IH]; intros seen; cbn [dedupEntries].
  { split_and!; [constructor|intros e He; by apply elem_of_nil in He..]. }
  case_bool_decide as Hs.
  - specialize (IH seen). destruct (dedupEntries seen es) as [kept dups]. cbn [fst] in *. destruct IH as (I1 & I2 & I3). split_and!; [done| |].
    + intros e' He'. destruct (I2 e' He'). split; [by right|done].
    + intros e' [->|He']%elem_of_cons; [by left|by apply I3].
  - specialize (IH ({[StrongHash e]} ∪ seen)). destruct (dedupEntries ({[StrongHash e]} ∪ seen) es) as [kept dups]. cbn [fst] in *. destruct IH as (I1 & I2 & I3). split_and!.
    + cbn. apply NoDup_cons. split; [|done]. intros (e' & He & Hin)%list_elem_of_fmap. destruct (I2 e' Hin) as [_ Hn]. apply Hn. rewrite He. set_solver.
    + intros e' [->|He']%elem_of_cons; [by split; [left|]|]. destruct (I2 e' He') as [? Hn]. split; [by right|set_solver].
    + intros e' [->|He']%elem_of_cons; [right; cbn; left|]. destruct (I3 e' He') as [[->%elem_of_singleton|?]%elem_of_union|?]; [right; cbn; left|by left|right; cbn; by right].
Qed.

Section prune_proofs.
Context {MR : MapRange} {SS : SortSlice} {PR : Primitives} {ZS : Zstd}.

(** ** The staging index *)

Lemma open_empty skip raw key : is_u64 raw → raw < 2 ^ 64 - 63 →
  ∃ d, openDedup skip emptyIndexDir raw key = Ok d ∧ dedup_rep d ∅ ∅ [] [] ∧ di_delta d = None ∧ di_key d = key ∧ di_dir d = emptyIndexDir.
Proof.
  intros Hr Hlt. unfold openDedup. assert (Hd : decryptDir emptyIndexDir key = Ok emptyIndexDir) by (by destruct key). rewrite Hd. cbn [rbind id_bloom emptyIndexDir id_index default].
  destruct (NewHashIndex_rep [] skip empty_file_ok) as (i0 & Hi0 & _ & Hr0). change (sortedFile []) with (@nil Z) in Hi0. rewrite Hi0.
  cbn [applyPendingDeltas deltaObjects di_dir id_deltas emptyIndexDir filter list_filter applyDeltas rbind].
  eexists. split; [reflexivity|]. cbn. split_and!; try done. split; cbn; [by apply NewBloomFilter_ok|done| |done]. intros w h Hin. by apply elem_of_nil in Hin.
Qed.

(** ** Copying *)

(** Where the index says a chunk is. *)
Definition locOf (e : IndexEntry) : Z * Z := (PackNumber e, i64 (StoreOffset e)).

(** The entries [es] are in [M], at places where [fs] has their chunks. *)
Definition relocated (key : option bytes) (data : bytes → bytes) (fs : files) (M : gmap bytes IndexEntry) (es : list IndexEntry) : Prop :=
  (∀ h, is_Some (M !! h) ↔ h ∈ StrongHash <$> es) ∧ ∀ h e, M !! h = Some e → stored_at key fs (locOf e) (data h).

Lemma stored_at_raw cs num off d : small_packs (cs_files cs) → stored_at (cs_key cs) (cs_files cs) (num, off) d →
  ∃ p, RetrieveRaw cs num off = Ok (frameOf p (len d), u32 (len d)) ∧ len p ≤ maxChunkFrameLen ∧ openPayload (cs_key cs) p = Ok d.
Proof. intros Hs (_ & p & Hp & Ho & Hh). exists p. split; [by apply RetrieveRaw_frame|done]. Qed.

Lemma relocated_insert key data fs fs' M es e e' : packs_grow fs fs' → relocated key data fs M es → StrongHash e' = StrongHash e →
  stored_at key fs' (locOf e') (data (StrongHash e)) → relocated key data fs' (<[StrongHash e := e']> M) (es ++ [e]).
Proof.
  intros Hg [R1 R2] Hh Hat. split.
  - intros h. rewrite lookup_insert_is_Some', R1, fmap_app, elem_of_app. cbn. rewrite list_elem_of_singleton. naive_solver.
  - intros h x. destruct (decide (h = StrongHash e)) as [->|Hne]; [rewrite lookup_insert_eq; by intros [= <-]|].
    rewrite lookup_insert_ne by done. intros Hx. by eapply stored_at_grow, R2.
Qed.

(** Packs within the maximum or one frame. *)
Definition limit (max : Z) (fs : files) : Prop := ∀ n f, fs !! n = Some f → len f ≤ Z.max max (8 + maxChunkFrameLen).
(** A staging store being filled. *)
Record filling (cs : ChunkStore) : Prop := {
  fi_ok : store_ok cs;
  fi_limit : limit (cs_maxPackSize cs) (cs_files cs);
  fi_top : nothing_above (cs_files cs) (cs_currentPackNum cs) }.

Lemma filling_small cs : filling cs → cs_maxPackSize cs < 2 ^ 63 → small_packs (cs_files cs).
Proof. intros [_ Hl _] Hm n f Hf. apply Hl in Hf. change maxChunkFrameLen with 67108864 in Hf. lia. Qed.

Lemma ensure_filling cs : filling cs → filling (ensureCurrentPack cs).
Proof.
  intros [Hok Hl Ht]. destruct (ensureCurrentPack_ok cs Hok) as (H1 & _ & _ & Hc & Hn & Hf). split; [done| |].
  - rewrite (proj1 Hc). destruct Hf as [->|[_ ->]]; [done|]. intros n f. destruct (decide (n = packPath (cs_currentPackNum cs))) as [->|Hne].
    + rewrite lookup_insert_eq. intros [= <-]. cbn. change maxChunkFrameLen with 67108864. lia.
    + rewrite lookup_insert_ne by done. apply Hl.
  - rewrite Hn. destruct Hf as [->|[_ ->]]; [done|]. apply nothing_above_insert with (cs_currentPackNum cs); [apply Hok|done|lia].
Qed.

Lemma appended_filling cs cs' frame loc : filling cs → len frame ≤ 8 + maxChunkFrameLen → appended cs cs' frame loc → filling cs'.
Proof.
  intros [Hok Hl Ht] Hlen Ha. destruct (ap_files _ _ _ _ Ha) as (f & Hfs & Hd & _ & Hb). pose proof (ap_num _ _ _ _ Ha) as Hn.
  pose proof (so_num _ (ap_ok _ _ _ _ Ha)) as Hu. split; [apply Ha| |].
  - rewrite (proj1 (ap_config _ _ _ _ Ha)), Hfs. intros n g. destruct (decide (n = packPath (cs_currentPackNum cs'))) as [->|Hne].
    2:{ rewrite lookup_insert_ne by done. apply Hl. }
    rewrite lookup_insert_eq. intros [= <-]. rewrite length_app. destruct f as [|b f]; [cbn; lia|].
    destruct (decide (cs_currentPackNum cs' = cs_currentPackNum cs)) as [He|He]; [specialize (Hb He ltac:(done)); lia|].
    rewrite Ht in Hd by (done || lia). done.
  - rewrite Hfs. apply nothing_above_insert with (cs_currentPackNum cs); [done|done|lia].
Qed.

(** One raw copy. *)
Lemma StoreRaw_step h staging frame : seals h → filling staging → is_u32 (cs_currentPackNum staging + 1) → len frame ≤ 8 + maxChunkFrameLen →
  ∃ staging' loc n, StoreRaw h staging frame = (staging', Ok (loc, n)) ∧ filling staging' ∧ packs_grow (cs_files staging) (cs_files staging') ∧
    same_config staging staging' ∧ cs_currentPackNum staging' ≤ cs_currentPackNum staging + 1 ∧ is_u32 loc.1 ∧ pack_has (cs_files staging') loc.1 loc.2 frame.
Proof.
  intros Hse Hfi Hn Hlen. pose proof (fi_ok _ Hfi) as Hok. destruct (StoreRaw_ok h staging frame Hse Hok Hn) as (s' & loc & Hst & Ha).
  destruct (ensureCurrentPack_ok staging Hok) as (_ & _ & Hg & Hc & Hnum & _). exists s', loc, (len frame - 8). split; [done|].
  pose proof (ap_num _ _ _ _ Ha). split_and!; [|etrans; [exact Hg|apply Ha]|etrans; [exact Hc|apply Ha]|lia|apply Ha|apply Ha].
  eapply appended_filling; [by apply ensure_filling|done|exact Ha].
Qed.

Lemma dedup_rep_uncaptured d D M ids cap cap' : di_delta d = None → dedup_rep d D M ids cap → dedup_rep d D M ids cap'.
Proof. intros Hd [A1 A2 A3 _]. split; [done..|]. by rewrite Hd. Qed.

(** What a finished copy leaves. *)
Record copied (key : option bytes) (data : bytes → bytes) (D : gmap bytes IndexEntry) (idx : DedupIndex) (es : list IndexEntry)
    (staging' : ChunkStore) (idx' : DedupIndex) : Prop := {
  cp_rep : ∃ M ids, dedup_rep idx' D M ids [] ∧ relocated key data (cs_files staging') M es;
  cp_delta : di_delta idx' = None; cp_key : di_key idx' = di_key idx; cp_dir : di_dir idx' = di_dir idx;
  cp_store : filling staging' ∧ cs_maxPackSize staging' < 2 ^ 63 }.

Lemma copyChunks_ok xxhash norm key old data D es : (∀ b, is_u64 (xxhash b)) → small_packs (cs_files old) → cs_key old = key →
  Forall storable es → (∀ e, e ∈ es → stored_at key (cs_files old) (locOf e) (data (StrongHash e))) →
  ∀ i staging idx M before ids, filling staging → cs_maxPackSize staging < 2 ^ 63 → cs_currentPackNum staging + len es < 2 ^ 32 →
  dedup_rep idx D M ids [] → di_delta idx = None → relocated key data (cs_files staging) M before →
  ∃ staging' idx', copyChunks xxhash norm key old i es staging idx = (staging', idx', None) ∧ copied key data D idx (before ++ es) staging' idx'.
Proof.
  intros Hx Hso Hkey Hst. induction Hst as [|e es He Hst IH]; intros Hat i staging idx M before ids Hok Hmx Hn Hr Hd Hrel.
  { cbn [copyChunks]. exists staging, idx. split; [done|]. rewrite app_nil_r. split; [by exists M, ids|done..]. }
  cbn [copyChunks length] in *. pose proof (so_num _ (fi_ok _ Hok)) as Hu. pose proof (Hat e ltac:(left)) as Hate. rewrite <- Hkey in Hate.
  destruct (stored_at_raw old _ _ _ Hso Hate) as (p & -> & Hp & Ho).
  destruct (StoreRaw_step noHooks staging (frameOf p (len (data (StrongHash e)))) I Hok ltac:(unfold is_u32 in *; lia))
    as (s' & [np no] & n & -> & Hok' & Hg & Hcf & Hn' & Hlu & Hhas); [rewrite length_frameOf; lia|]. cbn [fst snd] in *.
  assert (H32 : len p < 2 ^ 32) by (change maxChunkFrameLen with 67108864 in Hp; lia).
  destruct (frameOf_fields p (len (data (StrongHash e))) H32) as (F1 & _ & F3). rewrite F1, Nat2Z.id, F3. rewrite Hkey in Ho. rewrite Ho.
  set (w := xxhash _). destruct He as [He Hz].
  pose proof (DInsert_rep idx D M ids [] (mkDelta (StrongHash e) w np (u64 no) (ChunkLength e)) Hr) as (idx1 & HI & Hr1 & _ & Hd1 & K1 & K2 & _).
  { split; [|done]. split; cbn; [apply He|apply Hx|done|apply u64_range|apply He]. } { done. }
  cbn [de_StrongHash de_WeakHash de_PackNumber de_StoreOffset de_ChunkLength] in HI. rewrite HI. cbn [idx_of de_StrongHash de_PackNumber de_StoreOffset de_ChunkLength] in Hr1.
  set (e' := mkEntry (StrongHash e) np (u64 no) (ChunkLength e)) in *. specialize (Hd1 Hd).
  assert (Hmx' : cs_maxPackSize s' < 2 ^ 63) by (by rewrite (proj1 Hcf)).
  assert (Hsm1 : small_packs (cs_files s')) by (by apply filling_small).
  assert (Hat1 : stored_at key (cs_files s') (np, no) (data (StrongHash e))) by (split; [done|]; by exists p).
  pose proof (stored_at_offset _ _ _ _ Hsm1 Hat1) as Hoff. cbn [snd] in Hoff.
  assert (Hloc : locOf e' = (np, no)) by (unfold locOf, e'; cbn; rewrite u64_id, i64_id by (unfold is_u64, is_i64; lia); done).
  destruct (IH ltac:(intros; apply Hat; by right) (i + 1) s' idx1 _ (before ++ [e]) (ids ++ [(w, StrongHash e)]) Hok' Hmx' ltac:(lia)
    (dedup_rep_uncaptured _ _ _ _ _ [] Hd1 Hr1) Hd1) as (s2 & idx2 & -> & [C1 C2 C3 C4 C5]).
  { apply (relocated_insert _ _ (cs_files staging) _ _ _ e e'); [done|done|done|]. rewrite Hloc. exact Hat1. }
  exists s2, idx2. split; [done|]. rewrite <- app_assoc in C1. split; [exact C1|done|congruence|congruence|done].
Qed.

Lemma size_list_to_set_le (l : list bytes) : (size (list_to_set l : gset bytes) ≤ length l)%nat.
Proof.
  induction l as [|x l IH]; [done|]. cbn. rewrite size_union_alt, size_singleton.
  assert (size (list_to_set l ∖ {[x]} : gset bytes) ≤ size (list_to_set l : gset bytes))%nat by (apply subseteq_size; set_solver). lia.
Qed.

Lemma relocated_size key data fs M es : relocated key data fs M es → Z.of_nat (size M) ≤ len es.
Proof.
  intros [H _]. rewrite <- size_dom. assert (Hd : dom M = list_to_set (StrongHash <$> es)).
  { apply set_eq. intros h. rewrite elem_of_dom, elem_of_list_to_set. apply H. }
  rewrite Hd. pose proof (size_list_to_set_le (StrongHash <$> es)) as Hl. rewrite length_fmap in Hl. lia.
Qed.

(** The arguments of a run that come from outside. *)
Record outside (xxhash : bytes → Z) (bloomBits : Z → Z) (cfg : RepoConfig) (key : option bytes) (n1 n2 n3 n4 : bytes) (norm : option Normalizer) : Prop := {
  ou_hash : ∀ b, is_u64 (xxhash b);
  ou_bits : ∀ n, is_u64 (bloomBits n) ∧ bloomBits n < 2 ^ 64 - 63;
  ou_norm : FromNames (rc_Normalizers cfg) = Ok norm;
  ou_max : rc_PackFileMaxSize cfg < 2 ^ 63;
  ou_key : key_ok (IndexKeyFor cfg key);
  ou_nonces : length n1 = 12%nat ∧ length n2 = 12%nat ∧ length n3 = 12%nat ∧ length n4 = 12%nat }.

Lemma CloseStore_ok cs : store_ok cs → ∃ cs', CloseStore noHooks cs = (cs', None) ∧ cs_files cs' = cs_files cs.
Proof. intros [_ Hh _]. unfold CloseStore. destruct (cs_currentPack cs); [by eexists|by eexists|done]. Qed.

(** Chunks to copy. *)
Record copyable (key : option bytes) (c : files) (data : bytes → bytes) (es : list IndexEntry) : Prop := {
  co_small : small_packs c;
  co_storable : Forall storable es;
  co_count : len es < 2 ^ 32;
  co_stored : ∀ e, e ∈ es → stored_at key c (locOf e) (data (StrongHash e)) }.

Lemma rewriteChunks_ok xxhash bloomBits cfg key n1 n2 n3 n4 norm c level data es : outside xxhash bloomBits cfg key n1 n2 n3 n4 norm → copyable key c data es →
  let old := NewChunkStore (Some c) (rc_PackFileMaxSize cfg) level key in
  ∃ c' idir bf bs, rewriteChunks xxhash bloomBits cfg key n1 n2 n3 n4 old es None = (Some (Some c', Some idir), None) ∧
    dir_holds (IndexKeyFor cfg key) idir bf bs [] ∧ relocated key data c' (insert_all bs ∅) es ∧ small_packs c'.
Proof.
  intros [Hx Hb Hnm Hmx Hk (H1 & H2 & H3 & H4)] [Hsm Hst Hcnt Hat] old. unfold rewriteChunks. rewrite Hnm. cbn [option_bind mbind default].
  set (sorted := sortSlice packOrder es). assert (Hp : sorted ≡ₚ es) by apply sortSlice_perm.
  destruct (open_empty true (bloomBits (len sorted + 100)) (IndexKeyFor cfg key) (proj1 (Hb _)) (proj2 (Hb _))) as (d & Hop & Hr & Hdl & Hdk & Hdd).
  unfold NewDedupIndexReadOnly. rewrite Hop.
  set (staging := NewChunkStore (Some ∅) _ _ _). assert (Hfi : filling staging).
  { split; [apply NewChunkStore_ok|intros n f; change (cs_files staging) with (∅ : files); by rewrite lookup_empty|
      intros k _ _; change (cs_files staging) with (∅ : files); by rewrite lookup_empty]. }
  destruct (copyChunks_ok xxhash norm key old data ∅ sorted Hx Hsm eq_refl ltac:(by rewrite Hp) ltac:(intros e; rewrite Hp; apply Hat) 0 staging d ∅ [] []
    Hfi Hmx ltac:(rewrite Hp; done) Hr Hdl) as (s' & d' & -> & [(M & ids & Hr' & Hrel) C2 C3 C4 C5]).
  { split; [|intros h e; by rewrite lookup_empty]. intros h. rewrite lookup_empty. cbn. split; [by intros []|by intros ?%elem_of_nil]. }
  cbn [app] in Hrel. assert (Hrel' : relocated key data (cs_files s') M es) by (destruct Hrel as [R1 R2]; split; [intros h; by rewrite R1, Hp|done]).
  pose proof (relocated_size _ _ _ _ _ Hrel') as Hsz.
  destruct (DClose_rep d' ∅ M ids [] [] n1 n2 n3 n4 Hr') as (d2 & idir & bs & -> & Hdir & HM & _);
    [by rewrite C3, Hdk|lia|done|done|done|done|done|rewrite C4, Hdd; constructor|by rewrite C4, Hdd|].
  destruct (CloseStore_ok s' (fi_ok _ (proj1 C5))) as (s2 & -> & ->). rewrite C3, Hdk in Hdir. subst M.
  eexists _, _, _, bs. split; [reflexivity|]. split; [exact Hdir|]. split; [exact Hrel'|].
  apply filling_small; apply C5.
Qed.

(** ** The swap and the analysis *)

Lemma generation_not_pack num : is_u32 num → packPath num ≠ packsGenerationFile.
Proof. intros Hn He. apply (f_equal parsePackFileName) in He. rewrite parse_packPath in He by done. vm_compute in He. done. Qed.

Lemma stored_at_new key c r1 r2 loc d : stored_at key c loc d → stored_at key (newChunks c r1 r2) loc d.
Proof.
  intros (Hu & p & Hp & Ho & f & Hf & Hr). split; [done|]. exists p. split_and!; [done|done|]. exists f. split; [|done].
  pose proof (generation_not_pack _ Hu). unfold newChunks. by rewrite !lookup_insert_ne by done.
Qed.

Lemma small_new c r1 r2 : small_packs c → len r1 < 2 ^ 32 → len r2 < 2 ^ 32 → small_packs (newChunks c r1 r2).
Proof.
  intros Hs H1 H2 n f. unfold newChunks. assert (Hh : ∀ r, len (hexEncode r) = 2 * len r).
  { intros r. unfold hexEncode. induction r as [|x r IH]; [done|]. cbn [fmap list_fmap concat]. rewrite length_app. cbn [length]. lia. }
  destruct (decide (n = packsGenerationFile)) as [->|Hne]; [rewrite lookup_insert_eq; intros [= <-]; rewrite Hh; lia|].
  rewrite !lookup_insert_ne by done. apply Hs.
Qed.

Lemma compact_ok xxhash bloomBits cfg key n1 n2 n3 n4 norm r1 r2 c idir data es : outside xxhash bloomBits cfg key n1 n2 n3 n4 norm → copyable key c data es →
  len r1 < 2 ^ 32 → len r2 < 2 ^ 32 →
  ∃ c' idir' bf bs, compact xxhash bloomBits cfg key n1 n2 n3 n4 r1 r2 es (clean c idir) = (clean c' idir', None) ∧
    dir_holds (IndexKeyFor cfg key) idir' bf bs [] ∧ relocated key data c' (insert_all bs ∅) es ∧ small_packs c'.
Proof.
  intros Hou Hco H1 H2. destruct (rewriteChunks_ok xxhash bloomBits cfg key n1 n2 n3 n4 norm c (rc_CompressionLevel cfg) data es Hou Hco) as (c' & idir' & bf & bs & Hrw & Hdir & [R1 R2] & Hsm).
  exists (newChunks c' r1 r2), idir', bf, bs. unfold compact. cbn [clean ly_chunks ly_staging setC]. cbn zeta in Hrw. rewrite Hrw.
  split; [reflexivity|]. split; [done|]. split; [|by apply small_new]. split; [done|]. intros h e He. by apply stored_at_new, R2.
Qed.

Lemma insert_all_again (es : list IndexEntry) (m : gmap bytes IndexEntry) : insert_all es (insert_all es m) = insert_all es m.
Proof. apply map_eq. intros h. rewrite !insert_all_lookup_last. by destruct (last _). Qed.

(** The map an index directory gives. *)
Record indexed (key : option bytes) (idir : index_dir) (M : gmap bytes IndexEntry) : Prop := {
  in_holds : ∃ bf bs ess, dir_holds key idir bf bs ess ∧ insert_all (idx_of <$> concat ess) (insert_all bs ∅) = M;
  in_sealed : is_Some key → is_Some (id_bloom_enc idir) ∧ is_Some (id_index_enc idir) }.

Lemma open_indexed skip raw key idir M : indexed key idir M → ∃ d, openDedup skip idir raw key = Ok d ∧ ∀ h, bytes_ok h → h ≠ zeroHash → LookupDirect d h = Ok (M !! h).
Proof.
  intros [(bf & bs & ess & Hdir & HM) _]. destruct (openDedup_rep skip idir raw key bf bs ess Hdir) as (d & Ho & Hr & _). exists d. split; [done|].
  rewrite HM in Hr. intros h. apply (Lookup_rep _ _ _ h (dr_index _ _ _ _ _ Hr)).
Qed.

Lemma analyse_ok cfg raw key c idir M : indexed (IndexKeyFor cfg key) idir M → Z.of_nat (size M) ≤ 2 ^ 35 →
  ∃ all idir', analyse cfg raw key (clean c idir) = (clean c idir', Ok all) ∧ file_ok all ∧ insert_all all ∅ = M ∧ indexed (IndexKeyFor cfg key) idir' M.
Proof.
  intros [(bf & bs & ess & Hdir & HM) Hseal] Hsz. unfold analyse. cbn [clean ly_index default from_option id]. set (ikey := IndexKeyFor cfg key) in *.
  destruct (openDedup_rep true idir raw ikey bf bs ess Hdir) as (d & Ho & Hr & Hdl & Hdk & Hdd & _ & _ & Henc & _). unfold NewDedupIndexReadOnly. rewrite Ho.
  pose proof (openDedup_disk _ _ _ _ _ Ho) as (_ & E1 & E2 & E3 & E4). rewrite HM in Hr.
  destruct (Flush_rep _ _ _ (dr_index _ _ _ _ _ Hr) Hsz) as (i1 & Hfl & Hr1 & _ & Hcl). destruct (ReadAll_clean _ _ _ Hr1 Hcl) as (all & Hall & Hf & HA & Hdisk).
  unfold ReadAllEntries. rewrite Hfl, Hall. unfold DCloseDiscard, closeDelta, leaveDir. cbn [set_tiers di_delta di_dir di_key di_index CloseDiscard ix_disk fst].
  rewrite Hdl. cbn [di_dir di_key di_index set_tiers CloseDiscard ix_disk]. rewrite Hdk, E1, E2, E3, Hdisk.
  eexists all, _. split; [reflexivity|]. split; [done|]. split; [done|]. destruct Hdir as [D1 D2 (dir' & Hdec & B1 & B2 & B3) D4].
  split; [|intros Hs; cbn; by apply Hseal]. destruct ikey as [k|].
  - exists bf, bs, ess. split; [|done]. destruct (Hseal ltac:(done)) as [[be Hbe] [ie Hie]]. unfold decryptDir, decryptOver in Hdec. rewrite Hbe, Hie in Hdec.
    split; [done|done| |exact D4]. unfold decryptDir. cbn [id_bloom_enc id_bloom id_index_enc id_index id_deltas]. rewrite Hbe, Hie. unfold decryptOver.
    destruct (DecryptFile k be) as [b|]; [|done]. destruct (DecryptFile k ie) as [i|]; [|done]. cbn [rbind] in *. injection Hdec as <-.
    eexists. split; [reflexivity|]. done.
  - exists bf, all, ess. destruct (E4 eq_refl) as [E5 _]. split; [|rewrite HA, <- HM; apply insert_all_again].
    unfold decryptDir, refuseEncryptedWithoutKey in Hdec. destruct (id_index_enc idir) eqn:Hie; [done|]. destruct (id_bloom_enc idir) eqn:Hbe; [done|].
    cbn [rbind] in Hdec. injection Hdec as <-. split; [done|done| |exact D4]. cbn. eexists. split; [reflexivity|]. cbn. by rewrite E5.
Qed.
End prune_proofs.

Section theorem.
Context {MR : MapRange} {SS : SortSlice} {PR : Primitives} {ZS : Zstd}.

(** The index [d] over the packs [c] answers exactly the chunks [S] of [M], and reads
    their data. *)
Definition serves_only (cfg : RepoConfig) (key : option bytes) (M : gmap bytes IndexEntry) (S : gset bytes) (data : bytes → bytes) (c : files) (d : DedupIndex) : Prop :=
  let cs := NewChunkStore (Some c) (rc_PackFileMaxSize cfg) (rc_CompressionLevel cfg) key in
  ∀ h, bytes_ok h → h ≠ zeroHash →
    if decide (h ∈ S ∧ is_Some (M !! h))
    then ∃ e, LookupDirect d h = Ok (Some e) ∧ ∀ hooks, Retrieve hooks cs (PackNumber e) (i64 (StoreOffset e)) = (cs, Ok (data h))
    else LookupDirect d h = Ok None.

Lemma serves_stored (cfg : RepoConfig) (key : option bytes) (M : gmap bytes IndexEntry) (S : gset bytes) (data : bytes → bytes) (c : files) (d : DedupIndex) (M' : gmap bytes IndexEntry) : small_packs c → (∀ h, bytes_ok h → h ≠ zeroHash → LookupDirect d h = Ok (M' !! h)) →
  (∀ h, is_Some (M' !! h) ↔ h ∈ S ∧ is_Some (M !! h)) → (∀ h e, M' !! h = Some e → stored_at key c (locOf e) (data h)) →
  serves_only cfg key M S data c d.
Proof.
  intros Hs Hl Hdom Hat h Hb Hz. rewrite Hl by done. destruct (decide _) as [Hin|Hn].
  - apply Hdom in Hin as [e He]. exists e. split; [by rewrite He|]. intros hooks. apply stored_at_Retrieve; [done|done|]. by apply Hat.
  - destruct (M' !! h) eqn:He; [|done]. destruct Hn. apply Hdom. by rewrite He.
Qed.

(** What the analysis keeps. *)
Lemma kept_spec (refs : gset bytes) (all : list IndexEntry) (M : gmap bytes IndexEntry) : file_ok all → insert_all all ∅ = M →
  let kept := filter (λ e, StrongHash e ∈ refs) all in
  NoDup (StrongHash <$> kept) ∧ Forall storable kept ∧ (length kept ≤ size M)%nat ∧
  (∀ h, h ∈ StrongHash <$> kept ↔ h ∈ refs ∧ is_Some (M !! h)) ∧ (∀ e, e ∈ kept → M !! StrongHash e = Some e ∧ StrongHash e ∈ refs) ∧
  (len all - len kept = 0 → ∀ h, is_Some (M !! h) → h ∈ refs).
Proof.
  intros Hf HM kept. assert (Hsz : size M = length all) by (rewrite <- HM, size_insert_all by apply Hf; done).
  assert (HMe : ∀ h e, M !! h = Some e ↔ e ∈ all ∧ StrongHash e = h) by (intros h e; rewrite <- HM; apply insert_all_Some, Hf).
  assert (Hk : ∀ e, e ∈ kept ↔ StrongHash e ∈ refs ∧ e ∈ all) by (intros e; unfold kept; by rewrite list_elem_of_filter). split_and!.
  - eapply sublist_NoDup; [apply (fo_nodup _ Hf)|apply fmap_sublist, sublist_filter].
  - apply Forall_forall. intros e [_ He]%Hk. by apply (proj1 (Forall_forall _ _) (fo_storable _ Hf)).
  - rewrite Hsz. apply length_filter.
  - intros h. rewrite list_elem_of_fmap. split.
    + intros (e & -> & [Hr He]%Hk). split; [done|]. exists e. by apply HMe.
    + intros [Hr [e [He Hh]%HMe]]. exists e. split; [done|]. apply Hk. by rewrite Hh.
  - intros e [Hr He]%Hk. split; [by apply HMe|done].
  - intros H0 h [e [He <-]%HMe]. destruct (decide (StrongHash e ∈ refs)) as [?|Hn]; [done|].
    pose proof (length_filter_lt (λ e, StrongHash e ∈ refs) all e He Hn) as Hlt. fold kept in Hlt. lia.
Qed.

(** C4. Prune keeps what is referenced and only that: on a repository whose index finds
    its chunks in the packs, prune succeeds, and the index it leaves answers exactly the
    chunks that were indexed and are referenced (by the manifests or the caller), each at
    a location whose pack, also rewritten, reads back the chunk's data. *)
Theorem prune_keeps_referenced (xxhash : bytes → Z) (bloomBits : Z → Z) (raw : Z) (unmarshal : bytes → option RepoConfig) (parseJSON : bytes → option Dnm.Backup)
    (key : option bytes) (extra : gset bytes) (n1 n2 n3 n4 r1 r2 : bytes) (root manifests : GoFiles.dir) (cfg0 : RepoConfig) (norm : option Normalizer)
    (refs : gset bytes) (c : files) (idir : index_dir) (M : gmap bytes IndexEntry) (data : bytes → bytes) :
  let cfg := Effective cfg0 in
  outside xxhash bloomBits cfg key n1 n2 n3 n4 norm → len r1 < 2 ^ 32 → len r2 < 2 ^ 32 →
  LoadRepoConfig unmarshal root = Ok cfg0 → collectReferencedHashes parseJSON manifests = Ok refs →
  indexed (IndexKeyFor cfg key) idir M → Z.of_nat (size M) < 2 ^ 32 → small_packs c →
  (∀ h e, M !! h = Some e → h ∈ refs ∪ extra → stored_at key c (locOf e) (data h)) →
  ∃ m' c' idir' res d,
    Run xxhash bloomBits raw unmarshal parseJSON (mkPruneOptions false key extra) n1 n2 n3 n4 r1 r2 (mkRepo root manifests (clean c idir)) =
      (mkRepo root m' (clean c' idir'), Ok res) ∧
    NewDedupIndex idir' raw (IndexKeyFor cfg key) = Ok d ∧ serves_only cfg key M (refs ∪ extra) data c' d.
Proof.
  intros cfg Hou Hr1 Hr2 Hcfg Hrefs Hix Hsz Hsm Hat. unfold Run. cbn [po_DryRun andb po_Key po_Extra rp_root rp_manifests rp_layout].
  change (run indexDirEmpty recoverIfNeeded (clean c idir)) with (clean c idir, tt). cbn [withLayout fst rp_root rp_manifests rp_layout]. rewrite Hcfg, Hrefs. fold cfg.
  destruct (analyse_ok cfg raw key c idir M Hix ltac:(lia)) as (all & idir1 & -> & Hf & HM & Hix1). rewrite classify_spec.
  destruct (kept_spec (refs ∪ extra) all M Hf HM) as (Hnd & Hst & Hlen & Hdom & Hkept & Hzero). set (kept := filter _ all) in *.
  rewrite dedupEntries_nodup by (done || set_solver). cbn [ly_chunks clean]. rewrite andb_true_r. destruct (_ =? 0) eqn:H0; zbool.
  - destruct (removeBakFiles manifests) as [m' baks]. destruct (open_indexed false raw _ _ _ Hix1) as (d & Ho & Hl).
    eexists m', c, idir1, _, d. split; [reflexivity|]. split; [done|]. apply (serves_stored _ _ _ _ _ _ _ M); [done|done| |].
    + intros h. split; [|by intros []]. intros Hs. split; [by apply Hzero|done].
    + intros h e He. apply Hat; [done|]. apply Hzero; [done|by exists e].
  - assert (Hco : copyable key c data kept).
    { split; [done|done|lia|]. intros e He. destruct (Hkept e He) as [HMe Hin]. by apply Hat. }
    destruct (compact_ok xxhash bloomBits cfg key n1 n2 n3 n4 norm r1 r2 c idir1 data kept Hou Hco Hr1 Hr2) as (c' & idir' & bf & bs & -> & Hdir & [R1 R2] & Hsm').
    destruct (removeBakFiles manifests) as [m' baks]. destruct (openDedup_rep false idir' raw _ bf bs [] Hdir) as (d & Ho & Hr & _). cbn in Hr.
    eexists m', c', idir', _, d. split; [reflexivity|]. split; [done|]. apply (serves_stored _ _ _ _ _ _ _ (insert_all bs ∅)); [done| |by intros h; rewrite R1, Hdom|done].
    intros h Hb Hz. by apply (Lookup_rep _ _ _ h (dr_index _ _ _ _ _ Hr)).
Qed.
End theorem.

(** Two chunks in a pack, one of them referenced. *)
Definition twoPacks : files := {[packPath 0 := frameOf [1; 2; 3] 3 ++ frameOf [4; 5] 2]}.
Definition twoEntries : list IndexEntry := [mkEntry (example_hash 1) 0 0 3; mkEntry (example_hash 2) 0 11 2].
Definition twoIndex : index_dir := mkDir (Some (Save (NewBloomFilter 640))) None (Some (sortedFile twoEntries)) None [].
Definition configRoot : GoFiles.dir := Some {[configName := []]}.

Lemma two_indexed : indexed (IndexKeyFor (Effective zeroConfig) None) twoIndex (insert_all twoEntries ∅).
Proof.
  split; [|by intros [? ?]]. exists (NewBloomFilter 640), twoEntries, []. split; [|done].
  split; [apply NewBloomFilter_ok; [unfold is_u64|]; lia| |eexists; split; [reflexivity|by split_and!]|constructor].
  split; [by_eval|by_eval| |cbn; lia]. repeat constructor; vm_compute; discriminate.
Qed.

Lemma prune_keeps_referenced_witness :
  ∃ m' c' idir' res d,
    Run (λ _, 5) (λ _, 640) 640 (λ _, Some zeroConfig) (λ _, None) (mkPruneOptions false None {[example_hash 1]}) (zeros 12) (zeros 12) (zeros 12) (zeros 12) [1] [2]
      (mkRepo configRoot None (clean twoPacks twoIndex)) = (mkRepo configRoot m' (clean c' idir'), Ok res) ∧
    NewDedupIndex idir' 640 None = Ok d ∧
    serves_only (Effective zeroConfig) None (insert_all twoEntries ∅) (∅ ∪ {[example_hash 1]}) (λ _, [1; 2; 3]) c' d.
Proof.
  apply (prune_keeps_referenced (λ _, 5) (λ _, 640) 640 (λ _, Some zeroConfig) (λ _, None) None {[example_hash 1]} (zeros 12) (zeros 12) (zeros 12) (zeros 12) [1] [2]
    configRoot None zeroConfig None ∅ twoPacks twoIndex (insert_all twoEntries ∅) (λ _, [1; 2; 3])).
  - split; [intros b; unfold is_u64; lia|intros n; unfold is_u64; lia|reflexivity|reflexivity|done|done].
  - reflexivity.
  - reflexivity.
  - reflexivity.
  - reflexivity.
  - exact two_indexed.
  - vm_compute. reflexivity.
  - assert (H : map_Forall (λ _ f, len f < 2 ^ 63) twoPacks) by by_eval. exact H.
  - intros h e He Hin. rewrite left_id_L in Hin by apply _. apply elem_of_singleton in Hin as ->. vm_compute in He. injection He as <-.
    split; [by_eval|]. exists [1; 2; 3]. split_and!; [by_eval|reflexivity|]. eexists. split; [reflexivity|vm_compute; reflexivity].
Defined.

Section dry.
Context {MR : MapRange} {SS : SortSlice} {PR : Primitives} {ZS : Zstd}.

(** A dry run removes nothing: with a recovery pending it refuses and changes
    nothing at all; otherwise, whatever it reports, configuration, manifests, packs and
    staging are untouched, and the index still answers what it answered. *)
Theorem dry_run_keeps (xxhash : bytes → Z) (bloomBits : Z → Z) (raw : Z) (unmarshal : bytes → option RepoConfig) (parseJSON : bytes → option Dnm.Backup)
    (key : option bytes) (extra : gset bytes) (n1 n2 n3 n4 r1 r2 : bytes) (r : repo) (cfg0 : RepoConfig) (M : gmap bytes IndexEntry) (c : files) (idir : index_dir) :
  let dry := Run xxhash bloomBits raw unmarshal parseJSON (mkPruneOptions true key extra) n1 n2 n3 n4 r1 r2 in
  (pruneRecoveryPending (rp_layout r) = true → dry r = (r, Err PrPending)) ∧
  (LoadRepoConfig unmarshal (rp_root r) = Ok cfg0 → rp_layout r = clean c idir → indexed (IndexKeyFor (Effective cfg0) key) idir M → Z.of_nat (size M) ≤ 2 ^ 35 →
   ∃ idir', (dry r).1 = mkRepo (rp_root r) (rp_manifests r) (clean c idir') ∧ indexed (IndexKeyFor (Effective cfg0) key) idir' M).
Proof.
  intros dry. split.
  - intros Hp. unfold dry, Run. cbn [po_DryRun]. rewrite Hp. done.
  - intros Hcfg Hl Hix Hsz. unfold dry, Run. cbn [po_DryRun po_Key po_Extra]. rewrite Hl. change (pruneRecoveryPending (clean c idir)) with false. cbn [andb].
    assert (Hr : r = mkRepo (rp_root r) (rp_manifests r) (clean c idir)) by (by destruct r as [? ? l]; cbn in Hl; subst l).
    rewrite Hcfg. destruct (collectReferencedHashes parseJSON (rp_manifests r)) as [refs|e]; [|exists idir; split; [exact Hr|exact Hix]].
    destruct (analyse_ok (Effective cfg0) raw key c idir M Hix Hsz) as (all & idir1 & -> & _ & _ & Hix1). exists idir1. split; [|done].
    destruct (classify _ all) as [kept orphans]. by destruct (dedupEntries ∅ kept).
Qed.
End dry.

Lemma dry_run_keeps_witness :
  ∃ idir', (Run (λ _, 5) (λ _, 640) 640 (λ _, Some zeroConfig) (λ _, None) (mkPruneOptions true None ∅) [] [] [] [] [] []
      (mkRepo configRoot None (clean twoPacks twoIndex))).1 = mkRepo configRoot None (clean twoPacks idir') ∧
    indexed None idir' (insert_all twoEntries ∅).
Proof.
  apply (proj2 (dry_run_keeps (λ _, 5) (λ _, 640) 640 (λ _, Some zeroConfig) (λ _, None) None ∅ [] [] [] [] [] [] (mkRepo configRoot None (clean twoPacks twoIndex))
    zeroConfig (insert_all twoEntries ∅) twoPacks twoIndex)); [reflexivity|reflexivity|exact two_indexed|vm_compute; discriminate].
Defined.

(** A dry run writes to the repository: with a delta pending, reading the entries flushes
    the merged index over [hash-index.db]. *)
Theorem dry_run_flushes :
  let r := mkRepo configRoot None (clean ∅ example_dir) in
  let r' := (Run (λ _, 5) (λ _, 640) 640 (λ _, Some zeroConfig) (λ _, None) (mkPruneOptions true None ∅) [] [] [] [] [] [] r).1 in
  ∃ idir, ly_index (rp_layout r') = Some idir ∧ id_index idir ≠ id_index example_dir.
Proof. vm_compute. eexists. split; [reflexivity|discriminate]. Qed.
