(* ===== verification/Segment.v ===== *)
(** * core/checkpoint/segment.go: the segments of a suspended backup

    A backup in progress appends a segment per checkpoint to a file: the sidecar bytes
    and the index inserts since the one before.  A crash can cut the last one anywhere;
    reading stops there, and replaying the rest cut to a checkpoint gives the session
    back. *)

From S2P Require Import Prelude GoBytes GoFiles Hashes.

Record InsertTuple := mkTuple { it_StrongHash : bytes; it_WeakHash : Z; it_PackNumber : Z; it_StoreOffset : Z; it_ChunkLength : Z }.
Record Segment := mkSegment { sg_Seq : Z; sg_EntriesLenAfter : Z; sg_SidecarBytes : bytes; sg_Inserts : list InsertTuple }.

Inductive seg_err := SegShort | SegMagic | SegVersion (v : Z) | SegCRC | SegMissing | SegTruncate (i : Z) (e : seg_err) | SegCover (covered want : Z).

Definition segMagic : bytes := [68; 78; 83; 71].
Definition segVersion : Z := 2.
Definition insertSizeV1 : Z := 32 + 4 + 8 + 4.
Definition insertSize : Z := 32 + 8 + 4 + 8 + 4.
Definition segHeaderSize : Z := 4 + 1 + 4 + 8 + 4 + 4.
Definition segTrailerSize : Z := 4.
Definition insertSizeFor (version : Z) : Z := if version =? 1 then insertSizeV1 else insertSize.

(** ** The codec *)

Definition encodeInsert (t : InsertTuple) : bytes :=
  it_StrongHash t ++ PutUint64 (it_WeakHash t) ++ PutUint32 (it_PackNumber t) ++ PutUint64 (it_StoreOffset t) ++ PutUint32 (it_ChunkLength t).

Definition segHeader (version seq entriesLen scLen insCount : Z) : bytes :=
  segMagic ++ [version] ++ PutUint32 seq ++ PutUint64 (u64 entriesLen) ++ PutUint32 (u32 scLen) ++ PutUint32 (u32 insCount).

Definition withCRC (body : bytes) : bytes := body ++ PutUint32 (ChecksumIEEE body).

Definition MarshalSegment (s : Segment) : bytes :=
  withCRC (segHeader segVersion (sg_Seq s) (sg_EntriesLenAfter s) (len (sg_SidecarBytes s)) (len (sg_Inserts s)) ++
           sg_SidecarBytes s ++ concat (encodeInsert <$> sg_Inserts s)).

(** A tuple of [insertSizeFor version] bytes; the weak hash of version 1 is zero. *)
Definition decodeInsert (version : Z) (b : bytes) : InsertTuple :=
  let p := if 2 <=? version then 40%nat else 32%nat in
  mkTuple (sub b 0 32) (if 2 <=? version then le_get (sub b 32 8) else 0)
    (le_get (sub b p 4)) (le_get (sub b (p + 4) 8)) (le_get (sub b (p + 12) 4)).

Fixpoint decodeInserts (n : nat) (version : Z) (b : bytes) : list InsertTuple :=
  match n with
  | O => []
  | S n => let w := Z.to_nat (insertSizeFor version) in decodeInsert version (take w b) :: decodeInserts n version (drop w b)
  end.

Definition UnmarshalSegment (data : bytes) : result seg_err (Segment * Z) :=
  if len data <? segHeaderSize + segTrailerSize then Err SegShort
  else if negb (bool_decide (sub data 0 4 = segMagic)) then Err SegMagic
  else
    let version := le_get (sub data 4 1) in
    if negb (version =? segVersion) && negb (version =? 1) then Err (SegVersion version)
    else
      let seq := le_get (sub data 5 4) in
      let entriesLen := i64 (le_get (sub data 9 8)) in
      let scLen := le_get (sub data 17 4) in
      let insCount := le_get (sub data 21 4) in
      let total := segHeaderSize + scLen + insCount * insertSizeFor version + segTrailerSize in
      if len data <? total then Err SegShort
      else if negb (ChecksumIEEE (take (Z.to_nat (total - segTrailerSize)) data) =? le_get (sub data (Z.to_nat (total - segTrailerSize)) 4)) then Err SegCRC
      else Ok (mkSegment seq entriesLen (sub data 25 (Z.to_nat scLen))
                 (decodeInserts (Z.to_nat insCount) version (drop (Z.to_nat (25 + scLen)) data)), total).

(** Consecutive segments numbered from [expected]; the first that does not parse ends
    them. *)
Fixpoint parseFrom (fuel : nat) (expected : Z) (data : bytes) : list Segment :=
  match fuel with
  | O => []
  | S fuel =>
      match data with
      | [] => []
      | _ => match UnmarshalSegment data with
             | Err _ => []
             | Ok (s, n) => if negb (sg_Seq s =? u32 expected) then [] else s :: parseFrom fuel (expected + 1) (drop (Z.to_nat n) data)
             end
      end
  end.
Definition ParseSegments (data : bytes) : list Segment := parseFrom (S (length data)) 0 data.

(** ** The file *)

Definition sCheckpoint : bytes := [46; 99; 104; 101; 99; 107; 112; 111; 105; 110; 116].
Definition sSeg : bytes := [46; 115; 101; 103].
Definition CheckpointPath (id : bytes) : name := id ++ sCheckpoint.
Definition SegmentsPath (id : bytes) : name := CheckpointPath id ++ sSeg.

Definition AppendSegmentLocal (d : dir) (id : bytes) (s : Segment) : dir :=
  create d (SegmentsPath id) (default [] (stat d (SegmentsPath id)) ++ MarshalSegment s).
Definition ReadSegmentsLocal (d : dir) (id : bytes) : list Segment :=
  match stat d (SegmentsPath id) with None => [] | Some data => ParseSegments data end.

Fixpoint keepBytes (i : Z) (k : nat) (rest : bytes) : result seg_err Z :=
  match k with
  | O => Ok 0
  | S k => match rest with
           | [] => Ok 0
           | _ => match UnmarshalSegment rest with
                  | Err e => Err (SegTruncate i e)
                  | Ok (_, n) => let! m := keepBytes (i + 1) k (drop (Z.to_nat n) rest) in Ok (n + m)
                  end
           end
  end.
Definition TruncateSegmentsLocal (d : dir) (id : bytes) (keepCount : nat) : dir * option seg_err :=
  match stat d (SegmentsPath id) with
  | None => (d, Some SegMissing)
  | Some data => match keepBytes 0 keepCount data with
                 | Err e => (d, Some e)
                 | Ok n => (create d (SegmentsPath id) (Truncate data n), None)
                 end
  end.
Definition RemoveSegmentsLocal (d : dir) (id : bytes) : dir := remove d (SegmentsPath id).

(** ** Replaying *)

Record ReplayState := mkReplay { SidecarPrefix : bytes; rs_Inserts : list InsertTuple }.

Fixpoint replayLoop (segs : list Segment) (entriesLen covered : Z) (rs : ReplayState) : Z * ReplayState :=
  match segs with
  | [] => (covered, rs)
  | s :: segs =>
      if entriesLen <=? covered then (covered, rs)
      else
        let part := if entriesLen <? covered + len (sg_SidecarBytes s) then take (Z.to_nat (entriesLen - covered)) (sg_SidecarBytes s) else sg_SidecarBytes s in
        replayLoop segs entriesLen (covered + len part) (mkReplay (SidecarPrefix rs ++ part) (rs_Inserts rs ++ sg_Inserts s))
  end.
Definition ReplaySegments (segs : list Segment) (entriesLen : Z) : result seg_err ReplayState :=
  let '(covered, rs) := replayLoop segs entriesLen 0 (mkReplay [] []) in
  if negb (covered =? entriesLen) then Err (SegCover covered entriesLen) else Ok rs.

(** ** The codec inverts *)

Record tuple_ok (t : InsertTuple) : Prop := {
  tk_hash : length (it_StrongHash t) = 32%nat; tk_weak : is_u64 (it_WeakHash t); tk_pack : is_u32 (it_PackNumber t);
  tk_off : is_u64 (it_StoreOffset t); tk_len : is_u32 (it_ChunkLength t) }.
Record segment_ok (s : Segment) : Prop := {
  sk_seq : is_u32 (sg_Seq s); sk_len : is_i64 (sg_EntriesLenAfter s);
  sk_side : len (sg_SidecarBytes s) < 2 ^ 32; sk_count : len (sg_Inserts s) < 2 ^ 32;
  sk_bytes : bytes_ok (sg_SidecarBytes s); sk_hashes : Forall (λ t, bytes_ok (it_StrongHash t)) (sg_Inserts s);
  sk_inserts : Forall tuple_ok (sg_Inserts s) }.

(** The two versions of the format. *)
Definition encodeAt (v : Z) (t : InsertTuple) : bytes :=
  if v =? 1 then it_StrongHash t ++ PutUint32 (it_PackNumber t) ++ PutUint64 (it_StoreOffset t) ++ PutUint32 (it_ChunkLength t) else encodeInsert t.
Definition tupleAt (v : Z) (t : InsertTuple) : InsertTuple :=
  if v =? 1 then mkTuple (it_StrongHash t) 0 (it_PackNumber t) (it_StoreOffset t) (it_ChunkLength t) else t.
Definition segmentBody (v : Z) (s : Segment) : bytes :=
  segHeader v (sg_Seq s) (sg_EntriesLenAfter s) (len (sg_SidecarBytes s)) (len (sg_Inserts s)) ++ sg_SidecarBytes s ++ concat (encodeAt v <$> sg_Inserts s).
Definition segmentBytes (v : Z) (s : Segment) : bytes := withCRC (segmentBody v s).
Definition segmentAt (v : Z) (s : Segment) : Segment := mkSegment (sg_Seq s) (sg_EntriesLenAfter s) (sg_SidecarBytes s) (tupleAt v <$> sg_Inserts s).

Lemma MarshalSegment_bytes s : MarshalSegment s = segmentBytes 2 s.
Proof. reflexivity. Qed.
Lemma segmentAt_2 s : segmentAt 2 s = s.
Proof. destruct s as [q e b ts]. unfold segmentAt. cbn. f_equal. rewrite <- (list_fmap_id ts) at 2. done. Qed.

Lemma length_encodeAt v t : v = 1 ∨ v = 2 → length (it_StrongHash t) = 32%nat → len (encodeAt v t) = insertSizeFor v.
Proof. intros [->| ->] H; unfold encodeAt, encodeInsert; cbn; rewrite !length_app, H; by rewrite ?length_PutUint64, ?length_PutUint32. Qed.

Lemma length_segHeader v q e n m : length (segHeader v q e n m) = 25%nat.
Proof. unfold segHeader. rewrite !length_app, !length_PutUint32, length_PutUint64. done. Qed.

Lemma decode_encodeAt v t : v = 1 ∨ v = 2 → tuple_ok t → decodeInsert v (encodeAt v t) = tupleAt v t.
Proof.
  intros Hv [Hh Hw Hp Ho Hl]. destruct t as [h w p o c]. cbn in *. unfold decodeInsert, encodeAt, encodeInsert, tupleAt.
  destruct Hv as [->| ->]; cbn [Z.eqb Pos.eqb it_StrongHash it_WeakHash it_PackNumber it_StoreOffset it_ChunkLength Nat.add];
    [change (2 <=? 1) with false|change (2 <=? 2) with true]; cbn iota; cbn [Nat.add]; field; by rewrite !le_get_PutUint32, !le_get_PutUint64.
Qed.

Lemma decodeInserts_encode v ts rest : v = 1 ∨ v = 2 → Forall tuple_ok ts →
  decodeInserts (length ts) v (concat (encodeAt v <$> ts) ++ rest) = tupleAt v <$> ts.
Proof.
  intros Hv. induction 1 as [|t ts Ht Hts IH]; [done|]. cbn [length decodeInserts fmap list_fmap concat]. rewrite <- app_assoc.
  pose proof (length_encodeAt v t Hv (tk_hash _ Ht)) as Hl.
  rewrite take_app_exact, drop_app_exact by lia. by rewrite decode_encodeAt, IH by done.
Qed.

Lemma length_inserts v ts : v = 1 ∨ v = 2 → Forall tuple_ok ts → len (concat (encodeAt v <$> ts)) = len ts * insertSizeFor v.
Proof.
  intros Hv. induction 1 as [|t ts Ht Hts IH]; [done|]. cbn [fmap list_fmap concat length]. rewrite length_app.
  pose proof (length_encodeAt v t Hv (tk_hash _ Ht)). lia.
Qed.

Lemma length_segmentBytes v s : v = 1 ∨ v = 2 → segment_ok s →
  len (segmentBody v s) = segHeaderSize + len (sg_SidecarBytes s) + len (sg_Inserts s) * insertSizeFor v ∧
  len (segmentBytes v s) = len (segmentBody v s) + segTrailerSize.
Proof.
  intros Hv Hs. unfold segmentBytes, withCRC, segmentBody. pose proof (length_inserts v _ Hv (sk_inserts _ Hs)) as Hi.
  rewrite !length_app, length_segHeader, length_PutUint32. change segHeaderSize with 25. change segTrailerSize with 4. lia.
Qed.

(** The fields of a header, whatever follows. *)
Lemma segHeader_fields v q e n m rest : 0 ≤ v < 256 → is_u32 q → is_i64 e → is_u32 n → is_u32 m → let data := segHeader v q e n m ++ rest in
  sub data 0 4 = segMagic ∧ le_get (sub data 4 1) = v ∧ le_get (sub data 5 4) = q ∧ i64 (le_get (sub data 9 8)) = e ∧
  le_get (sub data 17 4) = n ∧ le_get (sub data 21 4) = m.
Proof.
  intros Hv Hq He Hn Hm data. unfold data, segHeader. rewrite <- !app_assoc. change (length segMagic) with 4%nat.
  split_and!; field; rewrite ?le_get_PutUint32, ?le_get_PutUint64 by (done || apply u32_range || apply u64_range); rewrite ?(u32_id n), ?(u32_id m) by done; try done.
  - cbn. lia.
  - by apply i64_u64_id.
Qed.

Lemma segmentBytes_ok v s : v = 1 ∨ v = 2 → segment_ok s → bytes_ok (segmentBody v s).
Proof.
  intros Hv Hs. assert (Happ : ∀ a b : bytes, bytes_ok a → bytes_ok b → bytes_ok (a ++ b)) by (intros; by apply Forall_app_2).
  unfold segmentBody, segHeader. repeat apply Happ; auto with bytes; [by_eval| |apply Hs|].
  - constructor; [unfold is_byte; lia|constructor].
  - pose proof (sk_hashes _ Hs) as Hh. induction Hh as [|t ts Ht Hts IH]; [constructor|]. cbn. apply Happ; [|done].
    unfold encodeAt, encodeInsert. destruct (_ =? 1); repeat apply Happ; auto with bytes.
Qed.

Lemma Unmarshal_segmentBytes v s rest : v = 1 ∨ v = 2 → segment_ok s →
  UnmarshalSegment (segmentBytes v s ++ rest) = Ok (segmentAt v s, len (segmentBytes v s)).
Proof.
  intros Hv Hs. destruct (length_segmentBytes v s Hv Hs) as [Hlb Hl]. pose proof Hs as [Hq He Hsd Hcn _ _ Hin].
  set (data := segmentBytes v s ++ rest). assert (Hd : data = segHeader v (sg_Seq s) (sg_EntriesLenAfter s) (len (sg_SidecarBytes s)) (len (sg_Inserts s)) ++
    sg_SidecarBytes s ++ concat (encodeAt v <$> sg_Inserts s) ++ PutUint32 (ChecksumIEEE (segmentBody v s)) ++ rest).
  { unfold data, segmentBytes, withCRC. unfold segmentBody at 1. by rewrite <- !app_assoc. }
  destruct (segHeader_fields v (sg_Seq s) (sg_EntriesLenAfter s) (len (sg_SidecarBytes s)) (len (sg_Inserts s))
    (sg_SidecarBytes s ++ concat (encodeAt v <$> sg_Inserts s) ++ PutUint32 (ChecksumIEEE (segmentBody v s)) ++ rest)) as (F1 & F2 & F3 & F4 & F5 & F6);
    [lia|done|done|unfold is_u32; lia..|].
  rewrite <- Hd in F1, F2, F3, F4, F5, F6. unfold UnmarshalSegment. rewrite F1, F2, F3, F4, F5, F6.
  assert (Hlen : len data = len (segmentBytes v s) + len rest) by (unfold data; rewrite length_app; lia).
  change segHeaderSize with 25 in *. change segTrailerSize with 4 in *.
  assert (Hisz : insertSizeFor v = 48 ∨ insertSizeFor v = 56) by (destruct Hv as [->| ->]; auto).
  rewrite (proj2 (Z.ltb_ge _ _)) by nia. rewrite bool_decide_true by done. cbn [negb].
  replace (negb (v =? segVersion) && negb (v =? 1)) with false by (by destruct Hv as [->| ->]).
  rewrite (proj2 (Z.ltb_ge _ _)) by lia.
  replace (25 + len (sg_SidecarBytes s) + len (sg_Inserts s) * insertSizeFor v + 4 - 4) with (len (segmentBody v s)) by lia. rewrite Nat2Z.id.
  assert (Htk : take (length (segmentBody v s)) data = segmentBody v s).
  { unfold data, segmentBytes, withCRC. rewrite <- app_assoc. by apply take_app_exact. }
  assert (Hcrc : sub data (length (segmentBody v s)) 4 = PutUint32 (ChecksumIEEE (segmentBody v s))).
  { unfold data, segmentBytes, withCRC. rewrite <- app_assoc, sub_app_skip, Nat.sub_diag by lia. by apply sub_app_here. }
  rewrite Htk, Hcrc, le_get_PutUint32 by (apply ChecksumIEEE_u32, segmentBytes_ok; done). rewrite Z.eqb_refl. cbn [negb].
  unfold segmentAt. do 2 f_equal; [|lia]. f_equal.
  - rewrite Hd, sub_app_skip by (rewrite length_segHeader; lia). rewrite length_segHeader, Nat2Z.id. by apply sub_app_here.
  - rewrite Hd, Nat2Z.id. rewrite (app_assoc (segHeader _ _ _ _ _)), drop_app_exact by (rewrite length_app, length_segHeader; lia). by apply decodeInserts_encode.
Qed.

(** ** A cut tail *)

Lemma torn_segment v s t u : v = 1 ∨ v = 2 → segment_ok s → t ++ u = segmentBytes v s → u ≠ [] → UnmarshalSegment t = Err SegShort.
Proof.
  intros Hv Hs Htu Hu. destruct (length_segmentBytes v s Hv Hs) as [Hlb Hl]. pose proof Hs as [Hq He Hsd Hcn _ _ Hin].
  assert (Hlt : len t < len (segmentBytes v s)) by (rewrite <- Htu, length_app; destruct u; [done|cbn; lia]).
  unfold UnmarshalSegment. change segHeaderSize with 25 in *. change segTrailerSize with 4 in *. destruct (len t <? 25 + 4) eqn:H29; [done|]. zbool.
  assert (Ht : t = segHeader v (sg_Seq s) (sg_EntriesLenAfter s) (len (sg_SidecarBytes s)) (len (sg_Inserts s)) ++ drop 25 t).
  { rewrite <- (take_drop 25 t) at 1. f_equal. rewrite <- (take_app_le t u 25) by lia. rewrite Htu. unfold segmentBytes, withCRC, segmentBody.
    rewrite <- !app_assoc. rewrite take_app_exact; [done|by rewrite length_segHeader]. }
  destruct (segHeader_fields v (sg_Seq s) (sg_EntriesLenAfter s) (len (sg_SidecarBytes s)) (len (sg_Inserts s)) (drop 25 t)) as (F1 & F2 & F3 & F4 & F5 & F6);
    [lia|done|done|unfold is_u32; lia..|].
  rewrite <- Ht in F1, F2, F3, F4, F5, F6. rewrite F1, F2, F5, F6, bool_decide_true by done. cbn [negb].
  replace (negb (v =? segVersion) && negb (v =? 1)) with false by (by destruct Hv as [->| ->]). by rewrite (proj2 (Z.ltb_lt _ _)) by lia.
Qed.

(** Segments numbered from [k]. *)
Fixpoint numbered (k : Z) (segs : list Segment) : Prop :=
  match segs with [] => True | s :: segs => sg_Seq s = k ∧ numbered (k + 1) segs end.

Lemma numbered_take l : ∀ k j, numbered j l → numbered j (take k l).
Proof. induction l as [|x l IH]; intros [|k] j Hj; cbn in *; try done. destruct Hj as [? Hj]. split; [done|]. by apply IH. Qed.
Lemma numbered_snoc l x : ∀ j, numbered j l → sg_Seq x = j + len l → numbered j (l ++ [x]).
Proof.
  induction l as [|y l IH]; intros j Hj Hx; cbn in *; [split; [lia|done]|]. destruct Hj as [? Hj]. split; [done|]. apply IH; [done|lia].
Qed.

Definition segFile (segs : list Segment) : bytes := concat (MarshalSegment <$> segs).
(** Nothing that reads as a segment. *)
Definition unreadable (t : bytes) : Prop := t = [] ∨ ∃ e, UnmarshalSegment t = Err e.

Lemma MarshalSegment_long s : segment_ok s → 29 ≤ len (MarshalSegment s).
Proof.
  intros Hs. rewrite MarshalSegment_bytes. destruct (length_segmentBytes 2 s ltac:(by right) Hs) as [H1 H2]. change segHeaderSize with 25 in *.
  change segTrailerSize with 4 in *. change (insertSizeFor 2) with 56 in *. lia.
Qed.

Lemma Unmarshal_Marshal s rest : segment_ok s → UnmarshalSegment (MarshalSegment s ++ rest) = Ok (s, len (MarshalSegment s)).
Proof. intros Hs. rewrite !MarshalSegment_bytes, Unmarshal_segmentBytes by (auto || done). by rewrite segmentAt_2. Qed.

Lemma parseFrom_torn segs t : unreadable t → Forall segment_ok segs → ∀ fuel k, 0 ≤ k → k + len segs < 2 ^ 32 → numbered k segs →
  (length (segFile segs ++ t) < fuel)%nat → parseFrom fuel k (segFile segs ++ t) = segs.
Proof.
  intros Ht Hok. induction Hok as [|s segs Hs Hok IH]; intros fuel k Hk Hn Hnum Hf; (destruct fuel as [|fuel]; [lia|]).
  - cbn [segFile fmap list_fmap concat app parseFrom]. destruct Ht as [->|[e He]]; [done|]. rewrite He. by destruct t.
  - destruct Hnum as [Hq Hnum]. cbn [length] in Hn. pose proof (MarshalSegment_long s Hs) as Hl.
    change (segFile (s :: segs)) with (MarshalSegment s ++ segFile segs) in *. rewrite <- app_assoc in *. cbn [parseFrom].
    rewrite Unmarshal_Marshal by done. rewrite Hq, u32_id, Z.eqb_refl by (unfold is_u32; lia). cbn [negb].
    rewrite Nat2Z.id, drop_app_length. rewrite IH; [|lia|lia|done|rewrite length_app in Hf; lia].
    destruct (MarshalSegment s); [cbn in Hl; lia|done].
Qed.

Lemma ParseSegments_torn segs t : unreadable t → Forall segment_ok segs → len segs < 2 ^ 32 → numbered 0 segs → ParseSegments (segFile segs ++ t) = segs.
Proof. intros Ht Hok Hn Hnum. apply parseFrom_torn; [done|done|lia|lia|done|lia]. Qed.

Lemma keepBytes_segs segs t : Forall segment_ok segs → ∀ k i, (k ≤ length segs)%nat →
  keepBytes i k (segFile segs ++ t) = Ok (len (segFile (take k segs))).
Proof.
  induction 1 as [|s segs Hs Hok IH]; intros [|k] i Hk; [done|cbn in Hk; lia|done|]. cbn [length] in Hk.
  change (segFile (s :: segs)) with (MarshalSegment s ++ segFile segs). cbn [take]. change (segFile (s :: ?l)) with (MarshalSegment s ++ segFile l).
  rewrite <- app_assoc. cbn [keepBytes]. rewrite Unmarshal_Marshal by done. rewrite Nat2Z.id, drop_app_length, IH by lia. cbn [rbind].
  pose proof (MarshalSegment_long s Hs). destruct (MarshalSegment s ++ segFile segs ++ t) eqn:He.
  - apply (f_equal length) in He. rewrite length_app in He. cbn in He. lia.
  - f_equal. rewrite length_app. lia.
Qed.

Lemma segFile_take segs k : segFile segs = segFile (take k segs) ++ segFile (drop k segs).
Proof. unfold segFile. rewrite <- concat_app, <- fmap_app, take_drop. done. Qed.

Lemma segFile_snoc segs s : segFile (segs ++ [s]) = segFile segs ++ MarshalSegment s.
Proof. unfold segFile. rewrite fmap_app, concat_app. cbn [fmap list_fmap concat]. by rewrite app_nil_r. Qed.

Lemma TruncateSegments_keep d id segs t k : stat d (SegmentsPath id) = Some (segFile segs ++ t) → Forall segment_ok segs → (k ≤ length segs)%nat →
  ∃ d', TruncateSegmentsLocal d id k = (d', None) ∧ stat d' (SegmentsPath id) = Some (segFile (take k segs)) ∧
    ∀ n, n ≠ SegmentsPath id → stat d' n = stat d n.
Proof.
  intros Hst Hok Hk. unfold TruncateSegmentsLocal. rewrite Hst, keepBytes_segs by done. eexists. split; [reflexivity|]. split.
  - rewrite stat_create, decide_True by done. f_equal. rewrite (segFile_take segs k), <- app_assoc. unfold Truncate. rewrite Nat2Z.id.
    rewrite take_app_exact by done. rewrite length_app. match goal with |- _ ++ zeros ?n = _ => replace n with 0%nat by lia end. by rewrite app_nil_r.
  - intros n Hn. by rewrite stat_create, decide_False.
Qed.

(** ** Replaying *)

Definition sidecars (segs : list Segment) : bytes := concat (sg_SidecarBytes <$> segs).
Definition inserts (segs : list Segment) : list InsertTuple := concat (sg_Inserts <$> segs).
(** Every insert has its record in the same segment. *)
Definition recorded (s : Segment) : Prop := sg_SidecarBytes s = [] → sg_Inserts s = [].

Lemma replayLoop_all segs : Forall recorded segs → ∀ L covered rs, covered + len (sidecars segs) = L →
  replayLoop segs L covered rs = (L, mkReplay (SidecarPrefix rs ++ sidecars segs) (rs_Inserts rs ++ inserts segs)).
Proof.
  induction 1 as [|s segs Hs Hrec IH]; intros L covered rs HL.
  { cbn in *. rewrite !app_nil_r. destruct rs. f_equal. lia. }
  change (sidecars (s :: segs)) with (sg_SidecarBytes s ++ sidecars segs) in *. change (inserts (s :: segs)) with (sg_Inserts s ++ inserts segs).
  rewrite length_app in HL. cbn [replayLoop]. destruct (L <=? covered) eqn:HLc; zbool.
  - assert (Hnil : sg_SidecarBytes s = [] ∧ sidecars segs = []) by (split; apply nil_length_inv; lia). destruct Hnil as [H1 H2].
    rewrite H1, (Hs H1), H2. assert (Hin : inserts segs = []).
    { clear -Hrec H2. induction Hrec as [|x l Hx Hl IH]; [done|]. change (sidecars (x :: l)) with (sg_SidecarBytes x ++ sidecars l) in H2.
      apply app_eq_nil in H2 as [H1 H2]. change (inserts (x :: l)) with (sg_Inserts x ++ inserts l). by rewrite (Hx H1), IH. }
    rewrite Hin. cbn. rewrite !app_nil_r. destruct rs. f_equal. rewrite H1, H2 in HL. cbn in HL. lia.
  - rewrite (proj2 (Z.ltb_ge _ _)) by lia. rewrite IH by lia. cbn. by rewrite <- !app_assoc.
Qed.

Lemma Replay_all segs : Forall recorded segs → ReplaySegments segs (len (sidecars segs)) = Ok (mkReplay (sidecars segs) (inserts segs)).
Proof. intros Hr. unfold ReplaySegments. rewrite (replayLoop_all segs Hr _ 0) by lia. by rewrite Z.eqb_refl. Qed.

(** Segments survive a crash: a segments file cut anywhere inside the segment that was
    being appended reads back exactly the segments before it, whatever version they are
    read in later; truncating it to [k] of them leaves the file as if only those had been
    written. *)
Theorem segments_survive_cut d id segs s t u k :
  Forall segment_ok segs → segment_ok s → len segs < 2 ^ 32 - 1 → numbered 0 segs → t ++ u = MarshalSegment s → u ≠ [] → (k ≤ length segs)%nat →
  let d0 := create d (SegmentsPath id) (segFile segs ++ t) in
  ReadSegmentsLocal d0 id = segs ∧
  ∃ d1, TruncateSegmentsLocal d0 id k = (d1, None) ∧ ReadSegmentsLocal d1 id = take k segs ∧
    ReadSegmentsLocal (AppendSegmentLocal d1 id (mkSegment (Z.of_nat k) (sg_EntriesLenAfter s) (sg_SidecarBytes s) (sg_Inserts s))) id =
      take k segs ++ [mkSegment (Z.of_nat k) (sg_EntriesLenAfter s) (sg_SidecarBytes s) (sg_Inserts s)].
Proof.
  intros Hok Hs Hn Hnum Htu Hu Hk d0. assert (Hst : stat d0 (SegmentsPath id) = Some (segFile segs ++ t)) by (unfold d0; by rewrite stat_create, decide_True).
  assert (Ht : unreadable t) by (right; exists SegShort; by apply (torn_segment 2 s t u); [right| | |]).
  assert (Hnil : unreadable []) by (by left). split.
  - unfold ReadSegmentsLocal. rewrite Hst. apply ParseSegments_torn; (done || lia).
  - destruct (TruncateSegments_keep d0 id segs t k Hst Hok Hk) as (d1 & Htr & Hst1 & _). exists d1. split; [done|]. unfold ReadSegmentsLocal, AppendSegmentLocal.
    rewrite stat_create, decide_True, Hst1 by done. change (default [] (Some (segFile (take k segs)))) with (segFile (take k segs)). set (s' := mkSegment _ _ _ _).
    assert (Hlk : (length (take k segs) = k)%nat) by (rewrite length_take; lia). pose proof (numbered_take segs k 0 Hnum) as Hnk.
    assert (Hs' : segment_ok s') by (destruct Hs; split; try done; cbn; unfold is_u32; lia).
    assert (Hokk : Forall segment_ok (take k segs ++ [s'])) by (apply Forall_app_2; [by apply Forall_take|by constructor]).
    split.
    + rewrite <- (app_nil_r (segFile (take k segs))). apply ParseSegments_torn; [done|by apply Forall_take|lia|done].
    + rewrite <- segFile_snoc, <- (app_nil_r (segFile (take k segs ++ [s']))).
      apply ParseSegments_torn; [done|done|rewrite length_app, Hlk; cbn; lia|]. apply numbered_snoc; [done|rewrite Hlk; cbn; lia].
Qed.

Definition sampleTuple : InsertTuple := mkTuple (zeros 32) 7 1 2 3.
Definition sampleSegments : list Segment := [mkSegment 0 2 [1; 2] [sampleTuple]; mkSegment 1 3 [3] []].
Definition nextSegment : Segment := mkSegment 2 5 [4; 5] [sampleTuple].

Lemma sampleTuple_ok : tuple_ok sampleTuple.
Proof. split; cbn; unfold is_u64, is_u32; try lia. done. Qed.
Lemma sampleSegments_ok : Forall segment_ok (sampleSegments ++ [nextSegment]).
Proof.
  repeat constructor; cbn; unfold is_u32, is_i64, is_byte; try lia; apply sampleTuple_ok || (apply bytes_ok_zeros) || done.
Qed.

Lemma nextSegment_ok : segment_ok nextSegment.
Proof. pose proof sampleSegments_ok as [_ Hn]%Forall_app. by inversion Hn. Qed.

Lemma segments_survive_cut_witness :
  let d0 := create None (SegmentsPath [97]) (segFile sampleSegments ++ take 40 (MarshalSegment nextSegment)) in
  ReadSegmentsLocal d0 [97] = sampleSegments ∧ ∃ d1, TruncateSegmentsLocal d0 [97] 1 = (d1, None) ∧ ReadSegmentsLocal d1 [97] = take 1 sampleSegments.
Proof.
  pose proof sampleSegments_ok as [Hs _]%Forall_app. pose proof nextSegment_ok as Hn.
  destruct (segments_survive_cut None [97] sampleSegments nextSegment (take 40 (MarshalSegment nextSegment)) (drop 40 (MarshalSegment nextSegment)) 1 Hs Hn)
    as [H1 (d1 & H2 & H3 & _)]; [vm_compute; reflexivity|by split_and!|apply take_drop|vm_compute; discriminate|cbn; lia|].
  split; [exact H1|]. exists d1. split; [exact H2|exact H3].
Defined.

(** A segment round trips in both versions of the format, whatever follows it; a
    version 1 segment comes back without its weak hashes. *)
Theorem segment_roundtrip s rest : segment_ok s →
  UnmarshalSegment (MarshalSegment s ++ rest) = Ok (s, len (MarshalSegment s)) ∧
  UnmarshalSegment (segmentBytes 1 s ++ rest) = Ok (segmentAt 1 s, len (segmentBytes 1 s)).
Proof. intros Hs. split; [by apply Unmarshal_Marshal|apply Unmarshal_segmentBytes; [by left|done]]. Qed.

Lemma segment_roundtrip_witness : UnmarshalSegment (MarshalSegment nextSegment ++ [9]) = Ok (nextSegment, len (MarshalSegment nextSegment)).
Proof. apply (segment_roundtrip nextSegment [9] nextSegment_ok). Defined.

(** A cut tail that is not removed hides what is appended after it. *)
Theorem cut_tail_hides_next :
  let file := segFile sampleSegments ++ take 40 (MarshalSegment nextSegment) in
  ParseSegments (file ++ MarshalSegment nextSegment) = sampleSegments.
Proof. vm_compute. reflexivity. Qed.
