(* ===== verification/Resume.v ===== *)
(** * core/checkpoint/checkpoint.go and core/resume/reconcile.go: resuming a backup

    A checkpoint is a JSON record in an envelope with a checksum, written beside the
    manifests; [Reconcile] prepares a repository to continue from one, by replaying the
    segments when they cover it and belong to the packs on disk, by rebuilding the index
    otherwise.  The JSON codec is an argument. *)

From S2P Require Import Prelude GoBytes GoRuntime GoFiles Hashes HashTable HashBuild HashIndex Bloom Delta Fold Crypto Dedup PackStore Packs Preprocess RepoConfig Rebuild Rebuilt.
From S2P Require Import PruneSwap PruneRefs Prune Segment.

Record Progress := mkProgress {
  LastSealedPack : Z; CheckpointSeq : Z; ResumeOffset : Z; EntriesLen : Z; EntriesCount : Z;
  BoundaryChunkHash : bytes; BoundaryChunkOffset : Z; BoundaryChunkLength : Z;
  pg_TotalChunks : Z; pg_RawBytes : Z; pg_UniqueChunks : Z; pg_DedupChunks : Z; pg_StoredBytes : Z; DigestState : bytes }.

Record Checkpoint := mkCheckpoint {
  ck_Version : Z; ck_Mode : string; ck_BackupID : bytes; ck_Progress : Progress;
  ck_SourceKind : string; ck_SourcePath : string; ck_TotalSize : Z; ck_SourceMTimeUnixNano : Z;
  ck_VSSSnapshotID : string; ck_VSSDevicePath : string; ck_Volume : string;
  ck_ConfigHash : bytes; ck_PacksGeneration : bytes; ck_CatalogHash : bytes;
  ck_BasePackCount : Z; ck_PackLeaseStart : Z; ck_PackLeaseCount : Z; ck_ParentBackupID : bytes; ck_CreatedUnixNano : Z }.

Inductive ckpt_err := CkMissing | CkEnvelope | CkBadCRC | CkBody.

(** ** The checkpoint file *)

Section checkpoint.
Context (marshalBody : Checkpoint → bytes) (unmarshalBody : bytes → option Checkpoint).
Context (marshalEnvelope : bytes → Z → bytes) (unmarshalEnvelope : bytes → option (bytes * Z)).

(** Written under a temporary name in the directory, then renamed. *)
Definition atomicWrite (d : dir) (path tmp : name) (data : bytes) : dir := rename (create d tmp data) tmp path.
Definition sTmpDash : bytes := [46; 116; 109; 112; 45].
Definition WriteCheckpoint (d : dir) (random : bytes) (c : Checkpoint) : dir :=
  let body := marshalBody c in
  let path := CheckpointPath (ck_BackupID c) in
  atomicWrite d path (path ++ sTmpDash ++ random) (marshalEnvelope body (ChecksumIEEE body)).

Definition parseCheckpoint (data : bytes) : result ckpt_err Checkpoint :=
  let! ' (body, crc) := of_option CkEnvelope (unmarshalEnvelope data) in
  if negb (ChecksumIEEE body =? crc) then Err CkBadCRC else of_option CkBody (unmarshalBody body).

Definition LoadCheckpoint (d : dir) (id : bytes) : result ckpt_err Checkpoint :=
  let! data := of_option CkMissing (stat d (CheckpointPath id)) in parseCheckpoint data.

(** The names that end in the suffix, in order; the first that parses. *)
Definition checkpointNames (d : dir) : list name :=
  match d with None => [] | Some fs => filter (λ n, HasSuffix n sCheckpoint = true) (ReadDir fs) end.
Fixpoint firstValid (d : dir) (names : list name) : option Checkpoint :=
  match names with
  | [] => None
  | n :: names => match parseCheckpoint (default [] (stat d n)) with Ok c => Some c | Err _ => firstValid d names end
  end.
Definition FindCheckpoint (d : dir) : option Checkpoint := firstValid d (checkpointNames d).
Definition ExistsCheckpoint (d : dir) : bool := bool_decide (checkpointNames d ≠ []).
Definition RemoveCheckpoint (d : dir) (id : bytes) : dir := remove d (CheckpointPath id).
End checkpoint.

(** ** Identity *)

Record Identity := mkIdentity { ci_SourceKind : string; ci_SourcePath : string; ci_Volume : string; ci_TotalSize : Z;
  ci_SourceMTimeUnixNano : Z; ci_ConfigHash : bytes; ci_CatalogHash : bytes }.
Inductive mismatch := MmKind | MmPath | MmVolume | MmSize | MmConfig | MmMTime | MmCatalog.

(** The reason, [None] for the empty one. *)
Definition VerifyIdentity (c : Checkpoint) (cur : Identity) : option mismatch :=
  if negb (String.eqb (ck_SourceKind c) (ci_SourceKind cur)) then Some MmKind
  else if negb (String.eqb (ck_SourcePath c) (ci_SourcePath cur)) then Some MmPath
  else if negb (String.eqb (ck_Volume c) (ci_Volume cur)) then Some MmVolume
  else if negb (ck_TotalSize c =? ci_TotalSize cur) then Some MmSize
  else if negb (bool_decide (ck_ConfigHash c = ci_ConfigHash cur)) then Some MmConfig
  else if String.eqb (ck_SourceKind c) "input" && negb (ck_SourceMTimeUnixNano c =? ci_SourceMTimeUnixNano cur) then Some MmMTime
  else if String.eqb (ck_Mode c) "file" && negb (bool_decide (ck_CatalogHash c = ci_CatalogHash cur)) then Some MmCatalog
  else None.

(** ** Reconciliation *)

Inductive resume_err :=
| RsRebuild (e : rebuild_err) | RsEntries | RsShort (have want : Z) | RsConfig (e : cfg_err) | RsOpen (e : dedup_err) | RsRead (e : index_err) | RsMissing (i : Z).

Record resume_result := mkResume { StartPack : Z; Preload : list InsertTuple; NextSeq : Z; Rebuilt : bool }.

(** The directories of a repository. *)
Record rdirs := mkDirs { rd_root : dir; rd_manifests : dir; rd_chunks : dir; rd_index : index_dir }.

Definition tryFastPath (manifests chunks : dir) (c : Checkpoint) : dir * option (list InsertTuple) :=
  let id := ck_BackupID c in
  let entriesLen := EntriesLen (ck_Progress c) in
  if negb (bool_decide (PacksGeneration chunks = ck_PacksGeneration c)) then (manifests, None)
  else
    let segs := ReadSegmentsLocal manifests id in
    let keep := Z.to_nat (CheckpointSeq (ck_Progress c) + 1) in
    if bool_decide (segs = []) || (length segs <? keep)%nat then (manifests, None)
    else
      match ReplaySegments (take keep segs) entriesLen with
      | Err _ => (manifests, None)
      | Ok rs =>
          match stat manifests (ManifestRepo.EntriesPath id) with
          | None => (manifests, None)
          | Some onDisk =>
              if (len onDisk <? entriesLen) || negb (bool_decide (take (Z.to_nat entriesLen) onDisk = SidecarPrefix rs)) then (manifests, None)
              else if (keep <? length segs)%nat then
                match TruncateSegmentsLocal manifests id keep with
                | (manifests, Some _) => (manifests, None)
                | (manifests, None) => (manifests, Some (rs_Inserts rs))
                end
              else (manifests, Some (rs_Inserts rs))
          end
      end.

Section reconcile.
Context {MR : MapRange} {SS : SortSlice} {PR : Primitives} {ZS : Zstd}.

(** The first prefix entry that is not excluded and not present. *)
Fixpoint missingFrom (present : gset bytes) (i : Z) (es : list Dnm.Entry) : option Z :=
  match es with
  | [] => None
  | e :: es => if negb (Dnm.IsExcluded e) && negb (bool_decide (Dnm.ChunkHash e ∈ present)) then Some i else missingFrom present (i + 1) es
  end.

(** Reads the index, so flushes what is pending in it, and closes without saving. *)
Definition verifyPrefixPresent (unmarshal : bytes → option RepoConfig) (raw : Z) (r : rdirs) (c : Checkpoint) (key : option bytes) : rdirs * option resume_err :=
  let count := EntriesCount (ck_Progress c) in
  if count <=? 0 then (r, None)
  else match ManifestRepo.ReadEntries (rd_manifests r) (ck_BackupID c) with
       | Err _ => (r, Some RsEntries)
       | Ok es =>
           if len es <? count then (r, Some (RsShort (len es) count))
           else match LoadRepoConfig unmarshal (rd_root r) with
                | Err e => (r, Some (RsConfig e))
                | Ok cfg =>
                    match NewDedupIndexReadOnly (rd_index r) raw (IndexKeyFor cfg key) with
                    | Err e => (r, Some (RsOpen e))
                    | Ok d =>
                        let '(d, all) := ReadAllEntries d in
                        let r := mkDirs (rd_root r) (rd_manifests r) (rd_chunks r) (DCloseDiscard d).2 in
                        match all with
                        | Err e => (r, Some (RsRead e))
                        | Ok all => (r, RsMissing <$> missingFrom (list_to_set (StrongHash <$> all)) 0 (take (Z.to_nat count) es))
                        end
                    end
                end
       end.

Definition Reconcile (xxhash : bytes → Z) (bloomBits : Z → Z) (unmarshal : bytes → option RepoConfig) (raw : Z) (n1 n2 : bytes)
    (r : rdirs) (c : Checkpoint) (key : option bytes) : rdirs * result resume_err resume_result :=
  let nextSeq := u32 (CheckpointSeq (ck_Progress c) + 1) in
  let finish r preload rebuilt :=
    let '(maxPack, found) := MaxPackNum (rd_chunks r) in
    (r, Ok (mkResume (if (found : bool) then u32 (maxPack + 1) else 0) preload nextSeq rebuilt)) in
  match tryFastPath (rd_manifests r) (rd_chunks r) c with
  | (manifests, Some preload) => finish (mkDirs (rd_root r) manifests (rd_chunks r) (rd_index r)) preload false
  | (manifests, None) =>
      let manifests := RemoveSegmentsLocal manifests (ck_BackupID c) in
      match Rebuild xxhash bloomBits unmarshal (mkRebuildOptions true true 0 0) (rd_root r) (rd_chunks r) (rd_index r) key n1 n2 with
      | (idir, Err e) => (mkDirs (rd_root r) manifests (rd_chunks r) idir, Err (RsRebuild e))
      | (idir, Ok _) =>
          match verifyPrefixPresent unmarshal raw (mkDirs (rd_root r) manifests (rd_chunks r) idir) c key with
          | (r, Some e) => (r, Err e)
          | (r, None) => finish r [] true
          end
      end
  end.
End reconcile.

(** ** The fast path *)

(** A suspended backup: [k] of the segments [segs] belong to the checkpoint, the file may
    end in a cut one, and the sidecar may run past the checkpoint. *)
Record suspended (manifests chunks : dir) (c : Checkpoint) (segs : list Segment) (cut later : bytes) (k : nat) : Prop := {
  su_file : stat manifests (SegmentsPath (ck_BackupID c)) = Some (segFile segs ++ cut);
  su_cut : unreadable cut;
  su_segs : Forall segment_ok segs ∧ Forall recorded segs ∧ numbered 0 segs ∧ len segs < 2 ^ 32;
  su_seq : CheckpointSeq (ck_Progress c) + 1 = Z.of_nat k ∧ (0 < k ≤ length segs)%nat;
  su_len : EntriesLen (ck_Progress c) = len (sidecars (take k segs));
  su_sidecar : stat manifests (ManifestRepo.EntriesPath (ck_BackupID c)) = Some (sidecars (take k segs) ++ later);
  su_generation : PacksGeneration chunks = ck_PacksGeneration c }.

Lemma tryFastPath_replays manifests chunks c segs cut later k : suspended manifests chunks c segs cut later k →
  ∃ manifests', tryFastPath manifests chunks c = (manifests', Some (inserts (take k segs))) ∧
    ReadSegmentsLocal manifests' (ck_BackupID c) = take k segs ∧ ∀ n, n ≠ SegmentsPath (ck_BackupID c) → stat manifests' n = stat manifests n.
Proof.
  intros [Hf Hcut (Hok & Hrec & Hnum & Hn) [Hseq Hk] Hlen Hsc Hgen]. unfold tryFastPath. rewrite bool_decide_true by done. cbn [negb].
  assert (Hread : ReadSegmentsLocal manifests (ck_BackupID c) = segs) by (unfold ReadSegmentsLocal; rewrite Hf; by apply ParseSegments_torn).
  rewrite Hread, Hseq, Nat2Z.id. assert (Hkl : length (take k segs) = k) by (rewrite length_take; lia).
  rewrite bool_decide_false by (intros ->; cbn in Hk; lia). cbn [orb]. rewrite (proj2 (Nat.ltb_ge _ _)) by lia.
  rewrite Hlen, Replay_all by (by apply Forall_take). rewrite Hsc, length_app, Nat2Z.id, take_app_length.
  rewrite (proj2 (Z.ltb_ge _ _)) by lia. rewrite bool_decide_true by done. cbn [orb negb SidecarPrefix rs_Inserts]. destruct (Nat.ltb_spec k (length segs)) as [Hlt|Hge].
  - destruct (TruncateSegments_keep manifests _ segs cut k Hf Hok ltac:(lia)) as (d' & -> & Hst & Hoth). exists d'. split_and!; [done| |done].
    unfold ReadSegmentsLocal. rewrite Hst, <- (app_nil_r (segFile _)). apply ParseSegments_torn; [by left|by apply Forall_take|lia|by apply numbered_take].
  - exists manifests. split_and!; [done| |done]. by rewrite Hread, take_ge by lia.
Qed.

Section theorems.
Context {MR : MapRange} {SS : SortSlice} {PR : Primitives} {ZS : Zstd}.

(** C34. Resuming replays the session: for a backup suspended at a checkpoint (segments
    past the checkpoint, a segment cut by the crash and sidecar records past it
    notwithstanding) reconciling changes only the segments file, returns exactly the
    index inserts of the segments the checkpoint covers, continues their numbering, and
    gives a pack number above every pack there is. *)
Theorem resume_replays_session xxhash bloomBits unmarshal raw n1 n2 r c key segs cut later k :
  suspended (rd_manifests r) (rd_chunks r) c segs cut later k → Z.of_nat k < 2 ^ 32 →
  ∃ manifests' start, Reconcile xxhash bloomBits unmarshal raw n1 n2 r c key =
      (mkDirs (rd_root r) manifests' (rd_chunks r) (rd_index r), Ok (mkResume start (inserts (take k segs)) (Z.of_nat k) false)) ∧
    ReadSegmentsLocal manifests' (ck_BackupID c) = take k segs ∧ (∀ n, n ≠ SegmentsPath (ck_BackupID c) → stat manifests' n = stat (rd_manifests r) n) ∧
    (∀ fs n p, rd_chunks r = Some fs → is_Some (fs !! n) → parsePackFileName n = Some p → findLatestPack fs < 2 ^ 32 - 1 → p < start).
Proof.
  intros Hsu Hk. destruct (tryFastPath_replays _ _ _ _ _ _ _ Hsu) as (m' & Hfast & Hread & Hoth). destruct Hsu as [_ _ _ [Hseq _] _ _ _].
  unfold Reconcile. rewrite Hfast, Hseq, u32_id by (unfold is_u32; lia). cbn [rd_chunks]. destruct (MaxPackNum (rd_chunks r)) as [mx found] eqn:Hm.
  eexists m', _. split; [reflexivity|]. split_and!; [done|done|]. intros fs n p Hfs Hn Hp Hlat. rewrite Hfs in Hm.
  pose proof (PackCache.MaxPackNum_spec fs) as Hspec. rewrite Hm in Hspec. destruct Hspec as [S1 S2].
  assert (Hfd : found = true) by (apply S1; exists n; split; [done|by rewrite Hp]). rewrite Hfd. destruct (S2 Hfd) as [(n' & Hn' & Hp') Hmax].
  pose proof (findLatestPack_max fs n' mx Hn' Hp') as Hle. specialize (Hmax n p Hn Hp). assert (0 ≤ p).
  { unfold parsePackFileName in Hp. destruct (negb _); [done|]. apply ParseUint32_range in Hp. unfold is_u32 in Hp. lia. }
  rewrite u32_id by (unfold is_u32; lia). lia.
Qed.
End theorems.

(** ** The slow path *)

Lemma segments_ne_entries id id' : SegmentsPath id ≠ ManifestRepo.EntriesPath id'.
Proof. intros H. apply (f_equal last) in H. unfold SegmentsPath, ManifestRepo.EntriesPath in H. rewrite !last_app in H. vm_compute in H. done. Qed.

Section rebuild.
Context {MR : MapRange} {SS : SortSlice} {PR : Primitives} {ZS : Zstd}.

Lemma missingFrom_None present es : ∀ i, missingFrom present i es = None ↔ ∀ e, e ∈ es → Dnm.IsExcluded e = false → Dnm.ChunkHash e ∈ present.
Proof.
  induction es as [|e es IH]; intros i; cbn [missingFrom].
  { split; [|done]. intros _ e He. by apply elem_of_nil in He. }
  destruct (Dnm.IsExcluded e) eqn:Hx; cbn [negb andb].
  { rewrite IH. setoid_rewrite elem_of_cons. naive_solver congruence. }
  case_bool_decide as Hin; cbn [negb]; [rewrite IH; setoid_rewrite elem_of_cons; naive_solver|]. split; [done|]. intros H. destruct Hin. by apply H; [left|].
Qed.

Lemma scanned_hashes norm cs h : is_Some (insert_all (chunkEntry norm <$> cs) ∅ !! h) ↔ ∃ c, c ∈ cs ∧ strongOf norm c.2 = h.
Proof.
  split.
  - intros [e He]. rewrite insert_all_lookup_last in He. destruct (last _) as [x|] eqn:Hl; [|done]. apply last_Some_elem_of, list_elem_of_filter in Hl as [Hh Hin].
    apply list_elem_of_fmap in Hin as (c & -> & Hc). by exists c.
  - intros (c & Hc & <-). destruct (insert_all_chunk norm cs c Hc) as (c' & _ & _ & ->). by eexists.
Qed.

Lemma ReadAllEntries_rep d D M ids cap : dedup_rep d D M ids cap → Z.of_nat (size M) ≤ 2 ^ 35 →
  ∃ d' all, ReadAllEntries d = (d', Ok all) ∧ ∀ h, h ∈ (list_to_set (StrongHash <$> all) : gset bytes) ↔ is_Some (M !! h).
Proof.
  intros Hr Hsz. destruct (Flush_rep _ _ _ (dr_index _ _ _ _ _ Hr) Hsz) as (i1 & Hfl & Hr1 & _ & Hcl).
  destruct (ReadAll_clean _ _ _ Hr1 Hcl) as (all & Hall & Hf & HA & _). unfold ReadAllEntries. rewrite Hfl, Hall. eexists _, all. split; [reflexivity|].
  intros h. rewrite elem_of_list_to_set, list_elem_of_fmap. rewrite <- HA. split.
  - intros (e & -> & He). exists e. apply insert_all_Some; [apply Hf|done].
  - intros [e He]. apply insert_all_Some in He as [He Hh]; [|apply Hf]. by exists e.
Qed.

(** Resuming without segments checks the packs: when the packs were renumbered since
    the checkpoint, the segments are dropped, the index is rebuilt from the packs, and the
    resume is accepted exactly when every chunk of the checkpoint's prefix (zero extents
    aside) is in one of them. *)
Theorem resume_rebuild_exact xxhash bloomBits unmarshal raw n1 n2 r c key norm fs frames es :
  PacksGeneration (rd_chunks r) ≠ ck_PacksGeneration c → rd_chunks r = Some fs → listPackFiles fs ≠ [] →
  rebuildable unmarshal (rd_root r) norm (rd_index r) key → rebuild_pre xxhash bloomBits key (rd_index r) norm fs frames n1 n2 [] →
  ManifestRepo.ReadEntries (rd_manifests r) (ck_BackupID c) = Ok es → 0 < EntriesCount (ck_Progress c) ≤ len es →
  let '(r', res) := Reconcile xxhash bloomBits unmarshal raw n1 n2 r c key in
  ReadSegmentsLocal (rd_manifests r') (ck_BackupID c) = [] ∧ rd_chunks r' = rd_chunks r ∧
  ((∃ start, res = Ok (mkResume start [] (u32 (CheckpointSeq (ck_Progress c) + 1)) true)) ↔
   ∀ e, e ∈ take (Z.to_nat (EntriesCount (ck_Progress c))) es → Dnm.IsExcluded e = false →
     ∃ x, x ∈ scanned frames (listPackFiles fs) ∧ strongOf norm x.2 = Dnm.ChunkHash e).
Proof.
  intros Hgen Hch Hpk Hrb Hpre Hes Hcnt. unfold Reconcile, tryFastPath. rewrite bool_decide_false by done. cbn [negb].
  pose proof (rebuildPrepare_ok unmarshal (rd_root r) norm (rd_index r) key fs Hrb Hpk) as Hprep. rewrite <- Hch in Hprep.
  destruct (Rebuild_spec xxhash bloomBits unmarshal 0 0 (rd_root r) (rd_chunks r) (rd_index r) key n1 n2 norm fs frames [] Hprep Hpre) as (idir & bf & bs & Hreb & Hdir & HM & _).
  unfold both in Hreb. rewrite Hreb. destruct (rb_config _ _ _ _ _ Hrb) as (cfg & Hcfg & Hmode & _).
  assert (Hik : IndexKeyFor cfg key = key) by (unfold IndexKeyFor; apply String.eqb_neq in Hmode; by rewrite Hmode).
  assert (Hrm : ManifestRepo.ReadEntries (RemoveSegmentsLocal (rd_manifests r) (ck_BackupID c)) (ck_BackupID c) = Ok es).
  { unfold ManifestRepo.ReadEntries, RemoveSegmentsLocal in *. by rewrite stat_remove, decide_False by apply segments_ne_entries. }
  unfold verifyPrefixPresent. cbn [rd_manifests rd_root rd_index rd_chunks]. rewrite (proj2 (Z.leb_gt _ _)) by lia. rewrite Hrm, (proj2 (Z.ltb_ge _ _)) by lia.
  rewrite Hcfg, Hik. destruct (openDedup_rep true idir raw key bf bs [] Hdir) as (d & Ho & Hr & _). cbn in Hr. unfold NewDedupIndexReadOnly. rewrite Ho, HM in *.
  destruct (ReadAllEntries_rep _ _ _ _ _ Hr) as (d' & all & -> & Hall).
  { pose proof (size_insert_all_le (chunkEntry norm <$> scanned frames (listPackFiles fs)) ∅) as Hle. rewrite length_fmap, map_size_empty in Hle.
    pose proof (rp_size _ _ _ _ _ _ _ _ _ _ Hpre). lia. }
  pose proof (missingFrom_None (list_to_set (StrongHash <$> all)) (take (Z.to_nat (EntriesCount (ck_Progress c))) es) 0) as Hmiss.
  setoid_rewrite Hall in Hmiss. setoid_rewrite scanned_hashes in Hmiss.
  assert (Hseg : ReadSegmentsLocal (RemoveSegmentsLocal (rd_manifests r) (ck_BackupID c)) (ck_BackupID c) = []).
  { unfold ReadSegmentsLocal, RemoveSegmentsLocal. by rewrite stat_remove, decide_True. }
  destruct (missingFrom _ _ _) as [i|]; cbn [fmap option_fmap option_map rd_chunks].
  - cbn [rd_manifests rd_chunks]. split; [done|]. split; [done|]. split; [by intros []|]. intros H. by apply Hmiss in H.
  - destruct (MaxPackNum (rd_chunks r)) as [mx found]. cbn [rd_manifests rd_chunks]. split; [done|]. split; [done|]. split; [intros _; by apply Hmiss|]. intros _. by eexists.
Qed.
End rebuild.

(** ** Witnesses *)

Definition sampleProgress (seq entriesLen count : Z) : Progress := mkProgress 0 seq 0 entriesLen count [] 0 0 0 0 0 0 0 [].
Definition sampleCheckpoint (seq entriesLen count : Z) (generation : bytes) : Checkpoint :=
  mkCheckpoint 1 "volume" [97] (sampleProgress seq entriesLen count) "input" "disk.img" 100 0 "" "" "" [] generation [] 0 0 0 [] 0.

(** Three segments and a cut one; the checkpoint covers two. *)
Definition suspendedDir : dir :=
  create (create None (SegmentsPath [97]) (segFile (sampleSegments ++ [nextSegment]) ++ take 30 (MarshalSegment nextSegment)))
    (ManifestRepo.EntriesPath [97]) [1; 2; 3; 4].
Definition suspendedRepo : rdirs := mkDirs None suspendedDir (Some {[packPath 6 := []]}) (mkDir None None None None []).

Lemma sample_suspended : suspended suspendedDir (rd_chunks suspendedRepo) (sampleCheckpoint 1 3 0 []) (sampleSegments ++ [nextSegment]) (take 30 (MarshalSegment nextSegment)) [4] 2.
Proof.
  split; [vm_compute; reflexivity| | |cbn; lia|reflexivity|vm_compute; reflexivity|reflexivity].
  - right. exists SegShort. apply (torn_segment 2 nextSegment _ (drop 30 (MarshalSegment nextSegment))); [by right|apply nextSegment_ok|apply take_drop|vm_compute; discriminate].
  - split_and!; [apply sampleSegments_ok| |by vm_compute|vm_compute; reflexivity]. by repeat constructor.
Qed.

Lemma resume_replays_session_witness :
  ∃ manifests' start, Reconcile (λ _, 0) (λ _, 0) (λ _, None) 0 [] [] suspendedRepo (sampleCheckpoint 1 3 0 []) None =
      (mkDirs None manifests' (rd_chunks suspendedRepo) (rd_index suspendedRepo), Ok (mkResume start [sampleTuple] 2 false)) ∧
    ReadSegmentsLocal manifests' [97] = sampleSegments.
Proof.
  destruct (resume_replays_session (λ _, 0) (λ _, 0) (λ _, None) 0 [] [] suspendedRepo (sampleCheckpoint 1 3 0 []) None _ _ _ _ sample_suspended ltac:(lia))
    as (m' & start & H1 & H2 & _). exists m', start. split; [exact H1|exact H2].
Defined.

Definition onePackFrames (n : name) : list (bytes * bytes) := if decide (n = packPath 0) then [([1; 2; 3], [1; 2; 3])] else [].
Definition onePackFiles : files := {[packPath 0 := frameOf [1; 2; 3] 3]}.
Definition prefixEntry : Dnm.Entry := Dnm.mkEntry 0 (Sum256 [1; 2; 3]) 3 false.
Definition prunedRepo : rdirs := mkDirs sampleRoot (ManifestRepo.WriteEntries None [97] [prefixEntry]) (Some onePackFiles) freshIndex.

Lemma pruned_pre : rebuild_pre (λ _, 5) (λ _, 640) None freshIndex None onePackFiles onePackFrames (zeros 12) (zeros 12) [].
Proof.
  assert (Hl : listPackFiles onePackFiles = [packPath 0]) by (vm_compute; reflexivity).
  split; [| | |intros n; unfold is_u64; lia|exact I|split; reflexivity|split; [intros _; split; reflexivity|apply Forall2_nil_2]].
  - rewrite Hl. intros n ->%list_elem_of_singleton. split; [by eexists|]. split; [repeat constructor; vm_compute; reflexivity|]. exists []. by split.
  - rewrite Hl. constructor; [|constructor]. split; [by_eval|]. vm_compute. discriminate.
  - rewrite Hl. vm_compute. discriminate.
Qed.

Lemma resume_rebuild_exact_witness :
  let '(r', res) := Reconcile (λ _, 5) (λ _, 640) (λ _, Some zeroConfig) 640 (zeros 12) (zeros 12) prunedRepo (sampleCheckpoint 1 3 1 [7]) None in
  ReadSegmentsLocal (rd_manifests r') [97] = [] ∧ rd_chunks r' = rd_chunks prunedRepo ∧
  ((∃ start, res = Ok (mkResume start [] 2 true)) ↔
   ∀ e, e ∈ [prefixEntry] → Dnm.IsExcluded e = false → ∃ x, x ∈ scanned onePackFrames (listPackFiles onePackFiles) ∧ strongOf None x.2 = Dnm.ChunkHash e).
Proof.
  apply (resume_rebuild_exact (λ _, 5) (λ _, 640) (λ _, Some zeroConfig) 640 (zeros 12) (zeros 12) prunedRepo (sampleCheckpoint 1 3 1 [7]) None None onePackFiles onePackFrames [prefixEntry]).
  - vm_compute. discriminate.
  - reflexivity.
  - vm_compute. discriminate.
  - split; [exists zeroConfig; split_and!; [reflexivity|done|reflexivity]|done|reflexivity].
  - exact pruned_pre.
  - vm_compute. reflexivity.
  - cbn. lia.
Defined.

(** ** Checkpoints *)

Section ckpt.
Context (marshalBody : Checkpoint → bytes) (unmarshalBody : bytes → option Checkpoint).
Context (marshalEnvelope : bytes → Z → bytes) (unmarshalEnvelope : bytes → option (bytes * Z)).

Lemma tmp_ne_checkpoint id random id' : Forall (λ x, 48 ≤ x ≤ 57) random → CheckpointPath id ++ sTmpDash ++ random ≠ CheckpointPath id'.
Proof.
  intros Hd H. apply (f_equal last) in H. unfold CheckpointPath in H. rewrite !last_app in H. change (last sCheckpoint) with (Some 116) in H. change (last sTmpDash) with (Some 45) in H.
  destruct (last random) as [x|] eqn:Hl; [|done]. apply last_Some_elem_of in Hl. rewrite Forall_forall in Hd. specialize (Hd x Hl). injection H as ->. lia.
Qed.

Lemma CheckpointPath_inj id id' : CheckpointPath id = CheckpointPath id' → id = id'.
Proof. apply app_inj_2. done. Qed.

Lemma stat_WriteCheckpoint d random c n : Forall (λ x, 48 ≤ x ≤ 57) random → n ≠ CheckpointPath (ck_BackupID c) ++ sTmpDash ++ random →
  stat (WriteCheckpoint marshalBody marshalEnvelope d random c) n =
    if decide (n = CheckpointPath (ck_BackupID c)) then Some (marshalEnvelope (marshalBody c) (ChecksumIEEE (marshalBody c))) else stat d n.
Proof.
  intros Hd Hn. unfold WriteCheckpoint, atomicWrite. rewrite stat_rename, !stat_create, decide_True by done.
  destruct (decide (n = CheckpointPath (ck_BackupID c))) as [->|Hne]; [by rewrite decide_True|]. rewrite !decide_False by congruence. done.
Qed.

(** A written checkpoint loads back, and is the one found when no other file parses;
    other checkpoints load as before; one whose bytes do not match their checksum never
    loads. *)
Theorem checkpoint_write_load d random c :
  Forall (λ x, 48 ≤ x ≤ 57) random → unmarshalBody (marshalBody c) = Some c →
  unmarshalEnvelope (marshalEnvelope (marshalBody c) (ChecksumIEEE (marshalBody c))) = Some (marshalBody c, ChecksumIEEE (marshalBody c)) →
  let d' := WriteCheckpoint marshalBody marshalEnvelope d random c in
  LoadCheckpoint unmarshalBody unmarshalEnvelope d' (ck_BackupID c) = Ok c ∧
  (∀ id, id ≠ ck_BackupID c → LoadCheckpoint unmarshalBody unmarshalEnvelope d' id = LoadCheckpoint unmarshalBody unmarshalEnvelope d id) ∧
  ((∀ n data, stat d n = Some data → HasSuffix n sCheckpoint = true → n ≠ CheckpointPath (ck_BackupID c) →
      ∃ e, parseCheckpoint unmarshalBody unmarshalEnvelope data = Err e) →
   FindCheckpoint unmarshalBody unmarshalEnvelope d' = Some c) ∧
  (∀ data body crc, unmarshalEnvelope data = Some (body, crc) → ChecksumIEEE body ≠ crc → parseCheckpoint unmarshalBody unmarshalEnvelope data = Err CkBadCRC).
Proof.
  intros Hd Hb He d'. pose proof (tmp_ne_checkpoint (ck_BackupID c) random) as Hne.
  assert (Hst : ∀ id, stat d' (CheckpointPath id) = if decide (id = ck_BackupID c) then Some (marshalEnvelope (marshalBody c) (ChecksumIEEE (marshalBody c))) else stat d (CheckpointPath id)).
  { intros id. unfold d'. rewrite stat_WriteCheckpoint by (done || (intros H; by apply (Hne id Hd))). destruct (decide (id = ck_BackupID c)) as [->|Hi]; [by rewrite decide_True|].
    rewrite decide_False; [done|]. intros H. by apply CheckpointPath_inj in H. }
  assert (Hparse : parseCheckpoint unmarshalBody unmarshalEnvelope (marshalEnvelope (marshalBody c) (ChecksumIEEE (marshalBody c))) = Ok c).
  { unfold parseCheckpoint. rewrite He. cbn [of_option rbind]. rewrite Z.eqb_refl. cbn [negb]. by rewrite Hb. }
  split_and!.
  - unfold LoadCheckpoint. by rewrite Hst, decide_True.
  - intros id Hi. unfold LoadCheckpoint. by rewrite Hst, decide_False.
  - intros Hoth. unfold FindCheckpoint. destruct d' as [fs|] eqn:Hd'; [|specialize (Hst (ck_BackupID c)); rewrite decide_True in Hst by done; done].
    cbn [checkpointNames]. set (names := filter _ (ReadDir fs)). assert (Hin : CheckpointPath (ck_BackupID c) ∈ names).
    { apply list_elem_of_filter. split; [apply HasSuffix_app|]. apply elem_of_ReadDir. specialize (Hst (ck_BackupID c)). rewrite decide_True in Hst by done. by eexists. }
    assert (Hall : ∀ n, n ∈ names → n ≠ CheckpointPath (ck_BackupID c) → ∃ e, parseCheckpoint unmarshalBody unmarshalEnvelope (default [] (stat (Some fs) n)) = Err e).
    { intros n [Hs Hn]%list_elem_of_filter Hnc. apply elem_of_ReadDir in Hn as [data Hn]. apply (Hoth n); [|done|done].
      assert (Hnt : n ≠ CheckpointPath (ck_BackupID c) ++ sTmpDash ++ random).
      { intros ->. unfold HasSuffix in Hs. apply bool_decide_eq_true in Hs as [id' Hs]. by apply (Hne id' Hd). }
      pose proof (stat_WriteCheckpoint d random c n Hd Hnt) as Hw. fold d' in Hw. rewrite Hd', decide_False in Hw by done. rewrite <- Hw. unfold stat. cbn. by rewrite Hn. }
    clearbody names. induction names as [|n names IH]; [by apply elem_of_nil in Hin|]. cbn [firstValid]. destruct (decide (n = CheckpointPath (ck_BackupID c))) as [->|Hn].
    + rewrite Hst, decide_True by done. cbn [default from_option]. unfold id. by rewrite Hparse.
    + destruct (Hall n ltac:(left) Hn) as [e ->]. apply IH; [apply elem_of_cons in Hin as [Heq|?]; [by destruct Hn|done]|]. intros m Hm. apply Hall. by right.
  - intros data body crc Hu Hc. unfold parseCheckpoint. rewrite Hu. cbn [of_option rbind]. by rewrite (proj2 (Z.eqb_neq _ _)).
Qed.
End ckpt.

Lemma checkpoint_write_load_witness :
  let c := sampleCheckpoint 1 3 0 [] in
  let d' := WriteCheckpoint (λ _, [7]) (λ b crc, PutUint32 crc ++ b) None [49] c in
  LoadCheckpoint (λ _, Some c) (λ data, Some (drop 4 data, le_get (take 4 data))) d' [97] = Ok c.
Proof.
  apply (checkpoint_write_load (λ _, [7]) (λ _, Some (sampleCheckpoint 1 3 0 [])) (λ b crc, PutUint32 crc ++ b) (λ data, Some (drop 4 data, le_get (take 4 data)))
    None [49] (sampleCheckpoint 1 3 0 [])); [by_eval|reflexivity|].
  vm_compute. reflexivity.
Defined.

(** A resume leaves the cut tail of the segments file in place, so the segments the
    resumed backup appends are never read again. *)
Theorem resume_keeps_cut_tail :
  let d := create (create None (SegmentsPath [97]) (segFile sampleSegments ++ take 30 (MarshalSegment nextSegment))) (ManifestRepo.EntriesPath [97]) [1; 2; 3] in
  let '(r, res) := Reconcile (λ _, 0) (λ _, 0) (λ _, None) 0 [] [] (mkDirs None d None freshIndex) (sampleCheckpoint 1 3 0 []) None in
  (∃ start, res = Ok (mkResume start [sampleTuple] (sg_Seq nextSegment) false)) ∧
  ReadSegmentsLocal (AppendSegmentLocal (rd_manifests r) [97] nextSegment) [97] = sampleSegments.
Proof. vm_compute. split; [by eexists|reflexivity]. Qed.

(** After a rebuild the segments file starts over, but its numbering continues: what the
    resumed backup appends to it is not read either. *)
Theorem segments_after_rebuild_unread :
  let '(r, res) := Reconcile (λ _, 5) (λ _, 640) (λ _, Some zeroConfig) 640 (zeros 12) (zeros 12) prunedRepo (sampleCheckpoint 1 3 1 [7]) None in
  (∃ start, res = Ok (mkResume start [] (sg_Seq nextSegment) true)) ∧
  ReadSegmentsLocal (AppendSegmentLocal (rd_manifests r) [97] nextSegment) [97] = [].
Proof. vm_compute. split; [by eexists|reflexivity]. Qed.
