(* ===== verification/Sequencer.v ===== *)
(** * core/pipeline/pipeline.go: the goroutines of a backup

    [run] connects a chunker, a pool of hash workers, a sequencer and the store loop by
    channels of 64 elements.  Here each goroutine is a state, and [step] has one
    constructor per action it can take: a send or receive that its channel allows, a
    branch of a [select], the end of its loop.  Chunks and what a worker makes of them
    are parameters.  A cancellation may come at any time; when both branches of a
    [select] are ready either may be taken.

    [container/heap] gives back the least element; the numbers are distinct, so the heap
    is kept as the ascending list of its elements. *)

From S2P Require Import Prelude.

Definition chanCap : nat := 64.

(** [p.cfg.HashWorkers], or all processors but one. *)
Definition numWorkers (hashWorkers numCPU : Z) : nat :=
  Z.to_nat (if hashWorkers <=? 0 then (if 1 <? numCPU then numCPU - 1 else 1) else hashWorkers).

Section goroutines.
Context {C P : Type}.

(** A worker waits for a chunk, has a prepared chunk to send, or has returned. *)
Inductive worker := Idle | Holding (x : nat * P) | Gone.
(** The chunker runs, or has returned: at the end of what the source gives (the end or a
    read error), or cancelled. *)
Inductive chunker_state := Chunking | ChunkerDone | ChunkerCancelled.
(** The sequencer reads [preparedCh], drains its heap, or has returned. *)
Inductive sequencer_state := Receiving | Draining | SeqDone.

Record goroutines := mkG {
  g_chunker : chunker_state;
  g_todo : list (nat * C);                     (* chunks not sent yet *)
  g_chunkCh : list (nat * C);
  g_workers : list worker;
  g_preparedCh : list (nat * P); g_preparedOpen : bool;
  g_sequencer : sequencer_state; g_heap : list (nat * P); g_nextSeq : nat;
  g_orderedCh : list (nat * P);
  g_stored : list (nat * P);                   (* what the store loop has received *)
  g_storing : bool;
  g_cancelled : bool; g_workerErr : bool }.

(** [heap.Push]. *)
Fixpoint heapPush (x : nat * P) (h : list (nat * P)) : list (nat * P) :=
  match h with
  | [] => [x]
  | y :: h' => if (x.1 <=? y.1)%nat then x :: h else y :: heapPush x h'
  end.

(** Whether the least element is the next one to emit. *)
Definition topIs (next : nat) (h : list (nat * P)) : bool := match h with y :: _ => (y.1 =? next)%nat | [] => false end.

Fixpoint numberFrom {A} (n : nat) (l : list A) : list (nat * A) :=
  match l with [] => [] | x :: l => (n, x) :: numberFrom (S n) l end.

Definition start (workers : nat) (chunks : list C) : goroutines :=
  mkG Chunking (numberFrom 0 chunks) [] (replicate workers Idle) [] true Receiving [] 0 [] [] true false false.

Context (prep : nat → C → option P).

Inductive step : goroutines → goroutines → Prop :=
(* the chunker *)
| ChunkSend x todo ch ws pc po sq h n oc st so cn we : (length ch < chanCap)%nat →
    step (mkG Chunking (x :: todo) ch ws pc po sq h n oc st so cn we)
         (mkG Chunking todo (ch ++ [x]) ws pc po sq h n oc st so cn we)
| ChunkEnd ch ws pc po sq h n oc st so cn we :
    step (mkG Chunking [] ch ws pc po sq h n oc st so cn we)
         (mkG ChunkerDone [] ch ws pc po sq h n oc st so cn we)
| ChunkCancel todo ch ws pc po sq h n oc st so we :
    step (mkG Chunking todo ch ws pc po sq h n oc st so true we)
         (mkG ChunkerCancelled todo ch ws pc po sq h n oc st so true we)
(* the workers *)
| WorkerTake i k c p ck todo ch ws pc po sq h n oc st so cn we : ws !! i = Some Idle → prep k c = Some p →
    step (mkG ck todo ((k, c) :: ch) ws pc po sq h n oc st so cn we)
         (mkG ck todo ch (<[i := Holding (k, p)]> ws) pc po sq h n oc st so cn we)
| WorkerFail i k c ck todo ch ws pc po sq h n oc st so cn we : ws !! i = Some Idle → prep k c = None →
    step (mkG ck todo ((k, c) :: ch) ws pc po sq h n oc st so cn we)
         (mkG ck todo ch (<[i := Gone]> ws) pc po sq h n oc st so true true)
| WorkerEnd i ck todo ws pc po sq h n oc st so cn we : ws !! i = Some Idle → ck ≠ Chunking →
    step (mkG ck todo [] ws pc po sq h n oc st so cn we)
         (mkG ck todo [] (<[i := Gone]> ws) pc po sq h n oc st so cn we)
| WorkerSend i x ck todo ch ws pc po sq h n oc st so cn we : ws !! i = Some (Holding x) → (length pc < chanCap)%nat →
    step (mkG ck todo ch ws pc po sq h n oc st so cn we)
         (mkG ck todo ch (<[i := Idle]> ws) (pc ++ [x]) po sq h n oc st so cn we)
| WorkerDrop i x ck todo ch ws pc po sq h n oc st so we : ws !! i = Some (Holding x) →
    step (mkG ck todo ch ws pc po sq h n oc st so true we)
         (mkG ck todo ch (<[i := Gone]> ws) pc po sq h n oc st so true we)
| ClosePrepared ck todo ch ws pc sq h n oc st so cn we : Forall (λ w, w = Gone) ws →
    step (mkG ck todo ch ws pc true sq h n oc st so cn we)
         (mkG ck todo ch ws pc false sq h n oc st so cn we)
(* the sequencer *)
| SeqPush x ck todo ch ws pc po h n oc st so cn we : topIs n h = false →
    step (mkG ck todo ch ws (x :: pc) po Receiving h n oc st so cn we)
         (mkG ck todo ch ws pc po Receiving (heapPush x h) n oc st so cn we)
| SeqEmit x ck todo ch ws pc po h n oc st so cn we : topIs n (x :: h) = true → (length oc < chanCap)%nat →
    step (mkG ck todo ch ws pc po Receiving (x :: h) n oc st so cn we)
         (mkG ck todo ch ws pc po Receiving h (S n) (oc ++ [x]) st so cn we)
| SeqCancel ck todo ch ws pc po h n oc st so we : topIs n h = true →
    step (mkG ck todo ch ws pc po Receiving h n oc st so true we)
         (mkG ck todo ch ws pc po SeqDone h n oc st so true we)
| SeqDrain ck todo ch ws h n oc st so cn we : topIs n h = false →
    step (mkG ck todo ch ws [] false Receiving h n oc st so cn we)
         (mkG ck todo ch ws [] false Draining h n oc st so cn we)
| DrainEmit x ck todo ch ws pc po h n oc st so cn we : (length oc < chanCap)%nat →
    step (mkG ck todo ch ws pc po Draining (x :: h) n oc st so cn we)
         (mkG ck todo ch ws pc po Draining h n (oc ++ [x]) st so cn we)
| DrainCancel x ck todo ch ws pc po h n oc st so we :
    step (mkG ck todo ch ws pc po Draining (x :: h) n oc st so true we)
         (mkG ck todo ch ws pc po SeqDone (x :: h) n oc st so true we)
| DrainEnd ck todo ch ws pc po n oc st so cn we :
    step (mkG ck todo ch ws pc po Draining [] n oc st so cn we)
         (mkG ck todo ch ws pc po SeqDone [] n oc st so cn we)
(* the store loop *)
| StoreTake x ck todo ch ws pc po sq h n oc st cn we :
    step (mkG ck todo ch ws pc po sq h n (x :: oc) st true cn we)
         (mkG ck todo ch ws pc po sq h n oc (st ++ [x]) true cn we)
| StoreEnd ck todo ch ws pc po h n st cn we :
    step (mkG ck todo ch ws pc po SeqDone h n [] st true cn we)
         (mkG ck todo ch ws pc po SeqDone h n [] st false cn we).

(** What comes from outside: an error in the store loop, whose return cancels, and an
    interrupt. *)
Inductive disturb : goroutines → goroutines → Prop :=
| StoreFail ck todo ch ws pc po sq h n oc st cn we :
    disturb (mkG ck todo ch ws pc po sq h n oc st true cn we)
            (mkG ck todo ch ws pc po sq h n oc st false true we)
| Interrupt ck todo ch ws pc po sq h n oc st so we :
    disturb (mkG ck todo ch ws pc po sq h n oc st so false we)
            (mkG ck todo ch ws pc po sq h n oc st so true we).
Definition move (s s' : goroutines) : Prop := step s s' ∨ disturb s s'.

(** Every goroutine has returned. *)
Definition final (s : goroutines) : Prop :=
  g_chunker s ≠ Chunking ∧ Forall (λ w, w = Gone) (g_workers s) ∧ g_preparedOpen s = false ∧ g_sequencer s = SeqDone ∧ g_storing s = false.


(** ** What flows *)

Definition hold (w : worker) : list (nat * P) := match w with Holding x => [x] | _ => [] end.
Definition held (ws : list worker) : list (nat * P) := ws ≫= hold.
(** Prepared chunks, wherever they are. *)
Definition flow (s : goroutines) : list (nat * P) :=
  g_stored s ++ g_orderedCh s ++ g_heap s ++ g_preparedCh s ++ held (g_workers s).
Definition prepared (l : list (nat * C)) : list (nat * P) := omap (λ '(k, c), pair k <$> prep k c) l.

Lemma held_insert ws i w w' : ws !! i = Some w →
  ∃ rest, held ws ≡ₚ hold w ++ rest ∧ held (<[i := w']> ws) ≡ₚ hold w' ++ rest.
Proof.
  intros Hi. pose proof (lookup_lt_Some _ _ _ Hi) as Hl. exists (held (take i ws) ++ held (drop (S i) ws)). unfold held.
  rewrite insert_take_drop by done. rewrite <- (take_drop_middle ws i w Hi) at 1. rewrite !bind_app, !bind_cons, !(Permutation_app_swap_app (_ ≫= hold)). done.
Qed.

Lemma heapPush_perm x h : heapPush x h ≡ₚ x :: h.
Proof. induction h as [|y h IH]; [done|]. cbn. destruct (_ <=? _)%nat; [done|]. rewrite IH. constructor. Qed.

Lemma heapPush_sorted (x : nat * P) h : StronglySorted lt (fst <$> h) → x.1 ∉ (fst <$> h) → StronglySorted lt (fst <$> heapPush x h).
Proof.
  induction h as [|y h IH]; intros Hs Hn; [repeat constructor|]. cbn in *. apply not_elem_of_cons in Hn as [Hne Hn].
  apply StronglySorted_inv in Hs as [Hs Hy]. destruct (x.1 <=? y.1)%nat eqn:E; cbn.
  - apply Nat.leb_le in E. constructor; [by constructor|]. constructor; [lia|]. eapply Forall_impl; [exact Hy|]. cbn. lia.
  - apply Nat.leb_gt in E. constructor; [by apply IH|]. apply Forall_forall. intros k Hk. rewrite heapPush_perm in Hk.
    apply elem_of_cons in Hk as [->|Hk]; [done|]. rewrite Forall_forall in Hy. by apply Hy.
Qed.

Lemma fst_prepared l : sublist (fst <$> prepared l) (fst <$> l).
Proof.
  induction l as [|[k c] l IH]; [done|]. unfold prepared in *. cbn. destruct (prep k c); cbn; [by constructor|by constructor].
Qed.
Lemma fst_numberFrom {A} (l : list A) : ∀ n, fst <$> numberFrom n l = seq n (length l).
Proof. induction l as [|x l IH]; intros n; [done|]. cbn. by rewrite IH. Qed.
Lemma length_numberFrom {A} n (l : list A) : length (numberFrom n l) = length l.
Proof. rewrite <- (length_fmap fst), fst_numberFrom. apply length_seq. Qed.
Lemma prepared_app l k : prepared (l ++ k) = prepared l ++ prepared k.
Proof. apply omap_app. Qed.

(** ** The invariant *)

Context (chunks : list C).
Abbreviation numbered := (numberFrom 0 chunks).

(** The first [m] chunks have been taken by workers; what they made of them is on its way,
    all of it unless the run is cancelled. *)
Definition conserved (s : goroutines) (m : nat) : Prop :=
  g_chunkCh s ++ g_todo s = drop m numbered ∧ flow s ⊆+ prepared (take m numbered) ∧
  (g_cancelled s = false → flow s ≡ₚ prepared (take m numbered) ∧ length (prepared (take m numbered)) = length (take m numbered)).

Record inv (s : goroutines) : Prop := {
  iv_flow : ∃ m, conserved s m;
  iv_order : StronglySorted lt (fst <$> g_stored s ++ g_orderedCh s ++ g_heap s);
  iv_emitted : g_sequencer s = Receiving → fst <$> g_stored s ++ g_orderedCh s = seq 0 (g_nextSeq s);
  iv_workers : g_workers s ≠ [];
  iv_closed : g_preparedOpen s = false → Forall (λ w, w = Gone) (g_workers s);
  iv_drain : g_sequencer s = Draining → g_preparedCh s = [] ∧ g_preparedOpen s = false;
  iv_done : g_sequencer s = SeqDone → g_cancelled s = true ∨ g_preparedCh s = [] ∧ g_preparedOpen s = false;
  iv_store : g_storing s = false → g_cancelled s = true ∨ g_sequencer s = SeqDone ∧ g_orderedCh s = [];
  iv_gone : g_cancelled s = false → Gone ∈ g_workers s → g_chunkCh s = [] ∧ g_chunker s ≠ Chunking;
  iv_todo : g_cancelled s = false → g_chunker s ≠ Chunking → g_todo s = [];
  iv_empty : g_cancelled s = false → g_sequencer s ≠ Receiving → g_heap s = [] }.

Lemma NoDup_numbered m : NoDup (fst <$> prepared (take m numbered)).
Proof.
  eapply sublist_NoDup; [|apply fst_prepared]. rewrite fmap_take, fst_numberFrom. eapply sublist_NoDup; [apply NoDup_seq|]. apply sublist_take.
Qed.
Lemma conserved_NoDup s m : conserved s m → NoDup (fst <$> flow s).
Proof.
  intros (_ & (k & Hk)%submseteq_Permutation & _). pose proof (NoDup_numbered m) as Hn. rewrite Hk, fmap_app in Hn. by apply NoDup_app in Hn as (? & _).
Qed.

Lemma StronglySorted_seq n m : StronglySorted lt (seq n m).
Proof.
  revert n. induction m as [|m IH]; intros n; [constructor|]. cbn. constructor; [apply IH|].
  apply Forall_forall. intros k [? _]%elem_of_seq. lia.
Qed.

(** Everything that waits comes after what was emitted. *)
Lemma waits_after s m x : conserved s m → g_sequencer s = Receiving → fst <$> g_stored s ++ g_orderedCh s = seq 0 (g_nextSeq s) →
  x ∈ g_heap s ++ g_preparedCh s ++ held (g_workers s) → (g_nextSeq s ≤ x.1)%nat.
Proof.
  intros Hc _ He Hx. pose proof (conserved_NoDup _ _ Hc) as Hnd. unfold flow in Hnd. rewrite app_assoc, fmap_app, He in Hnd.
  apply NoDup_app in Hnd as (_ & Hnd & _). destruct (decide (g_nextSeq s ≤ x.1)%nat) as [|Hlt]; [done|]. destruct (Hnd x.1).
  - apply elem_of_seq. lia.
  - by apply list_elem_of_fmap_2.
Qed.

Lemma sublist_same_length {A} (l k : list A) : sublist l k → length l = length k → l = k.
Proof.
  induction 1 as [|x l k Hs IH|x l k Hs IH]; intros Hl; [done|f_equal; cbn in Hl; apply IH; lia|].
  apply sublist_length in Hs. cbn in Hl. lia.
Qed.

(** With nothing cancelled, a closed [preparedCh] that is empty, and nothing to emit: the
    heap is empty too. *)
Lemma drained_empty s : inv s → g_cancelled s = false → g_sequencer s = Receiving → g_preparedCh s = [] → g_preparedOpen s = false →
  topIs (g_nextSeq s) (g_heap s) = false → g_heap s = [].
Proof.
  intros [(m & Hm) Ho He Hw Hcl _ _ _ Hg Ht _] Hc Hr Hp Hop Htop. specialize (Hcl Hop).
  assert (Hheld : held (g_workers s) = []).
  { clear -Hcl. induction Hcl as [|w ws -> _ IH]; [done|]. unfold held in *. by rewrite bind_cons, IH. }
  pose proof Hm as (_ & _ & Hfull). destruct (Hfull Hc) as [Hperm Hlen].
  destruct (g_heap s) as [|x h] eqn:Hh; [done|]. exfalso. specialize (He Hr).
  assert (Hge : ∀ y, y ∈ x :: h → (g_nextSeq s ≤ y.1)%nat).
  { intros y Hy. eapply (waits_after s m); [done..|]. rewrite Hh. apply elem_of_app. by left. }
  cbn in Htop. apply Nat.eqb_neq in Htop. pose proof (Hge x ltac:(left)) as Hgx.
  assert (Hmin : ∀ y, y ∈ x :: h → (x.1 ≤ y.1)%nat).
  { intros y [->|Hy]%elem_of_cons; [done|]. rewrite app_assoc, fmap_app in Ho. apply StronglySorted_app_1_r in Ho. cbn in Ho. apply StronglySorted_inv in Ho as [_ Ho].
    rewrite Forall_forall in Ho. apply Nat.lt_le_incl, Ho. by apply list_elem_of_fmap_2. }
  assert (Hseq : fst <$> prepared (take m numbered) = seq 0 (length (take m numbered))).
  { assert (Hsub := fst_prepared (take m numbered)). rewrite length_take, length_numberFrom.
    apply sublist_same_length in Hsub; [|by rewrite !length_fmap, Hlen]. rewrite Hsub, fmap_take, fst_numberFrom. apply take_seq. }
  assert (Hin : x.1 ∈ fst <$> flow s). { apply list_elem_of_fmap_2. unfold flow. rewrite Hh. set_solver. }
  rewrite Hperm, Hseq in Hin. apply elem_of_seq in Hin.
  assert (Hnext : g_nextSeq s ∈ fst <$> flow s). { rewrite Hperm, Hseq. apply elem_of_seq. lia. }
  unfold flow in Hnext. rewrite Hp, Hheld, Hh, app_assoc, fmap_app, elem_of_app, He, !app_nil_r in Hnext.
  destruct Hnext as [Hs%elem_of_seq|Hs]; [lia|]. apply list_elem_of_fmap in Hs as (y & Hy & Hin'). specialize (Hmin y Hin'). lia.
Qed.

(** ** Every step keeps the flow *)

Lemma conserved_same s s' m : g_chunkCh s' ++ g_todo s' = g_chunkCh s ++ g_todo s → flow s' ≡ₚ flow s →
  (g_cancelled s' = false → g_cancelled s = false) → conserved s m → ∃ m', conserved s' m'.
Proof. intros He Hf Hc (H1 & H2 & H3). exists m. unfold conserved. rewrite He, Hf. split_and!; [done|done|]. intros Hn. by apply H3, Hc. Qed.

Lemma conserved_less s s' m : g_chunkCh s' ++ g_todo s' = g_chunkCh s ++ g_todo s → flow s' ⊆+ flow s →
  g_cancelled s' = true → conserved s m → ∃ m', conserved s' m'.
Proof. intros He Hf Hc (H1 & H2 & _). exists m. split_and!; [by rewrite He|by etrans|congruence]. Qed.

Lemma take_S_drop {A} (l : list A) m x r : drop m l = x :: r → take (S m) l = take m l ++ [x] ∧ drop (S m) l = r.
Proof.
  intros Hd. assert (Hx : l !! m = Some x). { by rewrite <- (Nat.add_0_r m), <- lookup_drop, Hd. }
  split; [by apply take_S_r|]. apply drop_S in Hx. congruence.
Qed.

Lemma conserved_step s s' m : step s s' → conserved s m → ∃ m', conserved s' m'.
Proof.
  intros Hst Hc. destruct Hst.
  all: try (eapply conserved_same; [| | |exact Hc]; unfold flow; cbn; rewrite <- ?app_assoc; by intros).
  - destruct Hc as (H1 & H2 & H3). cbn in H1. symmetry in H1. apply take_S_drop in H1 as [Ht Hd]. exists (S m). unfold conserved. rewrite Ht, Hd, prepared_app.
    assert (Hp : prepared [(k, c)] = [(k, p)]) by (unfold prepared; cbn; by rewrite H0). rewrite Hp. unfold flow in *. cbn in *.
    destruct (held_insert _ _ _ (Holding (k, p)) H) as (r & E1 & E2). cbn in E1, E2. rewrite E2. rewrite E1 in H2, H3.
    assert (Hm : ∀ a b c0 d : list (nat * P), a ++ b ++ c0 ++ d ++ (k, p) :: r ≡ₚ (a ++ b ++ c0 ++ d ++ r) ++ [(k, p)]).
    { intros. rewrite <- Permutation_cons_append, !app_assoc. symmetry. apply Permutation_middle. }
    rewrite Hm. split_and!; [done|by apply submseteq_skips_r|]. intros Hn. destruct (H3 Hn) as [H4 H5]. rewrite H4, !length_app. split; [done|]. cbn. lia.
  - destruct Hc as (H1 & H2 & _). cbn in H1. symmetry in H1. apply take_S_drop in H1 as [Ht Hd]. exists (S m). unfold conserved. rewrite Ht, Hd, prepared_app.
    assert (Hp : prepared [(k, c)] = []) by (unfold prepared; cbn; by rewrite H0). rewrite Hp, app_nil_r. unfold flow in *. cbn in *.
    destruct (held_insert _ _ _ Gone H) as (r & E1 & E2). cbn in E1, E2. rewrite E2, <- E1. done.
  - eapply conserved_same; [| | |exact Hc]; [done| |done]. unfold flow. cbn. destruct (held_insert _ _ _ Gone H) as (r & E1 & E2). by rewrite E2, <- E1.
  - eapply conserved_same; [| | |exact Hc]; [done| |done]. unfold flow. cbn. destruct (held_insert _ _ _ Idle H) as (r & E1 & E2). cbn in E1, E2.
    by rewrite E2, E1, <- !app_assoc.
  - eapply conserved_less; [| | |exact Hc]; [done| |done]. unfold flow. cbn. destruct (held_insert _ _ _ Gone H) as (r & E1 & E2). cbn in E1, E2.
    rewrite E2, E1. do 4 apply submseteq_skips_l. by apply submseteq_cons.
  - eapply conserved_same; [| | |exact Hc]; [done| |done]. unfold flow. cbn. rewrite heapPush_perm. do 2 apply Permutation_app_head. apply Permutation_middle.
Qed.

Lemma inv_start w : (0 < w)%nat → inv (start w chunks).
Proof.
  intros Hw. assert (Hh : held (replicate w Idle) = []). { clear. induction w as [|w IH]; [done|]. unfold held in *. cbn. by rewrite IH. }
  split; cbn; try done.
  - exists 0%nat. unfold conserved. assert (Hf : flow (start w chunks) = []). { unfold flow, start. cbn [g_stored g_orderedCh g_heap g_preparedCh g_workers app]. exact Hh. }
    by rewrite Hf.
  - constructor.
  - by destruct w; [lia|].
  - intros _ [Hg _]%elem_of_replicate. done.
Qed.

Lemma all_gone (ws : list worker) i w : Forall (λ w, w = Gone) ws → ws !! i = Some w → w = Gone.
Proof. intros Hf Hi. rewrite Forall_lookup in Hf. by eapply Hf. Qed.
Lemma insert_ne_nil {A} (l : list A) i x : l ≠ [] → <[i := x]> l ≠ [].
Proof. by destruct l, i. Qed.
Lemma gone_insert (ws : list worker) i w : w ≠ Gone → Gone ∈ <[i := w]> ws → Gone ∈ ws.
Proof.
  intros Hw [j Hj]%list_elem_of_lookup. destruct (decide (i = j)) as [->|Hne].
  - apply list_lookup_insert_Some in Hj as [(_ & ? & _)|[? _]]; done.
  - rewrite list_lookup_insert_ne in Hj by done. by eapply list_elem_of_lookup_2.
Qed.

Lemma push_sorted s m x h pc : conserved s m → fst <$> g_stored s ++ g_orderedCh s = seq 0 (g_nextSeq s) → g_sequencer s = Receiving →
  StronglySorted lt (fst <$> g_stored s ++ g_orderedCh s ++ g_heap s) → g_heap s = h → g_preparedCh s = x :: pc →
  StronglySorted lt (fst <$> g_stored s ++ g_orderedCh s ++ heapPush x h).
Proof.
  intros Hm He Hr Ho Hh Hp. pose proof (conserved_NoDup _ _ Hm) as Hnd. unfold flow in Hnd. rewrite Hh, Hp in Hnd. rewrite Hh in Ho.
  rewrite app_assoc, fmap_app in Ho |- *. apply StronglySorted_app in Ho as (_ & Ho1 & Ho2). apply StronglySorted_app_2; [|done|].
  - intros a b Ha. rewrite He in Ha. apply elem_of_seq in Ha. intros (y & -> & Hy)%list_elem_of_fmap.
    enough (g_nextSeq s ≤ y.1)%nat by lia. eapply (waits_after s m); [done..|]. rewrite Hh, Hp. rewrite heapPush_perm in Hy. set_solver.
  - apply heapPush_sorted; [done|]. intros Hx. rewrite !fmap_app in Hnd. apply NoDup_app in Hnd as (_ & _ & Hnd). apply NoDup_app in Hnd as (_ & _ & Hnd).
    apply NoDup_app in Hnd as (_ & Hnd & _). apply (Hnd x.1); [done|]. cbn. left.
Qed.

Lemma inv_step s s' : inv s → step s s' → inv s'.
Proof.
  intros Hi Hst. pose proof Hi as [(m & Hm) Ho He Hw Hcl Hdr Hdn Hso Hg Ht Hem].
  destruct (conserved_step _ _ _ Hst Hm) as [m' Hm'].
  destruct Hst; split; cbn in *; try done; try (by exists m'); try tauto; try (intros; discriminate); try (by intros; auto); try (by apply insert_ne_nil);
    try (intros Hp; specialize (Hcl Hp); by eapply all_gone in Hcl; [|done]); try (intros Hf; destruct (Hso Hf) as [?|[? ?]]; [by left|done]);
    rewrite <- ?app_assoc; try done.
  - intros Hc Hin. apply gone_insert in Hin; [|done]. by destruct (Hg Hc Hin).
  - intros Hs. destruct (Hdr Hs) as [_ Hp]. specialize (Hcl Hp). by eapply all_gone in Hcl; [|done].
  - intros Hs. destruct (Hdn Hs) as [?|[_ Hp]]; [by left|]. specialize (Hcl Hp). by eapply all_gone in Hcl; [|done].
  - intros Hc Hin. apply gone_insert in Hin; [|done]. by apply Hg.
  - by eapply (push_sorted (mkG _ _ _ _ _ _ Receiving _ _ _ _ _ _ _)); cbn; [exact Hm|apply He|..].
  - intros _. specialize (He eq_refl). rewrite app_assoc, fmap_app, He. cbn in H. apply Nat.eqb_eq in H. cbn. rewrite H. symmetry. apply (seq_S n 0).
  - intros Hc _. by apply (drained_empty _ Hi).
  - intros Hc _. specialize (Hem Hc ltac:(done)). done.
Qed.

Lemma inv_disturb s s' : inv s → disturb s s' → inv s'.
Proof.
  intros [(m & Hm) Ho He Hw Hcl Hdr Hdn Hso Hg Ht Hem] Hd. destruct Hd; (split; cbn in *; try done; try tauto; try (by intros; auto));
    exists m; destruct Hm as (H1 & H2 & _); split_and!; done.
Qed.

Lemma inv_reachable w s : (0 < w)%nat → rtc move (start w chunks) s → inv s.
Proof.
  intros Hw Hr. eapply (rtc_ind_r inv); [by apply inv_start| |exact Hr]. intros x y _ [Hst|Hd] Hx; [by eapply inv_step|by eapply inv_disturb].
Qed.

(** ** Progress and termination *)

Lemma gone_or (ws : list worker) : Forall (λ w, w = Gone) ws ∨ ∃ i w, ws !! i = Some w ∧ w ≠ Gone.
Proof.
  induction ws as [|w ws IH]; [by left|]. destruct w as [|x|]; [right; by exists 0%nat, Idle|right; by exists 0%nat, (Holding x)|].
  destruct IH as [Hf|(i & w & Hi & Hw)]; [left; by constructor|right; by exists (S i), w].
Qed.

#[local] Instance sequencer_dec : EqDecision sequencer_state.
Proof. solve_decision. Defined.
#[local] Instance chunker_dec : EqDecision chunker_state.
Proof. solve_decision. Defined.

(** A worker that has not returned can act, unless it waits for the chunker, which can. *)
Lemma worker_acts s i w : inv s → g_workers s !! i = Some w → w ≠ Gone → (length (g_preparedCh s) < chanCap)%nat ∨ g_cancelled s = true → ∃ s', step s s'.
Proof.
  intros Hi Hw Hg Hroom. destruct s as [ck todo ch ws pc po sq h n oc st so cn we]. cbn in *. destruct w as [|x|]; [| |done].
  - destruct ch as [|[k c] ch].
    + destruct (decide (ck = Chunking)) as [->|Hck]; [|by eexists; eapply WorkerEnd].
      destruct todo as [|x todo]; eexists; [apply ChunkEnd|apply ChunkSend; unfold chanCap; cbn; lia].
    + destruct (prep k c) as [p|] eqn:Hp; eexists; [by eapply WorkerTake|by eapply WorkerFail].
  - destruct Hroom as [Hr| ->]; eexists; [by eapply WorkerSend|by eapply WorkerDrop].
Qed.

(** Chunker, workers and closer. *)
Lemma upstream_acts s : inv s → (length (g_preparedCh s) < chanCap)%nat ∨ g_cancelled s = true →
  ¬ (g_chunker s ≠ Chunking ∧ Forall (λ w, w = Gone) (g_workers s) ∧ g_preparedOpen s = false) → ∃ s', step s s'.
Proof.
  intros Hi Hroom Hn. destruct (gone_or (g_workers s)) as [Hgone|(i & w & Hw & Hg)]; [|by eapply worker_acts].
  pose proof (iv_workers _ Hi) as Hw. pose proof (iv_gone _ Hi) as Hg. destruct s as [ck todo ch ws pc po sq h n oc st so cn we]. cbn in *.
  destruct po; [eexists; by apply ClosePrepared|]. destruct (decide (ck = Chunking)) as [->|Hck]; [|by destruct Hn].
  destruct cn; [eexists; apply ChunkCancel|]. destruct (Hg eq_refl) as [_ ?]; [|done].
  destruct ws as [|w ws]; [done|]. apply Forall_cons in Hgone as [-> _]. left.
Qed.

Lemma progress s : inv s → ¬ final s → ∃ s', step s s'.
Proof.
  intros Hi Hf. pose proof (upstream_acts s Hi) as Hup. pose proof Hi as [_ _ _ Hw Hcl Hdr Hdn Hso Hg Ht Hem].
  destruct s as [ck todo ch ws pc po sq h n oc st so cn we]. cbn in *.
  destruct (decide (so = true ∧ oc ≠ [])) as [[-> Hoc]|Hst]; [destruct oc as [|x oc]; [done|]; eexists; apply StoreTake|].
  assert (Hroom : (length oc < chanCap)%nat ∨ cn = true).
  { destruct so; [left; destruct oc; [unfold chanCap; cbn; lia|by destruct Hst]|]. destruct (Hso eq_refl) as [?|[_ ->]]; [by right|left; unfold chanCap; cbn; lia]. }
  destruct sq.
  - destruct (topIs n h) eqn:Htop.
    + destruct Hroom as [Hr| ->]; [|eexists; by apply SeqCancel]. destruct h as [|x h]; [done|]. eexists. by apply SeqEmit.
    + destruct pc as [|x pc]; [|eexists; by apply SeqPush]. destruct po; [|eexists; by apply SeqDrain].
      apply Hup; [left; unfold chanCap; cbn; lia|]. by intros (_ & _ & ?).
  - destruct h as [|x h]; [eexists; apply DrainEnd|]. destruct Hroom as [Hr| ->]; eexists; [by apply DrainEmit|by eapply DrainCancel].
  - destruct so.
    + destruct oc; [eexists; apply StoreEnd|]. by destruct Hst.
    + apply Hup; [destruct (Hdn eq_refl) as [?|[-> _]]; [by right|left; unfold chanCap; cbn; lia]|]. intros (? & ? & ?). by destruct Hf.
Qed.

(** Steps left at most. *)
Definition workerWeight (w : worker) : nat := match w with Idle => 1 | Holding _ => 6 | Gone => 0 end.
Definition weight (s : goroutines) : nat :=
  (7 * length (g_todo s) + 6 * length (g_chunkCh s) + sum_list_with workerWeight (g_workers s) + 4 * length (g_preparedCh s) +
  3 * length (g_heap s) + 2 * length (g_orderedCh s) + (if decide (g_chunker s = Chunking) then 1 else 0) + Nat.b2n (g_preparedOpen s) +
  match g_sequencer s with Receiving => 2 | Draining => 1 | SeqDone => 0 end + Nat.b2n (g_storing s) + Nat.b2n (negb (g_cancelled s)))%nat.

Lemma sum_insert ws i w w' : ws !! i = Some w →
  (sum_list_with workerWeight (<[i := w']> ws) + workerWeight w = sum_list_with workerWeight ws + workerWeight w')%nat.
Proof.
  revert i. induction ws as [|x ws IH]; intros i Hi; [done|]. destruct i as [|i]; cbn [sum_list_with insert list_insert] in *; [injection Hi as ->; lia|].
  rewrite <- !Nat.add_assoc. f_equal. apply (IH i Hi).
Qed.

Lemma move_weight s s' : move s s' → (weight s' < weight s)%nat.
Proof.
  intros [Hst|Hd].
  - destruct Hst; unfold weight; cbn -[Nat.mul]; rewrite ?length_app, ?heapPush_perm; cbn -[Nat.mul];
      try match goal with H : ?ws !! _ = Some _ |- context [<[?i := ?w]> ?ws] => pose proof (sum_insert ws i _ w H) as Hs; cbn in Hs end;
      repeat case_decide; simplify_eq; try done; try (destruct cn); cbn in *; lia.
  - destruct Hd; unfold weight; cbn -[Nat.mul]; lia.
Qed.

Lemma moves_bounded k s s' : nsteps move k s s' → (k + weight s' ≤ weight s)%nat.
Proof. induction 1 as [|k x y z Hm Hn IH]; [lia|]. apply move_weight in Hm. lia. Qed.

Lemma weight_start w : weight (start w chunks) = (7 * length chunks + w + 6)%nat.
Proof.
  assert (Hs : sum_list_with workerWeight (replicate w Idle) = w). { induction w as [|w IH]; [done|]. cbn. by rewrite IH. }
  unfold weight, start. cbn -[Nat.mul]. rewrite Hs, length_numberFrom. case_decide; [lia|done].
Qed.

Lemma prepared_elem l k p : (k, p) ∈ prepared l → ∃ c, (k, c) ∈ l ∧ prep k c = Some p.
Proof. intros ([k' c] & Hin & Hp)%list_elem_of_omap. apply fmap_Some in Hp as (p' & Hp & [= -> ->]). by exists c. Qed.

Lemma numberFrom_elem {A} (l : list A) n k c : (k, c) ∈ numberFrom n l → (n ≤ k)%nat ∧ l !! (k - n)%nat = Some c.
Proof.
  revert n. induction l as [|x l IH]; intros n; [by intros ?%elem_of_nil|]. cbn. intros [[= -> ->]|Hin]%elem_of_cons; [by rewrite Nat.sub_diag|].
  apply IH in Hin as [Hle Hl]. split; [lia|]. by replace (k - n)%nat with (S (k - S n)) by lia.
Qed.

Lemma sorted_fst (l : list (nat * P)) : StronglySorted lt (fst <$> l) → StronglySorted (λ a b, a.1 < b.1)%nat l.
Proof. induction l as [|x l IH]; [constructor|]. cbn. intros [Hs Hx]%StronglySorted_inv. constructor; [by apply IH|]. apply Forall_forall. intros y Hy. eapply (proj1 (Forall_forall _ _)) in Hx; [exact Hx|]. by apply list_elem_of_fmap_2. Qed.

Lemma held_gone (ws : list worker) : Forall (λ w, w = Gone) ws → held ws = [].
Proof. induction 1 as [|w ws -> _ IH]; [done|]. unfold held in *. by rewrite bind_cons, IH. Qed.

(** What is prepared without a failure is numbered without a gap. *)
Lemma prepared_full m : length (prepared (take m numbered)) = length (take m numbered) → fst <$> prepared (take m numbered) = seq 0 (length (take m numbered)).
Proof.
  intros Hl. assert (Hsub := fst_prepared (take m numbered)). apply sublist_same_length in Hsub; [|by rewrite !length_fmap].
  rewrite Hsub, fmap_take, fst_numberFrom, length_take, length_numberFrom. apply take_seq.
Qed.

Lemma emitted_all s m : inv s → conserved s m → g_cancelled s = false → g_sequencer s ≠ Receiving →
  g_stored s ++ g_orderedCh s = prepared (take m numbered) ∧ length (prepared (take m numbered)) = length (take m numbered).
Proof.
  intros Hi Hm Hc Hs. pose proof (iv_empty _ Hi Hc Hs) as Hh. assert (Hp : g_preparedCh s = [] ∧ g_preparedOpen s = false).
  { destruct (g_sequencer s) eqn:E; [done|by apply (iv_drain _ Hi)|]. destruct (iv_done _ Hi E) as [?|?]; [congruence|done]. }
  destruct Hp as [Hp Ho]. pose proof (held_gone _ (iv_closed _ Hi Ho)) as Hw. destruct Hm as (_ & _ & Hm). destruct (Hm Hc) as [Hf Hl].
  unfold flow in Hf. rewrite Hh, Hp, Hw, !app_nil_r in Hf. split; [|done]. pose proof (iv_order _ Hi) as Hord. rewrite Hh, app_nil_r in Hord.
  eapply (StronglySorted_unique_strong (λ a b : nat * P, a.1 < b.1)%nat); [lia| | |done]; apply sorted_fst; [done|].
  rewrite prepared_full by done. apply StronglySorted_seq.
Qed.

(** Numbers without a gap and elements of [q], whose numbers have no gap. *)
Lemma numbered_prefix (l q : list (nat * P)) n : fst <$> l = seq 0 (length l) → fst <$> q = seq 0 n → (∀ x, x ∈ l → x ∈ q) → l = take (length l) q.
Proof.
  intros Hl Hq Hin. apply list_eq. intros i. destruct (decide (i < length l)%nat) as [Hlt|Hge].
  2:{ rewrite lookup_ge_None_2, lookup_take_ge by lia. done. }
  rewrite lookup_take_lt by done. apply lookup_lt_is_Some in Hlt as [x Hx]. rewrite Hx.
  assert (Hnum : ∀ (r : list (nat * P)) k j y, fst <$> r = seq 0 k → r !! j = Some y → y.1 = j).
  { intros r k j y Hr Hy. assert (Hf : (fst <$> r) !! j = Some y.1) by (by rewrite list_lookup_fmap, Hy). rewrite Hr in Hf. apply lookup_seq in Hf. lia. }
  assert (Hxq : x ∈ q) by (apply Hin; by eapply list_elem_of_lookup_2). apply list_elem_of_lookup in Hxq as [j Hj].
  rewrite <- (Hnum _ _ _ _ Hl Hx) in *. by rewrite (Hnum _ _ _ _ Hq Hj).
Qed.

Lemma stored_prefix s : inv s → g_cancelled s = false → g_stored s = take (length (g_stored s)) (prepared numbered).
Proof.
  intros Hi Hc. destruct (iv_flow _ Hi) as [m Hm]. pose proof Hm as (_ & _ & Hfull). destruct (Hfull Hc) as [Hf Hl].
  assert (Hsq : fst <$> g_stored s = seq 0 (length (g_stored s))).
  { assert (Hpre : ∃ n, fst <$> g_stored s ++ g_orderedCh s = seq 0 n).
    { destruct (decide (g_sequencer s = Receiving)) as [Hr|Hr]; [eexists; by apply (iv_emitted _ Hi)|].
      destruct (emitted_all _ _ Hi Hm Hc Hr) as [-> _]. eexists. by apply prepared_full. }
    destruct Hpre as [n Hn]. rewrite <- (take_app_length (g_stored s) (g_orderedCh s)) at 1. rewrite fmap_take, Hn, take_seq. f_equal.
    apply (f_equal length) in Hn. rewrite length_fmap, length_app, length_seq in Hn. lia. }
  assert (Hlen : (length (g_stored s) ≤ length (prepared (take m numbered)))%nat) by (rewrite <- Hf; unfold flow; rewrite length_app; lia).
  rewrite <- (take_drop m numbered), prepared_app, take_app_le by done.
  eapply numbered_prefix; [done|by apply prepared_full|]. intros x Hx. rewrite <- Hf. unfold flow. set_solver.
Qed.

Lemma final_all s : inv s → final s → g_cancelled s = false → g_stored s = prepared numbered ∧ length (g_stored s) = length chunks.
Proof.
  intros Hi (Hck & Hws & Hpo & Hsq & Hso) Hc. destruct (iv_flow _ Hi) as [m Hm]. destruct (emitted_all _ _ Hi Hm Hc) as [He Hl]; [congruence|].
  destruct (iv_store _ Hi Hso) as [?|[_ Hoc]]; [congruence|]. rewrite Hoc, app_nil_r in He.
  assert (Hg : Gone ∈ g_workers s). { pose proof (iv_workers _ Hi). destruct (g_workers s); [done|]. apply Forall_cons in Hws as [-> _]. left. }
  destruct (iv_gone _ Hi Hc Hg) as [Hch _]. pose proof (iv_todo _ Hi Hc Hck) as Htd. destruct Hm as (Hd & _ & _). rewrite Hch, Htd in Hd. cbn in Hd.
  assert (Ht : take m numbered = numbered) by (rewrite <- (take_drop m numbered) at 2; by rewrite <- Hd, app_nil_r).
  rewrite Ht in *. split; [done|]. by rewrite He, Hl, length_numberFrom.
Qed.

(** Errors and cut-off chunkers come with a cancellation. *)
Lemma cancelled_blame s s' : move s s' → (g_workerErr s = true ∨ g_chunker s = ChunkerCancelled → g_cancelled s = true) →
  g_workerErr s' = true ∨ g_chunker s' = ChunkerCancelled → g_cancelled s' = true.
Proof. intros [Hs|Hs]; destruct Hs; cbn; try done; try tauto; intros H [?|?]; auto; congruence. Qed.
Lemma uncancelled_clean w s : rtc move (start w chunks) s → g_cancelled s = false → g_workerErr s = false ∧ g_chunker s ≠ ChunkerCancelled.
Proof.
  intros Hr Hc. assert (Hb : g_workerErr s = true ∨ g_chunker s = ChunkerCancelled → g_cancelled s = true).
  { revert Hr. generalize (start w chunks), (eq_refl : g_workerErr (start w chunks) = false), (eq_refl : g_chunker (start w chunks) = Chunking).
    intros s0 H1 H2 Hr. assert (H0 : g_workerErr s0 = true ∨ g_chunker s0 = ChunkerCancelled → g_cancelled s0 = true) by (intros [?|?]; congruence).
    clear H1 H2. induction Hr as [|x y z Hm Hr IH]; [done|]. apply IH; [done|]. by eapply cancelled_blame. }
  split; [destruct (g_workerErr s); [|done]; destruct (g_cancelled s); [done|]; by specialize (Hb (or_introl eq_refl))|].
  intros Hk. specialize (Hb (or_intror Hk)). congruence.
Qed.

(** When every chunk can be prepared, some schedule ends without a cancellation. *)
Lemma final_or s : final s ∨ ¬ final s.
Proof.
  destruct (gone_or (g_workers s)) as [Hw|(i & w & Hi & Hw)].
  - destruct (decide (g_chunker s = Chunking)), (g_preparedOpen s) eqn:Ho, (g_sequencer s) eqn:Hs, (g_storing s) eqn:Ht;
      ((left; by split_and!) || (right; intros (? & ? & ? & ? & ?); congruence)).
  - right. intros (_ & Hf & _). rewrite Forall_forall in Hf. destruct Hw. apply Hf. by eapply list_elem_of_lookup_2.
Qed.

Lemma step_uncancelled s s' : (∀ k c, prep k c ≠ None) → step s s' → g_cancelled s = false → g_cancelled s' = false.
Proof. intros Hp Hs. destruct Hs; cbn; try done. by destruct (Hp k c). Qed.

Lemma completion w : (∀ k c, prep k c ≠ None) → (0 < w)%nat → ∃ s, rtc move (start w chunks) s ∧ final s ∧ g_cancelled s = false.
Proof.
  intros Hp Hw. assert (Hn : ∀ n s, (weight s ≤ n)%nat → rtc move (start w chunks) s → g_cancelled s = false → ∃ s', rtc move (start w chunks) s' ∧ final s' ∧ g_cancelled s' = false).
  { induction n as [|n IH]; intros s Hle Hr Hc; (destruct (final_or s) as [Hf|Hf]; [by exists s|]);
      destruct (progress s (inv_reachable w s Hw Hr) Hf) as [s' Hs]; pose proof (move_weight s s' (or_introl Hs)); [lia|].
    apply (IH s'); [lia| |by eapply step_uncancelled]. eapply rtc_r; [exact Hr|by left]. }
  by apply (Hn _ (start w chunks) (le_n _)).
Qed.
End goroutines.
Arguments goroutines : clear implicits.
Arguments worker : clear implicits.

(** ** Theorems *)

(** C27. The store loop sees chunks in order: whatever the workers' speed and whenever the
    run is interrupted, it receives prepared chunks with strictly ascending numbers, each
    prepared from the chunk of its number; without a cancellation what it has received is
    exactly a prefix of the prepared stream. *)
Theorem pipeline_in_order {C P} (prep : nat → C → option P) w chunks s : (0 < w)%nat → rtc (move prep) (start w chunks) s →
  StronglySorted lt (fst <$> g_stored s) ∧
  (∀ k p, (k, p) ∈ g_stored s → ∃ c, chunks !! k = Some c ∧ prep k c = Some p) ∧
  (g_cancelled s = false → g_stored s = take (length (g_stored s)) (prepared prep (numberFrom 0 chunks))).
Proof.
  intros Hw Hr. pose proof (inv_reachable prep chunks w s Hw Hr) as Hi. split_and!.
  - pose proof (iv_order _ _ _ Hi) as Ho. rewrite fmap_app in Ho. by apply StronglySorted_app_1_l in Ho.
  - intros k p Hin. destruct (iv_flow _ _ _ Hi) as (m & _ & Hsub & _). assert (Hf : (k, p) ∈ flow s) by (unfold flow; set_solver).
    eapply elem_of_submseteq in Hf; [|exact Hsub]. apply prepared_elem in Hf as (c & Hc & Hp). exists c. split; [|done].
    eapply elem_of_submseteq, numberFrom_elem in Hc; [|apply sublist_submseteq, sublist_take]. rewrite Nat.sub_0_r in Hc. by destruct Hc.
  - by apply stored_prefix.
Qed.

(** C28. A backup's goroutines always return: any run has at most seven actions per chunk
    and a few more, nothing can block for ever (unless all have returned some goroutine
    can act by itself), and when all have returned without a cancellation the store loop
    has received every chunk. *)
Theorem pipeline_completes {C P} (prep : nat → C → option P) w chunks n s : (0 < w)%nat → nsteps (move prep) n (start w chunks) s →
  (n ≤ 7 * length chunks + w + 6)%nat ∧
  (¬ final s → ∃ s', step prep s s') ∧
  (final s → g_cancelled s = false → g_stored s = prepared prep (numberFrom 0 chunks) ∧ length (g_stored s) = length chunks).
Proof.
  intros Hw Hn. assert (Hi : inv prep chunks s) by (eapply inv_reachable; [exact Hw|by eapply rtc_nsteps_2]). split_and!.
  - apply moves_bounded in Hn. rewrite weight_start in Hn. lia.
  - by apply (progress prep chunks).
  - by apply (final_all prep chunks).
Qed.

(** Two workers, three chunks: what a schedule does. *)
Section schedules.
Context {C P} (prep : nat → C → option P) (a b c : C) (pa pb pc : P).
Context (Ha : prep 0%nat a = Some pa) (Hb : prep 1%nat b = Some pb) (Hc : prep 2%nat c = Some pc).

Tactic Notation "act" uconstr(t) := eapply rtc_l; [left; eapply t; try done; unfold chanCap; cbn; lia|].

Lemma three_taken rest : rtc (move prep) (start 2 (a :: b :: c :: rest))
  (mkG Chunking (numberFrom 3 rest) [] [Holding (2%nat, pc); Holding (1%nat, pb)] [(0%nat, pa)] true Receiving [] 0 [] [] true false false).
Proof.
  unfold start. cbn. act ChunkSend. act ChunkSend. act ChunkSend.
  eapply rtc_l; [left; by eapply (WorkerTake prep 0)|]. cbn. eapply rtc_l; [left; by eapply (WorkerTake prep 1)|]. cbn.
  eapply rtc_l; [left; eapply (WorkerSend prep 0); [done|unfold chanCap; cbn; lia]|]. cbn. eapply rtc_l; [left; by eapply (WorkerTake prep 0)|]. done.
Qed.

(** From there: an interrupt, the second worker drops its chunk, the first sends its own;
    the sequencer drains its heap past the gap. *)
Lemma gap_drained ck todo : ck ≠ Chunking → rtc (move prep)
  (mkG ck todo [] [Holding (2%nat, pc); Holding (1%nat, pb)] [(0%nat, pa)] true Receiving [] 0 [] [] true true false)
  (mkG ck todo [] [Gone; Gone] [] false SeqDone [] 1 [] [(0%nat, pa); (2%nat, pc)] false true false).
Proof.
  intros Hck. eapply rtc_l; [left; by eapply (WorkerDrop prep 1)|]. cbn. eapply rtc_l; [left; eapply (WorkerSend prep 0); [done|unfold chanCap; cbn; lia]|]. cbn.
  eapply rtc_l; [left; by eapply (WorkerEnd prep 0)|]. cbn. eapply rtc_l; [left; eapply ClosePrepared; by repeat constructor|].
  act SeqPush. act SeqEmit. act SeqPush. act SeqDrain. act DrainEmit. act DrainEnd. act StoreTake. act StoreTake. act StoreEnd. done.
Qed.

(** An interrupt after the chunker has reached the end of the stream: every goroutine
    returns, the chunker reports the end of the stream and no worker an error, which is all
    that [run] looks at, and the store loop never received the second chunk. *)
Theorem late_interrupt_skips_chunk : ∃ s, rtc (move prep) (start 2 [a; b; c]) s ∧ final s ∧ g_cancelled s = true ∧ g_chunker s = ChunkerDone ∧ g_workerErr s = false ∧
  g_stored s = [(0%nat, pa); (2%nat, pc)].
Proof.
  eexists. split.
  - etrans; [apply (three_taken [])|]. cbn. act ChunkEnd. eapply rtc_l; [right; apply Interrupt|]. by apply gap_drained.
  - split; [|done]. split_and!; try done. by repeat constructor.
Qed.

(** An interrupt while the chunker runs: the store loop stores the third chunk right
    after the first. *)
Theorem interrupt_skips_chunk rest : ∃ s, rtc (move prep) (start 2 (a :: b :: c :: rest)) s ∧ final s ∧ g_chunker s = ChunkerCancelled ∧ g_workerErr s = false ∧
  g_stored s = [(0%nat, pa); (2%nat, pc)].
Proof.
  eexists. split.
  - etrans; [apply three_taken|]. eapply rtc_l; [right; apply Interrupt|]. act ChunkCancel. by apply gap_drained.
  - split; [|done]. split_and!; try done. by repeat constructor.
Qed.

(** An interrupt before the chunker has sent the third chunk: the store loop has the first two. *)
Lemma interrupt_after_two rest : ∃ s, rtc (move prep) (start 2 (a :: b :: rest)) s ∧ final s ∧ g_chunker s = ChunkerCancelled ∧ g_workerErr s = false ∧
  g_stored s = [(0%nat, pa); (1%nat, pb)].
Proof.
  eexists. split.
  - unfold start. cbn. act ChunkSend. act ChunkSend. eapply rtc_l; [left; by eapply (WorkerTake prep 0)|]. cbn. eapply rtc_l; [left; by eapply (WorkerTake prep 1)|]. cbn.
    eapply rtc_l; [right; apply Interrupt|]. act ChunkCancel.
    eapply rtc_l; [left; eapply (WorkerSend prep 0); [done|unfold chanCap; cbn; lia]|]. cbn. eapply rtc_l; [left; eapply (WorkerSend prep 1); [done|unfold chanCap; cbn; lia]|]. cbn.
    eapply rtc_l; [left; by eapply (WorkerEnd prep 0)|]. cbn. eapply rtc_l; [left; by eapply (WorkerEnd prep 1)|]. cbn. eapply rtc_l; [left; eapply ClosePrepared; by repeat constructor|].
    act SeqPush. act SeqEmit. act SeqPush. act SeqEmit. act SeqDrain. act DrainEnd. act StoreTake. act StoreTake. act StoreEnd. done.
  - split; [|done]. split_and!; try done. by repeat constructor.
Qed.
End schedules.

Definition samplePrep (k c : nat) : option nat := Some c.

Lemma pipeline_in_order_witness : ∃ s, rtc (move samplePrep) (start 2 [5; 6; 7]%nat) s ∧ StronglySorted lt (fst <$> g_stored s) ∧ length (g_stored s) = 2%nat.
Proof.
  eexists. assert (Hr : rtc (move samplePrep) (start 2 [5; 6; 7]%nat) (mkG ChunkerDone [] [] [Gone; Gone] [] false SeqDone [] 1 [] [(0, 5); (2, 7)]%nat false true false)).
  - etrans; [by apply (three_taken samplePrep _ _ _ 5 6 7)%nat|]. cbn. eapply rtc_l; [left; apply ChunkEnd|]. eapply rtc_l; [right; apply Interrupt|].
    by apply (gap_drained samplePrep).
  - split; [exact Hr|]. split; [|done]. apply (pipeline_in_order samplePrep 2 [5; 6; 7]%nat _ ltac:(lia) Hr).
Defined.

Lemma pipeline_completes_witness : ∃ n s, nsteps (move samplePrep) n (start 2 [5; 6; 7]%nat) s ∧ (n ≤ 29)%nat ∧ ∃ s', step samplePrep s s'.
Proof.
  assert (Hr : rtc (move samplePrep) (start 2 [5; 6; 7]%nat) _) by (by apply (three_taken samplePrep _ _ _ 5 6 7)%nat).
  apply rtc_nsteps in Hr as [n Hn]. exists n. eexists. split; [exact Hn|].
  destruct (pipeline_completes samplePrep 2 [5; 6; 7]%nat n _ ltac:(lia) Hn) as (Hle & Hp & _). split; [cbn in Hle; lia|]. apply Hp. by intros (? & _).
Defined.
