(* ===== verification/Pipeline.v ===== *)
(** * core/pipeline: a backup run (pipeline.go, binding.go)

    [run] opens the index and the packs, lets the goroutines of Sequencer.v chunk and
    prepare the source, stores what they deliver, and saves the manifest.  What the
    goroutines deliver, an [outcome], is an argument of [run]; [outcomeAt] gives the
    outcome of a schedule that has ended.  Checkpoints go to [CheckpointFn], an argument that may
    change the manifests directory.  Randomness, clocks, file ids and floating-point
    ratios are arguments; logging and progress are left out. *)

From S2P Require Import Chunker.
From S2P Require Import Prelude GoBytes GoRuntime GoFiles Hashes HashTable HashBuild HashIndex Bloom Delta Fold Crypto Dedup PackStore Preprocess RepoConfig.
From S2P Require Import Segment Resume Sequencer.

(** ** binding.go *)

Inductive pipe_err :=
| PeUnbound | PeKeyRequired | PeUnexpectedKey | PeUnknownMode (m : string) | PeNormalizers (e : pre_err)
| PeOpenIndex (e : dedup_err) | PeCapture (e : dedup_err) | PeBloomMissing | PePanic | PeDigestState | PeIncompatible
| PeEntryWriter (e : ManifestRepo.repo_err) | PeCheck (e : dedup_err) | PeStore (e : store_err) | PeCheckpoint | PeFlushPart (e : dedup_err)
| PeEntry | PeWorker (e : store_err) | PeChunker (e : Chunker.rerr) | PeCancelled | PeSuspended
| PeSeal (e : store_err) | PeFlush (e : dedup_err) | PeFinish | PeSave (e : ManifestRepo.repo_err) | PeLoad (e : ManifestRepo.repo_err).

Record Binding := mkBinding { b_mode : string; b_key : option bytes; b_indexKey : option bytes; b_norm : option Normalizer; b_bound : bool }.

Definition Bind (rc : RepoConfig) (key : option bytes) : result pipe_err Binding :=
  let mode := EffectiveEncryptionMode rc in
  let! _ := (if String.eqb mode EncryptNone then match key with Some _ => Err PeUnexpectedKey | None => Ok tt end
             else if String.eqb mode EncryptManaged || String.eqb mode EncryptPassphrase then match key with None => Err PeKeyRequired | Some _ => Ok tt end
             else Err (PeUnknownMode mode)) in
  match FromNames (rc_Normalizers rc) with
  | Err e => Err (PeNormalizers e)
  | Ok norm => Ok (mkBinding mode key (IndexKeyFor rc key) norm true)
  end.

(** ** The pipeline *)

Record PreparedChunk := mkPrepared {
  pc_Chunk : Chunker.Chunk; pc_ID : ChunkID; pc_Frame : bytes; pc_PayloadSize : Z; pc_digestStateBefore : bytes }.

Record Stats := mkTally { ty_TotalChunks : Z; ty_RawBytes : Z; ty_UniqueChunks : Z; ty_DedupChunks : Z; ty_StoredBytes : Z }.

Record ResumeState := mkResumeState {
  rs_BackupID : bytes; rs_StartPackNum : Z; rs_ResumeOffset : Z; rs_EntriesLen : Z; rs_PrefixStats : Stats;
  rs_DigestState : bytes; rs_PreloadInserts : list InsertTuple; rs_NextCheckpointSeq : Z }.

(** checkpoint.Delta. *)
Record Delta := mkDeltaCk { dl_SidecarBytes : bytes; dl_Inserts : list InsertTuple }.

Record fileCatalogData := mkCatalog { fc_Mode : bytes; fc_SourcePaths : list bytes; fc_Files : list Dnm.FileEntry }.

Record Pipeline := mkPipeline {
  pl_cfg : Config; pl_norm : option Normalizer; pl_key : option bytes; pl_indexKey : option bytes; pl_mode : string; pl_bound : bool;
  pl_fileCatalog : option fileCatalogData;
  pl_StartPackNum : Z; pl_hooks : Hooks; pl_BackupID : bytes;
  pl_IndexDelta : bool;                                   (* [IndexDeltaPath] is set *)
  pl_Resumable : bool;
  pl_StreamManifest : option DnmFile.DNMStreamer;
  pl_sink : list bytes → bytes → list bytes * option Z;   (* where the streamer's parts go *)
  pl_FinishManifest : Dnm.Backup → bool;
  pl_StampManifest : Dnm.Backup → Dnm.Backup;
  pl_CheckpointFn : option (dir → Progress → Delta → dir * bool);
  pl_resume : option ResumeState }.

Definition New (cfg : Config) (b : Binding) : Pipeline :=
  mkPipeline cfg (b_norm b) (b_key b) (b_indexKey b) (b_mode b) (b_bound b) None 0 noHooks [] false false None
    (λ s _, (s, None)) (λ _, true) id None None.

Definition SetFileCatalog (p : Pipeline) (mode : bytes) (sourcePaths : list bytes) (files : list Dnm.FileEntry) : Pipeline :=
  mkPipeline (pl_cfg p) (pl_norm p) (pl_key p) (pl_indexKey p) (pl_mode p) (pl_bound p) (Some (mkCatalog mode sourcePaths files))
    (pl_StartPackNum p) (pl_hooks p) (pl_BackupID p) (pl_IndexDelta p) (pl_Resumable p) (pl_StreamManifest p) (pl_sink p) (pl_FinishManifest p)
    (pl_StampManifest p) (pl_CheckpointFn p) (pl_resume p).

(** The arguments from outside: hashes, sizes, nonces, ids, clocks, ratios. *)
Record outer := mkOuter {
  ou_xxhash : bytes → Z; ou_bloomBits : Z → Z; ou_nonce : nat → bytes;     (* of the n-th chunk *)
  ou_flush : bytes * bytes * bytes; ou_close : bytes * bytes * bytes * bytes;
  ou_newID : bytes; ou_now : option Z; ou_duration : bytes; ou_dedupRatio : Z → Z → Z; ou_compRatio : Z → Z → Z;
  ou_tempName : bytes }.

Section pipeline.
Context {MR : MapRange} {SS : SortSlice} {PR : Primitives} {ZS : Zstd} {DC : DigestCodec}.

(** ** Preparing chunks *)

(** The pipeline's own encoder: the same collapse of levels onto presets as the store's. *)
Definition encoderLevel (level : Z) : preset :=
  if level <=? 1 then SpeedFastest else if level <=? 3 then SpeedDefault
  else if level <=? 6 then SpeedBetterCompression else SpeedBestCompression.

Definition sealChunk (p : Pipeline) (nonce data : bytes) : result store_err bytes :=
  let compressed := EncodeAll (presetNumber (encoderLevel (c_CompressionLevel (pl_cfg p)))) data in
  match pl_key p with
  | None => Ok compressed
  | Some k => match EncryptWithAAD k nonce compressed AADChunk with Ok e => Ok e | Err e => Err (StEncrypt e) end
  end.

(** A hash worker on the [k]-th chunk and the digest state before it; [None] is an
    encryption error. *)
Definition prepare (p : Pipeline) (o : outer) (analyzeOnly : bool) (k : nat) (c : Chunker.Chunk * bytes) : option PreparedChunk :=
  let id := Sum (ou_xxhash o) (IdentityHashInput (pl_norm p) (Chunker.Data c.1)) in
  if analyzeOnly then Some (mkPrepared c.1 id [] 0 c.2)
  else match sealChunk p (ou_nonce o k) (Chunker.Data c.1) with
       | Err _ => None
       | Ok payload => Some (mkPrepared c.1 id (frameOf payload (len (Chunker.Data c.1))) (len payload) c.2)
       end.

(** The chunker goroutine: chunks, each with the digest state before it. *)
Definition chunkStream (p : Pipeline) (rdr : Chunker.Reader) : list Chunker.Chunk * Chunker.next_result :=
  let cfg := pl_cfg p in
  let c := Chunker.New rdr [Chunker.WithMinSize (c_ChunkMinSize cfg); Chunker.WithMaxSize (c_ChunkMaxSize cfg); Chunker.WithMask (c_BuzhashMask cfg)] in
  let c := match pl_resume p with Some rs => if 0 <? rs_ResumeOffset rs then Chunker.Reset c rdr (rs_ResumeOffset rs) else c | None => c end in
  Chunker.chunkAll (S (S (Chunker.remaining (Chunker.rd c)))) c.

(** [None]: this run records no digest; otherwise what the digest has absorbed before the
    first chunk. *)
Definition digestStart (p : Pipeline) : result pipe_err (option bytes) :=
  match pl_resume p with
  | None => Ok (Some [])
  | Some rs => if bool_decide (rs_DigestState rs = []) then Ok None
               else match unmarshalDigest (rs_DigestState rs) with Some d => Ok (Some d) | None => Err PeDigestState end
  end.

Fixpoint withStates (resumable : bool) (absorbed : option bytes) (chs : list Chunker.Chunk) : list (Chunker.Chunk * bytes) :=
  match chs with
  | [] => []
  | c :: chs =>
      (c, match absorbed with Some d => if resumable then marshalDigest d else [] | None => [] end)
      :: withStates resumable ((λ d, d ++ Chunker.Data c) <$> absorbed) chs
  end.

(** [p.digest.Sum(nil)] at the end of the stream. *)
Definition digestFinal (absorbed : option bytes) (chs : list Chunker.Chunk) : option bytes :=
  (λ d, Sum256 (d ++ concat (Chunker.Data <$> chs))) <$> absorbed.

(** What the store loop and [run] see of the goroutines. *)
Record outcome := mkOutcome {
  oc_received : list PreparedChunk;
  oc_chunker : option pipe_err;              (* from [chunkerDone] *)
  oc_workerErr : option store_err;
  oc_interrupted : bool;                     (* [parentCtx.Err() != nil] *)
  oc_digest : option bytes }.                (* [digestFinal], set at the end of the stream *)

Definition chunkerEnd (r : Chunker.next_result) : option pipe_err :=
  match r with Chunker.NErr Chunker.EOF => None | Chunker.NErr e => Some (PeChunker e) | _ => None end.

(** The chunks the goroutines of a run start with. *)
Definition sourceOf (p : Pipeline) (absorbed : option bytes) (rdr : Reader) : list (Chunk * bytes) :=
  withStates (pl_Resumable p) absorbed (chunkStream p rdr).1.

(** The outcome of a schedule of Sequencer.v that has ended in [s]; the error a worker
    reported and whether the caller interrupted are given. *)
Definition outcomeAt (p : Pipeline) (absorbed : option bytes) (rdr : Reader) (workerErr : store_err) (interrupted : bool)
    (s : goroutines (Chunk * bytes) PreparedChunk) : outcome :=
  let '(chs, end_) := chunkStream p rdr in
  mkOutcome (snd <$> g_stored s)
    (match g_chunker s with ChunkerDone => chunkerEnd end_ | _ => Some PeCancelled end)
    (if g_workerErr s then Some workerErr else None) interrupted
    (match g_chunker s, chunkerEnd end_ with ChunkerDone, None => digestFinal absorbed chs | _, _ => None end).

(** ** The store loop *)

(** The run's state between two chunks. *)
Record session := mkSession {
  se_index : DedupIndex; se_store : ChunkStore; se_manifests : dir; se_stream : option (DnmFile.DNMStreamer * list bytes);
  se_tally : Stats;                                         (* totals; [storedBytes] *)
  se_minChunk : Z; se_maxChunk : Z; se_bloomMisses : Z; se_bloomHits : Z;
  se_seen : gset bytes;                                     (* [analyzeSeenHashes] *)
  se_curPack : Z; se_prefix : Stats; se_lastEntry : option Dnm.Entry;
  se_ckptSeq : Z; se_prevEntriesLen : Z; se_pending : list InsertTuple; se_checkpointWritten : bool }.

(** The progress a checkpoint names and the changes since the one before. *)
Definition checkpointProgress (id : bytes) (s : session) (pc : PreparedChunk) (packNum : Z) : Progress :=
  let entriesLen := ManifestRepo.EntryWriter_Len (se_manifests s) id in
  let t := se_prefix s in
  mkProgress (u32 (packNum - 1)) (se_ckptSeq s) (Offset (pc_Chunk pc)) entriesLen (Z.quot entriesLen DnmFile.EntryRecordSize)
    (match se_lastEntry s with Some e => Dnm.ChunkHash e | None => zeros 32 end)
    (match se_lastEntry s with Some e => Dnm.VolumeOffset e | None => 0 end)
    (match se_lastEntry s with Some e => Dnm.ChunkLength e | None => 0 end)
    (ty_TotalChunks t) (ty_RawBytes t) (ty_UniqueChunks t) (ty_DedupChunks t) (ty_StoredBytes t) (pc_digestStateBefore pc).

Definition emitCheckpoint (fn : dir → Progress → Delta → dir * bool) (id : bytes) (s : session) (pc : PreparedChunk) (packNum : Z)
    : session * option pipe_err :=
  let entriesLen := ManifestRepo.EntryWriter_Len (se_manifests s) id in
  let file := default [] (stat (se_manifests s) (ManifestRepo.EntriesPath id)) in
  let delta := mkDeltaCk (sub file (Z.to_nat (se_prevEntriesLen s)) (Z.to_nat (entriesLen - se_prevEntriesLen s))) (se_pending s) in
  match se_stream s with
  | Some _ => (s, Some PePanic)                             (* no entry writer *)
  | None =>
  let '(m, ok) := fn (se_manifests s) (checkpointProgress id s pc packNum) delta in
  if ok then
    (mkSession (se_index s) (se_store s) m (se_stream s) (se_tally s) (se_minChunk s) (se_maxChunk s) (se_bloomMisses s) (se_bloomHits s)
       (se_seen s) packNum (se_prefix s) (se_lastEntry s) (u32 (se_ckptSeq s + 1)) entriesLen [] true, None)
  else (mkSession (se_index s) (se_store s) m (se_stream s) (se_tally s) (se_minChunk s) (se_maxChunk s) (se_bloomMisses s) (se_bloomHits s)
          (se_seen s) (se_curPack s) (se_prefix s) (se_lastEntry s) (se_ckptSeq s) (se_prevEntriesLen s) (se_pending s) (se_checkpointWritten s),
        Some PeCheckpoint)
  end.

(** Replacing the index and the store, and the tally. *)
Definition withIndex (s : session) (i : DedupIndex) (st : ChunkStore) : session :=
  mkSession i st (se_manifests s) (se_stream s) (se_tally s) (se_minChunk s) (se_maxChunk s) (se_bloomMisses s) (se_bloomHits s)
    (se_seen s) (se_curPack s) (se_prefix s) (se_lastEntry s) (se_ckptSeq s) (se_prevEntriesLen s) (se_pending s) (se_checkpointWritten s).
Definition withTally (s : session) (t : Stats) : session :=
  mkSession (se_index s) (se_store s) (se_manifests s) (se_stream s) t (se_minChunk s) (se_maxChunk s) (se_bloomMisses s) (se_bloomHits s)
    (se_seen s) (se_curPack s) (se_prefix s) (se_lastEntry s) (se_ckptSeq s) (se_prevEntriesLen s) (se_pending s) (se_checkpointWritten s).
Definition withPending (s : session) (p : list InsertTuple) : session :=
  mkSession (se_index s) (se_store s) (se_manifests s) (se_stream s) (se_tally s) (se_minChunk s) (se_maxChunk s) (se_bloomMisses s) (se_bloomHits s)
    (se_seen s) (se_curPack s) (se_prefix s) (se_lastEntry s) (se_ckptSeq s) (se_prevEntriesLen s) p (se_checkpointWritten s).
Definition withSeen (s : session) (h : bytes) : session :=
  mkSession (se_index s) (se_store s) (se_manifests s) (se_stream s) (se_tally s) (se_minChunk s) (se_maxChunk s) (se_bloomMisses s) (se_bloomHits s)
    ({[h]} ∪ se_seen s) (se_curPack s) (se_prefix s) (se_lastEntry s) (se_ckptSeq s) (se_prevEntriesLen s) (se_pending s) (se_checkpointWritten s).

(** The statistics of a chunk before its lookup, and of the lookup. *)
Definition countChunk (s : session) (pc : PreparedChunk) : session :=
  let t := se_tally s in
  let n := Length (pc_Chunk pc) in
  mkSession (se_index s) (se_store s) (se_manifests s) (se_stream s)
    (mkTally (ty_TotalChunks t + 1) (ty_RawBytes t + n) (ty_UniqueChunks t) (ty_DedupChunks t) (ty_StoredBytes t))
    (if n <? se_minChunk s then n else se_minChunk s) (if se_maxChunk s <? n then n else se_maxChunk s) (se_bloomMisses s) (se_bloomHits s)
    (se_seen s) (se_curPack s) (se_prefix s) (se_lastEntry s) (se_ckptSeq s) (se_prevEntriesLen s) (se_pending s) (se_checkpointWritten s).
Definition countLookup (s : session) (r : DedupResult) : session :=
  mkSession (se_index s) (se_store s) (se_manifests s) (se_stream s) (se_tally s) (se_minChunk s) (se_maxChunk s)
    (if dr_BloomMiss r then se_bloomMisses s + 1 else se_bloomMisses s) (if dr_BloomHit r then se_bloomHits s + 1 else se_bloomHits s)
    (se_seen s) (se_curPack s) (se_prefix s) (se_lastEntry s) (se_ckptSeq s) (se_prevEntriesLen s) (se_pending s) (se_checkpointWritten s).
Definition countUnique (s : session) : session :=
  let t := se_tally s in withTally s (mkTally (ty_TotalChunks t) (ty_RawBytes t) (ty_UniqueChunks t + 1) (ty_DedupChunks t) (ty_StoredBytes t)).
Definition countDedup (s : session) : session :=
  let t := se_tally s in withTally s (mkTally (ty_TotalChunks t) (ty_RawBytes t) (ty_UniqueChunks t) (ty_DedupChunks t + 1) (ty_StoredBytes t)).
Definition countStored (s : session) (n : Z) : session :=
  let t := se_tally s in withTally s (mkTally (ty_TotalChunks t) (ty_RawBytes t) (ty_UniqueChunks t) (ty_DedupChunks t) (ty_StoredBytes t + n)).

(** A new chunk: store it, checkpoint when a pack was sealed, index it, flush now and
    then. *)
Definition storeNew (p : Pipeline) (id : bytes) (s : session) (pc : PreparedChunk) : session * option pipe_err :=
  match StoreRaw (pl_hooks p) (se_store s) (pc_Frame pc) with
  | (st, Err e) => (withIndex s (se_index s) st, Some (PeStore e))
  | (st, Ok (packNum, offset, compSize)) =>
      let s := withIndex s (se_index s) st in
      let '(s, err) := match pl_CheckpointFn p with
                       | Some fn => if se_curPack s <? packNum then emitCheckpoint fn id s pc packNum else (s, None)
                       | None => (s, None)
                       end in
      match err with
      | Some e => (s, Some e)
      | None =>
          let s := countStored s (compSize + 8) in
          let t := mkTuple (id_StrongHash (pc_ID pc)) (id_WeakHash (pc_ID pc)) packNum (u64 offset) (u32 (Length (pc_Chunk pc))) in
          match DInsert (se_index s) (it_WeakHash t) (it_StrongHash t) (it_PackNumber t) (it_StoreOffset t) (it_ChunkLength t) with
          | None => (s, Some PePanic)
          | Some idx =>
              let s := withIndex s idx (se_store s) in
              let s := match pl_CheckpointFn p with Some _ => withPending s (se_pending s ++ [t]) | None => s end in
              if Z.rem (ty_UniqueChunks (se_tally s)) 500000 =? 0 then
                let '(idx, err) := FlushHashIndex (se_index s) in (withIndex s idx (se_store s), PeFlushPart <$> err)
              else (s, None)
          end
      end
  end.

Definition entryOf (pc : PreparedChunk) : Dnm.Entry :=
  Dnm.mkEntry (Offset (pc_Chunk pc)) (id_StrongHash (pc_ID pc)) (Length (pc_Chunk pc)) false.

(** Recording a chunk's entry, and the tally a checkpoint after it would carry. *)
Definition recordEntry (p : Pipeline) (analyzeOnly : bool) (id : bytes) (s : session) (pc : PreparedChunk) : session * option pipe_err :=
  let e := entryOf pc in
  let record m st := mkSession (se_index s) (se_store s) m st (se_tally s) (se_minChunk s) (se_maxChunk s) (se_bloomMisses s) (se_bloomHits s)
    (se_seen s) (se_curPack s) (match pl_CheckpointFn p with Some _ => se_tally s | None => se_prefix s end) (Some e)
    (se_ckptSeq s) (se_prevEntriesLen s) (se_pending s) (se_checkpointWritten s) in
  match se_stream s with
  | Some (d, parts) =>
      match DnmFile.WriteEntry (pl_sink p) d parts e with
      | (d, parts, None) => (record (se_manifests s) (Some (d, parts)), None)
      | (d, parts, Some _) => (s, Some PeEntry)
      end
  | None =>
      if analyzeOnly then
        (mkSession (se_index s) (se_store s) (se_manifests s) (se_stream s) (se_tally s) (se_minChunk s) (se_maxChunk s) (se_bloomMisses s) (se_bloomHits s)
           (se_seen s) (se_curPack s) (match pl_CheckpointFn p with Some _ => se_tally s | None => se_prefix s end) (se_lastEntry s)
           (se_ckptSeq s) (se_prevEntriesLen s) (se_pending s) (se_checkpointWritten s), None)
      else (record (ManifestRepo.EntryWriter_WriteEntry (se_manifests s) id e) None, None)
  end.

(** One chunk of the store loop. *)
Definition storeChunk (p : Pipeline) (analyzeOnly : bool) (id : bytes) (s : session) (pc : PreparedChunk) : session * option pipe_err :=
  let s := countChunk s pc in
  match Check (se_index s) (id_WeakHash (pc_ID pc)) (id_StrongHash (pc_ID pc)) with
  | Err e => (s, Some (PeCheck e))
  | Ok r =>
      let s := countLookup s r in
      let isNew := dr_IsNew r && negb (analyzeOnly && bool_decide (id_StrongHash (pc_ID pc) ∈ se_seen s)) in
      let '(s, err) :=
        if isNew then
          let s := countUnique s in
          if analyzeOnly then (withSeen s (id_StrongHash (pc_ID pc)), None) else storeNew p id s pc
        else (countDedup s, None) in
      match err with
      | Some e => (s, Some e)
      | None => recordEntry p analyzeOnly id s pc
      end
  end.

Fixpoint storeLoop (p : Pipeline) (analyzeOnly : bool) (id : bytes) (pcs : list PreparedChunk) (s : session) : session * option pipe_err :=
  match pcs with
  | [] => (s, None)
  | pc :: pcs => match storeChunk p analyzeOnly id s pc with
                 | (s, Some e) => (s, Some e)
                 | (s, None) => storeLoop p analyzeOnly id pcs s
                 end
  end.

(** ** The whole run *)

Record repo := mkRepo { rp_index : index_dir; rp_chunks : dir; rp_manifests : dir; rp_journal : option bytes; rp_journal_enc : option bytes }.

Record pipe_result := mkPipeResult {
  re_BackupID : bytes; re_Stats : Stats; re_MinChunkSize : Z; re_MaxChunkSize : Z; re_AvgChunkSize : Z;
  re_DedupRatio : Z; re_CompRatio : Z; re_BloomMisses : Z; re_BloomHits : Z }.

Definition maxInt : Z := 2 ^ 63 - 1.
Definition noStats : Stats := mkTally 0 0 0 0 0.

(** The deferred closes of a run that does not succeed: the index is discarded, the packs
    closed, the sidecar removed unless the run is suspended. *)
Definition abandon (p : Pipeline) (r : repo) (s : session) (analyzeOnly suspended : bool) (id : bytes) : repo :=
  let '(d, dir) := DCloseDiscard (se_index s) in
  mkRepo dir (if analyzeOnly then rp_chunks r else Some (cs_files (CloseStore (pl_hooks p) (se_store s)).1))
    (if analyzeOnly || suspended || bool_decide (is_Some (se_stream s)) then se_manifests s else remove (se_manifests s) (ManifestRepo.EntriesPath id))
    (di_journal d) (di_journal_enc d).

(** Opening: the index with its journal armed, and the replayed inserts of a resume. *)
Fixpoint preload (ts : list InsertTuple) (d : DedupIndex) : option DedupIndex :=
  match ts with
  | [] => Some d
  | t :: ts => d ← DInsert d (it_WeakHash t) (it_StrongHash t) (it_PackNumber t) (it_StoreOffset t) (it_ChunkLength t); preload ts d
  end.

Definition openIndex (p : Pipeline) (o : outer) (analyzeOnly : bool) (totalSize : Z) (r : repo) : repo * result pipe_err DedupIndex :=
  if c_ChunkAvgSize (pl_cfg p) =? 0 then (r, Err PePanic)
  else
    let expected := u64 (u64 (Z.quot totalSize (c_ChunkAvgSize (pl_cfg p))) + 1000) in
    let discard d e := let '(d, dir) := DCloseDiscard d in (mkRepo dir (rp_chunks r) (rp_manifests r) (di_journal d) (di_journal_enc d), Err e) in
    match NewDedupIndex (rp_index r) (ou_bloomBits o expected) (pl_indexKey p) with
    | Err e => (r, Err (PeOpenIndex e))
    | Ok d =>
        match (if pl_IndexDelta p && negb analyzeOnly then CaptureDelta d else Ok d) with
        | Err e => discard d (PeCapture e)
        | Ok d =>
            if negb analyzeOnly && BloomSuspect d then discard d PeBloomMissing
            else match preload (match pl_resume p with Some rs => rs_PreloadInserts rs | None => [] end) d with
                 | None => (r, Err PePanic)
                 | Some d => (r, Ok d)
                 end
        end
    end.

Definition openStore (p : Pipeline) (r : repo) : ChunkStore :=
  let cfg := pl_cfg p in
  if 0 <? pl_StartPackNum p then NewChunkStoreAt (rp_chunks r) (c_PackFileMaxSize cfg) (c_CompressionLevel cfg) (pl_StartPackNum p) (pl_key p)
  else NewChunkStore (rp_chunks r) (c_PackFileMaxSize cfg) (c_CompressionLevel cfg) (pl_key p).

(** The session before the first chunk. *)
Definition firstSession (p : Pipeline) (d : DedupIndex) (st : ChunkStore) (m : dir) : session :=
  let t := match pl_resume p with Some rs => rs_PrefixStats rs | None => noStats end in
  mkSession d st m ((λ d, (d, [])) <$> pl_StreamManifest p) t maxInt 0 0 0 ∅ (pl_StartPackNum p) t None
    (match pl_resume p with Some rs => rs_NextCheckpointSeq rs | None => 0 end)
    (match pl_resume p with Some rs => rs_EntriesLen rs | None => 0 end) [] false.

Definition openEntries (p : Pipeline) (analyzeOnly : bool) (id : bytes) (m : dir) : result ManifestRepo.repo_err dir :=
  if analyzeOnly || bool_decide (is_Some (pl_StreamManifest p)) then Ok m
  else match pl_resume p with
       | Some rs => ManifestRepo.OpenEntryWriterResume m id (rs_EntriesLen rs)
       | None => Ok (ManifestRepo.OpenEntryWriter m id)
       end.

Definition resultOf (o : outer) (id : bytes) (s : session) : pipe_result :=
  let t := se_tally s in
  let some := 0 <? ty_TotalChunks t in
  mkPipeResult id t (if some then se_minChunk s else 0) (if some then se_maxChunk s else 0) (if some then Z.quot (ty_RawBytes t) (ty_TotalChunks t) else 0)
    (if 0 <? ty_RawBytes t then ou_dedupRatio o (ty_UniqueChunks t) (ty_TotalChunks t) else 0)
    (if (0 <? ty_RawBytes t) && (0 <? ty_StoredBytes t) then ou_compRatio o (ty_RawBytes t) (ty_StoredBytes t) else 0)
    (se_bloomMisses s) (se_bloomHits s).

(** The manifest, before [StampManifest]; a catalog with files is read back from the
    temporary sidecar it was spilled to. *)
Definition manifestOf (p : Pipeline) (o : outer) (sourceVolume : bytes) (totalSize : Z) (digest : option bytes) (r : pipe_result) : Dnm.Backup :=
  let t := re_Stats r in
  let d := match digest with Some d => d | None => [] end in
  let spilled := match pl_fileCatalog p with Some fc => negb (bool_decide (fc_Files fc = [])) | None => false end in
  Dnm.mkBackup (re_BackupID r) (ou_now o) sourceVolume 0 0 totalSize [] [] [] (ty_TotalChunks t) (ty_UniqueChunks t) (ty_DedupChunks t)
    (ty_RawBytes t) (ty_StoredBytes t) (re_DedupRatio r) (re_CompRatio r) (ou_duration o)
    (hexEncode d) (match d with [] => [] | _ => Dnm.DigestCoversSourceStreamV1 end) [] [] 0 0
    (match pl_fileCatalog p with Some fc => fc_Mode fc | None => [] end) (match pl_fileCatalog p with Some fc => fc_SourcePaths fc | None => [] end)
    [] (if spilled then ou_tempName o else []) 0 [].

Definition tempFiles (p : Pipeline) (o : outer) (n : bytes) : option bytes :=
  match pl_fileCatalog p with
  | Some fc => if bool_decide (n = ou_tempName o) && negb (bool_decide (fc_Files fc = [])) then Some (DnmFile.WriteCatalogSidecar (fc_Files fc)).1 else None
  | None => None
  end.

(** After the loop: seal the last pack, flush the index, save the manifest, close. *)
Definition complete (p : Pipeline) (o : outer) (sourceVolume : bytes) (totalSize : Z) (id : bytes) (digest : option bytes) (r : repo) (s : session)
    : repo * result pipe_err pipe_result :=
  let res := resultOf o id s in
  match CloseStore (pl_hooks p) (se_store s) with
  | (st, Some e) => (abandon p r (withIndex s (se_index s) st) false false id, Err (PeSeal e))
  | (st, None) =>
      let '(n1, n2, n3) := ou_flush o in
      match DFlush (se_index s) n1 n2 n3 with
      | (d, Some e) => (abandon p r (withIndex s d st) false false id, Err (PeFlush e))
      | (d, None) =>
          let s := withIndex s d st in
          let m := pl_StampManifest p (manifestOf p o sourceVolume totalSize digest res) in
          let saved := match se_stream s with
                       | Some _ => if pl_FinishManifest p m then Ok (se_manifests s) else Err PeFinish
                       | None => match ManifestRepo.Save (tempFiles p o) (se_manifests s) m with Ok m => Ok m | Err e => Err (PeSave e) end
                       end in
          match saved with
          | Err e => (abandon p r s false false id, Err e)
          | Ok manifests =>
              let '(c1, c2, c3, c4) := ou_close o in
              let '(d, dir, _) := DClose d c1 c2 c3 c4 in
              (mkRepo dir (Some (cs_files st)) manifests (di_journal d) (di_journal_enc d), Ok res)
          end
      end
  end.

Definition run (p : Pipeline) (o : outer) (analyzeOnly : bool) (sourceVolume : bytes) (totalSize : Z) (oc : outcome) (r : repo)
    : repo * result pipe_err pipe_result :=
  if negb (pl_bound p) then (r, Err PeUnbound)
  else if negb (String.eqb (pl_mode p) EncryptNone) && bool_decide (pl_key p = None) then (r, Err PeKeyRequired)
  else
    let id := if bool_decide (pl_BackupID p = []) then ou_newID o else pl_BackupID p in
    match openIndex p o analyzeOnly totalSize r with
    | (r, Err e) => (r, Err e)
    | (r, Ok d) =>
        let st := openStore p r in
        let s0 := firstSession p d st (rp_manifests r) in
        match digestStart p with
        | Err e => (abandon p r s0 analyzeOnly true id, Err e)
        | Ok absorbed =>
            if bool_decide (is_Some (pl_StreamManifest p)) && (pl_Resumable p || bool_decide (is_Some (pl_resume p)))
            then (abandon p r s0 analyzeOnly true id, Err PeIncompatible)
            else match openEntries p analyzeOnly id (rp_manifests r) with
                 | Err e => (abandon p r s0 analyzeOnly true id, Err (PeEntryWriter e))
                 | Ok m =>
                     match storeLoop p analyzeOnly id (oc_received oc) (firstSession p d st m) with
                     | (s, Some e) => (abandon p r s analyzeOnly false id, Err e)
                     | (s, None) =>
                         match oc_workerErr oc, oc_chunker oc with
                         | Some e, _ => (abandon p r s analyzeOnly false id, Err (PeWorker e))
                         | None, Some e =>
                             let suspended := pl_Resumable p && se_checkpointWritten s && oc_interrupted oc in
                             (abandon p r s analyzeOnly suspended id, Err (if suspended then PeSuspended else e))
                         | None, None =>
                             if analyzeOnly then (abandon p r s true false id, Ok (resultOf o id s))
                             else complete p o sourceVolume totalSize id (if bool_decide (absorbed = None) then None else oc_digest oc) r s
                         end
                     end
                 end
        end
    end.

Definition Backup := λ p o, run p o false.
Definition Analyze := λ p o, run p o true.

(** The pipeline [BackupResume] runs. *)
Definition resumePipeline (p : Pipeline) (rs : ResumeState) : Pipeline :=
  mkPipeline (pl_cfg p) (pl_norm p) (pl_key p) (pl_indexKey p) (pl_mode p) (pl_bound p) (pl_fileCatalog p)
    (rs_StartPackNum rs) (pl_hooks p) (rs_BackupID rs) (pl_IndexDelta p) (pl_Resumable p) (pl_StreamManifest p) (pl_sink p) (pl_FinishManifest p)
    (pl_StampManifest p) (pl_CheckpointFn p) (Some rs).

Definition BackupResume := λ p rs o, run (resumePipeline p rs) o false.

(** ** Incremental lineage *)

Definition hashPrefix (e : Dnm.Entry) : Z := le_get (take 8 (Dnm.ChunkHash e)).

(** The filter of the parent's hashes: entries up to the first that cannot be read. *)
Fixpoint fillParent (a : DnmAccess.EntryAccessor) (idxs : list nat) (bf : BloomFilter) : option BloomFilter :=
  match idxs with
  | [] => Some bf
  | i :: idxs => match DnmAccess.At a (Z.of_nat i) with
               | Err _ => Some bf
               | Ok e => bf ← Add bf (hashPrefix e); fillParent a idxs bf
               end
  end.

Fixpoint countChanged (bf : BloomFilter) (es : list Dnm.Entry) (changed unchanged : Z) : option (Z * Z) :=
  match es with
  | [] => Some (changed, unchanged)
  | e :: es => b ← MayContain bf (hashPrefix e);
               if (b : bool) then countChanged bf es changed (unchanged + 1) else countChanged bf es (changed + 1) unchanged
  end.

(** "incremental" *)
Definition sIncremental : bytes := [105;110;99;114;101;109;101;110;116;97;108].
Definition withLineage (b : Dnm.Backup) (parent : bytes) (changed unchanged : Z) : Dnm.Backup :=
  Dnm.mkBackup (Dnm.BackupID b) (Dnm.Timestamp b) (Dnm.SourceVolume b) (Dnm.SectorSize b) (Dnm.ClusterSize b) (Dnm.TotalBytes b) (Dnm.Entries b)
    parent sIncremental (Dnm.TotalChunks b) (Dnm.UniqueChunks b) (Dnm.DedupChunks b) (Dnm.RawBytes b) (Dnm.StoredBytes b)
    (Dnm.DedupRatio b) (Dnm.CompRatio b) (Dnm.Duration b) (Dnm.ContentDigest b) (Dnm.ContentDigestCovers b) (Dnm.ExcludePaths b)
    (Dnm.ExcludeWarnings b) changed unchanged (Dnm.BackupMode b) (Dnm.SourcePaths b) (Dnm.FileCatalog b)
    (Dnm.CatalogSidecarPath b) (Dnm.CatalogCount b) (Dnm.WrappedDEK b).

Definition parentAccessor (parseJSON : bytes → option Dnm.Backup) (d : dir) (parent : bytes) : result pipe_err DnmAccess.EntryAccessor :=
  match ManifestRepo.NewEntryAccessor d parent with
  | Ok a => Ok a
  | Err _ => match ManifestRepo.Load parseJSON d parent with
             | Err e => Err (PeLoad e)
             | Ok b => Ok (DnmAccess.NewSliceEntryAccessor (Dnm.Entries b))
             end
  end.

Definition ApplyParentLineage (parseJSON : bytes → option Dnm.Backup) (bloomBits : Z → Z) (d : dir) (backupID parent : bytes) : dir * result pipe_err (Z * Z) :=
  match parentAccessor parseJSON d parent with
  | Err e => (d, Err e)
  | Ok a =>
      let n := if DnmAccess.Count a =? 0 then 1 else DnmAccess.Count a in
      match fillParent a (seq 0 (Z.to_nat (DnmAccess.Count a))) (NewBloomFilter (bloomBits n)) with
      | None => (d, Err PePanic)
      | Some bf =>
          match ManifestRepo.Load parseJSON d backupID with
          | Err e => (d, Err (PeLoad e))
          | Ok b =>
              match countChanged bf (Dnm.Entries b) 0 0 with
              | None => (d, Err PePanic)
              | Some (changed, unchanged) =>
                  match ManifestRepo.Save (λ _, None) d (withLineage b parent changed unchanged) with
                  | Err e => (d, Err (PeSave e))
                  | Ok d => (d, Ok (changed, unchanged))
                  end
              end
          end
      end
  end.

Definition BackupIncremental (parseJSON : bytes → option Dnm.Backup) (p : Pipeline) (o : outer) (sourceVolume : bytes) (totalSize : Z) (parent : bytes)
    (oc : outcome) (r : repo) : repo * result pipe_err (pipe_result * bytes * Z * Z) :=
  match run p o false sourceVolume totalSize oc r with
  | (r, Err e) => (r, Err e)
  | (r, Ok res) =>
      let '(m, l) := ApplyParentLineage parseJSON (ou_bloomBits o) (rp_manifests r) (re_BackupID res) parent in
      (mkRepo (rp_index r) (rp_chunks r) m (rp_journal r) (rp_journal_enc r),
       match l with Ok (changed, unchanged) => Ok (res, parent, changed, unchanged) | Err e => Err e end)
  end.
End pipeline.
