(* ===== verification/Backups.v ===== *)
(** * core/pipeline: what a backup run guarantees

    The store loop keeps an invariant: every entry written so far is found in the index,
    every indexed chunk is in the packs, and the sidecar holds exactly the entries.  From
    it: a completed backup restores, a resumed one too, earlier backups keep their chunks,
    and what an interrupt can do to both. *)

From S2P Require Import Chunker.
From S2P Require Import Prelude GoBytes GoRuntime GoFiles Hashes HashTable HashBuild HashIndex Bloom Delta Fold Crypto Dedup PackStore Packs Preprocess RepoConfig Rebuild.
From S2P Require Import Prune Segment Resume Sequencer Pipeline.

Section loop.
Context {MR : MapRange} {SS : SortSlice} {PR : Primitives} {ZS : Zstd} {DC : DigestCodec}.
Context (p : Pipeline) (K : bytes → Prop) (id : bytes).

(** Every indexed chunk is in the packs, with its identity; its bytes are among [K], the
    chunks that earlier and present runs store. *)
Definition sound (fs : files) (M : gmap bytes IndexEntry) : Prop :=
  ∀ h e, M !! h = Some e → ∃ data, K data ∧ stored_at (pl_key p) fs (locOf e) data ∧ strongOf (pl_norm p) data = h.

(** A chunk as a worker prepares it. *)
Definition prepared_ok (pc : PreparedChunk) : Prop :=
  ∃ payload data, pc_Frame pc = frameOf payload (len data) ∧ openPayload (pl_key p) payload = Ok data ∧ len payload ≤ maxChunkFrameLen ∧
    id_StrongHash (pc_ID pc) = strongOf (pl_norm p) data ∧ strongOf (pl_norm p) data ≠ zeroHash ∧ is_u64 (id_WeakHash (pc_ID pc)) ∧ K data.

(** The caller's checkpoint writer succeeds and leaves the sidecar alone. *)
Definition checkpoints_ok : Prop :=
  match pl_CheckpointFn p with
  | None => True
  | Some fn => ∀ d pr dl, (fn d pr dl).2 = true ∧ stat (fn d pr dl).1 (ManifestRepo.EntriesPath id) = stat d (ManifestRepo.EntriesPath id)
  end.

(** The index [i] over the packs [fs]: what it holds is in the packs, the chunks of the
    entries [es] and all of [M0] are in it; [n] more chunks fit. *)
Record indexes (D M0 : gmap bytes IndexEntry) (idir : index_dir) (fs : files) (i : DedupIndex) (es : list Dnm.Entry) (n : Z) : Prop := {
  ix_rep : ∃ M ids cap, dedup_rep i D M ids cap ∧ sound fs M ∧
    (∀ e, e ∈ es → is_Some (M !! Dnm.ChunkHash e)) ∧ (∀ h, is_Some (M0 !! h) → is_Some (M !! h)) ∧
    Z.of_nat (size M) + n ≤ 2 ^ 35 ∧ len cap + n < 2 ^ 63;
  ix_conf : ix_noHtab (di_index i) = false ∧ di_key i = pl_indexKey p ∧ di_dir i = idir }.

Lemma sound_grow fs fs' M : packs_grow fs fs' → sound fs M → sound fs' M.
Proof. intros Hg Hs h e He. destruct (Hs h e He) as (d & Hk & Hd & Hh). exists d. split; [done|]. split; [by eapply stored_at_grow|done]. Qed.

Lemma indexes_grow D M0 idir fs fs' i es n n' : packs_grow fs fs' → n' ≤ n → indexes D M0 idir fs i es n → indexes D M0 idir fs' i es n'.
Proof.
  intros Hg Hn [(M & ids & cap & Hr & Hs & H1 & H2 & H3 & H4) Hc]. split; [|done]. exists M, ids, cap. split_and!; try done; [by eapply sound_grow|lia|lia].
Qed.

Lemma sound_insert fs M h e data : sound fs M → K data → stored_at (pl_key p) fs (locOf e) data → strongOf (pl_norm p) data = h → sound fs (<[h := e]> M).
Proof.
  intros Hs Hk Ha Hh h' e'. destruct (decide (h = h')) as [->|Hne]; [|rewrite lookup_insert_ne by done; apply Hs].
  rewrite lookup_insert_eq. intros [= <-]. by exists data.
Qed.

(** Looking a chunk up. *)
Lemma Check_indexes D M0 idir fs i es n w h : indexes D M0 idir fs i es n → bytes_ok h → h ≠ zeroHash →
  ∃ r, Check i w h = Ok r ∧ ∀ e, dr_IsNew r = false → Dnm.ChunkHash e = h → indexes D M0 idir fs i (es ++ [e]) n.
Proof.
  intros [(M & ids & cap & Hr & Hs & H1 & H2 & H3 & H4) Hc] Hb Hz.
  destruct (Check_rep _ _ _ _ w h (dedup_tiers _ _ _ _ _ Hr) Hb Hz) as (r & Hck & Hnew & Hent & _). exists r. split; [done|].
  intros e Hn He. apply Hnew in Hn as [x Hx]. apply Hent in Hx. split; [|done]. exists M, ids, cap. split_and!; try done.
  intros e' [Hin|Hin%list_elem_of_singleton]%elem_of_app; [by apply H1|]. subst e'. rewrite He. by exists x.
Qed.

(** Indexing a chunk that is in the packs. *)
Lemma DInsert_indexes D M0 idir fs i es n w h np no data c e : K data → indexes D M0 idir fs i es (n + 1) → 0 ≤ n → small_packs fs →
  stored_at (pl_key p) fs (np, no) data → strongOf (pl_norm p) data = h → h ≠ zeroHash → is_u64 w → is_u32 c → Dnm.ChunkHash e = h →
  ∃ i', DInsert i w h np (u64 no) c = Some i' ∧ indexes D M0 idir fs i' (es ++ [e]) n.
Proof.
  intros HK [(M & ids & cap & Hr & Hs & H1 & H2 & H3 & H4) (C1 & C2 & C3)] Hn Hsm Hat Hh Hz Hw Hc He.
  assert (Hfold : foldable (mkDelta h w np (u64 no) c)).
  { split; [|done]. split; cbn; [rewrite <- Hh; split; [apply length_Sum256|apply bytes_ok_Sum256]|done|apply Hat|apply u64_range|done]. }
  destruct (DInsert_rep i D M ids cap _ Hr Hfold ltac:(lia)) as (i' & HI & Hr' & _ & _ & K1 & K2 & K3). exists i'. split; [exact HI|].
  cbn [idx_of de_StrongHash de_PackNumber de_StoreOffset de_ChunkLength] in Hr'. split; [|by split_and!; congruence].
  pose proof (stored_at_offset _ _ _ _ Hsm Hat) as Hoff. cbn [snd] in Hoff. eexists _, _, _. split; [exact Hr'|].
  assert (Hloc : locOf (mkEntry h np (u64 no) c) = (np, no)) by (unfold locOf; cbn; rewrite u64_id, i64_id by (unfold is_u64, is_i64; lia); done).
  split_and!.
  - apply (sound_insert _ _ _ _ data); [done|done| |done].  by rewrite <- Hloc in Hat.
  - intros e' [Hin|Hin%list_elem_of_singleton]%elem_of_app; apply lookup_insert_is_Some'; [right; by apply H1|left; congruence].
  - intros h' Hx. apply lookup_insert_is_Some'. right. by apply H2.
  - match goal with |- context [size (<[?k := ?x]> ?m)] => pose proof (size_insert_le m k x) end. lia.
  - rewrite length_app. cbn [length]. lia.
Qed.

Lemma Flush_indexes D M0 idir fs i es n : indexes D M0 idir fs i es n → 0 ≤ n → ∃ i', FlushHashIndex i = (i', None) ∧ indexes D M0 idir fs i' es n.
Proof.
  intros [(M & ids & cap & Hr & Hs & H1 & H2 & H3 & H4) (C1 & C2 & C3)] Hn.
  destruct (FlushHashIndex_rep i _ _ _ _ Hr C1 ltac:(lia)) as (i' & -> & Hr' & _ & L1 & L2 & L3). exists i'. split; [done|].
  split; [by exists M, ids, cap|by split_and!; congruence].
Qed.

(** ** The loop's invariant *)

Record good (D M0 : gmap bytes IndexEntry) (idir : index_dir) (fs0 : files) (s : session) (es : list Dnm.Entry) (n : Z) : Prop := {
  go_index : indexes D M0 idir (cs_files (se_store s)) (se_index s) es n;
  go_store : filling (se_store s) ∧ (cs_maxPackSize (se_store s) < 2 ^ 63 ∧ cs_maxPackSize (se_store s) = c_PackFileMaxSize (pl_cfg p)) ∧ cs_key (se_store s) = pl_key p ∧ packs_grow fs0 (cs_files (se_store s));
  go_packs : cs_currentPackNum (se_store s) + n < 2 ^ 32;
  go_sidecar : stat (se_manifests s) (ManifestRepo.EntriesPath id) = Some (DnmFile.entryBytes es);
  go_stream : se_stream s = None }.

(** A checkpoint, when one is due, changes nothing of this. *)
Lemma checkpoint_step s pc packNum : checkpoints_ok → se_stream s = None →
  ∃ s', (match pl_CheckpointFn p with
         | Some fn => if se_curPack s <? packNum then emitCheckpoint fn id s pc packNum else (s, None)
         | None => (s, None) end) = (s', None) ∧
    se_index s' = se_index s ∧ se_store s' = se_store s ∧ se_stream s' = None ∧
    stat (se_manifests s') (ManifestRepo.EntriesPath id) = stat (se_manifests s) (ManifestRepo.EntriesPath id).
Proof.
  intros Hc Hn. unfold checkpoints_ok in Hc. destruct (pl_CheckpointFn p) as [fn|]; [|by exists s]. destruct (_ <? _); [|by exists s].
  unfold emitCheckpoint. rewrite Hn. match goal with |- context [fn ?a ?b ?c] => destruct (Hc a b c) as [H1 H2]; destruct (fn a b c) as [m ok] end.
  cbn in *. subst ok. eexists. split; [reflexivity|]. done.
Qed.

(** What a session must keep for the parts after the store. *)
Definition unchanged (s s' : session) : Prop :=
  se_stream s' = se_stream s ∧ stat (se_manifests s') (ManifestRepo.EntriesPath id) = stat (se_manifests s) (ManifestRepo.EntriesPath id).

(** Storing and indexing one new chunk. *)
Lemma storeNew_good D M0 idir fs0 s es n pc : checkpoints_ok → seals (pl_hooks p) → good D M0 idir fs0 s es (n + 1) → 0 ≤ n → prepared_ok pc →
  ∃ s', storeNew p id s pc = (s', None) ∧ unchanged s s' ∧
    indexes D M0 idir (cs_files (se_store s')) (se_index s') (es ++ [entryOf pc]) n ∧ cs_currentPackNum (se_store s') + n < 2 ^ 32 ∧
    filling (se_store s') ∧ (cs_maxPackSize (se_store s') < 2 ^ 63 ∧ cs_maxPackSize (se_store s') = c_PackFileMaxSize (pl_cfg p)) ∧ cs_key (se_store s') = pl_key p ∧ packs_grow fs0 (cs_files (se_store s')).
Proof.
  intros Hck Hse [Hix (Hfi & [Hmx Hmc] & Hky & Hg) Hpn Hsc Hst] Hn (pay & data & Hf & Ho & Hp & Hh & Hz & Hw & HK). unfold storeNew. rewrite Hf.
  pose proof (so_num _ (fi_ok _ Hfi)) as Hu.
  destruct (StoreRaw_step (pl_hooks p) (se_store s) (frameOf pay (len data)) Hse Hfi ltac:(unfold is_u32 in *; lia)) as (st' & [np no] & cn & -> & Hfi' & Hg' & Hcf & Hn' & Hlu & Hhas);
    [rewrite length_frameOf; lia|]. cbn [fst snd] in *.
  destruct (checkpoint_step (withIndex s (se_index s) st') pc np Hck Hst) as (s1 & -> & H1 & H2 & H3 & H5). cbn [se_index withIndex se_store se_manifests] in *.
  assert (Hmx' : cs_maxPackSize st' < 2 ^ 63) by (by rewrite (proj1 Hcf)). assert (Hsm : small_packs (cs_files st')) by (by apply filling_small).
  assert (Hst' : filling st' ∧ (cs_maxPackSize st' < 2 ^ 63 ∧ cs_maxPackSize st' = c_PackFileMaxSize (pl_cfg p)) ∧ cs_key st' = pl_key p ∧ packs_grow fs0 (cs_files st')).
  { split_and!; [done|done|by rewrite (proj1 Hcf)|destruct Hcf as (_ & _ & -> & _); done|by etrans]. }
  assert (Hat : stored_at (pl_key p) (cs_files st') (np, no) data) by (split; [done|]; by exists pay).
  destruct (DInsert_indexes D M0 idir (cs_files st') (se_index s) es n (id_WeakHash (pc_ID pc)) (id_StrongHash (pc_ID pc)) np no data (u32 (Length (pc_Chunk pc))) (entryOf pc))
    as (i1 & HI & Hi1); [done|by eapply indexes_grow; [exact Hg'|reflexivity|]|done|done|done|done|congruence|done|apply u32_range|done|].
  cbn [it_StrongHash it_WeakHash it_PackNumber it_StoreOffset it_ChunkLength se_index countStored withTally]. rewrite H1, HI.
  destruct (Flush_indexes _ _ _ _ _ _ _ Hi1 Hn) as (i2 & Hf2 & Hi2).
  destruct (pl_CheckpointFn p) as [fn|]; cbn [se_index se_store withPending withIndex se_tally countStored withTally]; destruct (_ =? 0); rewrite ?Hf2; eexists; (split; [reflexivity|]);
    unfold unchanged; cbn [se_stream se_manifests se_store se_index withIndex withPending countStored withTally]; rewrite H2, H3, H5; split_and!; try done; try congruence; try lia.
  all: apply Hst'.
Qed.

Lemma stat_write m e es : stat m (ManifestRepo.EntriesPath id) = Some (DnmFile.entryBytes es) →
  stat (ManifestRepo.EntryWriter_WriteEntry m id e) (ManifestRepo.EntriesPath id) = Some (DnmFile.entryBytes (es ++ [e])).
Proof. intros Hm. unfold ManifestRepo.EntryWriter_WriteEntry. rewrite Hm, stat_create, decide_True by done. rewrite fmap_app, concat_app. cbn. by rewrite app_nil_r. Qed.

Lemma storeChunk_good D M0 idir fs0 s es n pc : checkpoints_ok → seals (pl_hooks p) → good D M0 idir fs0 s es (n + 1) → 0 ≤ n → prepared_ok pc →
  ∃ s', storeChunk p false id s pc = (s', None) ∧ good D M0 idir fs0 s' (es ++ [entryOf pc]) n.
Proof.
  intros Hck Hse Hgd Hn Hpc. pose proof Hgd as [Hix Hst Hpn Hsc Hss]. pose proof Hpc as (pay & data & _ & _ & _ & Hh & Hz & _). unfold storeChunk.
  destruct (Check_indexes D M0 idir _ _ es (n + 1) (id_WeakHash (pc_ID pc)) (id_StrongHash (pc_ID pc)) Hix) as (r & Hr & Hdup);
    [rewrite Hh; apply bytes_ok_Sum256|by rewrite Hh|].
  cbn [se_index countChunk]. rewrite Hr. cbn [andb negb]. rewrite andb_true_r. destruct (dr_IsNew r) eqn:Hnew.
  - destruct (storeNew_good D M0 idir fs0 (countUnique (countLookup (countChunk s pc) r)) es n pc Hck Hse) as (s' & -> & [U1 U2] & Hi' & Hp' & Hst');
      [by split|done|done|]. unfold recordEntry. cbn [se_stream] in U1. rewrite U1. cbn. rewrite Hss. eexists. split; [reflexivity|].
    cbn in U2. split; cbn; [done|done|done| |done]. apply stat_write. by rewrite U2.
  - unfold recordEntry. cbn. rewrite Hss. eexists. split; [reflexivity|]. split; cbn; [|done|lia| |done].
    + eapply indexes_grow; [reflexivity| |by apply Hdup]. lia.
    + by apply stat_write.
Qed.

Lemma storeLoop_good D M0 idir fs0 pcs : checkpoints_ok → seals (pl_hooks p) → Forall prepared_ok pcs →
  ∀ s es, good D M0 idir fs0 s es (len pcs) → ∃ s', storeLoop p false id pcs s = (s', None) ∧ good D M0 idir fs0 s' (es ++ (entryOf <$> pcs)) 0.
Proof.
  intros Hck Hse. induction 1 as [|pc pcs Hpc _ IH]; intros s es Hgd; cbn [storeLoop]; [exists s; by rewrite app_nil_r|].
  destruct (storeChunk_good D M0 idir fs0 s es (len pcs) pc Hck Hse) as (s1 & -> & Hg1); [|lia|done|].
  { cbn [length] in Hgd. by replace (len pcs + 1) with (Z.of_nat (S (length pcs))) by lia. }
  destruct (IH s1 _ Hg1) as (s' & -> & Hg'). exists s'. split; [done|]. cbn. by rewrite <- app_assoc in Hg'.
Qed.
End loop.

Section run.
Context {MR : MapRange} {SS : SortSlice} {PR : Primitives} {ZS : Zstd} {DC : DigestCodec}.
Context (p : Pipeline) (K : bytes → Prop) (o : outer).

Definition packsOf (r : repo) : files := default ∅ (rp_chunks r).
Definition indexMap (bs : list IndexEntry) (ess : list (list DeltaEntry)) : gmap bytes IndexEntry := insert_all (idx_of <$> concat ess) (insert_all bs ∅).

(** A pipeline as the constructors make it, and arguments of the right sizes. *)
Record runnable : Prop := {
  ru_bound : pl_bound p = true;
  ru_mode : pl_mode p = EncryptNone ∨ is_Some (pl_key p);
  ru_avg : c_ChunkAvgSize (pl_cfg p) ≠ 0;
  ru_max : c_PackFileMaxSize (pl_cfg p) < 2 ^ 63;
  ru_key : key_ok (pl_indexKey p);
  ru_bloom : ∀ n, is_u64 (ou_bloomBits o n) ∧ ou_bloomBits o n < 2 ^ 64 - 63;
  ru_flush : length (ou_flush o).1.1 = 12%nat ∧ length (ou_flush o).1.2 = 12%nat ∧ length (ou_flush o).2 = 12%nat;
  ru_close : length (ou_close o).1.1.1 = 12%nat ∧ length (ou_close o).1.1.2 = 12%nat ∧ length (ou_close o).1.2 = 12%nat ∧ length (ou_close o).2 = 12%nat;
  ru_stream : pl_StreamManifest p = None;
  ru_seals : seals (pl_hooks p) }.

(** An index directory with nothing in it, or with the empty index file of a run that wrote
    nothing else. *)
Definition emptyDir : index_dir := mkDir None None None None [].
Record unwritten (dir : index_dir) : Prop := {
  un_bloom : id_bloom dir = None ∧ id_bloom_enc dir = None;
  un_index : default [] (id_index dir) = [] ∧ id_index_enc dir = None;
  un_deltas : id_deltas dir = [] }.

(** A repository whose index, a new one or one with a filter, finds its chunks in the
    packs. *)
Record healthy (r : repo) (bs : list IndexEntry) (ess : list (list DeltaEntry)) : Prop := {
  he_index : (∃ bf, dir_holds (pl_indexKey p) (rp_index r) bf bs ess) ∨ unwritten (rp_index r) ∧ bs = [] ∧ ess = [];
  he_sound : sound p K (packsOf r) (indexMap bs ess);
  he_limit : limit (c_PackFileMaxSize (pl_cfg p)) (packsOf r) }.

(** What the index of [r] must serve after a run: earlier chunks and those of [es], each
    read back from the packs with its identity. *)
Definition serves (r : repo) (M0 : gmap bytes IndexEntry) (es : list Dnm.Entry) : Prop :=
  ∀ raw, ∃ d, NewDedupIndex (rp_index r) raw (pl_indexKey p) = Ok d ∧
    ∀ h, bytes_ok h → h ≠ zeroHash → is_Some (M0 !! h) ∨ h ∈ (Dnm.ChunkHash <$> es) →
      ∃ e data, K data ∧ LookupDirect d h = Ok (Some e) ∧ strongOf (pl_norm p) data = h ∧
        ∀ hooks cs, cs_files cs = packsOf r → cs_key cs = pl_key p → cs_frameCache cs = ∅ →
          Retrieve hooks cs (PackNumber e) (i64 (StoreOffset e)) = (cs, Ok data).

(** An insert a resumed run replays: the chunk is in the packs. *)
Definition replayable (fs : files) (t : InsertTuple) : Prop :=
  (∃ data, K data ∧ stored_at (pl_key p) fs (it_PackNumber t, it_StoreOffset t) data ∧ strongOf (pl_norm p) data = it_StrongHash t) ∧
  it_StrongHash t ≠ zeroHash ∧ is_u64 (it_WeakHash t) ∧ is_u32 (it_ChunkLength t).

Definition tupleEntry (t : InsertTuple) : Dnm.Entry := Dnm.mkEntry 0 (it_StrongHash t) 0 false.

Lemma preload_indexes D M0 idir fs ts : small_packs fs → Forall (replayable fs) ts → ∀ d es n, 0 ≤ n → indexes p K D M0 idir fs d es (len ts + n) →
  ∃ d', preload ts d = Some d' ∧ indexes p K D M0 idir fs d' (es ++ (tupleEntry <$> ts)) n.
Proof.
  intros Hsm. induction 1 as [|t ts ((data & HK & Hat & Hh) & Hz & Hw & Hc) _ IH]; intros d es n Hn Hi; [exists d; by rewrite app_nil_r|].
  cbn [preload length] in *. pose proof (stored_at_offset _ _ _ _ Hsm Hat) as Ho. cbn [snd] in Ho.
  destruct (DInsert_indexes p K D M0 idir fs d es (len ts + n) (it_WeakHash t) (it_StrongHash t) (it_PackNumber t) (it_StoreOffset t) data (it_ChunkLength t) (tupleEntry t))
    as (d1 & HI & Hi1); [done|by eapply indexes_grow; [reflexivity|..|exact Hi]; lia|lia|done..|].
  rewrite u64_id in HI by (unfold is_u64; lia). rewrite HI. cbn. destruct (IH d1 _ n Hn Hi1) as (d' & -> & Hi'). exists d'. split; [done|].
  by rewrite <- app_assoc in Hi'.
Qed.

Lemma indexes_entries D M0 idir fs i es es' n : indexes p K D M0 idir fs i es n →
  (∀ e, e ∈ es' → is_Some (M0 !! Dnm.ChunkHash e) ∨ Dnm.ChunkHash e ∈ (Dnm.ChunkHash <$> es)) → indexes p K D M0 idir fs i es' n.
Proof.
  intros [(M & ids & cap & Hr & Hs & H1 & H2 & H3 & H4) Hc] He. split; [|done]. exists M, ids, cap. split_and!; try done.
  intros e Hin. destruct (He e Hin) as [?|(e' & -> & Hin')%list_elem_of_fmap]; [by apply H2|by apply H1].
Qed.

(** What opening leaves of the directory. *)
Definition opened_dir (idir : index_dir) (ess : list (list DeltaEntry)) : Prop :=
  objects_hold (pl_indexKey p) (deltaObjects idir) ess ∧ (pl_indexKey p = None → id_bloom_enc idir = None ∧ id_index_enc idir = None).

Lemma openDedup_healthy r bs ess n : runnable → healthy r bs ess → ∃ d, openDedup false (rp_index r) (ou_bloomBits o n) (pl_indexKey p) = Ok d ∧
  dedup_rep d (insert_all bs ∅) (indexMap bs ess) (id_of <$> concat ess) [] ∧ di_delta d = None ∧ di_key d = pl_indexKey p ∧
  BloomSuspect d = false ∧ ix_noHtab (di_index d) = false ∧ opened_dir (di_dir d) ess.
Proof.
  intros Hru [[(bf & Hd)|([[B1 B2] [I1 I2] D1] & -> & ->)] _ _].
  - destruct (openDedup_rep false (rp_index r) (ou_bloomBits o n) _ bf bs ess Hd) as (d & Ho & Hr & Hdl & Hk & Hid & Hbm & Hht & Hen & _). exists d.
    split_and!; try done; [unfold BloomSuspect; by rewrite Hbm|]. split; [unfold deltaObjects; rewrite Hid; apply Hd|done].
  - destruct (rp_index r) as [bl ble ix ixe dls]. cbn in B1, B2, I1, I2, D1. subst bl ble ixe dls.
    destruct (NewHashIndex_rep [] false empty_file_ok) as (idx & Hn & Hs & Hr). change (sortedFile []) with (@nil Z) in Hn.
    assert (Hc : Count idx = 0) by (by rewrite (Count_rep idx _ _ Hr Hs)). destruct (ru_bloom Hru n) as [B1 B2]. pose proof (NewBloomFilter_ok _ B1 B2) as Hb.
    unfold openDedup. destruct (pl_indexKey p) as [k|] eqn:Hkey; cbn -[NewHashIndex NewBloomFilter]; rewrite I1, Hn; clear Hn; unfold applyPendingDeltas; cbn -[NewBloomFilter]; (eexists; split; [reflexivity|]);
      (split_and!; [split; cbn -[NewBloomFilter]; [done|exact Hr|by intros w h ?%elem_of_nil|exact I]|done|done|unfold BloomSuspect; cbn -[Count]; by rewrite Hc|done|]);
      (split; [by constructor|done]).
Qed.

Lemma openIndex_good r bs ess totalSize ts es n : runnable → healthy r bs ess →
  ts = match pl_resume p with Some rs => rs_PreloadInserts rs | None => [] end → small_packs (packsOf r) → Forall (replayable (packsOf r)) ts → 0 ≤ n →
  Z.of_nat (size (indexMap bs ess)) + len ts + n ≤ 2 ^ 35 →
  (∀ e, e ∈ es → is_Some (indexMap bs ess !! Dnm.ChunkHash e) ∨ Dnm.ChunkHash e ∈ (it_StrongHash <$> ts)) →
  ∃ d, openIndex p o false totalSize r = (r, Ok d) ∧
    indexes p K (insert_all bs ∅) (indexMap bs ess) (di_dir d) (packsOf r) d es n ∧ opened_dir (di_dir d) ess.
Proof.
  intros Hru Hhe Hts Hsm Hre Hn Hsz Hes. unfold openIndex. rewrite (proj2 (Z.eqb_neq _ _)) by apply Hru. pose proof (he_sound _ _ _ Hhe) as Hs.
  set (n0 := u64 _). destruct (openDedup_healthy r bs ess n0 Hru Hhe) as (d & Ho & Hr & Hdl & Hk & Hbm & Hht & Hod).
  unfold NewDedupIndex. rewrite Ho. rewrite andb_true_r. set (arm := if pl_IndexDelta p then _ else _).
  assert (Ha : ∃ d1, arm = Ok d1 ∧ dedup_rep d1 (insert_all bs ∅) (indexMap bs ess) (id_of <$> concat ess) [] ∧ di_key d1 = pl_indexKey p ∧
    di_dir d1 = di_dir d ∧ BloomSuspect d1 = false ∧ ix_noHtab (di_index d1) = false).
  { unfold arm. destruct (pl_IndexDelta p); [|by exists d]. unfold CaptureDelta. rewrite Hdl. eexists. split; [reflexivity|]. split_and!; try done.
    destruct Hr as [A1 A2 A3 _]. by split. }
  destruct Ha as (d1 & -> & Hr1 & Hk1 & Hd1 & Hbm1 & Hht1). rewrite Hbm1. cbn [andb negb]. rewrite <- Hts.
  destruct (preload_indexes (insert_all bs ∅) (indexMap bs ess) (di_dir d1) (packsOf r) ts Hsm Hre d1 [] n Hn) as (d2 & -> & Hi2).
  { split; [|done]. exists (indexMap bs ess), (id_of <$> concat ess), []. split_and!; try done; [by intros e ?%elem_of_nil|lia|cbn; lia]. }
  exists d2. split; [done|]. assert (Hdir : di_dir d2 = di_dir d1) by apply (ix_conf _ _ _ _ _ _ _ _ _ Hi2). rewrite Hdir. split.
  - eapply indexes_entries; [exact Hi2|]. intros e He. destruct (Hes e He) as [?|(t & Ht & Hin)%list_elem_of_fmap]; [by left|right].
    cbn. rewrite Ht. apply list_elem_of_fmap. exists (tupleEntry t). split; [done|]. by apply list_elem_of_fmap_2.
  - by rewrite Hd1.
Qed.

Lemma CloseStore_seals h cs : seals h → store_ok cs → ∃ cs', CloseStore h cs = (cs', None) ∧ cs_files cs' = cs_files cs.
Proof.
  intros Hs [_ Hh _]. unfold CloseStore, seals in *. destruct (cs_currentPack cs); [by eexists| |done].
  destruct (OnPackSealed h) as [f|]; [|by eexists]. rewrite Hs, andb_false_r. by eexists.
Qed.

(** Deltas applied again at the next open change nothing for the worse. *)
Lemma sound_reapplied fs bs ess M : sound p K fs M → sound p K fs (indexMap bs ess) → sound p K fs (insert_all (idx_of <$> concat ess) M).
Proof.
  intros Hs H0 h e. rewrite insert_all_lookup_last. destruct (last _) as [e'|] eqn:Hl; [|apply Hs].
  intros [= <-]. apply H0. unfold indexMap. rewrite insert_all_lookup_last. by rewrite Hl.
Qed.

(** In a healthy repository every indexed chunk reads back with its identity. *)
Lemma healthy_serves r M0 es bf bs ess : runnable → healthy r bs ess → dir_holds (pl_indexKey p) (rp_index r) bf bs ess →
  (∀ h, is_Some (M0 !! h) ∨ h ∈ (Dnm.ChunkHash <$> es) → is_Some (indexMap bs ess !! h)) → serves r M0 es.
Proof.
  intros Hru [_ Hs Hl] Hd Hin raw. destruct (openDedup_rep false (rp_index r) raw _ bf bs ess Hd) as (d & Ho & Hrep & _). exists d. split; [done|].
  assert (Hsm : small_packs (packsOf r)). { intros n f Hf. apply Hl in Hf. pose proof (ru_max Hru). change maxChunkFrameLen with 67108864 in Hf. lia. }
  intros h Hb Hz Hh. destruct (Hin h Hh) as [e He]. destruct (Hs h e He) as (data & HK & Hat & Hid). exists e, data. split; [done|]. split; [|split; [done|]].
  - rewrite <- He. by apply (Lookup_rep _ _ _ h (dr_index _ _ _ _ _ Hrep) Hb Hz).
  - intros hooks cs Hf Hk Hc. apply stored_at_Retrieve; [by rewrite Hc|by rewrite Hf|]. by rewrite Hf, Hk.
Qed.

(** The manifest a completed run saves can be written. *)
Record savable (m : Dnm.Backup) (id : bytes) (fes : list Dnm.FileEntry) (es : list Dnm.Entry) : Prop := {
  sa_id : Dnm.BackupID m = id;
  sa_entries : Dnm.Entries m = [];
  sa_counts : Dnm.counts_fit m;
  sa_catalog : DnmFile.writable fes ∧ DnmFile.catalog_from m (tempFiles p o) fes;
  sa_size : len (Dnm.encodeMetadata m) + len (DnmFile.catalogBytes fes) + len (DnmFile.entryBytes es) + 148 < 2 ^ 63 }.

Lemma complete_good parseJSON vol size_ id digest r s es fes bs ess fs0 idir : runnable → good p K id (insert_all bs ∅) (indexMap bs ess) idir fs0 s es 0 → opened_dir idir ess →
  sound p K fs0 (indexMap bs ess) → DnmFile.hashed es →
  let m := pl_StampManifest p (manifestOf p o vol size_ digest (resultOf o id s)) in savable m id fes es →
  ∃ r' bs', complete p o vol size_ id digest r s = (r', Ok (resultOf o id s)) ∧
    ManifestRepo.saved parseJSON (rp_manifests r') id m fes es ∧ healthy r' bs' ess ∧ serves r' (indexMap bs ess) es ∧ packs_grow fs0 (packsOf r').
Proof.
  intros Hru [[(M & ids & cap & Hr & Hs & H1 & H2 & H3 & H4) (C1 & C2 & C3)] (Hfi & [Hmx Hmc] & Hky & Hg) Hpn Hsc Hst] [Hob Hen] H0 Hh m [S1 S2 S3 [S4 S5] S6]. unfold complete.
  destruct (CloseStore_seals (pl_hooks p) (se_store s) (ru_seals Hru) (fi_ok _ Hfi)) as (st & -> & Hf).
  pose proof (ru_flush Hru) as (F1 & F2 & F3). pose proof (ru_close Hru) as (L1 & L2 & L3 & L4).
  destruct (ou_flush o) as [[n1 n2] n3], (ou_close o) as [[[c1 c2] c3] c4]. cbn [fst snd] in *.
  destruct (DFlush_rep (se_index s) _ _ _ _ n1 n2 n3 Hr ltac:(rewrite C2; apply Hru) ltac:(lia) ltac:(lia) F1 F2 F3) as (d1 & -> & Hi1 & _ & Hb1 & Hd1 & Hk1 & Hid1 & _ & Hp1).
  cbn [se_stream withIndex se_manifests]. rewrite Hst. fold m.
  destruct (ManifestRepo.Save_saved parseJSON (tempFiles p o) (se_manifests s) m fes es S3 S4 Hh) as (dm & -> & Hl);
    [rewrite S1, Hsc; right; left; done|done|done|]. rewrite S1 in Hl.
  assert (Hr1 : dedup_rep d1 M M ids cap). { destruct Hr as [A1 A2 A3 A4]. split; [by rewrite Hb1|done|by rewrite Hb1|by rewrite Hd1]. }
  destruct (DClose_rep d1 M M ids cap ess c1 c2 c3 c4 Hr1) as (d2 & dir & bs' & -> & Hdir & HM & _);
    [rewrite Hk1, C2; apply Hru|lia|lia|done|done|done|done|unfold deltaObjects in *; by rewrite Hid1, C3, Hk1, C2| |].
  { intros Hn. rewrite Hk1 in Hn. destruct (Hp1 Hn) as [-> ->]. rewrite C3. apply Hen. congruence. }
  rewrite Hk1, C2 in Hdir. eexists _, bs'. split; [reflexivity|]. split; [exact Hl|].
  assert (Hp' : packsOf (mkRepo dir (Some (cs_files st)) dm (di_journal d2) (di_journal_enc d2)) = cs_files (se_store s)) by exact Hf.
  assert (Hhe : healthy (mkRepo dir (Some (cs_files st)) dm (di_journal d2) (di_journal_enc d2)) bs' ess).
  { split; [left; by eexists| |rewrite Hp', <- Hmc; apply Hfi]. rewrite Hp'. unfold indexMap. rewrite HM. apply (sound_reapplied _ bs); [done|]. by eapply sound_grow. }
  split; [done|]. split; [|by rewrite Hp']. eapply healthy_serves; [done|done|done|].
  intros h Hin. unfold indexMap at 1. rewrite HM, insert_all_lookup_last. destruct (last _); [by eexists|].
  destruct Hin as [?|(e & -> & Hin)%list_elem_of_fmap]; [by apply H2|by apply H1].
Qed.

(** The pack the run writes to first. *)
Definition firstPack (r : repo) : Z := if 0 <? pl_StartPackNum p then pl_StartPackNum p else findLatestPack (packsOf r).

Lemma openStore_filling r : limit (c_PackFileMaxSize (pl_cfg p)) (packsOf r) → is_u32 (firstPack r) → nothing_above (packsOf r) (firstPack r) →
  filling (openStore p r) ∧ cs_files (openStore p r) = packsOf r ∧ cs_currentPackNum (openStore p r) = firstPack r ∧
  cs_maxPackSize (openStore p r) = c_PackFileMaxSize (pl_cfg p) ∧ cs_key (openStore p r) = pl_key p.
Proof.
  intros Hl Hu Ha. unfold openStore, firstPack in *. destruct (0 <? _); (split; [|done]); split; [by apply NewChunkStoreAt_ok|done|done|apply NewChunkStore_ok|done|done].
Qed.

Definition runID : bytes := if bool_decide (pl_BackupID p = []) then ou_newID o else pl_BackupID p.

(** A run over a healthy repository [r] that starts with the entries [es0] on disk and the
    inserts [ts] to replay, and is given [n] chunks. *)
Record ready (r : repo) (bs : list IndexEntry) (ess : list (list DeltaEntry)) (ts : list InsertTuple) (es0 : list Dnm.Entry) (n : Z) : Prop := {
  rd_healthy : healthy r bs ess;
  rd_replay : ts = match pl_resume p with Some rs => rs_PreloadInserts rs | None => [] end ∧ Forall (replayable (packsOf r)) ts;
  rd_known : ∀ e, e ∈ es0 → is_Some (indexMap bs ess !! Dnm.ChunkHash e) ∨ Dnm.ChunkHash e ∈ (it_StrongHash <$> ts);
  rd_sidecar : ∃ m, openEntries p false runID (rp_manifests r) = Ok m ∧ stat m (ManifestRepo.EntriesPath runID) = Some (DnmFile.entryBytes es0);
  rd_hashed : DnmFile.hashed es0;
  rd_pack : is_u32 (firstPack r) ∧ nothing_above (packsOf r) (firstPack r) ∧ firstPack r + n < 2 ^ 32;
  rd_size : Z.of_nat (size (indexMap bs ess)) + len ts + n ≤ 2 ^ 35 }.

Lemma run_good parseJSON vol size_ oc r bs ess ts es0 fes absorbed : runnable → checkpoints_ok p runID → digestStart p = Ok absorbed →
  ready r bs ess ts es0 (len (oc_received oc)) → Forall (prepared_ok p K) (oc_received oc) → oc_workerErr oc = None → oc_chunker oc = None →
  let digest := if bool_decide (absorbed = None) then None else oc_digest oc in
  let es := es0 ++ (entryOf <$> oc_received oc) in
  (∀ res, re_BackupID res = runID → savable (pl_StampManifest p (manifestOf p o vol size_ digest res)) runID fes es) →
  ∃ r' res bs', run p o false vol size_ oc r = (r', Ok res) ∧
    ManifestRepo.saved parseJSON (rp_manifests r') runID (pl_StampManifest p (manifestOf p o vol size_ digest res)) fes es ∧
    healthy r' bs' ess ∧ serves r' (indexMap bs ess) es ∧ packs_grow (packsOf r) (packsOf r').
Proof.
  intros Hru Hck Hdg [Hhe [Hts Hre] Hkn (m & Hoe & Hst) Hh0 (Hfu & Hfa & Hfn) Hsz] Hpcs Hwe Hce digest es Hsav. unfold run. rewrite (ru_bound Hru). cbn [negb].
  assert (Hmode : negb (String.eqb (pl_mode p) EncryptNone) && bool_decide (pl_key p = None) = false).
  { destruct (ru_mode Hru) as [->|[k ->]]; [by rewrite String.eqb_refl|by rewrite andb_false_r]. }
  rewrite Hmode. fold runID. pose proof (he_limit _ _ _ Hhe) as Hlim.
  destruct (openStore_filling r Hlim Hfu Hfa) as (Hfi & Hfs & Hpn & Hmx & Hky).
  assert (Hsm : small_packs (packsOf r)) by (rewrite <- Hfs; apply filling_small; [done|rewrite Hmx; apply Hru]).
  destruct (openIndex_good r bs ess size_ ts es0 (len (oc_received oc)) Hru Hhe Hts Hsm Hre ltac:(lia) Hsz Hkn) as (d & -> & Hix & Hod).
  rewrite Hdg. rewrite (bool_decide_eq_false_2 (is_Some (pl_StreamManifest p))) by (rewrite (ru_stream Hru); by intros [? ?]). cbn [andb]. rewrite Hoe.
  destruct (storeLoop_good p K runID (insert_all bs ∅) (indexMap bs ess) (di_dir d) (packsOf r) (oc_received oc) Hck (ru_seals Hru) Hpcs
    (firstSession p d (openStore p r) m) es0) as (s & -> & Hg).
  { split; cbn [firstSession se_index se_store se_manifests se_stream]; [by rewrite Hfs| |by rewrite Hpn|done|by rewrite (ru_stream Hru)].
    rewrite Hmx, Hky, Hfs. split_and!; [done|apply Hru|done|done|reflexivity]. }
  rewrite Hwe, Hce. fold digest. assert (Hhes : DnmFile.hashed es).
  { apply Forall_app. split; [done|]. apply Forall_fmap. eapply Forall_impl; [exact Hpcs|]. intros pc (pay & data & _ & _ & _ & Hid & _). cbn. rewrite Hid. apply length_Sum256. }
  destruct (complete_good parseJSON vol size_ runID digest r s es fes bs ess (packsOf r) (di_dir d) Hru Hg Hod (he_sound _ _ _ Hhe) Hhes) as (r' & bs' & -> & H1 & H2 & H3 & H4);
    [by apply Hsav|]. eexists r', _, bs'. by split_and!.
Qed.

(** ** From the source to the entries *)

(** What the pipeline relies on for the chunks of a stream: documented sizes of the
    random and hash primitives; no identity is the table's empty marker; payloads that
    readers accept. *)
Record preparable (chs : list Chunk) : Prop := {
  pr_nonces : ∀ k, length (ou_nonce o k) = 12%nat;
  pr_key : key_ok (pl_key p);
  pr_weak : ∀ d, is_u64 (ou_xxhash o d);
  pr_chunks : Forall (λ c, K (Data c) ∧ strongOf (pl_norm p) (Data c) ≠ zeroHash ∧
    ∀ k payload, sealChunk p (ou_nonce o k) (Data c) = Ok payload → len payload ≤ maxChunkFrameLen) chs }.

(** The manifest entry of a chunk of the source. *)
Definition entryFor (c : Chunk) : Dnm.Entry := Dnm.mkEntry (Offset c) (strongOf (pl_norm p) (Data c)) (Length c) false.

Lemma prepare_good chs k c st : preparable chs → c ∈ chs → ∃ pc, prepare p o false k (c, st) = Some pc ∧ prepared_ok p K pc ∧ entryOf pc = entryFor c.
Proof.
  intros [Hn Hk Hw Hc] Hin. rewrite Forall_forall in Hc. destruct (Hc c Hin) as (HK & Hz & Hp). unfold prepare. cbn [fst snd].
  destruct (seal_open_payload (mkStore ∅ 0 (c_CompressionLevel (pl_cfg p)) (pl_key p) HNil 0 0 ∅ 0 []) (ou_nonce o k) (Data c) Hk (Hn k)) as (pay & Hs & Ho).
  assert (Hs' : sealChunk p (ou_nonce o k) (Data c) = Ok pay) by exact Hs. rewrite Hs'. eexists. split; [reflexivity|]. split; [|done].
  exists pay, (Data c). cbn. split_and!; try done. by eapply Hp.
Qed.

Lemma fst_withStates b ab chs : fst <$> withStates b ab chs = chs.
Proof. revert ab. induction chs as [|c chs IH]; intros ab; [done|]. cbn. by rewrite IH. Qed.

(** What reaches the store loop when every chunk does. *)
Lemma prepared_entries chs l n : preparable chs → (∀ x, x ∈ l → x.1 ∈ chs) →
  let pcs := snd <$> prepared (prepare p o false) (numberFrom n l) in Forall (prepared_ok p K) pcs ∧ entryOf <$> pcs = entryFor <$> (fst <$> l).
Proof.
  intros Hp. revert n. induction l as [|[c st] l IH]; intros n Hin; [done|]. cbn [numberFrom prepared].
  destruct (prepare_good chs n c st Hp (Hin (c, st) ltac:(left))) as (pc & Hpc & Hok & He). destruct (IH (S n)) as [H1 H2]; [intros x Hx; apply Hin; by right|].
  unfold prepared in *. cbn [omap list_omap]. rewrite Hpc. cbn. split; [by constructor|]. by rewrite He, <- H2.
Qed.

Lemma delivered_length rdr n : (length (delivered rdr n).1 ≤ length (concat (map fst rdr)))%nat.
Proof.
  revert n. induction rdr as [|[d [e|]] rdr IH]; intros n; cbn; [lia|rewrite length_app; lia|]. destruct (length d =? 0)%nat.
  - destruct (_ <=? _); cbn; [lia|]. rewrite length_app. pose proof (IH (n + 1)). lia.
  - pose proof (IH 0). destruct (delivered rdr 0) as [l e]. cbn in *. rewrite !length_app. lia.
Qed.

Definition startOffset : Z := match pl_resume p with Some rs => Z.max 0 (rs_ResumeOffset rs) | None => 0 end.

Lemma chunkStream_tiles rdr l : delivered rdr 0 = (l, EOF) →
  ∃ chs, chunkStream p rdr = (chs, NErr EOF) ∧ tiled startOffset chs ∧ concat (Data <$> chs) = l.
Proof.
  intros Hd. unfold chunkStream. set (opts := [_; _; _]). set (c := match pl_resume p with Some _ => _ | None => _ end).
  destruct (New_stream rdr opts l EOF Hd) as [Hok Hst].
  assert (Hc : read_ok (rd c) ∧ stream (rd c) = (l, EOF) ∧ (length l ≤ remaining (rd c))%nat ∧ offset c = startOffset).
  { pose proof (delivered_length rdr 0) as Hl. rewrite Hd in Hl. cbn in Hl. unfold c, startOffset.
    destruct (pl_resume p) as [rs|]; [destruct (0 <? rs_ResumeOffset rs) eqn:E|]; zbool; split_and!; try done; unfold remaining; cbn; try lia. }
  destruct Hc as (H1 & H2 & H3 & H4). destruct (cuts (geo c) (roll c) [] l) as [cs tl] eqn:Hcut.
  destruct (chunkAll_cuts (S (S (remaining (rd c)))) c l EOF cs tl H1 H2 ltac:(lia) Hcut) as (chs & -> & Ht & Hm). rewrite H4 in Ht. exists chs. split_and!; try done.
  change (Data <$> chs) with (map Data chs). rewrite Hm, concat_app. apply concat_cuts in Hcut. cbn [app] in Hcut. rewrite <- Hcut.
  f_equal. case_decide as Hdec; cbn; [by rewrite app_nil_r|]. destruct tl; [done|]. by destruct Hdec.
Qed.

(** A schedule of the run's goroutines that ends without a cancellation. *)
Definition completes (absorbed : option bytes) (rdr : Reader) (w : nat) (s : goroutines (Chunk * bytes) PreparedChunk) : Prop :=
  (0 < w)%nat ∧ rtc (move (prepare p o false)) (start w (sourceOf p absorbed rdr)) s ∧ final s ∧ g_cancelled s = false.

Lemma completes_outcome absorbed rdr w s chs we b : preparable chs → chunkStream p rdr = (chs, NErr EOF) → completes absorbed rdr w s → 
  let oc := outcomeAt p absorbed rdr we b s in Forall (prepared_ok p K) (oc_received oc) ∧ entryOf <$> oc_received oc = entryFor <$> chs ∧
  len (oc_received oc) = len chs ∧ oc_workerErr oc = None ∧ oc_chunker oc = None ∧ oc_digest oc = digestFinal absorbed chs.
Proof.
  intros Hp Hc (Hw & Hr & Hf & Hn). pose proof (inv_reachable _ _ w s Hw Hr) as Hi. destruct (final_all _ _ s Hi Hf Hn) as [Hst Hl].
  unfold outcomeAt. rewrite Hc. cbn [oc_received oc_workerErr oc_chunker oc_digest]. destruct Hf as (Hck & _).
  assert (Hfst : fst <$> sourceOf p absorbed rdr = chs) by (unfold sourceOf; rewrite Hc; apply fst_withStates).
  destruct (prepared_entries chs (sourceOf p absorbed rdr) 0 Hp) as [H1 H2].
  { intros x Hx. rewrite <- Hfst. by apply list_elem_of_fmap_2. }
  destruct (uncancelled_clean _ _ w s Hr Hn) as [Hwe Hcc]. rewrite Hst, Hwe. rewrite Hfst in H2.
  split_and!; [done|done|apply (f_equal length) in H2; rewrite !length_fmap in H2; by rewrite length_fmap, H2|done|by destruct (g_chunker s)|by destruct (g_chunker s)].
Qed.

(** A run that completes, fresh or resumed. *)
Lemma completed_run parseJSON vol size_ rdr l w s we b r bs ess ts es0 fes absorbed : let chs := (chunkStream p rdr).1 in
  runnable → checkpoints_ok p runID → digestStart p = Ok absorbed → delivered rdr 0 = (l, EOF) → preparable chs → completes absorbed rdr w s →
  ready r bs ess ts es0 (len chs) →
  let digest := (λ d, Sum256 (d ++ l)) <$> absorbed in let es := es0 ++ (entryFor <$> chs) in
  (∀ res, re_BackupID res = runID → savable (pl_StampManifest p (manifestOf p o vol size_ digest res)) runID fes es) →
  tiled startOffset chs ∧ concat (Data <$> chs) = l ∧
  ∃ r' res bs', run p o false vol size_ (outcomeAt p absorbed rdr we b s) r = (r', Ok res) ∧
    ManifestRepo.saved parseJSON (rp_manifests r') runID (pl_StampManifest p (manifestOf p o vol size_ digest res)) fes es ∧
    healthy r' bs' ess ∧ serves r' (indexMap bs ess) es ∧ packs_grow (packsOf r) (packsOf r').
Proof.
  intros chs Hru Hck Hdg Hd Hp Hcm Hrd digest es Hsav. destruct (chunkStream_tiles rdr l Hd) as (chs' & Hc & Ht & Hl).
  assert (Heq : chs = chs') by (unfold chs; by rewrite Hc). rewrite <- Heq in *. split; [done|]. split; [done|].
  destruct (completes_outcome absorbed rdr w s chs we b Hp Hc Hcm) as (H1 & H2 & H3 & H4 & H5 & H6). set (oc := outcomeAt p absorbed rdr we b s) in *.
  assert (Hdig : (if bool_decide (absorbed = None) then None else oc_digest oc) = digest).
  { rewrite H6. unfold digestFinal. rewrite Hl. by destruct absorbed. }
  assert (Hes : es0 ++ (entryOf <$> oc_received oc) = es) by (by rewrite H2).
  pose proof (run_good parseJSON vol size_ oc r bs ess ts es0 fes absorbed Hru Hck Hdg) as Hg. cbv zeta in Hg. rewrite Hdig, Hes, H3 in Hg. by apply Hg.
Qed.
End run.

(** ** Theorems *)

Section theorems.
Context {MR : MapRange} {SS : SortSlice} {PR : Primitives} {ZS : Zstd} {DC : DigestCodec} (K : bytes → Prop).

(** A run that resumes nothing may start over any healthy repository. *)
Lemma fresh_ready p o r bs ess n : runnable p o → pl_resume p = None → pl_StartPackNum p = 0 → healthy p K r bs ess →
  findLatestPack (packsOf r) + n < 2 ^ 32 → Z.of_nat (size (indexMap bs ess)) + n ≤ 2 ^ 35 → ready p K o r bs ess [] [] n.
Proof.
  intros Hru Hre Hsp Hhe Hfn Hsz. assert (Hfp : firstPack p r = findLatestPack (packsOf r)) by (unfold firstPack; by rewrite Hsp).
  split; [done|by rewrite Hre|by intros e ?%elem_of_nil| |done| |cbn; lia].
  - unfold openEntries. rewrite (bool_decide_eq_false_2 (is_Some (pl_StreamManifest p))) by (rewrite (ru_stream _ _ Hru); by intros [? ?]). rewrite Hre. cbn.
    eexists. split; [reflexivity|]. unfold ManifestRepo.OpenEntryWriter. by rewrite stat_create, decide_True.
  - rewrite Hfp. split_and!; [|apply nothing_above_latest|done]. apply (so_num _ (NewChunkStore_ok (rp_chunks r) 0 0 None)).
Qed.

(** C3. A backup restores: over a healthy repository, whatever the schedule of the
    goroutines, a backup that is not cancelled succeeds; its manifest loads, lists chunks
    that lie end to end and make up the source stream, and carries the stream's SHA-256;
    every listed chunk and every chunk that was indexed before is found in the index and
    read back from the packs with its identity, and the repository is healthy again. *)
Theorem backup_restorable p o parseJSON vol size_ rdr l w s we b r bs ess fes : let chs := (chunkStream p rdr).1 in let id := runID p o in
  runnable p o → checkpoints_ok p id → pl_resume p = None → pl_StartPackNum p = 0 →
  delivered rdr 0 = (l, EOF) → preparable p K o chs → completes p o (Some []) rdr w s → healthy p K r bs ess →
  findLatestPack (packsOf r) + len chs < 2 ^ 32 → Z.of_nat (size (indexMap bs ess)) + len chs ≤ 2 ^ 35 →
  let m res := pl_StampManifest p (manifestOf p o vol size_ (Some (Sum256 l)) res) in
  (∀ res, re_BackupID res = id → savable p o (m res) id fes (entryFor p <$> chs)) →
  tiled 0 chs ∧ concat (Data <$> chs) = l ∧
  ∃ r' res bs', Backup p o vol size_ (outcomeAt p (Some []) rdr we b s) r = (r', Ok res) ∧
    ManifestRepo.Load parseJSON (rp_manifests r') id = Ok (DnmFile.loaded (m res) fes (entryFor p <$> chs)) ∧
    serves p K r' (indexMap bs ess) (entryFor p <$> chs) ∧ healthy p K r' bs' ess.
Proof.
  intros chs id Hru Hck Hre Hsp Hd Hp Hcm Hhe Hfn Hsz m Hsav.
  pose proof (fresh_ready p o r bs ess (len chs) Hru Hre Hsp Hhe Hfn Hsz) as Hrd.
  destruct (completed_run p K o parseJSON vol size_ rdr l w s we b r bs ess [] [] fes (Some []) Hru Hck) as (H1 & H2 & r' & res & bs' & H3 & [H4 _] & H5 & H6 & _);
    try done; [unfold digestStart; by rewrite Hre|]. unfold startOffset in H1. rewrite Hre in H1. split; [done|]. split; [done|]. by exists r', res, bs'.
Qed.

Lemma tiled_app chs1 chs2 o : tiled o chs1 → tiled (o + len (concat (Data <$> chs1))) chs2 → tiled o (chs1 ++ chs2).
Proof.
  revert o. induction chs1 as [|c chs1 IH]; intros o; cbn; [by rewrite Z.add_0_r|]. intros (-> & Hl & Ht) Ht2. split_and!; [done|done|].
  apply IH; [done|]. rewrite length_app in Ht2. by replace (o + Length c + len (concat (Data <$> chs1))) with (o + Z.of_nat (length (Data c) + length (concat (Data <$> chs1)))) by lia.
Qed.

(** The sidecar of a resumed run is cut to the entries of its checkpoint. *)
Lemma openEntries_resumed p rs m id es tail : pl_StreamManifest p = None → pl_resume p = Some rs → DnmFile.hashed es →
  stat m (ManifestRepo.EntriesPath id) = Some (DnmFile.entryBytes es ++ tail) → rs_EntriesLen rs = 45 * len es →
  ∃ m', openEntries p false id m = Ok m' ∧ stat m' (ManifestRepo.EntriesPath id) = Some (DnmFile.entryBytes es).
Proof.
  intros Hs Hr Hh Hst Hl. unfold openEntries. rewrite (bool_decide_eq_false_2 (is_Some (pl_StreamManifest p))) by (rewrite Hs; by intros [? ?]). rewrite Hr.
  cbn [orb]. unfold ManifestRepo.OpenEntryWriterResume, DnmFile.EntryRecordSize. rewrite Hl, (proj2 (Z.ltb_ge _ _)) by lia.
  rewrite (Z.mul_comm 45), Z.rem_mul by lia. cbn [Z.eqb negb orb]. rewrite Hst. pose proof (DnmFile.length_entryRecords es Hh) as Hle.
  rewrite (proj2 (Z.ltb_ge _ _)) by (rewrite length_app; lia). eexists. split; [reflexivity|]. rewrite stat_create, decide_True by done. f_equal.
  unfold Truncate. rewrite length_app. replace (Z.to_nat _ - _)%nat with 0%nat by lia. rewrite app_nil_r, take_app_le by lia. apply take_ge. lia.
Qed.

(** A state of the running digest after [data]. *)
Definition digestFor (st data : bytes) : Prop := st ≠ [] ∧ ∃ d, unmarshalDigest st = Some d ∧ ∀ x, Sum256 (d ++ x) = Sum256 (data ++ x).
Lemma marshal_digestFor data : digestFor (marshalDigest data) data.
Proof. split; [apply digest_nonempty|apply digest_codec]. Qed.
Lemma digestFor_more d data more : (∀ x, Sum256 (d ++ x) = Sum256 (data ++ x)) → digestFor (marshalDigest (d ++ more)) (data ++ more).
Proof.
  intros Hd. split; [apply digest_nonempty|]. destruct (digest_codec (d ++ more)) as (d' & Hu & Hs). exists d'. split; [done|]. intros x. by rewrite Hs, <- !app_assoc, Hd.
Qed.

(** What a suspended backup of the chunks [chs0] left in [r], as a checkpoint records it:
    the sidecar holds their entries (and perhaps more), the digest covers them, each is
    indexed or among the inserts to replay, and no pack lies above the one to write. *)
Record resumable (p : Pipeline) (rs : ResumeState) (r : repo) (bs : list IndexEntry) (ess : list (list DeltaEntry)) (chs0 : list Chunk) : Prop := {
  re_id : rs_BackupID rs ≠ [];
  re_tiled : tiled 0 chs0 ∧ rs_ResumeOffset rs = len (concat (Data <$> chs0));
  re_sidecar : rs_EntriesLen rs = 45 * len chs0 ∧
    ∃ tail, stat (rp_manifests r) (ManifestRepo.EntriesPath (rs_BackupID rs)) = Some (DnmFile.entryBytes (entryFor p <$> chs0) ++ tail);
  re_digest : digestFor (rs_DigestState rs) (concat (Data <$> chs0));
  re_replay : Forall (replayable p K (packsOf r)) (rs_PreloadInserts rs);
  re_known : ∀ c, c ∈ chs0 → is_Some (indexMap bs ess !! strongOf (pl_norm p) (Data c)) ∨ strongOf (pl_norm p) (Data c) ∈ (it_StrongHash <$> rs_PreloadInserts rs);
  re_pack : 0 < rs_StartPackNum rs ∧ is_u32 (rs_StartPackNum rs) ∧ nothing_above (packsOf r) (rs_StartPackNum rs) }.

(** A resumed backup is a whole backup: from such a state, with the rest [l] of the stream, any
    schedule that is not cancelled succeeds, and the manifest lists the chunks stored
    before the suspension and then those of the rest. *)
Lemma resumed_restorable p rs o parseJSON vol size_ rdr l w s we b r bs ess fes chs0 d :
  let q := resumePipeline p rs in let chs := (chunkStream q rdr).1 in let id := rs_BackupID rs in let all := chs0 ++ chs in
  runnable q o → checkpoints_ok q id → resumable p rs r bs ess chs0 → healthy p K r bs ess → unmarshalDigest (rs_DigestState rs) = Some d →
  delivered rdr 0 = (l, EOF) → preparable q K o chs → completes q o (Some d) rdr w s →
  rs_StartPackNum rs + len chs < 2 ^ 32 → Z.of_nat (size (indexMap bs ess)) + len (rs_PreloadInserts rs) + len chs ≤ 2 ^ 35 →
  let m res := pl_StampManifest p (manifestOf q o vol size_ (Some (Sum256 (concat (Data <$> chs0) ++ l))) res) in
  (∀ res, re_BackupID res = id → savable q o (m res) id fes (entryFor p <$> all)) →
  tiled 0 all ∧ concat (Data <$> all) = concat (Data <$> chs0) ++ l ∧
  ∃ r' res bs', BackupResume p rs o vol size_ (outcomeAt q (Some d) rdr we b s) r = (r', Ok res) ∧
    ManifestRepo.Load parseJSON (rp_manifests r') id = Ok (DnmFile.loaded (m res) fes (entryFor p <$> all)) ∧
    serves p K r' (indexMap bs ess) (entryFor p <$> all) ∧ healthy p K r' bs' ess.
Proof.
  intros q chs id all Hru Hck [Hid [Ht0 Hoff] [Hel (tail & Hst)] Hdg Hre Hkn (Hsp & Hsu & Hna)] Hhe Hd Hde Hp Hcm Hfn Hsz m Hsav.
  assert (Hrid : runID q o = id) by (unfold runID; by rewrite bool_decide_eq_false_2).
  assert (Hfp : firstPack q r = rs_StartPackNum rs) by (unfold firstPack; cbn; by rewrite (proj2 (Z.ltb_lt _ _))).
  assert (Hh0 : DnmFile.hashed (entryFor p <$> chs0)) by (apply Forall_fmap, Forall_true; intros c; apply length_Sum256).
  assert (Hds : digestStart q = Ok (Some d)).
  { unfold digestStart. cbn. rewrite Hd, bool_decide_eq_false_2; [done|]. apply Hdg. }
  assert (Hsum : Sum256 (d ++ l) = Sum256 (concat (Data <$> chs0) ++ l)).
  { destruct Hdg as (_ & d' & Hd' & Hs). rewrite Hd in Hd'. by injection Hd' as ->. }
  assert (Hsum' : (λ d, Sum256 (d ++ l)) <$> Some d = Some (Sum256 (concat (Data <$> chs0) ++ l))) by (cbn; by rewrite Hsum).
  assert (Hrd : ready q K o r bs ess (rs_PreloadInserts rs) (entryFor p <$> chs0) (len chs)).
  { split; [by destruct Hhe|done| | |done|by rewrite Hfp|done].
    - intros e (c & -> & Hc)%list_elem_of_fmap. by apply Hkn.
    - rewrite Hrid. eapply (openEntries_resumed q rs); [apply Hru|done|done|exact Hst|by rewrite length_fmap]. }
  assert (Hall : entryFor p <$> all = (entryFor p <$> chs0) ++ (entryFor q <$> chs)) by apply fmap_app. rewrite Hall in Hsav.
  destruct (completed_run q K o parseJSON vol size_ rdr l w s we b r bs ess (rs_PreloadInserts rs) (entryFor p <$> chs0) fes (Some d) Hru)
    as (H1 & H2 & r' & res & bs' & H3 & [H4 _] & H5 & H6 & _); rewrite ?Hrid; try done; [by rewrite Hsum'|]. rewrite Hrid, Hsum' in H4.
  split_and!; [|unfold all; rewrite fmap_app, concat_app; by f_equal|exists r', res, bs'; rewrite Hall; split_and!; [done|done|done|by destruct H5]].
  apply tiled_app; [done|]. change (startOffset q) with (Z.max 0 (rs_ResumeOffset rs)) in H1. rewrite Hoff, Z.max_r in H1 by lia. by rewrite Z.add_0_l.
Qed.
End theorems.

(** ** A small repository *)

(** Chunks of four bytes, one to a pack. *)
Definition smallConfig : Config := mkConfig 3 4 4 4294967295 13 1 "" 2 0 0 0 0 false false false.
Definition smallOuter : outer :=
  mkOuter (λ _, 5) (λ _, 640) (λ _, zeros 12) (zeros 12, zeros 12, zeros 12) (zeros 12, zeros 12, zeros 12, zeros 12) [97] (Some 7) [] (λ _ _, 0) (λ _ _, 0) [116].
Definition smallPipeline : Pipeline := New smallConfig (mkBinding EncryptNone None None None true).
Definition newRepo : repo := mkRepo emptyDir None None None None.
Definition tenBytes : Reader := [([1; 2; 3], None); ([4; 5; 6; 7; 8; 9; 10], None)].
Definition threeChunks : list Chunk := [mkChunk [1; 2; 3; 4] 0 4; mkChunk [5; 6; 7; 8] 4 4; mkChunk [9; 10] 8 2].

(** The chunks these runs store. *)
Definition smallChunks (d : bytes) : Prop := d ∈ (Data <$> threeChunks).

Lemma small_runnable : runnable smallPipeline smallOuter.
Proof. split; try done. by left. Qed.

Lemma small_healthy : healthy smallPipeline smallChunks newRepo [] [].
Proof. split; [right; by split_and!|done|done]. Qed.

Lemma small_chunks : chunkStream smallPipeline tenBytes = (threeChunks, NErr EOF).
Proof. vm_compute. reflexivity. Qed.

Lemma small_preparable p chs : pl_key p = None → pl_norm p = None → Forall (λ c, smallChunks (Data c) ∧ Sum256 (Data c) ≠ zeroHash ∧ len (Data c) ≤ 4) chs → preparable p smallChunks smallOuter chs.
Proof.
  intros Hk Hn Hc. split; [done|by rewrite Hk|by unfold is_u64|]. eapply Forall_impl; [exact Hc|]. intros c (HK & Hz & Hl). unfold strongOf. rewrite Hn. split; [exact HK|]. split; [exact Hz|].
  intros k pay. unfold sealChunk. rewrite Hk. intros [= <-]. change maxChunkFrameLen with 67108864. cbn. lia.
Qed.
Lemma three_hashes : Forall (λ c, smallChunks (Data c) ∧ Sum256 (Data c) ≠ zeroHash ∧ len (Data c) ≤ 4) threeChunks.
Proof.
  apply Forall_forall. intros c Hc. split; [by apply list_elem_of_fmap_2|]. revert c Hc. apply Forall_forall. repeat constructor; try (vm_compute; discriminate); cbn; lia.
Qed.

Lemma small_completes p absorbed rdr w : pl_key p = None → (0 < w)%nat → ∃ s, completes p smallOuter absorbed rdr w s.
Proof.
  intros Hk Hw. destruct (completion (prepare p smallOuter false) (sourceOf p absorbed rdr) w) as (s & Hs); [|done|by exists s].
  intros k c. unfold prepare, sealChunk. rewrite Hk. done.
Qed.

(** The manifest of a small run can be written. *)
Ltac small_savable := intros [? ? ? ? ? ? ? ? ?]; cbn [re_BackupID]; intros ->; split;
  [reflexivity|reflexivity|vm_compute; by split_and!|split; [by constructor|left; by split]|vm_compute; reflexivity].

Lemma backup_restorable_witness : ∃ s r' res bs', completes smallPipeline smallOuter (Some []) tenBytes 2 s ∧
  Backup smallPipeline smallOuter [] 10 (outcomeAt smallPipeline (Some []) tenBytes StSlice false s) newRepo = (r', Ok res) ∧
  ManifestRepo.Load (λ _, None) (rp_manifests r') [97] =
    Ok (DnmFile.loaded (manifestOf smallPipeline smallOuter [] 10 (Some (Sum256 [1; 2; 3; 4; 5; 6; 7; 8; 9; 10])) res) [] (entryFor smallPipeline <$> threeChunks)) ∧
  serves smallPipeline smallChunks r' ∅ (entryFor smallPipeline <$> threeChunks) ∧ healthy smallPipeline smallChunks r' bs' [].
Proof.
  destruct (small_completes smallPipeline (Some []) tenBytes 2 eq_refl ltac:(lia)) as (s & Hs).
  destruct (backup_restorable smallChunks smallPipeline smallOuter (λ _, None) [] 10 tenBytes [1; 2; 3; 4; 5; 6; 7; 8; 9; 10] 2 s StSlice false newRepo [] [] [])
    as (_ & _ & r' & res & bs' & H1 & H2 & H3 & H4); rewrite ?small_chunks; cbn [fst].
  - apply small_runnable.
  - exact I.
  - reflexivity.
  - reflexivity.
  - reflexivity.
  - by apply small_preparable, three_hashes.
  - exact Hs.
  - apply small_healthy.
  - vm_compute. reflexivity.
  - vm_compute. discriminate.
  - small_savable.
  - rewrite small_chunks in H2, H3. exists s, r', res, bs'. by split_and!.
Defined.

Definition firstChunk : Chunk := mkChunk [1; 2; 3; 4] 0 4.

Lemma nothing_indexed p K fs : sound p K fs (indexMap [] []).
Proof. intros h e He. change (indexMap [] []) with (∅ : gmap bytes IndexEntry) in He. by rewrite lookup_empty in He. Qed.
Lemma resumed_runnable p rs o : runnable p o → runnable (resumePipeline p rs) o.
Proof. intros []. by split. Qed.

(** ** What an interrupt can do *)

(** The first and third chunks as the workers prepare them. *)
Definition smallPrepared (p : Pipeline) (c : Chunk * bytes) : PreparedChunk :=
  mkPrepared c.1 (Sum (λ _, 5) (Data c.1)) (frameOf (Data c.1) (len (Data c.1))) (len (Data c.1)) c.2.

Lemma small_prepare p k c : pl_key p = None → pl_norm p = None → prepare p smallOuter false k c = Some (smallPrepared p c).
Proof. intros Hk Hn. unfold prepare, sealChunk, IdentityHashInput. by rewrite Hk, Hn. Qed.

(** An interrupt after the chunker has read the whole source, while a worker still holds
    the second chunk: the worker drops it, the sequencer's drain passes over the gap, and
    since [run] looks only at the chunker's and the workers' errors the backup succeeds;
    its manifest lists the first and third chunk of the source and not the second. *)
Theorem late_interrupt_saves_hole : ∃ s r' res,
  rtc (move (prepare smallPipeline smallOuter false)) (start 2 (sourceOf smallPipeline (Some []) tenBytes)) s ∧ final s ∧ g_cancelled s = true ∧
  Backup smallPipeline smallOuter [] 10 (outcomeAt smallPipeline (Some []) tenBytes StSlice true s) newRepo = (r', Ok res) ∧
  ∃ m, ManifestRepo.Load (λ _, None) (rp_manifests r') [97] = Ok m ∧
    Dnm.Entries m = [Dnm.mkEntry 0 (Sum256 [1; 2; 3; 4]) 4 false; Dnm.mkEntry 8 (Sum256 [9; 10]) 2 false].
Proof.
  set (p := smallPipeline). set (x := (mkChunk [1; 2; 3; 4] 0 4, [] : bytes)). set (z := (mkChunk [9; 10] 8 2, [] : bytes)).
  destruct (late_interrupt_skips_chunk (prepare p smallOuter false) x (mkChunk [5; 6; 7; 8] 4 4, []) z
    _ _ _ (small_prepare p _ _ eq_refl eq_refl) (small_prepare p _ _ eq_refl eq_refl) (small_prepare p _ _ eq_refl eq_refl)) as (s & Hr & Hf & Hc & Hn & Hw & Hs).
  assert (Ho : outcomeAt p (Some []) tenBytes StSlice true s =
    mkOutcome [smallPrepared p x; smallPrepared p z] None None true (Some (Sum256 [1; 2; 3; 4; 5; 6; 7; 8; 9; 10]))).
  { unfold outcomeAt. unfold p. rewrite small_chunks, Hn, Hw, Hs. reflexivity. }
  destruct (prepared_entries p smallChunks smallOuter threeChunks [x; z] 0) as [Hpc _];
    [exact (small_preparable p threeChunks eq_refl eq_refl three_hashes)|intros y [->|[->|[]%elem_of_nil]%elem_of_cons]%elem_of_cons; [left|right; right; left]|].
  edestruct (run_good p smallChunks smallOuter (λ _, None) [] 10 (outcomeAt p (Some []) tenBytes StSlice true s) newRepo [] [] [] [] [] (Some []) small_runnable)
    as (r' & res & bs' & H1 & [H2 _] & _).
  - exact I.
  - reflexivity.
  - rewrite Ho. split.
    + apply small_healthy.
    + split; [reflexivity|constructor].
    + intros e He. apply elem_of_nil in He. destruct He.
    + eexists. split; reflexivity.
    + constructor.
    + split; [split; vm_compute; [discriminate|reflexivity]|]. split; [apply nothing_above_latest|vm_compute; reflexivity].
    + vm_compute. discriminate.
  - rewrite Ho. exact Hpc.
  - rewrite Ho. reflexivity.
  - rewrite Ho. reflexivity.
  - rewrite Ho. small_savable.
  - exists s, r', res. split_and!; [exact Hr|exact Hf|exact Hc|exact H1|]. eexists. split; [exact H2|]. rewrite Ho. reflexivity.
Qed.

(** The same pipeline, resumable, with a checkpoint writer that notes the resume offset
    and the length of the sidecar. *)
Definition noteName : name := [110].
Definition notingPipeline : Pipeline :=
  mkPipeline smallConfig None None None EncryptNone true None 0 noHooks [] false true None (λ s _, (s, None)) (λ _, true) Datatypes.id
    (Some (λ d pr _, (create d noteName [ResumeOffset pr; EntriesLen pr], true))) None.

(** An interrupt while the chunker runs: the third chunk is stored behind the first; it
    starts a pack, so a checkpoint is written that tells a resume to go on at offset 8
    although the entries cover only the first four bytes, and the run is suspended with it. *)
Theorem interrupt_checkpoints_past_gap : ∃ s,
  rtc (move (prepare notingPipeline smallOuter false)) (start 2 (sourceOf notingPipeline (Some []) tenBytes)) s ∧ final s ∧
  let '(r', res) := Backup notingPipeline smallOuter [] 10 (outcomeAt notingPipeline (Some []) tenBytes StSlice true s) newRepo in
  res = Err PeSuspended ∧ stat (rp_manifests r') noteName = Some [8; 45] ∧
  take 45 <$> stat (rp_manifests r') (ManifestRepo.EntriesPath [97]) = Some (DnmFile.entryBytes [entryFor notingPipeline firstChunk]).
Proof.
  destruct (interrupt_skips_chunk (prepare notingPipeline smallOuter false) (mkChunk [1; 2; 3; 4] 0 4, [1]) (mkChunk [5; 6; 7; 8] 4 4, [1; 1; 2; 3; 4]) (mkChunk [9; 10] 8 2, [1; 1; 2; 3; 4; 5; 6; 7; 8])
    _ _ _ (small_prepare notingPipeline _ _ eq_refl eq_refl) (small_prepare notingPipeline _ _ eq_refl eq_refl) (small_prepare notingPipeline _ _ eq_refl eq_refl) []) as (s & Hr & Hf & Hn & Hw & Hs).
  exists s. split; [exact Hr|]. split; [exact Hf|]. unfold outcomeAt. rewrite Hn, Hw, Hs. vm_compute. split; [reflexivity|]. split; reflexivity.
Qed.

(** A fresh run over a repository that has packs 0 and 1 writes into pack 1 and no pack is
    sealed; its first store is taken for a seal all the same, for the highest pack is
    counted from 0: an interrupt after the first chunk suspends the run. *)
Definition twoPackRepo : repo := mkRepo emptyDir (Some {[packPath 0 := []; packPath 1 := []]}) None None None.
Theorem fresh_run_checkpoints_unsealed :
  let '(r', res) := Backup notingPipeline smallOuter [] 10 (mkOutcome [smallPrepared notingPipeline (firstChunk, [1])] (Some PeCancelled) None true None) twoPackRepo in
  res = Err PeSuspended ∧ stat (rp_manifests r') noteName = Some [0; 0] ∧ packsOf r' = {[packPath 0 := []; packPath 1 := frameOf [1; 2; 3; 4] 4]}.
Proof. vm_compute. split; [reflexivity|]. split; reflexivity. Qed.
