(* ===== verification/Suspended.v ===== *)
(** * core/pipeline: suspending a backup and resuming it

    A run that is interrupted after a checkpoint leaves the repository as it found it but for
    packs, sidecar and checkpoints.  Here: what the checkpoints of such a run record is what a
    resume needs, and a backup suspended any number of times and then resumed to its end is a
    whole backup of its source.  The caller's checkpoint writer is seen through an interface:
    the ledger of the checkpoints it has written. *)

From S2P Require Import Chunker.
From S2P Require Import Prelude GoBytes GoRuntime GoFiles Hashes HashTable HashBuild HashIndex Bloom Delta Fold Crypto Dedup PackStore Packs Preprocess RepoConfig Rebuild.
From S2P Require Import Prune Segment Resume Sequencer Pipeline Backups.

(** ** The checkpoint writer *)

Definition ledger : Type := list (Progress * Pipeline.Delta).
Definition insertsOf (l : ledger) : list InsertTuple := concat ((λ x, dl_Inserts x.2) <$> l).

Lemma insertsOf_snoc l pr dl : insertsOf (l ++ [(pr, dl)]) = insertsOf l ++ dl_Inserts dl.
Proof. unfold insertsOf. rewrite fmap_app, concat_app. cbn. by rewrite app_nil_r. Qed.

(** A writer that succeeds, adds each checkpoint to the ledger the manifests directory holds,
    and leaves the sidecar alone; writing the sidecar leaves the ledger alone. *)
Record recorder (fn : dir → Progress → Pipeline.Delta → dir * bool) (id : bytes) (led : dir → ledger) : Prop := {
  rc_writes : ∀ d pr dl, (fn d pr dl).2 = true ∧ led (fn d pr dl).1 = led d ++ [(pr, dl)];
  rc_sidecar : ∀ d pr dl, stat (fn d pr dl).1 (ManifestRepo.EntriesPath id) = stat d (ManifestRepo.EntriesPath id);
  rc_frame : ∀ d b, led (create d (ManifestRepo.EntriesPath id) b) = led d }.

Section track.
Context {MR : MapRange} {SS : SortSlice} {PR : Primitives} {ZS : Zstd} {DC : DigestCodec}.
Context (p : Pipeline) (K : bytes → Prop) (id : bytes) (fn : dir → Progress → Pipeline.Delta → dir * bool) (led : dir → ledger).
Context (Hfn : pl_CheckpointFn p = Some fn) (Hrec : recorder fn id led) (M0 : gmap bytes IndexEntry) (F : bytes).

Lemma recorder_ok : checkpoints_ok p id.
Proof. unfold checkpoints_ok. rewrite Hfn. intros d pr dl. split; [apply (rc_writes _ _ _ Hrec)|apply (rc_sidecar _ _ _ Hrec)]. Qed.

(** The index knows nothing but [M0] and the hashes [hs]; [n] more chunks fit; its file is
    still [F]. *)
Record covers (i : DedupIndex) (hs : list bytes) (n : Z) : Prop := {
  cv_rep : ∃ D M ids cap, dedup_rep i D M ids cap ∧ (∀ h, is_Some (M !! h) → is_Some (M0 !! h) ∨ h ∈ hs) ∧
    Z.of_nat (size M) + n ≤ 2 ^ 35 ∧ len cap + n < 2 ^ 63;
  cv_disk : ix_disk (di_index i) = F }.

Lemma covers_insert i hs n w h np no c i' : covers i hs (n + 1) → 0 ≤ n → foldable (mkDelta h w np no c) → DInsert i w h np no c = Some i' → covers i' (hs ++ [h]) n.
Proof.
  intros [(D & M & ids & cap & Hr & Hk & H1 & H2) Hd] Hn Hf Hi. destruct (DInsert_rep i D M ids cap _ Hr Hf ltac:(lia)) as (i1 & HI & Hr' & _).
  change (DInsert i w h np no c = Some i1) in HI. rewrite Hi in HI. injection HI as <-. split.
  - eexists _, _, _, _. split; [exact Hr'|]. cbn [de_StrongHash idx_of]. split_and!.
    + intros h' [->|Hs]%lookup_insert_is_Some'; [right; apply elem_of_app; right; left|]. destruct (Hk h' Hs) as [?|?]; [by left|right; apply elem_of_app; by left].
    + match goal with |- context [size (<[?k := ?x]> ?m)] => pose proof (size_insert_le m k x) end. lia.
    + rewrite length_app. cbn [length]. lia.
  - destruct (dedup_step_disk i (DedupInsert (mkDelta h w np no c)) i' None) as (-> & _); [|done]. cbn [dedup_step de_WeakHash de_StrongHash de_PackNumber de_StoreOffset de_ChunkLength]. by rewrite Hi.
Qed.

Lemma covers_flush i hs n i' : covers i hs n → 0 ≤ n → ix_noHtab (di_index i) = false → FlushHashIndex i = (i', None) → covers i' hs n.
Proof.
  intros [(D & M & ids & cap & Hr & Hk & H1 & H2) Hd] Hn Hh Hi. destruct (FlushHashIndex_rep i D M ids cap Hr Hh ltac:(lia)) as (i1 & HI & Hr' & _).
  rewrite Hi in HI. injection HI as <-. split; [by exists D, M, ids, cap|]. destruct (dedup_step_disk i DedupFlushHash i' None Hi) as (-> & _). done.
Qed.

Lemma covers_le i hs n n' : n' ≤ n → covers i hs n → covers i hs n'.
Proof. intros Hn [(D & M & ids & cap & Hr & Hk & H1 & H2) Hd]. split; [|done]. exists D, M, ids, cap. split_and!; try done; lia. Qed.

(** A chunk the index had, or whose insert is among [ts]. *)
Definition known (ts : list InsertTuple) (c : Chunk) : Prop :=
  is_Some (M0 !! strongOf (pl_norm p) (Data c)) ∨ strongOf (pl_norm p) (Data c) ∈ (it_StrongHash <$> ts).

Lemma known_more ts ts' c : known ts c → known (ts ++ ts') c.
Proof. intros [?|?]; [by left|]. right. rewrite fmap_app. apply elem_of_app. by left. Qed.

(** The checkpoint [pr] with the inserts [ts] is a place to resume in the chunks [pre]: it
    covers the first [k] of them. *)
Definition marks (pre : list Chunk) (pr : Progress) (ts : list InsertTuple) : Prop := ∃ k, (k ≤ length pre)%nat ∧
  EntriesLen pr = 45 * Z.of_nat k ∧ ResumeOffset pr = len (concat (Data <$> take k pre)) ∧ digestFor (DigestState pr) (concat (Data <$> take k pre)) ∧
  ∀ c, c ∈ take k pre → known ts c.

Lemma marks_more pre c pr ts : marks pre pr ts → marks (pre ++ [c]) pr ts.
Proof. intros (k & Hk & H). exists k. rewrite length_app, take_app_le by done. split; [lia|done]. Qed.

(** The session after the chunks [pre]. *)
Record tracked (s : session) (pre : list Chunk) (n : Z) : Prop := {
  tk_covers : covers (se_index s) (it_StrongHash <$> insertsOf (led (se_manifests s)) ++ se_pending s) n;
  tk_replay : Forall (replayable p K (cs_files (se_store s))) (insertsOf (led (se_manifests s)) ++ se_pending s);
  tk_known : ∀ c, c ∈ pre → known (insertsOf (led (se_manifests s)) ++ se_pending s) c;
  tk_last : match last (led (se_manifests s)) with
            | Some (pr, _) => marks pre pr (insertsOf (led (se_manifests s)))
            | None => se_checkpointWritten s = false
            end }.

Lemma replayable_grow fs fs' t : packs_grow fs fs' → replayable p K fs t → replayable p K fs' t.
Proof. intros Hg ((d & H1 & H2 & H3) & H). split; [|done]. exists d. split; [done|]. split; [by eapply stored_at_grow|done]. Qed.

(** A checkpoint before the chunk that begins at the end of [pre]. *)
Lemma emit_tracked D idir fs0 s pre g n pc np s1 : good p K id D M0 idir fs0 s (entryFor p <$> pre) g → tracked s pre n →
  Offset (pc_Chunk pc) = len (concat (Data <$> pre)) → digestFor (pc_digestStateBefore pc) (concat (Data <$> pre)) →
  emitCheckpoint fn id s pc np = (s1, None) → tracked s1 pre n ∧ se_index s1 = se_index s ∧ se_store s1 = se_store s.
Proof.
  intros Hg [Hc Hr Hk Hl] Ho Hd. unfold emitCheckpoint. rewrite (go_stream _ _ _ _ _ _ _ _ _ _ Hg).
  destruct (fn _ _ _) as [m ok] eqn:Ef. pose proof (rc_writes _ _ _ Hrec (se_manifests s)) as Hw. match type of Ef with fn _ ?pr ?dl = _ => specialize (Hw pr dl) end.
  rewrite Ef in Hw. cbn [fst snd] in Hw. destruct Hw as [-> Hled]. intros [= <-]. split; [|done].
  assert (Hin : insertsOf (led m) ++ [] = insertsOf (led (se_manifests s)) ++ se_pending s) by (by rewrite Hled, insertsOf_snoc, app_nil_r).
  split; cbn [se_index se_manifests se_pending se_store se_checkpointWritten]; [by rewrite Hin|by rewrite Hin|by rewrite Hin|].
  rewrite Hled, last_snoc, <- Hled. exists (length pre). rewrite firstn_all. split; [done|].
  unfold checkpointProgress. cbn [EntriesLen ResumeOffset DigestState]. split_and!; [|done|done|].
  - unfold ManifestRepo.EntryWriter_Len. rewrite (go_sidecar _ _ _ _ _ _ _ _ _ _ Hg). cbn [default from_option]. unfold Datatypes.id.
    rewrite DnmFile.length_entryRecords; [by rewrite length_fmap|]. apply Forall_fmap, Forall_true. intros c. apply length_Sum256.
  - intros c Hx. apply Hk in Hx. rewrite <- Hin, app_nil_r in Hx. exact Hx.
Qed.

(** A checkpoint, when one is due. *)
Lemma due_tracked D idir fs0 s pre g n pc np s1 : good p K id D M0 idir fs0 s (entryFor p <$> pre) g → tracked s pre n →
  Offset (pc_Chunk pc) = len (concat (Data <$> pre)) → digestFor (pc_digestStateBefore pc) (concat (Data <$> pre)) →
  (if se_curPack s <? np then emitCheckpoint fn id s pc np else (s, None)) = (s1, None) → tracked s1 pre n ∧ se_index s1 = se_index s ∧ se_store s1 = se_store s.
Proof. intros Hg Ht Ho Hd. destruct (_ <? _); [by eapply emit_tracked|by intros [= <-]]. Qed.

(** What a session has after the insert [t] of the chunk [c]. *)
Lemma inserted_tracked s1 s' pre c t n i : tracked s1 pre (n + 1) → 0 ≤ n → replayable p K (cs_files (se_store s1)) t → it_StrongHash t = strongOf (pl_norm p) (Data c) →
  is_u32 (it_PackNumber t) → is_u64 (it_StoreOffset t) → length (it_StrongHash t) = 32%nat ∧ bytes_ok (it_StrongHash t) →
  DInsert (se_index s1) (it_WeakHash t) (it_StrongHash t) (it_PackNumber t) (it_StoreOffset t) (it_ChunkLength t) = Some i →
  ix_noHtab (di_index i) = false → se_index s' = i ∨ FlushHashIndex i = (se_index s', None) →
  se_manifests s' = se_manifests s1 → se_store s' = se_store s1 → se_pending s' = se_pending s1 ++ [t] → se_checkpointWritten s' = se_checkpointWritten s1 →
  tracked s' (pre ++ [c]) n.
Proof.
  intros [T1 T2 T3 T4] Hn Hre Hst Hp Hoff [Hl Hb] HI Hht Hi Hm Hs Hpd Hcw. pose proof Hre as (_ & Hz & Hw & Hc).
  assert (Hcv : covers i (it_StrongHash <$> (insertsOf (led (se_manifests s1)) ++ se_pending s1) ++ [t]) n).
  { rewrite fmap_app. eapply covers_insert; [exact T1|done| |exact HI]. split; [|done]. by split. }
  split; rewrite ?Hm, ?Hpd, ?Hs, ?Hcw, ?app_assoc.
  - destruct Hi as [->|Hi]; [done|]. by eapply covers_flush.
  - apply Forall_app. split; [done|by constructor].
  - intros x [Hx|Hx%list_elem_of_singleton]%elem_of_app; [by apply known_more, T3|subst x]. right. rewrite fmap_app. apply elem_of_app. right. rewrite <- Hst. left.
  - destruct (last _) as [[pr dl]|]; [by apply marks_more|done].
Qed.

Lemma storeNew_tracked D idir fs0 s pre n pc c s' : seals (pl_hooks p) → good p K id D M0 idir fs0 s (entryFor p <$> pre) (n + 1) → tracked s pre (n + 1) → 0 ≤ n →
  prepared_ok p K pc → id_StrongHash (pc_ID pc) = strongOf (pl_norm p) (Data c) →
  Offset (pc_Chunk pc) = len (concat (Data <$> pre)) → digestFor (pc_digestStateBefore pc) (concat (Data <$> pre)) →
  storeNew p id s pc = (s', None) → tracked s' (pre ++ [c]) n.
Proof.
  intros Hse Hg Ht Hn (pay & data & Hf & Ho & Hp & Hh & Hz & Hw & HK) Hc Hoff Hdig. pose proof Hg as [Hix (Hfi & [Hmx Hmc] & Hky & Hgr) Hpn Hsc Hst].
  unfold storeNew. rewrite Hf, Hfn. pose proof (so_num _ (fi_ok _ Hfi)) as Hu.
  destruct (StoreRaw_step (pl_hooks p) (se_store s) (frameOf pay (len data)) Hse Hfi ltac:(unfold is_u32 in *; lia)) as (st & [np no] & cn & -> & Hfi' & Hg' & Hcf & Hn' & Hlu & Hhas);
    [rewrite length_frameOf; lia|]. cbn [fst snd] in *.
  assert (Hg2 : good p K id D M0 idir fs0 (withIndex s (se_index s) st) (entryFor p <$> pre) n).
  { destruct Hcf as (C1 & _ & C3 & _). split; cbn; [by eapply indexes_grow; [exact Hg'| |exact Hix]; lia|rewrite C1, C3; split_and!; try done; by etrans|lia|done|done]. }
  assert (Ht2 : tracked (withIndex s (se_index s) st) pre (n + 1)).
  { destruct Ht as [T1 T2 T3 T4]. split; cbn; [done| |done|done]. eapply Forall_impl; [exact T2|]. intros t. by apply replayable_grow. }
  assert (Hat : stored_at (pl_key p) (cs_files st) (np, no) data) by (split; [done|]; by exists pay).
  assert (Hsm : small_packs (cs_files st)) by (apply filling_small; [done|by rewrite (proj1 Hcf)]).
  pose proof (stored_at_offset _ _ _ _ Hsm Hat) as Hno. cbn [snd] in Hno. assert (Hu64 : u64 no = no) by (apply u64_id; unfold is_u64; lia). rewrite Hu64.
  destruct (if se_curPack _ <? np then _ else _) as [s1 [e|]] eqn:Eck; [done|].
  destruct (due_tracked D idir fs0 _ pre n (n + 1) pc np s1 Hg2 Ht2 Hoff Hdig Eck) as (Ht1 & Hi1 & Hs1). cbn in Hi1, Hs1.
  set (t := mkTuple _ _ _ _ _). cbn [se_index se_store countStored withTally]. destruct (DInsert _ _ _ _ _ _) as [i|] eqn:HI; [|done].
  assert (Hht : ix_noHtab (di_index i) = false).
  { destruct Hix as [(M & ids & cap & Hr & _ & _ & _ & _ & Hcap) (C1 & _)]. rewrite Hi1 in HI.
    destruct (DInsert_rep (se_index s) D M ids cap (mkDelta (it_StrongHash t) (it_WeakHash t) np no (it_ChunkLength t)) Hr) as (i1 & HI1 & _ & _ & _ & _ & _ & Hht).
    - split; [|cbn; by rewrite Hh]. split; cbn; [rewrite Hh; split; [apply length_Sum256|apply bytes_ok_Sum256]|done|done|unfold is_u64; lia|apply u32_range].
    - lia.
    - change (DInsert (se_index s) (it_WeakHash t) (it_StrongHash t) np no (it_ChunkLength t) = Some i1) in HI1. cbn [it_WeakHash it_StrongHash it_ChunkLength it_PackNumber it_StoreOffset t] in HI, HI1.
      rewrite HI in HI1. injection HI1 as <-. congruence. }
  assert (Hrep : replayable p K (cs_files (se_store s1)) t).
  { rewrite Hs1. split; [|cbn; rewrite Hh; split_and!; [done|done|apply u32_range]]. exists data. cbn. by split_and!. }
  intros Hfin. eapply (inserted_tracked s1 s' pre c t n i Ht1 Hn Hrep Hc Hlu); [cbn; unfold is_u64; lia|cbn; rewrite Hh; split; [apply length_Sum256|apply bytes_ok_Sum256]|exact HI|exact Hht|..];
    revert Hfin; cbn [se_tally withPending withIndex countStored withTally]; destruct (_ =? 0); cbn [se_index withPending withIndex countStored withTally];
    try (destruct (FlushHashIndex i) as [i2 [e2|]] eqn:Efl); intros [= <-]; cbn; auto.
Qed.

Lemma storeChunk_tracked D idir fs0 s pre n pc c s' : seals (pl_hooks p) → good p K id D M0 idir fs0 s (entryFor p <$> pre) (n + 1) → tracked s pre (n + 1) → 0 ≤ n →
  prepared_ok p K pc → id_StrongHash (pc_ID pc) = strongOf (pl_norm p) (Data c) →
  Offset (pc_Chunk pc) = len (concat (Data <$> pre)) → digestFor (pc_digestStateBefore pc) (concat (Data <$> pre)) →
  storeChunk p false id s pc = (s', None) → tracked s' (pre ++ [c]) n.
Proof.
  intros Hse Hg Ht Hn Hpc Hc Hoff Hdig. pose proof Hpc as (pay & data & _ & _ & _ & Hh & Hz & _). unfold storeChunk. cbn [se_index countChunk].
  destruct (tk_covers _ _ _ Ht) as [(D' & M & ids & cap & Hr & Hk & _) _].
  destruct (Check_rep _ _ _ _ (id_WeakHash (pc_ID pc)) (id_StrongHash (pc_ID pc)) (dedup_tiers _ _ _ _ _ Hr)) as (r & Hck & Hnew & Hent & _); [rewrite Hh; apply bytes_ok_Sum256|by rewrite Hh|].
  change (Check (se_index s) (id_WeakHash (pc_ID pc)) (id_StrongHash (pc_ID pc)) = Ok r) in Hck. rewrite Hck. cbn [andb negb]. rewrite andb_true_r. destruct (dr_IsNew r) eqn:En.
  - set (s0 := countUnique _). destruct (storeNew p id s0 pc) as [s1 [e|]] eqn:Es; [done|].
    destruct (storeNew_good p K id D M0 idir fs0 s0 (entryFor p <$> pre) n pc recorder_ok Hse) as (s2 & Es2 & [U1 U2] & _); [by destruct Hg; split|done|done|]. rewrite Es in Es2. injection Es2 as <-.
    assert (Ht1 : tracked s1 (pre ++ [c]) n) by (eapply (storeNew_tracked D idir fs0 s0); try done; [by destruct Hg; split|by destruct Ht; split]).
    unfold recordEntry. cbn [se_stream] in U1. rewrite U1. cbn [s0 countUnique withTally countLookup countChunk se_stream]. rewrite (go_stream _ _ _ _ _ _ _ _ _ _ Hg). intros [= <-].
    destruct Ht1 as [T1 T2 T3 T4]. split; cbn [se_index se_manifests se_pending se_store se_checkpointWritten]; unfold ManifestRepo.EntryWriter_WriteEntry; rewrite (rc_frame _ _ _ Hrec); done.
  - unfold recordEntry. cbn [se_stream countDedup withTally countLookup countChunk]. rewrite (go_stream _ _ _ _ _ _ _ _ _ _ Hg). intros [= <-].
    destruct Ht as [T1 T2 T3 T4]. split; cbn [se_index se_manifests se_pending se_store se_checkpointWritten countDedup withTally countLookup countChunk]; unfold ManifestRepo.EntryWriter_WriteEntry; rewrite (rc_frame _ _ _ Hrec).
    + eapply covers_le; [|exact T1]. lia.
    + done.
    + intros x [Hx|Hx%list_elem_of_singleton]%elem_of_app; [by apply T3|subst x]. unfold known. rewrite <- Hc. destruct (proj1 Hnew eq_refl) as [e He]. apply Hk. exists e. by apply Hent.
    + destruct (last _) as [[pr dl]|]; [by apply marks_more|done].
Qed.

(** Prepared chunks that reach the store loop after the chunks [pre], and what they were
    prepared from. *)
Fixpoint deliver (pre : list Chunk) (pcs : list PreparedChunk) (cs : list Chunk) : Prop :=
  match pcs, cs with
  | [], [] => True
  | pc :: pcs, c :: cs => prepared_ok p K pc ∧ entryOf pc = entryFor p c ∧ Offset c = len (concat (Data <$> pre)) ∧
                          digestFor (pc_digestStateBefore pc) (concat (Data <$> pre)) ∧ deliver (pre ++ [c]) pcs cs
  | _, _ => False
  end.

Lemma deliver_take pre pcs cs n : deliver pre pcs cs → deliver pre (take n pcs) (take n cs).
Proof.
  revert pre cs n. induction pcs as [|pc pcs IH]; intros pre [|c cs] [|n]; try done. cbn. intros (H1 & H2 & H3 & H4 & H5). split_and!; try done. by apply IH.
Qed.

Lemma storeLoop_tracked D idir fs0 pcs : seals (pl_hooks p) → ∀ pre cs s, deliver pre pcs cs → good p K id D M0 idir fs0 s (entryFor p <$> pre) (len pcs) → tracked s pre (len pcs) →
  ∃ s', storeLoop p false id pcs s = (s', None) ∧ good p K id D M0 idir fs0 s' (entryFor p <$> pre ++ cs) 0 ∧ tracked s' (pre ++ cs) 0.
Proof.
  intros Hse. induction pcs as [|pc pcs IH]; intros pre [|c cs] s Hd Hg Ht; try done; cbn [storeLoop]; [exists s; by rewrite app_nil_r|].
  destruct Hd as (H1 & H2 & H3 & H4 & H5). replace (Z.of_nat (length (pc :: pcs))) with (len pcs + 1) in Hg, Ht by (cbn [length]; lia).
  destruct (storeChunk_good p K id D M0 idir fs0 s (entryFor p <$> pre) (len pcs) pc recorder_ok Hse Hg ltac:(lia) H1) as (s1 & E1 & Hg1).
  assert (Ht1 : tracked s1 (pre ++ [c]) (len pcs)).
  { injection H2 as Ho Hh _. eapply storeChunk_tracked; try done; [lia|by rewrite Ho]. }
  rewrite E1. rewrite H2 in Hg1. change [entryFor p c] with (entryFor p <$> [c]) in Hg1. rewrite <- fmap_app in Hg1.
  destruct (IH (pre ++ [c]) cs s1 H5 Hg1 Ht1) as (s' & -> & Hg' & Ht'). exists s'. by rewrite <- app_assoc in Hg', Ht'.
Qed.
End track.

(** ** A suspended run *)

Section run.
Context {MR : MapRange} {SS : SortSlice} {PR : Primitives} {ZS : Zstd} {DC : DigestCodec}.
Context (p : Pipeline) (K : bytes → Prop) (o : outer).

(** A schedule that ended, interrupted or not, in which the store loop received chunks
    without a gap. *)
Record gapless (absorbed : option bytes) (rdr : Reader) (w : nat) (s : goroutines (Chunk * bytes) PreparedChunk) : Prop := {
  gl_workers : (0 < w)%nat;
  gl_run : rtc (move (prepare p o false)) (start w (sourceOf p absorbed rdr)) s;
  gl_final : final s;
  gl_numbers : fst <$> g_stored s = seq 0 (length (g_stored s)) }.

Lemma prepared_deliver d chs all : pl_Resumable p = true → preparable p K o all → (∀ c, c ∈ chs → c ∈ all) → ∀ pre k, tiled (len (concat (Data <$> pre))) chs →
  (∀ x, Sum256 (d ++ x) = Sum256 (concat (Data <$> pre) ++ x)) →
  ∃ q, prepared (prepare p o false) (numberFrom k (withStates (pl_Resumable p) (Some d) chs)) = q ∧ deliver p K pre (snd <$> q) chs ∧ fst <$> q = seq k (length chs).
Proof.
  intros Hres Hp. rewrite Hres. revert d. induction chs as [|c chs IH]; intros d Hin pre k Ht Hd; [by eexists|]. destruct Ht as (Ho & Hl & Ht). cbn [withStates numberFrom].
  destruct (prepare_good p K o all k c (marshalDigest d) Hp) as (pc & Hpc & Hok & He); [by apply Hin; left|].
  assert (Hst : pc_digestStateBefore pc = marshalDigest d).
  { unfold prepare in Hpc. destruct (sealChunk _ _ _); [|done]. by injection Hpc as <-. }
  destruct (IH (d ++ Data c) ltac:(intros x Hx; apply Hin; by right) (pre ++ [c]) (S k)) as (q & Hq & Hdl & Hf).
  - rewrite fmap_app, concat_app. cbn. rewrite app_nil_r, length_app. by replace (Z.of_nat _) with (len (concat (Data <$> pre)) + Length c) by lia.
  - intros x. rewrite fmap_app, concat_app. cbn. by rewrite app_nil_r, <- !app_assoc, Hd.
  - unfold prepared in *. cbn [omap list_omap]. rewrite Hpc. cbn [fmap option_fmap option_map]. exists ((k, pc) :: q). split; [by rewrite <- Hq|]. cbn. rewrite Hf. split; [|done].
    split_and!; try done. rewrite Hst. pose proof (digestFor_more d (concat (Data <$> pre)) [] Hd) as Hm. by rewrite !app_nil_r in Hm.
Qed.

Lemma gapless_deliver d rdr w s pre : let chs := (chunkStream p rdr).1 in pl_Resumable p = true → preparable p K o chs → tiled (len (concat (Data <$> pre))) chs →
  (∀ x, Sum256 (d ++ x) = Sum256 (concat (Data <$> pre) ++ x)) → gapless (Some d) rdr w s →
  deliver p K pre (snd <$> g_stored s) (take (length (g_stored s)) chs).
Proof.
  intros chs Hres Hp Ht Hd [Hw Hr _ Hn]. destruct (prepared_deliver d chs chs Hres Hp ltac:(done) pre 0 Ht Hd) as (q & Hq & Hdl & Hf).
  pose proof (inv_reachable _ _ w s Hw Hr) as Hi. destruct (iv_flow _ _ _ Hi) as (m & _ & Hsub & _).
  assert (Hin : ∀ x, x ∈ g_stored s → x ∈ q).
  { intros x Hx. assert (Hx2 : x ∈ flow s) by (unfold flow; set_solver). eapply elem_of_submseteq in Hx2; [|exact Hsub].
    rewrite <- Hq. change (withStates _ _ _) with (sourceOf p (Some d) rdr). rewrite <- (take_drop m (numberFrom 0 (sourceOf p (Some d) rdr))), prepared_app. apply elem_of_app. by left. }
  rewrite (numbered_prefix _ _ _ Hn Hf Hin) at 1. rewrite fmap_take. by apply deliver_take.
Qed.

(** ** Opening and discarding *)

Lemma DInsert_disk i w h np no c i' : DInsert i w h np no c = Some i' → ix_disk (di_index i') = ix_disk (di_index i) ∧ di_dir i' = di_dir i ∧ di_key i' = di_key i.
Proof.
  intros H. apply (dedup_step_disk i (DedupInsert (mkDelta h w np no c)) i' None). cbn [dedup_step de_WeakHash de_StrongHash de_PackNumber de_StoreOffset de_ChunkLength]. by rewrite H.
Qed.

Lemma preload_covers M0 fs ts : small_packs fs → Forall (replayable p K fs) ts → ∀ d d' hs n F, 0 ≤ n → covers M0 F d hs (len ts + n) → preload ts d = Some d' →
  covers M0 F d' (hs ++ (it_StrongHash <$> ts)) n ∧ di_dir d' = di_dir d ∧ di_key d' = di_key d.
Proof.
  intros Hsm. induction 1 as [|t ts Ht _ IH]; intros d d' hs n F Hn Hc; cbn [preload]; [intros [= <-]; by rewrite app_nil_r|].
  destruct (DInsert d _ _ _ _ _) as [d1|] eqn:HI; [|done]. cbn. intros Hp. destruct Ht as ((data & _ & Hat & Hh) & Hz & Hw & Hl). pose proof (stored_at_offset _ _ _ _ Hsm Hat) as Ho. cbn [snd] in Ho.
  destruct (IH d1 d' (hs ++ [it_StrongHash t]) n F Hn) as (H1 & H2 & H3); [|done|].
  - eapply covers_insert; [|lia| |exact HI]; [cbn [length] in Hc; by replace (len ts + n + 1) with (Z.of_nat (S (length ts)) + n) by lia|].
    split; [|done]. split; cbn; [rewrite <- Hh; split; [apply length_Sum256|apply bytes_ok_Sum256]|done|apply Hat|unfold is_u64; lia|done].
  - apply DInsert_disk in HI as (_ & I2 & I3). rewrite <- app_assoc in H1. split_and!; [done|congruence..].
Qed.

(** What a run finds in its index directory is what it leaves when it is abandoned. *)
Lemma openIndex_covers r bs ess size_ ts n d : runnable p o → healthy p K r bs ess → ts = match pl_resume p with Some rs => rs_PreloadInserts rs | None => [] end →
  small_packs (packsOf r) → Forall (replayable p K (packsOf r)) ts → 0 ≤ n → Z.of_nat (size (indexMap bs ess)) + len ts + n ≤ 2 ^ 35 →
  openIndex p o false size_ r = (r, Ok d) →
  covers (indexMap bs ess) (ix_disk (di_index d)) d (it_StrongHash <$> ts) n ∧ di_key d = pl_indexKey p ∧
  id_bloom_enc (di_dir d) = id_bloom_enc (rp_index r) ∧ id_index_enc (di_dir d) = id_index_enc (rp_index r) ∧ id_deltas (di_dir d) = id_deltas (rp_index r) ∧
  (pl_indexKey p = None → id_bloom (di_dir d) = id_bloom (rp_index r) ∧ ix_disk (di_index d) = default [] (id_index (rp_index r))).
Proof.
  intros Hru Hhe Hts Hsm Hre Hn Hsz. unfold openIndex. rewrite (proj2 (Z.eqb_neq _ _)) by apply Hru. set (n0 := u64 _).
  destruct (openDedup_healthy p K o r bs ess n0 Hru Hhe) as (d0 & Ho & Hr & Hdl & Hk & Hbm & Hht & Hod). unfold NewDedupIndex. rewrite Ho.
  apply openDedup_disk in Ho as (O1 & O2 & O3 & O4 & O5). rewrite andb_true_r. set (arm := if pl_IndexDelta p then _ else _).
  assert (Ha : ∃ d1, arm = Ok d1 ∧ covers (indexMap bs ess) (ix_disk (di_index d0)) d1 [] (len ts + n) ∧ di_key d1 = di_key d0 ∧ di_dir d1 = di_dir d0 ∧ BloomSuspect d1 = false).
  { unfold arm. destruct (pl_IndexDelta p); [unfold CaptureDelta; rewrite Hdl|]; (eexists; split; [reflexivity|]); (split; [|done]); (split; [|done]);
      exists (insert_all bs ∅), (indexMap bs ess), (id_of <$> concat ess), []; (split; [|split_and!; [by left|lia|cbn; lia]]); [|done]. destruct Hr as [A1 A2 A3 _]. by split. }
  destruct Ha as (d1 & -> & Hc & Hk1 & Hd1 & ->). cbn [andb negb]. rewrite <- Hts. destruct (preload ts d1) as [d2|] eqn:Hp; [|done]. intros [= <-].
  destruct (preload_covers _ _ ts Hsm Hre d1 d2 [] n _ Hn Hc Hp) as (H1 & H2 & H3). rewrite H3, Hk1, H2, Hd1, O1, (cv_disk _ _ _ _ _ H1). by split_and!.
Qed.

(** With a key, the index is at rest in its encrypted form only. *)
Definition at_rest (r : repo) : Prop := is_Some (pl_indexKey p) → unwritten (rp_index r) ∨ is_Some (id_bloom_enc (rp_index r)) ∧ is_Some (id_index_enc (rp_index r)).

Lemma discard_dir i : (DCloseDiscard i).2 = leaveDir i (match di_key i with Some _ => None | None => id_bloom (di_dir i) end) (di_index i).
Proof. unfold DCloseDiscard, closeDelta. by destruct (di_delta i). Qed.

(** The directory a discarded index leaves, from one that held the same files. *)
Lemma discarded_healthy r r' i bs ess : healthy p K r bs ess → at_rest r → di_key i = pl_indexKey p →
  id_bloom_enc (di_dir i) = id_bloom_enc (rp_index r) → id_index_enc (di_dir i) = id_index_enc (rp_index r) → id_deltas (di_dir i) = id_deltas (rp_index r) →
  (pl_indexKey p = None → id_bloom (di_dir i) = id_bloom (rp_index r) ∧ ix_disk (di_index i) = default [] (id_index (rp_index r))) →
  rp_index r' = (DCloseDiscard i).2 → packs_grow (packsOf r) (packsOf r') → limit (c_PackFileMaxSize (pl_cfg p)) (packsOf r') → healthy p K r' bs ess ∧ at_rest r'.
Proof.
  intros [Hi Hs Hl] Hrest Hk H1 H2 H3 H4 Hr' Hg Hl'. rewrite discard_dir, Hk in Hr'. unfold leaveDir in Hr'. rewrite Hk, H1, H2, H3 in Hr'.
  assert (Hun : unwritten (rp_index r) → unwritten (rp_index r')).
  { intros [[U1 U2] [U3 U4] U5]. rewrite Hr'. destruct (pl_indexKey p); [by split|]. destruct (H4 eq_refl) as [-> ->]. split; cbn; [by rewrite U1|by rewrite U3|done]. }
  split; [split; [|by eapply sound_grow|done]|].
  - destruct Hi as [(bf & [D1 D2 (dir' & D3 & D4 & D5 & D6) D7])|(Hu & -> & ->)]; [|right; by split_and!; [apply Hun|..]].
    destruct (pl_indexKey p) as [k|] eqn:Ek.
    + destruct (Hrest ltac:(by rewrite Ek)) as [Hu|[[be Hbe] [ie Hie]]].
      * exfalso. destruct Hu as [[U1 U2] _ _]. unfold decryptDir, decryptOver in D3. rewrite U1, U2 in D3. cbn [rbind] in D3. destruct (match id_index_enc _ with Some _ => _ | None => _ end); [|done]. cbn in D3. injection D3 as <-. done.
      * left. exists bf. rewrite Hr'. split; [done|done| |by unfold deltaObjects in *; cbn]. exists dir'. cbn [id_deltas]. split_and!; try done.
        unfold decryptDir, decryptOver in *. cbn [id_bloom_enc id_index_enc id_deltas]. rewrite Hbe, Hie in *. exact D3.
    + left. exists bf. rewrite Hr'. destruct (H4 eq_refl) as [-> ->]. cbn [decryptDir] in D3. unfold refuseEncryptedWithoutKey in D3. split; [done|done| |by unfold deltaObjects in *; cbn].
      destruct (id_index_enc (rp_index r)) eqn:E1, (id_bloom_enc (rp_index r)) eqn:E2; try done. cbn in D3. injection D3 as <-. eexists. split; [reflexivity|]. cbn. by split_and!.
  - intros Hks. destruct (Hrest Hks) as [Hu|?]; [left; by apply Hun|right]. rewrite Hr'. by cbn.
Qed.

(** A run reports a suspension only when its loop ended well, after a checkpoint. *)
Lemma complete_not_suspended vol size_ id dg r s r' : complete p o vol size_ id dg r s ≠ (r', Err PeSuspended).
Proof.
  unfold complete. destruct (CloseStore _ _) as [st [e|]]; [done|]. destruct (ou_flush o) as [[n1 n2] n3]. destruct (DFlush _ _ _ _) as [d [e|]]; [done|].
  destruct (match se_stream _ with Some _ => _ | None => _ end) as [m|e] eqn:Em.
  - destruct (ou_close o) as [[[c1 c2] c3] c4]. by destruct (DClose _ _ _ _ _) as [[? ?] ?].
  - intros [= _ ->]. destruct (se_stream _); [by destruct (pl_FinishManifest _ _)|by destruct (ManifestRepo.Save _ _ _)].
Qed.

Lemma run_suspended vol size_ oc r r' d absorbed m s : pl_bound p = true → pl_mode p = EncryptNone ∨ is_Some (pl_key p) → pl_StreamManifest p = None →
  openIndex p o false size_ r = (r, Ok d) → digestStart p = Ok absorbed → openEntries p false (runID p o) (rp_manifests r) = Ok m →
  storeLoop p false (runID p o) (oc_received oc) (firstSession p d (openStore p r) m) = (s, None) → oc_chunker oc ≠ Some PeSuspended →
  run p o false vol size_ oc r = (r', Err PeSuspended) → r' = abandon p r s false true (runID p o) ∧ se_checkpointWritten s = true.
Proof.
  intros Hb Hmode Hstr Ho Hd Hm Hs Hne. unfold run. rewrite Hb. cbn [negb].
  assert (Hmd : negb (String.eqb (pl_mode p) EncryptNone) && bool_decide (pl_key p = None) = false).
  { destruct Hmode as [->|[k ->]]; [by rewrite String.eqb_refl|by rewrite andb_false_r]. }
  rewrite Hmd. fold (runID p o). rewrite Ho, Hd, (bool_decide_eq_false_2 (is_Some (pl_StreamManifest p))) by (rewrite Hstr; by intros [? ?]). cbn [andb]. rewrite Hm, Hs.
  destruct (oc_workerErr oc); [done|]. destruct (oc_chunker oc) as [e|] eqn:Ec.
  - destruct (pl_Resumable p && se_checkpointWritten s && oc_interrupted oc) eqn:E; [|intros [= _ ->]; by destruct Hne]. intros [= <-].
    apply andb_true_iff in E as [[_ E]%andb_true_iff _]. done.
  - intros H. by apply complete_not_suspended in H.
Qed.

Lemma chunker_not_suspended absorbed rdr we b s : oc_chunker (outcomeAt p absorbed rdr we b s) ≠ Some PeSuspended.
Proof.
  unfold outcomeAt. destruct (chunkStream p rdr) as [chs e]. cbn. destruct (g_chunker s); [done| |done]. unfold chunkerEnd. by repeat case_match.
Qed.

(** What a suspended run leaves: its chunks after [chs0] in the sidecar, a checkpoint to resume
    from, the inserts of all checkpoints in the packs, and the repository healthy. *)
Lemma suspend_run fn led vol size_ rdr w s we b r r' bs ess chs0 d : let chs := (chunkStream p rdr).1 in let ts := insertsOf (led (rp_manifests r)) in
  pl_CheckpointFn p = Some fn → recorder fn (runID p o) led → pl_Resumable p = true → runnable p o → digestStart p = Ok (Some d) →
  (∀ x, Sum256 (d ++ x) = Sum256 (concat (Data <$> chs0) ++ x)) → tiled (len (concat (Data <$> chs0))) chs → preparable p K o chs → gapless (Some d) rdr w s →
  ready p K o r bs ess ts (entryFor p <$> chs0) (len chs) → at_rest r → (∀ c, c ∈ chs0 → known p (indexMap bs ess) ts c) →
  (∀ pr dl, last (led (rp_manifests r)) = Some (pr, dl) → marks p (indexMap bs ess) chs0 pr ts) →
  run p o false vol size_ (outcomeAt p (Some d) rdr we b s) r = (r', Err PeSuspended) →
  let ts' := insertsOf (led (rp_manifests r')) in let pre := chs0 ++ take (length (g_stored s)) chs in
  healthy p K r' bs ess ∧ at_rest r' ∧ Forall (replayable p K (packsOf r')) ts' ∧
  stat (rp_manifests r') (ManifestRepo.EntriesPath (runID p o)) = Some (DnmFile.entryBytes (entryFor p <$> pre)) ∧
  ∃ pr dl, last (led (rp_manifests r')) = Some (pr, dl) ∧ marks p (indexMap bs ess) pre pr ts'.
Proof.
  intros chs ts Hfn Hrec Hres Hru Hds Hd Ht Hp Hgl [Hhe [Hts Hre] Hkn (m & Hoe & Hst) Hh0 (Hfu & Hfa & Hfn2) Hsz] Hrest Hk0 Hm0 Hrun ts' pre.
  pose proof (gapless_deliver d rdr w s chs0 Hres Hp Ht Hd Hgl) as Hdl. fold chs in Hdl. set (pcs := snd <$> g_stored s) in *.
  assert (Hn : len pcs ≤ len chs).
  { assert (Hlen : ∀ pre pcs cs, deliver p K pre pcs cs → length pcs = length cs).
    { clear. intros pre pcs. revert pre. induction pcs as [|pc pcs IH]; intros pre [|c cs]; try done. intros (_ & _ & _ & _ & H). cbn. f_equal. by eapply IH. }
    apply Hlen in Hdl. rewrite length_take in Hdl. lia. }
  pose proof (he_limit _ _ _ _ _ Hhe) as Hlim. destruct (openStore_filling p r Hlim Hfu Hfa) as (Hfi & Hfs & Hpn & Hmx & Hky).
  assert (Hsm : small_packs (packsOf r)) by (rewrite <- Hfs; apply filling_small; [done|rewrite Hmx; apply Hru]).
  destruct (openIndex_good p K o r bs ess size_ ts (entryFor p <$> chs0) (len pcs) Hru Hhe Hts Hsm Hre ltac:(lia) ltac:(lia) Hkn) as (i & Hoi & Hix & Hod).
  destruct (openIndex_covers r bs ess size_ ts (len pcs) i Hru Hhe Hts Hsm Hre ltac:(lia) ltac:(lia) Hoi) as (Hcv & Hky2 & E1 & E2 & E3 & E4).
  assert (Hled : led m = led (rp_manifests r)).
  { unfold openEntries in Hoe. rewrite (bool_decide_eq_false_2 (is_Some (pl_StreamManifest p))) in Hoe by (rewrite (ru_stream _ _ Hru); by intros [? ?]). cbn [orb] in Hoe. destruct (pl_resume p).
    - unfold ManifestRepo.OpenEntryWriterResume in Hoe. destruct (_ || _); [done|]. destruct (stat _ _); [|done]. destruct (_ <? _); [done|]. injection Hoe as <-. apply (rc_frame _ _ _ Hrec).
    - injection Hoe as <-. apply (rc_frame _ _ _ Hrec). }
  destruct (storeLoop_tracked p K (runID p o) fn led Hfn Hrec (indexMap bs ess) (ix_disk (di_index i)) (insert_all bs ∅) (di_dir i) (packsOf r) pcs (ru_seals _ _ Hru) chs0 _
    (firstSession p i (openStore p r) m) Hdl) as (s1 & Hloop & Hg & [T1 T2 T3 T4]).
  { split; cbn [firstSession se_index se_store se_manifests se_stream]; [by rewrite Hfs| |rewrite Hpn; lia|done|by rewrite (ru_stream _ _ Hru)]. rewrite Hmx, Hky, Hfs. split_and!; [done|apply Hru|done|done|reflexivity]. }
  { split; cbn [firstSession se_index se_store se_manifests se_pending se_checkpointWritten]; rewrite ?Hled, ?app_nil_r; [done|by rewrite Hfs|done|]. destruct (last _) as [[pr dl]|] eqn:El; [by eapply Hm0|done]. }
  assert (Hoc : oc_received (outcomeAt p (Some d) rdr we b s) = pcs) by (unfold outcomeAt; by destruct (chunkStream p rdr)).
  rewrite <- Hoc in Hloop. destruct (run_suspended vol size_ _ r r' i (Some d) m s1 (ru_bound _ _ Hru) (ru_mode _ _ Hru) (ru_stream _ _ Hru) Hoi Hds Hoe Hloop (chunker_not_suspended _ _ _ _ _) Hrun) as [Hr' Hcw].
  pose proof Hg as [[_ (C1 & C2 & C3)] (G1 & [G2 G3] & G4 & G5) _ Hsc _]. destruct (CloseStore_seals (pl_hooks p) (se_store s1) (ru_seals _ _ Hru) (fi_ok _ G1)) as (st & Hcs & Hfst).
  assert (Hpk : packsOf r' = cs_files (se_store s1)).
  { rewrite Hr'. unfold abandon, packsOf. destruct (DCloseDiscard _). cbn. by rewrite Hcs. }
  assert (Hman : rp_manifests r' = se_manifests s1) by (rewrite Hr'; unfold abandon; by destruct (DCloseDiscard _)).
  assert (Hidx : rp_index r' = (DCloseDiscard (se_index s1)).2) by (rewrite Hr'; unfold abandon; by destruct (DCloseDiscard _)).
  destruct (discarded_healthy r r' (se_index s1) bs ess Hhe Hrest C2) as [H1 H2]; rewrite ?C3; try done; [|by rewrite Hpk|rewrite Hpk, <- G3; apply G1|].
  { intros Hkn0. destruct (E4 Hkn0) as [-> <-]. split; [done|]. apply (cv_disk _ _ _ _ _ T1). }
  unfold ts'. rewrite Hman, Hpk. split_and!; [done|done|by apply Forall_app in T2 as [? _]|exact Hsc|].
  destruct (last (led (se_manifests s1))) as [[pr dl]|]; [by exists pr, dl|congruence].
Qed.
End run.

(** ** Suspensions *)

(** The resume state a caller makes of the last checkpoint, the inserts of all of them and the
    packs that are there. *)
Definition checkpointState (id : bytes) (r : repo) (l : ledger) : option ResumeState :=
  match last l with
  | None => None
  | Some (pr, _) =>
      Some (mkResumeState id (findLatestPack (packsOf r) + 1) (ResumeOffset pr) (EntriesLen pr)
              (mkTally (pg_TotalChunks pr) (pg_RawBytes pr) (pg_UniqueChunks pr) (pg_DedupChunks pr) (pg_StoredBytes pr))
              (DigestState pr) (insertsOf l) (u32 (CheckpointSeq pr + 1)))
  end.

Lemma prefix_fmap {A B} (f : A → B) (l k : list A) : l `prefix_of` k → f <$> l `prefix_of` f <$> k.
Proof. intros [x ->]. rewrite fmap_app. by apply prefix_app_r. Qed.
Lemma prefix_concat {A} (l k : list (list A)) : l `prefix_of` k → concat l `prefix_of` concat k.
Proof. intros [x ->]. rewrite concat_app. by apply prefix_app_r. Qed.
Lemma prefix_take_length {A} (l k : list A) : l `prefix_of` k → l = take (length l) k.
Proof. intros [x ->]. by rewrite take_app_length. Qed.

Lemma tiled_prefix chs1 chs2 off : tiled off (chs1 ++ chs2) → tiled off chs1.
Proof. revert off. induction chs1 as [|c chs1 IH]; intros off; [done|]. cbn. intros (? & ? & ?). split_and!; auto. Qed.

Section suspensions.
Context {MR : MapRange} {SS : SortSlice} {PR : Primitives} {ZS : Zstd} {DC : DigestCodec}.
Context (p : Pipeline) (K : bytes → Prop) (id : bytes) (fn : dir → Progress → Pipeline.Delta → dir * bool) (led : dir → ledger).
Context (source : bytes) (bs : list IndexEntry) (ess : list (list DeltaEntry)).

(** The pipeline asks for checkpoints, which [fn] records. *)
Record checkpointing : Prop := {
  cp_resumable : pl_Resumable p = true;
  cp_fn : pl_CheckpointFn p = Some fn;
  cp_recorder : recorder fn id led;
  cp_id : id ≠ [] }.

(** A backup of [source] was suspended, perhaps after earlier suspensions, and left the
    repository [r] to be resumed with [rs]. *)
Inductive suspended : repo → ResumeState → Prop :=
| suspended_first o vol size_ rdr w s we r r' rs : let chs := (chunkStream p rdr).1 in
    runnable p o → runID p o = id → pl_resume p = None → pl_StartPackNum p = 0 → healthy p K r bs ess → at_rest p r → led (rp_manifests r) = [] →
    delivered rdr 0 = (source, EOF) → preparable p K o chs → gapless p o (Some []) rdr w s →
    findLatestPack (packsOf r) + len chs < 2 ^ 32 → Z.of_nat (size (indexMap bs ess)) + len chs ≤ 2 ^ 35 →
    Backup p o vol size_ (outcomeAt p (Some []) rdr we true s) r = (r', Err PeSuspended) →
    checkpointState id r' (led (rp_manifests r')) = Some rs → suspended r' rs
| suspended_again o vol size_ rdr w s we d r rs r' rs' : let q := resumePipeline p rs in let chs := (chunkStream q rdr).1 in
    suspended r rs → runnable q o → unmarshalDigest (rs_DigestState rs) = Some d →
    delivered rdr 0 = (drop (Z.to_nat (rs_ResumeOffset rs)) source, EOF) → preparable q K o chs → gapless q o (Some d) rdr w s →
    rs_StartPackNum rs + len chs < 2 ^ 32 → Z.of_nat (size (indexMap bs ess)) + len (rs_PreloadInserts rs) + len chs ≤ 2 ^ 35 →
    BackupResume p rs o vol size_ (outcomeAt q (Some d) rdr we true s) r = (r', Err PeSuspended) →
    checkpointState id r' (led (rp_manifests r')) = Some rs' → suspended r' rs'.

(** What is left: everything a resume relies on, for a prefix of the source. *)
Record left_by (r : repo) (rs : ResumeState) (chs0 : list Chunk) : Prop := {
  lb_resumable : is_u32 (rs_StartPackNum rs) → resumable K p rs r bs ess chs0;
  lb_source : concat (Data <$> chs0) = take (Z.to_nat (rs_ResumeOffset rs)) source;
  lb_healthy : healthy p K r bs ess;
  lb_rest : at_rest p r;
  lb_state : checkpointState id r (led (rp_manifests r)) = Some rs }.

(** From what a suspended run leaves to the state its resume starts from. *)
Lemma left_after r' rs pre rest pr dl : checkpointing → tiled 0 pre → concat (Data <$> pre ++ rest) = source → healthy p K r' bs ess → at_rest p r' →
  Forall (replayable p K (packsOf r')) (insertsOf (led (rp_manifests r'))) →
  stat (rp_manifests r') (ManifestRepo.EntriesPath id) = Some (DnmFile.entryBytes (entryFor p <$> pre)) →
  last (led (rp_manifests r')) = Some (pr, dl) → marks p (indexMap bs ess) pre pr (insertsOf (led (rp_manifests r'))) →
  checkpointState id r' (led (rp_manifests r')) = Some rs → ∃ chs0, left_by r' rs chs0.
Proof.
  intros [_ _ _ Hid] Ht Hsrc Hhe Hrest Hre Hst Hl (k & Hk & M1 & M2 & M3 & M4) Hcs. exists (take k pre). pose proof Hcs as Hrs. unfold checkpointState in Hrs. rewrite Hl in Hrs. injection Hrs as <-.
  split; cbn [rs_BackupID rs_StartPackNum rs_ResumeOffset rs_EntriesLen rs_DigestState rs_PreloadInserts]; [|rewrite M2; rewrite Nat2Z.id|done|done|done].
  - intros Hu. split; cbn [rs_BackupID rs_StartPackNum rs_ResumeOffset rs_EntriesLen rs_DigestState rs_PreloadInserts]; [done|split; [|done]|rewrite length_take; split; [by rewrite M1; f_equal; lia|]|done|done|done|].
    + eapply tiled_prefix. by rewrite (take_drop k pre).
    + exists (DnmFile.entryBytes (entryFor p <$> drop k pre)). rewrite Hst. f_equal. rewrite <- (take_drop k pre) at 1. by rewrite !fmap_app, concat_app.
    + pose proof (so_num _ (NewChunkStore_ok (rp_chunks r') 0 0 None)) as Hn. cbn in Hn. change (default ∅ (rp_chunks r')) with (packsOf r') in Hn. unfold is_u32 in Hn. split; [lia|]. split; [done|].
      intros j Hj Hlt. apply (nothing_above_latest (packsOf r')); [done|lia].
  - apply prefix_take_length. rewrite <- Hsrc. apply prefix_concat, prefix_fmap. rewrite <- (take_drop k pre) at 2. rewrite <- app_assoc. by apply prefix_app_r.
Qed.

(** The chunks before a suspension and the chunks of the rest are a chunking of the source. *)
Lemma rest_tiled rs r chs0 rdr : left_by r rs chs0 → is_u32 (rs_StartPackNum rs) → delivered rdr 0 = (drop (Z.to_nat (rs_ResumeOffset rs)) source, EOF) →
  let chs := (chunkStream (resumePipeline p rs) rdr).1 in
  tiled 0 chs0 ∧ tiled (len (concat (Data <$> chs0))) chs ∧ concat (Data <$> chs0 ++ chs) = source.
Proof.
  intros [Hr Hs _ _ _] Hu Hd. destruct (Hr Hu) as [_ [Ht Ho] _ _ _ _ _]. destruct (chunkStream_tiles (resumePipeline p rs) rdr _ Hd) as (chs & -> & Ht2 & Hc). cbn [fst].
  change (startOffset (resumePipeline p rs)) with (Z.max 0 (rs_ResumeOffset rs)) in Ht2. rewrite Ho, Z.max_r in Ht2 by lia. split_and!; [done|done|].
  rewrite fmap_app, concat_app, Hc, Hs. apply take_drop.
Qed.

Lemma suspended_left r rs : checkpointing → suspended r rs → ∃ chs0, left_by r rs chs0.
Proof.
  intros Hcp. pose proof Hcp as [Hres Hfn Hrec Hid].
  induction 1 as [o vol size_ rdr w s we r r' rs chs Hru Hrid Hre Hsp Hhe Hrest Hled Hd Hp Hgl Hfl Hsz Hrun Hcs|o vol size_ rdr w s we d r rs r' rs' q chs _ [chs0 IH] Hru Hdg Hd Hp Hgl Hfl Hsz Hrun Hcs].
  - destruct (chunkStream_tiles p rdr source Hd) as (chs' & Hch & Ht & Hcat). unfold startOffset in Ht. rewrite Hre in Ht. assert (Hc : chs = chs') by (unfold chs; by rewrite Hch). subst chs'.
    rewrite <- Hrid in Hrec. destruct (suspend_run p K o fn led vol size_ rdr w s we true r r' bs ess [] [] Hfn Hrec Hres Hru) as (H1 & H2 & H3 & H4 & pr & dl & H5 & H6);
      rewrite ?Hled; try done; [unfold digestStart; by rewrite Hre|by apply fresh_ready|by intros c ?%elem_of_nil|].
    fold chs in H4, H6. cbn [app] in H4, H6. rewrite Hrid in H4. eapply (left_after r' rs (take (length (g_stored s)) chs) (drop (length (g_stored s)) chs)); try done.
    + eapply tiled_prefix. by rewrite take_drop.
    + by rewrite take_drop.
  - pose proof IH as [Hre Hsrc Hhe Hrest Hst]. assert (Hu : is_u32 (rs_StartPackNum rs)).
    { unfold checkpointState in Hst. destruct (last _) as [[pr dl]|]; [|done]. injection Hst as <-. cbn in Hfl |- *. pose proof (so_num _ (NewChunkStore_ok (rp_chunks r) 0 0 None)) as Hn. cbn in Hn. unfold is_u32, packsOf in *. lia. }
    destruct (rest_tiled rs r chs0 rdr IH Hu Hd) as (Ht0 & Ht & Hcat). destruct (Hre Hu) as [Hbid [_ Hoff] [Hel (tail & Hsc)] (Hdn & d' & Hd' & Hdx) Hrp Hkn (Hsp & _ & Hna)].
    rewrite Hdg in Hd'. injection Hd' as <-. assert (Hbi : rs_BackupID rs = id) by (unfold checkpointState in Hst; destruct (last _) as [[? ?]|]; [by injection Hst as <-|done]).
    assert (Hrid : runID q o = id) by (unfold runID; cbn; rewrite bool_decide_eq_false_2 by (by rewrite Hbi); done).
    assert (Hins : rs_PreloadInserts rs = insertsOf (led (rp_manifests r))) by (unfold checkpointState in Hst; destruct (last _) as [[? ?]|]; [by injection Hst as <-|done]).
    assert (Hh0 : DnmFile.hashed (entryFor p <$> chs0)) by (apply Forall_fmap, Forall_true; intros c; apply length_Sum256).
    rewrite <- Hrid in Hrec. destruct (suspend_run q K o fn led vol size_ rdr w s we true r r' bs ess chs0 d Hfn Hrec Hres Hru) as (H1 & H2 & H3 & H4 & pr & dl & H5 & H6); try done.
    + unfold digestStart. cbn. rewrite bool_decide_eq_false_2 by done. by rewrite Hdg.
    + rewrite <- Hins. split; [by destruct Hhe|done| | |done| |done].
      * intros e (c & -> & Hc)%list_elem_of_fmap. by apply Hkn.
      * rewrite Hrid, <- Hbi. eapply (openEntries_resumed q rs); [apply Hru|done|done|exact Hsc|by rewrite length_fmap].
      * assert (Hfp : firstPack q r = rs_StartPackNum rs) by (unfold firstPack; cbn; by rewrite (proj2 (Z.ltb_lt _ _))). by rewrite Hfp.
    + intros c Hc. rewrite <- Hins. by apply Hkn.
    + intros pr dl Hl. exists (length chs0). rewrite firstn_all, <- Hins. unfold checkpointState in Hst. rewrite Hl in Hst. injection Hst as <-. cbn in *. split_and!; try done. by split; [|exists d].
    + fold chs in H4, H6. rewrite Hrid in H4. eapply (left_after r' rs' (chs0 ++ take (length (g_stored s)) chs) (drop (length (g_stored s)) chs)); try done.
      * apply tiled_app; [done|]. rewrite Z.add_0_l. eapply tiled_prefix. by rewrite take_drop.
      * by rewrite <- app_assoc, take_drop.
      * by destruct H1.
Qed.
End suspensions.

(** C15. A backup that was suspended is finished by its resume: when a backup of [source] has been
    interrupted any number of times after a checkpoint, each time with no gap in what
    its store loop had received, then resuming from what the last checkpoint records, under
    any schedule that is not cancelled, succeeds; the manifest lists chunks that lie end to
    end and make up the source, carries its SHA-256, all of them and all chunks indexed
    before read back with their identities, and the repository is healthy again. *)
Theorem suspended_backup_resumes {MR : MapRange} {SS : SortSlice} {PR : Primitives} {ZS : Zstd} {DC : DigestCodec} (K : bytes → Prop)
    p id fn led source bs ess rs o parseJSON vol size_ rdr w s we b r fes d : let q := resumePipeline p rs in let chs := (chunkStream q rdr).1 in
  checkpointing p id fn led → suspended p K id led source bs ess r rs → runnable q o → unmarshalDigest (rs_DigestState rs) = Some d →
  delivered rdr 0 = (drop (Z.to_nat (rs_ResumeOffset rs)) source, EOF) → preparable q K o chs → completes q o (Some d) rdr w s →
  rs_StartPackNum rs + len chs < 2 ^ 32 → Z.of_nat (size (indexMap bs ess)) + len (rs_PreloadInserts rs) + len chs ≤ 2 ^ 35 →
  let m res := pl_StampManifest p (manifestOf q o vol size_ (Some (Sum256 source)) res) in
  (∀ res es, re_BackupID res = id → DnmFile.hashed es → 45 * len es = rs_EntriesLen rs + 45 * len chs → savable q o (m res) id fes es) →
  ∃ all r' res bs', tiled 0 all ∧ concat (Data <$> all) = source ∧
    BackupResume p rs o vol size_ (outcomeAt q (Some d) rdr we b s) r = (r', Ok res) ∧
    ManifestRepo.Load parseJSON (rp_manifests r') id = Ok (DnmFile.loaded (m res) fes (entryFor p <$> all)) ∧
    serves p K r' (indexMap bs ess) (entryFor p <$> all) ∧ healthy p K r' bs' ess.
Proof.
  intros q chs Hcp Hsus Hru Hdg Hd Hp Hcm Hfl Hsz m Hsav. destruct (suspended_left p K id fn led source bs ess r rs Hcp Hsus) as (chs0 & Hlb). pose proof Hlb as [Hre Hsrc Hhe _ Hst].
  assert (Hstart : is_u32 (rs_StartPackNum rs) ∧ rs_BackupID rs = id).
  { unfold checkpointState in Hst. destruct (last _) as [[pr dl]|]; [|done]. injection Hst as <-. cbn in Hfl |- *. split; [|done].
    pose proof (so_num _ (NewChunkStore_ok (rp_chunks r) 0 0 None)) as Hn. cbn in Hn. unfold is_u32, packsOf in *. lia. }
  destruct Hstart as [Hu Hbi]. destruct (rest_tiled p K id led source bs ess rs r chs0 rdr Hlb Hu Hd) as (_ & _ & Hcat). fold q chs in Hcat. specialize (Hre Hu).
  assert (Hall : concat (Data <$> chs0) ++ drop (Z.to_nat (rs_ResumeOffset rs)) source = source) by (rewrite Hsrc; apply take_drop).
  assert (Hck : checkpoints_ok q (rs_BackupID rs)) by (rewrite Hbi; destruct Hcp; by eapply recorder_ok).
  destruct (resumed_restorable K p rs o parseJSON vol size_ rdr _ w s we b r bs ess fes chs0 d Hru Hck Hre Hhe Hdg Hd Hp Hcm Hfl Hsz) as (H1 & H2 & r' & res & bs' & H3 & H4 & H5 & H6).
  { rewrite Hall, Hbi. intros res Hres. apply Hsav; [done| |].
    - apply Forall_fmap, Forall_true. intros c. apply length_Sum256.
    - rewrite length_fmap, length_app. destruct Hre as [_ _ [-> _] _ _ _ _]. fold q chs. lia. }
  rewrite Hall, Hbi in H4. exists (chs0 ++ chs), r', res, bs'. by split_and!.
Qed.

(** ** A checkpoint writer *)

(** The ledger as one file of numbers: lists carry their length in front. *)
Definition putL (l : list Z) : list Z := len l :: l.
Definition getL (f : list Z) : list Z * list Z := match f with n :: f => (take (Z.to_nat n) f, drop (Z.to_nat n) f) | [] => ([], []) end.
Lemma getL_putL l rest : getL (putL l ++ rest) = (l, rest).
Proof. cbn. by rewrite Nat2Z.id, take_app_length, drop_app_length. Qed.

Section many.
Context {A : Type} (enc : A → list Z) (dec : list Z → option (A * list Z)).
Definition encMany (l : list A) : list Z := len l :: concat (enc <$> l).
Fixpoint decN (n : nat) (f : list Z) : option (list A * list Z) :=
  match n with
  | O => Some ([], f)
  | S n => '(a, f) ← dec f; '(l, f) ← decN n f; Some (a :: l, f)
  end.
Definition decMany (f : list Z) : option (list A * list Z) := match f with n :: f => decN (Z.to_nat n) f | [] => None end.
Lemma decMany_encMany l rest : (∀ a rest, dec (enc a ++ rest) = Some (a, rest)) → decMany (encMany l ++ rest) = Some (l, rest).
Proof. intros H. cbn. rewrite Nat2Z.id. induction l as [|a l IH]; [done|]. cbn. rewrite <- app_assoc, H. cbn. by rewrite IH. Qed.
End many.

Definition encProgress (pr : Progress) : list Z :=
  putL [LastSealedPack pr; CheckpointSeq pr; ResumeOffset pr; EntriesLen pr; EntriesCount pr; BoundaryChunkOffset pr; BoundaryChunkLength pr;
        pg_TotalChunks pr; pg_RawBytes pr; pg_UniqueChunks pr; pg_DedupChunks pr; pg_StoredBytes pr] ++ putL (BoundaryChunkHash pr) ++ putL (DigestState pr).
Definition decProgress (f : list Z) : option (Progress * list Z) :=
  let '(ns, f) := getL f in let '(h, f) := getL f in let '(g, f) := getL f in
  match ns with
  | [a; b; c; d; e; i; j; k; l; m; n; o] => Some (mkProgress a b c d e h i j k l m n o g, f)
  | _ => None
  end.
Lemma decProgress_enc pr rest : decProgress (encProgress pr ++ rest) = Some (pr, rest).
Proof. unfold decProgress, encProgress. rewrite <- !app_assoc, !getL_putL. by destruct pr. Qed.

Definition encTuple (t : InsertTuple) : list Z := putL (it_WeakHash t :: it_PackNumber t :: it_StoreOffset t :: it_ChunkLength t :: it_StrongHash t).
Definition decTuple (f : list Z) : option (InsertTuple * list Z) :=
  match getL f with (w :: p :: o :: c :: h, f) => Some (mkTuple h w p o c, f) | _ => None end.
Lemma decTuple_enc t rest : decTuple (encTuple t ++ rest) = Some (t, rest).
Proof. unfold decTuple, encTuple. rewrite getL_putL. by destruct t. Qed.

Definition encRecord (x : Progress * Pipeline.Delta) : list Z := encProgress x.1 ++ putL (dl_SidecarBytes x.2) ++ encMany encTuple (dl_Inserts x.2).
Definition decRecord (f : list Z) : option ((Progress * Pipeline.Delta) * list Z) :=
  '(pr, f) ← decProgress f; let '(sb, f) := getL f in '(ts, f) ← decMany decTuple f; Some ((pr, mkDeltaCk sb ts), f).
Lemma decRecord_enc x rest : decRecord (encRecord x ++ rest) = Some (x, rest).
Proof.
  unfold decRecord, encRecord. rewrite <- !app_assoc, decProgress_enc. cbn [mbind option_bind]. rewrite getL_putL, decMany_encMany by apply decTuple_enc. by destruct x as [? []].
Qed.

Definition ledgerName : name := [108].
Definition ledgerOf (d : dir) : ledger := match stat d ledgerName with Some f => match decMany decRecord f with Some (l, _) => l | None => [] end | None => [] end.
Definition writeLedger (d : dir) (pr : Progress) (dl : Pipeline.Delta) : dir * bool := (create d ledgerName (encMany encRecord (ledgerOf d ++ [(pr, dl)])), true).

Lemma writeLedger_records id : ManifestRepo.EntriesPath id ≠ ledgerName → recorder writeLedger id ledgerOf.
Proof.
  intros Hne. split.
  - intros d pr dl. split; [done|]. unfold ledgerOf at 1, writeLedger. cbn [fst]. rewrite stat_create, decide_True by done.
    pose proof (decMany_encMany encRecord decRecord (ledgerOf d ++ [(pr, dl)]) [] decRecord_enc) as H. rewrite app_nil_r in H. by rewrite H.
  - intros d pr dl. unfold writeLedger. cbn [fst]. by rewrite stat_create, decide_False.
  - intros d b. unfold ledgerOf. by rewrite stat_create, decide_False.
Qed.

(** The small pipeline with this writer, interrupted when two of its three chunks are stored:
    the second began a pack, so a checkpoint tells to go on with it. *)
Definition ledgerPipeline : Pipeline :=
  mkPipeline smallConfig None None None EncryptNone true None 0 noHooks [97] false true None (λ s _, (s, None)) (λ _, true) Datatypes.id (Some writeLedger) None.
Definition twoPrepared : list PreparedChunk := [smallPrepared ledgerPipeline (firstChunk, [1]); smallPrepared ledgerPipeline (mkChunk [5; 6; 7; 8] 4 4, [1; 1; 2; 3; 4])].
Definition interruptedRun : repo * result pipe_err pipe_result :=
  Backup ledgerPipeline smallOuter [] 10 (mkOutcome twoPrepared (Some PeCancelled) None true None) newRepo.
Definition suspendedState : ResumeState :=
  mkResumeState [97] 2 4 45 (mkTally 1 4 1 0 12) (marshalDigest [1; 2; 3; 4]) [mkTuple (Sum256 [1; 2; 3; 4]) 5 0 0 4] 1.
Definition sixBytes : Reader := [([5; 6; 7; 8; 9; 10], Some EOF)].

Lemma interrupted_run : interruptedRun.2 = Err PeSuspended ∧ checkpointState [97] interruptedRun.1 (ledgerOf (rp_manifests interruptedRun.1)) = Some suspendedState.
Proof. vm_compute. split; reflexivity. Qed.

Lemma ledger_runnable : runnable ledgerPipeline smallOuter.
Proof. split; try done. by left. Qed.
Lemma ledger_healthy : healthy ledgerPipeline smallChunks newRepo [] [].
Proof. split; [right; by split_and!|apply nothing_indexed|done]. Qed.
Lemma ledger_checkpointing : checkpointing ledgerPipeline [97] writeLedger ledgerOf.
Proof. split; try done. by apply writeLedger_records. Qed.

Lemma ledger_suspended : suspended ledgerPipeline smallChunks [97] ledgerOf [1; 2; 3; 4; 5; 6; 7; 8; 9; 10] [] [] interruptedRun.1 suspendedState.
Proof.
  set (p := ledgerPipeline). assert (Hch : chunkStream p tenBytes = (threeChunks, NErr EOF)) by (vm_compute; reflexivity).
  destruct (interrupt_after_two (prepare p smallOuter false) (firstChunk, [1]) (mkChunk [5; 6; 7; 8] 4 4, [1; 1; 2; 3; 4]) _ _
    (small_prepare p _ _ eq_refl eq_refl) (small_prepare p _ _ eq_refl eq_refl) [(mkChunk [9; 10] 8 2, [1; 1; 2; 3; 4; 5; 6; 7; 8])]) as (s & Hr & Hf & Hn & Hw & Hs).
  assert (Ho : outcomeAt p (Some []) tenBytes StSlice true s = mkOutcome twoPrepared (Some PeCancelled) None true None) by (unfold outcomeAt; rewrite Hch, Hn, Hw, Hs; reflexivity).
  destruct interrupted_run as [Hrun Hst].
  eapply (suspended_first p smallChunks [97] ledgerOf _ [] [] smallOuter [] 10 tenBytes 2 s StSlice newRepo interruptedRun.1 suspendedState); rewrite ?Hch; cbn [fst].
  - apply ledger_runnable.
  - reflexivity.
  - reflexivity.
  - reflexivity.
  - apply ledger_healthy.
  - by intros [? ?].
  - reflexivity.
  - reflexivity.
  - by apply small_preparable, three_hashes.
  - split; [lia| |done|by rewrite Hs]. unfold sourceOf. rewrite Hch. exact Hr.
  - vm_compute. reflexivity.
  - vm_compute. discriminate.
  - rewrite Ho. fold interruptedRun. rewrite <- Hrun. apply surjective_pairing.
  - exact Hst.
Qed.

Lemma suspended_backup_resumes_witness : let q := resumePipeline ledgerPipeline suspendedState in
  ∃ s all r' res, completes q smallOuter (Some [1; 2; 3; 4]) sixBytes 3 s ∧ tiled 0 all ∧ concat (Data <$> all) = [1; 2; 3; 4; 5; 6; 7; 8; 9; 10] ∧
    BackupResume ledgerPipeline suspendedState smallOuter [] 10 (outcomeAt q (Some [1; 2; 3; 4]) sixBytes StSlice false s) interruptedRun.1 = (r', Ok res) ∧
    serves ledgerPipeline smallChunks r' ∅ (entryFor ledgerPipeline <$> all).
Proof.
  cbv zeta. assert (Hc : chunkStream (resumePipeline ledgerPipeline suspendedState) sixBytes = (drop 1 threeChunks, NErr EOF)) by (vm_compute; reflexivity).
  destruct (small_completes (resumePipeline ledgerPipeline suspendedState) (Some [1; 2; 3; 4]) sixBytes 3 eq_refl ltac:(lia)) as (s & Hs).
  destruct (suspended_backup_resumes smallChunks ledgerPipeline [97] writeLedger ledgerOf [1; 2; 3; 4; 5; 6; 7; 8; 9; 10] [] [] suspendedState smallOuter (λ _, None) [] 10 sixBytes 3 s StSlice false
    interruptedRun.1 [] [1; 2; 3; 4]) as (all & r' & res & bs' & H1 & H2 & H3 & _ & H5 & _); rewrite ?Hc; cbn [fst].
  - apply ledger_checkpointing.
  - apply ledger_suspended.
  - apply resumed_runnable, ledger_runnable.
  - reflexivity.
  - reflexivity.
  - apply small_preparable; [done|done|]. exact (Forall_drop _ 1 threeChunks three_hashes).
  - exact Hs.
  - vm_compute. reflexivity.
  - vm_compute. discriminate.
  - intros [i1 i2 i3 i4 i5 i6 i7 i8 i9] es; cbn [re_BackupID]; intros -> Hh Hl. split; [reflexivity|reflexivity|vm_compute; by split_and!|split; [by constructor|left; by split]|].
    rewrite DnmFile.length_entryRecords, Hl by done. vm_compute. reflexivity.
  - exists s, all, r', res. split; [exact Hs|]. split; [exact H1|]. split; [exact H2|]. split; [exact H3|exact H5].
Defined.
