(* ===== verification/GoPath.v ===== *)
(** * Paths, patterns and trees of files

    What the engine uses of [strings] and [path/filepath] on paths with slashes, and of
    [os] on a tree of files.  A path of the tree is its list of components from the root.
    Symbolic links are nodes but are not followed: an operation that would follow one
    fails.  White space is the ASCII one, and the platform is one whose separator is
    the slash. *)

From S2P Require Import Prelude GoBytes GoFiles.

Definition slash : Z := 47.
Definition dot : bytes := [46].
Definition dotdot : bytes := [46; 46].

(** ** strings *)

(** [strings.Split] at a byte: never empty. *)
Fixpoint SplitOn (sep : Z) (s : bytes) : list bytes :=
  match s with
  | [] => [[]]
  | c :: s => if c =? sep then [] :: SplitOn sep s
              else match SplitOn sep s with [] => [[c]] | p :: ps => (c :: p) :: ps end
  end.
Definition SplitSlash : bytes → list bytes := SplitOn slash.
(** [strings.Join(parts, "/")] *)
Fixpoint JoinSlash (parts : list bytes) : bytes :=
  match parts with [] => [] | [p] => p | p :: ps => p ++ slash :: JoinSlash ps end.
Definition TrimPrefix (s pre : bytes) : bytes := if HasPrefix s pre then drop (length pre) s else s.
Definition ContainsByte (s : bytes) (c : Z) : bool := bool_decide (c ∈ s).

(** [strings.Cut] at the first occurrence of [sep], which is not empty. *)
Fixpoint Cut (s sep : bytes) : option (bytes * bytes) :=
  if HasPrefix s sep then Some ([], drop (length sep) s)
  else match s with [] => None | c :: s => '(a, b) ← Cut s sep; Some (c :: a, b) end.

Definition lowerByte (c : Z) : Z := if (65 <=? c) && (c <=? 90) then c + 32 else c.
(** [strings.Trim(s, "/")] *)
Fixpoint dropSlashes (s : bytes) : bytes := match s with c :: s' => if c =? slash then dropSlashes s' else s | [] => [] end.
Definition TrimSlashes (s : bytes) : bytes := reverse (dropSlashes (reverse (dropSlashes s))).

(** ** utf8.DecodeRuneInString: the rune and its width *)

Definition contByte (lo hi : Z) (c : option Z) : option Z := c ← c; if (lo <=? c) && (c <=? hi) then Some (Z.land c 63) else None.
Definition RuneError : Z := 65533.
Definition rune2 (s : bytes) (c : Z) : option (Z * nat) := a ← contByte 128 191 (s !! 1%nat); Some (Z.land c 31 * 64 + a, 2%nat).
Definition rune3 (s : bytes) (c lo hi : Z) : option (Z * nat) :=
  a ← contByte lo hi (s !! 1%nat); b ← contByte 128 191 (s !! 2%nat); Some (Z.land c 15 * 4096 + a * 64 + b, 3%nat).
Definition rune4 (s : bytes) (c lo hi : Z) : option (Z * nat) :=
  a ← contByte lo hi (s !! 1%nat); b ← contByte 128 191 (s !! 2%nat); d ← contByte 128 191 (s !! 3%nat);
  Some (Z.land c 7 * 262144 + a * 4096 + b * 64 + d, 4%nat).
Definition DecodeRune (s : bytes) : Z * nat :=
  match s with
  | [] => (RuneError, 0%nat)
  | c :: _ =>
      if c <? 128 then (c, 1%nat)
      else default (RuneError, 1%nat)
        (if c <? 194 then None else if c <? 224 then rune2 s c
         else if c =? 224 then rune3 s c 160 191 else if c =? 237 then rune3 s c 128 159 else if c <? 240 then rune3 s c 128 191
         else if c =? 240 then rune4 s c 144 191 else if c <? 244 then rune4 s c 128 191 else if c =? 244 then rune4 s c 128 143 else None)
  end.

(** ** filepath.Match *)

Definition cStar : Z := 42.
Definition cQuery : Z := 63.
Definition cOpen : Z := 91.
Definition cClose : Z := 93.
Definition cCaret : Z := 94.
Definition cDash : Z := 45.
Definition cEsc : Z := 92.

(** The length of the chunk before the next star outside a class. *)
Fixpoint chunkLen (p : bytes) (inrange : bool) : nat :=
  match p with
  | [] => 0
  | c :: p' =>
      if c =? cEsc then match p' with [] => 1 | _ :: p'' => S (S (chunkLen p'' inrange)) end
      else if (c =? cStar) && negb inrange then 0
      else S (chunkLen p' (if c =? cOpen then true else if c =? cClose then false else inrange))
  end.
Fixpoint dropStars (p : bytes) : bool * bytes :=
  match p with c :: p' => if c =? cStar then (true, (dropStars p').2) else (false, p) | [] => (false, []) end.
Definition scanChunk (p : bytes) : bool * bytes * bytes :=
  let '(star, p) := dropStars p in let n := chunkLen p false in (star, take n p, drop n p).

(** [None]: ErrBadPattern. *)
Definition getEsc (chunk : bytes) : option (Z * bytes) :=
  match chunk with
  | [] => None
  | c :: rest =>
      if (c =? cDash) || (c =? cClose) then None
      else
        let chunk := if c =? cEsc then rest else chunk in
        let '(r, n) := DecodeRune chunk in
        if bool_decide (chunk = []) || ((r =? RuneError) && bool_decide (n = 1%nat)) || bool_decide (drop n chunk = []) then None else Some (r, drop n chunk)
  end.

(** The ranges of a class: what is left of the chunk and whether the rune is in one of
    them; every range takes a byte, so fuel above the length is enough. *)
Fixpoint classRanges (fuel : nat) (chunk : bytes) (r : Z) (nrange : nat) (m : bool) : option (bytes * bool) :=
  match fuel with
  | O => None
  | S fuel =>
      match chunk, nrange with
      | c :: rest, S _ => if c =? cClose then Some (rest, m) else classRange fuel chunk r nrange m
      | _, _ => classRange fuel chunk r nrange m
      end
  end
with classRange (fuel : nat) (chunk : bytes) (r : Z) (nrange : nat) (m : bool) : option (bytes * bool) :=
  match fuel with
  | O => None
  | S fuel =>
      '(lo, chunk) ← getEsc chunk;
      '(hi, chunk) ← match chunk with c :: rest => if c =? cDash then getEsc rest else Some (lo, chunk) | [] => None end;
      classRanges fuel chunk r (S nrange) (m || ((lo <=? r) && (r <=? hi)))
  end.

(** One chunk against the start of a name: [s] is [None] once the match has failed. *)
Fixpoint matchChunk (fuel : nat) (chunk : bytes) (s : option bytes) : option (option bytes) :=
  match fuel with
  | O => None
  | S fuel =>
      match chunk with
      | [] => Some s
      | c :: rest =>
          let s := match s with Some [] => None | _ => s end in
          if c =? cOpen then
            let '(r, s') := match s with Some s => let '(r, n) := DecodeRune s in (r, Some (drop n s)) | None => (0, None) end in
            let '(negated, rest) := match rest with c :: rest' => if c =? cCaret then (true, rest') else (false, rest) | [] => (false, rest) end in
            '(rest, m) ← classRanges (S (2 * length chunk)) rest r 0 false;
            matchChunk fuel rest (if Bool.eqb m negated then None else s')
          else if c =? cQuery then
            matchChunk fuel rest (s ← s; if bool_decide (head s = Some slash) then None else Some (drop (DecodeRune s).2 s))
          else if c =? cEsc then
            match rest with [] => None | c :: rest => matchChunk fuel rest (s ← s; if bool_decide (head s = Some c) then Some (tail s) else None) end
          else matchChunk fuel rest (s ← s; if bool_decide (head s = Some c) then Some (tail s) else None)
      end
  end.
Definition chunkMatch (chunk s : bytes) : option (option bytes) := matchChunk (S (length chunk)) chunk (Some s).

(** After a star: the chunk at every later position up to a separator. *)
Fixpoint starSearch (chunk : bytes) (last : bool) (name : bytes) : option (option bytes) :=
  match name with
  | [] => Some None
  | c :: name =>
      if c =? slash then Some None
      else m ← chunkMatch chunk name;
           match m with
           | Some t => if last && negb (bool_decide (t = [])) then starSearch chunk last name else Some (Some t)
           | None => starSearch chunk last name
           end
  end.

(** The rest of a pattern is only checked. *)
Fixpoint validRest (fuel : nat) (p : bytes) : option bool :=
  match fuel with
  | O => None
  | S fuel => match p with [] => Some false | _ => let '(_, chunk, p) := scanChunk p in _ ← chunkMatch chunk []; validRest fuel p end
  end.

(** [None]: ErrBadPattern; every turn takes a byte of the pattern. *)
Fixpoint matchLoop (fuel : nat) (p name : bytes) : option bool :=
  match fuel with
  | O => None
  | S fuel =>
      match p with
      | [] => Some (bool_decide (name = []))
      | _ =>
          let '(star, chunk, p) := scanChunk p in
          let last := bool_decide (p = []) in
          if star && bool_decide (chunk = []) then Some (negb (ContainsByte name slash))
          else
            m ← chunkMatch chunk name;
            match m with
            | Some t =>
                if bool_decide (t = []) || negb last then matchLoop fuel p t
                else if star then s ← starSearch chunk last name; match s with Some t => matchLoop fuel p t | None => validRest fuel p end
                else validRest fuel p
            | None =>
                if star then s ← starSearch chunk last name; match s with Some t => matchLoop fuel p t | None => validRest fuel p end
                else validRest fuel p
            end
      end
  end.
Definition Match (p name : bytes) : option bool := matchLoop (S (length p)) p name.
(** [ok, _ := filepath.Match(...)] *)
Definition matches (p name : bytes) : bool := default false (Match p name).

(** ** Paths *)

Abbreviation path := (list bytes).

(** One component of a rooted path; [acc] is reversed. *)
Definition cleanStep (acc : path) (c : bytes) : path :=
  if bool_decide (c = []) || bool_decide (c = dot) then acc
  else if bool_decide (c = dotdot) then tail acc else c :: acc.
(** [filepath.Join(dir, filepath.FromSlash(p))] of a rooted, clean [dir]. *)
Definition JoinPath (dir : path) (p : bytes) : path := reverse (foldl cleanStep (reverse dir) (SplitSlash p)).
(** [filepath.Dir] *)
Definition DirOf (p : path) : path := take (length p - 1) p.

(** ** os on a tree *)

Inductive node := NFile (data : bytes) (mode : Z) (mtime : option Z) | NDir (mode : Z) (mtime : option Z) | NLink (target : bytes).
Abbreviation tree := (gmap path node).

(** What the system allows: opening a file for writing, a write of some length at an
    offset, and a new size; the mode of a new file and the time. *)
Record OS := mkOS { os_opens : path → bool; os_writes : path → Z → Z → bool; os_resizes : path → Z → bool; os_mkdirs : path → bool; os_links : path → bool;
                    os_umask : Z; os_now : option Z }.

(** The root is a directory. *)
Definition IsDirAt (t : tree) (p : path) : bool :=
  match p with [] => true | _ => match t !! p with Some (NDir _ _) => true | _ => false end end.
Definition fileData (t : tree) (p : path) : option bytes := match t !! p with Some (NFile d _ _) => Some d | _ => None end.

(** [os.MkdirAll]: every missing prefix, shortest first; what is there when it fails, too. *)
Definition mkdirOne (os : OS) (mode : Z) (m : tree * bool) (p : path) : tree * bool :=
  let '(t, ok) := m in
  if negb ok then m
  else if IsDirAt t p then (t, true)
  else match t !! p with
       | None => if os_mkdirs os p then (<[p := NDir (Z.ldiff mode (os_umask os)) (os_now os)]> t, true) else (t, false)
       | Some _ => (t, false)
       end.
Definition prefixes (p : path) : list path := (λ n, take n p) <$> seq 1 (length p).
Definition MkdirAll (os : OS) (t : tree) (p : path) (mode : Z) : tree * bool := foldl (mkdirOne os mode) (t, true) (prefixes p).

(** [os.Create], and the open of [os.WriteFile]: truncates, and keeps the mode of a file that exists. *)
Definition OpenTrunc (os : OS) (t : tree) (p : path) (mode : Z) : option tree :=
  if negb (IsDirAt t (DirOf p)) || negb (os_opens os p) then None
  else match p, t !! p with
       | [], _ | _, Some (NDir _ _) | _, Some (NLink _) => None
       | _, Some (NFile _ m _) => Some (<[p := NFile [] m (os_now os)]> t)
       | _, None => Some (<[p := NFile [] (Z.ldiff mode (os_umask os)) (os_now os)]> t)
       end.
Definition Create (os : OS) (t : tree) (p : path) : option tree := OpenTrunc os t p 438.
(** A write of an open file; a write of nothing does not extend it. *)
Definition WriteFileAt (os : OS) (t : tree) (p : path) (off : Z) (d : bytes) : option tree :=
  if (off <? 0) || negb (os_writes os p off (len d)) then None
  else match t !! p with Some (NFile data m mt) => Some (<[p := NFile (if bool_decide (d = []) then data else WriteAt data off d) m (os_now os)]> t) | _ => None end.
Definition TruncateFile (os : OS) (t : tree) (p : path) (size : Z) : option tree :=
  if (size <? 0) || negb (os_resizes os p size) then None
  else match t !! p with Some (NFile data m mt) => Some (<[p := NFile (Truncate data size) m (os_now os)]> t) | _ => None end.
(** [os.Remove]: a file, a link, or a directory with nothing in it. *)
Definition emptyDir (t : tree) (p : path) : bool :=
  bool_decide (map_Forall (λ q _, q = p ∨ ¬ p `prefix_of` q) t).
Definition RemoveAt (t : tree) (p : path) : tree :=
  match t !! p with Some (NDir _ _) => if emptyDir t p then delete p t else t | _ => delete p t end.
(** [os.WriteFile]: what is there when it fails, too. *)
Definition WriteFile (os : OS) (t : tree) (p : path) (d : bytes) (mode : Z) : tree * bool :=
  match OpenTrunc os t p mode with
  | None => (t, false)
  | Some t => match WriteFileAt os t p 0 d with Some t => (t, true) | None => (t, false) end
  end.
(** [os.Symlink]: the name must be free. *)
Definition Symlink (os : OS) (t : tree) (target : bytes) (p : path) : option tree :=
  if negb (IsDirAt t (DirOf p)) || negb (os_links os p) || bool_decide (p = []) then None
  else match t !! p with Some _ => None | None => Some (<[p := NLink target]> t) end.
(** [os.Chmod] and [os.Chtimes], whose errors are ignored; a zero time changes nothing. *)
Definition Chmod (t : tree) (p : path) (mode : Z) : tree :=
  alter (λ n, match n with NFile d _ mt => NFile d mode mt | NDir _ mt => NDir mode mt | NLink _ => n end) p t.
Definition Chtimes (t : tree) (p : path) (mt : option Z) : tree :=
  alter (λ n, match n, mt with NFile d m _, Some _ => NFile d m mt | NDir m _, Some _ => NDir m mt | _, _ => n end) p t.
