(* ===== verification/FileMode.v ===== *)
(** * filemode: exclusions, the walk, the stream and the catalog hash
      (exclude.go, walker.go, reader.go, cataloghash.go)

    A file-mode backup is one stream, the regular files of its source directories one after
    the other.  [Walk] lists the sources of a tree of files and gives every file its range
    of the stream; [MultiFileReader] reads the stream; [CatalogHash] identifies the walk
    for a resume.  Paths are rooted and clean lists of components; nodes that are neither
    files, directories nor links are left out, as are failing system calls other than
    opening a file that is gone; links have no time; a file read is the bytes the system
    holds when it is open. *)

From S2P Require Import Chunker.
From S2P Require Import Prelude GoBytes GoFiles GoPath Hashes PackStore RepoConfig.
From S2P Require Import Dnm.

(** ** exclude.go *)

Record pattern := mkPattern { pt_raw : bytes; pt_negate : bool; pt_dirOnly : bool; pt_anchored : bool; pt_segments : list bytes; pt_hasGlob : bool }.
Abbreviation Matcher := (list pattern).

Definition twoStars : bytes := [cStar; cStar].

Definition parsePattern (raw : bytes) : option pattern :=
  let s := TrimSpaceBytes raw in
  match s with
  | [] => None
  | c :: _ =>
      if c =? 35 then None
      else
        let negate := c =? 33 in
        let s1 := if negate then drop 1 s else s in
        let dirOnly := HasSuffix s1 [slash] in
        let s2 := if dirOnly then TrimSuffix s1 [slash] else s1 in
        let rooted := HasPrefix s2 [slash] in
        let s3 := if rooted then TrimPrefix s2 [slash] else s2 in
        let segs := SplitSlash s3 in
        Some (mkPattern s negate dirOnly (rooted || ContainsByte s2 slash) segs (bool_decide (twoStars ∈ segs)))
  end.

Definition NewMatcher (raws : list bytes) : Matcher := omap parsePattern raws.

(** The lines of a file, as [bufio.Scanner] splits it: no empty line at the end. *)
Definition splitLines (s : bytes) : list bytes :=
  let l := SplitOn 10 s in match last l with Some [] => take (length l - 1) l | _ => l end.
Definition dropCR (l : bytes) : bytes := TrimSuffix l [13].
(** [None]: a line is too long for the scanner. *)
Definition PatternsFromFile (data : bytes) : option (list bytes) :=
  let lines := splitLines data in
  if existsb (λ l, 65536 <=? len l) lines then None else Some (dropCR <$> lines).
Definition LoadMatcherFromFile (data : bytes) : option Matcher := NewMatcher <$> PatternsFromFile data.

Definition Merge (m : Matcher) (other : option Matcher) : Matcher := match other with Some o => m ++ o | None => m end.

(** The suffixes of a path, longest first. *)
Fixpoint suffixes {A} (l : list A) : list (list A) := l :: match l with [] => [] | _ :: l => suffixes l end.

Fixpoint matchGlobRecursive (pats segs : list bytes) : bool :=
  match pats with
  | [] => bool_decide (segs = [])
  | p :: pats =>
      if bool_decide (p = twoStars) then
        match pats with [] => true | _ => existsb (matchGlobRecursive pats) (suffixes segs) end
      else match segs with [] => false | s :: segs => matches p s && matchGlobRecursive pats segs end
  end.

Fixpoint matchSegmentsAt (pats segs : list bytes) : bool :=
  match pats, segs with
  | [], _ => true
  | p :: pats, s :: segs => matches p s && matchSegmentsAt pats segs
  | _ :: _, [] => false
  end.
Definition matchSegments (pats segs : list bytes) : bool := if (length segs <? length pats)%nat then false else matchSegmentsAt pats segs.

Definition matchPattern (p : pattern) (relPath : bytes) : bool :=
  let segs := SplitSlash relPath in
  if pt_hasGlob p then matchGlobRecursive (pt_segments p) segs
  else match pt_segments p, pt_anchored p with
       | [s], false => matches s (default [] (last segs))
       | pats, _ => matchSegments pats segs
       end.

Definition IsExcludedPath (m : Matcher) (relPath : bytes) (isDir : bool) : bool :=
  foldl (λ excluded p, if pt_dirOnly p && negb isDir then excluded else if matchPattern p relPath then negb (pt_negate p) else excluded) false m.

(** [filepath.Rel] of rooted, clean paths; the empty list is ["."]. *)
Fixpoint Rel (base targ : path) : path :=
  match base, targ with
  | b :: base', t :: targ' => if bool_decide (b = t) then Rel base' targ' else (const dotdot <$> base) ++ targ
  | _, _ => (const dotdot <$> base) ++ targ
  end.
Definition repoPattern (repo src : path) : option bytes :=
  let rel := Rel src repo in
  if bool_decide (rel = []) || HasPrefix (JoinSlash rel) dotdot then None else Some ([slash] ++ JoinSlash rel ++ [slash]).
Definition ExcludeRepoDir (repo : path) (sources : list path) : option Matcher :=
  match omap (repoPattern repo) sources with [] => None | pats => Some (NewMatcher pats) end.

(** ** walker.go *)

Record Catalog := mkCat { cat_SourcePaths : list path; cat_Files : list FileEntry; cat_TotalSize : Z }.

(** The entry of a node; [rel] are its components below the source. *)
Definition entryOfNode (src : Z) (rel : path) (n : node) : FileEntry :=
  let mk size mode mt isDir isLink link := mkFile (JoinSlash rel) src size mode mt isDir isLink link 0 0 (zeros 32) false [] [] [] false in
  match n with
  | NFile d m mt => mk (len d) (Z.land m 511) mt false false []
  | NDir m mt => mk 0 (Z.land m 511) mt true false []
  | NLink target => mk 0 511 None false true target
  end.

(** The names in a directory, in order. *)
Definition namesIn (t : tree) (p : path) : list bytes :=
  merge_sort name_le (omap (λ q, match drop (length p) q with [c] => if bool_decide (take (length p) q = p) then Some c else None | _ => None end) (elements (dom t))).

(** The nodes below [rel] that are not excluded; an excluded directory is skipped whole.
    Every level has a longer path, so fuel above the longest path of the tree is enough. *)
Fixpoint walkDir (fuel : nat) (t : tree) (root : path) (m : Matcher) (src : Z) (rel : path) : list FileEntry :=
  match fuel with
  | O => []
  | S fuel =>
      c ← namesIn t (root ++ rel);
      let r := rel ++ [c] in
      match t !! (root ++ r) with
      | None => []
      | Some n =>
          let isDir := match n with NDir _ _ => true | _ => false end in
          if IsExcludedPath m (JoinSlash r) isDir then []
          else entryOfNode src r n :: if isDir then walkDir fuel t root m src r else []
      end
  end.
Definition treeDepth (t : tree) : nat := max_list (length <$> elements (dom t)).

Inductive walk_err := WkStat (p : path) | WkNotDir (p : path).
Fixpoint walkSources (t : tree) (m : Matcher) (src : Z) (sources : list path) : result walk_err (list FileEntry) :=
  match sources with
  | [] => Ok []
  | p :: sources =>
      if IsDirAt t p then let! rest := walkSources t m (src + 1) sources in Ok (walkDir (S (treeDepth t)) t p m src [] ++ rest)
      else match t !! p with None => Err (WkStat p) | Some _ => Err (WkNotDir p) end
  end.

(** By source, then by path; within a source paths are distinct, so the order is one. *)
Definition catalog_le (f g : FileEntry) : Prop := SourceIndex f < SourceIndex g ∨ SourceIndex f = SourceIndex g ∧ name_le (Path f) (Path g).
#[export] Instance catalog_le_dec : RelDecision catalog_le.
Proof. intros f g. unfold catalog_le. apply _. Defined.

Definition hasData (f : FileEntry) : bool := negb (IsDir f || IsSymlink f || (Size f =? 0)).
Definition withRange (f : FileEntry) (off n : Z) : FileEntry :=
  mkFile (Path f) (SourceIndex f) (Size f) (Mode f) (ModTime f) (IsDir f) (IsSymlink f) (LinkTarget f) off n
    (ContentHash f) (Unchanged f) (DataBackupID f) (VolumeExtents f) (InlineData f) (f_IsExcluded f).
Fixpoint assignOffsets (off : Z) (fs : list FileEntry) : list FileEntry * Z :=
  match fs with
  | [] => ([], off)
  | f :: fs => if hasData f then let '(fs, e) := assignOffsets (off + Size f) fs in (withRange f off (Size f) :: fs, e)
               else let '(fs, e) := assignOffsets off fs in (f :: fs, e)
  end.

Definition Walk (t : tree) (m : Matcher) (sources : list path) : result walk_err Catalog :=
  let! files := walkSources t m 0 sources in
  let '(files, total) := assignOffsets 0 (merge_sort catalog_le files) in
  Ok (mkCat sources files total).

Definition FilterByPrefix (c : Catalog) (prefix : bytes) : list FileEntry :=
  let pre := TrimSuffix prefix [slash] in
  if bool_decide (pre = []) then cat_Files c
  else filter (λ f, Path f = pre ∨ HasPrefix (Path f) (pre ++ [slash]) = true) (cat_Files c).

(** ** reader.go *)

Record fileRef := mkFileRef { ref_absPath : path; ref_streamLen : Z }.
(** [mr_rest] is what is unread of the open file; [None]: no file is open. *)
Record MultiFileReader := mkReader { mr_entries : list fileRef; mr_total : Z; mr_idx : nat; mr_rest : option bytes; mr_read : Z; mr_pad : Z }.

(** [None]: a source index outside the sources panics. *)
Fixpoint fileRefs (sources : list path) (fs : list FileEntry) : option (list fileRef) :=
  match fs with
  | [] => Some []
  | f :: fs =>
      if hasData f then
        src ← (if SourceIndex f <? 0 then None else sources !! Z.to_nat (SourceIndex f));
        refs ← fileRefs sources fs;
        Some (mkFileRef (JoinPath src (Path f)) (StreamLength f) :: refs)
      else fileRefs sources fs
  end.
Definition NewMultiFileReader (c : Catalog) : option MultiFileReader :=
  refs ← fileRefs (cat_SourcePaths c) (cat_Files c); Some (mkReader refs (cat_TotalSize c) 0 None 0 0).

(** The error that ends a read: the end of the stream, or a file that does not open. *)
Inductive read_err := RdEOF | RdOpen (p : path).

(** One read into a buffer with room for [want] more bytes; every turn fills some of it or
    moves to the next file, so fuel above both is enough. *)
Fixpoint readLoop (fuel : nat) (t : tree) (want : nat) (r : MultiFileReader) (acc : bytes) : MultiFileReader * bytes * option read_err :=
  match fuel with
  | O => (r, acc, None)
  | S fuel =>
      if bool_decide (want = 0%nat) then (r, acc, None)
      else if 0 <? mr_pad r then
        let n := if mr_pad r <? Z.of_nat want then Z.to_nat (mr_pad r) else want in
        readLoop fuel t (want - n) (mkReader (mr_entries r) (mr_total r) (mr_idx r) (mr_rest r) (mr_read r) (mr_pad r - Z.of_nat n)) (acc ++ zeros n)
      else match mr_entries r !! mr_idx r with
           | None => (r, acc, if bool_decide (acc = []) then Some RdEOF else None)
           | Some ref =>
               match (match mr_rest r with Some d => Some (d, mr_read r) | None => d ← fileData t (ref_absPath ref); Some (d, 0) end) with
               | None => (r, acc, Some (RdOpen (ref_absPath ref)))
               | Some (rest, done) =>
                   let remaining := ref_streamLen ref - done in
                   let k := if remaining <? Z.of_nat want then Z.to_nat remaining else want in
                   let d := take k rest in
                   let done := done + len d in
                   if (ref_streamLen ref <=? done) || bool_decide (d = []) then
                     let pad := if bool_decide (d = []) && (done <? ref_streamLen ref) then ref_streamLen ref - done else mr_pad r in
                     readLoop fuel t (want - length d) (mkReader (mr_entries r) (mr_total r) (S (mr_idx r)) None done pad) (acc ++ d)
                   else readLoop fuel t (want - length d) (mkReader (mr_entries r) (mr_total r) (mr_idx r) (Some (drop k rest)) done (mr_pad r)) (acc ++ d)
               end
           end
  end.
Definition ReadStream (t : tree) (n : nat) (r : MultiFileReader) : MultiFileReader * bytes * option read_err :=
  if bool_decide (n = 0%nat) then (r, [], None) else readLoop (S (n + length (mr_entries r))) t n r [].

(** [None]: out of range; the search for the file that holds [off]. *)
Fixpoint seekLoop (t : tree) (refs : list fileRef) (off cum : Z) (i : nat) : option (nat * option (bytes * Z)) :=
  match refs with
  | [] => Some (i, None)
  | ref :: refs =>
      if off <? cum + ref_streamLen ref then d ← fileData t (ref_absPath ref); Some (i, Some (drop (Z.to_nat (off - cum)) d, off - cum))
      else seekLoop t refs off (cum + ref_streamLen ref) (S i)
  end.
Definition SeekStream (t : tree) (r : MultiFileReader) (off : Z) : option MultiFileReader :=
  if (off <? 0) || (mr_total r <? off) then None
  else '(i, cur) ← seekLoop t (mr_entries r) off 0 0;
       Some (match cur with
             | Some (rest, done) => mkReader (mr_entries r) (mr_total r) i (Some rest) done 0
             | None => mkReader (mr_entries r) (mr_total r) i None (mr_read r) 0
             end).

(** ** cataloghash.go *)

(** [UnixNano] of the zero time is what the wrapped product gives. *)
Definition unixNano (t : option Z) : Z := match t with Some ns => ns | None => -6795364578871345152 end.
Definition hashFile (f : FileEntry) : bytes :=
  [102; 58] ++ fmtD (SourceIndex f) ++ [58] ++ Path f ++ [0] ++ [(if IsDir f then 1 else 0) + (if IsSymlink f then 2 else 0)] ++
  PutUint64 (u64 (Size f)) ++ PutUint64 (u64 (StreamOffset f)) ++ PutUint64 (u64 (StreamLength f)) ++ PutUint64 (u64 (unixNano (ModTime f))).
(** The sources are hashed as they were given. *)
Definition catalogText (sources : list bytes) (files : list FileEntry) : bytes :=
  concat ((λ s, [115; 114; 99; 58] ++ s ++ [0]) <$> sources) ++ concat (hashFile <$> files).
Definition CatalogHash (sources : list bytes) (files : list FileEntry) : bytes := Sum256 (catalogText sources files).
