(* ===== verification/Restore.v ===== *)
(** * core/restore: volumes (restore.go, restore_entries.go, verify.go, sample.go, writtendigest.go)

    [RestoreEntries] writes a backup to a target in two passes: excluded regions and
    chunk locations in entry order, then the chunks in pack order.  Verification walks the
    same entries without writing, whole, sampled or in spans with checkpoints.  The target
    is its bytes and the writes it accepts.  The store is threaded, since reading may fill
    its cache or download packs.  Cancellation and progress are left out: a cancelled
    call returns an error between two steps. *)

From S2P Require Import Chunker.
From S2P Require Import Prelude GoBytes GoRuntime GoFiles Hashes HashTable HashIndex Crypto Dedup PackStore Preprocess RepoConfig Rebuild.
From S2P Require Import Dnm DnmAccess.

(** ** restore.go *)

Inductive restore_err :=
| RsNoEntries | RsTruncate | RsEntries (e : acc_err) | RsZeros (off : Z) | RsLookup (i : Z) (e : index_err) | RsMissing (i : Z)
| RsEntry (i : Z) (e : acc_err) | RsRetrieve (i : Z) (e : store_err) | RsIntegrity (i : Z) | RsSize (i : Z) | RsWrite (i : Z) | RsSync | RsPanic.

(** A target: its bytes, and what it accepts. *)
Record Target := mkTarget { tg_data : bytes; tg_accepts : Z → Z → bool; tg_resizes : Z → bool; tg_syncs : bool }.
Definition withData (t : Target) (d : bytes) : Target := mkTarget d (tg_accepts t) (tg_resizes t) (tg_syncs t).
Definition tgWriteAt (t : Target) (d : bytes) (off : Z) : option Target :=
  if (off <? 0) || negb (tg_accepts t off (len d)) then None else Some (withData t (WriteAt (tg_data t) off d)).
Definition tgTruncate (t : Target) (size : Z) : option Target :=
  if (size <? 0) || negb (tg_resizes t size) then None else Some (withData t (Truncate (tg_data t) size)).

Record RestoreResult := mkRestoreResult { rr_TotalChunks : Z; rr_RestoredChunks : Z; rr_ExcludedChunks : Z; rr_BytesWritten : Z }.

Record Restorer := mkRestorer { rt_index : DedupIndex; rt_store : ChunkStore; rt_hooks : Hooks; rt_norm : option Normalizer }.
Definition NewRestorer (idx : DedupIndex) (st : ChunkStore) (hooks : Hooks) : Restorer := mkRestorer idx st hooks None.
Definition SetNormalizer (r : Restorer) (n : option Normalizer) : Restorer := mkRestorer (rt_index r) (rt_store r) (rt_hooks r) n.

(** ** restore_entries.go *)

Definition entryBatch : Z := Z.shiftl 1 16.
Record chunkRef := mkRef { cr_entryIdx : Z; cr_pack : Z; cr_off : Z }.

(** What pass 1 has done so far. *)
Record pass1 := mkPass1 { p1_target : Target; p1_refs : list chunkRef; p1_excluded : Z; p1_written : Z }.

(** One batch; [i] is the index of its first entry. *)
Fixpoint scanBatch (idx : DedupIndex) (i : Z) (batch : list Entry) (s : pass1) : pass1 * option restore_err :=
  match batch with
  | [] => (s, None)
  | e :: batch =>
      if IsExcluded e then
        if ChunkLength e <? 0 then (s, Some RsPanic)
        else match tgWriteAt (p1_target s) (zeros (Z.to_nat (ChunkLength e))) (VolumeOffset e) with
             | None => (s, Some (RsZeros (VolumeOffset e)))
             | Some t => scanBatch idx (i + 1) batch (mkPass1 t (p1_refs s) (p1_excluded s + 1) (p1_written s + ChunkLength e))
             end
      else match LookupDirect idx (ChunkHash e) with
           | Err er => (s, Some (RsLookup i er))
           | Ok None => (s, Some (RsMissing i))
           | Ok (Some ie) => scanBatch idx (i + 1) batch
               (mkPass1 (p1_target s) (p1_refs s ++ [mkRef i (PackNumber ie) (StoreOffset ie)]) (p1_excluded s) (p1_written s))
           end
  end.

(** All batches; every one has an entry, so fuel above the number of entries is enough. *)
Fixpoint scanEntries (fuel : nat) (idx : DedupIndex) (ea : EntryAccessor) (lo : Z) (s : pass1) : pass1 * option restore_err :=
  match fuel with
  | O => (s, None)
  | S fuel =>
      if lo <? Count ea then
        let hi := if Count ea <? lo + entryBatch then Count ea else lo + entryBatch in
        match RangeOf ea lo hi with
        | Err e => (s, Some (RsEntries e))
        | Ok batch => match scanBatch idx lo batch s with
                      | (s, Some e) => (s, Some e)
                      | (s, None) => scanEntries fuel idx ea (lo + entryBatch) s
                      end
        end
      else (s, None)
  end.

(** Pack first, then offset: both are unsigned, of 32 and 64 bits. *)
Definition refKey (r : chunkRef) : Z := cr_pack r * 2 ^ 64 + cr_off r.

(** What pass 2 has done so far. *)
Record pass2 := mkPass2 { p2_store : ChunkStore; p2_target : Target; p2_restored : Z; p2_written : Z }.

Section restore.
Context {SS : SortSlice} {PR : Primitives} {ZS : Zstd} {DC : DigestCodec}.

Definition restoreRef (r : Restorer) (ea : EntryAccessor) (ref : chunkRef) (s : pass2) : pass2 * option restore_err :=
  let i := cr_entryIdx ref in
  match At ea i with
  | Err e => (s, Some (RsEntry i e))
  | Ok e =>
      match Retrieve (rt_hooks r) (p2_store s) (cr_pack ref) (i64 (cr_off ref)) with
      | (st, Err er) => (mkPass2 st (p2_target s) (p2_restored s) (p2_written s), Some (RsRetrieve i er))
      | (st, Ok data) =>
          let s := mkPass2 st (p2_target s) (p2_restored s) (p2_written s) in
          if negb (bool_decide (strongOf (rt_norm r) data = ChunkHash e)) then (s, Some (RsIntegrity i))
          else if negb (len data =? ChunkLength e) then (s, Some (RsSize i))
          else match tgWriteAt (p2_target s) data (VolumeOffset e) with
               | None => (s, Some (RsWrite i))
               | Some t => (mkPass2 st t (p2_restored s + 1) (p2_written s + len data), None)
               end
      end
  end.

Fixpoint restoreRefs (r : Restorer) (ea : EntryAccessor) (refs : list chunkRef) (s : pass2) : pass2 * option restore_err :=
  match refs with
  | [] => (s, None)
  | ref :: refs => match restoreRef r ea ref s with
                   | (s, Some e) => (s, Some e)
                   | (s, None) => restoreRefs r ea refs s
                   end
  end.

Definition RestoreEntries (r : Restorer) (b : Backup) (ea : EntryAccessor) (t : Target) : ChunkStore * Target * result restore_err RestoreResult :=
  let count := Count ea in
  if (count =? 0) && (0 <? TotalBytes b) then (rt_store r, t, Err RsNoEntries)
  else match tgTruncate t (TotalBytes b) with
       | None => (rt_store r, t, Err RsTruncate)
       | Some t =>
           match scanEntries (S (Z.to_nat count)) (rt_index r) ea 0 (mkPass1 t [] 0 0) with
           | (s, Some e) => (rt_store r, p1_target s, Err e)
           | (s, None) =>
               match restoreRefs r ea (sortSlice refKey (p1_refs s)) (mkPass2 (rt_store r) (p1_target s) 0 (p1_written s)) with
               | (s2, Some e) => (p2_store s2, p2_target s2, Err e)
               | (s2, None) =>
                   (p2_store s2, p2_target s2,
                    if tg_syncs t then Ok (mkRestoreResult count (p2_restored s2) (p1_excluded s) (p2_written s2)) else Err RsSync)
               end
           end
       end.

Definition RestoreBackup (r : Restorer) (b : Backup) (t : Target) : ChunkStore * Target * result restore_err RestoreResult :=
  RestoreEntries r b (NewSliceEntryAccessor (Entries b)) t.

(** ** verify.go *)

(** Why an entry is wrong. *)
Inductive verify_reason := VrLookup (e : index_err) | VrMissing | VrRetrieve (e : store_err) | VrMismatch | VrSize (n : Z).
Record VerifyError := mkVerifyError { ve_ChunkIndex : Z; ve_Offset : Z; ve_Reason : verify_reason }.

(** [""] is [NoClaim]. *)
Inductive verdict := NoClaim | DigestMatch | DigestMismatch | DigestNotVerifiable.
#[export] Instance verdict_eq_dec : EqDecision verdict.
Proof. solve_decision. Defined.

Record VerifyResult := mkVerifyResult {
  vr_TotalChunks : Z; vr_VerifiedChunks : Z; vr_ExcludedChunks : Z; vr_Errors : list VerifyError;
  vr_DigestVerdict : verdict; vr_DigestExpected : bytes; vr_DigestActual : bytes }.
Definition VerifyOK (r : VerifyResult) : bool := bool_decide (vr_Errors r = []).

(** The outcome of one entry: its bytes, a verdict against it, or a failed download. *)
Inductive checked := Checked (data : bytes) | Wrong (e : VerifyError) | Unfetched (i : Z) (e : store_err).

Definition verifyEntry (idx : DedupIndex) (hooks : Hooks) (norm : option Normalizer) (i : Z) (e : Entry) (st : ChunkStore) : ChunkStore * checked :=
  let bad r := Wrong (mkVerifyError i (VolumeOffset e) r) in
  match LookupDirect idx (ChunkHash e) with
  | Err er => (st, bad (VrLookup er))
  | Ok None => (st, bad VrMissing)
  | Ok (Some ie) =>
      match Retrieve hooks st (PackNumber ie) (i64 (StoreOffset ie)) with
      | (st, Err (StFetch n er)) => (st, Unfetched i (StFetch n er))
      | (st, Err er) => (st, bad (VrRetrieve er))
      | (st, Ok data) =>
          (st, if negb (bool_decide (strongOf norm data = ChunkHash e)) then bad VrMismatch
               else if negb (len data =? ChunkLength e) then bad (VrSize (len data)) else Checked data)
      end
  end.

(** The stream's digest being folded: what was absorbed, [None] when there is no fold. *)
Record digestFold := mkFold { df_h : option bytes; df_want : bytes; df_verdict : verdict }.
Definition foldWrite (f : digestFold) (d : bytes) : digestFold := mkFold ((λ x, x ++ d) <$> df_h f) (df_want f) (df_verdict f).
Definition foldZeros (f : digestFold) (n : Z) : digestFold := foldWrite f (zeros (Z.to_nat n)).
Definition foldAbort (f : digestFold) : digestFold := mkFold None (df_want f) NoClaim.
Definition foldFinish (f : digestFold) (r : VerifyResult) : VerifyResult :=
  let v verdict want got := mkVerifyResult (vr_TotalChunks r) (vr_VerifiedChunks r) (vr_ExcludedChunks r) (vr_Errors r) verdict want got in
  match df_h f with
  | None => v (df_verdict f) (vr_DigestExpected r) (vr_DigestActual r)
  | Some x => let got := hexEncode (Sum256 x) in
              if bool_decide (got = df_want f) then v DigestMatch (vr_DigestExpected r) (vr_DigestActual r) else v DigestMismatch (df_want f) got
  end.

(** Whether the backup carries a digest this code folds. *)
Definition hasDigest (b : Backup) : bool :=
  negb (bool_decide (ContentDigest b = [])) && bool_decide (ContentDigestCovers b = DigestCoversSourceStreamV1).

(** The walk: counters, errors and the fold. *)
Record walk := mkWalk { wk_store : ChunkStore; wk_result : VerifyResult; wk_fold : digestFold }.
Definition countExcluded (r : VerifyResult) : VerifyResult :=
  mkVerifyResult (vr_TotalChunks r) (vr_VerifiedChunks r) (vr_ExcludedChunks r + 1) (vr_Errors r) (vr_DigestVerdict r) (vr_DigestExpected r) (vr_DigestActual r).
Definition countVerified (r : VerifyResult) : VerifyResult :=
  mkVerifyResult (vr_TotalChunks r) (vr_VerifiedChunks r + 1) (vr_ExcludedChunks r) (vr_Errors r) (vr_DigestVerdict r) (vr_DigestExpected r) (vr_DigestActual r).
Definition addError (r : VerifyResult) (e : VerifyError) : VerifyResult :=
  mkVerifyResult (vr_TotalChunks r) (vr_VerifiedChunks r) (vr_ExcludedChunks r) (vr_Errors r ++ [e]) (vr_DigestVerdict r) (vr_DigestExpected r) (vr_DigestActual r).

Inductive verify_err := VeNoEntries | VeGap (lo next : Z) | VePast (lo hi : Z) | VeEntries (e : acc_err) | VeFetch (i : Z) (e : store_err) | VePanic
| VeErrors (n : Z) | VeUnreadable | VePosition (n : Z) | VeNoState | VeState.

(** One entry of a walk. *)
Definition walkEntry (idx : DedupIndex) (hooks : Hooks) (norm : option Normalizer) (i : Z) (e : Entry) (w : walk) : walk * option verify_err :=
  if IsExcluded e then (mkWalk (wk_store w) (countExcluded (wk_result w)) (foldZeros (wk_fold w) (ChunkLength e)), None)
  else match verifyEntry idx hooks norm i e (wk_store w) with
       | (st, Unfetched i er) => (mkWalk st (wk_result w) (wk_fold w), Some (VeFetch i er))
       | (st, Wrong er) => (mkWalk st (addError (wk_result w) er) (foldAbort (wk_fold w)), None)
       | (st, Checked data) => (mkWalk st (countVerified (wk_result w)) (foldWrite (wk_fold w) data), None)
       end.

Fixpoint walkEntries (idx : DedupIndex) (hooks : Hooks) (norm : option Normalizer) (es : list (Z * Entry)) (w : walk) : walk * option verify_err :=
  match es with
  | [] => (w, None)
  | (i, e) :: es => match walkEntry idx hooks norm i e w with
                    | (w, Some er) => (w, Some er)
                    | (w, None) => walkEntries idx hooks norm es w
                    end
  end.

(** The entries at the given indices; an index outside the list panics. *)
Fixpoint selectEntries (es : list Entry) (indices : list Z) : option (list (Z * Entry)) :=
  match indices with
  | [] => Some []
  | i :: indices => if i <? 0 then None else e ← es !! Z.to_nat i; rest ← selectEntries es indices; Some ((i, e) :: rest)
  end.

Definition newDigestFold (b : Backup) (indices : list Z) : digestFold :=
  if bool_decide (indices = Z.of_nat <$> seq 0 (length (Entries b)))
  then if hasDigest b then mkFold (Some []) (ContentDigest b) NoClaim else mkFold None [] DigestNotVerifiable
  else mkFold None [] NoClaim.

Definition noResult (total : Z) : VerifyResult := mkVerifyResult total 0 0 [] NoClaim [] [].

Definition VerifySelectedWithNormalizer (b : Backup) (idx : DedupIndex) (st : ChunkStore) (hooks : Hooks) (norm : option Normalizer) (indices : list Z)
    : ChunkStore * result verify_err VerifyResult :=
  if bool_decide (Entries b = []) && (0 <? TotalBytes b) then (st, Err VeNoEntries)
  else match selectEntries (Entries b) indices with
       | None => (st, Err VePanic)
       | Some es => match walkEntries idx hooks norm es (mkWalk st (noResult (len indices)) (newDigestFold b indices)) with
                    | (w, Some e) => (wk_store w, Err e)
                    | (w, None) => (wk_store w, Ok (foldFinish (wk_fold w) (wk_result w)))
                    end
       end.

Definition VerifyWithNormalizer (b : Backup) (idx : DedupIndex) (st : ChunkStore) (hooks : Hooks) (norm : option Normalizer) : ChunkStore * result verify_err VerifyResult :=
  VerifySelectedWithNormalizer b idx st hooks norm (Z.of_nat <$> seq 0 (length (Entries b))).
Definition Verify (b : Backup) (idx : DedupIndex) (st : ChunkStore) (hooks : Hooks) := VerifyWithNormalizer b idx st hooks None.

(** *** Span-wise verification *)

Record StreamVerify := mkStreamVerify { sv_total : Z; sv_next : Z; sv_walk : walk }.

Definition NewStreamVerify (b : Backup) (total : Z) (st : ChunkStore) : result verify_err StreamVerify :=
  if (total =? 0) && (0 <? TotalBytes b) then Err VeNoEntries
  else Ok (mkStreamVerify total 0 (mkWalk st (noResult total)
         (if hasDigest b then mkFold (Some []) (ContentDigest b) NoClaim else mkFold None [] DigestNotVerifiable))).

Definition verifyWindow : Z := 4096.

Fixpoint numberEntries (i : Z) (es : list Entry) : list (Z * Entry) := match es with [] => [] | e :: es => (i, e) :: numberEntries (i + 1) es end.

(** Windows of 4096 entries; fuel above the number of entries is enough. *)
Fixpoint walkWindows (fuel : nat) (ea : EntryAccessor) (idx : DedupIndex) (hooks : Hooks) (norm : option Normalizer) (wlo hi : Z) (w : walk) : walk * option verify_err :=
  match fuel with
  | O => (w, None)
  | S fuel =>
      if wlo <? hi then
        let whi := if hi <? wlo + verifyWindow then hi else wlo + verifyWindow in
        match RangeOf ea wlo whi with
        | Err e => (w, Some (VeEntries e))
        | Ok batch => match walkEntries idx hooks norm (numberEntries wlo batch) w with
                      | (w, Some e) => (w, Some e)
                      | (w, None) => walkWindows fuel ea idx hooks norm (wlo + verifyWindow) hi w
                      end
        end
      else (w, None)
  end.

Definition svRange (sv : StreamVerify) (ea : EntryAccessor) (lo hi : Z) (idx : DedupIndex) (hooks : Hooks) (norm : option Normalizer) : StreamVerify * option verify_err :=
  if negb (lo =? sv_next sv) then (sv, Some (VeGap lo (sv_next sv)))
  else if sv_total sv <? hi then (sv, Some (VePast lo hi))
  else match walkWindows (S (Z.to_nat (hi - lo))) ea idx hooks norm lo hi (sv_walk sv) with
       | (w, Some e) => (mkStreamVerify (sv_total sv) (sv_next sv) w, Some e)
       | (w, None) => (mkStreamVerify (sv_total sv) hi w, None)
       end.

Definition svFinish (sv : StreamVerify) : VerifyResult :=
  let w := sv_walk sv in
  foldFinish (if sv_next sv =? sv_total sv then wk_fold w else foldAbort (wk_fold w)) (wk_result w).

Definition VerifyStreamed (b : Backup) (ea : EntryAccessor) (idx : DedupIndex) (st : ChunkStore) (hooks : Hooks) (norm : option Normalizer)
    : ChunkStore * result verify_err VerifyResult :=
  match NewStreamVerify b (Count ea) st with
  | Err e => (st, Err e)
  | Ok sv => match svRange sv ea 0 (Count ea) idx hooks norm with
             | (sv, Some e) => (wk_store (sv_walk sv), Err e)
             | (sv, None) => (wk_store (sv_walk sv), Ok (svFinish sv))
             end
  end.

(** The checkpoint's fields; its JSON text is a parameter of what reads and writes it. *)
Record streamCheckpoint := mkStreamCk { sc_Next : Z; sc_Verified : Z; sc_Excluded : Z; sc_FoldState : option bytes; sc_Verdict : verdict }.

Definition svCheckpoint (sv : StreamVerify) : result verify_err streamCheckpoint :=
  let w := sv_walk sv in
  match vr_Errors (wk_result w) with
  | _ :: _ => Err (VeErrors (len (vr_Errors (wk_result w))))
  | [] => Ok (mkStreamCk (sv_next sv) (vr_VerifiedChunks (wk_result w)) (vr_ExcludedChunks (wk_result w)) (marshalDigest <$> df_h (wk_fold w)) (df_verdict (wk_fold w)))
  end.

Definition ResumeStreamVerify (unmarshal : bytes → option streamCheckpoint) (b : Backup) (total : Z) (st : ChunkStore) (checkpoint : bytes) : result verify_err StreamVerify :=
  let! sv := NewStreamVerify b total st in
  match unmarshal checkpoint with
  | None => Err VeUnreadable
  | Some cp =>
      if (sc_Next cp <? 0) || (total <? sc_Next cp) then Err (VePosition (sc_Next cp))
      else
        let w := sv_walk sv in let f := wk_fold w in let r := wk_result w in
        let! h := match df_h f, sc_FoldState cp with
                  | None, _ => Ok None
                  | Some _, None => Err VeNoState
                  | Some _, Some s => match unmarshalDigest s with Some d => Ok (Some d) | None => Err VeState end
                  end in
        Ok (mkStreamVerify total (sc_Next cp)
          (mkWalk st (mkVerifyResult (vr_TotalChunks r) (sc_Verified cp) (sc_Excluded cp) (vr_Errors r) (vr_DigestVerdict r) (vr_DigestExpected r) (vr_DigestActual r))
             (mkFold h (df_want f) (df_verdict f))))
  end.

(** ** writtendigest.go *)

(** [io.Copy] of an [io.LimitReader]: what arrives, and an error other than the end. *)
Fixpoint limitCopy (script : Reader) (n : Z) : bytes * option rerr :=
  if n <=? 0 then ([], None)
  else match script with
       | [] => ([], None)
       | (d, e) :: rest =>
           if n <? len d then (take (Z.to_nat n) d, None)
           else match e with
                | Some Chunker.EOF => (d, None)
                | Some e => (d, Some e)
                | None => let '(l, e) := limitCopy rest (n - len d) in (d ++ l, e)
                end
       end.

Definition VerifyWrittenDigest (b : Backup) (r : Reader) : result rerr verdict :=
  if negb (hasDigest b) then Ok DigestNotVerifiable
  else match limitCopy r (TotalBytes b) with
       | (_, Some e) => Err e
       | (d, None) => Ok (if bool_decide (hexEncode (Sum256 d) = ContentDigest b) then DigestMatch else DigestMismatch)
       end.

(** ** sample.go *)

(** [k], the number to sample of a population.  The percentage is a floating-point number:
    whether it is finite and in (0,100] and the ceiling it gives are arguments. *)
Definition clampSample (ceil : Z) (pop : Z) : Z := let k := if ceil <? 1 then 1 else ceil in if pop <? k then pop else k.

Definition sampleKey (id : bytes) (seed : Z) (i : nat) : Z := be_get (take 8 (Sum256 (id ++ be_put 8 seed ++ be_put 8 (Z.of_nat i)))).

(** The order of the sample: by the key, then by the index. *)
Definition sampleOrder (id : bytes) (seed : Z) (i : nat) : Z := sampleKey id seed i * 2 ^ 64 + Z.of_nat i.

Definition verifiable (b : Backup) (i : nat) : bool := match Entries b !! i with Some e => negb (IsExcluded e) | None => false end.

Definition SampleEntryIndices (b : Backup) (percentOK : bool) (ceilOf : Z → Z) (seed : Z) : result unit (list nat) :=
  let pop := filter (λ i, verifiable b i = true) (seq 0 (length (Entries b))) in
  let k := clampSample (ceilOf (len pop)) (len pop) in
  if negb percentOK then Err tt
  else Ok (if bool_decide (pop = []) then [] else if k =? len pop then pop
           else sortSlice Z.of_nat (take (Z.to_nat k) (sortSlice (sampleOrder (BackupID b) seed) pop))).
End restore.
