(* ===== verification/FileRestore.v ===== *)
(** * core/restore: files (filerestore.go, prefetch.go, excluded_message.go)

    A file of a backup is a range of its stream, a list of extents of its volume or bytes
    kept in the catalog; [restoreFile], [restoreVolumeFile] and [restoreInlineFile] write
    it to a tree of files, [RestoreFiles] a whole catalog, [ExtractFile] one file.  The
    prefetcher asks for chunk frames a window at a time.  What the code leaves in an
    absent slice ([nil]) is the empty list: decoding a manifest gives [nil] exactly for
    an empty one.  Cancellation and logging are left out, letters are folded to lower case
    as ASCII, and a Go panic is [FrPanic]. *)

From S2P Require Import Prelude GoBytes GoRuntime GoFiles GoPath Hashes HashTable HashIndex Crypto Dedup PackStore Preprocess RepoConfig Rebuild.
From S2P Require Import Dnm DnmAccess ManifestRepo Restore.

(** ** excluded_message.go *)

Definition OperatorExclusion (p ex : bytes) : bool :=
  let rel := match ex with _ :: 58 :: rel => rel | _ => ex end in
  let rel := lowerByte <$> TrimSlashes ((λ c, if c =? 92 then slash else c) <$> rel) in
  let rel := TrimSuffix rel [slash; cStar] in
  negb (bool_decide (rel = [])) && (bool_decide (p = rel) || HasPrefix p (rel ++ [slash])).
Definition OperatorExclusionFor (excludePaths : list bytes) (catalogPath : bytes) : option bytes :=
  let p := lowerByte <$> TrimPrefix (TrimPrefix catalogPath (dot ++ [slash])) [slash] in
  head (filter (λ ex, OperatorExclusion p ex = true) excludePaths).

(** ** filerestore.go: data *)

Inductive file_err :=
| FrNoCatalog | FrMkdir (p : path) | FrLoad (id : bytes) (e : repo_err) | FrNotInBackup (id p : bytes) | FrExcluded (by_ : option bytes)
| FrIncomplete | FrCreate | FrSearch (e : acc_err) | FrLookup (off : Z) (e : index_err) | FrMissing (h : bytes) | FrRetrieve (e : store_err)
| FrIntegrity (off : Z) | FrWrite | FrShort (written : Z) | FrResize | FrPanic | FrSymlink | FrNotFound | FrIsDir | FrIsLink | FrCoverUnresolved | FrCoverMismatch.

Record FileRestoreResult := mkFileResult { fr_TotalFiles : Z; fr_RestoredFiles : Z; fr_DirsCreated : Z; fr_SymlinksCreated : Z; fr_BytesWritten : Z }.

Record FileRestorer := mkFileRestorer { fr_index : DedupIndex; fr_hooks : Hooks; fr_repo : dir; fr_norm : option Normalizer; fr_IgnoreErrors : bool }.
Definition NewFileRestorer (idx : DedupIndex) (hooks : Hooks) (repo : dir) : FileRestorer := mkFileRestorer idx hooks repo None false.
Definition SetFileNormalizer (r : FileRestorer) (n : option Normalizer) : FileRestorer := mkFileRestorer (fr_index r) (fr_hooks r) (fr_repo r) n (fr_IgnoreErrors r).

Definition verifyExtractCovering (f : FileEntry) (ea : EntryAccessor) : option file_err :=
  let zero := zeros 32 in
  if bool_decide (ContentHash f = zero) || negb (bool_decide (InlineData f = [])) || f_IsExcluded f then None
  else
    let judge check := if bool_decide (ContentHash check = zero) then Some FrCoverUnresolved
                       else if bool_decide (ContentHash check = ContentHash f) then None else Some FrCoverMismatch in
    let check := withHash f zero in
    if negb (bool_decide (VolumeExtents check = [])) then judge (ComputeContentHashesForVolumeFile check ea)
    else if 0 <? StreamLength check then judge (ComputeContentHashesForFile check ea)
    else None.

Definition OpenEntryAccessor (repo : dir) (b : Backup) : EntryAccessor :=
  match NewEntryAccessor repo (BackupID b) with
  | Ok ea => if 0 <? Count ea then ea else NewSliceEntryAccessor (Entries b)
  | Err _ => NewSliceEntryAccessor (Entries b)
  end.

(** ** prefetch.go *)

Definition MaxPrefetchBytes : Z := Z.shiftl 16 20.
Definition MaxPrefetchChunks : Z := 2048.
Definition prefetchFrameSlack : Z := 512.

(** Pack, offset, length of the chunk. *)
Definition ChunkRef : Type := Z * Z * Z.
Record chunkResolution := mkResolution { re_ref : ChunkRef; re_found : bool; re_err : option index_err }.
Definition locationOf (ie : IndexEntry) : ChunkRef := (PackNumber ie, i64 (StoreOffset ie), HashTable.ChunkLength ie).

Definition resolveChunk (idx : DedupIndex) (e : Entry) : chunkResolution :=
  match LookupDirect idx (ChunkHash e) with
  | Err er => mkResolution (0, 0, 0) false (Some er)
  | Ok None => mkResolution (0, 0, 0) false None
  | Ok (Some ie) => mkResolution (locationOf ie) true None
  end.
Definition resolveChunks (idx : DedupIndex) (es : list Entry) : list chunkResolution := resolveChunk idx <$> es.

(** The files a restore has not reached. *)
Record fileLookahead := mkLookahead { la_files : list FileEntry; la_entries : EntryAccessor; la_idx : DedupIndex; la_next : nat }.
Definition advanceTo (l : fileLookahead) (i : nat) : fileLookahead :=
  if bool_decide (la_next l ≤ i)%nat then mkLookahead (la_files l) (la_entries l) (la_idx l) (S i) else l.

(** The chunks of one file, within the budget. *)
Fixpoint aheadChunks (idx : DedupIndex) (maxChunks maxBytes : Z) (es : list Entry) (out : list ChunkRef) (est : Z) : list ChunkRef * Z :=
  match es with
  | [] => (out, est)
  | e :: es =>
      if (maxChunks <=? len out) || (maxBytes <=? est) then (out, est)
      else match LookupDirect idx (ChunkHash e) with
           | Ok (Some ie) => aheadChunks idx maxChunks maxBytes es (out ++ [locationOf ie]) (est + HashTable.ChunkLength ie + prefetchFrameSlack)
           | _ => aheadChunks idx maxChunks maxBytes es out est
           end
  end.
Definition skipsAhead (f : FileEntry) : bool :=
  f_IsExcluded f || Unchanged f || negb (bool_decide (InlineData f = [])) || negb (bool_decide (VolumeExtents f = [])) || (StreamLength f =? 0).
Fixpoint aheadFiles (l : fileLookahead) (maxChunks maxBytes : Z) (fs : list FileEntry) (out : list ChunkRef) (est : Z) (n : nat) : list ChunkRef * nat :=
  match fs with
  | [] => (out, n)
  | f :: fs =>
      if (maxChunks <=? len out) || (maxBytes <=? est) then (out, n)
      else if skipsAhead f then aheadFiles l maxChunks maxBytes fs out est (S n)
      else match coveringEntries (la_entries l) (StreamOffset f) (i64 (StreamOffset f + StreamLength f)) with
           | Err _ => aheadFiles l maxChunks maxBytes fs out est (S n)
           | Ok chunk => let '(out, est) := aheadChunks (la_idx l) maxChunks maxBytes chunk out est in aheadFiles l maxChunks maxBytes fs out est (S n)
           end
  end.
Definition aheadRefs (l : fileLookahead) (maxChunks maxBytes : Z) : list ChunkRef * fileLookahead :=
  if (maxChunks <=? 0) || (maxBytes <=? 0) then ([], l)
  else let '(out, n) := aheadFiles l maxChunks maxBytes (drop (la_next l) (la_files l)) [] 0 (la_next l) in
       (out, mkLookahead (la_files l) (la_entries l) (la_idx l) n).

Record framePrefetcher := mkPrefetcher { pf_frames : gmap (Z * Z) bytes; pf_maxBytes : Z; pf_maxChunks : Z; pf_lookahead : option fileLookahead }.
Definition newFramePrefetcher (h : Hooks) (la : option fileLookahead) : option framePrefetcher :=
  match OnChunkFetchBatch h with None => None | Some _ => Some (mkPrefetcher ∅ MaxPrefetchBytes MaxPrefetchChunks la) end.

(** The batch planned so far and the bytes it is expected to take. *)
Definition plan : Type := list ChunkRef * Z.
(** [None]: the window is full. *)
Definition addRef (cs : ChunkStore) (p : framePrefetcher) (pl : plan) (ref : ChunkRef) : option plan :=
  let '(batch, est) := pl in
  if bool_decide (ref.1 ∈ batch.*1) || HasFrame cs ref.1.1 ref.1.2 then Some pl
  else
    let size := ref.2 + prefetchFrameSlack in
    if negb (bool_decide (batch = [])) && ((pf_maxBytes p <? est + size) || (pf_maxChunks p <=? len batch)) then None
    else Some (batch ++ [ref], est + size).
Fixpoint addRefs (cs : ChunkStore) (p : framePrefetcher) (refs : list ChunkRef) (pl : plan) : plan * bool :=
  match refs with
  | [] => (pl, false)
  | ref :: refs => match addRef cs p pl ref with None => (pl, true) | Some pl => addRefs cs p refs pl end
  end.
(** The resolutions a window may take, in order. *)
Definition usable (res : list chunkResolution) : list ChunkRef := re_ref <$> filter (λ r, re_found r = true ∧ re_err r = None) res.

Definition withLookahead (p : framePrefetcher) (la : option fileLookahead) : framePrefetcher := mkPrefetcher (pf_frames p) (pf_maxBytes p) (pf_maxChunks p) la.
Definition withFrames (p : framePrefetcher) (frames : gmap (Z * Z) bytes) : framePrefetcher := mkPrefetcher frames (pf_maxBytes p) (pf_maxChunks p) (pf_lookahead p).

Definition ensure (h : Hooks) (cs : ChunkStore) (res : list chunkResolution) (i : nat) (p : framePrefetcher) : framePrefetcher :=
  match res !! i with
  | Some r =>
      if negb (re_found r) then p
      else match pf_frames p !! (re_ref r).1 with
           | Some _ => p
           | None =>
               let '(pl, full) := addRefs cs p (usable (drop i res)) ([], 0) in
               let '(pl, p) :=
                 match full, pf_lookahead p with
                 | false, Some la => let '(refs, la) := aheadRefs la (pf_maxChunks p - len pl.1) (pf_maxBytes p - pl.2) in
                                     ((addRefs cs p refs pl).1, withLookahead p (Some la))
                 | _, _ => (pl, p)
                 end in
               match pl.1 with [] => p | batch => withFrames p (FetchBatch h batch).1 end
           end
  | None => p
  end.

(** ** filerestore.go: one file *)

(** What the restore of a file threads: the store, the prefetcher and the tree. *)
Record filing := mkFiling { fi_store : ChunkStore; fi_pf : option framePrefetcher; fi_tree : tree }.
Definition withTree (s : filing) (t : tree) : filing := mkFiling (fi_store s) (fi_pf s) t.

Section files.
Context {SS : SortSlice} {PR : Primitives} {ZS : Zstd}.
Variable os : OS.
Variable parseJSON : bytes → option Backup.

Definition chunkData (r : FileRestorer) (c : chunkResolution) (s : filing) : filing * result file_err bytes :=
  let read :=
    let '(num, off, _) := re_ref c in
    match Retrieve (fr_hooks r) (fi_store s) num off with
    | (st, Err e) => (mkFiling st (fi_pf s) (fi_tree s), Err (FrRetrieve e))
    | (st, Ok data) => (mkFiling st (fi_pf s) (fi_tree s), Ok data)
    end in
  match fi_pf s ≫= (λ p, pf_frames p !! (re_ref c).1) with
  | Some frame => match RetrieveFromFrame (fi_store s) frame with Ok data => (s, Ok data) | Err _ => read end
  | None => read
  end.

(** The bytes of entry [i], looked up, fetched and checked. *)
Definition loadChunk (r : FileRestorer) (res : list chunkResolution) (i : nat) (e : Entry) (s : filing) : filing * result file_err bytes :=
  match res !! i with
  | None => (s, Err FrPanic)
  | Some c =>
      match re_err c with
      | Some er => (s, Err (FrLookup (VolumeOffset e) er))
      | None =>
          if negb (re_found c) then (s, Err (FrMissing (ChunkHash e)))
          else
            let s := mkFiling (fi_store s) (ensure (fr_hooks r) (fi_store s) res i <$> fi_pf s) (fi_tree s) in
            match chunkData r c s with
            | (s, Err er) => (s, Err er)
            | (s, Ok data) => (s, if bool_decide (strongOf (fr_norm r) data = ChunkHash e) then Ok data else Err (FrIntegrity (VolumeOffset e)))
            end
      end
  end.

(** The part of a chunk inside a range; [None] is a slice out of bounds. *)
Definition sliceOf (data : bytes) (from to_ : Z) (e : Entry) : option bytes :=
  let chunkStart := VolumeOffset e in
  let chunkEnd := i64 (chunkStart + ChunkLength e) in
  let a := if chunkStart <? from then i64 (from - chunkStart) else 0 in
  let b := if to_ <? chunkEnd then i64 (len data - i64 (chunkEnd - to_)) else len data in
  if (a <? 0) || (b <? a) || (len data <? b) then None else Some (sub data (Z.to_nat a) (Z.to_nat (b - a))).

(** The chunks of a range, written one after the other from [at_] on: the bytes written. *)
Fixpoint writeChunks (r : FileRestorer) (p : path) (from to_ at_ : Z) (res : list chunkResolution) (i : nat) (es : list Entry) (written : Z) (s : filing)
    : filing * result file_err Z :=
  match es with
  | [] => (s, Ok written)
  | e :: es =>
      match loadChunk r res i e s with
      | (s, Err er) => (s, Err er)
      | (s, Ok data) =>
          match sliceOf data from to_ e with
          | None => (s, Err FrPanic)
          | Some d => match WriteFileAt os (fi_tree s) p (at_ + written) d with
                      | None => (s, Err FrWrite)
                      | Some t => writeChunks r p from to_ at_ res (S i) es (written + len d) (withTree s t)
                      end
          end
      end
  end.

(** The chunks that cover a range. *)
Definition writeRange (r : FileRestorer) (p : path) (ea : EntryAccessor) (from to_ at_ : Z) (s : filing) : filing * result file_err Z :=
  match coveringEntries ea from to_ with
  | Err e => (s, Err (FrSearch e))
  | Ok chunk => writeChunks r p from to_ at_ (resolveChunks (fr_index r) chunk) 0 chunk 0 s
  end.

(** The output is removed when the work fails; a panic does not run the removal. *)
Definition orRemove (p : path) (m : filing * result file_err Z) : filing * result file_err Z :=
  match m with
  | (s, Err FrPanic) => (s, Err FrPanic)
  | (s, Err e) => (withTree s (RemoveAt (fi_tree s) p), Err e)
  | _ => m
  end.

Definition createEmpty (p : path) (s : filing) : filing * result file_err Z :=
  match Create os (fi_tree s) p with None => (s, Err FrCreate) | Some t => (withTree s t, Ok 0) end.

Definition restoreFile (r : FileRestorer) (f : FileEntry) (p : path) (ea : EntryAccessor) (s : filing) : filing * result file_err Z :=
  if StreamLength f =? 0 then
    if 0 <? Size f then (s, Err FrIncomplete) else createEmpty p s
  else match Create os (fi_tree s) p with
       | None => (s, Err FrCreate)
       | Some t =>
           orRemove p match writeRange r p ea (StreamOffset f) (i64 (StreamOffset f + StreamLength f)) 0 (withTree s t) with
                      | (s, Ok written) => (s, if written =? StreamLength f then Ok written else Err (FrShort written))
                      | m => m
                      end
       end.

Definition restoreInlineFile (f : FileEntry) (p : path) (s : filing) : filing * result file_err Z :=
  match WriteFile os (fi_tree s) p (InlineData f) (Mode f) with
  | (t, true) => (withTree s t, Ok (len (InlineData f)))
  | (t, false) => (withTree s (RemoveAt t p), Err FrWrite)
  end.

Fixpoint writeExtents (r : FileRestorer) (p : path) (ea : EntryAccessor) (exts : list VolumeExtent) (total : Z) (s : filing) : filing * result file_err Z :=
  match exts with
  | [] => (s, Ok total)
  | x :: exts =>
      match writeRange r p ea (x_VolumeOffset x) (i64 (x_VolumeOffset x + x_Length x)) (x_FileOffset x) s with
      | (s, Ok n) => writeExtents r p ea exts (total + n) s
      | m => m
      end
  end.

Definition restoreVolumeFile (r : FileRestorer) (f : FileEntry) (p : path) (ea : EntryAccessor) (s : filing) : filing * result file_err Z :=
  match VolumeExtents f with
  | [] => createEmpty p s
  | exts =>
      match Create os (fi_tree s) p with
      | None => (s, Err FrCreate)
      | Some t =>
          orRemove p match writeExtents r p ea exts 0 (withTree s t) with
                     | (s, Ok total) =>
                         if (0 <? Size f) && negb (total =? Size f) then
                           match TruncateFile os (fi_tree s) p (Size f) with
                           | None => (s, Err FrResize)
                           | Some t => (withTree s t, Ok (if Size f <? total then Size f else total))
                           end
                         else (s, Ok total)
                     | m => m
                     end
      end
  end.

(** The switch of both callers. *)
Definition restoreOne (r : FileRestorer) (b : Backup) (f : FileEntry) (p : path) (ea : EntryAccessor) (s : filing) : filing * result file_err Z :=
  if f_IsExcluded f then (s, Err (FrExcluded (OperatorExclusionFor (ExcludePaths b) (Path f))))
  else if negb (bool_decide (InlineData f = [])) then restoreInlineFile f p s
  else if negb (bool_decide (VolumeExtents f = [])) then restoreVolumeFile r f p ea s
  else restoreFile r f p ea s.

(** ** Unchanged files *)

Definition getRefEntries (r : FileRestorer) (id : bytes) (cache : gmap bytes EntryAccessor) : gmap bytes EntryAccessor * result file_err EntryAccessor :=
  match cache !! id with
  | Some ea => (cache, Ok ea)
  | None =>
      let slice := match Load parseJSON (fr_repo r) id with Err e => Err (FrLoad id e) | Ok ref => Ok (NewSliceEntryAccessor (Entries ref)) end in
      match (match NewEntryAccessor (fr_repo r) id with Ok ea => if Count ea =? 0 then slice else Ok ea | Err _ => slice end) with
      | Err e => (cache, Err e)
      | Ok ea => (<[id := ea]> cache, Ok ea)
      end
  end.

(** An exact match first, then the first path. *)
Definition findEntry (catalog : list FileEntry) (sourceIndex : Z) (p : bytes) : option FileEntry :=
  let named := filter (λ f, Path f = p) catalog in
  match head (filter (λ f, SourceIndex f = sourceIndex) named) with Some f => Some f | None => head named end.

Definition findFileInBackup (r : FileRestorer) (id : bytes) (sourceIndex : Z) (p : bytes) : result file_err FileEntry :=
  match Load parseJSON (fr_repo r) id with
  | Err e => Err (FrLoad id e)
  | Ok ref => of_option (FrNotInBackup id p) (findEntry (FileCatalog ref) sourceIndex p)
  end.

Definition withMeta (f cur : FileEntry) : FileEntry :=
  mkFile (Path f) (SourceIndex f) (Size f) (Mode cur) (ModTime cur) (IsDir f) (IsSymlink f) (LinkTarget f) (StreamOffset f)
    (StreamLength f) (ContentHash f) (Unchanged f) (DataBackupID f) (VolumeExtents f) (InlineData f) (f_IsExcluded f).

(** Where the data of a file is: its entry and the chunk entries it refers to. *)
Definition locate (r : FileRestorer) (ea : EntryAccessor) (f : FileEntry) (cache : gmap bytes EntryAccessor)
    : gmap bytes EntryAccessor * result file_err (FileEntry * EntryAccessor) :=
  if Unchanged f && negb (bool_decide (DataBackupID f = [])) then
    match getRefEntries r (DataBackupID f) cache with
    | (cache, Err e) => (cache, Err e)
    | (cache, Ok re) => (cache, match findFileInBackup r (DataBackupID f) (SourceIndex f) (Path f) with
                                | Err e => Err e
                                | Ok rf => Ok (withMeta rf f, re)
                                end)
    end
  else (cache, Ok (f, ea)).

(** ** ExtractFile *)

Definition ExtractFile (r : FileRestorer) (b : Backup) (filePath : bytes) (out : path) (s : filing) : filing * result file_err FileRestoreResult :=
  match FileCatalog b with
  | [] => (s, Err FrNoCatalog)
  | _ =>
      match head (filter (λ f, Path f = filePath) (FileCatalog b)) with
      | None => (s, Err FrNotFound)
      | Some found =>
          if IsDir found then (s, Err FrIsDir)
          else if IsSymlink found then (s, Err FrIsLink)
          else match (locate r (OpenEntryAccessor (fr_repo r) b) found ∅).2 with
               | Err e => (s, Err e)
               | Ok (f, ea) =>
                   match MkdirAll os (fi_tree s) (DirOf out) 493 with
                   | (t, false) => (withTree s t, Err (FrMkdir (DirOf out)))
                   | (t, true) =>
                       match restoreOne r b f out ea (mkFiling (fi_store s) (newFramePrefetcher (fr_hooks r) None) t) with
                       | (s, Err e) => (s, if fr_IgnoreErrors r && negb (match e with FrPanic => true | _ => false end) then Ok (mkFileResult 1 0 0 0 0) else Err e)
                       | (s, Ok written) =>
                           match verifyExtractCovering f ea with
                           | Some e => (withTree s (RemoveAt (fi_tree s) out), Err e)
                           | None => (withTree s (Chtimes (Chmod (fi_tree s) out (Mode f)) out (ModTime f)), Ok (mkFileResult 1 1 0 0 written))
                           end
                       end
                   end
               end
      end
  end.

(** ** Patterns *)

Fixpoint suffixMatch (suffix : bytes) (parts : list bytes) : bool :=
  matches suffix (JoinSlash parts) || match parts with [] => false | _ :: parts => suffixMatch suffix parts end.

(** The last segment alone is already the last but one suffix. *)
Definition basename (p : bytes) : bytes := default [] (last (SplitSlash p)).
Definition MatchFilePattern (p pat : bytes) : bool :=
  match Cut pat [cStar; cStar] with
  | Some (before, after) =>
      let pre := TrimSuffix before [slash] in
      let suffix := TrimPrefix after [slash] in
      if negb (bool_decide (pre = [])) && negb (HasPrefix p (pre ++ [slash])) && negb (bool_decide (p = pre)) then false
      else if bool_decide (suffix = []) then true else suffixMatch suffix (SplitSlash p)
  | None => matches pat (basename p) || matches pat p
  end.

(** The proper prefixes of a path. *)
Definition parentsOf (p : bytes) : list bytes := let parts := SplitSlash p in (λ i, JoinSlash (take i parts)) <$> seq 1 (length parts - 1).
Definition FilterFiles (catalog : list FileEntry) (patterns : list bytes) : list FileEntry :=
  let matched := filter (λ f, IsDir f = false ∧ existsb (MatchFilePattern (Path f)) patterns = true) catalog in
  let needed := matched ≫= (λ f, parentsOf (Path f)) in
  filter (λ f, IsDir f = true ∧ Path f ∈ needed) catalog ++ matched.

(** ** RestoreFiles *)

Fixpoint makeDirs (target : path) (dirs : list FileEntry) (t : tree) : tree * option file_err :=
  match dirs with
  | [] => (t, None)
  | d :: dirs => let p := JoinPath target (Path d) in
                 match MkdirAll os t p (Z.lor (Mode d) 448) with (t, false) => (t, Some (FrMkdir p)) | (t, true) => makeDirs target dirs t end
  end.

Record progress := mkProgress { pg_filing : filing; pg_cache : gmap bytes EntryAccessor; pg_restored : Z; pg_bytes : Z }.

(** One regular file, the [i]-th. *)
Definition restoreRegular (r : FileRestorer) (b : Backup) (target : path) (ea : EntryAccessor) (i : nat) (f : FileEntry) (g : progress) : progress * option file_err :=
  let s := pg_filing g in
  let pf := (λ p, withLookahead p ((λ l, advanceTo l i) <$> pf_lookahead p)) <$> fi_pf s in
  let p := JoinPath target (Path f) in
  match MkdirAll os (fi_tree s) (DirOf p) 493 with
  | (t, false) => (mkProgress (mkFiling (fi_store s) pf t) (pg_cache g) (pg_restored g) (pg_bytes g), Some (FrMkdir (DirOf p)))
  | (t, true) =>
      let s := mkFiling (fi_store s) pf t in
      match locate r ea f (pg_cache g) with
      | (cache, Err e) => (mkProgress s cache (pg_restored g) (pg_bytes g), Some e)
      | (cache, Ok (f, ea)) =>
          match restoreOne r b f p ea s with
          | (s, Err e) => (mkProgress s cache (pg_restored g) (pg_bytes g),
                           if fr_IgnoreErrors r && negb (match e with FrPanic => true | _ => false end) then None else Some e)
          | (s, Ok written) => (mkProgress (withTree s (Chtimes (Chmod (fi_tree s) p (Mode f)) p (ModTime f))) cache (pg_restored g + 1) (pg_bytes g + written), None)
          end
      end
  end.
Fixpoint restoreRegulars (r : FileRestorer) (b : Backup) (target : path) (ea : EntryAccessor) (i : nat) (fs : list FileEntry) (g : progress) : progress * option file_err :=
  match fs with
  | [] => (g, None)
  | f :: fs => match restoreRegular r b target ea i f g with
               | (g, Some e) => (g, Some e)
               | (g, None) => restoreRegulars r b target ea (S i) fs g
               end
  end.

Fixpoint makeLinks (target : path) (links : list FileEntry) (t : tree) : tree * option file_err :=
  match links with
  | [] => (t, None)
  | f :: links =>
      let p := JoinPath target (Path f) in
      match MkdirAll os t (DirOf p) 493 with
      | (t, false) => (t, Some (FrMkdir (DirOf p)))
      | (t, true) => match Symlink os t (LinkTarget f) p with None => (t, Some FrSymlink) | Some t => makeLinks target links t end
      end
  end.

Definition setDirMeta (target : path) (t : tree) (d : FileEntry) : tree :=
  let p := JoinPath target (Path d) in Chmod (Chtimes t p (ModTime d)) p (Mode d).

Definition selected (b : Backup) (patterns : list bytes) : list FileEntry :=
  match patterns with [] => FileCatalog b | _ => FilterFiles (FileCatalog b) patterns end.
Definition dirsOf (fs : list FileEntry) : list FileEntry := filter (λ f, IsDir f = true) fs.
Definition linksOf (fs : list FileEntry) : list FileEntry := filter (λ f, IsDir f = false ∧ IsSymlink f = true) fs.
Definition regularsOf (fs : list FileEntry) : list FileEntry := filter (λ f, IsDir f = false ∧ IsSymlink f = false) fs.

Definition RestoreFiles (r : FileRestorer) (b : Backup) (target : path) (patterns : list bytes) (st : ChunkStore) (t : tree)
    : ChunkStore * tree * result file_err FileRestoreResult :=
  if bool_decide (FileCatalog b = []) then (st, t, Err FrNoCatalog)
  else
    let files := selected b patterns in
    let dirs := dirsOf files in
    let ea := OpenEntryAccessor (fr_repo r) b in
    match makeDirs target dirs t with
    | (t, Some e) => (st, t, Err e)
    | (t, None) =>
        let la := mkLookahead (regularsOf files) ea (fr_index r) 0 in
        match restoreRegulars r b target ea 0 (regularsOf files) (mkProgress (mkFiling st (newFramePrefetcher (fr_hooks r) (Some la)) t) ∅ 0 0) with
        | (g, Some e) => (fi_store (pg_filing g), fi_tree (pg_filing g), Err e)
        | (g, None) =>
            match makeLinks target (linksOf files) (fi_tree (pg_filing g)) with
            | (t, Some e) => (fi_store (pg_filing g), t, Err e)
            | (t, None) =>
                (fi_store (pg_filing g), foldl (setDirMeta target) t (sortSlice (λ d, - len (Path d)) dirs),
                 Ok (mkFileResult (len files) (pg_restored g) (len dirs) (len (linksOf files)) (pg_bytes g)))
            end
        end
    end.
End files.
