(* ===== verification/FileStream.v ===== *)
(** * filemode: the stream of a walk

    Reading and seeking in a [MultiFileReader] is reading and seeking in one stream, the files
    one after the other, each cut or padded to its size at the walk; the ranges [Walk]
    assigns are where the files lie in it. *)

From S2P Require Import Chunker.
From S2P Require Import Prelude GoBytes GoFiles GoPath Hashes PackStore RepoConfig.
From S2P Require Import Dnm FileMode.

(** ** The stream *)

(** A file at its size of the walk. *)
Definition padded (n : Z) (d : bytes) : bytes := take (Z.to_nat n) d ++ zeros (Z.to_nat n - length d).
Definition contentAt (t : tree) (p : path) : bytes := default [] (fileData t p).
Definition streamOf (t : tree) (refs : list fileRef) : bytes := concat ((λ ref, padded (ref_streamLen ref) (contentAt t (ref_absPath ref))) <$> refs).

Lemma length_padded n d : len (padded n d) = Z.max 0 n.
Proof. unfold padded. len. Qed.

Lemma padded_split n d k : 0 ≤ k ≤ n → padded n d = padded k d ++ padded (n - k) (drop (Z.to_nat k) d).
Proof.
  intros Hk. unfold padded. rewrite length_drop. destruct (decide (len d ≤ k)).
  - rewrite (drop_ge d) by lia. rewrite take_nil. cbn [app length]. rewrite !(take_ge d) by lia. rewrite <- app_assoc. f_equal. unfold zeros. rewrite <- replicate_add. f_equal. lia.
  - replace (Z.to_nat k - length d)%nat with 0%nat by lia. change (zeros 0) with (@nil Z). rewrite app_nil_r. rewrite <- (take_drop (Z.to_nat k) d) at 1.
    rewrite take_app_ge by len. rewrite length_take, <- app_assoc. f_equal. f_equal; [f_equal; lia|f_equal; lia].
Qed.

Lemma padded_full n d : 0 ≤ n → n ≤ len d → padded n d = take (Z.to_nat n) d.
Proof. intros. unfold padded. replace (Z.to_nat n - length d)%nat with 0%nat by lia. apply app_nil_r. Qed.

Lemma padded_nil n : padded n [] = zeros (Z.to_nat n).
Proof. unfold padded. rewrite take_nil. cbn. f_equal. lia. Qed.

(** ** Reading *)

Section reading.
Context (t : tree).

Definition opens (refs : list fileRef) : Prop := Forall (λ ref, 0 < ref_streamLen ref ∧ is_Some (fileData t (ref_absPath ref))) refs.

Record reader_ok (r : MultiFileReader) : Prop := {
  ro_opens : opens (mr_entries r);
  ro_pad : 0 ≤ mr_pad r;
  ro_rest : ∀ rest, mr_rest r = Some rest → mr_pad r = 0 ∧ ∃ ref, mr_entries r !! mr_idx r = Some ref ∧ 0 ≤ mr_read r < ref_streamLen ref }.

(** What is still to be read. *)
Definition restOf (r : MultiFileReader) : bytes :=
  zeros (Z.to_nat (mr_pad r)) ++
  match mr_rest r, mr_entries r !! mr_idx r with
  | Some rest, Some ref => padded (ref_streamLen ref - mr_read r) rest ++ streamOf t (drop (S (mr_idx r)) (mr_entries r))
  | _, _ => streamOf t (drop (mr_idx r) (mr_entries r))
  end.

Lemma streamOf_drop refs i ref : refs !! i = Some ref → streamOf t (drop i refs) = padded (ref_streamLen ref) (contentAt t (ref_absPath ref)) ++ streamOf t (drop (S i) refs).
Proof. intros H. by rewrite (drop_S _ _ _ H). Qed.

(** The file that is open, or the next one. *)
Lemma restOf_current r ref : reader_ok r → mr_pad r = 0 → mr_entries r !! mr_idx r = Some ref →
  ∃ rest done, match mr_rest r with Some d => Some (d, mr_read r) | None => d ← fileData t (ref_absPath ref); Some (d, 0) end = Some (rest, done) ∧
    0 ≤ done < ref_streamLen ref ∧ restOf r = padded (ref_streamLen ref - done) rest ++ streamOf t (drop (S (mr_idx r)) (mr_entries r)).
Proof.
  intros [Ho _ Hr] Hp He. pose proof He as He'. unfold opens in Ho. rewrite Forall_lookup in Ho. destruct (Ho _ _ He) as [Hl [d Hd]]. unfold restOf. rewrite Hp, He. cbn [zeros Z.to_nat replicate app].
  destruct (mr_rest r) as [rest|] eqn:Er.
  - destruct (Hr rest eq_refl) as (_ & ref' & He'' & Hb). rewrite He in He''. simplify_eq. exists rest, (mr_read r). done.
  - exists d, 0. rewrite Hd. split; [done|]. split; [lia|]. rewrite (streamOf_drop _ _ _ He). unfold contentAt. rewrite Hd. cbn. by rewrite Z.sub_0_r.
Qed.

(** One turn of the loop over an open file. *)
Definition turn (r : MultiFileReader) (ref : fileRef) (rest : bytes) (done : Z) (k : nat) : MultiFileReader :=
  let d := take k rest in
  if (ref_streamLen ref <=? done + len d) || bool_decide (d = []) then
    mkReader (mr_entries r) (mr_total r) (S (mr_idx r)) None (done + len d)
      (if bool_decide (d = []) && (done + len d <? ref_streamLen ref) then ref_streamLen ref - (done + len d) else mr_pad r)
  else mkReader (mr_entries r) (mr_total r) (mr_idx r) (Some (drop k rest)) (done + len d) (mr_pad r).

Lemma turn_ok r ref rest done k : reader_ok r → mr_pad r = 0 → mr_entries r !! mr_idx r = Some ref → 0 ≤ done < ref_streamLen ref → (0 < k)%nat → Z.of_nat k ≤ ref_streamLen ref - done →
  reader_ok (turn r ref rest done k) ∧ mr_entries (turn r ref rest done k) = mr_entries r ∧
  padded (ref_streamLen ref - done) rest ++ streamOf t (drop (S (mr_idx r)) (mr_entries r)) = take k rest ++ restOf (turn r ref rest done k) ∧
  (take k rest = [] → mr_idx (turn r ref rest done k) = S (mr_idx r)) ∧ (mr_idx r ≤ mr_idx (turn r ref rest done k))%nat.
Proof.
  intros [Ho Hpad Hr] Hp He Hd Hk Hkr. unfold turn. destruct rest as [|x rest].
  - rewrite take_nil, orb_comm, bool_decide_eq_true_2 by done. cbn [orb length andb]. rewrite Z.add_0_r, (proj2 (Z.ltb_lt _ _)) by lia.
    split; [split; cbn; [done|lia|done]|]. split; [done|]. split; [|split; [done|cbn; lia]]. unfold restOf. cbn [mr_pad mr_rest mr_entries mr_idx app]. by rewrite padded_nil.
  - rewrite (bool_decide_eq_false_2 (take k (x :: rest) = [])) by (destruct k; [lia|done]). rewrite orb_false_r. cbn [andb].
    set (d := x :: rest) in *. assert (Hlt : 0 < len (take k d)) by (subst d; destruct k; [lia|len]).
    assert (Hsp : padded (ref_streamLen ref - done) d = take k d ++ padded (ref_streamLen ref - (done + len (take k d))) (drop k d)).
    { destruct (decide (Z.of_nat k ≤ len d)) as [Hle|Hgt].
      - rewrite (padded_split _ d (Z.of_nat k)) by lia. rewrite padded_full, Nat2Z.id by lia. f_equal. f_equal. len.
      - rewrite (padded_split _ d (len d)) by lia. rewrite padded_full, Nat2Z.id by lia. rewrite !(take_ge d) by lia. f_equal. rewrite drop_ge, drop_ge by lia. f_equal. lia. }
    destruct (Z.leb_spec (ref_streamLen ref) (done + len (take k d))) as [Hend|Hmore].
    + split; [split; cbn; [done|lia|done]|]. split; [done|]. split; [|split; [done|cbn; lia]]. unfold restOf. cbn [mr_pad mr_rest mr_entries mr_idx]. rewrite Hp. cbn [zeros Z.to_nat replicate app].
      rewrite Hsp, <- app_assoc. f_equal. replace (ref_streamLen ref - (done + len (take k d))) with 0 by (assert (len (take k d) ≤ Z.of_nat k) by len; lia).
      unfold padded. cbn. by rewrite take_0.
    + split; [split; cbn; [done|lia|]|].
      { intros rest' [= <-]. split; [done|]. exists ref. split; [done|lia]. }
      split; [done|]. split; [|split; [intros E; rewrite E in Hlt; cbn in Hlt; lia|done]]. unfold restOf. cbn [mr_pad mr_rest mr_entries mr_idx mr_read]. rewrite Hp, He. cbn [zeros Z.to_nat replicate app].
      by rewrite Hsp, <- app_assoc.
Qed.

Lemma restOf_end r : reader_ok r → mr_pad r = 0 → mr_entries r !! mr_idx r = None → restOf r = [].
Proof.
  intros Hok Hp He. unfold restOf. rewrite Hp, He. apply lookup_ge_None in He. rewrite (drop_ge (mr_entries r)) by lia. by destruct (mr_rest r).
Qed.

Lemma take_app_turn {A} (d rest : list A) (want : nat) : (length d ≤ want)%nat → take want (d ++ rest) = d ++ take (want - length d) rest ∧ drop want (d ++ rest) = drop (want - length d) rest.
Proof. intros H. rewrite take_app_ge, drop_app_ge by lia. done. Qed.

Lemma readLoop_ok fuel : ∀ want r acc, reader_ok r → (want + (length (mr_entries r) - mr_idx r) < fuel)%nat →
  ∃ r', readLoop fuel t want r acc = (r', acc ++ take want (restOf r), if bool_decide (want ≠ 0%nat ∧ acc ++ take want (restOf r) = []) then Some RdEOF else None) ∧
    reader_ok r' ∧ mr_entries r' = mr_entries r ∧ restOf r' = drop want (restOf r).
Proof.
  induction fuel as [|fuel IH]; intros want r acc Hok Hf; [lia|]. cbn [readLoop]. destruct (decide (want = 0%nat)) as [->|Hw].
  { rewrite bool_decide_eq_true_2, bool_decide_eq_false_2 by (done || tauto). rewrite take_0, app_nil_r, drop_0. by exists r. }
  rewrite (bool_decide_eq_false_2 (want = 0%nat)) by done.
  destruct (Z.ltb_spec 0 (mr_pad r)) as [Hpad|Hpad].
  - set (n := if mr_pad r <? Z.of_nat want then Z.to_nat (mr_pad r) else want).
    assert (Hn : (0 < n ≤ want)%nat ∧ Z.of_nat n ≤ mr_pad r) by (subst n; destruct (Z.ltb_spec (mr_pad r) (Z.of_nat want)); lia).
    set (r1 := mkReader (mr_entries r) (mr_total r) (mr_idx r) (mr_rest r) (mr_read r) (mr_pad r - Z.of_nat n)).
    assert (Hr1 : restOf r = zeros n ++ restOf r1).
    { unfold restOf, r1. cbn [mr_pad mr_rest mr_entries mr_idx mr_read]. rewrite app_assoc. f_equal. unfold zeros. rewrite <- replicate_add. f_equal. lia. }
    destruct (IH (want - n)%nat r1 (acc ++ zeros n)) as (r2 & Hr2 & Hok2 & He2 & Hrest2).
    + split; cbn; [apply Hok|lia|]. intros rest Hrest. destruct (ro_rest _ Hok rest Hrest) as [? _]. lia.
    + cbn. lia.
    + exists r2. rewrite Hr1. destruct (take_app_turn (zeros n) (restOf r1) want) as [-> ->]; [len|]. rewrite length_zeros. rewrite Hr2. split; [|done].
      rewrite <- app_assoc. do 2 f_equal. rewrite !bool_decide_eq_false_2; [done| |]; intros [_ E]; apply (f_equal length) in E; rewrite !length_app, length_zeros in E; cbn in E; lia.
  - pose proof (ro_pad _ Hok) as Hp0. assert (Hp : mr_pad r = 0) by lia. destruct (mr_entries r !! mr_idx r) as [ref|] eqn:He.
    + destruct (restOf_current r ref Hok Hp He) as (rest & done & -> & Hd & Hrest).
      set (k := if ref_streamLen ref - done <? Z.of_nat want then Z.to_nat (ref_streamLen ref - done) else want).
      assert (Hk : (0 < k ≤ want)%nat ∧ Z.of_nat k ≤ ref_streamLen ref - done) by (subst k; destruct (Z.ltb_spec (ref_streamLen ref - done) (Z.of_nat want)); lia).
      destruct (turn_ok r ref rest done k Hok Hp He Hd ltac:(lia) ltac:(lia)) as (Hok1 & He1 & Hs & Hidx & Hmono). pose proof (lookup_lt_Some _ _ _ He) as Hlt.
      assert (Hlen : (length (take k rest) ≤ want)%nat) by len.
      destruct (IH (want - length (take k rest))%nat (turn r ref rest done k) (acc ++ take k rest) Hok1) as (r2 & Hr2 & Hok2 & He2 & Hrest2).
      { rewrite He1. destruct (take k rest) as [|x d] eqn:Et; [rewrite (Hidx eq_refl); cbn; lia|]. cbn [length] in *. lia. }
      exists r2. rewrite Hrest, Hs. destruct (take_app_turn (take k rest) (restOf (turn r ref rest done k)) want Hlen) as [-> ->].
      split; [|split; [done|]; split; [by rewrite He2|done]]. rewrite app_assoc. etrans; [|etrans; [exact Hr2|]].
      * unfold turn. by destruct (_ || bool_decide (take k rest = [])).
      * f_equal. destruct (take k rest) as [|x d] eqn:Et.
        -- rewrite Nat.sub_0_r. done.
        -- rewrite !bool_decide_eq_false_2; [done| |]; intros [_ E]; apply (f_equal length) in E; rewrite !length_app in E; cbn in E; lia.
    + rewrite (restOf_end r Hok Hp He), take_nil, drop_nil, app_nil_r. exists r. split; [|split; [done|]; split; [done|by apply restOf_end]].
      f_equal. destruct (decide (acc = [])); [rewrite !bool_decide_eq_true_2 by tauto|rewrite !bool_decide_eq_false_2 by tauto]; done.
Qed.

(** C20. A [MultiFileReader] reads one stream: each read of a buffer gives the next bytes of
    what is left, as many as the buffer holds while there are any, the end of the stream
    exactly when nothing is left, and leaves the rest, however files were cut into reads,
    shrank or grew since the walk. *)
Theorem read_next_of_stream n r : reader_ok r → (0 < n)%nat →
  ∃ r', ReadStream t n r = (r', take n (restOf r), if bool_decide (restOf r = []) then Some RdEOF else None) ∧ reader_ok r' ∧ restOf r' = drop n (restOf r).
Proof.
  intros Hok Hn. unfold ReadStream. rewrite bool_decide_eq_false_2 by lia. destruct (readLoop_ok (S (n + length (mr_entries r))) n r [] Hok) as (r' & -> & Hok' & _ & Hr); [lia|].
  exists r'. split; [|done]. cbn [app]. f_equal. apply (f_equal (λ b : bool, if b then Some RdEOF else None)). apply bool_decide_ext. destruct n; [lia|]. destruct (restOf r); [by split|]. split; [by intros [_ ?]|done].
Qed.

(** ** Seeking *)

Lemma seekLoop_ok refs : ∀ pre off cum, opens refs → 0 ≤ cum ≤ off → off ≤ cum + len (streamOf t refs) →
  ∃ i cur, seekLoop t refs off cum (length pre) = Some (i, cur) ∧
    match cur with
    | Some (rest, done) => ∃ ref, (pre ++ refs) !! i = Some ref ∧ 0 ≤ done < ref_streamLen ref ∧
        drop (Z.to_nat (off - cum)) (streamOf t refs) = padded (ref_streamLen ref - done) rest ++ streamOf t (drop (S i) (pre ++ refs))
    | None => i = length (pre ++ refs) ∧ drop (Z.to_nat (off - cum)) (streamOf t refs) = []
    end.
Proof.
  induction refs as [|ref refs IH]; intros pre off cum Ho Hc Hoff.
  - exists (length pre), None. split; [done|]. rewrite app_nil_r. split; [done|]. apply drop_nil.
  - apply Forall_cons in Ho as [[Hl [d Hd]] Ho]. cbn [seekLoop]. unfold streamOf in *. cbn [fmap list_fmap concat] in *. set (st := padded (ref_streamLen ref) (contentAt t (ref_absPath ref))) in *.
    assert (Hst : len st = ref_streamLen ref) by (subst st; rewrite length_padded; lia). destruct (Z.ltb_spec off (cum + ref_streamLen ref)) as [Hlt|Hge].
    + rewrite Hd. cbn. eexists _, _. split; [done|]. exists ref. split; [by rewrite list_lookup_middle|]. split; [lia|].
      rewrite drop_app_le by lia. replace (drop (S (length pre)) (pre ++ ref :: refs)) with refs by (rewrite drop_app_ge by lia; by replace (S (length pre) - length pre)%nat with 1%nat by lia).
      f_equal. subst st. unfold contentAt. rewrite Hd. cbn [default from_option id]. rewrite (padded_split _ d (off - cum)) by lia. rewrite drop_app_ge by (pose proof (length_padded (off - cum) d); lia).
      replace (Z.to_nat (off - cum) - length (padded (off - cum) d))%nat with 0%nat by (pose proof (length_padded (off - cum) d); lia). apply drop_0.
    + rewrite length_app in Hoff. destruct (IH (pre ++ [ref]) off (cum + ref_streamLen ref) Ho ltac:(lia) ltac:(lia)) as (i & cur & Hi & Hcur). rewrite length_app in Hi. cbn in Hi.
      rewrite Nat.add_1_r in Hi. rewrite <- app_assoc in Hcur. cbn [app] in Hcur. exists i, cur. split; [done|].
      rewrite drop_app_ge by lia. replace (Z.to_nat (off - cum) - length st)%nat with (Z.to_nat (off - (cum + ref_streamLen ref))) by lia. exact Hcur.
Qed.

(** Seeking to an offset of the stream leaves the stream from there. *)
Lemma seek_stream r off : opens (mr_entries r) → mr_total r = len (streamOf t (mr_entries r)) → 0 ≤ off ≤ mr_total r →
  ∃ r', SeekStream t r off = Some r' ∧ reader_ok r' ∧ restOf r' = drop (Z.to_nat off) (streamOf t (mr_entries r)).
Proof.
  intros Ho Ht Hoff. unfold SeekStream. rewrite !(proj2 (Z.ltb_ge _ _)) by lia. cbn [orb].
  destruct (seekLoop_ok (mr_entries r) [] off 0 Ho ltac:(lia) ltac:(lia)) as (i & cur & Hs & Hcur). cbn [length] in Hs. rewrite Hs. cbn [app mbind option_bind] in *. rewrite Z.sub_0_r in Hcur. eexists. split; [done|].
  destruct cur as [[rest done]|].
  - destruct Hcur as (ref & He & Hd & ->). split; [split; cbn; [done|done|]|].
    + intros rest' [= <-]. split; [done|]. by exists ref.
    + unfold restOf. cbn. by rewrite He.
  - destruct Hcur as [-> ->]. split; [split; cbn; [done|done|done]|]. unfold restOf. cbn. by rewrite drop_ge.
Qed.

(** ** The reads a consumer sees *)

Definition toRerr (e : read_err) : rerr := match e with RdEOF => Chunker.EOF | RdOpen _ => ReadErr 1 end.
(** Reads of [n] bytes until one fails; every one takes a byte. *)
Fixpoint readAll (fuel : nat) (n : nat) (r : MultiFileReader) : Chunker.Reader :=
  match fuel with
  | O => []
  | S fuel => match ReadStream t n r with
              | (_, d, Some e) => [(d, Some (toRerr e))]
              | (r, d, None) => (d, None) :: readAll fuel n r
              end
  end.

Lemma readAll_delivers fuel n : (0 < n)%nat → ∀ r, reader_ok r → (length (restOf r) < fuel)%nat → delivered (readAll fuel n r) 0 = (restOf r, Chunker.EOF).
Proof.
  intros Hn. induction fuel as [|fuel IH]; intros r Hok Hf; [lia|]. cbn [readAll]. destruct (readLoop_ok (S (n + length (mr_entries r))) n r [] Hok) as (r' & Hr & Hok' & _ & Hrest); [lia|].
  unfold ReadStream. rewrite bool_decide_eq_false_2 by lia. rewrite Hr. cbn [app]. destruct (restOf r) as [|x l] eqn:El.
  - rewrite take_nil, bool_decide_eq_true_2 by (split; [lia|done]). reflexivity.
  - rewrite bool_decide_eq_false_2 by (intros [_ E]; destruct n; [lia|done]). cbn [delivered]. rewrite (proj2 (Nat.eqb_neq _ _)) by (destruct n; [lia|cbn; lia]).
    rewrite IH; [|done|rewrite Hrest, length_drop; cbn [length] in *; lia]. by rewrite Hrest, take_drop.
Qed.
End reading.

(** ** A small stream *)

(** A directory with a file of ten bytes in it and an excluded one, and a link to the file. *)
Definition tripTree : tree :=
  {[ [[115]] := NDir 493 (Some 3); [[115]; [100]] := NDir 448 (Some 4); [[115]; [100]; [102]] := NFile [1; 2; 3; 4; 5; 6; 7; 8; 9; 10] 33188 (Some 5);
     [[115]; [100]; [120]] := NFile [7] 420 None; [[115]; [108]] := NLink [100; 47; 102] ]}.
Definition tripReader : MultiFileReader := mkReader [mkFileRef [[115]; [100]; [102]] 10] 10 0 None 0 0.
(** The same file, two bytes longer at the walk. *)
Definition shrunkReader : MultiFileReader := mkReader [mkFileRef [[115]; [100]; [102]] 12] 12 0 None 0 0.

Lemma read_next_of_stream_witness : ∃ r', ReadStream tripTree 11 shrunkReader = (r', [1; 2; 3; 4; 5; 6; 7; 8; 9; 10; 0], None) ∧ restOf tripTree r' = [0].
Proof.
  destruct (read_next_of_stream tripTree 11 shrunkReader) as (r' & H1 & _ & H2).
  - split; [|done|by intros]. constructor; [|constructor]. split; [reflexivity|by eexists].
  - lia.
  - exists r'. split; [exact H1|exact H2].
Defined.
