(* ===== verification/FileWalk.v ===== *)
(** * filemode: what a walk lists

    [Walk] lists exactly the nodes of its sources that no pattern excludes and that do not
    lie in an excluded directory, each once, in order, and the files of the list tile the
    stream. *)

From S2P Require Import Chunker.
From S2P Require Import Prelude GoBytes GoFiles GoPath Hashes PackStore RepoConfig.
From S2P Require Import Dnm FileMode FileStream.

(** ** Names and paths *)

(** A component: not empty, no slash, not a dot or two. *)
Definition plainName (c : bytes) : Prop := c ≠ [] ∧ (slash ∉ c) ∧ c ≠ dot ∧ c ≠ dotdot.
#[export] Instance plainName_dec c : Decision (plainName c).
Proof. unfold plainName. apply _. Defined.

Lemma SplitOn_nosep sep s : sep ∉ s → SplitOn sep s = [s].
Proof.
  induction s as [|c s IH]; [done|]. intros [Hc Hs]%not_elem_of_cons. cbn. rewrite (proj2 (Z.eqb_neq _ _)) by congruence. by rewrite (IH Hs).
Qed.
Lemma SplitOn_app sep s rest : sep ∉ s → SplitOn sep (s ++ sep :: rest) = s :: SplitOn sep rest.
Proof.
  induction s as [|c s IH]; intros Hs; cbn; [by rewrite Z.eqb_refl|]. apply not_elem_of_cons in Hs as [Hc Hs]. rewrite (proj2 (Z.eqb_neq _ _)) by congruence. by rewrite (IH Hs).
Qed.

Lemma SplitSlash_Join (p : path) : p ≠ [] → Forall (λ c, slash ∉ c) p → SplitSlash (JoinSlash p) = p.
Proof.
  unfold SplitSlash. induction p as [|c p IH]; [done|]. intros _ [Hc Hp]%Forall_cons. destruct p as [|d p]; [by apply SplitOn_nosep|].
  change (JoinSlash (c :: d :: p)) with (c ++ slash :: JoinSlash (d :: p)). rewrite SplitOn_app by done. by rewrite IH.
Qed.

Lemma JoinSlash_inj (p q : path) : p ≠ [] → q ≠ [] → Forall plainName p → Forall plainName q → JoinSlash p = JoinSlash q → p = q.
Proof.
  intros Hp Hq Hpn Hqn E. rewrite <- (SplitSlash_Join p), <- (SplitSlash_Join q); [by rewrite E|done| |done|]; eapply Forall_impl; [exact Hqn| |exact Hpn|]; by intros c (_ & ? & _).
Qed.

Lemma clean_plain (p : path) : ∀ acc, Forall plainName p → foldl cleanStep acc p = reverse p ++ acc.
Proof.
  induction p as [|c p IH]; intros acc Hp; [done|]. apply Forall_cons in Hp as [(H1 & _ & H2 & H3) Hp]. cbn [foldl]. unfold cleanStep at 2. rewrite !bool_decide_eq_false_2 by done. cbn [orb].
  rewrite IH by done. by rewrite reverse_cons, <- app_assoc.
Qed.

Lemma JoinPath_plain (dir p : path) : p ≠ [] → Forall plainName p → JoinPath dir (JoinSlash p) = dir ++ p.
Proof.
  intros Hp Hn. unfold JoinPath. rewrite SplitSlash_Join; [|done|eapply Forall_impl; [exact Hn|]; by intros c (_ & ? & _)].
  rewrite clean_plain by done. by rewrite reverse_app, !reverse_involutive.
Qed.

(** ** The names of a directory *)

Lemma namesIn_spec t p c : c ∈ namesIn t p ↔ is_Some (t !! (p ++ [c])).
Proof.
  unfold namesIn. rewrite merge_sort_Permutation, list_elem_of_omap. split.
  - intros (q & Hq & Hc). rewrite elem_of_elements, elem_of_dom in Hq. destruct (drop (length p) q) as [|x [|y l]] eqn:Ed; try done. case_bool_decide as Et; [|done]. simplify_eq.
    by rewrite <- Et, <- Ed, take_drop.
  - intros Hs. exists (p ++ [c]). rewrite elem_of_elements, elem_of_dom. split; [done|]. rewrite drop_app_exact, take_app_exact by done. by rewrite bool_decide_eq_true_2.
Qed.

Lemma namesIn_NoDup t p : NoDup (namesIn t p).
Proof.
  unfold namesIn. rewrite merge_sort_Permutation. pose proof (NoDup_elements (dom t)) as Hnd. induction Hnd as [|q l Hq Hnd IH]; [constructor|].
  cbn. destruct (drop (length p) q) as [|c [|d r]] eqn:Ed; try done. case_bool_decide as Et; [|done]. constructor; [|done].
  rewrite list_elem_of_omap. intros (q' & Hq' & Hc). destruct (drop (length p) q') as [|c' [|d' r']] eqn:Ed'; try done. case_bool_decide as Et'; [|done]. simplify_eq.
  apply Hq. assert (q = q') as ->; [|done]. rewrite <- (take_drop (length p) q), <- (take_drop (length p) q'). congruence.
Qed.

(** ** The nodes of a walk *)

Section walk.
Context (t : tree) (root : path) (m : Matcher).

Definition isDirNode (n : node) : bool := match n with NDir _ _ => true | _ => false end.
(** The directories above a node are directories and are kept, and so is the node. *)
Record listed (rel : path) (n : node) : Prop := {
  li_node : t !! (root ++ rel) = Some n;
  li_kept : IsExcludedPath m (JoinSlash rel) (isDirNode n) = false;
  li_above : ∀ k, (0 < k < length rel)%nat → (∃ mode mt, t !! (root ++ take k rel) = Some (NDir mode mt)) ∧ IsExcludedPath m (JoinSlash (take k rel)) true = false }.
(** The same below [rel]. *)
Definition listedBelow (rel ext : path) (n : node) : Prop :=
  t !! (root ++ rel ++ ext) = Some n ∧ IsExcludedPath m (JoinSlash (rel ++ ext)) (isDirNode n) = false ∧
  ∀ k, (0 < k < length ext)%nat → (∃ mode mt, t !! (root ++ rel ++ take k ext) = Some (NDir mode mt)) ∧ IsExcludedPath m (JoinSlash (rel ++ take k ext)) true = false.

Lemma listedBelow_cons rel c ext n : ext ≠ [] → listedBelow rel (c :: ext) n ↔
  (∃ mode mt, t !! (root ++ rel ++ [c]) = Some (NDir mode mt)) ∧ IsExcludedPath m (JoinSlash (rel ++ [c])) true = false ∧ listedBelow (rel ++ [c]) ext n.
Proof.
  intros Hne. unfold listedBelow. rewrite <- !app_assoc. cbn [app]. split.
  - intros (H1 & H2 & H3). destruct (H3 1%nat) as [Hd He]; [destruct ext; [done|cbn; lia]|]. cbn [take] in Hd, He. rewrite take_0 in *. split; [done|]. split; [done|]. split; [done|]. split; [done|].
    intros k Hk. specialize (H3 (S k) ltac:(cbn; lia)). cbn [take] in H3. by rewrite <- !app_assoc.
  - intros (Hd & He & H1 & H2 & H3). split; [done|]. split; [done|]. intros [|[|k]] Hk; [lia|cbn [take]; by rewrite take_0|]. cbn [take length] in *. specialize (H3 (S k) ltac:(lia)).
    rewrite <- !app_assoc in H3. exact H3.
Qed.

Lemma walkDir_spec src fuel f : ∀ rel, f ∈ walkDir fuel t root m src rel ↔ ∃ ext n, ext ≠ [] ∧ (length ext ≤ fuel)%nat ∧ listedBelow rel ext n ∧ f = entryOfNode src (rel ++ ext) n.
Proof.
  induction fuel as [|fuel IH]; intros rel.
  - split; [by intros ?%elem_of_nil|]. intros (ext & n & Hne & Hl & _). destruct ext; [done|cbn in Hl; lia].
  - cbn [walkDir]. rewrite list_elem_of_bind. split.
    + intros (c & Hf & Hc). destruct (t !! (root ++ rel ++ [c])) as [n|] eqn:En; [|by apply elem_of_nil in Hf]. fold (isDirNode n) in Hf.
      destruct (IsExcludedPath m (JoinSlash (rel ++ [c])) (isDirNode n)) eqn:Ex; [by apply elem_of_nil in Hf|]. apply elem_of_cons in Hf as [->|Hf].
      * exists [c], n. split; [done|]. split; [cbn; lia|]. split; [|done]. split; [done|]. split; [done|]. cbn. lia.
      * destruct n as [| mode mt|]; cbn [isDirNode] in Hf; try by apply elem_of_nil in Hf. apply IH in Hf as (ext & n & Hne & Hl & Hb & ->). exists (c :: ext), n.
        split; [done|]. split; [cbn; lia|]. split; [|by rewrite <- app_assoc]. apply listedBelow_cons; [done|]. split; [eauto|]. done.
    + intros (ext & n & Hne & Hl & Hb & ->). destruct ext as [|c ext]; [done|]. exists c. destruct ext as [|d ext].
      * destruct Hb as (Hn & Hx & _). rewrite Hn. fold (isDirNode n). rewrite Hx. split; [left|]. apply namesIn_spec. rewrite <- app_assoc. by rewrite Hn.
      * pose proof Hb as ((mode & mt & Hd) & Hx & Hb')%listedBelow_cons; [|done]. rewrite Hd, Hx. split; [|apply namesIn_spec; rewrite <- app_assoc; by rewrite Hd].
        right. apply IH. exists (d :: ext), n. split; [done|]. split; [cbn in *; lia|]. split; [done|]. by rewrite <- app_assoc.
Qed.

Lemma treeDepth_bound q n : t !! q = Some n → (length q ≤ treeDepth t)%nat.
Proof. intros H. apply max_list_elem_of_le, list_elem_of_fmap_2, elem_of_elements, elem_of_dom. by rewrite H. Qed.

Lemma walk_listed src f : f ∈ walkDir (S (treeDepth t)) t root m src [] ↔ ∃ rel n, rel ≠ [] ∧ listed rel n ∧ f = entryOfNode src rel n.
Proof.
  rewrite walkDir_spec. split.
  - intros (rel & n & Hne & _ & (H1 & H2 & H3) & ->). exists rel, n. by split_and!.
  - intros (rel & n & Hne & [H1 H2 H3] & ->). exists rel, n. split; [done|]. split; [|by split_and!]. pose proof (treeDepth_bound _ _ H1) as Hd. rewrite length_app in Hd. lia.
Qed.

Context (Hnames : ∀ q n, t !! q = Some n → Forall plainName q).

Lemma names_below rel n : t !! (root ++ rel) = Some n → Forall plainName rel.
Proof. intros H. by apply Hnames, Forall_app in H as [_ ?]. Qed.

Lemma entry_inj src rel rel' n n' : rel ≠ [] → rel' ≠ [] → t !! (root ++ rel) = Some n → t !! (root ++ rel') = Some n' →
  Path (entryOfNode src rel n) = Path (entryOfNode src rel' n') → rel = rel' ∧ n = n'.
Proof.
  intros H1 H2 Hn Hn' E. assert (rel = rel') as ->; [|by simplify_eq]. apply JoinSlash_inj; [done|done|by eapply names_below|by eapply names_below|]. by destruct n, n'.
Qed.

Lemma walkDir_NoDup src fuel : ∀ rel, NoDup (walkDir fuel t root m src rel).
Proof.
  induction fuel as [|fuel IH]; intros rel; [constructor|]. cbn [walkDir].
  assert (Hbody : ∀ c y, y ∈ match t !! (root ++ rel ++ [c]) with
                         | Some n => if IsExcludedPath m (JoinSlash (rel ++ [c])) (isDirNode n) then [] else entryOfNode src (rel ++ [c]) n :: (if isDirNode n then walkDir fuel t root m src (rel ++ [c]) else [])
                         | None => [] end → ∃ ext n, t !! (root ++ rel ++ c :: ext) = Some n ∧ y = entryOfNode src (rel ++ c :: ext) n).
  { intros c y Hy. destruct (t !! (root ++ rel ++ [c])) as [n|] eqn:En; [|by apply elem_of_nil in Hy]. destruct (IsExcludedPath _ _ _); [by apply elem_of_nil in Hy|].
    apply elem_of_cons in Hy as [->|Hy]; [by exists [], n|]. destruct (isDirNode n); [|by apply elem_of_nil in Hy]. apply walkDir_spec in Hy as (ext & n' & _ & _ & (H1 & _) & ->).
    exists ext, n'. rewrite <- !app_assoc in *. done. }
  apply NoDup_bind; [| |apply namesIn_NoDup].
  - intros c c' y _ _ (ext & n & Hn & ->)%Hbody (ext' & n' & Hn' & E)%Hbody.
    destruct (entry_inj src (rel ++ c :: ext) (rel ++ c' :: ext') n n') as [E' _]; [by destruct rel|by destruct rel|done|done|by rewrite E|]. by simplify_eq.
  - intros c _. fold (isDirNode). destruct (t !! (root ++ rel ++ [c])) as [n|] eqn:En; [|constructor]. fold (isDirNode n). destruct (IsExcludedPath _ _ _); [constructor|]. destruct (isDirNode n); [|repeat constructor; by intros ?%elem_of_nil].
    constructor; [|apply IH]. intros (ext & n' & Hne & _ & (H1 & _) & E)%walkDir_spec.
    destruct (entry_inj src (rel ++ [c]) ((rel ++ [c]) ++ ext) n n') as [E' _]; [by destruct rel|by destruct rel|done|by rewrite <- !app_assoc in *|by rewrite E|].
    apply (f_equal length) in E'. rewrite !length_app in E'. destruct ext; [done|cbn in E'; lia].
Qed.

Lemma walk_paths_NoDup src : NoDup (Path <$> walkDir (S (treeDepth t)) t root m src []).
Proof.
  apply NoDup_fmap_2_strong; [|apply walkDir_NoDup]. intros f g (rel & n & Hne & [Hn _ _] & ->)%walk_listed (rel' & n' & Hne' & [Hn' _ _] & ->)%walk_listed E.
  destruct (entry_inj src rel rel' n n' Hne Hne' Hn Hn' E) as [-> ->]. done.
Qed.
End walk.

(** ** Ranges of the stream *)

(** An entry with its range: files with data get one, others keep none. *)
Definition ranged (g f : FileEntry) : Prop := if hasData f then ∃ o, g = withRange f o (Size f) else g = f.

Lemma assignOffsets_ranged fs : ∀ off, Forall2 ranged (assignOffsets off fs).1 fs.
Proof.
  induction fs as [|f fs IH]; intros off; [constructor|]. cbn [assignOffsets]. unfold ranged at 1. destruct (hasData f) eqn:Ed.
  - specialize (IH (off + Size f)). destruct (assignOffsets (off + Size f) fs) as [gs e]. constructor; [|done]. unfold ranged. rewrite Ed. eauto.
  - specialize (IH off). destruct (assignOffsets off fs) as [gs e]. constructor; [|done]. unfold ranged. by rewrite Ed.
Qed.

Lemma hasData_withRange f o n : hasData (withRange f o n) = hasData f.
Proof. done. Qed.

(** The files of a list with assigned ranges lie in its stream, end to end. *)
Lemma assign_stream t sources fs : Forall (λ f, 0 ≤ Size f) fs → ∀ off refs, 0 ≤ off → fileRefs sources (assignOffsets off fs).1 = Some refs →
  (assignOffsets off fs).2 = off + len (streamOf t refs) ∧ Forall (λ ref, 0 < ref_streamLen ref) refs ∧
  ∀ g, g ∈ (assignOffsets off fs).1 → hasData g = true → ∃ src, 0 ≤ SourceIndex g ∧ sources !! Z.to_nat (SourceIndex g) = Some src ∧ off ≤ StreamOffset g ∧ StreamLength g = Size g ∧ 0 < Size g ∧
    StreamOffset g + StreamLength g ≤ off + len (streamOf t refs) ∧
    sub (streamOf t refs) (Z.to_nat (StreamOffset g - off)) (Z.to_nat (StreamLength g)) = padded (Size g) (contentAt t (JoinPath src (Path g))).
Proof.
  induction 1 as [|f fs Hf Hfs IH]; intros off refs Ho; cbn [assignOffsets].
  - cbn. intros [= <-]. cbn. split; [lia|]. split; [constructor|]. by intros g ?%elem_of_nil.
  - destruct (hasData f) eqn:Ed.
    + specialize (IH (off + Size f)). destruct (assignOffsets (off + Size f) fs) as [gs e]. cbn [fst snd fileRefs] in *. rewrite hasData_withRange, Ed. cbn [SourceIndex withRange Path StreamLength].
      destruct (SourceIndex f <? 0) eqn:Es; [done|]. apply Z.ltb_ge in Es. cbn [mbind option_bind]. destruct (sources !! Z.to_nat (SourceIndex f)) as [src|] eqn:Esrc; [|done]. cbn [mbind option_bind].
      destruct (fileRefs sources gs) as [refs'|] eqn:Er; [|done]. cbn [mbind option_bind]. intros [= <-]. destruct (IH refs' ltac:(lia) eq_refl) as (He & Hp & Hg).
      assert (Hpos : 0 < Size f). { unfold hasData in Ed. rewrite negb_true_iff, !orb_false_iff in Ed. destruct Ed as [_ Ed]. apply Z.eqb_neq in Ed. lia. }
      set (first := padded (Size f) (contentAt t (JoinPath src (Path f)))).
      assert (Hst : streamOf t (mkFileRef (JoinPath src (Path f)) (Size f) :: refs') = first ++ streamOf t refs') by done.
      assert (Hlf : len first = Size f) by (subst first; rewrite length_padded; lia). rewrite Hst, length_app. split; [lia|]. split; [constructor; done|].
      intros g [->|Hin]%elem_of_cons Hd.
      * exists src. cbn [SourceIndex StreamOffset StreamLength Size Path withRange]. split_and!; try done; try lia. rewrite Z.sub_diag. unfold sub. change (Z.to_nat 0) with 0%nat. rewrite drop_0, take_app_le, take_ge by lia. done.
      * destruct (Hg g Hin Hd) as (src' & H1 & H2 & H3 & H4 & H5 & H6 & H7). exists src'. split_and!; try done; try lia. rewrite <- H7. unfold sub. f_equal. rewrite drop_app_ge by lia. f_equal. lia.
    + specialize (IH off). destruct (assignOffsets off fs) as [gs e]. cbn [fst snd fileRefs] in *. rewrite Ed. intros Hr. destruct (IH refs Ho Hr) as (He & Hp & Hg). split; [done|]. split; [done|].
      intros g [->|Hin]%elem_of_cons Hd; [congruence|eauto].
Qed.

(** ** The whole walk *)

Lemma Forall2_elem_l {A B} (P : A → B → Prop) l k x : Forall2 P l k → x ∈ l → ∃ y, y ∈ k ∧ P x y.
Proof. intros H [i Hi]%list_elem_of_lookup. destruct (Forall2_lookup_l _ _ _ _ _ H Hi) as (y & Hy & ?). exists y. split; [by eapply list_elem_of_lookup_2|done]. Qed.
Lemma Forall2_elem_r {A B} (P : A → B → Prop) l k y : Forall2 P l k → y ∈ k → ∃ x, x ∈ l ∧ P x y.
Proof. intros H [i Hi]%list_elem_of_lookup. destruct (Forall2_lookup_r _ _ _ _ _ H Hi) as (x & Hx & ?). exists x. split; [by eapply list_elem_of_lookup_2|done]. Qed.

Section catalog.
Context (t : tree) (m : Matcher) (Hnames : ∀ q n, t !! q = Some n → Forall plainName q).

(** An entry of the [i]-th source. *)
Definition entryOfSource (sources : list path) (f : FileEntry) : Prop :=
  ∃ i root rel n, sources !! i = Some root ∧ rel ≠ [] ∧ listed t root m rel n ∧ f = entryOfNode (Z.of_nat i) rel n.
Definition fileKey (f : FileEntry) : Z * bytes := (SourceIndex f, Path f).

Lemma entry_source src rel n : SourceIndex (entryOfNode src rel n) = src.
Proof. by destruct n. Qed.

Lemma walkSources_ok sources : ∀ k fs, walkSources t m (Z.of_nat k) sources = Ok fs →
  (∀ f, f ∈ fs ↔ ∃ i root rel n, sources !! i = Some root ∧ rel ≠ [] ∧ listed t root m rel n ∧ f = entryOfNode (Z.of_nat (k + i)) rel n) ∧ NoDup (fileKey <$> fs).
Proof.
  induction sources as [|root sources IH]; intros k fs; cbn [walkSources].
  - intros [= <-]. split; [|constructor]. intros f. split; [by intros ?%elem_of_nil|]. by intros (i & root & rel & n & ? & _).
  - destruct (IsDirAt t root); [|destruct (t !! root); done]. replace (Z.of_nat k + 1) with (Z.of_nat (S k)) by lia. destruct (walkSources t m (Z.of_nat (S k)) sources) as [rest|] eqn:Er; [|done].
    cbn [rbind]. intros [= <-]. destruct (IH (S k) rest Er) as [Hin Hnd].
    assert (Hall : ∀ f, f ∈ walkDir (S (treeDepth t)) t root m (Z.of_nat k) [] ++ rest ↔
      ∃ i root' rel n, (root :: sources) !! i = Some root' ∧ rel ≠ [] ∧ listed t root' m rel n ∧ f = entryOfNode (Z.of_nat (k + i)) rel n).
    { intros f. rewrite elem_of_app, walk_listed, Hin. split.
      - intros [(rel & n & ? & ? & ->)|(i & root' & rel & n & ? & ? & ? & ->)]; [exists 0%nat, root, rel, n; by rewrite Nat.add_0_r|].
        exists (S i), root', rel, n. by rewrite Nat.add_succ_r.
      - intros ([|i] & root' & rel & n & Hi & ? & ? & ->); [left; exists rel, n; cbn in Hi; simplify_eq; by rewrite Nat.add_0_r|].
        right. exists i, root', rel, n. by rewrite Nat.add_succ_r. }
    split; [exact Hall|]. rewrite fmap_app. apply NoDup_app. split; [|split; [|done]].
    + pose proof (walk_paths_NoDup t root m Hnames (Z.of_nat k)) as Hp. apply (NoDup_fmap_1 snd). by rewrite <- list_fmap_compose.
    + intros key (f & -> & (rel & n & _ & _ & ->)%walk_listed)%list_elem_of_fmap (g & E & (i & root' & rel' & n' & _ & _ & _ & ->)%Hin)%list_elem_of_fmap.
      unfold fileKey in E. rewrite !entry_source in E. injection E as E _. lia.
Qed.

Lemma ranged_key g f : ranged g f → fileKey g = fileKey f ∧ hasData g = hasData f.
Proof. unfold ranged. destruct (hasData f) eqn:E; [intros [o ->]; by rewrite hasData_withRange|by intros ->]. Qed.

Lemma ranged_keys gs fs : Forall2 ranged gs fs → fileKey <$> gs = fileKey <$> fs.
Proof. induction 1 as [|g f gs fs Hr _ IH]; [done|]. cbn. by rewrite IH, (proj1 (ranged_key _ _ Hr)). Qed.

Lemma fileRefs_ok sources gs : (∀ g, g ∈ gs → hasData g = true → 0 ≤ SourceIndex g ∧ is_Some (sources !! Z.to_nat (SourceIndex g))) → ∃ refs, fileRefs sources gs = Some refs ∧
  ∀ ref, ref ∈ refs → ∃ g src, g ∈ gs ∧ hasData g = true ∧ sources !! Z.to_nat (SourceIndex g) = Some src ∧ ref = mkFileRef (JoinPath src (Path g)) (StreamLength g).
Proof.
  induction gs as [|g gs IH]; intros Hg; [exists []; split; [done|by intros ref ?%elem_of_nil]|]. destruct IH as (refs & Hr & Hrefs); [intros; apply Hg; [by right|done]|].
  cbn [fileRefs]. destruct (hasData g) eqn:Ed.
  - destruct (Hg g ltac:(left) Ed) as [Hs [src Hsrc]]. rewrite (proj2 (Z.ltb_ge _ _)), Hsrc, Hr by done. cbn. eexists. split; [done|].
    intros ref [->|Hin]%elem_of_cons; [exists g, src; split; [left|done]|]. destruct (Hrefs ref Hin) as (g' & src' & ? & ?). exists g', src'. split; [by right|done].
  - exists refs. split; [done|]. intros ref Hin. destruct (Hrefs ref Hin) as (g' & src' & ? & ?). exists g', src'. split; [by right|done].
Qed.

Lemma node_data src rel n : hasData (entryOfNode src rel n) = true → ∃ d mode mt, n = NFile d mode mt ∧ Size (entryOfNode src rel n) = len d.
Proof. destruct n; cbn; [eauto|done|done]. Qed.

Lemma JoinPath_entry root src rel n : rel ≠ [] → t !! (root ++ rel) = Some n → JoinPath root (Path (entryOfNode src rel n)) = root ++ rel.
Proof.
  intros Hne Hn. replace (Path (entryOfNode src rel n)) with (JoinSlash rel) by by destruct n. apply JoinPath_plain; [done|]. by apply Hnames, Forall_app in Hn as [_ ?].
Qed.

Lemma JoinPath_ranged root src rel n g : rel ≠ [] → t !! (root ++ rel) = Some n → ranged g (entryOfNode src rel n) → JoinPath root (Path g) = root ++ rel.
Proof. intros Hne Hn [[= _ Hp] _]%ranged_key. rewrite Hp. by apply JoinPath_entry. Qed.

Lemma walk_catalog sources c : Walk t m sources = Ok c →
  (∀ f, entryOfSource sources f → ∃ g, g ∈ cat_Files c ∧ ranged g f) ∧ (∀ g, g ∈ cat_Files c → ∃ f, entryOfSource sources f ∧ ranged g f) ∧ NoDup (fileKey <$> cat_Files c) ∧
  ∃ r, NewMultiFileReader c = Some r ∧ reader_ok t r ∧ cat_TotalSize c = len (restOf t r) ∧
    ∀ g, g ∈ cat_Files c → hasData g = true → ∃ root d, sources !! Z.to_nat (SourceIndex g) = Some root ∧ fileData t (JoinPath root (Path g)) = Some d ∧
      0 ≤ StreamOffset g ∧ StreamOffset g + StreamLength g ≤ len (restOf t r) ∧ sub (restOf t r) (Z.to_nat (StreamOffset g)) (Z.to_nat (StreamLength g)) = d.
Proof.
  unfold Walk. destruct (walkSources t m 0 sources) as [fs|] eqn:Ew; [|done]. cbn [rbind]. destruct (walkSources_ok sources 0 fs Ew) as [Hin Hnd].
  assert (Hin' : ∀ f, f ∈ merge_sort catalog_le fs ↔ entryOfSource sources f) by (intros f; rewrite merge_sort_Permutation; apply Hin).
  pose proof (assignOffsets_ranged (merge_sort catalog_le fs) 0) as Hra. pose proof (assign_stream t sources (merge_sort catalog_le fs)) as Hst.
  destruct (assignOffsets 0 (merge_sort catalog_le fs)) as [gs total] eqn:Ea. intros [= <-]. cbn [cat_Files cat_TotalSize NewMultiFileReader cat_SourcePaths fst snd] in *.
  assert (Hgf : ∀ g, g ∈ gs → ∃ f, entryOfSource sources f ∧ ranged g f).
  { intros g Hg. destruct (Forall2_elem_l _ _ _ g Hra Hg) as (f & Hf & Hr). exists f. split; [by apply Hin'|done]. }
  split; [|split; [done|split]].
  - intros f Hf%Hin'. destruct (Forall2_elem_r _ _ _ f Hra Hf) as (g & ? & ?). eauto.
  - rewrite (ranged_keys _ _ Hra). by rewrite merge_sort_Permutation.
  - destruct (fileRefs_ok sources gs) as (refs & Hrefs & Hel).
    { intros g Hg _. destruct (Hgf g Hg) as (f & (i & root & rel & n & Hi & _ & _ & ->) & [[= Hs _] _]%ranged_key). rewrite Hs, entry_source, Nat2Z.id, Hi. split; [lia|done]. }
    destruct (Hst) with (off := 0) (refs := refs) as (Htot & Hpos & Hrng); [|lia|by rewrite Ea|].
    { apply Forall_forall. intros f (i & root & rel & n & _ & _ & _ & ->)%Hin'. destruct n; cbn; lia. }
    rewrite Ea in Htot, Hrng. cbn [fst snd] in Htot, Hrng.
    assert (Hdata : ∀ g src, g ∈ gs → hasData g = true → sources !! Z.to_nat (SourceIndex g) = Some src → ∃ d, fileData t (JoinPath src (Path g)) = Some d ∧ Size g = len d).
    { intros g src Hg Hd Hsrc. destruct (Hgf g Hg) as (f & (i & root & rel & n & Hi & Hne & [Hn _ _] & ->) & Hr). pose proof (ranged_key _ _ Hr) as [[= Hs _] Hd'].
      rewrite Hs, entry_source, Nat2Z.id, Hi in Hsrc. simplify_eq. rewrite (JoinPath_ranged src _ rel n) by done. rewrite Hd in Hd'. destruct (node_data _ _ _ (eq_sym Hd')) as (d & mode & mt & -> & Hsz).
      exists d. unfold fileData. rewrite Hn. split; [done|]. rewrite <- Hsz. unfold ranged in Hr. rewrite <- Hd' in Hr. by destruct Hr as [o ->]. }
    unfold NewMultiFileReader. cbn [cat_SourcePaths cat_Files cat_TotalSize]. rewrite Hrefs. cbn [mbind option_bind]. eexists. split; [done|].
    assert (Hrest : restOf t (mkReader refs total 0 None 0 0) = streamOf t refs) by done. rewrite Hrest. split; [|split; [cbn [snd] in Htot; lia|]].
    + split; cbn; [|done|done]. apply Forall_forall. intros ref Hr. rewrite Forall_forall in Hpos. split; [auto|]. destruct (Hel ref Hr) as (g & src & Hg & Hd & Hsrc & ->).
      destruct (Hdata g src Hg Hd Hsrc) as (d & Hfd & _). cbn. by rewrite Hfd.
    + intros g Hg Hd. destruct (Hrng g Hg Hd) as (src & _ & Hsrc & H1 & H2 & H3 & H4 & H5). destruct (Hdata g src Hg Hd Hsrc) as (d & Hfd & Hsz).
      exists src, d. split; [done|]. split; [done|]. split; [done|]. split; [lia|]. rewrite Z.sub_0_r in H5. rewrite H5. unfold contentAt. rewrite Hfd. cbn [default from_option id]. rewrite padded_full by lia. rewrite Hsz, take_ge by lia. done.
Qed.

(** C19. A walk lists exactly what it keeps, and its stream is its files: a catalog has one
    entry for every node of its sources that no pattern excludes and that lies in no
    excluded directory, and no other; its reader opens, the stream it reads is as long as
    the catalog says, and the range of every file holds exactly its bytes. *)
Theorem walk_lists_kept sources c : Walk t m sources = Ok c →
  (∀ f, entryOfSource sources f → ∃ g, g ∈ cat_Files c ∧ ranged g f) ∧ (∀ g, g ∈ cat_Files c → ∃ f, entryOfSource sources f ∧ ranged g f) ∧ NoDup (fileKey <$> cat_Files c) ∧
  ∃ r, NewMultiFileReader c = Some r ∧ reader_ok t r ∧ cat_TotalSize c = len (restOf t r) ∧
    ∀ g, g ∈ cat_Files c → hasData g = true → ∃ root d, sources !! Z.to_nat (SourceIndex g) = Some root ∧ fileData t (JoinPath root (Path g)) = Some d ∧
      0 ≤ StreamOffset g ∧ StreamOffset g + StreamLength g ≤ len (restOf t r) ∧ sub (restOf t r) (Z.to_nat (StreamOffset g)) (Z.to_nat (StreamLength g)) = d.
Proof. apply walk_catalog. Qed.
End catalog.

(** ** A small walk *)

Definition tripMatcher : Matcher := NewMatcher [[120]].
Definition tripFiles : list FileEntry :=
  [ mkFile [100] 0 0 448 (Some 4) true false [] 0 0 (zeros 32) false [] [] [] false;
    mkFile [100; 47; 102] 0 10 420 (Some 5) false false [] 0 10 (zeros 32) false [] [] [] false;
    mkFile [108] 0 0 511 None false true [100; 47; 102] 0 0 (zeros 32) false [] [] [] false ].
Definition tripCatalog : Catalog := mkCat [[[115]]] tripFiles 10.

Lemma trip_walk : Walk tripTree tripMatcher [[[115]]] = Ok tripCatalog.
Proof. vm_compute. reflexivity. Qed.

Lemma trip_names q n : tripTree !! q = Some n → Forall plainName q.
Proof.
  intros H. assert (Hall : Forall (λ q, Forall plainName q) (elements (dom tripTree))) by (apply (bool_decide_eq_true_1 _); vm_compute; reflexivity).
  rewrite Forall_forall in Hall. apply Hall, elem_of_elements, elem_of_dom. by exists n.
Qed.

Lemma walk_lists_kept_witness : ∃ r, NewMultiFileReader tripCatalog = Some r ∧ NoDup (fileKey <$> tripFiles) ∧ cat_TotalSize tripCatalog = len (restOf tripTree r) ∧ len (restOf tripTree r) = 10.
Proof.
  destruct (walk_lists_kept tripTree tripMatcher trip_names [[[115]]] tripCatalog trip_walk) as (_ & _ & Hnd & r & Hr & _ & Ht & _).
  exists r. split; [exact Hr|]. split; [exact Hnd|]. split; [exact Ht|]. rewrite <- Ht. reflexivity.
Defined.
