(* ===== verification/FileExclude.v ===== *)
(** * filemode: what exclusions mean

    Patterns with double stars match what their reading says; a repository that lies below
    a source is not walked, provided its name is plain; where the pattern that keeps it out
    does less or more than that. *)

From S2P Require Import Chunker.
From S2P Require Import Prelude GoBytes GoFiles GoPath Hashes PackStore RepoConfig.
From S2P Require Import Dnm FileMode FileStream FileWalk.

(** ** Double stars *)

(** A path matches when its components can be dealt out: one to each pattern, any number to
    a double star. *)
Inductive globbed : list bytes → list bytes → Prop :=
| globbed_nil : globbed [] []
| globbed_stars pre pats segs : globbed pats segs → globbed (twoStars :: pats) (pre ++ segs)
| globbed_one p s pats segs : p ≠ twoStars → matches p s = true → globbed pats segs → globbed (p :: pats) (s :: segs).

Lemma elem_of_suffixes {A} (l k : list A) : k ∈ suffixes l ↔ ∃ pre, l = pre ++ k.
Proof.
  induction l as [|x l IH]; cbn [suffixes].
  - rewrite list_elem_of_singleton. split; [intros ->; by exists []|]. intros (pre & E). by destruct pre, k.
  - rewrite elem_of_cons, IH. split.
    + intros [->|(pre & ->)]; [by exists []|by exists (x :: pre)].
    + intros ([|y pre] & E); [by left|right]. injection E as -> ->. by exists pre.
Qed.

(** C22. Double stars: a pattern with double stars matches a path exactly when the components
    of the path can be dealt out to the components of the pattern, any number of them,
    none included, to each double star. *)
Theorem double_stars_match pats : ∀ segs, matchGlobRecursive pats segs = true ↔ globbed pats segs.
Proof.
  induction pats as [|p pats IH]; intros segs; cbn [matchGlobRecursive].
  - rewrite bool_decide_eq_true. split; [intros ->; constructor|by inversion 1].
  - case_bool_decide as Ep.
    + subst p. assert (Hs : existsb (matchGlobRecursive pats) (suffixes segs) = true ↔ globbed (twoStars :: pats) segs).
      { rewrite existsb_exists. split.
        - intros (k & Hk%list_elem_of_In%elem_of_suffixes & Hm). destruct Hk as (pre & ->). constructor. by apply IH.
        - inversion 1 as [|pre pats' k Hg|]; [subst|done]. exists k. split; [apply list_elem_of_In, elem_of_suffixes; by exists pre|by apply IH]. }
      destruct pats as [|q pats]; [|exact Hs]. split; [|done]. intros _. rewrite <- (app_nil_r segs). constructor. constructor.
    + destruct segs as [|s segs]; [split; [done|by inversion 1 as [|[|] ? ? ? |]]|]. rewrite andb_true_iff, IH. split; [intros [? ?]; by constructor|].
      inversion 1 as [|pre pats' k Hg|]; by subst.
Qed.

(** ** Names without metacharacters *)

Definition literalName (c : bytes) : Prop := Forall (λ x, x ≠ cStar ∧ x ≠ cQuery ∧ x ≠ cOpen ∧ x ≠ cEsc) c.
#[export] Instance literalName_dec c : Decision (literalName c).
Proof. unfold literalName. apply _. Defined.

Lemma matchChunk_failed c : literalName c → ∀ fuel, (length c < fuel)%nat → matchChunk fuel c None = Some None.
Proof. induction 1 as [|x c (H1 & H2 & H3 & H4) Hc IH]; intros [|fuel] Hf; cbn in Hf; [lia|done|lia|]. cbn [matchChunk]. rewrite !(proj2 (Z.eqb_neq _ _)) by done. cbn. apply IH. lia. Qed.

Lemma matchChunk_literal c : literalName c → ∀ fuel s, (length c < fuel)%nat → matchChunk fuel c (Some s) = Some (if bool_decide (c `prefix_of` s) then Some (drop (length c) s) else None).
Proof.
  induction 1 as [|x c (H1 & H2 & H3 & H4) Hc IH]; intros [|fuel] s Hf; cbn in Hf; [lia| |lia|].
  - cbn. by rewrite bool_decide_eq_true_2 by apply prefix_nil.
  - cbn [matchChunk]. rewrite !(proj2 (Z.eqb_neq _ _)) by done. destruct s as [|y s].
    + cbn. rewrite matchChunk_failed by (done || lia). by rewrite bool_decide_eq_false_2 by apply prefix_nil_not.
    + cbn. destruct (decide (y = x)) as [->|Hne].
      * rewrite bool_decide_eq_true_2 by done. cbn. rewrite IH by lia. destruct (decide (c `prefix_of` s)) as [Hp|Hp].
        -- rewrite !bool_decide_eq_true_2; [done| |done]. by apply prefix_cons.
        -- rewrite !bool_decide_eq_false_2; [done| |done]. by intros ?%prefix_cons_inv_2.
      * rewrite (bool_decide_eq_false_2 (Some y = Some x)) by congruence. rewrite matchChunk_failed by (done || lia). rewrite bool_decide_eq_false_2; [done|]. intros E%prefix_cons_inv_1. congruence.
Qed.

(** A name without metacharacters matches itself and nothing else. *)
Lemma matches_literal c s : c ≠ [] → literalName c → matches c s = bool_decide (s = c).
Proof.
  intros Hne Hc. assert (Hlen : chunkLen c false = length c).
  { clear Hne. induction Hc as [|x c (H1 & H2 & H3 & H4) Hc IH]; [done|]. cbn. rewrite !(proj2 (Z.eqb_neq _ _)) by done. destruct (x =? cClose); cbn; by rewrite IH. }
  assert (Hds : dropStars c = (false, c)) by (destruct Hc as [|x c (H1 & _) _]; [done|]; cbn; by rewrite (proj2 (Z.eqb_neq _ _))).
  unfold matches, Match. cbn [matchLoop]. destruct c as [|x c]; [done|]. unfold scanChunk. rewrite Hds, Hlen, take_ge, drop_ge by lia. cbn [andb]. unfold chunkMatch. rewrite matchChunk_literal by (done || lia).
  cbn [mbind option_bind]. destruct (decide (x :: c `prefix_of` s)) as [[k ->]|Hp].
  - rewrite (bool_decide_eq_true_2 (x :: c `prefix_of` _)) by by exists k. rewrite drop_app_exact by done. cbn [length]. destruct k as [|y k].
    + rewrite app_nil_r, !bool_decide_eq_true_2 by done. done.
    + rewrite (bool_decide_eq_false_2 (y :: k = [])) by done. cbn. rewrite bool_decide_eq_false_2; [done|]. intros E. apply (f_equal length) in E. cbn in E. rewrite length_app in E. cbn in E. lia.
  - rewrite (bool_decide_eq_false_2 (x :: c `prefix_of` s)) by done. cbn. rewrite bool_decide_eq_false_2; [done|]. by intros ->.
Qed.

(** ** The repository below a source *)

Lemma JoinSlash_cons c d (p : path) : JoinSlash (c :: d :: p) = c ++ slash :: JoinSlash (d :: p).
Proof. done. Qed.

Lemma Rel_below src r : Rel src (src ++ r) = r.
Proof. induction src as [|c src IH]; [by destruct r|]. cbn. by rewrite bool_decide_eq_true_2. Qed.

Lemma TrimSpace_slashes s : TrimSpaceBytes ([slash] ++ s ++ [slash]) = [slash] ++ s ++ [slash].
Proof.
  unfold TrimSpaceBytes. change (dropSpaces ([slash] ++ s ++ [slash])) with ([slash] ++ s ++ [slash]). rewrite !reverse_app. change (reverse [slash]) with [slash].
  change (dropSpaces (([slash] ++ reverse s) ++ [slash])) with (([slash] ++ reverse s) ++ [slash]). rewrite !reverse_app, reverse_involutive. change (reverse [slash]) with [slash]. done.
Qed.

Lemma parse_rooted s : parsePattern ([slash] ++ s ++ [slash]) = Some (mkPattern ([slash] ++ s ++ [slash]) false true true (SplitSlash s) (bool_decide (twoStars ∈ SplitSlash s))).
Proof.
  unfold parsePattern. rewrite TrimSpace_slashes. change ([slash] ++ s ++ [slash]) with (slash :: s ++ [slash]). cbv beta iota zeta. change (slash =? 35) with false. change (slash =? 33) with false. cbv iota.
  assert (Hsuf : ∀ k, HasSuffix (k ++ [slash]) [slash] = true) by (intros k; apply bool_decide_eq_true_2; by exists k).
  change (slash :: s ++ [slash]) with ((slash :: s) ++ [slash]). rewrite Hsuf. unfold TrimSuffix. rewrite Hsuf, length_app, take_app_le, take_ge by (cbn; lia).
  assert (Hpre : HasPrefix (slash :: s) [slash] = true) by (apply bool_decide_eq_true_2; by exists s). unfold TrimPrefix. by rewrite Hpre.
Qed.

Lemma literal_prefix pats ext : Forall (λ c, c ≠ [] ∧ literalName c) pats → matchSegments pats (pats ++ ext) = true.
Proof.
  intros Hp. unfold matchSegments. rewrite (proj2 (Nat.ltb_ge _ _)) by (rewrite length_app; lia). induction Hp as [|c pats [Hne Hl] _ IH]; [by destruct ext|].
  cbn [matchSegmentsAt app]. by rewrite matches_literal, bool_decide_eq_true_2, IH.
Qed.

Lemma excluded_last m ps p rel : p ∈ ps → Forall (λ p, pt_negate p = false) ps → matchPattern p rel = true → IsExcludedPath (m ++ ps) rel true = true.
Proof.
  intros Hp Hn Hm. unfold IsExcludedPath. rewrite foldl_app. generalize (foldl (λ excluded p, if pt_dirOnly p && negb true then excluded else if matchPattern p rel then negb (pt_negate p) else excluded) false m).
  assert (Hstay : ∀ ps, Forall (λ p, pt_negate p = false) ps → foldl (λ excluded p, if pt_dirOnly p && negb true then excluded else if matchPattern p rel then negb (pt_negate p) else excluded) true ps = true).
  { induction 1 as [|q qs Hq _ IH]; [done|]. cbn. rewrite andb_false_r, Hq. by destruct (matchPattern q rel). }
  induction ps as [|q ps IH]; [by apply elem_of_nil in Hp|]. apply Forall_cons in Hn as [Hq Hn]. intros b. cbn. rewrite andb_false_r, Hq. apply elem_of_cons in Hp as [<-|Hp].
  - rewrite Hm. by apply Hstay.
  - by apply IH.
Qed.

(** The names of a repository the pattern can spell. *)
Definition spelled (r : path) : Prop := Forall (λ c, plainName c ∧ literalName c) r ∧ ¬ (dotdot `prefix_of` JoinSlash r).

Lemma repo_excluded m src r sources : r ≠ [] → spelled r → src ∈ sources → IsExcludedPath (Merge m (ExcludeRepoDir (src ++ r) sources)) (JoinSlash r) true = true.
Proof.
  intros Hne [Hr Hdd] Hsrc. set (pat := [slash] ++ JoinSlash r ++ [slash]).
  assert (Hin : pat ∈ omap (repoPattern (src ++ r)) sources).
  { apply list_elem_of_omap. exists src. split; [done|]. unfold repoPattern. rewrite Rel_below, bool_decide_eq_false_2 by done. unfold HasPrefix. by rewrite bool_decide_eq_false_2. }
  assert (Hneg : Forall (λ p, pt_negate p = false) (NewMatcher (omap (repoPattern (src ++ r)) sources))).
  { apply Forall_forall. intros p (x & Hx & Hp)%list_elem_of_omap. apply list_elem_of_omap in Hx as (src' & _ & Hx). unfold repoPattern in Hx.
    destruct (_ || _); [done|]. apply (inj Some) in Hx. subst x. rewrite parse_rooted in Hp. by injection Hp as <-. }
  unfold ExcludeRepoDir. destruct (omap (repoPattern (src ++ r)) sources) as [|x xs]; [by apply elem_of_nil in Hin|]. cbn [Merge].
  assert (Hseg : SplitSlash (JoinSlash r) = r) by (apply SplitSlash_Join; [done|]; eapply Forall_impl; [exact Hr|]; by intros c [(_ & ? & _) _]).
  eapply (excluded_last m _ (mkPattern pat false true true r (bool_decide (twoStars ∈ r)))); [|done|].
  - unfold NewMatcher. apply list_elem_of_omap. exists pat. split; [done|]. unfold pat. by rewrite parse_rooted, Hseg.
  - unfold matchPattern. rewrite Hseg. cbn [pt_hasGlob pt_segments pt_anchored]. rewrite bool_decide_eq_false_2.
    + assert (Hm : matchSegments r r = true) by (rewrite <- (app_nil_r r) at 2; apply literal_prefix; eapply Forall_impl; [exact Hr|]; by intros c [[? _] ?]). destruct r as [|c [|d r]]; done.
    + intros Hin2. rewrite Forall_forall in Hr. destruct (Hr _ Hin2) as [_ Hl]. apply Forall_cons in Hl as [[H _] _]. by apply H.
Qed.

Lemma SplitSlash_below r k : r ≠ [] → Forall plainName r → SplitSlash (JoinSlash r ++ slash :: k) = r ++ SplitSlash k.
Proof.
  intros Hne Hr. unfold SplitSlash. induction Hr as [|c r (_ & Hc & _) Hr IH]; [done|]. destruct r as [|d r]; [by apply SplitOn_app|].
  rewrite JoinSlash_cons, <- app_assoc. cbn [app]. rewrite SplitOn_app by done. by rewrite IH.
Qed.

(** The path [p] is that of [r] or of something in it. *)
Definition within (p : bytes) (r : path) : Prop := p = JoinSlash r ∨ (JoinSlash r ++ [slash]) `prefix_of` p.

Lemma within_prefix r rel : r ≠ [] → rel ≠ [] → Forall plainName r → Forall plainName rel → within (JoinSlash rel) r → r `prefix_of` rel.
Proof.
  intros Hr Hne Hpr Hp [E|[k E]].
  - rewrite (JoinSlash_inj rel r Hne Hr Hp Hpr E). done.
  - rewrite <- app_assoc in E. cbn [app] in E. exists (SplitSlash k). rewrite <- (SplitSlash_below r k Hr Hpr), <- E. symmetry. apply SplitSlash_Join; [done|]. eapply Forall_impl; [exact Hp|]. by intros c (_ & ? & _).
Qed.

(** C21. A backup never walks its own repository: when the repository is a directory below the
    [i]-th source, and its path there has no metacharacter and does not begin with two
    dots, then a walk of the sources with [ExcludeRepoDir] merged into any exclusions lists
    neither the repository nor anything in it: no entry of that source has its path or a
    path below it. *)
Theorem repository_not_walked t m src r sources i c : (∀ q n, t !! q = Some n → Forall plainName q) → r ≠ [] → spelled r → sources !! i = Some src → IsDirAt t (src ++ r) = true →
  Walk t (Merge m (ExcludeRepoDir (src ++ r) sources)) sources = Ok c → ∀ g, g ∈ cat_Files c → SourceIndex g = Z.of_nat i → ¬ within (Path g) r.
Proof.
  intros Hnames Hne Hs Hsrc Hd Hw g Hg Hi Hin. destruct (walk_catalog t _ Hnames sources c Hw) as (_ & Hall & _). destruct (Hall g Hg) as (f & (j & root & rel & n & Hj & Hrel & Hl & ->) & Hra).
  assert (Hkey : Path g = JoinSlash rel ∧ SourceIndex g = Z.of_nat j).
  { unfold ranged in Hra. destruct (hasData _); [destruct Hra as [o ->]|subst g]; by destruct n. }
  destruct Hkey as [Hpath Hsi]. rewrite Hpath in Hin. assert (j = i) as -> by lia. rewrite Hsrc in Hj. injection Hj as <-. destruct Hl as [Hn Hk Ha].
  pose proof (repo_excluded m src r sources Hne Hs ltac:(by eapply list_elem_of_lookup_2)) as Hex.
  destruct (within_prefix r rel Hne Hrel) as [ext ->]; [destruct Hs as [Hs _]; eapply Forall_impl; [exact Hs|]; by intros x [? _]|by apply Hnames, Forall_app in Hn as [_ ?]|done|]. destruct ext as [|x ext].
  - rewrite app_nil_r in *. unfold IsDirAt in Hd. destruct (src ++ r) as [|y p] eqn:E; [by destruct src|]. rewrite Hn in Hd. destruct n; try done. cbn in Hk. congruence.
  - destruct (Ha (length r)) as [_ Hx]; [rewrite length_app; destruct r; [done|cbn; lia]|]. rewrite take_app_exact in Hx by done. congruence.
Qed.

(** A source [s] with the repository [s/r] and a file [s/f]. *)
Definition repoIn (nm : bytes) : tree := {[ [[115]] := NDir 493 None; [[115]; nm] := NDir 493 None; [[115]; nm; [112]] := NFile [1] 420 None; [[115]; [102]] := NFile [2] 420 None ]}.
Definition pathsOf (r : result walk_err Catalog) : option (list bytes) := match r with Ok c => Some (Path <$> cat_Files c) | Err _ => None end.

Lemma repository_not_walked_witness : ∃ c, Walk (repoIn [114]) (Merge [] (ExcludeRepoDir [[115]; [114]] [[[115]]])) [[[115]]] = Ok c ∧ (Path <$> cat_Files c) = [[102]] ∧
  ∀ g, g ∈ cat_Files c → SourceIndex g = 0 → ¬ within (Path g) [[114]].
Proof.
  destruct (Walk (repoIn [114]) (Merge [] (ExcludeRepoDir [[115]; [114]] [[[115]]])) [[[115]]]) as [c|e] eqn:E; [|vm_compute in E; discriminate E]. exists c. split; [reflexivity|]. split.
  - vm_compute in E. injection E as <-. reflexivity.
  - apply (repository_not_walked (repoIn [114]) [] [[115]] [[114]] [[[115]]] 0 c).
    + intros q n H. assert (Hall : Forall (λ q, Forall plainName q) (elements (dom (repoIn [114])))) by (apply (bool_decide_eq_true_1 _); vm_compute; reflexivity).
      rewrite Forall_forall in Hall. apply Hall, elem_of_elements, elem_of_dom. by exists n.
    + discriminate.
    + split; [constructor; [split; apply (bool_decide_eq_true_1 _); vm_compute; reflexivity|constructor]|]. intros [k Ek]. discriminate Ek.
    + reflexivity.
    + reflexivity.
    + exact E.
Defined.

(** A repository whose name spells a class of characters, [r[1]], is walked. *)
Theorem bracketed_repository_walked :
  let repo := [[115]; [114; 91; 49; 93]] in
  pathsOf (Walk (repoIn [114; 91; 49; 93]) (Merge [] (ExcludeRepoDir repo [[[115]]])) [[[115]]]) = Some [[102]; [114; 91; 49; 93]; [114; 91; 49; 93; 47; 112]].
Proof. vm_compute. reflexivity. Qed.

(** So is one whose name starts with two dots, which is taken for one outside the source. *)
Theorem dotted_repository_walked :
  let repo := [[115]; [46; 46; 114]] in
  pathsOf (Walk (repoIn [46; 46; 114]) (Merge [] (ExcludeRepoDir repo [[[115]]])) [[[115]]]) = Some [[46; 46; 114]; [46; 46; 114; 47; 112]; [102]].
Proof. vm_compute. reflexivity. Qed.

(** With two sources, the pattern of the one that holds the repository [a/r] also leaves out
    the directory [b/r] of the other. *)
Theorem other_source_loses_directory :
  let t : tree := {[ [[97]] := NDir 493 None; [[97]; [114]] := NDir 493 None; [[98]] := NDir 493 None; [[98]; [114]] := NDir 493 None; [[98]; [114]; [102]] := NFile [2] 420 None ]} in
  pathsOf (Walk t (Merge [] (ExcludeRepoDir [[97]; [114]] [[[97]]; [[98]]])) [[[97]]; [[98]]]) = Some [].
Proof. vm_compute. reflexivity. Qed.
