(* ===== verification/BareMetal.v ===== *)
(** * bmr/bmr.go, bmr/fit.go: restoring and cloning whole disks

    A disk is restored member by member into its partitions, or cloned from another disk,
    where it was captured or where a fit plan puts it; boot structures and the regions
    between partitions complete it.  The target holds its full size, as a device does and as
    an image sized by its caller; a partition is a window of it.  What reads the target back
    is a function of the bytes it holds.  Cancellation, progress and log messages are left out. *)

From S2P Require Import Chunker.
From S2P Require Import Prelude GoBytes GoRuntime GoFiles Hashes HashTable HashIndex Crypto Dedup PackStore Preprocess RepoConfig Rebuild.
From S2P Require Import DiskLayout Fit Machine Dnm DnmAccess ManifestRepo Restore.

Inductive bmr_err :=
| BmMachine (e : machine_load_err) | BmDiskIndex | BmSmaller | BmNotCaptured (i : Z) | BmNotPlanned (i : Z)
| BmParse (e : layout_err) | BmRelocate (e : layout_err) | BmNotApplicable | BmOtherTarget | BmApply (e : apply_err)
| BmStagedLength | BmRead (off : Z) | BmWrite (off : Z) | BmZeros (off : Z) | BmNotStaged (i : Z) | BmNothingToStage (i : Z) | BmNoMember (i : Z)
| BmMeta (i : Z) (e : repo_err) | BmMemberSize (i : Z) | BmEntries (i : Z) (e : repo_err) | BmRestore (i : Z) (e : restore_err) | BmDigest (i : Z)
| BmRegion | BmPrimary | BmBackup | BmAux (i : Z) | BmSync | BmReadBack (i : Z) | BmDiffers (i : Z) | BmPanic.

(** ** The target *)

(** [partitionTarget], over the disk that is threaded. *)
Record partitionTarget := mkWindow { pt_base : Z; pt_length : Z }.
Definition ptWriteAt (t : Target) (p : partitionTarget) (d : bytes) (off : Z) : option Target :=
  if (off <? 0) || (pt_length p <? off + len d) then None else tgWriteAt t d (pt_base p + off).

(** The window as a restore target: its bytes, and the writes and sizes it takes. *)
Definition windowOf (t : Target) (p : partitionTarget) : Target :=
  mkTarget (sub (tg_data t) (Z.to_nat (pt_base p)) (Z.to_nat (pt_length p)))
    (λ off n, (off + n <=? pt_length p) && (0 <=? pt_base p + off) && tg_accepts t (pt_base p + off) n)
    (λ size, size <=? pt_length p) (tg_syncs t).
(** The disk once the window has been written. *)
Definition throughWindow (t : Target) (p : partitionTarget) (w : Target) : Target := withData t (WriteAt (tg_data t) (pt_base p) (tg_data w)).

(** The buffer of the copying loops. *)
Definition copyBuf : Z := Z.shiftl 1 20.
Definition copyLen (length off : Z) : Z := if length - off <? copyBuf then length - off else copyBuf.
Definition copyFuel (length : Z) : nat := S (Z.to_nat (Z.quot length copyBuf)).

Fixpoint zerosLoop (fuel : nat) (p : partitionTarget) (length off : Z) (t : Target) : Target * option bmr_err :=
  match fuel with
  | O => (t, None)
  | S fuel =>
      if off <? length then
        let n := copyLen length off in
        match ptWriteAt t p (zeros (Z.to_nat n)) off with
        | None => (t, Some (BmZeros off))
        | Some t => zerosLoop fuel p length (off + n) t
        end
      else (t, None)
  end.
Definition writeZeros (p : partitionTarget) (length : Z) (t : Target) : Target * option bmr_err := zerosLoop (copyFuel length) p length 0 t.

(** A section of [src] from [srcOff], copied; [h] is what the digest has absorbed. *)
Fixpoint copyLoop (fuel : nat) (p : partitionTarget) (src : bytes) (srcOff length off : Z) (h : bytes) (t : Target) : Target * result bmr_err bytes :=
  match fuel with
  | O => (t, Ok h)
  | S fuel =>
      if off <? length then
        let n := copyLen length off in
        match ReadAt src (srcOff + off) n with
        | None => (t, Err (BmRead off))
        | Some d =>
            match ptWriteAt t p d off with
            | None => (t, Err (BmWrite off))
            | Some t => copyLoop fuel p src srcOff length (off + n) (h ++ d) t
            end
        end
      else (t, Ok h)
  end.
Definition copyAt (p : partitionTarget) (src : bytes) (srcOff length : Z) (t : Target) : Target * result bmr_err bytes :=
  match copyLoop (copyFuel length) p src srcOff length 0 [] t with
  | (t, Ok h) => (t, Ok (Sum256 h))
  | (t, Err e) => (t, Err e)
  end.

(** Reading the target back: the section of [n] bytes at [off] as it arrives. *)
Definition readBack : Type := bytes → Z → Z → Reader.
Definition hashAt (rd : readBack) (t : Target) (off length : Z) : option bytes :=
  match limitCopy (rd (tg_data t) off length) length with
  | (_, Some _) => None
  | (d, None) => Some (Sum256 d)
  end.

(** ** Placement *)

(** [sm_Reader] is [None] for a nil reader. *)
Record StagedMember := mkStaged { sm_Reader : option bytes; sm_Length : Z }.
Record placement := mkPlacement { pl_base : Z; pl_length : Z; pl_oldLength : Z; pl_shrink : bool; pl_grow : bool }.

(** The last partition with the index. *)
Definition partitionOf (l : DiskLayout) (index : Z) : option Partition := last (filter (λ p, Index p = index) (Partitions l)).

Definition placementFor (l : DiskLayout) (fit : option FitPlan) (index : Z) : result bmr_err placement :=
  let ss := DiskLayout.SectorSize l in
  match partitionOf l index with
  | None => Err (BmNotCaptured index)
  | Some old =>
      match fit with
      | None => Ok (mkPlacement (Offset old ss) (Length old ss) (Length old ss) false false)
      | Some fit =>
          match PlanPartition fit index with
          | None => Err (BmNotPlanned index)
          | Some pp => Ok (mkPlacement (i64 (i64 (NewFirst pp) * ss)) (NewBytes pp ss) (Length old ss) (Shrink pp) (Grow pp))
          end
      end
  end.

Definition noPlan (fit : option FitPlan) : bool := match fit with None => true | Some _ => false end.
Definition bootStructures (d : DiskCapture) (fit : option FitPlan) (targetSize : Z) : result bmr_err (bytes * Z * bytes) :=
  match fit with
  | None => match RelocateGPT (dc_Layout d) (PrimaryGPT d) (BackupGPT d) targetSize with Ok x => Ok x | Err e => Err (BmRelocate e) end
  | Some fit =>
      if negb (Applicable fit) then Err BmNotApplicable
      else if negb (fp_TargetSize fit =? targetSize) then Err BmOtherTarget
      else match ApplyFit (dc_Layout d) fit (PrimaryGPT d) (BackupGPT d) with Ok x => Ok x | Err e => Err (BmApply e) end
  end.

Definition writeStaged (p : partitionTarget) (st : StagedMember) (length : Z) (t : Target) : Target * result bmr_err bytes :=
  match sm_Reader st with
  | Some r => if negb (sm_Length st =? length) then (t, Err BmStagedLength) else copyAt p r 0 length t
  | None => (t, Err BmStagedLength)
  end.

Fixpoint writeAux (i : Z) (regions : list Range) (bs : list bytes) (t : Target) : Target * option bmr_err :=
  match regions, bs with
  | [], _ => (t, None)
  | _ :: _, [] => (t, Some BmPanic)
  | r :: regions, b :: bs => match tgWriteAt t b (r_Offset r) with
                             | None => (t, Some (BmAux i))
                             | Some t => writeAux (i + 1) regions bs t
                             end
  end.

(** The boot structures and the auxiliary regions, written. *)
Definition writeBoot (d : DiskCapture) (boot : bytes * Z * bytes) (t : Target) : Target * option bmr_err :=
  let '(primary, backupOff, backupBytes) := boot in
  match tgWriteAt t primary (r_Offset (PrimaryRegion (dc_Layout d))) with
  | None => (t, Some BmPrimary)
  | Some t =>
      match (if 0 <? len backupBytes then tgWriteAt t backupBytes backupOff else Some t) with
      | None => (t, Some BmBackup)
      | Some t => writeAux 0 (AuxRegions (dc_Layout d)) (AuxBytes d) t
      end
  end.
Definition syncDisk (t : Target) : option bmr_err := if tg_syncs t then None else Some BmSync.

(** ** Restoring *)

Record RestoreDiskOptions := mkRestoreDisk {
  ro_Repo : dir; ro_SnapshotID : bytes; ro_DiskIndex : Z; ro_TargetSize : Z;
  ro_Index : DedupIndex; ro_Hooks : Hooks; ro_Normalizer : option Normalizer; ro_ReadAt : option readBack }.

Section restore.
Context {SS : SortSlice} {PR : Primitives} {ZS : Zstd} {MJ : MachineJSON} (parseJSON : bytes → option Backup).
Context (opts : RestoreDiskOptions).

Definition snapshotDisk : result bmr_err DiskCapture :=
  match LoadMachineManifest (ro_Repo opts) (ro_SnapshotID opts) with
  | Err e => Err (BmMachine e)
  | Ok m => if ro_DiskIndex opts <? 0 then Err BmDiskIndex else of_option BmDiskIndex (mm_Disks m !! Z.to_nat (ro_DiskIndex opts))
  end.

(** The digest read-back of one member; what cannot be read or has no digest is reported only. *)
Definition digestRefused (b : Backup) (rd : option readBack) (t : Target) (base length : Z) : bool :=
  match rd with
  | None => false
  | Some rd => match VerifyWrittenDigest b (rd (tg_data t) base length) with
               | Ok DigestMismatch => true
               | _ => false
               end
  end.

Definition restoreMember (mem : PartitionMember) (p : partitionTarget) (length : Z) (rd : option readBack) (rdBase : Z) (st : ChunkStore) (t : Target)
    : ChunkStore * Target * option bmr_err :=
  let i := pm_Index mem in
  match LoadMetadata parseJSON (ro_Repo opts) (pm_BackupID mem) with
  | Err e => (st, t, Some (BmMeta i e))
  | Ok b =>
      if negb (TotalBytes b =? length) then (st, t, Some (BmMemberSize i))
      else match NewEntryAccessor (ro_Repo opts) (pm_BackupID mem) with
           | Err e => (st, t, Some (BmEntries i e))
           | Ok ea =>
               let r := SetNormalizer (NewRestorer (ro_Index opts) st (ro_Hooks opts)) (ro_Normalizer opts) in
               match RestoreEntries r b ea (windowOf t p) with
               | (st, w, Err e) => (st, throughWindow t p w, Some (BmRestore i e))
               | (st, w, Ok _) => let t := throughWindow t p w in (st, t, if digestRefused b rd t rdBase length then Some (BmDigest i) else None)
               end
           end
  end.

Definition isSkipped (mem : PartitionMember) : bool := String.eqb (pm_Kind mem) "skipped".

Definition RestoreMemberTo (partitionIndex : Z) (rd : option readBack) (st : ChunkStore) (t : Target) : ChunkStore * Target * option bmr_err :=
  match snapshotDisk with
  | Err e => (st, t, Some e)
  | Ok d =>
      match list_find (λ mem, pm_Index mem = partitionIndex) (Members d) with
      | None => (st, t, Some (BmNoMember partitionIndex))
      | Some (_, mem) =>
          if isSkipped mem || bool_decide (pm_BackupID mem = []) then (st, t, Some (BmNothingToStage partitionIndex))
          else match placementFor (dc_Layout d) None (pm_Index mem) with
               | Err e => (st, t, Some e)
               | Ok pl => restoreMember mem (mkWindow 0 (pl_oldLength pl)) (pl_oldLength pl) rd 0 st t
               end
      end
  end.

(** One member of a restore into a plan. *)
Definition fitMember (d : DiskCapture) (fit : option FitPlan) (staged : gmap Z StagedMember) (mem : PartitionMember) (st : ChunkStore) (t : Target)
    : ChunkStore * Target * option bmr_err :=
  match placementFor (dc_Layout d) fit (pm_Index mem) with
  | Err e => (st, t, Some e)
  | Ok pl =>
      let p := mkWindow (pl_base pl) (pl_length pl) in
      if isSkipped mem then let '(t, e) := writeZeros p (pl_length pl) t in (st, t, e)
      else if pl_shrink pl then
        match staged !! pm_Index mem with
        | None => (st, t, Some (BmNotStaged (pm_Index mem)))
        | Some sm => match writeStaged p sm (pl_length pl) t with (t, Err e) => (st, t, Some e) | (t, Ok _) => (st, t, None) end
        end
      else
        match restoreMember mem (mkWindow (pl_base pl) (pl_oldLength pl)) (pl_oldLength pl) (ro_ReadAt opts) (pl_base pl) st t with
        | (st, t, Some e) => (st, t, Some e)
        | (st, t, None) =>
            if pl_grow pl && (pl_oldLength pl <? pl_length pl) then
              let n := pl_length pl - pl_oldLength pl in
              let '(t, e) := writeZeros (mkWindow (pl_base pl + pl_oldLength pl) n) n t in (st, t, e)
            else (st, t, None)
        end
  end.
Fixpoint fitMembers (d : DiskCapture) (fit : option FitPlan) (staged : gmap Z StagedMember) (mems : list PartitionMember) (st : ChunkStore) (t : Target)
    : ChunkStore * Target * option bmr_err :=
  match mems with
  | [] => (st, t, None)
  | mem :: mems => match fitMember d fit staged mem st t with
                   | (st, t, Some e) => (st, t, Some e)
                   | (st, t, None) => fitMembers d fit staged mems st t
                   end
  end.

Definition RestoreDiskFit (fit : option FitPlan) (staged : gmap Z StagedMember) (st : ChunkStore) (t : Target) : ChunkStore * Target * option bmr_err :=
  match snapshotDisk with
  | Err e => (st, t, Some e)
  | Ok d =>
      if noPlan fit && (ro_TargetSize opts <? DiskSize (dc_Layout d)) then (st, t, Some BmSmaller)
      else match fitMembers d fit staged (Members d) st t with
           | (st, t, Some e) => (st, t, Some e)
           | (st, t, None) =>
               match bootStructures d fit (ro_TargetSize opts) with
               | Err e => (st, t, Some e)
               | Ok boot => match writeBoot d boot t with
                            | (t, Some e) => (st, t, Some e)
                            | (t, None) => (st, t, syncDisk t)
                            end
               end
           end
  end.

(** One member of a restore in place.  A partition the layout does not have would be
    the zero partition, the first sector. *)
Definition diskMember (d : DiskCapture) (mem : PartitionMember) (st : ChunkStore) (t : Target) : ChunkStore * Target * option bmr_err :=
  let ss := DiskLayout.SectorSize (dc_Layout d) in
  let '(base, length) := match partitionOf (dc_Layout d) (pm_Index mem) with Some p => (Offset p ss, Length p ss) | None => (0, ss) end in
  let p := mkWindow base length in
  if isSkipped mem then let '(t, e) := writeZeros p length t in (st, t, e)
  else restoreMember mem p length (ro_ReadAt opts) base st t.
Fixpoint diskMembers (d : DiskCapture) (mems : list PartitionMember) (st : ChunkStore) (t : Target) : ChunkStore * Target * option bmr_err :=
  match mems with
  | [] => (st, t, None)
  | mem :: mems => match diskMember d mem st t with
                   | (st, t, Some e) => (st, t, Some e)
                   | (st, t, None) => diskMembers d mems st t
                   end
  end.

Definition RestoreDisk (st : ChunkStore) (t : Target) : ChunkStore * Target * option bmr_err :=
  match snapshotDisk with
  | Err e => (st, t, Some e)
  | Ok d =>
      if ro_TargetSize opts <? DiskSize (dc_Layout d) then (st, t, Some BmSmaller)
      else match RelocateGPT (dc_Layout d) (PrimaryGPT d) (BackupGPT d) (ro_TargetSize opts) with
           | Err e => (st, t, Some (BmRelocate e))
           | Ok boot =>
               match writeBoot d boot t with
               | (t, Some e) => (st, t, Some e)
               | (t, None) => match diskMembers d (Members d) st t with
                              | (st, t, Some e) => (st, t, Some e)
                              | (st, t, None) => (st, t, syncDisk t)
                              end
               end
           end
  end.
End restore.

(** ** Cloning *)

Record CloneDiskOptions := mkCloneDisk {
  co_Source : bytes; co_SourceSize : Z; co_TargetSize : Z; co_Fit : option FitPlan; co_Staged : gmap Z StagedMember; co_ReadAt : option readBack }.
Record CloneResult := mkCloneResult { cl_Layout : DiskLayout; cl_Partitions : Z; cl_Bytes : Z; cl_Digests : gmap Z bytes; cl_ReadBack : Z }.

(** A region of the source; what lies past its end stays zero. *)
Definition readRegion (src : bytes) (r : Range) : result bmr_err bytes :=
  if r_Length r <? 0 then Err BmPanic
  else if r_Offset r <? 0 then Err BmRegion
  else let d := sub src (Z.to_nat (r_Offset r)) (Z.to_nat (r_Length r)) in Ok (d ++ zeros (Z.to_nat (r_Length r) - length d)).
Fixpoint readRegions (src : bytes) (rs : list Range) : result bmr_err (list bytes) :=
  match rs with
  | [] => Ok []
  | r :: rs => let! b := readRegion src r in let! bs := readRegions src rs in Ok (b :: bs)
  end.

(** The boot structures of the source, as a capture without members. *)
Definition sourceCapture (src : bytes) (l : DiskLayout) : result bmr_err DiskCapture :=
  let! primary := readRegion src (PrimaryRegion l) in
  let! backup := if 0 <? r_Length (BackupRegion l) then readRegion src (BackupRegion l) else Ok [] in
  let! aux := readRegions src (AuxRegions l) in
  Ok (mkCaptured "" l primary backup aux []).

Section clone.
Context (opts : CloneDiskOptions) (l : DiskLayout).

(** The bytes of one partition, in place. *)
Definition cloneContent (p : Partition) (pl : placement) (t : Target) : Target * result bmr_err bytes :=
  if pl_shrink pl then
    match co_Staged opts !! Index p with
    | None => (t, Err (BmNotStaged (Index p)))
    | Some sm => writeStaged (mkWindow (pl_base pl) (pl_length pl)) sm (pl_length pl) t
    end
  else
    match copyAt (mkWindow (pl_base pl) (pl_length pl)) (co_Source opts) (Offset p (DiskLayout.SectorSize l)) (pl_oldLength pl) t with
    | (t, Err e) => (t, Err e)
    | (t, Ok sum) =>
        if pl_grow pl && (pl_oldLength pl <? pl_length pl) then
          let n := pl_length pl - pl_oldLength pl in
          match writeZeros (mkWindow (pl_base pl + pl_oldLength pl) n) n t with
          | (t, Some e) => (t, Err e)
          | (t, None) => (t, Ok sum)
          end
        else (t, Ok sum)
    end.

(** The bytes the read-back covers. *)
Definition writtenLength (pl : placement) : Z :=
  if pl_grow pl then pl_oldLength pl else if negb (pl_shrink pl) then pl_oldLength pl else pl_length pl.

Definition clonePartition (p : Partition) (r : CloneResult) (t : Target) : Target * result bmr_err CloneResult :=
  match placementFor l (co_Fit opts) (Index p) with
  | Err e => (t, Err e)
  | Ok pl =>
      match cloneContent p pl t with
      | (t, Err e) => (t, Err e)
      | (t, Ok sum) =>
          let written := writtenLength pl in
          let done back := (t, Ok (mkCloneResult (cl_Layout r) (cl_Partitions r + 1) (cl_Bytes r + written)
                              (<[Index p := hexEncode sum]> (cl_Digests r)) (cl_ReadBack r + back))) in
          match co_ReadAt opts with
          | None => done 0
          | Some rd => match hashAt rd t (pl_base pl) written with
                       | None => (t, Err (BmReadBack (Index p)))
                       | Some back => if bool_decide (back = sum) then done 1 else (t, Err (BmDiffers (Index p)))
                       end
          end
      end
  end.
Fixpoint clonePartitions (ps : list Partition) (r : CloneResult) (t : Target) : Target * result bmr_err CloneResult :=
  match ps with
  | [] => (t, Ok r)
  | p :: ps => match clonePartition p r t with
               | (t, Err e) => (t, Err e)
               | (t, Ok r) => clonePartitions ps r t
               end
  end.

(** The used spans, as their first byte and the byte after the last. *)
Definition span : Type := Z * Z.
Fixpoint placedSpans (ps : list Partition) : result bmr_err (list span) :=
  match ps with
  | [] => Ok []
  | p :: ps => let! pl := placementFor l (co_Fit opts) (Index p) in
               let! ss := placedSpans ps in Ok ((pl_base pl, pl_base pl + pl_length pl) :: ss)
  end.
Definition rangeSpan (r : Range) : span := (r_Offset r, r_Offset r + r_Length r).
Definition verbatim : bool := noPlan (co_Fit opts) && (co_TargetSize opts =? DiskSize l).
Definition backupSpan : list span :=
  if 0 <? r_Length (BackupRegion l) then
    let ss := DiskLayout.SectorSize l in
    let entryBytes := r_Length (BackupRegion l) - ss in
    [(if verbatim then r_Offset (BackupRegion l) else co_TargetSize opts - ss - entryBytes, co_TargetSize opts)]
  else [].
Definition usedSpans : result bmr_err (list span) :=
  let! ps := placedSpans (Partitions l) in
  Ok (rangeSpan (PrimaryRegion l) :: (rangeSpan <$> AuxRegions l) ++ ps ++ backupSpan).

(** The insertion sort, over the sorted front reversed. *)
Fixpoint sinkSpan (u : span) (rev : list span) : list span :=
  match rev with
  | [] => [u]
  | v :: rest => if u.1 <? v.1 then v :: sinkSpan u rest else u :: rev
  end.
Definition sortSpans (us : list span) : list span := reverse (foldl (λ rev u, sinkSpan u rev) [] us).

Definition fillGap (off length : Z) (t : Target) : Target * option bmr_err :=
  let w := mkWindow off length in
  if verbatim && (off + length <=? co_SourceSize opts)
  then match copyAt w (co_Source opts) off length t with (t, Ok _) => (t, None) | (t, Err e) => (t, Some e) end
  else writeZeros w length t.

(** The holes between the spans; the byte the walk has reached and what it filled. *)
Fixpoint fillHoles (us : list span) (cursor filled : Z) (t : Target) : Target * result bmr_err (Z * Z) :=
  match us with
  | [] => (t, Ok (cursor, filled))
  | (off, end_) :: us =>
      let next := if cursor <? end_ then end_ else cursor in
      if cursor <? off then
        match fillGap cursor (off - cursor) t with
        | (t, Some e) => (t, Err e)
        | (t, None) => fillHoles us next (filled + (off - cursor)) t
        end
      else fillHoles us next filled t
  end.

Definition writeGaps (r : CloneResult) (t : Target) : Target * result bmr_err CloneResult :=
  match usedSpans with
  | Err e => (t, Err e)
  | Ok us =>
      match fillHoles (sortSpans us) 0 0 t with
      | (t, Err e) => (t, Err e)
      | (t, Ok (cursor, filled)) =>
          let r := mkCloneResult (cl_Layout r) (cl_Partitions r) (cl_Bytes r + filled) (cl_Digests r) (cl_ReadBack r) in
          if cursor <? co_TargetSize opts then
            match fillGap cursor (co_TargetSize opts - cursor) t with
            | (t, Some e) => (t, Err e)
            | (t, None) => (t, Ok r)
            end
          else (t, Ok r)
      end
  end.
End clone.

Definition CloneDisk (opts : CloneDiskOptions) (t : Target) : Target * result bmr_err CloneResult :=
  match Parse (co_Source opts) (co_SourceSize opts) with
  | Err e => (t, Err (BmParse e))
  | Ok l =>
      if noPlan (co_Fit opts) && (co_TargetSize opts <? DiskSize l) then (t, Err BmSmaller)
      else match sourceCapture (co_Source opts) l with
           | Err e => (t, Err e)
           | Ok d =>
               match clonePartitions opts l (Partitions l) (mkCloneResult l 0 0 ∅ 0) t with
               | (t, Err e) => (t, Err e)
               | (t, Ok r) =>
                   match writeGaps opts l r t with
                   | (t, Err e) => (t, Err e)
                   | (t, Ok r) =>
                       match bootStructures d (co_Fit opts) (co_TargetSize opts) with
                       | Err e => (t, Err e)
                       | Ok boot => match writeBoot d boot t with
                                    | (t, Some e) => (t, Err e)
                                    | (t, None) => (t, match syncDisk t with Some e => Err e | None => Ok r end)
                                    end
                       end
                   end
               end
           end
  end.
