(* ===== verification/Cloned.v ===== *)
(** * Theorems on cloned disks (bmr/fit.go)

    Copying through a window puts exactly the section's bytes there.  A clone onto a target
    of the same size leaves the source, byte for byte: every write overlaid the source at its
    own place, and partitions, gaps and boot structures cover the disk.  A clone into other
    places puts every partition where its placement says. *)

From S2P Require Import Prelude GoBytes GoRuntime Hashes Crypto PackStore Dnm DiskLayout Gpt Mbr Fit Restore BareMetal.

(** ** Bytes of a file *)

Lemma lookup_WriteAt f off d i : 0 ≤ off → off + len d ≤ len f →
  WriteAt f off d !! i = if decide (off ≤ Z.of_nat i < off + len d) then d !! (i - Z.to_nat off)%nat else f !! i.
Proof.
  intros H0 H1. rewrite WriteAt_in by done. case_decide as Hi.
  - rewrite lookup_app_r, length_take by (rewrite length_take; lia). rewrite lookup_app_l by lia. f_equal. lia.
  - destruct (decide (Z.of_nat i < off)).
    + rewrite lookup_app_l by (rewrite length_take; lia). by rewrite lookup_take_lt by lia.
    + rewrite lookup_app_r, length_take by (rewrite length_take; lia). rewrite lookup_app_r by lia. rewrite lookup_drop. f_equal. lia.
Qed.

Lemma lookup_sub f o n i : sub f o n !! i = if decide (i < n)%nat then f !! (o + i)%nat else None.
Proof. unfold sub. case_decide; [by rewrite lookup_take_lt, lookup_drop|by rewrite lookup_take_ge by lia]. Qed.

Lemma WriteAt_next f off d e : 0 ≤ off → off + len d + len e ≤ len f → WriteAt (WriteAt f off d) (off + len d) e = WriteAt f off (d ++ e).
Proof.
  intros H0 H1. apply list_eq. intros i. rewrite !lookup_WriteAt; rewrite ?length_WriteAt; rewrite ?length_app; try lia. rewrite Nat2Z.inj_add.
  repeat case_decide; try lia; try done.
  - rewrite lookup_app_r by lia. f_equal. lia.
  - by rewrite lookup_app_l by lia.
Qed.
Lemma WriteAt_nothing f off : 0 ≤ off → off ≤ len f → WriteAt f off [] = f.
Proof. intros H0 H1. apply list_eq. intros i. rewrite lookup_WriteAt by (cbn; lia). case_decide; [cbn in *; lia|done]. Qed.

(** ** Windows *)

(** A disk of [n] bytes that takes every write inside it. *)
Definition whole (t : Target) (n : Z) : Prop := len (tg_data t) = n ∧ (∀ off k, 0 ≤ off → off + k ≤ n → tg_accepts t off k = true) ∧ tg_syncs t = true.

Lemma whole_WriteAt t n off d : whole t n → 0 ≤ off → off + len d ≤ n → whole (withData t (WriteAt (tg_data t) off d)) n.
Proof. intros (H1 & H2 & H3) H4 H5. split_and!; [|done|done]. cbn. rewrite length_WriteAt; lia. Qed.

Lemma tgWriteAt_whole t n d off : whole t n → 0 ≤ off → off + len d ≤ n → tgWriteAt t d off = Some (withData t (WriteAt (tg_data t) off d)).
Proof. intros (_ & Ha & _) H0 H1. unfold tgWriteAt. by rewrite (proj2 (Z.ltb_ge _ _)), Ha by lia. Qed.
Lemma ptWriteAt_whole t n p d off : whole t n → 0 ≤ pt_base p → 0 ≤ off → off + len d ≤ pt_length p → pt_base p + pt_length p ≤ n →
  ptWriteAt t p d off = Some (withData t (WriteAt (tg_data t) (pt_base p + off) d)).
Proof.
  intros Hw H0 H1 H2 H3. unfold ptWriteAt. rewrite (proj2 (Z.ltb_ge off 0)), (proj2 (Z.ltb_ge (pt_length p) _)) by lia. cbn [orb].
  apply (tgWriteAt_whole t n); [done|lia|lia].
Qed.

Lemma copyLen_bounds length off : off < length → 0 < copyLen length off ≤ length - off ∧ (copyLen length off = length - off ∨ copyLen length off = copyBuf).
Proof. intros H. unfold copyLen. assert (copyBuf = 1048576) by done. destruct (Z.ltb_spec (length - off) copyBuf); lia. Qed.

(** The fuel of a copying loop suffices from [off] on. *)
Definition enough (fuel : nat) (length off : Z) : Prop := length - off ≤ Z.of_nat fuel * copyBuf.
Lemma enough_start length : enough (copyFuel length) length 0.
Proof.
  unfold enough, copyFuel. assert (copyBuf = 1048576) as -> by done. destruct (Z.le_gt_cases 0 length).
  - pose proof (Z.quot_pos length 1048576 ltac:(lia) ltac:(lia)). pose proof (Z.quot_rem' length 1048576). pose proof (Z.rem_bound_pos length 1048576 ltac:(lia) ltac:(lia)). lia.
  - lia.
Qed.
Lemma enough_next fuel length off : enough (S fuel) length off → off < length → enough fuel length (off + copyLen length off).
Proof. unfold enough. intros H Hlt. destruct (copyLen_bounds length off Hlt) as [? [E|E]]; rewrite E; assert (copyBuf = 1048576) as Hb by done; rewrite Hb in *; lia. Qed.

Lemma zerosLoop_whole fuel p length n : ∀ off t, enough fuel length off → whole t n → 0 ≤ off ≤ length → 0 ≤ pt_base p → length ≤ pt_length p → pt_base p + pt_length p ≤ n →
  zerosLoop fuel p length off t = (withData t (WriteAt (tg_data t) (pt_base p + off) (zeros (Z.to_nat (length - off)))), None).
Proof.
  assert (Hend : ∀ off t, whole t n → off = length → 0 ≤ length → 0 ≤ pt_base p → pt_base p + length ≤ n →
    t = withData t (WriteAt (tg_data t) (pt_base p + off) (zeros (Z.to_nat (length - off))))).
  { intros off t [Hw _] -> H0 Hb Hn. rewrite Z.sub_diag. change (zeros (Z.to_nat 0)) with (@nil Z). rewrite WriteAt_nothing by lia. by destruct t. }
  induction fuel as [|fuel IH]; intros off t He Hw Hoff Hb Hl Hn.
  { unfold enough in He. cbn [zerosLoop]. f_equal. apply Hend; done || lia. }
  cbn [zerosLoop]. destruct (Z.ltb_spec off length) as [Hlt|Hge].
  - destruct (copyLen_bounds length off Hlt) as [Hc _]. rewrite (ptWriteAt_whole t n) by (rewrite ?length_zeros; try done; lia).
    rewrite IH; [|by apply enough_next|apply whole_WriteAt; rewrite ?length_zeros; try done; lia|lia..]. unfold withData. cbn. do 2 f_equal.
    rewrite Z.add_assoc. replace (copyLen length off) with (len (zeros (Z.to_nat (copyLen length off)))) at 2 by (rewrite length_zeros; lia).
    destruct Hw as [Hw _]. rewrite WriteAt_next by (rewrite ?length_zeros; lia). f_equal. unfold zeros. rewrite <- replicate_add. f_equal. lia.
  - f_equal. apply Hend; done || lia.
Qed.
Lemma writeZeros_whole t n p length : whole t n → 0 ≤ length ≤ pt_length p → 0 ≤ pt_base p → pt_base p + pt_length p ≤ n →
  writeZeros p length t = (withData t (WriteAt (tg_data t) (pt_base p) (zeros (Z.to_nat length))), None).
Proof. intros Hw Hl Hb Hn. unfold writeZeros. rewrite (zerosLoop_whole _ p length n) by (done || lia || apply enough_start). by rewrite Z.add_0_r, Z.sub_0_r. Qed.

Lemma copyLoop_whole fuel p src so length n : ∀ off h t, enough fuel length off → whole t n → 0 ≤ off ≤ length → 0 ≤ pt_base p → length ≤ pt_length p → pt_base p + pt_length p ≤ n →
  0 ≤ so → so + length ≤ len src →
  copyLoop fuel p src so length off h t =
    (withData t (WriteAt (tg_data t) (pt_base p + off) (sub src (Z.to_nat (so + off)) (Z.to_nat (length - off)))), Ok (h ++ sub src (Z.to_nat (so + off)) (Z.to_nat (length - off)))).
Proof.
  assert (Hend : ∀ off h t, whole t n → off = length → 0 ≤ length → 0 ≤ pt_base p → pt_base p + length ≤ n →
    (t, Ok h) = (withData t (WriteAt (tg_data t) (pt_base p + off) (sub src (Z.to_nat (so + off)) (Z.to_nat (length - off)))),
      (Ok (h ++ sub src (Z.to_nat (so + off)) (Z.to_nat (length - off))) : result bmr_err bytes))).
  { intros off h t [Hw _] -> H0 Hb Hn. rewrite Z.sub_diag. change (sub src _ (Z.to_nat 0)) with (@nil Z). rewrite WriteAt_nothing, app_nil_r by lia. by destruct t. }
  induction fuel as [|fuel IH]; intros off h t He Hw Hoff Hb Hl Hn Hso Hsrc.
  { unfold enough in He. cbn [copyLoop]. apply Hend; done || lia. }
  cbn [copyLoop]. destruct (Z.ltb_spec off length) as [Hlt|Hge].
  - destruct (copyLen_bounds length off Hlt) as [Hc _]. set (k := copyLen length off) in *. rewrite ReadAt_sub by lia.
    assert (Hk : len (sub src (Z.to_nat (so + off)) (Z.to_nat k)) = k) by (rewrite length_sub; lia).
    rewrite (ptWriteAt_whole t n) by (rewrite ?Hk; try done; lia).
    rewrite IH; [|by apply enough_next|apply whole_WriteAt; rewrite ?Hk; try done; lia|lia..].
    assert (Hj : sub src (Z.to_nat (so + off)) (Z.to_nat k) ++ sub src (Z.to_nat (so + (off + k))) (Z.to_nat (length - (off + k))) = sub src (Z.to_nat (so + off)) (Z.to_nat (length - off))).
    { replace (Z.to_nat (so + (off + k))) with (Z.to_nat (so + off) + Z.to_nat k)%nat by lia. unfold sub. rewrite <- drop_drop, take_take_drop. f_equal. lia. }
    rewrite <- app_assoc, Hj. unfold withData. cbn. do 2 f_equal. rewrite Z.add_assoc. rewrite <- Hk at 2.
    destruct Hw as [Hw _]. rewrite WriteAt_next; [by rewrite Hj|lia|rewrite Hk, length_sub; lia].
  - apply Hend; done || lia.
Qed.
Lemma copyAt_whole t n p src so length : whole t n → 0 ≤ length ≤ pt_length p → 0 ≤ pt_base p → pt_base p + pt_length p ≤ n → 0 ≤ so → so + length ≤ len src →
  copyAt p src so length t = (withData t (WriteAt (tg_data t) (pt_base p) (sub src (Z.to_nat so) (Z.to_nat length))), Ok (Sum256 (sub src (Z.to_nat so) (Z.to_nat length)))).
Proof.
  intros Hw Hl Hb Hn Hso Hs. unfold copyAt. rewrite (copyLoop_whole _ p src so length n) by (done || lia || apply enough_start). by rewrite !Z.add_0_r, Z.sub_0_r.
Qed.

(** ** Laying bytes over a file *)

Definition inSpans (us : list span) (i : Z) : Prop := Exists (λ u, u.1 ≤ i < u.2) us.
#[export] Instance inSpans_dec us i : Decision (inSpans us i).
Proof. unfold inSpans. apply _. Defined.
Lemma inSpans_elem us i : inSpans us i ↔ ∃ u, u ∈ us ∧ u.1 ≤ i < u.2.
Proof. apply Exists_exists. Qed.
Lemma inSpans_app us vs i : inSpans (us ++ vs) i ↔ inSpans us i ∨ inSpans vs i.
Proof. apply Exists_app. Qed.

(** [g] is [f] with the bytes of [src] in the spans. *)
Record overlaid (src f g : bytes) (us : list span) : Prop := {
  ov_length : length g = length f;
  ov_in : ∀ i : nat, inSpans us (Z.of_nat i) → g !! i = src !! i;
  ov_out : ∀ i : nat, ¬ inSpans us (Z.of_nat i) → g !! i = f !! i }.

Lemma overlaid_refl src f : overlaid src f f [].
Proof. split; [done| |done]. intros i H%Exists_nil. done. Qed.
Lemma overlaid_trans src f g h us vs : overlaid src f g us → overlaid src g h vs → overlaid src f h (us ++ vs).
Proof.
  intros [L1 I1 O1] [L2 I2 O2]. split; [by rewrite L2| |].
  - intros i Hi. destruct (decide (inSpans vs (Z.of_nat i))) as [Hv|Hv]; [by apply I2|]. rewrite O2 by done. apply I1. apply inSpans_app in Hi. tauto.
  - intros i Hi. rewrite inSpans_app in Hi. rewrite O2, O1 by tauto. done.
Qed.
Lemma overlaid_own src f off n : 0 ≤ off → 0 ≤ n → off + n ≤ len src → off + n ≤ len f →
  overlaid src f (WriteAt f off (sub src (Z.to_nat off) (Z.to_nat n))) [(off, off + n)].
Proof.
  intros H0 H1 H2 H3. assert (Hs : len (sub src (Z.to_nat off) (Z.to_nat n)) = n) by (rewrite length_sub; lia).
  split; [apply length_WriteAt; lia|intros i Hi; apply inSpans_elem in Hi as (u & Hu%list_elem_of_singleton & Hi); subst u; cbn in Hi|intros i Hi].
  - rewrite lookup_WriteAt, Hs, decide_True by lia. rewrite lookup_sub, decide_True by lia. f_equal. lia.
  - rewrite lookup_WriteAt, Hs by lia. case_decide as Hd; [|done]. exfalso. apply Hi, inSpans_elem. exists (off, off + n). split; [by left|done].
Qed.
Lemma overlaid_spans src f g us vs : overlaid src f g us → (∀ i, inSpans us i ↔ inSpans vs i) → overlaid src f g vs.
Proof. intros [L A B] H. split; [done| |]; intros i Hi; [apply A|apply B]; by rewrite H. Qed.
Lemma overlaid_ext src f g us vs : overlaid src f g us → (∀ v, v ∈ vs ↔ v ∈ us) → overlaid src f g vs.
Proof. intros H Hs. eapply overlaid_spans; [exact H|]. intros i. rewrite !inSpans_elem. by setoid_rewrite Hs. Qed.
Lemma overlaid_unique src f g h us vs : overlaid src f g us → overlaid src f h vs → (∀ i, inSpans us i ↔ inSpans vs i) → g = h.
Proof.
  intros [_ I1 O1] [_ I2 O2] Hx. apply list_eq. intros i. destruct (decide (inSpans us (Z.of_nat i))) as [H|H]; [rewrite I1, I2 by (done || by apply Hx); done|].
  rewrite O1, O2; [done| |done]. by rewrite <- Hx.
Qed.
Lemma overlaid_whole src f g us : length f = length src → overlaid src f g us → (∀ i, 0 ≤ i < len src → inSpans us i) → g = src.
Proof.
  intros Hl [L I _] Hall. apply list_eq. intros i. destruct (decide (i < length src)%nat); [apply I, Hall; lia|]. rewrite !lookup_ge_None_2 by lia. done.
Qed.

(** What a read-back that returns what the target holds reads. *)
Definition faithful (rd : option readBack) : Prop :=
  match rd with
  | None => True
  | Some rd => ∀ data off n, 0 ≤ off → 0 ≤ n → off + n ≤ len data → limitCopy (rd data off n) n = (sub data (Z.to_nat off) (Z.to_nat n), None)
  end.
Definition readBackOne (rd : option readBack) : Z := match rd with None => 0 | Some _ => 1 end.

Lemma hashAt_faithful rd t off d n : faithful (Some rd) → whole t n → 0 ≤ off → off + len d ≤ n →
  hashAt rd (withData t (WriteAt (tg_data t) off d)) off (len d) = Some (Sum256 d).
Proof.
  intros Hf [Hl _] H0 H1. unfold hashAt. cbn [withData tg_data]. rewrite Hf by (rewrite ?length_WriteAt; lia). do 2 f_equal. rewrite Nat2Z.id. apply sub_WriteAt_eq; lia.
Qed.

(** A layout whose partitions and regions lie inside a disk of [n] bytes, the backup structures at its end. *)
Record fitsDisk (l : DiskLayout) (n : Z) : Prop := {
  fd_once : NoDup (Index <$> Partitions l);
  fd_parts : ∀ p, p ∈ Partitions l → 0 ≤ Offset p (SectorSize l) ∧ 0 ≤ Length p (SectorSize l) ∧ Offset p (SectorSize l) + Length p (SectorSize l) ≤ n;
  fd_regions : ∀ r, r ∈ PrimaryRegion l :: AuxRegions l → 0 ≤ r_Offset r ∧ 0 ≤ r_Length r ∧ r_Offset r + r_Length r ≤ n;
  fd_backup : if String.eqb (Scheme l) "mbr" then r_Length (BackupRegion l) = 0
              else 0 ≤ r_Offset (BackupRegion l) ∧ 0 < r_Length (BackupRegion l) ∧ r_Offset (BackupRegion l) + r_Length (BackupRegion l) = n ∧ Z.rem n (SectorSize l) = 0 }.

Lemma partitionOf_in l p : NoDup (Index <$> Partitions l) → p ∈ Partitions l → partitionOf l (Index p) = Some p.
Proof.
  intros Hnd Hp. unfold partitionOf. assert (Hf : filter (λ q, Index q = Index p) (Partitions l) = [p]); [|by rewrite Hf].
  induction (Partitions l) as [|q ps IH]; [by apply not_elem_of_nil in Hp|]. rewrite fmap_cons in Hnd. apply NoDup_cons in Hnd as [Hn Hnd].
  apply elem_of_cons in Hp as [<-|Hp].
  - rewrite filter_cons_True by done. f_equal. apply filter_none, Forall_forall. intros q Hq Hi. apply Hn. rewrite <- Hi. by apply list_elem_of_fmap_2.
  - rewrite filter_cons_False; [by apply IH|]. intros Hi. apply Hn. rewrite Hi. by apply list_elem_of_fmap_2.
Qed.

(** ** Sorting the spans *)

Lemma sinkSpan_perm u rev : sinkSpan u rev ≡ₚ u :: rev.
Proof. induction rev as [|v rev IH]; cbn; [done|]. destruct (u.1 <? v.1); [|done]. rewrite IH. apply Permutation_swap. Qed.
Lemma sortSpans_perm us : sortSpans us ≡ₚ us.
Proof.
  unfold sortSpans. rewrite reverse_Permutation. assert (H : ∀ rev, foldl (λ rev u, sinkSpan u rev) rev us ≡ₚ us ++ rev); [|by rewrite H, app_nil_r].
  induction us as [|u us IH]; intros rev; cbn [foldl]; [done|]. rewrite IH, sinkSpan_perm. symmetry. apply (Permutation_middle us rev u).
Qed.

Lemma sinkSpan_sorted u rev : StronglySorted (λ u v : span, v.1 ≤ u.1) rev → StronglySorted (λ u v : span, v.1 ≤ u.1) (sinkSpan u rev).
Proof.
  induction rev as [|v rev IH]; cbn; [repeat constructor|]. intros [Hs Hf]%StronglySorted_inv. destruct (Z.ltb_spec u.1 v.1) as [Hlt|Hge].
  - constructor; [by apply IH|]. rewrite sinkSpan_perm. constructor; [lia|done].
  - constructor; [by constructor|]. constructor; [lia|]. eapply Forall_impl; [exact Hf|]. cbn. intros w Hw. lia.
Qed.
Lemma sortSpans_sorted us : StronglySorted (λ u v : span, u.1 ≤ v.1) (sortSpans us).
Proof.
  apply (StronglySorted_reverse (λ u v : span, v.1 ≤ u.1)). assert (H : ∀ rev, StronglySorted (λ u v : span, v.1 ≤ u.1) rev → StronglySorted (λ u v : span, v.1 ≤ u.1) (foldl (λ rev u, sinkSpan u rev) rev us)); [|apply H; constructor].
  induction us as [|u us IH]; intros rev Hr; [done|]. cbn [foldl]. apply IH. by apply sinkSpan_sorted.
Qed.

(** ** Filling the holes *)

Section holes.
Context (opts : CloneDiskOptions) (l : DiskLayout) (fill : bytes) (n : Z).
Context (Hlen : len fill = n).
Context (Hfill : ∀ off k t, whole t n → 0 ≤ off → 0 ≤ k → off + k ≤ n →
  fillGap opts l off k t = (withData t (WriteAt (tg_data t) off (sub fill (Z.to_nat off) (Z.to_nat k))), None)).

Lemma fillGap_overlaid off k t : whole t n → 0 ≤ off → 0 ≤ k → off + k ≤ n → ∃ t', fillGap opts l off k t = (t', None) ∧ whole t' n ∧ overlaid fill (tg_data t) (tg_data t') [(off, off + k)].
Proof.
  intros Hw H0 H1 H2. rewrite Hfill by done. eexists. split; [done|]. split; [apply whole_WriteAt; rewrite ?length_sub; cbn; done || lia|].
  destruct Hw as [Hl _]. apply overlaid_own; lia.
Qed.

(** A hole lies behind [c] and outside the spans. *)
Definition holeOf (us : list span) (c : Z) (h : span) : Prop := c ≤ h.1 ∧ ∀ u, u ∈ us → h.2 ≤ u.1 ∨ u.2 ≤ h.1.

(** Every byte the walk passes is filled or in a span; over sorted spans it fills no byte of a span. *)
Lemma fillHoles_overlaid us : (∀ u, u ∈ us → 0 ≤ u.1 ∧ u.1 ≤ n ∧ u.2 ≤ n) → ∀ c k t, whole t n → 0 ≤ c ≤ n →
  ∃ t' c' k' hs, fillHoles opts l us c k t = (t', Ok (c', k')) ∧ whole t' n ∧ c ≤ c' ≤ n ∧ overlaid fill (tg_data t) (tg_data t') hs ∧
    (∀ u, u ∈ us → u.2 ≤ c') ∧ (∀ i, c ≤ i < c' → inSpans hs i ∨ inSpans us i) ∧
    (StronglySorted (λ u v : span, u.1 ≤ v.1) us → Forall (holeOf us c) hs).
Proof.
  induction us as [|[off e] us IH]; intros Hus c k t Hw Hc.
  { exists t, c, k, []. split_and!; [done|done|lia|lia|apply overlaid_refl| |intros; lia|constructor]. intros u Hu. by apply not_elem_of_nil in Hu. }
  destruct (Hus (off, e) ltac:(left)) as (U0 & U1 & U2). cbn in U0, U1, U2. assert (Hus' : ∀ u, u ∈ us → 0 ≤ u.1 ∧ u.1 ≤ n ∧ u.2 ≤ n) by (intros; apply Hus; by right).
  cbn [fillHoles]. set (c1 := if c <? e then e else c). assert (Hc1 : c ≤ c1 ≤ n ∧ e ≤ c1 ∧ (c1 = c ∨ c1 = e)) by (unfold c1; destruct (Z.ltb_spec c e); lia).
  assert (Hmore : ∀ hs, Forall (holeOf us c1) hs → Forall (holeOf ((off, e) :: us) c) hs).
  { intros hs Hh. eapply Forall_impl; [exact Hh|]. intros h [A1 A2]. split; [lia|]. intros u [->|Hu]%elem_of_cons; [right; cbn; lia|by apply A2]. }
  destruct (Z.ltb_spec c off) as [Hlt|Hge].
  - destruct (fillGap_overlaid c (off - c) t Hw ltac:(lia) ltac:(lia) ltac:(lia)) as (t1 & -> & Hw1 & Hr1). replace (c + (off - c)) with off in Hr1 by lia.
    destruct (IH Hus' c1 (k + (off - c)) t1 Hw1 ltac:(lia)) as (t2 & c2 & k2 & hs & -> & Hw2 & Hc2 & Hr2 & He2 & Hi2 & Hs2).
    exists t2, c2, k2, ([(c, off)] ++ hs). split_and!; [done|done|lia|lia|exact (overlaid_trans _ _ _ _ _ _ Hr1 Hr2)| | |].
    + intros u [->|Hu]%elem_of_cons; [cbn; lia|by apply He2].
    + intros i Hi. rewrite inSpans_app. destruct (decide (i < c1)) as [H|H].
      * destruct (decide (i < off)); [left; left; constructor; cbn; lia|]. right. constructor. cbn. lia.
      * destruct (Hi2 i ltac:(lia)) as [?|?]; [tauto|]. right. by right.
    + intros [Hs Hf]%StronglySorted_inv. constructor; [|apply Hmore, Hs2, Hs]. split; [cbn; lia|]. rewrite Forall_forall in Hf.
      intros u [->|Hu]%elem_of_cons; [left; cbn; lia|]. left. apply (Hf u Hu).
  - destruct (IH Hus' c1 k t Hw ltac:(lia)) as (t2 & c2 & k2 & hs & -> & Hw2 & Hc2 & Hr2 & He2 & Hi2 & Hs2). exists t2, c2, k2, hs. split_and!; [done|done|lia|lia|done| | |].
    + intros u [->|Hu]%elem_of_cons; [cbn; lia|by apply He2].
    + intros i Hi. destruct (decide (i < c1)) as [H|H]; [right; constructor; cbn; lia|]. destruct (Hi2 i ltac:(lia)) as [?|?]; [tauto|]. right. by right.
    + intros [Hs Hf]%StronglySorted_inv. apply Hmore, Hs2, Hs.
Qed.

(** The gaps of a clone: outside the used spans the bytes of [fill], inside them what was there. *)
Lemma writeGaps_overlaid us r t : co_TargetSize opts = n → usedSpans opts l = Ok us → (∀ u, u ∈ us → 0 ≤ u.1 ∧ u.1 ≤ n ∧ u.2 ≤ n) → whole t n →
  ∃ t' r' hs, writeGaps opts l r t = (t', Ok r') ∧ whole t' n ∧ overlaid fill (tg_data t) (tg_data t') hs ∧
    (∀ i, 0 ≤ i < n → inSpans hs i ∨ inSpans us i) ∧ Forall (λ h, ∀ u, u ∈ us → h.2 ≤ u.1 ∨ u.2 ≤ h.1) hs ∧
    cl_Partitions r' = cl_Partitions r ∧ cl_ReadBack r' = cl_ReadBack r ∧ cl_Digests r' = cl_Digests r.
Proof.
  intros Hsize Hus Hin Hw. pose proof (sortSpans_perm us) as Hperm. unfold writeGaps. rewrite Hus.
  destruct (fillHoles_overlaid (sortSpans us)) with (c := 0) (k := 0) (t := t) as (t1 & c & k & hs & -> & Hw1 & Hc & Hr1 & He & Hi & Hs).
  { intros u Hu. apply Hin. by rewrite Hperm in Hu. } { done. } { destruct Hw; lia. }
  assert (Hi' : ∀ i, 0 ≤ i < c → inSpans hs i ∨ inSpans us i).
  { intros i Hic. destruct (Hi i Hic) as [?|H]; [tauto|]. right. rewrite inSpans_elem in *. by setoid_rewrite Hperm in H. }
  specialize (Hs (sortSpans_sorted us)). assert (Hs' : Forall (λ h, ∀ u, u ∈ us → h.2 ≤ u.1 ∨ u.2 ≤ h.1) hs).
  { eapply Forall_impl; [exact Hs|]. intros h [_ H] u Hu. apply H. by rewrite Hperm. }
  rewrite Hsize. destruct (Z.ltb_spec c n) as [Hlt|Hge].
  - destruct (fillGap_overlaid c (n - c) t1 Hw1 ltac:(lia) ltac:(lia) ltac:(lia)) as (t2 & -> & Hw2 & Hr2). eexists _, _, (hs ++ [(c, c + (n - c))]).
    split_and!; [done|done|exact (overlaid_trans _ _ _ _ _ _ Hr1 Hr2)| | |done|done|done].
    + intros i Hin'. rewrite inSpans_app. destruct (decide (i < c)) as [H|H]; [destruct (Hi' i ltac:(lia)); tauto|]. left. right. constructor. cbn. lia.
    + apply Forall_app. split; [done|]. constructor; [|done]. intros u Hu. right. cbn. apply He. by rewrite Hperm.
  - eexists _, _, hs. split_and!; [done|done|done| |done|done|done|done]. intros i Hin'. apply Hi'. lia.
Qed.
End holes.

Section same.
Context (src : bytes) (n : Z) (l : DiskLayout) (rd : option readBack).
Context (Hn : len src = n) (Hd : DiskSize l = n) (Hfits : fitsDisk l n) (Hrd : faithful rd).
Let opts := mkCloneDisk src n n None ∅ rd.
Let ss := SectorSize l.
Definition partSpan (p : Partition) : span := (Offset p (SectorSize l), Offset p (SectorSize l) + Length p (SectorSize l)).
Definition placedInPlace (p : Partition) : placement := mkPlacement (Offset p (SectorSize l)) (Length p (SectorSize l)) (Length p (SectorSize l)) false false.

Lemma placement_same p : p ∈ Partitions l → placementFor l None (Index p) = Ok (placedInPlace p).
Proof. intros Hp. unfold placementFor. rewrite partitionOf_in by (done || apply Hfits). done. Qed.

Lemma clonePartition_same p r t : p ∈ Partitions l → whole t n → ∃ t' r', clonePartition opts l p r t = (t', Ok r') ∧ whole t' n ∧
  overlaid src (tg_data t) (tg_data t') [partSpan p] ∧ cl_Partitions r' = cl_Partitions r + 1 ∧ cl_ReadBack r' = cl_ReadBack r + readBackOne rd ∧
  cl_Digests r' = <[Index p := hexEncode (Sum256 (sub src (Z.to_nat (Offset p ss)) (Z.to_nat (Length p ss))))]> (cl_Digests r).
Proof.
  intros Hp Hw. destruct (fd_parts _ _ Hfits p Hp) as (H0 & H1 & H2). fold ss in H0, H1, H2. unfold clonePartition. cbn [opts co_Fit]. rewrite placement_same by done.
  unfold cloneContent. cbn [placedInPlace pl_shrink pl_grow pl_base pl_length pl_oldLength andb opts co_Source]. fold ss.
  rewrite (copyAt_whole t n) by (cbn; done || lia). set (d := sub src _ _). assert (Hk : len d = Length p ss) by (unfold d; rewrite length_sub; lia).
  set (t1 := withData t _). assert (Hw1 : whole t1 n) by (apply whole_WriteAt; cbn; done || lia).
  assert (Hrep : overlaid src (tg_data t) (tg_data t1) [partSpan p]). { destruct Hw as [Hl _]. apply overlaid_own; fold ss; lia. }
  unfold writtenLength. cbn [placedInPlace pl_shrink pl_grow negb pl_oldLength pl_base co_ReadAt opts]. fold ss. destruct rd as [rb|] eqn:Er.
  - assert (Hh : hashAt rb t1 (Offset p ss) (Length p ss) = Some (Sum256 d)).
    { rewrite <- Hk. apply (hashAt_faithful rb t _ d n); cbn; done || lia. }
    rewrite Hh.
    rewrite bool_decide_eq_true_2 by done. eexists _, _. split_and!; done || (cbn; lia).
  - eexists _, _. split_and!; done || (cbn; lia).
Qed.

(** The digests of the partitions, by index. *)
Definition digestsOf (ps : list Partition) (m : gmap Z bytes) : gmap Z bytes :=
  foldl (λ m p, <[Index p := hexEncode (Sum256 (sub src (Z.to_nat (Offset p (SectorSize l))) (Z.to_nat (Length p (SectorSize l)))))]> m) m ps.

Lemma clonePartitions_same ps : (∀ p, p ∈ ps → p ∈ Partitions l) → ∀ r t, whole t n → ∃ t' r', clonePartitions opts l ps r t = (t', Ok r') ∧ whole t' n ∧
  overlaid src (tg_data t) (tg_data t') (partSpan <$> ps) ∧ cl_Partitions r' = cl_Partitions r + len ps ∧ cl_ReadBack r' = cl_ReadBack r + len ps * readBackOne rd ∧
  cl_Digests r' = digestsOf ps (cl_Digests r).
Proof.
  induction ps as [|p ps IH]; intros Hps r t Hw.
  { exists t, r. split_and!; [done|done|apply overlaid_refl|cbn; lia|cbn; lia|done]. }
  cbn [clonePartitions]. destruct (clonePartition_same p r t) as (t1 & r1 & -> & Hw1 & Hr1 & Hc1 & Hb1 & Hg1); [apply Hps; left|done|].
  destruct (IH ltac:(intros q Hq; apply Hps; by right) r1 t1 Hw1) as (t2 & r2 & -> & Hw2 & Hr2 & Hc2 & Hb2 & Hg2).
  exists t2, r2. split_and!; [done|done|exact (overlaid_trans _ _ _ _ [_] _ Hr1 Hr2)|cbn; lia|cbn; lia|]. by rewrite Hg2, Hg1.
Qed.

Lemma fillGap_same off k t : whole t n → 0 ≤ off → 0 ≤ k → off + k ≤ n →
  fillGap opts l off k t = (withData t (WriteAt (tg_data t) off (sub src (Z.to_nat off) (Z.to_nat k))), None).
Proof.
  intros Hw H0 H1 H2. unfold fillGap, verbatim. cbn [opts co_Fit co_TargetSize co_SourceSize co_Source noPlan andb]. rewrite Hd, Z.eqb_refl, (proj2 (Z.leb_le _ _)) by lia. cbn [andb].
  by rewrite (copyAt_whole t n) by (cbn; done || lia).
Qed.

Lemma placedSpans_same ps : (∀ p, p ∈ ps → p ∈ Partitions l) → placedSpans opts l ps = Ok (partSpan <$> ps).
Proof.
  induction ps as [|p ps IH]; intros Hps; [done|]. cbn [placedSpans opts co_Fit]. rewrite placement_same by (apply Hps; left). cbn [rbind]. fold opts.
  by rewrite IH by (intros q Hq; apply Hps; by right).
Qed.

(** The spans in use; every one inside the disk. *)
Definition sameSpans : list span := rangeSpan (PrimaryRegion l) :: (rangeSpan <$> AuxRegions l) ++ (partSpan <$> Partitions l) ++
  (if String.eqb (Scheme l) "mbr" then [] else [rangeSpan (BackupRegion l)]).
Lemma usedSpans_same : usedSpans opts l = Ok sameSpans.
Proof.
  unfold usedSpans, sameSpans. rewrite placedSpans_same by done. cbn [rbind]. do 4 f_equal. unfold backupSpan, verbatim. cbn [opts co_Fit co_TargetSize noPlan andb].
  rewrite Hd, Z.eqb_refl. pose proof (fd_backup _ _ Hfits) as Hb. destruct (String.eqb (Scheme l) "mbr").
  - by rewrite Hb.
  - destruct Hb as (_ & H1 & H2 & _). rewrite (proj2 (Z.ltb_lt _ _)) by done. unfold rangeSpan. by rewrite H2.
Qed.
Lemma sameSpans_inside u : u ∈ sameSpans → 0 ≤ u.1 ∧ u.1 ≤ n ∧ u.2 ≤ n.
Proof.
  assert (Hr : ∀ r, r ∈ PrimaryRegion l :: AuxRegions l → 0 ≤ (rangeSpan r).1 ∧ (rangeSpan r).1 ≤ n ∧ (rangeSpan r).2 ≤ n).
  { intros r Hr. pose proof (fd_regions _ _ Hfits r Hr). cbn. lia. }
  unfold sameSpans. intros [->|[(r & -> & Hi)%list_elem_of_fmap|[(p & -> & Hp)%list_elem_of_fmap|Hb]%elem_of_app]%elem_of_app]%elem_of_cons.
  - apply Hr. left.
  - apply Hr. by right.
  - pose proof (fd_parts _ _ Hfits p Hp). cbn. lia.
  - pose proof (fd_backup _ _ Hfits) as Hf. destruct (String.eqb (Scheme l) "mbr"); [by apply not_elem_of_nil in Hb|]. apply list_elem_of_singleton in Hb as ->. cbn. lia.
Qed.

(** *** Boot structures *)

Lemma readRegion_inside r : 0 ≤ r_Offset r → 0 ≤ r_Length r → r_Offset r + r_Length r ≤ n →
  readRegion src r = Ok (sub src (Z.to_nat (r_Offset r)) (Z.to_nat (r_Length r))).
Proof.
  intros H0 H1 H2. unfold readRegion. rewrite !(proj2 (Z.ltb_ge _ _)) by lia. cbv zeta. rewrite length_sub by lia. by rewrite Nat.sub_diag, app_nil_r.
Qed.
Definition regionBytes (r : Range) : bytes := sub src (Z.to_nat (r_Offset r)) (Z.to_nat (r_Length r)).
Lemma readRegions_inside rs : (∀ r, r ∈ rs → r ∈ AuxRegions l) → readRegions src rs = Ok (regionBytes <$> rs).
Proof.
  induction rs as [|r rs IH]; intros Hrs; [done|]. cbn [readRegions]. destruct (fd_regions _ _ Hfits r) as (H0 & H1 & H2); [right; apply Hrs; left|].
  rewrite readRegion_inside by done. cbn [rbind]. by rewrite IH by (intros q Hq; apply Hrs; by right).
Qed.
Definition sameBackup : bytes := if String.eqb (Scheme l) "mbr" then [] else regionBytes (BackupRegion l).
Lemma sourceCapture_same : sourceCapture src l = Ok (mkCaptured "" l (regionBytes (PrimaryRegion l)) sameBackup (regionBytes <$> AuxRegions l) []).
Proof.
  unfold sourceCapture. destruct (fd_regions _ _ Hfits (PrimaryRegion l)) as (H0 & H1 & H2); [left|]. rewrite readRegion_inside by done. cbn [rbind].
  assert (Hb : (if 0 <? r_Length (BackupRegion l) then readRegion src (BackupRegion l) else Ok []) = Ok sameBackup).
  { unfold sameBackup. pose proof (fd_backup _ _ Hfits) as Hb. destruct (String.eqb (Scheme l) "mbr"); [by rewrite Hb|]. destruct Hb as (B0 & B1 & B2 & _).
    rewrite (proj2 (Z.ltb_lt _ _)) by done. apply readRegion_inside; lia. }
  rewrite Hb. cbn [rbind]. by rewrite readRegions_inside.
Qed.

Lemma overlaid_region t r : whole t n → 0 ≤ r_Offset r → 0 ≤ r_Length r → r_Offset r + r_Length r ≤ n →
  overlaid src (tg_data t) (tg_data (withData t (WriteAt (tg_data t) (r_Offset r) (regionBytes r)))) [rangeSpan r].
Proof. intros [Hl _] H0 H1 H2. apply overlaid_own; lia. Qed.

Lemma writeAux_same rs i t : (∀ r, r ∈ rs → r ∈ AuxRegions l) → whole t n → ∃ t', writeAux i rs (regionBytes <$> rs) t = (t', None) ∧ whole t' n ∧
  overlaid src (tg_data t) (tg_data t') (rangeSpan <$> rs).
Proof.
  revert i t. induction rs as [|r rs IH]; intros i t Hrs Hw.
  { exists t. split_and!; [done|done|apply overlaid_refl]. }
  rewrite fmap_cons. cbn [writeAux]. destruct (fd_regions _ _ Hfits r) as (H0 & H1 & H2); [right; apply Hrs; left|].
  assert (Hk : len (regionBytes r) = r_Length r) by (unfold regionBytes; rewrite length_sub; lia). rewrite (tgWriteAt_whole t n) by (done || lia).
  destruct (IH (i + 1) (withData t (WriteAt (tg_data t) (r_Offset r) (regionBytes r)))) as (t2 & -> & Hw2 & Hr2); [intros q Hq; apply Hrs; by right|apply whole_WriteAt; done || lia|].
  exists t2. split_and!; [done|done|]. exact (overlaid_trans _ _ _ _ [rangeSpan r] _ (overlaid_region t r Hw H0 H1 H2) Hr2).
Qed.

(** A capture of the boot structures of the source. *)
Record captures (d : DiskCapture) : Prop := {
  cap_layout : dc_Layout d = l;
  cap_primary : PrimaryGPT d = regionBytes (PrimaryRegion l);
  cap_backup : BackupGPT d = sameBackup;
  cap_aux : AuxBytes d = regionBytes <$> AuxRegions l }.
(** What the boot structures of a disk cover. *)
Definition bootSpans : list span := rangeSpan (PrimaryRegion l) :: (rangeSpan <$> AuxRegions l) ++ (if String.eqb (Scheme l) "mbr" then [] else [rangeSpan (BackupRegion l)]).

Lemma boot_same d t : captures d → whole t n →
  ∃ boot t', bootStructures d None n = Ok boot ∧ writeBoot d boot t = (t', None) ∧ whole t' n ∧ overlaid src (tg_data t) (tg_data t') bootSpans.
Proof.
  intros [C1 C2 C3 C4] Hw. unfold bootSpans. destruct (fd_regions _ _ Hfits (PrimaryRegion l)) as (H0 & H1 & H2); [left|]. pose proof (fd_backup _ _ Hfits) as Hb.
  assert (Hkp : len (regionBytes (PrimaryRegion l)) = r_Length (PrimaryRegion l)) by (unfold regionBytes; rewrite length_sub; lia).
  pose proof (overlaid_region t (PrimaryRegion l) Hw H0 H1 H2) as Hp.
  unfold bootStructures. rewrite C1, C2, C3. unfold RelocateGPT, sameBackup. destruct (String.eqb (Scheme l) "mbr").
  - exists (regionBytes (PrimaryRegion l), 0, []). unfold writeBoot. rewrite C1, C4. rewrite (tgWriteAt_whole t n) by (done || lia). cbn [length Z.of_nat Z.ltb Z.compare].
    destruct (writeAux_same (AuxRegions l) 0 (withData t (WriteAt (tg_data t) (r_Offset (PrimaryRegion l)) (regionBytes (PrimaryRegion l))))) as (t2 & Ha & Hw2 & Hr2); [done|apply whole_WriteAt; done || lia|].
    exists t2. split; [done|]. split; [exact Ha|]. split; [done|]. rewrite app_nil_r. exact (overlaid_trans _ _ _ _ [_] _ Hp Hr2).
  - destruct Hb as (B0 & B1 & B2 & B3). assert (Hkb : len (regionBytes (BackupRegion l)) = r_Length (BackupRegion l)) by (unfold regionBytes; rewrite length_sub; lia).
    rewrite B3, Hd, (proj2 (Z.ltb_ge n n)) by lia. rewrite Hkp, Hkb, !Z.eqb_refl. cbn [negb orb]. exists (regionBytes (PrimaryRegion l), r_Offset (BackupRegion l), regionBytes (BackupRegion l)). unfold writeBoot. rewrite C1, C4.
    rewrite (tgWriteAt_whole t n) by (done || lia). rewrite Hkb, (proj2 (Z.ltb_lt _ _)) by done. set (t1 := withData t _). assert (Hw1 : whole t1 n) by (apply whole_WriteAt; done || lia).
    rewrite (tgWriteAt_whole t1 n) by (done || lia). set (t2 := withData t1 _). assert (Hw2 : whole t2 n) by (apply whole_WriteAt; done || lia).
    destruct (writeAux_same (AuxRegions l) 0 t2) as (t3 & Ha & Hw3 & Hr3); [done|done|]. exists t3. split; [done|]. split; [exact Ha|]. split; [done|].
    pose proof (overlaid_region t1 (BackupRegion l) Hw1 B0 ltac:(lia) ltac:(lia)) as Hr2.
    eapply overlaid_ext; [exact (overlaid_trans _ _ _ _ _ _ (overlaid_trans _ _ _ _ [_] [_] Hp Hr2) Hr3)|]. set_solver.
Qed.
End same.

(** ** Parsed layouts *)

Definition insideDisk (n ss : Z) (p : Partition) : Prop := 0 ≤ Offset p ss ∧ 0 ≤ Length p ss ∧ Offset p ss + Length p ss ≤ n.

Lemma sorted_lt_NoDup l : StronglySorted Z.lt l → NoDup l.
Proof. induction 1 as [|x l _ IH Hf]; [constructor|]. constructor; [|done]. intros Hx. rewrite Forall_forall in Hf. specialize (Hf x Hx). lia. Qed.

Lemma gpt_fits r ss l : bytes_ok r → len r < 2 ^ 63 → ParseWithSector r (len r) ss = Ok l → (∀ p, p ∈ Partitions l → insideDisk (len r) ss p) →
  (AlternateLBA l + 1) * ss = len r → fitsDisk l (len r) ∧ DiskSize l = len r ∧ SectorSize l = ss.
Proof.
  intros Hr Hn (mbr & hdr & entries & parts & Hg & ->)%ParseWithSector_inv Hin Halt. destruct (gpt_parts_ok r (len r) ss mbr hdr entries parts Hr Hg) as [_ Hs].
  destruct Hg as [[Hss _] _ _ _ Hhdr _ _ _ [Heb Hmax] Hent _ _ [Hb0 _]]. apply ReadAt_inv in Hent as (E0 & _ & E1 & _). cbn [layout_of AlternateLBA Partitions SectorSize] in *.
  assert (Hmx : maxEntryBytes = 4194304) by done. rewrite Hmx in Hmax.
  assert (Halt0 : 0 ≤ h_altLBA hdr < 2 ^ 63). { unfold h_altLBA. pose proof (bytes_ok_ReadAt _ _ _ _ Hr Hhdr) as Hh. pose proof (le_get_bound (sub hdr 32 8) (bytes_ok_sub _ _ _ Hh)). unfold h_altLBA in Halt. nia. }
  assert (Hbs : backupStart hdr ss = h_altLBA hdr * ss - h_entryBytes hdr). { unfold backupStart. rewrite (i64_id (h_altLBA hdr)) by (unfold is_i64; lia). rewrite (i64_id (h_altLBA hdr * ss)) by (unfold is_i64; nia). apply i64_id. unfold is_i64. nia. }
  assert (Hbl : backupLen hdr ss = ss + h_entryBytes hdr).
  { unfold backupLen. rewrite Hbs, (i64_id (h_altLBA hdr)) by (unfold is_i64; lia). rewrite (i64_id (h_altLBA hdr * ss)) by (unfold is_i64; nia).
    rewrite (i64_id (h_altLBA hdr * ss + ss)) by (unfold is_i64; nia). rewrite i64_id by (unfold is_i64; lia). lia. }
  split; [|done]. split; cbn [layout_of Partitions SectorSize PrimaryRegion AuxRegions BackupRegion Scheme r_Offset r_Length].
  - by apply sorted_lt_NoDup.
  - done.
  - intros rg Hrg%list_elem_of_singleton. subst rg. cbn [r_Offset r_Length]. rewrite i64_id by (unfold is_i64; lia). lia.
  - cbn. rewrite Hbs, Hbl. split_and!; [lia|lia|lia|]. rewrite <- Halt. apply Z.rem_mul. lia.
Qed.

(** The lowest start is that of a partition or of the extended one. *)
Definition startOf (st : mbr_scan) : Prop :=
  ms_first st = 0 ∨ (∃ p, p ∈ ms_parts st ∧ FirstLBA p = ms_first st) ∨ (∃ e, ms_ext st = Some e ∧ m_startLBA e = ms_first st).
Lemma scanPrimaries_start es : ∀ st st', startOf st → scanPrimaries st es = Ok st' → startOf st'.
Proof.
  induction es as [|e es IH]; intros st st' Hst; cbn [scanPrimaries]; [by intros [= <-]|]. intros (st1 & H1 & H2)%rbind_Ok_inv. apply (IH st1 st'); [|done]. clear IH H2.
  unfold scanPrimary in H1. destruct (unusedEntry e); [by injection H1 as <-|]. destruct (isExtended (m_typ e)).
  - destruct (ms_ext st) eqn:Ex; [done|]. injection H1 as <-. unfold startOf. cbn. destruct (_ || _); [right; right; by exists e|].
    destruct Hst as [H|[H|(e' & He' & _)]]; [by left|by right; left|congruence].
  - injection H1 as <-. unfold startOf. cbn. destruct (_ || _).
    + right; left. exists (mbrPartition (ms_slot st) 0 e). split; [apply elem_of_app; right; by left|done].
    + destruct Hst as [H|[(p & Hp & H)|H]]; [by left| |by right; right]. right; left. exists p. split; [apply elem_of_app; by left|done].
Qed.

Lemma scanPrimaries_first es : Forall (λ e, is_u32 (m_startLBA e)) es → ∀ st st', is_u32 (ms_first st) → scanPrimaries st es = Ok st' → is_u32 (ms_first st').
Proof.
  induction 1 as [|e es He _ IH]; intros st st' Hst; cbn [scanPrimaries]; [by intros [= <-]|]. intros (st1 & H1 & H2)%rbind_Ok_inv. apply (IH st1 st'); [|done].
  unfold scanPrimary in H1. destruct (unusedEntry e); [by injection H1 as <-|]. destruct (isExtended (m_typ e)); [destruct (ms_ext st); [done|]|]; injection H1 as <-; cbn; by destruct (_ || _).
Qed.
Lemma readMBREntries_start sector : bytes_ok sector → Forall (λ e, is_u32 (m_startLBA e)) (readMBREntries sector).
Proof.
  intros Hs. unfold readMBREntries. apply Forall_fmap, Forall_forall. intros i _. cbn. set (e := sub sector _ 16). assert (He : bytes_ok e) by (unfold e; auto with bytes).
  pose proof (le_get_bound (sub e 8 4) (bytes_ok_sub _ _ _ He)). assert (length (sub e 8 4) ≤ 4)%nat by (unfold sub; rewrite length_take; lia). unfold is_u32.
  assert (256 ^ len (sub e 8 4) ≤ 256 ^ 4) by (apply Z.pow_le_mono_r; lia). lia.
Qed.

Lemma walkEBR_first r ss ext D lba slot n pr : walkEBR r ss ext D lba slot n = Ok pr → i64 (lba * ss) < D.
Proof. destruct n as [|n]; [done|]. cbn [walkEBR]. destruct (D <=? _) eqn:E; [done|]. intros _. zbool. done. Qed.

Lemma walkEBRChain_first r ss ext D slot pr : walkEBRChain r ss ext D slot = Ok pr → i64 (ext * ss) < D.
Proof. unfold walkEBRChain. generalize 128%nat. intros n. apply walkEBR_first. Qed.

Lemma mbr_fits r sector l : bytes_ok sector → len r < 2 ^ 63 → parseMBR r (len r) 512 sector = Ok l → (∀ p, p ∈ Partitions l → insideDisk (len r) 512 p) →
  fitsDisk l (len r) ∧ DiskSize l = len r ∧ SectorSize l = 512.
Proof.
  intros Hs Hn Hp Hin. destruct (mbr_layout_bounds _ _ _ _ _ Hp) as (Hidx & _ & _ & Haux). unfold parseMBR in Hp. apply rbind_Ok_inv in Hp as (st & Hst & Hp).
  assert (Hf : is_u32 (ms_first st)) by (eapply (scanPrimaries_first _ (readMBREntries_start sector Hs)); [|exact Hst]; done).
  assert (Hstart : startOf st) by (eapply scanPrimaries_start; [|exact Hst]; by left).
  assert (Hx : ∃ pr, match ms_ext st with Some ext => walkEBRChain r 512 (m_startLBA ext) (len r) (ms_slot st) | None => Ok ([], []) end = Ok pr ∧
    l = mkLayout "mbr" 512 (len r) "" 0 0 0 (ms_parts st ++ pr.1) pr.2 (mkRange 0 (i64 (ms_first st * 512))) (mkRange 0 0)).
  { destruct (ms_parts st); [destruct (ms_ext st); [|done]|]; apply rbind_Ok_inv in Hp as (pr & Hw & [= <-]); eauto. }
  destruct Hx as (pr & Hw & ->). cbn [Partitions AuxRegions] in *. unfold is_u32 in Hf. split; [|done].
  assert (Hfirst : ms_first st * 512 ≤ len r).
  { destruct Hstart as [->|[(p & Hpp & Hpf)|(e & He & Hef)]]; [lia| |].
    - destruct (Hin p ltac:(apply elem_of_app; by left)) as (_ & H1 & H2). unfold Offset in H2. rewrite Hpf, (i64_id (ms_first st)), i64_id in H2 by (unfold is_i64; lia). lia.
    - rewrite He in Hw. apply walkEBRChain_first in Hw. rewrite Hef, i64_id in Hw by (unfold is_i64; lia). lia. }
  split; cbn [Partitions SectorSize PrimaryRegion AuxRegions BackupRegion Scheme].
  - rewrite Hidx. apply NoDup_seqZ.
  - done.
  - intros rg [->|Hrg]%elem_of_cons; [cbn; rewrite i64_id by (unfold is_i64; lia); lia|]. rewrite Forall_forall in Haux. destruct (Haux rg Hrg) as (A1 & A2 & A3 & A4). lia.
  - done.
Qed.

(** A parsed disk fits when its partitions lie inside it and a GPT's backup header is at its last sector. *)
Lemma parsed_fits r l : bytes_ok r → len r < 2 ^ 63 → Parse r (len r) = Ok l → (∀ p, p ∈ Partitions l → insideDisk (len r) (SectorSize l) p) →
  Scheme l = "mbr"%string ∨ (AlternateLBA l + 1) * SectorSize l = len r → fitsDisk l (len r) ∧ DiskSize l = len r.
Proof.
  intros Hr Hn Hp Hin Halt.
  assert (Hg : ∀ ss, ParseWithSector r (len r) ss = Ok l → fitsDisk l (len r) ∧ DiskSize l = len r).
  { intros ss H. pose proof H as (mbr & hdr & entries & parts & Hg & El)%ParseWithSector_inv. assert (Hss : SectorSize l = ss ∧ Scheme l = "gpt"%string) by (by subst l). destruct Hss as [Hss Hsc].
    rewrite Hss in Hin. destruct Halt as [Ha|Ha]; [congruence|]. rewrite Hss in Ha. destruct (gpt_fits r ss l Hr Hn H Hin Ha) as (? & ? & _). done. }
  unfold Parse in Hp. destruct (ParseWithSector r (len r) 512) as [l1|e1] eqn:E1; [injection Hp as <-; by apply (Hg 512)|].
  destruct (ParseWithSector r (len r) 4096) as [l2|e2] eqn:E2; [injection Hp as <-; by apply (Hg 4096)|].
  destruct (ReadAt r 0 512) as [sector|] eqn:Es; [|done]. destruct (hasBootSig sector); [|done]. destruct (_ && _); [done|]. destruct (existsb isReal _); [|done].
  pose proof (bytes_ok_ReadAt _ _ _ _ Hr Es) as Hsec.
  assert (Hss : SectorSize l = 512). { unfold parseMBR in Hp. apply rbind_Ok_inv in Hp as (st & _ & Hp). destruct (ms_parts st); [destruct (ms_ext st); [|done]|]; apply rbind_Ok_inv in Hp as (pr & _ & [= <-]); done. }
  rewrite Hss in Hin. destruct (mbr_fits r sector l Hsec Hn Hp Hin) as (? & ? & _). done.
Qed.

(** C35. Cloning a disk onto a target of the same size: when its partitions lie inside it and a
    GPT's backup header is at its last sector, the clone succeeds and the target is the
    source, byte for byte, whatever the target held; every partition is counted, and read
    back when the target can be read; the digests are those of the partitions' bytes. *)
Theorem clone_same_size src l t rd : bytes_ok src → len src < 2 ^ 63 → Parse src (len src) = Ok l →
  (∀ p, p ∈ Partitions l → insideDisk (len src) (SectorSize l) p) → Scheme l = "mbr"%string ∨ (AlternateLBA l + 1) * SectorSize l = len src →
  whole t (len src) → faithful rd →
  ∃ t' r, CloneDisk (mkCloneDisk src (len src) (len src) None ∅ rd) t = (t', Ok r) ∧ tg_data t' = src ∧
    cl_Partitions r = len (Partitions l) ∧ cl_ReadBack r = len (Partitions l) * readBackOne rd ∧ cl_Digests r = digestsOf src l (Partitions l) ∅.
Proof.
  intros Hr Hlen Hp Hin Halt Hw Hrd. destruct (parsed_fits src l Hr Hlen Hp Hin Halt) as [Hf Hd]. unfold CloneDisk. cbn [co_Source co_SourceSize co_Fit co_TargetSize noPlan andb]. rewrite Hp, Hd, Z.ltb_irrefl.
  rewrite (sourceCapture_same src (len src) l eq_refl Hf). set (n := len src) in *.
  destruct (clonePartitions_same src n l rd eq_refl Hf Hrd (Partitions l) ltac:(done) (mkCloneResult l 0 0 ∅ 0) t Hw) as (t1 & r1 & -> & Hw1 & Hr1 & Hc1 & Hb1 & Hg1).
  destruct (writeGaps_overlaid _ l src n eq_refl (fillGap_same src n l rd eq_refl Hd) _ r1 t1 eq_refl (usedSpans_same src n l rd Hd Hf) ltac:(eapply sameSpans_inside; eauto) Hw1)
    as (t2 & r2 & hs & -> & Hw2 & Hr2 & Hi2 & _ & Hc2 & Hb2 & Hg2).
  destruct (boot_same src n l rd eq_refl Hd Hf Hrd (mkCaptured "" l (regionBytes src (PrimaryRegion l)) (sameBackup src l) (regionBytes src <$> AuxRegions l) []) t2) as (boot & t3 & -> & -> & Hw3 & Hr3); [by split|done|]. unfold syncDisk. destruct Hw3 as (Hl3 & _ & ->).
  exists t3, r2. split; [done|]. split; [|by rewrite Hc2, Hc1, Hb2, Hb1, Hg2, Hg1].
  eapply overlaid_whole; [|exact (overlaid_trans _ _ _ _ _ _ (overlaid_trans _ _ _ _ _ _ Hr1 Hr2) Hr3)|]; [destruct Hw; lia|].
  intros i Hi. rewrite !inSpans_app. destruct (Hi2 i Hi) as [?|Hu]; [tauto|]. unfold sameSpans, bootSpans, inSpans in *. rewrite ?Exists_cons, ?Exists_app in *. tauto.
Qed.

(** ** Small disks *)

(** Reading back what the target holds. *)
Definition plainReadBack : readBack := λ data off n, [(sub data (Z.to_nat off) (Z.to_nat n), Some Chunker.EOF)].
Lemma plainReadBack_faithful : faithful (Some plainReadBack).
Proof.
  intros data off n H0 H1 H2. unfold plainReadBack. cbn [limitCopy]. assert (Hl : len (sub data (Z.to_nat off) (Z.to_nat n)) = n) by (rewrite length_sub; lia). rewrite Hl, Z.ltb_irrefl.
  destruct (Z.leb_spec n 0); [|done]. f_equal. destruct (sub _ _ _); [done|cbn in Hl; lia].
Qed.

(** A partition in sector 3, and two bytes in the unallocated sector 4. *)
Definition gapDisk : bytes := WriteAt (sampleDisk 3 3 6 4) 2048 [9; 9].
Definition gapLayout : DiskLayout := match Parse gapDisk 3584 with Ok l => l | Err _ => mkLayout "" 0 0 "" 0 0 0 [] [] (mkRange 0 0) (mkRange 0 0) end.
(** A target of [n] bytes that held something else. *)
Definition usedTarget (n : nat) : Target := mkTarget (replicate n 5) (λ _ _, true) (λ _, false) true.

Lemma clone_same_size_witness : ∃ t' r, CloneDisk (mkCloneDisk gapDisk 3584 3584 None ∅ (Some plainReadBack)) (usedTarget (Z.to_nat 3584)) = (t', Ok r) ∧
  tg_data t' = gapDisk ∧ cl_Partitions r = 1 ∧ cl_ReadBack r = 1.
Proof.
  destruct (clone_same_size gapDisk gapLayout (usedTarget (Z.to_nat 3584)) (Some plainReadBack)) as (t' & r & H1 & H2 & H3 & H4 & _).
  - by_eval.
  - reflexivity.
  - vm_compute. reflexivity.
  - intros p Hp. assert (Hl : Partitions gapLayout = [mkPart 0 (GUID_String (replicate 16 1)) (TypeName_of (replicate 16 1)) (GUID_String (replicate 16 2)) [] 3 3 0 0 false]) by (vm_compute; reflexivity).
    rewrite Hl in Hp. apply list_elem_of_singleton in Hp as ->. vm_compute. split_and!; discriminate.
  - right. reflexivity.
  - split_and!; [reflexivity|done|reflexivity].
  - apply plainReadBack_faithful.
  - exists t', r. split_and!; [exact H1|exact H2|exact H3|exact H4].
Defined.

(** What a clone leaves at a place of the target. *)
Definition clonedAt (x : Target * result bmr_err CloneResult) (off n : nat) : option bytes := match x.2 with Ok _ => Some (sub (tg_data x.1) off n) | Err _ => None end.

(** A clone onto a larger target without a plan leaves every partition where it was and fills the
    gaps with zeros: what the source kept between its partitions is lost, although the
    geometry is unchanged. *)
Theorem clone_larger_loses_gaps : sub gapDisk (Z.to_nat 2048) 2 = [9; 9] ∧
  clonedAt (CloneDisk (mkCloneDisk gapDisk 3584 4096 None ∅ None) (usedTarget (Z.to_nat 4096))) (Z.to_nat 2048) 2 = Some [0; 0].
Proof. split; vm_compute; reflexivity. Qed.

(** The backup structures end before the last sector of the disk. *)
Definition tailDisk : bytes := sampleDisk 3 4 6 4 ++ replicate 512 9.

(** A clone onto a target of the same size does not copy what lies behind backup structures that
    are not at the end of the disk: the target keeps what it held there. *)
Theorem clone_skips_tail : sub tailDisk (Z.to_nat 3584) 2 = [9; 9] ∧
  clonedAt (CloneDisk (mkCloneDisk tailDisk 4096 4096 None ∅ None) (usedTarget (Z.to_nat 4096))) (Z.to_nat 3584) 2 = Some [5; 5].
Proof. split; vm_compute; reflexivity. Qed.
