(* ===== verification/Restored.v ===== *)
(** * core/restore: what a restored volume and a verified one are

    The interface [Supplies] is what restore and verify need of an index and a store: the
    chunks by their identities, however the store gets them.  Restore is proved against
    it; a store over local packs is an instance. *)

From S2P Require Import Chunker.
From S2P Require Import Prelude GoBytes GoRuntime GoFiles Hashes HashTable HashIndex Crypto Dedup PackStore Packs Preprocess RepoConfig Rebuild.
From S2P Require Import Dnm DnmAccess Restore.

(** ** Writes that tile a file *)

Definition applyWrites (f : bytes) (ws : list (Z * bytes)) : bytes := foldl (λ f w, WriteAt f w.1 w.2) f ws.
Fixpoint contiguous (o : Z) (ws : list (Z * bytes)) : Prop :=
  match ws with [] => True | w :: ws => w.1 = o ∧ contiguous (o + len w.2) ws end.
Definition inside (n : Z) (w : Z * bytes) : Prop := 0 ≤ w.1 ∧ w.1 + len w.2 ≤ n.
Definition apart (w w' : Z * bytes) : Prop := w.1 + len w.2 ≤ w'.1 ∨ w'.1 + len w'.2 ≤ w.1.

Lemma length_applyWrites ws f : Forall (inside (len f)) ws → length (applyWrites f ws) = length f.
Proof.
  revert f. induction ws as [|w ws IH]; intros f Hw; [done|]. apply Forall_cons in Hw as [[H1 H2] Hw]. cbn.
  pose proof (length_WriteAt f w.1 w.2 H1 H2) as Hl. rewrite IH; rewrite ?Hl; done.
Qed.

(** A write that no other one overlaps is read back after all of them, in any order. *)
Lemma applyWrites_read ws w : ∀ f, Forall (inside (len f)) ws → inside (len f) w → Forall (λ w', w' = w ∨ apart w' w) ws →
  w ∈ ws ∨ ReadAt f w.1 (len w.2) = Some w.2 → ReadAt (applyWrites f ws) w.1 (len w.2) = Some w.2.
Proof.
  induction ws as [|w' ws IH]; intros f Hin Hw Hap Hor; [destruct Hor as [?%elem_of_nil|?]; done|].
  apply Forall_cons in Hin as [[H1 H2] Hin]. apply Forall_cons in Hap as [Hw' Hap]. cbn. pose proof (length_WriteAt f w'.1 w'.2 H1 H2) as Hl.
  apply IH; rewrite ?Hl; try done. destruct (decide (w ∈ ws)) as [?|Hn]; [by left|right]. destruct Hw as [Hw1 Hw2].
  destruct Hw' as [->|Ha]; [by apply ReadAt_WriteAt_eq|]. destruct Hor as [[<-|?]%elem_of_cons|Hr]; [by apply ReadAt_WriteAt_eq|done|].
  rewrite ReadAt_WriteAt_ne; [done|done|done|]. unfold apart in Ha. lia.
Qed.

Lemma contiguous_after o ws w : contiguous o ws → w ∈ ws → o ≤ w.1.
Proof. revert o. induction ws as [|x ws IH]; intros o; [by intros _ ?%elem_of_nil|]. intros [<- Hc] [->|Hw]%elem_of_cons; [done|]. specialize (IH _ Hc Hw). lia. Qed.

Lemma contiguous_apart o ws : contiguous o ws → ∀ w w', w ∈ ws → w' ∈ ws → w' = w ∨ apart w' w.
Proof.
  revert o. induction ws as [|x ws IH]; intros o; [by intros _ w w' ?%elem_of_nil|]. intros [<- Hc] w w' [->|Hw]%elem_of_cons [->|Hw']%elem_of_cons; [by left| | |].
  - right. right. by apply (contiguous_after _ _ _ Hc).
  - right. left. by apply (contiguous_after _ _ _ Hc).
  - by eapply IH.
Qed.

Lemma contiguous_inside o ws : 0 ≤ o → contiguous o ws → Forall (inside (o + len (concat (ws.*2)))) ws.
Proof.
  revert o. induction ws as [|w ws IH]; intros o Ho; [done|]. intros [<- Hc]. cbn. rewrite length_app. constructor; [unfold inside; lia|].
  eapply Forall_impl; [apply (IH (w.1 + len w.2) ltac:(lia) Hc)|]. unfold inside. intros x. lia.
Qed.

Lemma contiguous_concat f ws : ∀ o, 0 ≤ o → contiguous o ws → (∀ w, w ∈ ws → ReadAt f w.1 (len w.2) = Some w.2) →
  len f = o + len (concat (ws.*2)) → drop (Z.to_nat o) f = concat (ws.*2).
Proof.
  induction ws as [|w ws IH]; intros o Ho; [intros _ _ Hl; apply drop_ge; cbn in Hl; lia|]. intros [<- Hc] Hr Hl. cbn in *. rewrite length_app in Hl.
  specialize (Hr w ltac:(left)) as Hw. rewrite ReadAt_Some in Hw by lia. injection Hw as Hw.
  rewrite <- (IH (w.1 + len w.2)); [|lia|done|intros x Hx; apply Hr; by right|lia].
  rewrite <- (take_drop (length w.2) (drop (Z.to_nat w.1) f)). rewrite Nat2Z.id in Hw. rewrite Hw, drop_drop. do 2 f_equal. lia.
Qed.

(** Contiguous writes that fill a file fill it in any order. *)
Lemma tile_writes f ws ws' : contiguous 0 ws → ws' ≡ₚ ws → len f = len (concat (ws.*2)) → applyWrites f ws' = concat (ws.*2).
Proof.
  intros Hc Hp Hl. assert (Hin : Forall (inside (len f)) ws') by (rewrite Hp, Hl; by apply (contiguous_inside 0)).
  pose proof (length_applyWrites ws' f Hin) as Hlen. rewrite <- (contiguous_concat (applyWrites f ws') ws 0); [by rewrite drop_0|done|done| |lia].
  intros w Hw. apply applyWrites_read; [done| | |left; by rewrite Hp].
  - rewrite Forall_forall in Hin. apply Hin. by rewrite Hp.
  - apply Forall_forall. intros w' Hw'. rewrite Hp in Hw'. by apply (contiguous_apart 0 ws).
Qed.

(** ** The interface *)

(** The index finds the chunks of [content], and from any store state that satisfies [I]
    the store reads them and stays in [I]. *)
Class Supplies `{!Primitives, !Zstd} (idx : DedupIndex) (hooks : Hooks) (I : ChunkStore → Prop) (content : bytes → option bytes) : Prop := {
  su_reads : ∀ h data, content h = Some data → ∃ e, LookupDirect idx h = Ok (Some e) ∧
    ∀ st, I st → ∃ st', Retrieve hooks st (PackNumber e) (i64 (StoreOffset e)) = (st', Ok data) ∧ I st' }.

(** The bytes an entry stands for, and what it takes for a restore to write them. *)
Definition bytesOf (content : bytes → option bytes) (e : Entry) : bytes :=
  if IsExcluded e then zeros (Z.to_nat (ChunkLength e)) else default [] (content (ChunkHash e)).
Definition suits (norm : option Normalizer) (content : bytes → option bytes) (e : Entry) : Prop :=
  if IsExcluded e then 0 ≤ ChunkLength e
  else ∃ d, content (ChunkHash e) = Some d ∧ strongOf norm d = ChunkHash e ∧ len d = ChunkLength e.
Definition writeOf (content : bytes → option bytes) (e : Entry) : Z * bytes := (VolumeOffset e, bytesOf content e).

(** A target that accepts every write up to [n] and takes that size. *)
Definition accepting (t : Target) (n : Z) : Prop :=
  (∀ off k, 0 ≤ off → off + k ≤ n → tg_accepts t off k = true) ∧ tg_resizes t n = true ∧ tg_syncs t = true.

(** ** Pass 1 *)

Lemma scanBatch_app idx b1 : ∀ b2 i s, scanBatch idx i (b1 ++ b2) s =
  match scanBatch idx i b1 s with (s, Some e) => (s, Some e) | (s, None) => scanBatch idx (i + len b1) b2 s end.
Proof.
  induction b1 as [|e b1 IH]; intros b2 i s; cbn [app scanBatch]; [by rewrite Z.add_0_r|].
  assert (Hi : i + 1 + len b1 = i + len (e :: b1)) by (cbn [length]; lia).
  destruct (IsExcluded e).
  - destruct (_ <? 0); [done|]. destruct (tgWriteAt _ _ _); [|done]. rewrite IH, Hi. done.
  - destruct (LookupDirect _ _) as [[ie|]|]; [|done|done]. rewrite IH, Hi. done.
Qed.

(** Batches do not matter. *)
Lemma scanEntries_all idx ea es `{!Accesses ea es} fuel : ∀ lo s, (length es - lo < fuel)%nat →
  scanEntries fuel idx ea (Z.of_nat lo) s = scanBatch idx (Z.of_nat lo) (drop lo es) s.
Proof.
  induction fuel as [|fuel IH]; intros lo s Hf; [lia|]. cbn [scanEntries]. rewrite ac_count. destruct (Z.ltb_spec (Z.of_nat lo) (len es)) as [Hlt|Hge].
  2:{ rewrite drop_ge by lia. done. }
  destruct (Z_of_nat_complete entryBatch ltac:(by vm_compute)) as [B HB]. assert (HB0 : (0 < B)%nat) by (assert (0 < entryBatch) by (by vm_compute); lia). rewrite HB.
  set (n := (Nat.min (length es - lo) B)%nat). assert (Hhi : (if len es <? Z.of_nat lo + Z.of_nat B then len es else Z.of_nat lo + Z.of_nat B) = Z.of_nat (lo + n)).
  { destruct (Z.ltb_spec (len es) (Z.of_nat lo + Z.of_nat B)); lia. }
  rewrite Hhi, ac_range by lia. rewrite <- (take_drop n (drop lo es)) at 2. rewrite scanBatch_app. destruct (scanBatch _ _ _ _) as [s' [e|]]; [done|].
  rewrite <- Nat2Z.inj_add, IH by lia. rewrite drop_drop, length_take, length_drop. destruct (decide (length es - lo ≤ B)%nat) as [Hle|Hgt].
  - rewrite !drop_ge by lia. done.
  - replace (n `min` (length es - lo))%nat with B by lia. replace n with B by lia. f_equal. lia.
Qed.

(** The location of a chunk, and the references of a batch. *)
Definition refOf (idx : DedupIndex) (x : Z * Entry) : option chunkRef :=
  if IsExcluded x.2 then None
  else match LookupDirect idx (ChunkHash x.2) with Ok (Some ie) => Some (mkRef x.1 (PackNumber ie) (StoreOffset ie)) | _ => None end.
(** The zeros of a batch. *)
Definition zeroWrite (e : Entry) : option (Z * bytes) := if IsExcluded e then Some (VolumeOffset e, zeros (Z.to_nat (ChunkLength e))) else None.

Lemma tgWriteAt_ok t d off n : accepting t n → inside n (off, d) → tgWriteAt t d off = Some (withData t (WriteAt (tg_data t) off d)).
Proof. intros (Ha & _) [H1 H2]. cbn in *. unfold tgWriteAt. by rewrite (proj2 (Z.ltb_ge _ _)), Ha by lia. Qed.

Lemma scanBatch_ok `{!Primitives, !Zstd} idx hooks I content norm n batch `{!Supplies idx hooks I content} : ∀ i s, accepting (p1_target s) n → Forall (suits norm content) batch →
  Forall (λ e, inside n (writeOf content e)) batch →
  scanBatch idx i batch s = (mkPass1 (withData (p1_target s) (applyWrites (tg_data (p1_target s)) (omap zeroWrite batch)))
    (p1_refs s ++ omap (refOf idx) (numberEntries i batch)) (p1_excluded s + len (omap zeroWrite batch)) (p1_written s + len (concat ((omap zeroWrite batch).*2))), None).
Proof.
  induction batch as [|e batch IH]; intros i s Hacc Hs Hin.
  { cbn. rewrite app_nil_r, !Z.add_0_r. destruct s as [[]]. done. }
  apply Forall_cons in Hs as [He Hs]. apply Forall_cons in Hin as [Hi Hin]. unfold suits, writeOf, bytesOf in He, Hi. cbn [scanBatch].
  change (omap zeroWrite (e :: batch)) with (match zeroWrite e with Some w => w :: omap zeroWrite batch | None => omap zeroWrite batch end).
  change (omap (refOf idx) (numberEntries i (e :: batch))) with
    (match refOf idx (i, e) with Some r => r :: omap (refOf idx) (numberEntries (i + 1) batch) | None => omap (refOf idx) (numberEntries (i + 1) batch) end).
  assert (Hz : zeroWrite e = if IsExcluded e then Some (VolumeOffset e, zeros (Z.to_nat (ChunkLength e))) else None) by done. rewrite Hz. unfold refOf at 1. cbn [fst snd].
  destruct (IsExcluded e).
  - rewrite (proj2 (Z.ltb_ge _ _)) by done. rewrite (tgWriteAt_ok _ _ _ n) by done. rewrite IH by done. cbn. rewrite !length_app, length_zeros.
    do 2 f_equal; lia.
  - destruct He as (d & Hd & _). destruct (su_reads _ _ Hd) as (ie & -> & _). rewrite IH by done. cbn. rewrite <- app_assoc. done.
Qed.

(** ** Pass 2 *)

Section pass2.
Context {SS : SortSlice} {PR : Primitives} {ZS : Zstd}.
Context (r : Restorer) (I : ChunkStore → Prop) (content : bytes → option bytes) `{!Supplies (rt_index r) (rt_hooks r) I content}.
Context (ea : EntryAccessor) (es : list Entry) `{!Accesses ea es} (n : Z).

(** The write a reference leads to. *)
Definition refWrite (ref : chunkRef) : Z * bytes :=
  match es !! Z.to_nat (cr_entryIdx ref) with Some e => writeOf content e | None => (0, []) end.

(** A reference that pass 1 made. *)
Definition refers (ref : chunkRef) : Prop := ∃ i e, es !! i = Some e ∧ refOf (rt_index r) (Z.of_nat i, e) = Some ref.

Lemma restoreRef_ok ref s : refers ref → I (p2_store s) → accepting (p2_target s) n → Forall (suits (rt_norm r) content) es → Forall (λ e, inside n (writeOf content e)) es →
  ∃ st', restoreRef r ea ref s = (mkPass2 st' (withData (p2_target s) (applyWrites (tg_data (p2_target s)) [refWrite ref])) (p2_restored s + 1) (p2_written s + len (refWrite ref).2), None) ∧ I st'.
Proof.
  intros (i & e & Hi & Hr) HI Hacc Hs Hin. unfold refOf in Hr. cbn [fst snd] in Hr. destruct (IsExcluded e) eqn:Hx; [done|].
  rewrite Forall_forall in Hs, Hin. pose proof (Hs e (list_elem_of_lookup_2 _ _ _ Hi)) as Hse. pose proof (Hin e (list_elem_of_lookup_2 _ _ _ Hi)) as Hie.
  unfold suits in Hse. rewrite Hx in Hse. destruct Hse as (d & Hd & Hh & Hl). destruct (su_reads _ _ Hd) as (ie & Hlk & Hret). rewrite Hlk in Hr. injection Hr as <-.
  unfold restoreRef, refWrite. cbn [cr_entryIdx cr_pack cr_off]. rewrite (ac_at _ _ Hi). destruct (Hret _ HI) as (st' & -> & HI').
  rewrite bool_decide_eq_true_2 by done. rewrite Hl, Z.eqb_refl. cbn [negb p2_target p2_restored p2_written]. unfold writeOf, bytesOf in *. rewrite Hx, Hd in Hie. cbn in Hie.
  rewrite (tgWriteAt_ok _ _ _ n) by done. exists st'. split; [|done]. rewrite Nat2Z.id, Hi, Hx, Hd. cbn. by rewrite Hl.
Qed.

Lemma restoreRefs_ok refs : Forall (suits (rt_norm r) content) es → Forall (λ e, inside n (writeOf content e)) es → Forall refers refs → ∀ s, I (p2_store s) → accepting (p2_target s) n →
  ∃ st', restoreRefs r ea refs s = (mkPass2 st' (withData (p2_target s) (applyWrites (tg_data (p2_target s)) (refWrite <$> refs))) (p2_restored s + len refs)
    (p2_written s + len (concat ((refWrite <$> refs).*2))), None) ∧ I st'.
Proof.
  intros Hs Hin. induction 1 as [|ref refs Hr _ IH]; intros s HI Hacc.
  { exists (p2_store s). split; [|done]. cbn. rewrite !Z.add_0_r. by destruct s as [? []]. }
  cbn [restoreRefs]. destruct (restoreRef_ok ref s Hr HI Hacc Hs Hin) as (st' & -> & HI').
  match goal with |- context [restoreRefs r ea refs ?s1] => destruct (IH s1 HI' Hacc) as (st2 & -> & HI2) end.
  exists st2. split; [|done]. cbn. rewrite length_app. do 2 f_equal; [lia|]. rewrite <- Z.add_assoc, <- Nat2Z.inj_add. done.
Qed.

Lemma refs_made l pre : es = pre ++ l → Forall refers (omap (refOf (rt_index r)) (numberEntries (len pre) l)).
Proof.
  revert pre. induction l as [|e l IH]; intros pre He; [constructor|]. cbn [numberEntries].
  change (omap (refOf (rt_index r)) ((len pre, e) :: numberEntries (len pre + 1) l)) with
    (match refOf (rt_index r) (len pre, e) with Some x => x :: omap (refOf (rt_index r)) (numberEntries (len pre + 1) l) | None => omap (refOf (rt_index r)) (numberEntries (len pre + 1) l) end).
  assert (Hrest : Forall refers (omap (refOf (rt_index r)) (numberEntries (len pre + 1) l))).
  { replace (len pre + 1) with (len (pre ++ [e])) by (rewrite length_app; cbn; lia). apply IH. by rewrite <- app_assoc. }
  destruct (refOf (rt_index r) (len pre, e)) as [ref|] eqn:Hr; [|done]. constructor; [|done]. exists (length pre), e. split; [|done].
  rewrite He. by apply list_lookup_middle.
Qed.

(** Zeros and chunks together are the writes of all entries. *)
Lemma all_writes l pre : es = pre ++ l → Forall (suits (rt_norm r) content) l →
  omap zeroWrite l ++ (refWrite <$> omap (refOf (rt_index r)) (numberEntries (len pre) l)) ≡ₚ writeOf content <$> l ∧
  (length (omap zeroWrite l) + length (omap (refOf (rt_index r)) (numberEntries (len pre) l)) = length l)%nat.
Proof.
  revert pre. induction l as [|e l IH]; intros pre He Hs; [done|]. apply Forall_cons in Hs as [Hse Hs]. cbn [numberEntries].
  change (omap (refOf (rt_index r)) ((len pre, e) :: numberEntries (len pre + 1) l)) with
    (match refOf (rt_index r) (len pre, e) with Some x => x :: omap (refOf (rt_index r)) (numberEntries (len pre + 1) l) | None => omap (refOf (rt_index r)) (numberEntries (len pre + 1) l) end).
  change (omap zeroWrite (e :: l)) with (match zeroWrite e with Some w => w :: omap zeroWrite l | None => omap zeroWrite l end).
  destruct (IH (pre ++ [e])) as [IH1 IH2]; [by rewrite <- app_assoc|done|]. replace (len (pre ++ [e])) with (len pre + 1) in IH1, IH2 by (rewrite length_app; cbn; lia).
  assert (Hw : (VolumeOffset e, bytesOf content e) = writeOf content e) by done. unfold bytesOf in Hw. unfold suits in Hse. rewrite fmap_cons.
  assert (Hz : zeroWrite e = if IsExcluded e then Some (VolumeOffset e, zeros (Z.to_nat (ChunkLength e))) else None) by done. rewrite Hz.
  destruct (refOf (rt_index r) (len pre, e)) as [ref|] eqn:Hr; unfold refOf in Hr; cbn [fst snd] in Hr; destruct (IsExcluded e) eqn:Hx; [done| | |].
  - destruct Hse as (d & Hd & _). destruct (su_reads _ _ Hd) as (ie & Hlk & _). rewrite Hlk in Hr. injection Hr as <-. split; [|cbn; lia]. rewrite fmap_cons.
    rewrite <- Permutation_middle, IH1. unfold refWrite at 1. cbn [cr_entryIdx]. rewrite Nat2Z.id, He, list_lookup_middle by done. done.
  - rewrite Hw. split; [|cbn; lia]. cbn [app]. by rewrite IH1.
  - destruct Hse as (d & Hd & _). destruct (su_reads _ _ Hd) as (ie & Hlk & _). by rewrite Hlk in Hr.
Qed.
End pass2.

(** ** Restore *)

Section theorems.
Context {SS : SortSlice} {PR : Primitives} {ZS : Zstd}.

(** The entries lie end to end from 0 and the backup ends where they do. *)
Definition laidOut (content : bytes → option bytes) (b : Backup) (es : list Entry) : Prop :=
  contiguous 0 (writeOf content <$> es) ∧ TotalBytes b = len (concat (bytesOf content <$> es)).

Lemma writes_bytes content es : (writeOf content <$> es).*2 = bytesOf content <$> es.
Proof. rewrite <- list_fmap_compose. done. Qed.

Lemma length_Truncate f n : 0 ≤ n → len (Truncate f n) = n.
Proof. intros Hn. unfold Truncate. rewrite length_app, length_take, length_zeros. lia. Qed.

Lemma concat_perm_length {A} (l k : list (list A)) : l ≡ₚ k → length (concat l) = length (concat k).
Proof. induction 1; cbn; rewrite ?length_app; lia. Qed.

Lemma restore_exact r b ea es t I content : Accesses ea es → Supplies (rt_index r) (rt_hooks r) I content → I (rt_store r) →
  Forall (suits (rt_norm r) content) es → laidOut content b es → accepting t (TotalBytes b) →
  ∃ st' k, RestoreEntries r b ea t = (st', withData t (concat (bytesOf content <$> es)), Ok (mkRestoreResult (len es) (len es - k) k (TotalBytes b))) ∧ I st' ∧
    k = len (omap zeroWrite es).
Proof.
  intros Ha Hsu HI Hs [Hc Htot] (Hacc & Hrs & Hsy). unfold RestoreEntries. rewrite ac_count.
  assert (Hnz : (len es =? 0) && (0 <? TotalBytes b) = false). { destruct es; [cbn in Htot; rewrite Htot; done|done]. }
  rewrite Hnz. unfold tgTruncate. rewrite (proj2 (Z.ltb_ge (TotalBytes b) 0)), Hrs by lia. cbn [negb orb].
  set (t0 := withData t (Truncate (tg_data t) (TotalBytes b))). set (n := TotalBytes b) in *.
  assert (Ht0 : accepting t0 n) by (by split_and!). assert (Hlen : len (tg_data t0) = n) by (cbn; apply length_Truncate; lia).
  assert (Hin : Forall (λ e, inside n (writeOf content e)) es).
  { pose proof (contiguous_inside 0 _ ltac:(lia) Hc) as Hi. rewrite Forall_fmap, writes_bytes in Hi. by rewrite Htot. }
  change 0 with (Z.of_nat 0) at 3. rewrite (scanEntries_all (rt_index r) ea es (S (Z.to_nat (len es))) 0) by lia. rewrite drop_0. change (Z.of_nat 0) with 0.
  rewrite (scanBatch_ok (rt_index r) (rt_hooks r) I content (rt_norm r) n) by done. cbn [p1_target p1_refs p1_written p1_excluded app].
  set (refs := omap (refOf (rt_index r)) (numberEntries 0 es)). pose proof (refs_made r es es [] eq_refl) as Hrefs. fold refs in Hrefs.
  destruct (all_writes r I content es es [] eq_refl Hs) as [Hperm Hcount]. change (len []) with 0 in Hperm, Hcount. fold refs in Hperm, Hcount.
  match goal with |- context [restoreRefs r ea _ ?s0] =>
    destruct (restoreRefs_ok r I content ea es n (sortSlice refKey refs) Hs Hin (Forall_sortSlice _ _ _ Hrefs) s0 HI Ht0) as (st' & -> & HI') end.
  cbn [p2_store p2_target p2_restored p2_written tg_data withData]. change (tg_syncs t0) with (tg_syncs t). rewrite Hsy.
  assert (Hall : omap zeroWrite es ++ (refWrite content es <$> sortSlice refKey refs) ≡ₚ writeOf content <$> es) by (by rewrite sortSlice_perm).
  exists st', (len (omap zeroWrite es)). split; [|done]. f_equal; [f_equal|do 2 f_equal].
  - unfold t0, withData. f_equal. cbn [tg_data]. unfold applyWrites. rewrite <- foldl_app. change (applyWrites (tg_data t0) (omap zeroWrite es ++ (refWrite content es <$> sortSlice refKey refs)) = concat (bytesOf content <$> es)).
    rewrite (tile_writes _ (writeOf content <$> es)); [by rewrite writes_bytes|done|done|by rewrite writes_bytes, <- Htot].
  - rewrite sortSlice_perm. lia.
  - rewrite Z.add_0_l, <- Nat2Z.inj_add, <- length_app, <- concat_app, <- fmap_app, Htot, <- writes_bytes. f_equal. apply concat_perm_length. by rewrite Hall.
Qed.

(** A restore writes the backup: when the entries lie end to end and their chunks can be
    read, the target ends as exactly their bytes, zeros for excluded regions, whatever
    the target held, however entries are batched and chunks reordered by pack, and however
    the store obtains its packs; every entry is counted once. *)
Theorem restore_writes_backup r b ea es t I content : Accesses ea es → Supplies (rt_index r) (rt_hooks r) I content → I (rt_store r) →
  Forall (suits (rt_norm r) content) es → laidOut content b es → accepting t (TotalBytes b) →
  ∃ st' res, RestoreEntries r b ea t = (st', withData t (concat (bytesOf content <$> es)), Ok res) ∧ I st' ∧
    rr_TotalChunks res = len es ∧ rr_RestoredChunks res + rr_ExcludedChunks res = len es ∧ rr_BytesWritten res = TotalBytes b.
Proof.
  intros Ha Hsu HI Hs Hl Hacc. destruct (restore_exact r b ea es t I content Ha Hsu HI Hs Hl Hacc) as (st' & k & H1 & H2 & _).
  eexists st', _. split; [exact H1|]. cbn. split_and!; [done|done|lia|done].
Qed.

(** ** A restore that succeeds *)

Definition zeroOf (x : Z * Entry) : option (Z * (Z * bytes)) := pair x.1 <$> zeroWrite x.2.

Lemma omap_cons' {A B} (f : A → option B) x l : omap f (x :: l) = match f x with Some y => y :: omap f l | None => omap f l end.
Proof. done. Qed.

Lemma numberEntries_lookup l : ∀ i k, numberEntries i l !! k = pair (i + Z.of_nat k) <$> l !! k.
Proof.
  induction l as [|e l IH]; intros i k; [done|]. destruct k as [|k]; cbn; [by rewrite Z.add_0_r|]. rewrite IH. destruct (l !! k); cbn; [|done]. do 2 f_equal. lia.
Qed.

Lemma numberEntries_elem l y : y ∈ numberEntries 0 l → ∃ i, y.1 = Z.of_nat i ∧ l !! i = Some y.2.
Proof.
  intros [i Hi]%list_elem_of_lookup. rewrite numberEntries_lookup in Hi. destruct (l !! i) as [e|] eqn:He; [|done]. cbn in Hi. injection Hi as <-. by exists i.
Qed.

Lemma NoDup_numberEntries l : ∀ i, NoDup (numberEntries i l).*1.
Proof.
  intros i. apply NoDup_alt. intros a b x Ha Hb. rewrite list_lookup_fmap, numberEntries_lookup in Ha, Hb.
  destruct (l !! a), (l !! b); cbn in *; simplify_eq. lia.
Qed.

(** What pass 1 has done when it succeeds. *)
Lemma scanBatch_inv idx batch : ∀ i s s', scanBatch idx i batch s = (s', None) →
  tg_data (p1_target s') = applyWrites (tg_data (p1_target s)) ((omap zeroOf (numberEntries i batch)).*2) ∧
  p1_refs s' = p1_refs s ++ omap (refOf idx) (numberEntries i batch) ∧
  (omap zeroOf (numberEntries i batch)).*1 ++ (cr_entryIdx <$> omap (refOf idx) (numberEntries i batch)) ≡ₚ (numberEntries i batch).*1.
Proof.
  induction batch as [|e batch IH]; intros i s s'; [intros [= <-]; cbn; rewrite app_nil_r; done|]. cbn [scanBatch numberEntries]. rewrite !omap_cons'. unfold zeroOf at 1 3, refOf at 1 3, zeroWrite. cbn [fst snd].
  assert (Hz : zeroOf (i, e) = if IsExcluded e then Some (i, (VolumeOffset e, zeros (Z.to_nat (ChunkLength e)))) else None) by (unfold zeroOf, zeroWrite; cbn; by destruct (IsExcluded e)).
  assert (Hr : refOf idx (i, e) = if IsExcluded e then None else match LookupDirect idx (ChunkHash e) with Ok (Some ie) => Some (mkRef i (PackNumber ie) (StoreOffset ie)) | _ => None end) by done.
  rewrite ?Hz, ?Hr. destruct (IsExcluded e).
  - destruct (_ <? 0); [done|]. unfold tgWriteAt. destruct (_ || _); [done|]. intros (H1 & H2 & H3)%IH. cbn in H1, H2. split_and!; [done|done|]. cbn. by rewrite H3.
  - destruct (LookupDirect idx (ChunkHash e)) as [[ie|]|]; [|done|done]. intros (H1 & H2 & H3)%IH. cbn in H1, H2. split_and!; [done|by rewrite <- app_assoc in H2|].
    cbn. by rewrite <- Permutation_middle, H3.
Qed.

(** A write of pass 2. *)
Definition wrote (r : Restorer) (ea : EntryAccessor) (ref : chunkRef) (w : Z * bytes) : Prop :=
  ∃ e, At ea (cr_entryIdx ref) = Ok e ∧ w.1 = VolumeOffset e ∧ strongOf (rt_norm r) w.2 = ChunkHash e ∧ len w.2 = ChunkLength e.

Lemma restoreRefs_inv r ea refs : ∀ s s', restoreRefs r ea refs s = (s', None) →
  ∃ ws, Forall2 (wrote r ea) refs ws ∧ tg_data (p2_target s') = applyWrites (tg_data (p2_target s)) ws.
Proof.
  induction refs as [|ref refs IH]; intros s s'; cbn [restoreRefs]; [intros [= <-]; by exists []|]. unfold restoreRef.
  destruct (At ea (cr_entryIdx ref)) as [e|er] eqn:He; [|done]. destruct (Retrieve _ _ _ _) as [st [data|er]]; [|done].
  destruct (bool_decide_reflect (strongOf (rt_norm r) data = ChunkHash e)) as [Hh|]; [|done]. destruct (Z.eqb_spec (len data) (ChunkLength e)) as [Hl|]; [|done]. cbn [negb].
  unfold tgWriteAt. destruct (_ || _); [done|]. intros (ws & Hw & Hd)%IH. exists ((VolumeOffset e, data) :: ws). split; [|done]. constructor; [by exists e|done].
Qed.

(** Entries that do not overlap and lie inside [n] bytes. *)
Record spread (n : Z) (es : list Entry) : Prop := {
  sp_inside : ∀ e, e ∈ es → 0 ≤ VolumeOffset e ∧ 0 ≤ ChunkLength e ∧ entry_end e ≤ n;
  sp_apart : ∀ i j e e', i ≠ j → es !! i = Some e → es !! j = Some e' → entry_end e ≤ VolumeOffset e' ∨ entry_end e' ≤ VolumeOffset e }.

(** Writes, each with the index of its entry, at most one for an index. *)
Lemma indexed_read n es f (L : list (Z * (Z * bytes))) k w : spread n es → len f = n → NoDup L.*1 →
  (∀ x, x ∈ L → ∃ i e, x.1 = Z.of_nat i ∧ es !! i = Some e ∧ x.2.1 = VolumeOffset e ∧ len x.2.2 = ChunkLength e) →
  (k, w) ∈ L → ReadAt (applyWrites f L.*2) w.1 (len w.2) = Some w.2.
Proof.
  intros [Hin Hap] Hl Hnd HL Hw.
  assert (Hins : ∀ x, x ∈ L → inside (len f) x.2).
  { intros x Hx. destruct (HL x Hx) as (i & e & _ & He & Ho & Hlen). destruct (Hin e (list_elem_of_lookup_2 _ _ _ He)) as (? & ? & ?). unfold inside, entry_end in *. lia. }
  apply applyWrites_read.
  - apply Forall_fmap, Forall_forall. intros x Hx. by apply Hins.
  - by apply (Hins (k, w)).
  - apply Forall_fmap, Forall_forall. intros x Hx. destruct (HL x Hx) as (i & e & Hi & He & Ho & Hlen). destruct (HL _ Hw) as (j & e' & Hj & He' & Ho' & Hlen'). cbn in *.
    destruct (decide (i = j)) as [->|Hne].
    + left. apply list_elem_of_lookup in Hx as [a Ha]. apply list_elem_of_lookup in Hw as [b Hb].
      assert (a = b). { eapply (proj1 (NoDup_alt _) Hnd); rewrite list_lookup_fmap; [rewrite Ha; cbn; by rewrite Hi|rewrite Hb; cbn; by rewrite Hj]. }
      subst b. rewrite Ha in Hb. by injection Hb as ->.
    + right. destruct (Hap i j e e' Hne He He') as [?|?]; unfold apart, entry_end in *; [left|right]; lia.
  - left. apply list_elem_of_fmap. by exists (k, w).
Qed.

Lemma zip_fst_snd {A B} (l : list A) (k : list B) : length l = length k → (zip l k).*1 = l ∧ (zip l k).*2 = k.
Proof. revert k. induction l as [|x l IH]; intros [|y k] Hl; try done. cbn in *. injection Hl as Hl. destruct (IH k Hl) as [-> ->]. done. Qed.

(** C16. A restore never lies: whatever index, packs, hooks and target, if it reports success
    then every entry's region of the target holds bytes with the identity the manifest
    lists, or zeros where it was excluded (for entries that do not overlap and lie inside
    the backup). *)
Theorem restore_integrity r b ea es t st' t' res : Accesses ea es → spread (TotalBytes b) es → RestoreEntries r b ea t = (st', t', Ok res) →
  ∀ e, e ∈ es → ∃ d, ReadAt (tg_data t') (VolumeOffset e) (ChunkLength e) = Some d ∧
    if IsExcluded e then d = zeros (Z.to_nat (ChunkLength e)) else strongOf (rt_norm r) d = ChunkHash e.
Proof.
  intros Ha Hsp. unfold RestoreEntries. rewrite ac_count. destruct (_ && _); [done|]. unfold tgTruncate. destruct (_ || _) eqn:Htr; [done|].
  set (t0 := withData t (Truncate (tg_data t) (TotalBytes b))). change 0 with (Z.of_nat 0) at 1.
  rewrite (scanEntries_all (rt_index r) ea es (S (Z.to_nat (len es))) 0) by lia. rewrite drop_0. change (Z.of_nat 0) with 0.
  destruct (scanBatch _ _ _ _) as [s1 [er|]] eqn:Hsc; [done|]. destruct (restoreRefs _ _ _ _) as [s2 [er|]] eqn:Hrr; [done|].
  destruct (tg_syncs _); [|done]. intros [= <- <- <-]. apply scanBatch_inv in Hsc as (Hd1 & Hrf & Hperm). apply restoreRefs_inv in Hrr as (ws & Hws & Hd2).
  cbn [p2_target p1_target] in Hd1, Hd2. cbn [p1_refs app] in Hrf.
  set (refs := sortSlice refKey (p1_refs s1)) in *. set (zs := omap zeroOf (numberEntries 0 es)) in *. set (L := zs ++ zip (cr_entryIdx <$> refs) ws).
  destruct (zip_fst_snd (cr_entryIdx <$> refs) ws) as [HL1 HL2]; [rewrite length_fmap; by eapply Forall2_length|].
  assert (Hdata : tg_data (p2_target s2) = applyWrites (tg_data t0) L.*2). { rewrite Hd2, Hd1. unfold L. rewrite fmap_app, HL2. unfold applyWrites. by rewrite foldl_app. }
  assert (HLp : L.*1 ≡ₚ (numberEntries 0 es).*1). { unfold L. rewrite fmap_app, HL1. unfold refs. rewrite (fmap_Permutation _ _ _ (sortSlice_perm _ _)), Hrf. exact Hperm. }
  assert (HLok : ∀ x, x ∈ L → ∃ i e, x.1 = Z.of_nat i ∧ es !! i = Some e ∧ x.2.1 = VolumeOffset e ∧ len x.2.2 = ChunkLength e ∧
    if IsExcluded e then x.2.2 = zeros (Z.to_nat (ChunkLength e)) else strongOf (rt_norm r) x.2.2 = ChunkHash e).
  { intros x [Hx|Hx]%elem_of_app.
    - apply list_elem_of_omap in Hx as (y & Hy & Hz). apply numberEntries_elem in Hy as (i & Hi & He). exists i, y.2. unfold zeroOf, zeroWrite in Hz.
      destruct (IsExcluded y.2); [|done]. injection Hz as <-. cbn. split_and!; try done.
      destruct (sp_inside _ _ Hsp y.2 (list_elem_of_lookup_2 _ _ _ He)) as (_ & ? & _). rewrite length_zeros. lia.
    - apply list_elem_of_lookup in Hx as [a Hx]. apply lookup_zip_with_Some in Hx as (k & w & -> & Hk & Hw). rewrite list_lookup_fmap in Hk.
      destruct (refs !! a) as [ref|] eqn:Hra; [|done]. injection Hk as <-. destruct (Forall2_lookup_lr _ _ _ _ _ _ Hws Hra Hw) as (e & He & H1 & H2 & H3).
      assert (Hr : ref ∈ p1_refs s1) by (rewrite <- (elem_of_sortSlice refKey); by eapply list_elem_of_lookup_2). rewrite Hrf in Hr.
      apply list_elem_of_omap in Hr as (y & Hy & Hr). apply numberEntries_elem in Hy as (i & Hi & Hey). unfold refOf in Hr.
      destruct (IsExcluded y.2) eqn:Hx; [done|]. destruct (LookupDirect _ _) as [[ie|]|]; simplify_eq. cbn in *. rewrite Hi, (ac_at _ _ Hey) in He. injection He as <-.
      exists i, y.2. rewrite Hx. by split_and!. }
  intros e [i Hi]%list_elem_of_lookup. assert (Hk : Z.of_nat i ∈ L.*1).
  { rewrite HLp. apply list_elem_of_fmap. exists (Z.of_nat i, e). split; [done|]. apply list_elem_of_lookup. exists i. by rewrite numberEntries_lookup, Hi. }
  apply list_elem_of_fmap in Hk as ([k w] & Hki & HwL). cbn in Hki. destruct (HLok _ HwL) as (j & e' & Hj & He' & H1 & H2 & H3). cbn in *.
  assert (j = i) as -> by lia. rewrite Hi in He'. injection He' as <-. exists w.2. split; [|done]. rewrite Hdata, <- H1, <- H2.
  eapply (indexed_read (TotalBytes b) es); [done| | | |exact HwL].
  - apply length_Truncate. apply orb_false_iff in Htr as [Htr _]. by apply Z.ltb_ge in Htr.
  - rewrite HLp. apply NoDup_numberEntries.
  - intros x Hx. destruct (HLok x Hx) as (i' & e' & ? & ? & ? & ? & _). by exists i', e'.
Qed.
End theorems.

(** ** A small volume *)

Definition oneHash : bytes := Sum256 [1; 2; 3; 4].
Definition oneIndex : DedupIndex :=
  mkDedup (Bloom.NewBloomFilter 640) (mkIndex [] true 0 {[oneHash := HashTable.mkEntry oneHash 0 0 4]} true true None) (mkDir None None None None []) None false None None None.
Definition oneStore : ChunkStore := newChunkStore (Some {[packPath 0 := frameOf [1; 2; 3; 4] 4]}) 13 1 0 None.
Definition oneContent (h : bytes) : option bytes := if decide (h = oneHash) then Some [1; 2; 3; 4] else None.
(** The chunk, an excluded region, and the chunk again. *)
Definition threeEntries : list Entry := [mkEntry 0 oneHash 4 false; mkEntry 4 (zeros 32) 3 true; mkEntry 7 oneHash 4 false].
Definition smallVolume : bytes := [1; 2; 3; 4; 0; 0; 0; 1; 2; 3; 4].
Definition smallBackup : Backup :=
  mkBackup [97] None [] 0 0 11 threeEntries [] [] 3 1 1 8 12 0 0 [] (hexEncode (Sum256 smallVolume)) DigestCoversSourceStreamV1 [] [] 0 0 [] [] [] [] 0 [].
Definition oldTarget : Target := mkTarget [9; 9] (λ _ _, true) (λ _, true) true.
Definition oneRestorer : Restorer := mkRestorer oneIndex oneStore noHooks None.

Lemma one_reads : LookupDirect oneIndex oneHash = Ok (Some (HashTable.mkEntry oneHash 0 0 4)) ∧ Retrieve noHooks oneStore 0 0 = (oneStore, Ok [1; 2; 3; 4]).
Proof. split; vm_compute; reflexivity. Qed.

#[export] Instance one_supplies : Supplies oneIndex noHooks (λ st, st = oneStore) oneContent.
Proof.
  split. intros h data. unfold oneContent. case_decide as Hh; [|done]. subst h. intros [= <-]. destruct one_reads as [H1 H2]. eexists. split; [exact H1|]. intros st ->. eexists. split; [exact H2|done].
Qed.

Lemma three_suit : Forall (suits None oneContent) threeEntries.
Proof.
  assert (Hone : suits None oneContent (mkEntry 0 oneHash 4 false)) by (exists [1; 2; 3; 4]; unfold oneContent; rewrite decide_True by done; done).
  repeat constructor; [exact Hone|done|exact Hone].
Qed.

Lemma three_bytes : concat (bytesOf oneContent <$> threeEntries) = smallVolume.
Proof. unfold threeEntries, bytesOf, oneContent. cbn -[oneHash]. rewrite decide_True by done. reflexivity. Qed.

Lemma three_laid : laidOut oneContent smallBackup threeEntries.
Proof.
  split; [|rewrite three_bytes; reflexivity]. unfold threeEntries, writeOf, bytesOf, oneContent. cbn -[oneHash]. rewrite decide_True by done. cbn. by split_and!.
Qed.

Lemma restore_writes_backup_witness : ∃ res, RestoreEntries oneRestorer smallBackup (NewSliceEntryAccessor threeEntries) oldTarget = (oneStore, withData oldTarget smallVolume, Ok res).
Proof.
  destruct (restore_writes_backup oneRestorer smallBackup (NewSliceEntryAccessor threeEntries) threeEntries oldTarget (λ st, st = oneStore) oneContent) as (st' & res & H1 & H2 & _).
  - apply slice_accesses.
  - apply one_supplies.
  - reflexivity.
  - apply three_suit.
  - apply three_laid.
  - by split_and!.
  - rewrite three_bytes in H1. subst st'. by exists res.
Defined.

Lemma three_spread : spread 11 threeEntries.
Proof.
  unfold threeEntries. generalize oneHash. intros h. split.
  - intros e He. rewrite !elem_of_cons, elem_of_nil in He. unfold entry_end. destruct He as [->|[->|[->|[]]]]; cbn; lia.
  - intros [|[|[|i]]] [|[|[|j]]] e e' Hne; cbn; intros Hi Hj; simplify_eq; unfold entry_end; cbn; lia.
Qed.

Lemma restore_integrity_witness : ∃ st' t' res, RestoreEntries oneRestorer smallBackup (NewSliceEntryAccessor threeEntries) oldTarget = (st', t', Ok res) ∧
  ∃ d, ReadAt (tg_data t') 7 4 = Some d ∧ Sum256 d = oneHash.
Proof.
  destruct (restore_exact oneRestorer smallBackup (NewSliceEntryAccessor threeEntries) threeEntries oldTarget _ oneContent (slice_accesses _) one_supplies eq_refl three_suit three_laid) as (st' & k & Hr & _);
    [by split_and!|]. eexists _, _, _. split; [exact Hr|].
  apply (restore_integrity oneRestorer smallBackup (NewSliceEntryAccessor threeEntries) threeEntries oldTarget _ _ _ (slice_accesses _) three_spread Hr (mkEntry 7 oneHash 4 false)).
  right; right; left.
Defined.
