(* ===== verification/ClonedFit.v ===== *)
(** * Theorems on disks cloned to other places (bmr/fit.go)

    A clone whose gaps are new space: every partition's bytes end at its placement, grown
    ones with zeros behind them and shrunk ones from what was staged, and every byte
    outside the used spans is zero.  With the plan of [PlanFit] and a GPT source the target
    parses to the captured partitions at the planned places. *)

From S2P Require Import Prelude GoBytes GoRuntime Hashes Crypto PackStore Dnm DiskLayout Gpt Mbr Fit Fitted FitApplied Restore BareMetal Cloned Restored.

Lemma sub_zeros n o k : (o + k ≤ n)%nat → sub (zeros n) o k = zeros k.
Proof. intros H. unfold sub, zeros. rewrite drop_replicate, take_replicate. f_equal. lia. Qed.
Lemma sub_prefix (a b : bytes) k : k = length a → sub (a ++ b) 0 k = a.
Proof. intros ->. unfold sub. rewrite drop_0. by apply take_app_length. Qed.

(** ** Placed partitions *)

Section placed.
Context (opts : CloneDiskOptions) (l : DiskLayout) (n : Z) (places : Partition → placement) (contents : Partition → bytes).
Let ss := SectorSize l.

(** What a partition needs to be cloned to its place, and what it will hold there. *)
Record ready (p : Partition) : Prop := {
  rd_place : placementFor l (co_Fit opts) (Index p) = Ok (places p);
  rd_inside : 0 ≤ pl_base (places p) ∧ pl_base (places p) + pl_length (places p) ≤ n;
  rd_length : len (contents p) = pl_length (places p);
  rd_staged : pl_shrink (places p) = true → pl_grow (places p) = false ∧
    ∃ c, co_Staged opts !! Index p = Some (mkStaged (Some c) (pl_length (places p))) ∧ pl_length (places p) ≤ len c ∧ contents p = sub c 0 (Z.to_nat (pl_length (places p)));
  rd_copied : pl_shrink (places p) = false → 0 ≤ Offset p (SectorSize l) ∧ 0 ≤ pl_oldLength (places p) ≤ pl_length (places p) ∧
    Offset p (SectorSize l) + pl_oldLength (places p) ≤ len (co_Source opts) ∧ (pl_grow (places p) = false → pl_oldLength (places p) = pl_length (places p)) ∧
    contents p = sub (co_Source opts) (Z.to_nat (Offset p (SectorSize l))) (Z.to_nat (pl_oldLength (places p))) ++ zeros (Z.to_nat (pl_length (places p) - pl_oldLength (places p))) }.

Definition placedWrite (p : Partition) : Z * bytes := (pl_base (places p), contents p).

Lemma cloneContent_placed p t : ready p → whole t n → ∃ sum, cloneContent opts l p (places p) t = (withData t (WriteAt (tg_data t) (pl_base (places p)) (contents p)), Ok sum) ∧
  sum = Sum256 (sub (contents p) 0 (Z.to_nat (writtenLength (places p)))) ∧ 0 ≤ writtenLength (places p) ≤ len (contents p).
Proof.
  intros [H1 [H2 H3] H4 H5 H6] Hw. unfold cloneContent, writtenLength. destruct (pl_shrink (places p)) eqn:Es.
  - destruct (H5 eq_refl) as (Hg & c & -> & Hc & Heq). rewrite Hg. cbn [negb]. unfold writeStaged. cbn [sm_Reader sm_Length]. rewrite Z.eqb_refl. cbn [negb].
    rewrite (copyAt_whole t n) by (cbn; done || lia). eexists. split; [cbn [pt_base]; by rewrite Heq|]. split; [|lia]. f_equal. rewrite Heq. by rewrite sub_sub by lia.
  - destruct (H6 eq_refl) as (O1 & [O2 O2'] & O3 & O4 & Heq). set (a := sub (co_Source opts) _ _) in Heq. assert (Ha : len a = pl_oldLength (places p)) by (unfold a; rewrite length_sub; lia).
    rewrite (copyAt_whole t n) by (cbn; done || lia). fold ss. fold a. cbn [pt_base negb].
    assert (Hsum : (if pl_grow (places p) then pl_oldLength (places p) else pl_oldLength (places p)) = pl_oldLength (places p)) by (by destruct (pl_grow _)). rewrite Hsum.
    exists (Sum256 a). split; [|split; [f_equal; rewrite Heq; symmetry; apply sub_prefix; lia|lia]].
    assert (Hend : pl_oldLength (places p) = pl_length (places p) → contents p = a) by (intros E; rewrite Heq, E, Z.sub_diag; apply app_nil_r).
    destruct (pl_grow (places p)) eqn:Eg; cbn [andb]; [|by rewrite Hend by (by apply O4)]. destruct (Z.ltb_spec (pl_oldLength (places p)) (pl_length (places p))) as [Hlt|Hge]; [|by rewrite Hend by lia].
    set (t1 := withData t (WriteAt (tg_data t) (pl_base (places p)) a)). assert (Hw1 : whole t1 n) by (apply whole_WriteAt; done || lia). rewrite (writeZeros_whole t1 n) by (cbn; done || lia). cbn [pt_base t1 withData tg_data].
    f_equal. unfold withData. cbn. f_equal. rewrite Heq. rewrite <- Ha. destruct Hw as [Hl _]. apply WriteAt_next; rewrite ?length_zeros; lia.
Qed.

Lemma clonePartition_placed p r t : ready p → whole t n → faithful (co_ReadAt opts) → ∃ r',
  clonePartition opts l p r t = (withData t (WriteAt (tg_data t) (pl_base (places p)) (contents p)), Ok r') ∧
  cl_Partitions r' = cl_Partitions r + 1 ∧ cl_ReadBack r' = cl_ReadBack r + readBackOne (co_ReadAt opts).
Proof.
  intros Hp Hw Hf. unfold clonePartition. rewrite (rd_place p Hp). destruct (cloneContent_placed p t Hp Hw) as (sum & -> & -> & Hwl). destruct Hp as [_ [H2 H3] H4 _ _].
  set (t1 := withData t _). destruct (co_ReadAt opts) as [rb|]; [|eexists; split; [done|split; [done|cbn; lia]]].
  assert (Hh : hashAt rb t1 (pl_base (places p)) (writtenLength (places p)) = Some (Sum256 (sub (contents p) 0 (Z.to_nat (writtenLength (places p)))))).
  { unfold hashAt. cbn [t1 withData tg_data]. destruct Hw as [Hl _]. assert (Hlw : length (WriteAt (tg_data t) (pl_base (places p)) (contents p)) = length (tg_data t)) by (apply length_WriteAt; lia).
    rewrite Hf by lia. do 2 f_equal. apply list_eq. intros i. rewrite !lookup_sub. case_decide; [|done]. rewrite lookup_WriteAt by lia. rewrite decide_True by lia. f_equal. lia. }
  rewrite Hh, bool_decide_eq_true_2 by done. eexists. split; [done|]. split; [done|cbn; lia].
Qed.

Lemma clonePartitions_placed ps : Forall ready ps → faithful (co_ReadAt opts) → ∀ r t, whole t n → ∃ t' r', clonePartitions opts l ps r t = (t', Ok r') ∧ whole t' n ∧
  tg_data t' = applyWrites (tg_data t) (placedWrite <$> ps) ∧ cl_Partitions r' = cl_Partitions r + len ps ∧ cl_ReadBack r' = cl_ReadBack r + len ps * readBackOne (co_ReadAt opts).
Proof.
  intros Hps Hf. induction Hps as [|p ps Hp _ IH]; intros r t Hw.
  { exists t, r. split_and!; [done|done|done|cbn; lia|cbn; lia]. }
  cbn [clonePartitions]. destruct (clonePartition_placed p r t Hp Hw Hf) as (r1 & -> & Hc1 & Hb1). destruct Hp as [_ [H2 H3] H4 _ _].
  destruct (IH r1 (withData t (WriteAt (tg_data t) (pl_base (places p)) (contents p)))) as (t2 & r2 & -> & Hw2 & Hd2 & Hc2 & Hb2); [apply whole_WriteAt; done || lia|].
  exists t2, r2. split_and!; [done|done| |cbn; lia|cbn; lia]. by rewrite Hd2, fmap_cons.
Qed.

Lemma placedSpans_placed ps : Forall ready ps → placedSpans opts l ps = Ok ((λ p, (pl_base (places p), pl_base (places p) + pl_length (places p))) <$> ps).
Proof. induction 1 as [|p ps Hp _ IH]; [done|]. cbn [placedSpans]. rewrite (rd_place p Hp). cbn [rbind]. by rewrite IH. Qed.

Lemma fillGap_zeros off k t : verbatim opts l = false → whole t n → 0 ≤ off → 0 ≤ k → off + k ≤ n →
  fillGap opts l off k t = (withData t (WriteAt (tg_data t) off (sub (zeros (Z.to_nat n)) (Z.to_nat off) (Z.to_nat k))), None).
Proof.
  intros Hv Hw H0 H1 H2. unfold fillGap. rewrite Hv. cbn [andb]. rewrite (writeZeros_whole t n) by (cbn; done || lia). by rewrite sub_zeros by lia.
Qed.
End placed.

(** ** Boot structures *)

Definition bootWrites (d : DiskCapture) (boot : bytes * Z * bytes) : list (Z * bytes) :=
  (r_Offset (PrimaryRegion (dc_Layout d)), boot.1.1) :: (if 0 <? len boot.2 then [(boot.1.2, boot.2)] else []) ++ zip (r_Offset <$> AuxRegions (dc_Layout d)) (AuxBytes d).

Lemma writeAux_whole n rs : ∀ bs i t, length bs = length rs → whole t n → Forall (inside n) (zip (r_Offset <$> rs) bs) →
  ∃ t', writeAux i rs bs t = (t', None) ∧ whole t' n ∧ tg_data t' = applyWrites (tg_data t) (zip (r_Offset <$> rs) bs).
Proof.
  induction rs as [|r rs IH]; intros [|b bs] i t Hl Hw Hin; try done; [by exists t|]. cbn [fmap list_fmap zip_with] in Hin. apply Forall_cons in Hin as [[H0 H1] Hin]. cbn in H0, H1.
  cbn [writeAux]. rewrite (tgWriteAt_whole t n) by done. destruct (IH bs (i + 1) (withData t (WriteAt (tg_data t) (r_Offset r) b))) as (t' & -> & Hw' & Hd'); [by injection Hl|by apply whole_WriteAt|done|].
  exists t'. split_and!; [done|done|]. by rewrite Hd'.
Qed.

Lemma writeBoot_whole n d boot t : whole t n → Forall (inside n) (bootWrites d boot) → length (AuxBytes d) = length (AuxRegions (dc_Layout d)) →
  ∃ t', writeBoot d boot t = (t', None) ∧ whole t' n ∧ tg_data t' = applyWrites (tg_data t) (bootWrites d boot).
Proof.
  intros Hw Hin Hl. destruct boot as [[primary off] backup]. unfold bootWrites, writeBoot in *. cbn [fst snd] in *. apply Forall_cons in Hin as [[P0 P1] [Hb Ha]%Forall_app]. cbn in P0, P1.
  rewrite (tgWriteAt_whole t n) by done. set (t1 := withData t _). assert (Hw1 : whole t1 n) by (by apply whole_WriteAt). destruct (0 <? len backup).
  - apply Forall_cons in Hb as [[B0 B1] _]. cbn in B0, B1. rewrite (tgWriteAt_whole t1 n) by done. set (t2 := withData t1 _). assert (Hw2 : whole t2 n) by (by apply whole_WriteAt).
    destruct (writeAux_whole n (AuxRegions (dc_Layout d)) (AuxBytes d) 0 t2 Hl Hw2 Ha) as (t3 & -> & Hw3 & Hd3). exists t3. split_and!; [done|done|]. by rewrite Hd3.
  - destruct (writeAux_whole n (AuxRegions (dc_Layout d)) (AuxBytes d) 0 t1 Hl Hw1 Ha) as (t3 & -> & Hw3 & Hd3). exists t3. split_and!; [done|done|]. by rewrite Hd3.
Qed.

Lemma readRegions_length src rs bs : readRegions src rs = Ok bs → length bs = length rs.
Proof. revert bs. induction rs as [|r rs IH]; intros bs; cbn [readRegions]; [by intros [= <-]|]. intros (b & _ & (bs' & Hb & [= <-])%rbind_Ok_inv)%rbind_Ok_inv. cbn. by rewrite (IH bs'). Qed.
Lemma sourceCapture_aux src l d : sourceCapture src l = Ok d → length (AuxBytes d) = length (AuxRegions (dc_Layout d)) ∧ dc_Layout d = l.
Proof.
  unfold sourceCapture. intros (primary & _ & (backup & _ & (aux & Ha & [= <-])%rbind_Ok_inv)%rbind_Ok_inv)%rbind_Ok_inv. cbn. split; [|done]. by eapply readRegions_length.
Qed.

Lemma overlaid_ReadAt src f g hs o k : overlaid src f g hs → Forall (λ h : span, h.2 ≤ o ∨ o + k ≤ h.1) hs → ReadAt g o k = ReadAt f o k.
Proof.
  intros [L _ O] Hh. unfold ReadAt. rewrite L. destruct (_ && _ && _) eqn:E; [|done]. apply andb_true_iff in E as [[E1 E2]%andb_true_iff E3]. zbool. f_equal.
  change (sub g (Z.to_nat o) (Z.to_nat k) = sub f (Z.to_nat o) (Z.to_nat k)). apply list_eq. intros i. rewrite !lookup_sub. case_decide; [|done]. apply O.
  rewrite inSpans_elem. intros (h & Hi & Hr). rewrite Forall_forall in Hh. specialize (Hh h Hi). lia.
Qed.

(** ** The clone *)

Section clone.
Context (opts : CloneDiskOptions) (l : DiskLayout) (n : Z) (places : Partition → placement) (contents : Partition → bytes).
Context (d : DiskCapture) (boot : bytes * Z * bytes) (us : list span) (t : Target).
Context (Hparse : Parse (co_Source opts) (co_SourceSize opts) = Ok l) (Hsize : noPlan (co_Fit opts) && (n <? DiskSize l) = false) (Hn : co_TargetSize opts = n).
Context (Hnew : verbatim opts l = false) (Hcap : sourceCapture (co_Source opts) l = Ok d) (Hboot : bootStructures d (co_Fit opts) n = Ok boot) (Hbin : Forall (inside n) (bootWrites d boot)).
Context (Hready : Forall (ready opts l n places contents) (Partitions l)) (Hread : faithful (co_ReadAt opts)) (Ht : whole t n).
Context (Hus : usedSpans opts l = Ok us) (Husin : ∀ u, u ∈ us → 0 ≤ u.1 ∧ u.1 ≤ n ∧ u.2 ≤ n).
Context (Hapart : ∀ p q, p ∈ Partitions l → q ∈ Partitions l → placedWrite places contents q = placedWrite places contents p ∨ apart (placedWrite places contents q) (placedWrite places contents p)).

(** Before the boot structures: every partition in its place, zeros outside the used spans. *)
Lemma clone_placed : ∃ t' r f, CloneDisk opts t = (t', Ok r) ∧ tg_data t' = applyWrites f (bootWrites d boot) ∧ len f = n ∧
  (∀ p, p ∈ Partitions l → ReadAt f (pl_base (places p)) (pl_length (places p)) = Some (contents p)) ∧
  (∀ i : nat, Z.of_nat i < n → ¬ inSpans us (Z.of_nat i) → f !! i = Some 0) ∧
  cl_Partitions r = len (Partitions l) ∧ cl_ReadBack r = len (Partitions l) * readBackOne (co_ReadAt opts).
Proof.
  destruct (clonePartitions_placed opts l n places contents (Partitions l) Hready Hread (mkCloneResult l 0 0 ∅ 0) t Ht) as (t1 & r1 & E1 & Hw1 & Hd1 & Hc1 & Hb1).
  assert (Hz : len (zeros (Z.to_nat n)) = n) by (rewrite length_zeros; destruct Ht; lia).
  destruct (writeGaps_overlaid opts l (zeros (Z.to_nat n)) n Hz (λ off k t, fillGap_zeros opts l n off k t Hnew) us r1 t1 Hn Hus Husin Hw1) as (t2 & r2 & hs & E2 & Hw2 & Hr2 & Hi2 & Hh2 & Hc2 & Hb2 & _).
  destruct (sourceCapture_aux _ _ _ Hcap) as [Haux _]. destruct (writeBoot_whole n d boot t2 Hw2 Hbin Haux) as (t3 & E3 & Hw3 & Hd3).
  exists t3, r2, (tg_data t2). split_and!.
  - unfold CloneDisk. rewrite Hparse, Hn, Hsize, Hcap, E1, E2, Hboot, E3. unfold syncDisk. by destruct Hw3 as (_ & _ & ->).
  - done.
  - apply Hw2.
  - intros p Hp. rewrite Forall_forall in Hready. destruct (Hready p Hp) as [R1 [R2 R3] R4 _ _]. rewrite <- R4. rewrite (overlaid_ReadAt _ _ _ _ _ _ Hr2).
    + rewrite Hd1. assert (Hlen : len (tg_data t) = n) by apply Ht. apply (applyWrites_read (placedWrite places contents <$> Partitions l) (placedWrite places contents p)); rewrite ?Hlen.
      * apply Forall_fmap, Forall_forall. intros q Hq. destruct (Hready q Hq) as [_ [Q2 Q3] Q4 _ _]. split; cbn; lia.
      * split; cbn; lia.
      * apply Forall_fmap, Forall_forall. intros q Hq. by apply Hapart.
      * left. by apply list_elem_of_fmap_2.
    + eapply Forall_impl; [exact Hh2|]. intros h Hh. rewrite R4. destruct (Hh (pl_base (places p), pl_base (places p) + pl_length (places p))) as [?|?]; cbn in *; [|lia|lia].
      unfold usedSpans in Hus. rewrite (placedSpans_placed opts l n places contents) in Hus by (by apply Forall_forall). cbn [rbind] in Hus. injection Hus as <-.
      right. apply elem_of_app. right. apply elem_of_app. left. apply list_elem_of_fmap. by exists p.
  - intros i Hi Hout. destruct (Hi2 (Z.of_nat i) ltac:(lia)) as [Hin|?]; [|done]. rewrite (ov_in _ _ _ _ Hr2 i Hin). unfold zeros. apply lookup_replicate. split; [done|lia].
  - by rewrite Hc2, Hc1.
  - by rewrite Hb2, Hb1.
Qed.
End clone.

(** ** A clone into the plan of a GPT disk *)

Section planned.
Context {SS : SortSlice}.

Definition noPart : PlannedPartition := mkPlanned 0 "" [] 0 0 0 0 false false false 0.
Definition planOf (plan : FitPlan) (p : Partition) : PlannedPartition := default noPart (PlanPartition plan (Index p)).
(** The bytes of a planned partition. *)
Definition newLength (ss : Z) (pp : PlannedPartition) : Z := (NewLast pp - NewFirst pp + 1) * ss.
Definition planPlacement (l : DiskLayout) (plan : FitPlan) (p : Partition) : placement :=
  let pp := planOf plan p in mkPlacement (NewFirst pp * SectorSize l) (newLength (SectorSize l) pp) (Length p (SectorSize l)) (Shrink pp) (Grow pp).
(** What a partition holds on the target: what was staged for a shrunk one, else the source's bytes and zeros to its new end. *)
Definition planContents (src : bytes) (staged : gmap Z StagedMember) (l : DiskLayout) (plan : FitPlan) (p : Partition) : bytes :=
  let pp := planOf plan p in let k := newLength (SectorSize l) pp in
  if Shrink pp then match staged !! Index p with Some (mkStaged (Some c) _) => sub c 0 (Z.to_nat k) | _ => [] end
  else sub src (Z.to_nat (Offset p (SectorSize l))) (Z.to_nat (Length p (SectorSize l))) ++ zeros (Z.to_nat (k - Length p (SectorSize l))).
(** The shrunk partitions have been staged, as long as planned. *)
Definition stagedFor (staged : gmap Z StagedMember) (l : DiskLayout) (plan : FitPlan) : Prop :=
  ∀ p, p ∈ Partitions l → Shrink (planOf plan p) = true →
    ∃ c, staged !! Index p = Some (mkStaged (Some c) (newLength (SectorSize l) (planOf plan p))) ∧ newLength (SectorSize l) (planOf plan p) ≤ len c.

Lemma sorted_pair {A} (R : A → A → Prop) xs x y : StronglySorted R xs → x ∈ xs → y ∈ xs → x = y ∨ R x y ∨ R y x.
Proof.
  induction 1 as [|z xs _ IH Hf]; [by intros ?%elem_of_nil|]. rewrite Forall_forall in Hf. intros [->|Hx]%elem_of_cons [->|Hy]%elem_of_cons; [by left|right; left; by apply Hf|right; right; by apply Hf|by apply IH].
Qed.
Lemma planned_elem plan i pp : PlanPartition plan i = Some pp → pp ∈ fp_Partitions plan ∧ pp_Index pp = i.
Proof.
  unfold PlanPartition. destruct (list_find _ _) as [[k q]|] eqn:E; [|done]. intros [= <-]. apply list_find_Some in E as (H1 & H2 & _). split; [by eapply list_elem_of_lookup_2|done].
Qed.

(** A GPT disk with its captured boot regions, and a plan of [PlanFit] for a target that holds both
    tables and whose partitions lie behind the primary one. *)
Record planning (src : bytes) (ss : Z) (l : DiskLayout) (cp cb : bytes) (tg : TargetGeometry) (fopts : FitOptions) (plan : FitPlan) : Prop := {
  pg_bytes : bytes_ok src ∧ len src < 2 ^ 63;
  pg_gpt : ParseWithSector src (len src) ss = Ok l;
  pg_parts : ∀ p, p ∈ Partitions l → (LastLBA p + 1) * ss < 2 ^ 63;
  pg_primary : ReadAt src 0 (r_Length (PrimaryRegion l)) = Some cp;
  pg_backup : ReadAt src (r_Offset (BackupRegion l)) (r_Length (BackupRegion l)) = Some cb;
  pg_sectors : Z.rem (r_Length (BackupRegion l)) ss = 0 ∧ ss + r_Length (BackupRegion l) ≤ r_Length (PrimaryRegion l);
  pg_plan : PlanFit l tg fopts = Ok plan ∧ Applicable plan = true;
  pg_target : tg_Size tg < 2 ^ 63 ∧ 0 ≤ tg_PhysicalSector tg < 2 ^ 32 ∧ r_Length (PrimaryRegion l) + r_Length (BackupRegion l) ≤ tg_Size tg;
  pg_behind : ∀ pp, pp ∈ fp_Partitions plan → r_Length (PrimaryRegion l) ≤ NewFirst pp * ss }.

Section gpt.
Context (src : bytes) (ss : Z) (l : DiskLayout) (cp cb : bytes) (tg : TargetGeometry) (fopts : FitOptions) (plan : FitPlan).
Context (Hpg : planning src ss l cp cb tg fopts plan).
Let N := tg_Size tg.

(** What is known of the layout. *)
Lemma pg_layout : 512 ≤ ss ≤ 4096 ∧ SectorSize l = ss ∧ Scheme l = "gpt"%string ∧ AuxRegions l = [] ∧ NoDup (Index <$> Partitions l) ∧
  r_Offset (PrimaryRegion l) = 0 ∧ 0 < r_Length (PrimaryRegion l) ∧ ss < r_Length (BackupRegion l) ∧ plannable l tg ∧ schemeOf l = "gpt"%string.
Proof.
  destruct Hpg as [[Hr Hlen] Hp _ _ _ _ _ [Ht1 [Ht2 _]] _]. apply ParseWithSector_inv in Hp as (mbr & hdr & entries & parts & Hg & ->).
  pose proof (rl_ss _ _ _ _ _ _ _ Hg). pose proof (rl_eb _ _ _ _ _ _ _ Hg). pose proof (rl_entries _ _ _ _ _ _ _ Hg). pose proof (parsed_plannable src (len src) ss mbr hdr entries parts tg Hr Hg Ht1 Ht2).
  destruct (gpt_parts_ok _ _ _ _ _ _ _ Hr Hg) as [_ Hs]. cbn [layout_of SectorSize Scheme AuxRegions Partitions PrimaryRegion BackupRegion r_Offset r_Length].
  rewrite (rl_primary src (len src) ss mbr hdr entries parts Hlen Hg), (rl_backupLen src (len src) ss mbr hdr entries parts Hg hdr) by done. split_and!; try done; try lia. by apply sorted_lt_NoDup.
Qed.

Lemma pg_part p : p ∈ Partitions l → Offset p ss = FirstLBA p * ss ∧ Length p ss = (LastLBA p - FirstLBA p + 1) * ss ∧ 0 ≤ FirstLBA p ≤ LastLBA p ∧ (LastLBA p + 1) * ss ≤ len src.
Proof.
  intros Hp. destruct pg_layout as (Hss & _). destruct Hpg as [[Hr Hlen] Hg Hparts _ _ _ _ _ _]. apply ParseWithSector_inv in Hg as (mbr & hdr & entries & parts & Hg & ->).
  destruct (gpt_parts_ok _ _ _ _ _ _ _ Hr Hg) as [Hall _]. rewrite Forall_forall in Hall. specialize (Hall p Hp). pose proof Hall as (O1 & O2 & _). unfold is_u64 in O2.
  destruct (part_end ss (len src) p ltac:(lia) Hall (Hparts p Hp)) as (? & ? & ?). split_and!; done || lia.
Qed.

(** What the plan says of a partition. *)
Lemma pg_planned p : p ∈ Partitions l → ∃ pp, PlanPartition plan (Index p) = Some pp ∧ planOf plan p = pp ∧ pp ∈ fp_Partitions plan ∧
  fits l "gpt" fopts 0 (fp_NewLastUsableLBA plan) p pp ∧ r_Length (PrimaryRegion l) ≤ NewFirst pp * ss ∧ (NewLast pp + 1) * ss + r_Length (BackupRegion l) ≤ N.
Proof.
  intros Hp. destruct pg_layout as (Hss & Hsl & _ & _ & Hnd & _ & _ & _ & Hpb & Hsch). destruct Hpg as [_ _ _ _ _ _ [H1 H2] _ Hbehind].
  destruct (plan_fits l tg fopts plan 0 Hpb (or_introl eq_refl) H1 H2) as ((parts & Hperm & Hf) & _ & _ & Hl2 & _). rewrite Hsch, Hsl in *. specialize (Hl2 eq_refl).
  destruct (fits_planned l "gpt" fopts _ _ parts (fp_Partitions plan) p Hf) as (pp & Hpp & Hfp); [by rewrite Hperm|by rewrite Hperm|].
  assert (Hpp' : PlanPartition plan (Index p) = Some pp) by exact Hpp. exists pp. destruct (planned_elem _ _ _ Hpp') as [Hin _]. unfold planOf. rewrite Hpp'. split_and!; try done; [by apply Hbehind|].
  destruct (fi_place _ _ _ _ _ _ _ Hfp) as (? & ? & ?). unfold N. nia.
Qed.

Lemma pg_capture : sourceCapture src l = Ok (mkCaptured "" l cp cb [] []).
Proof.
  destruct pg_layout as (Hss & Hsl & _ & Haux & _ & HP0 & HP & HB & _). destruct Hpg as [_ _ _ Hcp Hcb _ _ _ _]. pose proof (ReadAt_inv _ _ _ _ Hcp) as (_ & _ & C1 & _). pose proof (ReadAt_inv _ _ _ _ Hcb) as (C2 & _ & C3 & _).
  rewrite ReadAt_sub in Hcp, Hcb by lia. injection Hcp as Hcp. injection Hcb as Hcb. unfold sourceCapture. rewrite (readRegion_inside src (len src) l eq_refl) by lia. cbn [rbind].
  rewrite (proj2 (Z.ltb_lt _ _)) by lia. rewrite (readRegion_inside src (len src) l eq_refl) by lia. cbn [rbind]. rewrite Haux, HP0, Hcp, Hcb. done.
Qed.

Context (staged : gmap Z StagedMember) (rd : option readBack) (Hst : stagedFor staged l plan).
Let opts := mkCloneDisk src (len src) N (Some plan) staged rd.
Let places := planPlacement l plan.
Let contents := planContents src staged l plan.

Lemma pg_ready p : p ∈ Partitions l → ready opts l N places contents p.
Proof.
  intros Hp. destruct pg_layout as (Hss & Hsl & _ & _ & Hnd & _ & HP & HB & _). destruct (pg_part p Hp) as (Ho & Hl & Hf & Hend). destruct (pg_planned p Hp) as (pp & Hpp & Hof & Hin & Hfits & Hbeh & Hlast).
  destruct (fi_place _ _ _ _ _ _ _ Hfits) as (F0 & F1 & F2). destruct Hpg as [[_ Hlen] _ _ _ _ _ _ [HN _] _]. fold N in HN.
  assert (Hnew : 0 < (NewLast pp - NewFirst pp + 1) * ss) by nia. assert (Hnf : 0 ≤ NewFirst pp * ss) by nia.
  assert (Hnl : NewLast pp < 2 ^ 63) by nia.
  assert (Hsz : Shrink pp = false → LastLBA p - FirstLBA p ≤ NewLast pp - NewFirst pp ∧ (Grow pp = false → LastLBA p - FirstLBA p = NewLast pp - NewFirst pp)).
  { intros Hs. pose proof (fi_size _ _ _ _ _ _ _ Hfits) as H1. pose proof (fi_grow _ _ _ _ _ _ _ Hfits) as H2. destruct (Grow pp); [destruct (H2 eq_refl); split; [done|done]|]. specialize (H1 (or_intror (conj Hs eq_refl))). split; [lia|intros _; lia]. }
  assert (Hold : 0 ≤ Length p ss) by nia.
  split; unfold places, planPlacement; rewrite Hof, Hsl; cbn [pl_base pl_length pl_oldLength pl_shrink pl_grow]; unfold newLength.
  - unfold placementFor. cbn [opts co_Fit]. rewrite partitionOf_in, Hpp, Hsl by done. do 2 f_equal.
    + rewrite (i64_id (NewFirst pp)), i64_id by (unfold is_i64; nia). done.
    + unfold NewBytes. rewrite (u64_id (NewLast pp - NewFirst pp + 1)), (i64_id (NewLast pp - NewFirst pp + 1)), i64_id by (unfold is_i64, is_u64; nia). done.
  - nia.
  - unfold contents, planContents. rewrite Hof, Hsl. unfold newLength. destruct (Shrink pp) eqn:Es.
    + destruct (Hst p Hp) as (c & Hc & Hcl); [by rewrite Hof|]. rewrite Hof, Hsl in Hc, Hcl. unfold newLength in Hc, Hcl. rewrite Hc. rewrite length_sub; lia.
    + destruct (Hsz eq_refl) as [Hge _]. rewrite length_app, length_zeros, length_sub; [|nia]. nia.
  - intros Hs. split; [pose proof (fi_grow _ _ _ _ _ _ _ Hfits) as Hg; destruct (Grow pp); [destruct (Hg eq_refl); congruence|done]|].
    destruct (Hst p Hp) as (c & Hc & Hcl); [by rewrite Hof|]. rewrite Hof, Hsl in Hc, Hcl. unfold newLength in Hc, Hcl. exists c. split_and!; [done|done|].
    unfold contents, planContents. rewrite Hof, Hsl, Hs, Hc. done.
  - intros Hs. destruct (Hsz Hs) as [Hge Heq]. cbn [opts co_Source]. split_and!; [nia|done|nia|nia|intros Hg; rewrite Hl, Heq by done; done|].
    unfold contents, planContents. by rewrite Hof, Hsl, Hs.
Qed.

Lemma pg_apart p q : p ∈ Partitions l → q ∈ Partitions l → placedWrite places contents q = placedWrite places contents p ∨ apart (placedWrite places contents q) (placedWrite places contents p).
Proof.
  intros Hp Hq. destruct pg_layout as (Hss & Hsl & _ & _ & Hnd & _ & _ & _ & Hpb & _). destruct (pg_planned p Hp) as (pp & Hpp & Hofp & Hinp & _). destruct (pg_planned q Hq) as (qq & Hqq & Hofq & Hinq & _).
  assert (Hsorted : StronglySorted (λ p q, NewLast p < NewFirst q) (fp_Partitions plan)). { destruct Hpg as [_ _ _ _ _ _ [H1 H2] _ _]. by destruct (plan_fits l tg fopts plan 0 Hpb (or_introl eq_refl) H1 H2) as (_ & ? & _). }
  pose proof (rd_length _ _ _ _ _ _ (pg_ready p Hp)) as Lp. pose proof (rd_length _ _ _ _ _ _ (pg_ready q Hq)) as Lq. unfold places, planPlacement in Lp, Lq. rewrite Hofp in Lp. rewrite Hofq in Lq. cbn [pl_length] in Lp, Lq. unfold newLength in Lp, Lq.
  assert (Hb : ∀ x xx, planOf plan x = xx → pl_base (places x) = NewFirst xx * SectorSize l) by (intros x xx <-; done).
  unfold apart, placedWrite. cbn [fst snd]. rewrite (Hb p pp Hofp), (Hb q qq Hofq), Hsl in *. destruct (sorted_pair _ _ _ _ Hsorted Hinp Hinq) as [->|[HR|HR]]; [|right; right; nia|right; left; nia].
  left. assert (p = q) as ->; [|done]. apply planned_elem in Hpp as [_ I1]. apply planned_elem in Hqq as [_ I2].
  pose proof (partitionOf_in l p Hnd Hp) as A1. pose proof (partitionOf_in l q Hnd Hq) as A2. rewrite <- I1, I2 in A1. congruence.
Qed.

(** The used spans. *)
Definition planSpans : list span := (0, r_Length (PrimaryRegion l)) :: ((λ p, (pl_base (planPlacement l plan p), pl_base (planPlacement l plan p) + pl_length (planPlacement l plan p))) <$> Partitions l) ++
  [(tg_Size tg - r_Length (BackupRegion l), tg_Size tg)].
Lemma pg_spans : usedSpans opts l = Ok planSpans ∧ ∀ u, u ∈ planSpans → 0 ≤ u.1 ∧ u.1 ≤ N ∧ u.2 ≤ N.
Proof.
  destruct pg_layout as (Hss & Hsl & _ & Haux & _ & HP0 & HP & HB & _). destruct (pg_target _ _ _ _ _ _ _ _ Hpg) as (_ & _ & Hroom). fold N in Hroom. split.
  - unfold usedSpans. rewrite (placedSpans_placed opts l N places contents) by (apply Forall_forall; intros p Hp; by apply pg_ready). cbn [rbind]. unfold planSpans. rewrite Haux. cbn [fmap list_fmap app].
    unfold rangeSpan. rewrite HP0. do 3 f_equal. unfold backupSpan, verbatim. cbn [opts co_Fit noPlan andb co_TargetSize]. rewrite (proj2 (Z.ltb_lt 0 (r_Length (BackupRegion l)))) by lia.
    do 2 f_equal. unfold N. lia.
  - intros u [->|[(p & -> & Hp)%list_elem_of_fmap| ->%list_elem_of_singleton]%elem_of_app]%elem_of_cons; cbn [fst snd]; [lia| |unfold N in *; lia].
    destruct (pg_ready p Hp) as [_ [H1 H2] H3 _ _]. unfold places in *. lia.
Qed.
End gpt.

(** C36. Cloning a GPT disk into a plan of [PlanFit], of a larger or a smaller target: the clone
    succeeds, the target parses to the captured partitions, identifiers, names and attributes
    kept, at the planned places and its backup header verifies; every partition holds
    its bytes there, what was staged for a shrunk one and zeros behind a grown one; and
    every byte outside partitions and tables is zero, whatever the target held. *)
Theorem clone_into_plan src ss l cp cb tg fopts plan staged rd t : planning src ss l cp cb tg fopts plan → stagedFor staged l plan → Parse src (len src) = Ok l → faithful rd → whole t (tg_Size tg) →
  ∃ t' r l', CloneDisk (mkCloneDisk src (len src) (tg_Size tg) (Some plan) staged rd) t = (t', Ok r) ∧
    cl_Partitions r = len (Partitions l) ∧ cl_ReadBack r = len (Partitions l) * readBackOne rd ∧
    ParseWithSector (tg_data t') (tg_Size tg) ss = Ok l' ∧ VerifyBackupHeader l' (tg_data t') = Ok tt ∧ Partitions l' = moveTo (fp_Partitions plan) <$> Partitions l ∧
    (∀ p, p ∈ Partitions l → ReadAt (tg_data t') (NewFirst (planOf plan p) * ss) (newLength ss (planOf plan p)) = Some (planContents src staged l plan p)) ∧
    (∀ i : nat, Z.of_nat i < tg_Size tg → ¬ inSpans (planSpans l tg plan) (Z.of_nat i) → tg_data t' !! i = Some 0).
Proof.
  intros Hpg Hst Hparse Hrd Ht. set (opts := mkCloneDisk src (len src) (tg_Size tg) (Some plan) staged rd).
  pose proof (pg_layout src ss l cp cb tg fopts plan Hpg) as (Hss & Hsl & _ & Haux & _ & HP0 & HP & HB & _). destruct (pg_spans src ss l cp cb tg fopts plan Hpg staged rd Hst) as [Hus Husin]. fold opts in Hus.
  assert (Hfit : ∀ d, len d = tg_Size tg → ∃ primary off backup l', ApplyFit l plan cp cb = Ok (primary, off, backup) ∧
    (let t := WriteAt (WriteAt d 0 primary) off backup in ParseWithSector t (tg_Size tg) ss = Ok l' ∧ VerifyBackupHeader l' t = Ok tt ∧ Partitions l' = moveTo (fp_Partitions plan) <$> Partitions l) ∧
    len primary = r_Length (PrimaryRegion l) ∧ len backup = r_Length (BackupRegion l) ∧ off + len backup = tg_Size tg).
  { intros d Hd. destruct Hpg as [[P1 P2] P3 _ P4 P5 [P6 P7] [P8 P9] (P10 & P11 & P12) _].
    destruct (fit_applied src (len src) ss l cp cb tg fopts plan d P1 P2 P3 P4 P5 P6 P7 P8 P9 P10 P11 P12 Hd) as (primary & off & backup & l' & A1 & A2 & A3 & A4 & _ & _ & _ & _ & _ & A5 & A6 & A7). exists primary, off, backup, l'. done. }
  destruct (pg_target _ _ _ _ _ _ _ _ Hpg) as (_ & _ & Hroom). destruct (Hfit (tg_data t) ltac:(apply Ht)) as (primary & off & backup & _ & Hap & _ & Lp & Lb & Loff).
  set (d := mkCaptured "" l cp cb [] []). assert (Hcap : sourceCapture src l = Ok d) by (by eapply pg_capture).
  assert (Hboot : bootStructures d (Some plan) (tg_Size tg) = Ok (primary, off, backup)).
  { unfold bootStructures. destruct (pg_plan _ _ _ _ _ _ _ _ Hpg) as [Hpl ->]. cbn [negb]. destruct (pg_layout src ss l cp cb tg fopts plan Hpg) as (_ & _ & _ & _ & _ & _ & _ & _ & Hpb & _).
    destruct (plan_fits l tg fopts plan 0 Hpb (or_introl eq_refl) Hpl) as (_ & _ & _ & _ & _ & -> & _); [by destruct (pg_plan _ _ _ _ _ _ _ _ Hpg)|]. rewrite Z.eqb_refl. cbn [negb d dc_Layout PrimaryGPT BackupGPT]. by rewrite Hap. }
  assert (Hbw : bootWrites d (primary, off, backup) = [(0, primary); (off, backup)]). { unfold bootWrites. cbn [d dc_Layout AuxBytes fst snd]. rewrite HP0, Haux, (proj2 (Z.ltb_lt _ _)) by lia. done. }
  assert (Hready : Forall (ready opts l (tg_Size tg) (planPlacement l plan) (planContents src staged l plan)) (Partitions l)) by (apply Forall_forall; intros p Hp; by eapply pg_ready).
  destruct (clone_placed opts l (tg_Size tg) (planPlacement l plan) (planContents src staged l plan) d (primary, off, backup) (planSpans l tg plan) t) as (t' & r & f & E & Hd & Hf & Hparts & Hzero & Hc & Hb); try done.
  { rewrite Hbw. repeat constructor; cbn; lia. } { intros p q Hp Hq. by eapply pg_apart. }
  destruct (Hfit f Hf) as (primary' & off' & backup' & l' & Hap' & (B1 & B2 & B3) & _). rewrite Hap in Hap'. injection Hap' as <- <- <-.
  rewrite Hbw in Hd. cbn [applyWrites foldl fst snd] in Hd. rewrite <- Hd in B1, B2. exists t', r, l'. split_and!; try done.
  - intros p Hp. rewrite Hd. rewrite Forall_forall in Hready. destruct (Hready p Hp) as [_ [R1 R2] R3 _ _]. destruct (pg_planned src ss l cp cb tg fopts plan Hpg p Hp) as (pp & _ & Hof & _ & _ & Hbeh & Hend).
    specialize (Hparts p Hp). unfold planPlacement in Hparts, R1, R2, R3. rewrite Hof in *. cbn [pl_base pl_length] in *. rewrite Hsl in *. unfold newLength in *.
    rewrite !ReadAt_WriteAt_ne; rewrite ?length_WriteAt; try done; try lia.
  - intros i Hi Hout. rewrite Hd. assert (Hw1 : len (WriteAt f 0 primary) = tg_Size tg) by (rewrite length_WriteAt; lia).
    rewrite !lookup_WriteAt by lia. unfold planSpans in Hout. rewrite inSpans_elem in Hout. rewrite decide_False, decide_False; [by apply Hzero; [|rewrite inSpans_elem]| |].
    + intros H. apply Hout. exists (0, r_Length (PrimaryRegion l)). split; [by left|cbn; lia].
    + intros H. apply Hout. exists (tg_Size tg - r_Length (BackupRegion l), tg_Size tg). split; [right; apply elem_of_app; right; by left|cbn; lia].
Qed.
End planned.

(** ** A drive upgrade *)

(** The small data disk with two bytes in its partition, cloned onto a larger drive. *)
Definition upgradeDisk : bytes := WriteAt dataDisk 1536 [7; 8].
Definition upgradeTarget : TargetGeometry := mkGeometry 5120 512 512.

Lemma upgrade_planning : planning upgradeDisk 512 dataLayout (sub dataDisk 0 1536) (sub dataDisk 2560 1024) upgradeTarget growOptions dataPlan.
Proof.
  assert (Hpp : fp_Partitions dataPlan = [mkPlanned 0 "Basic Data" [] 3 4 3 7 false true false 0]) by (vm_compute; reflexivity).
  split.
  - split; [by_eval|vm_compute; reflexivity].
  - vm_compute. reflexivity.
  - intros p Hp. assert (Hl : LastLBA <$> Partitions dataLayout = [4]) by (vm_compute; reflexivity). apply (list_elem_of_fmap_2 LastLBA) in Hp. rewrite Hl in Hp. apply list_elem_of_singleton in Hp as ->. reflexivity.
  - vm_compute. reflexivity.
  - vm_compute. reflexivity.
  - split; [vm_compute; reflexivity|vm_compute; discriminate].
  - split; vm_compute; reflexivity.
  - split_and!; [reflexivity|discriminate|reflexivity|vm_compute; discriminate].
  - intros pp Hp. rewrite Hpp in Hp. apply list_elem_of_singleton in Hp as ->. vm_compute. discriminate.
Qed.
Lemma upgrade_staged : stagedFor ∅ dataLayout dataPlan.
Proof.
  intros p Hp Hs. exfalso. assert (Hl : (λ p, Shrink (planOf dataPlan p)) <$> Partitions dataLayout = [false]) by (vm_compute; reflexivity).
  apply (list_elem_of_fmap_2 (λ p, Shrink (planOf dataPlan p))) in Hp. rewrite Hl in Hp. apply list_elem_of_singleton in Hp. congruence.
Qed.

Lemma clone_into_plan_witness : ∃ t' r l', CloneDisk (mkCloneDisk upgradeDisk 3584 5120 (Some dataPlan) ∅ (Some plainReadBack)) (usedTarget (Z.to_nat 5120)) = (t', Ok r) ∧
  cl_ReadBack r = 1 ∧ ParseWithSector (tg_data t') 5120 512 = Ok l' ∧ Partitions l' = moveTo (fp_Partitions dataPlan) <$> Partitions dataLayout ∧
  ReadAt (tg_data t') 1536 2560 = Some ([7; 8] ++ zeros (Z.to_nat 2558)).
Proof.
  destruct (clone_into_plan upgradeDisk 512 dataLayout (sub dataDisk 0 1536) (sub dataDisk 2560 1024) upgradeTarget growOptions dataPlan ∅ (Some plainReadBack) (usedTarget (Z.to_nat 5120)))
    as (t' & r & l' & H1 & H2 & H3 & H4 & H5 & H6 & H7 & _).
  - apply upgrade_planning.
  - apply upgrade_staged.
  - vm_compute. reflexivity.
  - apply plainReadBack_faithful.
  - split_and!; [reflexivity|done|reflexivity].
  - exists t', r, l'. split_and!; [exact H1|exact H3|exact H4|exact H6|]. destruct (Partitions dataLayout) as [|p ps] eqn:E; [vm_compute in E; discriminate|].
    assert (Hp : p = mkPart 0 "EBD0A0A2-B9E5-4433-87C0-68B6B72699C7" "Basic Data" (GUID_String (replicate 16 2)) [] 3 4 0 0 false) by (vm_compute in E; injection E as <- _; vm_compute; reflexivity).
    specialize (H7 p ltac:(left)). rewrite Hp in H7. exact (eq_trans H7 ltac:(vm_compute; reflexivity)).
Defined.
