(* ===== verification/DiskRestored.v ===== *)
(** * Theorems on restored disks (bmr/bmr.go, bmr/fit.go)

    A member restored through its window puts exactly its backup's bytes there.  A restore in
    place overlays the captured disk on what the target held: every partition, the boot
    structures and the chain of boot records are the captured ones, byte for byte, and no
    other byte changes; restoring with no plan through the fit path gives the same disk.  A
    restore into a plan writes the boot structures last. *)

From S2P Require Import Chunker.
From S2P Require Import Prelude GoBytes GoRuntime GoFiles Hashes HashTable HashIndex Crypto Dedup PackStore Preprocess Rebuild.
From S2P Require Import DiskLayout Gpt Mbr Fit Machine Dnm DnmFile DnmAccess ManifestRepo Restore BareMetal Cloned Packs Restored.

Section disks.
Context {SS : SortSlice} {PR : Primitives} {ZS : Zstd} {MJ : MachineJSON} (parseJSON : bytes → option Backup) (opts : RestoreDiskOptions).
Context (I : ChunkStore → Prop) (content : bytes → option bytes) `{!Supplies (ro_Index opts) (ro_Hooks opts) I content}.
Context (Hrd : faithful (ro_ReadAt opts)).

(** A backup the repository can restore, to the bytes [c]. *)
Definition restorable (id c : bytes) : Prop := ∃ b ea es,
  LoadMetadata parseJSON (ro_Repo opts) id = Ok b ∧ NewEntryAccessor (ro_Repo opts) id = Ok ea ∧ Accesses ea es ∧
  Forall (suits (ro_Normalizer opts) content) es ∧ laidOut content b es ∧ concat (bytesOf content <$> es) = c ∧ (hasDigest b = true → hexEncode (Sum256 c) = ContentDigest b).

Lemma digest_accepted b rd t n base d : faithful rd → whole t n → 0 ≤ base → base + len d ≤ n → (hasDigest b = true → hexEncode (Sum256 d) = ContentDigest b) → TotalBytes b = len d →
  digestRefused b rd (withData t (WriteAt (tg_data t) base d)) base (len d) = false.
Proof.
  intros Hf [Hl _] H0 H1 Hd Ht. unfold digestRefused. destruct rd as [rd|]; [|done]. unfold VerifyWrittenDigest. destruct (hasDigest b) eqn:Eh; [|done]. cbn [negb withData tg_data].
  rewrite Ht, Hf by (rewrite ?length_WriteAt; lia). rewrite Nat2Z.id. rewrite sub_WriteAt_eq by lia. by rewrite bool_decide_eq_true_2 by (by apply Hd).
Qed.

Lemma restoreMember_ok mem c base rd st t n : restorable (pm_BackupID mem) c → faithful rd → I st → whole t n → 0 ≤ base → base + len c ≤ n →
  ∃ st', restoreMember parseJSON opts mem (mkWindow base (len c)) (len c) rd base st t = (st', withData t (WriteAt (tg_data t) base c), None) ∧ I st'.
Proof.
  intros (b & ea & es & Hm & He & Ha & Hs & Hl & Hc & Hd) Hf HI Hw H0 H1. unfold restoreMember. rewrite Hm. pose proof Hl as [_ Htot]. rewrite Hc in Htot. rewrite Htot, Z.eqb_refl. cbn [negb]. rewrite He.
  set (r := SetNormalizer _ _). set (w := windowOf t (mkWindow base (len c))). pose proof Hw as (Hlen & Hacc & Hsync).
  assert (Hwin : accepting w (TotalBytes b)).
  { rewrite Htot. split_and!; [|cbn; by apply Z.leb_refl|done]. intros off k H2 H3. cbn. rewrite (proj2 (Z.leb_le (off + k) _)), (proj2 (Z.leb_le 0 _)) by lia. cbn [andb]. apply Hacc; lia. }
  destruct (restore_exact r b ea es w I content Ha ltac:(done) HI Hs Hl Hwin) as (st' & k & -> & HI' & _). exists st'. split; [|done]. rewrite Hc. cbn zeta.
  assert (Ht : throughWindow t (mkWindow base (len c)) (withData w c) = withData t (WriteAt (tg_data t) base c)) by done. rewrite Ht.
  rewrite (digest_accepted b rd t n base c) by done. done.
Qed.

(** *** In place *)

Context (image : bytes) (n : Z) (Hn : len image = n) (d : DiskCapture) (Hfits : fitsDisk (dc_Layout d) n) (Hsize : DiskSize (dc_Layout d) = n) (Hcap : captures image (dc_Layout d) d).
Let l := dc_Layout d.

(** A member whose bytes are those of the disk: of a backup, or zeros where nothing was captured. *)
Definition memberOf (mem : PartitionMember) : Prop := ∃ p, p ∈ Partitions (dc_Layout d) ∧ Index p = pm_Index mem ∧
  let off := Offset p (DiskLayout.SectorSize (dc_Layout d)) in let k := Length p (DiskLayout.SectorSize (dc_Layout d)) in
  if isSkipped mem then sub image (Z.to_nat off) (Z.to_nat k) = zeros (Z.to_nat k) else restorable (pm_BackupID mem) (sub image (Z.to_nat off) (Z.to_nat k)).
Definition memberSpan (mem : PartitionMember) : list span := match partitionOf (dc_Layout d) (pm_Index mem) with Some p => [partSpan (dc_Layout d) p] | None => [] end.

(** One member, as both restores write it. *)
Lemma member_written mem st t : memberOf mem → I st → whole t n → ∃ p st' t', partitionOf l (pm_Index mem) = Some p ∧
  (let off := Offset p (DiskLayout.SectorSize l) in let k := Length p (DiskLayout.SectorSize l) in
   (if isSkipped mem then let '(t, e) := writeZeros (mkWindow off k) k t in (st, t, e) else restoreMember parseJSON opts mem (mkWindow off k) k (ro_ReadAt opts) off st t) = (st', t', None)) ∧
  I st' ∧ whole t' n ∧ overlaid image (tg_data t) (tg_data t') (memberSpan mem).
Proof.
  intros (p & Hp & Hi & Hc) HI Hw. pose proof (partitionOf_in l p (fd_once _ _ Hfits) Hp) as Hpo. rewrite Hi in Hpo. destruct (fd_parts _ _ Hfits p Hp) as (H0 & H1 & H2).
  set (off := Offset p (DiskLayout.SectorSize l)). set (k := Length p (DiskLayout.SectorSize l)). fold l in Hc, H0, H1, H2. fold off k in Hc, H0, H1, H2.
  assert (Hov : overlaid image (tg_data t) (WriteAt (tg_data t) off (sub image (Z.to_nat off) (Z.to_nat k))) (memberSpan mem)). { unfold memberSpan. fold l. rewrite Hpo. destruct Hw as [Hl _]. apply overlaid_own; fold l off k; lia. }
  assert (Hk : len (sub image (Z.to_nat off) (Z.to_nat k)) = k) by (rewrite length_sub; lia).
  exists p. cbv zeta. fold off k. destruct (isSkipped mem).
  - exists st, (withData t (WriteAt (tg_data t) off (zeros (Z.to_nat k)))). rewrite (writeZeros_whole t n) by (cbn; done || lia). cbn [pt_base]. rewrite <- Hc. split_and!; try done. apply whole_WriteAt; done || lia.
  - destruct (restoreMember_ok mem _ off (ro_ReadAt opts) st t n Hc Hrd HI Hw H0 ltac:(lia)) as (st' & Hr & HI'). rewrite Hk in Hr.
    eexists st', _. split; [done|]. split; [exact Hr|]. split_and!; [done|apply whole_WriteAt; done || lia|done].
Qed.

Lemma diskMembers_ok mems : Forall memberOf mems → ∀ st t, I st → whole t n → ∃ st' t', diskMembers parseJSON opts d mems st t = (st', t', None) ∧ I st' ∧ whole t' n ∧
  overlaid image (tg_data t) (tg_data t') (mems ≫= memberSpan).
Proof.
  induction 1 as [|mem mems Hm _ IH]; intros st t HI Hw; [exists st, t; split_and!; try done; apply overlaid_refl|].
  cbn [diskMembers]. unfold diskMember. fold l. destruct (member_written mem st t Hm HI Hw) as (p & st1 & t1 & Hp & Hr & HI1 & Hw1 & Ho1). rewrite Hp. cbv zeta in Hr. cbv zeta. rewrite Hr.
  destruct (IH st1 t1 HI1 Hw1) as (st2 & t2 & -> & HI2 & Hw2 & Ho2). exists st2, t2. split_and!; try done. by eapply overlaid_trans.
Qed.

Lemma fitMembers_ok staged mems : Forall memberOf mems → ∀ st t, I st → whole t n → ∃ st' t', fitMembers parseJSON opts d None staged mems st t = (st', t', None) ∧ I st' ∧ whole t' n ∧
  overlaid image (tg_data t) (tg_data t') (mems ≫= memberSpan).
Proof.
  induction 1 as [|mem mems Hm _ IH]; intros st t HI Hw; [exists st, t; split_and!; try done; apply overlaid_refl|].
  cbn [fitMembers]. unfold fitMember. fold l. destruct (member_written mem st t Hm HI Hw) as (p & st1 & t1 & Hp & Hr & HI1 & Hw1 & Ho1). unfold placementFor. rewrite Hp. cbn [pl_shrink pl_grow pl_base pl_length pl_oldLength].
  cbv zeta in Hr. destruct (isSkipped mem).
  - rewrite Hr. destruct (IH st1 t1 HI1 Hw1) as (st2 & t2 & -> & HI2 & Hw2 & Ho2). exists st2, t2. split_and!; try done. by eapply overlaid_trans.
  - rewrite Hr. cbn [andb]. destruct (IH st1 t1 HI1 Hw1) as (st2 & t2 & -> & HI2 & Hw2 & Ho2). exists st2, t2. split_and!; try done. by eapply overlaid_trans.
Qed.

(** The captured disk: its boot structures and its partitions. *)
Definition capturedSpans : list span := bootSpans (dc_Layout d) ++ (partSpan (dc_Layout d) <$> Partitions (dc_Layout d)).

Context (Hd : snapshotDisk opts = Ok d) (Hmems : Forall memberOf (Members d)) (Htarget : ro_TargetSize opts = n).

Lemma snapshot_valid : capture_ok d.
Proof.
  clear -Hd. unfold snapshotDisk in Hd. destruct (LoadMachineManifest _ _) as [m|e] eqn:El; [|done]. destruct (_ <? 0); [done|]. destruct (mm_Disks m !! _) as [x|] eqn:Ex; [|done]. injection Hd as ->.
  unfold LoadMachineManifest in El. apply rbind_Ok_inv in El as (data & _ & El). unfold UnmarshalMachineManifest in El. apply rbind_Ok_inv in El as (env & _ & El). destruct (negb _); [done|].
  apply rbind_Ok_inv in El as (m' & _ & ([] & Hv & [= ->])%rbind_Ok_inv). unfold machineValid in Hv. destruct (validate (mm_Disks m)) as [[]|] eqn:Ev; [|done].
  apply machine_validate_iff in Ev as [_ Hall]. rewrite Forall_forall in Hall. apply Hall. by eapply list_elem_of_lookup_2.
Qed.

(** The members are the partitions. *)
Lemma members_cover i : inSpans (Members d ≫= memberSpan) i ↔ inSpans (partSpan l <$> Partitions l) i.
Proof.
  rewrite !inSpans_elem. setoid_rewrite list_elem_of_bind. setoid_rewrite list_elem_of_fmap. split.
  - intros (u & (mem & Hu & Hm) & Hi). rewrite Forall_forall in Hmems. destruct (Hmems mem Hm) as (p & Hp & Hix & _). unfold memberSpan in Hu. rewrite <- Hix, (partitionOf_in _ p (fd_once _ _ Hfits) Hp) in Hu.
    apply list_elem_of_singleton in Hu as ->. eauto.
  - intros (u & (p & -> & Hp) & Hi). destruct snapshot_valid as [_ _ Hcov _ _ _]. assert (Hix : Index p ∈ pm_Index <$> Members d) by (apply Hcov; by apply list_elem_of_fmap_2).
    apply list_elem_of_fmap in Hix as (mem & Hix & Hm). exists (partSpan l p). split; [|done]. exists mem. split; [|done]. unfold memberSpan. rewrite <- Hix, (partitionOf_in _ p (fd_once _ _ Hfits) Hp). by left.
Qed.

Lemma restored_spans i us vs : (∀ i, inSpans us i ↔ inSpans (bootSpans l) i) → (∀ i, inSpans vs i ↔ inSpans (partSpan l <$> Partitions l) i) → inSpans (us ++ vs) i ↔ inSpans capturedSpans i.
Proof. intros H1 H2. unfold capturedSpans. by rewrite !inSpans_app, H1, H2. Qed.

Lemma restore_overlays st t : I st → whole t n → ∃ st' t', RestoreDisk parseJSON opts st t = (st', t', None) ∧ I st' ∧ overlaid image (tg_data t) (tg_data t') capturedSpans.
Proof.
  intros HI Hw. destruct (boot_same image n l (ro_ReadAt opts) Hn Hsize Hfits Hrd d t Hcap Hw) as (boot & t1 & Hb & Hwb & Hw1 & Ho1). unfold RestoreDisk. rewrite Hd, Htarget, Hsize, Z.ltb_irrefl.
  unfold bootStructures in Hb. destruct (RelocateGPT _ _ _ _) as [x|]; [|done]. injection Hb as ->. rewrite Hwb.
  destruct (diskMembers_ok (Members d) Hmems st t1 HI Hw1) as (st2 & t2 & -> & HI2 & Hw2 & Ho2). exists st2, t2. unfold syncDisk. destruct Hw2 as (_ & _ & ->). split_and!; [done|done|].
  eapply overlaid_spans; [exact (overlaid_trans _ _ _ _ _ _ Ho1 Ho2)|]. intros i. apply restored_spans; [done|apply members_cover].
Qed.
Lemma fit_overlays staged st t : I st → whole t n → ∃ st' t', RestoreDiskFit parseJSON opts None staged st t = (st', t', None) ∧ I st' ∧ overlaid image (tg_data t) (tg_data t') capturedSpans.
Proof.
  intros HI Hw. unfold RestoreDiskFit. rewrite Hd, Htarget, Hsize, Z.ltb_irrefl. cbn [noPlan andb]. destruct (fitMembers_ok staged (Members d) Hmems st t HI Hw) as (st1 & t1 & -> & HI1 & Hw1 & Ho1).
  destruct (boot_same image n l (ro_ReadAt opts) Hn Hsize Hfits Hrd d t1 Hcap Hw1) as (boot & t2 & -> & -> & Hw2 & Ho2). exists st1, t2. unfold syncDisk. destruct Hw2 as (_ & _ & ->). split_and!; [done|done|].
  eapply overlaid_spans; [exact (overlaid_trans _ _ _ _ _ _ Ho1 Ho2)|]. intros i. unfold capturedSpans. rewrite !inSpans_app, members_cover. tauto.
Qed.
End disks.

(** What a restore needs: a snapshot whose disk is a capture of [image], its members restorable to the
    image's partitions or skipped where the image has zeros. *)
Record imageOf `{!SortSlice, !Primitives, !Zstd, !MachineJSON} (parseJSON : bytes → option Backup) (opts : RestoreDiskOptions) (I : ChunkStore → Prop) (content : bytes → option bytes) (image : bytes) (d : DiskCapture) : Prop := {
  im_disk : snapshotDisk opts = Ok d;
  im_fits : fitsDisk (dc_Layout d) (len image) ∧ DiskSize (dc_Layout d) = len image;
  im_boot : captures image (dc_Layout d) d;
  im_members : Forall (memberOf parseJSON opts content image d) (Members d);
  im_target : ro_TargetSize opts = len image }.

Section theorems.
Context {SS : SortSlice} {PR : Primitives} {ZS : Zstd} {MJ : MachineJSON} (parseJSON : bytes → option Backup) (opts : RestoreDiskOptions).
Context (I : ChunkStore → Prop) (content : bytes → option bytes).

(** C37. Restoring a captured disk onto a target of its size: the restore succeeds and the target is
    what it held with the captured disk laid over it; on every partition, in the boot
    structures and in the chain of boot records it is the captured disk byte for byte,
    skipped partitions as zeros, and nothing else of the target changes.  The fit path with no plan gives
    the same disk, although it writes the boot structures last. *)
Theorem restore_disk_exact image d staged st t : Supplies (ro_Index opts) (ro_Hooks opts) I content → imageOf parseJSON opts I content image d → faithful (ro_ReadAt opts) → I st → whole t (len image) →
  ∃ st' t' st'' t'', RestoreDisk parseJSON opts st t = (st', t', None) ∧ I st' ∧ overlaid image (tg_data t) (tg_data t') (capturedSpans d) ∧
    RestoreDiskFit parseJSON opts None staged st t = (st'', t'', None) ∧ I st'' ∧ tg_data t'' = tg_data t'.
Proof.
  intros Hs [H1 [H2 H3] H4 H5 H6] Hrd HI Hw. destruct (restore_overlays parseJSON opts I content Hrd image (len image) eq_refl d H2 H3 H4 H1 H5 H6 st t HI Hw) as (st1 & t1 & E1 & I1 & O1).
  destruct (fit_overlays parseJSON opts I content Hrd image (len image) eq_refl d H2 H3 H4 H1 H5 H6 staged st t HI Hw) as (st2 & t2 & E2 & I2 & O2).
  exists st1, t1, st2, t2. split_and!; try done. by eapply overlaid_unique.
Qed.
End theorems.

(** ** A small machine *)

(** A disk with one partition of one sector, its backup, and the snapshot of the machine. *)
Definition machineDisk : bytes := WriteAt (sampleDisk 3 3 6 4) 1536 [1; 2; 3; 4].
Definition machineLayout : DiskLayout := match Parse machineDisk 3584 with Ok l => l | Err _ => mkLayout "" 0 0 "" 0 0 0 [] [] (DiskLayout.mkRange 0 0) (DiskLayout.mkRange 0 0) end.
Definition machineCapture : DiskCapture :=
  mkCaptured "" machineLayout (regionBytes machineDisk (PrimaryRegion machineLayout)) (regionBytes machineDisk (BackupRegion machineLayout)) [] [mkMember 0 "raw" [112] ""].
Definition sectorEntries : list Entry := [mkEntry 0 oneHash 4 false; mkEntry 4 (zeros 32) 508 true].
Definition sectorBytes : bytes := [1; 2; 3; 4] ++ zeros 508.
Definition sectorBackup : Backup :=
  mkBackup [112] None [] 0 0 512 sectorEntries [] [] 2 1 0 4 4 0 0 [] (hexEncode (Sum256 sectorBytes)) DigestCoversSourceStreamV1 [] [] 0 0 [] [] [] [] 0 [].
#[local] Instance machineCodec : MachineJSON :=
  {| marshalMachine := λ _, []; unmarshalMachine := λ _, Some (mkMachine 1 "" "" "" 0 [machineCapture]); marshalEnvelope := λ b _, b; unmarshalEnvelope := λ _, Some ([], 0) |}.
Definition machineRepo : dir := WriteEntries (create (create None (ManifestPath [112]) []) (MachineManifestPath [109]) []) [112] sectorEntries.
Definition sectorJSON (_ : bytes) : option Backup := Some sectorBackup.
Definition machineOptions : RestoreDiskOptions := mkRestoreDisk machineRepo [109] 0 3584 oneIndex noHooks None (Some plainReadBack).

Lemma sector_restorable : restorable sectorJSON machineOptions oneContent [112] sectorBytes.
Proof.
  exists (withEntries sectorBackup []), (NewSliceEntryAccessor sectorEntries), sectorEntries.
  assert (Hc : concat (bytesOf oneContent <$> sectorEntries) = sectorBytes). { unfold sectorEntries, bytesOf, oneContent. cbn -[oneHash zeros]. rewrite decide_True by done. unfold sectorBytes. by rewrite app_nil_r. }
  split_and!; [vm_compute; reflexivity|vm_compute; reflexivity|apply slice_accesses| | |exact Hc|intros _; cbv [withEntries sectorBackup ContentDigest]; reflexivity].
  - constructor; [exact (Forall_inv three_suit)|]. constructor; [done|constructor].
  - split; [|rewrite Hc; vm_compute; reflexivity]. unfold sectorEntries, writeOf, bytesOf, oneContent. cbn -[oneHash zeros]. rewrite decide_True by done. cbn. by split_and!.
Qed.
Lemma machine_image : imageOf sectorJSON machineOptions (λ st, st = oneStore) oneContent machineDisk machineCapture.
Proof.
  assert (Hl : Partitions machineLayout = [mkPart 0 (GUID_String (replicate 16 1)) (TypeName_of (replicate 16 1)) (GUID_String (replicate 16 2)) [] 3 3 0 0 false]) by (vm_compute; reflexivity).
  assert (Hlen : len machineDisk = 3584) by (vm_compute; reflexivity).
  split.
  - vm_compute. reflexivity.
  - apply (parsed_fits machineDisk machineLayout).
    + by_eval.
    + vm_compute. reflexivity.
    + vm_compute. reflexivity.
    + intros p Hp. rewrite Hl in Hp. apply list_elem_of_singleton in Hp as ->. rewrite Hlen. vm_compute. split_and!; discriminate.
    + right. rewrite Hlen. vm_compute. reflexivity.
  - split; vm_compute; reflexivity.
  - constructor; [|constructor]. eexists. split; [cbn [machineCapture dc_Layout]; rewrite Hl; left|]. split; [reflexivity|]. cbn [isSkipped pm_Kind String.eqb Ascii.eqb Bool.eqb].
    assert (Hb : sub machineDisk (Z.to_nat 1536) (Z.to_nat 512) = sectorBytes) by (vm_compute; reflexivity). exact (eq_rect _ (λ c, restorable sectorJSON machineOptions oneContent [112] c) sector_restorable _ (eq_sym Hb)).
  - rewrite Hlen. reflexivity.
Qed.

Lemma restore_disk_exact_witness : ∃ t', RestoreDisk sectorJSON machineOptions oneStore (usedTarget (Z.to_nat 3584)) = (oneStore, t', None) ∧
  overlaid machineDisk (tg_data (usedTarget (Z.to_nat 3584))) (tg_data t') (capturedSpans machineCapture) ∧ sub (tg_data t') (Z.to_nat 2048) 2 = [5; 5].
Proof.
  destruct (restore_disk_exact sectorJSON machineOptions (λ st, st = oneStore) oneContent machineDisk machineCapture ∅ oneStore (usedTarget (Z.to_nat 3584))) as (st' & t' & st'' & t'' & H1 & H2 & H3 & _).
  - apply one_supplies.
  - apply machine_image.
  - apply plainReadBack_faithful.
  - reflexivity.
  - split_and!; [vm_compute; reflexivity|done|reflexivity].
  - subst st'. exists t'. split_and!; [exact H1|exact H3|]. apply list_eq. intros i. rewrite lookup_sub.
    assert (Hout : ∀ j : nat, (j < 2)%nat → tg_data t' !! (Z.to_nat 2048 + j)%nat = Some 5).
    { intros j Hj. rewrite (ov_out _ _ _ _ H3); [cbn [usedTarget tg_data]; apply lookup_replicate; split; [done|lia]|]. rewrite inSpans_elem. intros (u & Hu & Hr).
      assert (Hs : capturedSpans machineCapture = [(0, 1536); (2560, 3584); (1536, 2048)]) by (vm_compute; reflexivity). rewrite Hs, !elem_of_cons, elem_of_nil in Hu. destruct Hu as [->|[->|[->|[]]]]; cbn in Hr; lia. }
    destruct i as [|[|i]]; cbn; [by rewrite <- (Hout 0%nat) by lia|by rewrite <- (Hout 1%nat) by lia|done].
Defined.
