(* ===== verification/DiskOrder.v ===== *)
(** * Theorems on interrupted disk restores (bmr/fit.go)

    A restore into a plan writes the members first: whatever stops it among them, a refused
    write, a missing backup or a digest that does not match, the boot region of the
    target is still what it was, so no table points at half-written partitions.  The restore in
    place writes its boot structures first, and does leave a table over unwritten
    partitions. *)

From S2P Require Import Chunker.
From S2P Require Import Prelude GoBytes GoRuntime GoFiles Hashes HashTable HashIndex Crypto Dedup PackStore Preprocess Rebuild.
From S2P Require Import DiskLayout Gpt Mbr Fit Machine Dnm DnmFile DnmAccess ManifestRepo Restore BareMetal Cloned Packs Restored DiskRestored.

(** ** A restore keeps what its writes keep *)

Section keeps.
Context {SS : SortSlice} {PR : Primitives} {ZS : Zstd} (Q : Target → Prop).
Context (Hwrite : ∀ t d off t', Q t → tgWriteAt t d off = Some t' → Q t').

Lemma scanBatch_keeps idx batch : ∀ i s s' e, Q (p1_target s) → scanBatch idx i batch s = (s', e) → Q (p1_target s').
Proof.
  induction batch as [|x batch IH]; intros i s s' e Hs; cbn [scanBatch]; [by intros [= <- _]|]. destruct (IsExcluded x).
  - destruct (_ <? 0); [by intros [= <- _]|]. destruct (tgWriteAt _ _ _) as [t|] eqn:Ew; [|by intros [= <- _]]. apply IH. cbn. by eapply Hwrite.
  - destruct (LookupDirect _ _) as [[ie|]|]; [|by intros [= <- _]..]. by apply IH.
Qed.
Lemma scanEntries_keeps idx ea fuel : ∀ lo s s' e, Q (p1_target s) → scanEntries fuel idx ea lo s = (s', e) → Q (p1_target s').
Proof.
  induction fuel as [|fuel IH]; intros lo s s' e Hs; cbn [scanEntries]; [by intros [= <- _]|]. destruct (_ <? _); [|by intros [= <- _]].
  destruct (RangeOf _ _ _) as [batch|]; [|by intros [= <- _]]. destruct (scanBatch _ _ _ _) as [s1 [er|]] eqn:Eb; pose proof (scanBatch_keeps _ _ _ _ _ _ Hs Eb); [by intros [= <- _]|]. by apply IH.
Qed.
Lemma restoreRef_keeps r ea ref s s' e : Q (p2_target s) → restoreRef r ea ref s = (s', e) → Q (p2_target s').
Proof.
  intros Hs. unfold restoreRef. destruct (At _ _) as [x|]; [|by intros [= <- _]]. destruct (Retrieve _ _ _ _) as [st [data|er]]; [|by intros [= <- _]].
  destruct (negb _); [by intros [= <- _]|]. destruct (negb _); [by intros [= <- _]|]. destruct (tgWriteAt _ _ _) as [t|] eqn:Ew; [|by intros [= <- _]]. intros [= <- _]. cbn. by eapply Hwrite.
Qed.
Lemma restoreRefs_keeps r ea refs : ∀ s s' e, Q (p2_target s) → restoreRefs r ea refs s = (s', e) → Q (p2_target s').
Proof.
  induction refs as [|ref refs IH]; intros s s' e Hs; cbn [restoreRefs]; [by intros [= <- _]|]. destruct (restoreRef r ea ref s) as [s1 [er|]] eqn:Er; pose proof (restoreRef_keeps _ _ _ _ _ _ Hs Er); [by intros [= <- _]|]. by apply IH.
Qed.
Lemma RestoreEntries_keeps r b ea t st' t' res : Q t → (∀ t', tgTruncate t (TotalBytes b) = Some t' → Q t') → RestoreEntries r b ea t = (st', t', res) → Q t'.
Proof.
  intros Ht Htr. unfold RestoreEntries. destruct (_ && _); [by intros [= _ <- _]|]. destruct (tgTruncate t (TotalBytes b)) as [t0|] eqn:E0; [|by intros [= _ <- _]].
  destruct (scanEntries _ _ _ _ _) as [s [er|]] eqn:Es; pose proof (scanEntries_keeps (rt_index r) ea _ _ (mkPass1 t0 [] 0 0) _ _ (Htr t0 eq_refl) Es) as H1; [by intros [= _ <- _]|].
  destruct (restoreRefs _ _ _ _) as [s2 [er|]] eqn:Er; pose proof (restoreRefs_keeps r ea _ _ _ _ (H1 : Q (p2_target (mkPass2 (rt_store r) (p1_target s) 0 (p1_written s)))) Er); by intros [= _ <- _].
Qed.
End keeps.

(** ** Bytes below a place *)

(** Of the same length, and with the same first [n] bytes. *)
Definition sameBelow (n : Z) (t t' : Target) : Prop := length (tg_data t') = length (tg_data t) ∧ take (Z.to_nat n) (tg_data t') = take (Z.to_nat n) (tg_data t).
#[export] Instance sameBelow_preorder n : PreOrder (sameBelow n).
Proof. split; [done|]. intros t1 t2 t3 [A1 A2] [B1 B2]. split; congruence. Qed.

Lemma sameBelow_WriteAt n t off d : n ≤ off → 0 ≤ off → off + len d ≤ len (tg_data t) → sameBelow n t (withData t (WriteAt (tg_data t) off d)).
Proof.
  intros H0 H1 H2. split; cbn; [apply length_WriteAt; lia|]. rewrite WriteAt_in by lia. rewrite take_app_le by (rewrite length_take; lia). rewrite take_take. f_equal. lia.
Qed.
(** A window behind the first [n] bytes, inside the target. *)
Definition behind (n : Z) (t : Target) (p : partitionTarget) : Prop := n ≤ pt_base p ∧ 0 ≤ pt_base p ∧ pt_base p + pt_length p ≤ len (tg_data t).
Lemma behind_same n t t' p : sameBelow n t t' → behind n t p → behind n t' p.
Proof. intros [Hl _] (H1 & H2 & H3). split_and!; [done|done|lia]. Qed.

Lemma ptWriteAt_below n t p d off t' : behind n t p → ptWriteAt t p d off = Some t' → sameBelow n t t'.
Proof.
  intros (H1 & H2 & H3). unfold ptWriteAt. destruct (_ || _) eqn:E; [done|]. apply orb_false_iff in E as [E1 E2]. zbool. unfold tgWriteAt. destruct (_ || _); [done|]. intros [= <-]. apply sameBelow_WriteAt; lia.
Qed.
Lemma zerosLoop_below n fuel p k : ∀ off t t' e, behind n t p → zerosLoop fuel p k off t = (t', e) → sameBelow n t t'.
Proof.
  induction fuel as [|fuel IH]; intros off t t' e Hb; cbn [zerosLoop]; [by intros [= <- _]|]. destruct (_ <? _); [|by intros [= <- _]].
  destruct (ptWriteAt _ _ _ _) as [t1|] eqn:Ew; [|by intros [= <- _]]. intros H. pose proof (ptWriteAt_below n _ _ _ _ _ Hb Ew) as H1. etrans; [exact H1|]. eapply IH; [|exact H]. by eapply behind_same.
Qed.
Lemma copyLoop_below n fuel p src so k : ∀ off h t t' e, behind n t p → copyLoop fuel p src so k off h t = (t', e) → sameBelow n t t'.
Proof.
  induction fuel as [|fuel IH]; intros off h t t' e Hb; cbn [copyLoop]; [by intros [= <- _]|]. destruct (_ <? _); [|by intros [= <- _]]. destruct (ReadAt _ _ _) as [d|]; [|by intros [= <- _]].
  destruct (ptWriteAt _ _ _ _) as [t1|] eqn:Ew; [|by intros [= <- _]]. intros H. pose proof (ptWriteAt_below n _ _ _ _ _ Hb Ew) as H1. etrans; [exact H1|]. eapply IH; [|exact H]. by eapply behind_same.
Qed.
Lemma writeStaged_below n p sm k t t' e : behind n t p → writeStaged p sm k t = (t', e) → sameBelow n t t'.
Proof.
  intros Hb. unfold writeStaged. destruct (sm_Reader sm); [|by intros [= <- _]]. destruct (negb _); [by intros [= <- _]|]. unfold copyAt.
  destruct (copyLoop _ _ _ _ _ _ _ _) as [t1 [h|er]] eqn:Ec; pose proof (copyLoop_below n _ _ _ _ _ _ _ _ _ _ Hb Ec); by intros [= <- _].
Qed.

(** ** Members first *)

Section order.
Context {SS : SortSlice} {PR : Primitives} {ZS : Zstd} {MJ : MachineJSON} (parseJSON : bytes → option Backup) (opts : RestoreDiskOptions) (n : Z).

(** What a window's bytes stay within, whatever is written through it. *)
Definition windowed (t : Target) (p : partitionTarget) (w : Target) : Prop := tg_accepts w = tg_accepts (windowOf t p) ∧ len (tg_data w) ≤ pt_length p.

Lemma restoreMember_below mem p rd base st t st' t' e : behind n t p → 0 ≤ pt_length p → restoreMember parseJSON opts mem p (pt_length p) rd base st t = (st', t', e) → sameBelow n t t'.
Proof.
  intros Hb Hl. unfold restoreMember. destruct (LoadMetadata _ _ _) as [b|]; [|by intros [= _ <- _]]. destruct (Z.eqb_spec (TotalBytes b) (pt_length p)) as [Ht|]; cbn [negb]; [|by intros [= _ <- _]].
  destruct (NewEntryAccessor _ _) as [ea|]; [|by intros [= _ <- _]]. set (r := SetNormalizer _ _). destruct (RestoreEntries r b ea (windowOf t p)) as [[st1 w] res] eqn:Er.
  assert (Hw : windowed t p w).
  { refine (RestoreEntries_keeps (windowed t p) _ r b ea (windowOf t p) st1 w res _ _ Er).
    - intros t1 d off t2 [A1 A2]. unfold tgWriteAt. destruct (_ || _) eqn:E; [done|]. intros [= <-]. apply orb_false_iff in E as [E1 E2%negb_false_iff]. split; [done|]. cbn. rewrite A1 in E2. cbn in E2.
      apply andb_true_iff in E2 as [[E2 _]%andb_true_iff _]. zbool. rewrite length_WriteAt_max by lia. lia.
    - split; [done|]. cbn. unfold sub. rewrite length_take. lia.
    - intros t1. unfold tgTruncate. destruct (_ || _); [done|]. intros [= <-]. split; [done|]. cbn. rewrite Ht, length_Truncate by lia. lia. }
  destruct Hb as (B1 & B2 & B3). destruct Hw as [_ Hw]. assert (Hs : sameBelow n t (throughWindow t p w)) by (apply sameBelow_WriteAt; lia). destruct res; by intros [= _ <- _].
Qed.

(** Every placement lies behind the first [n] bytes, inside the target, its captured length too. *)
Definition placedBehind (l : DiskLayout) (fit : option FitPlan) (size : Z) : Prop := ∀ i pl, placementFor l fit i = Ok pl →
  n ≤ pl_base pl ∧ 0 ≤ pl_base pl ∧ 0 ≤ pl_oldLength pl ∧ pl_base pl + pl_length pl ≤ size ∧ (pl_shrink pl = false → pl_base pl + pl_oldLength pl ≤ size).

Lemma fitMember_below d fit staged mem st t st' t' e : placedBehind (dc_Layout d) fit (len (tg_data t)) → fitMember parseJSON opts d fit staged mem st t = (st', t', e) → sameBelow n t t'.
Proof.
  intros Hp. unfold fitMember. destruct (placementFor _ _ _) as [pl|] eqn:Ep; [|by intros [= _ <- _]]. destruct (Hp _ _ Ep) as (P1 & P2 & P3 & P4 & P5).
  assert (Hb : behind n t (mkWindow (pl_base pl) (pl_length pl))) by (split_and!; cbn; lia). destruct (isSkipped mem).
  { destruct (writeZeros _ _ _) as [t1 er] eqn:Ez. intros [= _ <- _]. eapply zerosLoop_below; [exact Hb|exact Ez]. }
  destruct (pl_shrink pl).
  { destruct (staged !! _) as [sm|]; [|by intros [= _ <- _]]. destruct (writeStaged _ _ _ _) as [t1 [h|er]] eqn:Ew; pose proof (writeStaged_below n _ _ _ _ _ _ Hb Ew); by intros [= _ <- _]. }
  specialize (P5 eq_refl). destruct (restoreMember _ _ _ _ _ _ _ _ _) as [[st1 t1] e1] eqn:Er.
  assert (H1 : sameBelow n t t1) by (eapply (restoreMember_below mem (mkWindow (pl_base pl) (pl_oldLength pl))); [split_and!; cbn; lia|cbn; lia|exact Er]).
  destruct e1 as [er|]; [by intros [= _ <- _]|]. destruct (_ && _) eqn:Eg; [|by intros [= _ <- _]]. apply andb_true_iff in Eg as [_ Eg]. zbool.
  destruct (writeZeros _ _ t1) as [t2 er] eqn:Ez. intros [= _ <- _]. etrans; [exact H1|]. destruct H1 as [L1 _]. eapply zerosLoop_below; [|exact Ez]. split_and!; cbn; lia.
Qed.

Lemma fitMembers_below d fit staged mems : ∀ st t st' t' e, placedBehind (dc_Layout d) fit (len (tg_data t)) → fitMembers parseJSON opts d fit staged mems st t = (st', t', e) → sameBelow n t t'.
Proof.
  induction mems as [|mem mems IH]; intros st t st' t' e Hp; cbn [fitMembers]; [by intros [= _ <- _]|]. destruct (fitMember _ _ _ _ _ _ _ _) as [[st1 t1] [er|]] eqn:Em; pose proof (fitMember_below _ _ _ _ _ _ _ _ _ Hp Em) as H1; [by intros [= _ <- _]|].
  intros H. etrans; [exact H1|]. eapply IH; [|exact H]. destruct H1 as [-> _]. done.
Qed.

(** C38. A restore into a plan writes its boot structures last: when a member fails, whatever the
    target refuses and the repository lacks, the restore reports that error and the first
    [n] bytes of the target, in front of every placement, are what they were; no table
    points at half-written partitions. *)
Theorem restore_fit_boot_last d fit staged st t st' t' e : snapshotDisk opts = Ok d → noPlan fit && (ro_TargetSize opts <? DiskSize (dc_Layout d)) = false →
  placedBehind (dc_Layout d) fit (len (tg_data t)) → fitMembers parseJSON opts d fit staged (Members d) st t = (st', t', Some e) →
  RestoreDiskFit parseJSON opts fit staged st t = (st', t', Some e) ∧ take (Z.to_nat n) (tg_data t') = take (Z.to_nat n) (tg_data t) ∧ length (tg_data t') = length (tg_data t).
Proof.
  intros Hd Hs Hp Hf. unfold RestoreDiskFit. rewrite Hd, Hs, Hf. split; [done|]. by destruct (fitMembers_below _ _ _ _ _ _ _ _ _ Hp Hf).
Qed.
End order.

(** ** A refused write *)

(** The small machine with its entries file gone, over a target that was in use. *)
Definition brokenOptions : RestoreDiskOptions := mkRestoreDisk (remove machineRepo (EntriesPath [112])) [109] 0 3584 oneIndex noHooks None None.

Lemma unplanned_behind n l size : 0 ≤ n → (∀ p, p ∈ Partitions l → n ≤ Offset p (DiskLayout.SectorSize l) ∧ 0 ≤ Length p (DiskLayout.SectorSize l) ∧ Offset p (DiskLayout.SectorSize l) + Length p (DiskLayout.SectorSize l) ≤ size) →
  placedBehind n l None size.
Proof.
  intros Hn Hl i pl H. unfold placementFor in H. destruct (partitionOf l i) as [p|] eqn:Ep; [|done]. assert (Hp : p ∈ Partitions l).
  { unfold partitionOf in Ep. apply last_Some_elem_of in Ep. by apply list_elem_of_filter in Ep as [_ ?]. }
  destruct (Hl p Hp) as (H1 & H2 & H3). injection H as <-. cbn [pl_base pl_length pl_oldLength pl_shrink]. lia.
Qed.

Lemma machine_behind : placedBehind 1536 machineLayout None 3584.
Proof.
  assert (Hl : (λ p, (Offset p (DiskLayout.SectorSize machineLayout), Length p (DiskLayout.SectorSize machineLayout))) <$> Partitions machineLayout = [(1536, 512)]) by (vm_compute; reflexivity).
  generalize dependent machineLayout. intros l Hl. apply unplanned_behind; [lia|]. intros p Hp.
  apply (list_elem_of_fmap_2 (λ p, (Offset p (DiskLayout.SectorSize l), Length p (DiskLayout.SectorSize l)))) in Hp. rewrite Hl in Hp. apply list_elem_of_singleton in Hp. injection Hp as H1 H2. rewrite H1, H2. lia.
Qed.

Lemma restore_fit_boot_last_witness : ∃ st' t' e, RestoreDiskFit (MJ := machineCodec) sectorJSON brokenOptions None ∅ oneStore (usedTarget (Z.to_nat 3584)) = (st', t', Some e) ∧
  take (Z.to_nat 1536) (tg_data t') = replicate (Z.to_nat 1536) 5.
Proof.
  destruct (restore_fit_boot_last (MJ := machineCodec) sectorJSON brokenOptions 1536 machineCapture None ∅ oneStore (usedTarget (Z.to_nat 3584)) oneStore (usedTarget (Z.to_nat 3584)) (BmRestore 0 RsNoEntries)) as (H1 & H2 & _).
  - vm_compute. reflexivity.
  - reflexivity.
  - apply machine_behind.
  - vm_compute. reflexivity.
  - eexists _, _, _. split; [exact H1|]. vm_compute. reflexivity.
Defined.
