(* ===== verification/FilesRestored.v ===== *)
(** * core/restore: what restored files are

    Files restored from a backup hold the bytes of its stream or of its volume, with or
    without the prefetcher; what was written is what hashed right; and a file that
    fails to restore leaves nothing behind. *)

From S2P Require Import Prelude GoBytes GoRuntime GoFiles GoPath Hashes HashTable HashIndex Crypto Dedup PackStore Packs Preprocess RepoConfig Rebuild.
From S2P Require Import Dnm DnmAccess ManifestRepo Restore FileRestore Restored.

(** ** Ranges of a stream *)

(** The bytes of [l], which starts at [o], inside [a, b). *)
Definition window (a b o : Z) (l : bytes) : bytes :=
  take (Z.to_nat (Z.min b (o + len l) - Z.max a o)) (drop (Z.to_nat (Z.max a o - o)) l).

Lemma window_app a b o d l : window a b o (d ++ l) = window a b o d ++ window a b (o + len d) l.
Proof.
  unfold window. rewrite length_app.
  destruct (decide (a ≤ o + len d)) as [Ha|Ha].
  - rewrite drop_app_le by lia. destruct (decide (b ≤ o + len d)).
    + rewrite take_app_le by len. replace (Z.to_nat (Z.min b (o + len d + len l) - Z.max a (o + len d))) with 0%nat by lia.
      rewrite take_0, app_nil_r. do 2 f_equal. lia.
    + rewrite take_app_ge by len. replace (Z.to_nat (Z.max a (o + len d) - (o + len d))) with 0%nat by lia. rewrite drop_0. f_equal.
      * symmetry. apply take_ge. len.
      * f_equal. len.
  - rewrite drop_app_ge by lia. replace (Z.to_nat (Z.min b (o + len d) - Z.max a o)) with 0%nat by lia. rewrite take_0. cbn [app].
    f_equal; [lia|f_equal; lia].
Qed.

Lemma window_outside a b o l : o + len l ≤ a ∨ b ≤ o → window a b o l = [].
Proof. intros H. unfold window. apply nil_length_inv. len. Qed.

Lemma window_nil a b o : window a b o [] = [].
Proof. unfold window. by rewrite drop_nil, take_nil. Qed.

Lemma window_sub a b l : 0 ≤ a → b ≤ len l → window a b 0 l = sub l (Z.to_nat a) (Z.to_nat (b - a)).
Proof. intros. unfold window, sub. f_equal; [lia|f_equal; lia]. Qed.

Lemma length_window a b o l : len (window a b o l) = Z.max 0 (Z.min b (o + len l) - Z.max a o).
Proof. unfold window. len. Qed.

Lemma Forall_filtered {A} (P Q : A → Prop) `{∀ x, Decision (Q x)} l : Forall P l → Forall P (filter Q l).
Proof. rewrite !Forall_forall. intros HP x [_ Hx]%list_elem_of_filter. auto. Qed.

(** ** Entries over a stream *)

(** The entries lie end to end over [l], and every chunk has its identity and length. *)
Record laid (norm : option Normalizer) (content : bytes → option bytes) (es : list Entry) (l : bytes) : Prop := {
  ld_contiguous : contiguous 0 (writeOf content <$> es);
  ld_bytes : concat (bytesOf content <$> es) = l;
  ld_suits : Forall (suits norm content) es;
  ld_length : len l < 2 ^ 63 }.

Definition plain (e : Entry) : Prop := IsExcluded e = false.

Lemma suits_length norm content e : suits norm content e → len (bytesOf content e) = ChunkLength e.
Proof. unfold suits, bytesOf. destruct (IsExcluded e); [intros; len|]. intros (d & -> & _ & <-). done. Qed.

Lemma contiguous_sorted norm content es : ∀ o, 0 ≤ o → contiguous o (writeOf content <$> es) → Forall (suits norm content) es →
  o + len (concat (bytesOf content <$> es)) < 2 ^ 63 → entries_sorted es ∧ Forall (λ e, o ≤ VolumeOffset e) es.
Proof.
  induction es as [|e es IH]; intros o Ho; [intros; repeat constructor|]. intros [He Hc] [Hs Hss]%Forall_cons Hl. cbn in He, Hc, Hl. subst o.
  pose proof (suits_length _ _ _ Hs) as Hle. rewrite length_app in Hl.
  destruct (IH (VolumeOffset e + len (bytesOf content e)) ltac:(lia) Hc Hss ltac:(lia)) as [[H1 H2] H3].
  split; [split|].
  - constructor; [unfold entry_ok, entry_end; lia|done].
  - constructor; [done|]. eapply Forall_impl; [exact H3|]. unfold entry_end. intros; cbn in *; lia.
  - constructor; [done|]. eapply Forall_impl; [exact H3|]. intros; cbn in *; lia.
Qed.

Lemma laid_sorted norm content es l : laid norm content es l → entries_sorted es.
Proof. intros [Hc <- Hs Hl]. eapply (contiguous_sorted norm content es 0); [lia|done|done|lia]. Qed.

(** What the range [a, b) takes of an entry. *)
Definition clip (content : bytes → option bytes) (a b : Z) (e : Entry) : bytes := window a b (VolumeOffset e) (bytesOf content e).

Lemma clips_window norm content a b es : ∀ o, contiguous o (writeOf content <$> es) → Forall (suits norm content) es →
  concat (clip content a b <$> filter (overlaps a b) es) = window a b o (concat (bytesOf content <$> es)).
Proof.
  induction es as [|e es IH]; intros o; [intros; symmetry; apply window_nil|]. intros [He Hc] [Hs Hss]%Forall_cons. cbn in He, Hc. subst o.
  cbn [fmap list_fmap concat]. rewrite window_app. specialize (IH _ Hc Hss). rewrite <- IH. rewrite filter_cons.
  pose proof (suits_length _ _ _ Hs) as Hle. destruct (decide (overlaps a b e)) as [Ho|Ho]; [done|]. cbn.
  rewrite window_outside; [done|]. unfold overlaps, entry_end in Ho. lia.
Qed.

Lemma laid_range norm content es l a b : laid norm content es l → 0 ≤ a → b ≤ len l →
  concat (clip content a b <$> filter (overlaps a b) es) = sub l (Z.to_nat a) (Z.to_nat (b - a)).
Proof. intros [Hc <- Hs Hl] Ha Hb. rewrite (clips_window norm content a b es 0 Hc Hs). by apply window_sub. Qed.

(** The slice the code takes is the clip. *)
Lemma sliceOf_clip norm content a b e d : suits norm content e → plain e → content (ChunkHash e) = Some d → entry_ok e → 0 ≤ a → b < 2 ^ 63 → a < b → overlaps a b e →
  sliceOf d a b e = Some (clip content a b e).
Proof.
  intros Hs Hp Hd (H1 & H2 & H3) Ha Hb Hab [Ho1 Ho2]. pose proof (suits_length _ _ _ Hs) as Hl. unfold clip, bytesOf in *. rewrite Hp, Hd in *. cbn [default from_option id] in *.
  unfold entry_end in *.
  unfold sliceOf. rewrite (i64_id (VolumeOffset e + ChunkLength e)) by (unfold is_i64; lia).
    assert (Ea : (if VolumeOffset e <? a then i64 (a - VolumeOffset e) else 0) = Z.max a (VolumeOffset e) - VolumeOffset e).
    { destruct (Z.ltb_spec (VolumeOffset e) a); [rewrite i64_id by (unfold is_i64; lia)|]; lia. }
    assert (Eb : (if b <? VolumeOffset e + ChunkLength e then i64 (len d - i64 (VolumeOffset e + ChunkLength e - b)) else len d) = Z.min b (VolumeOffset e + len d) - VolumeOffset e).
    { destruct (Z.ltb_spec b (VolumeOffset e + ChunkLength e)); [|lia]. rewrite (i64_id (_ - b)) by (unfold is_i64; lia). rewrite i64_id by (unfold is_i64; lia). lia. }
    rewrite Ea, Eb. match goal with |- context[if ?c then None else _] => replace c with false by lia end. unfold sub, window. do 3 f_equal. lia.
Qed.

(** ** Reading chunks *)

Section reading.
Context {PR : Primitives} {ZS : Zstd}.
Context (r : FileRestorer) (I : ChunkStore → Prop) (content : bytes → option bytes).
Context `{HS : !Supplies (fr_index r) (fr_hooks r) I content}.

(** A frame under the location of a chunk gives the chunk or does not decode. *)
Definition goodFrames (frames : gmap (Z * Z) bytes) : Prop :=
  ∀ loc frame, frames !! loc = Some frame → ∀ st, I st → ∀ h data ie d, content h = Some data → LookupDirect (fr_index r) h = Ok (Some ie) →
    loc = (locationOf ie).1 → RetrieveFromFrame st frame = Ok d → d = data.
(** The download service answers batches with such frames only. *)
Definition honestBatches : Prop := ∀ refs, goodFrames (FetchBatch (fr_hooks r) refs).1.

Definition filing_ok (s : filing) : Prop := I (fi_store s) ∧ match fi_pf s with Some p => goodFrames (pf_frames p) | None => True end.

Lemma goodFrames_empty : goodFrames ∅.
Proof. intros loc frame H. by rewrite lookup_empty in H. Qed.

Lemma ensure_good res st p (i : nat) : honestBatches → goodFrames (pf_frames p) → goodFrames (pf_frames (ensure (fr_hooks r) st res i p)).
Proof.
  intros Hh Hp. unfold ensure. repeat (case_match; try done); cbn; subst; try apply Hh; simplify_eq; done.
Qed.

Lemma chunkData_ok c s h data ie : filing_ok s → content h = Some data → LookupDirect (fr_index r) h = Ok (Some ie) → re_ref c = locationOf ie →
  ∃ s', chunkData r c s = (s', Ok data) ∧ filing_ok s' ∧ fi_tree s' = fi_tree s.
Proof.
  intros [HI Hf] Hd Hie Hc. destruct (su_reads h data Hd) as (ie' & Hie' & Hr). rewrite Hie in Hie'. simplify_eq. destruct (Hr _ HI) as (st' & Hret & HI').
  assert (Hread : ∃ s', match Retrieve (fr_hooks r) (fi_store s) (PackNumber ie') (i64 (StoreOffset ie')) with
                        | (st, Err e) => (mkFiling st (fi_pf s) (fi_tree s), Err (FrRetrieve e))
                        | (st, Ok data) => (mkFiling st (fi_pf s) (fi_tree s), Ok data)
                        end = (s', Ok data) ∧ filing_ok s' ∧ fi_tree s' = fi_tree s).
  { rewrite Hret. eexists. split; [done|]. split; [|done]. by split. }
  unfold chunkData. rewrite Hc. unfold locationOf at 2 3. destruct (fi_pf s ≫= _) as [frame|] eqn:Ef; [|exact Hread].
  destruct (RetrieveFromFrame (fi_store s) frame) as [d|] eqn:Er; [|exact Hread].
  exists s. split; [|by split]. do 2 f_equal. destruct (fi_pf s) as [p|]; [|done]. cbn in Ef. eauto.
Qed.

Lemma loadChunk_ok es (i : nat) e s d : honestBatches → filing_ok s → es !! i = Some e → suits (fr_norm r) content e → plain e → content (ChunkHash e) = Some d →
  ∃ s', loadChunk r (resolveChunks (fr_index r) es) i e s = (s', Ok d) ∧ filing_ok s' ∧ fi_tree s' = fi_tree s.
Proof.
  intros Hh [HI Hf] He Hs Hp Hd. unfold loadChunk, resolveChunks. rewrite list_lookup_fmap, He. cbn [fmap option_fmap option_map].
  destruct (su_reads _ _ Hd) as (ie & Hie & _).
  assert (Hre : resolveChunk (fr_index r) e = mkResolution (locationOf ie) true None) by (unfold resolveChunk; by rewrite Hie).
  rewrite Hre. cbn [re_err re_found negb].
  destruct (chunkData_ok (mkResolution (locationOf ie) true None)
    (mkFiling (fi_store s) (ensure (fr_hooks r) (fi_store s) (resolveChunk (fr_index r) <$> es) i <$> fi_pf s) (fi_tree s)) (ChunkHash e) d ie) as (s' & Hc & Hok & Ht); [|exact Hd|exact Hie|done|].
  { split; [done|]. cbn. destruct (fi_pf s); [|done]. by apply ensure_good. }
  rewrite Hc. exists s'. split; [|done]. unfold suits in Hs. rewrite Hp in Hs. destruct Hs as (d' & Hd' & Hh' & _). simplify_eq.
  by rewrite bool_decide_eq_true_2.
Qed.
End reading.

(** ** Writing *)

(** Bytes written one after the other are written at once. *)
Definition putAt (f : bytes) (off : Z) (d : bytes) : bytes := if bool_decide (d = []) then f else WriteAt f off d.

Lemma WriteAt_adjacent f off d d' : 0 ≤ off → WriteAt (WriteAt f off d) (off + len d) d' = WriteAt f off (d ++ d').
Proof.
  intros Ho. unfold WriteAt at 1 3. rewrite <- !app_assoc.
  assert (Hl : (Z.to_nat (off + len d) ≤ length (WriteAt f off d))%nat) by (unfold WriteAt; len).
  replace (Z.to_nat (off + len d) - length (WriteAt f off d))%nat with 0%nat by lia. change (zeros 0) with (@nil Z). cbn [app].
  assert (E : WriteAt f off d = (take (Z.to_nat off) f ++ zeros (Z.to_nat off - length f) ++ d) ++ drop (Z.to_nat off + length d) f) by (unfold WriteAt; by rewrite <- !app_assoc).
  rewrite E. rewrite take_app_le by len. rewrite take_ge by len. rewrite drop_app_ge by len. rewrite <- !app_assoc. do 4 f_equal.
  rewrite drop_drop. f_equal. len.
Qed.

Lemma putAt_putAt f off d d' : 0 ≤ off → putAt (putAt f off d) (off + len d) d' = putAt f off (d ++ d').
Proof.
  intros Ho. unfold putAt. destruct d as [|x d]; [cbn; by rewrite Z.add_0_r|]. rewrite (bool_decide_eq_false_2 (x :: d = [])), (bool_decide_eq_false_2 ((x :: d) ++ d' = [])) by done.
  destruct d' as [|y d']; [by rewrite app_nil_r|]. rewrite bool_decide_eq_false_2 by done. by apply WriteAt_adjacent.
Qed.

Definition permissive (os : OS) : Prop :=
  (∀ p, os_opens os p = true) ∧ (∀ p o n, os_writes os p o n = true) ∧ (∀ p n, os_resizes os p n = true) ∧ (∀ p, os_mkdirs os p = true) ∧ (∀ p, os_links os p = true).

Lemma WriteFileAt_ok os t p f m mt off d : permissive os → 0 ≤ off → t !! p = Some (NFile f m mt) →
  WriteFileAt os t p off d = Some (<[p := NFile (putAt f off d) m (os_now os)]> t).
Proof. intros (_ & Hw & _) Ho Ht. unfold WriteFileAt. rewrite (proj2 (Z.ltb_ge _ _)), Hw, Ht by lia. done. Qed.

Section writing.
Context {PR : Primitives} {ZS : Zstd}.
Context (os : OS) (r : FileRestorer) (I : ChunkStore → Prop) (content : bytes → option bytes).
Context `{HS : !Supplies (fr_index r) (fr_hooks r) I content}.
Context (Hos : permissive os) (Hhon : honestBatches r I content).

Lemma writeChunks_ok p a b at_ all : 0 ≤ a → a < b → b < 2 ^ 63 → 0 ≤ at_ →
  Forall (suits (fr_norm r) content) all → Forall plain all → Forall entry_ok all → Forall (overlaps a b) all →
  ∀ es i done s f m mt, all = done ++ es → i = length done → filing_ok r I content s →
  fi_tree s !! p = Some (NFile (putAt f at_ (concat (clip content a b <$> done))) m mt) →
  ∃ s' mt', writeChunks os r p a b at_ (resolveChunks (fr_index r) all) i es (len (concat (clip content a b <$> done))) s =
    (s', Ok (len (concat (clip content a b <$> all)))) ∧ filing_ok r I content s' ∧
    fi_tree s' = <[p := NFile (putAt f at_ (concat (clip content a b <$> all))) m mt']> (fi_tree s).
Proof.
  intros Ha Hab Hb Hat Hsu Hpl Hok Hov. induction es as [|e es IH]; intros i done s f m mt Hall Hi Hs Hp.
  - rewrite app_nil_r in Hall. subst. exists s, mt. split; [done|]. split; [done|]. symmetry. by apply insert_id.
  - cbn [writeChunks]. assert (He : all !! i = Some e) by (subst; by rewrite list_lookup_middle).
    rewrite Forall_lookup in Hsu, Hpl, Hok, Hov. pose proof (Hsu _ _ He) as Hse. pose proof (Hpl _ _ He) as Hpe.
    assert (exists d, content (ChunkHash e) = Some d) as [d Hd] by (unfold suits in Hse; rewrite Hpe in Hse; destruct Hse as (d & ? & _); eauto).
    destruct (loadChunk_ok r I content all i e s d Hhon Hs He Hse Hpe Hd) as (s1 & -> & Hs1 & Ht1).
    rewrite (sliceOf_clip (fr_norm r) content a b e d) by eauto.
    rewrite (WriteFileAt_ok os _ p (putAt f at_ (concat (clip content a b <$> done))) m mt) by (first [done|lia|by rewrite Ht1]).
    rewrite putAt_putAt by lia.
    assert (Hdone : concat (clip content a b <$> done) ++ clip content a b e = concat (clip content a b <$> (done ++ [e]))) by (rewrite fmap_app, concat_app; cbn; by rewrite app_nil_r).
    rewrite Hdone. replace (len (concat (clip content a b <$> done)) + len (clip content a b e)) with (len (concat (clip content a b <$> (done ++ [e])))) by (rewrite <- Hdone; len).
    destruct (IH (S i) (done ++ [e]) (withTree s1 (<[p:=NFile (putAt f at_ (concat (clip content a b <$> done ++ [e]))) m (os_now os)]> (fi_tree s1))) f m (os_now os))
      as (s2 & mt2 & Hw & Hs2 & Ht2).
    + by rewrite <- app_assoc.
    + rewrite length_app. cbn. lia.
    + exact Hs1.
    + unfold withTree. cbn [fi_tree]. by rewrite lookup_insert_eq.
    + exists s2, mt2. split; [exact Hw|]. split; [done|]. rewrite Ht2. unfold withTree. cbn [fi_tree]. rewrite insert_insert_eq. by rewrite Ht1.
Qed.

(** A range of the stream goes to its place in the file. *)
Lemma writeRange_ok p ea es l a b at_ s f m mt : Accesses ea es → laid (fr_norm r) content es l → Forall (λ e, overlaps a b e → plain e) es →
  0 ≤ a → a < b → b ≤ len l → 0 ≤ at_ → filing_ok r I content s → fi_tree s !! p = Some (NFile f m mt) →
  ∃ s' mt', writeRange os r p ea a b at_ s = (s', Ok (b - a)) ∧ filing_ok r I content s' ∧
    fi_tree s' = <[p := NFile (putAt f at_ (sub l (Z.to_nat a) (Z.to_nat (b - a)))) m mt']> (fi_tree s).
Proof.
  intros Hea Hl Hpl Ha Hab Hb Hat Hs Hp. unfold writeRange. pose proof (laid_sorted _ _ _ _ Hl) as Hso. rewrite (covering_exact ea es Hso a b Hab).
  rewrite <- (laid_range _ _ _ _ a b Hl Ha Hb). destruct Hl as [Hc Hcat Hsu Hlen].
  destruct (writeChunks_ok p a b at_ (filter (overlaps a b) es) Ha Hab ltac:(lia) Hat) with (es := filter (overlaps a b) es) (i := 0%nat) (done := @nil Entry) (s := s) (f := f) (m := m) (mt := mt)
    as (s' & mt' & Hw & Hs' & Ht); try done.
  - by apply Forall_filtered.
  - apply Forall_forall. intros e [Ho He]%list_elem_of_filter. rewrite Forall_forall in Hpl. eauto.
  - apply Forall_filtered. apply Hso.
  - apply Forall_forall. by intros e [Ho He]%list_elem_of_filter.
  - exists s', mt'. split; [|done]. etrans; [exact Hw|]. do 2 f_equal.
    rewrite (clips_window _ content a b es 0 Hc Hsu), Hcat, length_window. lia.
Qed.

(** ** One file *)

Definition extentBytes (l : bytes) (x : VolumeExtent) : bytes := sub l (Z.to_nat (x_VolumeOffset x)) (Z.to_nat (x_Length x)).
Definition assembled (l : bytes) (exts : list VolumeExtent) (f : bytes) : bytes := foldl (λ d x, putAt d (x_FileOffset x) (extentBytes l x)) f exts.
Definition extentTotal (exts : list VolumeExtent) : Z := foldr (λ x n, x_Length x + n) 0 exts.

(** The bytes of a file of the stream or volume [l]. *)
Definition fileBytes (l : bytes) (f : FileEntry) : bytes :=
  match InlineData f, VolumeExtents f with
  | (_ :: _) as d, _ => d
  | [], [] => sub l (Z.to_nat (StreamOffset f)) (Z.to_nat (StreamLength f))
  | [], exts => if (0 <? Size f) && negb (extentTotal exts =? Size f) then Truncate (assembled l exts []) (Size f) else assembled l exts []
  end.

Definition extent_ok (l : bytes) (x : VolumeExtent) : Prop := 0 ≤ x_FileOffset x ∧ 0 ≤ x_VolumeOffset x ∧ 0 < x_Length x ∧ x_VolumeOffset x + x_Length x ≤ len l.
Definition missed (exts : list VolumeExtent) (e : Entry) : Prop := Forall (λ x, ¬ overlaps (x_VolumeOffset x) (x_VolumeOffset x + x_Length x) e) exts.
(** A file whose ranges lie in [l], with no excluded region in them. *)
Record file_ok (es : list Entry) (l : bytes) (f : FileEntry) : Prop := {
  fk_kept : f_IsExcluded f = false;
  fk_extents : Forall (extent_ok l) (VolumeExtents f);
  fk_stream : VolumeExtents f = [] → InlineData f = [] → StreamLength f = 0 ∧ Size f ≤ 0 ∨ 0 ≤ StreamOffset f ∧ 0 < StreamLength f ∧ StreamOffset f + StreamLength f ≤ len l;
  fk_plain : Forall (λ e, plain e ∨ ¬ overlaps (StreamOffset f) (StreamOffset f + StreamLength f) e ∧ missed (VolumeExtents f) e) es }.

Definition writable (t : tree) (p : path) : Prop :=
  p ≠ [] ∧ IsDirAt t (DirOf p) = true ∧ match t !! p with None | Some (NFile _ _ _) => True | _ => False end.

Lemma OpenTrunc_ok t p mode : writable t p → ∃ m, OpenTrunc os t p mode = Some (<[p := NFile [] m (os_now os)]> t).
Proof.
  intros (Hne & Hd & Hp). unfold OpenTrunc. rewrite Hd, (proj1 Hos). cbn [negb orb]. destruct p as [|c p]; [done|].
  destruct (t !! (c :: p)) as [[data m mt| |]|]; try done; eauto.
Qed.

Context (ea : EntryAccessor) (es : list Entry) (l : bytes).
Context (Hea : Accesses ea es) (Hl : laid (fr_norm r) content es l).

Lemma writeExtents_ok p exts : Forall (extent_ok l) exts → Forall (λ e, plain e ∨ missed exts e) es → ∀ total s f m mt, filing_ok r I content s → fi_tree s !! p = Some (NFile f m mt) →
  ∃ s' mt', writeExtents os r p ea exts total s = (s', Ok (total + extentTotal exts)) ∧ filing_ok r I content s' ∧
    fi_tree s' = <[p := NFile (assembled l exts f) m mt']> (fi_tree s).
Proof.
  intros Hx. induction Hx as [|x exts (Hf & Hv & Hlen & Hend) Hx IH]; intros Hpl total s f m mt Hs Hp; cbn [writeExtents].
  - exists s, mt. cbn. rewrite Z.add_0_r. split; [done|]. split; [done|]. symmetry. by apply insert_id.
  - pose proof (ld_length _ _ _ _ Hl). rewrite i64_id by (unfold is_i64; lia).
    destruct (writeRange_ok p ea es l (x_VolumeOffset x) (x_VolumeOffset x + x_Length x) (x_FileOffset x) s f m mt) as (s1 & mt1 & -> & Hs1 & Ht1); try done; try lia.
    { eapply Forall_impl; [exact Hpl|]. intros e [?|[? _]%Forall_cons] ?; done. }
    replace (x_VolumeOffset x + x_Length x - x_VolumeOffset x) with (x_Length x) in * by lia.
    destruct (IH ltac:(eapply Forall_impl; [exact Hpl|]; intros e [?|[_ ?]%Forall_cons]; auto) (total + x_Length x) s1 (putAt f (x_FileOffset x) (extentBytes l x)) m mt1 Hs1) as (s2 & mt2 & Hw & Hs2 & Ht2); [by rewrite Ht1, lookup_insert_eq|].
    exists s2, mt2. split; [rewrite Hw; by rewrite <- Z.add_assoc|]. split; [done|]. by rewrite Ht2, Ht1, insert_insert_eq.
Qed.

(** The tree after a file was written. *)
Definition written (s s' : filing) (p : path) (d : bytes) : Prop :=
  filing_ok r I content s' ∧ ∃ m mt, fi_tree s' = <[p := NFile d m mt]> (fi_tree s).

Lemma putAt_nil d : putAt [] 0 d = d.
Proof. unfold putAt. case_bool_decide as E; [done|]. unfold WriteAt. by rewrite take_nil, drop_nil, app_nil_r. Qed.

Lemma restoreFile_ok p f s : file_ok es l f → filing_ok r I content s → writable (fi_tree s) p → VolumeExtents f = [] → InlineData f = [] →
  ∃ s' n, restoreFile os r f p ea s = (s', Ok n) ∧ written s s' p (sub l (Z.to_nat (StreamOffset f)) (Z.to_nat (StreamLength f))).
Proof.
  intros [Hk Hx Hst Hpl] Hs Hw He Hi. unfold restoreFile, createEmpty, Create. destruct (OpenTrunc_ok _ p 438 Hw) as [m ->]. destruct (Hst He Hi) as [[-> Hsz]|(Hso & Hsl & Hend)].
  - rewrite (proj2 (Z.ltb_ge _ _)) by lia. eexists _, 0. split; [done|]. split; [done|]. by exists m, (os_now os).
  - rewrite (proj2 (Z.eqb_neq _ _)) by lia. pose proof (ld_length _ _ _ _ Hl). rewrite i64_id by (unfold is_i64; lia).
    destruct (writeRange_ok p ea es l (StreamOffset f) (StreamOffset f + StreamLength f) 0 (withTree s (<[p:=NFile [] m (os_now os)]> (fi_tree s))) [] m (os_now os))
      as (s1 & mt1 & -> & Hs1 & Ht1); try done; try lia; [eapply Forall_impl; [exact Hpl|]; intros e [?|[? _]] ?; done|apply lookup_insert_eq|].
    replace (StreamOffset f + StreamLength f - StreamOffset f) with (StreamLength f) in * by lia. rewrite Z.eqb_refl. cbn [orRemove].
    eexists s1, (StreamLength f). split; [done|]. split; [done|]. exists m, mt1. rewrite Ht1, putAt_nil. cbn [withTree fi_tree]. by rewrite insert_insert_eq.
Qed.

Lemma restoreVolumeFile_ok p f s : file_ok es l f → filing_ok r I content s → writable (fi_tree s) p → InlineData f = [] → VolumeExtents f ≠ [] →
  ∃ s' n, restoreVolumeFile os r f p ea s = (s', Ok n) ∧ written s s' p (fileBytes l f).
Proof.
  intros [Hk Hx Hst Hpl] Hs Hw Hi Hne. unfold restoreVolumeFile, fileBytes, Create. rewrite Hi. destruct (VolumeExtents f) as [|x exts] eqn:Ex; [done|].
  destruct (OpenTrunc_ok _ p 438 Hw) as [m ->].
  destruct (writeExtents_ok p (x :: exts) Hx ltac:(eapply Forall_impl; [exact Hpl|]; intros e [?|[_ ?]]; auto) 0 (withTree s (<[p:=NFile [] m (os_now os)]> (fi_tree s))) [] m (os_now os)) as (s1 & mt1 & -> & Hs1 & Ht1); [done|apply lookup_insert_eq|].
  rewrite Z.add_0_l. cbn [withTree fi_tree] in Ht1. rewrite insert_insert_eq in Ht1. destruct (Z.ltb_spec 0 (Size f)); cbn [andb]; [|by eexists s1, _; split; [|split; [|eauto]]].
  destruct (extentTotal (x :: exts) =? Size f); cbn [negb]; [by eexists s1, _; split; [|split; [|eauto]]|]. unfold TruncateFile. rewrite (proj1 (proj2 (proj2 Hos))), Ht1, lookup_insert_eq.
  rewrite (proj2 (Z.ltb_ge _ _)) by lia. cbn [orb negb orRemove]. eexists _, _. split; [done|]. split; [done|]. exists m, (os_now os). cbn [withTree fi_tree]. by rewrite insert_insert_eq.
Qed.

Lemma restoreInlineFile_ok p f s : filing_ok r I content s → writable (fi_tree s) p →
  ∃ s' n, restoreInlineFile os f p s = (s', Ok n) ∧ written s s' p (InlineData f).
Proof.
  intros Hs Hw. unfold restoreInlineFile, WriteFile. destruct (OpenTrunc_ok _ p (Mode f) Hw) as [m ->].
  rewrite (WriteFileAt_ok os _ p [] m (os_now os)) by (first [done|apply lookup_insert_eq]). rewrite insert_insert_eq, putAt_nil.
  eexists _, _. split; [done|]. split; [done|]. by exists m, (os_now os).
Qed.

Lemma restoreOne_ok b p f s : file_ok es l f → filing_ok r I content s → writable (fi_tree s) p →
  ∃ s' n, restoreOne os r b f p ea s = (s', Ok n) ∧ written s s' p (fileBytes l f).
Proof.
  intros Hf Hs Hw. unfold restoreOne. rewrite (fk_kept _ _ _ Hf). destruct (InlineData f) as [|c d] eqn:Ei.
  - rewrite bool_decide_eq_true_2 by done. destruct (VolumeExtents f) as [|x exts] eqn:Ex; cbn [negb].
    + rewrite bool_decide_eq_true_2 by done. cbn [negb]. unfold fileBytes. rewrite Ei, Ex. by apply restoreFile_ok.
    + rewrite bool_decide_eq_false_2 by done. cbn [negb]. apply restoreVolumeFile_ok; try done. by rewrite Ex.
  - rewrite bool_decide_eq_false_2 by done. cbn [negb]. unfold fileBytes. rewrite Ei, <- Ei. by apply restoreInlineFile_ok.
Qed.
End writing.

(** ** Files of a volume *)

Definition byteAt (d : bytes) (i : Z) : Z := default 0 (d !! Z.to_nat i).
(** The byte of a file at [i]: that of the last extent over it, zero in a hole. *)
Definition covers (x : VolumeExtent) (i : Z) : bool := (x_FileOffset x <=? i) && (i <? x_FileOffset x + x_Length x).
Definition volumeByte (l : bytes) (exts : list VolumeExtent) (i : Z) : Z :=
  foldl (λ acc x, if covers x i then byteAt l (x_VolumeOffset x + (i - x_FileOffset x)) else acc) 0 exts.
Definition fileEnd (exts : list VolumeExtent) : Z := foldr (λ x n, Z.max (x_FileOffset x + x_Length x) n) 0 exts.

Lemma lookup_zeros n i : default 0 (zeros n !! i) = 0.
Proof. unfold zeros. destruct (decide (i < n)%nat); [by rewrite lookup_replicate_2|]. by rewrite lookup_ge_None_2 by (rewrite length_replicate; lia). Qed.

Lemma byteAt_WriteAt f off d i : 0 ≤ off → 0 ≤ i → byteAt (WriteAt f off d) i = if (off <=? i) && (i <? off + len d) then byteAt d (i - off) else byteAt f i.
Proof.
  intros Ho Hi. unfold byteAt, WriteAt. destruct (decide (i < off)) as [Hlt|Hge].
  - rewrite (proj2 (Z.leb_gt _ _)) by lia. cbn [andb]. destruct (decide (i < len f)).
    + rewrite lookup_app_l by len. by rewrite lookup_take_lt by lia.
    + rewrite lookup_app_r by len. rewrite lookup_app_l by len. rewrite lookup_zeros. rewrite (lookup_ge_None_2 f) by lia. done.
  - rewrite (proj2 (Z.leb_le _ _)) by lia. cbn [andb]. rewrite app_assoc. rewrite lookup_app_r by len.
    replace (Z.to_nat i - length (take (Z.to_nat off) f ++ zeros (Z.to_nat off - length f)))%nat with (Z.to_nat (i - off)) by len.
    destruct (Z.ltb_spec i (off + len d)).
    + by rewrite lookup_app_l by lia.
    + rewrite lookup_app_r by lia. rewrite lookup_drop. do 2 f_equal. lia.
Qed.

Lemma byteAt_Truncate f n i : 0 ≤ i < n → byteAt (Truncate f n) i = byteAt f i.
Proof.
  intros Hi. unfold byteAt, Truncate. destruct (decide (i < len f)).
  - rewrite lookup_app_l by len. by rewrite lookup_take_lt by lia.
  - rewrite lookup_app_r by len. rewrite lookup_zeros. by rewrite (lookup_ge_None_2 f) by lia.
Qed.

Lemma assembled_exact l exts : Forall (extent_ok l) exts → ∀ f, len (assembled l exts f) = Z.max (len f) (fileEnd exts) ∧
  ∀ i, 0 ≤ i → byteAt (assembled l exts f) i = foldl (λ acc x, if covers x i then byteAt l (x_VolumeOffset x + (i - x_FileOffset x)) else acc) (byteAt f i) exts.
Proof.
  induction 1 as [|x exts (Hf & Hv & Hl & He) Hx IH]; intros f; [cbn; split; [lia|done]|].
  assert (Hlen : len (extentBytes l x) = x_Length x) by (unfold extentBytes, sub; len).
  assert (Hne : extentBytes l x ≠ []) by (intros E; rewrite E in Hlen; cbn in Hlen; lia).
  assert (Hput : putAt f (x_FileOffset x) (extentBytes l x) = WriteAt f (x_FileOffset x) (extentBytes l x)) by (unfold putAt; by rewrite bool_decide_eq_false_2).
  destruct (IH (putAt f (x_FileOffset x) (extentBytes l x))) as [IH1 IH2].
  change (assembled l (x :: exts) f) with (assembled l exts (putAt f (x_FileOffset x) (extentBytes l x))). split.
  - rewrite IH1, Hput, length_WriteAt_max, Hlen by done. change (fileEnd (x :: exts)) with (Z.max (x_FileOffset x + x_Length x) (fileEnd exts)). lia.
  - intros i Hi. rewrite IH2 by done. cbn [foldl]. f_equal. rewrite Hput, byteAt_WriteAt, Hlen by done. unfold covers.
    destruct (Z.leb_spec (x_FileOffset x) i), (Z.ltb_spec i (x_FileOffset x + x_Length x)); cbn [andb]; try done.
    unfold byteAt, extentBytes, sub. rewrite lookup_take_lt by lia. rewrite lookup_drop. do 2 f_equal. lia.
Qed.

Section volume_files.
Context {PR : Primitives} {ZS : Zstd}.

(** C24. A file of a volume is rebuilt from its extents: it has its logical size, each byte
    comes from the extent over it, and holes, a sparse tail included, are zero; cluster
    slack is cut off.  Extents whose total is the size must end at the size. *)
Theorem volume_file_exact os r I content ea es l f p s : permissive os → Supplies (fr_index r) (fr_hooks r) I content → honestBatches r I content →
  Accesses ea es → laid (fr_norm r) content es l → file_ok es l f → InlineData f = [] → VolumeExtents f ≠ [] → 0 < Size f →
  (extentTotal (VolumeExtents f) = Size f → fileEnd (VolumeExtents f) = Size f) → filing_ok r I content s → writable (fi_tree s) p →
  ∃ s' n d m mt, restoreVolumeFile os r f p ea s = (s', Ok n) ∧ fi_tree s' = <[p := NFile d m mt]> (fi_tree s) ∧
    len d = Size f ∧ ∀ i, 0 ≤ i < Size f → byteAt d i = volumeByte l (VolumeExtents f) i.
Proof.
  intros Hos HS Hhon Hea Hl Hf Hi Hx Hsz Hend Hs Hw.
  destruct (restoreVolumeFile_ok os r I content Hos Hhon ea es l Hea Hl p f s Hf Hs Hw Hi Hx) as (s' & n & Hr & _ & m & mt & Ht).
  exists s', n, (fileBytes l f), m, mt. split; [done|]. split; [done|].
  destruct (assembled_exact l (VolumeExtents f) (fk_extents _ _ _ Hf) []) as [Hlen Hby]. unfold fileBytes. rewrite Hi. destruct (VolumeExtents f) as [|x exts]; [done|].
  rewrite (proj2 (Z.ltb_lt _ _)) by done. cbn [andb]. destruct (Z.eqb_spec (extentTotal (x :: exts)) (Size f)) as [E|E]; cbn [negb].
  - split; [rewrite Hlen, Hend by done; cbn; lia|]. intros i ?. apply Hby. lia.
  - split; [apply length_Truncate; lia|]. intros i ?. rewrite byteAt_Truncate by lia. apply Hby. lia.
Qed.
End volume_files.

(** ** Errors *)

(** Errors raised before the output is opened. *)
Definition early (e : file_err) : bool := match e with FrIncomplete | FrCreate => true | _ => false end.

(** The tree with only [p] rewritten, as a file. *)
Definition only (p : path) (t t' : tree) : Prop := ∃ d m mt, t' = <[p := NFile d m mt]> t.

Lemma Create_only os t p t' : Create os t p = Some t' → only p t t'.
Proof. unfold Create, OpenTrunc. intros H. repeat (case_match; simplify_eq); unfold only; eauto. Qed.

Lemma WriteFileAt_only os t0 t p off d t' : WriteFileAt os t p off d = Some t' → only p t0 t → only p t0 t'.
Proof.
  unfold WriteFileAt. intros H (d0 & m0 & mt0 & ->). rewrite lookup_insert_eq in H. destruct (_ || _); [done|]. simplify_eq. unfold only. rewrite insert_insert_eq. eauto.
Qed.

Lemma RemoveAt_only p t t' : only p t t' → RemoveAt t' p = delete p t.
Proof. intros (d & m & mt & ->). unfold RemoveAt. by rewrite lookup_insert_eq, delete_insert_eq. Qed.

Section errors.
Context {PR : Primitives} {ZS : Zstd}.
Context (os : OS) (r : FileRestorer).

Lemma loadChunk_tree res i e s : fi_tree (loadChunk r res i e s).1 = fi_tree s.
Proof. unfold loadChunk, chunkData. repeat (case_match; simplify_eq; try done). Qed.

Lemma writeChunks_only t p a b at_ res es : ∀ i n s, only p t (fi_tree s) → only p t (fi_tree (writeChunks os r p a b at_ res i es n s).1).
Proof.
  induction es as [|e es IH]; intros i n s Hp; [done|]. cbn [writeChunks]. pose proof (loadChunk_tree res i e s) as Ht. destruct (loadChunk r res i e s) as [s1 [d|er]]; cbn [fst] in Ht; [|by rewrite <- Ht in Hp].
  rewrite <- Ht in Hp. destruct (sliceOf d a b e); [|done]. destruct (WriteFileAt _ _ _ _ _) eqn:Ew; [|done]. apply IH. by eapply WriteFileAt_only.
Qed.

Lemma writeRange_only t p ea a b at_ s : only p t (fi_tree s) → only p t (fi_tree (writeRange os r p ea a b at_ s).1).
Proof. intros Hp. unfold writeRange. destruct (coveringEntries ea a b); [|done]. by apply writeChunks_only. Qed.

Lemma writeExtents_only t p ea exts : ∀ n s, only p t (fi_tree s) → only p t (fi_tree (writeExtents os r p ea exts n s).1).
Proof.
  induction exts as [|x exts IH]; intros n s Hp; [done|]. cbn [writeExtents].
  pose proof (writeRange_only t p ea (x_VolumeOffset x) (i64 (x_VolumeOffset x + x_Length x)) (x_FileOffset x) s Hp) as Hp'.
  destruct (writeRange os r p ea (x_VolumeOffset x) _ _ s) as [s1 [k|er]]; [by apply IH|done].
Qed.

Lemma orRemove_err p t m s' e : only p t (fi_tree m.1) → orRemove p m = (s', Err e) → e ≠ FrPanic → fi_tree s' = delete p t ∧ m.2 = Err e.
Proof.
  intros Ho H He. destruct m as [s [n|er]]; [done|]. cbn in Ho. apply RemoveAt_only in Ho.
  assert (Hr : orRemove p (s, Err er) = (withTree s (RemoveAt (fi_tree s) p), Err er) ∨ er = FrPanic) by (destruct er; auto). destruct Hr as [Hr| ->]; [|cbn in H; congruence].
  rewrite Hr in H. simplify_eq. done.
Qed.

(** Once the output is open, no error is an early one. *)
Lemma loadChunk_late res i e s s' er : loadChunk r res i e s = (s', Err er) → early er = false.
Proof. unfold loadChunk, chunkData. intros H. repeat (case_match; simplify_eq; try done). Qed.
Lemma writeChunks_late p a b at_ res es : ∀ i n s s' er, writeChunks os r p a b at_ res i es n s = (s', Err er) → early er = false.
Proof.
  induction es as [|e es IH]; intros i n s s' er; [done|]. cbn [writeChunks]. destruct (loadChunk r res i e s) as [s1 [d|er']] eqn:El.
  - destruct (sliceOf d a b e); [|by intros [= <- <-]]. destruct (WriteFileAt _ _ _ _ _); [apply IH|by intros [= <- <-]].
  - intros [= <- <-]. by eapply loadChunk_late.
Qed.
Lemma writeRange_late p ea a b at_ s s' er : writeRange os r p ea a b at_ s = (s', Err er) → early er = false.
Proof. unfold writeRange. destruct (coveringEntries ea a b); [apply writeChunks_late|by intros [= <- <-]]. Qed.
Lemma writeExtents_late p ea exts : ∀ n s s' er, writeExtents os r p ea exts n s = (s', Err er) → early er = false.
Proof.
  induction exts as [|x exts IH]; intros n s s' er; [done|]. cbn [writeExtents]. destruct (writeRange os r p ea _ _ _ s) as [s1 [k|er']] eqn:Ew; [apply IH|].
  intros [= <- <-]. by eapply writeRange_late.
Qed.

Lemma TruncateFile_only t0 t p n t' : TruncateFile os t p n = Some t' → only p t0 t → only p t0 t'.
Proof.
  unfold TruncateFile. intros H (d0 & m0 & mt0 & ->). rewrite lookup_insert_eq in H. destruct (_ || _); [done|]. simplify_eq. unfold only. rewrite insert_insert_eq. eauto.
Qed.

(** C25. A file that fails to restore leaves nothing behind: whatever the index, the store, the
    hooks and the system do, when [restoreFile] or [restoreVolumeFile] returns an error the
    tree is as before if the output was never opened, and otherwise as before without
    the output; no other path is touched. *)
Theorem failed_restore_clean f p ea s s' e :
  restoreFile os r f p ea s = (s', Err e) ∨ restoreVolumeFile os r f p ea s = (s', Err e) → e ≠ FrPanic →
  fi_tree s' = if early e then fi_tree s else delete p (fi_tree s).
Proof.
  assert (Hempty : createEmpty os p s = (s', Err e) → fi_tree s' = if early e then fi_tree s else delete p (fi_tree s)).
  { unfold createEmpty. destruct (Create os (fi_tree s) p); [done|]. intros [= <- <-]. done. }
  intros [H|H] He.
  - unfold restoreFile in H. destruct (StreamLength f =? 0); [destruct (0 <? Size f); [by simplify_eq|auto]|].
    destruct (Create os (fi_tree s) p) as [t|] eqn:Ec; [|by simplify_eq]. apply Create_only in Ec.
    pose proof (writeRange_only (fi_tree s) p ea (StreamOffset f) (i64 (StreamOffset f + StreamLength f)) 0 (withTree s t) Ec) as Ho.
    destruct (writeRange os r p ea _ _ 0 (withTree s t)) as [s1 [n|er]] eqn:Ew.
    + apply (orRemove_err p (fi_tree s)) in H as [-> Hm]; [|done|done]. destruct (n =? StreamLength f); cbn in Hm; by simplify_eq.
    + apply (orRemove_err p (fi_tree s)) in H as [-> Hm]; [|done|done]. cbn in Hm. simplify_eq. by rewrite (writeRange_late _ _ _ _ _ _ _ _ Ew).
  - unfold restoreVolumeFile in H. destruct (VolumeExtents f) as [|x exts] eqn:Ex; [auto|]. destruct (Create os (fi_tree s) p) as [t|] eqn:Ec; [|by simplify_eq]. apply Create_only in Ec.
    pose proof (writeExtents_only (fi_tree s) p ea (x :: exts) 0 (withTree s t) Ec) as Ho.
    destruct (writeExtents os r p ea (x :: exts) 0 (withTree s t)) as [s1 [n|er]] eqn:Ew.
    + apply (orRemove_err p (fi_tree s)) in H as [-> Hm]; [| |done].
      * destruct (_ && _); [|done]. destruct (TruncateFile os (fi_tree s1) p (Size f)); cbn in Hm; by simplify_eq.
      * destruct (_ && _); [|done]. destruct (TruncateFile os (fi_tree s1) p (Size f)) as [t2|] eqn:Et; [|done]. cbn [fst withTree fi_tree]. by eapply TruncateFile_only.
    + apply (orRemove_err p (fi_tree s)) in H as [-> Hm]; [|done|done]. cbn in Hm. simplify_eq. by rewrite (writeExtents_late _ _ _ _ _ _ _ Ew).
Qed.

(** ** Integrity *)

(** The chunks of a range, each with the identity its entry states, and their slices. *)
Definition assembledFrom (a b : Z) (chunk : list Entry) (d : bytes) : Prop :=
  ∃ xs cs, Forall3 (λ e x c, strongOf (fr_norm r) x = ChunkHash e ∧ sliceOf x a b e = Some c) chunk xs cs ∧ d = concat cs.

Lemma loadChunk_hash res i e s s' d : loadChunk r res i e s = (s', Ok d) → strongOf (fr_norm r) d = ChunkHash e.
Proof.
  unfold loadChunk. intros H. repeat (case_match; simplify_eq; try done). by case_bool_decide.
Qed.

Lemma writeChunks_inv p a b at_ res es : ∀ i n s s' k f m mt, 0 ≤ at_ + n → fi_tree s !! p = Some (NFile f m mt) → writeChunks os r p a b at_ res i es n s = (s', Ok k) →
  ∃ d mt', assembledFrom a b es d ∧ k = n + len d ∧ fi_tree s' = <[p := NFile (putAt f (at_ + n) d) m mt']> (fi_tree s).
Proof.
  induction es as [|e es IH]; intros i n s s' k f m mt Hn Hp; cbn [writeChunks].
  - intros [= <- <-]. exists [], mt. split; [exists [], []; split; [constructor|done]|]. split; [cbn; lia|]. symmetry. by apply insert_id.
  - pose proof (loadChunk_tree res i e s) as Ht. destruct (loadChunk r res i e s) as [s1 [x|er]] eqn:El; [|done]. cbn [fst] in Ht. destruct (sliceOf x a b e) as [c|] eqn:Es; [|done].
    destruct (WriteFileAt os (fi_tree s1) p (at_ + n) c) as [t|] eqn:Ew; [|done]. unfold WriteFileAt in Ew. rewrite Ht, Hp in Ew. destruct (_ || _); [done|]. injection Ew as Ew. fold (putAt f (at_ + n) c) in Ew.
    intros (d & mt' & (xs & cs & H3 & ->) & -> & Ht')%(IH _ _ _ _ _ (putAt f (at_ + n) c) m (os_now os)); [|lia|cbn [withTree fi_tree]; by rewrite <- Ew, lookup_insert_eq].
    exists (c ++ concat cs), mt'. split; [exists (x :: xs), (c :: cs); split; [|done]; constructor; [split; [by eapply loadChunk_hash|done]|done]|]. split; [len|].
    rewrite Ht'. cbn [withTree fi_tree]. rewrite <- Ew, insert_insert_eq. rewrite Z.add_assoc, putAt_putAt by lia. done.
Qed.

(** C26. A restored file never holds wrong bytes: whatever the index, the store, the hooks and
    the prefetcher supply, when [restoreFile] succeeds on a file with data, the output is
    the slices of chunks that have the identities of the entries covering the file, and
    it is exactly as long as the catalog says. *)
Theorem restored_file_integrity f p ea s s' n : StreamLength f ≠ 0 → restoreFile os r f p ea s = (s', Ok n) →
  ∃ chunk d m mt, coveringEntries ea (StreamOffset f) (i64 (StreamOffset f + StreamLength f)) = Ok chunk ∧
    assembledFrom (StreamOffset f) (i64 (StreamOffset f + StreamLength f)) chunk d ∧ fi_tree s' = <[p := NFile d m mt]> (fi_tree s) ∧ len d = StreamLength f ∧ n = StreamLength f.
Proof.
  intros Hl H. unfold restoreFile in H. rewrite (proj2 (Z.eqb_neq _ _)) in H by done. destruct (Create os (fi_tree s) p) as [t|] eqn:Ec; [|done].
  assert (∃ m mt, t = <[p := NFile [] m mt]> (fi_tree s)) as (m & mt & Et) by (unfold Create, OpenTrunc in Ec; repeat (case_match; simplify_eq); eauto).
  unfold writeRange in H. destruct (coveringEntries ea _ _) as [chunk|]; [|done]. exists chunk.
  destruct (writeChunks os r p _ _ 0 _ 0 chunk 0 (withTree s t)) as [s1 [k|er]] eqn:Ew; [|destruct er; done].
  apply (writeChunks_inv _ _ _ _ _ _ _ _ _ _ _ [] m mt) in Ew as (d & mt' & Hd & -> & Ht'); [|lia|cbn [withTree fi_tree]; by rewrite Et, lookup_insert_eq].
  rewrite !Z.add_0_l in *. destruct (Z.eqb_spec (len d) (StreamLength f)) as [E|E]; [|done]. cbn in H. simplify_eq. exists d, m, mt'. split; [done|]. split; [done|].
  rewrite Ht', putAt_nil. cbn [withTree fi_tree]. by rewrite insert_insert_eq.
Qed.
End errors.

(** ** Small files *)

Definition anyOS : OS := mkOS (λ _, true) (λ _ _ _, true) (λ _ _, true) (λ _, true) (λ _, true) 18 None.
Lemma anyOS_permissive : permissive anyOS.
Proof. by split_and!. Qed.
Definition oneFiler : FileRestorer := mkFileRestorer oneIndex noHooks None None false.
Definition outPath : path := [[120]].
Definition fresh : filing := mkFiling oneStore None ∅.

Lemma fresh_ok : filing_ok oneFiler (λ st, st = oneStore) oneContent fresh.
Proof. done. Qed.
Lemma fresh_writable : writable (fi_tree fresh) outPath.
Proof. split; [done|]. split; reflexivity. Qed.
Lemma one_honest : honestBatches oneFiler (λ st, st = oneStore) oneContent.
Proof. intros refs. apply goodFrames_empty. Qed.
Lemma three_laid_stream : laid None oneContent threeEntries smallVolume.
Proof. split; [apply three_laid|apply three_bytes|apply three_suit|by_eval]. Qed.

(** Two extents with a hole between them and a sparse tail. *)
Definition sparseFile : FileEntry :=
  mkFile [97] 0 12 420 None false false [] 0 0 (zeros 32) false [] [mkExtent 0 1 3; mkExtent 8 7 2] [] false.
Definition streamFile (off n : Z) : FileEntry := mkFile [97] 0 n 420 None false false [] off n (zeros 32) false [] [] [] false.

Lemma sparse_ok : file_ok threeEntries smallVolume sparseFile.
Proof.
  split; [done| |done|].
  - repeat constructor; cbn; lia.
  - unfold threeEntries. generalize oneHash. intros h. rewrite !Forall_cons. split_and!; [by left| |by left|done]. right. unfold missed, sparseFile, overlaps, entry_end. cbn.
    rewrite !Forall_cons, Forall_nil. cbn. lia.
Qed.

Lemma volume_file_exact_witness : ∃ s' n d m mt, restoreVolumeFile anyOS oneFiler sparseFile outPath (NewSliceEntryAccessor threeEntries) fresh = (s', Ok n) ∧
  fi_tree s' = <[outPath := NFile d m mt]> ∅ ∧ len d = 12 ∧ byteAt d 2 = 4 ∧ byteAt d 5 = 0 ∧ byteAt d 9 = 2 ∧ byteAt d 11 = 0.
Proof.
  destruct (volume_file_exact anyOS oneFiler (λ st, st = oneStore) oneContent (NewSliceEntryAccessor threeEntries) threeEntries smallVolume sparseFile outPath fresh
    anyOS_permissive one_supplies one_honest (slice_accesses _) three_laid_stream sparse_ok eq_refl ltac:(discriminate) ltac:(reflexivity) ltac:(cbn; lia) fresh_ok fresh_writable)
    as (s' & n & d & m & mt & H1 & H2 & H3 & H4).
  exists s', n, d, m, mt. split; [exact H1|]. split; [exact H2|]. split; [exact H3|]. rewrite !H4 by (cbn; lia). split_and!; reflexivity.
Defined.

(** The store has lost its pack: the chunk cannot be read. *)
Definition lostStore : ChunkStore := newChunkStore (Some ∅) 13 1 0 None.

Lemma failed_restore_clean_witness : ∃ s' e, restoreFile anyOS oneFiler (streamFile 1 2) outPath (NewSliceEntryAccessor threeEntries)
    (mkFiling lostStore None {[outPath := NFile [7] 420 None]}) = (s', Err e) ∧ fi_tree s' = ∅.
Proof.
  destruct (restoreFile anyOS oneFiler (streamFile 1 2) outPath (NewSliceEntryAccessor threeEntries) (mkFiling lostStore None {[outPath := NFile [7] 420 None]})) as [s' [n|e]] eqn:E.
  - exfalso. vm_compute in E. discriminate E.
  - exists s', e. split; [reflexivity|]. rewrite (failed_restore_clean _ _ _ _ _ _ _ _ (or_introl E)).
    + vm_compute in E. injection E as _ <-. reflexivity.
    + vm_compute in E. injection E as _ <-. discriminate.
Defined.

Lemma restored_file_integrity_witness : ∃ s' n chunk d m mt, restoreFile anyOS oneFiler (streamFile 1 2) outPath (NewSliceEntryAccessor threeEntries) fresh = (s', Ok n) ∧
  coveringEntries (NewSliceEntryAccessor threeEntries) 1 3 = Ok chunk ∧ assembledFrom oneFiler 1 3 chunk d ∧ fi_tree s' = <[outPath := NFile d m mt]> ∅ ∧ len d = 2.
Proof.
  destruct (restoreFile anyOS oneFiler (streamFile 1 2) outPath (NewSliceEntryAccessor threeEntries) fresh) as [s' [n|e]] eqn:E; [|exfalso; vm_compute in E; discriminate E].
  destruct (restored_file_integrity anyOS oneFiler (streamFile 1 2) outPath (NewSliceEntryAccessor threeEntries) fresh s' n ltac:(discriminate) E) as (chunk & d & m & mt & H1 & H2 & H3 & H4 & _).
  exists s', n, chunk, d, m, mt. split_and!; [reflexivity|exact H1|exact H2|exact H3|exact H4].
Defined.

(** ** Where the code and its comments disagree *)

(** A missing entry inside an extent shifts the bytes behind it, and the restore succeeds;
    the same range as a stream file is refused. *)
Definition gapEntries : list Entry := [mkEntry 0 oneHash 4 false; mkEntry 8 oneHash 4 false].
Definition gapFile : FileEntry := mkFile [97] 0 12 420 None false false [] 0 0 (zeros 32) false [] [mkExtent 0 0 12] [] false.
Theorem volume_gap_shifts : let ea := NewSliceEntryAccessor gapEntries in
  fileData (fi_tree (restoreVolumeFile anyOS oneFiler gapFile outPath ea fresh).1) outPath = Some [1; 2; 3; 4; 1; 2; 3; 4; 0; 0; 0; 0] ∧
  (restoreVolumeFile anyOS oneFiler gapFile outPath ea fresh).2 = Ok 8 ∧ (restoreFile anyOS oneFiler (streamFile 0 12) outPath ea fresh).2 = Err (FrShort 8).
Proof. vm_compute. split_and!; reflexivity. Qed.

(** Extents whose total is the size but which end behind it: the size is not set. *)
Definition holeFile : FileEntry := mkFile [97] 0 8 420 None false false [] 0 0 (zeros 32) false [] [mkExtent 0 0 4; mkExtent 8 7 4] [] false.
Theorem volume_size_kept :
  let '(s, res) := restoreVolumeFile anyOS oneFiler holeFile outPath (NewSliceEntryAccessor threeEntries) fresh in
  res = Ok 8 ∧ fileData (fi_tree s) outPath = Some [1; 2; 3; 4; 0; 0; 0; 0; 1; 2; 3; 4].
Proof. vm_compute. split; reflexivity. Qed.

(** An inline file that cannot be opened: the file that was there is removed. *)
Definition readOnlyOS : OS := mkOS (λ _, false) (λ _ _ _, true) (λ _ _, true) (λ _, true) (λ _, true) 18 None.
Theorem inline_failure_removes_existing (f : FileEntry) (d : bytes) (m : Z) (mt : option Z) (st : ChunkStore) :
  restoreInlineFile readOnlyOS f outPath (mkFiling st None {[outPath := NFile d m mt]}) = (mkFiling st None ∅, Err FrWrite).
Proof. reflexivity. Qed.

(** A batch with a frame of other bytes breaks a restore that needs no batch. *)
Definition staleHooks : Hooks := mkHooks None None None (Some (λ _, ({[(0, 0) := frameOf [9; 9; 9; 9] 4]}, None))).
Definition staleFiler : FileRestorer := mkFileRestorer oneIndex staleHooks None None false.
Theorem stale_frame_breaks_restore : let ea := NewSliceEntryAccessor threeEntries in
  (restoreFile anyOS staleFiler (streamFile 0 4) outPath ea (mkFiling oneStore (newFramePrefetcher staleHooks None) ∅)).2 = Err (FrIntegrity 0) ∧
  (restoreFile anyOS oneFiler (streamFile 0 4) outPath ea fresh).2 = Ok 4.
Proof. vm_compute. split; reflexivity. Qed.
