(* ===== verification/TreeRestored.v ===== *)
(** * core/restore: what a restored tree is

    [RestoreFiles] over a whole catalog: every directory, file and link of the selection
    is there with its bytes, mode and time, whatever order the catalog has, and nothing
    else has changed.  The same catalog path in two sources, and paths with dot-dot
    components, are where it does something else. *)

From S2P Require Import Prelude GoBytes GoRuntime GoFiles GoPath Hashes HashTable HashIndex Crypto Dedup PackStore Packs Preprocess RepoConfig Rebuild.
From S2P Require Import Dnm DnmAccess ManifestRepo Restore FileRestore Restored FilesRestored.

(** ** Directories *)

Lemma take_in_prefixes (p : path) n : (0 < n ≤ length p)%nat → take n p ∈ prefixes p.
Proof. intros H. apply list_elem_of_fmap. exists n. split; [done|]. apply elem_of_seq. lia. Qed.

Lemma prefixes_inv (p q : path) : q ∈ prefixes p → q ≠ [] ∧ ∃ n, (0 < n ≤ length p)%nat ∧ q = take n p.
Proof.
  intros (n & -> & Hn%elem_of_seq)%list_elem_of_fmap. split; [|exists n; split; [lia|done]].
  intros E. apply (f_equal length) in E. rewrite length_take in E. cbn in E. lia.
Qed.

Lemma prefixes_self (p : path) : p ≠ [] → p ∈ prefixes p.
Proof. intros Hp. rewrite <- (take_ge p (length p)) at 1 by lia. apply take_in_prefixes. destruct p; [done|cbn; lia]. Qed.

(** Every prefix of [p] is a directory or free. *)
Definition open_to (t : tree) (p : path) : Prop := ∀ q, q ∈ prefixes p → IsDirAt t q = true ∨ t !! q = None.

Lemma IsDirAt_lookup t q : q ≠ [] → IsDirAt t q = true ↔ ∃ m mt, t !! q = Some (NDir m mt).
Proof.
  intros Hq. unfold IsDirAt. destruct q as [|c q]; [done|]. split; [|intros (m & mt & ->); done].
  destruct (t !! (c :: q)) as [[| |]|]; try done. eauto.
Qed.

Lemma IsDirAt_mono (t t' : tree) q : t ⊆ t' → IsDirAt t q = true → IsDirAt t' q = true.
Proof.
  destruct q as [|c q]; [done|]. intros Ht. rewrite !IsDirAt_lookup by done. intros (m & mt & H). exists m, mt. by eapply lookup_weaken.
Qed.

Lemma mkdirs_ok os mode qs : (∀ p, os_mkdirs os p = true) → ∀ t, (∀ q, q ∈ qs → q ≠ []) → (∀ q, q ∈ qs → IsDirAt t q = true ∨ t !! q = None) →
  ∃ t', foldl (mkdirOne os mode) (t, true) qs = (t', true) ∧ t ⊆ t' ∧ (∀ q, q ∈ qs → IsDirAt t' q = true) ∧ (∀ q, q ∉ qs → t' !! q = t !! q).
Proof.
  intros Hos. induction qs as [|q qs IH]; intros t Hne Hop; [exists t; split; [done|]; split; [done|]; by split; [intros q ?%elem_of_nil|]|].
  assert (Hstep : ∃ t1, mkdirOne os mode (t, true) q = (t1, true) ∧ t ⊆ t1 ∧ IsDirAt t1 q = true ∧ ∀ q', q' ≠ q → t1 !! q' = t !! q').
  { unfold mkdirOne. cbn [negb]. destruct (IsDirAt t q) eqn:Eq; [exists t; done|]. destruct (Hop q ltac:(left)) as [H|Hn]; [congruence|]. rewrite Hn, Hos.
    eexists. split; [done|]. split; [by apply insert_subseteq|]. split; [apply IsDirAt_lookup; [apply Hne; left|rewrite lookup_insert_eq; eauto]|intros q' ?; by rewrite lookup_insert_ne]. }
  destruct Hstep as (t1 & Ht1 & Hsub & Hq & Hoth). cbn [foldl]. rewrite Ht1.
  destruct (IH t1) as (t' & Ht' & Hsub' & Hd & Ho); [intros; apply Hne; by right| |].
  - intros q' Hq'. destruct (decide (q' = q)) as [->|Hneq]; [by left|]. rewrite (Hoth q' Hneq). destruct (Hop q' ltac:(by right)) as [H|H]; [left; by eapply IsDirAt_mono|by right].
  - exists t'. split; [done|]. split; [by etrans|]. split.
    + intros q' [->|Hq']%elem_of_cons; [by eapply IsDirAt_mono|auto].
    + intros q' [Hnq Hn]%not_elem_of_cons. rewrite Ho by done. auto.
Qed.

Lemma MkdirAll_ok os t p mode : permissive os → open_to t p →
  ∃ t', MkdirAll os t p mode = (t', true) ∧ t ⊆ t' ∧ (∀ q, q ∈ prefixes p → IsDirAt t' q = true) ∧ (∀ q, q ∉ prefixes p → t' !! q = t !! q).
Proof. intros (_ & _ & _ & Hm & _) Hop. apply mkdirs_ok; [done| |done]. intros q Hq. by apply prefixes_inv in Hq as [? _]. Qed.

Lemma in_prefixes_dir t p : (∀ q, q ∈ prefixes p → IsDirAt t q = true) → IsDirAt t p = true.
Proof. intros H. destruct p as [|c p]; [done|]. apply H. by apply prefixes_self. Qed.

(** ** Phases *)

Section tree.
Context (os : OS) (target : path) (files : list FileEntry) (Hos : permissive os).

Definition at_ (f : FileEntry) : path := JoinPath target (Path f).
Definition dirPart (f : FileEntry) : path := if IsDir f then at_ f else DirOf (at_ f).
Definition region (q : path) : Prop := ∃ f, f ∈ files ∧ q ∈ prefixes (dirPart f).

(** The paths of the selection clash neither with each other nor with what the tree holds. *)
Record arranged (t : tree) : Prop := {
  ar_below : ∀ f, f ∈ files → at_ f ≠ [];
  ar_distinct : NoDup (at_ <$> files);
  ar_apart : ∀ f, f ∈ files → IsDir f = false → ¬ region (at_ f);
  ar_open : ∀ f, f ∈ files → open_to t (dirPart f);
  ar_free : ∀ f, f ∈ files → IsDir f = false → match t !! at_ f with None => True | Some (NFile _ _ _) => IsSymlink f = false | _ => False end }.

(** Between two trees only the paths of [W] change; elsewhere directories of the selection appear. *)
Record phase (t t' : tree) (W : list path) : Prop := {
  ph_kept : ∀ q n, q ∉ W → t !! q = Some n → t' !! q = Some n;
  ph_new : ∀ q, q ∉ W → t !! q = None → t' !! q = None ∨ region q ∧ IsDirAt t' q = true }.

Lemma phase_refl t : phase t t [].
Proof. split; auto. Qed.

Lemma phase_trans t1 t2 t3 W W' : phase t1 t2 W → phase t2 t3 W' → phase t1 t3 (W ++ W').
Proof.
  intros [K1 N1] [K2 N2]. split; [intros q n [??]%not_elem_of_app ?; by apply K2, K1|]. intros q [??]%not_elem_of_app ?.
  destruct (N1 q) as [Hn|[Hr Hd]]; [done|done|by apply N2|]. right. split; [done|].
  destruct q as [|c q]; [done|]. apply IsDirAt_lookup in Hd as (m & mt & Hd); [|done]. apply IsDirAt_lookup; [done|]. eauto.
Qed.

Lemma phase_weaken t t' W W' : phase t t' W → W ⊆ W' → phase t t' W'.
Proof. intros [K N] HW. split; intros; [apply K|apply N]; set_solver. Qed.

Lemma phase_dir t t' W q : phase t t' W → q ∉ W → IsDirAt t q = true → IsDirAt t' q = true.
Proof. intros [K _] Hq. destruct q as [|c q]; [done|]. rewrite !IsDirAt_lookup by done. intros (m & mt & H). eauto. Qed.

Lemma phase_mkdir t f mode : f ∈ files → open_to t (dirPart f) →
  ∃ t', MkdirAll os t (dirPart f) mode = (t', true) ∧ phase t t' [] ∧ IsDirAt t' (dirPart f) = true.
Proof.
  intros Hf Hop. destruct (MkdirAll_ok os t (dirPart f) mode Hos Hop) as (t' & -> & Hsub & Hd & Ho). exists t'. split; [done|]. split; [|by apply in_prefixes_dir].
  split; [intros q n _ Hq; by eapply lookup_weaken|]. intros q _ Hq. destruct (decide (q ∈ prefixes (dirPart f))); [right|left; by rewrite Ho].
  split; [by exists f|auto].
Qed.

Lemma phase_at (t t' : tree) p : (∀ q, q ≠ p → t' !! q = t !! q) → phase t t' [p].
Proof. intros H. split; [intros q n Hq Ht|intros q Hq Ht; left]; rewrite list_elem_of_singleton in Hq; by rewrite H. Qed.

(** What is still to come finds its place. *)
Definition ready (t : tree) (rest : list FileEntry) : Prop :=
  (∀ f, f ∈ files → open_to t (dirPart f)) ∧
  (∀ f, f ∈ rest → match t !! at_ f with None => True | Some (NFile _ _ _) => IsSymlink f = false | _ => False end).

Lemma phase_ready t0 t t' W rest : arranged t0 → phase t t' W → (∀ q, q ∈ W → ¬ region q) → (∀ f, f ∈ rest → f ∈ files ∧ IsDir f = false ∧ at_ f ∉ W) →
  ready t rest → ready t' rest.
Proof.
  intros Ha Hp HW Hr [Hop Hfr]. split.
  - intros f Hf q Hq. assert (Hqw : q ∉ W) by (intros ?; eapply HW; [done|]; by exists f).
    destruct (Hop f Hf q Hq) as [Hd|Hn]; [left; by eapply phase_dir|]. destruct (ph_new _ _ _ Hp q Hqw Hn) as [?|[_ ?]]; auto.
  - intros f Hf. destruct (Hr f Hf) as (Hff & Hnd & HfW). specialize (Hfr f Hf). destruct (t !! at_ f) as [n|] eqn:En.
    + by rewrite (ph_kept _ _ _ Hp _ _ HfW En).
    + destruct (ph_new _ _ _ Hp _ HfW En) as [->|[Hre _]]; [done|]. by destruct (ar_apart _ Ha f Hff Hnd).
Qed.
End tree.

(** ** The files *)

Section restoring.
Context {SS : SortSlice} {PR : Primitives} {ZS : Zstd}.
Context (os : OS) (parseJSON : bytes → option Backup) (r : FileRestorer) (I : ChunkStore → Prop) (content : bytes → option bytes).
Context `{HS : !Supplies (fr_index r) (fr_hooks r) I content}.
Context (Hos : permissive os) (Hhon : honestBatches r I content).
Context (b : Backup) (ea : EntryAccessor) (target : path) (files : list FileEntry) (data : FileEntry → bytes).

Abbreviation at_f := (at_ target).

(** The chunks and ranges of a file, its own or those of the backup it refers to, give [data]. *)
Definition sourced (f : FileEntry) : Prop := ∃ f' ea' es l, (locate parseJSON r ea f ∅).2 = Ok (f', ea') ∧ Accesses ea' es ∧
  laid (fr_norm r) content es l ∧ file_ok es l f' ∧ data f = fileBytes l f'.

Definition cache_ok (cache : gmap bytes EntryAccessor) : Prop := ∀ id a, cache !! id = Some a → (getRefEntries parseJSON r id ∅).2 = Ok a.

Lemma locate_cached f cache x : cache_ok cache → (locate parseJSON r ea f ∅).2 = Ok x → ∃ cache', locate parseJSON r ea f cache = (cache', Ok x) ∧ cache_ok cache'.
Proof.
  intros Hc. unfold locate. destruct (Unchanged f && _); [|cbn; intros [= <-]; eauto].
  assert (Hget : ∀ id a, (getRefEntries parseJSON r id ∅).2 = Ok a → ∃ cache', getRefEntries parseJSON r id cache = (cache', Ok a) ∧ cache_ok cache').
  { intros id a Ha. pose proof (Hc id) as Hid. unfold getRefEntries in *. rewrite lookup_empty in *. destruct (cache !! id) as [a'|] eqn:Ec.
    - specialize (Hid a' eq_refl). rewrite Ha in Hid. simplify_eq. eauto.
    - destruct (match NewEntryAccessor (fr_repo r) id with Ok ea => _ | Err _ => _ end) as [a'|] eqn:Ea; cbn in Ha; simplify_eq. eexists. split; [done|].
      intros id' a' [[<- <-]|[Hne H]]%lookup_insert_Some; [|by apply Hc]. unfold getRefEntries. rewrite lookup_empty, Ea. done. }
  destruct (getRefEntries parseJSON r (DataBackupID f) ∅) as [c [a|]] eqn:Eg; [|done]. destruct (Hget (DataBackupID f) a) as (c' & -> & Hc'); [by rewrite Eg|].
  cbn. intros ->. eauto.
Qed.

Lemma locate_meta f cache x : (locate parseJSON r ea f cache).2 = Ok x → Mode x.1 = Mode f ∧ ModTime x.1 = ModTime f.
Proof.
  unfold locate. destruct (Unchanged f && _); [|cbn; by intros [= <-]]. destruct (getRefEntries _ _ _ _) as [c [a|]]; [|done]. cbn.
  destruct (findFileInBackup _ _ _ _ _); [|done]. by intros [= <-].
Qed.

(** A file in its place. *)
Definition placed (t : tree) (f : FileEntry) : Prop := ∃ mt, t !! at_f f = Some (NFile (data f) (Mode f) mt) ∧ (ModTime f = None ∨ mt = ModTime f).

Definition advanced (i : nat) (s : filing) : option framePrefetcher := (λ p, withLookahead p ((λ l, advanceTo l i) <$> pf_lookahead p)) <$> fi_pf s.

Lemma restoreRegular_ok t0 i f g : arranged target files t0 → f ∈ files → IsDir f = false → IsSymlink f = false → sourced f →
  filing_ok r I content (pg_filing g) → cache_ok (pg_cache g) → ready target files (fi_tree (pg_filing g)) [f] →
  ∃ g', restoreRegular os parseJSON r b target ea i f g = (g', None) ∧ filing_ok r I content (pg_filing g') ∧ cache_ok (pg_cache g') ∧
    phase target files (fi_tree (pg_filing g)) (fi_tree (pg_filing g')) [at_f f] ∧ placed (fi_tree (pg_filing g')) f ∧ pg_restored g' = pg_restored g + 1.
Proof.
  intros Ha Hf Hnd Hns (f' & ea' & es & l & Hloc & Hea & Hl & Hfk & Hd) Hs Hc [Hop Hfr]. specialize (Hop f Hf) as Hopf.
  destruct (phase_mkdir os target files Hos _ f 493 Hf Hopf) as (t1 & Hmk & Hph & Hdir). unfold dirPart in Hmk, Hdir. rewrite Hnd in Hmk, Hdir.
  unfold restoreRegular. fold (at_f f). rewrite Hmk. destruct (locate_cached f _ _ Hc Hloc) as (c' & -> & Hc'). destruct (locate_meta _ _ _ Hloc) as [Hm Hmt]. cbn in Hm, Hmt.
  fold (advanced i (pg_filing g)).
  destruct (restoreOne_ok os r I content Hos Hhon ea' es l Hea Hl b (at_f f) f' (mkFiling (fi_store (pg_filing g)) (advanced i (pg_filing g)) t1) Hfk) as (s' & n & -> & Hs' & m & mt & Ht).
  - destruct Hs as [HI Hpf]. split; [done|]. cbn. unfold advanced. by destruct (fi_pf (pg_filing g)).
  - split; [by apply (ar_below _ _ _ Ha)|]. split; [done|]. cbn [fi_tree]. specialize (Hfr f ltac:(left)).
    destruct (fi_tree (pg_filing g) !! at_ target f) as [nd|] eqn:En; [rewrite (ph_kept _ _ _ _ _ Hph _ nd (not_elem_of_nil _) En); by destruct nd|].
    destruct (ph_new _ _ _ _ _ Hph (at_ target f) (not_elem_of_nil _) En) as [->|[Hre _]]; [done|]. by destruct (ar_apart _ _ _ Ha f Hf Hnd).
  - eexists. split; [done|]. cbn [pg_filing pg_cache pg_restored withTree fi_tree fi_store]. split; [exact Hs'|]. split; [done|]. split; [|split; [|lia]].
    + apply (phase_trans _ _ _ t1 _ [] [at_f f]); [done|]. apply phase_at. intros q Hq. unfold Chtimes, Chmod. rewrite !lookup_alter_ne by done. cbn [fi_tree] in Ht. rewrite Ht. by rewrite lookup_insert_ne.
    + unfold placed, Chtimes, Chmod. rewrite !lookup_alter_eq, Ht, lookup_insert_eq, Hm, Hmt. cbn [fmap option_fmap option_map]. rewrite Hd. destruct (ModTime f); eauto.
Qed.

Lemma restoreRegulars_ok t0 fs : arranged target files t0 → NoDup (at_f <$> fs) → Forall (λ f, f ∈ files ∧ IsDir f = false ∧ IsSymlink f = false ∧ sourced f) fs →
  ∀ i g, filing_ok r I content (pg_filing g) → cache_ok (pg_cache g) → ready target files (fi_tree (pg_filing g)) fs →
  ∃ g', restoreRegulars os parseJSON r b target ea i fs g = (g', None) ∧ filing_ok r I content (pg_filing g') ∧
    phase target files (fi_tree (pg_filing g)) (fi_tree (pg_filing g')) (at_f <$> fs) ∧ Forall (placed (fi_tree (pg_filing g'))) fs ∧ pg_restored g' = pg_restored g + len fs.
Proof.
  intros Ha. induction fs as [|f fs IH]; intros Hnd Hfs i g Hs Hc Hr.
  - exists g. split; [done|]. split; [done|]. split; [apply phase_refl|]. split; [done|]. cbn. lia.
  - cbn in Hnd. apply NoDup_cons in Hnd as [Hni Hnd]. apply Forall_cons in Hfs as [(Hf & Hd & Hl & Hsrc) Hfs].
    destruct (restoreRegular_ok t0 i f g Ha Hf Hd Hl Hsrc Hs Hc) as (g1 & Hg1 & Hs1 & Hc1 & Hp1 & Hpl1 & Hn1).
    { split; [apply Hr|]. intros x ->%list_elem_of_singleton. apply Hr. left. }
    cbn [restoreRegulars]. rewrite Hg1. rewrite Forall_forall in Hfs.
    destruct (IH Hnd ltac:(by apply Forall_forall) (S i) g1 Hs1 Hc1) as (g2 & Hg2 & Hs2 & Hp2 & Hpl2 & Hn2).
    { eapply (phase_ready target files t0 _ _ [at_f f]); [done|done| | |split; [apply Hr|intros x Hx; apply Hr; by right]].
      - intros q ->%list_elem_of_singleton. by apply (ar_apart _ _ _ Ha).
      - intros x Hx. destruct (Hfs x Hx) as (? & ? & _). split; [done|]. split; [done|]. intros Hx'%list_elem_of_singleton. apply Hni. rewrite <- Hx'. by apply list_elem_of_fmap_2. }
    exists g2. split; [done|]. split; [done|]. split; [exact (phase_trans _ _ _ _ _ [at_f f] _ Hp1 Hp2)|]. split; [|cbn; lia].
    constructor; [|done]. destruct Hpl1 as (mt & Hm & ?). exists mt. split; [|done]. by apply (ph_kept _ _ _ _ _ Hp2).
Qed.

Lemma makeDirs_ok ds : Forall (λ d, d ∈ files ∧ IsDir d = true) ds → ∀ t, (∀ f, f ∈ files → open_to t (dirPart target f)) →
  ∃ t', makeDirs os target ds t = (t', None) ∧ phase target files t t' [] ∧ Forall (λ d, IsDirAt t' (at_f d) = true) ds.
Proof.
  induction ds as [|d ds IH]; intros Hds t Hop; [exists t; split; [done|]; split; [apply phase_refl|done]|].
  apply Forall_cons in Hds as [[Hf Hd] Hds]. destruct (phase_mkdir os target files Hos t d (Z.lor (Mode d) 448) Hf (Hop d Hf)) as (t1 & Hmk & Hp1 & Hdir).
  unfold dirPart in Hmk, Hdir. rewrite Hd in Hmk, Hdir. cbn [makeDirs]. fold (at_f d). rewrite Hmk.
  destruct (IH Hds t1) as (t2 & Ht2 & Hp2 & Hall).
  { intros f Hff q Hq. destruct (Hop f Hff q Hq) as [H|H]; [left; by eapply phase_dir; [exact Hp1|apply not_elem_of_nil|]|].
    destruct (ph_new _ _ _ _ _ Hp1 q (not_elem_of_nil _) H) as [?|[_ ?]]; auto. }
  exists t2. split; [done|]. split; [exact (phase_trans _ _ _ _ _ [] [] Hp1 Hp2)|]. constructor; [|done]. by eapply phase_dir; [exact Hp2|apply not_elem_of_nil|].
Qed.

Lemma makeLinks_ok t0 fs : arranged target files t0 → NoDup (at_f <$> fs) → Forall (λ f, f ∈ files ∧ IsDir f = false ∧ IsSymlink f = true) fs →
  ∀ t, ready target files t fs →
  ∃ t', makeLinks os target fs t = (t', None) ∧ phase target files t t' (at_f <$> fs) ∧ Forall (λ f, t' !! at_f f = Some (NLink (LinkTarget f))) fs.
Proof.
  intros Ha. induction fs as [|f fs IH]; intros Hnd Hfs t Hr; [exists t; split; [done|]; split; [apply phase_refl|done]|].
  cbn in Hnd. apply NoDup_cons in Hnd as [Hni Hnd]. apply Forall_cons in Hfs as [(Hf & Hd & Hl) Hfs]. rewrite Forall_forall in Hfs. destruct Hr as [Hop Hfr].
  destruct (phase_mkdir os target files Hos t f 493 Hf (Hop f Hf)) as (t1 & Hmk & Hp1 & Hdir). unfold dirPart in Hmk, Hdir. rewrite Hd in Hmk, Hdir.
  cbn [makeLinks]. fold (at_f f). rewrite Hmk.
  assert (Hfree : t1 !! at_f f = None).
  { specialize (Hfr f ltac:(left)). destruct (t !! at_f f) as [[]|] eqn:En; try done; [congruence|].
    destruct (ph_new _ _ _ _ _ Hp1 _ (not_elem_of_nil _) En) as [?|[Hre _]]; [done|]. by destruct (ar_apart _ _ _ Ha f Hf Hd). }
  unfold Symlink. rewrite Hdir, Hfree, (proj2 (proj2 (proj2 (proj2 Hos)))), bool_decide_eq_false_2 by (by apply (ar_below _ _ _ Ha)). cbn [negb orb].
  assert (Hp : phase target files t (<[at_f f := NLink (LinkTarget f)]> t1) [at_f f]).
  { apply (phase_trans _ _ _ t1 _ [] [at_f f]); [done|]. apply phase_at. intros q Hq. by rewrite lookup_insert_ne. }
  destruct (IH Hnd ltac:(by apply Forall_forall) (<[at_f f := NLink (LinkTarget f)]> t1)) as (t2 & Ht2 & Hp2 & Hall).
  { eapply (phase_ready target files t0 _ _ [at_f f]); [done|exact Hp| | |split; [done|intros x Hx; apply Hfr; by right]].
    - intros q ->%list_elem_of_singleton. by apply (ar_apart _ _ _ Ha).
    - intros x Hx. destruct (Hfs x Hx) as (? & ? & _). split; [done|]. split; [done|]. intros Hx'%list_elem_of_singleton. apply Hni. rewrite <- Hx'. by apply list_elem_of_fmap_2. }
  exists t2. split; [done|]. split; [exact (phase_trans _ _ _ _ _ [at_f f] _ Hp Hp2)|]. constructor; [|done]. apply (ph_kept _ _ _ _ _ Hp2); [done|]. by rewrite lookup_insert_eq.
Qed.

Lemma setDirMeta_phase ds : ∀ t, phase target files t (foldl (setDirMeta target) t ds) (at_f <$> ds).
Proof.
  induction ds as [|d ds IH]; intros t; [apply phase_refl|]. cbn [foldl fmap list_fmap]. apply (phase_trans _ _ _ (setDirMeta target t d) _ [at_f d]); [|apply IH].
  apply phase_at. intros q Hq. unfold setDirMeta, Chmod, Chtimes. by rewrite !lookup_alter_ne.
Qed.

(** A directory with its metadata. *)
Definition dirPlaced (t : tree) (d : FileEntry) : Prop := ∃ mt, t !! at_f d = Some (NDir (Mode d) mt) ∧ (ModTime d = None ∨ mt = ModTime d).

Lemma setDirMeta_ok ds : NoDup (at_f <$> ds) → ∀ t, Forall (λ d, at_f d ≠ [] ∧ IsDirAt t (at_f d) = true) ds → Forall (dirPlaced (foldl (setDirMeta target) t ds)) ds.
Proof.
  induction ds as [|d ds IH]; intros Hnd t Hds; [done|]. cbn in Hnd. apply NoDup_cons in Hnd as [Hni Hnd]. apply Forall_cons in Hds as [[Hne Hd] Hds].
  cbn [foldl]. apply IsDirAt_lookup in Hd as (m & mt & Hd); [|done]. constructor.
  - destruct (setDirMeta_phase ds (setDirMeta target t d)) as [K _]. unfold dirPlaced.
    exists (match ModTime d with None => mt | x => x end). split; [|destruct (ModTime d); auto]. apply K; [done|]. unfold setDirMeta, Chmod, Chtimes. fold (at_f d).
    rewrite !lookup_alter_eq, Hd. cbn. by destruct (ModTime d).
  - apply IH; [done|]. rewrite Forall_forall in *. intros x Hx. destruct (Hds x Hx) as [Hnx Hdx]. split; [done|].
    apply IsDirAt_lookup in Hdx as (m' & mt' & Hdx); [|done]. apply IsDirAt_lookup; [done|]. exists m', mt'. unfold setDirMeta, Chmod, Chtimes. fold (at_f d).
    assert (at_f d ≠ at_f x) by (intros E; apply Hni; rewrite E; by apply list_elem_of_fmap_2). by rewrite !lookup_alter_ne.
Qed.
End restoring.

(** ** The whole selection *)

Lemma selection_split fs (f : FileEntry) : f ∈ fs → f ∈ dirsOf fs ∨ f ∈ regularsOf fs ∨ f ∈ linksOf fs.
Proof.
  intros Hf. unfold dirsOf, regularsOf, linksOf. rewrite !list_elem_of_filter. destruct (IsDir f); [auto|]. destruct (IsSymlink f); auto.
Qed.

Lemma NoDup_at_filter target fs (P : FileEntry → Prop) `{∀ f, Decision (P f)} : NoDup (at_ target <$> fs) → NoDup (at_ target <$> filter P fs).
Proof.
  induction fs as [|f fs IH]; [done|]. cbn [fmap list_fmap]. intros [Hni Hnd]%NoDup_cons. rewrite filter_cons. destruct (decide (P f)); [|auto]. cbn [fmap list_fmap]. apply NoDup_cons. split; [|auto].
  intros (x & Hx & [_ Hin]%list_elem_of_filter)%list_elem_of_fmap. apply Hni. rewrite Hx. by apply list_elem_of_fmap_2.
Qed.

Lemma NoDup_fmap_inj_elem {A B} (f : A → B) l x y : NoDup (f <$> l) → x ∈ l → y ∈ l → f x = f y → x = y.
Proof.
  induction l as [|z l IH]; [by intros _ ?%elem_of_nil|]. cbn [fmap list_fmap]. intros [Hni Hnd]%NoDup_cons [->|Hx]%elem_of_cons [->|Hy]%elem_of_cons E; [done| | |auto].
  - destruct Hni. rewrite E. by apply list_elem_of_fmap_2.
  - destruct Hni. rewrite <- E. by apply list_elem_of_fmap_2.
Qed.

Section whole.
Context {SS : SortSlice} {PR : Primitives} {ZS : Zstd}.
Context (os : OS) (parseJSON : bytes → option Backup) (r : FileRestorer) (I : ChunkStore → Prop) (content : bytes → option bytes).
Context (Hos : permissive os) `{HS : !Supplies (fr_index r) (fr_hooks r) I content} (Hhon : honestBatches r I content).
Context (b : Backup) (ea : EntryAccessor) (target : path) (files : list FileEntry) (data : FileEntry → bytes) (t : tree).
Context (Ha : arranged target files t) (Hsrc : Forall (sourced parseJSON r content ea data) (regularsOf files)).

Lemma nondir_in f : f ∈ regularsOf files ∨ f ∈ linksOf files → f ∈ files ∧ IsDir f = false.
Proof. unfold regularsOf, linksOf. rewrite !list_elem_of_filter. tauto. Qed.
Lemma kinds_apart f g : f ∈ regularsOf files → g ∈ linksOf files → at_ target f ≠ at_ target g.
Proof.
  intros Hf Hg E. pose proof (nondir_in f ltac:(auto)) as [Hf' _]. pose proof (nondir_in g ltac:(auto)) as [Hg' _].
  assert (f = g) as -> by (eapply (NoDup_fmap_inj_elem (at_ target) files); [apply (ar_distinct _ _ _ Ha)|done|done|done]).
  apply list_elem_of_filter in Hf as [[_ ?] _], Hg as [[_ ?] _]. congruence.
Qed.

(** The regular files, once the directories are there. *)
Lemma regulars_phase st pf t1 : I st → match pf with Some p => goodFrames r I content (pf_frames p) | None => True end → phase target files t t1 [] →
  ∃ g, restoreRegulars os parseJSON r b target ea 0 (regularsOf files) (mkProgress (mkFiling st pf t1) ∅ 0 0) = (g, None) ∧ I (fi_store (pg_filing g)) ∧
    phase target files t1 (fi_tree (pg_filing g)) (at_ target <$> regularsOf files) ∧ Forall (placed target data (fi_tree (pg_filing g))) (regularsOf files) ∧
    pg_restored g = len (regularsOf files) ∧ ready target files (fi_tree (pg_filing g)) (linksOf files).
Proof.
  intros HI Hpf Hp1.
  assert (Hr1 : ready target files t1 (regularsOf files ++ linksOf files)).
  { eapply (phase_ready target files t t t1 []); [done|done|by intros q ?%elem_of_nil| |split; [apply (ar_open _ _ _ Ha)|]]; intros f Hf%elem_of_app%nondir_in; destruct Hf.
    - split; [done|]. split; [done|apply not_elem_of_nil].
    - by apply (ar_free _ _ _ Ha). }
  destruct (restoreRegulars_ok os parseJSON r I content Hos Hhon b ea target files data t (regularsOf files) Ha (NoDup_at_filter target files _ (ar_distinct _ _ _ Ha)))
    with (i := 0%nat) (g := mkProgress (mkFiling st pf t1) (∅ : gmap bytes EntryAccessor) 0 0) as (g & Hg & Hs & Hp2 & Hpl & Hn).
  - rewrite Forall_forall in *. intros f Hf. split; [by apply nondir_in; left|]. pose proof (Hsrc f Hf). by apply list_elem_of_filter in Hf as [[? ?] _].
  - by split.
  - intros id a Hid. cbn [pg_cache] in Hid. by rewrite lookup_empty in Hid.
  - split; [apply Hr1|]. intros f Hf. apply Hr1, elem_of_app. by left.
  - exists g. split; [done|]. split; [apply Hs|]. split; [done|]. split; [done|]. split; [done|].
    eapply (phase_ready target files t t1 _ (at_ target <$> regularsOf files)); [done|done| | |split; [apply Hr1|intros f Hf; apply Hr1, elem_of_app; by right]].
    + intros q (f & -> & Hf)%list_elem_of_fmap. destruct (nondir_in f ltac:(auto)). by apply (ar_apart _ _ _ Ha).
    + intros f Hf. destruct (nondir_in f ltac:(auto)). split; [done|]. split; [done|]. intros (x & Hx & Hx')%list_elem_of_fmap. by apply (kinds_apart x f).
Qed.

(** The whole run, up to the metadata of directories. *)
Lemma run_phases st pf : I st → match pf with Some p => goodFrames r I content (pf_frames p) | None => True end →
  ∃ t1 g t3, makeDirs os target (dirsOf files) t = (t1, None) ∧
    restoreRegulars os parseJSON r b target ea 0 (regularsOf files) (mkProgress (mkFiling st pf t1) ∅ 0 0) = (g, None) ∧
    makeLinks os target (linksOf files) (fi_tree (pg_filing g)) = (t3, None) ∧ I (fi_store (pg_filing g)) ∧ pg_restored g = len (regularsOf files) ∧
    phase target files t t3 (at_ target <$> regularsOf files ++ linksOf files) ∧ Forall (placed target data t3) (regularsOf files) ∧
    Forall (λ f, t3 !! at_ target f = Some (NLink (LinkTarget f))) (linksOf files) ∧ Forall (λ d, at_ target d ≠ [] ∧ IsDirAt t3 (at_ target d) = true) (dirsOf files).
Proof.
  intros HI Hpf. destruct (makeDirs_ok os Hos target files (dirsOf files)) with (t := t) as (t1 & Ht1 & Hp1 & Hd1).
  { apply Forall_forall. intros d [??]%list_elem_of_filter. done. }
  { apply (ar_open _ _ _ Ha). }
  destruct (regulars_phase st pf t1 HI Hpf Hp1) as (g & Hg & HIg & Hp2 & Hpl & Hn & Hr).
  destruct (makeLinks_ok os Hos target files t (linksOf files) Ha (NoDup_at_filter target files _ (ar_distinct _ _ _ Ha))) with (t := fi_tree (pg_filing g)) as (t3 & Ht3 & Hp3 & Hl3).
  { apply Forall_forall. intros f [[??]?]%list_elem_of_filter. done. }
  { done. }
  assert (Hp : phase target files t1 t3 (at_ target <$> regularsOf files ++ linksOf files)) by (rewrite fmap_app; by eapply phase_trans).
  exists t1, g, t3. split; [done|]. split; [done|]. split; [done|]. split; [done|]. split; [done|]. split; [exact (phase_trans _ _ _ _ _ [] _ Hp1 Hp)|]. split; [|split; [done|]].
  - rewrite Forall_forall in *. intros f Hf. destruct (Hpl f Hf) as (mt & Hm & ?). exists mt. split; [|done]. apply (ph_kept _ _ _ _ _ Hp3); [|done].
    intros (x & Hx & Hx')%list_elem_of_fmap. by apply (kinds_apart f x).
  - rewrite Forall_forall in *. intros d Hd. assert (d ∈ files) by by apply list_elem_of_filter in Hd as [_ ?]. split; [by apply (ar_below _ _ _ Ha)|].
    apply (phase_dir _ _ _ _ _ _ Hp); [|by apply Hd1]. intros (x & Hx & Hx')%list_elem_of_fmap. destruct (nondir_in x ltac:(by apply elem_of_app)) as [? Hnd].
    assert (d = x) as -> by (eapply (NoDup_fmap_inj_elem (at_ target) files); [apply (ar_distinct _ _ _ Ha)|done|done|done]). apply list_elem_of_filter in Hd as [? _]. congruence.
Qed.
End whole.

Section restore_files.
Context {SS : SortSlice} {PR : Primitives} {ZS : Zstd}.

(** A restore of a selection that fits. *)
Lemma restore_files_ok os parseJSON r I content b target patterns st t data : permissive os → Supplies (fr_index r) (fr_hooks r) I content → honestBatches r I content →
  FileCatalog b ≠ [] → I st →
  let files := selected b patterns in
  arranged target files t → Forall (sourced parseJSON r content (OpenEntryAccessor (fr_repo r) b) data) (regularsOf files) →
  ∃ st' t' res, RestoreFiles os parseJSON r b target patterns st t = (st', t', Ok res) ∧ I st' ∧
    Forall (placed target data t') (regularsOf files) ∧ Forall (dirPlaced target t') (dirsOf files) ∧
    Forall (λ f, t' !! at_ target f = Some (NLink (LinkTarget f))) (linksOf files) ∧
    (∀ q, q ∉ at_ target <$> files → ¬ region target files q → t' !! q = t !! q) ∧
    fr_TotalFiles res = len files ∧ fr_RestoredFiles res = len (regularsOf files) ∧ fr_DirsCreated res = len (dirsOf files) ∧ fr_SymlinksCreated res = len (linksOf files).
Proof.
  intros Hos HS Hhon Hcat HI files Ha Hsrc. unfold RestoreFiles. rewrite bool_decide_eq_false_2 by done. fold files.
  set (ea := OpenEntryAccessor (fr_repo r) b) in *. set (pf := newFramePrefetcher _ _).
  destruct (run_phases os parseJSON r I content Hos Hhon b ea target files data t Ha Hsrc st pf HI) as (t1 & g & t3 & -> & -> & -> & HIg & Hn & Hp & Hpl & Hlk & Hds).
  { subst pf. unfold newFramePrefetcher. destruct (OnChunkFetchBatch (fr_hooks r)); [cbn; apply goodFrames_empty|done]. }
  eexists _, _, _. split; [done|]. split; [done|]. set (ds := sortSlice (λ d, - len (Path d)) (dirsOf files)).
  assert (Hds' : ds ≡ₚ dirsOf files) by apply sortSlice_perm. clearbody ds. pose proof (setDirMeta_phase target files ds t3) as Hp4.
  assert (Hnd : ∀ f, f ∈ regularsOf files ∨ f ∈ linksOf files → at_ target f ∉ at_ target <$> ds).
  { intros f [Hf Hnd]%nondir_in. rewrite Hds'. intros (d & Hd & [Hdd Hdf]%list_elem_of_filter)%list_elem_of_fmap.
    assert (f = d) as -> by (eapply (NoDup_fmap_inj_elem (at_ target) files); [apply (ar_distinct _ _ _ Ha)|done|done|done]). congruence. }
  rewrite Forall_forall in Hpl, Hlk. split; [|split; [|split; [|split]]].
  - apply Forall_forall. intros f Hf. destruct (Hpl f Hf) as (mt & Hm & ?). exists mt. split; [|done]. apply (ph_kept _ _ _ _ _ Hp4); auto.
  - rewrite <- Hds'.
    apply (setDirMeta_ok target files).
    { rewrite Hds'; by apply NoDup_at_filter, (ar_distinct _ _ _ Ha). }
    by rewrite Hds'.
  - apply Forall_forall. intros f Hf. apply (ph_kept _ _ _ _ _ Hp4); auto.
  - intros q Hq Hre. pose proof (phase_trans _ _ _ _ _ _ _ Hp Hp4) as Hall.
    assert (HqW : q ∉ (at_ target <$> regularsOf files ++ linksOf files) ++ (at_ target <$> ds)).
    { rewrite Hds', <- fmap_app. intros (f & -> & Hf)%list_elem_of_fmap. apply Hq. apply list_elem_of_fmap_2. unfold dirsOf, regularsOf, linksOf in Hf.
      rewrite !elem_of_app, !list_elem_of_filter in Hf. tauto. }
    destruct (t !! q) as [n|] eqn:Eq; [by apply (ph_kept _ _ _ _ _ Hall)|]. destruct (ph_new _ _ _ _ _ Hall q HqW Eq) as [?|[? _]]; done.
  - cbn. done.
Qed.

(** C23. A file restore puts the selection in place: over an index and a store that supply the
    chunks, with a download service whose batches are honest, when every regular file of
    the selection has its ranges in its own backup or in the one it refers to, and paths
    clash neither with each other nor with the target tree, [RestoreFiles] succeeds; every
    file holds exactly its bytes, with its mode and time, every directory and link is
    there, and no other path changes. *)
Theorem files_restored os parseJSON r I content b target patterns st t data : permissive os → Supplies (fr_index r) (fr_hooks r) I content → honestBatches r I content →
  FileCatalog b ≠ [] → I st →
  let files := selected b patterns in
  arranged target files t → Forall (sourced parseJSON r content (OpenEntryAccessor (fr_repo r) b) data) (regularsOf files) →
  ∃ st' t' res, RestoreFiles os parseJSON r b target patterns st t = (st', t', Ok res) ∧ I st' ∧
    Forall (placed target data t') (regularsOf files) ∧ Forall (dirPlaced target t') (dirsOf files) ∧
    Forall (λ f, t' !! at_ target f = Some (NLink (LinkTarget f))) (linksOf files) ∧
    (∀ q, q ∉ at_ target <$> files → ¬ region target files q → t' !! q = t !! q) ∧
    fr_TotalFiles res = len files ∧ fr_RestoredFiles res = len (regularsOf files) ∧ fr_DirsCreated res = len (dirsOf files) ∧ fr_SymlinksCreated res = len (linksOf files).
Proof. apply restore_files_ok. Qed.
End restore_files.

(** ** A small tree *)

(** A directory, a file in it and a link. *)
Definition dirEntry : FileEntry := mkFile [100] 0 0 493 (Some 5) true false [] 0 0 (zeros 32) false [] [] [] false.
Definition fileIn : FileEntry := mkFile [100; 47; 102] 0 4 384 (Some 6) false false [] 7 4 (zeros 32) false [] [] [] false.
Definition linkEntry : FileEntry := mkFile [108] 0 0 511 None false true [100] 0 0 (zeros 32) false [] [] [] false.
Definition withFiles (b : Backup) (fes : list FileEntry) : Backup := DnmFile.withCatalog b fes.
Definition smallTree : Backup := withFiles smallBackup [linkEntry; fileIn; dirEntry].
Definition homeDir : path := [[116]].

Lemma small_arranged : arranged homeDir [linkEntry; fileIn; dirEntry] ∅.
Proof.
  assert (Hall : ∀ f, f ∈ [linkEntry; fileIn; dirEntry] → f = linkEntry ∨ f = fileIn ∨ f = dirEntry) by (intros f Hf; rewrite !elem_of_cons, elem_of_nil in Hf; tauto).
  split.
  - intros f [->|[->| ->]]%Hall; discriminate.
  - apply (bool_decide_eq_true_1 _). reflexivity.
  - intros f [->|[->| ->]]%Hall Hd (g & [->|[->| ->]]%Hall & Hg); try discriminate Hd; revert Hg; apply (bool_decide_eq_false_1 _); reflexivity.
  - intros f Hf q Hq. right. apply lookup_empty.
  - intros f Hf Hd. by rewrite lookup_empty.
Qed.

Lemma small_sourced : Forall (sourced (λ _, None) oneFiler oneContent (NewSliceEntryAccessor threeEntries) (λ f, fileBytes smallVolume f)) [fileIn].
Proof.
  constructor; [|constructor]. exists fileIn, (NewSliceEntryAccessor threeEntries), threeEntries, smallVolume. split; [reflexivity|]. split; [apply slice_accesses|].
  split; [apply three_laid_stream|]. split; [|reflexivity]. split; [done|constructor|intros _ _; right; cbn; lia|].
  unfold threeEntries. generalize oneHash. intros h. rewrite !Forall_cons. split_and!; [by left| |by left|done]. right. unfold missed, overlaps, entry_end. cbn. split; [lia|constructor].
Qed.

Lemma files_restored_witness : ∃ st' t' res, RestoreFiles anyOS (λ _, None) oneFiler smallTree homeDir [] oneStore ∅ = (st', t', Ok res) ∧
  (∃ mt, t' !! [[116]; [100]; [102]] = Some (NFile [1; 2; 3; 4] 384 mt) ∧ mt = Some 6) ∧ t' !! [[116]; [108]] = Some (NLink [100]) ∧ t' !! [[117]] = None.
Proof.
  destruct (files_restored anyOS (λ _, None) oneFiler (λ st, st = oneStore) oneContent smallTree homeDir [] oneStore ∅ (λ f, fileBytes smallVolume f)
    anyOS_permissive one_supplies one_honest) as (st' & t' & res & H1 & _ & H2 & _ & H3 & H4 & _).
  - discriminate.
  - reflexivity.
  - exact small_arranged.
  - exact small_sourced.
  - exists st', t', res. split; [exact H1|]. change (regularsOf (selected smallTree [])) with [fileIn] in H2. change (linksOf (selected smallTree [])) with [linkEntry] in H3.
    apply Forall_cons in H2 as [(mt & Hm & Hmt) _]. apply Forall_cons in H3 as [H3 _]. split; [|split; [exact H3|]].
    + exists mt. split; [exact Hm|]. destruct Hmt as [Hmt|Hmt]; [discriminate Hmt|exact Hmt].
    + rewrite H4; [apply lookup_empty| |]; [apply (bool_decide_eq_false_1 _); reflexivity|].
      intros (f & Hf & Hp). change (selected smallTree []) with [linkEntry; fileIn; dirEntry] in Hf. rewrite !elem_of_cons, elem_of_nil in Hf.
      destruct Hf as [->|[->|[->|[]]]]; revert Hp; apply (bool_decide_eq_false_1 _); reflexivity.
Defined.

(** ** Paths that clash and paths that escape *)

(** Two sources with a file of the same name: the second overwrites the first, and the
    result counts two restored files. *)
Definition sourceFile (src off n : Z) : FileEntry := mkFile [102] src n 420 None false false [] off n (zeros 32) false [] [] [] false.
Definition twoSources : Backup := withFiles smallBackup [sourceFile 0 0 4; sourceFile 1 8 3].
Theorem second_source_overwrites :
  let '(_, t, res) := RestoreFiles anyOS (λ _, None) oneFiler twoSources homeDir [] oneStore ∅ in
  match res with Ok n => fr_RestoredFiles n = 2 | Err _ => False end ∧ fileData t [[116]; [102]] = Some [2; 3; 4] ∧ size t = 2%nat.
Proof. vm_compute. split_and!; reflexivity. Qed.

(** A catalog path with dot-dot components is written outside the target directory. *)
Definition escaping : Backup := withFiles smallBackup [mkFile ([46; 46; 47; 120] : bytes) 0 4 420 None false false [] 0 4 (zeros 32) false [] [] [] false].
Theorem dotdot_escapes :
  let '(_, t, res) := RestoreFiles anyOS (λ _, None) oneFiler escaping [[114]; [116]] [] oneStore ∅ in
  match res with Ok n => fr_RestoredFiles n = 1 | Err _ => False end ∧ fileData t [[114]; [120]] = Some [1; 2; 3; 4].
Proof. vm_compute. split; reflexivity. Qed.
