(* ===== verification/Verified.v ===== *)
(** * core/restore: what verification says

    The streamed walk, the walk over a loaded manifest and a walk resumed from a
    checkpoint give the same result; what they say is what reading back a restored target
    would say. *)

From S2P Require Import Chunker.
From S2P Require Import Prelude GoBytes GoRuntime GoFiles Hashes HashTable HashIndex Crypto Dedup PackStore Packs Preprocess RepoConfig Rebuild.
From S2P Require Import Dnm DnmAccess Restore Restored.

Section walks.
Context {SS : SortSlice} {PR : Primitives} {ZS : Zstd} {DC : DigestCodec}.
Context (idx : DedupIndex) (hooks : Hooks) (norm : option Normalizer).

Lemma walkEntries_app l k w : walkEntries idx hooks norm (l ++ k) w =
  match walkEntries idx hooks norm l w with (w, Some e) => (w, Some e) | (w, None) => walkEntries idx hooks norm k w end.
Proof. revert w. induction l as [|[i e] l IH]; intros w; [done|]. cbn. destruct (walkEntry _ _ _ _ _ _) as [w' [er|]]; [done|]. apply IH. Qed.

Lemma numberEntries_app l : ∀ k i, numberEntries i (l ++ k) = numberEntries i l ++ numberEntries (i + len l) k.
Proof. induction l as [|e l IH]; intros k i; cbn; [by rewrite Z.add_0_r|]. rewrite IH. do 3 f_equal. lia. Qed.

(** The entries from [lo] on, [n] of them, as a window reads them. *)
Definition slice (es : list Entry) (lo n : nat) : list (Z * Entry) := numberEntries (Z.of_nat lo) (take n (drop lo es)).

Lemma slice_split es lo a b : (lo + a ≤ length es)%nat → slice es lo (a + b) = slice es lo a ++ slice es (lo + a) b.
Proof.
  intros Hle. unfold slice. rewrite <- take_take_drop, numberEntries_app, drop_drop, length_take, length_drop. do 2 f_equal. lia.
Qed.

(** Windows do not matter. *)
Lemma walkWindows_all ea es `{!Accesses ea es} fuel : ∀ lo n w, (lo + n ≤ length es)%nat → (n < fuel)%nat →
  walkWindows fuel ea idx hooks norm (Z.of_nat lo) (Z.of_nat (lo + n)) w = walkEntries idx hooks norm (slice es lo n) w.
Proof.
  induction fuel as [|fuel IH]; intros lo n w Hle Hf; [lia|]. cbn [walkWindows]. destruct (Z.ltb_spec (Z.of_nat lo) (Z.of_nat (lo + n))) as [Hlt|Hge].
  2:{ assert (n = 0%nat) as -> by lia. done. }
  destruct (Z_of_nat_complete verifyWindow ltac:(by vm_compute)) as [B HB]. assert (HB0 : (0 < B)%nat) by (assert (0 < verifyWindow) by (by vm_compute); lia). rewrite HB.
  set (k := (Nat.min n B)%nat). assert (Hhi : (if Z.of_nat (lo + n) <? Z.of_nat lo + Z.of_nat B then Z.of_nat (lo + n) else Z.of_nat lo + Z.of_nat B) = Z.of_nat (lo + k)).
  { destruct (Z.ltb_spec (Z.of_nat (lo + n)) (Z.of_nat lo + Z.of_nat B)); lia. }
  rewrite Hhi, ac_range by lia. assert (Hnk : slice es lo n = slice es lo k ++ slice es (lo + k) (n - k)) by (rewrite <- slice_split by lia; f_equal; lia). rewrite Hnk, walkEntries_app.
  change (numberEntries (Z.of_nat lo) (take k (drop lo es))) with (slice es lo k). destruct (walkEntries _ _ _ _ _) as [w' [er|]]; [done|].
  destruct (decide (n ≤ B)%nat) as [Hn|Hn].
  - replace (n - k)%nat with 0%nat by lia. destruct fuel as [|fuel]; [done|]. cbn [walkWindows]. rewrite (proj2 (Z.ltb_ge _ _)) by lia. done.
  - replace (Z.of_nat lo + Z.of_nat B) with (Z.of_nat (lo + k)) by lia. replace (Z.of_nat (lo + n)) with (Z.of_nat (lo + k + (n - k))) by lia. apply IH; lia.
Qed.

Lemma svRange_all sv ea es lo n `{!Accesses ea es} : sv_next sv = Z.of_nat lo → sv_total sv = len es → (lo + n ≤ length es)%nat →
  svRange sv ea (Z.of_nat lo) (Z.of_nat (lo + n)) idx hooks norm =
  match walkEntries idx hooks norm (slice es lo n) (sv_walk sv) with
  | (w, Some e) => (mkStreamVerify (len es) (Z.of_nat lo) w, Some e)
  | (w, None) => (mkStreamVerify (len es) (Z.of_nat (lo + n)) w, None)
  end.
Proof.
  intros Hn Ht Hle. unfold svRange. rewrite Hn, Ht, Z.eqb_refl, (proj2 (Z.ltb_ge _ _)) by lia. cbn [negb]. rewrite (walkWindows_all ea es) by lia. done.
Qed.

Lemma select_all es : selectEntries es (Z.of_nat <$> seq 0 (length es)) = Some (numberEntries 0 es).
Proof.
  assert (Hg : ∀ l pre, es = pre ++ l → selectEntries es (Z.of_nat <$> seq (length pre) (length l)) = Some (numberEntries (len pre) l)); [|by apply (Hg es [])].
  induction l as [|e l IH]; intros pre He; [done|]. cbn [length seq]. rewrite fmap_cons. cbn [selectEntries numberEntries]. rewrite (proj2 (Z.ltb_ge _ _)) by lia.
  rewrite Nat2Z.id. rewrite He at 1. rewrite list_lookup_middle by done. cbn. specialize (IH (pre ++ [e])). rewrite length_app in IH. cbn in IH. rewrite Nat.add_1_r in IH.
  rewrite IH by (by rewrite <- app_assoc). cbn. do 3 f_equal. lia.
Qed.

Lemma slice_all es : slice es 0 (length es) = numberEntries 0 es.
Proof. unfold slice. by rewrite drop_0, firstn_all. Qed.

(** The streamed verification as one walk. *)
Lemma VerifyStreamed_walk b ea es st `{!Accesses ea es} : VerifyStreamed b ea idx st hooks norm =
  match NewStreamVerify b (len es) st with
  | Err e => (st, Err e)
  | Ok sv => match walkEntries idx hooks norm (numberEntries 0 es) (sv_walk sv) with
             | (w, Some e) => (wk_store w, Err e)
             | (w, None) => (wk_store w, Ok (foldFinish (wk_fold w) (wk_result w)))
             end
  end.
Proof.
  unfold VerifyStreamed. rewrite ac_count. destruct (NewStreamVerify b (len es) st) as [sv|e] eqn:Hn; [|done].
  assert (Hsv : sv_next sv = Z.of_nat 0 ∧ sv_total sv = len es) by (unfold NewStreamVerify in Hn; destruct (_ && _); by simplify_eq). destruct Hsv as [H1 H2].
  pose proof (svRange_all sv ea es 0 (length es) H1 H2 (le_n _)) as Hr. change (Z.of_nat (0 + length es)) with (len es) in Hr. change (Z.of_nat 0) with 0 in Hr. rewrite Hr, slice_all. clear Hr.
  destruct (walkEntries idx hooks norm (numberEntries 0 es) (sv_walk sv)) as [w [e|]]; [done|]. unfold svFinish. cbn [sv_next sv_total sv_walk]. by rewrite Z.eqb_refl.
Qed.

Lemma stream_equals_slice b ea st : Accesses ea (Entries b) → VerifyStreamed b ea idx st hooks norm = VerifyWithNormalizer b idx st hooks norm.
Proof.
  intros Ha. rewrite (VerifyStreamed_walk b ea (Entries b) st). unfold NewStreamVerify, VerifyWithNormalizer, VerifySelectedWithNormalizer.
  assert (He : bool_decide (Entries b = []) = (len (Entries b) =? 0)) by (destruct (Entries b); done). rewrite He. destruct ((len (Entries b) =? 0) && (0 <? TotalBytes b)); [done|].
  rewrite select_all. cbn [sv_walk]. unfold newDigestFold. rewrite bool_decide_eq_true_2 by done. rewrite length_fmap, length_seq. by destruct (hasDigest b).
Qed.
End walks.

(** ** Walks up to the hash state *)

(** Two folds that no further input tells apart. *)
Definition fold_eq (f g : digestFold) : Prop :=
  df_want f = df_want g ∧ df_verdict f = df_verdict g ∧
  match df_h f, df_h g with Some a, Some b => ∀ x, Sum256 (a ++ x) = Sum256 (b ++ x) | None, None => True | _, _ => False end.
Definition walk_eq (v w : walk) : Prop := wk_store v = wk_store w ∧ wk_result v = wk_result w ∧ fold_eq (wk_fold v) (wk_fold w).

#[export] Instance fold_eq_refl : Reflexive fold_eq.
Proof. intros f. split_and!; [done|done|]. by destruct (df_h f). Qed.
#[export] Instance foldWrite_proper : Proper (fold_eq ==> eq ==> fold_eq) foldWrite.
Proof.
  intros f g (H1 & H2 & H3) d _ <-. split_and!; [done|done|]. cbn. destruct (df_h f), (df_h g); try done. cbn. intros x. rewrite <- !app_assoc. apply H3.
Qed.
#[export] Instance foldAbort_proper : Proper (fold_eq ==> fold_eq) foldAbort.
Proof. by intros f g (H1 & _ & _). Qed.
#[export] Instance foldFinish_proper : Proper (fold_eq ==> eq ==> eq) foldFinish.
Proof.
  intros f g (H1 & H2 & H3) r _ <-. unfold foldFinish. rewrite H1, H2. destruct (df_h f) as [a|], (df_h g) as [b|]; try done. specialize (H3 []). rewrite !app_nil_r in H3. by rewrite H3.
Qed.

Section resume.
Context {SS : SortSlice} {PR : Primitives} {ZS : Zstd} {DC : DigestCodec}.
Context (idx : DedupIndex) (hooks : Hooks) (norm : option Normalizer).

#[local] Instance walkEntry_proper i e : Proper (walk_eq ==> prod_relation walk_eq eq) (walkEntry idx hooks norm i e).
Proof.
  intros v w (H1 & H2 & H3). unfold walkEntry. rewrite H1, H2. destruct (IsExcluded e).
  - split; [|done]. split_and!; [done|done|]. cbn. by apply foldWrite_proper.
  - destruct (verifyEntry _ _ _ _ _ _) as [st []]; (split; [|done]); (split_and!; [done|done|]); cbn; [by apply foldWrite_proper|by apply foldAbort_proper|done].
Qed.
#[local] Instance walkEntries_proper l : Proper (walk_eq ==> prod_relation walk_eq eq) (walkEntries idx hooks norm l).
Proof.
  induction l as [|[i e] l IH]; intros v w Hvw; [by split|]. cbn. destruct (walkEntry_proper i e v w Hvw) as [H1 H2].
  destruct (walkEntry _ _ _ i e v) as [v' e1], (walkEntry _ _ _ i e w) as [w' e2]. cbn in *. subst e2. destruct e1; [by split|]. by apply IH.
Qed.

(** A walk that has seen no error has lost neither its fold nor what it is compared with. *)
Definition intact (v w : walk) : Prop :=
  vr_TotalChunks (wk_result w) = vr_TotalChunks (wk_result v) ∧ vr_DigestVerdict (wk_result w) = vr_DigestVerdict (wk_result v) ∧
  vr_DigestExpected (wk_result w) = vr_DigestExpected (wk_result v) ∧ vr_DigestActual (wk_result w) = vr_DigestActual (wk_result v) ∧
  (vr_Errors (wk_result w) = [] → vr_Errors (wk_result v) = [] ∧ df_want (wk_fold w) = df_want (wk_fold v) ∧ df_verdict (wk_fold w) = df_verdict (wk_fold v) ∧
     (is_Some (df_h (wk_fold w)) ↔ is_Some (df_h (wk_fold v)))).

Lemma walkEntries_intact l : ∀ v w e, walkEntries idx hooks norm l v = (w, e) → intact v w.
Proof.
  induction l as [|[i en] l IH]; intros v w e; cbn; [intros [= <- <-]; by split_and!|].
  assert (Hone : ∀ v1 e1, walkEntry idx hooks norm i en v = (v1, e1) → intact v v1).
  { intros v1 e1. unfold walkEntry. destruct (IsExcluded en); [intros [= <- <-]; split_and!; cbn; try done; intros Hn; split_and!; try done; by rewrite fmap_is_Some|].
    destruct (verifyEntry _ _ _ _ _ _) as [st []]; intros [= <- <-]; split_and!; cbn; try done; intros Hn; try (by apply app_nil in Hn as [_ ?]); split_and!; try done; by rewrite fmap_is_Some. }
  destruct (walkEntry _ _ _ _ _ _) as [v1 [er|]] eqn:Hw; [intros [= <- <-]; by apply (Hone v1 (Some er))|].
  intros Hl. destruct (Hone _ _ eq_refl) as (A1 & A2 & A3 & A4 & A5). destruct (IH _ _ _ Hl) as (B1 & B2 & B3 & B4 & B5). split_and!; try congruence.
  intros Hn. destruct (B5 Hn) as (C1 & C2 & C3 & C4). destruct (A5 C1) as (D1 & D2 & D3 & D4). split_and!; try congruence. by rewrite C4.
Qed.

(** A verification on its way: begun, walked on by spans that succeeded, and at any place between
    them written to a checkpoint and taken up again. *)
Inductive walked (unmarshal : bytes → option streamCheckpoint) (b : Backup) (ea : EntryAccessor) (st : ChunkStore) : StreamVerify → Prop :=
| walked_start sv : NewStreamVerify b (Count ea) st = Ok sv → walked unmarshal b ea st sv
| walked_span sv hi sv' : walked unmarshal b ea st sv → sv_next sv ≤ hi → svRange sv ea (sv_next sv) hi idx hooks norm = (sv', None) → walked unmarshal b ea st sv'
| walked_resume sv ck data sv' : walked unmarshal b ea st sv → svCheckpoint sv = Ok ck → unmarshal data = Some ck →
    ResumeStreamVerify unmarshal b (Count ea) (wk_store (sv_walk sv)) data = Ok sv' → walked unmarshal b ea st sv'.

(** It stands where an uninterrupted walk stands after the first [k] entries. *)
Definition stands (b : Backup) (es : list Entry) (st : ChunkStore) (sv : StreamVerify) (k : nat) : Prop := ∃ sv0 w1, NewStreamVerify b (len es) st = Ok sv0 ∧ (k ≤ length es)%nat ∧
  sv_next sv = Z.of_nat k ∧ sv_total sv = len es ∧ walkEntries idx hooks norm (slice es 0 k) (sv_walk sv0) = (w1, None) ∧ walk_eq (sv_walk sv) w1.

(** A checkpoint keeps all of the walk but the hash state, which it keeps up to what no input
    tells apart. *)
Lemma stands_resumes unmarshal b es st sv k ck data : stands b es st sv k → svCheckpoint sv = Ok ck → unmarshal data = Some ck →
  ∃ sv2, ResumeStreamVerify unmarshal b (len es) (wk_store (sv_walk sv)) data = Ok sv2 ∧ stands b es st sv2 k.
Proof.
  intros (sv0 & w1 & Hn & Hk & H1 & H2 & Hw & (J1 & J2 & J3 & J4 & J5)) Hck Hun. destruct (walkEntries_intact _ _ _ _ Hw) as (I1 & I2 & I3 & I4 & I5). unfold svCheckpoint in Hck.
  rewrite J2 in Hck. destruct (vr_Errors (wk_result w1)) as [|] eqn:Herr; [|done]. injection Hck as <-. destruct (I5 eq_refl) as (_ & I6 & I7 & I8). rewrite H1 in Hun.
  assert (Hres : ∃ sv2, ResumeStreamVerify unmarshal b (len es) (wk_store (sv_walk sv)) data = Ok sv2 ∧ sv_next sv2 = Z.of_nat k ∧ sv_total sv2 = len es ∧ walk_eq (sv_walk sv2) w1).
  { unfold NewStreamVerify in Hn. unfold ResumeStreamVerify, NewStreamVerify. destruct ((len es =? 0) && (0 <? TotalBytes b)); [done|]. injection Hn as <-. cbn in I1, I2, I3, I4, I6, I7, I8 |- *. rewrite Hun. cbn.
    rewrite (proj2 (Z.ltb_ge (Z.of_nat k) 0)), (proj2 (Z.ltb_ge (len es) (Z.of_nat k))) by lia. cbn. rewrite J1. clear Hw Hun J1 J2 H1 H2. destruct w1 as [st1 r1 f1], r1. cbn in *. subst.
    destruct (hasDigest b); cbn in *.
    - destruct (proj2 I8 ltac:(by eexists)) as [x Hx]. rewrite Hx in J5. destruct (df_h (wk_fold (sv_walk sv))) as [a|]; [|done]. cbn. destruct (digest_codec a) as (d & -> & Hd). eexists. split; [reflexivity|].
      split_and!; [done|done|]. split_and!; [done|done|]. split_and!; [done|done|]. cbn. rewrite Hx. intros y. by rewrite Hd.
    - destruct (df_h f1) as [x|] eqn:Hx; [destruct (proj1 I8 ltac:(by eexists)); done|]. eexists. split; [reflexivity|].
      split_and!; [done|done|]. split_and!; [done|done|]. split_and!; [done|done|]. cbn. by rewrite Hx. }
  destruct Hres as (sv2 & HR & R1 & R2 & R3). exists sv2. split; [done|]. by exists sv0, w1.
Qed.

(** Going on for [n] entries. *)
Lemma stands_span b ea es st sv k n `{!Accesses ea es} : stands b es st sv k → (k + n ≤ length es)%nat →
  ∃ sv0 w w', NewStreamVerify b (len es) st = Ok sv0 ∧ walk_eq w w' ∧ ∃ e, walkEntries idx hooks norm (slice es 0 (k + n)) (sv_walk sv0) = (w', e) ∧
    svRange sv ea (Z.of_nat k) (Z.of_nat (k + n)) idx hooks norm = (mkStreamVerify (len es) (match e with Some _ => Z.of_nat k | None => Z.of_nat (k + n) end) w, e).
Proof.
  intros (sv0 & w1 & Hn & Hk & H1 & H2 & Hw & Heq) Hkn. rewrite (svRange_all idx hooks norm sv ea es k n H1 H2 Hkn). assert (Hsp : walkEntries idx hooks norm (slice es 0 (k + n)) (sv_walk sv0) = walkEntries idx hooks norm (slice es k n) w1) by (rewrite (slice_split es 0 k n) by done; by rewrite walkEntries_app, Hw).
  destruct (walkEntries_proper (slice es k n) _ _ Heq) as [K1 K2].
  destruct (walkEntries idx hooks norm (slice es k n) (sv_walk sv)) as [w e], (walkEntries idx hooks norm (slice es k n) w1) as [w' e']. cbn in K1, K2. subst e'. exists sv0, w, w'. split_and!; [done|done|]. exists e. rewrite Hsp. split; [done|]. by destruct e.
Qed.

Lemma walked_stands unmarshal b ea es st sv `{!Accesses ea es} : walked unmarshal b ea st sv → ∃ k, stands b es st sv k.
Proof.
  induction 1 as [sv Hn|sv hi sv' _ [k IH] Hhi Hr|sv ck data sv' _ [k IH] Hck Hun Hr].
  - rewrite ac_count in Hn. exists 0%nat, sv, (sv_walk sv). assert (H0 : sv_next sv = 0 ∧ sv_total sv = len es) by (unfold NewStreamVerify in Hn; destruct (_ && _); by simplify_eq).
    destruct H0. split_and!; try done. lia.
  - pose proof IH as (sv0 & w1 & Hn & Hk & H1 & H2 & _). rewrite H1 in Hr, Hhi.
    assert (Hle : hi ≤ len es). { unfold svRange in Hr. rewrite H1, H2, Z.eqb_refl in Hr. cbn in Hr. destruct (Z.ltb_spec (len es) hi); [done|lia]. }
    destruct (stands_span b ea es st sv k (Z.to_nat hi - k) IH ltac:(lia)) as (sv0' & w & w' & Hn' & Heq & e & Hw & Hs). replace (k + (Z.to_nat hi - k))%nat with (Z.to_nat hi) in Hs, Hw by lia.
    rewrite Z2Nat.id in Hs by lia. rewrite Hr in Hs. injection Hs as -> <-. exists (Z.to_nat hi), sv0', w'. cbn [sv_next sv_total sv_walk]. rewrite Z2Nat.id by lia. split_and!; try done. lia.
  - rewrite ac_count in Hr. destruct (stands_resumes unmarshal b es st sv k ck data IH Hck Hun) as (sv2 & Hr2 & H2). rewrite Hr in Hr2. injection Hr2 as <-. by exists k.
Qed.

(** C17. A verification in spans is one verification: begun, walked on by any number of spans
    that succeeded and taken up any number of times from a checkpoint between them, it can be
    taken up again from every checkpoint it can write, and the span that goes to the end of
    the entries ends it as the uninterrupted walk ends, with the same error if it has one and
    otherwise the same errors, counts and digest verdict. *)
Theorem verify_resumes unmarshal b ea es st sv : Accesses ea es → walked unmarshal b ea st sv →
  (∀ ck data, svCheckpoint sv = Ok ck → unmarshal data = Some ck → ∃ sv2, ResumeStreamVerify unmarshal b (len es) (wk_store (sv_walk sv)) data = Ok sv2 ∧ walked unmarshal b ea st sv2) ∧
  let '(sv3, e) := svRange sv ea (sv_next sv) (len es) idx hooks norm in
  VerifyStreamed b ea idx st hooks norm = (wk_store (sv_walk sv3), match e with Some e => Err e | None => Ok (svFinish sv3) end).
Proof.
  intros Ha Hwk. destruct (walked_stands unmarshal b ea es st sv Hwk) as [k Hst]. split.
  - intros ck data Hck Hun. destruct (stands_resumes unmarshal b es st sv k ck data Hst Hck Hun) as (sv2 & Hr & _). exists sv2. split; [done|]. eapply walked_resume; [done..|]. by rewrite ac_count.
  - pose proof Hst as (_ & _ & _ & Hk & H1 & _). destruct (stands_span b ea es st sv k (length es - k) Hst ltac:(lia)) as (sv0 & w & w' & Hn & (L1 & L2 & L3) & e & Hw & Hs).
    replace (k + (length es - k))%nat with (length es) in Hs, Hw by lia. rewrite H1, Hs. rewrite (VerifyStreamed_walk idx hooks norm b ea es st), Hn, <- slice_all, Hw.
    destruct e as [e|]; cbn; [by rewrite L1|]. unfold svFinish. cbn. rewrite Z.eqb_refl, L1, L2. do 2 f_equal. symmetry. by apply foldFinish_proper.
Qed.
End resume.

(** ** A store over local packs *)

Section local.
Context {SS : SortSlice} {PR : Primitives} {ZS : Zstd} {DC : DigestCodec}.

(** Reads that change nothing: no frame is cached and no hook is set. *)
Definition local (hooks : Hooks) (cs : ChunkStore) : Prop := OnPackMissing hooks = None ∧ OnChunkFetch hooks = None ∧ cs_frameCache cs = ∅.

Lemma Retrieve_local hooks cs num off : local hooks cs → ∃ res, Retrieve hooks cs num off = (cs, res).
Proof.
  intros (Hm & Hf & Hc). assert (Hp : ∃ res, retrieveFromPack hooks num off cs = (cs, res)).
  { unfold retrieveFromPack, openPackForRead, orFetch. rewrite Hm, Hf. destruct (cs_files cs !! packPath num) as [f|]; [|by eexists].
    destruct (ReadAt f off 8); [by eexists|]. destruct (off <? 0); by eexists. }
  destruct Hp as [res Hp]. exists res. unfold Retrieve, orFetch. rewrite Hc, lookup_empty, Hf, Hp. by destruct (cs_files cs !! packPath num).
Qed.

(** The chunks such a store holds. *)
Definition contentOf (idx : DedupIndex) (hooks : Hooks) (cs : ChunkStore) (h : bytes) : option bytes :=
  match LookupDirect idx h with
  | Ok (Some ie) => match (Retrieve hooks cs (PackNumber ie) (i64 (StoreOffset ie))).2 with Ok d => Some d | Err _ => None end
  | _ => None
  end.

#[export] Instance local_supplies idx hooks cs : local hooks cs → Supplies idx hooks (λ st, st = cs) (contentOf idx hooks cs).
Proof.
  intros Hl. split. intros h data. unfold contentOf. destruct (LookupDirect idx h) as [[ie|]|]; [|done|done]. intros Hd. exists ie. split; [done|]. intros st ->.
  exists cs. split; [|done]. destruct (Retrieve_local hooks cs (PackNumber ie) (i64 (StoreOffset ie)) Hl) as [res Hr]. rewrite Hr in Hd |- *. cbn in Hd. destruct res; by simplify_eq.
Qed.

Context (idx : DedupIndex) (hooks : Hooks) (norm : option Normalizer) (cs : ChunkStore) (Hloc : local hooks cs).
Abbreviation content := (contentOf idx hooks cs).

(** A walk without errors has read every chunk, and folded the bytes of the entries. *)
Lemma walk_reads es : ∀ i w w', wk_store w = cs → Forall (λ e, 0 ≤ ChunkLength e) es → walkEntries idx hooks norm (numberEntries i es) w = (w', None) → vr_Errors (wk_result w') = [] →
  Forall (suits norm content) es ∧ wk_store w' = cs ∧ df_want (wk_fold w') = df_want (wk_fold w) ∧ df_verdict (wk_fold w') = df_verdict (wk_fold w) ∧
  df_h (wk_fold w') = (λ x, x ++ concat (bytesOf content <$> es)) <$> df_h (wk_fold w).
Proof.
  induction es as [|e es IH]; intros i w w' Hst Hpos.
  { intros [= <-] _. split_and!; try done. destruct (df_h (wk_fold w)); [|done]. cbn. by rewrite app_nil_r. }
  apply Forall_cons in Hpos as [He Hpos]. cbn [numberEntries walkEntries]. destruct (walkEntry _ _ _ _ _ _) as [w1 [er|]] eqn:H1; [done|]. intros Hw Hn.
  assert (Hone : vr_Errors (wk_result w1) = []) by (by apply (walkEntries_intact _ _ _ _ _ _ _ Hw)).
  assert (H2 : suits norm content e ∧ wk_store w1 = cs ∧ df_want (wk_fold w1) = df_want (wk_fold w) ∧ df_verdict (wk_fold w1) = df_verdict (wk_fold w) ∧
    df_h (wk_fold w1) = (λ x, x ++ bytesOf content e) <$> df_h (wk_fold w)).
  { unfold walkEntry in H1. unfold suits, bytesOf. destruct (IsExcluded e); [by injection H1 as <-|]. unfold verifyEntry in H1. unfold contentOf. rewrite Hst in H1.
    destruct (LookupDirect idx (ChunkHash e)) as [[ie|]|]; [|injection H1 as <-; cbn in Hone; by apply app_nil in Hone as [_ ?]..].
    destruct (Retrieve_local hooks cs (PackNumber ie) (i64 (StoreOffset ie)) Hloc) as [[d|er] Hr]; rewrite Hr in H1 |- *.
    2:{ destruct er; simplify_eq; cbn in Hone; by apply app_nil in Hone as [_ ?]. }
    destruct (bool_decide_reflect (strongOf norm d = ChunkHash e)) as [Hh|]; cbn [negb] in H1; [|injection H1 as <-; cbn in Hone; by apply app_nil in Hone as [_ ?]].
    destruct (Z.eqb_spec (len d) (ChunkLength e)) as [Hl|]; cbn [negb] in H1; [|injection H1 as <-; cbn in Hone; by apply app_nil in Hone as [_ ?]].
    injection H1 as <-. cbn. split_and!; try done. by exists d. }
  destruct H2 as (A1 & A2 & A3 & A4 & A5). destruct (IH (i + 1) w1 w' A2 Hpos Hw Hn) as (B1 & B2 & B3 & B4 & B5). split_and!; [by constructor|done|congruence|congruence|].
  rewrite B5, A5. destruct (df_h (wk_fold w)); [|done]. cbn. by rewrite <- app_assoc.
Qed.

(** Entries end to end from [o]. *)
Fixpoint endToEnd (o : Z) (es : list Entry) : Prop :=
  match es with [] => True | e :: es => VolumeOffset e = o ∧ 0 ≤ ChunkLength e ∧ endToEnd (o + ChunkLength e) es end.

Lemma len_bytesOf e : 0 ≤ ChunkLength e → suits norm content e → len (bytesOf content e) = ChunkLength e.
Proof. intros Hp. unfold suits, bytesOf. destruct (IsExcluded e); [intros _; rewrite length_zeros; lia|]. by intros (d & -> & _ & Hl). Qed.

Lemma endToEnd_contiguous es : ∀ o, endToEnd o es → Forall (suits norm content) es → contiguous o (writeOf content <$> es) ∧ Forall (λ e, 0 ≤ ChunkLength e) es.
Proof.
  induction es as [|e es IH]; intros o; [done|]. intros (<- & Hp & He) Hs. apply Forall_cons in Hs as [H1 Hs]. destruct (IH _ He Hs) as [H2 H3].
  rewrite fmap_cons. cbn. rewrite len_bytesOf by done. split; [by split|by constructor].
Qed.
Lemma endToEnd_nonneg es : ∀ o, endToEnd o es → Forall (λ e, 0 ≤ ChunkLength e) es.
Proof. induction es as [|e es IH]; intros o; [done|]. intros (_ & Hp & He). constructor; [done|]. by eapply IH. Qed.

Lemma len_all es : Forall (λ e, 0 ≤ ChunkLength e) es → Forall (suits norm content) es → foldr (λ e n, ChunkLength e + n) 0 es = len (concat (bytesOf content <$> es)).
Proof.
  induction 1 as [|e es He _ IH]; intros Hs; [done|]. apply Forall_cons in Hs as [H1 Hs]. cbn. rewrite length_app, IH by done. pose proof (len_bytesOf e He H1). lia.
Qed.

Lemma readBack_all d n : n = len d → limitCopy [(d, Some Chunker.EOF)] n = (d, None).
Proof. intros ->. cbn. destruct (Z.leb_spec (len d) 0); [by destruct d|]. by rewrite Z.ltb_irrefl. Qed.

(** C18. Verification foretells the restore: over local packs, when every entry verifies the
    restore succeeds, and the digest verdict is the one that reading the restored target
    back gives. *)
Theorem verify_foretells_restore b ea es t st' res : Accesses ea es → endToEnd 0 es → TotalBytes b = foldr (λ e n, ChunkLength e + n) 0 es →
  accepting t (TotalBytes b) → VerifyStreamed b ea idx cs hooks norm = (st', Ok res) → VerifyOK res = true →
  ∃ t' rr, RestoreEntries (mkRestorer idx cs hooks norm) b ea t = (cs, t', Ok rr) ∧ len (tg_data t') = TotalBytes b ∧
    VerifyWrittenDigest b [(tg_data t', Some Chunker.EOF)] = Ok (vr_DigestVerdict res).
Proof.
  intros Ha He Htot Hacc. rewrite (VerifyStreamed_walk idx hooks norm b ea es cs). destruct (NewStreamVerify b (len es) cs) as [sv|] eqn:Hn; [|done].
  assert (Hsv : wk_store (sv_walk sv) = cs ∧ wk_fold (sv_walk sv) = if hasDigest b then mkFold (Some []) (ContentDigest b) NoClaim else mkFold None [] DigestNotVerifiable).
  { unfold NewStreamVerify in Hn. destruct (_ && _); [done|]. by injection Hn as <-. } destruct Hsv as [Hs0 Hf0].
  destruct (walkEntries idx hooks norm (numberEntries 0 es) (sv_walk sv)) as [w [er|]] eqn:Hw; [done|]. intros [= <- <-] Hok.
  assert (Herr : vr_Errors (wk_result w) = []).
  { apply bool_decide_eq_true_1 in Hok. unfold foldFinish in Hok. destruct (df_h (wk_fold w)); [by destruct (bool_decide _)|done]. }
  destruct (walk_reads es 0 _ _ Hs0 (endToEnd_nonneg _ _ He) Hw Herr) as (Hsu & Hst & Hwant & Hver & Hh). destruct (endToEnd_contiguous es 0 He Hsu) as [Hc Hpos].
  rewrite (len_all es Hpos Hsu) in Htot.
  destruct (restore_exact (mkRestorer idx cs hooks norm) b ea es t _ content Ha (local_supplies idx hooks cs Hloc) eq_refl Hsu (conj Hc Htot) Hacc) as (st' & k & Hr & -> & _).
  eexists _, _. split; [exact Hr|]. cbn [tg_data withData]. split; [by rewrite Htot|]. unfold VerifyWrittenDigest. rewrite readBack_all by done.
  rewrite Hf0 in Hwant, Hver, Hh. unfold foldFinish. destruct (hasDigest b); cbn [negb] in *; rewrite Hh; cbn; [|by rewrite Hver].
  cbn in Hwant. rewrite Hwant. by destruct (bool_decide _).
Qed.
End local.

(** ** The small volume *)

Lemma one_local : local noHooks oneStore.
Proof. done. Qed.

Lemma three_endToEnd : endToEnd 0 threeEntries.
Proof. by split_and!. Qed.

(** What verifying the small volume says. *)
Definition smallResult : VerifyResult := mkVerifyResult 3 2 1 [] DigestMatch [] [].
Lemma small_verifies : VerifyStreamed smallBackup (NewSliceEntryAccessor threeEntries) oneIndex oneStore noHooks None = (oneStore, Ok smallResult).
Proof. vm_compute. reflexivity. Qed.

Lemma verify_foretells_restore_witness : ∃ t' rr, RestoreEntries oneRestorer smallBackup (NewSliceEntryAccessor threeEntries) oldTarget = (oneStore, t', Ok rr) ∧
  VerifyWrittenDigest smallBackup [(tg_data t', Some Chunker.EOF)] = Ok DigestMatch.
Proof.
  destruct (verify_foretells_restore oneIndex noHooks None oneStore one_local smallBackup (NewSliceEntryAccessor threeEntries) threeEntries oldTarget oneStore smallResult)
    as (t' & rr & H1 & _ & H2).
  - apply slice_accesses.
  - apply three_endToEnd.
  - reflexivity.
  - by split_and!.
  - apply small_verifies.
  - reflexivity.
  - exists t', rr. split; [exact H1|exact H2].
Defined.

(** A walk of the first [k] entries of the small volume. *)
Definition smallWalk (k : Z) : option StreamVerify :=
  match NewStreamVerify smallBackup 3 oneStore with
  | Ok sv => match svRange sv (NewSliceEntryAccessor threeEntries) 0 k oneIndex noHooks None with (sv, None) => Some sv | _ => None end
  | Err _ => None
  end.

(** The checkpoint after the first [k] entries, by a text that names [k]. *)
Definition smallCheckpoint (data : bytes) : option streamCheckpoint :=
  match data with
  | [k] => match smallWalk k with Some sv => match svCheckpoint sv with Ok ck => Some ck | Err _ => None end | None => None end
  | _ => None
  end.

(** Taken up from a checkpoint after the first entry, and from another after the second. *)
Lemma small_walked : ∃ sv, walked oneIndex noHooks None smallCheckpoint smallBackup (NewSliceEntryAccessor threeEntries) oneStore sv ∧ sv_next sv = 2.
Proof.
  eexists. split.
  - eapply (walked_resume _ _ _ _ _ _ _ _ _ [2]).
    + eapply (walked_span _ _ _ _ _ _ _ _ 2).
      * eapply (walked_resume _ _ _ _ _ _ _ _ _ [1]).
        -- eapply (walked_span _ _ _ _ _ _ _ _ 1); [apply walked_start; vm_compute; reflexivity|vm_compute; discriminate|vm_compute; reflexivity].
        -- vm_compute. reflexivity.
        -- vm_compute. reflexivity.
        -- vm_compute. reflexivity.
      * vm_compute. discriminate.
      * vm_compute. reflexivity.
    + vm_compute. reflexivity.
    + vm_compute. reflexivity.
    + vm_compute. reflexivity.
  - reflexivity.
Qed.

Lemma verify_resumes_witness : ∃ sv, walked oneIndex noHooks None smallCheckpoint smallBackup (NewSliceEntryAccessor threeEntries) oneStore sv ∧ sv_next sv = 2 ∧
  let '(sv3, e) := svRange sv (NewSliceEntryAccessor threeEntries) 2 3 oneIndex noHooks None in
  VerifyStreamed smallBackup (NewSliceEntryAccessor threeEntries) oneIndex oneStore noHooks None = (wk_store (sv_walk sv3), match e with Some e => Err e | None => Ok (svFinish sv3) end).
Proof.
  destruct small_walked as (sv & Hw & Hn). exists sv. split; [exact Hw|]. split; [exact Hn|].
  destruct (verify_resumes oneIndex noHooks None smallCheckpoint smallBackup (NewSliceEntryAccessor threeEntries) threeEntries oneStore sv (slice_accesses _) Hw) as [_ H]. rewrite Hn in H. exact H.
Defined.

(** ** What a span can do *)

(** A span that ends before it starts is accepted and moves the walk back: the entry
    after it is folded twice, and a backup that verifies is reported as a mismatch. *)
Theorem span_rewinds :
  match smallWalk 3 with
  | Some sv =>
      vr_DigestVerdict (svFinish sv) = DigestMatch ∧
      let '(sv1, e1) := svRange sv (NewSliceEntryAccessor threeEntries) 3 2 oneIndex noHooks None in
      let '(sv2, e2) := svRange sv1 (NewSliceEntryAccessor threeEntries) 2 3 oneIndex noHooks None in
      (e1, e2) = (None, None) ∧ vr_DigestVerdict (svFinish sv2) = DigestMismatch
  | None => False
  end.
Proof. vm_compute. split; [reflexivity|]. split; reflexivity. Qed.

(** The same volume with its pack to be downloaded; the network is down, then up. *)
Definition remoteStore : ChunkStore := newChunkStore None 13 1 0 None.
Definition networkDown : Hooks := mkHooks None (Some (λ fs _, (fs, Some (FetchOther 1)))) None None.
Definition networkUp : Hooks := mkHooks None (Some (λ fs _, (<[packPath 0 := frameOf [1; 2; 3; 4] 4]> fs, None))) None None.
Definition zerosFirst : list Entry := [mkEntry 0 (zeros 32) 3 true; mkEntry 3 oneHash 4 false].
Definition zerosBackup : Backup :=
  mkBackup [97] None [] 0 0 7 zerosFirst [] [] 2 1 0 4 12 0 0 [] (hexEncode (Sum256 [0; 0; 0; 1; 2; 3; 4])) DigestCoversSourceStreamV1 [] [] 0 0 [] [] [] [] 0 [].

(** A span stopped by a failed download keeps what it folded but not how far it came: the
    checkpoint taken then resumes at the span's start with the entries already folded, and
    an intact backup is reported as a mismatch. *)
Theorem failed_span_checkpoint_mismatch : let ea := NewSliceEntryAccessor zerosFirst in
  match NewStreamVerify zerosBackup 2 remoteStore, (VerifyStreamed zerosBackup ea oneIndex remoteStore networkUp None).2 with
  | Ok sv0, Ok whole =>
      let '(sv1, e1) := svRange sv0 ea 0 2 oneIndex networkDown None in
      match svCheckpoint sv1 with
      | Ok ck =>
          match ResumeStreamVerify (λ _, Some ck) zerosBackup 2 remoteStore [] with
          | Ok sv2 =>
              let '(sv3, e3) := svRange sv2 ea 0 2 oneIndex networkUp None in
              e1 = Some (VeFetch 1 (StFetch 0 (FetchOther 1))) ∧ e3 = None ∧ vr_DigestVerdict whole = DigestMatch ∧ vr_DigestVerdict (svFinish sv3) = DigestMismatch
          | Err _ => False
          end
      | Err _ => False
      end
  | _, _ => False
  end.
Proof. vm_compute. split; [reflexivity|]. split; [reflexivity|]. split; reflexivity. Qed.
