(* ===== verification/Roundtrip.v ===== *)
(** * Backup, then restore

    The pipeline, the manifest repository, the index, the pack store and the restorer
    composed: what is backed up is what a restore writes. *)

From S2P Require Import Chunker.
From S2P Require Import Prelude GoBytes GoRuntime GoFiles Hashes HashTable HashIndex Bloom Delta Fold Crypto Dedup PackStore Packs Preprocess RepoConfig Rebuild Prune Segment Resume.
From S2P Require Import Sequencer Pipeline Backups.
From S2P Require Import GoPath Restore FileRestore Restored FilesRestored Verified.

Section roundtrip.
Context {MR : MapRange} {SS : SortSlice} {PR : Primitives} {ZS : Zstd} {DC : DigestCodec}.

Lemma stored_entryFor p c : 0 ≤ Offset c < 2 ^ 63 → 0 ≤ Length c < 2 ^ 32 → DnmFile.storedEntry (entryFor p c) = entryFor p c.
Proof. intros Ho Hl. unfold DnmFile.storedEntry, entryFor. cbn. by rewrite i64_id, u32_id by (unfold is_i64, is_u32; lia). Qed.

Lemma tiled_bounds chs : ∀ o, 0 ≤ o → tiled o chs → Forall (λ c, o ≤ Offset c ∧ Length c = len (Data c) ∧ Offset c + Length c ≤ o + len (concat (Data <$> chs))) chs.
Proof.
  induction chs as [|c chs IH]; intros o Ho; [done|]. intros (<- & Hl & Ht). cbn. rewrite length_app. constructor; [split_and!; [done|done|lia]|].
  eapply Forall_impl; [apply (IH (Offset c + Length c) ltac:(lia) Ht)|]. cbn. intros x (? & ? & ?). split_and!; lia.
Qed.

Lemma tiled_contiguous p content chs : ∀ o, (∀ c, c ∈ chs → content (strongOf (pl_norm p) (Data c)) = Some (Data c)) → tiled o chs → contiguous o (writeOf content <$> (entryFor p <$> chs)).
Proof.
  induction chs as [|c chs IH]; intros o Hc; [done|]. intros (<- & Hl & Ht). rewrite !fmap_cons. cbn. unfold bytesOf. cbn. rewrite Hc by left. cbn. rewrite <- Hl.
  split; [done|]. apply IH; [|done]. intros c' Hc'. apply Hc. by right.
Qed.

Lemma run_id p o vol n oc r r' res : run p o false vol n oc r = (r', Ok res) → re_BackupID res = runID p o.
Proof.
  unfold run, complete. fold (runID p o). intros H. destruct (negb (pl_bound p)); [done|]. destruct (_ && _); [done|]. destruct (openIndex p o false n r) as [r1 [d|]]; [|done].
  destruct (digestStart p); [|done]. destruct (_ && _); [done|]. destruct (openEntries _ _ _ _); [|done]. destruct (storeLoop _ _ _ _ _) as [s [e|]]; [done|].
  destruct (oc_workerErr oc), (oc_chunker oc); try done. destruct (CloseStore _ _) as [st [e|]]; [done|]. destruct (ou_flush o) as [[n1 n2] n3]. destruct (DFlush _ _ _ _) as [d' [e|]]; [done|].
  destruct (match se_stream _ with Some _ => _ | None => _ end); [|done]. destruct (ou_close o) as [[[c1 c2] c3] c4]. destruct (DClose _ _ _ _ _) as [[d2 dir] x]. by simplify_eq.
Qed.

(** What a completed backup leaves to a reader: the manifest loads, its entries tile the
    source stream, the index and the packs supply the chunks. *)
Section loaded.
Context (K : bytes → Prop) (p : Pipeline) (o : outer) (parseJSON : bytes → option Dnm.Backup) (vol : bytes) (rdr : Reader) (l : bytes).
Context (w : nat) (s : goroutines (Chunk * bytes) PreparedChunk) (we : store_err) (b : bool) (r : repo) (bs : list IndexEntry) (ess : list (list DeltaEntry)) (fes : list Dnm.FileEntry).
Let chs := (chunkStream p rdr).1.
Let m res := pl_StampManifest p (manifestOf p o vol (len l) (Some (Sum256 l)) res).

(** The backup runs to its end over a healthy repository, and its chunks are told apart by
    their identities. *)
Record backed_up : Prop := {
  bu_runnable : runnable p o; bu_checkpoints : checkpoints_ok p (runID p o); bu_fresh : pl_resume p = None; bu_start : pl_StartPackNum p = 0;
  bu_stream : delivered rdr 0 = (l, EOF); bu_length : len l < 2 ^ 63; bu_chunks : Forall (λ c, len (Data c) < 2 ^ 32) chs;
  bu_prepared : preparable p K o chs; bu_completes : completes p o (Some []) rdr w s; bu_healthy : healthy p K r bs ess;
  bu_packs : findLatestPack (packsOf r) + len chs < 2 ^ 32; bu_index : Z.of_nat (size (indexMap bs ess)) + len chs ≤ 2 ^ 35;
  bu_savable : ∀ res, re_BackupID res = runID p o → savable p o (m res) (runID p o) fes (entryFor p <$> chs);
  bu_total : ∀ res, Dnm.TotalBytes (m res) = len l;
  bu_apart : ∀ c data, c ∈ chs → K data → strongOf (pl_norm p) data = strongOf (pl_norm p) (Data c) → data = Data c }.

Lemma backup_loaded raw : backed_up →
  ∃ r' res d, Backup p o vol (len l) (outcomeAt p (Some []) rdr we b s) r = (r', Ok res) ∧
    let bk := DnmFile.loaded (m res) fes (entryFor p <$> chs) in
    let cs := NewChunkStore (rp_chunks r') (c_PackFileMaxSize (pl_cfg p)) (c_CompressionLevel (pl_cfg p)) (pl_key p) in
    ManifestRepo.saved parseJSON (rp_manifests r') (runID p o) (m res) fes (entryFor p <$> chs) ∧ NewDedupIndex (rp_index r') raw (pl_indexKey p) = Ok d ∧
    re_BackupID res = runID p o ∧ Dnm.TotalBytes bk = len l ∧ Dnm.Entries bk = entryFor p <$> chs ∧
    ∃ content, Supplies d noHooks (λ st, st = cs) content ∧ laid (pl_norm p) content (Dnm.Entries bk) l.
Proof.
  intros [Hru Hck Hre Hsp Hd Hl63 Hsz32 Hp Hcm Hhe Hfn Hsz Hsav Htb Hdist].
  pose proof (fresh_ready K p o r bs ess (len chs) Hru Hre Hsp Hhe Hfn Hsz) as Hrd.
  destruct (completed_run p K o parseJSON vol (len l) rdr l w s we b r bs ess [] [] fes (Some []) Hru Hck) as (Ht & Hl & r' & res & bs' & H3 & H4 & H5 & H6 & _);
    try done; [unfold digestStart; by rewrite Hre|]. destruct (H6 raw) as (d & Hopen & Hserve). fold chs in Ht, Hl. unfold startOffset in Ht. rewrite Hre in Ht.
  pose proof (tiled_bounds chs 0 ltac:(lia) Ht) as Hb. rewrite Hl in Hb. rewrite Forall_forall in Hb, Hsz32.
  set (cs := NewChunkStore (rp_chunks r') (c_PackFileMaxSize (pl_cfg p)) (c_CompressionLevel (pl_cfg p)) (pl_key p)). set (content := contentOf d noHooks cs).
  assert (Hloc : local noHooks cs) by done.
  assert (Hcont : ∀ c, c ∈ chs → content (strongOf (pl_norm p) (Data c)) = Some (Data c)).
  { intros c Hc. destruct (proj1 (Forall_forall _ _) (pr_chunks _ _ _ _ Hp) c Hc) as (_ & Hz & _).
    destruct (Hserve (strongOf (pl_norm p) (Data c))) as (e & data & HK & Hlk & Hid & Hret); [apply bytes_ok_Sum256|done|right|].
    { apply list_elem_of_fmap. exists (entryFor p c). split; [done|]. by apply list_elem_of_fmap_2. }
    unfold content, contentOf. rewrite Hlk, (Hret noHooks cs) by done. cbn. f_equal. by apply (Hdist c). }
  assert (Hent : DnmFile.storedEntry <$> (entryFor p <$> chs) = entryFor p <$> chs).
  { rewrite <- list_fmap_compose. apply list_fmap_ext. intros i c Hi. cbn. destruct (Hb c (list_elem_of_lookup_2 _ _ _ Hi)) as (? & ? & ?).
    specialize (Hsz32 c (list_elem_of_lookup_2 _ _ _ Hi)). apply stored_entryFor; lia. }
  exists r', res, d. split; [exact H3|]. split; [exact H4|]. split; [exact Hopen|]. split; [by eapply run_id|]. split; [cbn; rewrite Htb; apply i64_id; unfold is_i64; lia|]. split; [exact Hent|].
  exists content. split; [by apply local_supplies|]. change (Dnm.Entries _) with (DnmFile.storedEntry <$> (entryFor p <$> chs)). rewrite Hent. split; [by apply tiled_contiguous| | |done].
  - rewrite <- Hl. f_equal. rewrite <- list_fmap_compose. apply list_fmap_ext. intros i c Hi. cbn. unfold bytesOf. cbn. by rewrite Hcont by (by eapply list_elem_of_lookup_2).
  - apply Forall_fmap, Forall_forall. intros c Hc. unfold suits. cbn. exists (Data c). split_and!; [by apply Hcont|done|]. symmetry. by apply (Hb c Hc).
Qed.
End loaded.

(** C2. What is backed up is restored: over a healthy repository, a backup that is not
    cancelled, loaded from its manifest and restored from the index and the packs it left,
    writes exactly the bytes of the source, whatever the schedule of the backup, the
    target's old contents and the order of packs, provided the chunks of the repository
    are told apart by their identities. *)
Theorem backup_restore_roundtrip K p o parseJSON vol rdr l w s we b r bs ess fes raw t :
  backed_up K p o vol rdr l w s r bs ess fes → accepting t (len l) →
  ∃ r' res bk d rr, Backup p o vol (len l) (outcomeAt p (Some []) rdr we b s) r = (r', Ok res) ∧
    ManifestRepo.Load parseJSON (rp_manifests r') (runID p o) = Ok bk ∧ NewDedupIndex (rp_index r') raw (pl_indexKey p) = Ok d ∧
    let cs := NewChunkStore (rp_chunks r') (c_PackFileMaxSize (pl_cfg p)) (c_CompressionLevel (pl_cfg p)) (pl_key p) in
    RestoreBackup (mkRestorer d cs noHooks (pl_norm p)) bk t = (cs, withData t l, Ok rr).
Proof.
  intros Hbu Hacc. destruct (backup_loaded K p o parseJSON vol rdr l w s we b r bs ess fes raw Hbu) as (r' & res & d & H1 & [H2 _] & H3 & _ & Htot & _ & content & HS & [Hc Hb Hsu _]).
  set (bk := DnmFile.loaded _ _ _) in *. set (cs := NewChunkStore _ _ _ _) in *.
  destruct (restore_exact (mkRestorer d cs noHooks (pl_norm p)) bk (DnmAccess.NewSliceEntryAccessor (Dnm.Entries bk)) (Dnm.Entries bk) t (λ st, st = cs) content)
    as (st' & k & Hr & -> & _); [apply DnmAccess.slice_accesses|done|done|done|split; [done|by rewrite Htot, Hb]|by rewrite Htot|].
  eexists r', res, bk, d, _. split_and!; [exact H1|exact H2|exact H3|]. rewrite Hb in Hr. exact Hr.
Qed.
End roundtrip.

Lemma three_told_apart : Forall (λ d, Forall (λ d', Sum256 d = Sum256 d' → d = d') (Data <$> threeChunks)) (Data <$> threeChunks).
Proof. by_eval. Qed.

Lemma small_backed_up s : completes smallPipeline smallOuter (Some []) tenBytes 2 s →
  backed_up smallChunks smallPipeline smallOuter [] tenBytes [1; 2; 3; 4; 5; 6; 7; 8; 9; 10] 2 s newRepo [] [] [].
Proof.
  intros Hs. split; rewrite ?small_chunks; cbn [fst].
  - apply small_runnable.
  - exact I.
  - reflexivity.
  - reflexivity.
  - reflexivity.
  - vm_compute. reflexivity.
  - eapply Forall_impl; [exact three_hashes|]. intros c (_ & _ & Hl). cbn in Hl |- *. lia.
  - by apply small_preparable, three_hashes.
  - exact Hs.
  - apply small_healthy.
  - vm_compute. reflexivity.
  - vm_compute. discriminate.
  - small_savable.
  - reflexivity.
  - intros c data Hc Hd Heq. pose proof three_told_apart as Ht. rewrite Forall_forall in Ht. specialize (Ht data Hd). rewrite Forall_forall in Ht.
    apply Ht; [by apply list_elem_of_fmap_2|exact Heq].
Qed.

Lemma backup_restore_roundtrip_witness : ∃ s r' res bk d rr, completes smallPipeline smallOuter (Some []) tenBytes 2 s ∧
  Backup smallPipeline smallOuter [] 10 (outcomeAt smallPipeline (Some []) tenBytes StSlice false s) newRepo = (r', Ok res) ∧
  ManifestRepo.Load (λ _, None) (rp_manifests r') [97] = Ok bk ∧
  let cs := NewChunkStore (rp_chunks r') 13 1 None in
  RestoreBackup (mkRestorer d cs noHooks None) bk oldTarget = (cs, withData oldTarget [1; 2; 3; 4; 5; 6; 7; 8; 9; 10], Ok rr).
Proof.
  destruct (small_completes smallPipeline (Some []) tenBytes 2 eq_refl ltac:(lia)) as (s & Hs).
  destruct (backup_restore_roundtrip smallChunks smallPipeline smallOuter (λ _, None) [] tenBytes [1; 2; 3; 4; 5; 6; 7; 8; 9; 10] 2 s StSlice false newRepo [] [] [] 640 oldTarget)
    as (r' & res & bk & d & rr & H1 & H2 & _ & H3).
  - by apply small_backed_up.
  - by split_and!.
  - exists s, r', res, bk, d, rr. split; [exact Hs|]. split; [exact H1|]. split; [exact H2|exact H3].
Defined.
