(* ===== verification/FileRoundtrip.v ===== *)
(** * Files: walk, backup, restore

    The walk, the reader of its stream, the backup pipeline, the manifest repository, the
    index, the pack store and the file restorer composed: the tree that was walked is the
    tree that is restored. *)

From S2P Require Import Chunker.
From S2P Require Import Prelude GoBytes GoRuntime GoFiles GoPath Hashes HashTable HashIndex Bloom Delta Fold Crypto Dedup PackStore Packs Preprocess RepoConfig Rebuild Prune Segment Resume.
From S2P Require Import Sequencer Pipeline Backups.
From S2P Require Import FileMode FileStream FileWalk Restore FileRestore Restored FilesRestored TreeRestored Roundtrip.
From S2P Require Import Dnm DnmFile DnmAccess ManifestRepo.

(** ** The target *)

(** A target directory that can be made, with nothing below it. *)
Record fresh_target (t0 : tree) (target : path) : Prop := {
  ft_open : open_to t0 target;
  ft_empty : ∀ q, q ≠ [] → t0 !! (target ++ q) = None }.

Lemma prefixes_below (target q x : path) : x ∈ prefixes (target ++ q) → x ∈ prefixes target ∨ ∃ k, (0 < k ≤ length q)%nat ∧ x = target ++ take k q.
Proof.
  intros (_ & n & Hn & ->)%prefixes_inv. rewrite length_app in Hn. destruct (decide (n ≤ length target)%nat) as [Hle|Hgt].
  - left. rewrite take_app_le by lia. apply take_in_prefixes. lia.
  - right. exists (n - length target)%nat. split; [lia|]. by rewrite take_app_ge by lia.
Qed.

Lemma fresh_open_to t0 target q : fresh_target t0 target → open_to t0 (target ++ q).
Proof.
  intros [Ho He] x [Hx|(k & Hk & ->)]%prefixes_below; [by apply Ho|]. right. apply He. intros E. apply (f_equal length) in E. rewrite length_take in E. cbn in E. lia.
Qed.

(** ** The restored tree *)

(** A node and what a restore makes of it: the bytes, the permission bits and the time of a
    file, the permission bits and the time of a directory, the target of a link. *)
Definition restoredAs (n n' : node) : Prop :=
  match n, n' with
  | NFile d mode mt, NFile d' mode' mt' => d' = d ∧ mode' = Z.land mode 511 ∧ (mt = None ∨ mt' = mt)
  | NDir mode mt, NDir mode' mt' => mode' = Z.land mode 511 ∧ (mt = None ∨ mt' = mt)
  | NLink target, NLink target' => target' = target
  | _, _ => False
  end.

(** The tree [t'] holds below [target] what a walk of [root] in [t] lists, and is [t0]
    elsewhere, up to the directories above [target]. *)
Record copied (t : tree) (root : path) (m : Matcher) (t0 t' : tree) (target : path) : Prop := {
  cp_there : ∀ rel n, rel ≠ [] → listed t root m rel n → ∃ n', t' !! (target ++ rel) = Some n' ∧ restoredAs n n';
  cp_only : ∀ rel, rel ≠ [] → is_Some (t' !! (target ++ rel)) → ∃ n, listed t root m rel n;
  cp_rest : ∀ q, q ∉ prefixes target → (∀ rel, q ≠ target ++ rel) → t' !! q = t0 !! q }.

Lemma listed_above t root m rel n k : listed t root m rel n → (0 < k ≤ length rel)%nat → ∃ n', listed t root m (take k rel) n'.
Proof.
  intros [Hn Hk Ha] Hlt. destruct (decide (k = length rel)) as [->|Hne]; [rewrite take_ge by lia; by exists n|]. destruct (Ha k ltac:(lia)) as [(mode & mt & Hd) He].
  exists (NDir mode mt). split; [done|done|]. intros j Hj. rewrite length_take in Hj. rewrite take_take, Nat.min_l by lia. apply Ha. lia.
Qed.

(** ** The catalog of a walk as a selection *)

Section selection.
Context (t : tree) (m : Matcher) (root target : path) (gs : list FileEntry) (t0 : tree).
Context (Hnames : ∀ q n, t !! q = Some n → Forall plainName q).
Context (Hgs : ∀ g, g ∈ gs → ∃ rel n, rel ≠ [] ∧ listed t root m rel n ∧ ranged g (entryOfNode 0 rel n)).
Context (Hkeys : NoDup (fileKey <$> gs)) (Hfresh : fresh_target t0 target).

Lemma ranged_kind g rel n : ranged g (entryOfNode 0 rel n) → IsDir g = isDirNode n ∧ IsSymlink g = (match n with NLink _ => true | _ => false end) ∧ Path g = JoinSlash rel.
Proof. unfold ranged. destruct (hasData _); [intros [o ->]|intros ->]; by destruct n. Qed.

Lemma at_target g rel n : rel ≠ [] → listed t root m rel n → ranged g (entryOfNode 0 rel n) → at_ target g = target ++ rel.
Proof.
  intros Hne [Hn _ _] Hr. unfold at_. destruct (ranged_kind _ _ _ Hr) as (_ & _ & ->). apply JoinPath_plain; [done|]. by eapply names_below.
Qed.

Lemma at_inj g g' : g ∈ gs → g' ∈ gs → at_ target g = at_ target g' → g = g'.
Proof.
  intros Hg Hg' E. destruct (Hgs g Hg) as (rel & n & Hne & Hl & Hr), (Hgs g' Hg') as (rel' & n' & Hne' & Hl' & Hr').
  rewrite (at_target g rel n), (at_target g' rel' n') in E by done. apply app_inv_head in E as ->. apply (NoDup_fmap_inj_elem fileKey gs); [done|done|done|].
  rewrite (proj1 (ranged_key _ _ Hr)), (proj1 (ranged_key _ _ Hr')). unfold fileKey. f_equal; by destruct n, n'.
Qed.

(** A directory above an entry, or the directory it is. *)
Lemma dirPart_below g rel n q : rel ≠ [] → listed t root m rel n → ranged g (entryOfNode 0 rel n) → q ∈ prefixes (dirPart target g) →
  q ∈ prefixes target ∨ ∃ k, (0 < k ≤ length rel)%nat ∧ q = target ++ take k rel ∧ ∃ mode mt, t !! (root ++ take k rel) = Some (NDir mode mt).
Proof.
  intros Hne Hl Hr. unfold dirPart. rewrite (at_target g rel n) by done. destruct (ranged_kind _ _ _ Hr) as (-> & _ & _). destruct Hl as [Hn _ Hab].
  destruct (isDirNode n) eqn:Ed.
  - intros [Hq|(k & Hk & ->)]%prefixes_below; [by left|]. right. exists k. split; [done|]. split; [done|]. destruct (decide (k = length rel)) as [->|Hlt].
    + rewrite take_ge by lia. rewrite Hn. destruct n; try done. eauto.
    + apply (Hab k). lia.
  - assert (Hdir : DirOf (target ++ rel) = target ++ take (length rel - 1) rel). { unfold DirOf. assert (length rel ≠ 0%nat) by (by destruct rel). rewrite length_app, take_app_ge by lia. do 2 f_equal. lia. }
    rewrite Hdir. intros [Hq|(k & Hk & ->)]%prefixes_below; [by left|]. right. rewrite length_take in Hk. exists k. split; [lia|]. rewrite take_take, Nat.min_l by lia. split; [done|]. apply (Hab k). lia.
Qed.

Lemma walked_arranged : arranged target gs t0.
Proof.
  split.
  - intros g Hg. destruct (Hgs g Hg) as (rel & n & Hne & Hl & Hr). rewrite (at_target g rel n) by done. by destruct target, rel.
  - apply NoDup_fmap_2_strong; [intros; by apply at_inj|]. by eapply NoDup_fmap_1.
  - intros g Hg Hd (g' & Hg' & Hq). destruct (Hgs g Hg) as (rel & n & Hne & Hl & Hr), (Hgs g' Hg') as (rel' & n' & Hne' & Hl' & Hr').
    rewrite (at_target g rel n) in Hq by done. destruct (ranged_kind _ _ _ Hr) as (Hk & _ & _). rewrite Hd in Hk.
    destruct (dirPart_below g' rel' n' _ Hne' Hl' Hr' Hq) as [Hpre|(k & Hk' & E & mode & mt & Hdir)].
    + apply prefixes_inv in Hpre as (_ & i & Hi & E). apply (f_equal length) in E. rewrite length_app, length_take in E. destruct rel; [done|cbn in E; lia].
    + apply app_inv_head in E. destruct Hl as [Hn _ _]. rewrite E, Hdir in Hn. by simplify_eq.
  - intros g Hg q Hq. destruct (Hgs g Hg) as (rel & n & Hne & Hl & Hr). destruct (dirPart_below g rel n q Hne Hl Hr Hq) as [Hpre|(k & Hk & -> & _)]; [by apply (ft_open _ _ Hfresh)|].
    right. apply (ft_empty _ _ Hfresh). intros E. apply (f_equal length) in E. rewrite length_take in E. cbn in E. lia.
  - intros g Hg _. destruct (Hgs g Hg) as (rel & n & Hne & Hl & Hr). rewrite (at_target g rel n) by done. by rewrite (ft_empty _ _ Hfresh).
Qed.

(** ** The selection in place *)

Context (data : FileEntry → bytes).
Context (Hall : ∀ rel n, rel ≠ [] → listed t root m rel n → ∃ g, g ∈ gs ∧ ranged g (entryOfNode 0 rel n)).
Context (Hdata : ∀ g rel d mode mt, g ∈ gs → rel ≠ [] → listed t root m rel (NFile d mode mt) → ranged g (entryOfNode 0 rel (NFile d mode mt)) → data g = d).

Lemma ranged_meta g rel n : ranged g (entryOfNode 0 rel n) → Mode g = Mode (entryOfNode 0 rel n) ∧ ModTime g = ModTime (entryOfNode 0 rel n) ∧ LinkTarget g = LinkTarget (entryOfNode 0 rel n).
Proof. unfold ranged. destruct (hasData _); [intros [o ->]|intros ->]; done. Qed.

Lemma node_restored t' rel n : rel ≠ [] → listed t root m rel n →
  Forall (placed target data t') (regularsOf gs) → Forall (dirPlaced target t') (dirsOf gs) → Forall (λ f, t' !! at_ target f = Some (NLink (LinkTarget f))) (linksOf gs) →
  ∃ n', t' !! (target ++ rel) = Some n' ∧ restoredAs n n'.
Proof.
  rewrite !Forall_forall. intros Hne Hl Hf Hd Hk. destruct (Hall rel n Hne Hl) as (g & Hg & Hr). rewrite <- (at_target g rel n) by done.
  destruct (ranged_kind _ _ _ Hr) as (Hdir & Hlink & _), (ranged_meta _ _ _ Hr) as (Hmode & Htime & Htar).
  destruct n as [d mode mt|mode mt|tar]; cbn [isDirNode entryOfNode Mode ModTime LinkTarget] in *.
  - destruct (Hf g) as (mt' & Ht & Hmt); [by apply list_elem_of_filter|]. eexists. split; [exact Ht|]. cbn. rewrite <- Htime. split; [by eapply Hdata|done].
  - destruct (Hd g) as (mt' & Ht & Hmt); [by apply list_elem_of_filter|]. eexists. split; [exact Ht|]. cbn. by rewrite <- Htime.
  - eexists. split; [apply Hk; by apply list_elem_of_filter|]. exact Htar.
Qed.

Lemma selection_copied t' : Forall (placed target data t') (regularsOf gs) → Forall (dirPlaced target t') (dirsOf gs) → Forall (λ f, t' !! at_ target f = Some (NLink (LinkTarget f))) (linksOf gs) →
  (∀ q, q ∉ at_ target <$> gs → ¬ region target gs q → t' !! q = t0 !! q) → copied t root m t0 t' target.
Proof.
  intros Hf Hd Hk Hoth.
  assert (Hat : ∀ g, g ∈ gs → ∃ rel n, rel ≠ [] ∧ listed t root m rel n ∧ at_ target g = target ++ rel).
  { intros g Hg. destruct (Hgs g Hg) as (rel & n & ? & ? & ?). exists rel, n. split; [done|]. split; [done|]. by eapply at_target. }
  assert (Hreg : ∀ q, region target gs q → q ∈ prefixes target ∨ ∃ rel n, rel ≠ [] ∧ listed t root m rel n ∧ q = target ++ rel).
  { intros q (g & Hg & Hq). destruct (Hgs g Hg) as (rel & n & Hne & Hl & Hr). destruct (dirPart_below g rel n q Hne Hl Hr Hq) as [?|(k & Hlt & -> & _)]; [by left|].
    right. destruct (listed_above _ _ _ _ _ k Hl Hlt) as (n' & Hl'). exists (take k rel), n'. split; [|done]. intros E. apply (f_equal length) in E. rewrite length_take in E. cbn in E. lia. }
  split.
  - intros rel n Hne Hl. by apply node_restored.
  - intros rel Hne Hs. destruct (decide (target ++ rel ∈ at_ target <$> gs)) as [Hin|Hni].
    { apply list_elem_of_fmap in Hin as (g & E & Hg). destruct (Hat g Hg) as (rel' & n & _ & Hl & E'). rewrite E' in E. apply app_inv_head in E as ->. by exists n. }
    destruct (decide (Exists (λ g, target ++ rel ∈ prefixes (dirPart target g)) gs)) as [He|Hn].
    + apply Exists_exists in He. destruct (Hreg (target ++ rel) He) as [(_ & i & Hi & E)%prefixes_inv|(rel' & n & _ & Hl & E%app_inv_head)]; [|subst; by exists n].
      apply (f_equal length) in E. rewrite length_app, length_take in E. destruct rel; [done|cbn in E; lia].
    + rewrite Hoth in Hs; [|done|by rewrite Exists_exists in Hn]. rewrite (ft_empty _ _ Hfresh) in Hs by done. by destruct Hs.
  - intros q Hpre Hq. apply Hoth.
    + intros (g & -> & Hg)%list_elem_of_fmap. destruct (Hat g Hg) as (rel & _ & _ & _ & E). by apply (Hq rel).
    + intros [?|(rel & _ & _ & _ & ->)]%Hreg; [done|]. by apply (Hq rel).
Qed.
End selection.

(** ** The whole trip *)

Section trip.
Context {MR : MapRange} {SS : SortSlice} {PR : Primitives} {ZS : Zstd} {DC : DigestCodec}.

(** The stream and the chunks of a catalog's files. *)
Section sources.
Context (t : tree) (m : Matcher) (root : path) (c : Catalog) (rd : MultiFileReader) (Hnames : ∀ q n, t !! q = Some n → Forall plainName q).
Context (Hw : Walk t m [root] = Ok c) (Hrd : NewMultiFileReader c = Some rd).
Let l := restOf t rd.

Lemma catalog_selection : (∀ g, g ∈ cat_Files c → ∃ rel n, rel ≠ [] ∧ listed t root m rel n ∧ ranged g (entryOfNode 0 rel n)) ∧
  (∀ rel n, rel ≠ [] → listed t root m rel n → ∃ g, g ∈ cat_Files c ∧ ranged g (entryOfNode 0 rel n)).
Proof.
  destruct (walk_catalog t m Hnames [root] c Hw) as (H1 & H2 & _). split.
  - intros g Hg. destruct (H2 g Hg) as (f & ([|i] & root' & rel & n & Hi & Hne & Hl & ->) & Hr); [|done]. injection Hi as <-. by exists rel, n.
  - intros rel n Hne Hl. apply H1. exists 0%nat, root, rel, n. done.
Qed.

Lemma catalog_data g rel n : g ∈ cat_Files c → rel ≠ [] → listed t root m rel n → ranged g (entryOfNode 0 rel n) →
  Unchanged g = false ∧ f_IsExcluded g = false ∧ VolumeExtents g = [] ∧ InlineData g = [] ∧
  (hasData g = false ∧ StreamLength g = 0 ∧ Size g = 0 ∨ 0 ≤ StreamOffset g ∧ 0 < StreamLength g ∧ StreamOffset g + StreamLength g ≤ len l) ∧
  (∀ d mode mt, n = NFile d mode mt → fileBytes l g = d).
Proof.
  intros Hg Hne Hl Hr. destruct (walk_catalog t m Hnames [root] c Hw) as (_ & _ & _ & rd' & Hrd' & _ & _ & Hrng). rewrite Hrd in Hrd'. simplify_eq. fold l in Hrng.
  pose proof (ranged_key _ _ Hr) as [[= Hs Hp] Hd]. rewrite entry_source in Hs. destruct (hasData (entryOfNode 0 rel n)) eqn:Ed.
  - unfold ranged in Hr. rewrite Ed in Hr. destruct Hr as [o Eg]. pose proof Eg as Er. destruct (Hrng g Hg Hd) as (root' & d & Hroot & Hfd & H1 & H2 & H3). rewrite Hs in Hroot. injection Hroot as <-.
    destruct (node_data _ _ _ Ed) as (d' & mode & mt & -> & Hsz). destruct Hl as [Hn _ _]. rewrite (JoinPath_ranged t Hnames root 0 rel (NFile d' mode mt)) in Hfd; [|done|done|unfold ranged; rewrite Ed; by exists o].
    unfold fileData in Hfd. rewrite Hn in Hfd. injection Hfd as <-. subst g. split_and!; try done.
    + right. split; [done|]. split; [|done]. unfold hasData in Ed. cbn in Ed |- *. apply negb_true_iff, Z.eqb_neq in Ed. lia.
    + intros ? ? ? [= <- <- <-]. unfold fileBytes. cbn. exact H3.
  - unfold ranged in Hr. rewrite Ed in Hr. subst g. destruct n as [d mode mt|mode mt|tar]; (split; [done|]; split; [done|]; split; [done|]; split; [done|]); cbn in Ed |- *.
    + apply negb_false_iff, Z.eqb_eq in Ed. destruct d; [|cbn in Ed; lia]. split; [left; split_and!; done|]. intros ? ? ? [= <- <- <-]. done.
    + split; [left; done|]. done.
    + split; [left; done|]. done.
Qed.
End sources.

Lemma restored_source p chs content l parseJSON (r : FileRestorer) ea g : Unchanged g = false → f_IsExcluded g = false → VolumeExtents g = [] → InlineData g = [] →
  StreamLength g = 0 ∧ Size g = 0 ∨ 0 ≤ StreamOffset g ∧ 0 < StreamLength g ∧ StreamOffset g + StreamLength g ≤ len l →
  Accesses ea (entryFor p <$> chs) → laid (fr_norm r) content (entryFor p <$> chs) l → sourced parseJSON r content ea (fileBytes l) g.
Proof.
  intros Hu Hx Hv Hi Hst Hea Hl. exists g, ea, (entryFor p <$> chs), l. unfold locate. rewrite Hu. split; [done|]. split; [done|]. split; [done|]. split; [|done].
  split; [done|by rewrite Hv| |].
  - intros _ _. destruct Hst as [[-> ->]|?]; [by left|by right].
  - apply Forall_fmap, Forall_forall. by left.
Qed.

Lemma saved_accessor parseJSON dir id b fes ents : saved parseJSON dir id b fes ents → BackupID b = id → (length id ≤ 255)%nat →
  Accesses (OpenEntryAccessor dir (DnmFile.loaded b fes ents)) (DnmFile.storedEntry <$> ents).
Proof.
  intros (_ & ea & Hea & Hac) Hid Hlen. unfold OpenEntryAccessor. change (BackupID (DnmFile.loaded b fes ents)) with (take 255 (BackupID b)). rewrite Hid, take_ge, Hea by lia.
  destruct (0 <? Count ea); [done|apply slice_accesses].
Qed.

(** C1. The tree that is walked is the tree that is restored: a catalog walked from a source,
    its files read as one stream into a backup over a healthy repository, the manifest
    loaded back and restored from the index and the packs into an empty target gives every
    file, directory and link the walk lists, at the same path below the target, with the
    same bytes, permission bits, times and link targets, and nothing else; whatever the
    exclusions, the buffer size of the reads and the schedule of the backup, provided the
    catalog's fields fit its format. *)
Theorem file_backup_roundtrip K p o parseJSON vol t m root c rd (n : nat) w s we b r bs ess raw os t0 target :
  (∀ q nd, t !! q = Some nd → Forall plainName q) → Walk t m [root] = Ok c → cat_Files c ≠ [] → Forall (λ f, storedFile f = f) (cat_Files c) → NewMultiFileReader c = Some rd → (0 < n)%nat →
  let l := restOf t rd in
  backed_up K p o vol (readAll t (S (length l)) n rd) l w s r bs ess (cat_Files c) → (length (runID p o) ≤ 255)%nat → permissive os → fresh_target t0 target →
  ∃ r' res bk d st' t' rep, Pipeline.Backup p o vol (len l) (outcomeAt p (Some []) (readAll t (S (length l)) n rd) we b s) r = (r', Ok res) ∧
    ManifestRepo.Load parseJSON (rp_manifests r') (runID p o) = Ok bk ∧ NewDedupIndex (rp_index r') raw (pl_indexKey p) = Ok d ∧
    let cs := NewChunkStore (rp_chunks r') (c_PackFileMaxSize (pl_cfg p)) (c_CompressionLevel (pl_cfg p)) (pl_key p) in
    RestoreFiles os parseJSON (SetFileNormalizer (NewFileRestorer d noHooks (rp_manifests r')) (pl_norm p)) bk target [] cs t0 = (st', t', Ok rep) ∧ copied t root m t0 t' target.
Proof.
  intros Hnames Hw Hne Hst Hrd Hn l Hbu Hid Hos Hfr. destruct (backup_loaded K p o parseJSON vol _ l w s we b r bs ess (cat_Files c) raw Hbu) as (r' & res & d & H1 & H2 & H3 & Hrid & _ & Hent & content & HS & Hlaid).
  set (bm := pl_StampManifest p _) in *. set (chs := (chunkStream p _).1) in *. set (bk := DnmFile.loaded bm _ _) in *. set (cs := NewChunkStore _ _ _ _) in *.
  assert (Hcat : FileCatalog bk = cat_Files c).
  { change (FileCatalog bk) with (storedFile <$> cat_Files c). clear -Hst. induction Hst as [|f fs Hf _ IH]; [done|]. cbn. by rewrite Hf, IH. }
  assert (Hea : Accesses (OpenEntryAccessor (rp_manifests r') bk) (entryFor p <$> chs)).
  { rewrite <- Hent. change (Entries bk) with (DnmFile.storedEntry <$> (entryFor p <$> chs)). eapply saved_accessor; [exact H2| |done]. exact (sa_id _ _ _ _ _ _ (bu_savable _ _ _ _ _ _ _ _ _ _ _ _ Hbu res Hrid)). }
  destruct (catalog_selection t m root c Hnames Hw) as [Hsel Hall]. destruct (walk_catalog t m Hnames [root] c Hw) as (_ & _ & Hnd & _).
  pose proof (walked_arranged t m root target (cat_Files c) t0 Hnames Hsel Hnd Hfr) as Harr.
  destruct (restore_files_ok os parseJSON (SetFileNormalizer (NewFileRestorer d noHooks (rp_manifests r')) (pl_norm p)) (λ st, st = cs) content bk target [] cs t0 (fileBytes l) Hos HS)
    as (st' & t' & rep & H4 & _ & H5 & H6 & H7 & H8 & _); cbn [selected]; rewrite ?Hcat; try done.
  { rewrite Hent in Hlaid. apply Forall_forall. intros g [_ Hg]%list_elem_of_filter. destruct (Hsel g Hg) as (rel & nd & Hrel & Hli & Hra).
    destruct (catalog_data t m root c rd Hnames Hw Hrd g rel nd Hg Hrel Hli Hra) as (D1 & D2 & D3 & D4 & D5 & _). apply (restored_source p chs); try done. tauto. }
  exists r', res, bk, d, st', t', rep. split; [exact H1|]. split; [apply H2|]. split; [exact H3|]. split; [exact H4|]. cbn [selected] in H5, H6, H7, H8. rewrite Hcat in H5, H6, H7, H8.
  apply (selection_copied t m root target (cat_Files c) t0 Hnames Hsel Hfr (fileBytes l) Hall); [|done|done|done|done].
  intros g rel x mode mt Hg Hrel Hli Hra. by eapply (catalog_data t m root c rd Hnames Hw Hrd g rel (NFile x mode mt)).
Qed.
End trip.

(** ** A small trip *)

Definition tripPipeline : Pipeline := SetFileCatalog smallPipeline [] [[115]] tripFiles.

Lemma trip_stream : restOf tripTree tripReader = [1; 2; 3; 4; 5; 6; 7; 8; 9; 10].
Proof. vm_compute. reflexivity. Qed.

Lemma trip_reads : readAll tripTree 11 4 tripReader = [([1; 2; 3; 4], None); ([5; 6; 7; 8], None); ([9; 10], None); ([], Some Chunker.EOF)].
Proof. vm_compute. reflexivity. Qed.

Lemma trip_chunks : chunkStream tripPipeline [([1; 2; 3; 4], None); ([5; 6; 7; 8], None); ([9; 10], None); ([], Some Chunker.EOF)] = (threeChunks, NErr Chunker.EOF).
Proof. vm_compute. reflexivity. Qed.

Lemma trip_savable res : re_BackupID res = runID tripPipeline smallOuter →
  savable tripPipeline smallOuter (pl_StampManifest tripPipeline (manifestOf tripPipeline smallOuter [] 10 (Some (Sum256 [1; 2; 3; 4; 5; 6; 7; 8; 9; 10])) res)) (runID tripPipeline smallOuter) tripFiles
    (entryFor tripPipeline <$> threeChunks).
Proof.
  destruct res. cbn. intros ->. split.
  - reflexivity.
  - reflexivity.
  - vm_compute. by split_and!.
  - split; [|right; by split]. repeat constructor; vm_compute; try done; by split_and!.
  - vm_compute. reflexivity.
Qed.

Lemma trip_backed_up s : let rdr := readAll tripTree (S (length (restOf tripTree tripReader))) 4 tripReader in completes tripPipeline smallOuter (Some []) rdr 2 s →
  backed_up smallChunks tripPipeline smallOuter [] rdr (restOf tripTree tripReader) 2 s newRepo [] [] (cat_Files tripCatalog).
Proof.
  rewrite trip_stream. change (S (length _)) with 11%nat. rewrite trip_reads. cbv zeta. intros Hs. split; rewrite ?trip_chunks; cbn [fst].
  - split; try done. by left.
  - exact I.
  - reflexivity.
  - reflexivity.
  - reflexivity.
  - vm_compute. reflexivity.
  - eapply Forall_impl; [exact three_hashes|]. intros c (_ & _ & Hl). cbn in Hl |- *. lia.
  - by apply small_preparable, three_hashes.
  - exact Hs.
  - split; [by right|done|done].
  - vm_compute. reflexivity.
  - vm_compute. discriminate.
  - exact trip_savable.
  - reflexivity.
  - intros c data Hc Hd Heq. pose proof three_told_apart as Ht. rewrite Forall_forall in Ht. specialize (Ht data Hd). rewrite Forall_forall in Ht.
    apply Ht; [by apply list_elem_of_fmap_2|exact Heq].
Qed.

Lemma trip_listed : listed tripTree [[115]] tripMatcher [[100]; [102]] (NFile [1; 2; 3; 4; 5; 6; 7; 8; 9; 10] 33188 (Some 5)).
Proof.
  split; [reflexivity|vm_compute; reflexivity|]. intros k Hk. cbn in Hk. assert (k = 1%nat) as -> by lia. split; [by exists 448, (Some 4)|vm_compute; reflexivity].
Qed.

Lemma file_backup_roundtrip_witness : ∃ s r' res bk d st' t' rep mt, completes tripPipeline smallOuter (Some []) (readAll tripTree 11 4 tripReader) 2 s ∧
  Pipeline.Backup tripPipeline smallOuter [] 10 (outcomeAt tripPipeline (Some []) (readAll tripTree 11 4 tripReader) StSlice false s) newRepo = (r', Ok res) ∧
  RestoreFiles anyOS (λ _, None) (NewFileRestorer d noHooks (rp_manifests r')) bk homeDir [] (NewChunkStore (rp_chunks r') 13 1 None) ∅ = (st', t', Ok rep) ∧
  t' !! [[116]; [100]; [102]] = Some (NFile [1; 2; 3; 4; 5; 6; 7; 8; 9; 10] 420 mt) ∧ t' !! [[116]; [100]; [120]] = None.
Proof.
  destruct (small_completes tripPipeline (Some []) (readAll tripTree 11 4 tripReader) 2 eq_refl ltac:(lia)) as (s & Hs).
  destruct (file_backup_roundtrip smallChunks tripPipeline smallOuter (λ _, None) [] tripTree tripMatcher [[115]] tripCatalog tripReader 4 2 s StSlice false newRepo [] [] 640 anyOS ∅ homeDir)
    as (r' & res & bk & d & st' & t' & rep & H1 & _ & _ & H2 & [H3 H4 _]).
  - exact trip_names.
  - exact trip_walk.
  - discriminate.
  - repeat constructor.
  - reflexivity.
  - lia.
  - apply trip_backed_up. rewrite trip_stream. exact Hs.
  - cbn. lia.
  - exact anyOS_permissive.
  - split; [intros q Hq; right; apply lookup_empty|intros q _; apply lookup_empty].
  - rewrite trip_stream in H1. assert (Hne : [[100]; [102]] ≠ ([] : path)) by discriminate. destruct (H3 _ _ Hne trip_listed) as (n & Hn & Hr).
    destruct n as [d' mode mt|mode mt|tar]; [destruct Hr as [-> [-> _]]|destruct Hr|destruct Hr].
    exists s, r', res, bk, d, st', t', rep, mt. split; [exact Hs|]. split; [exact H1|]. split; [exact H2|]. split; [exact Hn|].
    destruct (t' !! [[116]; [100]; [120]]) as [nd|] eqn:En; [|reflexivity]. destruct (H4 [[100]; [120]]) as (n & [Hn' Hk _]); [discriminate|by exists nd|].
    exfalso. vm_compute in Hn'. injection Hn' as <-. vm_compute in Hk. discriminate Hk.
Defined.
